(* ===== verification/_CoqProject ===== *)
-Q . S2P
Prelude.v
Intset.v
Fwtree.v
Util.v
Glob.v
Listpack.v
Dict.v
DictScan.v
DictIter.v
Skiplist.v
KvDict.v
Kvstore.v
Cluster.v
ClusterVotes.v
ClusterElection.v
ClusterSlots.v
ClusterInvariant.v
ClusterHandlers.v
ClusterLiveness.v
Lzf.v
Crc.v
HashSlot.v
Rio.v
Rdb.v
Sds.v
Request.v
RequestSafety.v
RequestStream.v
RequestMaster.v
Radix.v
RadixTree.v
RadixSafety.v
RadixIter.v
Backlog.v
BacklogSafety.v
BacklogStream.v
RadixIndex.v
Replication.v
