(* ===== verification/Prelude.v ===== *)
(** * The data structures, formats, requests, replication and cluster bus of Redis

    A model of part of the server under [src/backend/redis-stable/src/] (file names below
    are relative to it), with the theorems that make it correct.  The rest of the
    repository is a web application around it, in TypeScript, and vendored libraries.

    ** The program

    Redis keeps a keyspace of typed values in memory and serves commands over a network.
    Its parts, from the bottom up:
    - encodings of small collections in one block of memory: integer sets (intset.c) and
      listpacks (listpack.c), over conversions between numbers and text (util.c);
    - structures of pointers: the incrementally rehashed hash table (dict.c), the
      skiplist of sorted sets (t_zset.c), and the radix tree (rax.c);
    - the keyspace: one hash table per slot (kvstore.c), with a Fenwick tree of their
      sizes (fwtree.c), scanned with a cursor that survives resizing, and filtered with
      glob patterns (util.c);
    - persistence: snapshots (rdb.c) written to and read from streams (rio.c), with
      compressed strings (lzf_c.c, lzf_d.c) and a checksum (crc64.c, crcspeed.c,
      crccombine.c);
    - requests: what a client sends is gathered in a buffer, cut into commands and run
      (networking.c), in the format that the append-only file and the replicas use as well
      (aof.c); lines of arguments are quoted strings (sds.c);
    - replication: a master feeds the commands that change its data to a buffer of blocks
      that its replicas read, each at its pace, and that keeps a backlog from which a
      replica that comes back goes on (replication.c, networking.c); a replica runs what
      it reads as requests, and passes it on;
    - the cluster: a key belongs to the slot its CRC-16 gives (cluster.h, crc16.c), and
      the nodes agree on the owners of the slots, on failures and on the replicas that
      take over, by messages (cluster_legacy.c).

    ** The files

    Each file has one Module of the same name, except this one.
    - Prelude: machine integers, blocks of memory, lemmas and tactics.
    - Intset: intset.c.  Functions as in the code; [intset] is the header with the
      contents as a block of bytes.
    - Fwtree: fwtree.c, on a list of 64-bit counters.
    - Util: the conversions of util.c ([ll2string], [string2ll] and their kin).
    - Glob: [stringmatchlen] and [prefixmatch] of util.c, and the language of patterns
      they are compared with.
    - Listpack: listpack.c, byte by byte; pointers are offsets.  [listpack] relates a
      block to the list of its encoded elements.
    - Dict, DictScan, DictIter: dict.c.  The two tables with their chains, rehashing and
      the resizing policy; the cursor of SCAN; iterators and fingerprints.
    - Skiplist: the skiplist of t_zset.c, on a heap of nodes.
    - KvDict: what a key-value store asks of its dicts, as two classes ([DictOps], the
      operations, and [DictLaws], what they promise), and the instance of Dict.
    - Kvstore: kvstore.c, over any instance of [DictLaws].
    - Cluster: cluster_legacy.c.  [clusterState] and [clusterNode] are the structures of
      cluster_legacy.h; each handler of a packet is a definition, and
      [clusterProcessPacket] composes them; [clusterHandleSlaveFailover] is the failover.
      ClusterVotes: what handlers do to votes.  ClusterElection: the nodes of a cluster
      with the messages between them, as a step relation ([reach]).  ClusterSlots,
      ClusterInvariant, ClusterHandlers: the invariant of a node's state and its
      preservation.  ClusterLiveness: elections that are won.
    - Lzf: lzf_c.c and lzf_d.c.
    - Crc: crc16.c, crc64.c, crcspeed.c and crccombine.c.
    - HashSlot: [keyHashSlot] of cluster.h and [patternHashSlot] of cluster.c.
    - Rio: rio.c and rio.h.  The generic reads and writes over any backend ([RioIO]);
      [RioWriter] and [RioReader] say what backends promise, and the buffer, the pipe and
      the set of connections are instances.
    - Rdb: lengths, integers and strings of rdb.c, over any such backend.
    - Sds: quoting and the parser of arguments of sds.c.
    - Request: the parsers and the pending commands of networking.c; [client] is the part
      of the structure they use, and [readQueryFromClient] takes the bytes that were read.
      The commands are behind a class ([Server], with [ServerLaws]).  RequestSafety: the
      invariant of a client.  RequestStream: clients that read a stream of commands; a
      [Link] is what a kind of client keeps invariant meanwhile.  RequestMaster: the link of
      a replica to its master.
    - Backlog: the replication buffer.  [server] and [replica] are the fields of the
      structures it uses; a pointer to a block is the number of the block.  The index of
      the blocks is behind a class ([Rax], with [RaxLaws]).  BacklogSafety: the invariant,
      and how feeding keeps it.  BacklogStream: the other operations, and what a server
      comes to by any sequence of them ([run_ops]).
    - Radix: rax.c, on trees as values; a place in a tree is a node with the path to it
      ([plug]).  RadixTree: the list of keys that a tree stands for, and the well-formed
      trees.  RadixSafety: lookup, insertion and removal.  RadixIter: iterators and seeks.
      RadixIndex: the index of the backlog as a radix tree, with the eight bytes of an
      offset as a key, which is an instance of [RaxLaws], and the search in it.
    - Replication: [replicationFeedSlaves], and a master and a replica together.

    ** Conventions

    A function of the code is a function here, with the names of the code.  [None] is
    undefined behaviour or a failed assertion: an access outside a block of memory, a
    pointer to something that is not there, a panic.  A theorem that concludes [Some _]
    therefore also says that the code is safe and returns.  Errors that the code reports
    are values: its integers, or an [option] inside.  Integers are [Z], wrapped to their
    width where the code can wrap.  The machine is little-endian, with 64-bit [size_t].

    Allocation succeeds, since [zmalloc] stops the server otherwise; where the code tries
    ([ztrymalloc], [dictTryExpand]) the outcome is a parameter.  Memory the allocator
    leaves unspecified is a parameter too ([junk]).  So are random numbers, clocks and the
    configuration ([serverEnv] in Cluster), hash functions ([dictType]), what a connection
    accepts and when a replica has too much to read.
    [rdbReportCorruptRDB] returns, as it does in RESTORE; while a file is loaded it ends
    the process.

    Loops that are not structural have fuel, always a bound the code itself respects, and
    theorems show that it is enough by concluding [Some _]: the number of elements or
    bytes left (loops over buckets, nodes, entries, octets; [write_loop], [fd_loop],
    [lzf_loop], [lpValidate_loop]), the width of an integer ([rev_loop], [combine_loop],
    [times_switch]), [CLUSTER_SLOTS] iterations ([for_slots]), the buckets left to
    move ([rehash_all]), the characters of a request or of a line ([split_loop],
    [bulk_loop], [parse_loop]), four times these and twice the pending commands
    ([process_loop]), the bytes that are fed ([feed_loop]), the characters of a key
    ([low_walk], [insert_rest]), the height of a tree ([scan_chain], [next_loop],
    [prev_loop], [raxSeekGreatest]).

    ** What the theorems show

    - Refinement: an operation on the representation is the operation on the abstract
      value -- a set for intsets, a list for listpacks, a map for hash tables, a sorted
      list for skiplists, a map with ordered keys for radix trees, a map per slot with true
      counters for key-value stores, an array for Fenwick trees -- with its result, on every branch, and keeps the invariant.
    - Safety of input: validating, loading and decompressing arbitrary bytes never leaves
      the blocks, and what is accepted is well formed.
    - Round trips: numbers and text, elements of listpacks, compression, strings in
      snapshots.
    - Equivalence with a definition: the glob matcher and the language of its patterns, the
      fast CRC-64 and the bit-by-bit one.
    - Scans and iterators: what SCAN guarantees while the table is resized under it, its
      termination, each entry once for an iterator; the keys from a place on, in both
      directions, for an iterator over a radix tree.
    - Elections: at most one winner per epoch when stale votes are not counted, a run in
      which they are and two replicas win, and the victory of a replica that a majority
      supports, along the calls and deliveries it takes.
    - Requests: reading any bytes keeps a client well formed; commands that were written
      are read back and run, each once and in order, however the bytes arrive.
    - Replication: no block is used after it was freed, and what a replica was sent and is
      still to be sent is the stream from where it starts; when a partial synchronization
      is accepted, and that it goes on where it should; a replica that reads what it was
      sent gets to the state of its master, and passes on what it applied.
    - Where the code misbehaves, what it does: the counters of [kvstoreMoveDict], the
      election above, errors in requests that arrive in pieces
      ([split_request_error_unreported]), replicas attached to one that is being closed
      ([attached_to_closing_replica]), blocks that take more memory than the backlog may
      ([large_block_used_after_free]), keys longer than a node of a radix tree, of which a
      character is lost ([raxRemove_cuts_long_key]); and, as lemmas, the wrap-around of [intsetMoveTail], nodes
      that are not joined ([raxRemove_leaves_chain]), patterns whose class is not
      closed ([Glob.prefixmatch_open_class]), stale announcements
      ([ClusterHandlers.master_to_slave_stale]), failed connections
      ([Rio.rioConnsetWrite_gives_up]), huge lengths ([Rdb.rdb_load_stops]) and strings
      with a single quote ([Sds.needsrepr_single_quote]).

    ** What is not modelled

    Input and output around the structures (sockets, files, the event loop, threads,
    replies to commands), Lua, modules and access control: they are glue, or need the
    operating system.  Of the parts above: random keys, defragmentation and memory reports
    of tables and stores; random elements of listpacks; floating-point conversions; the
    commands on sorted sets; the handshake, the cron, replica migration and the
    configuration file of the cluster; big-endian and vector variants of the checksums;
    in snapshots, doubles, the objects made of strings and the file as a whole; of
    requests, the I/O threads and prefetching; of replication, the connection of a replica
    to its master, the transfer of the snapshot and its own channel, acknowledgements and
    timers, which are about sockets, child processes and clocks, and slot migration; of
    radix trees, the layout of a node in memory, random walks and callbacks on nodes.
    Streams and quicklists are left out for their size.
*)
From stdpp Require Export base numbers list gmap.
From stdpp Require Import options.

#[global] Open Scope Z_scope.

(** ** Machine integers *)

(** [wrapu w z] is the value of [z] converted to a [w]-bit unsigned C integer;
    [wraps w z] the value converted to a [w]-bit two's complement integer. *)
Definition wrapu (w z : Z) : Z := z `mod` 2 ^ w.
Definition wraps (w z : Z) : Z :=
  let u := z `mod` 2 ^ w in if u <? 2 ^ (w - 1) then u else u - 2 ^ w.

Abbreviation u8 := (wrapu 8).
Abbreviation u16 := (wrapu 16).
Abbreviation u32 := (wrapu 32).
Abbreviation u64 := (wrapu 64).
Abbreviation i16 := (wraps 16).
Abbreviation i32 := (wraps 32).
Abbreviation i64 := (wraps 64).

Definition in_u (w z : Z) : Prop := 0 <= z < 2 ^ w.
Definition in_s (w z : Z) : Prop := - 2 ^ (w - 1) <= z < 2 ^ (w - 1).

Definition UINT64_MAX : Z := 18446744073709551615.
Definition INT64_MAX : Z := 9223372036854775807.
Definition INT64_MIN : Z := -9223372036854775808.
Definition INT32_MAX : Z := 2147483647.
Definition INT32_MIN : Z := -2147483648.
Definition INT16_MAX : Z := 32767.
Definition INT16_MIN : Z := -32768.
Definition UINT32_MAX : Z := 4294967295.
Definition SIZE_MAX : Z := UINT64_MAX.

(** [~x] of a 64-bit unsigned integer. *)
Definition not64 (x : Z) : Z := u64 (Z.lnot x).

(** C truth values. *)
Definition b2z (b : bool) : Z := if b then 1 else 0.

(** ** Byte memory

    A block of memory is the list of its bytes; an access outside the block is
    undefined behaviour in C and is [None] here, so a theorem that concludes
    [Some _] also shows that every access is inside the block. *)
Definition mem := list Z.

Definition msize (m : mem) : Z := Z.of_nat (length m).

Definition byte (z : Z) : Prop := 0 <= z < 256.
Abbreviation bytes := (Forall byte).

Definition memread (m : mem) (off n : Z) : option mem :=
  if (0 <=? off) && (0 <=? n) && (off + n <=? msize m)
  then Some (take (Z.to_nat n) (drop (Z.to_nat off) m)) else None.

Definition memwrite (m : mem) (off : Z) (bs : mem) : option mem :=
  if (0 <=? off) && (off + msize bs <=? msize m)
  then Some (take (Z.to_nat off) m ++ bs ++ drop (Z.to_nat off + length bs) m)
  else None.

(** [memmove(m + dst, m + src, n)]: the source is read in full before the
    destination is written, as the standard prescribes. *)
Definition memmove (m : mem) (dst src n : Z) : option mem :=
  bs ← memread m src n; memwrite m dst bs.

(** [m[i]] *)
Definition rd (m : list Z) (i : Z) : option Z := if 0 <=? i then m !! Z.to_nat i else None.

(** [assert(b)]: a failed assertion stops the program, like undefined behaviour. *)
Definition cassert (b : bool) : option unit := if b then Some () else None.

Section alloc.
(** What [zrealloc] leaves in the bytes a block grows by: unspecified. *)
Variable junk : nat -> Z.

Definition zrealloc (m : mem) (size : Z) : mem :=
  take (Z.to_nat size) m ++
  (junk <$> seq (length m) (Z.to_nat size - length m)).
End alloc.

(** Little-endian integers of [n] bytes. *)
Fixpoint le_bytes (n : nat) (z : Z) : mem :=
  match n with
  | O => []
  | S n => z `mod` 256 :: le_bytes n (z `div` 256)
  end.

Fixpoint le_val (bs : mem) : Z :=
  match bs with
  | [] => 0
  | b :: bs => b + 256 * le_val bs
  end.

(** ** Automation *)

Create HintDb redis.

(** Boolean comparisons of the code, as propositions. *)
Ltac bools :=
  repeat match goal with
  | H : (_ && _) = true |- _ => apply andb_prop in H as [? ?]
  | H : (_ && _) = false |- _ => apply andb_false_iff in H
  | H : (_ || _) = true |- _ => apply orb_prop in H
  | H : (_ || _) = false |- _ => apply orb_false_elim in H as [? ?]
  | H : negb _ = true |- _ => apply negb_true_iff in H
  | H : negb _ = false |- _ => apply negb_false_iff in H
  | H : (_ <? _) = true |- _ => apply Z.ltb_lt in H
  | H : (_ <? _) = false |- _ => apply Z.ltb_ge in H
  | H : (_ <=? _) = true |- _ => apply Z.leb_le in H
  | H : (_ <=? _) = false |- _ => apply Z.leb_gt in H
  | H : (_ =? _) = true |- _ => apply Z.eqb_eq in H
  | H : (_ =? _) = false |- _ => apply Z.eqb_neq in H
  | H : (_ >? _) = _ |- _ => rewrite Z.gtb_ltb in H
  | H : (_ >=? _) = _ |- _ => rewrite Z.geb_leb in H
  end.

(** Case analysis on the first integer test of the goal. *)
Ltac ztest :=
  match goal with
  | |- context [?a >? ?b] => rewrite (Z.gtb_ltb a b)
  | |- context [?a >=? ?b] => rewrite (Z.geb_leb a b)
  | |- context [?a <? ?b] => destruct (Z.ltb_spec a b)
  | |- context [?a <=? ?b] => destruct (Z.leb_spec a b)
  | |- context [?a =? ?b] => destruct (Z.eqb_spec a b)
  end.

(** Discharge the goal's integer tests that [lia] decides. *)
Ltac ztrue t := first
  [ rewrite (proj2 (Z.ltb_lt _ _)) by t
  | rewrite (proj2 (Z.leb_le _ _)) by t
  | rewrite (proj2 (Z.eqb_eq _ _)) by t ].

(** Linear arithmetic with division and remainder by constants. *)
Ltac dlia := Z.to_euclidean_division_equations; lia.

(** Reduce the option monad and nothing else. *)
Ltac mred := cbn [mbind option_bind fmap option_fmap option_map mret option_ret fst snd].

Lemma bind_assoc {A B C} (x : option A) (f : A -> option B) (g : B -> option C) :
  (x ≫= f) ≫= g = x ≫= fun y => f y ≫= g.
Proof. by destruct x. Qed.

Lemma bind_ext {A B} (x : option A) (f g : A -> option B) :
  (forall y, f y = g y) -> x ≫= f = x ≫= g.
Proof. intros H. destruct x; [apply H|done]. Qed.

(** ** Generic lemmas: machine integers *)

Lemma wrapu_small w z : in_u w z -> wrapu w z = z.
Proof. intros. by apply Z.mod_small. Qed.

Lemma in_u_wrapu w z : 0 <= w -> in_u w (wrapu w z).
Proof. intros. apply Z.mod_pos_bound. lia. Qed.

Lemma wrapu_inc_dec w z : in_u w z -> wrapu w (wrapu w (z + 1) - 1) = z.
Proof. intros Hz. unfold wrapu. rewrite Zminus_mod_idemp_l, Z.add_simpl_r. by apply Z.mod_small. Qed.

Lemma pow2_split w : 0 < w -> 2 ^ w = 2 * 2 ^ (w - 1).
Proof. intros. rewrite <- Z.pow_succ_r by lia. f_equal. lia. Qed.

Lemma wraps_small w z : 0 < w -> in_s w z -> wraps w z = z.
Proof.
  unfold wraps, in_s. intros Hw Hz. pose proof (pow2_split w Hw).
  destruct (Z.ltb_spec (z `mod` 2 ^ w) (2 ^ (w - 1))) as [Hl|Hl];
    destruct (decide (0 <= z)).
  - apply Z.mod_small. lia.
  - rewrite <- (Z.mod_add z 1), Z.mod_small in Hl; lia.
  - rewrite Z.mod_small in Hl; lia.
  - rewrite <- (Z.mod_add z 1), Z.mod_small; lia.
Qed.

Lemma in_s_wraps w z : 0 < w -> in_s w (wraps w z).
Proof.
  unfold wraps, in_s. intros Hw. pose proof (pow2_split w Hw).
  pose proof (Z.mod_pos_bound z (2 ^ w)). ztest; lia.
Qed.

Lemma wraps_mod w z : 0 <= w -> wraps w (z `mod` 2 ^ w) = wraps w z.
Proof. intros. unfold wraps. by rewrite Z.mod_mod by lia. Qed.

Lemma wraps_wrapu w z : 0 <= w -> wraps w (wrapu w z) = wraps w z.
Proof. apply wraps_mod. Qed.

Lemma wrapu_wraps w z : 0 <= w -> wrapu w (wraps w z) = wrapu w z.
Proof.
  intros. unfold wraps, wrapu. ztest.
  - by rewrite Z.mod_mod by lia.
  - rewrite <- (Z.mod_add _ 1), Z.mul_1_l, Z.sub_add, Z.mod_mod by lia. done.
Qed.

(** Concrete byte strings are checked by evaluation. *)
Lemma bytes_check bs : forallb (fun b => (0 <=? b) && (b <? 256)) bs = true -> bytes bs.
Proof.
  rewrite forallb_forall. intros H. apply Forall_forall. intros b Hb.
  apply list_elem_of_In, H in Hb. bools. unfold byte. lia.
Qed.

(** ** Generic lemmas: lists *)

Lemma Forall_lookup_1' {A} (P : A -> Prop) l i x : Forall P l -> l !! i = Some x -> P x.
Proof. intros. by eapply Forall_lookup_1. Qed.

Lemma take_app_eq {A} (a b : list A) n : n = length a -> take n (a ++ b) = a.
Proof. intros ->. by apply take_app_length. Qed.

Lemma drop_app_eq {A} (a b : list A) n : n = length a -> drop n (a ++ b) = b.
Proof. intros ->. by apply drop_app_length. Qed.

(** ** Generic lemmas: byte memory *)

Lemma msize_app a b : msize (a ++ b) = msize a + msize b.
Proof. unfold msize. rewrite length_app. lia. Qed.

Lemma msize_nonneg m : 0 <= msize m.
Proof. unfold msize. lia. Qed.

Lemma msize_nil : msize [] = 0.
Proof. done. Qed.

Lemma msize_cons b m : msize (b :: m) = 1 + msize m.
Proof. unfold msize. cbn [length]. lia. Qed.

Lemma msize_zero m : msize m <= 0 -> m = [].
Proof. destruct m; [done|]. unfold msize. cbn [length]. lia. Qed.

Lemma memread_app a b c off n :
  off = msize a -> n = msize b -> memread (a ++ b ++ c) off n = Some b.
Proof.
  intros -> ->. unfold memread. rewrite !msize_app.
  pose proof (msize_nonneg a). pose proof (msize_nonneg b). pose proof (msize_nonneg c).
  repeat ztrue lia. cbn. unfold msize. rewrite !Nat2Z.id.
  by rewrite drop_app_length, take_app_length.
Qed.

Lemma memread_app_end a b off n :
  off = msize a -> n = msize b -> memread (a ++ b) off n = Some b.
Proof. rewrite <- (app_nil_r b) at 2. apply memread_app. Qed.

Lemma memread_app_start a b n : n = msize a -> memread (a ++ b) 0 n = Some a.
Proof. apply (memread_app [] a b 0). done. Qed.

Lemma memwrite_app a b c off bs :
  off = msize a -> msize bs = msize b ->
  memwrite (a ++ b ++ c) off bs = Some (a ++ bs ++ c).
Proof.
  intros -> E. unfold memwrite. rewrite !msize_app, E.
  pose proof (msize_nonneg a). pose proof (msize_nonneg b). pose proof (msize_nonneg c).
  repeat ztrue lia. cbn. unfold msize in *. rewrite !Nat2Z.id.
  rewrite take_app_length. do 3 f_equal.
  rewrite (assoc_L (++)), drop_app_eq; [done|]. rewrite length_app. lia.
Qed.

Lemma memread_length m off n bs :
  memread m off n = Some bs -> msize bs = n.
Proof.
  unfold memread, msize. intros H. case_match eqn:E; simplify_eq. bools.
  rewrite length_take, length_drop. lia.
Qed.

Lemma memread_bounds m off n bs :
  memread m off n = Some bs -> 0 <= off /\ 0 <= n /\ off + n <= msize m.
Proof. unfold memread. intros H. case_match eqn:E; simplify_eq. bools. lia. Qed.

Lemma memread_split m off n :
  0 <= off -> 0 <= n -> off + n <= msize m ->
  exists a b c, m = a ++ b ++ c /\ off = msize a /\ n = msize b /\
    memread m off n = Some b.
Proof.
  intros. exists (take (Z.to_nat off) m), (take (Z.to_nat n) (drop (Z.to_nat off) m)),
    (drop (Z.to_nat n) (drop (Z.to_nat off) m)).
  rewrite !take_drop. unfold memread, msize in *. repeat ztrue lia.
  rewrite !length_take, length_drop. repeat split; lia.
Qed.

Lemma memread_is_Some m off n :
  0 <= off -> 0 <= n -> off + n <= msize m -> is_Some (memread m off n).
Proof. intros. edestruct memread_split as (?&?&?&?&?&?&->); eauto. Qed.

Lemma memread_embed a r c off n :
  0 <= off -> 0 <= n -> off + n <= msize r ->
  memread (a ++ r ++ c) (msize a + off) n = memread r off n.
Proof.
  intros Ho Hn Hr. destruct (memread_split r off n Ho Hn Hr) as (x & y & z & -> & -> & -> & ->).
  replace (a ++ (x ++ y ++ z) ++ c) with ((a ++ x) ++ y ++ z ++ c) by by rewrite <- !(assoc_L (++)).
  apply memread_app; [|done]. by rewrite msize_app.
Qed.

Lemma memwrite_length m off bs m' :
  memwrite m off bs = Some m' -> msize m' = msize m.
Proof.
  unfold memwrite, msize. intros H. case_match eqn:E; simplify_eq. bools.
  rewrite !length_app, length_take, length_drop. lia.
Qed.

Lemma msplit m k : 0 <= k <= msize m -> exists a b, m = a ++ b /\ msize a = k.
Proof.
  intros. exists (take (Z.to_nat k) m), (drop (Z.to_nat k) m).
  rewrite take_drop. split; [done|]. unfold msize in *. rewrite length_take. lia.
Qed.

Lemma msize_inj_app a a' b b' : msize a = msize a' -> a ++ b = a' ++ b' -> a = a' /\ b = b'.
Proof. unfold msize. intros H E. apply app_inj_1 in E; [done|lia]. Qed.

(** Shifting a tail up into the free space behind it, and down over a hole. *)
Lemma memmove_up a b j dst src n :
  dst = msize a + msize j -> src = msize a -> n = msize b ->
  exists g, memmove (a ++ b ++ j) dst src n = Some (a ++ g ++ b) /\ msize g = msize j.
Proof.
  intros -> -> ->. unfold memmove. rewrite memread_app by done. mred.
  destruct (msplit (b ++ j) (msize j)) as (g & r & E & Hg).
  { rewrite msize_app. pose proof (msize_nonneg b). pose proof (msize_nonneg j). lia. }
  exists g. split; [|done]. rewrite E, (assoc_L (++)), <- (app_nil_r r).
  rewrite memwrite_app; [by rewrite app_nil_r, <- (assoc_L (++))|rewrite msize_app; lia|].
  apply (f_equal msize) in E. rewrite !msize_app in E. lia.
Qed.

Lemma memmove_down a x b dst src n :
  dst = msize a -> src = msize a + msize x -> n = msize b ->
  exists g, memmove (a ++ x ++ b) dst src n = Some (a ++ b ++ g) /\ msize g = msize x.
Proof.
  intros -> -> ->. unfold memmove.
  rewrite (assoc_L (++)), memread_app_end, <- (assoc_L (++)) by (rewrite ?msize_app; lia).
  mred. destruct (msplit (x ++ b) (msize b)) as (g & r & E & Hg).
  { rewrite msize_app. pose proof (msize_nonneg b). pose proof (msize_nonneg x). lia. }
  exists r. rewrite E. split.
  - by apply memwrite_app.
  - apply (f_equal msize) in E. rewrite !msize_app in E. lia.
Qed.

(** Moving [b] so that it starts [k] bytes behind [a], from where it starts
    behind [a] and [x]: the general shift of a tail, over a hole or into space. *)
Lemma memmove_shift a x b c dst src n k :
  dst = msize a + k -> src = msize a + msize x -> n = msize b ->
  0 <= k <= msize x + msize c ->
  exists g c', memmove (a ++ x ++ b ++ c) dst src n = Some (a ++ g ++ b ++ c') /\
    msize g = k /\ msize c' = msize x + msize c - k.
Proof.
  intros -> -> -> Hk. unfold memmove.
  rewrite (assoc_L (++)), memread_app, <- (assoc_L (++)) by (rewrite ?msize_app; lia). mred.
  pose proof (msize_nonneg x). pose proof (msize_nonneg b). pose proof (msize_nonneg c).
  destruct (msplit (x ++ b ++ c) k) as (g & r & E & Hg); [rewrite !msize_app; lia|].
  pose proof (f_equal msize E) as E'. rewrite !msize_app in E'.
  destruct (msplit r (msize b)) as (u & c' & -> & Hu); [lia|]. rewrite msize_app in E'.
  exists g, c'. rewrite E. split; [|lia].
  rewrite (assoc_L (++) a), memwrite_app by (rewrite ?msize_app; lia).
  by rewrite <- (assoc_L (++)).
Qed.

Lemma zrealloc_grow junk m size :
  msize m <= size -> exists j, zrealloc junk m size = m ++ j /\ msize j = size - msize m.
Proof.
  intros H. unfold zrealloc. eexists. unfold msize in *. rewrite take_ge by lia.
  split; [done|]. rewrite length_fmap, length_seq. lia.
Qed.

Lemma zrealloc_shrink junk a b : zrealloc junk (a ++ b) (msize a) = a.
Proof.
  unfold zrealloc, msize. rewrite Nat2Z.id, take_app_length, length_app.
  replace (length a - _)%nat with 0%nat by lia. apply app_nil_r.
Qed.

Lemma zrealloc_prefix junk a s size :
  msize a <= size -> exists g, zrealloc junk (a ++ s) size = a ++ g /\ msize g = size - msize a.
Proof.
  intros H. unfold zrealloc, msize in *. rewrite take_app_ge, <- (assoc_L (++)) by lia.
  eexists. split; [done|]. rewrite !length_app, length_take, length_fmap, length_seq. lia.
Qed.

Lemma rd_app a b c off : off = msize a -> rd (a ++ b :: c) off = Some b.
Proof.
  intros ->. unfold rd, msize. ztrue lia. rewrite Nat2Z.id.
  by rewrite lookup_app_r, Nat.sub_diag by lia.
Qed.

Lemma rd_app_l a b off x : rd a off = Some x -> rd (a ++ b) off = Some x.
Proof. unfold rd. case_match; [|done]. apply lookup_app_l_Some. Qed.

Lemma rd_app_r a b off : 0 <= off -> rd (a ++ b) (msize a + off) = rd b off.
Proof.
  intros H. unfold rd, msize. repeat ztrue lia.
  rewrite lookup_app_r by lia. f_equal. lia.
Qed.

Lemma rd_bounds m i x : rd m i = Some x -> 0 <= i < msize m.
Proof. unfold rd, msize. case_match eqn:E; [|done]. bools. intros ?%lookup_lt_Some. lia. Qed.

Lemma rd_is_Some m i : 0 <= i < msize m -> exists x, rd m i = Some x.
Proof. intros H. unfold rd, msize in *. ztrue lia. apply lookup_lt_is_Some_2. lia. Qed.

Lemma rd_byte m i x : bytes m -> rd m i = Some x -> byte x.
Proof. unfold rd. case_match; [|done]. apply Forall_lookup_1. Qed.

(** ** Partial results ordered by definedness

    A computation that only reads keeps its result when the block it reads from
    is part of a larger one; [opt_mono] proves it by following the binds and
    tests of the definition. *)
Definition opt_le {A} (x y : option A) : Prop := forall v, x = Some v -> y = Some v.

Lemma opt_le_refl {A} (x : option A) : opt_le x x.
Proof. by intros v. Qed.

Lemma opt_le_bind {A B} (x y : option A) (f g : A -> option B) :
  opt_le x y -> (forall v, opt_le (f v) (g v)) -> opt_le (x ≫= f) (y ≫= g).
Proof. intros Hx Hf v. destruct x as [w|]; [|done]. rewrite (Hx w eq_refl). apply Hf. Qed.

Lemma opt_le_fmap {A B} (x y : option A) (f : A -> B) :
  opt_le x y -> opt_le (f <$> x) (f <$> y).
Proof. intros Hx v. destruct x as [w|]; [|done]. by rewrite (Hx w eq_refl). Qed.

Lemma opt_le_fmap_bind {A B C} (x y : option A) (f : A -> option B) (g : A -> option C) h :
  opt_le x y -> (forall v, opt_le (h <$> f v) (g v)) -> opt_le (h <$> (x ≫= f)) (y ≫= g).
Proof. intros Hx Hf v. destruct x as [w|]; [|done]. rewrite (Hx w eq_refl). apply Hf. Qed.

Lemma opt_le_fmap_spec {A B} (h : A -> B) (x : option A) (y : option B) v :
  opt_le (h <$> x) y -> x = Some v -> y = Some (h v).
Proof. intros H ->. by apply H. Qed.

Ltac opt_mono t :=
  repeat match goal with
  | |- opt_le ?x ?x => apply opt_le_refl
  | |- opt_le (_ ≫= _) (_ ≫= _) => apply opt_le_bind; [|intros ?]
  | |- opt_le (_ <$> (_ ≫= _)) (_ ≫= _) => apply opt_le_fmap_bind; [|intros ?]
  | |- opt_le (_ <$> _) (_ <$> _) => apply opt_le_fmap
  | |- opt_le (_ <$> if ?b then _ else _) _ => destruct b
  | |- opt_le (if ?b then _ else _) _ => destruct b
  | |- opt_le (match ?x with _ => _ end) (match ?x with _ => _ end) => destruct x
  | |- _ => t
  end.

(** ** Generic lemmas: bits *)

Lemma lor_shiftl a b k : 0 <= k -> 0 <= a < 2 ^ k -> Z.lor a (Z.shiftl b k) = a + b * 2 ^ k.
Proof.
  intros Hk Ha. rewrite <- Z.shiftl_mul_pow2 by done. rewrite Z.add_nocarry_lxor.
  - symmetry. apply Z.lxor_lor, Z.bits_inj'. intros n Hn. rewrite Z.land_spec, Z.bits_0.
    destruct (decide (n < k)).
    + by rewrite Z.shiftl_spec_low, andb_false_r.
    + rewrite <- (Z.mod_small a (2 ^ k)), Z.mod_pow2_bits_high by lia. done.
  - apply Z.bits_inj'. intros n Hn. rewrite Z.land_spec, Z.bits_0.
    destruct (decide (n < k)).
    + by rewrite Z.shiftl_spec_low, andb_false_r.
    + rewrite <- (Z.mod_small a (2 ^ k)), Z.mod_pow2_bits_high by lia. done.
Qed.

(** A statement about one byte is checked on all of them. *)
Lemma byte_cases (P : Z -> bool) :
  forallb P (Z.of_nat <$> seq 0 256) = true -> forall b, byte b -> P b = true.
Proof.
  intros H b Hb. rewrite forallb_forall in H. apply H.
  apply list_elem_of_In, list_elem_of_fmap. unfold byte in Hb.
  exists (Z.to_nat b). split; [lia|]. apply elem_of_seq. lia.
Qed.

(** ** Generic lemmas: little-endian integers *)

Lemma length_le_bytes n z : length (le_bytes n z) = n.
Proof. revert z. induction n; intros; cbn; auto. Qed.

Lemma msize_le_bytes n z : msize (le_bytes n z) = Z.of_nat n.
Proof. unfold msize. by rewrite length_le_bytes. Qed.

Lemma bytes_le_bytes n z : bytes (le_bytes n z).
Proof.
  revert z. induction n; intros; cbn; constructor; auto.
  apply Z.mod_pos_bound. lia.
Qed.

Lemma le_val_bound bs : bytes bs -> 0 <= le_val bs < 256 ^ Z.of_nat (length bs).
Proof.
  induction 1 as [|b bs Hb _ IH]; cbn [le_val length]; [done|].
  rewrite Nat2Z.inj_succ, Z.pow_succ_r by lia. unfold byte in Hb. lia.
Qed.

Lemma le_val_le_bytes n z : le_val (le_bytes n z) = z `mod` 256 ^ Z.of_nat n.
Proof.
  revert z. induction n; intros; cbn [le_val le_bytes]; [by rewrite Z.mod_1_r|].
  rewrite Nat2Z.inj_succ, Z.pow_succ_r, IHn, Z.rem_mul_r by lia. done.
Qed.

Lemma le_bytes_le_val bs : bytes bs -> le_bytes (length bs) (le_val bs) = bs.
Proof.
  induction 1 as [|b bs Hb _ IH]; cbn [le_val le_bytes length]; [done|].
  unfold byte in Hb. f_equal.
  - rewrite Z.mul_comm, Z.mod_add, Z.mod_small; lia.
  - rewrite Z.mul_comm, Z.div_add, Z.div_small, Z.add_0_l by lia. done.
Qed.

Lemma le_bytes_mod n z : le_bytes n (z `mod` 256 ^ Z.of_nat n) = le_bytes n z.
Proof.
  rewrite <- le_val_le_bytes.
  rewrite <- (length_le_bytes n z) at 1. apply le_bytes_le_val, bytes_le_bytes.
Qed.

#[export] Hint Resolve msize_nonneg bytes_le_bytes : redis.
#[export] Hint Rewrite msize_app msize_cons msize_nil msize_le_bytes
  length_le_bytes : redis.

(** ** Results *)

(** The computation returns a value of which [P] holds. *)
Definition ensures {A} (o : option A) (P : A -> Prop) : Prop :=
  match o with Some a => P a | None => False end.

Lemma ensures_bind {A B} (o : option A) (f : A -> option B) (P : A -> Prop) (Q : B -> Prop) :
  ensures o P -> (forall a, P a -> ensures (f a) Q) -> ensures (o ≫= f) Q.
Proof. destruct o; cbn; [|done]. auto. Qed.

Lemma ensures_mono {A} (o : option A) (P Q : A -> Prop) : ensures o P -> (forall a, P a -> Q a) -> ensures o Q.
Proof. destruct o; cbn; auto. Qed.

Lemma ensures_Some {A} (o : option A) (P : A -> Prop) : ensures o P -> exists a, o = Some a /\ P a.
Proof. destruct o; cbn; [eauto|done]. Qed.

Lemma memread_drop m off : 0 <= off <= msize m -> memread m off (msize m - off) = Some (drop (Z.to_nat off) m).
Proof.
  intros H. unfold memread. ztrue lia. ztrue lia. ztrue lia. cbn [andb]. f_equal. apply take_ge.
  rewrite length_drop. unfold msize. lia.
Qed.
