(* ===== verification/Intset.v ===== *)
(** Integer sets ([src/intset.c]): a sorted array of integers stored at the
    smallest of three widths that holds all of them. *)
From stdpp Require Import base numbers list sorting gmap.
From stdpp Require Import options.
From S2P Require Import Prelude.

Module Intset.

(** ** Data *)

(** [struct intset]; [is_contents] is the block behind the header. The host is
    little-endian, where the [intrev32ifbe] and [memrev*ifbe] macros are the
    identity. *)
Record intset := mk_intset {
  is_encoding : Z;   (* uint32_t encoding *)
  is_length : Z;     (* uint32_t length *)
  is_contents : mem  (* int8_t contents[] *)
}.

Definition INTSET_ENC_INT16 : Z := 2.
Definition INTSET_ENC_INT32 : Z := 4.
Definition INTSET_ENC_INT64 : Z := 8.
Definition sizeof_intset : Z := 8.

(** ** Operations *)

Definition _intsetValueEncoding (v : Z) : Z :=
  if (v <? INT32_MIN) || (v >? INT32_MAX) then INTSET_ENC_INT64
  else if (v <? INT16_MIN) || (v >? INT16_MAX) then INTSET_ENC_INT32
  else INTSET_ENC_INT16.

Definition _intsetGetEncoded (iset : intset) (pos enc : Z) : option Z :=
  if enc =? INTSET_ENC_INT64 then
    v64 ← memread (is_contents iset) (pos * 8) 8; Some (i64 (le_val v64))
  else if enc =? INTSET_ENC_INT32 then
    v32 ← memread (is_contents iset) (pos * 4) 4; Some (i32 (le_val v32))
  else
    v16 ← memread (is_contents iset) (pos * 2) 2; Some (i16 (le_val v16)).

Definition _intsetGet (iset : intset) (pos : Z) : option Z :=
  _intsetGetEncoded iset pos (is_encoding iset).

Definition with_contents (iset : intset) (c : mem) : intset :=
  mk_intset (is_encoding iset) (is_length iset) c.

Definition _intsetSet (iset : intset) (pos value : Z) : option intset :=
  let encoding := is_encoding iset in
  if encoding =? INTSET_ENC_INT64 then
    with_contents iset <$> memwrite (is_contents iset) (pos * 8) (le_bytes 8 value)
  else if encoding =? INTSET_ENC_INT32 then
    with_contents iset <$> memwrite (is_contents iset) (pos * 4) (le_bytes 4 value)
  else
    with_contents iset <$> memwrite (is_contents iset) (pos * 2) (le_bytes 2 value).

Definition intsetNew : intset := mk_intset INTSET_ENC_INT16 0 [].

(** The search loop; each iteration at least halves [max - min + 1], which is
    at most [2^31] for a non-negative C [int], so 33 iterations suffice
    (lemma [search_loop_spec]). Yields the final [(min, mid, cur)]. *)
Fixpoint intsetSearch_loop (fuel : nat) (iset : intset) (value min max mid cur : Z)
    : option (Z * Z * Z) :=
  match fuel with
  | O => None
  | S fuel =>
    if max >=? min then
      let mid := i32 (Z.shiftr (u32 (u32 min + u32 max)) 1) in
      cur ← _intsetGet iset mid;
      if value >? cur then intsetSearch_loop fuel iset value (mid + 1) max mid cur
      else if value <? cur then intsetSearch_loop fuel iset value min (mid - 1) mid cur
      else Some (min, mid, cur)
    else Some (min, mid, cur)
  end.

(** Returns the found flag and [*pos]. *)
Definition intsetSearch (iset : intset) (value : Z) : option (bool * Z) :=
  let max := i32 (is_length iset - 1) in
  let loop :=
    '(min, mid, cur) ← intsetSearch_loop 33 iset value 0 max (-1) (-1);
    if value =? cur then Some (true, mid) else Some (false, min) in
  if is_length iset =? 0 then Some (false, 0)
  else
    last ← _intsetGet iset max;
    if value >? last then Some (false, is_length iset)
    else
      first ← _intsetGet iset 0;
      if value <? first then Some (false, 0) else loop.

Section alloc.
(** What [zrealloc] leaves in the bytes a block grows by: unspecified. *)
Variable junk : nat -> Z.

Definition intsetResize (iset : intset) (len : Z) : option intset :=
  let size := u64 (len * is_encoding iset) in
  if size <=? SIZE_MAX - sizeof_intset
  then Some (with_contents iset (zrealloc junk (is_contents iset) size)) else None.

(** [while(length--) _intsetSet(is,length+prepend,_intsetGetEncoded(is,length,curenc))] *)
Fixpoint intsetUpgrade_loop (length : nat) (iset : intset) (prepend curenc : Z)
    : option intset :=
  match length with
  | O => Some iset
  | S length =>
    v ← _intsetGetEncoded iset (Z.of_nat length) curenc;
    iset ← _intsetSet iset (Z.of_nat length + prepend) v;
    intsetUpgrade_loop length iset prepend curenc
  end.

Definition intsetUpgradeAndAdd (iset : intset) (value : Z) : option intset :=
  let curenc := u8 (is_encoding iset) in
  let newenc := _intsetValueEncoding value in
  let length := i32 (is_length iset) in
  let prepend := if value <? 0 then 1 else 0 in
  iset ← intsetResize (mk_intset newenc (is_length iset) (is_contents iset))
         (u32 (is_length iset + 1));
  if length <? 0 then None (* the count-down of the int would overflow *)
  else
    iset ← intsetUpgrade_loop (Z.to_nat length) iset prepend curenc;
    iset ← (if value <? 0 then _intsetSet iset 0 value
          else _intsetSet iset (is_length iset) value);
    Some (mk_intset (is_encoding iset) (u32 (is_length iset + 1)) (is_contents iset)).

Definition intsetMoveTail (iset : intset) (from to : Z) : option intset :=
  let bytes := u32 (is_length iset - from) in
  let encoding := is_encoding iset in
  let size := if encoding =? INTSET_ENC_INT64 then 8
              else if encoding =? INTSET_ENC_INT32 then 4 else 2 in
  with_contents iset <$>
    memmove (is_contents iset) (to * size) (from * size) (u32 (bytes * size)).

(** Returns the set and [*success]. *)
Definition intsetAdd (iset : intset) (value : Z) : option (intset * bool) :=
  let valenc := _intsetValueEncoding value in
  if valenc >? is_encoding iset then
    iset ← intsetUpgradeAndAdd iset value; Some (iset, true)
  else
    '(found, pos) ← intsetSearch iset value;
    if (found : bool) then Some (iset, false)
    else
      iset ← intsetResize iset (u32 (is_length iset + 1));
      iset ← (if pos <? is_length iset
            then intsetMoveTail iset pos (u32 (pos + 1)) else Some iset);
      iset ← _intsetSet iset pos value;
      Some (mk_intset (is_encoding iset) (u32 (is_length iset + 1)) (is_contents iset), true).

(** Returns the set and [*success]. *)
Definition intsetRemove (iset : intset) (value : Z) : option (intset * bool) :=
  let valenc := _intsetValueEncoding value in
  if valenc <=? is_encoding iset then
    '(found, pos) ← intsetSearch iset value;
    if (found : bool) then
      let len := is_length iset in
      iset ← (if pos <? u32 (len - 1)
            then intsetMoveTail iset (u32 (pos + 1)) pos else Some iset);
      iset ← intsetResize iset (u32 (len - 1));
      Some (mk_intset (is_encoding iset) (u32 (len - 1)) (is_contents iset), true)
    else Some (iset, false)
  else Some (iset, false).
End alloc.

Definition intsetFind (iset : intset) (value : Z) : option bool :=
  let valenc := _intsetValueEncoding value in
  if valenc <=? is_encoding iset then fst <$> intsetSearch iset value else Some false.

(** [rnd] is the value of the C library's [rand()]. *)
Definition intsetRandom (rnd : Z) (iset : intset) : option Z :=
  if is_length iset =? 0 then None (* assert *)
  else _intsetGet iset (i32 (u32 rnd `mod` is_length iset)).

Definition intsetMax (iset : intset) : option Z :=
  _intsetGet iset (i32 (u32 (is_length iset - 1))).

Definition intsetMin (iset : intset) : option Z := _intsetGet iset 0.

(** [Some None] is the 0 the code returns for a position out of range. *)
Definition intsetGet (iset : intset) (pos : Z) : option (option Z) :=
  if pos <? is_length iset then v ← _intsetGet iset (i32 pos); Some (Some v)
  else Some None.

Definition intsetLen (iset : intset) : Z := is_length iset.

Definition intsetBlobLen (iset : intset) : Z :=
  u64 (sizeof_intset + is_length iset * is_encoding iset).

(** A blob [p] of [size] bytes read as a [struct intset]. *)
Definition intset_of_blob (p : mem) : option intset :=
  e ← memread p 0 4; l ← memread p 4 4;
  Some (mk_intset (le_val e) (le_val l) (drop 8 p)).

(** [for (uint32_t i=1; i<count; i++)]: [n] iterations from [i]. *)
Fixpoint intsetValidate_loop (n : nat) (iset : intset) (i prev : Z) : option bool :=
  match n with
  | O => Some true
  | S n =>
    cur ← _intsetGet iset (i32 i);
    if cur <=? prev then Some false else intsetValidate_loop n iset (i + 1) cur
  end.

Definition intsetValidateIntegrity (p : mem) (size : Z) (deep : bool) : option bool :=
  if size <? sizeof_intset then Some false
  else
    iset ← intset_of_blob p;
    let encoding := is_encoding iset in
    if negb ((encoding =? INTSET_ENC_INT64) || (encoding =? INTSET_ENC_INT32)
             || (encoding =? INTSET_ENC_INT16)) then Some false
    else
      let record_size := encoding in
      let count := is_length iset in
      if negb (u64 (sizeof_intset + count * record_size) =? size) then Some false
      else if count =? 0 then Some false
      else if negb deep then Some true
      else
        prev ← _intsetGet iset 0;
        intsetValidate_loop (Z.to_nat (count - 1)) iset 1 prev.

(** ** Representation *)

Definition valid_enc (e : Z) : Prop :=
  e = INTSET_ENC_INT16 \/ e = INTSET_ENC_INT32 \/ e = INTSET_ENC_INT64.

Definition enc (e v : Z) : mem := le_bytes (Z.to_nat e) v.
Definition enc_all (e : Z) (vs : list Z) : mem := vs ≫= enc e.
#[global] Arguments enc : simpl never.
#[global] Arguments enc_all : simpl never.

(** [iset] is a well-formed set holding exactly the members [vs], ascending. *)
Record repr (iset : intset) (vs : list Z) : Prop := mk_repr {
  repr_enc : valid_enc (is_encoding iset);
  repr_len : is_length iset = Z.of_nat (length vs);
  repr_contents : is_contents iset = enc_all (is_encoding iset) vs;
  repr_range : Forall (in_s (8 * is_encoding iset)) vs;
  repr_sorted : StronglySorted Z.lt vs
}.

(** The sizes for which the 32-bit byte counts of the code do not wrap. *)
Definition fits (n : nat) : Prop := 8 * Z.of_nat n <= UINT32_MAX.

(** ** Encoding lemmas *)

Lemma msize_enc e v : 0 <= e -> msize (enc e v) = e.
Proof. intros. unfold enc. rewrite msize_le_bytes. lia. Qed.

Lemma enc_all_app e a b : enc_all e (a ++ b) = enc_all e a ++ enc_all e b.
Proof. apply bind_app. Qed.

Lemma enc_all_cons e v b : enc_all e (v :: b) = enc e v ++ enc_all e b.
Proof. done. Qed.

Lemma msize_enc_all e vs : 0 <= e -> msize (enc_all e vs) = e * Z.of_nat (length vs).
Proof.
  intros. induction vs as [|v vs IH]; [change (enc_all e []) with ([] : mem); rewrite msize_nil; cbn; lia|].
  rewrite enc_all_cons, msize_app, msize_enc, IH by done. cbn [length]. lia.
Qed.

Lemma valid_enc_pos e : valid_enc e -> 0 < e <= 8.
Proof. intros [->| [->| ->]]; done. Qed.

Lemma sext_enc e v :
  valid_enc e -> in_s (8 * e) v -> wraps (8 * e) (le_val (enc e v)) = v.
Proof.
  intros He Hv. pose proof (valid_enc_pos e He). unfold enc.
  rewrite le_val_le_bytes, Z2Nat.id by lia.
  change 256 with (2 ^ 8). rewrite <- Z.pow_mul_r by lia.
  rewrite wraps_mod by lia. apply wraps_small; [lia|done].
Qed.

Lemma getEncoded_eq iset pos e :
  valid_enc e ->
  _intsetGetEncoded iset pos e =
    (bs ← memread (is_contents iset) (pos * e) e; Some (wraps (8 * e) (le_val bs))).
Proof. intros [->| [->| ->]]; done. Qed.

Lemma intsetSet_eq iset pos v :
  valid_enc (is_encoding iset) ->
  _intsetSet iset pos v =
    with_contents iset <$> memwrite (is_contents iset) (pos * is_encoding iset)
      (enc (is_encoding iset) v).
Proof. unfold _intsetSet. intros [->| [->| ->]]; done. Qed.

Lemma getEncoded_enc_all iset e vs i v rest :
  valid_enc e -> is_contents iset = enc_all e vs ++ rest ->
  vs !! i = Some v -> in_s (8 * e) v ->
  _intsetGetEncoded iset (Z.of_nat i) e = Some v.
Proof.
  intros He Hc Hi Hv. rewrite getEncoded_eq, Hc by done.
  pose proof (valid_enc_pos e He).
  rewrite <- (take_drop_middle _ _ _ Hi), enc_all_app, enc_all_cons, <- !(assoc_L (++)).
  rewrite (memread_app _ (enc e v)).
  - cbn. by rewrite sext_enc.
  - rewrite msize_enc_all, length_take by lia. apply lookup_lt_Some in Hi. lia.
  - rewrite msize_enc; lia.
Qed.

Lemma intsetSet_app iset pos v a b c :
  valid_enc (is_encoding iset) -> is_contents iset = a ++ b ++ c ->
  msize a = pos * is_encoding iset -> msize b = is_encoding iset ->
  _intsetSet iset pos v = Some (with_contents iset (a ++ enc (is_encoding iset) v ++ c)).
Proof.
  intros He Hc Ha Hb. rewrite intsetSet_eq, Hc by done.
  rewrite (memwrite_app a b); [done|lia|].
  rewrite msize_enc; [done|]. apply valid_enc_pos in He. lia.
Qed.

Lemma get_repr iset vs i v :
  repr iset vs -> vs !! i = Some v -> _intsetGet iset (Z.of_nat i) = Some v.
Proof.
  intros [He Hl Hc Hr _] Hi. apply (getEncoded_enc_all _ _ vs i v []); [done| |done|].
  - by rewrite app_nil_r.
  - by eapply Forall_lookup_1.
Qed.

Lemma get_repr0 iset vs v :
  repr iset vs -> vs !! 0%nat = Some v -> _intsetGet iset 0 = Some v.
Proof. apply (get_repr _ _ 0). Qed.

Lemma valueEncoding_valid v : valid_enc (_intsetValueEncoding v).
Proof. unfold valid_enc, _intsetValueEncoding. repeat case_match; auto. Qed.

(** A value fits an encoding exactly when its own encoding is no larger. *)
Lemma valueEncoding_le v e :
  in_s 64 v -> valid_enc e -> _intsetValueEncoding v <= e <-> in_s (8 * e) v.
Proof.
  intros Hv He. unfold in_s in *. change (2 ^ (64 - 1)) with 9223372036854775808 in Hv.
  unfold _intsetValueEncoding, INT32_MIN, INT32_MAX, INT16_MIN, INT16_MAX,
    INTSET_ENC_INT64, INTSET_ENC_INT32, INTSET_ENC_INT16.
  destruct He as [->| [->| ->]];
    match goal with |- context [2 ^ ?e] => let x := eval vm_compute in (2 ^ e) in change (2 ^ e) with x end;
    unfold INTSET_ENC_INT64, INTSET_ENC_INT32, INTSET_ENC_INT16;
    destruct (_ || _) eqn:E1; [|destruct ((_ <? -32768) || _) eqn:E2| |destruct ((_ <? -32768) || _) eqn:E2| |destruct ((_ <? -32768) || _) eqn:E2];
    bools; lia.
Qed.

Lemma in_s_mono e e' v : 0 < e <= e' -> in_s (8 * e) v -> in_s (8 * e') v.
Proof.
  unfold in_s. intros He Hv.
  assert (2 ^ (8 * e - 1) <= 2 ^ (8 * e' - 1)) by (apply Z.pow_le_mono_r; lia). lia.
Qed.

(** ** Sorted lists *)

Lemma sorted_lookup_lt vs i j x y :
  StronglySorted Z.lt vs -> vs !! i = Some x -> vs !! j = Some y -> (i < j)%nat -> x < y.
Proof.
  intros Hs. revert i j. induction Hs as [|a l Hs IH Hall]; intros [|i] [|j] Hi Hj Hlt;
    simplify_eq/=; try lia.
  - by eapply (Forall_lookup_1 _ _ _ _ Hall).
  - eapply (IH i j); auto with lia.
Qed.

Lemma StronglySorted_app_2' {A} (R : A -> A -> Prop) a b :
  StronglySorted R a -> StronglySorted R b ->
  (forall x y, x ∈ a -> y ∈ b -> R x y) -> StronglySorted R (a ++ b).
Proof.
  induction 1 as [|x l Hs IH Hall]; intros Hb Hab; [done|]. cbn. constructor.
  - apply IH; [done|]. intros. apply Hab; [by right|done].
  - apply Forall_app. split; [done|]. apply Forall_forall. intros. apply Hab; [left|done].
Qed.

Lemma StronglySorted_app_inv' {A} (R : A -> A -> Prop) a b :
  StronglySorted R (a ++ b) ->
  StronglySorted R a /\ StronglySorted R b /\ (forall x y, x ∈ a -> y ∈ b -> R x y).
Proof.
  induction a as [|x a IH]; cbn; intros H.
  - repeat split; [constructor|done|]. intros ?? []%not_elem_of_nil.
  - apply StronglySorted_inv in H as [(H1&H2&H3)%IH Hall].
    apply Forall_app in Hall as [Ha Hb]. repeat split; [by constructor|done|].
    intros y z [->|Hy]%elem_of_cons Hz; [|by apply H3].
    by eapply Forall_forall in Hb.
Qed.

(** The position [p] splits a sorted list around [v]. *)
Definition splits (vs : list Z) (p : nat) (v : Z) : Prop :=
  Forall (fun x => x < v) (take p vs) /\ Forall (fun x => v < x) (drop p vs).

Lemma splits_sorted vs p v :
  StronglySorted Z.lt vs -> splits vs p v ->
  StronglySorted Z.lt (take p vs ++ v :: drop p vs).
Proof.
  intros Hs [Ht Hd]. rewrite <- (take_drop p vs) in Hs.
  apply StronglySorted_app_inv' in Hs as (H1&H2&H3).
  apply StronglySorted_app_2'; [done|by constructor|].
  intros x y Hx [->|Hy]%elem_of_cons; [|by apply H3].
  by eapply Forall_forall in Ht.
Qed.

Lemma splits_not_elem vs p v : splits vs p v -> v ∉ vs.
Proof.
  intros [Ht Hd]. rewrite <- (take_drop p vs), elem_of_app.
  intros [H|H]; [eapply Forall_forall in Ht|eapply Forall_forall in Hd]; eauto; lia.
Qed.

Lemma splits_of vs p v :
  (p <= length vs)%nat ->
  (forall i x, vs !! i = Some x -> (i < p)%nat -> x < v) ->
  (forall i x, vs !! i = Some x -> (p <= i)%nat -> v < x) -> splits vs p v.
Proof.
  intros Hp Hl Hr. split; apply Forall_lookup; intros i x Hi.
  - assert (i < p)%nat by (apply lookup_lt_Some in Hi; rewrite length_take in Hi; lia).
    rewrite lookup_take_lt in Hi by done. eauto.
  - rewrite lookup_drop in Hi. eapply Hr; [done|lia].
Qed.

(** ** Search *)

Lemma search_mid min max :
  0 <= min -> min <= max -> max < 2 ^ 31 ->
  i32 (Z.shiftr (u32 (u32 min + u32 max)) 1) = (min + max) `div` 2.
Proof.
  intros. rewrite (wrapu_small 32 min), (wrapu_small 32 max), wrapu_small by (unfold in_u; lia).
  rewrite Z.shiftr_div_pow2 by lia. change (2 ^ 1) with 2.
  apply wraps_small; [lia|]. unfold in_s. change (2 ^ (32 - 1)) with (2 ^ 31). dlia.
Qed.

Definition search_done (vs : list Z) (value : Z) (r : Z * Z * Z) : Prop :=
  let '(min, mid, cur) := r in
  (cur = value /\ 0 <= mid /\ vs !! Z.to_nat mid = Some value) \/
  (cur <> value /\ 0 <= min <= Z.of_nat (length vs) /\ splits vs (Z.to_nat min) value).

Lemma search_loop_spec iset vs value fuel min max mid cur :
  repr iset vs -> Z.of_nat (length vs) <= 2 ^ 31 ->
  0 <= min -> min <= max + 1 -> max < Z.of_nat (length vs) ->
  max - min + 1 < 2 ^ Z.of_nat fuel ->
  (forall i x, vs !! i = Some x -> Z.of_nat i < min -> x < value) ->
  (forall i x, vs !! i = Some x -> max < Z.of_nat i -> value < x) ->
  (cur <> value \/ min <= max) ->
  exists r, intsetSearch_loop (S fuel) iset value min max mid cur = Some r /\
    search_done vs value r.
Proof.
  intros Hrep Hn. revert min max mid cur.
  induction fuel as [|fuel IH]; intros min max mid cur H0 H1 H2 Hf Hlo Hhi Hcur;
    cbn [intsetSearch_loop]; rewrite Z.geb_leb;
    (destruct (Z.leb_spec min max) as [Hle|Hgt];
     [|eexists; split; [done|]; right; split; [by destruct Hcur; [|lia]|];
       split; [lia|]; apply splits_of; [lia|..]; intros i x Hi ?;
       [eapply Hlo|eapply Hhi]; eauto; lia]).
  { cbn in Hf. lia. }
  rewrite search_mid by lia.
  rewrite Nat2Z.inj_succ, Z.pow_succ_r in Hf by lia.
  set (m := (min + max) `div` 2) in *.
  assert (2 * m <= min + max < 2 * m + 2) by (subst m; dlia). clearbody m.
  destruct (lookup_lt_is_Some_2 vs (Z.to_nat m)) as [c Hc]; [lia|].
  rewrite <- (Z2Nat.id m) by lia. rewrite (get_repr _ _ _ _ Hrep Hc). cbn.
  rewrite Z2Nat.id by lia. rewrite Z.gtb_ltb.
  pose proof (sorted_lookup_lt vs) as Hs. pose proof (repr_sorted _ _ Hrep) as Hss.
  destruct (Z.ltb_spec c value); [|destruct (Z.ltb_spec value c)].
  - apply IH; try lia; [|done].
    intros i x Hi ?. destruct (decide (i = Z.to_nat m)) as [->|]; [by simplify_eq|].
    enough (x < c) by lia. eapply Hs; eauto. lia.
  - apply IH; try lia; [done|].
    intros i x Hi ?. destruct (decide (i = Z.to_nat m)) as [->|]; [by simplify_eq|].
    enough (c < x) by lia. eapply Hs; eauto. lia.
  - eexists; split; [done|]. left. assert (c = value) as -> by lia. split_and!; [done|lia|done].
Qed.

(** What [intsetSearch] promises: the member's position, or the position that
    splits the set around the value. *)
Lemma intsetSearch_spec iset vs value :
  repr iset vs -> Z.of_nat (length vs) <= 2 ^ 31 ->
  exists found pos, intsetSearch iset value = Some (found, pos) /\
    0 <= pos <= Z.of_nat (length vs) /\
    if (found : bool) then vs !! Z.to_nat pos = Some value
    else splits vs (Z.to_nat pos) value.
Proof.
  intros Hrep Hn. unfold intsetSearch. rewrite (repr_len _ _ Hrep).
  pose proof (repr_sorted _ _ Hrep) as Hss.
  destruct (Z.eqb_spec (Z.of_nat (length vs)) 0) as [H0|H0].
  { exists false, 0. split; [done|]. split; [lia|]. destruct vs; [split; constructor|done]. }
  rewrite wraps_small by (unfold in_s; lia).
  destruct (lookup_lt_is_Some_2 vs (length vs - 1)) as [l Hl]; [lia|].
  destruct (lookup_lt_is_Some_2 vs 0) as [f Hf]; [lia|].
  replace (Z.of_nat (length vs) - 1) with (Z.of_nat (length vs - 1)) by lia.
  rewrite (get_repr _ _ _ _ Hrep Hl). rewrite (get_repr0 _ _ _ Hrep Hf). mred.
  rewrite Z.gtb_ltb. destruct (Z.ltb_spec l value) as [Hlv|Hlv].
  { exists false, (Z.of_nat (length vs)). split; [done|]. split; [lia|].
    apply splits_of; [lia|intros i x Hi ?|intros i x Hi ?; apply lookup_lt_Some in Hi; lia].
    destruct (decide (i = length vs - 1)%nat) as [->|]; [by simplify_eq|].
    enough (x < l) by lia. eapply sorted_lookup_lt; eauto. lia. }
  destruct (Z.ltb_spec value f) as [Hvf|Hvf].
  { exists false, 0. split; [done|]. split; [lia|].
    apply splits_of; [lia|intros; lia|intros i x Hi ?].
    destruct i as [|i]; [by simplify_eq|].
    enough (f < x) by lia. eapply sorted_lookup_lt; eauto. lia. }
  destruct (search_loop_spec iset vs value 32 0 (Z.of_nat (length vs - 1)) (-1) (-1))
    as ([[min mid] cur] & -> & Hd); try done; try lia.
  { intros i x Hi ?. apply lookup_lt_Some in Hi. lia. }
  mred. destruct Hd as [(->&?&Hm)|(Hc&?&Hsp)].
  - rewrite Z.eqb_refl. exists true, mid. split; [done|]. split; [|done].
    apply lookup_lt_Some in Hm. lia.
  - destruct (Z.eqb_spec value cur) as [->|]; [done|]. exists false, min. auto.
Qed.

(** ** Resizing and upgrading *)

Section alloc_facts.
Context (junk : nat -> Z).

Lemma resize_ok iset len :
  0 < is_encoding iset <= 8 -> 0 <= 8 * len <= UINT32_MAX ->
  intsetResize junk iset len =
    Some (with_contents iset (zrealloc junk (is_contents iset) (len * is_encoding iset))).
Proof.
  intros He Hl. unfold intsetResize, UINT32_MAX, SIZE_MAX, UINT64_MAX, sizeof_intset in *.
  rewrite wrapu_small by (unfold in_u; nia).
  by ztrue nia.
Qed.

(** The back-to-front loop rewrites the block in place without overwriting an
    entry it still has to read. *)
Lemma upgrade_loop_spec vs cur p n iset G T :
  valid_enc cur -> valid_enc (is_encoding iset) -> cur <= is_encoding iset -> 0 <= p ->
  Forall (in_s (8 * cur)) vs -> (n <= length vs)%nat ->
  is_contents iset =
    enc_all cur (take n vs) ++ G ++ enc_all (is_encoding iset) (drop n vs) ++ T ->
  cur * Z.of_nat n + msize G = (Z.of_nat n + p) * is_encoding iset ->
  exists G', intsetUpgrade_loop n iset p cur =
      Some (with_contents iset (G' ++ enc_all (is_encoding iset) vs ++ T)) /\
    msize G' = p * is_encoding iset.
Proof.
  intros Hc He Hle Hp Hr. revert iset He Hle G.
  induction n as [|n IH]; intros iset He Hle G Hn HC HG; cbn [intsetUpgrade_loop].
  { exists G. split; [|lia]. f_equal. destruct iset; unfold with_contents; cbn in *. by rewrite HC. }
  pose proof (valid_enc_pos _ Hc) as Hcp. pose proof (valid_enc_pos _ He) as Hep.
  destruct (lookup_lt_is_Some_2 vs n) as [v Hv]; [lia|].
  assert (in_s (8 * cur) v) as Hvr by (by eapply Forall_lookup_1).
  rewrite (getEncoded_enc_all iset cur (take (S n) vs) n v _ Hc HC); [|by rewrite lookup_take_lt by lia|done].
  mred. rewrite (take_S_r _ _ _ Hv), enc_all_app in HC.
  destruct (msplit (enc cur v ++ G) ((Z.of_nat n + p) * is_encoding iset - cur * Z.of_nat n))
    as (G1 & b & E & HG1).
  { rewrite msize_app, msize_enc by lia. nia. }
  pose proof (f_equal msize E) as Em. rewrite !msize_app, msize_enc in Em by lia.
  rewrite (intsetSet_app _ _ _ (enc_all cur (take n vs) ++ G1) b
    (enc_all (is_encoding iset) (drop (S n) vs) ++ T)); [|done| | |lia].
  - mred. destruct (IH (with_contents iset ((enc_all cur (take n vs) ++ G1) ++
      enc (is_encoding iset) v ++ enc_all (is_encoding iset) (drop (S n) vs) ++ T)) He Hle G1)
      as (G' & -> & HG'); [lia| | |by exists G'].
    + cbn. rewrite (drop_S _ _ _ Hv), enc_all_cons. by rewrite <- !(assoc_L (++)).
    + cbn. lia.
  - rewrite HC. change (enc_all cur [v]) with (enc cur v ++ []). rewrite app_nil_r.
    rewrite <- !(assoc_L (++)). f_equal. rewrite !(assoc_L (++)), E. done.
  - rewrite msize_app, msize_enc_all, length_take by lia. lia.
Qed.

Lemma upgrade_outside iset vs v :
  repr iset vs -> in_s 64 v -> is_encoding iset < _intsetValueEncoding v ->
  splits vs (if v <? 0 then 0%nat else length vs) v.
Proof.
  intros [He _ _ Hr _] Hv Hlt.
  assert (~ in_s (8 * is_encoding iset) v) as Hout by (rewrite <- valueEncoding_le by done; lia).
  apply splits_of; [case_match; lia|..]; intros i x Hi Hip;
    pose proof (Forall_lookup_1 _ _ _ _ Hr Hi) as Hx; unfold in_s in *;
    destruct (Z.ltb_spec v 0); try lia; apply lookup_lt_Some in Hi; lia.
Qed.

Lemma upgradeAndAdd_spec iset vs v :
  repr iset vs -> in_s 64 v -> fits (S (length vs)) ->
  is_encoding iset < _intsetValueEncoding v ->
  exists iset', intsetUpgradeAndAdd junk iset v = Some iset' /\
    repr iset' (if v <? 0 then v :: vs else vs ++ [v]).
Proof.
  intros Hrep Hv Hf Hlt. pose proof (upgrade_outside _ _ _ Hrep Hv Hlt) as Hsp.
  destruct Hrep as [He Hl HC Hr Hs]. pose proof (valid_enc_pos _ He).
  pose proof (valueEncoding_valid v) as Hne. pose proof (valid_enc_pos _ Hne).
  unfold intsetUpgradeAndAdd, fits, UINT32_MAX in *. rewrite Hl.
  rewrite !(wrapu_small 32), (wrapu_small 8), wraps_small by (unfold in_u, in_s; lia).
  set (new := _intsetValueEncoding v) in *.
  rewrite resize_ok by (cbn [is_encoding]; unfold UINT32_MAX; lia). mred.
  cbn [is_encoding is_contents with_contents is_length].
  destruct (zrealloc_grow junk (is_contents iset) ((Z.of_nat (length vs) + 1) * new)) as (j & -> & Hj).
  { rewrite HC, msize_enc_all by lia. nia. }
  rewrite HC in *. rewrite msize_enc_all in Hj by lia.
  replace (Z.of_nat (length vs) <? 0) with false by (symmetry; apply Z.ltb_ge; lia).
  rewrite Nat2Z.id. set (p := if v <? 0 then 1 else 0).
  assert (0 <= p <= 1) by (subst p; case_match; lia).
  destruct (msplit j (msize j - (1 - p) * new)) as (G & T & -> & HG).
  { pose proof (msize_nonneg j). split; [|nia]. rewrite Hj. nia. }
  rewrite msize_app in *.
  edestruct (upgrade_loop_spec vs (is_encoding iset) p (length vs)
    (mk_intset new (Z.of_nat (length vs)) (enc_all (is_encoding iset) vs ++ G ++ T)) G T)
    as (G' & E & HG'); cbn [is_encoding is_contents]; try done; try lia.
  { by rewrite take_ge, drop_ge by lia. }
  unfold with_contents in *. cbn [is_encoding is_length] in *.
  rewrite E. mred.
  assert (StronglySorted Z.lt (if v <? 0 then v :: vs else vs ++ [v])) as Hs'.
  { pose proof (splits_sorted _ _ _ Hs Hsp) as Hss. destruct (v <? 0).
    - done.
    - by rewrite take_ge, drop_ge in Hss by lia. }
  assert (Forall (in_s (8 * new)) (v :: vs)) as Hr'.
  { constructor; [by apply valueEncoding_le|].
    eapply Forall_impl; [done|]. intros. eapply in_s_mono; [|done]. lia. }
  subst p. destruct (Z.ltb_spec v 0).
  - rewrite (intsetSet_app _ 0 v [] G' (enc_all new vs ++ T)) by (done || (cbn [is_encoding]; lia)).
    mred. cbn [is_length is_encoding is_contents with_contents]. rewrite wrapu_small by (unfold in_u; lia).
    eexists; split; [done|]. rewrite (msize_zero T) in * by lia.
    split; cbn; [done|lia|by rewrite enc_all_cons, !app_nil_r|done|done].
  - rewrite (msize_zero G') in * by lia.
    rewrite (intsetSet_app _ _ v (enc_all new vs) T []);
      cbn [is_contents is_encoding is_length];
      [|done|by rewrite app_nil_r|rewrite msize_enc_all; lia|lia].
    mred. cbn [is_length is_encoding is_contents with_contents]. rewrite wrapu_small by (unfold in_u; lia).
    eexists; split; [done|].
    split; cbn; [done|rewrite length_app; cbn; lia| |rewrite Forall_app; inversion Hr'; auto|done].
    by rewrite enc_all_app.
Qed.

(** ** Insertion and removal *)

Lemma moveTail_eq iset from to n :
  valid_enc (is_encoding iset) -> is_length iset = Z.of_nat n -> fits n ->
  0 <= from <= Z.of_nat n ->
  intsetMoveTail iset from to =
    with_contents iset <$> memmove (is_contents iset) (to * is_encoding iset)
      (from * is_encoding iset) ((Z.of_nat n - from) * is_encoding iset).
Proof.
  intros He Hl Hf Hr. pose proof (valid_enc_pos _ He). unfold intsetMoveTail, fits, UINT32_MAX in *.
  replace (if is_encoding iset =? _ then _ else _) with (is_encoding iset)
    by (destruct He as [->| [->| ->]]; done).
  rewrite Hl, (wrapu_small 32 (_ - _)), wrapu_small by (unfold in_u; nia). done.
Qed.

Lemma sorted_NoDup vs : StronglySorted Z.lt vs -> NoDup vs.
Proof.
  induction 1 as [|x l Hs IH Hall]; constructor; [|done].
  intros Hx. eapply Forall_forall in Hall; [|done]. lia.
Qed.

Lemma add_repr iset vs v :
  repr iset vs -> in_s 64 v -> fits (S (length vs)) ->
  exists iset' vs', intsetAdd junk iset v = Some (iset', bool_decide (v ∉ vs)) /\
    repr iset' vs' /\ (forall x, x ∈ vs' <-> x = v \/ x ∈ vs).
Proof.
  intros Hrep Hv Hf. unfold intsetAdd. rewrite Z.gtb_ltb.
  destruct (Z.ltb_spec (is_encoding iset) (_intsetValueEncoding v)) as [Hlt|Hle].
  { destruct (upgradeAndAdd_spec _ _ _ Hrep Hv Hf Hlt) as (iset' & -> & Hrep').
    exists iset', (if v <? 0 then v :: vs else vs ++ [v]). split; [|split; [done|]].
    - mred. rewrite bool_decide_true; [done|].
      eapply splits_not_elem, upgrade_outside; eauto.
    - intros x. destruct (v <? 0); rewrite ?elem_of_cons, ?elem_of_app, ?list_elem_of_singleton; tauto. }
  destruct (intsetSearch_spec iset vs v Hrep) as (found & pos & -> & Hpos & Hfd).
  { unfold fits, UINT32_MAX in Hf. lia. }
  mred. destruct found.
  { exists iset, vs. rewrite bool_decide_false.
    - split; [done|]. split; [done|]. intros x. split; [auto|]. intros [->|]; [|done].
      by eapply list_elem_of_lookup_2.
    - intros Hn. apply Hn. by eapply list_elem_of_lookup_2. }
  destruct Hrep as [He Hl HC Hr Hs]. pose proof (valid_enc_pos _ He).
  set (p := Z.to_nat pos) in *. set (e := is_encoding iset) in *.
  unfold fits, UINT32_MAX in Hf. rewrite Hl, !(wrapu_small 32) by (unfold in_u; lia).
  rewrite resize_ok by (fold e; unfold UINT32_MAX; lia). mred. fold e.
  destruct (zrealloc_grow junk (is_contents iset) ((Z.of_nat (length vs) + 1) * e)) as (j & Ej & Hj).
  { rewrite HC, msize_enc_all by lia. nia. }
  rewrite Ej, HC. rewrite HC, msize_enc_all in Hj by lia.
  assert (exists g, (if pos <? is_length (with_contents iset (enc_all e vs ++ j))
      then intsetMoveTail (with_contents iset (enc_all e vs ++ j)) pos (pos + 1)
      else Some (with_contents iset (enc_all e vs ++ j))) =
      Some (with_contents iset (enc_all e (take p vs) ++ g ++ enc_all e (drop p vs))) /\
      msize g = e) as (g & -> & Hg).
  { cbn [is_length with_contents]. rewrite Hl. destruct (Z.ltb_spec pos (Z.of_nat (length vs))).
    - rewrite (moveTail_eq _ _ _ (length vs)) by
        (done || unfold fits, UINT32_MAX; lia).
      cbn [is_contents is_encoding with_contents]. fold e.
      replace (enc_all e vs) with (enc_all e (take p vs) ++ enc_all e (drop p vs))
        by (by rewrite <- enc_all_app, take_drop).
      rewrite <- (assoc_L (++)).
      destruct (memmove_up (enc_all e (take p vs)) (enc_all e (drop p vs)) j
        ((pos + 1) * e) (pos * e) ((Z.of_nat (length vs) - pos) * e)) as (g & -> & Hg);
        rewrite ?msize_enc_all, ?length_take, ?length_drop by lia; try nia.
      exists g. split; [done|lia].
    - exists j. rewrite take_ge, drop_ge by lia. cbn. rewrite app_nil_r. split; [done|lia]. }
  mred. rewrite (intsetSet_app _ _ _ (enc_all e (take p vs)) g (enc_all e (drop p vs)));
    [|done|done|rewrite msize_enc_all, length_take by lia; cbn; fold e; rewrite Nat.min_l by lia; subst p; rewrite Z2Nat.id; lia|done].
  mred. exists (mk_intset e (Z.of_nat (length vs) + 1)
      (enc_all e (take p vs) ++ enc e v ++ enc_all e (drop p vs))), (take p vs ++ v :: drop p vs).
  rewrite bool_decide_true by (by eapply splits_not_elem).
  split; [cbn; by rewrite Hl, wrapu_small by (unfold in_u; lia)|]. split.
  - split; cbn.
    + done.
    + rewrite length_app, length_take. cbn. rewrite length_drop. lia.
    + by rewrite enc_all_app, enc_all_cons.
    + rewrite <- (take_drop p vs), Forall_app in Hr. destruct Hr.
      apply Forall_app; split; [done|]. constructor; [|done]. by apply valueEncoding_le.
    + by apply splits_sorted.
  - intros x. rewrite <- (take_drop p vs) at 3. rewrite !elem_of_app, elem_of_cons. tauto.
Qed.

Lemma remove_repr iset vs v :
  repr iset vs -> in_s 64 v -> fits (length vs) ->
  exists iset' vs', intsetRemove junk iset v = Some (iset', bool_decide (v ∈ vs)) /\
    repr iset' vs' /\ (forall x, x ∈ vs' <-> x <> v /\ x ∈ vs).
Proof.
  intros Hrep Hv Hf. unfold intsetRemove.
  pose proof Hrep as [He Hl HC Hr Hs]. pose proof (valid_enc_pos _ He).
  destruct (Z.leb_spec (_intsetValueEncoding v) (is_encoding iset)) as [Hle|Hgt].
  2: { assert (v ∉ vs) as Hn.
       { intros [i Hi]%list_elem_of_lookup. pose proof (Forall_lookup_1 _ _ _ _ Hr Hi) as Hx.
         apply valueEncoding_le in Hx; [lia|done|done]. }
       exists iset, vs. rewrite bool_decide_false by done. do 2 (split; [done|]). set_solver. }
  destruct (intsetSearch_spec iset vs v Hrep) as (found & pos & -> & Hpos & Hfd).
  { unfold fits, UINT32_MAX in Hf. lia. }
  mred. destruct found.
  2: { pose proof (splits_not_elem _ _ _ Hfd). exists iset, vs.
       rewrite bool_decide_false by done. do 2 (split; [done|]). set_solver. }
  set (p := Z.to_nat pos) in *. set (e := is_encoding iset) in *.
  pose proof (lookup_lt_Some _ _ _ Hfd) as Hp. unfold fits, UINT32_MAX in Hf.
  rewrite Hl, !(wrapu_small 32) by (unfold in_u; lia).
  assert (exists g, (if pos <? Z.of_nat (length vs) - 1
      then intsetMoveTail iset (pos + 1) pos else Some iset) =
      Some (with_contents iset ((enc_all e (take p vs) ++ enc_all e (drop (S p) vs)) ++ g)))
    as (g & ->).
  { pose proof (take_drop_middle _ _ _ Hfd) as Evs.
    assert (is_contents iset = enc_all e (take p vs) ++ enc e v ++ enc_all e (drop (S p) vs)) as HC'.
    { by rewrite HC, <- enc_all_cons, <- enc_all_app, Evs. }
    destruct (Z.ltb_spec pos (Z.of_nat (length vs) - 1)).
    - rewrite (moveTail_eq _ _ _ (length vs)) by (done || unfold fits, UINT32_MAX; lia).
      fold e. rewrite HC'.
      destruct (memmove_down (enc_all e (take p vs)) (enc e v) (enc_all e (drop (S p) vs))
        (pos * e) ((pos + 1) * e) ((Z.of_nat (length vs) - (pos + 1)) * e)) as (g & -> & Hg);
        rewrite ?msize_enc_all, ?msize_enc, ?length_take, ?length_drop, ?Nat.min_l by lia;
        try (subst p; nia).
      exists g. mred. by rewrite (assoc_L (++)).
    - exists (enc e v). rewrite (drop_ge vs (S p)) in HC' |- * by lia.
      f_equal. destruct iset; unfold with_contents; cbn in *. f_equal.
      change (enc_all e []) with ([] : mem) in *. by rewrite HC', !app_nil_r. }
  mred. assert (Hlen : (length vs - 1 = length (take p vs ++ drop (S p) vs))%nat).
  { rewrite length_app, length_take, length_drop. lia. }
  rewrite resize_ok by (cbn; fold e; unfold UINT32_MAX; lia). mred.
  cbn [with_contents is_contents is_encoding is_length]. fold e.
  rewrite <- enc_all_app.
  replace ((Z.of_nat (length vs) - 1) * e) with (msize (enc_all e (take p vs ++ drop (S p) vs)))
    by (rewrite msize_enc_all by lia; nia).
  rewrite zrealloc_shrink.
  eexists _, (take p vs ++ drop (S p) vs).
  rewrite bool_decide_true by (by eapply list_elem_of_lookup_2). split; [done|].
  rewrite <- (take_drop_middle _ _ _ Hfd) in Hs, Hr.
  apply StronglySorted_app_inv' in Hs as (Hs1 & [Hs2 Hd]%StronglySorted_inv & Hs3).
  apply Forall_app in Hr as [Hr1 [_ Hr2]%Forall_cons_1]. split.
  - split; cbn; [done|lia|done|by apply Forall_app|].
    apply StronglySorted_app_2'; [done..|]. intros. apply Hs3; [done|by right].
  - intros x. rewrite <- (take_drop_middle _ _ _ Hfd) at 3. rewrite !elem_of_app, elem_of_cons.
    rewrite Forall_forall in Hd.
    assert (x ∈ take p vs -> x < v) by (intros; apply Hs3; [done|left]).
    assert (x ∈ drop (S p) vs -> v < x) by apply Hd.
    destruct (decide (x = v)) as [->|]; [|tauto].
    assert (~ v < v) by lia. tauto.
Qed.
End alloc_facts.

(** ** Reading a blob *)

Lemma enc_wraps e b :
  valid_enc e -> bytes b -> msize b = e -> enc e (wraps (8 * e) (le_val b)) = b.
Proof.
  intros He Hb Hm. pose proof (valid_enc_pos _ He). unfold enc.
  assert (Z.to_nat e = length b) as -> by (unfold msize in Hm; lia).
  transitivity (le_bytes (length b) (le_val b)); [|by apply le_bytes_le_val].
  rewrite <- le_bytes_mod, <- (le_bytes_mod _ (le_val b)). f_equal.
  change 256 with (2 ^ 8). rewrite <- Z.pow_mul_r by lia.
  replace (8 * Z.of_nat (length b)) with (8 * e) by (unfold msize in Hm; lia).
  apply (wrapu_wraps (8 * e)). lia.
Qed.

Lemma dec_all e n m :
  valid_enc e -> bytes m -> msize m = Z.of_nat n * e ->
  exists vs, length vs = n /\ m = enc_all e vs /\ Forall (in_s (8 * e)) vs.
Proof.
  intros He. pose proof (valid_enc_pos _ He). revert m.
  induction n as [|n IH]; intros m Hm Hs.
  { exists []. rewrite (msize_zero m) by lia. done. }
  destruct (msplit m e) as (b & r & -> & Hb); [nia|].
  rewrite msize_app in Hs. apply Forall_app in Hm as [Hmb Hmr].
  destruct (IH r) as (vs & Hl & -> & Hr); [done|lia|].
  exists (wraps (8 * e) (le_val b) :: vs). cbn. rewrite enc_all_cons, enc_wraps by done.
  split_and!; [lia|done|]. constructor; [|done]. apply in_s_wraps. lia.
Qed.

Lemma sorted_cons_cons x y l :
  StronglySorted Z.lt (x :: y :: l) <-> x < y /\ StronglySorted Z.lt (y :: l).
Proof.
  split.
  - intros [Hs Hx]%StronglySorted_inv. apply Forall_cons in Hx as [??]. done.
  - intros [Hxy Hs]. pose proof Hs as [_ Hy]%StronglySorted_inv. constructor; [done|].
    constructor; [done|]. eapply Forall_impl; [done|]. cbn. lia.
Qed.

#[export] Instance sorted_dec (l : list Z) : Decision (StronglySorted Z.lt l).
Proof.
  induction l as [|x [|y l] IH]; [left; constructor|left; repeat constructor|].
  destruct (decide (x < y)), IH; [left|right|right|right]; rewrite sorted_cons_cons; tauto.
Defined.

Lemma validate_loop_spec iset vs n i prev :
  valid_enc (is_encoding iset) -> is_contents iset = enc_all (is_encoding iset) vs ->
  Forall (in_s (8 * is_encoding iset)) vs -> Z.of_nat (length vs) < 2 ^ 31 ->
  (i + n = length vs)%nat ->
  intsetValidate_loop n iset (Z.of_nat i) prev =
    Some (bool_decide (StronglySorted Z.lt (prev :: drop i vs))).
Proof.
  intros He HC Hr Hl. revert i prev. induction n as [|n IH]; intros i prev Hi; cbn [intsetValidate_loop].
  { rewrite drop_ge, bool_decide_true by (lia || (repeat constructor)). done. }
  destruct (lookup_lt_is_Some_2 vs i) as [c Hc]; [lia|].
  rewrite wraps_small by (unfold in_s; lia).
  unfold _intsetGet. rewrite (getEncoded_enc_all _ _ vs i c []);
    [|done|by rewrite app_nil_r|done|by eapply Forall_lookup_1].
  mred. rewrite (drop_S _ _ _ Hc).
  destruct (Z.leb_spec c prev).
  - rewrite bool_decide_false; [done|]. rewrite sorted_cons_cons. lia.
  - replace (Z.of_nat i + 1) with (Z.of_nat (S i)) by lia. rewrite IH by lia.
    f_equal. apply bool_decide_ext. rewrite sorted_cons_cons. tauto.
Qed.

Lemma blob_read p :
  8 <= msize p -> exists e l, intset_of_blob p = Some (mk_intset (le_val e) (le_val l) (drop 8 p)) /\
    (bytes p -> 0 <= le_val e < 2 ^ 32 /\ 0 <= le_val l < 2 ^ 32).
Proof.
  intros H. destruct (msplit p 4) as (a & r & -> & Ha); [lia|].
  rewrite msize_app in H. destruct (msplit r 4) as (b & c & -> & Hb); [lia|].
  exists a, b. unfold intset_of_blob.
  rewrite (memread_app_start a (b ++ c) 4 (eq_sym Ha)). mred.
  rewrite (memread_app a b c 4 4 (eq_sym Ha) (eq_sym Hb)). split; [done|].
  intros [Ha' [Hb' _]%Forall_app]%Forall_app.
  pose proof (le_val_bound _ Ha'). pose proof (le_val_bound _ Hb'). unfold msize in *.
  change (2 ^ 32) with (256 ^ 4). by rewrite Ha, Hb in *.
Qed.

(** ** The sets the operations implement *)

(** [iset] is a well-formed intset whose members are the finite set [S]. *)
Definition denotes (iset : intset) (S : gset Z) : Prop :=
  exists vs, repr iset vs /\ S = list_to_set vs.

Lemma denotes_size iset vs : repr iset vs -> size (list_to_set vs : gset Z) = length vs.
Proof. intros H. apply size_list_to_set, sorted_NoDup, H. Qed.

(** C26: Inserting any 64-bit integer into a well-formed intset that has fewer than
    2^29 - 1 members -- so that the bytes of the members and the new one, 8 bytes each, are
    counted in 32 bits; a count that wraps moves nothing, see [intsetMoveTail_wraps] -- never
    touches memory outside the block, upgrades the encoding when the value needs it, and
    leaves a well-formed intset for the old set with the value added; the success flag is
    set exactly when the value was not a member. *)
Theorem intsetAdd_refines junk iset S v :
  denotes iset S -> in_s 64 v -> fits (Datatypes.S (size S)) ->
  exists iset', intsetAdd junk iset v = Some (iset', bool_decide (v ∉ S)) /\
    denotes iset' ({[v]} ∪ S).
Proof.
  intros (vs & Hrep & ->) Hv Hf. rewrite (denotes_size _ _ Hrep) in Hf.
  destruct (add_repr junk _ _ _ Hrep Hv Hf) as (iset' & vs' & -> & Hrep' & Hin).
  exists iset'. split.
  - do 2 f_equal. apply bool_decide_ext. by rewrite elem_of_list_to_set.
  - exists vs'. split; [done|]. apply set_eq. intros x.
    rewrite elem_of_union, elem_of_singleton, !elem_of_list_to_set. symmetry. apply Hin.
Qed.

(** Removing a value from a well-formed intset leaves a well-formed intset
    for the set without it; the flag reports whether it was a member. *)
Theorem intsetRemove_refines junk iset S v :
  denotes iset S -> in_s 64 v -> fits (size S) ->
  exists iset', intsetRemove junk iset v = Some (iset', bool_decide (v ∈ S)) /\
    denotes iset' (S ∖ {[v]}).
Proof.
  intros (vs & Hrep & ->) Hv Hf. rewrite (denotes_size _ _ Hrep) in Hf.
  destruct (remove_repr junk _ _ _ Hrep Hv Hf) as (iset' & vs' & -> & Hrep' & Hin).
  exists iset'. split.
  - do 2 f_equal. apply bool_decide_ext. by rewrite elem_of_list_to_set.
  - exists vs'. split; [done|]. apply set_eq. intros x.
    rewrite elem_of_difference, elem_of_singleton, !elem_of_list_to_set, Hin. tauto.
Qed.

(** The binary search behind [intsetFind] terminates and decides
    membership, for every 64-bit value and every encoding of the set. *)
Theorem intsetFind_refines iset S v :
  denotes iset S -> in_s 64 v -> fits (size S) ->
  intsetFind iset v = Some (bool_decide (v ∈ S)).
Proof.
  intros (vs & Hrep & ->) Hv Hf. rewrite (denotes_size _ _ Hrep) in Hf. unfold intsetFind.
  assert (bool_decide (v ∈ (list_to_set vs : gset Z)) = bool_decide (v ∈ vs)) as ->
    by (apply bool_decide_ext; by rewrite elem_of_list_to_set).
  destruct (Z.leb_spec (_intsetValueEncoding v) (is_encoding iset)) as [Hle|Hgt].
  - destruct (intsetSearch_spec iset vs v Hrep) as (found & pos & -> & _ & Hfd).
    { unfold fits, UINT32_MAX in Hf. lia. }
    mred. destruct found.
    + by rewrite bool_decide_true by (by eapply list_elem_of_lookup_2).
    + by rewrite bool_decide_false by (by eapply splits_not_elem).
  - rewrite bool_decide_false; [done|]. intros [i Hi]%list_elem_of_lookup.
    pose proof (Forall_lookup_1 _ _ _ _ (repr_range _ _ Hrep) Hi) as Hx.
    apply valueEncoding_le in Hx; [lia|done|apply Hrep].
Qed.

(** A deep check of an untrusted blob never reads outside it, and accepts it
    exactly when it is the layout of some non-empty well-formed intset. *)
Theorem intsetValidateIntegrity_sound p :
  bytes p -> msize p < 2 ^ 31 ->
  exists ok, intsetValidateIntegrity p (msize p) true = Some ok /\
    (ok = true <-> exists iset vs, intset_of_blob p = Some iset /\ repr iset vs /\ vs <> []).
Proof.
  intros Hp Hsz. unfold intsetValidateIntegrity, sizeof_intset.
  destruct (Z.ltb_spec (msize p) 8) as [H8|H8].
  { exists false. split; [done|]. split; [done|]. intros (iset & vs & E & _).
    unfold intset_of_blob in E. destruct (memread p 0 4) eqn:E0; [|done]. cbn in E.
    destruct (memread p 4 4) eqn:E4; [|done]. apply memread_bounds in E4. lia. }
  destruct (blob_read p H8) as (e & l & -> & Hb). destruct (Hb Hp) as [He Hl]. mred.
  cbn [is_encoding is_length].
  assert (msize (drop 8 p) = msize p - 8) as Hd by (unfold msize in *; rewrite length_drop; lia).
  destruct (_ || _) eqn:Eenc; cbn [negb].
  2: { exists false. split; [done|]. split; [done|]. intros (? & vs & [= <-] & Hrep & _).
       destruct (repr_enc _ _ Hrep) as [E|[E|E]]; cbn in E; rewrite E in Eenc; done. }
  assert (valid_enc (le_val e)) as Hve.
  { unfold valid_enc. apply orb_prop in Eenc as [[E|E]%orb_prop|E]; apply Z.eqb_eq in E; auto. }
  pose proof (valid_enc_pos _ Hve).
  rewrite wrapu_small by (unfold in_u; nia).
  destruct (Z.eqb_spec (8 + le_val l * le_val e) (msize p)) as [Hs|Hs]; cbn [negb].
  2: { exists false. split; [done|]. split; [done|]. intros (? & vs & [= <-] & [_ Hl' Hc' _ _] & _).
       cbn in *. rewrite Hc', msize_enc_all in Hd by lia. nia. }
  destruct (dec_all (le_val e) (Z.to_nat (le_val l)) (drop 8 p)) as (vs & Hlen & HC & Hr);
    [done|by apply Forall_drop|nia|].
  assert (forall vs', repr (mk_intset (le_val e) (le_val l) (drop 8 p)) vs' -> vs' = vs) as Huniq.
  { intros vs' [_ Hl' Hc' Hr' _]. cbn in *. apply list_eq_same_length with (length vs); [lia|lia|].
    intros i x y Hi Hx Hy. set (iset := mk_intset (le_val e) (le_val l) (drop 8 p)).
    assert (_intsetGetEncoded iset (Z.of_nat i) (le_val e) = Some x) as E1.
    { apply (getEncoded_enc_all _ _ vs' i x []); cbn; rewrite ?app_nil_r; try done. by apply (Forall_lookup_1 _ _ _ _ Hr' Hx). }
    assert (_intsetGetEncoded iset (Z.of_nat i) (le_val e) = Some y) as E2.
    { apply (getEncoded_enc_all _ _ vs i y []); cbn; rewrite ?app_nil_r; try done. by apply (Forall_lookup_1 _ _ _ _ Hr Hy). }
    congruence. }
  destruct (Z.eqb_spec (le_val l) 0) as [H0|H0].
  { exists false. split; [done|]. split; [done|]. intros (? & vs' & [= <-] & Hrep & Hne).
    rewrite (Huniq _ Hrep) in Hne. destruct vs; [done|]. cbn in Hlen. lia. }
  cbn [negb]. destruct vs as [|v vs]; [cbn in Hlen; lia|].
  unfold _intsetGet. cbn [is_encoding].
  rewrite (getEncoded_enc_all _ _ (v :: vs) 0 v []);
    [|done|cbn; by rewrite app_nil_r|done|by apply Forall_cons_1 in Hr as [??]].
  mred. change 1 with (Z.of_nat 1).
  rewrite (validate_loop_spec _ (v :: vs)); try done; [|nia|cbn in *; lia].
  change (drop 1 (v :: vs)) with vs.
  eexists. split; [done|]. rewrite bool_decide_eq_true. split.
  - intros Hs'. eexists _, (v :: vs). split; [done|]. split; [|done].
    split; cbn [is_encoding is_length is_contents]; [done|lia|done..].
  - intros (? & vs' & [= <-] & Hrep & Hne). rewrite <- (Huniq _ Hrep). apply Hrep.
Qed.

(** The byte count of a tail move is kept in 32 bits: for a set of 2^29
    64-bit members (below the limit of 2^30 members the set type enforces) the
    move that makes room at the front moves nothing at all. *)
Theorem intsetMoveTail_wraps c :
  intsetMoveTail (mk_intset INTSET_ENC_INT64 (2 ^ 29) c) 0 1 =
    if 8 <=? msize c then Some (mk_intset INTSET_ENC_INT64 (2 ^ 29) c) else None.
Proof.
  unfold intsetMoveTail. cbn [is_length is_encoding is_contents].
  change (u32 (u32 (2 ^ 29 - 0) * _)) with 0.
  change (if INTSET_ENC_INT64 =? INTSET_ENC_INT64 then 8 else _) with 8.
  change (0 * 8) with 0. change (1 * 8) with 8. unfold memmove.
  pose proof (memread_app_start [] c 0 eq_refl) as E. cbn [app] in E. rewrite E. mred.
  unfold memwrite. change (8 + msize []) with 8. change (0 <=? 8) with true. cbn [andb].
  destruct (8 <=? msize c); [|done]. mred. unfold with_contents.
  cbn [is_encoding is_length app length]. by rewrite Nat.add_0_r, take_drop.
Qed.

(** ** Witnesses *)

Definition ex_set : intset := mk_intset INTSET_ENC_INT16 2 [251; 255; 5; 0].

Definition ex_S : gset Z := {[-5; 5]}.

Lemma ex_set_denotes : denotes ex_set ex_S.
Proof.
  exists [-5; 5]. split; [|unfold ex_S; set_solver].
  split; cbn; [by left|done|done|repeat constructor; done|].
  repeat constructor; lia.
Qed.

Lemma ex_fits n : (n <= 100)%nat -> fits n.
Proof. unfold fits, UINT32_MAX. lia. Qed.

Lemma intsetAdd_refines_witness :
  exists iset', intsetAdd (fun _ => 0) ex_set 70000 =
      Some (iset', bool_decide (70000 ∉ ex_S)) /\
    denotes iset' ({[70000]} ∪ ex_S).
Proof.
  apply (intsetAdd_refines (fun _ => 0) ex_set ex_S 70000);
    [apply ex_set_denotes|done|apply ex_fits; vm_compute; lia].
Defined.

Lemma intsetRemove_refines_witness :
  exists iset', intsetRemove (fun _ => 0) ex_set (-5) =
      Some (iset', bool_decide (-5 ∈ ex_S)) /\
    denotes iset' (ex_S ∖ {[-5]}).
Proof.
  apply (intsetRemove_refines (fun _ => 0) ex_set ex_S (-5));
    [apply ex_set_denotes|done|apply ex_fits; vm_compute; lia].
Defined.

Lemma intsetFind_refines_witness :
  intsetFind ex_set 5 = Some (bool_decide (5 ∈ ex_S)).
Proof.
  apply (intsetFind_refines ex_set ex_S 5);
    [apply ex_set_denotes|done|apply ex_fits; vm_compute; lia].
Defined.

Definition ex_blob : mem := [2; 0; 0; 0; 2; 0; 0; 0; 251; 255; 5; 0].

Lemma intsetValidateIntegrity_sound_witness :
  exists ok, intsetValidateIntegrity ex_blob (msize ex_blob) true = Some ok /\
    (ok = true <-> exists iset vs, intset_of_blob ex_blob = Some iset /\ repr iset vs /\ vs <> []).
Proof.
  apply (intsetValidateIntegrity_sound ex_blob); [|done].
  repeat constructor; done.
Defined.

Example ex_blob_ok : intsetValidateIntegrity ex_blob (msize ex_blob) true = Some true.
Proof. vm_compute. reflexivity. Qed.

Example ex_upgrade :
  intsetAdd (fun _ => 170) ex_set 70000 =
    Some (mk_intset 4 3 [251; 255; 255; 255; 5; 0; 0; 0; 112; 17; 1; 0], true).
Proof. vm_compute. reflexivity. Qed.

End Intset.
