(* ===== verification/Fwtree.v ===== *)
(** Fenwick trees ([src/fwtree.c]): cumulative key counts over the
    dictionaries of a keyspace, in [2^sizeBits] slots. *)
From stdpp Require Import base numbers list.
From stdpp Require Import options.
From S2P Require Import Prelude.

Module Fwtree.

(** ** Data and operations *)

(** [struct _fenwickTree]; an access outside [tree] is [None]. *)
Record fenwickTree := mk_fenwickTree {
  ft_tree : list Z;      (* unsigned long long *tree *)
  ft_size_bits : Z;      (* int size_bits *)
  ft_size : Z;           (* int size *)
  ft_total : Z           (* uint64_t total *)
}.

Definition tree_get (t : list Z) (i : Z) : option Z :=
  if i <? 0 then None else t !! Z.to_nat i.

Definition tree_set (t : list Z) (i x : Z) : list Z := <[Z.to_nat i := x]> t.

Definition fwTreeCreate (sizeBits : Z) : fenwickTree :=
  let size := i32 (Z.shiftl 1 sizeBits) in
  mk_fenwickTree (replicate (Z.to_nat (size + 1)) 0) sizeBits size 0.

(** [idx & -idx] *)
Definition lowbit (idx : Z) : Z := Z.land idx (- idx).

(** [while (idx > 0)]; [idx] decreases at every iteration. *)
Fixpoint fwTreePrefixSum_loop (fuel : nat) (t : list Z) (idx sum : Z) : option Z :=
  match fuel with
  | O => None
  | S fuel =>
    if idx >? 0 then
      x ← tree_get t idx;
      fwTreePrefixSum_loop fuel t (i32 (idx - lowbit idx)) (u64 (sum + x))
    else Some sum
  end.

Definition fwTreePrefixSum (ft : fenwickTree) (idx : Z) : option Z :=
  if idx <? 0 then Some 0
  else
    let idx := if idx >=? ft_size ft then ft_size ft - 1 else idx in
    let idx := i32 (idx + 1) in
    fwTreePrefixSum_loop (S (Z.to_nat idx)) (ft_tree ft) idx 0.

(** [while (idx <= ft->size)]; a failed [assert] is [None]. *)
Fixpoint fwTreeUpdate_loop (fuel : nat) (t : list Z) (size idx delta : Z)
    : option (list Z) :=
  match fuel with
  | O => None
  | S fuel =>
    if idx <=? size then
      x ← tree_get t idx;
      if (delta <? 0) && negb (x >=? u64 (- delta)) then None
      else fwTreeUpdate_loop fuel (tree_set t idx (u64 (x + delta))) size
             (i32 (idx + lowbit idx)) delta
    else Some t
  end.

Definition fwTreeUpdate (ft : fenwickTree) (idx delta : Z) : option fenwickTree :=
  if (idx <? 0) || (idx >=? ft_size ft) then Some ft
  else
    let idx := i32 (idx + 1) in
    t ← fwTreeUpdate_loop (S (Z.to_nat (ft_size ft))) (ft_tree ft) (ft_size ft) idx delta;
    Some (mk_fenwickTree t (ft_size_bits ft) (ft_size ft) (u64 (ft_total ft + delta))).

(** [for (int i = bit_mask; i != 0; i >>= 1)] *)
Fixpoint fwTreeFindIndex_loop (fuel : nat) (t : list Z) (i target result : Z)
    : option Z :=
  match fuel with
  | O => None
  | S fuel =>
    if i =? 0 then Some result
    else
      let current := i32 (result + i) in
      x ← tree_get t current;
      if target >? x
      then fwTreeFindIndex_loop fuel t (Z.shiftr i 1) (u64 (target - x)) current
      else fwTreeFindIndex_loop fuel t (Z.shiftr i 1) target result
  end.

Definition fwTreeFindIndex (ft : fenwickTree) (target : Z) : option Z :=
  if target <=? 0 then Some 0
  else
    let bit_mask := i32 (Z.shiftl 1 (ft_size_bits ft)) in
    fwTreeFindIndex_loop (Z.to_nat (ft_size_bits ft) + 2) (ft_tree ft) bit_mask target 0.

Definition fwTreeFindFirstNonEmpty (ft : fenwickTree) : option Z := fwTreeFindIndex ft 1.

Definition fwTreeFindNextNonEmpty (ft : fenwickTree) (idx : Z) : option Z :=
  if (idx <? 0) || (idx >=? ft_size ft) then Some (-1)
  else
    s ← fwTreePrefixSum ft idx;
    let next_sum := u64 (s + 1) in
    if next_sum <=? ft_total ft then fwTreeFindIndex ft next_sum else Some (-1).

Definition fwTreeClear (ft : fenwickTree) : fenwickTree :=
  mk_fenwickTree (replicate (Z.to_nat (ft_size ft + 1)) 0) (ft_size_bits ft) (ft_size ft) 0.

(** ** The lowest set bit *)

Lemma lowbit_double z : lowbit (2 * z) = 2 * lowbit z.
Proof.
  unfold lowbit. replace (- (2 * z)) with (2 * - z) by lia.
  rewrite !(Z.mul_comm 2), <- !(Z.shiftl_mul_pow2 _ 1) by lia. by rewrite Z.shiftl_land.
Qed.

Lemma lowbit_odd z : lowbit (2 * z + 1) = 1.
Proof.
  unfold lowbit. replace (- (2 * z + 1)) with (2 * Z.lnot z + 1) by (unfold Z.lnot; lia).
  apply Z.bits_inj'. intros n Hn. rewrite Z.land_spec.
  destruct (decide (n = 0)) as [->|].
  - by rewrite !Z.testbit_odd_0.
  - replace n with (Z.succ (n - 1)) by lia. rewrite !Z.testbit_odd_succ by lia.
    rewrite Z.lnot_spec, andb_negb_r by lia.
    symmetry. apply Z.bits_above_log2; cbn; lia.
Qed.

(** Every positive index is an odd multiple of its lowest bit. *)
Lemma lowbit_spec i :
  0 < i -> exists k q, 0 <= k /\ 0 <= q /\ i = 2 ^ k * (2 * q + 1) /\ lowbit i = 2 ^ k.
Proof.
  destruct i as [|p|]; try lia. intros _. induction p as [p _|p IH|].
  - exists 0, (Z.pos p). rewrite Pos2Z.inj_xI, lowbit_odd. lia.
  - destruct IH as (k & q & Hk & Hq & E & L). exists (k + 1), q.
    rewrite Pos2Z.inj_xO, lowbit_double, L, Z.pow_add_r, E by lia. lia.
  - by exists 0, 0.
Qed.

Lemma lowbit_unique k q : 0 <= k -> 0 <= q -> lowbit (2 ^ k * (2 * q + 1)) = 2 ^ k.
Proof.
  intros Hk Hq. pattern k. apply natlike_ind; [by rewrite Z.mul_1_l, lowbit_odd| |done].
  intros x Hx IH. rewrite Z.pow_succ_r by done. rewrite <- Z.mul_assoc, lowbit_double. lia.
Qed.

Lemma Zpow_split m k : 0 <= m <= k -> 2 ^ k = 2 ^ m * 2 ^ (k - m).
Proof. intros. rewrite <- Z.pow_add_r by lia. f_equal. lia. Qed.

Lemma lowbit_range i : 0 < i -> 0 < lowbit i <= i.
Proof. intros (k & q & Hk & Hq & E & ->)%lowbit_spec. nia. Qed.

(** [j]'s node counts element [i] (1-based). *)
Definition covers (j i : Z) : Prop := j - lowbit j < i <= j.

(** The nodes above [i] that count [i] are those that count the next node of
    the update chain: the reason [idx += idx & -idx] visits exactly them. *)
Lemma covers_next i j : 0 < i -> i < j -> covers j i <-> covers j (i + lowbit i).
Proof.
  intros Hi Hij. unfold covers.
  destruct (lowbit_spec i Hi) as (k & q & Hk & Hq & Ei & ->).
  destruct (lowbit_spec j) as (m & r & Hm & Hr & Ej & ->); [lia|].
  assert (0 < 2 ^ k) by (apply Z.pow_pos_nonneg; lia).
  assert (0 < 2 ^ m) by (apply Z.pow_pos_nonneg; lia).
  destruct (Z.lt_trichotomy k m) as [Hkm|[->|Hkm]].
  - replace m with (k + 1 + (m - k - 1)) in * by lia.
    rewrite !Z.pow_add_r, Z.pow_1_r in * by lia. set (u := 2 ^ (m - k - 1)) in *.
    assert (0 < u) by (apply Z.pow_pos_nonneg; lia). set (w := 2 ^ k) in *. subst i j.
    set (c := u * (2 * r + 1)). set (d := u * (2 * r)).
    assert (w * 2 * u * (2 * r + 1) = w * (2 * c)) as -> by (subst c; ring).
    assert (w * (2 * c) - w * 2 * u = w * (2 * d)) as -> by (subst c d; ring).
    replace (w * (2 * q + 1) + w) with (w * (2 * q + 2)) by ring.
    rewrite <- !Z.mul_lt_mono_pos_l, <- !Z.mul_le_mono_pos_l by done. lia.
  - subst i j. set (w := 2 ^ m) in *.
    replace (w * (2 * q + 1) + w) with (w * (2 * q + 2)) by ring.
    replace (w * (2 * r + 1) - w) with (w * (2 * r)) by ring.
    rewrite <- Z.mul_lt_mono_pos_l in Hij by done.
    rewrite <- !Z.mul_lt_mono_pos_l, <- !Z.mul_le_mono_pos_l by done. lia.
  - replace k with (m + 1 + (k - m - 1)) in * by lia.
    rewrite !Z.pow_add_r, Z.pow_1_r in * by lia. set (u := 2 ^ (k - m - 1)) in *.
    assert (0 < u) by (apply Z.pow_pos_nonneg; lia). set (w := 2 ^ m) in *. subst i j.
    set (c := u * (2 * q + 1)). set (d := u * (2 * q + 2)).
    assert (w * 2 * u * (2 * q + 1) = w * (2 * c)) as -> by (subst c; ring).
    assert (w * (2 * c) + w * 2 * u = w * (2 * d)) as -> by (subst c d; ring).
    assert (w * 2 * u * (2 * q + 1) = w * (2 * c)) as Ec by (subst c; ring).
    rewrite Ec in Hij. assert (c < d) by (subst c d; nia).
    replace (w * (2 * r + 1) - w) with (w * (2 * r)) by ring.
    rewrite <- Z.mul_lt_mono_pos_l in Hij by done.
    rewrite <- !Z.mul_lt_mono_pos_l, <- !Z.mul_le_mono_pos_l by done. lia.
Qed.

(** ** Prefix sums of the counted array *)

Definition zsum (l : list Z) : Z := foldr Z.add 0 l.
Definition psum (a : list Z) (i : Z) : Z := zsum (take (Z.to_nat i) a).

Lemma zsum_app a b : zsum (a ++ b) = zsum a + zsum b.
Proof. induction a; cbn in *; [done|]. unfold zsum in *. lia. Qed.

Lemma zsum_nonneg a : Forall (Z.le 0) a -> 0 <= zsum a.
Proof. induction 1; cbn in *; [done|]. unfold zsum in *. lia. Qed.

Lemma psum_0 a : psum a 0 = 0.
Proof. done. Qed.

Lemma psum_all a i : Z.of_nat (length a) <= i -> psum a i = zsum a.
Proof. intros. unfold psum. by rewrite take_ge by lia. Qed.

Lemma psum_mono a i j : Forall (Z.le 0) a -> i <= j -> psum a i <= psum a j.
Proof.
  intros Ha Hij. unfold psum.
  rewrite <- (take_drop (Z.to_nat i) (take (Z.to_nat j) a)), take_take, Nat.min_l, zsum_app by lia.
  pose proof (zsum_nonneg (drop (Z.to_nat i) (take (Z.to_nat j) a))).
  enough (0 <= zsum (drop (Z.to_nat i) (take (Z.to_nat j) a))) by lia.
  apply zsum_nonneg, Forall_drop, Forall_take, Ha.
Qed.

Lemma psum_bounds a i : Forall (Z.le 0) a -> 0 <= psum a i <= zsum a.
Proof.
  intros Ha. split; [by apply zsum_nonneg, Forall_take|].
  rewrite <- (psum_all a (Z.max i (Z.of_nat (length a)))) by lia. apply psum_mono; [done|lia].
Qed.

Lemma psum_succ a i x : 0 <= i -> a !! Z.to_nat i = Some x -> psum a (i + 1) = psum a i + x.
Proof.
  intros Hi Hx. unfold psum. replace (Z.to_nat (i + 1)) with (S (Z.to_nat i)) by lia.
  rewrite (take_S_r _ _ _ Hx), zsum_app. cbn. lia.
Qed.

Lemma zsum_insert a i x y : a !! i = Some x -> zsum (<[i := y]> a) = zsum a + (y - x).
Proof.
  revert i. induction a as [|b a IH]; intros [|i] Hi; simplify_eq/=; unfold zsum in *; cbn; [lia|].
  rewrite (IH _ Hi). lia.
Qed.

Lemma psum_insert a i x y j :
  a !! i = Some x ->
  psum (<[i := y]> a) j = psum a j + if Z.of_nat i <? j then y - x else 0.
Proof.
  intros Hx. unfold psum. destruct (Z.ltb_spec (Z.of_nat i) j).
  - rewrite take_insert_lt by lia. apply zsum_insert. by rewrite lookup_take_lt by lia.
  - rewrite take_insert_ge by lia. lia.
Qed.

(** ** The representation invariant *)

(** [ft] counts the array [a] of element counts. Up to 2^29 elements, so that
    [idx += idx & -idx] stays within an [int]. *)
Record repr (ft : fenwickTree) (a : list Z) : Prop := mk_repr {
  repr_bits : 0 <= ft_size_bits ft <= 29;
  repr_size : ft_size ft = 2 ^ ft_size_bits ft;
  repr_len : Z.of_nat (length a) = ft_size ft;
  repr_tree_len : Z.of_nat (length (ft_tree ft)) = ft_size ft + 1;
  repr_nonneg : Forall (Z.le 0) a;
  repr_total : ft_total ft = zsum a;
  repr_fits : zsum a <= UINT64_MAX;
  repr_node : forall j, 0 < j <= ft_size ft ->
    tree_get (ft_tree ft) j = Some (psum a j - psum a (j - lowbit j))
}.

Lemma repr_size_bound ft a : repr ft a -> 1 <= ft_size ft <= 2 ^ 29.
Proof.
  intros [Hb -> _ _ _ _ _ _].
  pose proof (Z.pow_le_mono_r 2 (ft_size_bits ft) 29).
  pose proof (Z.pow_pos_nonneg 2 (ft_size_bits ft)). lia.
Qed.

Lemma u64_small z : 0 <= z <= UINT64_MAX -> u64 z = z.
Proof. intros. apply wrapu_small. unfold in_u, UINT64_MAX in *. lia. Qed.

Lemma i32_small z : - 2 ^ 31 <= z < 2 ^ 31 -> i32 z = z.
Proof. intros. apply wraps_small; [done|]. done. Qed.

Lemma tree_get_set t i j x :
  0 <= i < Z.of_nat (length t) -> 0 <= j ->
  tree_get (tree_set t i x) j = if j =? i then Some x else tree_get t j.
Proof.
  intros Hi Hj. unfold tree_get, tree_set.
  rewrite (proj2 (Z.ltb_ge j 0)) by done. destruct (Z.eqb_spec j i) as [->|].
  - apply list_lookup_insert_eq. lia.
  - apply list_lookup_insert_ne. lia.
Qed.

(** ** Prefix sums *)

Lemma prefixSum_loop_spec ft a fuel idx sum :
  repr ft a -> 0 <= idx <= ft_size ft -> (Z.to_nat idx < fuel)%nat ->
  sum + psum a idx <= UINT64_MAX -> 0 <= sum ->
  fwTreePrefixSum_loop fuel (ft_tree ft) idx sum = Some (sum + psum a idx).
Proof.
  intros Hr. pose proof (repr_size_bound _ _ Hr). revert idx sum.
  induction fuel as [|fuel IH]; intros idx sum Hi Hf Hs H0; [lia|].
  cbn [fwTreePrefixSum_loop]. rewrite Z.gtb_ltb.
  destruct (Z.ltb_spec 0 idx) as [Hpos|].
  2: { replace idx with 0 by lia. rewrite psum_0. f_equal. lia. }
  pose proof (lowbit_range idx Hpos).
  rewrite (repr_node _ _ Hr) by lia. mred. rewrite i32_small by lia.
  pose proof (psum_bounds a (idx - lowbit idx) (repr_nonneg _ _ Hr)).
  pose proof (psum_mono a (idx - lowbit idx) idx (repr_nonneg _ _ Hr)).
  rewrite u64_small by lia. rewrite IH by lia. f_equal. lia.
Qed.

Lemma prefixSum_spec ft a idx :
  repr ft a -> 0 <= idx < ft_size ft -> fwTreePrefixSum ft idx = Some (psum a (idx + 1)).
Proof.
  intros Hr Hi. unfold fwTreePrefixSum. pose proof (repr_size_bound _ _ Hr).
  rewrite (proj2 (Z.ltb_ge idx 0)), Z.geb_leb, (proj2 (Z.leb_gt _ _)) by lia.
  rewrite i32_small by lia.
  pose proof (psum_bounds a (idx + 1) (repr_nonneg _ _ Hr)). pose proof (repr_fits _ _ Hr).
  rewrite (prefixSum_loop_spec _ a) by (done || lia). done.
Qed.

(** ** Update *)

(** The loop adds [delta] to exactly the nodes that count element [i]. *)
Lemma update_loop_spec size i delta old fuel idx t :
  size <= 2 ^ 29 -> 0 < i <= idx -> idx <= 2 * size ->
  (Z.to_nat (size + 1 - idx) < fuel)%nat ->
  Z.of_nat (length t) = size + 1 -> covers idx i ->
  (forall j, idx <= j -> covers j i <-> covers j idx) ->
  (forall j, 0 < j <= size -> covers j i ->
     0 <= old j + delta <= UINT64_MAX /\ 0 <= old j <= UINT64_MAX) ->
  - 2 ^ 63 < delta < 2 ^ 63 ->
  (forall j, 0 < j <= size -> tree_get t j =
     Some (old j + if decide (covers j i /\ j < idx) then delta else 0)) ->
  exists t', fwTreeUpdate_loop fuel t size idx delta = Some t' /\
    Z.of_nat (length t') = size + 1 /\
    forall j, 0 < j <= size -> tree_get t' j =
      Some (old j + if decide (covers j i) then delta else 0).
Proof.
  intros Hsz. revert idx t. induction fuel as [|fuel IH];
    intros idx t Hi Hidx Hf Hlen Hci Hnext Hold Hd Ht; [lia|].
  cbn [fwTreeUpdate_loop]. destruct (Z.leb_spec idx size) as [Hle|Hgt].
  2: { exists t. do 2 (split; [done|]). intros j Hj. rewrite Ht by done.
       do 2 f_equal. apply decide_ext. split; [by intros []|split; [done|lia]]. }
  rewrite Ht by lia. rewrite decide_False by lia. mred. rewrite Z.add_0_r.
  destruct (Hold idx) as [Hb Hb']; [lia|done|].
  assert ((delta <? 0) && negb (old idx >=? u64 (- delta)) = false) as ->.
  { destruct (Z.ltb_spec delta 0); [|done]. cbn.
    rewrite u64_small by (unfold UINT64_MAX; lia). rewrite Z.geb_leb.
    by rewrite (proj2 (Z.leb_le _ _)) by lia. }
  pose proof (lowbit_range idx).
  rewrite u64_small, i32_small by lia.
  apply IH; try assumption; try lia.
  - unfold tree_set. rewrite length_insert. lia.
  - unfold covers. pose proof (lowbit_spec idx) as (k & q & Hk & Hq & E & L); [lia|].
    assert (covers (idx + lowbit idx) idx -> covers (idx + lowbit idx) i) as Hc
      by (intros; apply Hnext; [lia|done]). apply Hc.
    unfold covers. split; [|lia].
    rewrite L in *. assert (idx + 2 ^ k = 2 * 2 ^ k * (q + 1)) as E' by nia.
    pose proof (lowbit_spec (idx + 2 ^ k)) as (k' & q' & Hk' & Hq' & E'' & L'); [lia|].
    rewrite L'. enough (2 ^ k < 2 ^ k') by lia.
    assert (0 < 2 ^ k) by (apply Z.pow_pos_nonneg; lia). apply Z.pow_lt_mono_r; try lia.
    destruct (Z.lt_ge_cases k k') as [|Hge]; [done|exfalso].
    rewrite E'', (Zpow_split k' k) in E' by lia.
    assert (0 < 2 ^ k') by (apply Z.pow_pos_nonneg; lia).
    assert (2 ^ k' * (2 * q' + 1) = 2 ^ k' * (2 * (2 ^ (k - k') * (q + 1)))) as E3
      by (rewrite E'; ring).
    apply Z.mul_cancel_l in E3; lia.
  - intros j Hj. rewrite Hnext by lia. apply covers_next; lia.
  - intros j Hj. rewrite tree_get_set by lia. destruct (Z.eqb_spec j idx) as [->|Hne].
    + rewrite decide_True by (split; [done|lia]). done.
    + rewrite Ht by done. do 2 f_equal. apply decide_ext. split; [intros []; split; [done|lia]|].
      intros [Hc Hlt]. split; [done|]. destruct (Z.lt_ge_cases j idx); [done|exfalso].
      rewrite Hnext in Hc by lia. apply covers_next in Hc; [|lia..]. unfold covers in Hc. lia.
Qed.

Lemma covers_self i : 0 < i -> covers i i.
Proof. intros. pose proof (lowbit_range i). unfold covers. lia. Qed.

(** A node's value is the sum of a range, so it is at least each of its
    elements and at most the total. *)
Lemma node_insert a i x y j :
  Forall (Z.le 0) a -> a !! i = Some x -> 0 < j ->
  psum (<[i := y]> a) j - psum (<[i := y]> a) (j - lowbit j) =
  psum a j - psum a (j - lowbit j) +
    if decide (covers j (Z.of_nat i + 1)) then y - x else 0.
Proof.
  intros Ha Hx Hj. pose proof (lowbit_range j Hj). rewrite !(psum_insert _ _ _ _ _ Hx).
  unfold covers. destruct (decide _);
    destruct (Z.ltb_spec (Z.of_nat i) j), (Z.ltb_spec (Z.of_nat i) (j - lowbit j)); lia.
Qed.

Lemma node_bounds a i x j :
  Forall (Z.le 0) a -> a !! i = Some x -> 0 < j -> covers j (Z.of_nat i + 1) ->
  x <= psum a j - psum a (j - lowbit j) <= zsum a.
Proof.
  intros Ha Hx Hj Hc. unfold covers in Hc.
  pose proof (psum_mono a (Z.of_nat i + 1) j Ha).
  pose proof (psum_mono a (j - lowbit j) (Z.of_nat i) Ha).
  pose proof (psum_succ a (Z.of_nat i) x). rewrite Nat2Z.id in *.
  pose proof (psum_bounds a j Ha). pose proof (psum_bounds a (j - lowbit j) Ha).
  specialize (H1 ltac:(lia) Hx). lia.
Qed.

Lemma fwTreeUpdate_spec ft a idx delta x :
  repr ft a -> a !! Z.to_nat idx = Some x -> 0 <= idx ->
  0 <= x + delta -> zsum a + delta <= UINT64_MAX -> - 2 ^ 63 < delta < 2 ^ 63 ->
  exists ft', fwTreeUpdate ft idx delta = Some ft' /\
    repr ft' (<[Z.to_nat idx := x + delta]> a) /\ ft_size_bits ft' = ft_size_bits ft.
Proof.
  intros Hr Hx Hi Hxd Hsum Hd. pose proof (repr_size_bound _ _ Hr) as Hsz.
  pose proof Hr as [Hbits Hsize Hlen Htlen Hnn Htot Hfits Hnode].
  pose proof (lookup_lt_Some _ _ _ Hx). unfold fwTreeUpdate. rewrite Z.geb_leb.
  rewrite (proj2 (Z.ltb_ge idx 0)), (proj2 (Z.leb_gt _ _)) by lia. cbn [orb].
  rewrite i32_small by lia.
  assert (0 <= x) by (apply (Forall_lookup_1 _ _ _ _ Hnn Hx)).
  pose proof (psum_bounds a (idx + 1) Hnn).
  pose proof (psum_succ a idx x Hi Hx). pose proof (psum_bounds a idx Hnn).
  destruct (update_loop_spec (ft_size ft) (idx + 1) delta
    (fun j => psum a j - psum a (j - lowbit j)) (S (Z.to_nat (ft_size ft))) (idx + 1) (ft_tree ft))
    as (t' & -> & Htlen' & Hnode'); try assumption; try lia.
  - apply covers_self. lia.
  - done.
  - intros j Hj Hc. destruct (node_bounds a (Z.to_nat idx) x j) as [??]; [done|done|lia|by rewrite Z2Nat.id|lia].
  - intros j Hj. rewrite Hnode by done. rewrite decide_False; [by rewrite Z.add_0_r|].
    unfold covers. lia.
  - eexists. split; [done|]. split; [|done]. rewrite (u64_small (_ + delta)) by lia.
    assert (zsum (<[Z.to_nat idx := x + delta]> a) = zsum a + delta) as Hz
      by (rewrite (zsum_insert _ _ _ _ Hx); lia).
    split; cbn; rewrite ?length_insert, ?Hz; try done; try lia.
    + by apply Forall_insert.
    + intros j Hj. rewrite Hnode' by done. rewrite (node_insert _ _ _ _ _ Hnn Hx) by lia.
      rewrite Z2Nat.id by done. do 2 f_equal. case_decide; lia.
Qed.

(** C38: Updating slot [idx] by [delta] keeps the tree a correct index of the
    array with that slot changed: no node outside the array is touched, no
    assertion fails and no counter wraps, as long as the slot does not become
    negative and the total fits 64 bits. *)
Theorem fwTreeUpdate_correct ft a idx delta x :
  repr ft a -> a !! Z.to_nat idx = Some x -> 0 <= idx ->
  0 <= x + delta -> zsum a + delta <= UINT64_MAX -> - 2 ^ 63 < delta < 2 ^ 63 ->
  exists ft', fwTreeUpdate ft idx delta = Some ft' /\
    repr ft' (<[Z.to_nat idx := x + delta]> a).
Proof.
  intros Hr Hx Hi Hxd Hs Hd. destruct (fwTreeUpdate_spec ft a idx delta x) as (ft' & E & R & _); try done.
  by exists ft'.
Qed.

(** The prefix query returns the sum of the slots up to and including
    [idx], an index past the end being clamped to the last slot. *)
Theorem fwTreePrefixSum_correct ft a idx :
  repr ft a -> 0 <= idx < 2 ^ 31 - 1 ->
  fwTreePrefixSum ft idx = Some (zsum (take (Z.to_nat (idx + 1)) a)).
Proof.
  intros Hr Hi. pose proof (repr_size_bound _ _ Hr). pose proof (repr_len _ _ Hr).
  destruct (Z.lt_ge_cases idx (ft_size ft)).
  - apply prefixSum_spec; [done|lia].
  - unfold fwTreePrefixSum. rewrite Z.geb_leb.
    rewrite (proj2 (Z.ltb_ge idx 0)), (proj2 (Z.leb_le (ft_size ft) idx)) by lia.
    pose proof (psum_bounds a (ft_size ft) (repr_nonneg _ _ Hr)). pose proof (repr_fits _ _ Hr).
    rewrite Z.sub_add, i32_small, (prefixSum_loop_spec _ a) by (done || lia).
    unfold psum. by rewrite !take_ge by lia.
Qed.

(** ** Search *)

Lemma findIndex_step ft a n i target result :
  repr ft a -> 0 < i -> 0 <= result -> result + i <= ft_size ft ->
  lowbit (result + i) = i -> psum a result < target <= UINT64_MAX ->
  fwTreeFindIndex_loop (S n) (ft_tree ft) i (target - psum a result) result =
    let result' := if decide (psum a (result + i) < target) then result + i else result in
    fwTreeFindIndex_loop n (ft_tree ft) (Z.shiftr i 1) (target - psum a result') result'.
Proof.
  intros Hr Hi H0 Hle Hlow Ht. pose proof (repr_size_bound _ _ Hr).
  pose proof (repr_nonneg _ _ Hr) as Hnn. cbn [fwTreeFindIndex_loop].
  rewrite (proj2 (Z.eqb_neq i 0)), i32_small by lia.
  rewrite (repr_node _ _ Hr), Hlow by lia. mred.
  replace (result + i - i) with result by lia. rewrite Z.gtb_ltb.
  pose proof (psum_bounds a result Hnn). pose proof (psum_bounds a (result + i) Hnn).
  destruct (Z.ltb_spec (psum a (result + i) - psum a result) (target - psum a result));
    case_decide; try lia; [|done].
  pose proof (psum_mono a result (result + i) Hnn).
  rewrite u64_small by lia. f_equal. lia.
Qed.

Lemma pow2_half b : Z.shiftr (2 ^ Z.of_nat (S b)) 1 = 2 ^ Z.of_nat b.
Proof.
  rewrite Z.shiftr_div_pow2, Nat2Z.inj_succ, Z.pow_succ_r, Z.mul_comm by lia.
  apply Z.div_mul. lia.
Qed.

(** The tree size is a multiple of every smaller power of two. *)
Lemma multiple_step ft a b q :
  repr ft a -> 0 <= b -> 0 <= q -> 2 ^ b <= ft_size ft -> 2 ^ b * q < ft_size ft -> 2 ^ b * q + 2 ^ b <= ft_size ft.
Proof.
  intros Hr Hb Hq. rewrite (repr_size _ _ Hr). pose proof (repr_bits _ _ Hr).
  destruct (Z.le_gt_cases b (ft_size_bits ft)) as [Hle|Hgt].
  - rewrite (Zpow_split b (ft_size_bits ft)) by lia. intros _ Hlt.
    assert (0 < 2 ^ b) by (apply Z.pow_pos_nonneg; lia).
    apply Z.mul_lt_mono_pos_l in Hlt; [|done].
    rewrite <- (Z.mul_1_r (2 ^ b)) at 2. rewrite <- Z.mul_add_distr_l.
    apply Z.mul_le_mono_nonneg_l; lia.
  - pose proof (Z.pow_lt_mono_r 2 (ft_size_bits ft) b). lia.
Qed.

(** Before the iteration for bit [b] the answer lies in
    [result, result + 2^(b+1)). *)
Lemma findIndex_loop_spec ft a b q target :
  repr ft a -> 0 <= q ->
  let result := 2 ^ Z.of_nat b * (2 * q) in
  result + 2 ^ Z.of_nat b <= ft_size ft ->
  psum a result < target <= zsum a -> target <= psum a (result + 2 * 2 ^ Z.of_nat b) ->
  exists r, fwTreeFindIndex_loop (S (S b)) (ft_tree ft) (2 ^ Z.of_nat b)
      (target - psum a result) result = Some r /\
    0 <= r < ft_size ft /\ psum a r < target <= psum a (r + 1).
Proof.
  intros Hr. pose proof (repr_size_bound _ _ Hr) as Hsz. pose proof (repr_nonneg _ _ Hr) as Hnn.
  pose proof (repr_fits _ _ Hr) as Hfit. pose proof (repr_len _ _ Hr) as Hlen. revert q target.
  induction b as [|b IH]; intros q target Hq result Hle Ht Ht2.
  - cbn in Hle, Ht2. change (2 ^ Z.of_nat 0) with 1.
    assert (lowbit (result + 1) = 1) as Hlow.
    { subst result. cbn [Z.of_nat]. rewrite Z.pow_0_r, Z.mul_1_l. apply lowbit_odd. }
    rewrite (findIndex_step ft a) by (done || lia). cbn zeta.
    change (Z.shiftr 1 1) with 0. cbn [fwTreeFindIndex_loop Z.eqb].
    eexists. split; [done|]. destruct (Z.lt_ge_cases (psum a (result + 1)) target).
    + rewrite decide_True by done.
      assert (result + 1 < ft_size ft).
      { destruct (Z.lt_ge_cases (result + 1) (ft_size ft)); [done|].
        rewrite psum_all in * by lia. lia. }
      split; [lia|]. split; [done|]. by replace (result + 1 + 1) with (result + 2) by lia.
    + rewrite decide_False by lia. lia.
  - set (w := 2 ^ Z.of_nat (S b)) in *.
    assert (0 < 2 ^ Z.of_nat b) by (apply Z.pow_pos_nonneg; lia).
    assert (w = 2 * 2 ^ Z.of_nat b) as Hw
      by (subst w; rewrite Nat2Z.inj_succ, Z.pow_succ_r by lia; done).
    assert (lowbit (result + w) = w) as Hlow.
    { subst result w. replace (_ + _) with (2 ^ Z.of_nat (S b) * (2 * q + 1)) by ring.
      apply lowbit_unique; lia. }
    rewrite (findIndex_step ft a) by (done || lia). cbn zeta.
    replace (Z.shiftr w 1) with (2 ^ Z.of_nat b) by (symmetry; apply pow2_half).
    destruct (decide (psum a (result + w) < target)) as [Hlt|Hge].
    + assert (Hres : result + w = 2 ^ Z.of_nat b * (2 * (2 * q + 1))) by (subst result; lia).
      assert (result + w < ft_size ft) as Hin.
      { destruct (Z.lt_ge_cases (result + w) (ft_size ft)); [done|].
        rewrite psum_all in * by lia. lia. }
      rewrite Hres in *. apply IH; [lia| |lia|].
      * apply (multiple_step ft a); [done|lia|lia| |]; rewrite <- ?Hres; lia.
      * rewrite <- Hres, <- Hw. eapply Z.le_trans; [done|]. apply psum_mono; [done|lia].
    + assert (Hres : result = 2 ^ Z.of_nat b * (2 * (2 * q))) by (subst result; lia).
      specialize (IH (2 * q) target). cbn zeta in IH. rewrite <- Hres, <- Hw in IH.
      apply IH; lia.
Qed.

Lemma findIndex_spec ft a target :
  repr ft a -> 1 <= target <= zsum a ->
  exists r, fwTreeFindIndex ft target = Some r /\ 0 <= r < ft_size ft /\
    psum a r < target <= psum a (r + 1).
Proof.
  intros Hr Ht. pose proof (repr_size_bound _ _ Hr) as Hsz. pose proof (repr_bits _ _ Hr).
  pose proof (repr_size _ _ Hr) as Hs. pose proof (repr_len _ _ Hr).
  unfold fwTreeFindIndex. rewrite (proj2 (Z.leb_gt target 0)) by lia.
  rewrite Z.shiftl_mul_pow2, Z.mul_1_l, <- Hs, i32_small by lia.
  pose proof (findIndex_loop_spec ft a (Z.to_nat (ft_size_bits ft)) 0 target Hr) as Hf.
  cbn zeta in Hf. rewrite Z2Nat.id, <- Hs, Z.mul_0_r, Z.add_0_l, psum_0, Z.sub_0_r in Hf by lia.
  rewrite Nat.add_comm. apply Hf; rewrite ?psum_0; try lia. rewrite psum_all; lia.
Qed.

(** For a target between 1 and the total, the bitwise descent returns the
    slot at which the running count first reaches the target. *)
Lemma fwTreeFindIndex_correct ft a target :
  repr ft a -> 1 <= target <= zsum a ->
  exists r, fwTreeFindIndex ft target = Some r /\ 0 <= r < ft_size ft /\
    zsum (take (Z.to_nat r) a) < target <= zsum (take (Z.to_nat (r + 1)) a).
Proof. apply findIndex_spec. Qed.

Lemma psum_flat a i k j x :
  Forall (Z.le 0) a -> psum a k <= psum a i -> a !! j = Some x ->
  i <= Z.of_nat j < k -> x = 0.
Proof.
  intros Hnn Hk Hx Hj. pose proof (Forall_lookup_1 _ _ _ _ Hnn Hx).
  pose proof (psum_succ a (Z.of_nat j) x) as Hs. rewrite Nat2Z.id in Hs.
  specialize (Hs ltac:(lia) Hx).
  pose proof (psum_mono a (Z.of_nat j + 1) k Hnn). pose proof (psum_mono a i (Z.of_nat j) Hnn).
  lia.
Qed.

(** The next-non-empty query returns the first slot after [idx] whose count
    is positive, and -1 when every later slot is empty. *)
Lemma fwTreeFindNextNonEmpty_correct ft a idx :
  repr ft a -> 0 <= idx < ft_size ft -> zsum a < UINT64_MAX ->
  exists r, fwTreeFindNextNonEmpty ft idx = Some r /\
    ((r = -1 /\ forall j x, idx < Z.of_nat j -> a !! j = Some x -> x = 0) \/
     (idx < r /\ (exists x, a !! Z.to_nat r = Some x /\ 0 < x) /\
      forall j x, idx < Z.of_nat j < r -> a !! j = Some x -> x = 0)).
Proof.
  intros Hr Hi Hlt. pose proof (repr_nonneg _ _ Hr) as Hnn. pose proof (repr_len _ _ Hr) as Hlen.
  unfold fwTreeFindNextNonEmpty. rewrite Z.geb_leb.
  rewrite (proj2 (Z.ltb_ge idx 0)), (proj2 (Z.leb_gt _ _)) by lia. cbn [orb].
  rewrite (prefixSum_spec _ _ _ Hr) by lia. mred.
  pose proof (psum_bounds a (idx + 1) Hnn). rewrite (repr_total _ _ Hr), u64_small by lia.
  destruct (Z.leb_spec (psum a (idx + 1) + 1) (zsum a)).
  - destruct (findIndex_spec ft a (psum a (idx + 1) + 1) Hr) as (r & -> & Hrb & Hr1 & Hr2); [lia|].
    exists r. split; [done|]. right.
    assert (idx < r) by (destruct (Z.lt_ge_cases idx r); [done|];
      pose proof (psum_mono a (r + 1) (idx + 1) Hnn); lia).
    split; [done|]. split.
    + destruct (lookup_lt_is_Some_2 a (Z.to_nat r)) as [x Hx]; [lia|].
      pose proof (psum_succ a r x ltac:(lia) Hx). exists x. split; [done|]. lia.
    + intros j x Hj Hx. apply (psum_flat a (idx + 1) r j x Hnn); [lia|done|lia].
  - exists (-1). split; [done|]. left. split; [done|]. intros j x Hj Hx.
    apply (psum_flat a (idx + 1) (ft_size ft) j x Hnn); [|done|].
    + rewrite (psum_all a (ft_size ft)); lia.
    + apply lookup_lt_Some in Hx. lia.
Qed.

(** ** The empty tree *)

Lemma zsum_replicate_0 n : zsum (replicate n 0) = 0.
Proof. by induction n. Qed.

Lemma repr_zeros b :
  0 <= b <= 29 ->
  repr (mk_fenwickTree (replicate (Z.to_nat (2 ^ b + 1)) 0) b (2 ^ b) 0) (replicate (Z.to_nat (2 ^ b)) 0).
Proof.
  intros Hb. pose proof (Z.pow_pos_nonneg 2 b).
  split; cbn [ft_tree ft_size_bits ft_size ft_total]; rewrite ?length_replicate, ?zsum_replicate_0; try done; try lia.
  - apply Forall_replicate. lia.
  - intros j Hj. unfold tree_get, psum. rewrite !take_replicate, !zsum_replicate_0.
    rewrite (proj2 (Z.ltb_ge j 0)) by lia. apply lookup_replicate_2. lia.
Qed.

Lemma fwTreeCreate_repr b :
  0 <= b <= 29 -> repr (fwTreeCreate b) (replicate (Z.to_nat (2 ^ b)) 0).
Proof.
  intros Hb. unfold fwTreeCreate. pose proof (Z.pow_pos_nonneg 2 b).
  pose proof (Z.pow_le_mono_r 2 b 29).
  rewrite Z.shiftl_mul_pow2, Z.mul_1_l, i32_small by lia. by apply repr_zeros.
Qed.

Lemma fwTreeClear_repr ft a :
  repr ft a -> repr (fwTreeClear ft) (replicate (length a) 0).
Proof.
  intros Hr. unfold fwTreeClear. pose proof (repr_len _ _ Hr). rewrite (repr_size _ _ Hr) in *.
  replace (length a) with (Z.to_nat (2 ^ ft_size_bits ft)) by lia. apply repr_zeros, Hr.
Qed.

(** ** Witnesses *)

(** Counts 5, 0, 3, 0, 7, 0, 2, 0, built by the updates of [fwtreeTest]. *)
Definition ex_counts : list Z := [5; 0; 3; 0; 7; 0; 2; 0].
Definition ex_tree : fenwickTree := mk_fenwickTree [0; 5; 5; 3; 8; 7; 7; 2; 17] 3 8 17.

Example ex_tree_built :
  (ft ← fwTreeUpdate (fwTreeCreate 3) 0 5; ft ← fwTreeUpdate ft 2 3;
   ft ← fwTreeUpdate ft 4 7; fwTreeUpdate ft 6 2) = Some ex_tree.
Proof. vm_compute. reflexivity. Qed.

Lemma ex_tree_repr : repr ex_tree ex_counts.
Proof.
  split; cbn; try done; try lia; [repeat constructor; lia|].
  intros j Hj. assert (j = 1 \/ j = 2 \/ j = 3 \/ j = 4 \/ j = 5 \/ j = 6 \/ j = 7 \/ j = 8) as H by lia.
  by destruct H as [->|[->|[->|[->|[->|[->|[->| ->]]]]]]].
Qed.

Lemma fwTreeUpdate_correct_witness :
  exists ft', fwTreeUpdate ex_tree 2 (-1) = Some ft' /\ repr ft' (<[Z.to_nat 2 := 3 + -1]> ex_counts).
Proof. apply (fwTreeUpdate_correct ex_tree ex_counts 2 (-1) 3); [apply ex_tree_repr|done..]. Defined.

Lemma fwTreePrefixSum_correct_witness :
  fwTreePrefixSum ex_tree 5 = Some (zsum (take (Z.to_nat (5 + 1)) ex_counts)).
Proof. apply (fwTreePrefixSum_correct ex_tree ex_counts 5); [apply ex_tree_repr|done]. Defined.

Lemma fwTreeFindIndex_correct_witness :
  exists r, fwTreeFindIndex ex_tree 9 = Some r /\ 0 <= r < ft_size ex_tree /\
    zsum (take (Z.to_nat r) ex_counts) < 9 <= zsum (take (Z.to_nat (r + 1)) ex_counts).
Proof. apply (fwTreeFindIndex_correct ex_tree ex_counts 9); [apply ex_tree_repr|done]. Defined.

Lemma fwTreeFindNextNonEmpty_correct_witness :
  exists r, fwTreeFindNextNonEmpty ex_tree 2 = Some r /\
    ((r = -1 /\ forall j x, 2 < Z.of_nat j -> ex_counts !! j = Some x -> x = 0) \/
     (2 < r /\ (exists x, ex_counts !! Z.to_nat r = Some x /\ 0 < x) /\
      forall j x, 2 < Z.of_nat j < r -> ex_counts !! j = Some x -> x = 0)).
Proof. apply (fwTreeFindNextNonEmpty_correct ex_tree ex_counts 2); [apply ex_tree_repr|done..]. Defined.

End Fwtree.
