(* ===== verification/Util.v ===== *)
(** Number and string conversions ([src/util.c]). *)
From stdpp Require Import base numbers list.
From stdpp Require Import options.
From Stdlib Require Import String Ascii.
From S2P Require Import Prelude.
#[local] Open Scope Z_scope.
#[local] Open Scope list_scope.

Module Util.

(** Characters are their codes; [ch] and [chs] read literals. *)
Definition ch (c : ascii) : Z := Z.of_N (N_of_ascii c).
Definition chs (s : string) : list Z := ch <$> list_ascii_of_string s.

Definition zero : Z := 48.
Definition nine : Z := 57.
Definition minus : Z := 45.

(** ** Operations *)

(** The recursive call divides by 10^12, so one call is enough for 64 bits. *)
Fixpoint digits10_rec (fuel : nat) (v : Z) : option Z :=
  match fuel with
  | O => None
  | S fuel =>
    if v <? 10 then Some 1
    else if v <? 100 then Some 2
    else if v <? 1000 then Some 3
    else if v <? 1000000000000 then
      if v <? 100000000 then
        if v <? 1000000 then
          if v <? 10000 then Some 4 else Some (5 + b2z (v >=? 100000))
        else Some (7 + b2z (v >=? 10000000))
      else if v <? 10000000000 then Some (9 + b2z (v >=? 1000000000))
      else Some (11 + b2z (v >=? 100000000000))
    else d ← digits10_rec fuel (v `div` 1000000000000); Some (12 + d)
  end.

Definition digits10 (v : Z) : option Z := digits10_rec 2 v.

Definition sdigits10 (v : Z) : option Z :=
  if v <? 0 then
    let uv := if negb (v =? INT64_MIN) then u64 (- v) else u64 (u64 INT64_MAX + 1) in
    d ← digits10 uv; Some (d + 1)
  else digits10 v.

(** [dst[i] = c]; a store outside the buffer is [None]. *)
Definition store (dst : list Z) (i c : Z) : option (list Z) :=
  if (0 <=? i) && (i <? Z.of_nat (List.length dst))
  then Some (<[Z.to_nat i := c]> dst) else None.

Definition digits : list Z := chs (
  "0001020304050607080910111213141516171819" ++
  "2021222324252627282930313233343536373839" ++
  "4041424344454647484950515253545556575859" ++
  "6061626364656667686970717273747576777879" ++
  "8081828384858687888990919293949596979899").

(** [while (value >= 100)]: two digits per iteration, so ten iterations are
    enough for 64 bits. Yields the buffer, [value] and [next]. *)
Fixpoint ull2string_loop (fuel : nat) (dst : list Z) (value next : Z)
    : option (list Z * Z * Z) :=
  match fuel with
  | O => None
  | S fuel =>
    if value >=? 100 then
      let i := value `mod` 100 * 2 in
      let value := value `div` 100 in
      hi ← digits !! Z.to_nat (i + 1); lo ← digits !! Z.to_nat i;
      dst ← store dst next hi;
      dst ← store dst (u32 (next - 1)) lo;
      ull2string_loop fuel dst value (u32 (next - 2))
    else Some (dst, value, next)
  end.

(** [err:] of both printers: force a terminator. *)
Definition ll_err (dst : list Z) : option (Z * list Z) :=
  match dst with
  | [] => Some (0, [])
  | _ => dst ← store dst 0 0; Some (0, dst)
  end.

(** [dst] is the buffer, of [dstlen] bytes; returns the length and the buffer. *)
Definition ull2string (dst : list Z) (value : Z) : option (Z * list Z) :=
  length ← digits10 value;
  if length >=? Z.of_nat (List.length dst) then ll_err dst
  else
    let next := u32 (length - 1) in
    dst ← store dst (u32 (next + 1)) 0;
    '(dst, value, next) ← ull2string_loop 11 dst value next;
    if value <? 10 then
      dst ← store dst next (zero + value); Some (length, dst)
    else
      let i := value * 2 in
      hi ← digits !! Z.to_nat (i + 1); lo ← digits !! Z.to_nat i;
      dst ← store dst next hi;
      dst ← store dst (u32 (next - 1)) lo;
      Some (length, dst).

Definition ll2string (dst : list Z) (svalue : Z) : option (Z * list Z) :=
  if svalue <? 0 then
    let value := if negb (svalue =? INT64_MIN) then u64 (- svalue)
                 else u64 (u64 INT64_MAX + 1) in
    if Z.of_nat (List.length dst) <? 2 then ll_err dst
    else
      dst ← store dst 0 minus;
      '(length, rest) ← ull2string (drop 1 dst) value;
      let dst := take 1 dst ++ rest in
      if length =? 0 then Some (0, dst) else Some (length + 1, dst)
  else
    '(length, dst) ← ull2string dst svalue;
    if length =? 0 then Some (0, dst) else Some (length, dst).

Definition LONG_STR_SIZE : Z := 21.

Definition isdigit (c : Z) : bool := (c >=? zero) && (c <=? nine).

(** The digit loop: [None] on overflow, else [v] and the characters left. *)
Fixpoint string2ll_loop (p : list Z) (v : Z) : option (Z * list Z) :=
  match p with
  | c :: p' =>
    if isdigit c then
      if v >? UINT64_MAX `div` 10 then None
      else
        let v := v * 10 in
        if v >? UINT64_MAX - (c - zero) then None
        else string2ll_loop p' (v + (c - zero))
    else Some (v, p)
  | [] => Some (v, [])
  end.

(** [s] has [slen] characters; [None] is the return value 0. *)
Definition string2ll (s : list Z) : option Z :=
  let slen := Z.of_nat (List.length s) in
  if (slen =? 0) || (slen >=? LONG_STR_SIZE) then None
  else
    match s with
    | [] => None
    | c0 :: s' =>
      if (slen =? 1) && (c0 =? zero) then Some 0
      else
        let negative := c0 =? minus in
        match (if negative then s' else s) with
        | [] => None
        | c :: p =>
          if (c >=? zero + 1) && (c <=? nine) then
            '(v, rest) ← string2ll_loop p (c - zero);
            match (rest : list Z) with
            | _ :: _ => None
            | [] =>
              if negative then
                if v >? u64 (u64 (- (INT64_MIN + 1)) + 1) then None
                else Some (i64 (u64 (- v)))
              else if v >? INT64_MAX then None else Some v
            end
          else None
        end
    end.

(** [long] has 64 bits. *)
Definition string2l (s : list Z) : option Z :=
  llval ← string2ll s;
  if (llval <? INT64_MIN) || (llval >? INT64_MAX) then None else Some llval.

Definition safe_is_c_in_range (c start end_ : Z) : bool := (c >=? start) && (c <=? end_).

Definition base_16_char_type (c : Z) : Z :=
  if safe_is_c_in_range c (ch "0") (ch "9") then 0
  else if safe_is_c_in_range c (ch "a") (ch "f") then 1
  else if safe_is_c_in_range c (ch "A") (ch "F") then 2 else -1.

Definition ascii_to_dec (char_type : Z) : Z :=
  if char_type =? 0 then ch "0" else if char_type =? 1 then ch "a" - 10 else ch "A" - 10.

(** Reads at most [slen] characters of [src], whose terminator is the end of the
    list; [None] is the overflow result -1. *)
Fixpoint string2ul_base16 (src : list Z) (slen : nat) (result : Z) : option Z :=
  match src, slen with
  | c :: src, S slen =>
    let char_type := base_16_char_type c in
    if negb (char_type =? -1) then
      let curr_val := c - ascii_to_dec char_type in
      if (result >? UINT64_MAX `div` 16) || (result >? (UINT64_MAX - curr_val) `div` 16) then None
      else string2ul_base16 src slen (result * 16 + curr_val)
    else Some result
  | _, _ => Some result
  end.

Definition string2ul_base16_async_signal_safe (src : list Z) (slen : nat) : option Z :=
  string2ul_base16 src slen 0.

(** ** Decimal notation *)

(** The [n] low decimal digits of [v], most significant first. *)
Fixpoint digits_n (n : nat) (v : Z) : list Z :=
  match n with
  | O => []
  | S n => digits_n n (v `div` 10) ++ [zero + v `mod` 10]
  end.

Definition ndigits (v : Z) (d : nat) : Prop :=
  (1 <= d)%nat /\ (d = 1%nat \/ 10 ^ (Z.of_nat d - 1) <= v) /\ 0 <= v < 10 ^ Z.of_nat d.

(** [s] is the decimal notation of the natural number [v]: no leading zero. *)
Definition is_decimal (v : Z) (s : list Z) : Prop :=
  ndigits v (List.length s) /\ s = digits_n (List.length s) v.

(** [s] is the decimal notation of the integer [v]. *)
Definition is_integer (v : Z) (s : list Z) : Prop :=
  if v <? 0 then exists p, s = minus :: p /\ is_decimal (- v) p else is_decimal v s.

Lemma length_digits_n n v : List.length (digits_n n v) = n.
Proof. revert v. induction n; intros; cbn; [done|]. rewrite length_app, IHn. cbn. lia. Qed.

Lemma digits_n_SS n v :
  digits_n (S (S n)) v =
    digits_n n (v `div` 100) ++ [zero + (v `mod` 100) `div` 10; zero + (v `mod` 100) `mod` 10].
Proof.
  cbn [digits_n]. rewrite <- (assoc_L (++)), Z.div_div by lia. cbn [app].
  assert ((v `mod` 100) `div` 10 = (v `div` 10) `mod` 10) as -> by dlia.
  assert ((v `mod` 100) `mod` 10 = v `mod` 10) as -> by dlia. done.
Qed.

(** ** Digit counts *)

Lemma digits10_small n v :
  0 <= v < 10 ^ 12 -> exists d, digits10_rec (S n) v = Some (Z.of_nat d) /\ ndigits v d.
Proof.
  intros Hv. cbn [digits10_rec]. unfold ndigits.
  repeat ztest; cbn [b2z];
    first [exfalso; lia
      | match goal with |- exists d, Some ?k = _ /\ _ =>
          let k' := eval vm_compute in (Z.to_nat k) in exists k'; split; [done|];
          split; [lia|]; split; [first [by left | right; cbn; lia]|cbn; lia]
        end].
Qed.

Lemma digits10_spec v :
  in_u 64 v -> exists d, digits10 v = Some (Z.of_nat d) /\ ndigits v d.
Proof.
  unfold in_u, digits10. intros Hv. destruct (Z.lt_ge_cases v (10 ^ 12)).
  { apply digits10_small. lia. }
  destruct (digits10_small 0 (v `div` 1000000000000)) as (d & Hd & H1 & H2 & H3); [dlia|].
  exists (12 + d)%nat. split.
  - change (digits10_rec 2 v) with
      (if v <? 10 then Some 1 else if v <? 100 then Some 2 else if v <? 1000 then Some 3
       else if v <? 1000000000000 then
         if v <? 100000000 then
           if v <? 1000000 then
             if v <? 10000 then Some 4 else Some (5 + b2z (v >=? 100000))
           else Some (7 + b2z (v >=? 10000000))
         else if v <? 10000000000 then Some (9 + b2z (v >=? 1000000000))
         else Some (11 + b2z (v >=? 100000000000))
       else d ← digits10_rec 1 (v `div` 1000000000000); Some (12 + d)).
    rewrite Hd. rewrite !(proj2 (Z.ltb_ge v _)) by lia. mred. f_equal. lia.
  - split; [lia|]. rewrite Nat2Z.inj_add. change (Z.of_nat 12) with 12.
    rewrite Z.pow_add_r by lia. change (10 ^ 12) with 1000000000000 in *.
    split; [right|split; [lia|dlia]].
    replace (12 + Z.of_nat d - 1) with (12 + (Z.of_nat d - 1)) by lia.
    rewrite Z.pow_add_r by lia. change (10 ^ 12) with 1000000000000 in *.
    destruct H2 as [->|H2]; [cbn; lia|]. dlia.
Qed.

(** ** Printing *)

Lemma store_app a x b c i :
  i = Z.of_nat (List.length a) -> store (a ++ x :: b) i c = Some (a ++ c :: b).
Proof.
  intros ->. unfold store. rewrite length_app. cbn [List.length].
  rewrite (proj2 (Z.leb_le 0 _)), (proj2 (Z.ltb_lt _ _)) by lia. cbn [andb].
  by rewrite Nat2Z.id, insert_app_r_alt, Nat.sub_diag by lia.
Qed.

Lemma snoc2 (l : list Z) n :
  List.length l = S (S n) -> exists a x y, l = a ++ [x; y] /\ List.length a = n.
Proof.
  intros H. exists (take n l). destruct (drop n l) as [|x [|y [|]]] eqn:E;
    apply (f_equal List.length) in E as E'; rewrite length_drop in E'; cbn in E'; try lia.
  exists x, y. rewrite <- E, take_drop, length_take. split; [done|lia].
Qed.

Lemma digits_lookup i :
  0 <= i < 100 ->
  digits !! Z.to_nat (i * 2) = Some (zero + i `div` 10) /\
  digits !! Z.to_nat (i * 2 + 1) = Some (zero + i `mod` 10).
Proof.
  intros Hi.
  assert (Forall (fun i => digits !! Z.to_nat (i * 2) = Some (zero + i `div` 10) /\
    digits !! Z.to_nat (i * 2 + 1) = Some (zero + i `mod` 10)) (seqZ 0 100)) as H.
  { apply (bool_decide_unpack _). vm_compute. done. }
  rewrite Forall_forall in H. apply H, elem_of_seqZ. lia.
Qed.

(** Two stores at the end of the prefix [a]. *)
Lemma store2 a b x y n hi lo :
  n = Z.of_nat (List.length a) + 1 -> n < 2 ^ 32 ->
  exists dst, store (a ++ [x; y] ++ b) n hi = Some dst /\
    store dst (u32 (n - 1)) lo = Some (a ++ [lo; hi] ++ b).
Proof.
  intros -> Hn. rewrite wrapu_small by (unfold in_u; lia).
  replace (a ++ [x; y] ++ b) with ((a ++ [x]) ++ y :: b) by (by rewrite <- (assoc_L (++))).
  rewrite store_app by (rewrite length_app; cbn; lia). eexists. split; [done|].
  rewrite <- (assoc_L (++)). cbn [app]. rewrite store_app by lia. done.
Qed.

Lemma ndigits_le v d k : ndigits v d -> v < 10 ^ Z.of_nat k -> (1 <= k)%nat -> (d <= k)%nat.
Proof.
  intros (H1 & [->|H2] & H3) Hk Hk1; [lia|].
  destruct (decide (d <= k)%nat); [done|exfalso].
  pose proof (Z.pow_le_mono_r 10 (Z.of_nat k) (Z.of_nat d - 1)). lia.
Qed.

Lemma ndigits_unique v d d' : ndigits v d -> ndigits v d' -> d = d'.
Proof.
  intros H H'. pose proof H as (H1 & _ & _ & Hb). pose proof H' as (H1' & _ & _ & Hb').
  pose proof (ndigits_le v d d' H Hb' H1'). pose proof (ndigits_le v d' d H' Hb H1). lia.
Qed.

Lemma ndigits_div100 v d :
  ndigits v d -> 100 <= v -> (2 < d)%nat /\ ndigits (v `div` 100) (d - 2).
Proof.
  intros (H1 & H2 & H3 & H4) Hv.
  assert (2 < d)%nat as Hd.
  { destruct d as [|[|[|]]]; [lia|cbn in H4; lia|cbn in H4; lia|lia]. }
  split; [done|]. destruct H2 as [->|H2]; [lia|].
  replace (Z.of_nat d) with (2 + Z.of_nat (d - 2)) in H4 by lia.
  rewrite Z.pow_add_r in H4 by lia. change (10 ^ 2) with 100 in H4.
  split; [lia|]. split; [|split; [dlia|apply Z.div_lt_upper_bound; lia]].
  right. replace (Z.of_nat d - 1) with (2 + (Z.of_nat (d - 2) - 1)) in H2 by lia.
  rewrite Z.pow_add_r in H2 by lia. change (10 ^ 2) with 100 in H2.
  apply Z.div_le_lower_bound; lia.
Qed.

Lemma ull2string_loop_spec fuel v n a b :
  ndigits v n -> List.length a = n -> (n <= 2 * fuel)%nat -> Z.of_nat n < 2 ^ 31 ->
  exists m v' a' t, ull2string_loop fuel (a ++ b) v (Z.of_nat n - 1) =
      Some (a' ++ t ++ b, v', Z.of_nat m - 1) /\
    v' < 100 /\ ndigits v' m /\ List.length a' = m /\
    digits_n n v = digits_n m v' ++ t.
Proof.
  revert v n a b. induction fuel as [|fuel IH]; intros v n a b Hn Ha Hf Hb.
  { destruct Hn. lia. }
  cbn [ull2string_loop]. rewrite Z.geb_leb. destruct (Z.leb_spec 100 v) as [Hv|Hv].
  2: { exists n, v, a, []. cbn [app]. rewrite app_nil_r. auto. }
  destruct (ndigits_div100 v n Hn Hv) as [Hn2 Hn'].
  assert (exists k, n = S (S k)) as [k ->] by (exists (n - 2)%nat; lia).
  destruct (snoc2 a k Ha) as (a0 & x & y & -> & Ha0).
  destruct (digits_lookup (v `mod` 100)) as [Elo Ehi]; [dlia|].
  rewrite Ehi, Elo. mred. rewrite <- (assoc_L (++)).
  destruct (store2 a0 b x y (Z.of_nat (S (S k)) - 1) (zero + (v `mod` 100) `mod` 10)
    (zero + (v `mod` 100) `div` 10)) as (dst & -> & Hst); [lia|lia|]. mred.
  rewrite Hst. mred. rewrite wrapu_small by (unfold in_u; lia).
  replace (Z.of_nat (S (S k)) - 1 - 2) with (Z.of_nat k - 1) by lia.
  replace (S (S k) - 2)%nat with k in Hn' by lia.
  destruct (IH (v `div` 100) k a0 ([zero + (v `mod` 100) `div` 10; zero + (v `mod` 100) `mod` 10] ++ b))
    as (m & v' & a' & t & -> & Hv' & Hm & Ha' & Hd); [done|done|lia|lia|].
  exists m, v', a', (t ++ [zero + (v `mod` 100) `div` 10; zero + (v `mod` 100) `mod` 10]).
  rewrite <- !(assoc_L (++)). split; [done|]. split_and!; [done..|].
  by rewrite digits_n_SS, Hd, <- (assoc_L (++)).
Qed.

Lemma ndigits_19 v d : ndigits v d -> v < 10 ^ 19 -> (d <= 19)%nat.
Proof. intros H Hv. apply (ndigits_le v d 19 H); [exact Hv|lia]. Qed.

Lemma ndigits_20 v d : ndigits v d -> v < 10 ^ 20 -> (d <= 20)%nat.
Proof. intros H Hv. apply (ndigits_le v d 20 H); [exact Hv|lia]. Qed.

(** Everything [ull2string] does: print and terminate in place when the buffer
    has room for the digits and the terminator, else write an empty string. *)
Lemma ull2string_spec dst v :
  in_u 64 v ->
  exists d, ndigits v d /\
    if decide (d < List.length dst)%nat
    then ull2string dst v = Some (Z.of_nat d, digits_n d v ++ 0 :: drop (S d) dst)
    else ull2string dst v = Some (0, match dst with [] => [] | _ :: r => 0 :: r end).
Proof.
  intros Hv. destruct (digits10_spec v Hv) as (d & Hd & Hn). exists d. split; [done|].
  assert (d <= 20)%nat as H20 by (apply (ndigits_20 v); [done|unfold in_u in Hv; lia]).
  pose proof Hn as [H1 _]. unfold ull2string. rewrite Hd. mred. rewrite Z.geb_leb.
  destruct (decide (d < List.length dst)%nat) as [Hlt|Hge].
  2: { rewrite (proj2 (Z.leb_le _ _)) by lia. destruct dst as [|x r]; [done|].
       cbn [ll_err]. change (x :: r) with ([] ++ x :: r). by rewrite store_app. }
  rewrite (proj2 (Z.leb_gt _ _)), !(wrapu_small 32) by (unfold in_u; lia).
  replace (Z.of_nat d - 1 + 1) with (Z.of_nat d) by lia.
  destruct (lookup_lt_is_Some_2 dst d) as [x Hx]; [lia|].
  rewrite <- (take_drop_middle _ _ _ Hx) at 1. rewrite store_app by (rewrite length_take; lia). mred.
  destruct (ull2string_loop_spec 11 v d (take d dst) (0 :: drop (S d) dst))
    as (m & v' & a' & t & -> & Hv' & Hm & Ha' & Ed); [done|rewrite length_take; lia|lia|lia|].
  mred. rewrite Ed, <- (assoc_L (++)).
  assert (m <= 2)%nat as Hm2 by (apply (ndigits_le v'); [done|change (10 ^ Z.of_nat 2) with 100; lia|lia]).
  destruct Hm as (Hm1 & Hlo & Hhi). destruct (Z.ltb_spec v' 10).
  - assert (m = 1%nat) as -> by (destruct Hlo; [done|]; destruct m as [|[|[|]]]; cbn in *; lia).
    destruct a' as [|y []]; try done. cbn [app].
    change (y :: t ++ 0 :: drop (S d) dst) with ([] ++ y :: t ++ 0 :: drop (S d) dst).
    rewrite store_app by done. mred. cbn [digits_n app]. rewrite Z.mod_small by lia. done.
  - assert (m = 2%nat) as -> by (destruct m as [|[|[|]]]; cbn in *; lia).
    destruct a' as [|y [|z []]]; try done.
    destruct (digits_lookup v') as [Elo Ehi]; [lia|]. rewrite Ehi, Elo. mred.
    destruct (store2 [] (t ++ 0 :: drop (S d) dst) y z (Z.of_nat 2 - 1)
      (zero + v' `mod` 10) (zero + v' `div` 10)) as (dst' & E1 & E2); [done|done|].
    cbn [app] in E1, E2 |- *. rewrite E1. mred. rewrite E2. mred.
    cbn [digits_n app]. rewrite (Z.mod_small (v' `div` 10)) by dlia. done.
Qed.

(** ** Parsing *)

Definition horner (v : Z) (p : list Z) : Z := foldl (fun v c => v * 10 + (c - zero)) v p.
Definition digit (c : Z) : Prop := zero <= c <= nine.

Lemma horner_app v p q : horner v (p ++ q) = horner (horner v p) q.
Proof. apply foldl_app. Qed.

Lemma horner_cons v c p : horner v (c :: p) = horner (v * 10 + (c - zero)) p.
Proof. done. Qed.

Lemma horner_snoc v c p : horner v (p ++ [c]) = horner v p * 10 + (c - zero).
Proof. by rewrite horner_app. Qed.

Lemma horner_mono v p : Forall digit p -> 0 <= v -> v <= horner v p.
Proof.
  intros Hp. revert v. induction Hp as [|c p Hc _ IH]; intros v Hv; [cbn; lia|].
  rewrite horner_cons. unfold digit, zero, nine in *. specialize (IH (v * 10 + (c - 48))). lia.
Qed.

Lemma horner_shift v p : horner v p = v * 10 ^ Z.of_nat (List.length p) + horner 0 p.
Proof.
  induction p as [|c p IH] using rev_ind; [cbn; lia|].
  rewrite !horner_snoc, length_app. cbn [List.length].
  rewrite Nat2Z.inj_add, Z.pow_add_r by lia. change (10 ^ Z.of_nat 1) with 10.
  unfold zero. lia.
Qed.

Lemma horner_bound p : Forall digit p -> 0 <= horner 0 p < 10 ^ Z.of_nat (List.length p).
Proof.
  induction p as [|c p IH] using rev_ind; [done|].
  intros [Hp [Hc _]%Forall_cons_1]%Forall_app. specialize (IH Hp).
  rewrite horner_snoc, length_app. cbn [List.length].
  rewrite Nat2Z.inj_add, Z.pow_add_r by lia. change (10 ^ Z.of_nat 1) with 10.
  unfold digit, zero, nine in *. lia.
Qed.

Lemma horner_digits_n n v : horner 0 (digits_n n v) = v `mod` 10 ^ Z.of_nat n.
Proof.
  revert v. induction n as [|n IH]; intros v; cbn [digits_n]; [cbn; by rewrite Z.mod_1_r|].
  rewrite horner_snoc, IH. unfold zero.
  rewrite Nat2Z.inj_succ, Z.pow_succ_r, Z.rem_mul_r by lia. lia.
Qed.

Lemma digits_n_digit n v : Forall digit (digits_n n v).
Proof.
  revert v. induction n; intros v; cbn; [done|]. apply Forall_app. split; [done|].
  repeat constructor; unfold zero, nine; dlia.
Qed.

Lemma digits_n_horner p : Forall digit p -> digits_n (List.length p) (horner 0 p) = p.
Proof.
  induction p as [|c p IH] using rev_ind; [done|].
  intros [Hp [Hc _]%Forall_cons_1]%Forall_app. rewrite length_app, Nat.add_comm, horner_snoc.
  cbn [Nat.add List.length digits_n]. unfold digit, zero, nine in *.
  assert ((horner 0 p * 10 + (c - 48)) `div` 10 = horner 0 p) as -> by dlia.
  assert ((horner 0 p * 10 + (c - 48)) `mod` 10 = c - 48) as -> by dlia.
  rewrite IH by done. do 2 f_equal. lia.
Qed.

Lemma isdigit_spec c : isdigit c = true <-> digit c.
Proof.
  unfold isdigit, digit. rewrite Z.geb_leb, andb_true_iff, !Z.leb_le. done.
Qed.

(** The overflow tests of the loop are exact for 64 bits. *)
Lemma string2ll_loop_spec p v r :
  0 <= v <= UINT64_MAX ->
  string2ll_loop p v = Some (r, []) <->
    Forall digit p /\ r = horner v p /\ r <= UINT64_MAX.
Proof.
  revert v. induction p as [|c p IH]; intros v Hv; cbn [string2ll_loop].
  { split; [intros [= ->]; repeat split; [constructor|lia]|intros (_ & -> & _); done]. }
  destruct (isdigit c) eqn:Ec.
  2: { split; [done|]. intros [Hc%Forall_cons_1 _]. destruct Hc as [Hc%isdigit_spec _]. congruence. }
  apply isdigit_spec in Ec. rewrite horner_cons.
  assert (Forall digit (c :: p) <-> Forall digit p) as -> by (rewrite Forall_cons; tauto).
  unfold digit, zero, nine, UINT64_MAX in *. rewrite !Z.gtb_ltb.
  destruct (Z.ltb_spec (18446744073709551615 `div` 10) v) as [Ho|Ho];
    [|destruct (Z.ltb_spec (18446744073709551615 - (c - 48)) (v * 10)) as [Ho'|Ho']].
  - split; [done|]. intros (Hp & -> & Hle).
    pose proof (horner_mono (v * 10 + (c - 48)) p Hp). dlia.
  - split; [done|]. intros (Hp & -> & Hle).
    pose proof (horner_mono (v * 10 + (c - 48)) p Hp). lia.
  - apply IH. lia.
Qed.

(** Non-empty digit strings without a leading zero are exactly the decimal
    notations of the positive numbers. *)
Lemma is_decimal_pos c p v :
  zero < c <= nine -> is_decimal v (c :: p) <-> Forall digit p /\ v = horner (c - zero) p.
Proof.
  intros Hc. assert (horner (c - zero) p = horner 0 (c :: p)) as -> by done.
  split.
  - intros [(H1 & H2 & H3) E]. split.
    + pose proof (digits_n_digit (List.length (c :: p)) v) as H. rewrite <- E in H.
      by apply Forall_cons_1 in H as [_ H].
    + pose proof (horner_digits_n (List.length (c :: p)) v) as Hh. rewrite <- E in Hh.
      by rewrite Hh, Z.mod_small.
  - intros [Hp ->]. assert (Forall digit (c :: p)) as Hcp
      by (constructor; [unfold digit in *; lia|done]).
    split; [|by rewrite digits_n_horner].
    split; [cbn; lia|]. split; [right|by apply horner_bound].
    change (horner 0 (c :: p)) with (horner (c - zero) p). rewrite horner_shift.
    cbn [List.length]. rewrite Nat2Z.inj_succ. unfold Z.succ. rewrite Z.add_simpl_r.
    pose proof (horner_bound p Hp). nia.
Qed.

Lemma is_decimal_zero s : is_decimal 0 s <-> s = [zero].
Proof.
  split; [|intros ->; repeat split; cbn; auto; lia].
  intros [(H1 & H2 & H3) E]. destruct H2 as [H2|H2].
  - rewrite H2 in E. done.
  - pose proof (Z.pow_pos_nonneg 10 (Z.of_nat (List.length s) - 1)). lia.
Qed.

Lemma is_decimal_inv v s :
  is_decimal v s -> exists c p, s = c :: p /\ zero <= c <= nine /\ (c = zero -> s = [zero] /\ v = 0).
Proof.
  intros [(H1 & H2 & H3) E]. pose proof (digits_n_digit (List.length s) v) as Hd. rewrite <- E in Hd.
  pose proof (horner_digits_n (List.length s) v) as Hh. rewrite <- E, Z.mod_small in Hh by done.
  destruct s as [|c p]; [cbn in H1; lia|]. apply Forall_cons_1 in Hd as [Hc Hp].
  exists c, p. do 2 (split; [done|]). intros ->. rewrite horner_cons in Hh.
  change (0 * 10 + (zero - zero)) with 0 in Hh. pose proof (horner_bound p Hp) as Hb.
  destruct H2 as [H2|H2].
  - destruct p; [|done]. cbn in Hh. done.
  - cbn [List.length] in H2. rewrite Nat2Z.inj_succ in H2.
    replace (Z.succ (Z.of_nat (List.length p)) - 1) with (Z.of_nat (List.length p)) in H2 by lia. lia.
Qed.

Lemma is_decimal_length v s : is_decimal v s -> v < 10 ^ 19 -> (List.length s <= 19)%nat.
Proof. intros [H _] Hv. apply (ndigits_le v _ 19 H); [exact Hv|lia]. Qed.

Lemma is_integer_length v s :
  in_s 64 v -> is_integer v s -> (1 <= List.length s <= 20)%nat.
Proof.
  unfold in_s, is_integer. change (2 ^ (64 - 1)) with 9223372036854775808. intros Hv.
  destruct (Z.ltb_spec v 0).
  - intros (p & -> & Hp). pose proof (is_decimal_length _ _ Hp). cbn. lia.
  - intros Hp. pose proof (is_decimal_length _ _ Hp). destruct Hp as [[] _]. lia.
Qed.

(** The magnitude parser inside [string2ll]. *)
Definition parse_mag (q : list Z) : option Z :=
  match q with
  | [] => None
  | c :: p =>
    if (c >=? zero + 1) && (c <=? nine) then
      '(v, rest) ← string2ll_loop p (c - zero);
      match (rest : list Z) with [] => Some v | _ :: _ => None end
    else None
  end.

Lemma parse_mag_spec q m :
  parse_mag q = Some m <-> 1 <= m <= UINT64_MAX /\ is_decimal m q.
Proof.
  split.
  - destruct q as [|c p]; [done|]. cbn [parse_mag]. rewrite Z.geb_leb.
    destruct (_ && _) eqn:Ec; [|done]. bools. unfold zero, nine, UINT64_MAX in *.
    destruct (string2ll_loop p (c - 48)) as [[v [|]]|] eqn:El; try done. intros [= ->].
    apply string2ll_loop_spec in El; [|unfold UINT64_MAX; lia]. destruct El as (Hp & -> & Hle).
    pose proof (horner_mono (c - 48) p Hp). split; [unfold UINT64_MAX in *; lia|].
    apply is_decimal_pos; [unfold zero, nine; lia|]. done.
  - intros [Hm Hd]. destruct (is_decimal_inv _ _ Hd) as (c & p & -> & Hc & Hz).
    assert (zero < c <= nine) as Hc' by (destruct (Z.eq_dec c zero); [apply Hz in e; lia|lia]).
    apply is_decimal_pos in Hd as [Hp ->]; [|done]. cbn [parse_mag]. rewrite Z.geb_leb.
    unfold zero, nine, UINT64_MAX in *.
    rewrite (proj2 (Z.leb_le _ c)), (proj2 (Z.leb_le c _)) by lia. cbn [andb].
    assert (string2ll_loop p (c - 48) = Some (horner (c - 48) p, [])) as ->; [|done].
    apply string2ll_loop_spec; unfold UINT64_MAX; [lia|]. split; [done|]. split; [done|lia].
Qed.

Lemma string2ll_eq c0 s' :
  Z.of_nat (List.length (c0 :: s')) < LONG_STR_SIZE -> c0 :: s' <> [zero] ->
  string2ll (c0 :: s') =
    if c0 =? minus then m ← parse_mag s'; if m >? 2 ^ 63 then None else Some (i64 (u64 (- m)))
    else m ← parse_mag (c0 :: s'); if m >? INT64_MAX then None else Some m.
Proof.
  intros Hl Hz. unfold string2ll. cbn [List.length] in *.
  rewrite (proj2 (Z.eqb_neq _ 0)), Z.geb_leb, (proj2 (Z.leb_gt _ _)) by lia. cbn [orb].
  assert ((Z.of_nat (S (List.length s')) =? 1) && (c0 =? zero) = false) as ->.
  { apply andb_false_iff. destruct (Z.eqb_spec c0 zero) as [->|]; [left|by right].
    destruct s'; [done|]. apply Z.eqb_neq. cbn [List.length]. lia. }
  change (u64 (u64 (- (INT64_MIN + 1)) + 1)) with (2 ^ 63).
  destruct (c0 =? minus); [destruct s' as [|c p]; [done|]|rename c0 into c, s' into p];
    cbn [parse_mag]; (destruct (_ && _); [|done]);
    destruct (string2ll_loop p (c - zero)) as [[v [|]]|]; done.
Qed.

Lemma string2ll_spec s v : string2ll s = Some v <-> in_s 64 v /\ is_integer v s.
Proof.
  destruct s as [|c0 s'].
  { split; [done|]. intros [Hv Hi]. pose proof (is_integer_length _ _ Hv Hi). cbn in *. lia. }
  destruct (Z.lt_ge_cases (Z.of_nat (List.length (c0 :: s'))) LONG_STR_SIZE) as [Hl|Hl].
  2: { split.
       - unfold string2ll. rewrite Z.geb_leb, (proj2 (Z.leb_le _ _) Hl), orb_true_r. done.
       - intros [Hv Hi]. pose proof (is_integer_length _ _ Hv Hi).
         unfold LONG_STR_SIZE in Hl. lia. }
  unfold in_s, is_integer. change (2 ^ (64 - 1)) with 9223372036854775808.
  destruct (decide (c0 :: s' = [zero])) as [E|Hz].
  { rewrite E. split.
    - intros [= <-]. cbn. rewrite is_decimal_zero. split; [lia|done].
    - intros [Hv Hi]. destruct (Z.ltb_spec v 0); [by destruct Hi as (p & ? & _)|].
      change [zero] with ([zero] : list Z) in Hi.
      destruct Hi as [(_ & _ & Hb) Hd]. cbn in Hb, Hd. unfold zero in Hd.
      injection Hd as Hd. rewrite Z.mod_small in Hd by lia. replace v with 0 by lia. done. }
  rewrite string2ll_eq by done. unfold INT64_MAX. destruct (Z.eqb_spec c0 minus) as [->|Hm].
  - split.
    + destruct (parse_mag s') as [m|] eqn:Em; [|done]. mred. rewrite Z.gtb_ltb.
      apply parse_mag_spec in Em as [Hmr Hd].
      destruct (Z.ltb_spec (2 ^ 63) m); [done|]. intros [= <-].
      rewrite wraps_wrapu, wraps_small by (lia || (unfold in_s; lia)).
      split; [lia|]. rewrite (proj2 (Z.ltb_lt _ _)) by lia. exists s'. split; [done|].
      by rewrite Z.opp_involutive.
    + intros [Hv Hi]. destruct (Z.ltb_spec v 0).
      * destruct Hi as (p & [= <-] & Hd).
        assert (parse_mag s' = Some (- v)) as ->.
        { apply parse_mag_spec. split; [unfold UINT64_MAX; lia|done]. }
        mred. rewrite Z.gtb_ltb, (proj2 (Z.ltb_ge _ _)) by lia. f_equal.
        rewrite wraps_wrapu, wraps_small by (lia || (unfold in_s; lia)). lia.
      * apply is_decimal_inv in Hi as (c & p & [= <- <-] & Hc & _). unfold zero, minus in *. lia.
  - split.
    + destruct (parse_mag (c0 :: s')) as [m|] eqn:Em; [|done]. mred. rewrite Z.gtb_ltb.
      apply parse_mag_spec in Em as [Hmr Hd].
      destruct (Z.ltb_spec 9223372036854775807 m); [done|]. intros [= <-].
      rewrite (proj2 (Z.ltb_ge _ _)) by lia. split; [lia|done].
    + intros [Hv Hi]. destruct (Z.ltb_spec v 0); [destruct Hi as (p & [= ? _] & _); congruence|].
      assert (v <> 0) as Hv0 by (intros ->; by apply is_decimal_zero in Hi).
      assert (parse_mag (c0 :: s') = Some v) as ->.
      { apply parse_mag_spec. split; [unfold UINT64_MAX; lia|done]. }
      mred. by rewrite Z.gtb_ltb, (proj2 (Z.ltb_ge _ _)) by lia.
Qed.

(** [string2ll] accepts a string exactly when it is the canonical decimal
    notation (no sign but a minus, no leading zero, nothing else) of an integer
    of 64 bits, and yields that integer: the overflow tests are exact. *)
Theorem string2ll_canonical s v :
  string2ll s = Some v <-> in_s 64 v /\ is_integer v s.
Proof. apply string2ll_spec. Qed.

Lemma ll2string_spec dst v :
  in_s 64 v -> LONG_STR_SIZE <= Z.of_nat (List.length dst) ->
  exists s rest, ll2string dst v = Some (Z.of_nat (List.length s), s ++ 0 :: rest) /\
    List.length (s ++ 0 :: rest) = List.length dst /\ is_integer v s.
Proof.
  intros Hv Hl. unfold LONG_STR_SIZE in Hl.
  unfold in_s in Hv. change (2 ^ (64 - 1)) with 9223372036854775808 in Hv.
  unfold ll2string, is_integer. destruct (Z.ltb_spec v 0).
  - assert ((if negb (v =? INT64_MIN) then u64 (- v) else u64 (u64 INT64_MAX + 1)) = - v) as ->.
    { destruct (Z.eqb_spec v INT64_MIN) as [->|]; [done|]. apply wrapu_small. unfold in_u; lia. }
    rewrite (proj2 (Z.ltb_ge _ 2)) by lia. destruct dst as [|x dst]; [cbn in Hl; lia|].
    change (x :: dst) with ([] ++ x :: dst) at 1. rewrite store_app by done. mred.
    cbn [app drop take].
    destruct (ull2string_spec dst (- v)) as (d & Hd & Hs); [unfold in_u; lia|].
    assert (H19 := ndigits_19 _ _ Hd ltac:(lia)). cbn [List.length] in *.
    rewrite decide_True in Hs by lia. change (drop 0 dst) with dst. rewrite Hs. mred.
    pose proof Hd as [Hd1 _]. rewrite (proj2 (Z.eqb_neq _ 0)) by lia.
    exists (minus :: digits_n d (- v)), (drop (S d) dst). split; [|split].
    + cbn. rewrite length_digits_n. do 3 f_equal. lia.
    + cbn. rewrite !length_app. cbn. rewrite length_digits_n, length_drop. lia.
    + exists (digits_n d (- v)). split; [done|]. split; by rewrite length_digits_n.
  - destruct (ull2string_spec dst v) as (d & Hd & Hs); [unfold in_u; lia|].
    assert (H19 := ndigits_19 _ _ Hd ltac:(lia)). rewrite decide_True in Hs by lia. rewrite Hs. mred.
    pose proof Hd as [Hd1 _]. rewrite (proj2 (Z.eqb_neq _ 0)) by lia.
    exists (digits_n d v), (drop (S d) dst). rewrite length_digits_n. split; [done|]. split.
    + rewrite length_app. cbn. rewrite length_digits_n, length_drop. lia.
    + split; by rewrite length_digits_n.
Qed.

(** A number has one decimal notation. *)
Lemma is_decimal_unique v s s' : is_decimal v s -> is_decimal v s' -> s = s'.
Proof. intros [Hn Hs] [Hn' Hs']. rewrite Hs, Hs'. f_equal. by apply (ndigits_unique v). Qed.

Lemma is_integer_unique v s s' : is_integer v s -> is_integer v s' -> s = s'.
Proof.
  unfold is_integer. destruct (v <? 0); [|apply is_decimal_unique].
  intros (p & -> & Hp) (p' & -> & Hp'). f_equal. by apply (is_decimal_unique (- v)).
Qed.

(** [sdigits10] is the length of that notation. *)
Lemma sdigits10_spec v s : in_s 64 v -> is_integer v s -> sdigits10 v = Some (Z.of_nat (List.length s)).
Proof.
  unfold in_s, is_integer, sdigits10. change (2 ^ (64 - 1)) with 9223372036854775808. intros Hv.
  destruct (Z.ltb_spec v 0).
  - assert ((if negb (v =? INT64_MIN) then u64 (- v) else u64 (u64 INT64_MAX + 1)) = - v) as ->.
    { destruct (Z.eqb_spec v INT64_MIN) as [->|]; [done|]. apply wrapu_small. unfold in_u; lia. }
    intros (p & -> & Hp & _). destruct (digits10_spec (- v)) as (d & -> & Hd); [unfold in_u; lia|].
    mred. f_equal. cbn [List.length]. rewrite (ndigits_unique _ _ _ Hp Hd). lia.
  - intros [Hp _]. destruct (digits10_spec v) as (d & -> & Hd); [unfold in_u; lia|]. by rewrite (ndigits_unique _ _ _ Hp Hd).
Qed.

(** C39: Printing a 64-bit integer with [ll2string] into a buffer of at least 21
    bytes writes its canonical notation followed by a terminator, returns its
    length, and [string2ll] reads the same integer back. *)
Theorem ll2string_roundtrip dst v :
  in_s 64 v -> LONG_STR_SIZE <= Z.of_nat (List.length dst) ->
  exists len dst', ll2string dst v = Some (len, dst') /\
    List.length dst' = List.length dst /\ dst' !! Z.to_nat len = Some 0 /\
    is_integer v (take (Z.to_nat len) dst') /\
    string2ll (take (Z.to_nat len) dst') = Some v.
Proof.
  intros Hv Hl. destruct (ll2string_spec dst v Hv Hl) as (s & rest & E & El & Hi).
  exists (Z.of_nat (List.length s)), (s ++ 0 :: rest). rewrite Nat2Z.id, take_app_length.
  do 2 (split; [done|]). split; [by rewrite lookup_app_r, Nat.sub_diag by lia|].
  split; [done|]. by apply string2ll_spec.
Qed.

(** [ull2string] never stores outside its buffer: it prints exactly when the
    buffer has room for the digits and the terminator, and otherwise returns 0
    and leaves an empty string. *)
Theorem ull2string_bounds dst v :
  in_u 64 v ->
  exists d, digits10 v = Some (Z.of_nat d) /\ ndigits v d /\
    ull2string dst v =
      if decide (d < List.length dst)%nat
      then Some (Z.of_nat d, digits_n d v ++ 0 :: drop (S d) dst)
      else Some (0, match dst with [] => [] | _ :: r => 0 :: r end).
Proof.
  intros Hv. destruct (digits10_spec v Hv) as (d & Ed & Hd).
  destruct (ull2string_spec dst v Hv) as (d' & Hd' & Hs). exists d. do 2 (split; [done|]).
  assert (d' = d) as -> by (by apply (ndigits_unique v)).
  by destruct (decide (d < List.length dst)%nat).
Qed.

(** ** Witnesses *)

Lemma ll2string_roundtrip_witness :
  exists len dst', ll2string (replicate 32 170) (-9223372036854775808) = Some (len, dst') /\
    List.length dst' = 32%nat /\ dst' !! Z.to_nat len = Some 0 /\
    is_integer (-9223372036854775808) (take (Z.to_nat len) dst') /\
    string2ll (take (Z.to_nat len) dst') = Some (-9223372036854775808).
Proof. apply (ll2string_roundtrip (replicate 32 170) (-9223372036854775808)); [split; lia|done]. Defined.

Lemma ull2string_bounds_witness :
  exists d, digits10 1234 = Some (Z.of_nat d) /\ ndigits 1234 d /\
    ull2string [1; 1; 1; 1] 1234 =
      if decide (d < 4)%nat then Some (Z.of_nat d, digits_n d 1234 ++ 0 :: drop (S d) [1; 1; 1; 1])
      else Some (0, [0; 1; 1; 1]).
Proof. apply (ull2string_bounds [1; 1; 1; 1] 1234). split; lia. Defined.

Example string2ll_examples :
  (string2ll (chs "0"), string2ll (chs "-0"), string2ll (chs "007"), string2ll (chs "-42"),
   string2ll (chs "9223372036854775807"), string2ll (chs "9223372036854775808"))%string =
  (Some 0, None, None, Some (-42), Some 9223372036854775807, None).
Proof. vm_compute. reflexivity. Qed.

End Util.
