(* ===== verification/Glob.v ===== *)
(** Glob-style pattern matching ([stringmatchlen] of [src/util.c]), the matcher
    behind KEYS, SCAN MATCH, PSUBSCRIBE and ACL patterns. *)
From stdpp Require Import base numbers list.
From stdpp Require Import options.
From S2P Require Import Prelude.

Module Glob.

(** ** Operations *)

(** Characters are values of the C type [char]; a pattern is the list of its
    [patternLen] characters, followed in memory by a terminator, so the code's
    one read past the end sees a character that is not a star. *)
Definition star : Z := 42.
Definition quest : Z := 63.
Definition lbracket : Z := 91.
Definition rbracket : Z := 93.
Definition backslash : Z := 92.
Definition caret : Z := 94.
Definition dash : Z := 45.

(** [tolower] in the C locale. *)
Definition tolower (c : Z) : Z := if (65 <=? c) && (c <=? 90) then c + 32 else c.

Definition eqc (nocase : bool) (a b : Z) : bool :=
  if negb nocase then a =? b else tolower a =? tolower b.

(** The range test of a class. *)
Definition in_range (nocase : bool) (start end_ c : Z) : bool :=
  let '(start, end_) := if start >? end_ then (end_, start) else (start, end_) in
  let '(start, end_, c) :=
    if nocase then (tolower start, tolower end_, tolower c) else (start, end_, c) in
  (c >=? start) && (c <=? end_).

(** [while(1)] over the body of a class: the match flag and the pattern after
    the closing bracket. An unterminated class extends to the end of the
    pattern, where the code steps back once so that the common [pattern++]
    leaves nothing. *)
Fixpoint class_loop (pattern : list Z) (c : Z) (nocase mtch : bool) : bool * list Z :=
  match pattern with
  | [] => (mtch, [])
  | p0 :: r0 =>
    match r0 with
    | x :: r1 =>
      if p0 =? backslash then class_loop r1 c nocase (mtch || (x =? c))
      else if p0 =? rbracket then (mtch, r0)
      else
        match r1 with
        | e :: r2 =>
          if x =? dash then class_loop r2 c nocase (mtch || in_range nocase p0 e c)
          else class_loop r0 c nocase (mtch || eqc nocase p0 c)
        | [] => class_loop r0 c nocase (mtch || eqc nocase p0 c)
        end
    | [] =>
      if p0 =? rbracket then (mtch, [])
      else class_loop r0 c nocase (mtch || eqc nocase p0 c)
    end
  end.

(** One non-star element of the pattern against the character [c]: the rest of
    the pattern, or [None] for [return 0]. *)
Definition match_one (p0 : Z) (pr : list Z) (c : Z) (nocase : bool) : option (list Z) :=
  if p0 =? quest then Some pr
  else if p0 =? lbracket then
    let not := match pr with x :: _ => x =? caret | [] => false end in
    let body := if not then drop 1 pr else pr in
    let '(mtch, rest) := class_loop body c nocase false in
    if (if not then negb mtch else mtch) then Some rest else None
  else
    let '(p0, pr) :=
      if p0 =? backslash then match pr with x :: r => (x, r) | [] => (p0, []) end
      else (p0, pr) in
    if eqc nocase p0 c then Some pr else None.

Fixpoint skip_stars (pattern : list Z) : list Z :=
  match pattern with
  | p0 :: pr => if p0 =? star then skip_stars pr else pattern
  | [] => []
  end.

Definition is_nil {A} (l : list A) : bool := match l with [] => true | _ => false end.

(** [while(stringLen)] of the star case: [call] is the recursive call on the
    rest of the pattern. Returns the result and [*skipLongerMatches]. *)
Fixpoint star_loop (call : list Z -> bool -> option (bool * bool)) (string : list Z)
    (skip : bool) : option (bool * bool) :=
  match string with
  | [] => Some (false, true)
  | _ :: sr =>
    '(r, skip) ← call string skip;
    if (r : bool) then Some (true, skip)
    else if (skip : bool) then Some (false, skip)
    else star_loop call sr skip
  end.

(** The main loop. Every iteration and every recursive call consumes a pattern
    character, so [S (length pattern)] is enough fuel. *)
Fixpoint match_loop (fuel : nat) (pattern string : list Z) (nocase skip : bool)
    (nesting : Z) : option (bool * bool) :=
  match fuel with
  | O => None
  | S fuel =>
    match pattern, string with
    | p0 :: pr, c :: sr =>
      if p0 =? star then
        let pr := skip_stars pr in
        if is_nil pr then Some (true, skip)
        else
          star_loop (fun string skip =>
            if nesting + 1 >? 1000 then Some (false, skip)
            else match_loop fuel pr string nocase skip (nesting + 1)) string skip
      else
        match match_one p0 pr c nocase with
        | None => Some (false, skip)
        | Some pr =>
          if is_nil sr then Some (is_nil (skip_stars pr), skip)
          else match_loop fuel pr sr nocase skip nesting
        end
    | _, _ => Some (is_nil pattern && is_nil string, skip)
    end
  end.

Definition stringmatchlen_impl (pattern string : list Z) (nocase skip : bool)
    (nesting : Z) : option (bool * bool) :=
  if nesting >? 1000 then Some (false, skip)
  else match_loop (S (length pattern)) pattern string nocase skip nesting.

Definition stringmatchlen (pattern string : list Z) (nocase : bool) : option bool :=
  fst <$> stringmatchlen_impl pattern string nocase false 0.

(** The backward count of backslashes, on the reversed pattern. *)
Fixpoint backslashCount (rpattern : list Z) : Z :=
  match rpattern with
  | c :: r => if c =? backslash then 1 + backslashCount r else 0
  | [] => 0
  end.

Definition prefixmatch (pattern prefixStr : list Z) (nocase : bool) : option bool :=
  '(m, _) ← stringmatchlen_impl pattern prefixStr nocase false 0;
  if negb m then Some false
  else
    match reverse pattern with
    | [] => Some false
    | l :: r =>
      if negb (l =? star) then Some false else Some (backslashCount r `mod` 2 =? 0)
    end.

(** ** What a pattern means *)

(** The members a class lists; an escaped member ignores [nocase]. *)
Inductive citem := CExact (x : Z) | COne (x : Z) | CRange (a b : Z).

Fixpoint class_items (pattern : list Z) : list citem * list Z :=
  match pattern with
  | [] => ([], [])
  | p0 :: r0 =>
    match r0 with
    | x :: r1 =>
      if p0 =? backslash then let '(l, r) := class_items r1 in (CExact x :: l, r)
      else if p0 =? rbracket then ([], r0)
      else
        match r1 with
        | e :: r2 =>
          if x =? dash then let '(l, r) := class_items r2 in (CRange p0 e :: l, r)
          else let '(l, r) := class_items r0 in (COne p0 :: l, r)
        | [] => let '(l, r) := class_items r0 in (COne p0 :: l, r)
        end
    | [] =>
      if p0 =? rbracket then ([], [])
      else let '(l, r) := class_items r0 in (COne p0 :: l, r)
    end
  end.

(** The strings the pattern language denotes. *)
Section language.
Context (nocase : bool).

Definition item_matches (c : Z) (i : citem) : Prop :=
  match i with
  | CExact x => x = c
  | COne x => eqc nocase x c = true
  | CRange a b =>
    if nocase then tolower (Z.min a b) <= tolower c <= tolower (Z.max a b)
    else Z.min a b <= c <= Z.max a b
  end.

(** The element at the head of a pattern accepts [c] and leaves the rest. *)
Inductive accepts : list Z -> Z -> list Z -> Prop :=
| acc_any pr c : accepts (quest :: pr) c pr
| acc_class pr c items rest :
    (forall r, pr <> caret :: r) -> class_items pr = (items, rest) ->
    Exists (item_matches c) items -> accepts (lbracket :: pr) c rest
| acc_nclass pr c items rest :
    class_items pr = (items, rest) -> ~ Exists (item_matches c) items ->
    accepts (lbracket :: caret :: pr) c rest
| acc_escaped x pr c : eqc nocase x c = true -> accepts (backslash :: x :: pr) c pr
| acc_backslash c : eqc nocase backslash c = true -> accepts [backslash] c []
| acc_char x pr c :
    x <> star -> x <> quest -> x <> lbracket -> x <> backslash -> eqc nocase x c = true -> accepts (x :: pr) c pr.

Inductive denotes : list Z -> list Z -> Prop :=
| den_nil : denotes [] []
| den_star_none p s : denotes p s -> denotes (star :: p) s
| den_star_more p c s : denotes (star :: p) s -> denotes (star :: p) (c :: s)
| den_elem p c p' s : accepts p c p' -> denotes p' s -> denotes p (c :: s).
End language.

(** ** Classes *)

(** Induction on the length of a pattern. *)
Lemma length_ind {A} (P : list A -> Prop) :
  (forall l, (forall l', (length l' < length l)%nat -> P l') -> P l) -> forall l, P l.
Proof. intros H l. induction l using (well_founded_induction (well_founded_ltof _ length)). auto. Qed.

Lemma in_range_spec nocase a b c :
  in_range nocase a b c = true <-> item_matches nocase c (CRange a b).
Proof.
  unfold in_range, item_matches. rewrite Z.gtb_ltb.
  destruct (Z.ltb_spec b a), nocase; cbn [fst snd]; rewrite Z.geb_leb, andb_true_iff, !Z.leb_le;
    rewrite ?Z.min_l, ?Z.max_r, ?Z.min_r, ?Z.max_l by lia; tauto.
Qed.

Lemma class_loop_cons p0 r0 c nocase mtch :
  class_loop (p0 :: r0) c nocase mtch =
    match r0 with
    | x :: r1 =>
      if p0 =? backslash then class_loop r1 c nocase (mtch || (x =? c))
      else if p0 =? rbracket then (mtch, r0)
      else
        match r1 with
        | e :: r2 =>
          if x =? dash then class_loop r2 c nocase (mtch || in_range nocase p0 e c)
          else class_loop r0 c nocase (mtch || eqc nocase p0 c)
        | [] => class_loop r0 c nocase (mtch || eqc nocase p0 c)
        end
    | [] =>
      if p0 =? rbracket then (mtch, [])
      else class_loop r0 c nocase (mtch || eqc nocase p0 c)
    end.
Proof. reflexivity. Qed.

Lemma class_items_cons p0 r0 :
  class_items (p0 :: r0) =
    match r0 with
    | x :: r1 =>
      if p0 =? backslash then let '(l, r) := class_items r1 in (CExact x :: l, r)
      else if p0 =? rbracket then ([], r0)
      else
        match r1 with
        | e :: r2 =>
          if x =? dash then let '(l, r) := class_items r2 in (CRange p0 e :: l, r)
          else let '(l, r) := class_items r0 in (COne p0 :: l, r)
        | [] => let '(l, r) := class_items r0 in (COne p0 :: l, r)
        end
    | [] =>
      if p0 =? rbracket then ([], [])
      else let '(l, r) := class_items r0 in (COne p0 :: l, r)
    end.
Proof. reflexivity. Qed.

Lemma class_loop_spec nocase c p : forall m items rest,
  class_items p = (items, rest) ->
  exists b, class_loop p c nocase m = (b, rest) /\
    (b = true <-> m = true \/ Exists (item_matches nocase c) items).
Proof.
  induction p as [p IH] using length_ind. intros m items rest E.
  assert (forall q m i items' rest', (length q < length p)%nat ->
    (let '(l, r) := class_items q in (i :: l, r)) = (items', rest') ->
    exists b, class_loop q c nocase m = (b, rest') /\
      (b = true <-> m = true \/ Exists (item_matches nocase c) (tail items')) /\ head items' = Some i) as IH'.
  { intros q m' i items' rest' Hq Hi. destruct (class_items q) as [l r] eqn:Eq. injection Hi as <- <-.
    destruct (IH q Hq m' l r Eq) as (b & Hb & Hbi). exists b. done. }
  assert (forall q m' i, (length q < length p)%nat ->
    (let '(l, r) := class_items q in (i :: l, r)) = (items, rest) ->
    (m' = true <-> m = true \/ item_matches nocase c i) ->
    exists b, class_loop q c nocase m' = (b, rest) /\
    (b = true <-> m = true \/ Exists (item_matches nocase c) items)) as Hstep.
  { intros q m' i Hq Hi Hm. destruct (IH' q m' i items rest Hq Hi) as (b & Hb & Hbi & Hh).
    exists b. split; [done|]. destruct items as [|i' l]; [done|]. cbn in Hh. injection Hh as ->.
    rewrite Hbi, Hm, Exists_cons. cbn [tail]. tauto. }
  clear IH IH'. destruct p as [|p0 [|x [|e r2]]];
    try (rewrite (class_loop_cons p0); rewrite (class_items_cons p0) in E);
    cbv beta match in E |- *;
    repeat match goal with |- context [if ?b then _ else _] => destruct b eqn:? end;
    try (cbn in E; injection E as <- <-; eexists; split; [done|]; rewrite Exists_nil; tauto);
    (eapply Hstep; [cbn; lia|exact E|]; rewrite orb_true_iff; cbn [item_matches];
     rewrite ?in_range_spec, ?Z.eqb_eq; tauto).
Qed.

Lemma class_items_suffix p : forall items rest, class_items p = (items, rest) -> rest `suffix_of` p.
Proof.
  induction p as [p IH] using length_ind. intros items rest E.
  assert (forall q i k, (length q < length p)%nat -> p = k ++ q ->
    (let '(l, r) := class_items q in (i :: l, r)) = (items, rest) -> rest `suffix_of` p) as Hstep.
  { intros q i k Hq -> Hi. destruct (class_items q) as [l r] eqn:Eq. injection Hi as _ <-.
    apply suffix_app_r. by eapply IH. }
  clear IH. destruct p as [|p0 [|x [|e r2]]];
    try rewrite (class_items_cons p0) in E; cbv beta match in E;
    repeat match type of E with context [if ?b then _ else _] => destruct b eqn:? end;
    try (cbn in E; injection E as _ <-);
    first [done | apply suffix_nil | by exists [p0]
      | (eapply (Hstep _ _ [_]); [| |exact E]; [cbn; lia|done])
      | (eapply (Hstep _ _ [_; _]); [| |exact E]; [cbn; lia|done])
      | (eapply (Hstep _ _ [_; _; _]); [| |exact E]; [cbn; lia|done]) ].
Qed.

(** ** One element *)

Ltac inv_accepts H :=
  inversion H; subst; try done; try congruence;
  try (exfalso; match goal with Hn : forall r, _ :: _ <> _ :: r |- _ => by eapply Hn end).

Lemma match_one_spec nocase p0 pr c rest :
  p0 <> star -> match_one p0 pr c nocase = Some rest <-> accepts nocase (p0 :: pr) c rest.
Proof.
  intros Hs. unfold match_one. destruct (Z.eqb_spec p0 quest) as [->|Hq].
  { split; [intros [= ->]; constructor|]. intros H; inv_accepts H. }
  destruct (Z.eqb_spec p0 lbracket) as [->|Hl].
  { set (not := match pr with x :: _ => x =? caret | [] => false end).
    assert ((not = true /\ exists r, pr = caret :: r) \/ (not = false /\ forall r, pr <> caret :: r)) as Hnot.
    { subst not. destruct pr as [|x r]; [by right|].
      destruct (Z.eqb_spec x caret) as [->|]; [left; eauto|right; split; [done|congruence]]. }
    clearbody not. destruct Hnot as [[-> [r ->]]|[-> Hnc]]; cbn [drop].
    - change (drop 0 r) with r. destruct (class_items r) as [items rest'] eqn:Ei.
      destruct (class_loop_spec nocase c r false items rest' Ei) as (b & -> & Hb).
      split.
      + destruct b; cbn; [done|]. intros [= ->]. econstructor; [done|].
        intros Hx. assert (false = true) by (apply Hb; auto). done.
      + intros H. inv_accepts H.
        destruct b; [|cbn; congruence]. destruct (proj1 Hb eq_refl); [done|congruence].
    - destruct (class_items pr) as [items rest'] eqn:Ei.
      destruct (class_loop_spec nocase c pr false items rest' Ei) as (b & -> & Hb).
      split.
      + destruct b; [|done]. intros [= ->]. econstructor; [done..|].
        destruct (proj1 Hb eq_refl); done.
      + intros H. inv_accepts H.
        assert (b = true) as -> by (apply Hb; right; congruence). cbn. congruence. }
  destruct (Z.eqb_spec p0 backslash) as [->|Hb].
  - destruct pr as [|x r].
    + destruct (eqc nocase backslash c) eqn:E; (split; [|intros H; inv_accepts H]);
        [|done]. intros [= <-]. by constructor.
    + destruct (eqc nocase x c) eqn:E; (split; [|intros H; inv_accepts H]);
        [|done]. intros [= <-]. by constructor.
  - destruct (eqc nocase p0 c) eqn:E; (split; [|intros H; inv_accepts H]);
      [|done]. intros [= <-]. by constructor.
Qed.

Lemma accepts_not_star nocase p c r : accepts nocase p c r -> exists p0 pr, p = p0 :: pr /\ p0 <> star.
Proof. intros H. inversion H; subst; eexists _, _; split; done. Qed.

Lemma accepts_suffix nocase p c r : accepts nocase p c r -> exists k, k <> [] /\ p = k ++ r.
Proof.
  intros H. inversion H; subst.
  - by exists [quest].
  - match goal with Hi : class_items _ = _ |- _ => apply class_items_suffix in Hi as [k ->] end. by exists (lbracket :: k).
  - match goal with Hi : class_items _ = _ |- _ => apply class_items_suffix in Hi as [k ->] end. by exists (lbracket :: caret :: k).
  - by exists [backslash; x].
  - by exists [backslash].
  - by exists [x].
Qed.

(** The rest of the pattern does not depend on the character. *)
Lemma match_one_rest nocase p0 pr c c' r r' :
  match_one p0 pr c nocase = Some r -> match_one p0 pr c' nocase = Some r' -> r = r'.
Proof.
  unfold match_one. destruct (p0 =? quest); [congruence|]. destruct (p0 =? lbracket).
  - set (not := match pr with x :: _ => x =? caret | [] => false end).
    set (body := if not then drop 1 pr else pr).
    destruct (class_items body) as [items rest] eqn:Ei.
    destruct (class_loop_spec nocase c body false items rest Ei) as (b & -> & _).
    destruct (class_loop_spec nocase c' body false items rest Ei) as (b' & -> & _).
    destruct not, b, b'; cbn; congruence.
  - destruct (if p0 =? backslash then _ else _) as [q qr].
    destruct (eqc nocase q c), (eqc nocase q c'); congruence.
Qed.

(** ** Stars *)

Lemma denotes_skip nocase p s :
  denotes nocase (star :: p) s <-> denotes nocase (star :: skip_stars p) s.
Proof.
  assert (forall p s, denotes nocase (star :: star :: p) s <-> denotes nocase (star :: p) s) as Hss.
  { clear. intros p s. split.
    - intros H. remember (star :: star :: p) as q eqn:Eq. revert p Eq.
      induction H as [|q s H IH|q c s H IH|q c q' s Ha]; intros p Eq; simplify_eq.
      + done.
      + apply den_star_more. eauto.
      + apply accepts_not_star in Ha as (?&?&?&?). congruence.
    - apply den_star_none. }
  induction p as [|p0 p IH]; cbn [skip_stars]; [done|].
  destruct (Z.eqb_spec p0 star) as [->|]; [|done]. by rewrite Hss.
Qed.

Lemma denotes_star_iff nocase p s :
  denotes nocase (star :: p) s <-> exists s', s' `suffix_of` s /\ denotes nocase p s'.
Proof.
  split.
  - intros H. remember (star :: p) as q eqn:Eq.
    induction H as [|q s H IH|q c s H IH|q c q' s Ha]; simplify_eq.
    + by exists s.
    + destruct (IH eq_refl) as (s' & ? & ?). exists s'. split; [by apply suffix_cons_r|done].
    + apply accepts_not_star in Ha as (?&?&?&?). congruence.
  - intros (s' & [k ->] & H). induction k; [by apply den_star_none|by apply den_star_more].
Qed.

Lemma denotes_nil nocase p : denotes nocase p [] <-> skip_stars p = [].
Proof.
  induction p as [|p0 p IH]; cbn [skip_stars]; [split; [done|intros; constructor]|].
  destruct (Z.eqb_spec p0 star) as [->|Hs].
  - rewrite <- IH, denotes_star_iff. split; [|exists []; done].
    by intros (s' & ->%suffix_nil_inv & H).
  - split; [|done]. intros H. inversion H; subst. done.
Qed.

Lemma denotes_elem nocase p0 p c s :
  p0 <> star ->
  denotes nocase (p0 :: p) (c :: s) <->
    exists r, match_one p0 p c nocase = Some r /\ denotes nocase r s.
Proof.
  intros Hs. split.
  - intros H. inversion H; subst; try done. eexists. split; [|done]. by apply match_one_spec.
  - intros (r & Hm & Hd). eapply den_elem; [|done]. by apply match_one_spec.
Qed.

(** The number of stars, a bound on the nesting of recursive calls. *)
Definition stars (p : list Z) : nat := length (filter (fun c => c = star) p).

Lemma stars_app a b : stars (a ++ b) = (stars a + stars b)%nat.
Proof. unfold stars. by rewrite filter_app, length_app. Qed.

Lemma skip_stars_length p : (length (skip_stars p) <= length p)%nat.
Proof. induction p as [|p0 p IH]; cbn; [done|]. case_match; cbn; lia. Qed.

Lemma skip_stars_stars p : (stars (skip_stars p) <= stars p)%nat.
Proof.
  induction p as [|p0 p IH]; cbn [skip_stars]; [done|]. case_match; [|done].
  change (p0 :: p) with ([p0] ++ p). rewrite stars_app. lia.
Qed.

Lemma skip_stars_head p p0 pr : skip_stars p = p0 :: pr -> p0 <> star.
Proof.
  induction p as [|x p IH]; cbn [skip_stars]; [done|].
  destruct (Z.eqb_spec x star); [done|congruence].
Qed.

Lemma match_one_shrinks nocase p0 pr c r :
  p0 <> star -> match_one p0 pr c nocase = Some r ->
  (length r <= length pr)%nat /\ (stars r <= stars (p0 :: pr))%nat.
Proof.
  intros Hs [k [Hk E]]%match_one_spec%accepts_suffix; [|done].
  rewrite E, stars_app. apply (f_equal length) in E. rewrite length_app in E.
  destruct k; [done|]. cbn in E. lia.
Qed.

(** ** The main loop *)

Lemma is_nil_true {A} (l : list A) : is_nil l = true <-> l = [].
Proof. by destruct l. Qed.

(** Enough fuel: the matcher always returns. *)
Lemma match_loop_total nocase fuel : forall p s skip n,
  (length p < fuel)%nat -> is_Some (match_loop fuel p s nocase skip n).
Proof.
  induction fuel as [|fuel IH]; intros p s skip n Hf; [lia|]. cbn [match_loop].
  destruct p as [|p0 pr], s as [|c sr]; try (eexists; done). cbn in Hf.
  destruct (Z.eqb_spec p0 star) as [->|Hs].
  - destruct (is_nil (skip_stars pr)); [eexists; done|].
    pose proof (skip_stars_length pr).
    assert (forall s skip, is_Some (if n + 1 >? 1000 then Some (false, skip)
      else match_loop fuel (skip_stars pr) s nocase skip (n + 1))) as Hcall.
    { intros. case_match; [eexists; done|]. apply IH. lia. }
    generalize (c :: sr) as s. intros s. revert skip. induction s as [|x s IHs]; intros skip; cbn [star_loop].
    + eexists; done.
    + destruct (Hcall (x :: s) skip) as [[r sk] ->]. mred. destruct r; [eexists; done|].
      destruct sk; [eexists; done|]. apply IHs.
  - destruct (match_one _ _ _ _) as [r|] eqn:Em; [|eexists; done].
    apply match_one_shrinks in Em as [Hl _]; [|done].
    destruct (is_nil sr); [eexists; done|]. apply IH. lia.
Qed.

Lemma match_loop_sound nocase fuel : forall p s skip n sk,
  match_loop fuel p s nocase skip n = Some (true, sk) -> denotes nocase p s.
Proof.
  induction fuel as [|fuel IH]; intros p s skip n sk; [done|]. cbn [match_loop].
  destruct p as [|p0 pr], s as [|c sr]; try done; [intros _; constructor|].
  destruct (Z.eqb_spec p0 star) as [->|Hs].
  - destruct (is_nil (skip_stars pr)) eqn:En.
    + intros _. rewrite denotes_skip. apply is_nil_true in En as ->.
      apply denotes_star_iff. exists []. split; [apply suffix_nil|constructor].
    + intros H. rewrite denotes_skip. apply denotes_star_iff.
      revert skip H. generalize (c :: sr) as s. induction s as [|x s IHs]; intros skip; cbn [star_loop]; [done|].
      destruct (if n + 1 >? 1000 then _ else _) as [[r sk']|] eqn:Ec; [|done]. mred.
      destruct r.
      * intros _. exists (x :: s). split; [done|]. destruct (n + 1 >? 1000); [done|]. by eapply IH.
      * destruct sk'; [done|]. intros (s' & ? & ?)%IHs. exists s'. split; [by apply suffix_cons_r|done].
  - destruct (match_one _ _ _ _) as [r|] eqn:Em; [|done]. rewrite denotes_elem by done.
    destruct (is_nil sr) eqn:En.
    + apply is_nil_true in En as ->. intros [= Hn%is_nil_true _]. exists r. split; [done|]. by apply denotes_nil.
    + intros H. exists r. split; [done|]. by eapply IH.
Qed.

(** Nothing at or after [s] matches: what [*skipLongerMatches] records. *)
Definition hopeless (nocase : bool) (p s : list Z) : Prop :=
  forall s', s' `suffix_of` s -> ~ denotes nocase p s'.

Lemma hopeless_cons nocase p c s :
  hopeless nocase p s -> ~ denotes nocase p (c :: s) -> hopeless nocase p (c :: s).
Proof. intros H Hc [|x s'] Hs'; [apply H, suffix_nil|].
  apply suffix_cons_inv in Hs' as [->|Hs']; [done|by apply H]. Qed.

Lemma hopeless_star nocase p s : hopeless nocase p s -> hopeless nocase (star :: p) s.
Proof.
  intros H s' Hs' (s'' & Hs'' & Hd)%denotes_star_iff. apply (H s''); [|done]. by etrans.
Qed.

(** A failure is final, and the flag tells the truth: this is why giving up on
    longer matches of the earlier stars loses no match. *)
Lemma match_loop_complete nocase fuel : forall p s n sk,
  n + Z.of_nat (stars p) <= 1000 -> s <> [] ->
  match_loop fuel p s nocase false n = Some (false, sk) ->
  ~ denotes nocase p s /\ (sk = true -> hopeless nocase p s).
Proof.
  induction fuel as [|fuel IH]; intros p s n sk Hn Hs; [done|]. cbn [match_loop].
  destruct s as [|c sr]; [done|]. destruct p as [|p0 pr].
  { intros [= <-]. split; [|done]. intros H; inversion H; subst. by edestruct accepts_not_star as (?&?&?&?). }
  destruct (Z.eqb_spec p0 star) as [->|Hp0].
  - destruct (is_nil (skip_stars pr)) eqn:En; [done|]. intros H.
    assert (hopeless nocase (skip_stars pr) (c :: sr)) as Hh.
    { change (star :: pr) with ([star] ++ pr) in Hn. rewrite stars_app in Hn.
      change (stars [star]) with 1%nat in Hn. pose proof (skip_stars_stars pr).
      assert (n + 1 >? 1000 = false) as Hgt by (rewrite Z.gtb_ltb; apply Z.ltb_ge; lia).
      rewrite Hgt in H. revert H. generalize (c :: sr) as s.
      induction s as [|x s IHs]; cbn [star_loop].
      - intros _ s' ->%suffix_nil_inv Hd. apply denotes_nil in Hd.
        destruct (skip_stars pr) as [|y r] eqn:Ey; [done|]. cbn [skip_stars] in Hd.
        pose proof (skip_stars_head _ _ _ Ey).
        rewrite (proj2 (Z.eqb_neq y star)) in Hd by done. done.
      - destruct (match_loop fuel _ _ _ _ _) as [[r sk']|] eqn:Em; [|done]. mred.
        destruct r; [done|]. apply IH in Em as [Hnd Hsk]; [|lia|done].
        destruct sk'; [by intros _; apply Hsk|]. intros H. apply hopeless_cons; [by apply IHs|done]. }
    split.
    + rewrite denotes_skip. intros Hd. by apply (hopeless_star _ _ _ Hh _ (reflexivity _)).
    + intros _ s' Hs' Hd. rewrite denotes_skip in Hd. by apply (hopeless_star _ _ _ Hh s').
  - assert (forall s', s' `suffix_of` c :: sr -> denotes nocase (p0 :: pr) s' ->
      exists c' s'' r, s' = c' :: s'' /\ s'' `suffix_of` sr /\
        match_one p0 pr c' nocase = Some r /\ denotes nocase r s'') as Hinv.
    { intros [|c' s''] Hsuf Hd.
      - apply denotes_nil in Hd. cbn [skip_stars] in Hd.
        rewrite (proj2 (Z.eqb_neq p0 star)) in Hd by done. done.
      - apply denotes_elem in Hd as (r & ? & ?); [|done]. exists c', s'', r.
        split; [done|]. split; [|done].
        apply suffix_cons_inv in Hsuf as [[= <- <-]|[k ->]]; [done|]. by exists (k ++ [c']); rewrite <- (assoc_L (++)). }
    destruct (match_one p0 pr c nocase) as [r|] eqn:Em.
    2: { intros [= <-]. split; [|done]. rewrite denotes_elem by done. rewrite Em. naive_solver. }
    destruct (is_nil sr) eqn:En.
    { apply is_nil_true in En as ->. intros [= Hr <-]. split; [|done].
      rewrite denotes_elem by done. rewrite Em. intros (r' & [= <-] & Hd%denotes_nil).
      rewrite Hd in Hr. done. }
    pose proof (match_one_shrinks _ _ _ _ _ Hp0 Em) as [_ Hst].
    intros [Hnd Hsk]%IH; [|lia|by destruct sr]. split.
    + rewrite denotes_elem by done. rewrite Em. naive_solver.
    + intros ->. specialize (Hsk eq_refl). intros s' Hs' Hd.
      destruct (Hinv s' Hs' Hd) as (c' & s'' & r' & -> & Hsuf & Em' & Hd').
      rewrite (match_one_rest _ _ _ _ _ _ _ Em Em') in Hsk. by eapply Hsk.
Qed.

(** ** The theorems *)

Lemma stringmatchlen_impl_spec p s nocase :
  (stars p <= 1000)%nat ->
  exists b sk, stringmatchlen_impl p s nocase false 0 = Some (b, sk) /\
    (b = true <-> denotes nocase p s /\ (s = [] -> p = [])).
Proof.
  intros Hst. unfold stringmatchlen_impl. cbn [Z.gtb Z.compare].
  destruct (match_loop_total nocase (S (length p)) p s false 0) as [[b sk] E]; [lia|].
  rewrite E. exists b, sk. split; [done|]. split.
  - intros ->. split; [by eapply match_loop_sound|]. intros ->. cbn in E. by destruct p.
  - intros [Hd Hnil]. destruct b; [done|exfalso]. destruct (decide (s = [])) as [->|Hs].
    + rewrite (Hnil eq_refl) in E. done.
    + apply match_loop_complete in E as [Hn _]; [done|lia|done].
Qed.

(** C40: Glob matching decides the pattern language: with at most 1000 stars the
    matcher returns, and answers 1 exactly for the strings the pattern denotes
    (the empty string being matched by the empty pattern only). In particular
    abandoning longer matches of earlier stars never loses a match. *)
Theorem stringmatchlen_correct p s nocase :
  (stars p <= 1000)%nat ->
  exists b, stringmatchlen p s nocase = Some b /\
    (b = true <-> denotes nocase p s /\ (s = [] -> p = [])).
Proof.
  intros Hst. destruct (stringmatchlen_impl_spec p s nocase Hst) as (b & sk & E & Hb).
  exists b. unfold stringmatchlen. by rewrite E.
Qed.

(** For every pattern, however nested, a reported match is a real one. *)
Theorem stringmatchlen_sound p s nocase :
  exists b, stringmatchlen p s nocase = Some b /\ (b = true -> denotes nocase p s).
Proof.
  unfold stringmatchlen, stringmatchlen_impl. cbn [Z.gtb Z.compare].
  destruct (match_loop_total nocase (S (length p)) p s false 0) as [[b sk] E]; [lia|].
  rewrite E. exists b. split; [done|]. intros ->. by eapply match_loop_sound.
Qed.

(** ** Prefix matching *)

(** The pattern ends with a star preceded by an even run of backslashes. *)
Definition ends_star (p : list Z) : Prop :=
  exists q k, p = q ++ replicate (2 * k) backslash ++ [star] /\ last q <> Some backslash.

Lemma backslashCount_spec r :
  exists k q, r = replicate k backslash ++ q /\ head q <> Some backslash /\
    backslashCount r = Z.of_nat k.
Proof.
  induction r as [|c r (k & q & -> & Hq & Hk)]; [by exists 0%nat, []|]. cbn [backslashCount].
  destruct (Z.eqb_spec c backslash) as [->|Hc].
  - exists (S k), q. split; [done|]. split; [done|]. lia.
  - exists 0%nat, (c :: replicate k backslash ++ q). split; [done|]. split; [cbn; congruence|done].
Qed.

Lemma ends_star_tail x p : x <> backslash -> x <> star \/ p <> [] -> ends_star (x :: p) -> ends_star p.
Proof.
  intros Hx Hs ([|y q] & k & E & Hq).
  - destruct k as [|k]; [cbn in E; naive_solver|]. replace (2 * S k)%nat with (S (S (2 * k))) in E by lia.
    cbn in E. congruence.
  - cbn in E. injection E as -> ->. exists q, k. split; [done|]. destruct q; [done|exact Hq].
Qed.

Lemma ends_star_escaped x p : ends_star (backslash :: x :: p) -> ends_star p.
Proof.
  intros ([|y [|z q]] & k & E & Hq).
  - destruct k as [|k]; [done|]. replace (2 * S k)%nat with (S (S (2 * k))) in E by lia.
    cbn [app replicate] in E. injection E as -> ->. by exists [], k.
  - exfalso. apply Hq. cbn in E |- *. congruence.
  - cbn in E. injection E as E1 E2 E3. subst. exists q, k. split; [done|]. destruct q; [done|exact Hq].
Qed.

Lemma denotes_extend nocase p s t :
  denotes nocase p s -> lbracket ∉ p -> ends_star p -> denotes nocase p (s ++ t).
Proof.
  induction 1 as [|p s Hd IH|p c s Hd IH|p c p' s Ha Hd IH]; intros Hb He.
  - destruct He as (q & k & E & _). apply (f_equal length) in E.
    rewrite !length_app in E. cbn in E. lia.
  - destruct p as [|x p].
    + inversion Hd; [|by edestruct accepts_not_star as (?&?&?&?)]. cbn.
      apply denotes_star_iff. exists []. split; [apply suffix_nil|constructor].
    + apply den_star_none, IH; [set_solver|]. apply (ends_star_tail star); [done|by right|done].
  - apply den_star_more. auto.
  - assert (ends_star p').
    { inversion Ha; subst; try (by exfalso; apply Hb; left).
      - by apply (ends_star_tail quest); [done|left|].
      - by eapply ends_star_escaped.
      - destruct He as (q & k & E & _). apply (f_equal last) in E.
        rewrite (assoc_L (++)), last_snoc in E. done.
      - by apply (ends_star_tail x); [done|left|]. }
    eapply den_elem; [done|]. apply IH; [|done].
    apply accepts_suffix in Ha as (k & _ & ->). set_solver.
Qed.

(** For patterns without a character class, a positive answer of
    [prefixmatch] means what it promises: every string that starts with the
    prefix is matched by the pattern. *)
Theorem prefixmatch_sound p s nocase :
  lbracket ∉ p -> prefixmatch p s nocase = Some true ->
  forall t, denotes nocase p (s ++ t).
Proof.
  intros Hb H t. unfold prefixmatch, stringmatchlen_impl in H. cbn [Z.gtb Z.compare] in H.
  destruct (match_loop (S (length p)) p s nocase false 0) as [[b sk]|] eqn:E; [|done].
  cbn in H. destruct b; [|done]. cbn in H. apply match_loop_sound in E.
  apply denotes_extend; [done|done|].
  destruct (reverse p) as [|l r] eqn:Er; [done|]. destruct (Z.eqb_spec l star) as [->|]; [|done].
  cbn in H. injection H as H%Z.eqb_eq.
  destruct (backslashCount_spec r) as (k & q & -> & Hq & Hk). rewrite Hk in H.
  exists (reverse q), (Z.to_nat (Z.of_nat k `div` 2)).
  assert (2 * Z.to_nat (Z.of_nat k `div` 2) = k)%nat as -> by dlia.
  split; [|by rewrite last_reverse].
  rewrite <- (reverse_involutive p), Er, reverse_cons, reverse_app, reverse_replicate.
  by rewrite <- (assoc_L (++)).
Qed.

(** With an unterminated class that test is fooled: the final star of the
    pattern [[*] is a member of the class, yet [prefixmatch] takes it for a
    trailing wildcard and promises that the pattern matches every string
    starting with a star, which it does not. *)
Theorem prefixmatch_open_class :
  prefixmatch [lbracket; star] [star] false = Some true /\
  stringmatchlen [lbracket; star] [star; star] false = Some false.
Proof. split; vm_compute; reflexivity. Qed.

(** ** Witnesses *)

(** [h[^a-c]\**x] *)
Definition ex_pattern : list Z := [104; 91; 94; 97; 45; 99; 93; 92; 42; 42; 120].

Lemma stringmatchlen_correct_witness :
  exists b, stringmatchlen ex_pattern [104; 100; 42; 49; 50; 120] false = Some b /\
    (b = true <-> denotes false ex_pattern [104; 100; 42; 49; 50; 120] /\
      ([104; 100; 42; 49; 50; 120] = [] -> ex_pattern = [])).
Proof.
  apply (stringmatchlen_correct ex_pattern [104; 100; 42; 49; 50; 120] false).
  vm_compute. lia.
Defined.

Lemma prefixmatch_sound_witness : denotes false [97; 42] ([97; 98] ++ [99; 42]).
Proof. apply (prefixmatch_sound [97; 42] [97; 98] false); [|done]. set_solver. Defined.

Example stringmatchlen_examples :
  stringmatchlen ex_pattern [104; 100; 42; 49; 50; 120] false = Some true /\
  stringmatchlen ex_pattern [104; 98; 42; 49; 50; 120] false = Some false /\
  stringmatchlen ex_pattern [72; 68; 42; 88] true = Some true /\
  stringmatchlen [star] [] false = Some false.
Proof. vm_compute. done. Qed.

End Glob.
