(* ===== verification/Listpack.v ===== *)
(** Listpacks ([src/listpack.c]): a list of strings and integers serialised in
    one block, traversable from both ends. *)
From Stdlib Require Import String.
From stdpp Require Import base numbers list.
From stdpp Require Import options.
From S2P Require Import Prelude Util.

Module Listpack.
Import Util.

(** A listpack is the block that holds it; a pointer into it is an offset and a
    [NULL] pointer is [None]. The header is the total number of bytes (32 bits)
    and the number of elements (16 bits, all ones when unknown). *)

(** ** Constants and macros *)

Definition LP_HDR_SIZE : Z := 6.
Definition LP_HDR_NUMELE_UNKNOWN : Z := 65535.
Definition LP_INTBUF_SIZE : Z := 21.
Definition LP_EOF : Z := 255.
Definition LISTPACK_MAX_SAFETY_SIZE : Z := 1073741824.

Definition LP_ENCODING_6BIT_STR : Z := 128.
Definition LP_ENCODING_13BIT_INT : Z := 192.
Definition LP_ENCODING_12BIT_STR : Z := 224.
Definition LP_ENCODING_16BIT_INT : Z := 241.
Definition LP_ENCODING_24BIT_INT : Z := 242.
Definition LP_ENCODING_32BIT_INT : Z := 243.
Definition LP_ENCODING_64BIT_INT : Z := 244.
Definition LP_ENCODING_32BIT_STR : Z := 240.

Definition LP_ENCODING_IS_7BIT_UINT (b : Z) : bool := Z.land b 128 =? 0.
Definition LP_ENCODING_IS_6BIT_STR (b : Z) : bool := Z.land b 192 =? LP_ENCODING_6BIT_STR.
Definition LP_ENCODING_IS_13BIT_INT (b : Z) : bool := Z.land b 224 =? LP_ENCODING_13BIT_INT.
Definition LP_ENCODING_IS_12BIT_STR (b : Z) : bool := Z.land b 240 =? LP_ENCODING_12BIT_STR.
Definition LP_ENCODING_IS_16BIT_INT (b : Z) : bool := Z.land b 255 =? LP_ENCODING_16BIT_INT.
Definition LP_ENCODING_IS_24BIT_INT (b : Z) : bool := Z.land b 255 =? LP_ENCODING_24BIT_INT.
Definition LP_ENCODING_IS_32BIT_INT (b : Z) : bool := Z.land b 255 =? LP_ENCODING_32BIT_INT.
Definition LP_ENCODING_IS_64BIT_INT (b : Z) : bool := Z.land b 255 =? LP_ENCODING_64BIT_INT.
Definition LP_ENCODING_IS_32BIT_STR (b : Z) : bool := Z.land b 255 =? LP_ENCODING_32BIT_STR.

(** [p[0] | p[1]<<8 | ...] over the [n] bytes at [p]. *)
Fixpoint lor_bytes (m : mem) (p : Z) (shift : Z) (n : nat) : option Z :=
  match n with
  | O => Some 0
  | S n => b ← rd m p; r ← lor_bytes m (p + 1) (shift + 8) n;
    Some (Z.lor (Z.shiftl b shift) r)
  end.

Definition LP_ENCODING_6BIT_STR_LEN (lp : mem) (p : Z) : option Z :=
  b ← rd lp p; Some (Z.land b 63).
Definition LP_ENCODING_12BIT_STR_LEN (lp : mem) (p : Z) : option Z :=
  b0 ← rd lp p; b1 ← rd lp (p + 1); Some (Z.lor (Z.shiftl (Z.land b0 15) 8) b1).
Definition LP_ENCODING_32BIT_STR_LEN (lp : mem) (p : Z) : option Z :=
  lor_bytes lp (p + 1) 0 4.

Definition lpGetTotalBytes (lp : mem) : option Z := lor_bytes lp 0 0 4.
Definition lpGetNumElements (lp : mem) : option Z := lor_bytes lp 4 0 2.

Definition lpSetTotalBytes (lp : mem) (v : Z) : option mem :=
  memwrite lp 0 [Z.land v 255; Z.land (Z.shiftr v 8) 255;
    Z.land (Z.shiftr v 16) 255; Z.land (Z.shiftr v 24) 255].
Definition lpSetNumElements (lp : mem) (v : Z) : option mem :=
  memwrite lp 4 [Z.land v 255; Z.land (Z.shiftr v 8) 255].

Definition lpBytes := lpGetTotalBytes.

Definition ASSERT_INTEGRITY (lp : mem) (p : Z) : option unit :=
  total ← lpGetTotalBytes lp; cassert ((p >=? LP_HDR_SIZE) && (p <? total)).
Definition ASSERT_INTEGRITY_LEN (lp : mem) (p len : Z) : option unit :=
  total ← lpGetTotalBytes lp; cassert ((p >=? LP_HDR_SIZE) && (p + len <? total)).

Definition lpSafeToAdd (lp : option mem) (add : Z) : option bool :=
  len ← match lp with Some lp => lpGetTotalBytes lp | None => Some 0 end;
  Some (negb (u64 (len + add) >? LISTPACK_MAX_SAFETY_SIZE)).

(** ** Encoding *)

(** A copy of [string2ll] of util.c on 64-bit integers. *)
Definition lpStringToInt64 (s : list Z) : option Z :=
  let slen := msize s in
  if (slen =? 0) || (slen >=? LONG_STR_SIZE) then None
  else
    match s with
    | [] => None
    | c0 :: s' =>
      if (slen =? 1) && (c0 =? zero) then Some 0
      else
        let negative := c0 =? minus in
        match (if negative then s' else s) with
        | [] => None
        | c :: p =>
          if (c >=? zero + 1) && (c <=? nine) then
            '(v, rest) ← string2ll_loop p (c - zero);
            match (rest : list Z) with
            | _ :: _ => None
            | [] =>
              if negative then
                if v >? u64 (u64 (- (INT64_MIN + 1)) + 1) then None
                else Some (i64 (u64 (- v)))
              else if v >? INT64_MAX then None else Some v
            end
          else None
        end
    end.

(** The bytes stored in [intenc]; [*enclen] is their number. *)
Definition lpEncodeIntegerGetType (v : Z) : list Z :=
  if (v >=? 0) && (v <=? 127) then [u8 v]
  else if (v >=? -4096) && (v <=? 4095) then
    let v := if v <? 0 then Z.shiftl 1 13 + v else v in
    [u8 (Z.lor (Z.shiftr v 8) LP_ENCODING_13BIT_INT); Z.land v 255]
  else if (v >=? -32768) && (v <=? 32767) then
    let v := if v <? 0 then Z.shiftl 1 16 + v else v in
    [LP_ENCODING_16BIT_INT; Z.land v 255; u8 (Z.shiftr v 8)]
  else if (v >=? -8388608) && (v <=? 8388607) then
    let v := if v <? 0 then Z.shiftl 1 24 + v else v in
    [LP_ENCODING_24BIT_INT; Z.land v 255; Z.land (Z.shiftr v 8) 255; u8 (Z.shiftr v 16)]
  else if (v >=? -2147483648) && (v <=? 2147483647) then
    let v := if v <? 0 then Z.shiftl 1 32 + v else v in
    [LP_ENCODING_32BIT_INT; Z.land v 255; Z.land (Z.shiftr v 8) 255;
     Z.land (Z.shiftr v 16) 255; u8 (Z.shiftr v 24)]
  else
    let uv := u64 v in
    [LP_ENCODING_64BIT_INT; Z.land uv 255; Z.land (Z.shiftr uv 8) 255;
     Z.land (Z.shiftr uv 16) 255; Z.land (Z.shiftr uv 24) 255;
     Z.land (Z.shiftr uv 32) 255; Z.land (Z.shiftr uv 40) 255;
     Z.land (Z.shiftr uv 48) 255; u8 (Z.shiftr uv 56)].

Inductive enctype := LP_ENCODING_INT (intenc : list Z) | LP_ENCODING_STRING.

(** Returns the encoding, with [intenc] for an integer, and [*enclen]. *)
Definition lpEncodeGetType (ele : list Z) (size : Z) : enctype * Z :=
  match lpStringToInt64 ele with
  | Some v =>
    let intenc := lpEncodeIntegerGetType v in (LP_ENCODING_INT intenc, msize intenc)
  | None =>
    (LP_ENCODING_STRING,
     if size <? 64 then u32 (1 + size)
     else if size <? 4096 then u32 (2 + size) else 5 + size)
  end.

(** The bytes stored in [buf]; the function returns their number. *)
Definition lpEncodeBacklen (l : Z) : list Z :=
  if l <=? 127 then [u8 l]
  else if l <? 16383 then
    [u8 (Z.shiftr l 7); Z.lor (Z.land l 127) 128]
  else if l <? 2097151 then
    [u8 (Z.shiftr l 14); Z.lor (Z.land (Z.shiftr l 7) 127) 128; Z.lor (Z.land l 127) 128]
  else if l <? 268435455 then
    [u8 (Z.shiftr l 21); Z.lor (Z.land (Z.shiftr l 14) 127) 128;
     Z.lor (Z.land (Z.shiftr l 7) 127) 128; Z.lor (Z.land l 127) 128]
  else
    [u8 (Z.shiftr l 28); Z.lor (Z.land (Z.shiftr l 21) 127) 128;
     Z.lor (Z.land (Z.shiftr l 14) 127) 128; Z.lor (Z.land (Z.shiftr l 7) 127) 128;
     Z.lor (Z.land l 127) 128].

Definition lpEncodeBacklenBytes (l : Z) : Z :=
  if l <=? 127 then 1 else if l <? 16383 then 2 else if l <? 2097151 then 3
  else if l <? 268435455 then 4 else 5.

Definition lpDecodeBacklen (lp : mem) (p : Z) : option Z :=
  b0 ← rd lp p;
  if Z.land b0 128 =? 0 then Some (Z.land b0 127)
  else
    let val := Z.land b0 127 in
    b1 ← rd lp (p - 1);
    if Z.land b1 128 =? 0 then Some (Z.lor val (Z.shiftl (Z.land b1 127) 7))
    else
      let val := Z.lor val (Z.shiftl (Z.land b1 127) 7) in
      b2 ← rd lp (p - 2);
      if Z.land b2 128 =? 0 then Some (Z.lor val (Z.shiftl (Z.land b2 127) 14))
      else
        let val := Z.lor val (Z.shiftl (Z.land b2 127) 14) in
        b3 ← rd lp (p - 3);
        if Z.land b3 128 =? 0 then Some (Z.lor val (Z.shiftl (Z.land b3 127) 21))
        else
          let val := Z.lor val (Z.shiftl (Z.land b3 127) 21) in
          b4 ← rd lp (p - 4);
          if Z.land b4 128 =? 0 then Some (Z.lor val (Z.shiftl (Z.land b4 127) 28))
          else Some UINT64_MAX.

(** Stores [len] bytes of [s] with their header at [buf]. *)
Definition lpEncodeString (lp : mem) (buf : Z) (s : list Z) (len : Z) : option mem :=
  if len <? 64 then
    lp ← memwrite lp buf [Z.lor len LP_ENCODING_6BIT_STR];
    bs ← memread s 0 len; memwrite lp (buf + 1) bs
  else if len <? 4096 then
    lp ← memwrite lp buf [u8 (Z.lor (Z.shiftr len 8) LP_ENCODING_12BIT_STR); Z.land len 255];
    bs ← memread s 0 len; memwrite lp (buf + 2) bs
  else
    lp ← memwrite lp buf [LP_ENCODING_32BIT_STR; Z.land len 255;
      Z.land (Z.shiftr len 8) 255; Z.land (Z.shiftr len 16) 255; Z.land (Z.shiftr len 24) 255];
    bs ← memread s 0 len; memwrite lp (buf + 5) bs.

(** ** Traversal *)

Definition lpCurrentEncodedSizeUnsafe (lp : mem) (p : Z) : option Z :=
  e ← rd lp p;
  if LP_ENCODING_IS_7BIT_UINT e then Some 1
  else if LP_ENCODING_IS_6BIT_STR e then n ← LP_ENCODING_6BIT_STR_LEN lp p; Some (1 + n)
  else if LP_ENCODING_IS_13BIT_INT e then Some 2
  else if LP_ENCODING_IS_16BIT_INT e then Some 3
  else if LP_ENCODING_IS_24BIT_INT e then Some 4
  else if LP_ENCODING_IS_32BIT_INT e then Some 5
  else if LP_ENCODING_IS_64BIT_INT e then Some 9
  else if LP_ENCODING_IS_12BIT_STR e then n ← LP_ENCODING_12BIT_STR_LEN lp p; Some (2 + n)
  else if LP_ENCODING_IS_32BIT_STR e then
    n ← LP_ENCODING_32BIT_STR_LEN lp p; Some (u32 (5 + n))
  else if e =? LP_EOF then Some 1
  else Some 0.

Definition lpCurrentEncodedSizeBytes (encoding : Z) : Z :=
  if LP_ENCODING_IS_7BIT_UINT encoding then 1
  else if LP_ENCODING_IS_6BIT_STR encoding then 1
  else if LP_ENCODING_IS_13BIT_INT encoding then 1
  else if LP_ENCODING_IS_16BIT_INT encoding then 1
  else if LP_ENCODING_IS_24BIT_INT encoding then 1
  else if LP_ENCODING_IS_32BIT_INT encoding then 1
  else if LP_ENCODING_IS_64BIT_INT encoding then 1
  else if LP_ENCODING_IS_12BIT_STR encoding then 2
  else if LP_ENCODING_IS_32BIT_STR encoding then 5
  else if encoding =? LP_EOF then 1
  else 0.

Definition lpSkip (lp : mem) (p : Z) : option Z :=
  entrylen ← lpCurrentEncodedSizeUnsafe lp p;
  Some (p + (entrylen + lpEncodeBacklenBytes entrylen)).

Definition OUT_OF_RANGE (lpbytes p : Z) : bool := (p <? LP_HDR_SIZE) || (p >? lpbytes - 1).

(** Returns the result and [*pp]. *)
Definition lpValidateNext (lp : mem) (pp : option Z) (lpbytes : Z) : option (bool * option Z) :=
  match pp with
  | None => Some (false, pp)
  | Some p =>
    if OUT_OF_RANGE lpbytes p then Some (false, pp)
    else
      e ← rd lp p;
      if e =? LP_EOF then Some (true, None)
      else
        let lenbytes := lpCurrentEncodedSizeBytes e in
        if lenbytes =? 0 then Some (false, pp)
        else if OUT_OF_RANGE lpbytes (p + lenbytes) then Some (false, pp)
        else
          entrylen ← lpCurrentEncodedSizeUnsafe lp p;
          let encodedBacklen := lpEncodeBacklenBytes entrylen in
          let entrylen := entrylen + encodedBacklen in
          if OUT_OF_RANGE lpbytes (p + entrylen) then Some (false, pp)
          else
            let p := p + entrylen in
            prevlen ← lpDecodeBacklen lp (p - 1);
            if negb (u64 (prevlen + encodedBacklen) =? entrylen) then Some (false, pp)
            else Some (true, Some p)
  end.

Definition lpAssertValidEntry (lp : mem) (lpbytes p : Z) : option unit :=
  '(ok, _) ← lpValidateNext lp (Some p) lpbytes; cassert ok.

Definition lpNextWithBytes (lp : mem) (p lpbytes : Z) : option (option Z) :=
  p ← lpSkip lp p;
  e ← rd lp p;
  if e =? LP_EOF then Some None
  else _ ← lpAssertValidEntry lp lpbytes p; Some (Some p).

Definition lpNext (lp : mem) (p : Z) : option (option Z) :=
  p ← lpSkip lp p;
  e ← rd lp p;
  if e =? LP_EOF then Some None
  else bytes ← lpBytes lp; _ ← lpAssertValidEntry lp bytes p; Some (Some p).

Definition lpPrev (lp : mem) (p : Z) : option (option Z) :=
  if p =? LP_HDR_SIZE then Some None
  else
    let p := p - 1 in
    prevlen ← lpDecodeBacklen lp p;
    let prevlen := u64 (prevlen + lpEncodeBacklenBytes prevlen) in
    let p := p - (prevlen - 1) in
    bytes ← lpBytes lp; _ ← lpAssertValidEntry lp bytes p; Some (Some p).

Definition lpFirst (lp : mem) : option (option Z) :=
  let p := LP_HDR_SIZE in
  e ← rd lp p;
  if e =? LP_EOF then Some None
  else bytes ← lpBytes lp; _ ← lpAssertValidEntry lp bytes p; Some (Some p).

Definition lpLast (lp : mem) : option (option Z) :=
  total ← lpGetTotalBytes lp; lpPrev lp (total - 1).

(** [while(p) { count++; p = lpNext(lp,p); }]; every step advances by at least
    one byte, so the size of the block is enough fuel. *)
Fixpoint lpLength_loop (fuel : nat) (lp : mem) (p : option Z) (count : Z) : option Z :=
  match fuel with
  | O => None
  | S fuel =>
    match p with
    | Some p => p ← lpNext lp p; lpLength_loop fuel lp p (u32 (count + 1))
    | None => Some count
    end
  end.

(** Returns the length and the listpack, whose header may have been updated. *)
Definition lpLength (lp : mem) : option (Z * mem) :=
  numele ← lpGetNumElements lp;
  if negb (numele =? LP_HDR_NUMELE_UNKNOWN) then Some (numele, lp)
  else
    p ← lpFirst lp;
    count ← lpLength_loop (S (length lp)) lp p 0;
    lp ← (if count <? LP_HDR_NUMELE_UNKNOWN then lpSetNumElements lp count else Some lp);
    Some (count, lp).

Fixpoint lpSeek_forward (index : nat) (lp : mem) (ele : option Z) : option (option Z) :=
  match index, ele with
  | S index, Some p => ele ← lpNext lp p; lpSeek_forward index lp ele
  | _, _ => Some ele
  end.

(** [while (index < -1 && ele)], [index] counting the steps left. *)
Fixpoint lpSeek_backward (index : nat) (lp : mem) (ele : option Z) : option (option Z) :=
  match index, ele with
  | S index, Some p => ele ← lpPrev lp p; lpSeek_backward index lp ele
  | _, _ => Some ele
  end.

Definition lpSeek (lp : mem) (index : Z) : option (option Z) :=
  let forward index := ele ← lpFirst lp; lpSeek_forward (Z.to_nat index) lp ele in
  let backward index := ele ← lpLast lp; lpSeek_backward (Z.to_nat (-1 - index)) lp ele in
  numele ← lpGetNumElements lp;
  if negb (numele =? LP_HDR_NUMELE_UNKNOWN) then
    let index := if index <? 0 then numele + index else index in
    if index <? 0 then Some None
    else if index >=? numele then Some None
    else if index >? numele `quot` 2 then backward (index - numele)
    else forward index
  else if index <? 0 then backward index
  else forward index.

(** ** Reading an element *)

(** What [lpGet] returns: a pointer into the listpack with [*count] bytes, the
    caller's [intbuf] with the decimal of an integer, or [NULL] with the
    integer in [*count]. *)
Inductive lpvalue :=
  | VStr (off count : Z)
  | VBuf (buf : list Z) (count : Z)
  | VInt (val : Z).

(** The two ways to return an integer. *)
Definition int_result (val : Z) (intbuf : option (list Z)) : option lpvalue :=
  match intbuf with
  | Some buf =>
    '(count, buf) ← ll2string buf val; Some (VBuf buf count)
  | None => Some (VInt val)
  end.

(** The conversion of [uval] with two's complement. *)
Definition int_value (uval negstart negmax : Z) (intbuf : option (list Z)) : option lpvalue :=
  let val :=
    if uval >=? negstart then i64 (- i64 (u64 (negmax - uval)) - 1) else i64 uval in
  int_result val intbuf.

(** Also returns [*entry_size], which the last branch leaves alone. *)
Definition lpGetWithSize (lp : mem) (p : Z) (intbuf : option (list Z)) (entry_size : Z)
    : option (lpvalue * Z) :=
  e ← rd lp p;
  let int n negstart negmax entry_size :=
    uval ← lor_bytes lp (p + 1) 0 n;
    v ← int_value uval negstart negmax intbuf; Some (v, entry_size) in
  if LP_ENCODING_IS_7BIT_UINT e then
    v ← int_value (Z.land e 127) UINT64_MAX 0 intbuf; Some (v, 2)
  else if LP_ENCODING_IS_6BIT_STR e then
    count ← LP_ENCODING_6BIT_STR_LEN lp p;
    Some (VStr (p + 1) count, 1 + count + lpEncodeBacklenBytes (count + 1))
  else if LP_ENCODING_IS_13BIT_INT e then
    e1 ← rd lp (p + 1);
    v ← int_value (Z.lor (Z.shiftl (Z.land e 31) 8) e1) (Z.shiftl 1 12) 8191 intbuf; Some (v, 3)
  else if LP_ENCODING_IS_16BIT_INT e then int 2%nat (Z.shiftl 1 15) 65535 4
  else if LP_ENCODING_IS_24BIT_INT e then int 3%nat (Z.shiftl 1 23) (Z.shiftr UINT32_MAX 8) 5
  else if LP_ENCODING_IS_32BIT_INT e then int 4%nat (Z.shiftl 1 31) UINT32_MAX 6
  else if LP_ENCODING_IS_64BIT_INT e then int 8%nat (Z.shiftl 1 63) UINT64_MAX 10
  else if LP_ENCODING_IS_12BIT_STR e then
    count ← LP_ENCODING_12BIT_STR_LEN lp p;
    Some (VStr (p + 2) count, 2 + count + lpEncodeBacklenBytes (count + 2))
  else if LP_ENCODING_IS_32BIT_STR e then
    count ← LP_ENCODING_32BIT_STR_LEN lp p;
    Some (VStr (p + 5) count, 5 + count + lpEncodeBacklenBytes (count + 5))
  else
    v ← int_value (u64 (12345678900000000 + e)) UINT64_MAX 0 intbuf; Some (v, entry_size).

Definition lpGetWithBuf (lp : mem) (p : Z) (intbuf : option (list Z)) : option lpvalue :=
  encoding ← rd lp p;
  if LP_ENCODING_IS_6BIT_STR encoding then
    count ← LP_ENCODING_6BIT_STR_LEN lp p; Some (VStr (p + 1) count)
  else if LP_ENCODING_IS_12BIT_STR encoding then
    count ← LP_ENCODING_12BIT_STR_LEN lp p; Some (VStr (p + 2) count)
  else if LP_ENCODING_IS_32BIT_STR encoding then
    count ← LP_ENCODING_32BIT_STR_LEN lp p; Some (VStr (p + 5) count)
  else
    '(uval, negstart, negmax) ←
      (if LP_ENCODING_IS_7BIT_UINT encoding then Some (Z.land encoding 127, UINT64_MAX, 0)
       else if LP_ENCODING_IS_13BIT_INT encoding then
         e1 ← rd lp (p + 1);
         Some (Z.lor (Z.shiftl (Z.land encoding 31) 8) e1, Z.shiftl 1 12, 8191)
       else if LP_ENCODING_IS_16BIT_INT encoding then
         uval ← lor_bytes lp (p + 1) 0 2; Some (uval, Z.shiftl 1 15, 65535)
       else if LP_ENCODING_IS_24BIT_INT encoding then
         uval ← lor_bytes lp (p + 1) 0 3; Some (uval, Z.shiftl 1 23, Z.shiftr UINT32_MAX 8)
       else if LP_ENCODING_IS_32BIT_INT encoding then
         uval ← lor_bytes lp (p + 1) 0 4; Some (uval, Z.shiftl 1 31, UINT32_MAX)
       else if LP_ENCODING_IS_64BIT_INT encoding then
         uval ← lor_bytes lp (p + 1) 0 8; Some (uval, Z.shiftl 1 63, UINT64_MAX)
       else Some (u64 (12345678900000000 + encoding), UINT64_MAX, 0));
    int_value uval negstart negmax intbuf.

Definition lpGet := lpGetWithBuf.

(** The string with its length or the integer. *)
Definition lpGetValue (lp : mem) (p : Z) : option lpvalue :=
  v ← lpGet lp p None;
  match v with
  | VStr off count => Some (VStr off (u32 count))
  | v => Some v
  end.

Definition lpGetIntegerValue (lp : mem) (p : Z) : option (option Z) :=
  v ← lpGet lp p None;
  match v with VInt v => Some (Some v) | _ => Some None end.

(** Both [NULL] caches ([cached_valid == NULL]) and the caching form, whose
    state is [(cached_longval, cached_valid)]. *)
Definition lpCompare (lp : mem) (p : Z) (s : list Z) (cache : option (Z * Z))
    : option (bool * option (Z * Z)) :=
  e ← rd lp p;
  if e =? LP_EOF then Some (false, cache)
  else
    v ← lpGet lp p None;
    match v with
    | VStr off sz =>
      if msize s =? sz then
        value ← memread lp off sz; Some (bool_decide (value = s), cache)
      else Some (false, cache)
    | VInt sz | VBuf _ sz =>
      match cache with
      | Some (cached_longval, cached_valid) =>
        let '(cached_longval, cached_valid) :=
          if cached_valid =? 0 then
            match lpStringToInt64 s with
            | Some v => (v, 1)
            | None => (cached_longval, -1)
            end
          else (cached_longval, cached_valid) in
        Some ((cached_valid =? 1) && (sz =? cached_longval), Some (cached_longval, cached_valid))
      | None =>
        match lpStringToInt64 s with
        | Some sval => Some (sz =? sval, None)
        | None => Some (false, None)
        end
      end
    end.

(** ** Searching *)

Section find.
(** The comparator, with the caller's state: true for a result of zero. *)
Context {U : Type} (cmp : mem -> Z -> U -> lpvalue -> option (bool * U)).

Fixpoint lpFind_loop (fuel : nat) (lp : mem) (lp_bytes : Z) (p : Z) (user : U)
    (skip skipcnt entry_size : Z) : option (option Z) :=
  match fuel with
  | O => None
  | S fuel =>
    let next p user skipcnt entry_size :=
      _ ← (if p + 8 >=? lp_bytes then lpAssertValidEntry lp lp_bytes p
           else cassert ((p >=? LP_HDR_SIZE) && (p <? lp_bytes)));
      e ← rd lp p;
      if e =? LP_EOF then Some None
      else lpFind_loop fuel lp lp_bytes p user skip skipcnt entry_size in
    if skipcnt =? 0 then
      '(value, entry_size) ← lpGetWithSize lp p None entry_size;
      _ ← (match value with
           | VStr _ _ => cassert ((p >=? LP_HDR_SIZE) && (p + entry_size <? lp_bytes))
           | _ => Some ()
           end);
      '(found, user) ← cmp lp p user value;
      if (found : bool) then Some (Some p)
      else next (p + entry_size) user (i32 skip) entry_size
    else
      p ← lpSkip lp p; next p user (skipcnt - 1) entry_size
  end.

Definition lpFindCbInternal (lp : mem) (p : option Z) (user : U) (skip : Z)
    : option (option Z) :=
  lp_bytes ← lpBytes lp;
  p ← match p with Some p => Some (Some p) | None => lpFirst lp end;
  match p with
  | Some p => lpFind_loop (S (length lp)) lp (u32 lp_bytes) p user skip 0 123456789
  | None => Some None
  end.

Definition lpFindCb := lpFindCbInternal.
End find.

Record lpFindArg := mk_lpFindArg {
  fa_s : list Z;         (* s, with its length slen *)
  fa_vencoding : Z;
  fa_vll : Z
}.

Definition UCHAR_MAX : Z := 255.

Definition lpFindCmp (lp : mem) (p : Z) (arg : lpFindArg) (v : lpvalue)
    : option (bool * lpFindArg) :=
  match v with
  | VStr off slen =>
    if slen =? msize (fa_s arg) then
      bs ← memread lp off slen; Some (bool_decide (fa_s arg = bs), arg)
    else Some (false, arg)
  | VInt slen | VBuf _ slen =>
    let arg :=
      if fa_vencoding arg =? 0 then
        match (if (msize (fa_s arg) >=? 32) || (msize (fa_s arg) =? 0) then None
               else lpStringToInt64 (fa_s arg)) with
        | None => mk_lpFindArg (fa_s arg) UCHAR_MAX (fa_vll arg)
        | Some vll => mk_lpFindArg (fa_s arg) 1 vll
        end
      else arg in
    Some (negb (fa_vencoding arg =? UCHAR_MAX) && (slen =? fa_vll arg), arg)
  end.

Definition lpFind (lp : mem) (p : option Z) (s : list Z) (skip : Z) : option (option Z) :=
  lpFindCbInternal lpFindCmp lp p (mk_lpFindArg s 0 0) skip.

(** ** Modification *)

Inductive lpwhere := LP_BEFORE | LP_AFTER | LP_REPLACE.

Section alloc.
(** What the allocator leaves in fresh bytes. *)
Context (junk : nat -> Z).

(** The usable size of the block is its size: [lp_malloc_size]. *)
Definition lpNew (capacity : Z) : option mem :=
  let lp := zrealloc junk [] (if capacity >? LP_HDR_SIZE + 1 then capacity else LP_HDR_SIZE + 1) in
  lp ← lpSetTotalBytes lp (LP_HDR_SIZE + 1);
  lp ← lpSetNumElements lp 0;
  memwrite lp LP_HDR_SIZE [LP_EOF].

Definition lpShrinkToFit (lp : mem) : option mem :=
  size ← lpGetTotalBytes lp;
  Some (if size <? msize lp then zrealloc junk lp size else lp).

(** "Realloc before: we need more room" and "Realloc after: we need to free space". *)
Definition realloc_before (lp : mem) (new_listpack_bytes old_listpack_bytes : Z) : mem :=
  if (new_listpack_bytes >? old_listpack_bytes) && (new_listpack_bytes >? msize lp)
  then zrealloc junk lp new_listpack_bytes else lp.

Definition realloc_after (lp : mem) (new_listpack_bytes old_listpack_bytes : Z) : mem :=
  if new_listpack_bytes <? old_listpack_bytes then zrealloc junk lp new_listpack_bytes else lp.

(** "Store the entry": the encoded element and its backlen. *)
Definition store_entry (lp : mem) (dst : Z) (etype : enctype) (enclen : Z)
    (elestr : option (list Z)) (size : Z) (backlen : mem) : option mem :=
  lp ←
    match etype with
    | LP_ENCODING_INT intenc => enc ← memread intenc 0 enclen; memwrite lp dst enc
    | LP_ENCODING_STRING =>
      match elestr with
      | Some elestr => lpEncodeString lp dst elestr size
      | None => None (* redis_unreachable() *)
      end
    end;
  memwrite lp (dst + enclen) backlen.

Definition is_delete (elestr eleint : option (list Z)) : bool :=
  match elestr, eleint with None, None => true | _, _ => false end.

(** The encoding and [enclen] of the element given as [elestr] or [eleint]. *)
Definition insert_type (elestr eleint : option (list Z)) (size : Z) : option enctype * Z :=
  match elestr, eleint with
  | Some ele, _ => let '(t, n) := lpEncodeGetType ele size in (Some t, n)
  | None, Some enc => (Some (LP_ENCODING_INT enc), size)
  | None, None => (None, 0)
  end.

(** The element jumped over for [LP_AFTER], which becomes [LP_BEFORE]. *)
Definition insert_at (lp : mem) (p : Z) (where_ : lpwhere) : option (Z * lpwhere) :=
  match where_ with
  | LP_AFTER => p ← lpSkip lp p; _ ← ASSERT_INTEGRITY lp p; Some (p, LP_BEFORE)
  | w => Some (p, w)
  end.

Definition insert_replaced_len (lp : mem) (p : Z) (where_ : lpwhere) : option Z :=
  match where_ with
  | LP_REPLACE =>
    replaced_len ← lpCurrentEncodedSizeUnsafe lp p;
    let replaced_len := u32 (replaced_len + lpEncodeBacklenBytes replaced_len) in
    _ ← ASSERT_INTEGRITY_LEN lp p replaced_len; Some replaced_len
  | _ => Some 0
  end.

(** "Update header": the number of elements. *)
Definition insert_num (lp : mem) (where_ : lpwhere) (delete : bool) : option mem :=
  match where_, delete with
  | LP_REPLACE, false => Some lp
  | _, _ =>
    num_elements ← lpGetNumElements lp;
    if negb (num_elements =? LP_HDR_NUMELE_UNKNOWN) then
      if negb delete then lpSetNumElements lp (u32 (num_elements + 1))
      else lpSetNumElements lp (u32 (num_elements - 1))
    else Some lp
  end.

(** [elestr] and [eleint] are the byte strings they point to. [None] is a failed
    assertion; [Some None] the return value [NULL]; the other result is the new
    listpack with [*newp]. *)
Definition lpInsert (lp : mem) (elestr eleint : option (list Z)) (size : Z) (p : Z)
    (where_ : lpwhere) : option (option (mem * option Z)) :=
  let delete := is_delete elestr eleint in
  let where_ := if delete then LP_REPLACE else where_ in
  '(p, where_) ← insert_at lp p where_;
  let poff := p in
  let '(etype, enclen) := insert_type elestr eleint size in
  let backlen := if delete then [] else lpEncodeBacklen enclen in
  let backlen_size := msize backlen in
  old_listpack_bytes ← lpGetTotalBytes lp;
  replaced_len ← insert_replaced_len lp p where_;
  let new_listpack_bytes := u64 (old_listpack_bytes + enclen + backlen_size - replaced_len) in
  if new_listpack_bytes >? UINT32_MAX then Some None
  else
    let dst := poff in
    let lp := realloc_before lp new_listpack_bytes old_listpack_bytes in
    lp ←
      match where_ with
      | LP_BEFORE =>
        memmove lp (dst + enclen + backlen_size) dst (u64 (old_listpack_bytes - poff))
      | _ =>
        memmove lp (dst + enclen + backlen_size) (dst + replaced_len)
          (u64 (old_listpack_bytes - poff - replaced_len))
      end;
    let lp := realloc_after lp new_listpack_bytes old_listpack_bytes in
    newp ← (if delete then e ← rd lp dst; Some (if e =? LP_EOF then None else Some dst)
            else Some (Some dst));
    lp ← match etype with
         | None => Some lp
         | Some t => store_entry lp dst t enclen elestr size backlen
         end;
    lp ← insert_num lp where_ delete;
    lp ← lpSetTotalBytes lp new_listpack_bytes;
    Some (Some (lp, newp)).

Definition lpInsertString (lp : mem) (s : list Z) (p : Z) (where_ : lpwhere) :=
  lpInsert lp (Some s) None (msize s) p where_.

Definition lpInsertInteger (lp : mem) (lval : Z) (p : Z) (where_ : lpwhere) :=
  let intenc := lpEncodeIntegerGetType lval in
  lpInsert lp None (Some intenc) (msize intenc) p where_.

Definition lpAppend (lp : mem) (ele : list Z) :=
  listpack_bytes ← lpGetTotalBytes lp;
  let eofptr := listpack_bytes - 1 in
  lpInsert lp (Some ele) None (msize ele) eofptr LP_BEFORE.

Definition lpAppendInteger (lp : mem) (lval : Z) :=
  listpack_bytes ← lpGetTotalBytes lp;
  let eofptr := listpack_bytes - 1 in
  lpInsertInteger lp lval eofptr LP_BEFORE.

Definition lpPrepend (lp : mem) (s : list Z) :=
  p ← lpFirst lp;
  match p with
  | None => lpAppend lp s
  | Some p => lpInsert lp (Some s) None (msize s) p LP_BEFORE
  end.

Definition lpPrependInteger (lp : mem) (lval : Z) :=
  p ← lpFirst lp;
  match p with
  | None => lpAppendInteger lp lval
  | Some p => lpInsertInteger lp lval p LP_BEFORE
  end.

Definition lpReplace (lp : mem) (p : Z) (s : list Z) :=
  lpInsert lp (Some s) None (msize s) p LP_REPLACE.

Definition lpReplaceInteger (lp : mem) (p : Z) (lval : Z) :=
  lpInsertInteger lp lval p LP_REPLACE.

Definition lpDelete (lp : mem) (p : Z) := lpInsert lp None None 0 p LP_REPLACE.

(** An element to insert: a string, or an integer when [sval] is [NULL]. *)
Record listpackEntry := mk_listpackEntry { sval : option (list Z); lval : Z }.

Definition encode_entry (e : listpackEntry) : enctype * Z :=
  match sval e with
  | Some s => lpEncodeGetType s (msize s)
  | None => let intenc := lpEncodeIntegerGetType (lval e) in
    (LP_ENCODING_INT intenc, msize intenc)
  end.

(** The two loops over the entries of [lpBatchInsert]. *)
Fixpoint batch_addedlen (entries : list listpackEntry) : Z :=
  match entries with
  | [] => 0
  | e :: entries =>
    let '(_, enclen) := encode_entry e in
    enclen + msize (lpEncodeBacklen enclen) + batch_addedlen entries
  end.

Fixpoint batch_store (lp : mem) (dst : Z) (entries : list listpackEntry) (newp : option Z)
    : option (mem * option Z) :=
  match entries with
  | [] => Some (lp, newp)
  | e :: entries =>
    let '(etype, enclen) := encode_entry e in
    let backlen := lpEncodeBacklen enclen in
    lp ← store_entry lp dst etype enclen (sval e)
           match sval e with Some s => msize s | None => 0 end backlen;
    batch_store lp (dst + enclen + msize backlen) entries (Some dst)
  end.

Definition lpBatchInsert (lp : mem) (p : Z) (where_ : lpwhere) (entries : list listpackEntry)
    : option (option (mem * option Z)) :=
  let len := Z.of_nat (length entries) in
  _ ← cassert (match where_ with LP_REPLACE => false | _ => true end);
  _ ← cassert (len >? 0);
  p ← match where_ with
      | LP_AFTER => p ← lpSkip lp p; _ ← ASSERT_INTEGRITY lp p; Some p
      | _ => Some p
      end;
  let addedlen := batch_addedlen entries in
  old_listpack_bytes ← lpGetTotalBytes lp;
  let new_listpack_bytes := u64 (old_listpack_bytes + addedlen) in
  if new_listpack_bytes >? UINT32_MAX then Some None
  else
    let dst := p in
    let lp := realloc_before lp new_listpack_bytes old_listpack_bytes in
    lp ← memmove lp (dst + addedlen) dst (u64 (old_listpack_bytes - p));
    '(lp, newp) ← batch_store lp dst entries None;
    num_elements ← lpGetNumElements lp;
    lp ← (if negb (num_elements =? LP_HDR_NUMELE_UNKNOWN) then
            if len >? LP_HDR_NUMELE_UNKNOWN - num_elements
            then lpSetNumElements lp LP_HDR_NUMELE_UNKNOWN
            else lpSetNumElements lp (num_elements + len)
          else Some lp);
    lp ← lpSetTotalBytes lp new_listpack_bytes;
    Some (Some (lp, newp)).

Definition lpBatchAppend (lp : mem) (entries : list listpackEntry) :=
  listpack_bytes ← lpGetTotalBytes lp;
  lpBatchInsert lp (listpack_bytes - 1) LP_BEFORE entries.

(** [if (numele != LP_HDR_NUMELE_UNKNOWN) lpSetNumElements(lp,numele-deleted)] *)
Definition sub_num (lp : mem) (deleted : Z) : option mem :=
  numele ← lpGetNumElements lp;
  if negb (numele =? LP_HDR_NUMELE_UNKNOWN)
  then lpSetNumElements lp (u64 (numele - deleted)) else Some lp.

(** [while (num--)] of [lpDeleteRangeWithEntry]: yields [tail] and [deleted].
    Every step advances, so the size of the block is enough fuel. *)
Fixpoint delete_range_loop (fuel : nat) (lp : mem) (bytes tail num deleted : Z)
    : option (Z * Z) :=
  match fuel with
  | O => None
  | S fuel =>
    if num =? 0 then Some (tail, deleted)
    else
      let deleted := deleted + 1 in
      tail ← lpSkip lp tail;
      e ← rd lp tail;
      if e =? LP_EOF then Some (tail, deleted)
      else
        _ ← lpAssertValidEntry lp bytes tail;
        delete_range_loop fuel lp bytes tail (num - 1) deleted
  end.

(** Returns the listpack and [*p]. *)
Definition lpDeleteRangeWithEntry (lp : mem) (p num : Z) : option (mem * option Z) :=
  bytes ← lpBytes lp;
  let eofptr := bytes - 1 in
  let first := p in
  if num =? 0 then Some (lp, Some p)
  else
    '(tail, deleted) ← delete_range_loop (S (length lp)) lp bytes p num 0;
    lp ← memmove lp first tail (u64 (eofptr - tail + 1));
    lp ← lpSetTotalBytes lp (u64 (bytes - (tail - first)));
    lp ← sub_num lp deleted;
    lp ← lpShrinkToFit lp;
    e ← rd lp first;
    Some (lp, if e =? LP_EOF then None else Some first).

Definition lpDeleteRange (lp : mem) (index num : Z) : option mem :=
  numele ← lpGetNumElements lp;
  if num =? 0 then Some lp
  else
    p ← lpSeek lp index;
    match p with
    | None => Some lp
    | Some p =>
      let known := negb (numele =? LP_HDR_NUMELE_UNKNOWN) in
      let index := if known && (index <? 0) then numele + index else index in
      if known && (u64 (numele - index) <=? num) then
        lp ← memwrite lp p [LP_EOF];
        lp ← lpSetTotalBytes lp (p + 1);
        lp ← lpSetNumElements lp index;
        lpShrinkToFit lp
      else fst <$> lpDeleteRangeWithEntry lp p num
    end.

(** The loop over [ps]: yields the listpack and [dst]. *)
Fixpoint batch_delete_loop (lp : mem) (lp_end dst : Z) (ps : list Z) : option (mem * Z) :=
  match ps with
  | [] => Some (lp, dst)
  | skip :: ps =>
    e ← rd lp skip;
    _ ← cassert (negb (e =? LP_EOF));
    keep_start ← lpSkip lp skip;
    let keep_end := match ps with p :: _ => p | [] => lp_end end in
    if match ps with p :: _ => keep_start =? p | [] => false end
    then batch_delete_loop lp lp_end dst ps
    else
      _ ← cassert (keep_end >? keep_start);
      let bytes_to_keep := keep_end - keep_start in
      lp ← memmove lp dst keep_start bytes_to_keep;
      batch_delete_loop lp lp_end (dst + bytes_to_keep) ps
  end.

Definition lpBatchDelete (lp : mem) (ps : list Z) : option mem :=
  match ps with
  | [] => Some lp
  | dst :: _ =>
    total_bytes ← lpGetTotalBytes lp;
    let lp_end := total_bytes in
    e ← rd lp (lp_end - 1);
    _ ← cassert (e =? LP_EOF);
    '(lp, dst) ← batch_delete_loop lp lp_end dst ps;
    let deleted_bytes := u64 (lp_end - dst) in
    let total_bytes := u64 (total_bytes - deleted_bytes) in
    e ← rd lp (total_bytes - 1);
    _ ← cassert (e =? LP_EOF);
    lp ← lpSetTotalBytes lp total_bytes;
    lp ← sub_num lp (Z.of_nat (length ps));
    lpShrinkToFit lp
  end.

(** For two different listpacks: the merged one and whether it is the first
    block, grown; the other block is freed. *)
Definition lpMerge (first second : mem) : option (mem * bool) :=
  first_bytes ← lpBytes first;
  '(first_len, first) ← lpLength first;
  second_bytes ← lpBytes second;
  '(second_len, second) ← lpLength second;
  let append := first_bytes >=? second_bytes in
  let '(target, target_bytes, source, source_bytes) :=
    if append then (first, first_bytes, second, second_bytes)
    else (second, second_bytes, first, first_bytes) in
  let lpbytes := u64 (first_bytes + second_bytes - LP_HDR_SIZE - 1) in
  _ ← cassert (lpbytes <? UINT32_MAX);
  let lplength := first_len + second_len in
  let lplength := if lplength <? 65535 then lplength else 65535 in
  let target := zrealloc junk target lpbytes in
  target ←
    (if append then
       bs ← memread source LP_HDR_SIZE (u64 (source_bytes - LP_HDR_SIZE));
       memwrite target (target_bytes - 1) bs
     else
       target ← memmove target (source_bytes - 1) LP_HDR_SIZE (u64 (target_bytes - LP_HDR_SIZE));
       bs ← memread source 0 (u64 (source_bytes - 1));
       memwrite target 0 bs);
  target ← lpSetNumElements target lplength;
  target ← lpSetTotalBytes target lpbytes;
  Some (target, append).

End alloc.

Definition lpDup (lp : mem) : option mem := lpbytes ← lpBytes lp; memread lp 0 lpbytes.

Definition lpEntrySizeInteger (lval : Z) : Z :=
  let enclen := msize (lpEncodeIntegerGetType lval) in
  enclen + lpEncodeBacklenBytes enclen.

Definition lpEstimateBytesRepeatedInteger (lval rep : Z) : Z :=
  u64 (LP_HDR_SIZE + lpEntrySizeInteger lval * rep + 1).

(** ** Validation *)

(** [entry_cb], given the entry and the header's count; [None] when absent. *)
Fixpoint lpValidate_loop (fuel : nat) (lp : mem) (bytes numele : Z)
    (entry_cb : option (Z -> Z -> bool)) (p : option Z) (count : Z)
    : option (option (option Z * Z)) :=
  match fuel with
  | O => None
  | S fuel =>
    match p with
    | None => Some (Some (p, count))
    | Some prev =>
      e ← rd lp prev;
      if e =? LP_EOF then Some (Some (p, count))
      else
        '(ok, p) ← lpValidateNext lp p bytes;
        if negb (ok : bool) then Some None
        else if match entry_cb with Some cb => negb (cb prev numele) | None => false end
        then Some None
        else lpValidate_loop fuel lp bytes numele entry_cb p (u32 (count + 1))
    end
  end.

Definition lpValidateIntegrity (lp : mem) (size : Z) (deep : bool)
    (entry_cb : option (Z -> Z -> bool)) : option bool :=
  if size <? LP_HDR_SIZE + 1 then Some false
  else
    bytes ← lpGetTotalBytes lp;
    if negb (bytes =? size) then Some false
    else
      e ← rd lp (size - 1);
      if negb (e =? LP_EOF) then Some false
      else if negb deep then Some true
      else
        numele ← lpGetNumElements lp;
        r ← lpValidate_loop (S (length lp)) lp bytes numele entry_cb (Some LP_HDR_SIZE) 0;
        match r with
        | None => Some false
        | Some (p, count) =>
          if negb (match p with Some p => p =? size - 1 | None => false end) then Some false
          else if negb (numele =? LP_HDR_NUMELE_UNKNOWN) && negb (numele =? count)
          then Some false else Some true
        end.

(** ** The abstraction: a listpack is a list of encoded elements *)

(** What an element holds. *)
Inductive content := CInt (v : Z) | CStr (s : list Z).

(** The content of the encoding [r], as [lpGet] reads it. *)
Definition decode (r : mem) : option content :=
  v ← lpGetWithBuf r 0 None;
  match v with
  | VInt v => Some (CInt v)
  | VStr off n => CStr <$> memread r off n
  | VBuf _ _ => None
  end.

(** A complete encoding of an element, other than the end marker. *)
Definition enc_ok (r : mem) : Prop :=
  bytes r /\ head r <> Some LP_EOF /\ 0 < msize r <= UINT32_MAX /\
  lpCurrentEncodedSizeUnsafe r 0 = Some (msize r).

Definition entry (r : mem) : mem := r ++ lpEncodeBacklen (msize r).
Definition body (rs : list mem) : mem := concat (entry <$> rs).

(** The offset of the element that follows [rs]. *)
Definition offset (rs : list mem) : Z := LP_HDR_SIZE + msize (body rs).
Definition total (rs : list mem) : Z := offset rs + 1.

Definition layout (num : Z) (rs : list mem) (slack : mem) : mem :=
  (le_bytes 4 (total rs) ++ le_bytes 2 num) ++ body rs ++ [LP_EOF] ++ slack.

(** The header's count is right, or unknown. *)
Definition header_ok (num : Z) (rs : list mem) : Prop :=
  num = LP_HDR_NUMELE_UNKNOWN \/ num = Z.of_nat (length rs) /\ num < LP_HDR_NUMELE_UNKNOWN.

(** [lp] holds the elements [rs]: its header is right, or does not know the
    count. *)
Definition listpack (lp : mem) (rs : list mem) : Prop :=
  exists num slack, lp = layout num rs slack /\ Forall enc_ok rs /\
    total rs <= UINT32_MAX /\ header_ok num rs.

(** ** Lemmas: bytes and tests *)

Lemma enc_tests e : byte e ->
  LP_ENCODING_IS_7BIT_UINT e = (e <? 128) /\
  LP_ENCODING_IS_6BIT_STR e = ((128 <=? e) && (e <? 192)) /\
  LP_ENCODING_IS_13BIT_INT e = ((192 <=? e) && (e <? 224)) /\
  LP_ENCODING_IS_12BIT_STR e = ((224 <=? e) && (e <? 240)) /\
  LP_ENCODING_IS_16BIT_INT e = (e =? 241) /\ LP_ENCODING_IS_24BIT_INT e = (e =? 242) /\
  LP_ENCODING_IS_32BIT_INT e = (e =? 243) /\ LP_ENCODING_IS_64BIT_INT e = (e =? 244) /\
  LP_ENCODING_IS_32BIT_STR e = (e =? 240).
Proof.
  intros He. repeat split; apply eqb_true_iff; revert e He; apply byte_cases;
    vm_compute; reflexivity.
Qed.

Lemma byte_masks e : byte e ->
  Z.land e 127 = e `mod` 128 /\ Z.land e 63 = e `mod` 64 /\ Z.land e 31 = e `mod` 32 /\
  Z.land e 15 = e `mod` 16 /\ Z.land e 128 = (if e <? 128 then 0 else 128).
Proof.
  intros He. repeat split; apply Z.eqb_eq; revert e He; apply byte_cases;
    vm_compute; reflexivity.
Qed.

(** Decide the encoding tests of the byte [e]. *)
Ltac enctests He :=
  let H := fresh in pose proof (enc_tests _ He) as H;
  destruct H as (-> & -> & -> & -> & -> & -> & -> & -> & ->).

Lemma lor_bytes_val a bs c k :
  bytes bs -> 0 <= k ->
  lor_bytes (a ++ bs ++ c) (msize a) k (length bs) = Some (le_val bs * 2 ^ k).
Proof.
  intros Hb. revert a k. induction Hb as [|b bs Hb _ IH]; intros a k Hk; [done|].
  cbn [lor_bytes length le_val].
  rewrite (rd_app a b (bs ++ c)) by done. mred.
  replace (a ++ (b :: bs) ++ c) with ((a ++ [b]) ++ bs ++ c) by by rewrite <- (assoc_L (++)).
  replace (msize a + 1) with (msize (a ++ [b])) by (rewrite msize_app; done).
  rewrite IH by lia. mred. f_equal.
  rewrite Z.shiftl_mul_pow2, Z.pow_add_r by lia.
  replace (le_val bs * (2 ^ k * 2 ^ 8)) with (Z.shiftl (Z.shiftl (le_val bs) 8) k)
    by (rewrite !Z.shiftl_mul_pow2 by lia; lia).
  rewrite <- (Z.shiftl_mul_pow2 b), <- Z.shiftl_lor by lia.
  rewrite lor_shiftl by (unfold byte in Hb; lia).
  rewrite Z.shiftl_mul_pow2 by lia. lia.
Qed.

Lemma land_255 v : Z.land v 255 = v `mod` 256.
Proof. apply (Z.land_ones v 8). lia. Qed.

Lemma shiftr_8 v k : 0 <= k -> Z.shiftr v (k + 8) = Z.shiftr v k `div` 256.
Proof. intros. by rewrite <- Z.shiftr_shiftr, (Z.shiftr_div_pow2 _ 8) by lia. Qed.

(** The bytes the code stores are the little-endian bytes. *)
Lemma le_bytes_shift n v k : 0 <= k ->
  le_bytes (S n) (Z.shiftr v k) = Z.land (Z.shiftr v k) 255 :: le_bytes n (Z.shiftr v (k + 8)).
Proof. intros. cbn [le_bytes]. by rewrite land_255, shiftr_8. Qed.

Lemma le_bytes_2 v : le_bytes 2 v = [Z.land v 255; Z.land (Z.shiftr v 8) 255].
Proof.
  rewrite <- (Z.shiftr_0_r v) at 1. by rewrite !le_bytes_shift, Z.shiftr_0_r by done.
Qed.

Lemma le_bytes_4 v : le_bytes 4 v = [Z.land v 255; Z.land (Z.shiftr v 8) 255;
  Z.land (Z.shiftr v 16) 255; Z.land (Z.shiftr v 24) 255].
Proof.
  rewrite <- (Z.shiftr_0_r v) at 1. by rewrite !le_bytes_shift, Z.shiftr_0_r by done.
Qed.

(** ** Lemmas: backlen *)

Lemma backlen_size l : msize (lpEncodeBacklen l) = lpEncodeBacklenBytes l.
Proof. unfold lpEncodeBacklen, lpEncodeBacklenBytes. repeat case_match; done. Qed.

Lemma backlen_pos l : 1 <= lpEncodeBacklenBytes l <= 5.
Proof. unfold lpEncodeBacklenBytes. repeat case_match; lia. Qed.

Lemma rd_embed a bs c i x : rd bs i = Some x -> rd (a ++ bs ++ c) (msize a + i) = Some x.
Proof.
  intros H. rewrite rd_app_r by (apply rd_bounds in H; lia). by apply rd_app_l.
Qed.

Lemma cont_byte q : Z.lor (Z.land q 127) 128 = q `mod` 128 + 128.
Proof.
  change 127 with (Z.ones 7). rewrite Z.land_ones by lia. apply (lor_shiftl _ 1 7); [lia|].
  apply Z.mod_pos_bound. lia.
Qed.

(** The tests of [lpDecodeBacklen] on a last and on a continuation byte. *)
Lemma last_byte q : 0 <= q < 128 -> Z.land (u8 q) 128 =? 0 = true /\ Z.land (u8 q) 127 = q.
Proof.
  intros Hq. rewrite wrapu_small by (unfold in_u; lia).
  destruct (byte_masks q) as (-> & _ & _ & _ & ->); [unfold byte; lia|].
  repeat ztrue lia. split; [done|]. by apply Z.mod_small.
Qed.

Lemma cont_byte_masks q :
  Z.land (Z.lor (Z.land q 127) 128) 128 =? 0 = false /\
  Z.land (Z.lor (Z.land q 127) 128) 127 = q `mod` 128.
Proof.
  rewrite cont_byte. pose proof (Z.mod_pos_bound q 128 ltac:(lia)).
  destruct (byte_masks (q `mod` 128 + 128)) as (-> & _ & _ & _ & ->); [unfold byte; lia|].
  ztest; [lia|]. split; [done|].
  rewrite Zplus_mod_idemp_l. rewrite <- (Z.mod_add q 1 128) by lia. done.
Qed.

Lemma backlen_decode a l c : 0 <= l < 2 ^ 35 ->
  lpDecodeBacklen (a ++ lpEncodeBacklen l ++ c) (msize a + lpEncodeBacklenBytes l - 1) = Some l.
Proof.
  intros Hl.
  assert (Hr : forall i x, rd (lpEncodeBacklen l) i = Some x ->
    rd (a ++ lpEncodeBacklen l ++ c) (msize a + i) = Some x) by (intros; by apply rd_embed).
  revert Hr. unfold lpDecodeBacklen, lpEncodeBacklenBytes, lpEncodeBacklen.
  rewrite !Z.shiftr_div_pow2 by lia.
  repeat case_match; bools; intros Hr;
    repeat match goal with
    | |- context [rd _ (msize a + ?k - 1 - ?j)] =>
      let i := eval vm_compute in (k - 1 - j) in
      replace (msize a + k - 1 - j) with (msize a + i) by lia;
      rewrite (Hr i _ eq_refl)
    | |- context [rd _ (msize a + ?k - 1)] =>
      let i := eval vm_compute in (k - 1) in
      replace (msize a + k - 1) with (msize a + i) by lia; rewrite (Hr i _ eq_refl)
    end; mred;
    repeat match goal with
    | |- context [Z.lor (Z.land ?q 127) 128] =>
      let H1 := fresh "Ea" in let H2 := fresh "Eb" in
      destruct (cont_byte_masks q) as [H1 H2]; rewrite H1, ?H2; clear H1 H2; mred
    | |- context [u8 ?q] =>
      let H1 := fresh "Ea" in let H2 := fresh "Eb" in
      destruct (last_byte q) as [H1 H2]; [clear Hr; dlia|rewrite H1, ?H2; clear H1 H2; mred]
    end; f_equal; clear Hr.
  all: repeat match goal with
    | |- context [Z.lor ?a (Z.shiftl ?b ?k)] =>
      lazymatch a with context [Z.lor] => fail | _ => rewrite (lor_shiftl a b k) by dlia end
    end; dlia.
Qed.

(** ** Lemmas: reading an encoding in place *)

Section embed.
Context (a r c : mem).

Lemma rd_mono p : opt_le (rd r p) (rd (a ++ r ++ c) (msize a + p)).
Proof. intros v. apply rd_embed. Qed.

Lemma rd_mono0 : opt_le (rd r 0) (rd (a ++ r ++ c) (msize a)).
Proof. rewrite <- (Z.add_0_r (msize a)). apply rd_mono. Qed.

Lemma lor_bytes_mono n p k :
  opt_le (lor_bytes r p k n) (lor_bytes (a ++ r ++ c) (msize a + p) k n).
Proof.
  revert p k. induction n as [|n IH]; intros p k; [apply opt_le_refl|]. cbn [lor_bytes].
  rewrite <- (Z.add_assoc (msize a) p 1). opt_mono ltac:(apply rd_mono || apply IH).
Qed.

Ltac reads := opt_mono ltac:(apply rd_mono || apply rd_mono0 || apply lor_bytes_mono).

Lemma encoded_size_embed n :
  lpCurrentEncodedSizeUnsafe r 0 = Some n ->
  lpCurrentEncodedSizeUnsafe (a ++ r ++ c) (msize a) = Some n.
Proof.
  revert n. change (opt_le (lpCurrentEncodedSizeUnsafe r 0)
    (lpCurrentEncodedSizeUnsafe (a ++ r ++ c) (msize a))).
  unfold lpCurrentEncodedSizeUnsafe, LP_ENCODING_6BIT_STR_LEN, LP_ENCODING_12BIT_STR_LEN,
    LP_ENCODING_32BIT_STR_LEN. reads.
Qed.

(** The value read in place: the pointer moves with the block. *)
Definition shift_value (off : Z) (v : lpvalue) : lpvalue :=
  match v with VStr p n => VStr (off + p) n | v => v end.

Lemma int_value_shift off u ns nm buf :
  shift_value off <$> int_value u ns nm buf = int_value u ns nm buf.
Proof.
  unfold int_value, int_result. destruct buf as [buf|]; [|done].
  by destruct (ll2string buf _) as [[n b]|].
Qed.

Lemma get_embed buf v :
  lpGetWithBuf r 0 buf = Some v ->
  lpGetWithBuf (a ++ r ++ c) (msize a) buf = Some (shift_value (msize a) v).
Proof.
  apply opt_le_fmap_spec.
  unfold lpGetWithBuf, LP_ENCODING_6BIT_STR_LEN, LP_ENCODING_12BIT_STR_LEN,
    LP_ENCODING_32BIT_STR_LEN.
  reads; try match goal with |- context [let '(_, _) := ?p in _] => destruct p as [[u ns] nm] end;
    rewrite ?int_value_shift; apply opt_le_refl.
Qed.
End embed.

(** ** Lemmas: the layout *)

Lemma body_app l l' : body (l ++ l') = body l ++ body l'.
Proof. unfold body. by rewrite fmap_app, concat_app. Qed.

Lemma body_cons r l : body (r :: l) = entry r ++ body l.
Proof. done. Qed.

Lemma entry_size r : msize (entry r) = msize r + lpEncodeBacklenBytes (msize r).
Proof. unfold entry. by rewrite msize_app, backlen_size. Qed.

Lemma offset_nil : offset [] = LP_HDR_SIZE.
Proof. done. Qed.

Lemma offset_snoc l r : offset (l ++ [r]) = offset l + msize (entry r).
Proof.
  unfold offset. rewrite body_app, msize_app. cbn [body fmap list_fmap concat]. 
  rewrite app_nil_r. lia.
Qed.

Lemma offset_app l l' : offset (l ++ l') = offset l + msize (body l').
Proof. unfold offset. rewrite body_app, msize_app. lia. Qed.

Lemma offset_ge l : LP_HDR_SIZE <= offset l.
Proof. unfold offset. pose proof (msize_nonneg (body l)). lia. Qed.

Lemma bytes_backlen l : bytes (lpEncodeBacklen l).
Proof.
  assert (Hu : forall z, byte (u8 z)) by (intros z; apply (in_u_wrapu 8); lia).
  assert (Hc : forall q, byte (Z.lor (Z.land q 127) 128)).
  { intros q. rewrite cont_byte. pose proof (Z.mod_pos_bound q 128). unfold byte. lia. }
  unfold lpEncodeBacklen. repeat case_match; repeat (constructor; auto).
Qed.

Definition hdr (num : Z) (rs : list mem) : mem := le_bytes 4 (total rs) ++ le_bytes 2 num.

Lemma hdr_size num rs : msize (hdr num rs) = LP_HDR_SIZE.
Proof. unfold hdr. by rewrite msize_app, !msize_le_bytes. Qed.

Lemma layout_total num rs slack :
  total rs <= UINT32_MAX -> lpGetTotalBytes (layout num rs slack) = Some (total rs).
Proof.
  intros Ht. unfold lpGetTotalBytes, layout. rewrite <- (assoc_L (++)).
  pose proof (lor_bytes_val [] (le_bytes 4 (total rs))
    (le_bytes 2 num ++ body rs ++ [LP_EOF] ++ slack) 0 (bytes_le_bytes _ _)) as H.
  rewrite length_le_bytes, app_nil_l in H. change (msize []) with 0 in H. rewrite H by done.
  rewrite le_val_le_bytes, Z.mul_1_r. f_equal. apply Z.mod_small.
  pose proof (offset_ge rs). unfold total, LP_HDR_SIZE, UINT32_MAX in *. lia.
Qed.

Lemma layout_num num rs slack :
  0 <= num < 65536 -> lpGetNumElements (layout num rs slack) = Some num.
Proof.
  intros Hn. unfold lpGetNumElements, layout. rewrite <- (assoc_L (++)).
  pose proof (lor_bytes_val (le_bytes 4 (total rs)) (le_bytes 2 num)
    (body rs ++ [LP_EOF] ++ slack) 0 (bytes_le_bytes _ _)) as H.
  rewrite length_le_bytes, msize_le_bytes in H. change (Z.of_nat 4) with 4 in H.
  rewrite H by done.
  rewrite le_val_le_bytes, Z.mul_1_r. f_equal. by apply Z.mod_small.
Qed.

(** The block split at the element that follows [l]. *)
Lemma layout_split num l r l' slack :
  layout num (l ++ r :: l') slack =
  (hdr num (l ++ r :: l') ++ body l) ++ r ++
    (lpEncodeBacklen (msize r) ++ body l' ++ [LP_EOF] ++ slack).
Proof.
  unfold layout. fold (hdr num (l ++ r :: l')). rewrite body_app, body_cons. unfold entry.
  by rewrite <- !(assoc_L (++)).
Qed.

Lemma layout_at num l r l' off :
  off = offset l -> off = msize (hdr num (l ++ r :: l') ++ body l).
Proof. intros ->. by rewrite msize_app, hdr_size. Qed.

Lemma layout_end num rs slack :
  layout num rs slack = (hdr num rs ++ body rs) ++ LP_EOF :: slack.
Proof. unfold layout. by rewrite <- !(assoc_L (++)). Qed.

Lemma rd_end num rs slack : rd (layout num rs slack) (offset rs) = Some LP_EOF.
Proof. rewrite layout_end. apply rd_app. by rewrite msize_app, hdr_size. Qed.

Lemma enc_ok_head r : enc_ok r -> exists e, rd r 0 = Some e /\ e <> LP_EOF /\ byte e.
Proof.
  intros (Hb & Hh & Hs & _). destruct r as [|e r]; [rewrite msize_nil in Hs; lia|].
  apply Forall_cons_1 in Hb as [Hb _]. exists e. split; [done|]. cbn in Hh. split; [congruence|done].
Qed.

Section nav.
Context (num : Z) (slack : mem).

Lemma rd_elem l r l' : enc_ok r ->
  exists e, rd (layout num (l ++ r :: l') slack) (offset l) = Some e /\ e <> LP_EOF /\
    rd r 0 = Some e /\ byte e.
Proof.
  intros (e & He & Hn & Hb)%enc_ok_head. exists e. split; [|done].
  rewrite layout_split, (layout_at num l r l' _ eq_refl).
  by apply rd_mono0.
Qed.

Lemma size_at l r l' : enc_ok r ->
  lpCurrentEncodedSizeUnsafe (layout num (l ++ r :: l') slack) (offset l) = Some (msize r).
Proof.
  intros (_ & _ & _ & Hs). rewrite layout_split, (layout_at num l r l' _ eq_refl).
  by apply encoded_size_embed.
Qed.

Lemma skip_at l r l' : enc_ok r ->
  lpSkip (layout num (l ++ r :: l') slack) (offset l) = Some (offset (l ++ [r])).
Proof.
  intros H. unfold lpSkip. rewrite size_at by done. mred.
  by rewrite offset_snoc, entry_size.
Qed.

Lemma decode_at l r l' : enc_ok r ->
  lpDecodeBacklen (layout num (l ++ r :: l') slack) (offset (l ++ [r]) - 1) = Some (msize r).
Proof.
  intros (_ & _ & Hs & _). rewrite layout_split, (assoc_L (++)).
  rewrite offset_snoc, entry_size, (layout_at num l r l' _ eq_refl).
  replace (msize (hdr num (l ++ r :: l') ++ body l) +
      (msize r + lpEncodeBacklenBytes (msize r)) - 1)
    with (msize ((hdr num (l ++ r :: l') ++ body l) ++ r) + lpEncodeBacklenBytes (msize r) - 1)
    by (rewrite (msize_app (_ ++ _) r); lia).
  apply backlen_decode. unfold UINT32_MAX in Hs. lia.
Qed.
End nav.

Lemma lor_bytes_bounds m p k n v :
  lor_bytes m p k (S n) = Some v -> 0 <= p /\ p + Z.of_nat n < msize m.
Proof.
  revert p k v. induction n as [|n IH]; intros p k v; cbn [lor_bytes].
  - destruct (rd m p) eqn:E; [|done]. apply rd_bounds in E. lia.
  - destruct (rd m p) eqn:E; [|done]. apply rd_bounds in E. mred.
    destruct (rd m (p + 1)) eqn:E1; [|done]. mred.
    specialize (IH (p + 1) (k + 8)). cbn [lor_bytes] in IH. rewrite E1 in IH.
    destruct (lor_bytes m (p + 1 + 1) (k + 8 + 8) n); [|done].
    intros _. cbn in IH. specialize (IH _ eq_refl). lia.
Qed.

Lemma size_bytes_le r e :
  enc_ok r -> rd r 0 = Some e -> 0 < lpCurrentEncodedSizeBytes e <= msize r.
Proof.
  intros (Hb & Hh & Hs & Hu) He. pose proof (rd_byte _ _ _ Hb He) as Hbyte.
  revert Hu. unfold lpCurrentEncodedSizeUnsafe, lpCurrentEncodedSizeBytes,
    LP_ENCODING_12BIT_STR_LEN, LP_ENCODING_32BIT_STR_LEN. rewrite He. mred.
  enctests Hbyte. destruct (e <? 128); [lia|]. destruct (_ && _); [lia|].
  destruct (_ && _); [lia|]. destruct (e =? 241); [lia|]. destruct (e =? 242); [lia|].
  destruct (e =? 243); [lia|]. destruct (e =? 244); [lia|]. destruct (_ && _).
  - destruct (rd r (0 + 1)) eqn:E1; [|done]. apply rd_bounds in E1. lia.
  - destruct (e =? 240).
    + destruct (lor_bytes r (0 + 1) 0 4) eqn:E1; [|done]. apply lor_bytes_bounds in E1. lia.
    + destruct (e =? LP_EOF); [lia|]. intros [= E]. lia.
Qed.

Section walk.
Context (num : Z) (slack : mem).

Lemma offset_le l r l' : enc_ok r ->
  LP_HDR_SIZE <= offset l /\ offset l + msize r < offset (l ++ [r]) <= offset (l ++ r :: l').
Proof.
  intros _. rewrite offset_snoc, (offset_app l (r :: l')), body_cons, msize_app, entry_size.
  pose proof (offset_ge l). pose proof (msize_nonneg (body l')).
  pose proof (backlen_pos (msize r)). lia.
Qed.

Lemma in_range_ok bytes p : LP_HDR_SIZE <= p < bytes -> OUT_OF_RANGE bytes p = false.
Proof. intros Hp. unfold OUT_OF_RANGE. apply orb_false_intro; repeat ztest; lia. Qed.

Lemma validate_at l r l' : enc_ok r -> total (l ++ r :: l') <= UINT32_MAX ->
  lpValidateNext (layout num (l ++ r :: l') slack) (Some (offset l)) (total (l ++ r :: l')) =
  Some (true, Some (offset (l ++ [r]))).
Proof.
  intros Hr Ht. pose proof (offset_le l r l' Hr) as (H1 & H2 & H3).
  destruct (rd_elem num slack l r l' Hr) as (e & He & Hn & He' & _).
  pose proof (size_bytes_le r e Hr He') as Hsb. destruct Hr as (? & ? & Hs & ?).
  assert (Hr : enc_ok r) by done.
  assert (Hor : forall p, LP_HDR_SIZE <= p <= offset (l ++ r :: l') ->
    OUT_OF_RANGE (total (l ++ r :: l')) p = false).
  { intros p Hp. apply in_range_ok. unfold total. lia. }
  unfold lpValidateNext. rewrite Hor by lia. rewrite He. mred.
  destruct (Z.eqb_spec e LP_EOF) as [|_]; [done|].
  ztest; [lia|]. rewrite Hor by lia. rewrite size_at by done. mred.
  rewrite <- (entry_size r), <- offset_snoc, Hor by lia.
  rewrite decode_at by done. mred. rewrite entry_size.
  pose proof (backlen_pos (msize r)).
  rewrite wrapu_small by (unfold in_u, UINT32_MAX in *; lia). by rewrite Z.eqb_refl.
Qed.

Lemma validate_end rs : lpValidateNext (layout num rs slack) (Some (offset rs)) (total rs) = Some (true, None).
Proof.
  pose proof (offset_ge rs). unfold lpValidateNext. rewrite in_range_ok by (unfold total; lia).
  by rewrite rd_end.
Qed.

Lemma assert_at l l' : Forall enc_ok (l ++ l') -> total (l ++ l') <= UINT32_MAX ->
  lpAssertValidEntry (layout num (l ++ l') slack) (total (l ++ l')) (offset l) = Some ().
Proof.
  intros Hok Ht. unfold lpAssertValidEntry. destruct l' as [|r l'].
  - rewrite app_nil_r in *. by rewrite validate_end.
  - rewrite validate_at; [done| |done]. apply Forall_app in Hok as [_ Hok].
    by apply Forall_cons_1 in Hok as [? _].
Qed.

(** The position in front of [l'] as the traversals report it. *)
Definition pointer (l l' : list mem) : option Z :=
  match l' with [] => None | _ => Some (offset l) end.

(** Stopping at the end marker or checking the entry there. *)
Lemma stop_at l l' : Forall enc_ok (l ++ l') -> total (l ++ l') <= UINT32_MAX ->
  (e ← rd (layout num (l ++ l') slack) (offset l);
   if e =? LP_EOF then Some None
   else bytes ← lpBytes (layout num (l ++ l') slack);
     _ ← lpAssertValidEntry (layout num (l ++ l') slack) bytes (offset l); Some (Some (offset l)))
  = Some (pointer l l').
Proof.
  intros Hok Ht. unfold lpBytes. rewrite layout_total by done.
  pose proof (assert_at l l' Hok Ht) as Ha. destruct l' as [|r l'].
  - rewrite app_nil_r in *. rewrite rd_end. done.
  - assert (enc_ok r) as Hr.
    { apply Forall_app in Hok as [_ Hok]. by apply Forall_cons_1 in Hok as [? _]. }
    destruct (rd_elem num slack l r l' Hr) as (e & -> & Hn & _). mred.
    destruct (Z.eqb_spec e LP_EOF); [done|]. by rewrite Ha.
Qed.

Lemma first_at rs : Forall enc_ok rs -> total rs <= UINT32_MAX ->
  lpFirst (layout num rs slack) = Some (pointer [] rs).
Proof. apply (stop_at [] rs). Qed.

Lemma next_at l r l' : Forall enc_ok (l ++ r :: l') -> total (l ++ r :: l') <= UINT32_MAX ->
  lpNext (layout num (l ++ r :: l') slack) (offset l) = Some (pointer (l ++ [r]) l').
Proof.
  intros Hok Ht. unfold lpNext. rewrite skip_at.
  2: { apply Forall_app in Hok as [_ Hok]. by apply Forall_cons_1 in Hok as [? _]. }
  mred. pose proof (stop_at (l ++ [r]) l') as H. rewrite <- (assoc_L (++)) in H. by apply H.
Qed.

Lemma prev_at l r l' : Forall enc_ok (l ++ r :: l') -> total (l ++ r :: l') <= UINT32_MAX ->
  lpPrev (layout num (l ++ r :: l') slack) (offset (l ++ [r])) = Some (Some (offset l)).
Proof.
  intros Hok Ht. assert (enc_ok r) as Hr.
  { apply Forall_app in Hok as [_ Hok]. by apply Forall_cons_1 in Hok as [? _]. }
  pose proof (offset_le l r l' Hr) as (H1 & H2 & H3).
  pose proof (msize_nonneg r). pose proof (backlen_pos (msize r)).
  unfold lpPrev. ztest; [lia|]. rewrite decode_at by done. mred.
  rewrite wrapu_small by (destruct Hr as (_ & _ & ? & _); unfold in_u, UINT32_MAX in *; lia).
  replace (offset (l ++ [r]) - 1 - (msize r + lpEncodeBacklenBytes (msize r) - 1))
    with (offset l) by (rewrite offset_snoc, entry_size; lia).
  unfold lpBytes. rewrite layout_total by done. mred. by rewrite (assert_at l (r :: l')).
Qed.

Lemma prev_first rs : lpPrev (layout num rs slack) (offset []) = Some None.
Proof. done. Qed.

Lemma last_at rs : Forall enc_ok rs -> total rs <= UINT32_MAX ->
  lpLast (layout num rs slack) =
  Some (match rev rs with [] => None | _ :: l => Some (offset (rev l)) end).
Proof.
  intros Hok Ht. unfold lpLast. rewrite layout_total by done. mred.
  replace (total rs - 1) with (offset rs) by (unfold total; lia).
  destruct (rev rs) as [|r l] eqn:E; apply (f_equal (@rev _)) in E; rewrite rev_involutive in E;
    subst rs; [done|]. cbn [rev]. rewrite prev_at; done.
Qed.
End walk.

(** ** Lemmas: integer encodings *)

Lemma u8_land z : u8 z = Z.land z 255.
Proof. by rewrite land_255. Qed.

Lemma le_bytes_3 v : le_bytes 3 v =
  [Z.land v 255; Z.land (Z.shiftr v 8) 255; Z.land (Z.shiftr v 16) 255].
Proof.
  rewrite <- (Z.shiftr_0_r v) at 1. by rewrite !le_bytes_shift, Z.shiftr_0_r by done.
Qed.

Lemma le_bytes_8 v : le_bytes 8 v =
  [Z.land v 255; Z.land (Z.shiftr v 8) 255; Z.land (Z.shiftr v 16) 255;
   Z.land (Z.shiftr v 24) 255; Z.land (Z.shiftr v 32) 255; Z.land (Z.shiftr v 40) 255;
   Z.land (Z.shiftr v 48) 255; Z.land (Z.shiftr v 56) 255].
Proof.
  rewrite <- (Z.shiftr_0_r v) at 1. by rewrite !le_bytes_shift, Z.shiftr_0_r by done.
Qed.

(** Adding the modulus to a negative number does not change its low bytes. *)
Lemma le_bytes_neg n m v : m = 256 ^ Z.of_nat n ->
  le_bytes n (if v <? 0 then m + v else v) = le_bytes n v.
Proof.
  intros ->. destruct (v <? 0); [|done]. rewrite <- le_bytes_mod.
  rewrite <- (Z.mul_1_l (256 ^ _)) at 1. rewrite Z.add_comm, Z.mod_add; [apply le_bytes_mod|].
  pose proof (Z.pow_pos_nonneg 256 (Z.of_nat n)). lia.
Qed.

(** The three shapes of an integer encoding. *)
Inductive int_form (v : Z) : list Z -> Prop :=
  | form7 : 0 <= v <= 127 -> int_form v [v]
  | form13 : -4096 <= v <= 4095 ->
      int_form v [192 + (v `mod` 8192) `div` 256; v `mod` 256]
  | form_multi tag n : (tag, n) ∈ [(241, 2%nat); (242, 3%nat); (243, 4%nat); (244, 8%nat)] ->
      in_s (8 * Z.of_nat n) v -> int_form v (tag :: le_bytes n v).

Lemma encode13 v : -4096 <= v <= 4095 ->
  let v' := if v <? 0 then Z.shiftl 1 13 + v else v in
  [u8 (Z.lor (Z.shiftr v' 8) LP_ENCODING_13BIT_INT); Z.land v' 255] =
  [192 + (v `mod` 8192) `div` 256; v `mod` 256].
Proof.
  intros Hv. cbn zeta. change (Z.shiftl 1 13) with 8192.
  assert ((if v <? 0 then 8192 + v else v) = v `mod` 8192) as ->.
  { ztest; dlia. }
  rewrite Z.shiftr_div_pow2, land_255 by lia. change (2 ^ 8) with 256.
  assert (Hd : 0 <= (v `mod` 8192) `div` 256 < 64) by dlia.
  change LP_ENCODING_13BIT_INT with (Z.shiftl 3 6). rewrite lor_shiftl by (done || lia).
  rewrite wrapu_small by (unfold in_u; lia || dlia). f_equal; [lia|]. f_equal. dlia.
Qed.

Lemma encode_int_form v : in_s 64 v -> int_form v (lpEncodeIntegerGetType v).
Proof.
  unfold in_s. intros Hv. unfold lpEncodeIntegerGetType. rewrite !u8_land.
  rewrite !Z.geb_leb.
  destruct ((0 <=? v) && (v <=? 127)) eqn:E1; bools.
  { rewrite land_255, Z.mod_small by lia. by constructor. }
  destruct ((-4096 <=? v) && (v <=? 4095)) eqn:E2; [bools|clear E1; rename E2 into E1].
  { pose proof (encode13 v ltac:(lia)) as Hx. cbn zeta in Hx. rewrite u8_land in Hx. rewrite Hx.
    by constructor. }
  clear E1.
  destruct ((-32768 <=? v) && (v <=? 32767)) eqn:E2; bools; [|clear E2].
  { rewrite <- le_bytes_2, le_bytes_neg by done.
    apply form_multi; [set_solver|unfold in_s; lia]. }
  destruct ((-8388608 <=? v) && (v <=? 8388607)) eqn:E2; bools; [|clear E2].
  { rewrite <- le_bytes_3, le_bytes_neg by done.
    apply form_multi; [set_solver|unfold in_s; lia]. }
  destruct ((-2147483648 <=? v) && (v <=? 2147483647)) eqn:E2; bools; [|clear E2].
  { rewrite <- le_bytes_4, le_bytes_neg by done.
    apply form_multi; [set_solver|unfold in_s; lia]. }
  rewrite <- le_bytes_8. unfold wrapu. change (2 ^ 64) with (256 ^ Z.of_nat 8).
  rewrite (le_bytes_mod 8 v). apply form_multi; [set_solver|unfold in_s; lia].
Qed.

Lemma int_value_wrap w v buf : 0 < w <= 64 -> in_s w v ->
  int_value (v `mod` 2 ^ w) (2 ^ (w - 1)) (2 ^ w - 1) buf = int_result v buf.
Proof.
  unfold in_s. intros Hw Hv. unfold int_value. rewrite Z.geb_leb. f_equal.
  pose proof (pow2_split w ltac:(lia)) as Hp.
  pose proof (Z.pow_le_mono_r 2 (w - 1) 63 ltac:(lia) ltac:(lia)) as Hm.
  pose proof (Z.pow_pos_nonneg 2 (w - 1) ltac:(lia) ltac:(lia)).
  destruct (Z.leb_spec (2 ^ (w - 1)) (v `mod` 2 ^ w)) as [Hl|Hl]; destruct (decide (0 <= v)).
  - rewrite Z.mod_small in Hl by lia. lia.
  - assert (Hmod : v `mod` 2 ^ w = v + 2 ^ w).
    { rewrite <- (Z.mod_add v 1), Z.mul_1_l by lia. apply Z.mod_small. lia. }
    rewrite Hmod, (wrapu_small 64) by (unfold in_u; lia).
    rewrite (wraps_small 64 (2 ^ w - 1 - _)) by (unfold in_s; lia).
    rewrite (wraps_small 64) by (unfold in_s; lia). lia.
  - rewrite Z.mod_small by lia. apply wraps_small; unfold in_s; lia.
  - rewrite <- (Z.mod_add v 1), Z.mul_1_l, Z.mod_small in Hl by lia. lia.
Qed.

(** Integer encodings are recognised by their first byte. *)
Lemma size_int e r n : byte e ->
  (e < 128 /\ n = 1) \/ (192 <= e < 224 /\ n = 2) \/ (e = 241 /\ n = 3) \/ (e = 242 /\ n = 4) \/
  (e = 243 /\ n = 5) \/ (e = 244 /\ n = 9) ->
  lpCurrentEncodedSizeUnsafe (e :: r) 0 = Some n.
Proof.
  intros He Hn. unfold lpCurrentEncodedSizeUnsafe. change (rd (e :: r) 0) with (Some e). mred.
  enctests He. repeat (case_match; bools; try lia); f_equal; lia.
Qed.

Lemma tag_cases tag n :
  (tag, n) ∈ [(241, 2%nat); (242, 3%nat); (243, 4%nat); (244, 8%nat)] ->
  (tag = 241 /\ n = 2%nat) \/ (tag = 242 /\ n = 3%nat) \/ (tag = 243 /\ n = 4%nat) \/
  (tag = 244 /\ n = 8%nat).
Proof. rewrite !elem_of_cons, elem_of_nil. naive_solver. Qed.

Lemma int_enc_ok v r : int_form v r -> enc_ok r.
Proof.
  assert (Hh : forall e (r : list Z), byte e -> e <> LP_EOF -> bytes r ->
    msize (e :: r) <= UINT32_MAX -> lpCurrentEncodedSizeUnsafe (e :: r) 0 = Some (msize (e :: r)) ->
    enc_ok (e :: r)).
  { intros e q He Hn Hq Hs H. split; [by constructor|]. split; [cbn; congruence|].
    split; [|done]. split; [|done]. rewrite msize_cons. pose proof (msize_nonneg q). lia. }
  intros H. destruct H as [Hv|Hv|tag n Ht Hv].
  - assert (byte v) by (unfold byte; lia).
    apply Hh; [done|unfold LP_EOF; lia|constructor|done|]. apply size_int; [done|].
    left. split; [lia|done].
  - assert (byte (192 + (v `mod` 8192) `div` 256)) by (unfold byte; dlia).
    apply Hh; [done|unfold LP_EOF; dlia| |done|].
    + repeat constructor; dlia.
    + apply size_int; [done|]. right. left. split; [dlia|done].
  - apply tag_cases in Ht. assert (byte tag) by (unfold byte; lia).
    apply Hh; [done|unfold LP_EOF; lia|apply bytes_le_bytes| |].
    + rewrite msize_cons, msize_le_bytes. unfold UINT32_MAX. lia.
    + apply size_int; [done|]. rewrite msize_cons, msize_le_bytes. lia.
Qed.

(** [lpGet] on an integer encoding. *)
Lemma get_multi tag n v buf :
  (tag, n) ∈ [(241, 2%nat); (242, 3%nat); (243, 4%nat); (244, 8%nat)] ->
  lpGetWithBuf (tag :: le_bytes n v) 0 buf =
  int_value (v `mod` 2 ^ (8 * Z.of_nat n)) (2 ^ (8 * Z.of_nat n - 1))
    (2 ^ (8 * Z.of_nat n) - 1) buf.
Proof.
  intros Ht. apply tag_cases in Ht. assert (byte tag) as Hb by (unfold byte; lia).
  pose proof (lor_bytes_val [tag] (le_bytes n v) [] 0 (bytes_le_bytes _ _) ltac:(lia)) as H.
  rewrite app_nil_r, length_le_bytes, le_val_le_bytes, Z.mul_1_r in H.
  change (msize [tag]) with 1 in H. change ([tag] ++ le_bytes n v) with (tag :: le_bytes n v) in H.
  unfold lpGetWithBuf. change (rd (tag :: le_bytes n v) 0) with (Some tag). mred.
  enctests Hb. change (0 + 1) with 1.
  destruct Ht as [[-> ->]|[[-> ->]|[[-> ->]|[-> ->]]]]; cbn [Z.leb Z.ltb Z.eqb Z.compare Pos.compare
    Pos.compare_cont andb Pos.eqb]; rewrite H; mred; reflexivity.
Qed.

Lemma get_int_form v r buf : int_form v r -> lpGetWithBuf r 0 buf = int_result v buf.
Proof.
  intros H. destruct H as [Hv|Hv|tag n Ht Hv].
  - assert (Hb : byte v) by (unfold byte; lia).
    unfold lpGetWithBuf. change (rd [v] 0) with (Some v). mred. enctests Hb.
    repeat (case_match; bools; try lia). destruct (byte_masks v Hb) as (-> & _). mred.
    rewrite Z.mod_small by lia. unfold int_value, UINT64_MAX. f_equal.
    rewrite Z.geb_leb. ztest; [lia|]. apply wraps_small; unfold in_s; lia.
  - assert (Hb : byte (192 + (v `mod` 8192) `div` 256)) by (unfold byte; dlia).
    unfold lpGetWithBuf.
    change (rd [192 + (v `mod` 8192) `div` 256; v `mod` 256] 0)
      with (Some (192 + (v `mod` 8192) `div` 256)).
    change (rd [192 + (v `mod` 8192) `div` 256; v `mod` 256] (0 + 1)) with (Some (v `mod` 256)).
    mred. assert (Hr : 0 <= (v `mod` 8192) `div` 256 < 32) by dlia.
    enctests Hb. repeat (case_match; bools; try lia).
    destruct (byte_masks _ Hb) as (_ & _ & -> & _). mred.
    rewrite Z.lor_comm, lor_shiftl by (done || dlia).
    pose proof (int_value_wrap 13 v buf ltac:(lia) ltac:(unfold in_s; lia)) as Hi.
    etransitivity; [|exact Hi]. change (2 ^ 13) with 8192. f_equal. clear -Hr. dlia.
  - rewrite get_multi by done. apply int_value_wrap; [|done].
    apply tag_cases in Ht. lia.
Qed.

Lemma get_int v buf : in_s 64 v ->
  lpGetWithBuf (lpEncodeIntegerGetType v) 0 buf = int_result v buf.
Proof. intros. by apply get_int_form, encode_int_form. Qed.

(** ** Lemmas: string encodings *)

Definition str_header (n : Z) : mem :=
  if n <? 64 then [128 + n]
  else if n <? 4096 then [224 + n `div` 256; n `mod` 256]
  else LP_ENCODING_32BIT_STR :: le_bytes 4 n.

Definition encode_str (s : list Z) : mem := str_header (msize s) ++ s.

Lemma str_header_size n :
  msize (str_header n) = if n <? 64 then 1 else if n <? 4096 then 2 else 5.
Proof. unfold str_header. repeat case_match; done. Qed.

(** Writing two adjacent pieces over a gap of their size. *)
Lemma memwrite_two a g c x y n :
  msize g = msize x + msize y -> n = msize x ->
  (m ← memwrite (a ++ g ++ c) (msize a) x; memwrite m (msize a + n) y) = Some (a ++ (x ++ y) ++ c).
Proof.
  intros Hg ->. destruct (msplit g (msize x)) as (g1 & g2 & -> & H1).
  { pose proof (msize_nonneg x). pose proof (msize_nonneg y). lia. }
  rewrite msize_app in Hg. rewrite <- (assoc_L (++) g1), memwrite_app by done. mred.
  rewrite (assoc_L (++) a), memwrite_app by (rewrite ?msize_app; lia).
  by rewrite <- !(assoc_L (++)).
Qed.

Lemma memread_all s : memread s 0 (msize s) = Some s.
Proof. rewrite <- (app_nil_r s) at 1. by apply memread_app_start. Qed.

Lemma encode_string_at a g c s :
  msize g = msize (encode_str s) -> msize s <= UINT32_MAX ->
  lpEncodeString (a ++ g ++ c) (msize a) s (msize s) = Some (a ++ encode_str s ++ c).
Proof.
  intros Hg Hs. unfold lpEncodeString, encode_str, str_header in *.
  pose proof (msize_nonneg s) as H0. rewrite memread_all. cbn [mbind option_bind].
  destruct (Z.ltb_spec (msize s) 64); [|destruct (Z.ltb_spec (msize s) 4096)];
    rewrite msize_app in Hg.
  - change LP_ENCODING_6BIT_STR with (Z.shiftl 2 6). rewrite lor_shiftl by lia.
    change (2 * 2 ^ 6) with 128.
    rewrite (Z.add_comm 128). apply memwrite_two; [|done]. exact Hg.
  - rewrite Z.shiftr_div_pow2, land_255 by lia. change (2 ^ 8) with 256.
    change LP_ENCODING_12BIT_STR with (Z.shiftl 14 4). rewrite lor_shiftl by (done || dlia).
    rewrite wrapu_small by (unfold in_u; dlia). change (14 * 2 ^ 4) with 224.
    rewrite (Z.add_comm 224). by apply memwrite_two.
  - rewrite le_bytes_4 in Hg |- *. by apply memwrite_two.
Qed.

(** The header of a string gives its length. *)
Lemma str_header_reads s c : bytes s -> msize s <= UINT32_MAX ->
  exists e, rd (encode_str s ++ c) 0 = Some e /\ byte e /\
    (128 <= e < 192 /\ msize s < 64 /\
       LP_ENCODING_6BIT_STR_LEN (encode_str s ++ c) 0 = Some (msize s) \/
     224 <= e < 240 /\ 64 <= msize s < 4096 /\
       LP_ENCODING_12BIT_STR_LEN (encode_str s ++ c) 0 = Some (msize s) \/
     e = 240 /\ 4096 <= msize s /\
       LP_ENCODING_32BIT_STR_LEN (encode_str s ++ c) 0 = Some (msize s)).
Proof.
  intros Hb Hs. pose proof (msize_nonneg s) as H0. unfold encode_str, str_header.
  destruct (Z.ltb_spec (msize s) 64); [|destruct (Z.ltb_spec (msize s) 4096)].
  - assert (He : byte (128 + msize s)) by (unfold byte; lia).
    exists (128 + msize s). split; [done|]. split; [done|]. left. split; [lia|]. split; [done|].
    unfold LP_ENCODING_6BIT_STR_LEN. cbn [app].
    change (rd (128 + msize s :: s ++ c) 0) with (Some (128 + msize s)). mred.
    destruct (byte_masks _ He) as (_ & -> & _). f_equal. dlia.
  - assert (He : byte (224 + msize s `div` 256)) by (unfold byte; dlia).
    exists (224 + msize s `div` 256). split; [done|]. split; [done|]. right. left.
    split; [dlia|]. split; [done|].
    unfold LP_ENCODING_12BIT_STR_LEN. cbn [app].
    set (m := _ :: _ :: _). change (rd m 0) with (Some (224 + msize s `div` 256)).
    change (rd m (0 + 1)) with (Some (msize s `mod` 256)). mred.
    destruct (byte_masks _ He) as (_ & _ & _ & -> & _).
    rewrite Z.lor_comm, lor_shiftl by (done || dlia). f_equal. dlia.
  - exists 240. split; [done|]. split; [by unfold byte|]. right. right. split; [done|]. split; [done|].
    unfold LP_ENCODING_32BIT_STR_LEN.
    pose proof (lor_bytes_val [240] (le_bytes 4 (msize s)) (s ++ c) 0 (bytes_le_bytes _ _)) as Hl.
    rewrite length_le_bytes in Hl. rewrite <- (assoc_L (++)).
    change ((LP_ENCODING_32BIT_STR :: le_bytes 4 (msize s)) ++ s ++ c)
      with ([240] ++ le_bytes 4 (msize s) ++ s ++ c).
    change (0 + 1) with (msize [240]). rewrite Hl by done.
    rewrite le_val_le_bytes, Z.mul_1_r. f_equal. apply Z.mod_small.
    unfold UINT32_MAX in Hs. lia.
Qed.

Lemma encode_str_size s :
  msize (encode_str s) = (if msize s <? 64 then 1 else if msize s <? 4096 then 2 else 5) + msize s.
Proof. unfold encode_str. by rewrite msize_app, str_header_size. Qed.

Lemma bytes_str_header n : 0 <= n -> bytes (str_header n).
Proof.
  intros Hn. unfold str_header. destruct (Z.ltb_spec n 64); [|destruct (Z.ltb_spec n 4096)].
  - constructor; [unfold byte; lia|constructor].
  - constructor; [unfold byte; dlia|]. constructor; [unfold byte; dlia|constructor].
  - constructor; [by unfold byte|apply bytes_le_bytes].
Qed.

Lemma str_enc_ok s : bytes s -> msize (encode_str s) <= UINT32_MAX -> enc_ok (encode_str s).
Proof.
  intros Hb Hs. pose proof (encode_str_size s) as Hsz. pose proof (msize_nonneg s).
  destruct (str_header_reads s [] Hb) as (e & He & Hbe & Hc); [repeat case_match; lia|].
  rewrite app_nil_r in *. unfold enc_ok. split; [|split; [|split]].
  - apply Forall_app. split; [by apply bytes_str_header|done].
  - destruct (encode_str s) as [|x r]; [done|]. injection He as ->. cbn. unfold LP_EOF.
    intros [= ->]. lia.
  - repeat case_match; lia.
  - unfold lpCurrentEncodedSizeUnsafe. rewrite He. mred. enctests Hbe. rewrite Hsz.
    destruct Hc as [(H1 & H2 & ->)|[(H1 & H2 & ->)|(-> & H2 & ->)]];
      repeat (case_match; bools; try lia); mred; try (f_equal; lia).
    f_equal. apply wrapu_small. unfold in_u, UINT32_MAX in *. lia.
Qed.

Lemma get_str s c buf : bytes s -> msize s <= UINT32_MAX ->
  lpGetWithBuf (encode_str s ++ c) 0 buf = Some (VStr (msize (str_header (msize s))) (msize s)).
Proof.
  intros Hb Hs. destruct (str_header_reads s c Hb Hs) as (e & He & Hbe & Hc).
  rewrite str_header_size. unfold lpGetWithBuf. rewrite He. mred. enctests Hbe.
  destruct Hc as [(H1 & H2 & ->)|[(H1 & H2 & ->)|(-> & H2 & ->)]];
    repeat (case_match; bools; try lia); mred; done.
Qed.

Lemma read_str s c : memread (encode_str s ++ c) (msize (str_header (msize s))) (msize s) = Some s.
Proof. unfold encode_str. rewrite <- (assoc_L (++)). by apply memread_app. Qed.

(** ** What an element stores *)

Lemma lpStringToInt64_eq s : lpStringToInt64 s = string2ll s.
Proof. reflexivity. Qed.

(** The encoding of a string element: as an integer when it denotes one. *)
Definition encode (s : list Z) : mem :=
  match lpStringToInt64 s with
  | Some v => lpEncodeIntegerGetType v
  | None => encode_str s
  end.

Lemma stoi_int v s : lpStringToInt64 s = Some v -> in_s 64 v /\ is_integer v s.
Proof. rewrite lpStringToInt64_eq. apply string2ll_spec. Qed.

Lemma int_ok v : in_s 64 v -> enc_ok (lpEncodeIntegerGetType v).
Proof. intros. by eapply int_enc_ok, encode_int_form. Qed.

Lemma encode_ok s : bytes s -> msize (encode s) <= UINT32_MAX -> enc_ok (encode s).
Proof.
  intros Hb. unfold encode. destruct (lpStringToInt64 s) as [v|] eqn:E.
  - apply stoi_int in E as [Hv _]. intros _. by apply int_ok.
  - by apply str_enc_ok.
Qed.

(** The string that [lpGet] yields, through a pointer or in the buffer. *)
Definition get_string (lp : mem) (v : lpvalue) : option (list Z) :=
  match v with
  | VStr off n => memread lp off n
  | VBuf buf n => memread buf 0 n
  | VInt _ => None
  end.

(** ** Lemmas: the steps of an insertion *)

Section modify.
Context (junk : nat -> Z).

Lemma set_total_at t n rest v :
  lpSetTotalBytes ((le_bytes 4 t ++ le_bytes 2 n) ++ rest) v =
  Some ((le_bytes 4 v ++ le_bytes 2 n) ++ rest).
Proof.
  unfold lpSetTotalBytes. rewrite <- le_bytes_4, <- !(assoc_L (++)).
  apply (memwrite_app [] (le_bytes 4 t) (le_bytes 2 n ++ rest) 0 (le_bytes 4 v)); [done|].
  by rewrite !msize_le_bytes.
Qed.

Lemma set_num_at t n rest v :
  lpSetNumElements ((le_bytes 4 t ++ le_bytes 2 n) ++ rest) v =
  Some ((le_bytes 4 t ++ le_bytes 2 v) ++ rest).
Proof.
  unfold lpSetNumElements. rewrite <- le_bytes_2, <- !(assoc_L (++)).
  apply memwrite_app; by rewrite !msize_le_bytes.
Qed.

Lemma get_num_at t n rest : 0 <= n < 65536 ->
  lpGetNumElements ((le_bytes 4 t ++ le_bytes 2 n) ++ rest) = Some n.
Proof.
  intros Hn. unfold lpGetNumElements. rewrite <- (assoc_L (++)).
  pose proof (lor_bytes_val (le_bytes 4 t) (le_bytes 2 n) rest 0 (bytes_le_bytes _ _)) as H.
  rewrite length_le_bytes, msize_le_bytes in H. change (Z.of_nat 4) with 4 in H.
  rewrite H by done. rewrite le_val_le_bytes, Z.mul_1_r. f_equal. by apply Z.mod_small.
Qed.

Lemma le_bytes_cong n x y : x `mod` 256 ^ Z.of_nat n = y `mod` 256 ^ Z.of_nat n ->
  le_bytes n x = le_bytes n y.
Proof. intros H. by rewrite <- (le_bytes_mod n x), H, le_bytes_mod. Qed.

(** After the first reallocation the block is the old one with room behind it. *)
Lemma realloc_before_ok m new old :
  old <= msize m -> exists j, realloc_before junk m new old = m ++ j /\ new <= msize m + msize j.
Proof.
  intros Ho. unfold realloc_before. rewrite !Z.gtb_ltb.
  destruct ((old <? new) && (msize m <? new)) eqn:E; bools.
  - destruct (zrealloc_grow junk m new) as (j & -> & Hj); [lia|]. exists j. split; [done|lia].
  - exists []. rewrite app_nil_r, msize_nil. split; [done|]. destruct E; bools; lia.
Qed.

Lemma realloc_after_ok a c new old :
  new = msize a -> exists c', realloc_after junk (a ++ c) new old = a ++ c'.
Proof.
  intros ->. unfold realloc_after. destruct (_ <? _); [|by exists c].
  exists []. by rewrite zrealloc_shrink, app_nil_r.
Qed.

(** Storing an entry in a gap of its size. *)
Lemma store_int_at a g c r dst size elestr :
  dst = msize a -> msize g = msize (entry r) -> size = msize r ->
  store_entry (a ++ g ++ c) dst (LP_ENCODING_INT r) size elestr size (lpEncodeBacklen size) =
  Some (a ++ entry r ++ c).
Proof.
  intros -> Hg ->. unfold store_entry. rewrite memread_all. mred.
  unfold entry in *. rewrite msize_app in Hg. by apply memwrite_two.
Qed.

Lemma store_str_at a g c s dst :
  dst = msize a -> msize g = msize (entry (encode_str s)) -> msize s <= UINT32_MAX ->
  store_entry (a ++ g ++ c) dst LP_ENCODING_STRING (msize (encode_str s)) (Some s) (msize s)
    (lpEncodeBacklen (msize (encode_str s))) = Some (a ++ entry (encode_str s) ++ c).
Proof.
  intros -> Hg Hs. unfold store_entry, entry in *. rewrite msize_app in Hg.
  pose proof (msize_nonneg (encode_str s)).
  pose proof (msize_nonneg (lpEncodeBacklen (msize (encode_str s)))).
  destruct (msplit g (msize (encode_str s))) as (g1 & g2 & -> & Hg1); [lia|].
  rewrite msize_app in Hg. rewrite <- (assoc_L (++) g1), encode_string_at by done. mred.
  rewrite (assoc_L (++) a), memwrite_app by (rewrite ?msize_app; lia).
  by rewrite <- !(assoc_L (++)).
Qed.

Lemma type_str s : msize s <= UINT32_MAX ->
  lpEncodeGetType s (msize s) =
    (match lpStringToInt64 s with
     | Some v => LP_ENCODING_INT (lpEncodeIntegerGetType v)
     | None => LP_ENCODING_STRING
     end, msize (encode s)).
Proof.
  intros Hs. unfold lpEncodeGetType, encode. destruct (lpStringToInt64 s); [done|]. f_equal.
  rewrite encode_str_size. pose proof (msize_nonneg s). unfold UINT32_MAX in *.
  ztest; [apply wrapu_small; unfold in_u; lia|].
  ztest; [apply wrapu_small; unfold in_u; lia|done].
Qed.

(** The encoding an insertion stores; [None] for a deletion. *)
Definition new_encoding (elestr eleint : option (list Z)) : option mem :=
  match elestr, eleint with
  | Some s, _ => Some (encode s)
  | None, e => e
  end.

(** The arguments describe an element: a string with its length, or the
    encoding of an integer with its length, or nothing. *)
Definition element_args (elestr eleint : option (list Z)) (size : Z) : Prop :=
  match elestr, eleint with
  | Some s, _ => bytes s /\ size = msize s /\ msize s <= UINT32_MAX
  | None, Some e => enc_ok e /\ size = msize e
  | None, None => True
  end.

Lemma store_at a g c elestr eleint size r t n :
  element_args elestr eleint size -> new_encoding elestr eleint = Some r ->
  insert_type elestr eleint size = (t, n) -> msize g = msize (entry r) ->
  n = msize r /\ exists t', t = Some t' /\
    store_entry (a ++ g ++ c) (msize a) t' n elestr size (lpEncodeBacklen n) =
    Some (a ++ entry r ++ c).
Proof.
  destruct elestr as [s|]; cbn [element_args new_encoding insert_type].
  - intros (Hb & -> & Hs) [= <-]. rewrite type_str by done. intros [= <- <-] Hg.
    split; [done|]. eexists. split; [done|]. unfold encode in *.
    destruct (lpStringToInt64 s) as [v|]; [|by apply store_str_at].
    unfold store_entry. rewrite memread_all. mred.
    unfold entry in *. rewrite msize_app in Hg. by apply memwrite_two.
  - destruct eleint as [e|]; [|done]. intros [He ->] [= <-] [= <- <-] Hg.
    split; [done|]. eexists. split; [done|]. by apply store_int_at.
Qed.

(** The entries [x] behind [l] are exchanged for a gap of [k] bytes. *)
Lemma move_at num l x l' slack k new :
  let old := offset l + msize x + msize (body l') + 1 in
  let head := (le_bytes 4 old ++ le_bytes 2 num) ++ body l in
  0 <= k -> old <= UINT32_MAX -> new = offset l + k + msize (body l') + 1 ->
  exists g c, msize g = k /\
    (m ← memmove (realloc_before junk (head ++ x ++ (body l' ++ [LP_EOF]) ++ slack) new old)
           (offset l + k) (offset l + msize x) (u64 (old - offset l - msize x));
     Some (realloc_after junk m new old)) =
    Some (head ++ g ++ (body l' ++ [LP_EOF]) ++ c).
Proof.
  intros old head Hk Hold Hnew. pose proof (msize_nonneg x). pose proof (msize_nonneg (body l')).
  pose proof (offset_ge l).
  assert (Hh : msize head = offset l).
  { unfold head. by rewrite msize_app, msize_app, !msize_le_bytes. }
  assert (Hb : msize (body l' ++ [LP_EOF]) = msize (body l') + 1) by by rewrite msize_app.
  destruct (realloc_before_ok (head ++ x ++ (body l' ++ [LP_EOF]) ++ slack) new old)
    as (j & -> & Hj).
  { rewrite !msize_app, Hh. change (msize [LP_EOF]) with 1. pose proof (msize_nonneg slack).
    unfold old. lia. }
  rewrite !msize_app, Hh in Hj. change (msize [LP_EOF]) with 1 in Hj.
  replace ((head ++ x ++ (body l' ++ [LP_EOF]) ++ slack) ++ j)
    with (head ++ x ++ (body l' ++ [LP_EOF]) ++ slack ++ j) by by rewrite <- !(assoc_L (++)).
  destruct (memmove_shift head x (body l' ++ [LP_EOF]) (slack ++ j) (offset l + k)
    (offset l + msize x) (u64 (old - offset l - msize x)) k) as (g & c & E & Hg & _).
  1-2: lia.
  { rewrite wrapu_small; unfold in_u, old, UINT32_MAX, LP_HDR_SIZE in *; lia. }
  { rewrite msize_app. unfold old in *. lia. }
  exists g. rewrite E. mred.
  replace (head ++ g ++ (body l' ++ [LP_EOF]) ++ c)
    with ((head ++ g ++ (body l' ++ [LP_EOF])) ++ c) by by rewrite <- !(assoc_L (++)).
  destruct (realloc_after_ok (head ++ g ++ body l' ++ [LP_EOF]) c new old) as (c' & ->).
  { rewrite !msize_app, Hh, Hg. change (msize [LP_EOF]) with 1. lia. }
  exists c'. by rewrite <- !(assoc_L (++)).
Qed.

Lemma header_ok_range num rs : header_ok num rs -> 0 <= num < 65536.
Proof. unfold header_ok, LP_HDR_NUMELE_UNKNOWN. lia. Qed.

Lemma insert_num_at t num rest w (delete : bool) (rs rs' : list mem) :
  header_ok num rs ->
  Z.of_nat (length rs') = Z.of_nat (length rs) +
    (if delete then -1 else match w with LP_REPLACE => 0 | _ => 1 end) ->
  exists num', insert_num ((le_bytes 4 t ++ le_bytes 2 num) ++ rest) w delete =
    Some ((le_bytes 4 t ++ le_bytes 2 num') ++ rest) /\ header_ok num' rs'.
Proof.
  intros Hn Hl. pose proof (header_ok_range _ _ Hn) as Hr.
  unfold insert_num. rewrite get_num_at by done. mred. rewrite !set_num_at.
  unfold header_ok, LP_HDR_NUMELE_UNKNOWN in *.
  assert (Hd : forall x, 0 <= x <= 65535 -> u32 x = x).
  { intros x Hx. apply wrapu_small. unfold in_u. lia. }
  destruct w, delete; try (exists num; split; [done|]; lia);
    (destruct (Z.eqb_spec num 65535); [exists num; split; [done|]; lia|]);
    cbn [negb]; (eexists; split; [done|]); rewrite Hd; lia.
Qed.

Lemma replaced_at num l ro l' slack w :
  Forall enc_ok (l ++ ro ++ l') -> total (l ++ ro ++ l') <= UINT32_MAX ->
  w = LP_BEFORE /\ ro = [] \/ w = LP_REPLACE /\ (exists r0, ro = [r0]) ->
  insert_replaced_len (layout num (l ++ ro ++ l') slack) (offset l) w = Some (msize (body ro)).
Proof.
  intros Hok Ht [[-> ->]|[-> [r0 ->]]]; [done|]. cbn [app] in *. unfold insert_replaced_len.
  assert (Hr : enc_ok r0).
  { apply Forall_app in Hok as [_ Hok]. by apply Forall_cons_1 in Hok as [? _]. }
  rewrite size_at by done. mred. unfold ASSERT_INTEGRITY_LEN. rewrite layout_total by done. mred.
  pose proof (offset_le l r0 l' Hr) as (H1 & _ & H3). rewrite offset_snoc, entry_size in H3.
  pose proof (backlen_pos (msize r0)). pose proof (msize_nonneg r0).
  rewrite wrapu_small by (unfold in_u, total, UINT32_MAX, LP_HDR_SIZE in *; lia).
  unfold cassert. rewrite Z.geb_leb, (proj2 (Z.leb_le _ _)), (proj2 (Z.ltb_lt _ _))
    by (unfold total; lia). mred.
  cbn [body fmap list_fmap concat]. by rewrite app_nil_r, entry_size.
Qed.

(** The entry after a deletion decides [*newp]. *)
Lemma newp_at a l l' c :
  Forall enc_ok l' -> msize a = offset l ->
  (e ← rd (a ++ (body l' ++ [LP_EOF]) ++ c) (offset l);
   Some (if e =? LP_EOF then None else Some (offset l))) = Some (pointer l l').
Proof.
  intros Hok Ha. destruct l' as [|r l']; [by rewrite (rd_app a LP_EOF c)|].
  apply Forall_cons_1 in Hok as [(e & He & Hn & _)%enc_ok_head _].
  unfold body at 1. rewrite fmap_cons. cbn [concat]. unfold entry at 1.
  rewrite <- !(assoc_L (++)), <- Ha.
  rewrite (rd_mono0 a r _ e He), Ha. mred.
  by destruct (Z.eqb_spec e LP_EOF).
Qed.

Lemma total_parts l ro l' :
  total (l ++ ro ++ l') = offset l + msize (body ro) + msize (body l') + 1.
Proof. unfold total. rewrite offset_app, body_app, msize_app. lia. Qed.

Lemma layout_parts num l ro l' slack :
  layout num (l ++ ro ++ l') slack =
  ((le_bytes 4 (total (l ++ ro ++ l')) ++ le_bytes 2 num) ++ body l) ++
    body ro ++ (body l' ++ [LP_EOF]) ++ slack.
Proof. unfold layout. rewrite !body_app. by rewrite <- !(assoc_L (++)). Qed.

Lemma body_option (o : option mem) :
  body (option_list o) = match o with Some r => entry r | None => [] end.
Proof. destruct o; [|done]. unfold body. cbn. apply app_nil_r. Qed.

Lemma insert_type_size elestr eleint size :
  element_args elestr eleint size ->
  snd (insert_type elestr eleint size) =
    match new_encoding elestr eleint with Some r => msize r | None => 0 end.
Proof.
  destruct elestr as [s|]; cbn [element_args new_encoding insert_type].
  - intros (Hb & -> & Hs). by rewrite type_str.
  - destruct eleint as [e|]; [|done]. by intros [_ ->].
Qed.

(** [lpInsert] from its first reallocation to the stored entry. *)
Definition insert_middle (lp : mem) (elestr eleint : option (list Z)) (size p replaced_len new old : Z)
    : option (mem * option Z) :=
  let delete := is_delete elestr eleint in
  let '(etype, enclen) := insert_type elestr eleint size in
  let backlen := if delete then [] else lpEncodeBacklen enclen in
  lp ← memmove (realloc_before junk lp new old) (p + (enclen + msize backlen)) (p + replaced_len)
         (u64 (old - p - replaced_len));
  let lp := realloc_after junk lp new old in
  newp ← (if delete then e ← rd lp p; Some (if e =? LP_EOF then None else Some p)
          else Some (Some p));
  lp ← match etype with
       | None => Some lp
       | Some t => store_entry lp p t enclen elestr size backlen
       end;
  Some (lp, newp).

Lemma insert_middle_ok num slack elestr eleint size l ro l' :
  let rn := option_list (new_encoding elestr eleint) in
  let old := total (l ++ ro ++ l') in
  let new := total (l ++ rn ++ l') in
  old <= UINT32_MAX -> element_args elestr eleint size -> Forall enc_ok l' ->
  exists slack',
  insert_middle (layout num (l ++ ro ++ l') slack) elestr eleint size (offset l)
    (msize (body ro)) new old =
  Some ((le_bytes 4 old ++ le_bytes 2 num) ++ body (l ++ rn ++ l') ++ [LP_EOF] ++ slack',
    match new_encoding elestr eleint with Some _ => Some (offset l) | None => pointer l l' end).
Proof.
  intros rn old new Hold Hargs Hok.
  pose proof (insert_type_size elestr eleint size Hargs) as Hsz.
  unfold insert_middle. destruct (insert_type elestr eleint size) as [t n] eqn:Et. cbn [snd] in Hsz.
  set (backlen := if is_delete elestr eleint then [] else _).
  destruct (move_at num l (body ro) l' slack (n + msize backlen) new) as (g & c & Hg & E).
  { pose proof (msize_nonneg backlen). 
    destruct (new_encoding elestr eleint) as [r|]; [pose proof (msize_nonneg r)|]; lia. }
  { unfold old in Hold. by rewrite total_parts in Hold. }
  { unfold new, rn. rewrite total_parts, body_option.
    unfold backlen, is_delete, new_encoding in *.
    destruct elestr, eleint; rewrite ?entry_size, ?backlen_size; subst n; try done; lia. }
  unfold old in *. rewrite layout_parts, total_parts.
  destruct (memmove _ _ _ _) as [m|]; [|done]. apply (inj Some) in E. mred. rewrite E.
  clear m E. set (hd := le_bytes 4 _ ++ le_bytes 2 num).
  assert (Ha : msize (hd ++ body l) = offset l).
  { unfold hd. by rewrite !msize_app, !msize_le_bytes. }
  exists c. unfold rn. rewrite !body_app, body_option. unfold backlen in *.
  destruct (new_encoding elestr eleint) as [r|] eqn:Er.
  - assert (Hd : is_delete elestr eleint = false).
    { by destruct elestr, eleint. }
    rewrite Hd in *. mred.
    destruct (store_at (hd ++ body l) g ((body l' ++ [LP_EOF]) ++ c) elestr eleint size r t n)
      as (Hn & t' & -> & Hst); [done..| |].
    { by rewrite Hg, entry_size, backlen_size, Hsz. }
    rewrite <- Ha, Hst. mred. by rewrite <- !(assoc_L (++)).
  - destruct elestr, eleint; try done. injection Et as <- <-.
    assert (g = []) as -> by (apply msize_zero; by rewrite Hg).
    rewrite app_nil_l, newp_at by done. mred. by rewrite <- !(assoc_L (++)).
Qed.
Lemma insert_unfold lp elestr eleint size p where_ q w old rl :
  let delete := is_delete elestr eleint in
  let '(_, enclen) := insert_type elestr eleint size in
  let backlen := if delete then [] else lpEncodeBacklen enclen in
  let new := u64 (old + enclen + msize backlen - rl) in
  insert_at lp p (if delete then LP_REPLACE else where_) = Some (q, w) ->
  w = LP_BEFORE /\ rl = 0 \/ w = LP_REPLACE ->
  lpGetTotalBytes lp = Some old -> insert_replaced_len lp q w = Some rl ->
  lpInsert junk lp elestr eleint size p where_ =
  if new >? UINT32_MAX then Some None
  else
    '(lp, newp) ← insert_middle lp elestr eleint size q rl new old;
    lp ← insert_num lp w delete;
    lp ← lpSetTotalBytes lp new; Some (Some (lp, newp)).
Proof.
  intros delete. destruct (insert_type elestr eleint size) as [t n] eqn:Et.
  intros backlen new Hat Hw Hold Hrl. unfold lpInsert, insert_middle. rewrite Et. cbv zeta.
  fold delete. rewrite Hat. cbn [mbind option_bind]. rewrite Hold. cbn [mbind option_bind].
  rewrite Hrl. cbn [mbind option_bind]. fold backlen. fold new.
  destruct (new >? UINT32_MAX); [done|].
  rewrite <- !(Z.add_assoc q).
  destruct Hw as [[-> ->]| ->]; rewrite ?Z.add_0_r, ?Z.sub_0_r;
    rewrite bind_assoc; apply bind_ext; intros m;
    rewrite bind_assoc; apply bind_ext; intros newp; by rewrite bind_assoc.
Qed.
Lemma encode_size s : msize (encode s) <= 5 + msize s \/ msize (encode s) <= 9.
Proof.
  unfold encode. destruct (lpStringToInt64 s) as [v|] eqn:E.
  - right. apply stoi_int in E as [Hv _]. apply encode_int_form in Hv as [H|H|tag n Ht H]; [done..|].
    apply tag_cases in Ht. rewrite msize_cons, msize_le_bytes. lia.
  - left. rewrite encode_str_size. repeat case_match; lia.
Qed.

Lemma new_encoding_size elestr eleint size r :
  element_args elestr eleint size -> new_encoding elestr eleint = Some r ->
  0 <= msize r <= 5 + UINT32_MAX.
Proof.
  pose proof (msize_nonneg r). intros Hargs Hr.
  destruct elestr as [s|]; cbn [new_encoding] in Hr.
  - destruct Hargs as (_ & _ & Hs). injection Hr as <-. pose proof (encode_size s).
    unfold UINT32_MAX in *. lia.
  - destruct eleint as [e|]; [|done]. injection Hr as ->. destruct Hargs as [(_ & _ & He & _) _].
    unfold UINT32_MAX in *. lia.
Qed.

Lemma new_total elestr eleint size l ro l' :
  let rn := option_list (new_encoding elestr eleint) in
  let enclen := snd (insert_type elestr eleint size) in
  let backlen := if is_delete elestr eleint then [] else lpEncodeBacklen enclen in
  element_args elestr eleint size -> total (l ++ ro ++ l') <= UINT32_MAX ->
  u64 (total (l ++ ro ++ l') + enclen + msize backlen - msize (body ro)) = total (l ++ rn ++ l').
Proof.
  intros rn enclen backlen Hargs Ht.
  assert (Hk : enclen + msize backlen = msize (body rn)).
  { unfold rn, backlen, enclen. rewrite body_option, insert_type_size by done.
    unfold is_delete, new_encoding. by destruct elestr, eleint; rewrite ?entry_size, ?backlen_size. }
  assert (total (l ++ ro ++ l') + enclen + msize backlen - msize (body ro) = total (l ++ rn ++ l'))
    as ->.
  { rewrite !total_parts. lia. }
  apply wrapu_small. rewrite total_parts in *. pose proof (msize_nonneg (body rn)).
  pose proof (msize_nonneg (body l')). pose proof (msize_nonneg (body ro)). pose proof (offset_ge l).
  assert (msize (body rn) <= 2 * UINT32_MAX).
  { unfold rn. rewrite body_option. destruct (new_encoding elestr eleint) as [r|] eqn:Er; [|done].
    rewrite entry_size. pose proof (backlen_pos (msize r)).
    pose proof (new_encoding_size _ _ _ _ Hargs Er). unfold UINT32_MAX in *. lia. }
  unfold in_u, UINT32_MAX, LP_HDR_SIZE in *. lia.
Qed.

Lemma insert_run num slack elestr eleint size p where_ l ro l' w :
  let lp := layout num (l ++ ro ++ l') slack in
  let rn := option_list (new_encoding elestr eleint) in
  let delete := is_delete elestr eleint in
  header_ok num (l ++ ro ++ l') -> Forall enc_ok (l ++ ro ++ l') ->
  total (l ++ ro ++ l') <= UINT32_MAX -> element_args elestr eleint size ->
  insert_at lp p (if delete then LP_REPLACE else where_) = Some (offset l, w) ->
  w = LP_BEFORE /\ ro = [] /\ delete = false \/ w = LP_REPLACE /\ (exists r0, ro = [r0]) ->
  if decide (total (l ++ rn ++ l') <= UINT32_MAX) then
    exists num' slack', lpInsert junk lp elestr eleint size p where_ =
      Some (Some (layout num' (l ++ rn ++ l') slack',
                  if delete then pointer l l' else Some (offset l))) /\
      header_ok num' (l ++ rn ++ l')
  else lpInsert junk lp elestr eleint size p where_ = Some None.
Proof.
  intros lp rn delete Hh Hok Ht Hargs Hat Hw.
  pose proof (insert_unfold lp elestr eleint size p where_ (offset l) w
    (total (l ++ ro ++ l')) (msize (body ro))) as Hu. cbv zeta in Hu.
  fold delete in Hu.
  pose proof (new_total elestr eleint size l ro l' Hargs Ht) as Hn.
  cbv zeta in Hn. fold rn delete in Hn.
  destruct (insert_type elestr eleint size) as [t n]. cbn [snd] in Hn. rewrite Hn in Hu.
  rewrite Hu; clear Hu; [|done| |by apply layout_total|].
  2: { destruct Hw as [(? & -> & _)|[-> _]]; auto. }
  2: { apply replaced_at; [done..|]. naive_solver. }
  rewrite Z.gtb_ltb. destruct (decide _) as [Hle|Hle]; [|by rewrite (proj2 (Z.ltb_lt _ _)) by lia].
  rewrite (proj2 (Z.ltb_ge _ _)) by lia.
  destruct (insert_middle_ok num slack elestr eleint size l ro l') as (c & Em); [done..| |].
  { by apply Forall_app in Hok as [_ [_ ?]%Forall_app]. }
  fold rn lp in Em. rewrite Em.
  cbn [mbind option_bind].
  destruct (insert_num_at (total (l ++ ro ++ l')) num (body (l ++ rn ++ l') ++ [LP_EOF] ++ c) w delete
    (l ++ ro ++ l') (l ++ rn ++ l') Hh) as (num' & -> & Hh').
  { rewrite !length_app. unfold rn, delete in *. clear -Hw.
    destruct Hw as [(-> & -> & Hd)|(-> & r0 & ->)]; destruct elestr, eleint; try done; cbn; lia. }
  cbn [mbind option_bind]. rewrite set_total_at. cbn [mbind option_bind].
  exists num', c. split; [|done]. do 3 f_equal. unfold delete. by destruct elestr, eleint.
Qed.

(** The effect of an insertion, deletion or replacement on the list of elements,
    and the new cursor. *)
Inductive edit : lpwhere -> option mem -> list mem -> Z -> list mem -> option Z -> Prop :=
  | edit_before r l l' : edit LP_BEFORE (Some r) (l ++ l') (offset l) (l ++ r :: l') (Some (offset l))
  | edit_after r r0 l l' : edit LP_AFTER (Some r) (l ++ r0 :: l') (offset l)
      (l ++ r0 :: r :: l') (Some (offset (l ++ [r0])))
  | edit_replace r r0 l l' : edit LP_REPLACE (Some r) (l ++ r0 :: l') (offset l)
      (l ++ r :: l') (Some (offset l))
  | edit_delete w r0 l l' : edit w None (l ++ r0 :: l') (offset l) (l ++ l') (pointer l l').

Lemma insert_at_after num slack l r0 l' :
  Forall enc_ok (l ++ r0 :: l') -> total (l ++ r0 :: l') <= UINT32_MAX ->
  insert_at (layout num (l ++ r0 :: l') slack) (offset l) LP_AFTER =
  Some (offset (l ++ [r0]), LP_BEFORE).
Proof.
  intros Hok Ht. assert (Hr : enc_ok r0).
  { apply Forall_app in Hok as [_ Hok]. by apply Forall_cons_1 in Hok as [? _]. }
  unfold insert_at. rewrite skip_at by done. mred. unfold ASSERT_INTEGRITY.
  rewrite layout_total by done. mred. pose proof (offset_le l r0 l' Hr). pose proof (msize_nonneg r0).
  unfold cassert. rewrite Z.geb_leb, (proj2 (Z.leb_le _ _)), (proj2 (Z.ltb_lt _ _));
    [done|unfold total; lia|lia].
Qed.

Lemma new_encoding_delete elestr eleint :
  is_delete elestr eleint = match new_encoding elestr eleint with Some _ => false | None => true end.
Proof. by destruct elestr, eleint. Qed.

Lemma new_encoding_ok elestr eleint size r :
  element_args elestr eleint size -> new_encoding elestr eleint = Some r ->
  msize r <= UINT32_MAX -> enc_ok r.
Proof.
  destruct elestr as [s|]; cbn [new_encoding element_args].
  - intros (Hb & -> & Hs) [= <-]. by apply encode_ok.
  - destruct eleint; [|done]. by intros [? _] [= <-].
Qed.

Lemma insert_result num slack elestr eleint size p where_ l ro l' w rn :
  let lp := layout num (l ++ ro ++ l') slack in
  let delete := is_delete elestr eleint in
  new_encoding elestr eleint = rn ->
  header_ok num (l ++ ro ++ l') -> Forall enc_ok (l ++ ro ++ l') ->
  total (l ++ ro ++ l') <= UINT32_MAX -> element_args elestr eleint size ->
  insert_at lp p (if delete then LP_REPLACE else where_) = Some (offset l, w) ->
  w = LP_BEFORE /\ ro = [] /\ delete = false \/ w = LP_REPLACE /\ (exists r0, ro = [r0]) ->
  if decide (total (l ++ option_list rn ++ l') <= UINT32_MAX) then
    exists lp', lpInsert junk lp elestr eleint size p where_ =
      Some (Some (lp', if delete then pointer l l' else Some (offset l))) /\
      listpack lp' (l ++ option_list rn ++ l')
  else lpInsert junk lp elestr eleint size p where_ = Some None.
Proof.
  intros lp delete <- Hh Hok Ht Hargs Hat Hw.
  pose proof (insert_run num slack elestr eleint size p where_ l ro l' w Hh Hok Ht Hargs Hat Hw) as H.
  destruct (decide _) as [Hle|]; [|done]. destruct H as (num' & c & E & Hh').
  eexists. split; [exact E|]. exists num', c. split; [done|]. split; [|done].
  apply Forall_app in Hok as [Hl [_ Hl']%Forall_app]. apply Forall_app. split; [done|].
  apply Forall_app. split; [|done].
  destruct (new_encoding elestr eleint) as [r|] eqn:Er; [|constructor].
  constructor; [|constructor]. apply (new_encoding_ok _ _ _ _ Hargs Er).
  rewrite total_parts, body_option, entry_size in Hle. pose proof (backlen_pos (msize r)).
  pose proof (msize_nonneg (body l')). pose proof (offset_ge l). unfold LP_HDR_SIZE in *. lia.
Qed.

Lemma lpInsert_spec lp rs elestr eleint size p where_ rs' newp :
  listpack lp rs -> element_args elestr eleint size ->
  edit where_ (new_encoding elestr eleint) rs p rs' newp ->
  if decide (total rs' <= UINT32_MAX) then
    exists lp', lpInsert junk lp elestr eleint size p where_ = Some (Some (lp', newp)) /\
      listpack lp' rs'
  else lpInsert junk lp elestr eleint size p where_ = Some None.
Proof.
  intros (num & slack & -> & Hok & Ht & Hh) Hargs He.
  pose proof (insert_result num slack elestr eleint size p where_) as H. cbv zeta in H.
  rewrite new_encoding_delete in H. revert H.
  inversion He as [r l l' Hw Hr E1 E2 E3 E4|r r0 l l' Hw Hr E1 E2 E3 E4|r r0 l l' Hw Hr E1 E2 E3 E4
    |w r0 l l' Hw Hr E1 E2 E3 E4]; subst; intros H.
  - by apply (H l [] l' LP_BEFORE (Some r)); auto.
  - specialize (H (l ++ [r0]) [] l' LP_BEFORE (Some r)). rewrite <- !(assoc_L (++)) in H.
    apply H; auto. by apply insert_at_after.
  - apply (H l [r0] l' LP_REPLACE (Some r)); eauto.
  - apply (H l [r0] l' LP_REPLACE None); eauto.
Qed.
End modify.

(** ** Seeking *)

Section seek.
Context (num : Z) (slack : mem) (rs : list mem).
Context (Hok : Forall enc_ok rs) (Ht : total rs <= UINT32_MAX).
Let lp := layout num rs slack.

(** The element of index [i], as a pointer. *)
Definition elem_at (i : Z) : option Z :=
  if (0 <=? i) && (i <? Z.of_nat (length rs)) then Some (offset (take (Z.to_nat i) rs)) else None.

Lemma elem_at_split l r l' : rs = l ++ r :: l' -> elem_at (Z.of_nat (length l)) = Some (offset l).
Proof.
  intros E. unfold elem_at. assert (length rs = length l + S (length l'))%nat as ->.
  { by rewrite E, length_app. }
  repeat ztrue lia. cbn [andb]. by rewrite Nat2Z.id, E, take_app_length.
Qed.

Lemma elem_at_out i : i < 0 \/ Z.of_nat (length rs) <= i -> elem_at i = None.
Proof. intros H. unfold elem_at. destruct (_ && _) eqn:E; bools; [lia|done]. Qed.

Lemma elem_at_cases i :
  (exists l r l', rs = l ++ r :: l' /\ i = Z.of_nat (length l) /\ elem_at i = Some (offset l)) \/
  (i < 0 \/ Z.of_nat (length rs) <= i) /\ elem_at i = None.
Proof.
  destruct (decide (0 <= i < Z.of_nat (length rs))) as [Hi|Hi].
  - left. destruct (lookup_lt_is_Some_2 rs (Z.to_nat i)) as [r Hr]; [lia|].
    exists (take (Z.to_nat i) rs), r, (drop (S (Z.to_nat i)) rs).
    assert (E : rs = take (Z.to_nat i) rs ++ r :: drop (S (Z.to_nat i)) rs) by by rewrite take_drop_middle.
    assert (El : i = Z.of_nat (length (take (Z.to_nat i) rs))) by (rewrite length_take; lia).
    split; [done|]. split; [done|]. rewrite El at 1. by eapply elem_at_split.
  - right. split; [lia|]. apply elem_at_out. lia.
Qed.

Lemma next_elem i p : elem_at i = Some p -> lpNext lp p = Some (elem_at (i + 1)).
Proof using Hok Ht.
  destruct (elem_at_cases i) as [(l & r & l' & E & -> & ->)|[_ ->]]; [|done]. intros [= <-].
  unfold lp. rewrite E in *. rewrite next_at by done. f_equal. rewrite <- E in *.
  destruct l' as [|r' l']; cbn [pointer].
  - rewrite elem_at_out; [done|]. right. rewrite E, length_app. cbn. lia.
  - rewrite <- (elem_at_split (l ++ [r]) r' l') by by rewrite E, <- (assoc_L (++)).
    f_equal. rewrite length_app. cbn. lia.
Qed.

Lemma prev_elem i p : elem_at i = Some p -> lpPrev lp p = Some (elem_at (i - 1)).
Proof using Hok Ht.
  destruct (elem_at_cases i) as [(l & r & l' & E & -> & ->)|[_ ->]]; [|done]. intros [= <-].
  destruct l as [|r0 l _] using rev_ind; [by rewrite elem_at_out by (cbn; lia)|].
  rewrite <- (assoc_L (++)) in E. cbn [app] in E. unfold lp. rewrite E in *.
  rewrite prev_at by done. rewrite <- E in *. f_equal. symmetry.
  rewrite <- (elem_at_split l r0 (r :: l')) by done. f_equal. rewrite length_app. cbn. lia.
Qed.

Lemma seek_forward_elem n i : 0 <= i ->
  lpSeek_forward n lp (elem_at i) = Some (elem_at (i + Z.of_nat n)).
Proof using Hok Ht.
  revert i. induction n as [|n IH]; intros i Hi; cbn [lpSeek_forward]; [by rewrite Z.add_0_r|].
  destruct (elem_at i) as [p|] eqn:E.
  - rewrite (next_elem i p E). mred. rewrite IH by lia. do 2 f_equal. lia.
  - rewrite elem_at_out; [done|]. destruct (elem_at_cases i) as [(?&?&?&?&?&?)|[? _]]; [congruence|lia].
Qed.

Lemma seek_backward_elem n i : i < Z.of_nat (length rs) ->
  lpSeek_backward n lp (elem_at i) = Some (elem_at (i - Z.of_nat n)).
Proof using Hok Ht.
  revert i. induction n as [|n IH]; intros i Hi; cbn [lpSeek_backward]; [by rewrite Z.sub_0_r|].
  destruct (elem_at i) as [p|] eqn:E.
  - rewrite (prev_elem i p E). mred. rewrite IH by lia. do 2 f_equal. lia.
  - rewrite elem_at_out; [done|]. destruct (elem_at_cases i) as [(?&?&?&?&?&?)|[? _]]; [congruence|lia].
Qed.

Lemma first_elem : lpFirst lp = Some (elem_at 0).
Proof using Hok Ht.
  unfold lp. rewrite first_at by done. f_equal.
  destruct (elem_at_cases 0) as [(l & r & l' & E & El & ->)|[Hl ->]].
  - destruct l; [|done]. by rewrite E.
  - destruct rs; [done|]. cbn in Hl. lia.
Qed.

Lemma last_elem : lpLast lp = Some (elem_at (Z.of_nat (length rs) - 1)).
Proof using Hok Ht.
  unfold lp. rewrite last_at by done. f_equal.
  destruct (rev rs) as [|r l] eqn:E; apply (f_equal (@rev _)) in E; rewrite rev_involutive in E.
  - by rewrite elem_at_out by (rewrite E; cbn; lia).
  - cbn [rev] in E. rewrite <- (elem_at_split (rev l) r []) by done. f_equal.
    rewrite E, length_app. cbn. lia.
Qed.

End seek.

Lemma lpSeek_spec lp rs index :
  listpack lp rs ->
  lpSeek lp index =
    Some (elem_at rs (if index <? 0 then Z.of_nat (length rs) + index else index)).
Proof.
  intros (num & slack & -> & Hok & Ht & Hh). pose proof (header_ok_range _ _ Hh) as Hr.
  unfold lpSeek. rewrite layout_num by done. rewrite first_elem, last_elem by done. mred.
  assert (Hf : forall i, 0 <= i -> lpSeek_forward (Z.to_nat i) (layout num rs slack) (elem_at rs 0) =
    Some (elem_at rs i)).
  { intros i Hi. rewrite seek_forward_elem by (done || lia). do 2 f_equal. lia. }
  assert (Hb : forall i, i < 0 -> lpSeek_backward (Z.to_nat (-1 - i)) (layout num rs slack)
      (elem_at rs (Z.of_nat (length rs) - 1)) = Some (elem_at rs (Z.of_nat (length rs) + i))).
  { intros i Hi. rewrite seek_backward_elem by (done || lia). do 2 f_equal. lia. }
  unfold header_ok, LP_HDR_NUMELE_UNKNOWN in *. destruct (Z.eqb_spec num 65535) as [->|Hn]; cbn [negb].
  - destruct (Z.ltb_spec index 0); auto.
  - destruct Hh as [|[En Hlt]]; [done|]. rewrite <- En.
    set (i := if index <? 0 then num + index else index).
    destruct (Z.ltb_spec i 0); [by rewrite elem_at_out by lia|].
    rewrite Z.geb_leb. destruct (Z.leb_spec num i); [by rewrite elem_at_out by lia|].
    destruct (i >? num `quot` 2); [|by apply Hf].
    rewrite <- En in Hb. rewrite Hb by lia. do 2 f_equal. lia.
Qed.

(** ** Reading any valid element *)

Section get.
Context (a r c : mem).

Lemma get_size_embed v n es :
  lpGetWithSize r 0 None es = Some (v, n) ->
  lpGetWithSize (a ++ r ++ c) (msize a) None es = Some (shift_value (msize a) v, n).
Proof.
  change (shift_value (msize a) v, n) with ((fun '(v, n) => (shift_value (msize a) v, n)) (v, n)).
  apply opt_le_fmap_spec.
  unfold lpGetWithSize, LP_ENCODING_6BIT_STR_LEN, LP_ENCODING_12BIT_STR_LEN,
    LP_ENCODING_32BIT_STR_LEN, int_value, int_result. mred.
  opt_mono ltac:(apply rd_mono || apply rd_mono0 || apply lor_bytes_mono); apply opt_le_refl.
Qed.
End get.

Lemma lor_bytes_total r p k n : 0 <= p -> p + Z.of_nat n <= msize r ->
  exists v, lor_bytes r p k n = Some v.
Proof.
  revert p k. induction n as [|n IH]; intros p k Hp Hn; cbn [lor_bytes]; [by eexists|].
  destruct (rd_is_Some r p) as [b ->]; [lia|]. mred.
  destruct (IH (p + 1) (k + 8)) as [v ->]; [lia..|]. by eexists.
Qed.

Lemma lor_bytes_range r p n v : bytes r -> lor_bytes r p 0 (S n) = Some v ->
  0 <= v < 256 ^ Z.of_nat (S n).
Proof.
  intros Hb Hv. pose proof (lor_bytes_bounds _ _ _ _ _ Hv) as [Hp Hn].
  destruct (memread_split r p (Z.of_nat (S n))) as (a & b & c & -> & -> & Hl & _); [lia..|].
  unfold msize in Hl. apply Nat2Z.inj in Hl. rewrite Hl in Hv.
  apply Forall_app in Hb as [_ [Hb _]%Forall_app].
  rewrite lor_bytes_val in Hv by done. injection Hv as <-.
  rewrite Hl, Z.mul_1_r. by apply le_val_bound.
Qed.

Lemma land_nonneg_r a b : 0 <= b -> 0 <= Z.land a b.
Proof. intros. apply Z.land_nonneg. by right. Qed.

(** A valid encoding decodes; [lpGetWithSize] agrees with [lpGet] and also finds
    the size of the entry. *)
Definition value_in (r : mem) (v : lpvalue) : Prop :=
  match v with
  | VStr off n => 0 <= off /\ 0 <= n /\ off + n = msize r
  | VInt _ => True
  | VBuf _ _ => False
  end.

Lemma get_ok r es : enc_ok r ->
  exists v, lpGetWithBuf r 0 None = Some v /\ lpGetWithSize r 0 None es = Some (v, msize (entry r)) /\
    value_in r v.
Proof.
  intros Hr. destruct (enc_ok_head r Hr) as (e & He & Hn & Hb). destruct Hr as (Hby & _ & Hs & Hu).
  rewrite entry_size. revert Hu.
  unfold lpCurrentEncodedSizeUnsafe, lpGetWithSize, lpGetWithBuf.
  rewrite He. mred. enctests Hb. change (0 + 1) with 1.
  unfold LP_ENCODING_6BIT_STR_LEN, LP_ENCODING_12BIT_STR_LEN, LP_ENCODING_32BIT_STR_LEN.
  rewrite He. mred. change (0 + 1) with 1.
  pose proof (lor_bytes_total r 1 0) as Hl.
  destruct (e <? 128) eqn:E1; [|destruct (e <? 192) eqn:E2; [|destruct (e <? 224) eqn:E3;
    [|destruct (e <? 240) eqn:E4]]]; bools;
    rewrite ?andb_true_r, ?andb_false_r;
    repeat first [rewrite (proj2 (Z.leb_le _ _)) by lia | rewrite (proj2 (Z.leb_gt _ _)) by lia |
      rewrite (proj2 (Z.eqb_neq e _)) by lia]; cbn [andb].
  - intros [= Hsz]. rewrite <- Hsz. eexists. split; [reflexivity|]. split; [reflexivity|exact I].
  - intros [= Hsz]. eexists. split; [done|]. rewrite <- Hsz. split.
    + by rewrite (Z.add_comm 1).
    + cbn. pose proof (land_nonneg_r e 63). lia.
  - intros [= Hsz]. destruct (rd_is_Some r 1) as [e1 ->]; [lia|]. mred. rewrite <- Hsz. by eexists.
  - destruct (rd r 1) as [e1|] eqn:He1; [|done]. mred. intros [= Hsz].
    eexists. split; [done|]. rewrite <- Hsz. split.
    + by rewrite (Z.add_comm 2).
    + cbn [value_in]. assert (0 <= Z.lor (Z.shiftl (Z.land e 15) 8) e1); [|lia].
      apply Z.lor_nonneg. pose proof (rd_byte _ _ _ Hby He1) as Hb1. unfold byte in Hb1.
      split; [|lia]. apply Z.shiftl_nonneg. by apply land_nonneg_r.
  - destruct (e =? 241) eqn:T1; [intros [= Hsz]; destruct (Hl 2%nat) as [v ->]; [lia..|];
      mred; rewrite <- Hsz; bools; subst e; by eexists|].
    destruct (e =? 242) eqn:T2; [intros [= Hsz]; destruct (Hl 3%nat) as [v ->]; [lia..|];
      mred; rewrite <- Hsz; bools; subst e; by eexists|].
    destruct (e =? 243) eqn:T3; [intros [= Hsz]; destruct (Hl 4%nat) as [v ->]; [lia..|];
      mred; rewrite <- Hsz; bools; subst e; by eexists|].
    destruct (e =? 244) eqn:T4; [intros [= Hsz]; destruct (Hl 8%nat) as [v ->]; [lia..|];
      mred; rewrite <- Hsz; bools; subst e; by eexists|].
    destruct (e =? 240); [|destruct (e =? LP_EOF) eqn:T5; bools; [done|intros [= ?]; lia]].
    destruct (lor_bytes r 1 0 4) as [n|] eqn:En; [|done]. mred. intros [= Hsz].
    pose proof (lor_bytes_bounds _ _ _ _ _ En) as Hbd. apply lor_bytes_range in En; [|done].
    assert (Hw : 5 + n = msize r).
    { unfold wrapu in Hsz. change (256 ^ Z.of_nat 4) with (2 ^ 32) in En.
      rewrite <- Hsz. symmetry. apply Z.mod_small. dlia. }
    eexists. split; [done|]. rewrite <- Hw. split; [by rewrite (Z.add_comm 5)|]. cbn. lia.
Qed.

(** ** Searching *)

(** The comparison of an element with a string: equal strings, or the integer
    the string denotes. *)
Definition elem_matches (s : list Z) (r : mem) : bool :=
  match decode r with
  | Some (CStr s') => bool_decide (s = s')
  | Some (CInt v) => bool_decide (lpStringToInt64 s = Some v)
  | None => false
  end.

Definition arg_ok (s : list Z) (arg : lpFindArg) : Prop :=
  fa_s arg = s /\
  (fa_vencoding arg = 0 \/
   fa_vencoding arg = UCHAR_MAX /\ lpStringToInt64 s = None \/
   fa_vencoding arg = 1 /\ lpStringToInt64 s = Some (fa_vll arg)).

(** The length tests in front of the conversion never change its outcome. *)
Lemma stoi_guard s :
  (if (msize s >=? 32) || (msize s =? 0) then None else lpStringToInt64 s) = lpStringToInt64 s.
Proof.
  destruct (_ || _) eqn:E; [|done]. unfold lpStringToInt64, LONG_STR_SIZE.
  apply orb_prop in E as [E|E]; bools.
  - assert (msize s >=? 21 = true) as -> by (rewrite Z.geb_leb; apply Z.leb_le; lia).
    by rewrite orb_true_r.
  - rewrite E. done.
Qed.

Lemma cmp_int s arg lp p v : arg_ok s arg ->
  exists arg', lpFindCmp lp p arg (VInt v) =
    Some (bool_decide (lpStringToInt64 s = Some v), arg') /\ arg_ok s arg'.
Proof.
  intros [Hs Ha]. unfold lpFindCmp. rewrite Hs, stoi_guard.
  assert (Hcase : forall a, arg_ok s a -> fa_vencoding a <> 0 ->
    negb (fa_vencoding a =? UCHAR_MAX) && (v =? fa_vll a) = bool_decide (lpStringToInt64 s = Some v)).
  { intros a [_ [Hz|[[-> ->]|[-> ->]]]] Hn; [done|..].
    - by rewrite bool_decide_false.
    - destruct (Z.eqb_spec v (fa_vll a)) as [->|Hne]; [by rewrite bool_decide_true|].
      rewrite bool_decide_false; [done|congruence]. }
  destruct (Z.eqb_spec (fa_vencoding arg) 0) as [Hz|Hz].
  - destruct (lpStringToInt64 s) as [w|] eqn:E; eexists; (split; [rewrite Hcase; [done| |done]|]);
      (split; [done|]); cbn; auto.
  - eexists. split; [by rewrite Hcase|]. by split.
Qed.

Section find.
Context (num : Z) (slack : mem) (s : list Z) (skip : Z).
Context (Hskip : 0 <= skip < 2 ^ 31).

Lemma cmp_at l r l' arg v :
  enc_ok r -> lpGetWithBuf r 0 None = Some v -> value_in r v -> arg_ok s arg ->
  exists arg', lpFindCmp (layout num (l ++ r :: l') slack) (offset l) arg
      (shift_value (offset l) v) = Some (elem_matches s r, arg') /\ arg_ok s arg'.
Proof.
  intros Hr Hg Hv Ha. unfold elem_matches, decode. rewrite Hg. mred.
  destruct v as [off n|buf n|v]; cbn [shift_value value_in] in *; [|done|by apply cmp_int].
  destruct Hv as (Ho & Hn & Hon). destruct (memread_is_Some r off n) as [bs Hbs]; [lia..|].
  rewrite Hbs. mred. exists arg. split; [|done]. unfold lpFindCmp.
  destruct Ha as [-> _]. pose proof (memread_length _ _ _ _ Hbs) as Hl.
  destruct (Z.eqb_spec n (msize s)) as [->|Hne].
  - rewrite layout_split, (layout_at num l r l' _ eq_refl), memread_embed, Hbs by lia. done.
  - rewrite bool_decide_false; [done|]. intros ->. lia.
Qed.

Fixpoint find_from (skipcnt : Z) (l l' : list mem) : option Z :=
  match l' with
  | [] => None
  | r :: l'' =>
    if skipcnt =? 0 then
      if elem_matches s r then Some (offset l) else find_from skip (l ++ [r]) l''
    else find_from (skipcnt - 1) (l ++ [r]) l''
  end.

(** The check that follows every step and the end test. *)
Lemma find_next l l' {A} (k : option (option A)) :
  Forall enc_ok (l ++ l') -> total (l ++ l') <= UINT32_MAX ->
  let lp := layout num (l ++ l') slack in
  (_ ← (if offset l + 8 >=? total (l ++ l')
        then lpAssertValidEntry lp (total (l ++ l')) (offset l)
        else cassert ((offset l >=? LP_HDR_SIZE) && (offset l <? total (l ++ l'))));
   e ← rd lp (offset l); if e =? LP_EOF then Some None else k) =
  match l' with [] => Some None | _ => k end.
Proof.
  intros Hok Ht lp. unfold lp. rewrite assert_at by done.
  assert (cassert ((offset l >=? LP_HDR_SIZE) && (offset l <? total (l ++ l'))) = Some ()) as ->.
  { pose proof (offset_ge l). pose proof (msize_nonneg (body l')). unfold cassert.
    rewrite Z.geb_leb, (proj2 (Z.leb_le _ _)), (proj2 (Z.ltb_lt _ _)); [done| |done].
    unfold total. rewrite offset_app. lia. }
  destruct (_ >=? _); mred; (destruct l' as [|r l']; [by rewrite app_nil_r, rd_end|]);
    (destruct (rd_elem num slack l r l') as (e & -> & Hn & _);
      [apply Forall_app in Hok as [_ Hok]; by apply Forall_cons_1 in Hok as [? _]|]); mred;
    by destruct (Z.eqb_spec e LP_EOF).
Qed.

(** One iteration of the search. *)
Lemma find_step l r l' fuel arg skipcnt es :
  let lp := layout num (l ++ r :: l') slack in
  let bytes := total (l ++ r :: l') in
  Forall enc_ok (l ++ r :: l') -> total (l ++ r :: l') <= UINT32_MAX -> arg_ok s arg ->
  exists arg' es', arg_ok s arg' /\
    lpFind_loop lpFindCmp (S fuel) lp bytes (offset l) arg skip skipcnt es =
    if (skipcnt =? 0) && elem_matches s r then Some (Some (offset l))
    else match l' with
         | [] => Some None
         | _ => lpFind_loop lpFindCmp fuel lp bytes (offset (l ++ [r])) arg' skip
             (if skipcnt =? 0 then skip else skipcnt - 1) es'
         end.
Proof using Hskip.
  intros lp bytes Hok Ht Ha. assert (Hr : enc_ok r).
  { apply Forall_app in Hok as [_ Hok]. by apply Forall_cons_1 in Hok as [? _]. }
  pose proof (fun k => find_next (l ++ [r]) l' (A := Z) k) as Hnext.
  rewrite <- (assoc_L (++)) in Hnext. specialize (fun k => Hnext k Hok Ht).
  cbv zeta in Hnext. cbn [app] in Hnext. fold lp bytes in Hnext.
  cbn [lpFind_loop]. destruct (Z.eqb_spec skipcnt 0) as [->|Hc].
  - destruct (get_ok r es Hr) as (v & Hv & Hsz & Hin).
    apply (get_size_embed (hdr num (l ++ r :: l') ++ body l) r
      (lpEncodeBacklen (msize r) ++ body l' ++ [LP_EOF] ++ slack)) in Hsz.
    rewrite <- layout_split, <- (layout_at num l r l' _ eq_refl) in Hsz. fold lp in Hsz.
    destruct (cmp_at l r l' arg v Hr Hv Hin Ha) as (arg' & Hc' & Ha'). fold lp in Hc'.
    rewrite Hsz. cbn [mbind option_bind]. exists arg', (msize (entry r)). split; [done|].
    pose proof (offset_le l r l' Hr) as Hoff. rewrite offset_snoc in *.
    assert (cassert ((offset l >=? LP_HDR_SIZE) && (offset l + msize (entry r) <? bytes)) = Some ())
      as Hass.
    { unfold cassert. rewrite Z.geb_leb, (proj2 (Z.leb_le _ _)), (proj2 (Z.ltb_lt _ _)); [done| |lia].
      unfold bytes, total. lia. }
    assert ((match shift_value (offset l) v with
             | VStr _ _ => cassert ((offset l >=? LP_HDR_SIZE) && (offset l + msize (entry r) <? bytes))
             | _ => Some () end) = Some ()) as -> by by destruct v.
    mred. rewrite Hc'. mred. destruct (elem_matches s r); [done|]. cbn [andb].
    rewrite (wraps_small 32 skip) by (unfold in_s; lia). apply Hnext.
  - exists arg, es. split; [done|]. unfold lp. rewrite skip_at by done. fold lp. mred.
    cbn [andb]. apply Hnext.
Qed.

Lemma find_loop_at l' l r fuel arg skipcnt es :
  Forall enc_ok (l ++ r :: l') -> total (l ++ r :: l') <= UINT32_MAX ->
  arg_ok s arg -> (length l' < fuel)%nat ->
  lpFind_loop lpFindCmp fuel (layout num (l ++ r :: l') slack) (total (l ++ r :: l')) (offset l)
    arg skip skipcnt es = Some (find_from skipcnt l (r :: l')).
Proof using Hskip.
  revert l r fuel arg skipcnt es. induction l' as [|r' l' IH]; intros l r fuel arg skipcnt es
    Hok Ht Ha Hf; (destruct fuel as [|fuel]; [cbn in Hf; lia|]);
    destruct (find_step l r _ fuel arg skipcnt es Hok Ht Ha) as (arg' & es' & Ha' & ->);
    cbn [find_from].
  - destruct (skipcnt =? 0); [|done]. by destruct (elem_matches s r).
  - pose proof (IH (l ++ [r]) r' fuel arg' (if skipcnt =? 0 then skip else skipcnt - 1) es') as IH'.
    rewrite <- (assoc_L (++)) in IH'. cbn [app] in IH'.
    rewrite IH'; [|done..|cbn in Hf; lia].
    destruct (skipcnt =? 0); cbn [andb]; [|done]. by destruct (elem_matches s r).
Qed.

(** Positions that are compared when the first comparison is at [cnt]. *)
Definition stride (cnt : Z) (i : nat) : Prop := (Z.of_nat i - cnt) `mod` (skip + 1) = 0.

Lemma find_from_spec l' : forall cnt l, 0 <= cnt <= skip ->
  match find_from cnt l l' with
  | Some off => exists i r, l' !! i = Some r /\ stride cnt i /\ elem_matches s r = true /\
      off = offset (l ++ take i l') /\
      forall j r', (j < i)%nat -> stride cnt j -> l' !! j = Some r' -> elem_matches s r' = false
  | None => forall j r', stride cnt j -> l' !! j = Some r' -> elem_matches s r' = false
  end.
Proof using Hskip.
  unfold stride. induction l' as [|r l' IH]; intros cnt l Hcnt; cbn [find_from]; [done|].
  assert (Hstep : forall c, 0 <= c <= skip -> (c = skip /\ cnt = 0 \/ c = cnt - 1 /\ cnt <> 0) ->
    (forall j, (Z.of_nat (S j) - cnt) `mod` (skip + 1) = 0 <-> (Z.of_nat j - c) `mod` (skip + 1) = 0)).
  { intros c _ [[-> ->]|[-> _]] j.
    - replace (Z.of_nat (S j) - 0) with (Z.of_nat j - skip + 1 * (skip + 1)) by lia.
      by rewrite Z.mod_add by lia.
    - by replace (Z.of_nat (S j) - cnt) with (Z.of_nat j - (cnt - 1)) by lia. }
  assert (Hrest : forall c, 0 <= c <= skip -> (c = skip /\ cnt = 0 \/ c = cnt - 1 /\ cnt <> 0) ->
    (cnt = 0 -> elem_matches s r = false) ->
    match find_from c (l ++ [r]) l' with
    | Some off => exists i r0, (r :: l') !! i = Some r0 /\ (Z.of_nat i - cnt) `mod` (skip + 1) = 0 /\
        elem_matches s r0 = true /\ off = offset (l ++ take i (r :: l')) /\
        forall j r', (j < i)%nat -> (Z.of_nat j - cnt) `mod` (skip + 1) = 0 ->
          (r :: l') !! j = Some r' -> elem_matches s r' = false
    | None => forall j r', (Z.of_nat j - cnt) `mod` (skip + 1) = 0 -> (r :: l') !! j = Some r' ->
        elem_matches s r' = false
    end).
  { intros c Hc Hcc Hm. specialize (IH c (l ++ [r]) Hc). pose proof (Hstep c Hc Hcc) as Hs.
    assert (H0 : (Z.of_nat 0 - cnt) `mod` (skip + 1) = 0 -> elem_matches s r = false).
    { intros H0. apply Hm. destruct (decide (cnt = 0)) as [|Hn]; [done|].
      rewrite <- (Z.mod_add _ 1), Z.mod_small in H0 by lia. lia. }
    destruct (find_from c (l ++ [r]) l') as [off|].
    - destruct IH as (i & r0 & Hi & Hst & Hmt & -> & Hmin). exists (S i), r0.
      split; [done|]. split; [by apply Hs|]. split; [done|].
      split; [by rewrite <- (assoc_L (++))|]. intros [|j] r' Hj Hst' Hl; [injection Hl as <-; auto|].
      apply (Hmin j); [lia|by apply Hs|done].
    - intros [|j] r' Hst Hl; [injection Hl as <-; auto|]. apply (IH j); [by apply Hs|done]. }
  destruct (Z.eqb_spec cnt 0) as [->|Hc].
  - destruct (elem_matches s r) eqn:Em; [|apply Hrest; auto; lia].
    exists 0%nat, r. split; [done|]. split; [by apply Z.mod_0_l; lia|]. split; [done|].
    split; [by rewrite app_nil_r|]. intros j r' Hj. lia.
  - apply Hrest; [lia|auto|done].
Qed.
End find.

Lemma elems_length rs : Forall enc_ok rs -> Z.of_nat (length rs) <= msize (body rs).
Proof.
  induction 1 as [|r rs Hr _ IH]; [done|]. rewrite body_cons, msize_app, entry_size.
  destruct Hr as (_ & _ & [Hr _] & _). pose proof (backlen_pos (msize r)). cbn [length]. lia.
Qed.

Lemma layout_length num rs slack : Forall enc_ok rs ->
  (length rs < S (length (layout num rs slack)))%nat.
Proof.
  intros H%elems_length. unfold layout, msize in *. rewrite !length_app. lia.
Qed.

Lemma lpFind_spec lp rs s skip :
  listpack lp rs -> 0 <= skip < 2 ^ 31 -> lpFind lp None s skip = Some (find_from s skip 0 [] rs).
Proof.
  intros (num & slack & -> & Hok & Ht & Hh) Hs. unfold lpFind, lpFindCbInternal, lpBytes.
  rewrite layout_total, first_at by done. mred. destruct rs as [|r rs]; [done|]. cbn [pointer].
  rewrite wrapu_small.
  2: { pose proof (offset_ge (r :: rs)). unfold in_u, total, UINT32_MAX, LP_HDR_SIZE in *. lia. }
  pose proof (layout_length num (r :: rs) slack Hok) as Hl. cbn [length] in Hl.
  apply (find_loop_at num slack s skip Hs rs [] r); [done|done| |lia]. split; [done|]. by left.
Qed.

(** ** Deleting ranges *)

Section delete.
Context (junk : nat -> Z).

Lemma shrink_at a c t :
  lpGetTotalBytes (a ++ c) = Some t -> msize a = t -> lpShrinkToFit junk (a ++ c) = Some a.
Proof.
  intros Ht Ha. unfold lpShrinkToFit. rewrite Ht. mred. subst t. rewrite zrealloc_shrink.
  rewrite msize_app. ztest; [done|]. pose proof (msize_nonneg c).
  by rewrite (msize_zero c) by lia; rewrite app_nil_r.
Qed.

Lemma shrink_layout num rs slack : total rs <= UINT32_MAX ->
  lpShrinkToFit junk (layout num rs slack) = Some (layout num rs []).
Proof.
  intros Ht.
  assert (E : layout num rs slack = layout num rs [] ++ slack)
    by (unfold layout; by rewrite <- !(assoc_L (++))).
  rewrite E. eapply shrink_at; [rewrite <- E; by apply layout_total|].
  unfold layout. rewrite !msize_app, !msize_le_bytes, msize_nil.
  change (msize [LP_EOF]) with 1. unfold total, offset, LP_HDR_SIZE. lia.
Qed.

Lemma delete_loop_at num slack l' : forall fuel l r n d,
  Forall enc_ok (l ++ r :: l') -> total (l ++ r :: l') <= UINT32_MAX -> 0 < n ->
  (length l' < fuel)%nat ->
  let k := Z.min n (Z.of_nat (length (r :: l'))) in
  delete_range_loop fuel (layout num (l ++ r :: l') slack) (total (l ++ r :: l')) (offset l) n d =
  Some (offset (l ++ take (Z.to_nat k) (r :: l')), d + k).
Proof.
  induction l' as [|r' l' IH]; intros fuel l r n d Hok Ht Hn Hf k;
    (destruct fuel as [|fuel]; [cbn in Hf; lia|]); cbn [delete_range_loop];
    (destruct (Z.eqb_spec n 0); [lia|]);
    assert (Hr : enc_ok r) by (apply Forall_app in Hok as [_ Hok]; by apply Forall_cons_1 in Hok as [? _]);
    rewrite skip_at by done; mred.
  - rewrite rd_end. mred. assert (k = 1) as -> by (unfold k; cbn [length]; lia). done.
  - pose proof (assert_at num slack (l ++ [r]) (r' :: l')) as Ha.
    pose proof (rd_elem num slack (l ++ [r]) r' l') as Hrd.
    rewrite <- (assoc_L (++)) in Ha, Hrd. cbn [app] in Ha, Hrd.
    destruct Hrd as (e & -> & Hne & _).
    { apply Forall_app in Hok as [_ Hok]. apply Forall_cons_1 in Hok as [_ Hok].
      by apply Forall_cons_1 in Hok as [? _]. }
    mred. destruct (Z.eqb_spec e LP_EOF); [done|]. rewrite Ha by done. mred.
    destruct (decide (n = 1)) as [->|Hn1].
    + assert (k = 1) as -> by (unfold k; cbn [length]; lia). destruct fuel; [cbn in Hf; lia|]. done.
    + specialize (IH fuel (l ++ [r]) r' (n - 1) (d + 1)). rewrite <- (assoc_L (++)) in IH.
      cbn [app] in IH. rewrite IH; [|done|done|lia|cbn in Hf; lia].
      replace (Z.to_nat k) with (S (Z.to_nat (Z.min (n - 1) (Z.of_nat (length (r' :: l'))))))
        by (unfold k; cbn [length]; lia).
      cbn [take]. rewrite <- (assoc_L (++)). cbn [app].
      f_equal. f_equal. unfold k. cbn [length]. lia.
Qed.

(** The count after removing [k] elements. *)
Lemma dec_num_at t num rest k (rs rs' : list mem) :
  header_ok num rs -> Z.of_nat (length rs) = Z.of_nat (length rs') + k ->
  0 <= k ->
  exists num', header_ok num' rs' /\
    sub_num ((le_bytes 4 t ++ le_bytes 2 num) ++ rest) k =
    Some ((le_bytes 4 t ++ le_bytes 2 num') ++ rest).
Proof.
  intros Hh Hl Hk. unfold sub_num. rewrite get_num_at by by eapply header_ok_range. mred.
  rewrite set_num_at. unfold header_ok, LP_HDR_NUMELE_UNKNOWN in *.
  destruct (Z.eqb_spec num 65535) as [->|Hn]; [exists 65535; split; [by left|done]|].
  destruct Hh as [|[Hn1 Hn2]]; [done|]. exists (num - k). split; [right; lia|]. cbn [negb].
  by rewrite wrapu_small by (unfold in_u; lia).
Qed.

(** The elements [x] between [l] and [l'] are dropped by moving the tail down. *)
Lemma drop_at num l x l' slack :
  total (l ++ x ++ l') <= UINT32_MAX ->
  exists slack', memmove (layout num (l ++ x ++ l') slack) (offset l) (offset (l ++ x))
      (u64 (total (l ++ x ++ l') - 1 - offset (l ++ x) + 1)) =
    Some ((le_bytes 4 (total (l ++ x ++ l')) ++ le_bytes 2 num) ++ body (l ++ l') ++ [LP_EOF] ++ slack').
Proof.
  intros Ht. rewrite layout_parts.
  assert (Hh : msize ((le_bytes 4 (total (l ++ x ++ l')) ++ le_bytes 2 num) ++ body l) = offset l).
  { by rewrite !msize_app, !msize_le_bytes. }
  pose proof (msize_nonneg (body x)). pose proof (msize_nonneg (body l')). pose proof (msize_nonneg slack).
  destruct (memmove_shift ((le_bytes 4 (total (l ++ x ++ l')) ++ le_bytes 2 num) ++ body l) (body x)
    (body l' ++ [LP_EOF]) slack (offset l) (offset (l ++ x))
    (u64 (total (l ++ x ++ l') - 1 - offset (l ++ x) + 1)) 0) as (g & c & E & Hg & _).
  - lia.
  - rewrite Hh. apply offset_app.
  - rewrite total_parts, offset_app, msize_app in *. change (msize [LP_EOF]) with 1.
    rewrite wrapu_small; [lia|]. pose proof (offset_ge l).
    unfold in_u, UINT32_MAX, LP_HDR_SIZE in *. lia.
  - lia.
  - rewrite E. assert (g = []) as -> by (apply msize_zero; lia).
    exists c. rewrite app_nil_l, body_app. by rewrite <- !(assoc_L (++)).
Qed.

Lemma newp_layout num l l' slack : Forall enc_ok l' ->
  (e ← rd (layout num (l ++ l') slack) (offset l);
   Some (if e =? LP_EOF then None else Some (offset l))) = Some (pointer l l').
Proof.
  intros Hok. rewrite <- (newp_at ((le_bytes 4 (total (l ++ l')) ++ le_bytes 2 num) ++ body l)
    l l' slack Hok) by by rewrite !msize_app, !msize_le_bytes.
  unfold layout. rewrite body_app. by rewrite <- !(assoc_L (++)).
Qed.

Lemma delete_range_entry_spec num slack l r l' n :
  header_ok num (l ++ r :: l') -> Forall enc_ok (l ++ r :: l') ->
  total (l ++ r :: l') <= UINT32_MAX -> 0 < n ->
  let rest := drop (Z.to_nat (Z.min n (Z.of_nat (length (r :: l'))))) (r :: l') in
  exists lp', lpDeleteRangeWithEntry junk (layout num (l ++ r :: l') slack) (offset l) n =
    Some (lp', pointer l rest) /\ listpack lp' (l ++ rest).
Proof.
  intros Hh Hok Ht Hn. set (k := Z.to_nat _). intros rest.
  set (x := take k (r :: l')). assert (Ex : r :: l' = x ++ rest) by (symmetry; apply take_drop).
  assert (Hk : k = length x /\ (k <= length (r :: l'))%nat).
  { unfold x. rewrite length_take. unfold k. lia. }
  unfold lpDeleteRangeWithEntry, lpBytes. rewrite layout_total by done. mred.
  destruct (Z.eqb_spec n 0); [lia|].
  rewrite delete_loop_at; [|done|done|done|].
  2: { pose proof (layout_length num _ slack Hok) as Hl. rewrite length_app in Hl. cbn [length] in Hl. lia. }
  mred. fold k x. rewrite Ex in *.
  destruct (drop_at num l x rest slack) as (c & ->); [done|]. mred.
  assert (Htot : u64 (total (l ++ x ++ rest) - (offset (l ++ x) - offset l)) = total (l ++ rest)).
  { rewrite offset_app, total_parts in *.
    unfold total. rewrite offset_app. pose proof (offset_ge l). pose proof (msize_nonneg (body x)).
    pose proof (msize_nonneg (body rest)).
    rewrite wrapu_small; [lia|]. unfold in_u, UINT32_MAX, LP_HDR_SIZE in *. lia. }
  rewrite set_total_at. mred. rewrite Htot.
  rewrite Z.add_0_l. replace (Z.min n _) with (Z.of_nat (length x)).
  2: { rewrite <- Ex. unfold k in Hk. lia. }
  destruct (dec_num_at (total (l ++ rest)) num (body (l ++ rest) ++ [LP_EOF] ++ c) (Z.of_nat (length x))
    (l ++ x ++ rest) (l ++ rest)) as (num' & Hh' & ->); [done|rewrite !length_app; lia|lia|]. mred.
  assert (Ht' : total (l ++ rest) <= UINT32_MAX).
  { rewrite total_parts in Ht. unfold total. rewrite offset_app. pose proof (msize_nonneg (body x)). lia. }
  change ((le_bytes 4 (total (l ++ rest)) ++ le_bytes 2 num') ++ body (l ++ rest) ++ [LP_EOF] ++ c)
    with (layout num' (l ++ rest) c).
  rewrite shrink_layout by done. mred.
  apply Forall_app in Hok as [Hl [_ Hrest]%Forall_app].
  exists (layout num' (l ++ rest) []). split.
  - pose proof (newp_layout num' l rest [] Hrest) as Hp.
    destruct (rd (layout num' (l ++ rest) []) (offset l)) as [e|]; [|done].
    cbn [mbind option_bind] in Hp |- *. apply (inj Some) in Hp. by rewrite <- Hp.
  - exists num', []. split; [done|]. split; [by apply Forall_app|done].
Qed.

(** Cutting the list in front of [r] by writing the end marker there. *)
Lemma truncate_at num l r l' slack :
  enc_ok r -> total l <= UINT32_MAX ->
  (lp ← memwrite (layout num (l ++ r :: l') slack) (offset l) [LP_EOF];
   lp ← lpSetTotalBytes lp (offset l + 1);
   lp ← lpSetNumElements lp (Z.of_nat (length l));
   lpShrinkToFit junk lp) = Some (layout (Z.of_nat (length l)) l []).
Proof.
  intros Hr Ht. rewrite layout_split. destruct Hr as (_ & _ & [Hr _] & _).
  destruct r as [|e r]; [by rewrite msize_nil in Hr|].
  change ((e :: r) ++ ?c) with ([e] ++ (r ++ c)).
  rewrite memwrite_app by (by rewrite ?msize_app, ?hdr_size). mred.
  unfold hdr. rewrite <- (assoc_L (++) _ (body l)), set_total_at. mred.
  rewrite set_num_at. mred.
  change ((le_bytes 4 (offset l + 1) ++ le_bytes 2 (Z.of_nat (length l))) ++ body l ++ [LP_EOF] ++ ?c)
    with (layout (Z.of_nat (length l)) l c).
  by apply shrink_layout.
Qed.

Lemma lpDeleteRange_spec lp rs index n :
  listpack lp rs -> 0 <= n ->
  let i := if index <? 0 then Z.of_nat (length rs) + index else index in
  exists lp', lpDeleteRange junk lp index n = Some lp' /\
    listpack lp' (if (0 <=? i) && (i <? Z.of_nat (length rs))
                  then take (Z.to_nat i) rs ++ drop (Z.to_nat (i + n)) rs else rs).
Proof.
  intros Hlp Hn i. pose proof (lpSeek_spec lp rs index Hlp) as Hsk. fold i in Hsk.
  pose proof Hlp as (num & slack & -> & Hok & Ht & Hh).
  unfold lpDeleteRange. rewrite layout_num by by eapply header_ok_range. mred.
  rewrite Hsk. mred. unfold elem_at. destruct (_ && _) eqn:Ei.
  2: { exists (layout num rs slack). by destruct (n =? 0). }
  bools. destruct (lookup_lt_is_Some_2 rs (Z.to_nat i)) as [r Hr]; [lia|].
  destruct (Z.eqb_spec n 0) as [->|Hn0].
  { exists (layout num rs slack). split; [done|]. by rewrite Z.add_0_r, take_drop. }
  set (l := take (Z.to_nat i) rs). set (l' := drop (S (Z.to_nat i)) rs).
  assert (E : rs = l ++ r :: l') by (symmetry; by apply take_drop_middle).
  assert (El : length l = Z.to_nat i) by (unfold l; rewrite length_take; lia).
  assert (Ed : drop (Z.to_nat (i + n)) rs =
    drop (Z.to_nat (Z.min n (Z.of_nat (length (r :: l'))))) (r :: l')).
  { assert (Hlen : length rs = (Z.to_nat i + length (r :: l'))%nat) by by rewrite E, length_app, El.
    replace (Z.to_nat (i + n)) with (length l + Z.to_nat n)%nat by lia.
    rewrite E at 1. rewrite drop_app_add by done.
    destruct (Z.leb_spec n (Z.of_nat (length (r :: l')))).
    - by rewrite Z.min_l by lia.
    - rewrite Z.min_r, Nat2Z.id by lia. by rewrite !drop_ge by lia. }
  rewrite Ed. clear Ed. 
  set (idx := if negb (num =? LP_HDR_NUMELE_UNKNOWN) && (index <? 0) then num + index else index).
  destruct (negb (num =? LP_HDR_NUMELE_UNKNOWN) && (u64 (num - idx) <=? n)) eqn:Eb.
  - apply andb_prop in Eb as [Ek Eb]. apply negb_true_iff in Ek. unfold idx in *. rewrite Ek in *.
    destruct Hh as [->|[Hnum Hlt]]; [done|]. cbn [negb andb] in *. fold i in Eb.
    apply Z.leb_le in Eb. rewrite Hnum in *. fold i in Eb |- *.
    rewrite wrapu_small in Eb.
    2: { pose proof (elems_length rs Hok). unfold in_u, total, offset, LP_HDR_SIZE, UINT32_MAX in *. lia. }
    assert (Hlr : length (r :: l') = (length rs - Z.to_nat i)%nat) by (rewrite E, length_app, El; lia).
    rewrite Z.min_r, Nat2Z.id, drop_all, app_nil_r by lia.
    replace i with (Z.of_nat (length l)) by lia. clearbody i l l'. subst rs.
    assert (Hr' : enc_ok r /\ Forall enc_ok l).
    { apply Forall_app in Hok as [Hl Hok]. by apply Forall_cons_1 in Hok as [? _]. }
    assert (Htl : total l <= UINT32_MAX).
    { unfold total in *. rewrite offset_app in Ht. pose proof (msize_nonneg (body (r :: l'))). lia. }
    rewrite truncate_at by (done || apply Hr'). eexists. split; [done|].
    exists (Z.of_nat (length l)), []. split; [done|]. split; [apply Hr'|]. split; [done|].
    right. split; [done|]. rewrite length_app in Hlt. lia.
  - clearbody i idx l l'. subst rs.
    destruct (delete_range_entry_spec num slack l r l' n) as (lp' & -> & Hlp'); [done..|lia|].
    exists lp'. by split.
Qed.
End delete.

(** ** Length and merging *)

Lemma length_loop_at num slack l' : forall fuel l c,
  Forall enc_ok (l ++ l') -> total (l ++ l') <= UINT32_MAX ->
  (length l' < fuel)%nat -> 0 <= c -> c + Z.of_nat (length l') <= UINT32_MAX ->
  lpLength_loop fuel (layout num (l ++ l') slack) (pointer l l') c =
  Some (c + Z.of_nat (length l')).
Proof.
  induction l' as [|r l' IH]; intros fuel l c Hok Ht Hf Hc Hm;
    (destruct fuel as [|fuel]; [cbn in Hf; lia|]); cbn [lpLength_loop pointer length].
  - f_equal. lia.
  - rewrite next_at by done. mred. cbn [length] in *. unfold UINT32_MAX in Hm.
    rewrite (wrapu_small 32) by (unfold in_u; lia).
    specialize (IH fuel (l ++ [r]) (c + 1)). rewrite <- (assoc_L (++)) in IH. cbn [app] in IH.
    rewrite IH; [f_equal; lia|done|done|lia|lia|unfold UINT32_MAX; lia].
Qed.

(** The length is that of the list, whatever the header says. *)
Lemma lpLength_spec num rs slack :
  header_ok num rs -> Forall enc_ok rs -> total rs <= UINT32_MAX ->
  exists num', lpLength (layout num rs slack) = Some (Z.of_nat (length rs), layout num' rs slack) /\
    header_ok num' rs.
Proof.
  intros Hh Hok Ht. unfold lpLength. rewrite layout_num by by eapply header_ok_range. mred.
  destruct (Z.eqb_spec num LP_HDR_NUMELE_UNKNOWN) as [->|Hn]; cbn [negb].
  2: { exists num. destruct Hh as [|[Hnum Hlt]]; [done|]. rewrite Hnum. split; [done|]. right.
       by rewrite <- Hnum. }
  rewrite first_at by done. mred. pose proof (elems_length rs Hok) as Hl.
  rewrite (length_loop_at LP_HDR_NUMELE_UNKNOWN slack rs _ [] 0); [|done|done|by apply layout_length|done|].
  2: { unfold total, offset, LP_HDR_SIZE in Ht. lia. }
  mred. rewrite Z.add_0_l. unfold LP_HDR_NUMELE_UNKNOWN in *.
  destruct (Z.ltb_spec (Z.of_nat (length rs)) 65535).
  - exists (Z.of_nat (length rs)). unfold layout at 1. rewrite set_num_at. split; [done|]. by right.
  - exists 65535. split; [done|]. by left.
Qed.

Lemma total_app rs rs' : total (rs ++ rs') = total rs + total rs' - LP_HDR_SIZE - 1.
Proof. unfold total. rewrite offset_app. unfold offset, LP_HDR_SIZE. lia. Qed.

Lemma layout_body num rs slack : layout num rs slack =
  (hdr num rs ++ body rs ++ [LP_EOF]) ++ slack.
Proof. unfold layout, hdr. by rewrite <- !(assoc_L (++)). Qed.

Section merge.
Context (junk : nat -> Z).

(** The header of the merged listpack. *)
Lemma merge_header t n rs rs' :
  let len := Z.of_nat (length rs) + Z.of_nat (length rs') in
  let lplength := if len <? 65535 then len else 65535 in
  (m ← lpSetNumElements ((le_bytes 4 t ++ le_bytes 2 n) ++ body (rs ++ rs') ++ [LP_EOF]) lplength;
   lpSetTotalBytes m (total (rs ++ rs'))) = Some (layout lplength (rs ++ rs') []) /\
  header_ok lplength (rs ++ rs').
Proof.
  intros len lplength. rewrite set_num_at. mred. rewrite set_total_at. split.
  - unfold layout. by rewrite app_nil_r.
  - unfold header_ok, LP_HDR_NUMELE_UNKNOWN, lplength, len. rewrite length_app.
    destruct (Z.ltb_spec (Z.of_nat (length rs) + Z.of_nat (length rs')) 65535); lia.
Qed.

(** Appending the body of the second behind the first. *)
Lemma merge_append n1 rs1 s1 n2 rs2 s2 :
  total (rs1 ++ rs2) <= UINT32_MAX ->
  (bs ← memread (layout n2 rs2 s2) LP_HDR_SIZE (u64 (total rs2 - LP_HDR_SIZE));
   memwrite (zrealloc junk (layout n1 rs1 s1) (total (rs1 ++ rs2))) (total rs1 - 1) bs) =
  Some (hdr n1 rs1 ++ body (rs1 ++ rs2) ++ [LP_EOF]).
Proof.
  intros Ht. pose proof (offset_ge rs1). pose proof (offset_ge rs2). rewrite total_app in *.
  rewrite (layout_body n1). unfold layout at 1. fold (hdr n2 rs2).
  rewrite (assoc_L (++) (body rs2)).
  assert (Hs : u64 (total rs2 - LP_HDR_SIZE) = msize (body rs2 ++ [LP_EOF])).
  { rewrite msize_app. change (msize [LP_EOF]) with 1.
    rewrite wrapu_small; unfold in_u, total, offset, LP_HDR_SIZE, UINT32_MAX in *; lia. }
  rewrite memread_app by (by rewrite ?hdr_size). mred.
  destruct (zrealloc_prefix junk (hdr n1 rs1 ++ body rs1 ++ [LP_EOF]) s1
    (total rs1 + total rs2 - LP_HDR_SIZE - 1)) as (g & -> & Hg).
  { rewrite !msize_app, hdr_size. change (msize [LP_EOF]) with 1.
    unfold total, offset, LP_HDR_SIZE in *. lia. }
  rewrite !msize_app, hdr_size in Hg. change (msize [LP_EOF]) with 1 in Hg.
  rewrite body_app.
  replace ((hdr n1 rs1 ++ body rs1 ++ [LP_EOF]) ++ g)
    with ((hdr n1 rs1 ++ body rs1) ++ ([LP_EOF] ++ g) ++ []) by
    (rewrite app_nil_r; by rewrite <- !(assoc_L (++))).
  rewrite memwrite_app; [by rewrite app_nil_r, <- !(assoc_L (++))| |].
  - rewrite msize_app, hdr_size. unfold total, offset. lia.
  - rewrite !msize_app. change (msize [LP_EOF]) with 1. unfold total, offset in *. lia.
Qed.

(** Prepending the first to the second. *)
Lemma merge_prepend n1 rs1 s1 n2 rs2 s2 :
  total (rs1 ++ rs2) <= UINT32_MAX ->
  (m ← memmove (zrealloc junk (layout n2 rs2 s2) (total (rs1 ++ rs2))) (total rs1 - 1) LP_HDR_SIZE
         (u64 (total rs2 - LP_HDR_SIZE));
   bs ← memread (layout n1 rs1 s1) 0 (u64 (total rs1 - 1)); memwrite m 0 bs) =
  Some (hdr n1 rs1 ++ body (rs1 ++ rs2) ++ [LP_EOF]).
Proof.
  intros Ht. pose proof (offset_ge rs1). pose proof (offset_ge rs2). rewrite total_app in *.
  rewrite !layout_body.
  assert (Hs : u64 (total rs2 - LP_HDR_SIZE) = msize (body rs2 ++ [LP_EOF])).
  { rewrite msize_app. change (msize [LP_EOF]) with 1.
    rewrite wrapu_small; unfold in_u, total, offset, LP_HDR_SIZE, UINT32_MAX in *; lia. }
  destruct (zrealloc_prefix junk (hdr n2 rs2 ++ body rs2 ++ [LP_EOF]) s2
    (total rs1 + total rs2 - LP_HDR_SIZE - 1)) as (g & -> & Hg).
  { rewrite !msize_app, hdr_size. change (msize [LP_EOF]) with 1.
    unfold total, offset, LP_HDR_SIZE in *. lia. }
  rewrite !msize_app, hdr_size in Hg. change (msize [LP_EOF]) with 1 in Hg.
  rewrite <- (assoc_L (++) (hdr n2 rs2)).
  destruct (memmove_up (hdr n2 rs2) (body rs2 ++ [LP_EOF]) g (total rs1 - 1) LP_HDR_SIZE
    (u64 (total rs2 - LP_HDR_SIZE))) as (g' & -> & Hg').
  { rewrite hdr_size. unfold total, offset in *. lia. }
  { by rewrite hdr_size. }
  { done. }
  mred. rewrite (assoc_L (++) (hdr n1 rs1)), <- (assoc_L (++) _ [LP_EOF]).
  rewrite memread_app_start.
  2: { rewrite msize_app, hdr_size. rewrite wrapu_small;
       unfold in_u, total, offset, LP_HDR_SIZE, UINT32_MAX in *; lia. }
  mred. rewrite (assoc_L (++) (hdr n2 rs2)).
  rewrite (memwrite_app [] (hdr n2 rs2 ++ g') (body rs2 ++ [LP_EOF]) 0); [|done|].
  - rewrite body_app. cbn [app]. by rewrite <- !(assoc_L (++)).
  - rewrite !msize_app, !hdr_size. unfold total, offset in *. lia.
Qed.

Lemma lpMerge_spec first second rs1 rs2 :
  listpack first rs1 -> listpack second rs2 -> total (rs1 ++ rs2) < UINT32_MAX ->
  exists lp, lpMerge junk first second = Some (lp, total rs1 >=? total rs2) /\
    listpack lp (rs1 ++ rs2).
Proof.
  intros (n1 & s1 & -> & Hok1 & Ht1 & Hh1) (n2 & s2 & -> & Hok2 & Ht2 & Hh2) Ht.
  unfold lpMerge, lpBytes.
  destruct (lpLength_spec n1 rs1 s1 Hh1 Hok1 Ht1) as (n1' & El1 & Hh1').
  destruct (lpLength_spec n2 rs2 s2 Hh2 Hok2 Ht2) as (n2' & El2 & Hh2').
  rewrite (layout_total n1), El1 by done. cbn [mbind option_bind].
  rewrite (layout_total n2), El2 by done. cbn [mbind option_bind].
  pose proof (offset_ge rs1). pose proof (offset_ge rs2).
  rewrite <- total_app, wrapu_small.
  2: { unfold in_u. rewrite total_app in *. unfold total, UINT32_MAX, LP_HDR_SIZE in *. lia. }
  rewrite (proj2 (Z.ltb_lt _ _) Ht).
  pose proof (merge_append n1' rs1 s1 n2' rs2 s2 ltac:(lia)) as Ha.
  pose proof (merge_prepend n1' rs1 s1 n2' rs2 s2 ltac:(lia)) as Hp.
  destruct (merge_header (total rs1) n1' rs1 rs2) as [Hm Hmh].
  set (lplength := if _ <? 65535 then _ else _) in *.
  exists (layout lplength (rs1 ++ rs2) []). split.
  - destruct (total rs1 >=? total rs2); cbn [cassert mbind option_bind].
    + rewrite Ha. cbn [mbind option_bind]. unfold hdr.
      destruct (lpSetNumElements _ lplength) as [m|]; [|done]. cbn [mbind option_bind] in *.
      by rewrite Hm.
    + rewrite Hp. cbn [mbind option_bind]. unfold hdr.
      destruct (lpSetNumElements _ lplength) as [m|]; [|done]. cbn [mbind option_bind] in *.
      by rewrite Hm.
  - exists lplength, []. split; [done|]. split; [by apply Forall_app|]. split; [lia|done].
Qed.
End merge.

(** ** Validation *)

Section validate.
Context (lp : mem) (Hb : bytes lp).
Let T := msize lp.

(** The entry at [p]: [n] encoded bytes and a backlen that decodes to [n]. *)
Definition entry_at (p n : Z) : Prop :=
  LP_HDR_SIZE <= p /\ 0 < n < 2 ^ 32 /\ p + n + lpEncodeBacklenBytes n < T /\
  (exists e, rd lp p = Some e /\ e <> LP_EOF /\
     0 < lpCurrentEncodedSizeBytes e /\ p + lpCurrentEncodedSizeBytes e < T) /\
  lpCurrentEncodedSizeUnsafe lp p = Some n /\
  lpDecodeBacklen lp (p + n + lpEncodeBacklenBytes n - 1) = Some n.

Lemma size_total p e :
  rd lp p = Some e -> e <> LP_EOF -> 0 < lpCurrentEncodedSizeBytes e -> p + lpCurrentEncodedSizeBytes e <= T ->
  exists n, lpCurrentEncodedSizeUnsafe lp p = Some n /\ 0 <= n < 2 ^ 32 /\ (n = 0 -> e = 240).
Proof using Hb.
  intros He Hn Hpos Hlen. pose proof (rd_byte _ _ _ Hb He) as Hbe.
  pose proof (rd_bounds _ _ _ He) as Hp. unfold lpCurrentEncodedSizeUnsafe. revert Hpos Hlen.
  unfold lpCurrentEncodedSizeBytes, LP_ENCODING_6BIT_STR_LEN, LP_ENCODING_12BIT_STR_LEN,
    LP_ENCODING_32BIT_STR_LEN. rewrite He. mred. enctests Hbe.
  destruct (e <? 128); [by eexists|].
  destruct (_ && _).
  { intros _ _. eexists. split; [done|]. destruct (byte_masks e Hbe) as (_ & -> & _).
    pose proof (Z.mod_pos_bound e 64). lia. }
  destruct (_ && _); [by eexists|]. destruct (e =? 241); [by eexists|].
  destruct (e =? 242); [by eexists|]. destruct (e =? 243); [by eexists|].
  destruct (e =? 244); [by eexists|]. destruct (_ && _).
  - intros _ Hlen. destruct (rd_is_Some lp (p + 1)) as [e1 He1]; [fold T; lia|]. rewrite He1. mred.
    eexists. split; [done|]. pose proof (rd_byte _ _ _ Hb He1) as Hb1. unfold byte in Hb1.
    destruct (byte_masks e Hbe) as (_ & _ & _ & -> & _). pose proof (Z.mod_pos_bound e 16).
    rewrite Z.lor_comm, lor_shiftl by lia. lia.
  - destruct (e =? 240) eqn:E240; [|destruct (Z.eqb_spec e LP_EOF); [done|lia]].
    intros _ Hlen. destruct (lor_bytes_total lp (p + 1) 0 4) as [v ->]; [fold T; lia..|]. mred.
    eexists. split; [done|]. split; [apply in_u_wrapu; lia|]. intros _. by apply Z.eqb_eq.
Qed.

Lemma decode_total q b : LP_HDR_SIZE <= q < T -> rd lp q = Some b ->
  exists v, lpDecodeBacklen lp q = Some v /\ Z.land b 127 <= v <= UINT64_MAX.
Proof using Hb.
  unfold LP_HDR_SIZE. intros Hq Eb. unfold lpDecodeBacklen.
  assert (Hr : forall i, 0 <= i <= 4 -> exists b, rd lp (q - i) = Some b /\ 0 <= Z.land b 127 < 128).
  { intros i Hi. destruct (rd_is_Some lp (q - i)) as [x Ex]; [fold T; lia|]. exists x. split; [done|].
    destruct (byte_masks x (rd_byte _ _ _ Hb Ex)) as (-> & _). apply Z.mod_pos_bound. lia. }
  destruct (Hr 0) as (b0 & E0 & H0); [lia|]. rewrite Z.sub_0_r, Eb in E0. injection E0 as <-.
  rewrite Eb. mred.
  destruct (Hr 1) as (b1 & -> & H1); [lia|]. destruct (Hr 2) as (b2 & -> & H2); [lia|].
  destruct (Hr 3) as (b3 & -> & H3); [lia|]. destruct (Hr 4) as (b4 & -> & H4); [lia|]. mred.
  rewrite !(lor_shiftl (Z.land b 127)) by lia. rewrite !(lor_shiftl (_ + _ * 2 ^ 7)) by lia.
  rewrite !(lor_shiftl (_ + _ * 2 ^ 14)) by lia. rewrite !(lor_shiftl (_ + _ * 2 ^ 21)) by lia.
  unfold UINT64_MAX. repeat case_match; (eexists; split; [reflexivity|lia]).
Qed.

(** [lpValidateNext] never reads outside the block; what it accepts is the end
    marker or a proper entry. *)
Lemma validate_next_total p :
  exists ok pp, lpValidateNext lp (Some p) T = Some (ok, pp) /\
    (ok = true -> rd lp p = Some LP_EOF /\ pp = None /\ LP_HDR_SIZE <= p < T \/
      exists n, entry_at p n /\ pp = Some (p + n + lpEncodeBacklenBytes n)).
Proof using Hb.
  assert (Hor : forall q, OUT_OF_RANGE T q = false -> LP_HDR_SIZE <= q < T).
  { intros q Hq. unfold OUT_OF_RANGE in Hq. bools. lia. }
  unfold lpValidateNext. destruct (OUT_OF_RANGE T p) eqn:E1; [by eexists _, _|].
  apply Hor in E1. destruct (rd_is_Some lp p) as [e He]; [unfold LP_HDR_SIZE, T in *; lia|].
  rewrite He. mred. destruct (Z.eqb_spec e LP_EOF) as [->|Hn]; [eexists _, _; split; [done|]; auto|].
  destruct (Z.eqb_spec (lpCurrentEncodedSizeBytes e) 0) as [|Hz]; [by eexists _, _|].
  assert (0 < lpCurrentEncodedSizeBytes e).
  { unfold lpCurrentEncodedSizeBytes in *. repeat case_match; lia. }
  destruct (OUT_OF_RANGE T (p + _)) eqn:E2; [by eexists _, _|]. apply Hor in E2.
  destruct (size_total p e He Hn) as (n & En & Hn32 & H240); [lia..|]. rewrite En. mred.
  destruct (OUT_OF_RANGE T (p + _)) eqn:E3; [by eexists _, _|]. apply Hor in E3.
  pose proof (backlen_pos n) as Hbl. rewrite Z.add_assoc in *.
  destruct (rd_is_Some lp (p + n + lpEncodeBacklenBytes n - 1)) as [b Eb].
  { fold T. unfold LP_HDR_SIZE in *. lia. }
  destruct (decode_total (p + n + lpEncodeBacklenBytes n - 1) b) as (v & Ev & Hv); [lia|done|].
  rewrite Ev. mred. destruct (Z.eqb_spec (u64 (v + lpEncodeBacklenBytes n)) (n + lpEncodeBacklenBytes n))
    as [Eq|]; [|by eexists _, _].
  eexists _, _. split; [done|]. intros _. right. exists n. split; [|done].
  assert (0 <= Z.land b 127) by by apply land_nonneg_r.
  assert (Hvn : v = n).
  { unfold wrapu, UINT64_MAX in *. change (2 ^ 64) with 18446744073709551616 in Eq. dlia. }
  subst v. split; [lia|]. split; [|split; [lia|split; [by exists e; repeat split; try lia|by split]]].
  destruct (decide (n = 0)) as [->|]; [exfalso|lia].
  rewrite (H240 eq_refl) in *. change (lpEncodeBacklenBytes 0) with 1 in Eb.
  replace (p + 0 + 1 - 1) with p in Eb by lia. rewrite He in Eb. injection Eb as <-.
  change (Z.land 240 127) with 112 in Hv. lia.
Qed.

(** The entries from [p] to the end marker at [z]. *)
Inductive entries : Z -> list Z -> Z -> Prop :=
  | entries_nil p : LP_HDR_SIZE <= p < T -> rd lp p = Some LP_EOF -> entries p [] p
  | entries_cons p n ps z : entry_at p n -> entries (p + n + lpEncodeBacklenBytes n) ps z ->
      entries p (p :: ps) z.

Lemma validate_entry p n : entry_at p n ->
  lpValidateNext lp (Some p) T = Some (true, Some (p + n + lpEncodeBacklenBytes n)).
Proof.
  intros (Hp & Hn & Hend & (e & He & Hne & Hl1 & Hl2) & Hs & Hd). unfold lpValidateNext.
  pose proof (backlen_pos n) as Hbl.
  rewrite in_range_ok by (fold T; lia). rewrite He. mred. destruct (Z.eqb_spec e LP_EOF); [done|].
  destruct (Z.eqb_spec (lpCurrentEncodedSizeBytes e) 0); [lia|].
  rewrite in_range_ok by lia. rewrite Hs. mred. rewrite !Z.add_assoc, in_range_ok by lia.
  rewrite Hd. mred. rewrite wrapu_small by (unfold in_u; lia). by rewrite Z.eqb_refl.
Qed.

Lemma assert_entries p ps z : entries p ps z -> lpAssertValidEntry lp T p = Some ().
Proof.
  intros H. unfold lpAssertValidEntry. destruct H as [p Hp He|p n ps z Hn _].
  - unfold lpValidateNext. rewrite in_range_ok by done. by rewrite He.
  - by rewrite (validate_entry p n Hn).
Qed.

Lemma entries_head p ps z : entries p ps z ->
  exists e, rd lp p = Some e /\ (if e =? LP_EOF then None else Some p) = head ps.
Proof.
  intros H. destruct H as [p Hp He|p n ps z (_ & _ & _ & (e & He & Hne & _) & _) _].
  - by exists LP_EOF.
  - exists e. split; [done|]. by destruct (Z.eqb_spec e LP_EOF).
Qed.

(** The validation loop. *)
Lemma validate_loop_total numele fuel : forall p c,
  LP_HDR_SIZE <= p < T -> T <= UINT32_MAX -> T - p < Z.of_nat fuel -> 0 <= c -> c + (T - p) <= UINT32_MAX ->
  exists r, lpValidate_loop fuel lp T numele None (Some p) c = Some r /\
    forall z c', r = Some (Some z, c') ->
      exists ps, entries p ps z /\ c' = c + Z.of_nat (length ps).
Proof using Hb.
  induction fuel as [|fuel IH]; intros p c Hp HT Hf Hc Hm; [lia|]. cbn [lpValidate_loop].
  destruct (rd_is_Some lp p) as [e He]; [unfold LP_HDR_SIZE, T in *; lia|]. rewrite He. mred.
  destruct (Z.eqb_spec e LP_EOF) as [->|Hne].
  { eexists. split; [done|]. intros z c' [= <- <-]. exists []. split; [by constructor|]. cbn. lia. }
  destruct (validate_next_total p) as ([|] & pp & -> & Hok); mred; [|by eexists].
  destruct (Hok eq_refl) as [(Hr & _)|(n & Hn & ->)]; [congruence|]. cbn [negb].
  pose proof (backlen_pos n). destruct Hn as (Hn1 & Hn2 & Hn3 & Hn4). 
  rewrite wrapu_small by (unfold in_u, UINT32_MAX in *; lia).
  destruct (IH (p + n + lpEncodeBacklenBytes n) (c + 1)) as (r & Er & Hr); [lia..|].
  exists r. split; [exact Er|]. intros z c' Hz. destruct (Hr z c' Hz) as (ps & Hps & ->).
  exists (p :: ps). split; [by apply (entries_cons p n)|]. cbn [length]. lia.
Qed.

Section walk.
Context (HT : lpGetTotalBytes lp = Some T).

Lemma entries_next p n ps z : entry_at p n ->
  entries (p + n + lpEncodeBacklenBytes n) ps z -> lpNext lp p = Some (head ps).
Proof using HT.
  intros (_ & _ & _ & _ & Hs & _) Hps. unfold lpNext, lpSkip. rewrite Hs. mred.
  rewrite Z.add_assoc. destruct (entries_head _ _ _ Hps) as (e & -> & <-). mred.
  destruct (e =? LP_EOF); [done|]. unfold lpBytes. rewrite HT. mred.
  by rewrite (assert_entries _ _ _ Hps).
Qed.

Lemma entries_prev p n ps z : entry_at p n -> entries (p + n + lpEncodeBacklenBytes n) ps z ->
  lpPrev lp (p + n + lpEncodeBacklenBytes n) = Some (Some p).
Proof using HT.
  intros Hn Hps. pose proof (assert_entries p (p :: ps) z (entries_cons p n ps z Hn Hps)) as Ha.
  destruct Hn as (Hp & Hn & Hend & _ & _ & Hd). pose proof (backlen_pos n). unfold lpPrev.
  destruct (Z.eqb_spec (p + n + lpEncodeBacklenBytes n) LP_HDR_SIZE); [lia|].
  rewrite Hd. mred. rewrite wrapu_small by (unfold in_u; lia).
  replace (p + n + lpEncodeBacklenBytes n - 1 - (n + lpEncodeBacklenBytes n - 1)) with p by lia.
  unfold lpBytes. rewrite HT. mred. by rewrite Ha.
Qed.

Lemma entries_walk p ps z i q : entries p ps z -> ps !! i = Some q ->
  exists q', lpNext lp q = Some (ps !! S i) /\ lpPrev lp q' = Some (Some q) /\ q < q' /\
    match ps !! S i with Some r => q' = r | None => q' = z end.
Proof using HT.
  intros H. revert i. induction H as [p Hp He|p n ps z Hn Hps IH]; intros i Hi; [done|].
  destruct i as [|i]; [injection Hi as <-|by apply IH].
  exists (p + n + lpEncodeBacklenBytes n).
  split; [rewrite (entries_next p n ps z Hn Hps); by destruct ps|].
  split; [by eapply entries_prev|]. destruct Hn as (_ & Hn & _). pose proof (backlen_pos n).
  split; [lia|]. cbn. by destruct Hps.
Qed.
End walk.
End validate.

(** A listpack whose entries are at [ps]: it can be walked in both directions
    without leaving the block. *)
Definition traversable (lp : mem) (ps : list Z) : Prop :=
  lpFirst lp = Some (head ps) /\ lpLast lp = Some (last ps) /\
  (forall i q, ps !! i = Some q -> lpNext lp q = Some (ps !! S i)) /\
  (forall i q, ps !! S i = Some q -> lpPrev lp q = Some (ps !! i)) /\
  (forall q, head ps = Some q -> lpPrev lp q = Some None) /\
  Forall (fun q => exists n, entry_at lp q n) ps.

Lemma entries_traversable lp ps : bytes lp -> lpGetTotalBytes lp = Some (msize lp) ->
  entries lp LP_HDR_SIZE ps (msize lp - 1) -> traversable lp ps.
Proof.
  intros Hb HT Hps.
  pose proof (entries_walk lp HT LP_HDR_SIZE ps (msize lp - 1)) as Hw.
  split; [|split; [|split; [|split; [|split]]]].
  - unfold lpFirst. destruct (entries_head _ _ _ _ Hps) as (e & -> & <-). mred.
    destruct (e =? LP_EOF); [done|]. unfold lpBytes. rewrite HT. mred.
    by rewrite (assert_entries _ _ _ _ Hps).
  - unfold lpLast. rewrite HT. mred. destruct ps as [|q ps _] using rev_ind.
    + inversion Hps as [p Hp He Ep|]. unfold lpPrev. by rewrite Z.eqb_refl.
    + rewrite last_snoc. destruct (Hw (length ps) q Hps) as (q' & _ & Hp & _ & Hq').
      { by rewrite lookup_app_r, Nat.sub_diag by lia. }
      rewrite lookup_ge_None_2 in Hq' by (rewrite length_app; cbn; lia). by subst q'.
  - intros i q Hi. by destruct (Hw i q Hps Hi) as (q' & ? & _).
  - intros i q Hi. destruct (lookup_lt_is_Some_2 ps i) as [q0 Hq0].
    { apply lookup_lt_Some in Hi. lia. }
    destruct (Hw i q0 Hps Hq0) as (q' & _ & Hp & _ & Hq'). rewrite Hi in Hq'. subst q'. by rewrite Hq0.
  - intros q Hq. inversion Hps; subst ps; [done|]. by injection Hq as <-.
  - clear Hw. induction Hps as [|p n ps z Hn Hps IH]; constructor; eauto.
Qed.

Lemma validate_loop_layout num slack l' : forall fuel l c,
  Forall enc_ok (l ++ l') -> total (l ++ l') <= UINT32_MAX -> (length l' < fuel)%nat ->
  0 <= c -> c + Z.of_nat (length l') <= UINT32_MAX ->
  lpValidate_loop fuel (layout num (l ++ l') slack) (total (l ++ l')) num None (Some (offset l)) c =
  Some (Some (Some (offset (l ++ l')), c + Z.of_nat (length l'))).
Proof.
  induction l' as [|r l' IH]; intros fuel l c Hok Ht Hf Hc Hm;
    (destruct fuel as [|fuel]; [cbn in Hf; lia|]); cbn [lpValidate_loop].
  - rewrite app_nil_r, rd_end. mred. cbn [length]. by rewrite Z.add_0_r.
  - assert (Hr : enc_ok r).
    { apply Forall_app in Hok as [_ Hok]. by apply Forall_cons_1 in Hok as [? _]. }
    destruct (rd_elem num slack l r l' Hr) as (e & -> & Hn & _). mred.
    destruct (Z.eqb_spec e LP_EOF); [done|]. rewrite validate_at by done. mred. cbn [negb length] in *.
    rewrite (wrapu_small 32) by (unfold in_u, UINT32_MAX in *; lia).
    specialize (IH fuel (l ++ [r]) (c + 1)). rewrite <- (assoc_L (++)) in IH. cbn [app] in IH.
    rewrite IH; [do 3 f_equal; lia|done|done|lia|lia|lia].
Qed.

Lemma lpValidateIntegrity_layout num rs :
  header_ok num rs -> Forall enc_ok rs -> total rs <= UINT32_MAX ->
  lpValidateIntegrity (layout num rs []) (total rs) true None = Some true.
Proof.
  intros Hh Hok Ht. pose proof (offset_ge rs). unfold lpValidateIntegrity.
  destruct (Z.ltb_spec (total rs) (LP_HDR_SIZE + 1)); [unfold total in *; lia|].
  rewrite layout_total by done. mred. rewrite Z.eqb_refl. cbn [negb].
  replace (total rs - 1) with (offset rs) by (unfold total; lia). rewrite rd_end. mred. cbn [negb].
  change (LP_EOF =? LP_EOF) with true. cbn [negb].
  rewrite layout_num by by eapply header_ok_range. mred. pose proof (elems_length rs Hok).
  rewrite (validate_loop_layout num [] rs _ [] 0); [|done|done|by apply layout_length|done|].
  2: { unfold total, offset, LP_HDR_SIZE in Ht. lia. }
  mred. cbn [app]. rewrite Z.eqb_refl, Z.add_0_l. cbn [negb].
  unfold header_ok, LP_HDR_NUMELE_UNKNOWN in *.
  destruct Hh as [->|[-> _]]; [done|]. by rewrite Z.eqb_refl, andb_false_r.
Qed.

Lemma lpValidateIntegrity_total lp : bytes lp ->
  exists b, lpValidateIntegrity lp (msize lp) true None = Some b /\
    (b = true -> exists ps num, traversable lp ps /\ lpGetNumElements lp = Some num /\
       (num = LP_HDR_NUMELE_UNKNOWN \/ num = Z.of_nat (length ps))).
Proof.
  intros Hb. unfold lpValidateIntegrity.
  destruct (Z.ltb_spec (msize lp) (LP_HDR_SIZE + 1)) as [|Hsz]; [by eexists|].
  unfold LP_HDR_SIZE in Hsz. destruct (lor_bytes_total lp 0 0 4) as [t Ht]; [lia..|].
  pose proof (lor_bytes_range lp 0 3 t Hb Ht) as Hr. change (256 ^ Z.of_nat 4) with (2 ^ 32) in Hr.
  unfold lpGetTotalBytes. rewrite Ht. mred. destruct (Z.eqb_spec t (msize lp)) as [->|]; [|by eexists].
  destruct (rd_is_Some lp (msize lp - 1)) as [e He]; [lia|]. rewrite He. mred. cbn [negb].
  destruct (Z.eqb_spec e LP_EOF) as [->|]; [|by eexists]. cbn [negb].
  destruct (lor_bytes_total lp 4 0 2) as [n Hn]; [lia..|]. unfold lpGetNumElements. rewrite Hn. mred.
  destruct (validate_loop_total lp Hb n (S (length lp)) LP_HDR_SIZE 0) as (r & -> & Hloop);
    [unfold LP_HDR_SIZE, UINT32_MAX, msize in *; lia..|]. mred.
  destruct r as [[[p|] c]|]; [|by eexists..].
  destruct (Hloop p c eq_refl) as (ps & Hps & ->).
  destruct (Z.eqb_spec p (msize lp - 1)) as [->|]; [|by eexists]. cbn [negb].
  destruct (negb (n =? LP_HDR_NUMELE_UNKNOWN) && negb (n =? _)) eqn:E; [by eexists|].
  exists true. split; [done|]. intros _. exists ps, n. split; [by apply entries_traversable|].
  split; [done|]. bools. destruct E; bools; [by left|right; lia].
Qed.

(** ** The theorems *)

(** C36: Inserting before, after or in place of an element, or deleting one, is the
    corresponding edit of the list of elements: no access outside the block, a
    well-formed result with the right byte and element counts, the cursor on the
    new element (after a deletion, on the next one or [NULL]); [NULL] exactly
    when the result would not fit 32 bits. *)
Theorem lpInsert_refines junk lp rs elestr eleint size p where_ rs' newp :
  listpack lp rs -> element_args elestr eleint size ->
  edit where_ (new_encoding elestr eleint) rs p rs' newp ->
  if decide (total rs' <= UINT32_MAX) then
    exists lp', lpInsert junk lp elestr eleint size p where_ = Some (Some (lp', newp)) /\
      listpack lp' rs'
  else lpInsert junk lp elestr eleint size p where_ = Some None.
Proof. apply lpInsert_spec. Qed.

(** Storing a string is lossless: whether it is stored as a string or, when it
    is the decimal of a 64-bit integer, as one of six integer encodings, [lpGet]
    with a buffer of 21 bytes gives back exactly the string, and without a buffer
    the integer it denotes. *)
Theorem lpGet_roundtrip lp l l' s buf :
  listpack lp (l ++ encode s :: l') -> bytes s -> msize s <= UINT32_MAX ->
  LP_INTBUF_SIZE <= msize buf ->
  (exists v, lpGet lp (offset l) (Some buf) = Some v /\ get_string lp v = Some s) /\
  match string2ll s with
  | Some v => lpGet lp (offset l) None = Some (VInt v)
  | None => exists off, lpGet lp (offset l) None = Some (VStr off (msize s)) /\
      memread lp off (msize s) = Some s
  end.
Proof.
  intros (num & slack & -> & _) Hb Hs Hbuf. rewrite layout_split, (layout_at num l (encode s) l' _ eq_refl).
  set (a := hdr num _ ++ body l). set (c := lpEncodeBacklen _ ++ _). unfold lpGet, encode.
  destruct (lpStringToInt64 s) as [v|] eqn:E; pose proof E as E'; rewrite lpStringToInt64_eq in E';
    rewrite E'.
  - apply stoi_int in E as [Hv Hi]. pose proof (get_int v (Some buf) Hv) as Hg.
    cbn [int_result] in Hg.
    destruct (ll2string_spec buf v Hv Hbuf) as (s' & rest & El & _ & Hi').
    rewrite El in Hg. cbn [mbind option_bind] in Hg.
    rewrite (is_integer_unique v s' s Hi' Hi) in *.
    split; [|by rewrite (get_embed a _ c _ _ (get_int v None Hv))].
    eexists. split; [by apply (get_embed a _ c)|]. cbn. by apply memread_app_start.
  - pose proof (get_str s [] (Some buf) Hb Hs) as Hg. pose proof (get_str s [] None Hb Hs) as Hg'.
    rewrite app_nil_r in Hg, Hg'. pose proof (read_str s []) as Hr. rewrite app_nil_r in Hr.
    apply memread_bounds in Hr as Hbd.
    assert (Hm : memread (a ++ encode_str s ++ c) (msize a + msize (str_header (msize s))) (msize s)
      = Some s) by (rewrite memread_embed by lia; done).
    apply (get_embed a _ c) in Hg, Hg'. cbn [shift_value] in Hg, Hg'.
    split; eexists; (split; [eassumption|exact Hm]).
Qed.

(** Seeking, from whichever end and over however many elements, finds the
    element of the given index, negative ones counting from the tail, and answers
    [NULL] exactly when the index is out of range. *)
Theorem lpSeek_correct lp rs index :
  listpack lp rs ->
  lpSeek lp index =
    Some (elem_at rs (if index <? 0 then Z.of_nat (length rs) + index else index)).
Proof. apply lpSeek_spec. Qed.

(** [lpFind] returns the first element equal to the string (a string of the
    same bytes or the integer it denotes) among those at multiples of [skip + 1],
    and [NULL] when none of these is. *)
Theorem lpFind_correct lp rs s skip :
  listpack lp rs -> 0 <= skip < 2 ^ 31 ->
  exists res, lpFind lp None s skip = Some res /\
  match res with
  | Some off => exists i r, rs !! i = Some r /\ Z.of_nat i `mod` (skip + 1) = 0 /\
      elem_matches s r = true /\ off = offset (take i rs) /\
      forall j r', (j < i)%nat -> Z.of_nat j `mod` (skip + 1) = 0 -> rs !! j = Some r' ->
        elem_matches s r' = false
  | None => forall j r', Z.of_nat j `mod` (skip + 1) = 0 -> rs !! j = Some r' ->
      elem_matches s r' = false
  end.
Proof.
  intros Hlp Hs. exists (find_from s skip 0 [] rs). split; [by apply lpFind_spec|].
  pose proof (find_from_spec s skip Hs rs 0 [] ltac:(lia)) as H.
  assert (Hst : forall i, stride skip 0 i <-> Z.of_nat i `mod` (skip + 1) = 0).
  { intros i. unfold stride. by rewrite Z.sub_0_r. }
  destruct (find_from s skip 0 [] rs) as [off|].
  - destruct H as (i & r & Hi & Hsi & Hm & Ho & Hmin). exists i, r.
    split; [done|]. split; [by apply Hst|]. split; [done|]. split; [done|].
    intros j r' Hj Hm'. apply Hmin; [done|]. by apply Hst.
  - intros j r' Hm'. apply H. by apply Hst.
Qed.

(** Deleting a range removes exactly the elements from the index on, as many
    as given or as there are, and nothing for an index out of range, on the path
    that cuts the tail and on the one that moves it. *)
Theorem lpDeleteRange_refines junk lp rs index n :
  listpack lp rs -> 0 <= n ->
  let i := if index <? 0 then Z.of_nat (length rs) + index else index in
  exists lp', lpDeleteRange junk lp index n = Some lp' /\
    listpack lp' (if (0 <=? i) && (i <? Z.of_nat (length rs))
                  then take (Z.to_nat i) rs ++ drop (Z.to_nat (i + n)) rs else rs).
Proof. apply lpDeleteRange_spec. Qed.

(** Merging appends the second list to the first, whichever of the two blocks
    is kept, for a total below [2^32 - 1] bytes. *)
Theorem lpMerge_refines junk first second rs1 rs2 :
  listpack first rs1 -> listpack second rs2 -> total (rs1 ++ rs2) < UINT32_MAX ->
  exists lp, lpMerge junk first second = Some (lp, total rs1 >=? total rs2) /\
    listpack lp (rs1 ++ rs2).
Proof. apply lpMerge_spec. Qed.

(** C37: A deep validation of arbitrary bytes never reads outside them, and a block
    it accepts can be walked entirely in both directions, with the number of
    entries its header announces. *)
Theorem lpValidateIntegrity_sound lp :
  bytes lp ->
  exists b, lpValidateIntegrity lp (msize lp) true None = Some b /\
    (b = true -> exists ps num, traversable lp ps /\ lpGetNumElements lp = Some num /\
       (num = LP_HDR_NUMELE_UNKNOWN \/ num = Z.of_nat (length ps))).
Proof. apply lpValidateIntegrity_total. Qed.

(** ** Witnesses *)

Definition ex_rs : list mem := [encode (chs "hello"); encode (chs "-5000"); encode (chs "42")].
Definition ex_lp : mem := layout 3 ex_rs [7; 7].

Lemma ex_listpack : listpack ex_lp ex_rs.
Proof.
  exists 3, [7; 7]. split; [done|]. split; [|split; [by vm_compute|by right]].
  repeat apply Forall_cons_2; [apply encode_ok; [by apply bytes_check|by vm_compute]..|constructor].
Qed.

Lemma ex_small : total ex_rs <= UINT32_MAX.
Proof. by vm_compute. Qed.

Lemma lpInsert_refines_witness :
  let rs' := [encode (chs "hello"); encode (chs "12345678901"); encode (chs "-5000"); encode (chs "42")] in
  if decide (total rs' <= UINT32_MAX) then
    exists lp', lpInsert (fun _ => 170) ex_lp (Some (chs "12345678901")) None 11 (offset []) LP_AFTER =
      Some (Some (lp', Some (offset [encode (chs "hello")]))) /\ listpack lp' rs'
  else lpInsert (fun _ => 170) ex_lp (Some (chs "12345678901")) None 11 (offset []) LP_AFTER = Some None.
Proof.
  apply (lpInsert_refines (fun _ => 170) ex_lp ex_rs (Some (chs "12345678901")) None 11 (offset [])
    LP_AFTER).
  - apply ex_listpack.
  - split; [|by vm_compute]. by apply bytes_check.
  - apply (edit_after _ (encode (chs "hello")) []).
Defined.

Lemma lpGet_roundtrip_witness :
  (exists v, lpGet ex_lp (offset [encode (chs "hello")]) (Some (replicate 21 0)) = Some v /\
     get_string ex_lp v = Some (chs "-5000")) /\
  match string2ll (chs "-5000") with
  | Some v => lpGet ex_lp (offset [encode (chs "hello")]) None = Some (VInt v)
  | None => exists off, lpGet ex_lp (offset [encode (chs "hello")]) None =
      Some (VStr off (msize (chs "-5000"))) /\ memread ex_lp off (msize (chs "-5000")) = Some (chs "-5000")
  end.
Proof.
  apply (lpGet_roundtrip ex_lp [encode (chs "hello")] [encode (chs "42")]).
  - apply ex_listpack.
  - by apply bytes_check.
  - by vm_compute.
  - by vm_compute.
Defined.

Lemma lpSeek_correct_witness : lpSeek ex_lp (-2) = Some (elem_at ex_rs (3 + -2)).
Proof. apply (lpSeek_correct ex_lp ex_rs (-2)). apply ex_listpack. Defined.

Lemma lpFind_correct_witness :
  exists res, lpFind ex_lp None (chs "42") 1 = Some res /\
  match res with
  | Some off => exists i r, ex_rs !! i = Some r /\ Z.of_nat i `mod` (1 + 1) = 0 /\
      elem_matches (chs "42") r = true /\ off = offset (take i ex_rs) /\
      forall j r', (j < i)%nat -> Z.of_nat j `mod` (1 + 1) = 0 -> ex_rs !! j = Some r' ->
        elem_matches (chs "42") r' = false
  | None => forall j r', Z.of_nat j `mod` (1 + 1) = 0 -> ex_rs !! j = Some r' ->
      elem_matches (chs "42") r' = false
  end.
Proof. apply (lpFind_correct ex_lp ex_rs (chs "42") 1); [apply ex_listpack|lia]. Defined.

Lemma lpDeleteRange_refines_witness :
  exists lp', lpDeleteRange (fun _ => 170) ex_lp (-3) 2 = Some lp' /\ listpack lp' [encode (chs "42")].
Proof. apply (lpDeleteRange_refines (fun _ => 170) ex_lp ex_rs (-3) 2); [apply ex_listpack|lia]. Defined.

Lemma lpMerge_refines_witness :
  exists lp, lpMerge (fun _ => 170) ex_lp ex_lp = Some (lp, total ex_rs >=? total ex_rs) /\
    listpack lp (ex_rs ++ ex_rs).
Proof.
  apply (lpMerge_refines (fun _ => 170) ex_lp ex_lp ex_rs ex_rs);
    [apply ex_listpack|apply ex_listpack|by vm_compute].
Defined.

(** A blob with an entry whose backlen lies. *)
Definition ex_bad : mem := [13; 0; 0; 0; 2; 0; 129; 97; 2; 5; 3; 3; 255].

Lemma lpValidateIntegrity_sound_witness :
  exists b, lpValidateIntegrity ex_bad (msize ex_bad) true None = Some b /\
    (b = true -> exists ps num, traversable ex_bad ps /\ lpGetNumElements ex_bad = Some num /\
       (num = LP_HDR_NUMELE_UNKNOWN \/ num = Z.of_nat (length ps))).
Proof.
  apply (lpValidateIntegrity_sound ex_bad). by apply bytes_check.
Defined.

Example lpValidate_examples :
  lpValidateIntegrity ex_bad 13 true None = Some false /\
  lpValidateIntegrity (layout 3 ex_rs []) (total ex_rs) true None = Some true /\
  match lpNew (fun _ => 170) 0 with
  | Some lp => match lpAppend (fun _ => 170) lp (chs "hello") with
    | Some (Some (lp, _)) => Some lp
    | _ => None
    end
  | None => None
  end = Some (layout 1 [encode (chs "hello")] []).
Proof. vm_compute. done. Qed.

End Listpack.
