(* ===== verification/Dict.v ===== *)
(** The incrementally rehashed hash table ([src/dict.c]): sizing, rehashing,
    lookup, insertion, deletion and two-phase unlinking.  The scan cursor and the
    iterators are in the files DictScan and DictIter.

    A chain of entries is the list of its keys and values, in the order of the
    [next] pointers; an entry pointer is the chain that starts there, a link
    ([dictEntry **]) is the table, bucket and position it points into.  The
    encoding of [no_value] entries as tagged pointers, the key and value
    destructors and duplicators are memory management and are left out. *)
From stdpp Require Import base numbers list gmap.
From stdpp Require Import options.
From S2P Require Import Prelude.

Module Dict.

(** ** Data *)

Definition DICT_OK : Z := 0.
Definition DICT_ERR : Z := 1.
Definition HASHTABLE_MIN_FILL : Z := 8.
Definition DICT_HT_INITIAL_EXP : Z := 2.
Definition DICT_HT_INITIAL_SIZE : Z := 4.
Definition dict_force_resize_ratio : Z := 4.
Definition LONG_MAX : Z := INT64_MAX.

Definition DICTHT_SIZE (exp : Z) : Z := if exp =? -1 then 0 else u64 (Z.shiftl 1 exp).
Definition DICTHT_SIZE_MASK (exp : Z) : Z := if exp =? -1 then 0 else DICTHT_SIZE exp - 1.

Inductive dictResizeEnable := DICT_RESIZE_ENABLE | DICT_RESIZE_AVOID | DICT_RESIZE_FORBID.

#[export] Instance dictResizeEnable_eq_dec : EqDecision dictResizeEnable.
Proof. solve_decision. Defined.

(** The callbacks of [dictType] that observe resizing, as a trace. *)
Inductive dictEvent :=
  | rehashingStarted
  | rehashingCompleted
  | bucketChanged (delta : Z).

(** [struct dictType]: the members the operations consult.  [resizeAllowed] is
    given the size of the new allocation in bytes and the numerator and
    denominator of the used ratio. *)
Record dictType (K : Type) := mk_dictType {
  hashFunction : K -> Z;
  resizeAllowed : option (Z -> Z -> Z -> bool);
  force_full_rehash : bool
}.
Arguments mk_dictType {K}.
Arguments hashFunction {K}.
Arguments resizeAllowed {K}.
Arguments force_full_rehash {K}.

(** A chain of entries. *)
Abbreviation chain K V := (list (K * V)).

Section data.
Context {K V : Type}.

(** One of the two tables: [ht_table[i]], [ht_used[i]] and [ht_size_exp[i]].
    [NULL] is the table without buckets. *)
Record dictht := mk_ht {
  ht_table : list (chain K V);
  ht_used : Z;
  ht_size_exp : Z
}.

(** [struct dict], with the calls its type's observers received, newest first. *)
Record dict := mk_dict {
  ht0 : dictht;
  ht1 : dictht;
  rehashidx : Z;
  pauserehash : Z;
  pauseAutoResize : Z;
  trace : list dictEvent
}.

Definition ht (d : dict) (table : bool) : dictht := if table then ht1 d else ht0 d.
Definition set_ht (d : dict) (table : bool) (h : dictht) : dict :=
  if table
  then mk_dict (ht0 d) h (rehashidx d) (pauserehash d) (pauseAutoResize d) (trace d)
  else mk_dict h (ht1 d) (rehashidx d) (pauserehash d) (pauseAutoResize d) (trace d).
Definition set_rehashidx (d : dict) (i : Z) : dict :=
  mk_dict (ht0 d) (ht1 d) i (pauserehash d) (pauseAutoResize d) (trace d).
Definition set_pauserehash (d : dict) (p : Z) : dict :=
  mk_dict (ht0 d) (ht1 d) (rehashidx d) p (pauseAutoResize d) (trace d).
Definition emit (e : dictEvent) (d : dict) : dict :=
  mk_dict (ht0 d) (ht1 d) (rehashidx d) (pauserehash d) (pauseAutoResize d) (e :: trace d).

(** [d->ht_table[t][i]]; outside the table it is undefined. *)
Definition tget (t : list (chain K V)) (i : Z) : option (chain K V) :=
  if 0 <=? i then t !! Z.to_nat i else None.
Definition tset (t : list (chain K V)) (i : Z) (b : chain K V) : list (chain K V) := <[Z.to_nat i := b]> t.

Definition size_exp (d : dict) (table : bool) : Z := ht_size_exp (ht d table).
Definition htsize (d : dict) (table : bool) : Z := DICTHT_SIZE (size_exp d table).
Definition htmask (d : dict) (table : bool) : Z := DICTHT_SIZE_MASK (size_exp d table).

Definition dictBuckets (d : dict) : Z := u64 (htsize d false + htsize d true).
Definition dictSize (d : dict) : Z := u64 (ht_used (ht0 d) + ht_used (ht1 d)).
Definition dictIsRehashing (d : dict) : bool := negb (rehashidx d =? -1).
Definition dictPauseRehashing (d : dict) : dict := set_pauserehash d (u32 (pauserehash d + 1)).
Definition dictResumeRehashing (d : dict) : dict := set_pauserehash d (u32 (pauserehash d - 1)).

Definition _dictReset : dictht := mk_ht [] 0 (-1).

(** [dictCreate] and [_dictInit] *)
Definition _dictInit : dict := mk_dict _dictReset _dictReset (-1) 0 0 [].
Definition dictCreate : dict := _dictInit.

End data.
Arguments dictht : clear implicits.
Arguments dict : clear implicits.

(** [_dictNextExp]: the size is a power of two. *)
Definition _dictNextExp (size : Z) : Z :=
  if size <=? DICT_HT_INITIAL_SIZE then DICT_HT_INITIAL_EXP
  else if size >=? LONG_MAX then 63
  else 64 - (63 - Z.log2 (size - 1)).

Section ops.
Context {K V : Type} `{EqDecision K}.
Context (type : dictType K) (dict_can_resize : dictResizeEnable).
Implicit Types (d : dict K V) (k key : K) (b : chain K V) (h : dictht K V).

Definition dictGetHash (key : K) : Z := hashFunction type key.

(** ** Rehashing *)

(** [while (de)] of [rehashEntriesInBucketAtIndex]: each entry moves to the head
    of its bucket in the second table. *)
Fixpoint rehash_chain (de : chain K V) (idx : Z) (h0 h1 : dictht K V)
    : option (dictht K V * dictht K V) :=
  match de with
  | [] => Some (h0, h1)
  | (k, v) :: nextde =>
    let mask1 := DICTHT_SIZE_MASK (ht_size_exp h1) in
    let h := if ht_size_exp h1 >? ht_size_exp h0
             then Z.land (dictGetHash k) mask1 else Z.land idx mask1 in
    b ← tget (ht_table h1) h;
    rehash_chain nextde idx
      (mk_ht (ht_table h0) (u64 (ht_used h0 - 1)) (ht_size_exp h0))
      (mk_ht (tset (ht_table h1) h ((k, v) :: b)) (u64 (ht_used h1 + 1)) (ht_size_exp h1))
  end.

Definition rehashEntriesInBucketAtIndex d (idx : Z) : option (dict K V) :=
  de ← tget (ht_table (ht0 d)) idx;
  '(h0, h1) ← rehash_chain de idx (ht0 d) (ht1 d);
  Some (set_ht (set_ht d false (mk_ht (tset (ht_table h0) idx []) (ht_used h0) (ht_size_exp h0)))
               true h1).

Definition dictCheckRehashingCompleted d : bool * dict K V :=
  if negb (ht_used (ht0 d) =? 0) then (false, d)
  else
    let d := emit rehashingCompleted d in
    let d := emit (bucketChanged (- htsize d false)) d in
    let d := set_ht d false (ht1 d) in
    let d := set_ht d true _dictReset in
    (true, set_rehashidx d (-1)).

(** The test that [DICT_RESIZE_AVOID] adds. *)
Definition resize_avoided (s0 s1 : Z) : bool :=
  bool_decide (dict_can_resize = DICT_RESIZE_AVOID) &&
  (((s1 >? s0) && (s1 <? u64 (dict_force_resize_ratio * s0))) ||
   ((s1 <? s0) && (s0 <? u64 (HASHTABLE_MIN_FILL * dict_force_resize_ratio * s1)))).

(** [while (d->ht_table[0][d->rehashidx] == NULL)]: the number of empty visits
    left and the index of a bucket with entries, or [None] inside when the visits
    are used up; the index reached in both cases. *)
Fixpoint skip_empty (fuel : nat) (t : list (chain K V)) (idx empty_visits : Z)
    : option (Z * option Z) :=
  match fuel with
  | O => None
  | S fuel =>
    b ← tget t idx;
    match b with
    | _ :: _ => Some (idx, Some empty_visits)
    | [] =>
      let idx := idx + 1 in
      let empty_visits := i32 (empty_visits - 1) in
      if empty_visits =? 0 then Some (idx, None)
      else skip_empty fuel t idx empty_visits
    end
  end.

(** [while (n-- && d->ht_used[0] != 0)] and what follows it. *)
Fixpoint dictRehash_loop (n : nat) d (empty_visits : Z) : option (Z * dict K V) :=
  let finish := let '(c, d) := dictCheckRehashingCompleted d in Some (b2z (negb c), d) in
  match n with
  | O => finish
  | S n =>
    if ht_used (ht0 d) =? 0 then finish
    else
      _ ← cassert (htsize d false >? rehashidx d);
      '(idx, more) ← skip_empty (S (length (ht_table (ht0 d)))) (ht_table (ht0 d))
                       (rehashidx d) empty_visits;
      let d := set_rehashidx d idx in
      match more with
      | None => Some (1, d)
      | Some empty_visits =>
        d ← rehashEntriesInBucketAtIndex d (rehashidx d);
        dictRehash_loop n (set_rehashidx d (rehashidx d + 1)) empty_visits
      end
  end.

(** [n] is not negative in any call. *)
Definition dictRehash d (n : nat) : option (Z * dict K V) :=
  let empty_visits := i32 (Z.of_nat n * 10) in
  let s0 := htsize d false in
  let s1 := htsize d true in
  if bool_decide (dict_can_resize = DICT_RESIZE_FORBID) || negb (dictIsRehashing d)
  then Some (0, d)
  else if resize_avoided s0 s1 then Some (0, d)
  else dictRehash_loop n d empty_visits.

Definition _dictRehashStep d : option (dict K V) :=
  if pauserehash d =? 0 then snd <$> dictRehash d 1 else Some d.

Definition _dictBucketRehash d (idx : Z) : option (Z * dict K V) :=
  if negb (pauserehash d =? 0) then Some (0, d)
  else
    let s0 := htsize d false in
    let s1 := htsize d true in
    if bool_decide (dict_can_resize = DICT_RESIZE_FORBID) || negb (dictIsRehashing d)
    then Some (0, d)
    else if resize_avoided s0 s1 then Some (0, d)
    else
      d ← rehashEntriesInBucketAtIndex d idx;
      Some (1, snd (dictCheckRehashingCompleted d)).

Definition _dictRehashStepIfNeeded d (visitedIdx : Z) : option (dict K V) :=
  if negb (dictIsRehashing d) || negb (pauserehash d =? 0) then Some d
  else if i64 visitedIdx >=? rehashidx d then
    b ← tget (ht_table (ht0 d)) visitedIdx;
    match b with
    | _ :: _ => snd <$> _dictBucketRehash d visitedIdx
    | [] => snd <$> dictRehash d 1
    end
  else snd <$> dictRehash d 1.

(** ** Sizing *)

(** [while (dictRehash(d,1000))]: every round but the last moves [rehashidx]. *)
Fixpoint rehash_all (fuel : nat) d : option (dict K V) :=
  match fuel with
  | O => None
  | S fuel =>
    '(r, d) ← dictRehash d 1000;
    if r =? 0 then Some d else rehash_all fuel d
  end.

(** The table [zcalloc] provides. *)
Definition new_ht (new_ht_size_exp : Z) : dictht K V :=
  mk_ht (replicate (Z.to_nat (DICTHT_SIZE new_ht_size_exp)) []) 0 new_ht_size_exp.

(** [malloc_failed] tells whether [ztrycalloc] fails, where the caller passes a
    pointer to find out; otherwise the allocation does not return on failure.
    The result has what is stored there. *)
Definition _dictResize d (size : Z) (malloc_failed : option bool)
    : option (Z * bool * dict K V) :=
  _ ← cassert (negb (dictIsRehashing d));
  let new_ht_size_exp := _dictNextExp size in
  let newsize := DICTHT_SIZE new_ht_size_exp in
  if (newsize <? size) || (u64 (newsize * 8) <? newsize) then Some (DICT_ERR, false, d)
  else if new_ht_size_exp =? size_exp d false then Some (DICT_ERR, false, d)
  else if default false malloc_failed then Some (DICT_ERR, true, d)
  else
    let d := set_ht d true (new_ht new_ht_size_exp) in
    let d := set_rehashidx d 0 in
    let d := emit rehashingStarted d in
    let d := emit (bucketChanged (htsize d true)) d in
    if bool_decide (ht_table (ht0 d) = []) || (ht_used (ht0 d) =? 0) then
      let d := emit rehashingCompleted d in
      let d := emit (bucketChanged (- htsize d false)) d in
      let d := set_ht d false (ht1 d) in
      let d := set_ht d true _dictReset in
      Some (DICT_OK, false, set_rehashidx d (-1))
    else if force_full_rehash type then
      d ← rehash_all (S (length (ht_table (ht0 d)))) d;
      Some (DICT_OK, false, d)
    else Some (DICT_OK, false, d).

Definition _dictExpand d (size : Z) (malloc_failed : option bool)
    : option (Z * bool * dict K V) :=
  if dictIsRehashing d || (ht_used (ht0 d) >? size) || (htsize d false >=? size)
  then Some (DICT_ERR, false, d)
  else _dictResize d size malloc_failed.

Definition dictExpand d (size : Z) : option (Z * dict K V) :=
  '(r, _, d) ← _dictExpand d size None; Some (r, d).

Definition dictTryExpand d (size : Z) (malloc_fails : bool) : option (Z * dict K V) :=
  '(_, failed, d) ← _dictExpand d size (Some malloc_fails);
  Some (if failed : bool then DICT_ERR else DICT_OK, d).

Definition dictShrink d (size : Z) : option (Z * dict K V) :=
  if dictIsRehashing d || (ht_used (ht0 d) >? size) || (htsize d false <=? size)
  then Some (DICT_ERR, d)
  else '(r, _, d) ← _dictResize d size None; Some (r, d).

Definition dictTypeResizeAllowed d (size : Z) : bool :=
  match resizeAllowed type with
  | None => true
  | Some f => f (u64 (DICTHT_SIZE (_dictNextExp size) * 8)) (ht_used (ht0 d)) (htsize d false)
  end.

Definition dictExpandIfNeeded d : option (Z * dict K V) :=
  if dictIsRehashing d then Some (DICT_OK, d)
  else if htsize d false =? 0 then
    '(_, d) ← dictExpand d DICT_HT_INITIAL_SIZE; Some (DICT_OK, d)
  else if (bool_decide (dict_can_resize = DICT_RESIZE_ENABLE) &&
           (ht_used (ht0 d) >=? htsize d false)) ||
          (negb (bool_decide (dict_can_resize = DICT_RESIZE_FORBID)) &&
           (ht_used (ht0 d) >=? u64 (dict_force_resize_ratio * htsize d false)))
  then
    if dictTypeResizeAllowed d (u64 (ht_used (ht0 d) + 1)) then
      '(_, d) ← dictExpand d (u64 (ht_used (ht0 d) + 1)); Some (DICT_OK, d)
    else Some (DICT_OK, d)
  else Some (DICT_ERR, d).

Definition _dictExpandIfNeeded d : option (Z * dict K V) :=
  if pauseAutoResize d >? 0 then Some (DICT_ERR, d) else dictExpandIfNeeded d.

Definition dictShrinkIfNeeded d : option (Z * dict K V) :=
  if dictIsRehashing d then Some (DICT_OK, d)
  else if htsize d false <=? DICT_HT_INITIAL_SIZE then Some (DICT_OK, d)
  else if (bool_decide (dict_can_resize = DICT_RESIZE_ENABLE) &&
           (u64 (ht_used (ht0 d) * HASHTABLE_MIN_FILL) <=? htsize d false)) ||
          (negb (bool_decide (dict_can_resize = DICT_RESIZE_FORBID)) &&
           (u64 (ht_used (ht0 d) * HASHTABLE_MIN_FILL * dict_force_resize_ratio)
              <=? htsize d false))
  then
    if dictTypeResizeAllowed d (ht_used (ht0 d)) then
      '(_, d) ← dictShrink d (ht_used (ht0 d)); Some (DICT_OK, d)
    else Some (DICT_OK, d)
  else Some (DICT_ERR, d).

Definition _dictShrinkIfNeeded d : option (dict K V) :=
  if pauseAutoResize d >? 0 then Some d else snd <$> dictShrinkIfNeeded d.

(** ** Lookup *)

(** A link: [&ht_table[table][idx]], followed [pos] times to a [next] field. *)
Record dictEntryLink := mk_link {
  link_table : bool;
  link_idx : Z;
  link_pos : nat
}.

#[export] Instance dictEntryLink_eq_dec : EqDecision dictEntryLink.
Proof. solve_decision. Defined.

(** The walk down a chain for a key. *)
Fixpoint chain_find key b : option nat :=
  match b with
  | [] => None
  | (k, _) :: next => if decide (key = k) then Some O else S <$> chain_find key next
  end.

(** [*link]: the chain that starts at the entry. *)
Definition link_entry d (link : dictEntryLink) : option (chain K V) :=
  b ← tget (ht_table (ht d (link_table link))) (link_idx link);
  Some (drop (link_pos link) b).

(** The search of one table for a key with the given hash. *)
Definition find_in_table d key (hash : Z) (table : bool) : option (option dictEntryLink) :=
  let idx := Z.land hash (htmask d table) in
  he ← tget (ht_table (ht d table)) idx;
  Some (mk_link table idx <$> chain_find key he).

(** [for (table = 0; table <= 1; table++)] with [idx] the index in the first table. *)
Definition find_in_tables d key (hash idx : Z) : option (option dictEntryLink) :=
  if i64 idx <? rehashidx d then find_in_table d key hash true
  else
    r ← find_in_table d key hash false;
    match r with
    | Some _ => Some r
    | None => if negb (dictIsRehashing d) then Some None else find_in_table d key hash true
    end.

(** [link = &ht_table[table][idx]] is [NULL] when there is no table. *)
Definition find_link_in_table d key (hash : Z) (table : bool)
    : option (option dictEntryLink * option dictEntryLink) :=
  let idx := Z.land hash (htmask d table) in
  match ht_table (ht d table) with
  | [] => Some (None, None)
  | t =>
    b ← tget t idx;
    Some (Some (mk_link table idx 0), mk_link table idx <$> chain_find key b)
  end.

(** [for (table = 0; table < tables; table++)]: the last bucket looked at and the
    link, if found. *)
Definition find_links d key (hash idx : Z)
    : option (option dictEntryLink * option dictEntryLink) :=
  '(bucket, link) ←
    (if i64 idx <? rehashidx d then Some (None, None)
     else find_link_in_table d key hash false);
  match link with
  | Some _ => Some (bucket, link)
  | None =>
    if dictIsRehashing d then find_link_in_table d key hash true else Some (bucket, None)
  end.

(** [dictFindLinkInternal]: the bucket, when asked for, the link and the dict. *)
Definition dictFindLinkInternal d key (want_bucket : bool)
    : option (option dictEntryLink * option dictEntryLink * dict K V) :=
  if negb want_bucket && (dictSize d =? 0) then Some (None, None, d)
  else
    let hash := dictGetHash key in
    let idx := Z.land hash (htmask d false) in
    d ← _dictRehashStepIfNeeded d idx;
    '(bucket, link) ← find_links d key hash idx;
    Some (bucket, link, d).

Definition dictFindLink d key (want_bucket : bool)
    : option (option dictEntryLink * option dictEntryLink * dict K V) :=
  if dictSize d =? 0 then Some (None, None, d) else dictFindLinkInternal d key want_bucket.

(** The entry found is returned as its key and value. *)
Definition dictFind d key : option (option (K * V) * dict K V) :=
  '(_, link, d) ← dictFindLink d key false;
  match link with
  | None => Some (None, d)
  | Some link => de ← link_entry d link; Some (head de, d)
  end.

Definition dictFetchValue d key : option (option V * dict K V) :=
  '(he, d) ← dictFind d key; Some (option_map snd he, d).

(** ** Insertion *)

(** The link to insert at, or the link of the existing entry. *)
Definition dictFindLinkForInsert d key
    : option ((dictEntryLink + dictEntryLink) * dict K V) :=
  let hash := dictGetHash key in
  let idx := Z.land hash (htmask d false) in
  d ← _dictRehashStepIfNeeded d idx;
  '(_, d) ← _dictExpandIfNeeded d;
  existing ← find_in_tables d key hash idx;
  match existing with
  | Some link => Some (inr link, d)
  | None =>
    let table := dictIsRehashing d in
    let idx := Z.land hash (htmask d table) in
    Some (inl (mk_link table idx 0), d)
  end.

Definition dictInsertKeyAtLink d key (val : V) (link : dictEntryLink) : option (dict K V) :=
  let htidx := dictIsRehashing d in
  _ ← cassert (bool_decide (link_table link = htidx) && bool_decide (link_pos link = O) &&
               (0 <=? link_idx link) && (link_idx link <=? htmask d htidx));
  b ← tget (ht_table (ht d htidx)) (link_idx link);
  let h := ht d htidx in
  Some (set_ht d htidx (mk_ht (tset (ht_table h) (link_idx link) ((key, val) :: b))
                              (u64 (ht_used h + 1)) (ht_size_exp h))).

(** [dictAddRaw] followed by the setting of the value of the new entry: the
    existing entry's link if the key is present. *)
Definition dictAddRaw d key (val : V) : option (option dictEntryLink * dict K V) :=
  '(position, d) ← dictFindLinkForInsert d key;
  match position with
  | inr existing => Some (Some existing, d)
  | inl position => d ← dictInsertKeyAtLink d key val position; Some (None, d)
  end.

Definition dictAdd d key (val : V) : option (Z * dict K V) :=
  '(existing, d) ← dictAddRaw d key val;
  match existing with
  | Some _ => Some (DICT_ERR, d)
  | None => Some (DICT_OK, d)
  end.

(** [dictSetVal] of the entry a link points to. *)
Definition dictSetVal d (link : dictEntryLink) (val : V) : option (dict K V) :=
  let h := ht d (link_table link) in
  b ← tget (ht_table h) (link_idx link);
  '(k, _) ← b !! link_pos link;
  Some (set_ht d (link_table link)
         (mk_ht (tset (ht_table h) (link_idx link) (<[link_pos link := (k, val)]> b))
                (ht_used h) (ht_size_exp h))).

Definition dictReplace d key (val : V) : option (Z * dict K V) :=
  '(existing, d) ← dictAddRaw d key val;
  match existing with
  | None => Some (1, d)
  | Some existing => d ← dictSetVal d existing val; Some (0, d)
  end.

(** [dictSetKeyAtLink], for a dict whose stored keys are keys with their values:
    a new entry at the bucket [link], or the replacement of the stored key of the
    entry at [link]; either is looked up where it is [NULL]. *)
Definition dictSetKeyAtLink d key (val : V) (link : option dictEntryLink) (newItem : bool)
    : option (dict K V) :=
  if newItem then
    let snap := (size_exp d false, size_exp d true) in
    '(_, d) ← dictExpandIfNeeded d;
    if bool_decide (snap <> (size_exp d false, size_exp d true)) || bool_decide (link = None) then
      '(bucket, link, d) ← dictFindLinkInternal d key true;
      _ ← cassert (bool_decide (link = None));
      link ← bucket;
      dictInsertKeyAtLink d key val link
    else link ← link; dictInsertKeyAtLink d key val link
  else
    '(link, d) ← match link with
                 | Some link => Some (link, d)
                 | None => '(_, link, d) ← dictFindLink d key false; link ← link; Some (link, d)
                 end;
    dictSetVal d link val.

(** ** Deletion *)

(** The entry a link points to is unlinked from its chain. *)
Definition unlink_entry d (link : dictEntryLink) : option (option (K * V) * dict K V) :=
  let h := ht d (link_table link) in
  b ← tget (ht_table h) (link_idx link);
  Some (b !! link_pos link,
        set_ht d (link_table link)
          (mk_ht (tset (ht_table h) (link_idx link) (delete (link_pos link) b))
                 (ht_used h) (ht_size_exp h))).

(** [d->ht_used[table]--] *)
Definition dec_used d (table : bool) : dict K V :=
  let h := ht d table in
  set_ht d table (mk_ht (ht_table h) (u64 (ht_used h - 1)) (ht_size_exp h)).

(** [dictGenericDelete]: whether the entry is also freed makes no difference here. *)
Definition dictGenericDelete d key : option (option (K * V) * dict K V) :=
  if dictSize d =? 0 then Some (None, d)
  else
    let h := dictGetHash key in
    let idx := Z.land h (htmask d false) in
    d ← _dictRehashStepIfNeeded d idx;
    r ← find_in_tables d key h idx;
    match r with
    | None => Some (None, d)
    | Some link =>
      '(he, d) ← unlink_entry d link;
      d ← _dictShrinkIfNeeded (dec_used d (link_table link));
      Some (he, d)
    end.

Definition dictDelete d key : option (Z * dict K V) :=
  '(he, d) ← dictGenericDelete d key;
  Some (match he with Some _ => DICT_OK | None => DICT_ERR end, d).

Definition dictUnlink d key : option (option (K * V) * dict K V) := dictGenericDelete d key.

(** The first phase finds the entry and pauses rehashing, the second unlinks it. *)
Definition dictTwoPhaseUnlinkFind d key : option (option dictEntryLink * dict K V) :=
  if dictSize d =? 0 then Some (None, d)
  else
    d ← (if dictIsRehashing d then _dictRehashStep d else Some d);
    let h := dictGetHash key in
    r ← find_in_tables d key h (Z.land h (htmask d false));
    match r with
    | Some link => Some (Some link, dictPauseRehashing d)
    | None => Some (None, d)
    end.

Definition dictTwoPhaseUnlinkFree d (plink : option dictEntryLink) (table_index : bool)
    : option (dict K V) :=
  match plink with
  | None => Some d
  | Some plink =>
    de ← link_entry d plink;
    match de with
    | [] => Some d
    | _ :: _ =>
      let d := dec_used d table_index in
      '(_, d) ← unlink_entry d plink;
      d ← _dictShrinkIfNeeded d;
      Some (dictResumeRehashing d)
    end
  end.

(** ** Emptying *)

(** [_dictClear] frees the entries and the table. *)
Definition _dictClear d (htidx : bool) : dict K V := set_ht d htidx _dictReset.

Definition dictEmpty d : dict K V :=
  let d := if dictIsRehashing d then emit rehashingCompleted d else d in
  let d := emit (bucketChanged (- dictBuckets d)) d in
  let d := _dictClear d false in
  let d := _dictClear d true in
  mk_dict (ht0 d) (ht1 d) (-1) 0 0 (trace d).

(** [dictRelease]: what is left is the trace of the calls. *)
Definition dictRelease d : list dictEvent :=
  let d := if dictIsRehashing d then emit rehashingCompleted d else d in
  trace (emit (bucketChanged (- dictBuckets d)) d).

End ops.

(** ** Sizes *)

Lemma DICTHT_SIZE_pow e : 0 <= e <= 63 -> DICTHT_SIZE e = 2 ^ e.
Proof.
  intros He. unfold DICTHT_SIZE. destruct (Z.eqb_spec e (-1)); [lia|].
  rewrite Z.shiftl_1_l. apply wrapu_small. unfold in_u. split; [lia|].
  apply Z.pow_lt_mono_r; lia.
Qed.

Lemma DICTHT_MASK_ones e : 0 <= e <= 63 -> DICTHT_SIZE_MASK e = Z.ones e.
Proof.
  intros He. unfold DICTHT_SIZE_MASK. destruct (Z.eqb_spec e (-1)); [lia|].
  rewrite DICTHT_SIZE_pow, Z.ones_equiv by done. lia.
Qed.

Lemma land_mask x e : 0 <= e <= 63 -> Z.land x (DICTHT_SIZE_MASK e) = x `mod` 2 ^ e.
Proof. intros. by rewrite DICTHT_MASK_ones, Z.land_ones by lia. Qed.

Lemma _dictNextExp_range size : 2 <= _dictNextExp size <= 63.
Proof.
  unfold _dictNextExp, DICT_HT_INITIAL_SIZE, DICT_HT_INITIAL_EXP, LONG_MAX, INT64_MAX.
  rewrite Z.geb_leb. ztest; [lia|]. ztest; [lia|].
  pose proof (Z.log2_le_mono 4 (size - 1)) as H1. change (Z.log2 4) with 2 in H1.
  pose proof (Z.log2_le_mono (size - 1) (2 ^ 63 - 1)) as H2.
  change (Z.log2 (2 ^ 63 - 1)) with 62 in H2. lia.
Qed.

(** The overflow tests of [_dictResize] admit the sizes up to 2^60. *)
Lemma resize_overflow e :
  2 <= e <= 63 -> u64 (DICTHT_SIZE e * 8) <? DICTHT_SIZE e = false -> e <= 60.
Proof.
  intros He H. destruct (decide (e <= 60)); [done|exfalso].
  assert (e = 61 \/ e = 62 \/ e = 63) as [-> | [-> | ->]] by lia;
    vm_compute in H; discriminate.
Qed.

Lemma exp_size e : e = -1 \/ 2 <= e <= 60 -> 0 <= DICTHT_SIZE e <= 2 ^ 60.
Proof.
  intros [->|H]; [done|]. rewrite DICTHT_SIZE_pow by lia.
  pose proof (Z.pow_le_mono_r 2 e 60). lia.
Qed.

Lemma exp_size_pos e : 2 <= e <= 60 -> 4 <= DICTHT_SIZE e <= 2 ^ 60.
Proof.
  intros H. rewrite DICTHT_SIZE_pow by lia.
  pose proof (Z.pow_le_mono_r 2 e 60). pose proof (Z.pow_le_mono_r 2 2 e). lia.
Qed.

(** ** Tables *)

Section tables.
Context {K V : Type}.
Implicit Types (t : list (chain K V)) (b : chain K V).

Lemma tget_Some t i b : tget t i = Some b -> 0 <= i < Z.of_nat (length t).
Proof.
  unfold tget. case_match eqn:E; [|done]. bools. intros ?%lookup_lt_Some. lia.
Qed.

Lemma tget_is_Some t i : 0 <= i < Z.of_nat (length t) -> exists b, tget t i = Some b.
Proof. intros H. unfold tget. ztrue lia. apply lookup_lt_is_Some_2. lia. Qed.

Lemma length_tset t i b : length (tset t i b) = length t.
Proof. apply length_insert. Qed.

Lemma tget_tset_eq t i b b' : tget t i = Some b -> tget (tset t i b') i = Some b'.
Proof.
  intros H. pose proof (tget_Some _ _ _ H). unfold tget, tset. ztrue lia.
  apply list_lookup_insert_eq. lia.
Qed.

Lemma tget_tset_ne t i j b : 0 <= i -> i <> j -> tget (tset t i b) j = tget t j.
Proof.
  intros Hi Hij. unfold tget, tset. destruct (Z.leb_spec 0 j); [|done].
  apply list_lookup_insert_ne. lia.
Qed.

Lemma tget_tset t i j b b' :
  0 <= i -> tget (tset t i b) j = Some b' -> (i = j /\ b' = b) \/ (i <> j /\ tget t j = Some b').
Proof.
  intros Hi. destruct (decide (i = j)) as [<-|Hij].
  - intros H. pose proof (tget_Some _ _ _ H) as Hb. rewrite length_tset in Hb.
    destruct (tget_is_Some t i Hb) as [b0 H0].
    rewrite (tget_tset_eq _ _ _ _ H0) in H. simplify_eq. by left.
  - rewrite tget_tset_ne by done. by right.
Qed.

(** The entries of a table. *)
Definition flat (t : list (chain K V)) : list (K * V) := mjoin (t : list (list (K * V))).

Lemma elem_of_table t (e : K * V) : e ∈ flat t <-> exists i b, tget t i = Some b /\ e ∈ b.
Proof.
  unfold flat. rewrite list_elem_of_join. split.
  - intros (b & He & Hb). apply list_elem_of_lookup in Hb as [i Hi].
    exists (Z.of_nat i), b. unfold tget. ztrue lia. by rewrite Nat2Z.id.
  - intros (i & b & Hi & He). exists b. split; [done|].
    unfold tget in Hi. case_match; [|done]. by eapply list_elem_of_lookup_2.
Qed.

Lemma flat_app t t' : flat (t ++ t') = flat t ++ flat t'.
Proof. apply join_app. Qed.

Lemma flat_cons b t : flat (b :: t) = b ++ flat t.
Proof. done. Qed.

(** Replacing one bucket leaves the entries of the others. *)
Lemma entries_tset t i b :
  tget t i = Some b -> exists r, flat t ≡ₚ b ++ r /\ forall b', flat (tset t i b') ≡ₚ b' ++ r.
Proof.
  intros H. unfold tget in H. case_match; [|done].
  exists (flat (take (Z.to_nat i) t) ++ flat (drop (S (Z.to_nat i)) t)). split.
  - rewrite <- (take_drop_middle t _ _ H) at 1. rewrite flat_app, flat_cons.
    by rewrite Permutation_app_swap_app.
  - intros b'. unfold tset. rewrite insert_take_drop by (by eapply lookup_lt_Some).
    rewrite flat_app, flat_cons. by rewrite Permutation_app_swap_app.
Qed.

Lemma entries_replicate n : flat (replicate n []) = [].
Proof. by induction n. Qed.

End tables.

(** The fields of the records, after an update. *)
Ltac dsimpl := cbn [ht ht0 ht1 set_ht ht_table ht_used ht_size_exp rehashidx pauserehash
  pauseAutoResize trace set_rehashidx set_pauserehash emit negb andb orb b2z] in *.

(** The trace only grows. *)
Ltac trace_suffix := dsimpl; repeat apply suffix_cons_r; reflexivity.

(** ** The invariant *)

(** The bucket count that the observers have been told of, and whether a rehashing
    has started that is not completed; there is no answer when the calls do not
    alternate. *)
Fixpoint buckets_of (tr : list dictEvent) : Z :=
  match tr with
  | [] => 0
  | bucketChanged delta :: tr => delta + buckets_of tr
  | _ :: tr => buckets_of tr
  end.

Fixpoint open_of (tr : list dictEvent) : option bool :=
  match tr with
  | [] => Some false
  | rehashingStarted :: tr => match open_of tr with Some false => Some true | _ => None end
  | rehashingCompleted :: tr => match open_of tr with Some true => Some false | _ => None end
  | bucketChanged _ :: tr => open_of tr
  end.

Section invariant.
Context {K V : Type} `{EqDecision K}.
Context (type : dictType K).
Implicit Types (d : dict K V) (k key : K) (b : chain K V) (h : dictht K V).

(** The bucket of a key in a table of the given exponent. *)
Definition bucket_of (exp : Z) k : Z := Z.land (dictGetHash type k) (DICTHT_SIZE_MASK exp).

Record wf_ht h : Prop := {
  ht_exp : ht_size_exp h = -1 \/ 2 <= ht_size_exp h <= 60;
  ht_len : Z.of_nat (length (ht_table h)) = DICTHT_SIZE (ht_size_exp h);
  ht_cnt : ht_used h = Z.of_nat (length (flat (ht_table h)));
  ht_pos : forall i b k v, tget (ht_table h) i = Some b -> (k, v) ∈ b ->
             i = bucket_of (ht_size_exp h) k
}.

Definition entries d : list (K * V) := flat (ht_table (ht0 d)) ++ flat (ht_table (ht1 d)).

(** No rehashing and no second table, or two tables with every bucket of the
    first below [rehashidx] already moved. *)
Definition wf_rehash d : Prop :=
  (rehashidx d = -1 /\ ht1 d = _dictReset) \/
  (0 <= rehashidx d <= htsize d false /\ size_exp d false <> -1 /\ size_exp d true <> -1 /\
   forall i, 0 <= i < rehashidx d -> tget (ht_table (ht0 d)) i = Some []).

Record wf d : Prop := {
  wf_0 : wf_ht (ht0 d);
  wf_1 : wf_ht (ht1 d);
  wf_keys : NoDup (entries d).*1;
  wf_small : Z.of_nat (length (entries d)) < 2 ^ 64;
  wf_re : wf_rehash d;
  wf_buckets : buckets_of (trace d) = htsize d false + htsize d true;
  wf_open : open_of (trace d) = Some (dictIsRehashing d)
}.

(** What the housekeeping steps preserve. *)
Record evolves d d' : Prop := {
  ev_wf : wf d';
  ev_entries : entries d' ≡ₚ entries d;
  ev_pause : pauserehash d' = pauserehash d;
  ev_auto : pauseAutoResize d' = pauseAutoResize d;
  ev_exp : size_exp d false <> -1 -> size_exp d' false <> -1;
  ev_trace : suffix (trace d) (trace d')
}.

Lemma evolves_refl d : wf d -> evolves d d.
Proof. done || by constructor. Qed.

Lemma evolves_trans d1 d2 d3 : evolves d1 d2 -> evolves d2 d3 -> evolves d1 d3.
Proof.
  intros [W1 E1 P1 A1 X1 T1] [W2 E2 P2 A2 X2 T2]. constructor; [done| | | |by auto|by etrans].
  - by rewrite E2.
  - by rewrite P2.
  - by rewrite A2.
Qed.

Lemma wf_ht_reset : wf_ht _dictReset.
Proof. constructor; try done; [by left|]. intros i b k v H. by apply tget_Some in H; cbn in H; lia. Qed.

Lemma wf_ht_at d table : wf d -> wf_ht (ht d table).
Proof. intros W. destruct table; apply W. Qed.

Lemma wf_htsize d table : wf d -> 0 <= htsize d table <= 2 ^ 60.
Proof. intros W. apply exp_size, (ht_exp _ (wf_ht_at d table W)). Qed.

Lemma bucket_range e k : 2 <= e <= 60 -> 0 <= bucket_of e k < DICTHT_SIZE e.
Proof.
  intros He. unfold bucket_of. rewrite land_mask, DICTHT_SIZE_pow by lia.
  apply Z.mod_pos_bound. lia.
Qed.

Lemma wf_bucket h k :
  wf_ht h -> ht_size_exp h <> -1 -> exists b, tget (ht_table h) (bucket_of (ht_size_exp h) k) = Some b.
Proof.
  intros W He. destruct (ht_exp h W) as [?|Hr]; [done|].
  apply tget_is_Some. rewrite (ht_len h W). by apply bucket_range.
Qed.

(** An entry is added at the head of its bucket. *)
Lemma wf_ht_push h k v :
  wf_ht h -> ht_size_exp h <> -1 -> ht_used h + 1 < 2 ^ 64 ->
  exists b, tget (ht_table h) (bucket_of (ht_size_exp h) k) = Some b /\
    let h' := mk_ht (tset (ht_table h) (bucket_of (ht_size_exp h) k) ((k, v) :: b))
                    (u64 (ht_used h + 1)) (ht_size_exp h) in
    wf_ht h' /\ flat (ht_table h') ≡ₚ (k, v) :: flat (ht_table h).
Proof.
  intros W He Hu. destruct (wf_bucket h k W He) as [b Hb]. exists b. split; [done|].
  destruct (entries_tset _ _ _ Hb) as (r & Hr & Hs).
  assert (flat (tset (ht_table h) (bucket_of (ht_size_exp h) k) ((k, v) :: b))
            ≡ₚ (k, v) :: flat (ht_table h)) as E by by rewrite Hs, Hr.
  split; [|done]. pose proof (ht_cnt h W) as Hc. constructor; cbn.
  - apply W.
  - rewrite length_tset. apply W.
  - rewrite E. cbn [length]. rewrite wrapu_small by (unfold in_u; lia). lia.
  - intros i b' k' v' H Hin. apply tget_tset in H as [(<- & ->)|(_ & H)].
    + apply elem_of_cons in Hin as [?|Hin]; [by simplify_eq|]. by eapply (ht_pos h W).
    + by eapply (ht_pos h W).
    + apply (tget_Some _ _ _ Hb).
Qed.

Lemma wf_entries d k v :
  wf d -> (k, v) ∈ entries d <-> exists table b,
    tget (ht_table (ht d table)) (bucket_of (size_exp d table) k) = Some b /\ (k, v) ∈ b.
Proof.
  intros W. unfold entries. rewrite elem_of_app, !elem_of_table. split.
  - intros [(i & b & Hi & Hb)|(i & b & Hi & Hb)]; [exists false|exists true]; exists b;
      (split; [|done]); unfold size_exp; cbn [ht].
    + by rewrite <- (ht_pos _ (wf_0 d W) _ _ _ _ Hi Hb).
    + by rewrite <- (ht_pos _ (wf_1 d W) _ _ _ _ Hi Hb).
  - intros (table & b & Hi & Hb). destruct table; [right|left]; eauto.
Qed.

(** A table is replaced by one of the same size. *)
Lemma wf_set_ht d table h :
  wf d -> wf_ht h -> ht_size_exp h = size_exp d table -> size_exp d table <> -1 ->
  (table = false -> forall i, 0 <= i < rehashidx d -> tget (ht_table h) i = Some []) ->
  NoDup (entries (set_ht d table h)).*1 ->
  Z.of_nat (length (entries (set_ht d table h))) < 2 ^ 64 ->
  wf (set_ht d table h).
Proof.
  intros W Wh He Hne Hm Hn Hs. constructor; [| |done|done| | |].
  - destruct table; [apply W|done].
  - destruct table; [done|apply W].
  - destruct (wf_re d W) as [(H1 & H2)|(H1 & H2 & H3 & H4)].
    + left. destruct table; [|by split].
      exfalso. apply Hne. unfold size_exp. cbn [ht]. by rewrite H2.
    + right. unfold htsize, size_exp in *. destruct table; cbn in *; rewrite ?He; auto.
  - pose proof (wf_buckets d W) as Hb. unfold htsize, size_exp in *.
    destruct table; cbn in *; by rewrite He.
  - pose proof (wf_open d W) as Ho. by destruct table.
Qed.

End invariant.

(** ** Rehashing *)

Section rehash.
Context {K V : Type} `{EqDecision K}.
Context (type : dictType K) (dict_can_resize : dictResizeEnable).
Implicit Types (d : dict K V) (k key : K) (b : chain K V) (h : dictht K V).

Abbreviation wf := (wf type).
Abbreviation wf_ht := (wf_ht type).
Abbreviation evolves := (evolves type).

(** The bucket of an entry in the smaller table is the mask of its bucket in the
    larger one. *)
Lemma bucket_shrink e0 e1 k :
  2 <= e0 <= 60 -> 2 <= e1 <= e0 ->
  Z.land (bucket_of type e0 k) (DICTHT_SIZE_MASK e1) = bucket_of type e1 k.
Proof.
  intros H0 H1. unfold bucket_of. rewrite <- Z.land_assoc. f_equal.
  rewrite !DICTHT_MASK_ones by lia. apply Z.bits_inj'. intros n Hn.
  rewrite Z.land_spec, !Z.testbit_ones by lia.
  destruct (Z.leb_spec 0 n), (Z.ltb_spec n e0), (Z.ltb_spec n e1); done || lia.
Qed.

Lemma rehash_chain_spec de idx h0 h1 :
  wf_ht h1 -> ht_size_exp h1 <> -1 -> 2 <= ht_size_exp h0 <= 60 ->
  (forall k v, (k, v) ∈ de -> idx = bucket_of type (ht_size_exp h0) k) ->
  ht_used h1 + Z.of_nat (length de) < 2 ^ 64 ->
  Z.of_nat (length de) <= ht_used h0 < 2 ^ 64 ->
  exists h1', rehash_chain type de idx h0 h1 =
      Some (mk_ht (ht_table h0) (ht_used h0 - Z.of_nat (length de)) (ht_size_exp h0), h1') /\
    wf_ht h1' /\ ht_size_exp h1' = ht_size_exp h1 /\
    flat (ht_table h1') ≡ₚ de ++ flat (ht_table h1).
Proof.
  revert h0 h1. induction de as [|[k v] de IH]; intros h0 h1 W He H0 Hidx Hu Hl.
  { exists h1. cbn. rewrite Z.sub_0_r. by destruct h0. }
  cbn [rehash_chain length] in *.
  assert ((if ht_size_exp h1 >? ht_size_exp h0
           then Z.land (dictGetHash type k) (DICTHT_SIZE_MASK (ht_size_exp h1))
           else Z.land idx (DICTHT_SIZE_MASK (ht_size_exp h1))) =
          bucket_of type (ht_size_exp h1) k) as ->.
  { rewrite Z.gtb_ltb. destruct (Z.ltb_spec (ht_size_exp h0) (ht_size_exp h1)); [done|].
    rewrite (Hidx k v) by left. destruct (ht_exp _ h1 W) as [|]; [done|].
    apply bucket_shrink; lia. }
  destruct (wf_ht_push type h1 k v W He) as (b & -> & W1 & E1); [lia|]. mred.
  rewrite (wrapu_small 64 (ht_used h0 - 1)) by (unfold in_u; lia).
  assert (u64 (ht_used h1 + 1) = ht_used h1 + 1) as Eu.
  { apply wrapu_small. unfold in_u. pose proof (ht_cnt _ h1 W). lia. }
  destruct (IH (mk_ht (ht_table h0) (ht_used h0 - 1) (ht_size_exp h0)) _ W1)
    as (h1' & -> & W' & E & Ef); cbn [ht_used ht_size_exp ht_table] in *; try done; try lia.
  { intros k' v' Hin. apply (Hidx k' v'). by right. }
  exists h1'. split; [|split; [done|split; [done|]]].
  - do 2 f_equal. f_equal. lia.
  - rewrite Ef, E1. symmetry. apply Permutation_middle.
Qed.

Lemma wf_rehashing d :
  wf d -> dictIsRehashing d = true ->
  0 <= rehashidx d <= htsize d false /\ 2 <= size_exp d false <= 60 /\ 2 <= size_exp d true <= 60 /\
  forall i, 0 <= i < rehashidx d -> tget (ht_table (ht0 d)) i = Some [].
Proof.
  intros W Hr. unfold dictIsRehashing in Hr. bools.
  destruct (wf_re _ d W) as [(? & ?)|(? & ? & ? & ?)]; [done|].
  destruct (ht_exp _ _ (wf_0 _ d W)), (ht_exp _ _ (wf_1 _ d W)); done.
Qed.

Lemma wf_not_rehashing d : wf d -> dictIsRehashing d = false -> ht1 d = _dictReset.
Proof.
  intros W Hr. unfold dictIsRehashing in Hr. bools.
  destruct (wf_re _ d W) as [(? & ?)|(? & ? & ? & ?)]; [done|lia].
Qed.

Lemma entries_used d :
  wf d -> ht_used (ht0 d) + ht_used (ht1 d) = Z.of_nat (length (entries d)).
Proof.
  intros W. unfold entries. rewrite length_app, (ht_cnt _ _ (wf_0 _ d W)), (ht_cnt _ _ (wf_1 _ d W)).
  lia.
Qed.

(** One bucket is moved. *)
Lemma rehashEntries_spec d idx :
  wf d -> dictIsRehashing d = true -> 0 <= idx < htsize d false ->
  exists d', rehashEntriesInBucketAtIndex type d idx = Some d' /\ evolves d d' /\
    rehashidx d' = rehashidx d /\ (forall t, size_exp d' t = size_exp d t) /\
    tget (ht_table (ht0 d')) idx = Some [] /\ trace d' = trace d.
Proof.
  intros W Hr Hi. destruct (wf_rehashing d W Hr) as (Hx & H0 & H1 & Hm).
  unfold rehashEntriesInBucketAtIndex.
  destruct (tget_is_Some (ht_table (ht0 d)) idx) as [de Hde].
  { by rewrite (ht_len _ _ (wf_0 _ d W)). }
  destruct (entries_tset _ _ _ Hde) as (r & Er & Es).
  assert (Z.of_nat (length de) <= ht_used (ht0 d)) as Hl.
  { rewrite (ht_cnt _ _ (wf_0 _ d W)), Er, length_app. lia. }
  pose proof (entries_used d W) as Hu. pose proof (wf_small _ d W) as Hs.
  pose proof (ht_cnt _ _ (wf_1 _ d W)) as Hc1.
  rewrite Hde. mred.
  destruct (rehash_chain_spec de idx (ht0 d) (ht1 d)) as (h1' & -> & W1 & E1 & F1);
    unfold size_exp in *; cbn [ht] in *; try done; try lia; [apply W| |].
  { intros k v Hin. by eapply (ht_pos _ _ (wf_0 _ d W)). }
  mred. eexists. split; [done|]. cbn [ht_table ht_used ht_size_exp].
  assert (entries (set_ht (set_ht d false (mk_ht (tset (ht_table (ht0 d)) idx [])
      (ht_used (ht0 d) - Z.of_nat (length de)) (ht_size_exp (ht0 d)))) true h1') ≡ₚ entries d) as E.
  { unfold entries. dsimpl. rewrite Es, F1, Er. rewrite app_nil_l. solve_Permutation. }
  split; [|split; [done|split; [by intros []|]]]; cycle 1.
  { by split; [dsimpl; eapply tget_tset_eq|]. }
  constructor; [|done|done|done|done|trace_suffix].
  constructor; [|done| | | | |apply W].
  - constructor; dsimpl; [apply W|rewrite length_tset; apply W| |].
    + rewrite Es, app_nil_l, (ht_cnt _ _ (wf_0 _ d W)), Er, length_app. lia.
    + intros i b k v Hb Hin. apply tget_tset in Hb as [(<- & ->)|(_ & Hb)]; [|by eapply (ht_pos _ _ (wf_0 _ d W))|lia].
      by apply not_elem_of_nil in Hin.
  - rewrite E. apply W.
  - rewrite E. apply W.
  - right. unfold htsize, size_exp. dsimpl. split; [apply Hx|]. split; [lia|]. split; [lia|].
    intros i Hii. destruct (decide (idx = i)) as [<-|]; [by eapply tget_tset_eq|].
    rewrite tget_tset_ne by lia. by apply Hm.
  - unfold htsize, size_exp. dsimpl. rewrite E1. apply W.
Qed.

Lemma dictCheckRehashingCompleted_spec d :
  wf d -> dictIsRehashing d = true ->
  let '(c, d') := dictCheckRehashingCompleted d in
  evolves d d' /\
  if c : bool then rehashidx d' = -1 /\ ht_used (ht0 d) = 0
  else d' = d /\ ht_used (ht0 d) <> 0.
Proof.
  intros W Hr. destruct (wf_rehashing d W Hr) as (Hx & H0 & H1 & Hm).
  unfold dictCheckRehashingCompleted. destruct (Z.eqb_spec (ht_used (ht0 d)) 0) as [Hu|Hu]; cbn [negb].
  2: { split; [by apply evolves_refl|done]. }
  split; [|done]. pose proof (ht_cnt _ _ (wf_0 _ d W)) as Hc.
  assert (flat (ht_table (ht0 d)) = []) as E by (apply length_zero_iff_nil; lia).
  assert (entries (set_rehashidx (set_ht (set_ht (emit (bucketChanged (- htsize d false))
    (emit rehashingCompleted d)) false (ht1 d)) true _dictReset) (-1)) = entries d) as Ee.
  { unfold entries. dsimpl. rewrite E. apply app_nil_r. }
  constructor; dsimpl; [|by rewrite <- Ee| done|done|unfold size_exp in *; dsimpl; lia|trace_suffix].
  constructor; dsimpl; [apply W|apply wf_ht_reset| | |by left| |].
  - pose proof (wf_keys _ d W) as Hk. rewrite <- Ee in Hk. apply Hk.
  - pose proof (wf_small _ d W) as Hk. rewrite <- Ee in Hk. apply Hk.
  - pose proof (wf_buckets _ d W) as Hb. unfold htsize, size_exp in *. dsimpl.
    cbn [buckets_of]. change (DICTHT_SIZE (ht_size_exp _dictReset)) with 0. lia.
  - pose proof (wf_open _ d W) as Hb. rewrite Hr in Hb. cbn [open_of]. by rewrite Hb.
Qed.

(** The search for the next bucket with entries, which exists. *)
Lemma skip_empty_spec fuel t idx ev :
  (exists j b, idx <= j /\ tget t j = Some b /\ b <> []) ->
  0 <= idx -> 1 <= ev < 2 ^ 31 -> Z.of_nat (length t) - idx < Z.of_nat fuel ->
  exists i more, skip_empty fuel t idx ev = Some (i, more) /\ idx <= i <= Z.of_nat (length t) /\
    (forall j, idx <= j < i -> tget t j = Some []) /\
    match more with
    | Some ev' => i < Z.of_nat (length t) /\ 1 <= ev' < 2 ^ 31
    | None => idx < i
    end.
Proof.
  revert idx ev. induction fuel as [|fuel IH]; intros idx ev Hj Hi Hev Hf;
    destruct Hj as (j & b & Hj & Hb & Hne); pose proof (tget_Some _ _ _ Hb) as Hjl; [lia|].
  cbn [skip_empty]. destruct (tget_is_Some t idx) as [c Hc]; [lia|]. rewrite Hc. mred.
  destruct c as [|e c].
  2: { exists idx, (Some ev). repeat split; lia. }
  assert (idx <> j) by congruence.
  rewrite (wraps_small 32) by (unfold in_s; lia).
  destruct (Z.eqb_spec (ev - 1) 0) as [He|He].
  - exists (idx + 1), None. split; [done|]. split; [lia|]. split; [|lia].
    intros l Hl. by replace l with idx by lia.
  - destruct (IH (idx + 1) (ev - 1)) as (i & more & -> & Hb1 & He1 & Hm); [|lia|lia|lia|].
    { exists j, b. split; [lia|done]. }
    exists i, more. split; [done|]. split; [lia|]. split; [|destruct more; lia].
    intros l Hl. destruct (decide (l = idx)) as [->|]; [done|]. apply He1. lia.
Qed.

(** Entries left in the first table are above [rehashidx]. *)
Lemma wf_more_buckets d :
  wf d -> dictIsRehashing d = true -> ht_used (ht0 d) <> 0 ->
  exists j b, rehashidx d <= j /\ tget (ht_table (ht0 d)) j = Some b /\ b <> [].
Proof.
  intros W Hr Hu. destruct (wf_rehashing d W Hr) as (Hx & H0 & H1 & Hm).
  pose proof (ht_cnt _ _ (wf_0 _ d W)) as Hc.
  destruct (flat (ht_table (ht0 d))) as [|e l] eqn:E; [cbn in Hc; lia|].
  assert (e ∈ flat (ht_table (ht0 d))) as Hin by (rewrite E; left).
  apply elem_of_table in Hin as (j & b & Hj & Hb). exists j, b.
  assert (b <> []) by (intros ->; by apply not_elem_of_nil in Hb).
  split; [|done]. destruct (decide (rehashidx d <= j)); [done|exfalso].
  pose proof (tget_Some _ _ _ Hj). rewrite Hm in Hj by lia. congruence.
Qed.

(** [rehashidx] may advance over empty buckets. *)
Lemma wf_set_rehashidx d i :
  wf d -> dictIsRehashing d = true -> rehashidx d <= i <= htsize d false ->
  (forall j, rehashidx d <= j < i -> tget (ht_table (ht0 d)) j = Some []) ->
  evolves d (set_rehashidx d i) /\ dictIsRehashing (set_rehashidx d i) = true.
Proof.
  intros W Hr Hi He. destruct (wf_rehashing d W Hr) as (Hx & H0 & H1 & Hm).
  assert (dictIsRehashing (set_rehashidx d i) = true) as Hr'.
  { unfold dictIsRehashing. dsimpl. apply negb_true_iff, Z.eqb_neq. lia. }
  split; [|done]. constructor; [|done..].
  constructor; try apply W; dsimpl.
  - right. unfold htsize, size_exp in *. dsimpl. split; [lia|]. split; [lia|]. split; [lia|].
    intros j Hj. destruct (decide (j < rehashidx d)); [apply Hm; lia|apply He; lia].
  - rewrite (wf_open _ d W). by rewrite Hr, Hr'.
Qed.

(** Rehashing is still under way, in the same tables. *)
Record progress d d' (least : Z) : Prop := {
  pr_rehashing : dictIsRehashing d' = true;
  pr_idx : rehashidx d + least <= rehashidx d';
  pr_exp : forall t, size_exp d' t = size_exp d t
}.

Lemma dictRehash_loop_spec n d ev :
  wf d -> dictIsRehashing d = true -> (n <> O -> 1 <= ev < 2 ^ 31) ->
  exists r d', dictRehash_loop type n d ev = Some (r, d') /\ evolves d d' /\
    ((r = 0 /\ rehashidx d' = -1) \/ (r = 1 /\ progress d d' (if n then 0 else 1))).
Proof.
  revert d ev. induction n as [|n IH]; intros d ev W Hr Hev.
  all: pose proof (dictCheckRehashingCompleted_spec d W Hr) as Hc.
  all: destruct (dictCheckRehashingCompleted d) as [c d1] eqn:Ed; destruct Hc as [He Hc].
  { cbn [dictRehash_loop]. rewrite Ed. eexists _, d1. split; [done|]. split; [done|].
    destruct c; [left; by destruct Hc|right]. destruct Hc as [-> _]. split; [done|].
    constructor; [done|lia|done]. }
  cbn [dictRehash_loop]. rewrite Ed. destruct (Z.eqb_spec (ht_used (ht0 d)) 0) as [Hu|Hu].
  { destruct c; [|by destruct Hc]. eexists _, d1. split; [done|]. split; [done|].
    left. by destruct Hc. }
  destruct (wf_rehashing d W Hr) as (Hx & H0 & H1 & Hm).
  pose proof (ht_len _ _ (wf_0 _ d W)) as Hlen.
  destruct (wf_more_buckets d W Hr Hu) as (j & b & Hj & Hb & Hne).
  pose proof (tget_Some _ _ _ Hb) as Hjl.
  assert ((htsize d false >? rehashidx d) = true) as ->.
  { rewrite Z.gtb_ltb. apply Z.ltb_lt. unfold htsize, size_exp. dsimpl. lia. }
  cbn [cassert]. mred.
  destruct (skip_empty_spec (S (length (ht_table (ht0 d)))) (ht_table (ht0 d)) (rehashidx d) ev)
    as (i & more & Hsk & Hi & Hemp & Hmore); [by eauto|lia|by apply Hev|lia|].
  rewrite Hsk. mred.
  destruct (wf_set_rehashidx d i W Hr) as (E1 & R1);
    [unfold htsize, size_exp; dsimpl; lia|done|].
  destruct more as [ev'|].
  2: { eexists _, _. split; [done|]. split; [done|]. right. split; [done|].
       constructor; [done|dsimpl; lia|done]. }
  destruct (rehashEntries_spec (set_rehashidx d i) i) as (d2 & Hd2 & E2 & I2 & X2 & G2 & _);
    [apply E1|done|unfold htsize, size_exp; dsimpl; lia|].
  dsimpl. rewrite Hd2. mred.
  assert (dictIsRehashing d2 = true) as R2 by (unfold dictIsRehashing; by rewrite I2).
  destruct (wf_set_rehashidx d2 (rehashidx d2 + 1)) as (E3 & R3); [apply E2|done| | |].
  { unfold htsize. rewrite X2, I2. unfold size_exp. dsimpl. lia. }
  { intros l Hl. by replace l with i by lia. }
  destruct (IH (set_rehashidx d2 (rehashidx d2 + 1)) ev') as (r & d4 & Hd4 & E4 & Hres);
    [apply E3|done|intros; lia|].
  rewrite Hd4. exists r, d4. split; [done|].
  split; [do 3 (eapply evolves_trans; [done|]); done|].
  destruct Hres as [Hres|[-> P]]; [by left|right; split; [done|]].
  destruct P as [P1 P2 P3]. constructor; [done|dsimpl; destruct n; lia|].
  intros t. rewrite P3. unfold size_exp. etransitivity; [|apply X2]. by destruct t.
Qed.

(** The tests that keep [dictRehash] from doing anything. *)
Definition rehash_blocked d : bool :=
  bool_decide (dict_can_resize = DICT_RESIZE_FORBID) || negb (dictIsRehashing d) ||
  resize_avoided dict_can_resize (htsize d false) (htsize d true).

Lemma progress_blocked d d' x :
  dictIsRehashing d = true -> progress d d' x -> rehash_blocked d' = rehash_blocked d.
Proof. intros Hr [P1 P2 P3]. unfold rehash_blocked, htsize. by rewrite !P3, P1, Hr. Qed.

Lemma blocked_enabled d :
  dict_can_resize = DICT_RESIZE_ENABLE -> rehash_blocked d = true -> dictIsRehashing d = false.
Proof.
  unfold rehash_blocked, resize_avoided. intros ->. cbn. rewrite orb_false_r.
  apply negb_true_iff.
Qed.

Lemma dictRehash_spec d n :
  wf d -> Z.of_nat n <= 100000000 ->
  exists r d', dictRehash type dict_can_resize d n = Some (r, d') /\ evolves d d' /\
    if rehash_blocked d then r = 0 /\ d' = d
    else dictIsRehashing d = true /\
      ((r = 0 /\ rehashidx d' = -1) \/ (r = 1 /\ progress d d' (if n then 0 else 1))).
Proof.
  intros W Hn. unfold dictRehash, rehash_blocked.
  destruct (bool_decide _ || negb _) eqn:Hf; cbn [orb].
  { exists 0, d. split; [done|]. split; [by apply evolves_refl|done]. }
  bools. rewrite (wraps_small 32) by (unfold in_s; lia).
  destruct (resize_avoided _ _ _) eqn:Ha.
  { exists 0, d. split; [done|]. split; [by apply evolves_refl|done]. }
  destruct (dictRehash_loop_spec n d (Z.of_nat n * 10)) as (r & d' & Hd' & E & Hres);
    [done|done|lia|].
  exists r, d'. auto.
Qed.

(** Enough rounds finish the rehashing, unless it is blocked. *)
Lemma rehash_all_spec fuel d :
  wf d -> (dictIsRehashing d = true -> htsize d false - rehashidx d < Z.of_nat fuel) ->
  fuel <> O ->
  exists d', rehash_all type dict_can_resize fuel d = Some d' /\ evolves d d' /\
    if rehash_blocked d then d' = d else rehashidx d' = -1.
Proof.
  revert d. induction fuel as [|fuel IH]; intros d W Hf Hfu; [done|].
  cbn [rehash_all].
  destruct (dictRehash_spec d 1000 W) as (r & d1 & -> & E & Hres); [done|]. mred.
  destruct (rehash_blocked d) eqn:Hb.
  { destruct Hres as [-> ->]. by exists d. }
  destruct Hres as [Hr [[-> Hi]|[-> P]]].
  - by exists d1.
  - change (1 =? 0) with false. destruct (wf_rehashing d1 (ev_wf _ _ _ E)) as (Hx & _); [apply P|].
    assert (htsize d1 false = htsize d false) as Es by (unfold htsize; by rewrite (pr_exp _ _ _ P)).
    specialize (Hf Hr). pose proof (pr_idx _ _ _ P).
    destruct (IH d1) as (d2 & Hd2 & E2 & Hb2); [apply E|lia|lia|].
    rewrite (progress_blocked _ _ _ Hr P), Hb in Hb2.
    exists d2. split; [done|]. split; [by eapply evolves_trans|done].
Qed.


(** After a step, rehashing is over or goes on in the same tables. *)
Definition settled d d' : Prop :=
  rehashidx d' = -1 \/
  (dictIsRehashing d' = dictIsRehashing d /\ forall t, size_exp d' t = size_exp d t).

Lemma settled_refl d : settled d d.
Proof. by right. Qed.

Lemma dictRehash_step d :
  wf d -> exists d', snd <$> dictRehash type dict_can_resize d 1 = Some d' /\
    evolves d d' /\ settled d d'.
Proof.
  intros W. destruct (dictRehash_spec d 1 W) as (r & d' & -> & E & Hres); [done|].
  exists d'. split; [done|]. split; [done|].
  destruct (rehash_blocked d).
  - destruct Hres as [_ ->]. apply settled_refl.
  - destruct Hres as [Hr [[_ Hi]|[_ [P1 _ P3]]]]; [by left|right]. by rewrite P1, Hr.
Qed.

Lemma _dictRehashStep_spec d :
  wf d -> exists d', _dictRehashStep type dict_can_resize d = Some d' /\
    evolves d d' /\ settled d d'.
Proof.
  intros W. unfold _dictRehashStep. destruct (pauserehash d =? 0); [by apply dictRehash_step|].
  exists d. split; [done|]. split; [by apply evolves_refl|apply settled_refl].
Qed.

Lemma _dictBucketRehash_spec d idx :
  wf d -> (dictIsRehashing d = true -> 0 <= idx < htsize d false) ->
  exists r d', _dictBucketRehash type dict_can_resize d idx = Some (r, d') /\
    evolves d d' /\ settled d d'.
Proof.
  intros W Hi. unfold _dictBucketRehash.
  destruct (pauserehash d =? 0); cbn [negb];
    [|exists 0, d; split; [done|]; split; [by apply evolves_refl|apply settled_refl]].
  destruct (bool_decide _ || negb _) eqn:Hf;
    [exists 0, d; split; [done|]; split; [by apply evolves_refl|apply settled_refl]|].
  destruct (resize_avoided _ _ _);
    [exists 0, d; split; [done|]; split; [by apply evolves_refl|apply settled_refl]|].
  bools. destruct (rehashEntries_spec d idx W) as (d1 & -> & E1 & I1 & X1 & _); [done|auto|]. mred.
  assert (dictIsRehashing d1 = true) as R1 by (unfold dictIsRehashing; by rewrite I1).
  pose proof (dictCheckRehashingCompleted_spec d1 (ev_wf _ _ _ E1) R1) as Hc.
  destruct (dictCheckRehashingCompleted d1) as [c d2]. destruct Hc as [E2 Hc].
  exists 1, d2. split; [done|]. split; [by eapply evolves_trans|].
  destruct c; [left; by destruct Hc|right]. destruct Hc as [-> _]. by rewrite R1.
Qed.

Lemma _dictRehashStepIfNeeded_spec d k :
  wf d -> exists d', _dictRehashStepIfNeeded type dict_can_resize d (bucket_of type (size_exp d false) k)
      = Some d' /\ evolves d d' /\ settled d d'.
Proof.
  intros W. unfold _dictRehashStepIfNeeded. destruct (dictIsRehashing d) eqn:Hr; cbn [negb orb].
  2: { exists d. split; [done|]. split; [by apply evolves_refl|apply settled_refl]. }
  destruct (pauserehash d =? 0); cbn [negb].
  2: { exists d. split; [done|]. split; [by apply evolves_refl|apply settled_refl]. }
  destruct (i64 _ >=? rehashidx d); [|by apply dictRehash_step].
  destruct (wf_rehashing d W Hr) as (_ & H0 & _).
  destruct (wf_bucket type _ k (wf_0 _ d W)) as [b Hb]; [unfold size_exp in *; dsimpl; lia|].
  unfold size_exp in Hb. dsimpl. unfold size_exp. dsimpl. rewrite Hb. mred.
  destruct b as [|e b]; [by apply dictRehash_step|].
  destruct (_dictBucketRehash_spec d (bucket_of type (ht_size_exp (ht0 d)) k) W) as (r & d' & -> & E & S).
  { intros _. by apply bucket_range. }
  by exists d'.
Qed.

(** ** Sizing *)

Lemma wf_new_ht e : 2 <= e <= 60 -> wf_ht (new_ht (V:=V) e).
Proof.
  intros He. pose proof (exp_size_pos e He) as Hs. unfold new_ht.
  constructor; dsimpl; [by right|rewrite length_replicate; lia|by rewrite entries_replicate|].
  intros i b k v Hbk Hin. unfold tget in Hbk. case_match; [|done].
  apply lookup_replicate in Hbk as [-> _]. by apply not_elem_of_nil in Hin.
Qed.

Lemma flat_new_ht e : flat (ht_table (new_ht (K:=K) (V:=V) e)) = [].
Proof. apply entries_replicate. Qed.

(** A second table is prepared. *)
Lemma wf_start_rehash d e tr :
  wf d -> dictIsRehashing d = false -> size_exp d false <> -1 -> 2 <= e <= 60 ->
  buckets_of tr = htsize d false + DICTHT_SIZE e -> open_of tr = Some true ->
  let d' := mk_dict (ht0 d) (new_ht e) 0 (pauserehash d) (pauseAutoResize d) tr in
  wf d' /\ entries d' = entries d.
Proof.
  intros W Hr He0 He Hb Ho d'. pose proof (exp_size_pos e He) as Hs.
  pose proof (wf_not_rehashing d W Hr) as H1.
  assert (entries d' = entries d) as E.
  { unfold entries, d'. dsimpl. by rewrite flat_new_ht, H1. }
  split; [|done].
  constructor; [apply W|by apply wf_new_ht|by rewrite E; apply W|by rewrite E; apply W| |done|done].
  right. unfold d'. dsimpl. split; [|split; [done|split; [unfold size_exp; dsimpl; cbn; lia|intros; lia]]].
  pose proof (wf_htsize type d false W). unfold htsize, size_exp in *. dsimpl. lia.
Qed.

(** The first table is replaced by an empty one of another size. *)
Lemma wf_replace_table d e tr :
  wf d -> entries d = [] -> 2 <= e <= 60 -> buckets_of tr = DICTHT_SIZE e -> open_of tr = Some false ->
  let d' := mk_dict (new_ht e) _dictReset (-1) (pauserehash d) (pauseAutoResize d) tr in
  wf d' /\ entries d' = entries d.
Proof.
  intros W He0 He Hb Ho d'. pose proof (exp_size_pos e He) as Hs.
  assert (entries d' = []) as E by (unfold entries, d'; dsimpl; by rewrite flat_new_ht).
  split; [|by rewrite E].
  constructor; [by apply wf_new_ht|apply wf_ht_reset|rewrite E; constructor|rewrite E; cbn; lia|by left| |done].
  unfold htsize, size_exp, d'. dsimpl. cbn. lia.
Qed.

Lemma wf_no_table d : wf d -> size_exp d false = -1 -> ht_table (ht0 d) = [].
Proof.
  intros W E. pose proof (ht_len _ _ (wf_0 _ d W)) as H. unfold size_exp in E. dsimpl.
  rewrite E in H. by destruct (ht_table (ht0 d)).
Qed.

Lemma wf_empty_entries d :
  wf d -> dictIsRehashing d = false ->
  (bool_decide (ht_table (ht0 d) = []) || (ht_used (ht0 d) =? 0)) = true -> entries d = [].
Proof.
  intros W Hr H. unfold entries. rewrite (wf_not_rehashing d W Hr), app_nil_r.
  apply orb_prop in H as [H|H].
  - by apply bool_decide_eq_true in H as ->.
  - bools. pose proof (ht_cnt _ _ (wf_0 _ d W)). apply length_zero_iff_nil. lia.
Qed.

Lemma wf_settled_buckets d :
  wf d -> dictIsRehashing d = false ->
  buckets_of (trace d) = htsize d false /\ open_of (trace d) = Some false.
Proof.
  intros W Hr. rewrite (wf_buckets _ d W), (wf_open _ d W), Hr. split; [|done].
  unfold htsize at 2, size_exp. dsimpl. rewrite (wf_not_rehashing d W Hr).
  change (DICTHT_SIZE _) with 0. lia.
Qed.

(** The condition under which [_dictResize] changes the table. *)
Definition resizable d (size : Z) (malloc_failed : option bool) : bool :=
  let e := _dictNextExp size in
  negb ((DICTHT_SIZE e <? size) || (u64 (DICTHT_SIZE e * 8) <? DICTHT_SIZE e)) &&
  negb (e =? size_exp d false) && negb (default false malloc_failed).

Lemma _dictResize_spec d size mf :
  wf d -> dictIsRehashing d = false ->
  exists r f d', _dictResize type dict_can_resize d size mf = Some (r, f, d') /\ evolves d d' /\
    rehashidx d' <= 0 /\
    if resizable d size mf then r = DICT_OK /\ f = false /\ size_exp d' false <> -1
    else r = DICT_ERR /\ d' = d.
Proof.
  intros W Hr. destruct (wf_settled_buckets d W Hr) as [Hb Ho].
  pose proof (_dictNextExp_range size) as Hn.
  unfold _dictResize, resizable. rewrite Hr. cbn [negb cassert]. mred.
  set (e := _dictNextExp size) in *.
  assert (rehashidx d <= 0) as Hx by (unfold dictIsRehashing in Hr; bools; lia).
  destruct ((DICTHT_SIZE e <? size) || _) eqn:Hov; cbn [negb andb].
  { exists DICT_ERR, false, d. split; [done|]. split; [by apply evolves_refl|done]. }
  destruct (Z.eqb_spec e (size_exp d false)) as [He|He]; cbn [negb andb].
  { exists DICT_ERR, false, d. split; [done|]. split; [by apply evolves_refl|done]. }
  destruct (default false mf); cbn [negb].
  { exists DICT_ERR, true, d. split; [done|]. split; [by apply evolves_refl|done]. }
  apply orb_false_elim in Hov as [_ Hov]. apply resize_overflow in Hov; [|done].
  unfold htsize, size_exp in *. dsimpl.
  destruct (bool_decide (ht_table (ht0 d) = []) || (ht_used (ht0 d) =? 0)) eqn:Hz.
  - set (d1 := mk_dict (K:=K) (V:=V) (new_ht e) _dictReset (-1) (pauserehash d) (pauseAutoResize d)
                 (bucketChanged (- htsize d false) :: rehashingCompleted ::
                  bucketChanged (DICTHT_SIZE e) :: rehashingStarted :: trace d)).
    exists DICT_OK, false, d1. split; [done|].
    destruct (wf_replace_table d e (trace d1)) as [W' E']; [done|by apply wf_empty_entries|lia| | |].
    { unfold d1, htsize, size_exp. dsimpl. cbn [buckets_of]. lia. }
    { unfold d1. dsimpl. cbn [open_of]. by rewrite Ho. }
    split; [constructor; [exact W'|by rewrite <- E'|done|done| |trace_suffix]|].
    all: unfold size_exp, d1; dsimpl; cbn; lia.
  - apply orb_false_elim in Hz as [Hz _]. apply bool_decide_eq_false in Hz.
    set (d1 := mk_dict (ht0 d) (new_ht e) 0 (pauserehash d) (pauseAutoResize d)
                 (bucketChanged (DICTHT_SIZE e) :: rehashingStarted :: trace d)).
    change (emit _ _) with d1.
    assert (size_exp d false <> -1) as He0 by (contradict Hz; by apply wf_no_table).
    destruct (wf_start_rehash d e (trace d1)) as [W' E']; [done|done|done|lia| | |].
    { unfold d1, htsize, size_exp. dsimpl. cbn [buckets_of]. lia. }
    { unfold d1. dsimpl. cbn [open_of]. by rewrite Ho. }
    change (wf d1) in W'. change (entries d1 = entries d) in E'.
    assert (evolves d d1) as E1 by (constructor; [done|by rewrite E'|done|done|done|trace_suffix]).
    destruct (force_full_rehash type).
    2: { exists DICT_OK, false, d1. split; [done|]. split; [done|]. split; [done|]. auto. }
    destruct (rehash_all_spec (S (length (ht_table (ht0 d)))) d1 W') as (d2 & -> & E2 & H2); [|done|].
    { intros _. pose proof (ht_len _ _ (wf_0 _ d W)). unfold htsize, size_exp, d1. dsimpl. lia. }
    mred. exists DICT_OK, false, d2. split; [done|]. split; [by eapply evolves_trans|].
    split; [by destruct (rehash_blocked d1); [subst d2|rewrite H2]|].
    split; [done|]. split; [done|]. by apply (ev_exp _ _ _ E2).
Qed.

(** What the operations that may start a rehashing do. *)
Record resized d d' : Prop := {
  rs_ev : evolves d d';
  rs_busy : dictIsRehashing d = true -> d' = d;
  rs_idx : dictIsRehashing d = false -> rehashidx d' <= 0
}.

Lemma resized_refl d : wf d -> resized d d.
Proof.
  intros W. constructor; [by apply evolves_refl|done|].
  unfold dictIsRehashing. intros H. bools. lia.
Qed.

Lemma _dictResize_resized d size mf :
  wf d -> dictIsRehashing d = false ->
  exists r f d', _dictResize type dict_can_resize d size mf = Some (r, f, d') /\ resized d d'.
Proof.
  intros W Hr. destruct (_dictResize_spec d size mf W Hr) as (r & f & d' & H & E & Hi & _).
  exists r, f, d'. split; [done|]. constructor; [done|by rewrite Hr|done].
Qed.

Lemma dictExpand_spec d size :
  wf d -> exists r d', dictExpand type dict_can_resize d size = Some (r, d') /\ resized d d'.
Proof.
  intros W. unfold dictExpand, _dictExpand. case_match eqn:H.
  - exists DICT_ERR, d. split; [done|by apply resized_refl].
  - bools. destruct (_dictResize_resized d size None) as (r & f & d' & -> & R); [done|done|].
    by exists r, d'.
Qed.

Lemma dictShrink_spec d size :
  wf d -> exists r d', dictShrink type dict_can_resize d size = Some (r, d') /\ resized d d'.
Proof.
  intros W. unfold dictShrink. case_match eqn:H.
  - exists DICT_ERR, d. split; [done|by apply resized_refl].
  - bools. destruct (_dictResize_resized d size None) as (r & f & d' & -> & R); [done|done|].
    by exists r, d'.
Qed.

(** The first expansion always succeeds. *)
Lemma dictExpand_initial d :
  wf d -> dictIsRehashing d = false -> size_exp d false = -1 ->
  exists d', dictExpand type dict_can_resize d DICT_HT_INITIAL_SIZE = Some (DICT_OK, d') /\
    resized d d' /\ size_exp d' false <> -1.
Proof.
  intros W Hr He. unfold dictExpand, _dictExpand. rewrite Hr.
  pose proof (ht_cnt _ _ (wf_0 _ d W)) as Hc. rewrite (wf_no_table d W He) in Hc. cbn in Hc.
  unfold htsize. rewrite He, Hc. cbn [orb].
  destruct (_dictResize_spec d DICT_HT_INITIAL_SIZE None W Hr) as (r & f & d' & H & E & Hi & H').
  replace (resizable d DICT_HT_INITIAL_SIZE None) with true in H'
    by (unfold resizable; by rewrite He).
  destruct H' as (-> & -> & Hx). change ((0 >? DICT_HT_INITIAL_SIZE) || _) with false.
  rewrite H. exists d'. split; [done|]. split; [|done]. constructor; [done|by rewrite Hr|done].
Qed.

Lemma dictExpandIfNeeded_spec d :
  wf d -> exists r d', dictExpandIfNeeded type dict_can_resize d = Some (r, d') /\ resized d d' /\
    size_exp d' false <> -1.
Proof.
  intros W. unfold dictExpandIfNeeded. destruct (dictIsRehashing d) eqn:Hr.
  { destruct (wf_rehashing d W Hr) as (_ & H0 & _).
    exists DICT_OK, d. split; [done|]. split; [by apply resized_refl|lia]. }
  destruct (Z.eqb_spec (htsize d false) 0) as [H0|H0].
  { destruct (ht_exp _ _ (wf_0 _ d W)) as [He|He].
    - destruct (dictExpand_initial d W Hr He) as (d' & -> & R & X). by exists DICT_OK, d'.
    - pose proof (exp_size_pos _ He). unfold htsize, size_exp in H0. dsimpl. lia. }
  assert (size_exp d false <> -1) as He by (intros He; apply H0; unfold htsize; by rewrite He).
  case_match; [destruct (dictTypeResizeAllowed _ _ _)|].
  - destruct (dictExpand_spec d (u64 (ht_used (ht0 d) + 1)) W) as (r & d' & -> & R).
    exists DICT_OK, d'. split; [done|]. split; [done|]. by apply (ev_exp _ _ _ (rs_ev _ _ R)).
  - exists DICT_OK, d. split; [done|]. split; [by apply resized_refl|done].
  - exists DICT_ERR, d. split; [done|]. split; [by apply resized_refl|done].
Qed.

Lemma _dictExpandIfNeeded_spec d :
  wf d -> size_exp d false <> -1 \/ pauseAutoResize d <= 0 ->
  exists r d', _dictExpandIfNeeded type dict_can_resize d = Some (r, d') /\ resized d d' /\
    size_exp d' false <> -1.
Proof.
  intros W Ha. unfold _dictExpandIfNeeded. case_match eqn:Hp.
  - bools. exists DICT_ERR, d. split; [done|]. split; [by apply resized_refl|].
    destruct Ha; [done|lia].
  - by apply dictExpandIfNeeded_spec.
Qed.

Lemma dictShrinkIfNeeded_spec d :
  wf d -> exists r d', dictShrinkIfNeeded type dict_can_resize d = Some (r, d') /\ resized d d'.
Proof.
  intros W. unfold dictShrinkIfNeeded.
  assert (forall r, exists r' d', Some (r, d) = Some (r' : Z, d') /\ resized d d') as Hid.
  { intros r. exists r, d. split; [done|by apply resized_refl]. }
  do 3 (case_match; [try apply Hid|]); [|apply Hid].
  case_match; [|apply Hid].
  destruct (dictShrink_spec d (ht_used (ht0 d)) W) as (r & d' & -> & R). by exists DICT_OK, d'.
Qed.

Lemma _dictShrinkIfNeeded_spec d :
  wf d -> exists d', _dictShrinkIfNeeded type dict_can_resize d = Some d' /\ resized d d'.
Proof.
  intros W. unfold _dictShrinkIfNeeded. case_match.
  - exists d. split; [done|by apply resized_refl].
  - destruct (dictShrinkIfNeeded_spec d W) as (r & d' & -> & R). by exists d'.
Qed.
End rehash.

(** ** Lookup, insertion and deletion *)

Section access.
Context {K V : Type} `{EqDecision K}.
Context (type : dictType K) (dict_can_resize : dictResizeEnable).
Implicit Types (d : dict K V) (k key : K) (b : chain K V) (h : dictht K V).

Abbreviation wf := (wf type).
Abbreviation wf_ht := (wf_ht type).
Abbreviation evolves := (evolves type).
Abbreviation hash := (dictGetHash type).

(** The link points to an entry with the key. *)
Definition link_at d (link : dictEntryLink) key (v : V) : Prop :=
  link_idx link = bucket_of type (size_exp d (link_table link)) key /\
  exists b, tget (ht_table (ht d (link_table link))) (link_idx link) = Some b /\
    b !! link_pos link = Some (key, v).

Lemma chain_find_spec key b :
  match chain_find key b with
  | Some p => exists v, b !! p = Some (key, v)
  | None => forall v, (key, v) ∉ b
  end.
Proof.
  induction b as [|[k v] b IH]; cbn; [intros v; apply not_elem_of_nil|].
  destruct (decide (key = k)) as [<-|Hne]; [by exists v|].
  destruct (chain_find key b) as [p|]; cbn; [done|].
  intros w [?|?]%elem_of_cons; [by simplify_eq|by eapply IH].
Qed.

Lemma find_in_table_spec d key table :
  wf d -> size_exp d table <> -1 ->
  exists r, find_in_table d key (hash key) table = Some r /\
    match r with
    | Some link => exists v, link_at d link key v
    | None => forall b v, tget (ht_table (ht d table)) (bucket_of type (size_exp d table) key) = Some b ->
        (key, v) ∉ b
    end.
Proof.
  intros W He. unfold find_in_table.
  change (Z.land (hash key) (htmask d table)) with (bucket_of type (size_exp d table) key).
  destruct (wf_bucket type (ht d table) key (wf_ht_at _ d table W) He) as [b Hb].
  unfold size_exp. rewrite Hb. mred.
  pose proof (chain_find_spec key b) as Hc.
  destruct (chain_find key b) as [p|]; (eexists; split; [done|]).
  - destruct Hc as [v Hv]. exists v. split; [done|]. by exists b.
  - intros b' v ?. by simplify_eq.
Qed.

(** The index in the first table, computed before the housekeeping. *)
Lemma find_in_tables_spec d key e :
  wf d -> size_exp d false <> -1 -> e = -1 \/ 2 <= e <= 60 ->
  rehashidx d <= 0 \/ e = size_exp d false ->
  exists r, find_in_tables d key (hash key) (bucket_of type e key) = Some r /\
    match r with
    | Some link => exists v, link_at d link key v
    | None => forall v, (key, v) ∉ entries d
    end.
Proof.
  intros W H0 He Hidx. unfold find_in_tables.
  assert (0 <= bucket_of type e key < 2 ^ 60) as Hb.
  { destruct He as [->|He]; [unfold bucket_of; rewrite Z.land_0_r; lia|].
    pose proof (bucket_range type e key He). pose proof (exp_size_pos e He). lia. }
  rewrite (wraps_small 64) by (unfold in_s; lia).
  destruct (Z.ltb_spec (bucket_of type e key) (rehashidx d)) as [Hlt|Hge].
  - assert (dictIsRehashing d = true) as Hr.
    { unfold dictIsRehashing. apply negb_true_iff, Z.eqb_neq. lia. }
    destruct Hidx as [?| ->]; [lia|]. destruct (wf_rehashing type d W Hr) as (_ & _ & H1 & Hm).
    destruct (find_in_table_spec d key true W) as (r & -> & Hs); [lia|].
    exists r. split; [done|]. destruct r as [link|]; [done|].
    intros v Hin. apply (wf_entries type d key v W) in Hin as ([|] & b & Hb' & Hin).
    + by eapply Hs.
    + dsimpl. rewrite Hm in Hb' by lia. simplify_eq. by apply not_elem_of_nil in Hin.
  - destruct (find_in_table_spec d key false W H0) as (r & -> & Hs). mred.
    destruct r as [link|]; [by exists (Some link)|].
    destruct (dictIsRehashing d) eqn:Hr; cbn [negb].
    + destruct (wf_rehashing type d W Hr) as (_ & _ & H1 & Hm).
      destruct (find_in_table_spec d key true W) as (r & -> & Hs1); [lia|].
      exists r. split; [done|]. destruct r as [link|]; [done|].
      intros v Hin. apply (wf_entries type d key v W) in Hin as ([|] & b & Hb' & Hin); [by eapply Hs1|by eapply Hs].
    + exists None. split; [done|]. intros v Hin.
      apply (wf_entries type d key v W) in Hin as ([|] & b & Hb' & Hin); [|by eapply Hs].
      dsimpl. rewrite (wf_not_rehashing type d W Hr) in Hb'. apply tget_Some in Hb'. cbn in Hb'. lia.
Qed.

(** The housekeeping before a lookup: the table index stays usable. *)
Lemma settled_index d d' :
  wf d -> settled d d' ->
  size_exp d false = -1 \/ 2 <= size_exp d false <= 60 /\
  (rehashidx d' <= 0 \/ size_exp d false = size_exp d' false).
Proof.
  intros W S. destruct (ht_exp _ _ (wf_0 _ d W)) as [He|He]; [by left|right].
  split; [done|]. destruct S as [->|[_ S]]; [left; lia|right; by rewrite S].
Qed.

Lemma dictSize_spec d : wf d -> dictSize d = Z.of_nat (length (entries d)).
Proof.
  intros W. unfold dictSize. rewrite (entries_used type d W). apply wrapu_small.
  pose proof (wf_small _ d W). unfold in_u. lia.
Qed.

Lemma nonempty_exp d : wf d -> dictSize d <> 0 -> size_exp d false <> -1.
Proof.
  intros W Hs He. rewrite (dictSize_spec d W) in Hs.
  unfold entries in Hs. rewrite (wf_no_table type d W He) in Hs.
  destruct (wf_re _ d W) as [[_ H]|(_ & H & _)]; [|done].
  by rewrite H in Hs.
Qed.

Lemma find_link_in_table_eq d key table :
  wf d -> size_exp d table <> -1 ->
  find_link_in_table d key (hash key) table =
    r ← find_in_table d key (hash key) table;
    Some (Some (mk_link table (bucket_of type (size_exp d table) key) 0), r).
Proof.
  intros W He. unfold find_link_in_table, find_in_table.
  change (Z.land (hash key) (htmask d table)) with (bucket_of type (size_exp d table) key).
  destruct (wf_bucket type (ht d table) key (wf_ht_at _ d table W) He) as [b Hb].
  pose proof (tget_Some _ _ _ Hb). unfold size_exp. rewrite Hb.
  destruct (ht_table (ht d table)); [cbn in *; lia|]. by rewrite Hb.
Qed.

(** The links found are those of [find_in_tables]; the bucket left is the one to
    insert at. *)
Lemma find_links_spec d key idx r :
  wf d -> size_exp d false <> -1 -> 0 <= i64 idx ->
  find_in_tables d key (hash key) idx = Some r ->
  exists bucket, find_links d key (hash key) idx = Some (bucket, r) /\
    (r = None -> bucket = Some (mk_link (dictIsRehashing d)
                  (bucket_of type (size_exp d (dictIsRehashing d)) key) 0)).
Proof.
  intros W H0 Hi. unfold find_in_tables, find_links.
  assert (dictIsRehashing d = true -> size_exp d true <> -1) as H1.
  { intros Hr. pose proof (wf_rehashing type d W Hr). lia. }
  destruct (Z.ltb_spec (i64 idx) (rehashidx d)) as [Hlt|Hge]; mred.
  - assert (dictIsRehashing d = true) as Hr.
    { unfold dictIsRehashing. apply negb_true_iff, Z.eqb_neq. lia. }
    rewrite Hr, find_link_in_table_eq by auto. intros ->. mred. eauto.
  - rewrite (find_link_in_table_eq d key false) by done.
    destruct (find_in_table d key (hash key) false) as [[link|]|]; mred; [| |done].
    + intros [= <-]. by eexists.
    + destruct (dictIsRehashing d) eqn:Hr; cbn [negb].
      * rewrite find_link_in_table_eq by auto. intros ->. mred. eauto.
      * intros [= <-]. eauto.
Qed.

(** The two steps together, on the dict after the housekeeping. *)
Lemma find_links_settled d d' key :
  wf d -> size_exp d false <> -1 -> evolves d d' -> settled d d' ->
  exists bucket r, find_links d' key (hash key) (bucket_of type (size_exp d false) key)
      = Some (bucket, r) /\
    find_in_tables d' key (hash key) (bucket_of type (size_exp d false) key) = Some r /\
    match r with
    | Some link => exists v, link_at d' link key v
    | None => (forall v, (key, v) ∉ entries d') /\
        bucket = Some (mk_link (dictIsRehashing d')
                   (bucket_of type (size_exp d' (dictIsRehashing d')) key) 0)
    end.
Proof.
  intros W H0 E S. destruct (settled_index d d' W S) as [?|[He Hi]]; [done|].
  pose proof (bucket_range type _ key He) as Hb. pose proof (exp_size_pos _ He).
  destruct (find_in_tables_spec d' key (size_exp d false) (ev_wf _ _ _ E))
    as (r & Hr & Hs); [by apply (ev_exp _ _ _ E)|by right|done|].
  destruct (find_links_spec d' key (bucket_of type (size_exp d false) key) r (ev_wf _ _ _ E))
    as (bucket & Hl & Hbk); [by apply (ev_exp _ _ _ E)| |done|].
  { rewrite (wraps_small 64) by (unfold in_s; lia). lia. }
  exists bucket, r. split; [done|]. split; [done|]. destruct r; [done|auto].
Qed.

Lemma dictFindLink_spec d key want :
  wf d -> exists bucket r d', dictFindLink type dict_can_resize d key want = Some (bucket, r, d') /\
    evolves d d' /\
    match r with
    | Some link => exists v, link_at d' link key v
    | None => forall v, (key, v) ∉ entries d'
    end.
Proof.
  intros W. unfold dictFindLink. destruct (Z.eqb_spec (dictSize d) 0) as [Hz|Hz].
  { eexists None, None, d. split; [done|]. split; [by apply evolves_refl|].
    rewrite (dictSize_spec d W) in Hz. intros v.
    assert (entries d = []) as -> by (apply length_zero_iff_nil; lia). apply not_elem_of_nil. }
  pose proof (nonempty_exp d W Hz) as H0.
  unfold dictFindLinkInternal. rewrite (proj2 (Z.eqb_neq _ _) Hz), andb_false_r.
  destruct (_dictRehashStepIfNeeded_spec type dict_can_resize d key W) as (d1 & Hd1 & E1 & S1).
  unfold htmask. change (Z.land (hash key) _) with (bucket_of type (size_exp d false) key).
  rewrite Hd1. mred.
  destruct (find_links_settled d d1 key W H0 E1 S1) as (bucket & r & -> & _ & Hs). mred.
  exists bucket, r, d1. split; [done|]. split; [done|]. destruct r; [done|apply Hs].
Qed.

Lemma link_entry_spec d link key v :
  link_at d link key v -> exists de, link_entry d link = Some de /\ head de = Some (key, v).
Proof.
  intros (Hi & b & Hb & Hp). unfold link_entry. rewrite Hb. mred.
  eexists. split; [done|]. by rewrite head_lookup, lookup_drop, Nat.add_0_r.
Qed.

Lemma link_at_entries d link key v : wf d -> link_at d link key v -> (key, v) ∈ entries d.
Proof.
  intros W (Hi & b & Hb & Hp). apply (wf_entries type d key v W).
  exists (link_table link), b. rewrite <- Hi. split; [done|]. by eapply list_elem_of_lookup_2.
Qed.

Lemma dictFind_spec d key :
  wf d -> exists r d', dictFind type dict_can_resize d key = Some (r, d') /\ evolves d d' /\
    match r with
    | Some (k, v) => k = key /\ (key, v) ∈ entries d
    | None => forall v, (key, v) ∉ entries d
    end.
Proof.
  intros W. unfold dictFind.
  destruct (dictFindLink_spec d key false W) as (bucket & r & d' & -> & E & Hr). mred.
  destruct r as [link|].
  - destruct Hr as [v Hv]. destruct (link_entry_spec d' link key v Hv) as (de & -> & Hh). mred.
    exists (head de), d'. split; [done|]. split; [done|]. rewrite Hh. split; [done|].
    rewrite <- (ev_entries _ _ _ E). apply (link_at_entries d' link); [apply E|done].
  - exists None, d'. split; [done|]. split; [done|]. intros v. by rewrite <- (ev_entries _ _ _ E).
Qed.

(** The change of the entries by an operation that is not only housekeeping. *)
Record becomes d d' (es : list (K * V)) : Prop := {
  bc_wf : wf d';
  bc_entries : entries d' ≡ₚ es;
  bc_pause : pauserehash d' = pauserehash d;
  bc_auto : pauseAutoResize d' = pauseAutoResize d;
  bc_trace : suffix (trace d) (trace d')
}.

Lemma evolves_becomes d d' : evolves d d' -> becomes d d' (entries d).
Proof. by intros []. Qed.

Lemma becomes_trans d1 d2 d3 es es' :
  becomes d1 d2 es -> becomes d2 d3 es' -> becomes d1 d3 es'.
Proof. intros [] []. constructor; [congruence..|by etrans]. Qed.

Lemma becomes_perm d d' es es' : es ≡ₚ es' -> becomes d d' es -> becomes d d' es'.
Proof. intros E []. constructor; [done|by rewrite <- E|done|done|done]. Qed.

Lemma active_exp d :
  wf d -> size_exp d false <> -1 -> size_exp d (dictIsRehashing d) <> -1.
Proof.
  intros W H0. destruct (dictIsRehashing d) eqn:Hr; [|done].
  pose proof (wf_rehashing type d W Hr). lia.
Qed.

Lemma dictInsertKeyAtLink_spec d key v :
  wf d -> size_exp d false <> -1 -> (forall w, (key, w) ∉ entries d) ->
  Z.of_nat (length (entries d)) + 1 < 2 ^ 64 ->
  let table := dictIsRehashing d in
  exists d', dictInsertKeyAtLink d key v (mk_link table (bucket_of type (size_exp d table) key) 0)
      = Some d' /\ becomes d d' ((key, v) :: entries d).
Proof.
  intros W H0 Hk Hs table. pose proof (active_exp d W H0) as He. fold table in He.
  pose proof (wf_ht_at type d table W) as Wt.
  destruct (ht_exp _ _ Wt) as [?|Hr]; [done|]. fold (size_exp d table) in Hr.
  pose proof (bucket_range type _ key Hr) as Hb.
  unfold dictInsertKeyAtLink. fold table. cbn [link_table link_pos link_idx].
  rewrite !bool_decide_true by done. cbn [andb]. repeat ztrue lia.
  assert (htmask d table = htsize d table - 1) as ->.
  { unfold htmask, htsize, DICTHT_SIZE_MASK. by rewrite (proj2 (Z.eqb_neq _ _) He). }
  unfold htsize. ztrue lia. cbn [cassert andb]. mred.
  destruct (wf_ht_push type (ht d table) key v Wt He) as (b & Hg & W' & F').
  { pose proof (entries_used type d W). pose proof (ht_cnt _ _ (wf_0 _ d W)).
    pose proof (ht_cnt _ _ (wf_1 _ d W)). destruct table; dsimpl; lia. }
  unfold size_exp. rewrite Hg. mred. eexists. split; [done|].
  set (h' := mk_ht _ _ _) in *.
  assert (entries (set_ht d table h') ≡ₚ (key, v) :: entries d) as E.
  { unfold entries. destruct table; dsimpl; rewrite F'; [symmetry; apply Permutation_middle|done]. }
  constructor; [|done|by destruct table|by destruct table|destruct table; trace_suffix].
  apply wf_set_ht; try done.
  - unfold table. intros Hf i Hi. unfold dictIsRehashing in Hf. bools. lia.
  - rewrite E. cbn. constructor; [|apply W]. rewrite list_elem_of_fmap.
    intros ([k w] & -> & Hin). by eapply Hk.
  - rewrite E. cbn [length]. lia.
Qed.

(** The dict can take an insertion: it has a table, or may get one. *)
Definition insertable d : Prop :=
  Z.of_nat (length (entries d)) + 1 < 2 ^ 64 /\
  (size_exp d false <> -1 \/ pauseAutoResize d <= 0).

Lemma dictFindLinkForInsert_spec d key :
  wf d -> insertable d ->
  exists r d', dictFindLinkForInsert type dict_can_resize d key = Some (r, d') /\ evolves d d' /\
    size_exp d' false <> -1 /\
    match r with
    | inr link => exists v, link_at d' link key v
    | inl link => (forall v, (key, v) ∉ entries d') /\
        link = mk_link (dictIsRehashing d') (bucket_of type (size_exp d' (dictIsRehashing d')) key) 0
    end.
Proof.
  intros W [_ Ha]. unfold dictFindLinkForInsert.
  destruct (_dictRehashStepIfNeeded_spec type dict_can_resize d key W) as (d1 & Hd1 & E1 & S1).
  change (Z.land (hash key) (htmask d false)) with (bucket_of type (size_exp d false) key).
  rewrite Hd1. mred.
  destruct (_dictExpandIfNeeded_spec type dict_can_resize d1 (ev_wf _ _ _ E1))
    as (r & d2 & -> & R & X2).
  { rewrite (ev_auto _ _ _ E1). destruct Ha; [left; by apply (ev_exp _ _ _ E1)|by right]. }
  mred. assert (evolves d d2) as E2 by (eapply evolves_trans; [done|apply R]).
  destruct (find_in_tables_spec d2 key (size_exp d false) (ev_wf _ _ _ E2) X2)
    as (x & -> & Hx); [apply (ht_exp _ _ (wf_0 _ d W))| |].
  { destruct (dictIsRehashing d1) eqn:Hr1; [right|left; by apply (rs_idx _ _ _ R)].
    rewrite (rs_busy _ _ _ R Hr1). destruct S1 as [S1|[_ S1]]; [|by rewrite S1].
    unfold dictIsRehashing in Hr1. by rewrite S1 in Hr1. }
  mred. destruct x as [link|]; eexists _, d2; (split; [done|]); auto.
Qed.

Lemma dictAddRaw_spec d key v :
  wf d -> insertable d ->
  exists r d', dictAddRaw type dict_can_resize d key v = Some (r, d') /\
    match r with
    | Some link => exists w, link_at d' link key w /\ (key, w) ∈ entries d /\ evolves d d'
    | None => (forall w, (key, w) ∉ entries d) /\ becomes d d' ((key, v) :: entries d)
    end.
Proof.
  intros W Ha. unfold dictAddRaw.
  destruct (dictFindLinkForInsert_spec d key W Ha) as (r & d1 & -> & E & X & Hr). mred.
  destruct r as [link|link].
  - destruct Hr as [Hn ->].
    destruct (dictInsertKeyAtLink_spec d1 key v (ev_wf _ _ _ E) X Hn) as (d2 & -> & B).
    { rewrite (ev_entries _ _ _ E). apply Ha. }
    mred. exists None, d2. split; [done|]. split; [intros w; by rewrite <- (ev_entries _ _ _ E)|].
    eapply becomes_trans; [by apply evolves_becomes|].
    eapply becomes_perm; [|done]. by rewrite (ev_entries _ _ _ E).
  - destruct Hr as [w Hw]. exists (Some link), d1. split; [done|]. exists w.
    split; [done|]. split; [|done]. rewrite <- (ev_entries _ _ _ E).
    apply (link_at_entries d1 link); [apply E|done].
Qed.

Lemma delete_insert b p (e : K * V) : delete p (<[p:=e]> b) = delete p b.
Proof. revert p. induction b as [|x b IH]; intros [|p]; cbn; f_equal; auto. Qed.

(** A bucket is replaced by one that is not longer and has no new keys. *)
Lemma set_bucket_spec d table i b b' :
  wf d -> tget (ht_table (ht d table)) i = Some b ->
  (forall k w, (k, w) ∈ b' -> exists w', (k, w') ∈ b) -> (length b' <= length b)%nat ->
  exists r, entries d ≡ₚ b ++ r /\
    (NoDup (b' ++ r).*1 ->
     becomes d (set_ht d table (mk_ht (tset (ht_table (ht d table)) i b')
       (ht_used (ht d table) + Z.of_nat (length b') - Z.of_nat (length b))
       (size_exp d table))) (b' ++ r)).
Proof.
  intros W Hg Hk Hl. pose proof (wf_ht_at type d table W) as Wt.
  destruct (entries_tset _ _ _ Hg) as (r & Hr & Hs).
  pose proof (tget_Some _ _ _ Hg) as Hi.
  exists (r ++ flat (ht_table (ht d (negb table)))).
  assert (entries d ≡ₚ b ++ r ++ flat (ht_table (ht d (negb table)))) as E.
  { unfold entries. destruct table; dsimpl; rewrite Hr; solve_Permutation. }
  split; [done|]. intros Hn.
  set (h' := mk_ht _ _ _). set (d' := set_ht d table h').
  assert (entries d' ≡ₚ b' ++ r ++ flat (ht_table (ht d (negb table)))) as E'.
  { unfold entries, d', h'. destruct table; dsimpl; rewrite Hs; solve_Permutation. }
  constructor; [|done|by destruct table|by destruct table|destruct table; trace_suffix].
  assert (size_exp d table <> -1) as He.
  { intros He. pose proof (ht_len _ _ Wt) as Hlen. unfold size_exp in He. rewrite He in Hlen.
    cbn in Hlen. lia. }
  apply wf_set_ht; try done.
  - unfold h'. constructor; dsimpl; [apply Wt|rewrite length_tset; apply Wt| |].
    + rewrite (ht_cnt _ _ Wt), Hs, Hr, !length_app. lia.
    + intros j c k w Hj Hin. apply tget_tset in Hj as [(<- & ->)|(_ & Hj)]; [| |lia].
      * destruct (Hk k w Hin) as [w' Hw]. by eapply (ht_pos _ _ Wt).
      * by eapply (ht_pos _ _ Wt).
  - intros -> j Hj. unfold h'. dsimpl.
    assert (dictIsRehashing d = true) as Hre.
    { unfold dictIsRehashing. apply negb_true_iff, Z.eqb_neq. lia. }
    destruct (wf_rehashing type d W Hre) as (_ & _ & _ & Hm).
    destruct (decide (i = j)) as [<-|]; [|rewrite tget_tset_ne by lia; by apply Hm].
    rewrite Hm in Hg by lia. simplify_eq. cbn in Hl.
    rewrite (tget_tset_eq _ _ [] _) by (apply Hm; lia). f_equal. destruct b'; [done|cbn in Hl; lia].
  - fold d'. by rewrite E'.
  - fold d'. pose proof (wf_small _ d W). rewrite E'. rewrite E in H.
    rewrite !length_app in *. lia.
Qed.

Lemma delete_entry d link key v :
  wf d -> link_at d link key v ->
  exists d0 d1 es, unlink_entry d link = Some (Some (key, v), d0) /\
    dec_used d0 (link_table link) = d1 /\
    unlink_entry (dec_used d (link_table link)) link = Some (Some (key, v), d1) /\
    entries d ≡ₚ (key, v) :: es /\ becomes d d1 es.
Proof.
  intros W (Hi & b & Hb & Hp). destruct link as [table i p]. cbn [link_table link_idx link_pos] in *.
  assert (length (delete p b) = length b - 1)%nat as Hld by (by apply (length_delete b p); eauto).
  destruct (set_bucket_spec d table i b (delete p b) W Hb) as (r & Er & B).
  { intros k w Hin. exists w. by eapply elem_of_submseteq, sublist_submseteq, sublist_delete. }
  { lia. }
  pose proof (delete_Permutation _ _ _ Hp) as Ep.
  assert (entries d ≡ₚ (key, v) :: delete p b ++ r) as E
    by (etransitivity; [exact Er|exact (Permutation_app_tail r Ep)]).
  specialize (B ltac:(pose proof (wf_keys _ d W) as Hn; rewrite E in Hn; by inversion Hn)).
  assert (u64 (ht_used (ht d table) - 1) =
          ht_used (ht d table) + Z.of_nat (length (delete p b)) - Z.of_nat (length b)) as Eu.
  { pose proof (lookup_lt_Some _ _ _ Hp).
    pose proof (wf_small _ d W). pose proof (entries_used type d W).
    pose proof (ht_cnt _ _ (wf_ht_at type d table W)) as Hc.
    destruct (entries_tset _ _ _ Hb) as (r' & Hr' & _). rewrite Hr', length_app in Hc.
    pose proof (ht_cnt _ _ (wf_0 _ d W)). pose proof (ht_cnt _ _ (wf_1 _ d W)).
    rewrite wrapu_small; [lia|]. unfold in_u. destruct table; dsimpl; lia. }
  rewrite <- Eu in B. unfold unlink_entry. cbn [link_table link_idx link_pos].
  rewrite Hb. mred. rewrite Hp. eexists _, _, _. split; [done|]. split; [done|].
  split; [|split; [exact E|]].
  - unfold dec_used. destruct table; dsimpl; by rewrite Hb; mred; rewrite Hp.
  - by destruct table.
Qed.

Lemma dictSetVal_spec d link key v w :
  wf d -> link_at d link key w ->
  exists d' es, dictSetVal d link v = Some d' /\ entries d ≡ₚ (key, w) :: es /\
    becomes d d' ((key, v) :: es).
Proof.
  intros W (Hi & b & Hb & Hp). destruct link as [table i p]. cbn [link_table link_idx link_pos] in *.
  assert (<[p:=(key, v)]> b ≡ₚ (key, v) :: delete p b) as Ei.
  { rewrite (delete_Permutation (<[p:=(key, v)]> b) p (key, v)).
    - by rewrite delete_insert.
    - apply list_lookup_insert_eq. by eapply lookup_lt_Some. }
  pose proof (delete_Permutation _ _ _ Hp) as Ep.
  destruct (set_bucket_spec d table i b (<[p:=(key, v)]> b) W Hb) as (r & Er & B).
  { intros k x Hin. rewrite Ei in Hin. apply elem_of_cons in Hin as [[= -> ->]|Hin].
    - exists w. by eapply list_elem_of_lookup_2.
    - exists x. rewrite Ep. by right. }
  { by rewrite length_insert. }
  rewrite length_insert, Z.add_simpl_r in B.
  unfold dictSetVal. cbn [link_table link_idx link_pos]. rewrite Hb. mred. rewrite Hp. mred.
  eexists _, (delete p b ++ r). split; [done|]. split; [etransitivity; [exact Er|exact (Permutation_app_tail r Ep)]|].
  apply (becomes_perm _ _ (<[p:=(key, v)]> b ++ r)); [by rewrite Ei|]. apply B.
  rewrite Ei. pose proof (wf_keys _ d W) as Hn.
  rewrite Er, (Permutation_app_tail r Ep) in Hn. exact Hn.
Qed.

Lemma unlink_and_shrink d link key v :
  wf d -> link_at d link key v ->
  exists d1 d2 es, unlink_entry d link = Some (Some (key, v), d1) /\
    _dictShrinkIfNeeded type dict_can_resize (dec_used d1 (link_table link)) = Some d2 /\
    (exists d1', unlink_entry (dec_used d (link_table link)) link = Some (Some (key, v), d1') /\
       _dictShrinkIfNeeded type dict_can_resize d1' = Some d2) /\
    entries d ≡ₚ (key, v) :: es /\ becomes d d2 es.
Proof.
  intros W Hl. destruct (delete_entry d link key v W Hl) as (d1 & d1' & es & H1 & <- & H2 & E & B).
  destruct (_dictShrinkIfNeeded_spec type dict_can_resize _ (bc_wf _ _ _ B)) as (d2 & Hs & R).
  exists d1, d2, es. split; [done|]. split; [done|]. split; [by eexists|]. split; [done|].
  eapply becomes_trans; [done|]. eapply becomes_perm; [|apply evolves_becomes, R].
  apply (bc_entries _ _ _ B).
Qed.

Lemma dictGenericDelete_spec d key :
  wf d -> exists r d', dictGenericDelete type dict_can_resize d key = Some (r, d') /\
    match r with
    | Some (k, v) => k = key /\ exists es, entries d ≡ₚ (key, v) :: es /\ becomes d d' es
    | None => (forall v, (key, v) ∉ entries d) /\ evolves d d'
    end.
Proof.
  intros W. unfold dictGenericDelete. destruct (Z.eqb_spec (dictSize d) 0) as [Hz|Hz].
  { exists None, d. split; [done|]. split; [|by apply evolves_refl].
    rewrite (dictSize_spec d W) in Hz. intros v.
    assert (entries d = []) as -> by (apply length_zero_iff_nil; lia). apply not_elem_of_nil. }
  pose proof (nonempty_exp d W Hz) as H0.
  destruct (_dictRehashStepIfNeeded_spec type dict_can_resize d key W) as (d1 & Hd1 & E1 & S1).
  change (Z.land (hash key) (htmask d false)) with (bucket_of type (size_exp d false) key).
  rewrite Hd1. mred.
  destruct (find_links_settled d d1 key W H0 E1 S1) as (bk & r & _ & -> & Hs). mred.
  destruct r as [link|].
  - destruct Hs as [v Hv].
    destruct (unlink_and_shrink d1 link key v (ev_wf _ _ _ E1) Hv) as (d2 & d3 & es & -> & H3 & _ & E & B).
    mred. rewrite H3. mred. exists (Some (key, v)), d3. split; [done|]. split; [done|].
    exists es. split; [by rewrite <- (ev_entries _ _ _ E1)|].
    eapply becomes_trans; [by apply evolves_becomes|done].
  - exists None, d1. split; [done|]. split; [|done].
    intros v. rewrite <- (ev_entries _ _ _ E1). apply Hs.
Qed.

Lemma wf_set_pauserehash d p : wf d -> wf (set_pauserehash d p).
Proof. intros W. constructor; apply W. Qed.

Lemma dictTwoPhaseUnlinkFind_spec d key :
  wf d -> exists r d', dictTwoPhaseUnlinkFind type dict_can_resize d key = Some (r, d') /\
    match r with
    | Some link => exists v d1, evolves d d1 /\ d' = dictPauseRehashing d1 /\ link_at d' link key v
    | None => (forall v, (key, v) ∉ entries d) /\ evolves d d'
    end.
Proof.
  intros W. unfold dictTwoPhaseUnlinkFind. destruct (Z.eqb_spec (dictSize d) 0) as [Hz|Hz].
  { exists None, d. split; [done|]. split; [|by apply evolves_refl].
    rewrite (dictSize_spec d W) in Hz. intros v.
    assert (entries d = []) as -> by (apply length_zero_iff_nil; lia). apply not_elem_of_nil. }
  pose proof (nonempty_exp d W Hz) as H0.
  assert (exists d1, (if dictIsRehashing d then _dictRehashStep type dict_can_resize d else Some d)
            = Some d1 /\ evolves d d1) as (d1 & -> & E1).
  { destruct (dictIsRehashing d); [|exists d; split; [done|by apply evolves_refl]].
    destruct (_dictRehashStep_spec type dict_can_resize d W) as (d1 & ? & ? & _). by exists d1. }
  mred. change (Z.land (hash key) (htmask d1 false)) with (bucket_of type (size_exp d1 false) key).
  destruct (find_in_tables_spec d1 key (size_exp d1 false) (ev_wf _ _ _ E1)) as (r & -> & Hr);
    [by apply (ev_exp _ _ _ E1)|apply (ht_exp _ _ (wf_0 _ d1 (ev_wf _ _ _ E1)))|by right|].
  mred. destruct r as [link|].
  - destruct Hr as [v Hv]. exists (Some link), (dictPauseRehashing d1). split; [done|].
    by exists v, d1.
  - exists None, d1. split; [done|]. split; [|done].
    intros v. by rewrite <- (ev_entries _ _ _ E1).
Qed.

Lemma dictTwoPhaseUnlinkFree_spec d link key v :
  wf d -> link_at d link key v ->
  exists d' es, dictTwoPhaseUnlinkFree type dict_can_resize d (Some link) (link_table link) = Some d' /\
    entries d ≡ₚ (key, v) :: es /\ entries d' ≡ₚ es /\ wf d' /\
    pauserehash d' = u32 (pauserehash d - 1) /\ pauseAutoResize d' = pauseAutoResize d /\
    suffix (trace d) (trace d').
Proof.
  intros W Hl. unfold dictTwoPhaseUnlinkFree.
  destruct (link_entry_spec d link key v Hl) as (de & -> & Hh). mred.
  destruct de as [|e de]; [done|].
  destruct (unlink_and_shrink d link key v W Hl) as (d1 & d2 & es & _ & _ & (d1' & -> & Hs) & E & B).
  mred. rewrite Hs. mred. exists (dictResumeRehashing d2), es. split; [done|]. split; [done|].
  split; [apply B|]. split; [by apply wf_set_pauserehash, B|].
  unfold dictResumeRehashing. dsimpl. rewrite (bc_pause _ _ _ B), (bc_auto _ _ _ B).
  split_and!; [done|done|]. apply B.
Qed.
End access.

(** ** The invariant on concrete dicts *)

Section check.
Context {K V : Type} `{EqDecision K}.
Context (type : dictType K).
Implicit Types (d : dict K V) (h : dictht K V).

Fixpoint check_pos (e i : Z) (t : list (chain K V)) : bool :=
  match t with
  | [] => true
  | b :: t => forallb (fun kv => i =? bucket_of type e kv.1) b && check_pos e (i + 1) t
  end.

Definition check_ht h : bool :=
  ((ht_size_exp h =? -1) || ((2 <=? ht_size_exp h) && (ht_size_exp h <=? 60))) &&
  (Z.of_nat (length (ht_table h)) =? DICTHT_SIZE (ht_size_exp h)) &&
  (ht_used h =? Z.of_nat (length (flat (ht_table h)))) &&
  check_pos (ht_size_exp h) 0 (ht_table h).

Definition is_empty (b : chain K V) : bool := match b with [] => true | _ => false end.

Definition check_rehash d : bool :=
  if rehashidx d =? -1
  then is_empty (flat (ht_table (ht1 d))) && (ht_size_exp (ht1 d) =? -1) && (ht_used (ht1 d) =? 0)
       && bool_decide (length (ht_table (ht1 d)) = O)
  else (0 <=? rehashidx d) && (rehashidx d <=? htsize d false) &&
    negb (size_exp d false =? -1) && negb (size_exp d true =? -1) &&
    forallb is_empty (take (Z.to_nat (rehashidx d)) (ht_table (ht0 d))).

Definition check_wf d : bool :=
  check_ht (ht0 d) && check_ht (ht1 d) && bool_decide (NoDup (entries d).*1) &&
  (Z.of_nat (length (entries d)) <? 2 ^ 64) && check_rehash d &&
  (buckets_of (trace d) =? htsize d false + htsize d true) &&
  bool_decide (open_of (trace d) = Some (dictIsRehashing d)).

Lemma check_pos_sound e i t :
  0 <= i -> check_pos e i t = true -> forall j b k v, t !! j = Some b -> (k, v) ∈ b ->
  i + Z.of_nat j = bucket_of type e k.
Proof.
  revert i. induction t as [|b t IH]; intros i Hi H j c k v Hj Hin; [done|].
  cbn in H. apply andb_prop in H as [Hb Ht]. destruct j as [|j]; cbn in Hj.
  - simplify_eq. rewrite forallb_forall in Hb.
    apply list_elem_of_In, Hb in Hin. bools. cbn in *. lia.
  - rewrite <- (IH (i + 1) ltac:(lia) Ht j c k v Hj Hin). lia.
Qed.

Lemma check_ht_sound h : check_ht h = true -> wf_ht type h.
Proof.
  unfold check_ht. intros H. apply andb_prop in H as [H Hp]. apply andb_prop in H as [H Hc].
  apply andb_prop in H as [He Hl]. bools. constructor; [|done|done|].
  - destruct He as [He|He]; bools; lia.
  - intros i b k v Hg Hin. unfold tget in Hg. case_match eqn:Hi; [|done]. bools.
    rewrite <- (check_pos_sound _ 0 _ ltac:(lia) Hp _ _ _ _ Hg Hin). lia.
Qed.

Lemma check_rehash_sound d :
  check_rehash d = true -> Z.of_nat (length (ht_table (ht0 d))) = htsize d false -> wf_rehash d.
Proof.
  unfold check_rehash. intros H Hl. case_match eqn:Hi; rewrite !andb_true_iff in H.
  - destruct H as (((_ & He) & Hu) & Ht). left. bools. split; [done|].
    apply bool_decide_eq_true, length_zero_iff_nil in Ht.
    destruct (ht1 d) as [t u e]. cbn in *. unfold _dictReset. congruence.
  - destruct H as ((((H0 & H1) & H2) & H3) & H4). right. bools. split; [done|].
    split; [done|]. split; [done|]. intros i Hr.
    destruct (tget_is_Some (ht_table (ht0 d)) i) as [b Hb]; [lia|]. rewrite Hb.
    rewrite forallb_forall in H4. unfold tget in Hb. case_match; [|done].
    assert (is_empty b = true) as Hbe; [|by destruct b].
    apply H4, list_elem_of_In, (list_elem_of_lookup_2 _ (Z.to_nat i)).
    rewrite lookup_take_lt by lia. done.
Qed.

Lemma check_wf_sound d : check_wf d = true -> wf type d.
Proof.
  unfold check_wf. rewrite !andb_true_iff. intros ((((((H0 & H1) & Hn) & Hs) & Hr) & Hb) & Ho).
  apply check_ht_sound in H0, H1. apply bool_decide_eq_true in Hn, Ho. bools.
  constructor; try done. apply check_rehash_sound; [done|]. apply (ht_len _ _ H0).
Qed.
End check.

(** ** Refinement of a finite map *)

Section refinement.
Context {K V : Type} `{Countable K}.
Context (type : dictType K) (dict_can_resize : dictResizeEnable).
Implicit Types (d : dict K V) (k key : K).

Abbreviation wf := (wf type).
Abbreviation evolves := (evolves type).
Abbreviation becomes := (becomes type).

(** The finite map a dict represents. *)
Definition dict_map d : gmap K V := list_to_map (entries d).

Lemma dict_map_Some d k v : wf d -> dict_map d !! k = Some v <-> (k, v) ∈ entries d.
Proof. intros W. unfold dict_map. symmetry. apply elem_of_list_to_map, (wf_keys _ d W). Qed.

Lemma dict_map_None d k : wf d -> dict_map d !! k = None <-> forall v, (k, v) ∉ entries d.
Proof.
  intros W. split.
  - intros Hn v Hin%dict_map_Some; [congruence|done].
  - intros Hn. destruct (dict_map d !! k) as [v|] eqn:E; [|done].
    apply dict_map_Some in E; [|done]. by apply Hn in E.
Qed.

Lemma dict_map_perm d d' : wf d -> entries d' ≡ₚ entries d -> dict_map d' = dict_map d.
Proof.
  intros W E. unfold dict_map. apply list_to_map_proper; [|done].
  rewrite E. apply (wf_keys _ d W).
Qed.

Lemma dict_map_evolves d d' : wf d -> evolves d d' -> wf d' /\ dict_map d' = dict_map d.
Proof. intros W E. split; [apply E|]. apply dict_map_perm; [done|apply E]. Qed.

Lemma list_to_map_perm d (es : list (K * V)) :
  wf d -> entries d ≡ₚ es -> dict_map d = list_to_map es.
Proof. intros W E. apply list_to_map_proper; [apply (wf_keys _ d W)|done]. Qed.

Lemma dict_map_becomes_cons d d' k v es :
  becomes d d' ((k, v) :: es) -> wf d' /\ dict_map d' = <[k:=v]> (list_to_map es).
Proof.
  intros B. split; [apply B|].
  rewrite (list_to_map_perm d' _ (bc_wf _ _ _ _ B) (bc_entries _ _ _ _ B)). done.
Qed.

Lemma dict_map_deleted d es k v :
  wf d -> entries d ≡ₚ (k, v) :: es -> list_to_map es = delete k (dict_map d).
Proof.
  intros W E. rewrite (list_to_map_perm d _ W E). cbn. rewrite delete_insert_id; [done|].
  apply not_elem_of_list_to_map. pose proof (wf_keys _ d W) as Hn. rewrite E in Hn. by inversion Hn.
Qed.

Lemma dictSize_map d : wf d -> dictSize d = Z.of_nat (size (dict_map d)).
Proof.
  intros W. rewrite (dictSize_spec type d W). unfold dict_map.
  rewrite <- length_map_to_list, map_to_list_to_map by apply (wf_keys _ d W). done.
Qed.


(** C27: [dictAdd] on a well-formed dict that can take one more entry always returns; it fails with
    [DICT_ERR] and leaves the map alone exactly when the key is present, and
    otherwise adds the key, whatever step of rehashing, expansion or completion it
    performs on the way; the invariant holds afterwards, with the bucket count and
    the rehashings the observers are told of still in balance. *)
Theorem dictAdd_refines d key v :
  wf d -> insertable d ->
  exists r d', dictAdd type dict_can_resize d key v = Some (r, d') /\ wf d' /\
    match dict_map d !! key with
    | Some _ => r = DICT_ERR /\ dict_map d' = dict_map d
    | None => r = DICT_OK /\ dict_map d' = <[key:=v]> (dict_map d)
    end.
Proof.
  intros W Ha. unfold dictAdd.
  destruct (dictAddRaw_spec type dict_can_resize d key v W Ha) as (r & d' & -> & Hr). mred.
  destruct r as [link|].
  - destruct Hr as (w & _ & Hin & E). destruct (dict_map_evolves d d' W E) as [W' Em].
    apply (dict_map_Some d key w W) in Hin. rewrite Hin. by exists DICT_ERR, d'.
  - destruct Hr as (Hn & B). apply (dict_map_None d key W) in Hn. rewrite Hn.
    apply dict_map_becomes_cons in B. exists DICT_OK, d'. naive_solver.
Qed.

(** [dictReplace] stores the value under the key and returns 1 when the key is
    new, 0 when an existing value was replaced. *)
Theorem dictReplace_refines d key v :
  wf d -> insertable d ->
  exists r d', dictReplace type dict_can_resize d key v = Some (r, d') /\ wf d' /\
    dict_map d' = <[key:=v]> (dict_map d) /\
    r = match dict_map d !! key with Some _ => 0 | None => 1 end.
Proof.
  intros W Ha. unfold dictReplace.
  destruct (dictAddRaw_spec type dict_can_resize d key v W Ha) as (r & d' & -> & Hr). mred.
  destruct r as [link|].
  - destruct Hr as (w & Hl & Hin & E). apply (dict_map_Some d key w W) in Hin. rewrite Hin.
    destruct (dictSetVal_spec type d' link key v w (ev_wf _ _ _ E) Hl) as (d2 & es & -> & Ee & B). mred.
    exists 0, d2. apply dict_map_becomes_cons in B as [W2 ->].
    split; [done|]. split; [done|]. split; [|done].
    rewrite (ev_entries _ _ _ E) in Ee.
    by rewrite (dict_map_deleted d es key w W Ee), insert_delete_eq.
  - destruct Hr as (Hn & B). apply (dict_map_None d key W) in Hn. rewrite Hn.
    apply dict_map_becomes_cons in B as [W2 E2]. exists 1, d'. auto.
Qed.

(** [dictFind] returns the entry of the key if the map has one and nothing
    otherwise, and its step of rehashing does not change the map. *)
Theorem dictFind_refines d key :
  wf d -> exists d', dictFind type dict_can_resize d key =
      Some ((fun v => (key, v)) <$> dict_map d !! key, d') /\ wf d' /\ dict_map d' = dict_map d.
Proof.
  intros W. destruct (dictFind_spec type dict_can_resize d key W) as (r & d' & -> & E & Hr).
  exists d'. split; [|by apply dict_map_evolves]. do 2 f_equal.
  destruct r as [[k v]|].
  - destruct Hr as [-> Hin]. apply (dict_map_Some d key v W) in Hin. by rewrite Hin.
  - apply (dict_map_None d key W) in Hr. by rewrite Hr.
Qed.

(** [dictDelete] removes the key and answers [DICT_OK] exactly when the map had
    it; the shrinking it may start does not change the map. *)
Theorem dictDelete_refines d key :
  wf d -> exists d', dictDelete type dict_can_resize d key =
      Some (match dict_map d !! key with Some _ => DICT_OK | None => DICT_ERR end, d') /\
    wf d' /\ dict_map d' = delete key (dict_map d).
Proof.
  intros W. unfold dictDelete.
  destruct (dictGenericDelete_spec type dict_can_resize d key W) as (r & d' & -> & Hr). mred.
  exists d'. destruct r as [[k v]|].
  - destruct Hr as (-> & es & Ee & B).
    assert (dict_map d !! key = Some v) as ->.
    { apply (dict_map_Some d key v W). rewrite Ee. left. }
    split; [done|]. split; [apply B|].
    rewrite <- (dict_map_deleted d es key v W Ee).
    apply list_to_map_perm; apply B.
  - destruct Hr as [Hn E]. apply (dict_map_None d key W) in Hn. rewrite Hn.
    split; [done|]. destruct (dict_map_evolves d d' W E) as [W' ->].
    split; [done|]. by rewrite delete_id.
Qed.

(** The two phases of unlinking together delete the key: the first finds its
    entry and pauses rehashing, so that the link stays valid; the second removes
    the entry and takes the pause back. *)
Theorem dictTwoPhaseUnlink_refines d key v :
  wf d -> in_u 32 (pauserehash d) -> dict_map d !! key = Some v ->
  exists link d1 d2,
    dictTwoPhaseUnlinkFind type dict_can_resize d key = Some (Some link, d1) /\
    dict_map d1 = dict_map d /\ pauserehash d1 = u32 (pauserehash d + 1) /\
    dictTwoPhaseUnlinkFree type dict_can_resize d1 (Some link) (link_table link) = Some d2 /\
    wf d2 /\ dict_map d2 = delete key (dict_map d) /\ pauserehash d2 = pauserehash d.
Proof.
  intros W Hp Hv. apply (dict_map_Some d key v W) in Hv.
  destruct (dictTwoPhaseUnlinkFind_spec type dict_can_resize d key W) as (r & d1 & -> & Hr).
  destruct r as [link|]; [|by destruct (proj1 Hr v)].
  destruct Hr as (w & d0 & E & -> & Hl). pose proof (ev_entries _ _ _ E) as Ee.
  assert (wf (dictPauseRehashing d0)) as W1 by apply wf_set_pauserehash, E.
  destruct (dictTwoPhaseUnlinkFree_spec type dict_can_resize _ link key w W1 Hl)
    as (d2 & es & H2 & E2 & E2' & W2 & P2 & _).
  exists link, (dictPauseRehashing d0), d2. rewrite H2. change (entries (dictPauseRehashing d0)) with (entries d0) in E2.
  assert (pauserehash (dictPauseRehashing d0) = u32 (pauserehash d + 1)) as Ep.
  { unfold dictPauseRehashing. dsimpl. by rewrite (ev_pause _ _ _ E). }
  split; [done|]. split; [by apply dict_map_perm|]. split; [done|]. split; [done|].
  split; [done|]. split.
  - rewrite Ee in E2. rewrite <- (dict_map_deleted d es key w W E2).
    by apply list_to_map_perm.
  - rewrite P2, Ep. by apply wrapu_inc_dec.
Qed.

(** A call of [dictRehash] keeps the map and the invariant; it returns 0 when
    there is nothing (more) to move and 1 when it made progress: then it has
    advanced [rehashidx], which stays below the number of buckets, so that
    rehashing ends after finitely many calls. *)
Theorem dictRehash_refines d n :
  wf d -> (1 <= n)%nat -> Z.of_nat n <= 100000000 ->
  exists r d', dictRehash type dict_can_resize d n = Some (r, d') /\ wf d' /\
    dict_map d' = dict_map d /\ dictSize d' = dictSize d /\
    ((r = 0 /\ (dict_can_resize = DICT_RESIZE_ENABLE -> dictIsRehashing d' = false)) \/
     (r = 1 /\ rehashidx d < rehashidx d' <= htsize d' false /\ htsize d' false = htsize d false)).
Proof.
  intros W Hn1 Hn. destruct (dictRehash_spec type dict_can_resize d n W Hn) as (r & d' & -> & E & Hr).
  destruct (dict_map_evolves d d' W E) as [W' Em]. exists r, d'.
  split; [done|]. split; [done|]. split; [done|].
  split; [by rewrite (dictSize_map d' W'), (dictSize_map d W), Em|].
  destruct (rehash_blocked dict_can_resize d) eqn:Hb.
  - destruct Hr as [-> ->]. left. split; [done|]. intros He. by apply (blocked_enabled dict_can_resize).
  - destruct Hr as [Hr [[-> Hi]|[-> P]]]; [left|right].
    + split; [done|]. intros _. unfold dictIsRehashing. by rewrite Hi.
    + pose proof (wf_rehashing type d' W' (pr_rehashing _ _ _ P)) as (Hx & _).
      pose proof (pr_idx _ _ _ P). pose proof (pr_exp _ _ _ P false). destruct n; [lia|].
      split; [done|]. unfold htsize in *. split; [lia|congruence].
Qed.

(** [while (dictRehash(d,1000))] terminates: unless resizing is disabled it
    leaves one table with all the entries. *)
Theorem rehash_all_terminates d :
  wf d -> dict_can_resize = DICT_RESIZE_ENABLE ->
  exists d', rehash_all type dict_can_resize (S (length (ht_table (ht0 d)))) d = Some d' /\
    wf d' /\ dictIsRehashing d' = false /\ dict_map d' = dict_map d.
Proof.
  intros W He. destruct (rehash_all_spec type dict_can_resize (S (length (ht_table (ht0 d)))) d W)
    as (d' & -> & E & Hr); [|done|].
  { intros Hr. pose proof (wf_rehashing type d W Hr) as (Hx & _).
    pose proof (ht_len _ _ (wf_0 _ d W)). unfold htsize, size_exp. dsimpl. lia. }
  destruct (dict_map_evolves d d' W E) as [W' Em]. exists d'. split; [done|]. split; [done|].
  split; [|done]. destruct (rehash_blocked dict_can_resize d) eqn:Hb.
  - subst d'. by apply (blocked_enabled dict_can_resize).
  - unfold dictIsRehashing. by rewrite Hr.
Qed.

End refinement.

(** ** A dict in the middle of a rehashing *)

Definition sample_type : dictType Z := mk_dictType (fun k => k `mod` 2 ^ 64) None false.

Definition sample : dict Z Z :=
  default dictCreate
    (foldl (fun od k => d ← od; option_map snd (dictAdd sample_type DICT_RESIZE_ENABLE d k (k * 10)))
           (Some dictCreate) [1; 2; 3; 4; 5; 6; 7; 8; 9; 17; 33]).

Lemma sample_wf : wf sample_type sample.
Proof. apply check_wf_sound. vm_compute. reflexivity. Qed.

Lemma sample_insertable : insertable sample.
Proof. split; [vm_compute; reflexivity|left; vm_compute; discriminate]. Qed.

Example sample_rehashing : dictIsRehashing sample = true.
Proof. vm_compute. reflexivity. Qed.

Lemma dictAdd_refines_witness :
  exists r d', dictAdd sample_type DICT_RESIZE_ENABLE sample 18 180 = Some (r, d') /\
    wf sample_type d' /\
    match dict_map sample !! 18 with
    | Some _ => r = DICT_ERR /\ dict_map d' = dict_map sample
    | None => r = DICT_OK /\ dict_map d' = <[18:=180]> (dict_map sample)
    end.
Proof. apply (dictAdd_refines sample_type DICT_RESIZE_ENABLE); [apply sample_wf|apply sample_insertable]. Defined.

Lemma dictReplace_refines_witness :
  exists r d', dictReplace sample_type DICT_RESIZE_ENABLE sample 17 5 = Some (r, d') /\
    wf sample_type d' /\ dict_map d' = <[17:=5]> (dict_map sample) /\
    r = match dict_map sample !! 17 with Some _ => 0 | None => 1 end.
Proof. apply (dictReplace_refines sample_type DICT_RESIZE_ENABLE); [apply sample_wf|apply sample_insertable]. Defined.

Lemma dictFind_refines_witness :
  exists d', dictFind sample_type DICT_RESIZE_ENABLE sample 17 =
      Some ((fun v => (17, v)) <$> dict_map sample !! 17, d') /\ wf sample_type d' /\
    dict_map d' = dict_map sample.
Proof. apply (dictFind_refines sample_type DICT_RESIZE_ENABLE), sample_wf. Defined.

Lemma dictDelete_refines_witness :
  exists d', dictDelete sample_type DICT_RESIZE_AVOID sample 17 =
      Some (match dict_map sample !! 17 with Some _ => DICT_OK | None => DICT_ERR end, d') /\
    wf sample_type d' /\ dict_map d' = delete 17 (dict_map sample).
Proof. apply (dictDelete_refines sample_type DICT_RESIZE_AVOID), sample_wf. Defined.

Lemma dictTwoPhaseUnlink_refines_witness :
  exists link d1 d2,
    dictTwoPhaseUnlinkFind sample_type DICT_RESIZE_ENABLE sample 33 = Some (Some link, d1) /\
    dict_map d1 = dict_map sample /\ pauserehash d1 = u32 (pauserehash sample + 1) /\
    dictTwoPhaseUnlinkFree sample_type DICT_RESIZE_ENABLE d1 (Some link) (link_table link) = Some d2 /\
    wf sample_type d2 /\ dict_map d2 = delete 33 (dict_map sample) /\
    pauserehash d2 = pauserehash sample.
Proof.
  apply (dictTwoPhaseUnlink_refines sample_type DICT_RESIZE_ENABLE sample 33 330);
    [apply sample_wf|split; vm_compute; congruence|vm_compute; reflexivity].
Defined.

Lemma dictRehash_refines_witness :
  exists r d', dictRehash sample_type DICT_RESIZE_ENABLE sample 2 = Some (r, d') /\
    wf sample_type d' /\ dict_map d' = dict_map sample /\ dictSize d' = dictSize sample /\
    ((r = 0 /\ (DICT_RESIZE_ENABLE = DICT_RESIZE_ENABLE -> dictIsRehashing d' = false)) \/
     (r = 1 /\ rehashidx sample < rehashidx d' <= htsize d' false /\
      htsize d' false = htsize sample false)).
Proof. apply (dictRehash_refines sample_type DICT_RESIZE_ENABLE); [apply sample_wf|lia|lia]. Defined.

Lemma rehash_all_terminates_witness :
  exists d', rehash_all sample_type DICT_RESIZE_ENABLE (S (length (ht_table (ht0 sample)))) sample
      = Some d' /\
    wf sample_type d' /\ dictIsRehashing d' = false /\ dict_map d' = dict_map sample.
Proof. apply (rehash_all_terminates sample_type DICT_RESIZE_ENABLE); [apply sample_wf|reflexivity]. Defined.

End Dict.
