(* ===== verification/DictScan.v ===== *)
(** The stateless cursor of [SCAN] over a hash table ([dictScan] in [src/dict.c]):
    the bit-reversed counter, the buckets a call visits, and why an iteration
    returns every element whatever resizing happens in between. *)
From stdpp Require Import base numbers list gmap.
From stdpp Require Import options.
From S2P Require Import Prelude Dict.

Module DictScan.
Import Dict.

(** ** The scan cursor *)

Definition ULONG_MAX : Z := UINT64_MAX.

(** [rev]: [while ((s >>= 1) > 0)], from [s] = 64. *)
Fixpoint rev_loop (fuel : nat) (s mask v : Z) : option Z :=
  match fuel with
  | O => None
  | S fuel =>
    let s := Z.shiftr s 1 in
    if s >? 0 then
      let mask := Z.lxor mask (u64 (Z.shiftl mask s)) in
      let v := Z.lor (Z.land (Z.shiftr v s) mask) (Z.land (u64 (Z.shiftl v s)) (not64 mask)) in
      rev_loop fuel s mask v
    else Some v
  end.

Definition rev (v : Z) : Z := default 0 (rev_loop 8 64 ULONG_MAX v).

(** [v |= ~m; v = rev(v); v++; v = rev(v);] *)
Definition cursor_next (v m : Z) : Z := rev (u64 (rev (Z.lor v (not64 m)) + 1)).

Section scan.
Context {K V : Type}.
Implicit Types (d : dict K V).

(** [dictScanDefragBucket] without relocation: the callback is given the entries
    of the bucket in order. *)
Definition dictScanDefragBucket (t : list (chain K V)) (i : Z) : option (list (K * V)) :=
  tget t i.

(** [do ... while (v & (m0 ^ m1))] over the expansions in the larger table. *)
Fixpoint scan_expansions (fuel : nat) (t1 : list (chain K V)) (m0 m1 v : Z)
    : option (list (K * V) * Z) :=
  match fuel with
  | O => None
  | S fuel =>
    es ← dictScanDefragBucket t1 (Z.land v m1);
    let v := cursor_next v m1 in
    if Z.land v (Z.lxor m0 m1) =? 0 then Some (es, v)
    else '(es', v) ← scan_expansions fuel t1 m0 m1 v; Some (es ++ es', v)
  end.

(** [dictScan], by way of [dictScanDefrag] without relocation: the entries the
    callback is given and the next cursor.  Rehashing is paused in between, and
    the dict comes out as it went in. *)
Definition dictScan d (v : Z) : option (list (K * V) * Z) :=
  if dictSize d =? 0 then Some ([], 0)
  else if negb (dictIsRehashing d) then
    let m0 := htmask d false in
    es ← dictScanDefragBucket (ht_table (ht d false)) (Z.land v m0);
    Some (es, cursor_next v m0)
  else
    let '(htidx0, htidx1) :=
      if htsize d false >? htsize d true then (true, false) else (false, true) in
    let m0 := htmask d htidx0 in
    let m1 := htmask d htidx1 in
    es ← dictScanDefragBucket (ht_table (ht d htidx0)) (Z.land v m0);
    '(es', v) ← scan_expansions (S (length (ht_table (ht d htidx1))))
                  (ht_table (ht d htidx1)) m0 m1 v;
    Some (es ++ es', v).
End scan.

(** ** Bit reversal *)

(** One round of [rev] exchanges bit [i] with bit [i xor s]. *)
Lemma rev_round s mask v :
  forallb (fun i => if Z.testbit mask i then (Z.lxor i s =? i + s) && (i + s <? 64)
                    else (Z.lxor i s =? i - s) && (s <=? i)) (Z.of_nat <$> seq 0 64) = true ->
  0 <= s ->
  forall i, 0 <= i < 64 ->
  Z.testbit (Z.lor (Z.land (Z.shiftr v s) mask) (Z.land (u64 (Z.shiftl v s)) (not64 mask))) i =
  Z.testbit v (Z.lxor i s).
Proof.
  intros Hm Hs i Hi. rewrite forallb_forall in Hm.
  specialize (Hm i). assert (In i (Z.of_nat <$> seq 0 64)) as Hin.
  { apply list_elem_of_In, list_elem_of_fmap. exists (Z.to_nat i). split; [lia|]. apply elem_of_seq. lia. }
  specialize (Hm Hin). unfold not64, wrapu.
  rewrite Z.lor_spec, !Z.land_spec, Z.shiftr_spec, !Z.mod_pow2_bits_low, Z.lnot_spec,
    Z.shiftl_spec by lia.
  destruct (Z.testbit mask i); apply andb_prop in Hm as [H1 H2]; bools; rewrite H1.
  - by rewrite andb_true_r, andb_false_r, orb_false_r.
  - by rewrite andb_false_r, andb_true_r.
Qed.

Definition rev_step (s mask v : Z) : Z :=
  Z.lor (Z.land (Z.shiftr v s) mask) (Z.land (u64 (Z.shiftl v s)) (not64 mask)).

(** The rounds, with the masks the loop computes. *)
Lemma rev_rounds v :
  rev v = rev_step 1 0x5555555555555555 (rev_step 2 0x3333333333333333
    (rev_step 4 0x0f0f0f0f0f0f0f0f (rev_step 8 0x00ff00ff00ff00ff
    (rev_step 16 0x0000ffff0000ffff (rev_step 32 0x00000000ffffffff v))))).
Proof. reflexivity. Qed.

Lemma lxor_range i s : 0 <= i < 64 -> 0 <= s < 64 -> 0 <= Z.lxor i s < 64.
Proof.
  intros Hi Hs. assert (0 <= Z.lxor i s) by (apply Z.lxor_nonneg; lia).
  split; [done|]. destruct (decide (Z.lxor i s = 0)) as [->|]; [done|].
  apply (Z.log2_lt_pow2 _ 6); [lia|].
  eapply Z.le_lt_trans; [apply Z.log2_lxor; lia|].
  pose proof (Z.log2_le_mono i 63). pose proof (Z.log2_le_mono s 63).
  change (Z.log2 63) with 5 in *. lia.
Qed.

Lemma rev_bits v i : 0 <= i < 64 -> Z.testbit (rev v) i = Z.testbit v (63 - i).
Proof.
  intros Hi. rewrite rev_rounds. unfold rev_step.
  repeat (rewrite rev_round; [|reflexivity|lia|repeat (apply lxor_range; [|lia]); lia]).
  f_equal. apply Z.eqb_eq.
  assert (forallb (fun i => Z.lxor (Z.lxor (Z.lxor (Z.lxor (Z.lxor (Z.lxor i 1) 2) 4) 8) 16) 32
    =? 63 - i) (Z.of_nat <$> seq 0 64) = true) as H by reflexivity.
  rewrite forallb_forall in H. apply H. apply list_elem_of_In, list_elem_of_fmap.
  exists (Z.to_nat i). split; [lia|]. apply elem_of_seq. lia.
Qed.

Lemma in_u_bits w x : 0 <= w -> 0 <= x -> (forall i, w <= i -> Z.testbit x i = false) -> in_u w x.
Proof.
  intros Hw Hx H. rewrite <- (Z.mod_small x (2 ^ w)); [by apply in_u_wrapu|].
  split; [done|]. destruct (decide (x = 0)) as [->|]; [lia|]. apply Z.log2_lt_pow2; [lia|].
  destruct (decide (Z.log2 x < w)); [done|]. pose proof (Z.bit_log2 x ltac:(lia)) as Hb.
  rewrite H in Hb by lia. done.
Qed.

Lemma u64_high x i : in_u 64 x -> 64 <= i -> Z.testbit x i = false.
Proof. intros Hx Hi. rewrite <- (wrapu_small 64 x Hx). apply Z.mod_pow2_bits_high. lia. Qed.

Lemma rev_step_range s mask v : 0 <= mask < 2 ^ 64 -> in_u 64 (rev_step s mask v).
Proof.
  intros Hm. unfold rev_step. apply in_u_bits; [lia| |].
  - apply Z.lor_nonneg. split; apply Z.land_nonneg; right; [lia|].
    apply Z.mod_pos_bound. lia.
  - intros i Hi. rewrite Z.lor_spec, !Z.land_spec, (u64_high mask), (u64_high (not64 mask));
      [by rewrite !andb_false_r| |done|done|done]. apply in_u_wrapu. lia.
Qed.

Lemma rev_range v : in_u 64 (rev v).
Proof. rewrite rev_rounds. apply rev_step_range. lia. Qed.

Lemma u64_bits_eq x y :
  in_u 64 x -> in_u 64 y -> (forall i, 0 <= i < 64 -> Z.testbit x i = Z.testbit y i) -> x = y.
Proof.
  intros Hx Hy H. apply Z.bits_inj'. intros i Hi. destruct (decide (i < 64)); [apply H; lia|].
  by rewrite !u64_high by (done || lia).
Qed.

Lemma rev_involutive v : in_u 64 v -> rev (rev v) = v.
Proof.
  intros Hv. apply u64_bits_eq; [apply rev_range|done|]. intros i Hi.
  rewrite !rev_bits by lia. f_equal. lia.
Qed.

Lemma rev_0 : rev 0 = 0.
Proof. reflexivity. Qed.

#[local] Opaque rev.

(** ** The order of the cursor

    The reversed cursor counts up from 0 to 2^64; the keys of one bucket of a
    table with 2^e buckets are those whose reversed hashes lie in one block of
    2^(64-e) numbers. *)

Definition block (e : Z) : Z := 2 ^ (64 - e).

Definition block_end (e v : Z) : Z := (rev v `div` block e + 1) * block e.

Lemma block_pos e : 0 <= e <= 64 -> 0 < block e.
Proof. intros. apply Z.pow_pos_nonneg; lia. Qed.

Lemma block_total e : 0 <= e <= 64 -> 2 ^ e * block e = 2 ^ 64.
Proof. intros. unfold block. rewrite <- Z.pow_add_r by lia. f_equal. lia. Qed.

Lemma block_end_bounds e v :
  0 <= e <= 64 -> rev v < block_end e v <= rev v + block e /\ block_end e v <= 2 ^ 64.
Proof.
  intros He. unfold block_end. pose proof (block_pos e He). pose proof (rev_range v) as [? Hr].
  pose proof (Z.div_mod (rev v) (block e) ltac:(lia)).
  pose proof (Z.mod_pos_bound (rev v) (block e) ltac:(lia)). split; [lia|].
  rewrite <- (block_total e He) in Hr |- *. apply Z.mul_le_mono_nonneg_r; [lia|].
  assert (rev v `div` block e < 2 ^ e); [|lia]. apply Z.div_lt_upper_bound; lia.
Qed.

Lemma same_block e x v :
  0 <= e <= 64 -> rev v <= rev x < block_end e v -> Z.land x (Z.ones e) = Z.land v (Z.ones e).
Proof.
  intros He Hx. pose proof (block_pos e He).
  assert (rev x `div` block e = rev v `div` block e) as E.
  { unfold block_end in Hx. apply Z.le_antisymm.
    - apply Z.lt_succ_r, Z.div_lt_upper_bound; lia.
    - apply Z.div_le_mono; lia. }
  apply Z.bits_inj'. intros i Hi. rewrite !Z.land_spec. destruct (decide (i < e)).
  - f_equal. pose proof (rev_bits x (63 - i) ltac:(lia)) as H1.
    pose proof (rev_bits v (63 - i) ltac:(lia)) as H2.
    replace (63 - (63 - i)) with i in * by lia. rewrite <- H1, <- H2.
    apply (f_equal (fun z => Z.testbit z (e - 1 - i))) in E. unfold block in E.
    rewrite !Z.div_pow2_bits in E by lia. by replace (e - 1 - i + (64 - e)) with (63 - i) in E by lia.
  - by rewrite !Z.ones_spec_high, !andb_false_r by lia.
Qed.

(** Setting the bits outside the mask moves to the last number of the block. *)
Lemma rev_lor_mask e v :
  0 <= e <= 64 -> rev (Z.lor v (not64 (Z.ones e))) = block_end e v - 1.
Proof.
  intros He. pose proof (block_end_bounds e v He) as Hb. pose proof (rev_range v) as [Hv _].
  assert (block_end e v - 1 = Z.lor (Z.ones (64 - e)) (Z.shiftl (Z.shiftr (rev v) (64 - e)) (64 - e))) as E.
  { pose proof (block_pos e He) as Hp. unfold block in Hp.
    rewrite lor_shiftl, Z.shiftr_div_pow2, Z.ones_equiv by (rewrite ?Z.ones_equiv; lia).
    unfold block_end, block. lia. }
  apply u64_bits_eq; [apply rev_range|unfold in_u; lia|]. intros i Hi.
  rewrite rev_bits, E, !Z.lor_spec by lia. unfold not64, wrapu.
  rewrite Z.mod_pow2_bits_low, Z.lnot_spec, Z.shiftl_spec by lia.
  destruct (decide (i < 64 - e)).
  - rewrite Z.ones_spec_high, Z.ones_spec_low by lia. by rewrite orb_true_r.
  - rewrite Z.ones_spec_low, Z.ones_spec_high, Z.shiftr_spec, rev_bits by lia.
    cbn. rewrite orb_false_r. f_equal. lia.
Qed.

Lemma cursor_next_spec e v :
  0 <= e <= 64 -> rev (cursor_next v (Z.ones e)) = block_end e v `mod` 2 ^ 64 /\
    in_u 64 (cursor_next v (Z.ones e)).
Proof.
  intros He. unfold cursor_next. split; [|apply rev_range].
  rewrite rev_involutive by (apply in_u_wrapu; lia). rewrite rev_lor_mask by done.
  unfold wrapu. f_equal. lia.
Qed.

(** The test that ends the expansions: the cursor is at the start of a block of
    the smaller table. *)
Lemma expansion_test e0 e1 v :
  0 <= e0 <= e1 -> e1 <= 64 -> rev v `mod` block e1 = 0 ->
  Z.land v (Z.lxor (Z.ones e0) (Z.ones e1)) = 0 <-> rev v `mod` block e0 = 0.
Proof.
  intros He0 He1 H1. unfold block in *.
  assert (forall j, 0 <= j < 64 - e1 -> Z.testbit (rev v) j = false) as Hlow.
  { intros j Hj. rewrite <- (Z.mod_pow2_bits_low _ (64 - e1)), H1 by lia. apply Z.bits_0. }
  split; intros H; apply Z.bits_inj'; intros i Hi; rewrite Z.bits_0.
  - destruct (decide (i < 64 - e0)); [|apply Z.mod_pow2_bits_high; lia].
    rewrite Z.mod_pow2_bits_low by lia. destruct (decide (i < 64 - e1)); [apply Hlow; lia|].
    apply (f_equal (fun z => Z.testbit z (63 - i))) in H.
    rewrite Z.land_spec, Z.lxor_spec, Z.ones_spec_high, Z.ones_spec_low, Z.bits_0 in H by lia.
    rewrite rev_bits by lia. by rewrite andb_true_r in H.
  - rewrite Z.land_spec, Z.lxor_spec.
    destruct (decide (i < e0)); [by rewrite !Z.ones_spec_low, andb_false_r by lia|].
    destruct (decide (i < e1)); [|by rewrite !Z.ones_spec_high, andb_false_r by lia].
    apply (f_equal (fun z => Z.testbit z (63 - i))) in H.
    rewrite Z.bits_0, Z.mod_pow2_bits_low, rev_bits in H by lia.
    replace (63 - (63 - i)) with i in H by lia. by rewrite H.
Qed.

(** ** Scanning *)

Section scanning.
Context {K V : Type} `{EqDecision K}.
Context (type : dictType K).
Implicit Types (d : dict K V) (k key : K) (h : dictht K V).

Abbreviation wf := (wf type).
Abbreviation wf_ht := (wf_ht type).
Abbreviation hash := (dictGetHash type).

(** The reversed hash of a key. *)
Definition position k : Z := rev (hash k).

(** A bucket emits its entries, which are those of a block. *)
Lemma bucket_covers h v :
  wf_ht h -> 2 <= ht_size_exp h <= 60 ->
  exists es, dictScanDefragBucket (ht_table h) (Z.land v (DICTHT_SIZE_MASK (ht_size_exp h))) = Some es /\
    (forall k x, (k, x) ∈ flat (ht_table h) -> rev v <= position k < block_end (ht_size_exp h) v ->
       (k, x) ∈ es) /\
    (forall e, e ∈ es -> e ∈ flat (ht_table h)).
Proof.
  intros W He. unfold dictScanDefragBucket.
  set (m := DICTHT_SIZE_MASK (ht_size_exp h)).
  destruct (tget_is_Some (ht_table h) (Z.land v m)) as [es Hes].
  { rewrite (ht_len _ _ W). unfold m. rewrite land_mask, DICTHT_SIZE_pow by lia.
    apply Z.mod_pos_bound. lia. }
  exists es. split; [done|]. split.
  - intros k x Hin Hp. apply elem_of_table in Hin as (i & b & Hb & Hin).
    pose proof (ht_pos _ _ W _ _ _ _ Hb Hin) as Hi. unfold bucket_of in Hi. fold m in Hi.
    assert (Z.land (hash k) m = Z.land v m) as E.
    { unfold m. rewrite DICTHT_MASK_ones by lia. apply same_block; [lia|done]. }
    rewrite E in Hi. subst i. by simplify_eq.
  - intros e Hin. apply elem_of_table. eauto.
Qed.

Lemma block_divides e0 e1 : 0 <= e0 <= e1 -> e1 <= 64 -> block e0 = 2 ^ (e1 - e0) * block e1.
Proof. intros. unfold block. rewrite <- Z.pow_add_r by lia. f_equal. lia. Qed.

(** The end of a block of the smaller table is the end of one of the larger. *)
Lemma block_end_le e0 e1 v : 0 <= e0 <= e1 -> e1 <= 64 -> block_end e1 v <= block_end e0 v.
Proof.
  intros H0 H1. pose proof (block_end_bounds e0 v ltac:(lia)) as [Hb _].
  pose proof (block_pos e1 ltac:(lia)). unfold block_end in *.
  rewrite (block_divides e0 e1) in * by lia. rewrite Z.mul_assoc in *.
  apply Z.mul_le_mono_nonneg_r; [lia|]. apply Z.le_succ_l, Z.div_lt_upper_bound; lia.
Qed.

Lemma block_end_multiple e v : 0 <= e <= 64 -> block_end e v `mod` block e = 0.
Proof. intros. apply Z.mod_mul. pose proof (block_pos e). lia. Qed.

(** The cursor after one expansion: still inside the block of the smaller table,
    or at its end. *)
Lemma expansion_step e0 e1 v :
  0 <= e0 <= e1 -> e1 <= 64 ->
  let v1 := cursor_next v (Z.ones e1) in
  if Z.land v1 (Z.lxor (Z.ones e0) (Z.ones e1)) =? 0
  then block_end e1 v = block_end e0 v
  else rev v1 = block_end e1 v /\ block_end e0 v1 = block_end e0 v.
Proof.
  intros H0 H1 v1. destruct (cursor_next_spec e1 v ltac:(lia)) as [Hr _]. fold v1 in Hr.
  pose proof (block_end_bounds e1 v ltac:(lia)) as [[Hb1 _] Hb1'].
  pose proof (block_end_bounds e0 v ltac:(lia)) as [[Hb0 _] Hb0'].
  pose proof (block_end_le e0 e1 v H0 H1) as Hle. pose proof (rev_range v) as [Hv _].
  pose proof (block_pos e0 ltac:(lia)) as Hp0.
  assert (forall e, 0 <= e <= 64 ->
    (block_end e1 v `mod` 2 ^ 64) `mod` block e = block_end e1 v `mod` block e) as Hmm.
  { intros e He. apply Z.mod_mod_divide. exists (2 ^ e). by rewrite block_total. }
  assert (rev v1 `mod` block e1 = 0) as Hm1 by (rewrite Hr, Hmm by lia; apply block_end_multiple; lia).
  pose proof (expansion_test e0 e1 v1 H0 H1 Hm1) as Ht. rewrite Hr, Hmm in Ht by lia.
  set (B := block_end e1 v) in *.
  pose proof (Z.div_mod B (block e0) ltac:(lia)) as Hd.
  pose proof (Z.mod_pos_bound B (block e0) ltac:(lia)) as Hm.
  pose proof (Z.div_mod (rev v) (block e0) ltac:(lia)) as Hq.
  pose proof (Z.mod_pos_bound (rev v) (block e0) ltac:(lia)) as Hqm.
  destruct (Z.eqb_spec (Z.land v1 (Z.lxor (Z.ones e0) (Z.ones e1))) 0) as [Hz|Hz].
  - apply Ht in Hz. unfold block_end in *. rewrite Hz, Z.add_0_r in Hd.
    assert (rev v / block e0 < B / block e0) by (apply (Z.mul_lt_mono_pos_l (block e0)); lia).
    assert (block e0 * (rev v / block e0 + 1) <= block e0 * (B / block e0))
      by (apply Z.mul_le_mono_nonneg_l; lia). lia.
  - assert (B `mod` block e0 <> 0) as Hn by by rewrite <- Ht.
    assert (B <> block_end e0 v) as Hne by (intros E; apply Hn; rewrite E; apply block_end_multiple; lia).
    assert (rev v1 = B) as Hv1 by (rewrite Hr; apply Z.mod_small; lia).
    split; [done|]. unfold block_end in *. rewrite Hv1. f_equal. f_equal.
    apply Z.le_antisymm; [apply Z.lt_succ_r, Z.div_lt_upper_bound; lia|apply Z.div_le_mono; lia].
Qed.

Lemma scan_expansions_spec fuel h e0 v :
  wf_ht h -> 2 <= e0 <= ht_size_exp h -> ht_size_exp h <= 60 ->
  block_end e0 v - block_end (ht_size_exp h) v < Z.of_nat fuel * block (ht_size_exp h) ->
  exists es v', scan_expansions fuel (ht_table h) (DICTHT_SIZE_MASK e0)
      (DICTHT_SIZE_MASK (ht_size_exp h)) v = Some (es, v') /\
    rev v' = block_end e0 v `mod` 2 ^ 64 /\ in_u 64 v' /\
    (forall k x, (k, x) ∈ flat (ht_table h) -> rev v <= position k < block_end e0 v -> (k, x) ∈ es) /\
    (forall e, e ∈ es -> e ∈ flat (ht_table h)).
Proof.
  intros W H0 H1. revert v. induction fuel as [|fuel IH]; intros v Hf.
  { pose proof (block_end_le e0 (ht_size_exp h) v ltac:(lia) ltac:(lia)). lia. }
  cbn [scan_expansions].
  destruct (bucket_covers h v W ltac:(lia)) as (es & -> & Hc & Hs). mred.
  pose proof (block_end_bounds (ht_size_exp h) v ltac:(lia)) as Hb.
  pose proof (expansion_step e0 (ht_size_exp h) v ltac:(lia) ltac:(lia)) as Hstep.
  destruct (cursor_next_spec (ht_size_exp h) v ltac:(lia)) as [Hr Hu]. cbv zeta in Hstep.
  rewrite !DICTHT_MASK_ones in * by lia.
  set (v1 := cursor_next v (Z.ones (ht_size_exp h))) in *.
  destruct (Z.land v1 _ =? 0).
  - exists es, v1. rewrite <- Hstep. auto.
  - destruct Hstep as [Hv1 He]. destruct (IH v1) as (es' & v' & -> & Hr' & Hu' & Hc' & Hs').
    { rewrite He. assert (block_end (ht_size_exp h) v1 = block_end (ht_size_exp h) v + block (ht_size_exp h)); [|lia].
      unfold block_end at 1. rewrite Hv1. unfold block_end.
      rewrite Z.div_mul by (pose proof (block_pos (ht_size_exp h)); lia). lia. }
    mred. exists (es ++ es'), v'. split; [done|]. split; [by rewrite Hr', He|]. split; [done|]. split.
    + intros k x Hin Hp. apply elem_of_app.
      destruct (decide (position k < rev v1)); [left; apply Hc; [done|lia]|right; apply Hc'; [done|lia]].
    + intros e Hin. apply elem_of_app in Hin as [Hin|Hin]; auto.
Qed.

(** The two tables of a rehashing, the smaller first. *)
Lemma scan_two_tables h0 h1 v :
  wf_ht h0 -> wf_ht h1 -> 2 <= ht_size_exp h0 <= ht_size_exp h1 -> ht_size_exp h1 <= 60 ->
  let m0 := DICTHT_SIZE_MASK (ht_size_exp h0) in
  let m1 := DICTHT_SIZE_MASK (ht_size_exp h1) in
  exists es v', (es ← dictScanDefragBucket (ht_table h0) (Z.land v m0);
     '(es', v) ← scan_expansions (S (length (ht_table h1))) (ht_table h1) m0 m1 v;
     Some (es ++ es', v)) = Some (es, v') /\
    rev v' = block_end (ht_size_exp h0) v `mod` 2 ^ 64 /\ in_u 64 v' /\
    (forall k x, (k, x) ∈ flat (ht_table h0) \/ (k, x) ∈ flat (ht_table h1) ->
       rev v <= position k < block_end (ht_size_exp h0) v -> (k, x) ∈ es) /\
    (forall e, e ∈ es -> e ∈ flat (ht_table h0) \/ e ∈ flat (ht_table h1)).
Proof.
  intros W0 W1 H0 H1 m0 m1.
  destruct (bucket_covers h0 v W0 ltac:(lia)) as (es & Hes & Hc & Hs).
  destruct (scan_expansions_spec (S (length (ht_table h1))) h1 (ht_size_exp h0) v W1)
    as (es' & v' & Hes' & Hr & Hu & Hc' & Hs'); [done|done| |].
  { pose proof (ht_len _ _ W1) as Hl. rewrite DICTHT_SIZE_pow in Hl by lia.
    pose proof (block_end_bounds (ht_size_exp h0) v ltac:(lia)).
    pose proof (block_end_bounds (ht_size_exp h1) v ltac:(lia)).
    pose proof (block_total (ht_size_exp h1) ltac:(lia)). pose proof (block_pos (ht_size_exp h1) ltac:(lia)).
    pose proof (rev_range v) as [? _]. lia. }
  unfold m0, m1. rewrite Hes. mred. rewrite Hes'. mred. exists (es ++ es'), v'.
  split; [done|]. split; [done|]. split; [done|]. split.
  - intros k x [Hin|Hin] Hp; apply elem_of_app; auto.
  - intros e Hin. apply elem_of_app in Hin as [Hin|Hin]; auto.
Qed.

Lemma exp_size_lt e0 e1 :
  2 <= e0 <= 60 -> 2 <= e1 <= 60 -> (DICTHT_SIZE e0 >? DICTHT_SIZE e1) = (e1 <? e0).
Proof.
  intros H0 H1. rewrite !DICTHT_SIZE_pow, Z.gtb_ltb by lia.
  destruct (Z.ltb_spec e1 e0) as [H|H]; [apply Z.ltb_lt|apply Z.ltb_ge];
    [apply Z.pow_lt_mono_r|apply Z.pow_le_mono_r]; lia.
Qed.

Lemma elem_entries d e : e ∈ entries d <-> e ∈ flat (ht_table (ht0 d)) \/ e ∈ flat (ht_table (ht1 d)).
Proof. apply elem_of_app. Qed.

(** The part of [dictScan] for a dict with entries. *)
Lemma dictScan_nonempty d v :
  wf d -> dictSize d <> 0 ->
  exists es v' t, dictScan d v = Some (es, v') /\ 2 <= size_exp d t <= 60 /\
    rev v' = block_end (size_exp d t) v `mod` 2 ^ 64 /\ in_u 64 v' /\
    (forall k x, (k, x) ∈ entries d -> rev v <= position k < block_end (size_exp d t) v -> (k, x) ∈ es) /\
    (forall e, e ∈ es -> e ∈ entries d).
Proof.
  intros W Hz. unfold dictScan. rewrite (proj2 (Z.eqb_neq _ _) Hz).
  pose proof (nonempty_exp type d W Hz) as H0. pose proof (wf_0 _ d W) as W0. pose proof (wf_1 _ d W) as W1.
  destruct (dictIsRehashing d) eqn:Hr; cbn [negb].
  - destruct (wf_rehashing type d W Hr) as (_ & He0 & He1 & _).
    unfold htsize. rewrite exp_size_lt by done. unfold htmask, size_exp in *. dsimpl.
    destruct (Z.ltb_spec (ht_size_exp (ht1 d)) (ht_size_exp (ht0 d))).
    + destruct (scan_two_tables (ht1 d) (ht0 d) v W1 W0 ltac:(lia) ltac:(lia)) as (es & v' & He & Hv & Hu & Hc & Hs).
      exists es, v', true. unfold size_exp. dsimpl. split; [done|]. repeat split; try lia; try done.
      * by apply Hu.
      * by apply Hu.
      * intros k x Hin. apply Hc. apply elem_entries in Hin. tauto.
      * intros e Hin. apply elem_entries. apply Hs in Hin. tauto.
    + destruct (scan_two_tables (ht0 d) (ht1 d) v W0 W1 ltac:(lia) ltac:(lia)) as (es & v' & He & Hv & Hu & Hc & Hs).
      exists es, v', false. unfold size_exp. dsimpl. split; [done|]. repeat split; try lia; try done.
      * by apply Hu.
      * by apply Hu.
      * intros k x Hin. apply Hc. by apply elem_entries in Hin.
      * intros e Hin. apply elem_entries. by apply Hs in Hin.
  - destruct (ht_exp _ _ W0) as [?|He]; [done|].
    destruct (bucket_covers (ht0 d) v W0 He) as (es & Hes & Hc & Hs).
    destruct (cursor_next_spec (ht_size_exp (ht0 d)) v ltac:(lia)) as [Hv Hu].
    unfold htmask, size_exp. dsimpl. rewrite Hes. mred. rewrite DICTHT_MASK_ones by lia.
    exists es, (cursor_next v (Z.ones (ht_size_exp (ht0 d)))), false. dsimpl.
    assert (forall e, e ∈ entries d <-> e ∈ flat (ht_table (ht0 d))) as Hin.
    { intros e. rewrite elem_entries, (wf_not_rehashing type d W Hr). split; [|by left].
      intros [?|Hn]; [done|by apply not_elem_of_nil in Hn]. }
    split; [done|]. split; [done|]. split; [done|]. split; [done|]. split.
    + intros k x Hk. apply Hc. by apply Hin.
    + intros e Hk. apply Hin. by apply Hs.
Qed.

(** One call covers the positions from that of the cursor to that of the next. *)
Lemma dictScan_spec d v :
  wf d -> exists es v' E, dictScan d v = Some (es, v') /\
    rev v < E <= 2 ^ 64 /\ rev v' = E `mod` 2 ^ 64 /\ in_u 64 v' /\
    (E = 2 ^ 64 \/ exists t, E = block_end (size_exp d t) v /\ 2 <= size_exp d t <= 60) /\
    (forall k x, (k, x) ∈ entries d -> rev v <= position k < E -> (k, x) ∈ es) /\
    (forall e, e ∈ es -> e ∈ entries d).
Proof.
  intros W. destruct (Z.eqb_spec (dictSize d) 0) as [Hz|Hz].
  - exists [], 0, (2 ^ 64). unfold dictScan. rewrite Hz. pose proof (rev_range v) as [_ Hv].
    rewrite (dictSize_spec type d W) in Hz.
    assert (entries d = []) as -> by (apply length_zero_iff_nil; lia).
    split; [done|]. split; [lia|]. split; [done|]. split; [done|]. split; [by left|]. split; [|done].
    intros k x Hin. by apply not_elem_of_nil in Hin.
  - destruct (dictScan_nonempty d v W Hz) as (es & v' & t & -> & He & Hv & Hu & Hc & Hs).
    exists es, v', (block_end (size_exp d t) v).
    pose proof (block_end_bounds (size_exp d t) v ltac:(lia)).
    split; [done|]. split; [lia|]. split; [done|]. split; [done|]. split; [right; eauto|]. done.
Qed.

(** An iteration: the dicts at the calls of [dictScan], whatever happened to them
    in between, from a cursor until the cursor returned is 0. *)
Inductive scan_run : Z -> list (K * V) -> list (dict K V) -> Prop :=
| scan_last d v es :
    wf d -> dictScan d v = Some (es, 0) -> scan_run v es [d]
| scan_more d v es v' es' ds :
    wf d -> dictScan d v = Some (es, v') -> v' <> 0 -> scan_run v' es' ds ->
    scan_run v (es ++ es') (d :: ds).

Lemma scan_run_covers v es ds k :
  scan_run v es ds -> rev v <= position k ->
  (forall d, d ∈ ds -> exists x, (k, x) ∈ entries d) -> exists x, (k, x) ∈ es.
Proof.
  induction 1 as [d v es W Hs|d v es v' es' ds W Hs Hne Hrun IH]; intros Hp Hin.
  - destruct (dictScan_spec d v W) as (es1 & v1 & E & Hs1 & HE & Hr & Hu & _ & Hc & _).
    simplify_eq. destruct (Hin d) as [x Hx]; [by left|]. exists x. apply Hc; [done|].
    pose proof (rev_range (hash k)) as [_ Hk]. split; [done|].
    assert (E = 2 ^ 64) as ->; [|exact Hk]. rewrite rev_0 in Hr.
    pose proof (rev_range v) as [Hv _].
    destruct (decide (E = 2 ^ 64)); [done|]. rewrite Z.mod_small in Hr; lia.
  - destruct (dictScan_spec d v W) as (es1 & v1 & E & Hs1 & HE & Hr & Hu & _ & Hc & _).
    simplify_eq. destruct (decide (position k < E)) as [Hlt|Hge].
    + destruct (Hin d) as [x Hx]; [by left|]. exists x. apply elem_of_app. left. by apply Hc.
    + destruct IH as [x Hx].
      * pose proof (rev_range (hash k)) as [_ Hk]. unfold position in *.
        pose proof (rev_range v) as [Hv _]. rewrite Hr, Z.mod_small; lia.
      * intros d' Hd'. apply Hin. by right.
      * exists x. apply elem_of_app. by right.
Qed.

(** The blocks of the dicts with at most 2^e buckets in a table bound the length
    of an iteration. *)
Lemma scan_run_exists (f : nat -> dict K V) e n v :
  2 <= e <= 60 -> (forall i, wf (f i) /\ forall t, size_exp (f i) t <= e) ->
  rev v `mod` block e = 0 -> 2 ^ 64 - rev v <= Z.of_nat n * block e ->
  forall s, exists m es, scan_run v es (f <$> seq s m) /\ (m <= n)%nat.
Proof.
  intros He Hf. revert v. induction n as [|n IH]; intros v Hm Hn s.
  { pose proof (rev_range v) as [_ Hv]. lia. }
  destruct (Hf s) as [W Hle].
  destruct (dictScan_spec (f s) v W) as (es & v' & E & Hs & HE & Hr & Hu & Ht & _).
  destruct (decide (v' = 0)) as [->|Hne].
  { exists 1%nat, es. split; [by apply scan_last|lia]. }
  pose proof (rev_range v) as [Hv _]. pose proof (block_pos e ltac:(lia)) as Hp.
  assert (E <> 2 ^ 64) as HEn.
  { intros ->. apply Hne. rewrite <- (rev_involutive v' Hu), Hr. done. }
  rewrite Z.mod_small in Hr by lia.
  destruct Ht as [?|(t & Ht & Hte)]; [done|]. specialize (Hle t).
  assert (E `mod` block e = 0) as HEm.
  { rewrite Ht. unfold block_end. rewrite (block_divides (size_exp (f s) t) e), Z.mul_assoc by lia.
    apply Z.mod_mul. lia. }
  assert (rev v + block e <= E) as Hadv.
  { pose proof (Z.div_mod E (block e) ltac:(lia)). pose proof (Z.div_mod (rev v) (block e) ltac:(lia)).
    assert (rev v / block e < E / block e) by (apply (Z.mul_lt_mono_pos_l (block e)); lia).
    assert (block e * (rev v / block e + 1) <= block e * (E / block e))
      by (apply Z.mul_le_mono_nonneg_l; lia). lia. }
  destruct (IH v' ltac:(by rewrite Hr) ltac:(rewrite Hr; lia) (S s)) as (m & es' & Hrun & Hmn).
  exists (S m), (es ++ es'). split; [|lia]. cbn [seq fmap list_fmap].
  by eapply scan_more.
Qed.

Lemma scan_run_wf v es ds d : scan_run v es ds -> d ∈ ds -> wf d.
Proof.
  induction 1; rewrite elem_of_cons; [|naive_solver].
  intros [->|Hn]; [done|by apply not_elem_of_nil in Hn].
Qed.

Lemma scan_run_sound v es ds e : scan_run v es ds -> e ∈ es -> exists d, d ∈ ds /\ e ∈ entries d.
Proof.
  induction 1 as [d v es W Hs|d v es v' es' ds W Hs Hne Hrun IH]; intros Hin;
    destruct (dictScan_spec d v W) as (es1 & v1 & E & Hs1 & _ & _ & _ & _ & _ & Hsound);
    simplify_eq.
  - exists d. split; [left|by apply Hsound].
  - apply elem_of_app in Hin as [Hin|Hin].
    + exists d. split; [left|by apply Hsound].
    + destruct (IH Hin) as (d' & Hd' & He). exists d'. split; [by right|done].
Qed.
End scanning.

Section claims.
Context {K V : Type} `{Countable K}.
Context (type : dictType K).
Implicit Types (d : dict K V) (k : K).

(** C28: the guarantee of [SCAN]: whatever is done to the dict between the calls
    (insertions, deletions, steps of rehashing, growing and shrinking), a full
    iteration, from cursor 0 until the cursor 0 is returned, gives the callback
    every key that is present at all the calls; and it gives it only entries that
    are in the dict at one of them. *)
Theorem dictScan_complete es ds k :
  scan_run type 0 es ds ->
  ((forall d, d ∈ ds -> is_Some (dict_map d !! k)) -> k ∈ es.*1) /\
  (forall x, (k, x) ∈ es -> exists d, d ∈ ds /\ dict_map d !! k = Some x).
Proof.
  intros Hrun. split.
  - intros Hin. destruct (scan_run_covers type 0 es ds k Hrun) as [x Hx].
    + rewrite rev_0. apply rev_range.
    + intros d Hd. destruct (Hin d Hd) as [x Hx]. exists x.
      apply (dict_map_Some type); [by eapply scan_run_wf|done].
    + apply list_elem_of_fmap. by exists (k, x).
  - intros x Hx. destruct (scan_run_sound type _ _ _ _ Hrun Hx) as (d & Hd & He).
    exists d. split; [done|]. apply (dict_map_Some type); [by eapply scan_run_wf|done].
Qed.

(** C29: an iteration ends: whatever dicts the calls find, if their tables never have
    more than 2^e buckets the cursor is 0 again after at most 2^e calls. *)
Theorem dictScan_terminates (f : nat -> dict K V) e :
  2 <= e <= 60 ->
  (forall i, wf type (f i) /\ forall t, size_exp (f i) t <= e) ->
  exists n es, scan_run type 0 es (f <$> seq 0 n) /\ Z.of_nat n <= 2 ^ e.
Proof.
  intros He Hf. pose proof (Z.pow_pos_nonneg 2 e).
  destruct (scan_run_exists type f e (Z.to_nat (2 ^ e)) 0 He Hf) with (s := O)
    as (m & es & Hrun & Hm).
  - rewrite rev_0. apply Z.mod_0_l. pose proof (block_pos e). lia.
  - rewrite rev_0. rewrite Z2Nat.id, block_total by lia. lia.
  - exists m, es. split; [done|lia].
Qed.

End claims.

(** ** An iteration over a dict that grows in between *)

Definition sample2 : dict Z Z :=
  default dictCreate
    (foldl (fun od k => d ← od; option_map snd (dictAdd sample_type DICT_RESIZE_ENABLE d k (k * 10)))
           (Some sample) [100; 101; 102; 103; 104; 105; 106; 107]).

Lemma sample2_wf : wf sample_type sample2.
Proof. apply check_wf_sound. vm_compute. reflexivity. Qed.

(** The iteration of at most [n] calls over one dict. *)
Fixpoint scan_all (n : nat) (d : dict Z Z) (v : Z) : option (list (Z * Z) * list (dict Z Z)) :=
  match n with
  | O => None
  | S n =>
    '(es, v') ← dictScan d v;
    if v' =? 0 then Some (es, [d])
    else '(es', ds) ← scan_all n d v'; Some (es ++ es', d :: ds)
  end.

Lemma scan_all_run n d v es ds :
  wf sample_type d -> scan_all n d v = Some (es, ds) -> scan_run sample_type v es ds.
Proof.
  intros W. revert v es ds. induction n as [|n IH]; intros v es ds H; [done|].
  cbn in H. destruct (dictScan d v) as [[es1 v1]|] eqn:Hs; [|done]. cbn in H.
  destruct (Z.eqb_spec v1 0) as [->|Hne]; [simplify_eq; by apply scan_last|].
  destruct (scan_all n d v1) as [[es2 ds2]|] eqn:Ha; [|done]. cbn in H. simplify_eq.
  by eapply scan_more; [| | |apply IH].
Qed.

(** The first call on [sample], the others on [sample2]. *)
Definition sample_es : list (Z * Z) :=
  match dictScan sample 0 with
  | Some (es, v) => es ++ default [] (fst <$> scan_all 64 sample2 v)
  | None => []
  end.

Definition sample_ds : list (dict Z Z) :=
  match dictScan sample 0 with
  | Some (_, v) => sample :: default [] (snd <$> scan_all 64 sample2 v)
  | None => []
  end.

Lemma sample_run : scan_run sample_type 0 sample_es sample_ds.
Proof.
  unfold sample_es, sample_ds. destruct (dictScan sample 0) as [[es v]|] eqn:Hs; [|by vm_compute in Hs].
  assert (v = 4) as -> by (vm_compute in Hs; congruence).
  destruct (scan_all 64 sample2 4) as [[es2 ds2]|] eqn:Ha; [|by vm_compute in Ha].
  eapply scan_more; [apply sample_wf|done|done|].
  by apply (scan_all_run 64 sample2); [apply sample2_wf|].
Qed.

Lemma dictScan_complete_witness :
  (1 < length sample_ds)%nat /\ 17 ∈ sample_es.*1.
Proof.
  split; [vm_compute; lia|].
  apply (dictScan_complete sample_type sample_es sample_ds 17 sample_run).
  intros d Hd.
  assert (forallb (fun d => if dict_map d !! 17 then true else false) sample_ds = true) as Hall
    by (vm_compute; reflexivity).
  rewrite forallb_forall in Hall. apply list_elem_of_In, Hall in Hd.
  destruct (dict_map d !! 17); [by eexists|done].
Defined.

Lemma dictScan_terminates_witness :
  exists n es, scan_run sample_type 0 es ((fun _ => sample) <$> seq 0 n) /\ Z.of_nat n <= 2 ^ 4.
Proof.
  apply (dictScan_terminates sample_type (fun _ => sample) 4); [lia|]. intros _.
  split; [apply sample_wf|]. intros []; vm_compute; congruence.
Defined.

End DictScan.
