(* ===== verification/DictIter.v ===== *)
(** Iterators over a hash table ([dictNext] and its companions in [src/dict.c])
    and the fingerprint that detects the misuse of an unsafe one. *)
From stdpp Require Import base numbers list gmap.
From stdpp Require Import options.
From S2P Require Import Prelude Dict.

Module DictIter.
Import Dict.

Section iterators.
Context {K V : Type}.
Implicit Types (d : dict K V).

(** ** Iterators *)

(** [struct dictIterator]: an entry pointer is the chain from that entry on. *)
Record dictIterator := mk_iter {
  it_index : Z;
  it_table : bool;
  it_safe : bool;
  it_entry : chain K V;
  it_nextEntry : chain K V;
  it_fingerprint : Z
}.

Definition dictInitIterator (safe : bool) : dictIterator := mk_iter (-1) false safe [] [] 0.

(** [dictFingerprint]: the mixing of the six numbers that describe the tables,
    the addresses of the tables being arguments. *)
Definition fingerprint_mix (hash : Z) : Z :=
  let hash := u64 (not64 hash + u64 (Z.shiftl hash 21)) in
  let hash := Z.lxor hash (Z.shiftr hash 24) in
  let hash := u64 (u64 (hash + u64 (Z.shiftl hash 3)) + u64 (Z.shiftl hash 8)) in
  let hash := Z.lxor hash (Z.shiftr hash 14) in
  let hash := u64 (u64 (hash + u64 (Z.shiftl hash 2)) + u64 (Z.shiftl hash 4)) in
  let hash := Z.lxor hash (Z.shiftr hash 28) in
  u64 (hash + u64 (Z.shiftl hash 31)).

(** One round of [for (j = 0; j < 6; j++)]. *)
Definition fingerprint_step (hash i : Z) : Z := fingerprint_mix (u64 (hash + i)).

Definition fingerprint_hash (integers : list Z) : Z := fold_left fingerprint_step integers 0.

Definition fingerprint_integers (addr0 addr1 : Z) d : list Z :=
  [addr0; u64 (ht_size_exp (ht0 d)); ht_used (ht0 d);
   addr1; u64 (ht_size_exp (ht1 d)); ht_used (ht1 d)].

Definition dictFingerprint (addr0 addr1 : Z) d : Z :=
  fingerprint_hash (fingerprint_integers addr0 addr1 d).

Section iter.
(** The addresses of the two tables. *)
Variables addr0 addr1 : Z.

(** [if (iter->index == -1 && iter->table == 0)]: a safe iterator pauses
    rehashing, an unsafe one remembers the fingerprint, and the buckets already
    moved are skipped. *)
Definition iter_start (iter : dictIterator) d : dictIterator * dict K V :=
  if (it_index iter =? -1) && negb (it_table iter) then
    let index := if dictIsRehashing d then rehashidx d - 1 else it_index iter in
    if it_safe iter
    then (mk_iter index (it_table iter) (it_safe iter) (it_entry iter) (it_nextEntry iter)
            (it_fingerprint iter), dictPauseRehashing d)
    else (mk_iter index (it_table iter) (it_safe iter) (it_entry iter) (it_nextEntry iter)
            (dictFingerprint addr0 addr1 d), d)
  else (iter, d).

Definition at_bucket (iter : dictIterator) (index : Z) (table : bool) (entry : chain K V)
    : dictIterator :=
  mk_iter index table (it_safe iter) entry (it_nextEntry iter) (it_fingerprint iter).

(** [iter->index++] and the entry there: whether the loop is left by [break], and
    the iterator at its next bucket. *)
Definition next_bucket (iter : dictIterator) d : option (bool * dictIterator) :=
  let index := it_index iter + 1 in
  if index >=? htsize d (it_table iter) then
    if dictIsRehashing d && negb (it_table iter) then
      e ← tget (ht_table (ht d true)) 0;
      Some (false, at_bucket iter 0 true e)
    else Some (true, at_bucket iter index (it_table iter) [])
  else
    e ← tget (ht_table (ht d (it_table iter))) index;
    Some (false, at_bucket iter index (it_table iter) e).

Fixpoint dictNext_loop (fuel : nat) (iter : dictIterator) d
    : option (option (K * V) * dictIterator * dict K V) :=
  match fuel with
  | O => None
  | S fuel =>
    '(break, iter, d) ←
      match it_entry iter with
      | [] =>
        let '(iter, d) := iter_start iter d in
        '(break, iter) ← next_bucket iter d;
        Some (break, iter, d)
      | _ :: _ =>
        Some (false, at_bucket iter (it_index iter) (it_table iter) (it_nextEntry iter), d)
      end;
    if break : bool then Some (None, iter, d)
    else
      match it_entry iter with
      | [] => dictNext_loop fuel iter d
      | e :: next =>
        Some (Some e,
              mk_iter (it_index iter) (it_table iter) (it_safe iter) (it_entry iter) next
                      (it_fingerprint iter), d)
      end
  end.

(** Every round but those that return enters a new bucket, or leaves the last
    entry of a chain. *)
Definition dictNext (iter : dictIterator) d
    : option (option (K * V) * dictIterator * dict K V) :=
  dictNext_loop (length (ht_table (ht0 d)) + length (ht_table (ht1 d)) + 4) iter d.

Definition dictResetIterator (iter : dictIterator) d : option (dict K V) :=
  if negb ((it_index iter =? -1) && negb (it_table iter)) then
    if it_safe iter then Some (dictResumeRehashing d)
    else
      _ ← cassert (it_fingerprint iter =? dictFingerprint addr0 addr1 d);
      Some d
  else Some d.

End iter.
End iterators.

(** ** Iterating *)

Section iterating.
Context {K V : Type} `{EqDecision K}.
Context (type : dictType K) (addr0 addr1 : Z).
Implicit Types (d : dict K V) (iter : dictIterator (K:=K) (V:=V)).

Abbreviation wf := (wf type).

(** The entries in the buckets behind the iterator's. *)
Definition behind iter d : list (K * V) :=
  flat (drop (Z.to_nat (it_index iter + 1)) (ht_table (ht d (it_table iter)))) ++
  if it_table iter then [] else flat (ht_table (ht1 d)).

Definition started iter : Prop := 0 <= it_index iter.

(** The rounds the loop takes at most. *)
Definition rounds iter d : Z :=
  Z.max 0 (htsize d (it_table iter) - it_index iter) +
  if it_table iter then 0 else 1 + htsize d true.

Lemma flat_drop_step (t : list (chain K V)) i b :
  tget t i = Some b -> flat (drop (Z.to_nat i) t) = b ++ flat (drop (Z.to_nat (i + 1)) t).
Proof.
  intros H. pose proof (tget_Some _ _ _ H). unfold tget in H. case_match; [|done].
  rewrite (drop_S t b (Z.to_nat i)) by done. rewrite flat_cons. do 3 f_equal. lia.
Qed.

Lemma next_bucket_spec iter d :
  wf d -> -1 <= it_index iter ->
  exists stop iter', next_bucket iter d = Some (stop, iter') /\ started iter' /\
    it_safe iter' = it_safe iter /\ it_fingerprint iter' = it_fingerprint iter /\
    if stop : bool then behind iter d = [] /\ it_entry iter' = []
    else it_entry iter' ++ behind iter' d = behind iter d /\ rounds iter' d < rounds iter d.
Proof.
  intros W Hi. unfold next_bucket, started.
  pose proof (ht_len _ _ (wf_ht_at type d (it_table iter) W)) as Hl.
  fold (size_exp d (it_table iter)) in Hl. fold (htsize d (it_table iter)) in Hl.
  pose proof (wf_htsize type d true W). rewrite Z.geb_leb.
  destruct (Z.leb_spec (htsize d (it_table iter)) (it_index iter + 1)) as [Hge|Hlt].
  - assert (drop (Z.to_nat (it_index iter + 1)) (ht_table (ht d (it_table iter))) = []) as Hd
      by (apply drop_ge; lia).
    destruct (dictIsRehashing d && negb (it_table iter)) eqn:Hr.
    + bools. destruct (wf_rehashing type d W) as (_ & _ & He & _); [done|].
      pose proof (ht_len _ _ (wf_1 _ d W)) as Hl1. pose proof (exp_size_pos _ He).
      destruct (tget_is_Some (ht_table (ht d true)) 0) as [e Hg]; [unfold size_exp in *; dsimpl; lia|].
      rewrite Hg. mred. eexists false, _. split; [done|]. cbn [at_bucket it_index it_safe it_fingerprint].
      repeat (split; [done|]). unfold behind, rounds. cbn [at_bucket it_index it_table it_entry].
      rewrite Hd. pose proof (flat_drop_step _ _ _ Hg) as Hf. rewrite H1, app_nil_r. dsimpl.
      split; [by rewrite <- Hf|]. unfold htsize, size_exp in *. dsimpl. lia.
    + eexists true, _. split; [done|]. cbn [at_bucket it_index it_safe it_fingerprint it_entry].
      split; [lia|]. repeat (split; [done|]). split; [|done]. unfold behind. rewrite Hd.
      destruct (it_table iter); [done|]. rewrite andb_true_r in Hr.
      by rewrite (wf_not_rehashing type d W Hr).
  - destruct (tget_is_Some (ht_table (ht d (it_table iter))) (it_index iter + 1)) as [e Hg]; [lia|].
    rewrite Hg. mred. eexists false, _. split; [done|]. cbn [at_bucket it_index it_safe it_fingerprint].
    split; [lia|]. repeat (split; [done|]). unfold behind, rounds. cbn [at_bucket it_index it_table it_entry].
    rewrite (flat_drop_step _ _ _ Hg), <- (assoc_L (++)). split; [done|]. lia.
Qed.


(** The iterator is on an entry, with [l] still to come. *)
Record on_entry iter d (l : list (K * V)) : Prop := {
  oe_started : started iter;
  oe_entry : it_entry iter <> [];
  oe_rest : it_nextEntry iter ++ behind iter d = l
}.

(** What a call returns, and the iterator it leaves. *)
Definition returns (r : option (K * V)) iter iter' d (l : list (K * V)) : Prop :=
  started iter' /\ it_safe iter' = it_safe iter /\ it_fingerprint iter' = it_fingerprint iter /\
  match l with
  | [] => r = None
  | e :: l => r = Some e /\ on_entry iter' d l
  end.

Lemma advance_spec fuel iter d :
  wf d -> started iter -> it_entry iter = [] -> rounds iter d < Z.of_nat fuel ->
  exists r iter', dictNext_loop addr0 addr1 fuel iter d = Some (r, iter', d) /\
    returns r iter iter' d (behind iter d).
Proof.
  revert iter. induction fuel as [|fuel IH]; intros iter W Hst He Hf.
  { unfold rounds in Hf. pose proof (wf_htsize type d true W). destruct (it_table iter); lia. }
  cbn [dictNext_loop]. rewrite He. unfold iter_start, started in *.
  rewrite (proj2 (Z.eqb_neq _ _)) by lia. cbn [andb].
  destruct (next_bucket_spec iter d W ltac:(lia)) as (stop & iter' & -> & Hst' & Hs & Hfp & Hres). mred.
  destruct stop; [|destruct Hres as [Hb Hr]].
  { destruct Hres as [-> _]. exists None, iter'. by repeat split. }
  destruct (it_entry iter') as [|e next] eqn:He'.
  - destruct (IH iter' W Hst' He' ltac:(lia)) as (r & iter2 & -> & H1 & H2 & H3 & H4).
    rewrite app_nil_l in Hb. rewrite Hb in H4. exists r, iter2. split; [done|].
    split; [done|]. split; [congruence|]. split; [congruence|done].
  - rewrite <- Hb. eexists _, _. split; [done|]. split; [done|]. split; [done|]. split; [done|].
    split; [done|]. constructor; [done|by cbn|done].
Qed.

Lemma rounds_bound iter d :
  wf d -> -1 <= it_index iter ->
  rounds iter d <= Z.of_nat (length (ht_table (ht0 d)) + length (ht_table (ht1 d))) + 2.
Proof.
  intros W Hi. pose proof (ht_len _ _ (wf_0 _ d W)). pose proof (ht_len _ _ (wf_1 _ d W)).
  unfold rounds, htsize, size_exp. destruct (it_table iter); dsimpl; lia.
Qed.

Lemma dictNext_on_entry iter d l :
  wf d -> on_entry iter d l ->
  exists r iter', dictNext addr0 addr1 iter d = Some (r, iter', d) /\ returns r iter iter' d l.
Proof.
  intros W [Hst He Hl]. unfold dictNext.
  replace (length _ + length _ + 4)%nat
    with (S (length (ht_table (ht0 d)) + length (ht_table (ht1 d)) + 3)) by lia.
  cbn [dictNext_loop]. destruct (it_entry iter) as [|e0 c] eqn:He0; [done|]. mred.
  set (iter1 := at_bucket iter (it_index iter) (it_table iter) (it_nextEntry iter)).
  change (it_entry iter1) with (it_nextEntry iter).
  assert (behind iter1 d = behind iter d) as Hb by done.
  destruct (it_nextEntry iter) as [|e next] eqn:Hn.
  - rewrite app_nil_l in Hl. unfold started in Hst.
    destruct (advance_spec (length (ht_table (ht0 d)) + length (ht_table (ht1 d)) + 3) iter1 d W Hst)
      as (r & iter2 & H1 & H2); [cbn; congruence| |].
    { pose proof (rounds_bound iter1 d W ltac:(cbn; lia)). lia. }
    rewrite H1. exists r, iter2. split; [done|]. rewrite <- Hl, <- Hb. exact H2.
  - subst l. eexists _, _. split; [done|]. split; [done|]. split; [done|]. split; [done|].
    split; [done|]. constructor; [done|by cbn|done].
Qed.

(** [while ((de = dictNext(iter)) != NULL)] *)
Fixpoint dict_iterate (fuel : nat) iter d
    : option (list (K * V) * dictIterator * dict K V) :=
  match fuel with
  | O => None
  | S fuel =>
    '(r, iter, d) ← dictNext addr0 addr1 iter d;
    match r with
    | None => Some ([], iter, d)
    | Some e => '(es, iter, d) ← dict_iterate fuel iter d; Some (e :: es, iter, d)
    end
  end.

Lemma dict_iterate_on_entry l fuel iter d :
  wf d -> on_entry iter d l -> (length l < fuel)%nat ->
  exists iter', dict_iterate fuel iter d = Some (l, iter', d) /\ started iter' /\
    it_safe iter' = it_safe iter /\ it_fingerprint iter' = it_fingerprint iter.
Proof.
  revert fuel iter. induction l as [|e l IH]; intros fuel iter W Ho Hf;
    (destruct fuel as [|fuel]; [lia|]); cbn [dict_iterate];
    destruct (dictNext_on_entry iter d _ W Ho) as (r & iter1 & -> & H1 & H2 & H3 & H4); mred.
  - subst r. by exists iter1.
  - destruct H4 as [-> Ho1]. cbn in Hf.
    destruct (IH fuel iter1 W Ho1 ltac:(lia)) as (iter' & -> & ? & ? & ?). mred.
    exists iter'. split; [done|]. split; [done|]. split; congruence.
Qed.

(** Nothing is left in the buckets below [rehashidx]. *)
Lemma moved_prefix d :
  wf d -> dictIsRehashing d = true ->
  flat (take (Z.to_nat (rehashidx d)) (ht_table (ht0 d))) = [].
Proof.
  intros W Hr. destruct (wf_rehashing type d W Hr) as (Hx & _ & _ & Hm).
  destruct (flat _) as [|e l] eqn:E; [done|exfalso].
  assert (e ∈ flat (take (Z.to_nat (rehashidx d)) (ht_table (ht0 d)))) as Hin by (rewrite E; left).
  apply elem_of_table in Hin as (i & b & Hg & Hin). unfold tget in Hg. case_match eqn:Hi; [|done].
  bools. apply lookup_take_Some in Hg as [Hg Hlt].
  specialize (Hm i ltac:(lia)). unfold tget in Hm. rewrite (proj2 (Z.leb_le _ _) Hi), Hg in Hm.
  simplify_eq. by apply not_elem_of_nil in Hin.
Qed.

(** The iterator and the dict after the start. *)
Definition start_iter safe d : dictIterator :=
  mk_iter (if dictIsRehashing d then rehashidx d - 1 else -1) false safe ([] : list (K * V)) []
    (if safe then 0 else dictFingerprint addr0 addr1 d).

Definition start_dict (safe : bool) d : dict K V := if safe then dictPauseRehashing d else d.

Lemma start_dict_wf safe d : wf d -> wf (start_dict safe d).
Proof. intros W. destruct safe; [by apply wf_set_pauserehash|done]. Qed.

Lemma behind_start safe d : wf d -> behind (start_iter safe d) (start_dict safe d) = entries d.
Proof.
  intros W. unfold behind, start_iter, entries. cbn [it_table it_index].
  replace (ht_table (ht (start_dict safe d) false)) with (ht_table (ht0 d)) by (by destruct safe).
  replace (ht1 (start_dict safe d)) with (ht1 d) by (by destruct safe). f_equal.
  destruct (dictIsRehashing d) eqn:Hr; [|done].
  rewrite Z.sub_add.
  assert (forall t n, flat (take n t) = [] -> flat (drop n t) = flat t :> list (K * V)) as Hfd.
  { intros t n Hn. rewrite <- (take_drop n t) at 2. by rewrite flat_app, Hn. }
  by apply Hfd, moved_prefix.
Qed.

(** The first call. *)
Lemma dictNext_init safe d :
  wf d -> exists r iter', dictNext addr0 addr1 (dictInitIterator safe) d = Some (r, iter', start_dict safe d) /\
    returns r (start_iter safe d) iter' (start_dict safe d) (entries d).
Proof.
  intros W. pose proof (start_dict_wf safe d W) as W1.
  assert (iter_start addr0 addr1 (dictInitIterator safe) d = (start_iter safe d, start_dict safe d))
    as Hst by (by destruct safe).
  assert (-1 <= it_index (start_iter safe d)) as Hi.
  { cbn. destruct (dictIsRehashing d) eqn:Hr; [|lia]. pose proof (wf_rehashing type d W Hr). lia. }
  unfold dictNext. replace (length _ + length _ + 4)%nat
    with (S (length (ht_table (ht0 d)) + length (ht_table (ht1 d)) + 3)) by lia.
  cbn [dictNext_loop]. change (it_entry (dictInitIterator safe)) with (@nil (K * V)). cbv iota.
  rewrite Hst, <- (behind_start safe d W).
  pose proof (rounds_bound _ _ W1 Hi) as Hrb.
  assert (length (ht_table (ht0 (start_dict safe d))) = length (ht_table (ht0 d)) /\
          length (ht_table (ht1 (start_dict safe d))) = length (ht_table (ht1 d))) as [El0 El1]
    by (by destruct safe).
  destruct (next_bucket_spec (start_iter safe d) (start_dict safe d) W1 Hi)
    as (stop & iter' & -> & Hst' & Hs & Hfp & Hres).
  mred. destruct stop; [|destruct Hres as [Hb Hr]].
  { destruct Hres as [-> _]. exists None, iter'. by repeat split. }
  destruct (it_entry iter') as [|e next] eqn:He'.
  - destruct (advance_spec (length (ht_table (ht0 d)) + length (ht_table (ht1 d)) + 3) iter'
      (start_dict safe d) W1 Hst' He' ltac:(lia)) as (r & iter2 & -> & H1 & H2 & H3 & H4).
    rewrite app_nil_l in Hb. rewrite Hb in H4. exists r, iter2. split; [done|].
    split; [done|]. split; [congruence|]. split; [congruence|done].
  - rewrite <- Hb. eexists _, _. split; [done|]. split; [done|]. split; [done|]. split; [done|].
    split; [done|]. constructor; [done|by cbn|done].
Qed.

Lemma dict_iterate_spec safe d :
  wf d -> exists iter', dict_iterate (S (length (entries d))) (dictInitIterator safe) d =
      Some (entries d, iter', start_dict safe d) /\
    started iter' /\ it_safe iter' = safe /\
    it_fingerprint iter' = if safe then 0 else dictFingerprint addr0 addr1 d.
Proof.
  intros W. destruct (dictNext_init safe d W) as (r & iter1 & Hn & H1 & H2 & H3 & H4).
  cbn [dict_iterate]. rewrite Hn. mred. destruct (entries d) as [|e l] eqn:E.
  - subst r. by exists iter1.
  - destruct H4 as [-> Ho]. cbn [length].
    destruct (dict_iterate_on_entry l (S (length l)) iter1 _ (start_dict_wf safe d W) Ho ltac:(lia))
      as (iter' & -> & ? & ? & ?). mred. exists iter'. split; [done|]. split; [done|].
    split; [by rewrite H0|by rewrite H4].
Qed.

(** C30: an iterator, safe or not, started on a well-formed dict, in the middle of a
    rehashing or not, returns each entry of the dict exactly once, in the order of
    the tables, and then [NULL]; resetting it undoes the pause of a safe iterator
    and passes the fingerprint check of an unsafe one. *)
Theorem dictNext_enumerates safe d :
  wf d -> in_u 32 (pauserehash d) ->
  exists iter' d', dict_iterate (S (length (entries d))) (dictInitIterator safe) d =
      Some (entries d, iter', d') /\
    pauserehash d' = (if safe : bool then u32 (pauserehash d + 1) else pauserehash d) /\
    dictResetIterator addr0 addr1 iter' d' = Some d.
Proof.
  intros W Hp. destruct (dict_iterate_spec safe d W) as (iter' & -> & Hst & Hs & Hf).
  exists iter', (start_dict safe d). split; [done|]. split; [by destruct safe|].
  unfold dictResetIterator, started in *. rewrite (proj2 (Z.eqb_neq _ _)) by lia. cbn [andb negb].
  rewrite Hs. destruct safe; cbn [start_dict].
  - unfold dictResumeRehashing, dictPauseRehashing. dsimpl. rewrite wrapu_inc_dec by done.
    unfold set_pauserehash. dsimpl. by destruct d.
  - rewrite Hf, Z.eqb_refl. done.
Qed.

End iterating.

(** ** The fingerprint *)

(** Multiplication by an odd number and exclusive or with a right shift are
    injective on 64-bit integers. *)
Lemma mul_inj a b c x y :
  (a * b) `mod` 2 ^ 64 = 1 -> in_u 64 x -> in_u 64 y ->
  (a * x + c) `mod` 2 ^ 64 = (a * y + c) `mod` 2 ^ 64 -> x = y.
Proof.
  intros Hab Hx Hy H.
  assert ((b * (a * x + c) - b * c) `mod` 2 ^ 64 = (b * (a * y + c) - b * c) `mod` 2 ^ 64) as E.
  { rewrite Zminus_mod, (Zminus_mod (b * (a * y + c))).
    by rewrite (Z.mul_mod b (a * x + c)), (Z.mul_mod b (a * y + c)), H by lia. }
  replace (b * (a * x + c) - b * c) with (a * b * x) in E by lia.
  replace (b * (a * y + c) - b * c) with (a * b * y) in E by lia.
  rewrite (Z.mul_mod (a * b) x), (Z.mul_mod (a * b) y), Hab, !Z.mul_1_l, !Z.mod_mod in E by lia.
  unfold in_u in *. by rewrite !Z.mod_small in E by lia.
Qed.

Lemma xorshift_inj k x y :
  0 < k -> 0 <= x -> 0 <= y ->
  Z.lxor x (Z.shiftr x k) = Z.lxor y (Z.shiftr y k) -> x = y.
Proof.
  intros Hk Hx Hy H. apply Z.lxor_eq. set (z := Z.lxor x y).
  assert (z = Z.shiftr z k) as E.
  { unfold z. rewrite Z.shiftr_lxor. apply Z.lxor_eq.
    transitivity (Z.lxor (Z.lxor x (Z.shiftr x k)) (Z.lxor y (Z.shiftr y k))).
    - apply Z.bits_inj'. intros n Hn. rewrite !Z.lxor_spec.
      by destruct (Z.testbit x n), (Z.testbit y n), (Z.testbit (Z.shiftr x k) n), (Z.testbit (Z.shiftr y k) n).
    - rewrite H. apply Z.lxor_nilpotent. }
  assert (0 <= z) as Hz by (apply Z.lxor_nonneg; lia).
  rewrite Z.shiftr_div_pow2 in E by lia. destruct (decide (z = 0)); [done|].
  pose proof (Z.div_lt z (2 ^ k) ltac:(lia)) as Hl.
  assert (1 < 2 ^ k) by (apply Z.pow_gt_1; lia). lia.
Qed.

(** The rounds of the mixing. *)
Definition mul_round (a c h : Z) : Z := (a * h + c) `mod` 2 ^ 64.
Definition shift_round (k h : Z) : Z := Z.lxor h (Z.shiftr h k).

Lemma mul_round_not k h :
  0 <= k -> u64 (not64 h + u64 (Z.shiftl h k)) = mul_round (2 ^ k - 1) (-1) h.
Proof.
  intros. unfold not64, mul_round, wrapu, Z.lnot. rewrite <- Z.add_mod, Z.shiftl_mul_pow2 by lia.
  f_equal. lia.
Qed.

Lemma mul_round_two k l h :
  0 <= k -> 0 <= l ->
  u64 (u64 (h + u64 (Z.shiftl h k)) + u64 (Z.shiftl h l)) = mul_round (1 + 2 ^ k + 2 ^ l) 0 h.
Proof.
  intros. unfold mul_round, wrapu. rewrite <- Z.add_mod, <- Z.add_assoc, Z.add_comm, <- Z.add_assoc by lia.
  rewrite Zplus_mod_idemp_l, !Z.shiftl_mul_pow2 by lia. f_equal. lia.
Qed.

Lemma mul_round_one k h :
  0 <= k -> u64 (h + u64 (Z.shiftl h k)) = mul_round (1 + 2 ^ k) 0 h.
Proof.
  intros. unfold mul_round, wrapu. rewrite Zplus_mod_idemp_r, Z.shiftl_mul_pow2 by lia.
  f_equal. lia.
Qed.

Lemma fingerprint_mix_rounds h :
  fingerprint_mix h =
    mul_round (1 + 2 ^ 31) 0 (shift_round 28 (mul_round (1 + 2 ^ 2 + 2 ^ 4) 0 (shift_round 14
      (mul_round (1 + 2 ^ 3 + 2 ^ 8) 0 (shift_round 24 (mul_round (2 ^ 21 - 1) (-1) h)))))).
Proof.
  unfold fingerprint_mix. cbv zeta. rewrite mul_round_not by lia.
  fold (shift_round 24 (mul_round (2 ^ 21 - 1) (-1) h)). rewrite (mul_round_two 3 8) by lia.
  set (h3 := mul_round (1 + 2 ^ 3 + 2 ^ 8) 0 _). fold (shift_round 14 h3).
  rewrite (mul_round_two 2 4) by lia. set (h5 := mul_round (1 + 2 ^ 2 + 2 ^ 4) 0 _).
  fold (shift_round 28 h5). by rewrite mul_round_one.
Qed.

Lemma mul_round_range a c h : in_u 64 (mul_round a c h).
Proof. apply (in_u_wrapu 64). lia. Qed.

Lemma shift_round_range k h : 0 <= k -> in_u 64 h -> in_u 64 (shift_round k h).
Proof.
  intros Hk Hh. pose proof Hh as [H0 H1]. unfold shift_round.
  assert (0 <= Z.lxor h (Z.shiftr h k)) by (apply Z.lxor_nonneg; rewrite Z.shiftr_nonneg; lia).
  split; [done|]. destruct (decide (Z.lxor h (Z.shiftr h k) = 0)) as [->|]; [lia|].
  apply Z.log2_lt_pow2; [lia|].
  eapply Z.le_lt_trans; [apply Z.log2_lxor; [done|by rewrite Z.shiftr_nonneg]|].
  pose proof (Z.log2_le_mono h (2 ^ 64 - 1)). rewrite Z.shiftr_div_pow2 by done.
  assert (h / 2 ^ k <= h) by (apply Z.div_le_upper_bound; [lia|]; nia).
  pose proof (Z.log2_le_mono (h / 2 ^ k) h). change (Z.log2 (2 ^ 64 - 1)) with 63 in *. lia.
Qed.

Lemma mul_round_inj a b c x y :
  (a * b) `mod` 2 ^ 64 = 1 -> in_u 64 x -> in_u 64 y -> mul_round a c x = mul_round a c y -> x = y.
Proof. apply mul_inj. Qed.

Lemma shift_round_inj k x y :
  0 < k -> in_u 64 x -> in_u 64 y -> shift_round k x = shift_round k y -> x = y.
Proof. intros Hk [Hx _] [Hy _]. by apply xorshift_inj. Qed.

#[local] Opaque mul_round shift_round.

Lemma fingerprint_mix_inj x y :
  in_u 64 x -> in_u 64 y -> fingerprint_mix x = fingerprint_mix y -> x = y.
Proof.
  intros Hx Hy. rewrite !fingerprint_mix_rounds. intros H.
  pose proof mul_round_range as Hm.
  assert (forall k a c h, 0 <= k -> in_u 64 (shift_round k (mul_round a c h))) as Hs
    by (intros; by apply shift_round_range).
  apply (mul_round_inj _ 4611686016279904257) in H; [|reflexivity|apply Hs; lia|apply Hs; lia].
  apply shift_round_inj in H; [|lia|apply Hm|apply Hm].
  apply (mul_round_inj _ 14933078535860113213) in H; [|reflexivity|apply Hs; lia|apply Hs; lia].
  apply shift_round_inj in H; [|lia|apply Hm|apply Hm].
  apply (mul_round_inj _ 15244667743933553977) in H; [|reflexivity|apply Hs; lia|apply Hs; lia].
  apply shift_round_inj in H; [|lia|apply Hm|apply Hm].
  by apply (mul_round_inj _ 9223367638806167551) in H.
Qed.

Lemma fingerprint_mix_range x : in_u 64 (fingerprint_mix x).
Proof. rewrite fingerprint_mix_rounds. apply mul_round_range. Qed.

Lemma u64_add_inj x y i : in_u 64 x -> in_u 64 y -> u64 (x + i) = u64 (y + i) -> x = y.
Proof. intros Hx Hy H. apply (mul_inj 1 1 i x y); [done..|]. by rewrite !Z.mul_1_l. Qed.

Lemma fingerprint_step_range h i : in_u 64 (fingerprint_step h i).
Proof. apply fingerprint_mix_range. Qed.

Lemma fingerprint_step_inj_l x y i :
  in_u 64 x -> in_u 64 y -> fingerprint_step x i = fingerprint_step y i -> x = y.
Proof.
  unfold fingerprint_step. intros Hx Hy H. apply (u64_add_inj x y i Hx Hy).
  apply fingerprint_mix_inj; [apply in_u_wrapu; lia..|exact H].
Qed.

Lemma fingerprint_step_inj_r h x y :
  in_u 64 x -> in_u 64 y -> fingerprint_step h x = fingerprint_step h y -> x = y.
Proof.
  unfold fingerprint_step. rewrite !(Z.add_comm h). intros Hx Hy H.
  apply (u64_add_inj x y h Hx Hy). apply fingerprint_mix_inj; [apply in_u_wrapu; lia..|exact H].
Qed.

#[local] Opaque fingerprint_step.

Lemma fold_left_cons {A B} (f : A -> B -> A) b l a : fold_left f (b :: l) a = fold_left f l (f a b).
Proof. reflexivity. Qed.

Lemma fingerprint_fold_inj l x y :
  in_u 64 x -> in_u 64 y ->
  fold_left fingerprint_step l x = fold_left fingerprint_step l y -> x = y.
Proof.
  revert x y. induction l as [|i l IH]; intros x y Hx Hy H; [exact H|].
  rewrite !fold_left_cons in H. apply (fingerprint_step_inj_l x y i Hx Hy).
  apply IH; [apply fingerprint_step_range..|exact H].
Qed.

(** The fingerprint that guards an unsafe iterator notices every change of a
    single one of the six numbers it is computed from (the address, size and count
    of a table): an insertion or deletion that does not resize the table changes
    it, for certain and not only with high probability. *)
Theorem dictFingerprint_detects {K V : Type} (a0 a1 a0' a1' : Z) (d d' : dict K V) pre x y post :
  fingerprint_integers a0 a1 d = pre ++ x :: post ->
  fingerprint_integers a0' a1' d' = pre ++ y :: post ->
  in_u 64 x -> in_u 64 y -> x <> y ->
  dictFingerprint a0 a1 d <> dictFingerprint a0' a1' d'.
Proof.
  unfold dictFingerprint, fingerprint_hash. intros -> -> Hx Hy Hne H. apply Hne.
  rewrite !fold_left_app, !fold_left_cons in H.
  apply (fingerprint_step_inj_r (fold_left fingerprint_step pre 0) x y Hx Hy).
  exact (fingerprint_fold_inj post _ _ (fingerprint_step_range _ _) (fingerprint_step_range _ _) H).
Qed.

#[local] Transparent fingerprint_step.

Lemma dictNext_enumerates_witness :
  exists iter' d', dict_iterate 100 200 (S (length (entries sample))) (dictInitIterator true) sample =
      Some (entries sample, iter', d') /\
    pauserehash d' = u32 (pauserehash sample + 1) /\
    dictResetIterator 100 200 iter' d' = Some sample.
Proof.
  apply (dictNext_enumerates sample_type 100 200 true sample);
    [apply sample_wf|split; vm_compute; congruence].
Defined.

(** The same tables after one more entry was added in place. *)
Definition sample_added : dict Z Z :=
  set_ht sample true
    (mk_ht (ht_table (ht1 sample)) (ht_used (ht1 sample) + 1) (ht_size_exp (ht1 sample))).

Lemma dictFingerprint_detects_witness :
  dictFingerprint 100 200 sample <> dictFingerprint 100 200 sample_added.
Proof.
  apply (dictFingerprint_detects 100 200 100 200 sample sample_added
           [100; u64 3; 6; 200; u64 4] 5 6 []);
    [vm_compute; reflexivity|vm_compute; reflexivity|split; vm_compute; congruence
    |split; vm_compute; congruence|discriminate].
Defined.

End DictIter.
