(* ===== verification/Skiplist.v ===== *)
(** The skiplist behind sorted sets ([src/t_zset.c]): insertion, deletion, score
    update, ranks and access by rank, on a heap of nodes with forward pointers,
    spans and backward pointers.

    A node is an address in a heap; every pointer the code follows is looked up
    there, so a result [Some _] also says that no dangling or null pointer is
    dereferenced.  The element is the byte string embedded in the node.  Scores
    are the non-NaN doubles: a type with the test [<], a strict weak order (0.0
    and -0.0 are different scores that compare equal). *)
From stdpp Require Import base numbers list gmap sorting.
From stdpp Require Import options.
From S2P Require Import Prelude.

Module Skiplist.

(** ** Comparison of elements *)

(** The sign of [memcmp] on blocks of the same length. *)
Fixpoint memcmp (a b : list Z) : Z :=
  match a, b with
  | x :: a, y :: b => if x <? y then -1 else if y <? x then 1 else memcmp a b
  | _, _ => 0
  end.

Definition sdscmp (s1 s2 : list Z) : Z :=
  let l1 := msize s1 in
  let l2 := msize s2 in
  let minlen := if l1 <? l2 then l1 else l2 in
  let cmp := memcmp (take (Z.to_nat minlen) s1) (take (Z.to_nat minlen) s2) in
  if cmp =? 0 then (if l1 >? l2 then 1 else if l1 <? l2 then -1 else 0) else cmp.

(** ** Data *)

Definition ZSKIPLIST_MAXLEVEL : Z := 32.
Definition ZSKIPLIST_MAX_SEARCH : Z := 10.

(** An address; the header has one of its own. *)
Abbreviation ptr := nat.

Record zskiplistLevel := mk_level {
  forward : option ptr;
  span : Z
}.

Section data.
Context {S : Type}.

(** [struct zskiplistNode]: [zn_levels] is the number of levels of the node info,
    which takes the place of the span of level 0. *)
Record zskiplistNode := mk_node {
  zn_score : S;
  zn_ele : list Z;
  zn_backward : option ptr;
  zn_levels : Z;
  zn_level : list zskiplistLevel
}.

(** [struct zskiplist], with the heap its nodes live in. *)
Record zskiplist := mk_zsl {
  zsl_heap : gmap ptr zskiplistNode;
  zsl_header : ptr;
  zsl_tail : option ptr;
  zsl_length : Z;
  zsl_level : Z
}.

Definition set_heap (zsl : zskiplist) (h : gmap ptr zskiplistNode) : zskiplist :=
  mk_zsl h (zsl_header zsl) (zsl_tail zsl) (zsl_length zsl) (zsl_level zsl).
Definition set_tail (zsl : zskiplist) (t : option ptr) : zskiplist :=
  mk_zsl (zsl_heap zsl) (zsl_header zsl) t (zsl_length zsl) (zsl_level zsl).
Definition set_length (zsl : zskiplist) (n : Z) : zskiplist :=
  mk_zsl (zsl_heap zsl) (zsl_header zsl) (zsl_tail zsl) n (zsl_level zsl).
Definition set_level (zsl : zskiplist) (l : Z) : zskiplist :=
  mk_zsl (zsl_heap zsl) (zsl_header zsl) (zsl_tail zsl) (zsl_length zsl) l.

(** [*x] *)
Definition node (zsl : zskiplist) (x : ptr) : option zskiplistNode := zsl_heap zsl !! x.

(** [x->level[i]] *)
Definition level_at (zsl : zskiplist) (x : ptr) (i : nat) : option zskiplistLevel :=
  n ← node zsl x; zn_level n !! i.

Definition upd_node (zsl : zskiplist) (x : ptr) (f : zskiplistNode -> zskiplistNode)
    : option zskiplist :=
  n ← node zsl x; Some (set_heap zsl (<[x := f n]> (zsl_heap zsl))).

(** Assignments to the members of [x->level[i]]; an index past the levels of the
    node is undefined. *)
Definition upd_level (zsl : zskiplist) (x : ptr) (i : nat) (lv : zskiplistLevel)
    : option zskiplist :=
  _ ← level_at zsl x i;
  upd_node zsl x (fun n => mk_node (zn_score n) (zn_ele n) (zn_backward n) (zn_levels n)
                             (<[i := lv]> (zn_level n))).

Definition set_forward (zsl : zskiplist) (x : ptr) (i : nat) (f : option ptr)
    : option zskiplist :=
  lv ← level_at zsl x i; upd_level zsl x i (mk_level f (span lv)).

Definition set_span (zsl : zskiplist) (x : ptr) (i : nat) (s : Z) : option zskiplist :=
  lv ← level_at zsl x i; upd_level zsl x i (mk_level (forward lv) s).

Definition set_backward (zsl : zskiplist) (x : ptr) (b : option ptr) : option zskiplist :=
  upd_node zsl x (fun n => mk_node (zn_score n) (zn_ele n) b (zn_levels n) (zn_level n)).

Definition set_levels (zsl : zskiplist) (x : ptr) (l : Z) : option zskiplist :=
  upd_node zsl x (fun n => mk_node (zn_score n) (zn_ele n) (zn_backward n) l (zn_level n)).

Definition set_score (zsl : zskiplist) (x : ptr) (s : S) : option zskiplist :=
  upd_node zsl x (fun n => mk_node s (zn_ele n) (zn_backward n) (zn_levels n) (zn_level n)).

(** ** Spans *)

Definition zslGetNodeSpanAtLevel (zsl : zskiplist) (x : ptr) (level : nat) : option Z :=
  lv ← level_at zsl x level;
  if Z.of_nat level >? 0 then Some (span lv)
  else Some (match forward lv with Some _ => 1 | None => 0 end).

Definition zslSetNodeSpanAtLevel (zsl : zskiplist) (x : ptr) (level : nat) (sp : Z)
    : option zskiplist :=
  if Z.of_nat level >? 0 then set_span zsl x level sp else Some zsl.

Definition zslIncrNodeSpanAtLevel (zsl : zskiplist) (x : ptr) (level : nat) (incr : Z)
    : option zskiplist :=
  if Z.of_nat level >? 0 then
    lv ← level_at zsl x level; set_span zsl x level (u64 (span lv + incr))
  else Some zsl.

Definition zslDecrNodeSpanAtLevel (zsl : zskiplist) (x : ptr) (level : nat) (decr : Z)
    : option zskiplist :=
  if Z.of_nat level >? 0 then
    lv ← level_at zsl x level; set_span zsl x level (u64 (span lv - decr))
  else Some zsl.

End data.
Arguments zskiplistNode : clear implicits.
Arguments zskiplist : clear implicits.

Section ops.
Context {S : Type} (score_lt : S -> S -> bool).
Implicit Types (zsl : zskiplist S) (x : ptr).

Definition zslGetNodeElement (n : zskiplistNode S) : list Z := zn_ele n.

Definition zslCompareWithNode (score : S) (ele : list Z) (n : option (zskiplistNode S)) : Z :=
  match n with
  | None => -1
  | Some n =>
    if score_lt score (zn_score n) then -1
    else if score_lt (zn_score n) score then 1
    else sdscmp ele (zslGetNodeElement n)
  end.

(** The node a forward pointer points to: [NULL], or an address that must be
    mapped. *)
Definition deref zsl (x : option ptr) : option (option (zskiplistNode S)) :=
  match x with
  | None => Some None
  | Some x => n ← node zsl x; Some (Some n)
  end.

(** ** Creation *)

(** [zslCreateHeaderNode]; [zero] is the score 0. *)
Definition zslCreateHeaderNode (zero : S) : zskiplistNode S :=
  mk_node zero [] None ZSKIPLIST_MAXLEVEL
    (replicate (Z.to_nat ZSKIPLIST_MAXLEVEL) (mk_level None 0)).

(** [zslCreateNode]: the forward pointers and spans of the new node are not
    initialised; [junk] is what they hold. *)
Definition zslCreateNode (junk : nat -> zskiplistLevel) (level : Z) (score : S) (ele : list Z)
    : zskiplistNode S :=
  mk_node score ele None level (junk <$> seq 0 (Z.to_nat level)).

Definition zslCreate (zero : S) (header : ptr) : zskiplist S :=
  mk_zsl {[ header := zslCreateHeaderNode zero ]} header None 0 1.

Definition zslFreeNode zsl x : zskiplist S := set_heap zsl (delete x (zsl_heap zsl)).

(** [zslRandomLevel]: [random] gives the successive values of [random()]. *)
Definition ZSL_THRESHOLD : Z := 536870911.

Fixpoint random_level (fuel : nat) (random : nat -> Z) (level : Z) : option Z :=
  match fuel with
  | O => None
  | Datatypes.S fuel =>
    if random O <? ZSL_THRESHOLD then random_level fuel (fun n => random (Datatypes.S n)) (level + 1)
    else Some level
  end.

Definition zslRandomLevel (fuel : nat) (random : nat -> Z) : option Z :=
  level ← random_level fuel random 1;
  Some (if level <? ZSKIPLIST_MAXLEVEL then level else ZSKIPLIST_MAXLEVEL).

(** ** The search *)

(** [while (cond(x->level[i].forward)) { rank += span; x = forward; }] *)
Fixpoint walk (fuel : nat) zsl (cond : option ptr -> option bool) (i : nat) x (rank : Z)
    : option (ptr * Z) :=
  match fuel with
  | O => None
  | Datatypes.S fuel =>
    lv ← level_at zsl x i;
    c ← cond (forward lv);
    if c : bool then
      sp ← zslGetNodeSpanAtLevel zsl x i;
      y ← forward lv;
      walk fuel zsl cond i y (u64 (rank + sp))
    else Some (x, rank)
  end.

Definition walk_fuel zsl : nat := Datatypes.S (Z.to_nat (zsl_length zsl)).

(** [for (i = n-1; i >= 0; i--)]: the node reached and its rank at every level,
    [update[i]] and [rank[i]] at index [i]. *)
Fixpoint descend (n : nat) zsl (cond : option ptr -> option bool) x (rank : Z)
    (acc : list (ptr * Z)) : option (list (ptr * Z)) :=
  match n with
  | O => Some acc
  | Datatypes.S i =>
    '(x, rank) ← walk (walk_fuel zsl) zsl cond i x rank;
    descend i zsl cond x rank ((x, rank) :: acc)
  end.

(** [zslCompareWithNode(score, ele, x->level[i].forward) > 0] *)
Definition before zsl (score : S) (ele : list Z) (f : option ptr) : option bool :=
  n ← deref zsl f; Some (zslCompareWithNode score ele n >? 0).

(** ** Insertion *)

(** [for (i = n0; i < n0 + n; i++)] with a body that changes the list. *)
Fixpoint for_levels (n i : nat) (body : nat -> zskiplist S -> option (zskiplist S)) zsl
    : option (zskiplist S) :=
  match n with
  | O => Some zsl
  | Datatypes.S n => zsl ← body i zsl; for_levels n (Datatypes.S i) body zsl
  end.

(** Body of the loop over the levels that are new; [update[i]] is the header and
    [rank[i]] is 0 there. *)
Definition raise_level (i : nat) zsl : option (zskiplist S) :=
  zslSetNodeSpanAtLevel zsl (zsl_header zsl) i (zsl_length zsl).

(** Body of the loop that inserts [x] after [update[i]]. *)
Definition link_level (x : ptr) (update : list (ptr * Z)) (rank0 : Z) (i : nat) zsl
    : option (zskiplist S) :=
  '(u, rank) ← update !! i;
  lv ← level_at zsl u i;
  zsl ← set_forward zsl x i (forward lv);
  zsl ← set_forward zsl u i (Some x);
  sp ← zslGetNodeSpanAtLevel zsl u i;
  zsl ← zslSetNodeSpanAtLevel zsl x i (u64 (sp - (rank0 - rank)));
  zslSetNodeSpanAtLevel zsl u i (u64 (rank0 - rank + 1)).

(** Body of the loop over the levels the new node does not reach. *)
Definition incr_level (update : list (ptr * Z)) (i : nat) zsl : option (zskiplist S) :=
  '(u, _) ← update !! i;
  zslIncrNodeSpanAtLevel zsl u i 1.

Definition zslInsertNode zsl x : option (zskiplist S) :=
  nd ← node zsl x;
  let level := zn_levels nd in
  update ← descend (Z.to_nat (zsl_level zsl)) zsl (before zsl (zn_score nd) (zn_ele nd))
             (zsl_header zsl) 0 [];
  '(zsl, update) ←
    (if level >? zsl_level zsl then
       let n := Z.to_nat (level - zsl_level zsl) in
       zsl ← for_levels n (Z.to_nat (zsl_level zsl)) raise_level zsl;
       zsl ← set_levels zsl (zsl_header zsl) level;
       Some (set_level zsl level, update ++ replicate n (zsl_header zsl, 0))
     else Some (zsl, update));
  '(u0, rank0) ← update !! O;
  zsl ← for_levels (Z.to_nat level) 0 (link_level x update rank0) zsl;
  zsl ← for_levels (Z.to_nat (zsl_level zsl - level)) (Z.to_nat level) (incr_level update) zsl;
  zsl ← set_backward zsl x (if decide (u0 = zsl_header zsl) then None else Some u0);
  lv ← level_at zsl x 0;
  zsl ← match forward lv with
        | Some f => set_backward zsl f (Some x)
        | None => Some (set_tail zsl (Some x))
        end;
  Some (set_length zsl (u64 (zsl_length zsl + 1))).

(** [addr] is the address [zmalloc] returns. *)
Definition zslInsert zsl (junk : nat -> zskiplistLevel) (addr : ptr) (level : Z) (score : S)
    (ele : list Z) : option (zskiplist S) :=
  zslInsertNode (set_heap zsl (<[addr := zslCreateNode junk level score ele]> (zsl_heap zsl))) addr.

(** ** Deletion *)

(** Body of the loop that takes [x] out of the levels. *)
Definition unlink_level (x : ptr) (update : list (ptr * Z)) (i : nat) zsl : option (zskiplist S) :=
  '(u, _) ← update !! i;
  lv ← level_at zsl u i;
  if decide (forward lv = Some x) then
    sp ← zslGetNodeSpanAtLevel zsl x i;
    zsl ← zslIncrNodeSpanAtLevel zsl u i (u64 (sp - 1));
    lvx ← level_at zsl x i;
    set_forward zsl u i (forward lvx)
  else zslDecrNodeSpanAtLevel zsl u i 1.

(** [while(zsl->level > 1 && zsl->header->level[zsl->level-1].forward == NULL)] *)
Fixpoint lower_level (fuel : nat) zsl : option (zskiplist S) :=
  match fuel with
  | O => None
  | Datatypes.S fuel =>
    if zsl_level zsl >? 1 then
      let i := Z.to_nat (zsl_level zsl - 1) in
      lv ← level_at zsl (zsl_header zsl) i;
      match forward lv with
      | Some _ => Some zsl
      | None =>
        zsl ← set_span zsl (zsl_header zsl) i 0;
        lower_level fuel (set_level zsl (zsl_level zsl - 1))
      end
    else Some zsl
  end.

Definition zslUnlinkNode zsl x (update : list (ptr * Z)) : option (zskiplist S) :=
  zsl ← for_levels (Z.to_nat (zsl_level zsl)) 0 (unlink_level x update) zsl;
  lv ← level_at zsl x 0;
  nd ← node zsl x;
  zsl ← match forward lv with
        | Some f => set_backward zsl f (zn_backward nd)
        | None => Some (set_tail zsl (zn_backward nd))
        end;
  zsl ← lower_level (Datatypes.S (Z.to_nat (zsl_level zsl))) zsl;
  Some (set_length zsl (u64 (zsl_length zsl - 1))).

(** The search for a node of the list, with the assertion that it is found. *)
Definition find_node zsl x : option (list (ptr * Z)) :=
  nd ← node zsl x;
  update ← descend (Z.to_nat (zsl_level zsl)) zsl (before zsl (zn_score nd) (zn_ele nd))
             (zsl_header zsl) 0 [];
  '(u0, _) ← update !! O;
  lv ← level_at zsl u0 0;
  _ ← cassert (bool_decide (forward lv = Some x));
  Some update.

Definition zslDelete zsl x : option (zskiplist S) :=
  update ← find_node zsl x;
  zsl ← zslUnlinkNode zsl x update;
  Some (zslFreeNode zsl x).

Definition zslUpdateScore zsl x (newscore : S) : option (zskiplist S) :=
  nd ← node zsl x;
  back ← deref zsl (zn_backward nd);
  lv ← level_at zsl x 0;
  next ← deref zsl (forward lv);
  if match back with None => true | Some b => score_lt (zn_score b) newscore end &&
     match next with None => true | Some f => score_lt newscore (zn_score f) end
  then set_score zsl x newscore
  else
    update ← find_node zsl x;
    zsl ← zslUnlinkNode zsl x update;
    zsl ← set_score zsl x newscore;
    zslInsertNode zsl x.

(** ** Ranks *)

(** [for (i = n-1; i >= 0; i--)] of [zslGetRank] *)
Fixpoint rank_loop (n : nat) zsl (score : S) (ele : list Z) x (rank : Z) : option Z :=
  match n with
  | O => Some 0
  | Datatypes.S i =>
    '(x, rank) ← walk (walk_fuel zsl) zsl
       (fun f => n ← deref zsl f; Some (zslCompareWithNode score ele n >=? 0)) i x rank;
    nd ← node zsl x;
    if negb (bool_decide (x = zsl_header zsl)) && (zslCompareWithNode score ele (Some nd) =? 0)
    then Some rank
    else rank_loop i zsl score ele x rank
  end.

Definition zslGetRank zsl (score : S) (ele : list Z) : option Z :=
  rank_loop (Z.to_nat (zsl_level zsl)) zsl score ele (zsl_header zsl) 0.

(** [while (x)] of [zslGetRankByNode] *)
Fixpoint to_end (fuel : nat) zsl (x : option ptr) (distance_to_end : Z) : option Z :=
  match fuel with
  | O => None
  | Datatypes.S fuel =>
    match x with
    | None => Some distance_to_end
    | Some x =>
      nd ← node zsl x;
      let level := Z.to_nat (zn_levels nd - 1) in
      sp ← zslGetNodeSpanAtLevel zsl x level;
      lv ← level_at zsl x level;
      to_end fuel zsl (forward lv) (u64 (distance_to_end + sp))
    end
  end.

Definition zslGetRankByNode zsl x : option Z :=
  d ← to_end (Datatypes.S (walk_fuel zsl)) zsl (Some x) 0;
  Some (u64 (zsl_length zsl - d)).

(** [while (x->level[i].forward && ok(traversed + span))] *)
Fixpoint walk_rank (fuel : nat) zsl (ok : Z -> bool) (i : nat) x (traversed : Z)
    : option (ptr * Z) :=
  match fuel with
  | O => None
  | Datatypes.S fuel =>
    lv ← level_at zsl x i;
    sp ← zslGetNodeSpanAtLevel zsl x i;
    match forward lv with
    | Some y =>
      if ok (u64 (traversed + sp)) then walk_rank fuel zsl ok i y (u64 (traversed + sp))
      else Some (x, traversed)
    | None => Some (x, traversed)
    end
  end.

(** [for (i = n-1; i >= 0; i--)] *)
Fixpoint by_rank_loop (n : nat) zsl x (traversed rank : Z) : option (option ptr) :=
  match n with
  | O => Some None
  | Datatypes.S i =>
    '(x, traversed) ← walk_rank (walk_fuel zsl) zsl (fun t => t <=? rank) i x traversed;
    if traversed =? rank then Some (Some x) else by_rank_loop i zsl x traversed rank
  end.

Definition zslGetElementByRankFromNode zsl x (start_level rank : Z) : option (option ptr) :=
  by_rank_loop (Z.to_nat (start_level + 1)) zsl x 0 rank.

Definition zslGetElementByRank zsl (rank : Z) : option (option ptr) :=
  zslGetElementByRankFromNode zsl (zsl_header zsl) (zsl_level zsl - 1) rank.

(** ** Ranges *)

(** A range is given by two tests on nodes, [gte_min] and [lte_max]; the code has
    the same functions for scores and for elements. *)

(** [x->level[i].forward && !zslValueGteMin(x->level[i].forward->score, range)] *)
Definition out_of_range zsl (gte_min : zskiplistNode S -> bool) (f : option ptr) : option bool :=
  n ← deref zsl f; Some (match n with Some n => negb (gte_min n) | None => false end).

(** [x->level[i].forward && zslValueLteMax(x->level[i].forward->score, range)] *)
Definition within_max zsl (lte_max : zskiplistNode S -> bool) (f : option ptr) : option bool :=
  n ← deref zsl f; Some (match n with Some n => lte_max n | None => false end).

(** [zslIsInRange] and [zslIsInLexRange]; [empty] is the test for ranges that will
    always be empty. *)
Definition is_in_range zsl (empty : bool) (gte_min lte_max : zskiplistNode S -> bool)
    : option bool :=
  if empty then Some false
  else
    t ← deref zsl (zsl_tail zsl);
    if match t with Some n => negb (gte_min n) | None => true end then Some false
    else
      lv ← level_at zsl (zsl_header zsl) 0;
      f ← deref zsl (forward lv);
      Some (match f with Some n => lte_max n | None => false end).

(** [for (i = n-1; i >= 0; i--) while (cond) ...] *)
Fixpoint descend_last (n : nat) zsl (cond : option ptr -> option bool) x (rank : Z)
    : option (ptr * Z) :=
  match n with
  | O => Some (x, rank)
  | Datatypes.S i =>
    '(x, rank) ← walk (walk_fuel zsl) zsl cond i x rank;
    descend_last i zsl cond x rank
  end.

(** [for (i = 0; i < n; i++) x = x->level[0].forward] *)
Fixpoint forward_steps (n : nat) zsl (x : option ptr) : option (option ptr) :=
  match n with
  | O => Some x
  | Datatypes.S n => y ← x; lv ← level_at zsl y 0; forward_steps n zsl (forward lv)
  end.

(** [for (i = 0; i < n; i++) x = x->backward] *)
Fixpoint backward_steps (n : nat) zsl (x : option ptr) : option (option ptr) :=
  match n with
  | O => Some x
  | Datatypes.S n => y ← x; nd ← node zsl y; backward_steps n zsl (zn_backward nd)
  end.

(** The end of [zslNthInRange]: the other bound is checked, the rank stored. *)
Definition bound_check zsl (ok : zskiplistNode S -> bool) (x : option ptr) (rank : Z)
    : option (option (ptr * Z)) :=
  match x with
  | None => Some None
  | Some x => nd ← node zsl x; Some (if ok nd then Some (x, u64 rank) else None)
  end.

(** [zslNthInRange] and [zslNthInLexRange]; the result is the node and the rank
    stored in [*out_rank]. *)
Definition nth_in_range zsl (empty : bool) (gte_min lte_max : zskiplistNode S -> bool) (n : Z)
    : option (option (ptr * Z)) :=
  is_in ← is_in_range zsl empty gte_min lte_max;
  if negb is_in then Some None
  else
    let i := Z.to_nat (zsl_level zsl - 1) in
    '(last_node, last_rank) ← walk (walk_fuel zsl) zsl (out_of_range zsl gte_min) i (zsl_header zsl) 0;
    if n >=? 0 then
      '(x, edge_rank) ← descend_last i zsl (out_of_range zsl gte_min) last_node last_rank;
      if u64 (edge_rank + n) >=? zsl_length zsl then Some None
      else
        x ← (if n <? ZSKIPLIST_MAX_SEARCH then forward_steps (Z.to_nat (n + 1)) zsl (Some x)
             else zslGetElementByRankFromNode zsl last_node (zsl_level zsl - 1)
                    (u64 (edge_rank + 1 + n - last_rank)));
        bound_check zsl lte_max x (edge_rank + n + 1)
    else
      '(x, edge_rank) ← descend_last (Datatypes.S i) zsl (within_max zsl lte_max) last_node last_rank;
      if edge_rank <? wraps 64 (- n) then Some None
      else
        x ← (if n + 1 >? - ZSKIPLIST_MAX_SEARCH then backward_steps (Z.to_nat (- n - 1)) zsl (Some x)
             else zslGetElementByRankFromNode zsl last_node (zsl_level zsl - 1)
                    (u64 (edge_rank + 1 + n - last_rank)));
        bound_check zsl gte_min x (edge_rank + n + 1).

(** The loop that deletes nodes: [dictDelete] is the deletion from the hash table
    of the sorted set, [more x removed] the test of the loop. *)
Fixpoint delete_while {D} (fuel : nat) zsl (dictDelete : D -> list Z -> D)
    (more : zskiplistNode S -> Z -> bool) (update : list (ptr * Z)) (x : option ptr) (d : D)
    (removed : Z) : option (zskiplist S * D * Z) :=
  match fuel with
  | O => None
  | Datatypes.S fuel =>
    match x with
    | None => Some (zsl, d, removed)
    | Some x =>
      nd ← node zsl x;
      if more nd removed then
        lv ← level_at zsl x 0;
        let next := forward lv in
        zsl ← zslUnlinkNode zsl x update;
        nd ← node zsl x;
        let d := dictDelete d (zslGetNodeElement nd) in
        delete_while fuel (zslFreeNode zsl x) dictDelete more update next d (u64 (removed + 1))
      else Some (zsl, d, removed)
    end
  end.

(** [zslDeleteRangeByScore] and [zslDeleteRangeByLex] *)
Definition delete_range {D} zsl (dictDelete : D -> list Z -> D)
    (gte_min lte_max : zskiplistNode S -> bool) (d : D) : option (zskiplist S * D * Z) :=
  update ← descend (Z.to_nat (zsl_level zsl)) zsl (out_of_range zsl gte_min) (zsl_header zsl) 0 [];
  '(u0, _) ← update !! O;
  lv ← level_at zsl u0 0;
  delete_while (walk_fuel zsl) zsl dictDelete (fun nd _ => lte_max nd) update (forward lv) d 0.

(** [for (i = n-1; i >= 0; i--)] of [zslDeleteRangeByRank] *)
Fixpoint descend_rank (n : nat) zsl (start : Z) x (traversed : Z) (acc : list (ptr * Z))
    : option (list (ptr * Z)) :=
  match n with
  | O => Some acc
  | Datatypes.S i =>
    '(x, traversed) ← walk_rank (walk_fuel zsl) zsl (fun t => t <? start) i x traversed;
    descend_rank i zsl start x traversed ((x, traversed) :: acc)
  end.

Definition zslDeleteRangeByRank {D} zsl (dictDelete : D -> list Z -> D) (start end_ : Z) (d : D)
    : option (zskiplist S * D * Z) :=
  update ← descend_rank (Z.to_nat (zsl_level zsl)) zsl start (zsl_header zsl) 0 [];
  '(u0, traversed) ← update !! O;
  lv ← level_at zsl u0 0;
  delete_while (walk_fuel zsl) zsl dictDelete
    (fun _ removed => u64 (u64 (traversed + 1) + removed) <=? end_) update (forward lv) d 0.

(** *** Ranges of scores *)

Record zrangespec := mk_zrange { min : S; max : S; minex : bool; maxex : bool }.

(** The comparisons of doubles that are not NaN, from [<]. *)
Definition zslValueGteMin (value : S) (spec : zrangespec) : bool :=
  if minex spec then score_lt (min spec) value else negb (score_lt value (min spec)).
Definition zslValueLteMax (value : S) (spec : zrangespec) : bool :=
  if maxex spec then score_lt value (max spec) else negb (score_lt (max spec) value).

Definition score_range_empty (r : zrangespec) : bool :=
  score_lt (max r) (min r) ||
  (negb (score_lt (min r) (max r)) && negb (score_lt (max r) (min r))) && (minex r || maxex r).

Definition zslIsInRange zsl (r : zrangespec) : option bool :=
  is_in_range zsl (score_range_empty r) (fun n => zslValueGteMin (zn_score n) r)
    (fun n => zslValueLteMax (zn_score n) r).

Definition zslNthInRange zsl (r : zrangespec) (n : Z) : option (option (ptr * Z)) :=
  nth_in_range zsl (score_range_empty r) (fun n => zslValueGteMin (zn_score n) r)
    (fun n => zslValueLteMax (zn_score n) r) n.

Definition zslDeleteRangeByScore {D} zsl (dictDelete : D -> list Z -> D) (r : zrangespec) (d : D)
    : option (zskiplist S * D * Z) :=
  delete_range zsl dictDelete (fun n => zslValueGteMin (zn_score n) r)
    (fun n => zslValueLteMax (zn_score n) r) d.

(** *** Ranges of elements *)

(** A bound: the shared objects [minstring] and [maxstring] are told apart from
    every other string by their address. *)
Inductive lexbound := minstring | maxstring | lexstr (s : list Z).

Record zlexrangespec := mk_zlexrange {
  lmin : lexbound; lmax : lexbound; lminex : bool; lmaxex : bool
}.

Definition sdscmplex (a b : lexbound) : Z :=
  match a, b with
  | minstring, minstring | maxstring, maxstring => 0
  | minstring, _ | _, maxstring => -1
  | maxstring, _ | _, minstring => 1
  | lexstr a, lexstr b => sdscmp a b
  end.

(** The characters of the item; the byte behind the last one is 0. *)
Definition zslParseLexRangeItem (item : list Z) : option (lexbound * bool) :=
  match item with
  | c :: rest =>
    if c =? 43 then                                       (* '+' *)
      match rest with [] | 0 :: _ => Some (maxstring, true) | _ => None end
    else if c =? 45 then                                  (* '-' *)
      match rest with [] | 0 :: _ => Some (minstring, true) | _ => None end
    else if c =? 40 then Some (lexstr rest, true)         (* '(' *)
    else if c =? 91 then Some (lexstr rest, false)        (* '[' *)
    else None
  | [] => None
  end.

(** [None] for an object that is integer encoded. *)
Definition zslParseLexRange (min max : option (list Z)) : option zlexrangespec :=
  min ← min; max ← max;
  '(lo, lex) ← zslParseLexRangeItem min;
  '(hi, hex) ← zslParseLexRangeItem max;
  Some (mk_zlexrange lo hi lex hex).

Definition zslLexValueGteMin (value : list Z) (spec : zlexrangespec) : bool :=
  if lminex spec then sdscmplex (lexstr value) (lmin spec) >? 0
  else sdscmplex (lexstr value) (lmin spec) >=? 0.
Definition zslLexValueLteMax (value : list Z) (spec : zlexrangespec) : bool :=
  if lmaxex spec then sdscmplex (lexstr value) (lmax spec) <? 0
  else sdscmplex (lexstr value) (lmax spec) <=? 0.

Definition lex_range_empty (r : zlexrangespec) : bool :=
  let cmp := sdscmplex (lmin r) (lmax r) in
  (cmp >? 0) || (cmp =? 0) && (lminex r || lmaxex r).

Definition zslIsInLexRange zsl (r : zlexrangespec) : option bool :=
  is_in_range zsl (lex_range_empty r) (fun n => zslLexValueGteMin (zslGetNodeElement n) r)
    (fun n => zslLexValueLteMax (zslGetNodeElement n) r).

Definition zslNthInLexRange zsl (r : zlexrangespec) (n : Z) : option (option (ptr * Z)) :=
  nth_in_range zsl (lex_range_empty r) (fun n => zslLexValueGteMin (zslGetNodeElement n) r)
    (fun n => zslLexValueLteMax (zslGetNodeElement n) r) n.

Definition zslDeleteRangeByLex {D} zsl (dictDelete : D -> list Z -> D) (r : zlexrangespec) (d : D)
    : option (zskiplist S * D * Z) :=
  delete_range zsl dictDelete (fun n => zslLexValueGteMin (zslGetNodeElement n) r)
    (fun n => zslLexValueLteMax (zslGetNodeElement n) r) d.

End ops.
Arguments zrangespec : clear implicits.

(** ** Hops

    In a list of addresses with heights, [hop i l] is what a forward pointer and
    span of level [i] in front of [l] are to hold: the first address of height
    above [i] and the number of places it is away, or none and the length. *)

Section hop.
Variable H : ptr -> nat.

Fixpoint hop (i : nat) (l : list ptr) : option ptr * nat :=
  match l with
  | [] => (None, O)
  | y :: l => if decide (i < H y)%nat then (Some y, 1%nat) else let '(d, k) := hop i l in (d, S k)
  end.

Lemma hop_None i l : (hop i l).1 = None -> (hop i l).2 = length l.
Proof.
  induction l as [|y l IH]; cbn; [done|]. destruct (decide _); [done|].
  destruct (hop i l) as [d k]. cbn in *. intros ->. by rewrite IH.
Qed.

Lemma hop_Some i l y :
  (hop i l).1 = Some y ->
  exists a b, l = a ++ y :: b /\ (hop i l).2 = S (length a) /\ (hop i a).1 = None /\ (i < H y)%nat.
Proof.
  induction l as [|z l IH]; cbn; [done|]. destruct (decide (i < H z)%nat) as [Hz|Hz].
  - intros [= ->]. by exists [], l.
  - destruct (hop i l) as [d k] eqn:E. cbn in *. intros ->.
    destruct IH as (a & b & -> & -> & Ha & Hy); [done|]. exists (z :: a), b. cbn.
    rewrite decide_False by done. destruct (hop i a). by cbn in *.
Qed.

Lemma hop_app_Some i a b y : (hop i a).1 = Some y -> hop i (a ++ b) = hop i a.
Proof.
  induction a as [|z a IH]; cbn; [done|]. destruct (decide _); [done|].
  destruct (hop i a) as [d k] eqn:E. cbn. intros ->. by rewrite IH.
Qed.

Lemma hop_app_None i a b :
  (hop i a).1 = None -> hop i (a ++ b) = ((hop i b).1, (length a + (hop i b).2)%nat).
Proof.
  induction a as [|z a IH]; cbn; [by destruct (hop i b)|]. destruct (decide _); [done|].
  destruct (hop i a) as [d k] eqn:E. cbn. intros ->. by rewrite IH.
Qed.

Lemma hop_app_inv i a b :
  (exists y, (hop i a).1 = Some y /\ hop i (a ++ b) = hop i a) \/
  ((hop i a).1 = None /\ hop i (a ++ b) = ((hop i b).1, (length a + (hop i b).2)%nat)).
Proof.
  destruct ((hop i a).1) as [y|] eqn:E; [left|right].
  - exists y. split; [done|]. by eapply hop_app_Some.
  - split; [done|]. by apply hop_app_None.
Qed.

Lemma hop_le i l : ((hop i l).2 <= length l)%nat.
Proof.
  induction l as [|y l IH]; cbn; [done|]. destruct (decide _); cbn; [lia|].
  destruct (hop i l). cbn in *. lia.
Qed.

Lemma hop_None_heights i l : (hop i l).1 = None <-> forall y, y ∈ l -> (H y <= i)%nat.
Proof.
  induction l as [|z l IH]; cbn.
  - split; [|done]. intros _ y Hy. by apply not_elem_of_nil in Hy.
  - destruct (decide _) as [Hd|Hd]; cbn.
    + split; [done|]. intros Hn. specialize (Hn z ltac:(left)). lia.
    + destruct (hop i l) as [d k]. cbn in *. rewrite IH. split.
      * intros Hn y [->|Hy]%elem_of_cons; [lia|by apply Hn].
      * intros Hn y Hy. apply Hn. by right.
Qed.

(** Level 0 links every node. *)
Lemma hop_0 l : (forall y, y ∈ l -> (1 <= H y)%nat) ->
  hop 0 l = match l with [] => (None, O) | y :: _ => (Some y, 1%nat) end.
Proof.
  intros Hl. destruct l as [|y l]; cbn; [done|]. rewrite decide_True; [done|].
  specialize (Hl y ltac:(left)). lia.
Qed.
End hop.

Lemma hop_ext H H' i l : (forall y, y ∈ l -> H y = H' y) -> hop H i l = hop H' i l.
Proof.
  induction l as [|y l IH]; intros E; cbn; [done|].
  rewrite (E y), IH by (try left; intros; apply E; by right). done.
Qed.


(** ** The order of the elements *)

Lemma memcmp_refl a : memcmp a a = 0.
Proof. induction a as [|x a IH]; cbn; [done|]. by rewrite Z.ltb_irrefl. Qed.

Lemma memcmp_range a b : memcmp a b = -1 \/ memcmp a b = 0 \/ memcmp a b = 1.
Proof.
  revert b. induction a as [|x a IH]; intros [|y b]; cbn; auto.
  repeat (destruct (_ <? _); auto).
Qed.

(** [sdscmp] is the lexicographic order of the byte strings. *)
Fixpoint lexcmp (a b : list Z) : Z :=
  match a, b with
  | [], [] => 0
  | [], _ :: _ => -1
  | _ :: _, [] => 1
  | x :: a, y :: b => if x <? y then -1 else if y <? x then 1 else lexcmp a b
  end.

Lemma sdscmp_lexcmp a b : sdscmp a b = lexcmp a b.
Proof.
  unfold sdscmp. revert b. induction a as [|x a IH]; intros [|y b]; cbv zeta; [done| | |].
  { rewrite msize_cons, msize_nil. pose proof (msize_nonneg b).
    rewrite (proj2 (Z.ltb_lt 0 _)), Z.gtb_ltb, (proj2 (Z.ltb_ge _ 0)) by lia. done. }
  { rewrite msize_cons, msize_nil. pose proof (msize_nonneg a).
    rewrite (proj2 (Z.ltb_ge _ 0)), Z.gtb_ltb, (proj2 (Z.ltb_lt 0 _)) by lia. done. }
  specialize (IH b). cbv zeta in IH. rewrite !msize_cons.
  pose proof (msize_nonneg a). pose proof (msize_nonneg b).
  replace (1 + msize a <? 1 + msize b) with (msize a <? msize b)
    by (destruct (Z.ltb_spec (msize a) (msize b)), (Z.ltb_spec (1 + msize a) (1 + msize b)); done || lia).
  replace (1 + msize a >? 1 + msize b) with (msize a >? msize b)
    by (rewrite !Z.gtb_ltb; destruct (Z.ltb_spec (msize b) (msize a)), (Z.ltb_spec (1 + msize b) (1 + msize a)); done || lia).
  set (m := if msize a <? msize b then msize a else msize b) in *.
  assert (0 <= m) by (unfold m; destruct (_ <? _); lia).
  replace (if msize a <? msize b then 1 + msize a else 1 + msize b) with (1 + m)
    by (unfold m; by destruct (_ <? _)).
  replace (Z.to_nat (1 + m)) with (Datatypes.S (Z.to_nat m)) by lia. cbn [take memcmp lexcmp].
  destruct (x <? y); [done|]. destruct (y <? x); [done|]. exact IH.
Qed.

Lemma lexcmp_refl a : lexcmp a a = 0.
Proof. induction a as [|x a IH]; cbn; [done|]. by rewrite Z.ltb_irrefl. Qed.

Lemma lexcmp_antisym a b : lexcmp b a = - lexcmp a b.
Proof.
  revert b. induction a as [|x a IH]; intros [|y b]; cbn; try done.
  repeat ztest; lia || apply IH.
Qed.

Lemma lexcmp_eq a b : lexcmp a b = 0 <-> a = b.
Proof.
  revert b. induction a as [|x a IH]; intros [|y b]; cbn; try done.
  repeat ztest; try (split; [done|intros [=]; lia]). rewrite IH.
  split; [intros ->; f_equal; lia|by intros [=]].
Qed.

Lemma lexcmp_trans a b c : lexcmp a b < 0 -> lexcmp b c < 0 -> lexcmp a c < 0.
Proof.
  revert b c. induction a as [|x a IH]; intros [|y b] [|z c]; cbn; try lia.
  repeat ztest; try lia. apply IH.
Qed.

(** The scores: [<] on doubles that are not NaN. *)
Class StrictWeak {S : Type} (lt : S -> S -> bool) : Prop := {
  sw_irrefl a : lt a a = false;
  sw_trans a b c : lt a b = true -> lt b c = true -> lt a c = true;
  sw_split a b c : lt a c = true -> lt a b = true \/ lt b c = true
}.

#[export] Instance Zltb_strict_weak : StrictWeak Z.ltb.
Proof.
  constructor; intros *; [apply Z.ltb_irrefl|rewrite !Z.ltb_lt; lia|].
  rewrite !Z.ltb_lt. lia.
Qed.

Section order.
#[local] Set Default Proof Using "Type*".
Context {S : Type} (score_lt : S -> S -> bool) `{!StrictWeak score_lt}.

(** The key of an element: its score and its bytes. *)
Abbreviation key := (S * list Z)%type.

(** [zslCompareWithNode], on keys. *)
Definition kcmp (k1 k2 : key) : Z :=
  if score_lt k1.1 k2.1 then -1 else if score_lt k2.1 k1.1 then 1 else lexcmp k1.2 k2.2.

Definition klt (k1 k2 : key) : Prop := kcmp k1 k2 < 0.

Lemma kcmp_refl k : kcmp k k = 0.
Proof. unfold kcmp. rewrite !sw_irrefl. apply lexcmp_refl. Qed.

Lemma sw_asym a b : score_lt a b = true -> score_lt b a = false.
Proof.
  intros H. destruct (score_lt b a) eqn:E; [|done].
  pose proof (sw_trans _ _ _ H E). by rewrite sw_irrefl in *.
Qed.

Lemma kcmp_antisym k1 k2 : kcmp k2 k1 = - kcmp k1 k2.
Proof.
  unfold kcmp. destruct (score_lt k1.1 k2.1) eqn:E.
  - by rewrite (sw_asym _ _ E).
  - destruct (score_lt k2.1 k1.1) eqn:E2; [done|]. apply lexcmp_antisym.
Qed.

Lemma sw_incomp_l a b c : score_lt a b = false -> score_lt b a = false -> score_lt a c = score_lt b c.
Proof.
  intros H1 H2. destruct (score_lt a c) eqn:E1, (score_lt b c) eqn:E2; try done.
  - destruct (sw_split a b c E1); congruence.
  - destruct (sw_split b a c E2); congruence.
Qed.

Lemma sw_incomp_r a b c : score_lt a b = false -> score_lt b a = false -> score_lt c a = score_lt c b.
Proof.
  intros H1 H2. destruct (score_lt c a) eqn:E1, (score_lt c b) eqn:E2; try done.
  - destruct (sw_split c b a E1); congruence.
  - destruct (sw_split c a b E2); congruence.
Qed.

Lemma klt_trans k1 k2 k3 : klt k1 k2 -> klt k2 k3 -> klt k1 k3.
Proof.
  unfold klt, kcmp. destruct (score_lt k1.1 k2.1) eqn:E12.
  - intros _. destruct (score_lt k2.1 k3.1) eqn:E23; [by rewrite (sw_trans _ _ _ E12 E23)|].
    destruct (score_lt k3.1 k2.1) eqn:E32; [lia|]. intros _.
    by rewrite <- (sw_incomp_r _ _ k1.1 E23 E32), E12.
  - destruct (score_lt k2.1 k1.1) eqn:E21; [lia|].
    rewrite (sw_incomp_l _ _ k3.1 E12 E21), (sw_incomp_r _ _ k3.1 E12 E21).
    destruct (score_lt k2.1 k3.1); [done|]. destruct (score_lt k3.1 k2.1); [lia|]. apply lexcmp_trans.
Qed.

Lemma klt_irrefl k : ~ klt k k.
Proof. unfold klt. rewrite kcmp_refl. lia. Qed.

(** Keys that compare equal are interchangeable. *)
Lemma kcmp_eq_l k1 k2 k3 : kcmp k1 k2 = 0 -> kcmp k1 k3 = kcmp k2 k3.
Proof.
  unfold kcmp. destruct (score_lt k1.1 k2.1) eqn:E12; [done|].
  destruct (score_lt k2.1 k1.1) eqn:E21; [done|]. intros ->%lexcmp_eq.
  by rewrite (sw_incomp_l _ _ k3.1 E12 E21), (sw_incomp_r _ _ k3.1 E12 E21).
Qed.

Lemma kcmp_pos k1 k2 : kcmp k1 k2 > 0 <-> klt k2 k1.
Proof. unfold klt. rewrite (kcmp_antisym k1 k2). lia. Qed.

End order.


(** ** Views of the heap

    Every loop over the levels changes the forward pointers and spans of one
    level at a time; [lvl zsl i] is that level as a map from addresses, and
    [metas zsl] what the nodes hold besides their levels. *)

Section views.
Context {S : Type}.
Implicit Types (zsl : zskiplist S) (x y u : ptr) (i j : nat).

Record node_meta := mk_meta {
  m_key : S * list Z;
  m_back : option ptr;
  m_levels : Z;
  m_height : nat
}.

Definition meta_of (n : zskiplistNode S) : node_meta :=
  mk_meta (zn_score n, zn_ele n) (zn_backward n) (zn_levels n) (length (zn_level n)).

Definition metas zsl : gmap ptr node_meta := meta_of <$> zsl_heap zsl.

Definition lvl zsl i : gmap ptr zskiplistLevel := omap (fun n => zn_level n !! i) (zsl_heap zsl).

Definition height (m : gmap ptr node_meta) x : nat :=
  match m !! x with Some mt => m_height mt | None => O end.

Lemma level_at_lvl zsl x i : level_at zsl x i = lvl zsl i !! x.
Proof. unfold level_at, lvl, node. by rewrite lookup_omap. Qed.

Lemma metas_node zsl x mt :
  metas zsl !! x = Some mt -> exists n, node zsl x = Some n /\ meta_of n = mt.
Proof. unfold metas, node. rewrite lookup_fmap. intros (n & -> & ->)%fmap_Some. by exists n. Qed.

(** All but the levels and the nodes. *)
Definition scalars zsl : ptr * option ptr * Z * Z :=
  (zsl_header zsl, zsl_tail zsl, zsl_length zsl, zsl_level zsl).

(** Only level [i] changed. *)
Record touches i zsl zsl' : Prop := {
  t_metas : metas zsl' = metas zsl;
  t_scalars : scalars zsl' = scalars zsl;
  t_lvl j : j <> i -> lvl zsl' j = lvl zsl j
}.

#[export] Instance touches_preorder i : PreOrder (touches i).
Proof.
  split; [by constructor|]. intros a b c [H1 H2 H3] [H4 H5 H6]. constructor; [congruence..|].
  intros j Hj. by rewrite H6, H3.
Qed.

Lemma height_lvl zsl x i : (i < height (metas zsl) x)%nat -> is_Some (lvl zsl i !! x).
Proof.
  unfold height, metas, lvl. rewrite lookup_fmap, lookup_omap.
  destruct (zsl_heap zsl !! x) as [n|]; cbn; [|lia]. intros H. by apply lookup_lt_is_Some.
Qed.

Lemma upd_level_spec zsl x i lv lv' :
  lvl zsl i !! x = Some lv ->
  exists zsl', upd_level zsl x i lv' = Some zsl' /\ touches i zsl zsl' /\
    lvl zsl' i = <[x := lv']> (lvl zsl i).
Proof.
  intros H. unfold upd_level, upd_node, node. rewrite level_at_lvl, H. mred.
  unfold lvl in H. rewrite lookup_omap in H. destruct (zsl_heap zsl !! x) as [n|] eqn:E; [|done].
  cbn in H. mred. eexists. split; [done|].
  pose proof (lookup_lt_Some _ _ _ H) as Hl. split; [constructor; [|done|]|].
  - unfold metas. cbn. rewrite fmap_insert. apply insert_id. rewrite lookup_fmap, E. cbn.
    unfold meta_of. cbn. by rewrite length_insert.
  - intros j Hj. apply map_eq. intros y. unfold lvl. cbn. rewrite !lookup_omap.
    destruct (decide (y = x)) as [->|]; [|by rewrite lookup_insert_ne].
    rewrite lookup_insert_eq, E. cbn. by rewrite list_lookup_insert_ne.
  - apply map_eq. intros y. unfold lvl. cbn. rewrite lookup_omap.
    destruct (decide (y = x)) as [->|].
    + rewrite !lookup_insert_eq. cbn. by rewrite list_lookup_insert_eq.
    + rewrite !lookup_insert_ne by done. by rewrite lookup_omap.
Qed.

Lemma set_forward_spec zsl x i lv f :
  lvl zsl i !! x = Some lv ->
  exists zsl', set_forward zsl x i f = Some zsl' /\ touches i zsl zsl' /\
    lvl zsl' i = <[x := mk_level f (span lv)]> (lvl zsl i).
Proof.
  intros H. unfold set_forward. rewrite level_at_lvl, H. mred. by eapply upd_level_spec.
Qed.

Definition above0 (i : nat) (s s0 : Z) : Z := if Z.of_nat i >? 0 then s else s0.

Lemma above0_pos i s s0 : (0 < i)%nat -> above0 i s s0 = s.
Proof. intros H. unfold above0. destruct i; [lia|done]. Qed.

Lemma set_span_spec zsl x i lv s :
  lvl zsl i !! x = Some lv ->
  exists zsl', set_span zsl x i s = Some zsl' /\ touches i zsl zsl' /\
    lvl zsl' i = <[x := mk_level (forward lv) s]> (lvl zsl i).
Proof.
  intros H. unfold set_span. rewrite level_at_lvl, H. mred. by eapply upd_level_spec.
Qed.

Lemma zslSetNodeSpanAtLevel_spec zsl x i lv s :
  lvl zsl i !! x = Some lv ->
  exists zsl', zslSetNodeSpanAtLevel zsl x i s = Some zsl' /\ touches i zsl zsl' /\
    lvl zsl' i = <[x := mk_level (forward lv) (above0 i s (span lv))]> (lvl zsl i).
Proof.
  intros H. unfold zslSetNodeSpanAtLevel, above0. destruct i as [|i]; [|by apply set_span_spec].
  eexists. split; [done|]. split; [done|]. rewrite insert_id; [done|]. rewrite H. by destruct lv.
Qed.

Lemma zslIncrNodeSpanAtLevel_spec zsl x i lv d :
  lvl zsl i !! x = Some lv ->
  exists zsl', zslIncrNodeSpanAtLevel zsl x i d = Some zsl' /\ touches i zsl zsl' /\
    lvl zsl' i = <[x := mk_level (forward lv) (above0 i (u64 (span lv + d)) (span lv))]> (lvl zsl i).
Proof.
  intros H. unfold zslIncrNodeSpanAtLevel. rewrite level_at_lvl, H.
  apply (zslSetNodeSpanAtLevel_spec zsl x i lv (u64 (span lv + d)) H).
Qed.

Lemma zslDecrNodeSpanAtLevel_spec zsl x i lv d :
  lvl zsl i !! x = Some lv ->
  exists zsl', zslDecrNodeSpanAtLevel zsl x i d = Some zsl' /\ touches i zsl zsl' /\
    lvl zsl' i = <[x := mk_level (forward lv) (above0 i (u64 (span lv - d)) (span lv))]> (lvl zsl i).
Proof.
  intros H. unfold zslDecrNodeSpanAtLevel. rewrite level_at_lvl, H.
  apply (zslSetNodeSpanAtLevel_spec zsl x i lv (u64 (span lv - d)) H).
Qed.

(** Only the nodes' other members changed. *)
Record keeps_levels zsl zsl' : Prop := {
  k_scalars : scalars zsl' = scalars zsl;
  k_lvl j : lvl zsl' j = lvl zsl j
}.

Lemma upd_node_spec zsl x f g mt :
  metas zsl !! x = Some mt ->
  (forall n, zn_level (f n) = zn_level n) -> (forall n, meta_of (f n) = g (meta_of n)) ->
  exists zsl', upd_node zsl x f = Some zsl' /\ keeps_levels zsl zsl' /\
    metas zsl' = <[x := g mt]> (metas zsl).
Proof.
  intros H Hf Hg. destruct (metas_node _ _ _ H) as (n & Hn & <-). unfold upd_node. rewrite Hn. mred.
  eexists. split; [done|]. split; [split; [done|]|].
  - intros j. apply map_eq. intros y. unfold lvl. cbn. rewrite !lookup_omap.
    destruct (decide (y = x)) as [->|]; [|by rewrite lookup_insert_ne].
    unfold node in Hn. rewrite lookup_insert_eq, Hn. cbn. by rewrite Hf.
  - unfold metas. cbn. by rewrite fmap_insert, Hg.
Qed.

Definition with_back (b : option ptr) (mt : node_meta) : node_meta :=
  mk_meta (m_key mt) b (m_levels mt) (m_height mt).
Definition with_levels (l : Z) (mt : node_meta) : node_meta :=
  mk_meta (m_key mt) (m_back mt) l (m_height mt).
Definition with_score (s : S) (mt : node_meta) : node_meta :=
  mk_meta (s, (m_key mt).2) (m_back mt) (m_levels mt) (m_height mt).

Lemma set_backward_spec zsl x b mt :
  metas zsl !! x = Some mt ->
  exists zsl', set_backward zsl x b = Some zsl' /\ keeps_levels zsl zsl' /\
    metas zsl' = <[x := with_back b mt]> (metas zsl).
Proof. intros H. by apply (upd_node_spec _ _ _ (with_back b) _ H). Qed.

Lemma set_levels_spec zsl x l mt :
  metas zsl !! x = Some mt ->
  exists zsl', set_levels zsl x l = Some zsl' /\ keeps_levels zsl zsl' /\
    metas zsl' = <[x := with_levels l mt]> (metas zsl).
Proof. intros H. by apply (upd_node_spec _ _ _ (with_levels l) _ H). Qed.

Lemma set_score_spec zsl x s mt :
  metas zsl !! x = Some mt ->
  exists zsl', set_score zsl x s = Some zsl' /\ keeps_levels zsl zsl' /\
    metas zsl' = <[x := with_score s mt]> (metas zsl).
Proof. intros H. by apply (upd_node_spec _ _ _ (with_score s) _ H). Qed.

(** Changes that keep the heights. *)
Lemma height_insert m x mt mt' y :
  m !! x = Some mt -> m_height mt' = m_height mt -> height (<[x := mt']> m) y = height m y.
Proof.
  intros H E. unfold height. destruct (decide (y = x)) as [->|].
  - by rewrite lookup_insert_eq, H.
  - by rewrite lookup_insert_ne.
Qed.

(** The loops over the levels. *)
Lemma for_levels_spec (Q : nat -> gmap ptr zskiplistLevel -> Prop) body n i zsl :
  (forall j z, (i <= j < i + n)%nat -> metas z = metas zsl -> scalars z = scalars zsl ->
     lvl z j = lvl zsl j ->
     exists z', body j z = Some z' /\ touches j z z' /\ Q j (lvl z' j)) ->
  exists zsl', for_levels n i body zsl = Some zsl' /\
    metas zsl' = metas zsl /\ scalars zsl' = scalars zsl /\
    (forall j, (i <= j < i + n)%nat -> Q j (lvl zsl' j)) /\
    (forall j, ~ (i <= j < i + n)%nat -> lvl zsl' j = lvl zsl j).
Proof.
  revert i zsl. induction n as [|n IH]; intros i zsl Hb; cbn [for_levels].
  { exists zsl. split_and!; try done. intros j ?. lia. }
  destruct (Hb i zsl) as (z & -> & [Hm Hs Hl] & HQ); [lia|done..|]. mred.
  destruct (IH (Datatypes.S i) z) as (zsl' & -> & Hm' & Hs' & HQ' & Hl').
  { intros j z' Hj E1 E2 E3. apply Hb; [lia|congruence..|]. rewrite E3. apply Hl. lia. }
  exists zsl'. split_and!; [done|congruence..| |].
  - intros j Hj. destruct (decide (j = i)) as [->|]; [rewrite Hl' by lia; done|apply HQ'; lia].
  - intros j Hj. rewrite Hl' by lia. apply Hl. lia.
Qed.

End views.
Arguments node_meta : clear implicits.

(** ** The links of one level *)

Section links.
Variable H : ptr -> nat.
Implicit Types (m : gmap ptr zskiplistLevel) (C M P T : list ptr).

Definition link_ok (i : nat) (l : list ptr) (lv : zskiplistLevel) : Prop :=
  forward lv = (hop H i l).1 /\ ((0 < i)%nat -> span lv = Z.of_nat (hop H i l).2).

Fixpoint level_ok (i : nat) (C : list ptr) (m : gmap ptr zskiplistLevel) : Prop :=
  match C with
  | [] => True
  | x :: C => ((i < H x)%nat -> exists lv, m !! x = Some lv /\ link_ok i C lv) /\ level_ok i C m
  end.

Lemma level_ok_lookup i P x M m :
  level_ok i (P ++ x :: M) m -> (i < H x)%nat -> exists lv, m !! x = Some lv /\ link_ok i M lv.
Proof. induction P as [|p P IH]; cbn; intros [Hx Hok] Hi; [by apply Hx|by apply IH]. Qed.

Lemma level_ok_app_r i P M m : level_ok i (P ++ M) m -> level_ok i M m.
Proof. induction P as [|p P IH]; cbn; [done|]. intros [_ Hok]. by apply IH. Qed.

Lemma level_ok_frame i C m m' :
  (forall y, y ∈ C -> m' !! y = m !! y) -> level_ok i C m -> level_ok i C m'.
Proof.
  induction C as [|x C IH]; cbn; [done|]. intros E [Hx Hok]. split.
  - intros Hi. destruct (Hx Hi) as (lv & Hlv & Hl). exists lv. rewrite E by left. done.
  - apply IH; [|done]. intros y Hy. apply E. by right.
Qed.

(** Nodes that do not reach the level. *)
Lemma level_ok_low i M C m :
  (hop H i M).1 = None -> (level_ok i (M ++ C) m <-> level_ok i C m).
Proof.
  rewrite hop_None_heights. induction M as [|x M IH]; cbn; [done|]. intros Hl.
  rewrite IH by (intros; apply Hl; by right). split; [by intros [_ ?]|].
  intros Hok. split; [|done]. specialize (Hl x ltac:(left)). intros ?. lia.
Qed.

(** A change of the links at [u] and behind it is not seen in front of [u]. *)
Lemma level_ok_prefix i P u T T' m m' lv :
  (forall y, y ∈ P -> m' !! y = m !! y) -> (i < H u)%nat ->
  m' !! u = Some lv -> link_ok i T' lv ->
  level_ok i (P ++ u :: T) m -> level_ok i T' m' -> level_ok i (P ++ u :: T') m'.
Proof.
  intros E Hu Hlu Hlk. induction P as [|p P IH]; cbn.
  - intros _ HT. split; [|done]. intros _. by exists lv.
  - intros [Hp Hok] HT. split; [|by apply IH; [intros y Hy; apply E; right|..]].
    intros Hi. destruct (Hp Hi) as (lp & Hlp & Hl). exists lp. rewrite E by left. split; [done|].
    assert (forall T, hop H i (P ++ u :: T) = hop H i (P ++ [u])) as Eq.
    { intros T0. change (u :: T0) with ([u] ++ T0). rewrite (assoc_L (++)).
      destruct (hop_app_inv H i (P ++ [u]) T0) as [(y & _ & ?)|(Hn & _)]; [done|].
      rewrite hop_None_heights in Hn. specialize (Hn u).
      rewrite elem_of_app, list_elem_of_singleton in Hn. specialize (Hn (or_intror eq_refl)). lia. }
    unfold link_ok in *. by rewrite Eq in *.
Qed.
End links.

Lemma link_ok_ext H H' i l lv :
  (forall y, y ∈ l -> H y = H' y) -> link_ok H i l lv -> link_ok H' i l lv.
Proof. intros E. unfold link_ok. by rewrite (hop_ext H H'). Qed.

Lemma level_ok_ext H H' i C m :
  (forall y, y ∈ C -> H y = H' y) -> level_ok H i C m -> level_ok H' i C m.
Proof.
  induction C as [|x C IH]; cbn; [done|]. intros E [Hx Hok]. split.
  - rewrite <- E by left. intros Hi. destruct (Hx Hi) as (lv & ? & ?). exists lv. split; [done|].
    eapply link_ok_ext; [|done]. intros y Hy. apply E. by right.
  - apply IH; [|done]. intros y Hy. apply E. by right.
Qed.

(** ** The nodes *)

Section nodes.
Context {S : Type}.
Implicit Types (m : gmap ptr (node_meta S)) (L : list (ptr * (S * list Z))).

(** Each node holds its element and points back to the one before it. *)
Fixpoint nodes_ok (top : Z) m (prev : option ptr) L : Prop :=
  match L with
  | [] => True
  | (x, k) :: L =>
    (exists h, (1 <= h)%nat /\ Z.of_nat h <= top /\ m !! x = Some (mk_meta k prev (Z.of_nat h) h)) /\
    nodes_ok top m (Some x) L
  end.

Definition prev_of (prev : option ptr) (l : list ptr) : option ptr :=
  match last l with Some y => Some y | None => prev end.

Lemma prev_of_cons p x l : prev_of p (x :: l) = prev_of (Some x) l.
Proof. unfold prev_of. rewrite last_cons. by destruct (last l). Qed.

Lemma nodes_ok_app top m p A B :
  nodes_ok top m p (A ++ B) <-> nodes_ok top m p A /\ nodes_ok top m (prev_of p A.*1) B.
Proof.
  revert p. induction A as [|[x k] A IH]; intros p; cbn [app nodes_ok fmap list_fmap fst].
  - unfold prev_of. cbn. tauto.
  - rewrite IH, prev_of_cons. tauto.
Qed.

Lemma nodes_ok_frame top m m' p L :
  (forall y, y ∈ L.*1 -> m' !! y = m !! y) -> nodes_ok top m p L -> nodes_ok top m' p L.
Proof.
  revert p. induction L as [|[x k] L IH]; intros p; cbn; [done|]. intros E [(h & ? & ? & ?) Hok].
  split.
  - exists h. rewrite E by left. done.
  - apply IH; [|done]. intros y Hy. apply E. by right.
Qed.

Lemma nodes_ok_top top top' m p L :
  (forall y, y ∈ L.*1 -> Z.of_nat (height m y) <= top') ->
  nodes_ok top m p L -> nodes_ok top' m p L.
Proof.
  revert p. induction L as [|[x k] L IH]; intros p; cbn; [done|]. intros E [(h & H1 & H2 & H3) Hok].
  split.
  - exists h. split; [done|]. split; [|done]. specialize (E x ltac:(left)). unfold height in E.
    by rewrite H3 in E.
  - apply IH; [|done]. intros y Hy. apply E. by right.
Qed.

Lemma nodes_ok_lookup top m p A x k B :
  nodes_ok top m p (A ++ (x, k) :: B) ->
  exists h, (1 <= h)%nat /\ Z.of_nat h <= top /\
    m !! x = Some (mk_meta k (prev_of p A.*1) (Z.of_nat h) h).
Proof. rewrite nodes_ok_app. by intros [_ [? _]]. Qed.

Lemma nodes_ok_height top m p L x :
  nodes_ok top m p L -> x ∈ L.*1 -> (1 <= height m x)%nat /\ Z.of_nat (height m x) <= top.
Proof.
  intros Hok ([x' k] & -> & Hin)%list_elem_of_fmap.
  apply list_elem_of_split in Hin as (A & B & ->).
  destruct (nodes_ok_lookup _ _ _ _ _ _ _ Hok) as (h & ? & ? & E). unfold height. cbn.
  by rewrite E.
Qed.

Definition with_hd_back (m : gmap ptr (node_meta S)) (b : option ptr) (l : list ptr) :
    gmap ptr (node_meta S) :=
  match l with
  | y :: _ => alter (with_back b) y m
  | [] => m
  end.

Lemma nodes_ok_hd top m p p' L :
  NoDup L.*1 -> nodes_ok top m p L -> nodes_ok top (with_hd_back m p' L.*1) p' L.
Proof.
  destruct L as [|[x k] L]; [done|]. cbn. intros [Hx _]%NoDup_cons [(h & ? & ? & E) Hok]. split.
  - exists h. rewrite lookup_alter_eq, E. done.
  - eapply nodes_ok_frame; [|done]. intros y Hy. apply lookup_alter_ne. by intros <-.
Qed.

Lemma with_hd_back_ne m b l y : y ∉ l -> with_hd_back m b l !! y = m !! y.
Proof.
  destruct l as [|x l]; [done|]. cbn. rewrite not_elem_of_cons. intros [Hy _].
  by apply lookup_alter_ne.
Qed.

Lemma height_hd_back m b l y : height (with_hd_back m b l) y = height m y.
Proof.
  destruct l as [|x l]; [done|]. cbn. unfold height. destruct (decide (y = x)) as [->|].
  - rewrite lookup_alter_eq. by destruct (m !! x).
  - by rewrite lookup_alter_ne.
Qed.
End nodes.

Lemma list_to_set_mid (hd x : ptr) (LA LB : list ptr) :
  (list_to_set (hd :: LA ++ x :: LB) : gset ptr) = {[x]} ∪ list_to_set (hd :: LA ++ LB).
Proof. cbn. rewrite !list_to_set_app_L. cbn. set_solver. Qed.


(** ** The invariant *)

Section invariant.
#[local] Set Default Proof Using "Type*".
Context {S : Type} (score_lt : S -> S -> bool) `{!StrictWeak score_lt}.
Implicit Types (zsl : zskiplist S) (x y : ptr) (L : list (ptr * (S * list Z))).

Abbreviation key := (S * list Z)%type.
Abbreviation klt := (klt score_lt).
Abbreviation ht zsl := (height (metas zsl)).

(** The skiplist holds the elements [L], each at its address, in order. *)
Record links zsl L : Prop := {
  r_nodup : NoDup (zsl_header zsl :: L.*1);
  r_hdr : ht zsl (zsl_header zsl) = 32%nat;
  r_nodes : nodes_ok (zsl_level zsl) (metas zsl) None L;
  r_lvl i : Z.of_nat i < zsl_level zsl -> level_ok (ht zsl) i (zsl_header zsl :: L.*1) (lvl zsl i);
  r_top i : zsl_level zsl <= Z.of_nat i < 32 ->
    exists lv, lvl zsl i !! zsl_header zsl = Some lv /\ forward lv = None;
  r_tail : zsl_tail zsl = last L.*1;
  r_len : zsl_length zsl = Z.of_nat (length L);
  r_max : Z.of_nat (length L) < 2 ^ 64;
  r_level : 1 <= zsl_level zsl <= 32;
  r_sorted : StronglySorted klt L.*2
}.

(** No level is empty, except level 0. *)
Definition high zsl L : Prop :=
  zsl_level zsl = 1 \/ exists x, x ∈ L.*1 /\ Z.of_nat (ht zsl x) = zsl_level zsl.

Definition rep zsl L : Prop := links zsl L /\ high zsl L.

Lemma links_height zsl L x :
  links zsl L -> x ∈ L.*1 -> (1 <= ht zsl x)%nat /\ Z.of_nat (ht zsl x) <= zsl_level zsl.
Proof. intros R. apply nodes_ok_height with None, R. Qed.

(** The link of a node, with the span the code reads. *)
Lemma links_at zsl L P x M i :
  links zsl L -> zsl_header zsl :: L.*1 = P ++ x :: M ->
  (i < ht zsl x)%nat -> Z.of_nat i < zsl_level zsl ->
  exists lv, level_at zsl x i = Some lv /\ link_ok (ht zsl) i M lv /\
    zslGetNodeSpanAtLevel zsl x i = Some (Z.of_nat (hop (ht zsl) i M).2).
Proof.
  intros R E Hi Hl. pose proof (r_lvl _ _ R i Hl) as Hok. rewrite E in Hok.
  destruct (level_ok_lookup _ _ _ _ _ _ Hok Hi) as (lv & Hlv & Hlk).
  exists lv. rewrite level_at_lvl. split; [done|]. split; [done|].
  unfold zslGetNodeSpanAtLevel. rewrite level_at_lvl, Hlv. mred. destruct Hlk as [Hf Hs].
  destruct i as [|i]; [|by rewrite Hs by lia]. rewrite Hf, hop_0; [by destruct M|].
  intros y Hy. apply (links_height zsl L); [done|].
  destruct P as [|p P]; cbn in E; injection E as _ ->; [done|]. apply elem_of_app. right. by right.
Qed.

(** ** The search *)

Definition position_of (A : list ptr) zsl (i : nat) (u : ptr * Z) : Prop :=
  exists P M, zsl_header zsl :: A = P ++ u.1 :: M /\ u.2 = Z.of_nat (length P) /\
    (hop (ht zsl) i M).1 = None /\ (i < ht zsl u.1)%nat.

(** The test of a search holds on the nodes of [A] and fails on those of [B]. *)
Record search zsl L (cond : option ptr -> option bool) (A B : list ptr) : Prop := {
  sr_split : L.*1 = A ++ B;
  sr_null : cond None = Some false;
  sr_before : forall y, y ∈ A -> cond (Some y) = Some true;
  sr_after : forall y, y ∈ B -> cond (Some y) = Some false
}.

Lemma links_length zsl L : links zsl L -> Z.of_nat (length L.*1) < 2 ^ 64.
Proof. intros R. rewrite length_fmap. apply R. Qed.

Lemma walk_spec zsl L cond A B fuel i P x M :
  links zsl L -> search zsl L cond A B -> zsl_header zsl :: A = P ++ x :: M ->
  (i < ht zsl x)%nat -> Z.of_nat i < zsl_level zsl -> (length M < fuel)%nat ->
  exists u, walk fuel zsl cond i x (Z.of_nat (length P)) = Some u /\ position_of A zsl i u.
Proof.
  intros R Sr. revert P x M. induction fuel as [|fuel IH]; intros P x M E Hi Hl Hf; [lia|].
  assert (zsl_header zsl :: L.*1 = P ++ x :: M ++ B) as EL.
  { rewrite (sr_split _ _ _ _ _ Sr), app_comm_cons, E, <- (assoc_L (++)). done. }
  destruct (links_at zsl L _ _ _ i R EL Hi Hl) as (lv & Hlv & [Hfw _] & Hsp).
  cbn [walk]. rewrite Hlv. mred. rewrite Hfw.
  destruct (hop_app_inv (ht zsl) i M B) as [(y & Hy & Eq)|(Hn & Eq)].
  - rewrite Eq in Hsp |- *. rewrite Hy.
    destruct (hop_Some _ _ _ _ Hy) as (a & b & -> & Hk & Ha & Hiy).
    assert (zsl_header zsl :: A = (P ++ x :: a) ++ y :: b) as E'.
    { rewrite E, <- (assoc_L (++)). done. }
    assert (y ∈ A) as HyA.
    { destruct P as [|p P]; cbn in E; injection E as _ ->; apply elem_of_app; right; [left|].
      right. apply elem_of_app. right. left. }
    rewrite (sr_before _ _ _ _ _ Sr y HyA). mred. rewrite Hsp. mred. rewrite Hk.
    assert (u64 (Z.of_nat (length P) + Z.of_nat (Datatypes.S (length a))) =
            Z.of_nat (length (P ++ x :: a))) as ->.
    { pose proof (links_length _ _ R) as Hlen. apply (f_equal length) in EL. cbn in EL.
      rewrite !length_app in *. cbn [length] in *. rewrite !length_app in *. cbn [length] in *.
      rewrite wrapu_small; [lia|]. unfold in_u. lia. }
    apply (IH _ _ b E'); [done|done|]. rewrite length_app in Hf. cbn in Hf. lia.
  - rewrite Eq. cbn [fst].
    assert (cond (hop (ht zsl) i B).1 = Some false) as ->.
    { destruct ((hop (ht zsl) i B).1) as [y|] eqn:Hy; [|apply Sr].
      destruct (hop_Some _ _ _ _ Hy) as (a & b & -> & _). apply (sr_after _ _ _ _ _ Sr).
      apply elem_of_app. right. left. }
    mred. eexists. split; [done|]. exists P, M. by cbn.
Qed.

Lemma descend_spec zsl L cond A B n P x M acc :
  links zsl L -> search zsl L cond A B -> zsl_header zsl :: A = P ++ x :: M ->
  (n <= ht zsl x)%nat -> Z.of_nat n <= zsl_level zsl ->
  exists us, descend n zsl cond x (Z.of_nat (length P)) acc = Some (us ++ acc) /\
    length us = n /\ forall i u, us !! i = Some u -> position_of A zsl i u.
Proof.
  intros R Sr. revert P x M acc. induction n as [|n IH]; intros P x M acc E Hn Hl.
  { exists []. split; [done|]. split; [done|]. by intros i u. }
  cbn [descend].
  destruct (walk_spec zsl L cond A B (walk_fuel zsl) n P x M R Sr E) as ([y r] & -> & Hu);
    [lia|lia| |].
  { unfold walk_fuel. rewrite (r_len _ _ R), Nat2Z.id. apply (f_equal length) in E.
    rewrite length_app in E. cbn in E. pose proof (f_equal length (sr_split _ _ _ _ _ Sr)) as El.
    rewrite length_fmap, length_app in El. lia. }
  mred. pose proof Hu as (P' & M' & E' & Hr & Hnone & Hh). cbn in E', Hr, Hh. subst r.
  destruct (IH P' y M' ((y, Z.of_nat (length P')) :: acc) E') as (us & -> & Hlen & Hus); [lia|lia|].
  exists (us ++ [(y, Z.of_nat (length P'))]). rewrite <- (assoc_L (++)). split; [done|].
  rewrite length_app, Hlen. cbn. split; [lia|]. intros i u Hi.
  apply lookup_app_Some in Hi as [Hi|[Hge Hi]]; [by apply Hus|].
  rewrite Hlen in *. destruct (i - n)%nat as [|] eqn:Ei; [|done]. cbn in Hi. simplify_eq.
  by replace i with (length us) by lia.
Qed.

(** All the levels, from the header. *)
Lemma descend_all zsl L cond A B :
  links zsl L -> search zsl L cond A B ->
  exists us, descend (Z.to_nat (zsl_level zsl)) zsl cond (zsl_header zsl) 0 [] = Some us /\
    length us = Z.to_nat (zsl_level zsl) /\
    forall i u, us !! i = Some u -> position_of A zsl i u.
Proof.
  intros R Sr. pose proof (r_level _ _ R).
  destruct (descend_spec zsl L cond A B (Z.to_nat (zsl_level zsl)) [] (zsl_header zsl) A [] R Sr)
    as (us & H1 & H2 & H3); [done|rewrite (r_hdr _ _ R); lia|lia|].
  exists us. rewrite app_nil_r in H1. auto.
Qed.

(** ** The effect of the loop bodies on one level *)

Lemma link_ok_cons_low (H : ptr -> nat) i M N lv :
  (hop H i M).1 = None ->
  link_ok H i (M ++ N) lv <->
    forward lv = (hop H i N).1 /\ ((0 < i)%nat -> span lv = Z.of_nat (length M) + Z.of_nat (hop H i N).2).
Proof.
  intros Hn. unfold link_ok. rewrite hop_app_None by done. cbn.
  split; intros [? Hs]; (split; [done|]; intros Hi; specialize (Hs Hi); lia).
Qed.

Lemma hop_here (H : ptr -> nat) i x N : (i < H x)%nat -> hop H i (x :: N) = (Some x, 1%nat).
Proof. intros Hx. cbn. by rewrite decide_True. Qed.

Lemma hop_below (H : ptr -> nat) i x N :
  (H x <= i)%nat -> hop H i (x :: N) = ((hop H i N).1, Datatypes.S (hop H i N).2).
Proof. intros Hx. cbn. rewrite decide_False by lia. by destruct (hop H i N). Qed.

Lemma get_span_lvl zsl x i lv :
  lvl zsl i !! x = Some lv ->
  exists sp, zslGetNodeSpanAtLevel zsl x i = Some sp /\ ((0 < i)%nat -> sp = span lv).
Proof.
  intros E. unfold zslGetNodeSpanAtLevel. rewrite level_at_lvl, E. mred.
  destruct i; cbn; eexists; (split; [done|]); [lia|done].
Qed.

Lemma NoDup_mid (P : list ptr) u M x N :
  NoDup (P ++ u :: M ++ x :: N) ->
  u <> x /\ (forall y, y ∈ P -> y <> u /\ y <> x) /\ (forall y, y ∈ M -> y <> u /\ y <> x) /\
  (forall y, y ∈ N -> y <> u /\ y <> x).
Proof.
  rewrite NoDup_app, NoDup_cons, NoDup_app, NoDup_cons.
  setoid_rewrite elem_of_cons. setoid_rewrite elem_of_app. setoid_rewrite elem_of_cons.
  intros (_ & H1 & H2 & _ & H3 & H4 & _). split_and!.
  - intros ->. apply H2. auto.
  - intros y Hy. specialize (H1 y Hy). split; intros ->; apply H1; auto.
  - intros y Hy. specialize (H3 y Hy). split; intros ->; [apply H2; auto|apply H3; auto].
  - intros y Hy. split; intros ->; [apply H2; auto|by apply H4].
Qed.

Ltac lvl_frame D :=
  let y := fresh "y" in let Hy := fresh "Hy" in
  intros y Hy; destruct (D y Hy) as [? ?]; rewrite ?lookup_insert_ne by congruence; reflexivity.

Lemma link_level_spec zsl x update rank0 i u P M N :
  update !! i = Some (u, Z.of_nat (length P)) ->
  NoDup (P ++ u :: M ++ x :: N) -> Z.of_nat (length (P ++ u :: M ++ x :: N)) <= 2 ^ 64 ->
  (i < ht zsl u)%nat -> (i < ht zsl x)%nat -> (hop (ht zsl) i M).1 = None ->
  rank0 = Z.of_nat (length P) + Z.of_nat (length M) ->
  level_ok (ht zsl) i (P ++ u :: M ++ N) (lvl zsl i) ->
  exists z, link_level x update rank0 i zsl = Some z /\ touches i zsl z /\
    level_ok (ht zsl) i (P ++ u :: M ++ x :: N) (lvl z i).
Proof.
  intros Hup Hnd Hlen Hu Hx Hn Hr0 Hok. set (H := ht zsl) in *.
  destruct (NoDup_mid _ _ _ _ _ Hnd) as (Dux & DP & DM & DN).
  destruct (level_ok_lookup _ _ _ _ _ _ Hok Hu) as (lu & Elu & Hlu).
  destruct (height_lvl zsl x i Hx) as [lx Elx].
  unfold link_level. rewrite Hup. mred. rewrite level_at_lvl, Elu. mred.
  destruct (set_forward_spec zsl x i lx (forward lu) Elx) as (z1 & -> & T1 & E1). mred.
  assert (lvl z1 i !! u = Some lu) as Elu1 by (rewrite E1, lookup_insert_ne; done).
  destruct (set_forward_spec z1 u i lu (Some x) Elu1) as (z2 & -> & T2 & E2). mred.
  assert (lvl z2 i !! u = Some (mk_level (Some x) (span lu))) as Elu2 by (rewrite E2, lookup_insert_eq; done).
  destruct (get_span_lvl z2 u i _ Elu2) as (sp & -> & Hsp). mred.
  assert (lvl z2 i !! x = Some (mk_level (forward lu) (span lx))) as Elx2
    by (rewrite E2, lookup_insert_ne, E1, lookup_insert_eq; done).
  destruct (zslSetNodeSpanAtLevel_spec z2 x i _ (u64 (sp - (rank0 - Z.of_nat (length P)))) Elx2)
    as (z3 & -> & T3 & E3). mred.
  assert (lvl z3 i !! u = Some (mk_level (Some x) (span lu))) as Elu3
    by (rewrite E3, lookup_insert_ne; done).
  destruct (zslSetNodeSpanAtLevel_spec z3 u i _ (u64 (rank0 - Z.of_nat (length P) + 1)) Elu3)
    as (z4 & -> & T4 & E4).
  exists z4. split; [done|]. split; [by rewrite T1, T2, T3|].
  rewrite E4, E3, E2, E1. cbn [forward span].
  apply link_ok_cons_low in Hlu as [Hfw Hspu]; [|done].
  pose proof (hop_le H i N) as HleN. rewrite !length_app in Hlen. cbn in Hlen.
  rewrite !length_app in Hlen. cbn in Hlen.
  eapply level_ok_prefix; [lvl_frame DP|exact Hu|apply lookup_insert_eq| |exact Hok|].
  - apply link_ok_cons_low; [done|]. rewrite hop_here by done. cbn. split; [done|]. intros Hi.
    rewrite above0_pos by done. rewrite Hr0, wrapu_small; [lia|]. unfold in_u. lia.
  - apply level_ok_low; [done|]. split.
    + intros _. eexists. rewrite lookup_insert_ne, lookup_insert_eq by done. split; [done|].
      split; [done|]. cbn. intros Hi. rewrite above0_pos by done.
      rewrite Hsp by done. cbn. rewrite Hspu, Hr0 by done. rewrite wrapu_small; [lia|].
      unfold in_u. lia.
    + apply (level_ok_frame _ _ _ (lvl zsl i)); [lvl_frame DN|].
      apply (level_ok_app_r _ _ (P ++ u :: M)). by rewrite <- (assoc_L (++)).
Qed.

Lemma incr_level_spec zsl x update i u r P M N :
  update !! i = Some (u, r) ->
  NoDup (P ++ u :: M ++ x :: N) -> Z.of_nat (length (P ++ u :: M ++ x :: N)) <= 2 ^ 64 ->
  (i < ht zsl u)%nat -> (ht zsl x <= i)%nat -> (hop (ht zsl) i M).1 = None ->
  level_ok (ht zsl) i (P ++ u :: M ++ N) (lvl zsl i) ->
  exists z, incr_level update i zsl = Some z /\ touches i zsl z /\
    level_ok (ht zsl) i (P ++ u :: M ++ x :: N) (lvl z i).
Proof.
  intros Hup Hnd Hlen Hu Hx Hn Hok. set (H := ht zsl) in *.
  destruct (NoDup_mid _ _ _ _ _ Hnd) as (Dux & DP & DM & DN).
  destruct (level_ok_lookup _ _ _ _ _ _ Hok Hu) as (lu & Elu & Hlu).
  unfold incr_level. rewrite Hup. mred.
  destruct (zslIncrNodeSpanAtLevel_spec zsl u i lu 1 Elu) as (z1 & -> & T1 & E1).
  exists z1. split; [done|]. split; [done|]. rewrite E1.
  apply link_ok_cons_low in Hlu as [Hfw Hspu]; [|done].
  pose proof (hop_le H i N) as HleN. rewrite !length_app in Hlen. cbn in Hlen.
  rewrite !length_app in Hlen. cbn in Hlen.
  eapply level_ok_prefix; [lvl_frame DP|exact Hu|apply lookup_insert_eq| |exact Hok|].
  - apply link_ok_cons_low; [done|]. rewrite hop_below by done. cbn. split; [done|]. intros Hi.
    rewrite above0_pos, Hspu by done. rewrite wrapu_small; [lia|]. unfold in_u. lia.
  - apply level_ok_low; [done|]. split; [unfold H in *; lia|].
    apply (level_ok_frame _ _ _ (lvl zsl i)); [lvl_frame DN|].
    apply (level_ok_app_r _ _ (P ++ u :: M)). by rewrite <- (assoc_L (++)).
Qed.

Lemma u64_sub_add a b : in_u 64 (a + b - 1) -> u64 (a + u64 (b - 1)) = a + b - 1.
Proof.
  intros Hab. unfold wrapu. rewrite Zplus_mod_idemp_r. replace (a + (b - 1)) with (a + b - 1) by lia.
  by apply Z.mod_small.
Qed.

Lemma unlink_level_spec zsl x update i u r P M N :
  update !! i = Some (u, r) ->
  NoDup (P ++ u :: M ++ x :: N) -> Z.of_nat (length (P ++ u :: M ++ x :: N)) <= 2 ^ 64 ->
  (i < ht zsl u)%nat -> (hop (ht zsl) i M).1 = None ->
  level_ok (ht zsl) i (P ++ u :: M ++ x :: N) (lvl zsl i) ->
  exists z, unlink_level x update i zsl = Some z /\ touches i zsl z /\
    lvl z i !! x = lvl zsl i !! x /\ level_ok (ht zsl) i (P ++ u :: M ++ N) (lvl z i).
Proof.
  intros Hup Hnd Hlen Hu Hn Hok. set (H := ht zsl) in *.
  destruct (NoDup_mid _ _ _ _ _ Hnd) as (Dux & DP & DM & DN).
  destruct (level_ok_lookup _ _ _ _ _ _ Hok Hu) as (lu & Elu & Hlu).
  apply link_ok_cons_low in Hlu as [Hfw Hspu]; [|done].
  pose proof (hop_le H i N) as HleN. rewrite !length_app in Hlen. cbn in Hlen.
  rewrite !length_app in Hlen. cbn in Hlen.
  unfold unlink_level. rewrite Hup. mred. rewrite level_at_lvl, Elu. mred.
  assert (level_ok H i N (lvl zsl i)) as HokN.
  { apply (level_ok_app_r _ _ (P ++ u :: M ++ [x])). by rewrite <- !(assoc_L (++)); cbn; rewrite <- (assoc_L (++)). }
  destruct (decide (i < H x)%nat) as [Hix|Hix].
  - rewrite hop_here in Hfw, Hspu by done. cbn in Hfw, Hspu. rewrite decide_True by done.
    destruct (level_ok_lookup H i (P ++ u :: M) x N (lvl zsl i)) as (lx & Elx & Hlx); [|done|].
    { by rewrite <- (assoc_L (++)). }
    destruct (get_span_lvl zsl x i lx Elx) as (sp & -> & Hsp). mred.
    destruct (zslIncrNodeSpanAtLevel_spec zsl u i lu (u64 (sp - 1)) Elu) as (z1 & -> & T1 & E1). mred.
    rewrite level_at_lvl, E1, lookup_insert_ne, Elx by done. mred.
    edestruct (set_forward_spec z1 u i) as (z2 & E & T2 & E2); [by rewrite E1, lookup_insert_eq|].
    rewrite E. exists z2. split; [done|]. split; [by rewrite T1|]. rewrite E2, E1.
    split; [by rewrite !lookup_insert_ne|]. cbn [span].
    eapply level_ok_prefix; [lvl_frame DP|exact Hu|apply lookup_insert_eq| |exact Hok|].
    + destruct Hlx as [Hfx Hsx]. apply link_ok_cons_low; [done|]. cbn. split; [done|]. intros Hi.
      rewrite above0_pos, Hsp, Hsx, Hspu by done. rewrite u64_sub_add; [lia|]. unfold in_u. lia.
    + apply level_ok_low; [done|]. apply (level_ok_frame _ _ _ (lvl zsl i)); [lvl_frame DN|done].
  - rewrite hop_below in Hfw, Hspu by lia. cbn in Hfw, Hspu. rewrite decide_False.
    2:{ rewrite Hfw. intros Hf. destruct (hop_Some _ _ _ _ Hf) as (a & b & -> & _).
        destruct (DN x); [apply elem_of_app; right; left|done]. }
    destruct (zslDecrNodeSpanAtLevel_spec zsl u i lu 1 Elu) as (z1 & -> & T1 & E1).
    exists z1. split; [done|]. split; [done|]. rewrite E1. split; [by rewrite lookup_insert_ne|].
    eapply level_ok_prefix; [lvl_frame DP|exact Hu|apply lookup_insert_eq| |exact Hok|].
    + apply link_ok_cons_low; [done|]. cbn. split; [done|]. intros Hi.
      rewrite above0_pos, Hspu by done. rewrite wrapu_small; [lia|]. unfold in_u. lia.
    + apply level_ok_low; [done|]. apply (level_ok_frame _ _ _ (lvl zsl i)); [lvl_frame DN|done].
Qed.

(** ** Insertion of a node *)

Lemma chain_split (hd u : ptr) (A P M T : list ptr) :
  hd :: A = P ++ u :: M -> hd :: A ++ T = P ++ u :: M ++ T.
Proof. intros E. by rewrite app_comm_cons, E, <- (assoc_L (++)). Qed.

Lemma chain_mem (hd u y : ptr) (A P M : list ptr) : hd :: A = P ++ u :: M -> y ∈ M -> y ∈ A.
Proof.
  intros E Hy. destruct P as [|p P]; cbn in E; injection E as _ ->; [done|].
  apply elem_of_app. right. by right.
Qed.

(** The update array of a search that stops behind [A]. *)
Definition update_ok zsl (A : list ptr) (us : list (ptr * Z)) : Prop :=
  forall i, Z.of_nat i < zsl_level zsl -> exists u, us !! i = Some u /\ position_of A zsl i u.

Lemma descend_update zsl L cond A B :
  links zsl L -> search zsl L cond A B ->
  exists us, descend (Z.to_nat (zsl_level zsl)) zsl cond (zsl_header zsl) 0 [] = Some us /\
    length us = Z.to_nat (zsl_level zsl) /\ update_ok zsl A us.
Proof.
  intros R Sr. destruct (descend_all zsl L cond A B R Sr) as (us & -> & Hlen & Hus).
  exists us. split; [done|]. split; [done|]. intros i Hi.
  destruct (lookup_lt_is_Some_2 us i) as [u Hu]; [lia|]. exists u. auto.
Qed.

(** At level 0 the search stops at the last node of [A]. *)
Lemma position_0 zsl A B u :
  (forall y, y ∈ A ++ B -> (1 <= ht zsl y)%nat) -> position_of A zsl 0 u ->
  exists P, zsl_header zsl :: A = P ++ [u.1] /\ u.2 = Z.of_nat (length A).
Proof.
  intros Hh (P & M & E & Hr & Hn & _). assert (M = []) as ->.
  { destruct M as [|y M]; [done|]. rewrite hop_None_heights in Hn. specialize (Hn y ltac:(left)).
    assert (1 <= ht zsl y)%nat; [|lia]. apply Hh, elem_of_app. left.
    eapply chain_mem; [exact E|]. left. }
  exists P. split; [done|]. rewrite Hr. apply (f_equal length) in E. rewrite length_app in E.
  cbn in E. lia.
Qed.

Lemma scalars_eq zsl zsl' :
  scalars zsl' = scalars zsl ->
  zsl_header zsl' = zsl_header zsl /\ zsl_tail zsl' = zsl_tail zsl /\
  zsl_length zsl' = zsl_length zsl /\ zsl_level zsl' = zsl_level zsl.
Proof. unfold scalars. by intros [= -> -> -> ->]. Qed.

Lemma raise_spec zsl L h :
  links zsl L -> zsl_level zsl < h <= 32 ->
  exists z1 z2,
    for_levels (Z.to_nat (h - zsl_level zsl)) (Z.to_nat (zsl_level zsl)) raise_level zsl = Some z1 /\
    set_levels z1 (zsl_header z1) h = Some z2 /\ zsl_header z1 = zsl_header zsl /\
    links (set_level z2 h) L /\ zsl_header z2 = zsl_header zsl /\
    (forall y, ht z2 y = ht zsl y) /\ dom (metas z2) = dom (metas zsl) /\
    (forall y, y <> zsl_header zsl -> metas z2 !! y = metas zsl !! y).
Proof.
  intros R Hh. pose proof (r_level _ _ R) as Hlev.
  destruct (for_levels_spec (fun i m => exists lv, m = <[zsl_header zsl := lv]> (lvl zsl i) /\
      forward lv = None /\ span lv = zsl_length zsl)
    raise_level (Z.to_nat (h - zsl_level zsl)) (Z.to_nat (zsl_level zsl)) zsl)
    as (z1 & E1 & Hm1 & Hs1 & Hin & Hout).
  { intros j z Hj Hm (Ehd & _ & Elen & _)%scalars_eq El. unfold raise_level. rewrite Ehd, Elen.
    destruct (r_top _ _ R j) as (lv & Hlv & Hf); [lia|]. rewrite <- El in Hlv.
    destruct (zslSetNodeSpanAtLevel_spec z _ j lv (zsl_length zsl) Hlv) as (z' & -> & T & E).
    exists z'. split; [done|]. split; [done|]. eexists. rewrite E, El. split; [done|]. cbn.
    split; [done|]. apply above0_pos. lia. }
  pose proof Hs1 as (Ehd1 & Etl1 & Elen1 & Elev1)%scalars_eq.
  assert (exists mt, metas zsl !! zsl_header zsl = Some mt) as [mt Hmt].
  { pose proof (r_hdr _ _ R) as Hh32. unfold height in Hh32.
    destruct (metas zsl !! zsl_header zsl) as [mt|]; [by exists mt|done]. }
  destruct (set_levels_spec z1 (zsl_header z1) h mt) as (z2 & E2 & [Hs2 Hl2] & Hm2); [by rewrite Hm1, Ehd1|].
  pose proof Hs2 as (Ehd2 & Etl2 & Elen2 & Elev2)%scalars_eq.
  assert (forall y, ht z2 y = ht zsl y) as Hht.
  { intros y. rewrite Hm2, Hm1, Ehd1. eapply height_insert; [exact Hmt|done]. }
  exists z1, z2. split_and!; [done|done|done| |congruence|done| |].
  2:{ rewrite Hm2, Hm1, Ehd1. apply dom_insert_lookup_L. by rewrite Hmt. }
  2:{ intros y Hy. rewrite Hm2, Hm1, Ehd1. by rewrite lookup_insert_ne. }
  constructor; cbn [set_level zsl_header zsl_level zsl_tail zsl_length];
    change (metas (set_level z2 h)) with (metas z2).
  - rewrite Ehd2, Ehd1. apply R.
  - rewrite Hht, Ehd2, Ehd1. apply R.
  - apply (nodes_ok_top (zsl_level zsl)).
    + intros y Hy. rewrite Hht. pose proof (links_height _ _ _ R Hy). lia.
    + eapply nodes_ok_frame; [|apply R]. intros y Hy. rewrite Hm2, Hm1, Ehd1. apply lookup_insert_ne.
      intros <-. pose proof (r_nodup _ _ R) as [Hnd _]%NoDup_cons. done.
  - intros i Hi. change (lvl (set_level z2 h) i) with (lvl z2 i). rewrite Hl2, Ehd2, Ehd1.
    apply (level_ok_ext (ht zsl)); [intros y _; by rewrite Hht|].
    destruct (decide (Z.of_nat i < zsl_level zsl)) as [Hlt|Hge].
    + rewrite Hout by lia. by apply (r_lvl _ _ R).
    + destruct (Hin i) as (lv & -> & Hf & Hsp); [lia|].
      assert ((hop (ht zsl) i L.*1).1 = None) as Hn.
      { apply hop_None_heights. intros y Hy. pose proof (links_height _ _ _ R Hy). lia. }
      split.
      * intros _. exists lv. split; [apply lookup_insert_eq|]. split; [congruence|]. intros _.
        rewrite Hsp, hop_None, length_fmap by done. apply R.
      * rewrite <- (app_nil_r L.*1). by apply level_ok_low.
  - intros i Hi. change (lvl (set_level z2 h) i) with (lvl z2 i). rewrite Hl2, Ehd2, Ehd1, Hout by lia.
    apply (r_top _ _ R). lia.
  - rewrite Etl2, Etl1. apply R.
  - rewrite Elen2, Elen1. apply R.
  - apply R.
  - lia.
  - apply R.
Qed.

(** The loops that link [x] behind [A]. *)
Lemma link_levels_spec zsl L A B us x u0 rank0 :
  links zsl L -> L.*1 = A ++ B -> update_ok zsl A us -> us !! O = Some (u0, rank0) ->
  x ∉ zsl_header zsl :: L.*1 -> Z.of_nat (ht zsl x) <= zsl_level zsl ->
  Z.of_nat (length L) + 1 < 2 ^ 64 ->
  exists z1 z2,
    for_levels (ht zsl x) 0 (link_level x us rank0) zsl = Some z1 /\
    for_levels (Z.to_nat (zsl_level zsl) - ht zsl x) (ht zsl x) (incr_level us) z1 = Some z2 /\
    metas z2 = metas zsl /\ scalars z1 = scalars zsl /\ scalars z2 = scalars zsl /\
    (forall i, Z.of_nat i < zsl_level zsl ->
       level_ok (ht zsl) i (zsl_header zsl :: A ++ x :: B) (lvl z2 i)) /\
    (forall i, zsl_level zsl <= Z.of_nat i -> lvl z2 i = lvl zsl i).
Proof.
  intros R EL Hus Hu0 Hx Hh Hlen. pose proof (r_level _ _ R) as Hlev.
  destruct (Hus O) as (u & Hu & Hpos0); [lia|]. rewrite Hu0 in Hu. injection Hu as <-.
  destruct (position_0 zsl A B (u0, rank0)) as (P0 & EP0 & Hr0); [|done|].
  { intros y Hy. apply (links_height zsl L); [done|]. by rewrite EL. }
  cbn in EP0, Hr0.
  assert (NoDup (zsl_header zsl :: A ++ x :: B)) as Hnd.
  { assert (zsl_header zsl :: A ++ x :: B ≡ₚ x :: zsl_header zsl :: L.*1) as ->.
    { rewrite EL. rewrite <- (Permutation_middle A B x). apply perm_swap. }
    apply NoDup_cons. split; [done|apply R]. }
  assert (Z.of_nat (length (zsl_header zsl :: A ++ x :: B)) <= 2 ^ 64) as Hlen'.
  { apply (f_equal length) in EL. rewrite length_fmap, length_app in EL. cbn. rewrite length_app. cbn. lia. }
  destruct (for_levels_spec (fun i m => level_ok (ht zsl) i (zsl_header zsl :: A ++ x :: B) m)
    (link_level x us rank0) (ht zsl x) 0 zsl) as (z1 & E1 & Hm1 & Hs1 & Hin1 & Hout1).
  { intros i z Hi Hm Hs El. destruct (Hus i) as ([u r] & Hu & P & M & E & Hr & Hn & Hui); [lia|].
    cbn in E, Hr, Hui. rewrite <- Hm in Hn, Hui, Hi |- *. subst r.
    pose proof (chain_split _ _ _ _ _ (x :: B) E) as EC. rewrite EC in Hnd, Hlen' |- *.
    apply link_level_spec; try done; [lia| |].
    - rewrite Hr0. apply (f_equal length) in E. rewrite length_app in E. cbn in E. lia.
    - rewrite El, Hm, <- (chain_split _ _ _ _ _ B E), <- EL. apply (r_lvl _ _ R). rewrite Hm in Hi. lia. }
  destruct (for_levels_spec (fun i m => level_ok (ht zsl) i (zsl_header zsl :: A ++ x :: B) m)
    (incr_level us) (Z.to_nat (zsl_level zsl) - ht zsl x) (ht zsl x) z1)
    as (z2 & E2 & Hm2 & Hs2 & Hin2 & Hout2).
  { intros i z Hi Hm Hs El. destruct (Hus i) as ([u r] & Hu & P & M & E & Hr & Hn & Hui); [lia|].
    cbn in E, Hr, Hui. rewrite <- Hm1, <- Hm in Hn, Hui, Hi |- *.
    pose proof (chain_split _ _ _ _ _ (x :: B) E) as EC. rewrite EC in Hnd, Hlen' |- *.
    eapply incr_level_spec; try done; [lia|].
    rewrite El, Hm, Hm1, Hout1, <- (chain_split _ _ _ _ _ B E), <- EL
      by (rewrite Hm, Hm1 in Hi; lia).
    apply (r_lvl _ _ R). rewrite Hm, Hm1 in Hi. lia. }
  exists z1, z2. split_and!; [done|done|congruence|done|congruence| |].
  - intros i Hi. destruct (decide (i < ht zsl x)%nat).
    + rewrite Hout2 by lia. apply Hin1. lia.
    + apply Hin2. lia.
  - intros i Hi. rewrite Hout2 by lia. apply Hout1. lia.
Qed.

(** ** Searching by key *)

Abbreviation kcmp := (kcmp score_lt).

Lemma compare_kcmp s e n :
  zslCompareWithNode score_lt s e (Some n) = kcmp (s, e) (zn_score n, zn_ele n).
Proof. unfold zslCompareWithNode, Skiplist.kcmp. cbn. by rewrite sdscmp_lexcmp. Qed.

Lemma links_node zsl A y k B :
  links zsl (A ++ (y, k) :: B) ->
  exists n, node zsl y = Some n /\ (zn_score n, zn_ele n) = k /\ zn_backward n = last A.*1.
Proof.
  intros R. destruct (nodes_ok_lookup _ _ _ _ _ _ _ (r_nodes _ _ R)) as (h & _ & _ & E).
  destruct (metas_node _ _ _ E) as (n & Hn & [= <- Eb _ _]). exists n. split; [done|].
  split; [done|]. rewrite Eb. unfold prev_of. by destruct (last A.*1).
Qed.

(** A search by a test on the keys. *)
Lemma search_keys zsl L LA LB cond (f : key -> bool) :
  links zsl L -> L = LA ++ LB -> cond None = Some false ->
  (forall y n, node zsl y = Some n -> cond (Some y) = Some (f (zn_score n, zn_ele n))) ->
  (forall p, p ∈ LA -> f p.2 = true) -> (forall p, p ∈ LB -> f p.2 = false) ->
  search zsl L cond LA.*1 LB.*1.
Proof.
  intros R -> Hnull Hc HA HB.
  assert (forall p, p ∈ LA ++ LB -> cond (Some p.1) = Some (f p.2)) as Hp.
  { intros [y k] (X & Y & E)%list_elem_of_split. rewrite E in R.
    destruct (links_node zsl X y k Y R) as (n & Hn & <- & _). cbn. by apply Hc. }
  constructor; [apply fmap_app|done|..]; intros y (p & -> & Hin)%list_elem_of_fmap; rewrite Hp.
  - by rewrite HA.
  - apply elem_of_app. by left.
  - by rewrite HB.
  - apply elem_of_app. by right.
Qed.

Lemma search_before zsl L LA LB s e :
  links zsl L -> L = LA ++ LB ->
  (forall p, p ∈ LA -> klt p.2 (s, e)) -> (forall p, p ∈ LB -> ~ klt p.2 (s, e)) ->
  search zsl L (before score_lt zsl s e) LA.*1 LB.*1.
Proof.
  intros R EL HA HB. apply (search_keys _ _ _ _ _ (fun k => kcmp (s, e) k >? 0)); try done.
  - intros y n Hn. unfold before. cbn [deref]. rewrite Hn. mred. by rewrite compare_kcmp.
  - intros p Hp%HA. rewrite Z.gtb_ltb. apply Z.ltb_lt. apply (kcmp_pos score_lt) in Hp. lia.
  - intros p Hp%HB. rewrite Z.gtb_ltb. apply Z.ltb_ge. rewrite <- (kcmp_pos score_lt) in Hp. lia.
Qed.

Lemma sorted_app_iff (l1 l2 : list key) :
  StronglySorted klt (l1 ++ l2) <->
  StronglySorted klt l1 /\ StronglySorted klt l2 /\ (forall a b, a ∈ l1 -> b ∈ l2 -> klt a b).
Proof.
  induction l1 as [|x l1 IH]; cbn.
  - split; [|tauto]. intros Hs. split_and!; [constructor|done|]. intros a b Ha. by apply not_elem_of_nil in Ha.
  - split.
    + intros [Hs Hf]%StronglySorted_inv. apply IH in Hs as (H1 & H2 & H3).
      apply Forall_app in Hf as [F1 F2]. split_and!; [by constructor|done|].
      intros a b [->|Ha]%elem_of_cons Hb; [by eapply Forall_forall in F2|by apply H3].
    + intros ([Hs Hf]%StronglySorted_inv & H2 & H3). constructor.
      * apply IH. split_and!; [done|done|]. intros a b Ha Hb. apply H3; [by right|done].
      * apply Forall_app. split; [done|]. apply Forall_forall. intros b Hb. apply H3; [left|done].
Qed.

Lemma sorted_mid (l1 l2 : list key) k :
  StronglySorted klt (l1 ++ k :: l2) <->
  StronglySorted klt (l1 ++ l2) /\ (forall a, a ∈ l1 -> klt a k) /\ (forall b, b ∈ l2 -> klt k b).
Proof.
  rewrite !sorted_app_iff. split.
  - intros (H1 & [H2 HF]%StronglySorted_inv & H3). split_and!; try done.
    + intros a b Ha Hb. apply H3; [done|by right].
    + intros a Ha. apply H3; [done|left].
    + by apply Forall_forall.
  - intros ((H1 & H2 & H3) & HA & HB). split_and!; [done| |].
    + constructor; [done|]. by apply Forall_forall.
    + intros a b Ha [->|Hb]%elem_of_cons; auto.
Qed.

(** ** zslInsertNode *)

(** The node behind the place of the change, or the tail. *)
Lemma next_back_spec zsl (l : list ptr) b t :
  (forall y, y ∈ l -> is_Some (metas zsl !! y)) ->
  exists z, match head l with Some f => set_backward zsl f b | None => Some (set_tail zsl t) end = Some z /\
    (forall j, lvl z j = lvl zsl j) /\ metas z = with_hd_back (metas zsl) b l /\
    zsl_header z = zsl_header zsl /\ zsl_length z = zsl_length zsl /\ zsl_level z = zsl_level zsl /\
    zsl_tail z = match l with [] => t | _ => zsl_tail zsl end.
Proof.
  intros Hl. destruct l as [|f l]; cbn; [by eexists|]. destruct (Hl f ltac:(left)) as [mt Hmt].
  destruct (set_backward_spec zsl f b mt Hmt) as (z & -> & [(? & ? & ? & ?)%scalars_eq Hl2] & Hm2).
  exists z. split_and!; try done. rewrite Hm2. symmetry. by apply alter_alt_Some.
Qed.

Lemma hop_0_head (H : ptr -> nat) l : (forall y, y ∈ l -> (1 <= H y)%nat) -> (hop H 0 l).1 = head l.
Proof. intros Hl. rewrite hop_0 by done. by destruct l. Qed.

Lemma dom_hd_back (m : gmap ptr (node_meta S)) b l : dom (with_hd_back m b l) = dom m.
Proof. destruct l; cbn; [done|]. apply dom_alter_L. Qed.

(** The last step of an insertion: the backward pointers. *)
Definition insert_back zsl x u0 : option (zskiplist S) :=
  zsl ← set_backward zsl x (if decide (u0 = zsl_header zsl) then None else Some u0);
  lv ← level_at zsl x 0;
  zsl ← match forward lv with
        | Some f => set_backward zsl f (Some x)
        | None => Some (set_tail zsl (Some x))
        end;
  Some (set_length zsl (u64 (zsl_length zsl + 1))).

Lemma insert_back_spec zsl zsl2 LA LB x k h b u0 :
  links zsl (LA ++ LB) -> metas zsl2 = metas zsl -> scalars zsl2 = scalars zsl ->
  (forall i, Z.of_nat i < zsl_level zsl ->
     level_ok (ht zsl) i (zsl_header zsl :: LA.*1 ++ x :: LB.*1) (lvl zsl2 i)) ->
  (forall i, zsl_level zsl <= Z.of_nat i -> lvl zsl2 i = lvl zsl i) ->
  last (zsl_header zsl :: LA.*1) = Some u0 ->
  x ∉ zsl_header zsl :: (LA ++ LB).*1 -> metas zsl !! x = Some (mk_meta k b (Z.of_nat h) h) ->
  (1 <= h)%nat -> Z.of_nat h <= zsl_level zsl -> Z.of_nat (length (LA ++ LB)) + 1 < 2 ^ 64 ->
  StronglySorted klt (LA ++ (x, k) :: LB).*2 ->
  exists z, insert_back zsl2 x u0 = Some z /\
    links z (LA ++ (x, k) :: LB) /\ zsl_header z = zsl_header zsl /\ zsl_level z = zsl_level zsl /\
    (forall y, ht z y = ht zsl y) /\ dom (metas z) = dom (metas zsl).
Proof.
  intros R Hm Hs Hok Htop Hu0 Hx Hmx Hh1 Hh2 Hlen Hsort.
  apply scalars_eq in Hs as (Ehd & Etl & Elen & Elev).
  pose proof (r_level _ _ R) as Hlev. pose proof (r_nodup _ _ R) as Hnd. rewrite fmap_app in Hnd, Hx.
  unfold insert_back.
  assert ((if decide (u0 = zsl_header zsl2) then None else Some u0) = last LA.*1) as ->.
  { rewrite last_cons in Hu0. rewrite Ehd. destruct (last LA.*1) as [y|] eqn:El; injection Hu0 as <-.
    - rewrite decide_False; [done|]. intros ->. apply NoDup_cons in Hnd as [Hnd _]. apply Hnd.
      apply elem_of_app. left. by apply last_Some_elem_of.
    - by rewrite decide_True. }
  destruct (set_backward_spec zsl2 x (last LA.*1) (mk_meta k b (Z.of_nat h) h))
    as (z1 & -> & [Hs1 Hl1] & Hm1); [by rewrite Hm|]. mred.
  apply scalars_eq in Hs1 as (Ehd1 & Etl1 & Elen1 & Elev1).
  assert (Hhx : ht zsl x = h) by (unfold height; by rewrite Hmx).
  assert (forall y, y ∈ LB.*1 -> (1 <= ht zsl y)%nat) as HhB.
  { intros y Hy. eapply (links_height zsl); [done|]. rewrite fmap_app. apply elem_of_app. by right. }
  destruct (level_ok_lookup (ht zsl) 0 (zsl_header zsl :: LA.*1) x LB.*1 (lvl zsl2 0))
    as (lx & Elx & [Hfx _]); [apply Hok; lia|lia|].
  rewrite level_at_lvl, Hl1, Elx. mred. rewrite Hfx, hop_0_head by done.
  assert (x ∉ LA.*1 /\ x ∉ LB.*1 /\ x <> zsl_header zsl) as (HxA & HxB & Hxh).
  { rewrite not_elem_of_cons, not_elem_of_app in Hx. tauto. }
  destruct (next_back_spec z1 LB.*1 (Some x) (Some x)) as (z2 & -> & Hl2 & Hm2 & Ehd2 & Elen2 & Elev2 & Etl2).
  { intros y Hy. rewrite Hm1, lookup_insert_ne, Hm by (by intros <-).
    specialize (HhB y Hy). unfold height in HhB. destruct (metas zsl !! y); [done|lia]. }
  mred. eexists. split; [done|].
  assert (zsl_header z2 = zsl_header zsl) as Hh by congruence.
  assert (zsl_level z2 = zsl_level zsl) as Hlv by congruence.
  assert (forall y, ht z2 y = ht zsl y) as Hht.
  { intros y. rewrite Hm2, height_hd_back, Hm1, <- Hm. eapply height_insert; [by rewrite Hm|done]. }
  cbn [set_length zsl_header zsl_level].
  change (metas (set_length z2 (u64 (zsl_length z2 + 1)))) with (metas z2).
  split_and!; [|congruence|congruence|exact Hht|].
  2:{ rewrite Hm2, dom_hd_back, Hm1, Hm. apply dom_insert_lookup_L. by rewrite Hmx. }
  constructor; cbn [set_length zsl_header zsl_level zsl_tail zsl_length];
    change (metas (set_length z2 (u64 (zsl_length z2 + 1)))) with (metas z2);
    rewrite ?Hh, ?Hlv, ?fmap_app; cbn [fmap list_fmap fst].
  - rewrite <- (Permutation_middle LA.*1 LB.*1 x), perm_swap. apply NoDup_cons. by split.
  - rewrite Hht. apply R.
  - pose proof (r_nodes _ _ R) as [NA NB]%nodes_ok_app.
    assert (forall y, y ∉ LB.*1 -> y <> x -> metas z2 !! y = metas zsl !! y) as Hother.
    { intros y Hy Hne. rewrite Hm2, with_hd_back_ne, Hm1, Hm by done. by apply lookup_insert_ne. }
    apply nodes_ok_app. split; [|split].
    + eapply nodes_ok_frame; [|exact NA]. intros y Hy. apply Hother; [|by intros ->].
      apply NoDup_cons in Hnd as [_ (_ & Hnd & _)%NoDup_app]. by apply Hnd.
    + exists h. split; [done|]. split; [done|]. rewrite Hm2, with_hd_back_ne, Hm1, lookup_insert_eq by done.
      unfold prev_of, with_back. cbn. by destruct (last LA.*1).
    + rewrite Hm2. eapply (nodes_ok_hd _ _ (prev_of None LA.*1)).
      * apply NoDup_cons in Hnd as [_ (_ & _ & Hnd)%NoDup_app]. exact Hnd.
      * eapply nodes_ok_frame; [|exact NB]. intros y Hy. rewrite Hm1, Hm. apply lookup_insert_ne.
        by intros <-.
  - intros i Hi. change (lvl (set_length z2 (u64 (zsl_length z2 + 1))) i) with (lvl z2 i).
    rewrite Hl2, Hl1.
    apply (level_ok_ext (ht zsl)); [intros y _; by rewrite Hht|]. by apply Hok.
  - intros i Hi. change (lvl (set_length z2 (u64 (zsl_length z2 + 1))) i) with (lvl z2 i).
    rewrite Hl2, Hl1, Htop by lia. by apply (r_top _ _ R).
  - rewrite Etl2, Etl1, Etl, (r_tail _ _ R), fmap_app. destruct LB as [|[f kf] LB]; cbn.
    + by rewrite last_snoc.
    + rewrite !last_app_cons. by rewrite last_cons_cons.
  - rewrite Elen2, Elen1, Elen, (r_len _ _ R). rewrite !length_app in *. cbn.
    rewrite wrapu_small; [lia|]. unfold in_u. lia.
  - rewrite !length_app in *. cbn. lia.
  - done.
  - by rewrite fmap_app in Hsort.
Qed.

Lemma position_mono zsl z A i u :
  zsl_header z = zsl_header zsl -> (forall y, y ∈ zsl_header zsl :: A -> ht z y = ht zsl y) ->
  position_of A zsl i u -> position_of A z i u.
Proof.
  intros Eh Et (P & M & E & Hr & Hn & Hi). rewrite E in Et. exists P, M. rewrite Eh.
  split_and!; [done|done| |].
  - rewrite (hop_ext _ (ht zsl)); [done|]. intros y Hy. apply Et, elem_of_app. right. by right.
  - rewrite Et; [done|]. apply elem_of_app. right. left.
Qed.

(** From the update array on. *)
Lemma insert_at_spec zsl LA LB us x k h b :
  links zsl (LA ++ LB) -> update_ok zsl LA.*1 us ->
  x ∉ zsl_header zsl :: (LA ++ LB).*1 -> metas zsl !! x = Some (mk_meta k b (Z.of_nat h) h) ->
  (1 <= h)%nat -> Z.of_nat h <= zsl_level zsl -> Z.of_nat (length (LA ++ LB)) + 1 < 2 ^ 64 ->
  StronglySorted klt (LA ++ (x, k) :: LB).*2 ->
  exists u0 rank0 z, us !! O = Some (u0, rank0) /\
    (zsl ← for_levels h 0 (link_level x us rank0) zsl;
     zsl ← for_levels (Z.to_nat (zsl_level zsl - Z.of_nat h)) h (incr_level us) zsl;
     insert_back zsl x u0) = Some z /\
    links z (LA ++ (x, k) :: LB) /\ zsl_header z = zsl_header zsl /\ zsl_level z = zsl_level zsl /\
    (forall y, ht z y = ht zsl y) /\ dom (metas z) = dom (metas zsl).
Proof.
  intros R Hus Hx Hmx Hh1 Hh2 Hlen Hsort. pose proof (r_level _ _ R) as Hlev.
  destruct (Hus O) as ([u0 rank0] & Hu0 & Hpos); [lia|].
  assert (ht zsl x = h) as Hhx by (unfold height; by rewrite Hmx).
  destruct (link_levels_spec zsl (LA ++ LB) LA.*1 LB.*1 us x u0 rank0)
    as (z1 & z2 & E1 & E2 & Hm & Hs1 & Hs2 & Hok & Htop); try done; [by rewrite fmap_app|lia|].
  rewrite Hhx in E1, E2. exists u0, rank0.
  destruct (position_0 zsl LA.*1 LB.*1 (u0, rank0)) as (P & EP & _); [|done|].
  { intros y Hy. rewrite <- fmap_app in Hy. by apply (links_height zsl (LA ++ LB)). }
  destruct (insert_back_spec zsl z2 LA LB x k h b u0) as (z & E & HR); try done.
  { rewrite EP. cbn. apply last_snoc. }
  exists z. split; [done|]. split; [|done]. rewrite E1. mred.
  apply scalars_eq in Hs1 as (_ & _ & _ & Elev).
  replace (Z.to_nat (zsl_level z1 - Z.of_nat h)) with (Z.to_nat (zsl_level zsl) - h)%nat by lia.
  rewrite E2. mred. exact E.
Qed.

Lemma zslInsertNode_spec zsl LA LB x k h b :
  rep zsl (LA ++ LB) -> (forall p, p ∈ LA -> klt p.2 k) -> (forall p, p ∈ LB -> klt k p.2) ->
  x ∉ zsl_header zsl :: (LA ++ LB).*1 -> metas zsl !! x = Some (mk_meta k b (Z.of_nat h) h) ->
  (1 <= h <= 32)%nat -> Z.of_nat (length (LA ++ LB)) + 1 < 2 ^ 64 ->
  exists z, zslInsertNode score_lt zsl x = Some z /\ rep z (LA ++ (x, k) :: LB) /\
    zsl_header z = zsl_header zsl /\ dom (metas z) = dom (metas zsl).
Proof.
  intros [R Hhigh] HA HB Hx Hmx [Hh1 Hh2] Hlen. pose proof (r_level _ _ R) as Hlev.
  assert (StronglySorted klt (LA ++ (x, k) :: LB).*2) as Hsort.
  { rewrite fmap_app. cbn. apply sorted_mid. rewrite <- fmap_app. split_and!; [apply R|..];
      intros ? (p & -> & Hp)%list_elem_of_fmap; auto. }
  destruct (metas_node _ _ _ Hmx) as (n & Hn & [= Ek _ El _]).
  unfold zslInsertNode. rewrite Hn. mred. rewrite El.
  assert (search zsl (LA ++ LB) (before score_lt zsl (zn_score n) (zn_ele n)) LA.*1 LB.*1) as Sr.
  { apply search_before; [done|done|..]; rewrite Ek; [done|]. intros p Hp Hlt. specialize (HB p Hp).
    exact (klt_irrefl score_lt _ (klt_trans score_lt _ _ _ Hlt HB)). }
  destruct (descend_update _ _ _ _ _ R Sr) as (us & -> & Hlus & Hus). mred.
  assert (ht zsl x = h) as Hhx by (unfold height; by rewrite Hmx).
  destruct (Z.of_nat h >? zsl_level zsl) eqn:Hgt; rewrite Z.gtb_ltb in Hgt; bools.
  - destruct (raise_spec zsl (LA ++ LB) (Z.of_nat h) R) as (z1 & z2 & -> & E2 & Eh1 & R2 & Eh2 & Ht2 & Hd2 & Hm2); [lia|].
    mred. rewrite E2. mred.
    set (us2 := us ++ _).
    assert (update_ok (set_level z2 (Z.of_nat h)) LA.*1 us2) as Hus2.
    { intros i Hi. cbn in Hi. destruct (decide (Z.of_nat i < zsl_level zsl)) as [Hlt|Hge].
      - destruct (Hus i Hlt) as (u & Hu & Hpos). exists u. unfold us2.
        rewrite lookup_app_l by lia. split; [done|]. apply (position_mono zsl); [exact Eh2|intros y _; apply Ht2|done].
      - exists (zsl_header z2, 0). unfold us2. rewrite lookup_app_r, lookup_replicate_2 by lia.
        split; [done|]. exists [], LA.*1. cbn [fst snd].
        change (zsl_header (set_level z2 (Z.of_nat h))) with (zsl_header z2).
        change (metas (set_level z2 (Z.of_nat h))) with (metas z2).
        rewrite Eh2, Ht2, (r_hdr _ _ R). split_and!; [done|done| |lia].
        apply hop_None_heights. intros y Hy. rewrite Ht2.
        destruct (links_height _ _ y R); [rewrite fmap_app; apply elem_of_app; by left|]. lia. }
    destruct (insert_at_spec (set_level z2 (Z.of_nat h)) LA LB us2 x k h b R2 Hus2)
      as (u0 & rank0 & z & -> & E & HR & Eh & Elv & Hht & Hd); cbn; try done.
    { by rewrite Eh2. }
    { change (metas (set_level z2 (Z.of_nat h)) !! x = Some (mk_meta k b (Z.of_nat h) h)).
      rewrite Hm2; [done|]. rewrite not_elem_of_cons in Hx. tauto. }
    mred. exists z. rewrite Nat2Z.id. split; [exact E|]. split; [split; [done|]|].
    + right. exists x. split; [rewrite fmap_app; apply elem_of_app; right; left|].
      rewrite Hht, Elv. cbn. change (metas (set_level z2 (Z.of_nat h))) with (metas z2).
      rewrite Ht2. lia.
    + split; [rewrite Eh; exact Eh2|]. rewrite Hd. exact Hd2.
  - mred. destruct (insert_at_spec zsl LA LB us x k h b R Hus)
      as (u0 & rank0 & z & -> & E & HR & Eh & Elv & Hht & Hd); try done.
    mred. exists z. rewrite Nat2Z.id. split; [exact E|]. split; [split; [done|]|done].
    destruct Hhigh as [H1|(y & Hy & Hty)]; [left; congruence|]. right. exists y.
    rewrite Hht, Elv. split; [|done]. rewrite fmap_app in Hy |- *. cbn.
    rewrite elem_of_app in Hy |- *. rewrite elem_of_cons. tauto.
Qed.

(** ** Deletion of a node *)

Lemma high_intro zsl L y :
  links zsl L -> (hop (ht zsl) (Z.to_nat (zsl_level zsl - 1)) L.*1).1 = Some y -> high zsl L.
Proof.
  intros R Hy. pose proof (r_level _ _ R) as Hlev. right. exists y.
  destruct (hop_Some _ _ _ _ Hy) as (a & b & E & _ & _ & Hh).
  assert (y ∈ L.*1) as Hin by (rewrite E; apply elem_of_app; right; left).
  split; [done|]. pose proof (links_height _ _ _ R Hin). lia.
Qed.

(** The loop that lowers the level, before the length is set. *)
Lemma lower_level_spec fuel zsl L n :
  links (set_length zsl n) L -> (Z.to_nat (zsl_level zsl) < fuel)%nat ->
  exists z, lower_level fuel zsl = Some z /\ rep (set_length z n) L /\ metas z = metas zsl /\
    zsl_header z = zsl_header zsl /\ zsl_length z = zsl_length zsl /\ zsl_level z <= zsl_level zsl.
Proof.
  revert zsl. induction fuel as [|fuel IH]; intros zsl R Hf; [lia|]. cbn [lower_level].
  pose proof (r_level _ _ R) as Hlev. cbn in Hlev.
  destruct (zsl_level zsl >? 1) eqn:Hgt; rewrite Z.gtb_ltb in Hgt; bools.
  2:{ eexists. split; [done|]. split_and!; try done. split; [done|]. left. cbn. lia. }
  cbv zeta. set (i := Z.to_nat (zsl_level zsl - 1)).
  destruct (level_ok_lookup (ht zsl) i [] (zsl_header zsl) L.*1 (lvl zsl i)) as (lv & Elv & [Hfw _]).
  { apply (r_lvl _ _ R). cbn. lia. }
  { pose proof (r_hdr _ _ R) as Hh. change (ht zsl (zsl_header zsl) = 32%nat) in Hh. lia. }
  rewrite level_at_lvl, Elv. mred. destruct (forward lv) as [y|] eqn:Ef.
  { eexists. split; [done|]. split_and!; try done. split; [done|]. eapply high_intro; [done|]. symmetry. exact Hfw. }
  destruct (set_span_spec zsl (zsl_header zsl) i lv 0 Elv) as (z1 & -> & [Hm1 Hs1 Hl1] & E1). mred.
  apply scalars_eq in Hs1 as (Ehd & Etl & Elen & Elev).
  destruct (IH (set_level z1 (zsl_level z1 - 1))) as (z & -> & HR & Hm & Hh & Hlen & Hlv).
  2:{ cbn. lia. }
  2:{ exists z. split; [done|]. split; [done|]. split; [by rewrite Hm|]. cbn in Hh, Hlen, Hlv. rewrite Hh, Hlen. split_and!; [done|done|lia]. }
  constructor; cbn [set_length set_level zsl_header zsl_level zsl_tail zsl_length];
    change (metas (set_length (set_level z1 (zsl_level z1 - 1)) n)) with (metas z1);
    rewrite ?Ehd, ?Elev, ?Hm1.
  - apply R.
  - apply (r_hdr _ _ R).
  - apply (nodes_ok_top (zsl_level zsl)); [|apply (r_nodes _ _ R)]. intros y Hy.
    pose proof (proj1 (hop_None_heights (ht zsl) i L.*1) (eq_sym Hfw) y Hy) as Hle.
    change (height (metas zsl) y <= i)%nat in Hle. lia.
  - intros j Hj. change (lvl _ j) with (lvl z1 j).
    rewrite Hl1 by lia. apply (r_lvl _ _ R). cbn. lia.
  - intros j Hj. change (lvl _ j) with (lvl z1 j).
    destruct (decide (j = i)) as [->|Hne].
    + rewrite E1, lookup_insert_eq. eexists. split; [done|]. done.
    + rewrite Hl1 by done. apply (r_top _ _ R). cbn. lia.
  - rewrite Etl. apply (r_tail _ _ R).
  - apply (r_len _ _ R).
  - apply R.
  - lia.
  - apply R.
Qed.

Lemma sorted_remove (LA LB : list (ptr * key)) p :
  StronglySorted klt (LA ++ p :: LB).*2 -> StronglySorted klt (LA ++ LB).*2.
Proof. rewrite !fmap_app. cbn. by intros [H _]%sorted_mid. Qed.

Lemma zslUnlinkNode_spec zsl LA LB x k us :
  rep zsl (LA ++ (x, k) :: LB) -> update_ok zsl LA.*1 us ->
  exists z, zslUnlinkNode zsl x us = Some z /\ rep z (LA ++ LB) /\
    zsl_header z = zsl_header zsl /\ dom (metas z) = dom (metas zsl) /\
    metas z !! x = metas zsl !! x /\ (forall y, ht z y = ht zsl y) /\ zsl_level z <= zsl_level zsl.
Proof.
  intros [R _] Hus. pose proof (r_level _ _ R) as Hlev. pose proof (r_nodup _ _ R) as Hnd.
  pose proof (r_nodes _ _ R) as Hnodes. pose proof (r_max _ _ R) as Hmax.
  rewrite fmap_app in Hnd. cbn [fmap list_fmap fst] in Hnd.
  rewrite length_app in Hmax. cbn in Hmax.
  destruct (for_levels_spec (fun i m => level_ok (ht zsl) i (zsl_header zsl :: LA.*1 ++ LB.*1) m /\
      m !! x = lvl zsl i !! x)
    (unlink_level x us) (Z.to_nat (zsl_level zsl)) 0 zsl) as (z1 & E1 & Hm1 & Hs1 & Hin1 & Hout1).
  { intros i z Hi Hm Hs El. destruct (Hus i) as ([u r] & Hu & P & M & E & Hr & Hn & Hui); [lia|].
    cbn in E, Hr, Hui. pose proof (r_lvl _ _ R i ltac:(lia)) as Hok.
    rewrite fmap_app in Hok. cbn [fmap list_fmap fst] in Hok.
    rewrite <- El, <- Hm in Hok. rewrite <- Hm in Hn, Hui |- *. rewrite <- El.
    rewrite (chain_split _ _ _ _ _ (x :: LB.*1) E) in Hnd, Hok. rewrite (chain_split _ _ _ _ _ LB.*1 E).
    destruct (unlink_level_spec z x us i u r P M LB.*1) as (z' & -> & T & Ex & Hok'); try done.
    - rewrite <- (chain_split _ _ _ _ _ (x :: LB.*1) E). cbn. rewrite length_app. cbn. rewrite !length_fmap. lia.
    - exists z'. split; [done|]. split; [done|]. by rewrite Ex. }
  apply scalars_eq in Hs1 as (Ehd1 & Etl1 & Elen1 & Elev1).
  unfold zslUnlinkNode. rewrite E1. mred.
  destruct (nodes_ok_lookup _ _ _ _ _ _ _ Hnodes) as (h & Hh1 & Hh2 & Hmx).
  assert (forall y, y ∈ LB.*1 -> (1 <= ht zsl y)%nat) as HhB.
  { intros y Hy. eapply (links_height zsl); [done|]. rewrite fmap_app. apply elem_of_app. right. by right. }
  destruct (level_ok_lookup (ht zsl) 0 (zsl_header zsl :: LA.*1) x LB.*1 (lvl zsl 0)) as (lx & Elx & [Hfx _]).
  { pose proof (r_lvl _ _ R O ltac:(lia)) as Hok. by rewrite fmap_app in Hok. }
  { unfold height. rewrite Hmx. cbn. lia. }
  destruct (Hin1 O) as [_ Ex0]; [lia|]. rewrite level_at_lvl, Ex0, Elx. mred.
  rewrite Hfx, hop_0_head by done.
  destruct (metas_node z1 x) with (1 := eq_trans (f_equal (.!! x) Hm1) Hmx) as (nd & -> & [= _ Eb _ _]).
  mred. rewrite Eb.
  destruct (next_back_spec z1 LB.*1 (prev_of None LA.*1) (prev_of None LA.*1))
    as (z2 & -> & Hl2 & Hm2 & Ehd2 & Elen2 & Elev2 & Etl2).
  { intros y Hy. rewrite Hm1. specialize (HhB y Hy). unfold height in HhB.
    destruct (metas zsl !! y); [done|lia]. }
  mred. assert (zsl_header z2 = zsl_header zsl) as Hh by congruence.
  assert (zsl_level z2 = zsl_level zsl) as Hlv by congruence.
  assert (forall y, ht z2 y = ht zsl y) as Hht by (intros y; by rewrite Hm2, height_hd_back, Hm1).
  assert (prev_of None LA.*1 = last LA.*1) as Eprev by (unfold prev_of; by destruct (last LA.*1)).
  pose proof Hnd as [Hnh [HndA [HAB [HxB HndB]%NoDup_cons]]%NoDup_app]%NoDup_cons.
  destruct (lower_level_spec (Datatypes.S (Z.to_nat (zsl_level z2))) z2 (LA ++ LB) (u64 (zsl_length zsl - 1)))
    as (z3 & -> & HR & Hm3 & Hh3 & Hlen3 & Hlv3); [|lia|].
  2:{ mred. eexists. split; [done|]. rewrite Hlen3, Elen2, Elen1. split; [exact HR|].
      split_and!; [cbn; congruence|change (dom (metas z3) = dom (metas zsl))|
                   change (metas z3 !! x = metas zsl !! x)| |cbn; lia].
      - by rewrite Hm3, Hm2, dom_hd_back, Hm1.
      - by rewrite Hm3, Hm2, with_hd_back_ne, Hm1.
      - intros y. change (ht z3 y = ht zsl y). by rewrite Hm3. }
  constructor; cbn [set_length zsl_header zsl_level zsl_tail zsl_length];
    change (metas (set_length z2 (u64 (zsl_length zsl - 1)))) with (metas z2);
    rewrite ?Hh, ?Hlv, ?fmap_app.
  - apply NoDup_cons. split.
    + rewrite elem_of_app in Hnh |- *. rewrite elem_of_cons in Hnh. tauto.
    + apply NoDup_app. split_and!; [done| |done]. intros y Hy HyB. apply (HAB y Hy). by right.
  - rewrite Hht. apply R.
  - apply nodes_ok_app in Hnodes as [NA [_ NB]]. rewrite nodes_ok_app. split.
    + eapply nodes_ok_frame; [|exact NA]. intros y Hy. rewrite Hm2, with_hd_back_ne, Hm1; [done|].
      intros HyB. apply (HAB y Hy). by right.
    + rewrite Hm2, Hm1. eapply nodes_ok_hd; [exact HndB|exact NB].
  - intros i Hi. change (lvl (set_length z2 (u64 (zsl_length zsl - 1))) i) with (lvl z2 i).
    rewrite Hl2. apply (level_ok_ext (ht zsl)); [intros y _; by rewrite Hht|]. apply Hin1. lia.
  - intros i Hi. change (lvl (set_length z2 (u64 (zsl_length zsl - 1))) i) with (lvl z2 i).
    rewrite Hl2, Hout1 by lia. by apply (r_top _ _ R).
  - rewrite Etl2, Etl1, (r_tail _ _ R), fmap_app. destruct LB as [|[f kf] LB]; cbn.
    + by rewrite app_nil_r.
    + rewrite !last_app_cons. by rewrite last_cons_cons.
  - rewrite (r_len _ _ R), !length_app. cbn. rewrite wrapu_small; [lia|]. unfold in_u. lia.
  - rewrite length_app. lia.
  - done.
  - rewrite <- fmap_app. eapply sorted_remove, R.
Qed.

Lemma find_node_spec zsl LA LB x k :
  links zsl (LA ++ (x, k) :: LB) ->
  exists us, find_node score_lt zsl x = Some us /\ update_ok zsl LA.*1 us.
Proof.
  intros R. pose proof (r_level _ _ R) as Hlev.
  destruct (links_node _ _ _ _ _ R) as (n & Hn & Ek & _).
  pose proof (r_sorted _ _ R) as Hs. rewrite fmap_app in Hs. cbn in Hs.
  apply sorted_mid in Hs as (_ & HA & HB).
  assert (search zsl (LA ++ (x, k) :: LB) (before score_lt zsl (zn_score n) (zn_ele n))
            LA.*1 ((x, k) :: LB).*1) as Sr.
  { apply search_before; [done|done|..]; rewrite Ek.
    - intros p Hp. apply HA. by apply list_elem_of_fmap_2.
    - intros p [->|Hp]%elem_of_cons Hlt; [by eapply klt_irrefl in Hlt|].
      exact (klt_irrefl score_lt _ (klt_trans score_lt _ _ _ Hlt (HB _ (list_elem_of_fmap_2 snd _ _ Hp)))). }
  unfold find_node. rewrite Hn. mred.
  destruct (descend_update _ _ _ _ _ R Sr) as (us & -> & _ & Hus). mred.
  destruct (Hus O) as ([u0 r0] & -> & Hpos); [lia|]. mred.
  destruct (position_0 zsl LA.*1 ((x, k) :: LB).*1 (u0, r0)) as (P & EP & _); [|done|].
  { intros y Hy. rewrite <- fmap_app in Hy. by apply (links_height zsl (LA ++ (x, k) :: LB)). }
  cbn in EP. pose proof (r_lvl _ _ R O ltac:(lia)) as Hok.
  rewrite fmap_app, (chain_split _ _ _ _ [] _ EP) in Hok. cbn [app] in Hok.
  destruct Hpos as (_ & _ & _ & _ & _ & Hu0).
  destruct (level_ok_lookup _ _ _ _ _ _ Hok Hu0) as (lv & Elv & [Hf _]).
  rewrite level_at_lvl. cbn in Elv. rewrite Elv. mred. rewrite Hf, hop_0_head.
  - cbn. rewrite bool_decide_true by done. cbn. by exists us.
  - intros y Hy. eapply (links_height zsl); [done|]. rewrite fmap_app. apply elem_of_app. by right.
Qed.

(** ** The list of elements *)

(** Insertion behind the elements that come before [k]. *)
Fixpoint kinsert (x : ptr) (k : key) L : list (ptr * key) :=
  match L with
  | [] => [(x, k)]
  | p :: L' => if kcmp p.2 k <? 0 then p :: kinsert x k L' else (x, k) :: L
  end.

Definition kremove (x : ptr) L : list (ptr * key) := filter (fun p => p.1 <> x) L.

Lemma filter_keep {A} (P : A -> Prop) `{!forall a, Decision (P a)} (l : list A) :
  (forall a, a ∈ l -> P a) -> filter P l = l.
Proof using.
  induction l as [|x l IH]; intros Hl; [done|]. rewrite filter_cons_True by (apply Hl; left).
  f_equal. apply IH. intros y Hy. apply Hl. by right.
Qed.

Lemma filter_drop {A} (P : A -> Prop) `{!forall a, Decision (P a)} (l : list A) :
  (forall a, a ∈ l -> ~ P a) -> filter P l = [].
Proof using.
  induction l as [|x l IH]; intros Hl; [done|]. rewrite filter_cons_False by (apply Hl; left).
  apply IH. intros y Hy. apply Hl. by right.
Qed.

Lemma kinsert_at x k LA LB :
  (forall p, p ∈ LA -> klt p.2 k) -> (forall p, p ∈ LB -> klt k p.2) ->
  kinsert x k (LA ++ LB) = LA ++ (x, k) :: LB.
Proof.
  induction LA as [|p LA IH]; cbn; intros HA HB.
  - destruct LB as [|q LB]; [done|]. cbn. specialize (HB q ltac:(left)).
    rewrite (proj2 (Z.ltb_ge _ _)); [done|]. rewrite (kcmp_antisym score_lt k q.2).
    unfold Skiplist.klt in HB. lia.
  - rewrite (proj2 (Z.ltb_lt _ _)) by (apply HA; left). rewrite IH; [done|..|done].
    intros q Hq. apply HA. by right.
Qed.

Lemma kremove_at x k LA LB :
  NoDup (LA ++ (x, k) :: LB).*1 -> kremove x (LA ++ (x, k) :: LB) = LA ++ LB.
Proof.
  rewrite fmap_app. cbn. intros (_ & H1 & [H2 _]%NoDup_cons)%NoDup_app.
  unfold kremove. rewrite filter_app, filter_cons_False by (cbn; tauto).
  rewrite !filter_keep; [done|..]; intros p Hp Hx; apply (list_elem_of_fmap_2 fst) in Hp; cbv beta in Hp; rewrite Hx in Hp.
  - by apply H2.
  - apply (H1 x); [done|left].
Qed.

(** The skiplist of a sorted set: its elements are distinct, which the hash table
    of the sorted set ensures, and its heap holds its nodes and nothing else. *)
Record zsl_wf zsl L : Prop := {
  w_rep : rep zsl L;
  w_dom : dom (zsl_heap zsl) = list_to_set (zsl_header zsl :: L.*1);
  w_ele : NoDup L.*2.*2
}.

Lemma dom_metas zsl : dom (metas zsl) = dom (zsl_heap zsl).
Proof. unfold metas. apply dom_fmap_L. Qed.

(** A monotone test splits a sorted list. *)
Lemma sorted_split (f : key -> bool) L :
  (forall a b, a ∈ L.*2 -> b ∈ L.*2 -> klt a b -> f b = true -> f a = true) ->
  StronglySorted klt L.*2 ->
  exists LA LB, L = LA ++ LB /\ (forall p, p ∈ LA -> f p.2 = true) /\ (forall p, p ∈ LB -> f p.2 = false).
Proof.
  induction L as [|p L IH]; cbn; intros Hf Hs.
  - exists [], []. split_and!; [done|..]; intros ? []%not_elem_of_nil.
  - apply StronglySorted_inv in Hs as [Hs HF].
    destruct (IH ltac:(intros a b Ha Hb; apply Hf; by right) Hs) as (LA & LB & -> & HA & HB).
    destruct (f p.2) eqn:E.
    + exists (p :: LA), LB. split_and!; [done| |done]. intros q [->|Hq]%elem_of_cons; auto.
    + exists [], (p :: LA ++ LB). split_and!; [done|intros ? []%not_elem_of_nil|].
      intros q [->|Hq]%elem_of_cons; [done|]. destruct (f q.2) eqn:Eq; [|done].
      apply (list_elem_of_fmap_2 snd) in Hq. rewrite <- E. symmetry. apply (Hf _ q.2); [left|by right| |done].
      eapply Forall_forall in HF; [exact HF|done].
Qed.

(** The invariant reads the nodes of the list only. *)
Lemma rep_frame zsl z L :
  rep zsl L -> scalars z = scalars zsl ->
  (forall y, y ∈ zsl_header zsl :: L.*1 -> metas z !! y = metas zsl !! y) ->
  (forall y i, y ∈ zsl_header zsl :: L.*1 -> lvl z i !! y = lvl zsl i !! y) -> rep z L.
Proof.
  intros [R Hh] (E1 & E2 & E3 & E4)%scalars_eq Hm Hl.
  assert (forall y, y ∈ zsl_header zsl :: L.*1 -> ht zsl y = ht z y) as Ht
    by (intros y Hy; unfold height; by rewrite Hm).
  split.
  - constructor; rewrite ?E1, ?E2, ?E3, ?E4; try apply R.
    + rewrite <- Ht by left. apply R.
    + eapply nodes_ok_frame; [|apply R]. intros y Hy. apply Hm. by right.
    + intros i Hi. apply (level_ok_ext _ _ _ _ _ Ht).
      eapply level_ok_frame; [|by apply (r_lvl _ _ R)]. auto.
    + intros i Hi. rewrite Hl by left. by apply (r_top _ _ R).
  - unfold high. rewrite E4. destruct Hh as [?|(x & Hx & Hhx)]; [by left|]. right. exists x.
    split; [done|]. rewrite <- Ht; [done|by right].
Qed.

Lemma wf_dom zsl L x : zsl_wf zsl L -> (x ∈ dom (zsl_heap zsl) <-> x ∈ zsl_header zsl :: L.*1).
Proof. intros W. rewrite (w_dom _ _ W). apply elem_of_list_to_set. Qed.

Lemma zslCreate_rep zero header : zsl_wf (zslCreate zero header : zskiplist S) [].
Proof.
  assert (forall i, (i < 32)%nat ->
    lvl (zslCreate zero header : zskiplist S) i !! header = Some (mk_level None 0)) as Hl.
  { intros i Hi. unfold lvl, zslCreate. cbn [zsl_heap]. rewrite lookup_omap, lookup_singleton_eq.
    cbn -[replicate]. by apply lookup_replicate_2. }
  split; [split; [|by left]| |constructor].
  - constructor; cbn -[lvl level_ok]; try done.
    + repeat constructor. apply not_elem_of_nil.
    + unfold height, metas. cbn. by rewrite lookup_fmap, lookup_singleton_eq.
    + intros i Hi. split; [|done]. intros _. rewrite Hl by lia. by eexists.
    + intros i Hi. rewrite Hl by lia. by eexists.
    + constructor.
  - cbn. rewrite dom_singleton_L. set_solver.
Qed.

(** Where an element that is not in the list goes. *)
Lemma kinsert_split x k L :
  StronglySorted klt L.*2 -> (forall p, p ∈ L -> kcmp p.2 k <> 0) ->
  exists LA LB, L = LA ++ LB /\ kinsert x k L = LA ++ (x, k) :: LB /\
    (forall p, p ∈ LA -> klt p.2 k) /\ (forall p, p ∈ LB -> klt k p.2).
Proof.
  intros Hs Hne. destruct (sorted_split (fun k' => kcmp k' k <? 0) L) as (LA & LB & -> & HA & HB).
  - intros a b _ _ Hab Hb%Z.ltb_lt. apply Z.ltb_lt. exact (klt_trans score_lt _ _ _ Hab Hb).
  - done.
  - assert (forall p, p ∈ LA -> klt p.2 k) as HA' by (intros p Hp%HA; by apply Z.ltb_lt).
    assert (forall p, p ∈ LB -> klt k p.2) as HB'.
    { intros p Hp. specialize (HB p Hp). apply Z.ltb_ge in HB. specialize (Hne p).
      rewrite elem_of_app in Hne. specialize (Hne (or_intror Hp)). unfold Skiplist.klt.
      rewrite (kcmp_antisym score_lt p.2 k). lia. }
    exists LA, LB. split_and!; [done| |done|done]. by apply kinsert_at.
Qed.

Lemma kcmp_ele k1 k2 : kcmp k1 k2 = 0 -> k1.2 = k2.2.
Proof.
  unfold Skiplist.kcmp. destruct (score_lt k1.1 k2.1); [done|]. destruct (score_lt k2.1 k1.1); [done|].
  apply lexcmp_eq.
Qed.

Lemma zslInsert_spec zsl junk addr level score ele L :
  zsl_wf zsl L -> addr ∉ dom (zsl_heap zsl) -> 1 <= level <= 32 ->
  (forall p, p ∈ L -> p.2.2 <> ele) -> zsl_length zsl + 1 < 2 ^ 64 ->
  exists z, zslInsert score_lt zsl junk addr level score ele = Some z /\
    zsl_wf z (kinsert addr (score, ele) L).
Proof.
  intros W Had Hlv Hele Hlen. pose proof (w_rep _ _ W) as [R _]. rewrite (r_len _ _ R) in Hlen.
  destruct (kinsert_split addr (score, ele) L) as (LA & LB & -> & -> & HA & HB); [apply R| |].
  { intros p Hp E%kcmp_ele. by apply (Hele p Hp). }
  unfold zslInsert. set (n := zslCreateNode junk level score ele). set (z0 := set_heap zsl _).
  assert (rep z0 (LA ++ LB)) as R0.
  { apply (rep_frame zsl); [apply W|done|..]; intros y; [|intros i];
      intros Hy%(wf_dom _ _ _ W); unfold metas, lvl; cbn.
    - rewrite !lookup_fmap, lookup_insert_ne; [done|]. by intros <-.
    - rewrite !lookup_omap, lookup_insert_ne; [done|]. by intros <-. }
  assert (metas z0 !! addr = Some (mk_meta (score, ele) None (Z.of_nat (Z.to_nat level)) (Z.to_nat level))) as Hm0.
  { unfold metas. cbn. rewrite lookup_fmap, lookup_insert_eq. cbn. unfold meta_of. cbn.
    rewrite length_fmap, length_seq. by rewrite Z2Nat.id by lia. }
  destruct (zslInsertNode_spec z0 LA LB addr (score, ele) (Z.to_nat level) None R0 HA HB)
    as (z & -> & HR & Hh & Hd); [by rewrite wf_dom in Had|done|lia|done|].
  exists z. split; [done|]. split; [done| |].
  - rewrite <- dom_metas, Hd, dom_metas, Hh. cbn [z0 set_heap zsl_heap zsl_header].
    rewrite dom_insert_L, (w_dom _ _ W), !fmap_app. cbn [fmap list_fmap fst]. by rewrite list_to_set_mid.
  - pose proof (w_ele _ _ W) as Hnd. rewrite !fmap_app in Hnd |- *. cbn [fmap list_fmap snd].
    rewrite <- Permutation_middle. apply NoDup_cons. split; [|done]. rewrite <- !fmap_app.
    intros (q & Eq & (p & -> & Hp)%list_elem_of_fmap)%list_elem_of_fmap. by apply (Hele p Hp).
Qed.

(** Unlinking a node and freeing it. *)
Lemma unlink_free_spec zsl LA LB x k us :
  zsl_wf zsl (LA ++ (x, k) :: LB) -> update_ok zsl LA.*1 us ->
  exists z nd, zslUnlinkNode zsl x us = Some z /\ node z x = Some nd /\ zslGetNodeElement nd = k.2 /\
    zsl_wf (zslFreeNode z x) (LA ++ LB) /\ update_ok (zslFreeNode z x) LA.*1 us /\
    zsl_header z = zsl_header zsl.
Proof.
  intros W Hus. pose proof (w_rep _ _ W) as [R _].
  destruct (zslUnlinkNode_spec zsl LA LB x k us (w_rep _ _ W) Hus) as (z & E & HR & Hh & Hd & Hm & Ht & Hlv).
  pose proof (r_nodup _ _ R) as Hnd. rewrite fmap_app in Hnd. cbn [fmap list_fmap fst] in Hnd.
  assert (x ∉ zsl_header zsl :: (LA ++ LB).*1) as Hx.
  { rewrite fmap_app, app_comm_cons. rewrite app_comm_cons, <- Permutation_middle in Hnd.
    by apply NoDup_cons in Hnd as [? _]. }
  destruct (nodes_ok_lookup _ _ _ _ _ _ _ (r_nodes _ _ R)) as (h & _ & _ & Em).
  rewrite <- Hm in Em. destruct (metas_node _ _ _ Em) as (nd & Hnode & [= Ek _ _ _]).
  exists z, nd. split; [done|]. split; [done|]. split; [by rewrite <- Ek|]. split; [split| split].
  - apply (rep_frame z); [done|done|..]; rewrite Hh; intros y; [|intros i]; intros Hy;
      unfold metas, lvl, zslFreeNode; cbn; rewrite ?lookup_fmap, ?lookup_omap, lookup_delete_ne;
      first [done|by intros ->].
  - unfold zslFreeNode. cbn [set_heap zsl_heap zsl_header]. rewrite dom_delete_L, <- dom_metas, Hd, dom_metas, Hh.
    rewrite (w_dom _ _ W), !fmap_app. cbn [fmap list_fmap fst]. rewrite list_to_set_mid.
    rewrite fmap_app in Hx.
    assert (x ∉ (list_to_set (zsl_header zsl :: LA.*1 ++ LB.*1) : gset ptr)) as Hx'
      by (by rewrite elem_of_list_to_set).
    revert Hx'. generalize (list_to_set (zsl_header zsl :: LA.*1 ++ LB.*1) : gset ptr).
    clear. set_solver.
  - pose proof (w_ele _ _ W) as Hn. rewrite !fmap_app in Hn |- *. cbn [fmap list_fmap snd] in Hn.
    rewrite <- Permutation_middle in Hn. by apply NoDup_cons in Hn as [_ ?].
  - intros i Hi. destruct (Hus i) as (u & Hu & Hpos); [cbn in Hi; lia|]. exists u. split; [done|].
    apply (position_mono zsl); [exact Hh| |done]. intros y Hy. rewrite <- Ht.
    unfold height, metas, zslFreeNode. cbn. rewrite !lookup_fmap, lookup_delete_ne; [done|].
    intros ->. apply Hx. rewrite fmap_app, app_comm_cons. apply elem_of_app. by left.
  - done.
Qed.

Lemma zslDelete_spec zsl x L :
  zsl_wf zsl L -> x ∈ L.*1 ->
  exists z, zslDelete score_lt zsl x = Some z /\ zsl_wf z (kremove x L).
Proof.
  intros W ((x' & k) & -> & (LA & LB & ->)%list_elem_of_split)%list_elem_of_fmap. cbn [fst].
  pose proof (w_rep _ _ W) as [R _]. pose proof (r_nodup _ _ R) as [_ Hnd]%NoDup_cons.
  rewrite kremove_at by done. unfold zslDelete.
  destruct (find_node_spec zsl LA LB x' k R) as (us & -> & Hus). mred.
  destruct (unlink_free_spec zsl LA LB x' k us W Hus) as (z & _ & -> & _ & _ & W' & _). mred.
  by exists (zslFreeNode z x').
Qed.

(** ** zslUpdateScore *)

Lemma keeps_rep zsl z L x mt :
  rep zsl L -> keeps_levels zsl z -> metas z = <[x := mt]> (metas zsl) ->
  x ∉ zsl_header zsl :: L.*1 -> rep z L.
Proof.
  intros R [Hs Hl] Hm Hx. apply (rep_frame zsl); [done|done|..].
  - intros y Hy. rewrite Hm. apply lookup_insert_ne. by intros <-.
  - intros y i _. by rewrite Hl.
Qed.

(** A score that keeps the place of its node. *)
Lemma set_score_rep zsl LA LB x k s mt :
  rep zsl (LA ++ (x, k) :: LB) -> metas zsl !! x = Some mt ->
  (forall p, p ∈ LA -> klt p.2 (s, k.2)) -> (forall p, p ∈ LB -> klt (s, k.2) p.2) ->
  exists z, set_score zsl x s = Some z /\ rep z (LA ++ (x, (s, k.2)) :: LB) /\
    zsl_header z = zsl_header zsl /\ dom (metas z) = dom (metas zsl).
Proof.
  intros [R Hh] Hmt HA HB. destruct (set_score_spec zsl x s mt Hmt) as (z & -> & [Hs Hl] & Hm).
  apply scalars_eq in Hs as (E1 & E2 & E3 & E4). exists z. split; [done|].
  split; [|split; [done|rewrite Hm; apply dom_insert_lookup_L; by rewrite Hmt]].
  assert (forall y, ht z y = ht zsl y) as Ht by (intros y; rewrite Hm; by eapply height_insert).
  assert ((LA ++ (x, (s, k.2)) :: LB).*1 = (LA ++ (x, k) :: LB).*1) as E by (by rewrite !fmap_app).
  pose proof (r_nodup _ _ R) as [_ Hnd]%NoDup_cons. rewrite fmap_app in Hnd. cbn [fmap list_fmap fst] in Hnd.
  apply NoDup_app in Hnd as (_ & HA' & [HB' _]%NoDup_cons).
  split; [constructor; rewrite ?E1, ?E2, ?E3, ?E4, ?E, ?Ht; try apply R|].
  - pose proof (r_nodes _ _ R) as [NA [NX NB]]%nodes_ok_app. apply nodes_ok_app. split; [|split].
    + eapply nodes_ok_frame; [|exact NA]. intros y Hy. rewrite Hm. apply lookup_insert_ne.
      intros <-. apply (HA' x Hy). left.
    + destruct NX as (h & H1 & H2 & H3). exists h. split; [done|]. split; [done|].
      rewrite Hm, lookup_insert_eq. rewrite Hmt in H3. by injection H3 as ->.
    + eapply nodes_ok_frame; [|exact NB]. intros y Hy. rewrite Hm. apply lookup_insert_ne. by intros <-.
  - intros i Hi. rewrite Hl. apply (level_ok_ext (ht zsl)); [intros y _; by rewrite Ht|].
    by apply (r_lvl _ _ R).
  - intros i Hi. rewrite Hl. by apply (r_top _ _ R).
  - rewrite (r_len _ _ R), !length_app. done.
  - pose proof (r_max _ _ R) as Hmax. rewrite !length_app in *. exact Hmax.
  - rewrite fmap_app. cbn. apply sorted_mid. rewrite <- fmap_app. split_and!.
    + eapply sorted_remove, R.
    + intros ? (p & -> & Hp)%list_elem_of_fmap. auto.
    + intros ? (p & -> & Hp)%list_elem_of_fmap. auto.
  - unfold high. rewrite E4, E. destruct Hh as [?|(y & Hy & Hhy)]; [by left|]. right. exists y. by rewrite Ht.
Qed.

Lemma wf_replace zsl z L L' :
  zsl_wf zsl L -> rep z L' -> zsl_header z = zsl_header zsl -> dom (metas z) = dom (metas zsl) ->
  L'.*1 ≡ₚ L.*1 -> L'.*2.*2 ≡ₚ L.*2.*2 -> zsl_wf z L'.
Proof.
  intros W R Hh Hd H1 H2. split; [done| |].
  - rewrite <- dom_metas, Hd, dom_metas, Hh, (w_dom _ _ W). cbn. by rewrite H1.
  - rewrite H2. apply W.
Qed.


Lemma klt_score s1 e1 s2 e2 : score_lt s1 s2 = true -> klt (s1, e1) (s2, e2).
Proof. intros E. unfold Skiplist.klt, Skiplist.kcmp. cbn. by rewrite E. Qed.

(** The neighbours of a node, and what the fast path asks of them. *)
Lemma deref_back zsl LA LB p s e :
  links zsl (LA ++ p :: LB) ->
  exists o, deref zsl (last LA.*1) = Some o /\
    (match o with None => true | Some b => score_lt (zn_score b) s end = true ->
     forall q, q ∈ LA -> klt q.2 (s, e)).
Proof.
  intros R. pose proof (r_sorted _ _ R) as Hs. rewrite fmap_app in Hs.
  apply sorted_app_iff in Hs as (HsA & _). destruct (last LA) as [[y ky]|] eqn:El.
  - apply last_Some in El as (LA' & ->). rewrite fmap_app. cbn [fmap list_fmap fst].
    rewrite last_snoc. cbn [deref].
    rewrite <- (assoc_L (++)) in R. destruct (links_node _ LA' y ky _ R) as (ny & Hny & Ek & _).
    rewrite Hny. mred. eexists. split; [done|]. intros Hlt q [Hq|Hq%list_elem_of_singleton]%elem_of_app.
    + eapply (klt_trans score_lt _ ky); [|rewrite <- Ek; by apply klt_score].
      rewrite fmap_app in HsA. apply sorted_app_iff in HsA as (_ & _ & Hlast).
      apply Hlast; [by apply list_elem_of_fmap_2|left].
    + rewrite Hq, <- Ek. by apply klt_score.
  - apply last_None in El as ->. exists None. split; [done|]. intros _ q []%not_elem_of_nil.
Qed.

Lemma deref_next zsl LA LB p s e :
  links zsl (LA ++ p :: LB) ->
  exists o, deref zsl (head LB.*1) = Some o /\
    (match o with None => true | Some b => score_lt s (zn_score b) end = true ->
     forall q, q ∈ LB -> klt (s, e) q.2).
Proof.
  intros R. pose proof (r_sorted _ _ R) as Hs. rewrite fmap_app in Hs.
  apply sorted_app_iff in Hs as (_ & [HsB _]%StronglySorted_inv & _).
  destruct LB as [|[y ky] LB'].
  - exists None. split; [done|]. intros _ q []%not_elem_of_nil.
  - cbn [deref head fmap list_fmap fst].
    replace (LA ++ p :: (y, ky) :: LB') with ((LA ++ [p]) ++ (y, ky) :: LB') in R
      by (by rewrite <- (assoc_L (++))).
    destruct (links_node _ _ y ky _ R) as (ny & Hny & Ek & _). rewrite Hny. mred.
    eexists. split; [done|]. intros Hlt q [->|Hq]%elem_of_cons; cbn.
    + rewrite <- Ek. by apply klt_score.
    + eapply (klt_trans score_lt _ ky); [rewrite <- Ek; by apply klt_score|].
      apply StronglySorted_inv in HsB as [_ HF]. eapply Forall_forall in HF; [exact HF|].
      by apply list_elem_of_fmap_2.
Qed.

(** The slow path: unlink, set the score, insert. *)
Lemma reposition_spec zsl LA LB x old ele newscore :
  zsl_wf zsl (LA ++ (x, (old, ele)) :: LB) ->
  exists z, (update ← find_node score_lt zsl x;
             zsl ← zslUnlinkNode zsl x update;
             zsl ← set_score zsl x newscore;
             zslInsertNode score_lt zsl x) = Some z /\
    zsl_wf z (kinsert x (newscore, ele) (LA ++ LB)).
Proof.
  intros W. pose proof (w_rep _ _ W) as HR. pose proof HR as [R _].
  pose proof (r_nodup _ _ R) as [Hxh Hnd]%NoDup_cons.
  destruct (nodes_ok_lookup _ _ _ _ _ _ _ (r_nodes _ _ R)) as (h & Hh1 & Hh2 & Hmx).
  pose proof (r_level _ _ R) as Hlev.
  destruct (find_node_spec zsl LA LB x (old, ele) R) as (us & -> & Hus). mred.
  destruct (zslUnlinkNode_spec zsl LA LB x _ us HR Hus) as (z1 & -> & R1 & Eh1 & Ed1 & Em1 & _). mred.
  rewrite Hmx in Em1. destruct (set_score_spec z1 x newscore _ Em1) as (z2 & -> & K & Em2). mred.
  assert (x ∉ zsl_header zsl :: (LA ++ LB).*1) as Hx.
  { rewrite fmap_app in Hxh, Hnd |- *. cbn [fmap list_fmap fst] in Hxh, Hnd.
    rewrite <- Permutation_middle in Hxh, Hnd. apply NoDup_cons in Hnd as [Hnd _].
    apply not_elem_of_cons. split; [|done]. intros ->. apply Hxh. left. }
  rewrite <- Eh1 in Hx. pose proof (keeps_rep z1 z2 _ x _ R1 K Em2 Hx) as R2.
  pose proof (k_scalars _ _ K) as (E1 & _)%scalars_eq. rewrite <- E1 in Hx.
  destruct (kinsert_split x (newscore, ele) (LA ++ LB)) as (LA' & LB' & E & -> & HA' & HB').
  { apply R1. }
  { intros p Hp Ek%kcmp_ele. cbn in Ek. pose proof (w_ele _ _ W) as Hne.
    rewrite !fmap_app in Hne. cbn [fmap list_fmap snd] in Hne.
    rewrite <- Permutation_middle in Hne. apply NoDup_cons in Hne as [Hne _]. apply Hne.
    rewrite <- !fmap_app, <- Ek. by apply list_elem_of_fmap_2, list_elem_of_fmap_2. }
  rewrite E in R2, Hx.
  destruct (zslInsertNode_spec z2 LA' LB' x (newscore, ele) h (prev_of None LA.*1) R2 HA' HB' Hx)
    as (z & -> & Hz & Hh & Hd).
  { by rewrite Em2, lookup_insert_eq. }
  { lia. }
  { rewrite <- E. pose proof (r_max _ _ R) as Hmax. rewrite length_app in Hmax |- *. cbn in Hmax. lia. }
  exists z. split; [done|]. apply (wf_replace zsl z _ _ W Hz); [congruence| |..].
  + rewrite Hd, Em2, <- Ed1. apply dom_insert_lookup_L. by rewrite Em1.
  + rewrite !fmap_app. cbn [fmap list_fmap fst]. rewrite <- !Permutation_middle, <- !fmap_app. by rewrite E.
  + rewrite !fmap_app. cbn [fmap list_fmap snd]. rewrite <- !Permutation_middle, <- !fmap_app. by rewrite E.
Qed.

Lemma zslUpdateScore_spec zsl x old ele newscore L :
  zsl_wf zsl L -> (x, (old, ele)) ∈ L ->
  exists z, zslUpdateScore score_lt zsl x newscore = Some z /\
    zsl_wf z (kinsert x (newscore, ele) (kremove x L)).
Proof.
  intros W (LA & LB & ->)%list_elem_of_split. pose proof (w_rep _ _ W) as HR. pose proof HR as [R _].
  pose proof (r_nodup _ _ R) as [_ Hnd]%NoDup_cons. rewrite kremove_at by done.
  destruct (links_node _ _ _ _ _ R) as (n & Hn & _ & Eb).
  unfold zslUpdateScore. rewrite Hn. mred. rewrite Eb.
  destruct (nodes_ok_lookup _ _ _ _ _ _ _ (r_nodes _ _ R)) as (h & Hh1 & Hh2 & Hmx).
  pose proof (r_level _ _ R) as Hlev.
  assert (exists lv, level_at zsl x 0 = Some lv /\ forward lv = head LB.*1) as (lv & Elv & Hf).
  { destruct (links_at zsl (LA ++ (x, (old, ele)) :: LB) (zsl_header zsl :: LA.*1) x LB.*1 0 R)
      as (lv & Elv & [Hf _] & _); [by rewrite fmap_app|unfold height; rewrite Hmx; cbn; lia|lia|].
    exists lv. split; [done|]. rewrite Hf. apply hop_0_head. intros y Hy.
    eapply (links_height zsl); [done|]. rewrite fmap_app. apply elem_of_app. right. by right. }
  destruct (deref_back zsl LA LB _ newscore ele R) as (o & -> & Ho). mred. rewrite Elv. mred. rewrite Hf.
  destruct (deref_next zsl LA LB _ newscore ele R) as (o' & -> & Ho'). mred.
  destruct (_ && _) eqn:Hb; [|by eapply reposition_spec].
  apply andb_prop in Hb as [Hb1 Hb2]. rewrite kinsert_at by auto.
  destruct (set_score_rep zsl LA LB x (old, ele) newscore _ HR Hmx) as (z & -> & Hz & Hh & Hd); [auto..|].
  exists z. split; [done|]. cbn [snd] in Hz. apply (wf_replace zsl z _ _ W Hz Hh Hd); by rewrite !fmap_app.
Qed.

(** ** Ranks *)

(** The 1-based rank of the element with the key [k], or 0. *)
Definition rank_of (k : key) L : Z :=
  match list_find (fun p => kcmp k p.2 = 0) L with
  | Some (i, _) => Z.of_nat i + 1
  | None => 0
  end.

Lemma rank_of_hit k LA p LB :
  StronglySorted klt (LA ++ p :: LB).*2 -> kcmp k p.2 = 0 ->
  rank_of k (LA ++ p :: LB) = Z.of_nat (length LA) + 1.
Proof.
  intros Hs Hk. unfold rank_of. rewrite fmap_app in Hs. cbn in Hs. apply sorted_mid in Hs as (_ & HA & _).
  rewrite list_find_app_r.
  - cbn. rewrite decide_True by done. done.
  - apply list_find_None, Forall_forall. intros q Hq Hq0. specialize (HA q.2 ltac:(by apply list_elem_of_fmap_2)).
    unfold Skiplist.klt in HA. rewrite (kcmp_antisym score_lt p.2 q.2) in HA.
    rewrite <- (kcmp_eq_l score_lt k p.2 q.2 Hk), Hq0 in HA. lia.
Qed.

Lemma rank_of_miss k L : (forall p, p ∈ L -> kcmp k p.2 <> 0) -> rank_of k L = 0.
Proof.
  intros Hn. unfold rank_of. by rewrite (proj2 (list_find_None _ _)) by (by apply Forall_forall).
Qed.

Abbreviation upto zsl s e := (fun f => n ← deref zsl f; Some (zslCompareWithNode score_lt s e n >=? 0)).

Lemma search_upto zsl L LA LB s e :
  links zsl L -> L = LA ++ LB ->
  (forall p, p ∈ LA -> kcmp (s, e) p.2 >= 0) -> (forall p, p ∈ LB -> klt (s, e) p.2) ->
  search zsl L (upto zsl s e) LA.*1 LB.*1.
Proof.
  intros R EL HA HB. apply (search_keys _ _ _ _ _ (fun k => kcmp (s, e) k >=? 0)); try done.
  - intros y n Hn. cbn [deref]. rewrite Hn. mred. by rewrite compare_kcmp.
  - intros p Hp%HA. rewrite Z.geb_leb. apply Z.leb_le. lia.
  - intros p Hp%HB. rewrite Z.geb_leb. apply Z.leb_gt. exact Hp.
Qed.

(** The node a search has reached, and its key. *)
Lemma reached zsl L LA LB i u :
  links zsl L -> L = LA ++ LB -> position_of LA.*1 zsl i u ->
  (u.1 = zsl_header zsl /\ u.2 = 0) \/
  exists X k Y n, LA = X ++ (u.1, k) :: Y /\ u.2 = Z.of_nat (length X) + 1 /\ u.1 <> zsl_header zsl /\
    node zsl u.1 = Some n /\ (zn_score n, zn_ele n) = k.
Proof.
  intros R -> (P & M & E & Hr & _). destruct P as [|h P]; cbn in E; injection E as <- E; [left; done|right].
  apply fmap_app_inv in E as (X & Y & Ep & Ey & ->). destruct Y as [|[y k] Y]; [done|].
  cbn in Ey. injection Ey as Ey EM. rewrite Ey. rewrite <- (assoc_L (++)) in R.
  destruct (links_node zsl X y k (Y ++ LB) R) as (n & Hn & Ek & _).
  exists X, k, Y, n. split; [done|]. split; [rewrite Hr, Ep; cbn; rewrite length_fmap; lia|].
  split; [|done]. pose proof (r_nodup _ _ R) as [Hnd _]%NoDup_cons. intros ->. apply Hnd.
  rewrite fmap_app. apply elem_of_app. right. left.
Qed.

(** The last node of the search has the key, or no node has. *)
Lemma last_hit zsl L LA LB s e u :
  links zsl L -> L = LA ++ LB ->
  (forall p, p ∈ LA -> kcmp (s, e) p.2 >= 0) -> (forall p, p ∈ LB -> klt (s, e) p.2) ->
  position_of LA.*1 zsl 0 u ->
  (u.1 = zsl_header zsl \/ exists n, node zsl u.1 = Some n /\ kcmp (s, e) (zn_score n, zn_ele n) <> 0) ->
  rank_of (s, e) L = 0.
Proof.
  intros R EL HA HB Hpos Hu. apply rank_of_miss. intros p Hp Hk. subst L.
  apply elem_of_app in Hp as [Hp|Hp]; [|by specialize (HB p Hp); unfold Skiplist.klt in HB; lia].
  apply list_elem_of_split in Hp as (X & Y & ->).
  assert (Y = []) as ->.
  { destruct Y as [|q Y]; [done|]. specialize (HA q).
    pose proof (r_sorted _ _ R) as Hs. rewrite <- (assoc_L (++)), fmap_app in Hs. cbn in Hs.
    apply sorted_mid in Hs as (_ & _ & Hpq). specialize (Hpq q.2 ltac:(left)).
    unfold Skiplist.klt in Hpq. rewrite <- (kcmp_eq_l score_lt _ _ q.2 Hk) in Hpq.
    assert (kcmp (s, e) q.2 >= 0); [|lia]. apply HA, elem_of_app. right. right. left. }
  destruct (position_0 zsl (X ++ [p]).*1 LB.*1 u) as (P & EP & _); [|done|].
  { intros y Hy. rewrite <- fmap_app in Hy. by eapply links_height. }
  rewrite fmap_app, app_comm_cons in EP. cbn [fmap list_fmap] in EP.
  apply app_inj_tail in EP as [_ Ep].
  pose proof (r_nodup _ _ R) as [Hnd _]%NoDup_cons.
  destruct Hu as [Hu|(n & Hn & Hne)].
  - apply Hnd. rewrite <- Hu, <- Ep, !fmap_app. rewrite !elem_of_app. left. right. left.
  - rewrite <- (assoc_L (++)) in R. destruct p as [y k]. cbn in Ep, Hk. subst y.
    destruct (links_node zsl X _ k _ R) as (n' & Hn' & Ek & _). rewrite Hn in Hn'. injection Hn' as <-.
    by rewrite Ek in Hne.
Qed.

Lemma rank_loop_spec zsl L LA LB s e n P x M :
  links zsl L -> L = LA ++ LB ->
  (forall p, p ∈ LA -> kcmp (s, e) p.2 >= 0) -> (forall p, p ∈ LB -> klt (s, e) p.2) ->
  zsl_header zsl :: LA.*1 = P ++ x :: M -> (n <= ht zsl x)%nat -> Z.of_nat n <= zsl_level zsl ->
  (n = O -> rank_of (s, e) L = 0) ->
  rank_loop score_lt n zsl s e x (Z.of_nat (length P)) = Some (rank_of (s, e) L).
Proof.
  intros R EL HA HB. pose proof (search_upto _ _ _ _ _ _ R EL HA HB) as Sr.
  revert P x M. induction n as [|n IH]; intros P x M E Hn Hl H0; [by rewrite H0|].
  cbn [rank_loop].
  destruct (walk_spec zsl L _ LA.*1 LB.*1 (walk_fuel zsl) n P x M R Sr E) as ([y r] & -> & Hu);
    [lia|lia| |].
  { unfold walk_fuel. rewrite (r_len _ _ R), Nat2Z.id, EL. apply (f_equal length) in E.
    rewrite length_app in E |- *. cbn in E. rewrite length_fmap in E. lia. }
  mred. pose proof Hu as (P' & M' & E' & Hr & _ & Hh). cbn in E', Hr, Hh. subst r.
  assert (forall v, v = Z.of_nat (length P') -> (n = O -> rank_of (s, e) L = 0) ->
    rank_loop score_lt n zsl s e y v = Some (rank_of (s, e) L)) as Hnext.
  { intros v -> Hz. apply (IH P' y M' E'); [lia|lia|done]. }
  destruct (reached zsl L LA LB n (y, Z.of_nat (length P')) R EL Hu)
    as [[Ey Er]|(X & k & Y & nd & EX & Er & Ey & Hnd & Ek)]; cbn [fst snd] in *.
  - subst y. pose proof (r_hdr _ _ R) as Hh32. unfold height in Hh32.
    destruct (metas zsl !! zsl_header zsl) as [mt|] eqn:Em; [|done].
    destruct (metas_node _ _ _ Em) as (nd & -> & _). mred.
    rewrite bool_decide_true by done. cbn [negb andb]. apply Hnext; [done|].
    intros ->. eapply last_hit; try done. by left.
  - rewrite Hnd. mred. rewrite bool_decide_false by done. cbn [negb andb].
    rewrite compare_kcmp, Ek. destruct (kcmp (s, e) k =? 0) eqn:Hk; bools.
    + f_equal. rewrite EL, EX, <- (assoc_L (++)). cbn. rewrite rank_of_hit; [lia| |done].
      pose proof (r_sorted _ _ R) as Hs. by rewrite EL, EX, <- (assoc_L (++)) in Hs.
    + apply Hnext; [done|]. intros ->. eapply last_hit; try done. right. exists nd. by rewrite Ek.
Qed.

Lemma zslGetRank_spec zsl L s e :
  links zsl L -> zslGetRank score_lt zsl s e = Some (rank_of (s, e) L).
Proof.
  intros R. pose proof (r_level _ _ R) as Hlev.
  destruct (sorted_split (fun k => kcmp (s, e) k >=? 0) L) as (LA & LB & EL & HA & HB).
  - intros a b _ _ Hab Hb. rewrite Z.geb_leb in *. apply Z.leb_le. apply Z.leb_le in Hb.
    destruct (Z_lt_dec (kcmp (s, e) a) 0) as [Hlt|]; [|lia].
    pose proof (klt_trans score_lt _ _ _ Hlt Hab) as H. unfold Skiplist.klt in H. lia.
  - apply R.
  - unfold zslGetRank. apply (rank_loop_spec zsl L LA LB s e _ [] (zsl_header zsl) LA.*1); try done; try lia.
    + intros p Hp%HA. rewrite Z.geb_leb in Hp. apply Z.leb_le in Hp. lia.
    + intros p Hp%HB. rewrite Z.geb_leb in Hp. apply Z.leb_gt in Hp. exact Hp.
    + rewrite (r_hdr _ _ R). lia.
Qed.

(** *** Rank of a node *)

Lemma to_end_spec zsl L fuel P x M d :
  links zsl L -> L.*1 = P ++ x :: M -> (Datatypes.S (length M) < fuel)%nat ->
  0 <= d -> d + Z.of_nat (length M) < 2 ^ 64 ->
  to_end fuel zsl (Some x) d = Some (d + Z.of_nat (length M)).
Proof.
  intros R. revert P x M d. induction fuel as [|fuel IH]; intros P x M d E Hf Hd Hlt; [lia|].
  cbn [to_end]. assert (x ∈ L.*1) as Hx by (rewrite E; apply elem_of_app; right; left).
  pose proof Hx as ([x' k] & Ex & (A & B & EL)%list_elem_of_split)%list_elem_of_fmap. cbn in Ex. subst x'.
  pose proof (r_nodes _ _ R) as Hn. rewrite EL in Hn.
  destruct (nodes_ok_lookup _ _ _ _ _ _ _ Hn) as (h & H1 & H2 & Hm).
  destruct (metas_node _ _ _ Hm) as (nd & -> & [= _ _ Elv _]). mred. rewrite Elv.
  assert (ht zsl x = h) as Hhx by (unfold height; by rewrite Hm).
  set (i := Z.to_nat (Z.of_nat h - 1)).
  destruct (links_at zsl L (zsl_header zsl :: P) x M i R) as (lv & -> & [Hfw _] & ->);
    [by rewrite E|lia|lia|]. mred. rewrite Hfw.
  destruct (hop (ht zsl) i M).1 as [y|] eqn:Hy.
  - destruct (hop_Some _ _ _ _ Hy) as (a & b & -> & -> & _). rewrite length_app in *. cbn [length] in *.
    rewrite wrapu_small by (unfold in_u; lia).
    rewrite (IH (P ++ x :: a) y b); [f_equal; lia| |lia..]. by rewrite E, <- (assoc_L (++)).
  - rewrite hop_None by done. rewrite wrapu_small by (unfold in_u; lia).
    destruct fuel; [lia|]. done.
Qed.

Lemma zslGetRankByNode_spec zsl LA LB x k :
  links zsl (LA ++ (x, k) :: LB) ->
  zslGetRankByNode zsl x = Some (Z.of_nat (length LA) + 1).
Proof.
  intros R. unfold zslGetRankByNode, walk_fuel. pose proof (r_max _ _ R) as Hmax.
  rewrite (r_len _ _ R), Nat2Z.id. rewrite length_app in *. cbn [length] in *.
  rewrite (to_end_spec zsl _ _ LA.*1 x LB.*1 0 R).
  - mred. rewrite length_fmap. rewrite wrapu_small; [f_equal; lia|]. unfold in_u. lia.
  - by rewrite fmap_app.
  - rewrite length_fmap. lia.
  - lia.
  - rewrite length_fmap. lia.
Qed.

(** *** Access by rank *)

Lemma links_lengths zsl L P x M :
  links zsl L -> zsl_header zsl :: L.*1 = P ++ x :: M ->
  (length P + length M = length L)%nat /\ Z.of_nat (length L) < 2 ^ 64.
Proof.
  intros R E. split; [|apply R]. apply (f_equal length) in E. rewrite length_app in E.
  cbn in E. rewrite length_fmap in E. lia.
Qed.

Lemma walk_rank_spec zsl L ok c fuel i P x M :
  links zsl L -> zsl_header zsl :: L.*1 = P ++ x :: M ->
  (i < ht zsl x)%nat -> Z.of_nat i < zsl_level zsl -> (length M < fuel)%nat ->
  0 <= c <= Z.of_nat (length P) ->
  exists P' y M', walk_rank fuel zsl ok i x (Z.of_nat (length P) - c) = Some (y, Z.of_nat (length P') - c) /\
    zsl_header zsl :: L.*1 = P' ++ y :: M' /\ (i < ht zsl y)%nat /\ (length P <= length P')%nat /\
    ((length P' = length P) \/ ok (Z.of_nat (length P') - c) = true) /\
    ((hop (ht zsl) i M').1 = None \/ ok (Z.of_nat (length P' + (hop (ht zsl) i M').2) - c) = false).
Proof.
  intros R. revert P x M. induction fuel as [|fuel IH]; intros P x M E Hi Hl Hf Hc; [lia|].
  destruct (links_lengths _ _ _ _ _ R E) as [Elen Hlen].
  cbn [walk_rank]. destruct (links_at zsl L P x M i R E Hi Hl) as (lv & -> & [Hfw _] & ->). mred.
  rewrite Hfw. destruct (hop (ht zsl) i M).1 as [y|] eqn:Hy.
  - destruct (hop_Some _ _ _ _ Hy) as (a & b & EM & Hk & Ha & Hiy).
    assert (length M = length a + Datatypes.S (length b))%nat as ElM by (rewrite EM, length_app; done).
    assert (zsl_header zsl :: L.*1 = (P ++ x :: a) ++ y :: b) as E'.
    { rewrite E, EM, <- (assoc_L (++)). done. }
    assert (u64 (Z.of_nat (length P) - c + Z.of_nat (hop (ht zsl) i M).2) = Z.of_nat (length (P ++ x :: a)) - c) as ->.
    { rewrite Hk, length_app. cbn. rewrite wrapu_small; [lia|]. unfold in_u. lia. }
    destruct (ok (Z.of_nat (length (P ++ x :: a)) - c)) eqn:Hok.
    + destruct (IH (P ++ x :: a) y b E') as (P' & z & M' & -> & E2 & H2 & H3 & H4 & H5);
        [done|done|lia|rewrite length_app; lia|].
      exists P', z, M'. split_and!; try done; [rewrite length_app in H3; lia|]. right.
      destruct H4 as [->|]; done.
    + exists P, x, M. split_and!; try done; [by left|right].
      rewrite <- Hok. f_equal. rewrite Hk, length_app. cbn. lia.
  - exists P, x, M. split_and!; try done; by left.
Qed.

Lemma by_rank_loop_spec zsl L c rank n P x M :
  links zsl L -> zsl_header zsl :: L.*1 = P ++ x :: M ->
  (n <= ht zsl x)%nat -> Z.of_nat n <= zsl_level zsl -> 0 <= c <= Z.of_nat (length P) ->
  Z.of_nat (length P) - c <= rank ->
  (n = O -> (zsl_header zsl :: L.*1) !! Z.to_nat (rank + c) = None) ->
  by_rank_loop n zsl x (Z.of_nat (length P) - c) rank =
    Some ((zsl_header zsl :: L.*1) !! Z.to_nat (rank + c)).
Proof.
  intros R. revert P x M. induction n as [|n IH]; intros P x M E Hn Hl Hc Hr H0; [by rewrite H0|].
  cbn [by_rank_loop]. destruct (links_lengths _ _ _ _ _ R E) as [Elen Hlen].
  destruct (walk_rank_spec zsl L (fun t => t <=? rank) c (walk_fuel zsl) n P x M R E)
    as (P' & y & M' & -> & E' & H1 & H2 & H3 & H4); [lia|lia| |lia|].
  { unfold walk_fuel. rewrite (r_len _ _ R), Nat2Z.id. lia. }
  mred. assert (Z.of_nat (length P') - c <= rank) as Hle.
  { destruct H3 as [->|H3]; [lia|]. by apply Z.leb_le in H3. }
  destruct (_ =? rank) eqn:Hd; bools.
  - f_equal. rewrite E'. rewrite lookup_app_r by lia.
    replace (Z.to_nat (rank + c) - length P')%nat with 0%nat by lia. done.
  - apply (IH P' y M' E'); [lia|lia|lia|done|]. intros ->. apply lookup_ge_None_2.
    rewrite E', length_app. cbn. destruct M' as [|z M'']; [cbn; lia|].
    assert (1 <= ht zsl z)%nat as Hz.
    { apply (links_height zsl L); [done|]. eapply chain_mem; [exact E'|]. left. }
    rewrite hop_here in H4 by lia. cbn in H4. destruct H4 as [|H4]; [done|]. apply Z.leb_gt in H4. lia.
Qed.

Lemma zslGetElementByRankFromNode_spec zsl L P x M lev rank :
  links zsl L -> zsl_header zsl :: L.*1 = P ++ x :: M ->
  0 <= lev < Z.of_nat (ht zsl x) -> lev < zsl_level zsl -> 0 <= rank ->
  zslGetElementByRankFromNode zsl x lev rank = Some ((x :: M) !! Z.to_nat rank).
Proof.
  intros R E H1 H2 Hr. unfold zslGetElementByRankFromNode.
  pose proof (by_rank_loop_spec zsl L (Z.of_nat (length P)) rank (Z.to_nat (lev + 1)) P x M R E) as H.
  rewrite Z.sub_diag in H. rewrite H by lia. f_equal. rewrite E, lookup_app_r by lia. f_equal. lia.
Qed.

Lemma zslGetElementByRank_spec zsl L rank :
  links zsl L -> 0 <= rank ->
  zslGetElementByRank zsl rank = Some ((zsl_header zsl :: L.*1) !! Z.to_nat rank).
Proof.
  intros R Hr. pose proof (r_level _ _ R). unfold zslGetElementByRank.
  apply (zslGetElementByRankFromNode_spec zsl L []); [done|done|rewrite (r_hdr _ _ R); lia|lia|done].
Qed.

(** ** Deletion of ranges *)

Lemma delete_while_spec {D} (dictDelete : D -> list Z -> D) more zsl LA dl LB us d removed fuel (f : key -> Z -> bool) :
  zsl_wf zsl (LA ++ dl ++ LB) -> update_ok zsl LA.*1 us ->
  (forall n r, more n r = f (zn_score n, zn_ele n) r) ->
  (forall i p, dl !! i = Some p -> f p.2 (removed + Z.of_nat i) = true) ->
  (match LB with p :: _ => f p.2 (removed + Z.of_nat (length dl)) = false | [] => True end) ->
  0 <= removed -> removed + Z.of_nat (length dl) < 2 ^ 64 -> (length dl < fuel)%nat ->
  exists z, delete_while fuel zsl dictDelete more us (head (dl ++ LB).*1) d removed =
      Some (z, foldl dictDelete d (dl.*2).*2, removed + Z.of_nat (length dl)) /\
    zsl_wf z (LA ++ LB).
Proof.
  intros W Hus Hmore. revert zsl W Hus d removed fuel.
  induction dl as [|[x k] dl IH]; intros zsl W Hus d removed fuel Hin Hout Hr0 Hr Hf;
    (destruct fuel as [|fuel]; [cbn in Hf; lia|]); cbn [delete_while app] in *.
  - rewrite Z.add_0_r in *. exists zsl. split; [|done]. destruct LB as [|[y ky] LB]; [done|].
    cbn [head fmap list_fmap fst]. destruct (links_node _ _ _ _ _ (proj1 (w_rep _ _ W))) as (n & -> & Ek & _).
    mred. rewrite Hmore, Ek. cbn [snd] in Hout. by rewrite Hout.
  - cbn [head fmap list_fmap fst]. pose proof (w_rep _ _ W) as [R _].
    destruct (links_node _ _ _ _ _ R) as (n & -> & Ek & _). mred. rewrite Hmore, Ek.
    pose proof (Hin 0%nat (x, k) eq_refl) as H0. rewrite Z.add_0_r in H0. cbn [snd] in H0. rewrite H0.
    destruct (links_at zsl _ (zsl_header zsl :: LA.*1) x (dl ++ LB).*1 0 R) as (lv & -> & [Hfw _] & _).
    { by rewrite fmap_app. }
    { apply (links_height _ _ x R). rewrite fmap_app. apply elem_of_app. right. left. }
    { pose proof (r_level _ _ R). lia. }
    mred. rewrite Hfw, hop_0_head.
    2:{ intros y Hy. apply (links_height _ _ y R). rewrite fmap_app. apply elem_of_app. right. by right. }
    destruct (unlink_free_spec zsl LA (dl ++ LB) x k us W Hus) as (z & nd & -> & Hnd & Eele & W' & Hus' & _).
    mred. rewrite Hnd. mred. rewrite Eele. cbn [length] in Hr, Hout, Hf.
    rewrite wrapu_small by (unfold in_u; lia).
    destruct (IH (zslFreeNode z x) W' Hus' (dictDelete d k.2) (removed + 1) fuel) as (z' & -> & W''); try lia.
    + intros i p Hp. replace (removed + 1 + Z.of_nat i) with (removed + Z.of_nat (Datatypes.S i)) by lia.
      by apply Hin.
    + replace (removed + 1 + Z.of_nat (length dl)) with (removed + Z.of_nat (Datatypes.S (length dl))) by lia.
      done.
    + exists z'. split; [|done]. cbn [fmap list_fmap foldl length]. f_equal. f_equal. lia.
Qed.

(** The node behind which a search stopped, and the next one. *)
Lemma first_after zsl L LA LB u :
  links zsl L -> L = LA ++ LB -> position_of LA.*1 zsl 0 u ->
  exists lv, level_at zsl u.1 0 = Some lv /\ forward lv = head LB.*1 /\ u.2 = Z.of_nat (length LA).
Proof.
  intros R -> Hpos. destruct (position_0 zsl LA.*1 LB.*1 u) as (P & EP & Hr); [|done|].
  { intros y Hy. rewrite <- fmap_app in Hy. by apply (links_height _ _ y R). }
  destruct Hpos as (_ & _ & _ & _ & _ & Hu). pose proof (r_level _ _ R).
  destruct (links_at zsl (LA ++ LB) P u.1 LB.*1 0 R) as (lv & -> & [Hfw _] & _); [|done|lia|].
  { by rewrite fmap_app, app_comm_cons, EP, <- (assoc_L (++)). }
  exists lv. split; [done|]. rewrite Hfw, hop_0_head; [by rewrite Hr, length_fmap|].
  intros y Hy. apply (links_height _ _ y R). rewrite fmap_app. apply elem_of_app. by right.
Qed.

(** A range of keys: an interval of the order of the elements. *)
Record interval L (gte lte : key -> bool) : Prop := {
  i_gte a b : a ∈ L.*2 -> b ∈ L.*2 -> klt a b -> gte a = true -> gte b = true;
  i_lte a b : a ∈ L.*2 -> b ∈ L.*2 -> klt a b -> lte b = true -> lte a = true
}.

Definition in_interval (gte lte : key -> bool) (p : ptr * key) : Prop := gte p.2 = true /\ lte p.2 = true.

#[local] Instance in_interval_dec gte lte p : Decision (in_interval gte lte p).
Proof. unfold in_interval. apply _. Defined.

Lemma interval_split gte lte L :
  interval L gte lte -> StronglySorted klt L.*2 ->
  exists LA LR LB, L = LA ++ LR ++ LB /\ (forall p, p ∈ LA -> gte p.2 = false) /\
    (forall p, p ∈ LR -> gte p.2 = true /\ lte p.2 = true) /\
    (forall p, p ∈ LB -> gte p.2 = true /\ lte p.2 = false) /\
    filter (in_interval gte lte) L = LR /\ filter (fun p => ~ in_interval gte lte p) L = LA ++ LB.
Proof.
  intros [Hg Hl] Hs. destruct (sorted_split (fun k => negb (gte k)) L) as (LA & T & -> & HA & HT); [|done|].
  { intros a b Ha Hb Hab. rewrite !negb_true_iff. intros Hgb. destruct (gte a) eqn:E; [|done].
    by rewrite (Hg _ _ Ha Hb Hab E) in Hgb. }
  pose proof Hs as Hs'. rewrite fmap_app in Hs'. apply sorted_app_iff in Hs' as (_ & HsT & _).
  destruct (sorted_split lte T) as (LR & LB & -> & HR & HB); [|done|].
  { intros a b Ha Hb. apply Hl; rewrite fmap_app; apply elem_of_app; by right. }
  assert (forall p, p ∈ LA -> gte p.2 = false) as HA' by (intros p Hp%HA; by apply negb_true_iff).
  assert (forall p, p ∈ LR ++ LB -> gte p.2 = true) as HT' by (intros p Hp%HT; by apply negb_false_iff).
  assert (forall p, p ∈ LR -> gte p.2 = true /\ lte p.2 = true) as HR'.
  { intros p Hp. split; [apply HT', elem_of_app; by left|by apply HR]. }
  assert (forall p, p ∈ LB -> gte p.2 = true /\ lte p.2 = false) as HB'.
  { intros p Hp. split; [apply HT', elem_of_app; by right|by apply HB]. }
  exists LA, LR, LB. split_and!; try done; rewrite !filter_app.
  - rewrite (filter_drop _ LA), (filter_keep _ LR), (filter_drop _ LB); [by rewrite app_nil_r|..];
      intros p Hp; unfold in_interval.
    + destruct (HB' p Hp) as [_ ->]. naive_solver.
    + by apply HR'.
    + rewrite (HA' p Hp). naive_solver.
  - rewrite (filter_keep _ LA), (filter_drop _ LR), (filter_keep _ LB); [done|..];
      intros p Hp; unfold in_interval.
    + destruct (HB' p Hp) as [_ ->]. naive_solver.
    + rewrite not_and_l. destruct (HR' p Hp) as [-> ->]. naive_solver.
    + rewrite (HA' p Hp). naive_solver.
Qed.

Lemma search_out zsl L LA LB (gte : key -> bool) gte_min :
  links zsl L -> L = LA ++ LB -> (forall n, gte_min n = gte (zn_score n, zn_ele n)) ->
  (forall p, p ∈ LA -> gte p.2 = false) -> (forall p, p ∈ LB -> gte p.2 = true) ->
  search zsl L (out_of_range zsl gte_min) LA.*1 LB.*1.
Proof.
  intros R EL Hg HA HB. apply (search_keys _ _ _ _ _ (fun k => negb (gte k))); try done.
  - intros y n Hn. unfold out_of_range. cbn [deref]. rewrite Hn. mred. by rewrite Hg.
  - intros p Hp%HA. by rewrite Hp.
  - intros p Hp%HB. by rewrite Hp.
Qed.

Lemma delete_range_spec {D} zsl (dictDelete : D -> list Z -> D) gte_min lte_max gte lte d L :
  zsl_wf zsl L -> interval L gte lte ->
  (forall n, gte_min n = gte (zn_score n, zn_ele n)) -> (forall n, lte_max n = lte (zn_score n, zn_ele n)) ->
  exists z, delete_range zsl dictDelete gte_min lte_max d =
      Some (z, foldl dictDelete d ((filter (in_interval gte lte) L).*2).*2,
            Z.of_nat (length (filter (in_interval gte lte) L))) /\
    zsl_wf z (filter (fun p => ~ in_interval gte lte p) L).
Proof.
  intros W Hi Hg Hl. pose proof (w_rep _ _ W) as [R _]. pose proof (r_level _ _ R).
  destruct (interval_split gte lte L Hi (r_sorted _ _ R)) as (LA & LR & LB & EL & HA & HR & HB & -> & ->).
  assert (search zsl L (out_of_range zsl gte_min) LA.*1 (LR ++ LB).*1) as Sr.
  { apply (search_out zsl L LA (LR ++ LB) gte); try done.
    intros p [Hp|Hp]%elem_of_app; [by apply HR|by apply HB]. }
  unfold delete_range. destruct (descend_update _ _ _ _ _ R Sr) as (us & -> & _ & Hus). mred.
  destruct (Hus O) as ([u0 r0] & -> & Hpos); [lia|]. mred.
  destruct (first_after zsl L LA (LR ++ LB) _ R EL Hpos) as (lv & Elv & Hfw & _). cbn [fst] in Elv. rewrite Elv. mred. rewrite Hfw.
  rewrite EL in W. pose proof (r_max _ _ R) as Hmax. rewrite EL, !length_app in Hmax.
  destruct (delete_while_spec dictDelete (fun nd _ => lte_max nd) zsl LA LR LB us d 0 (walk_fuel zsl)
    (fun k _ => lte k) W Hus) as (z & -> & Wz); try lia.
  - intros n _. apply Hl.
  - intros i p Hp%list_elem_of_lookup_2. by apply HR.
  - destruct LB as [|p LB]; [done|]. apply HB. left.
  - unfold walk_fuel. rewrite (r_len _ _ R), Nat2Z.id, EL, !length_app. lia.
  - rewrite Z.add_0_l. by exists z.
Qed.

(** *** By rank *)

Lemma take_position zsl L i P y M m :
  zsl_header zsl :: L.*1 = P ++ y :: M -> (i < ht zsl y)%nat -> (length P <= m)%nat ->
  ((hop (ht zsl) i M).1 = None \/ (m < length P + (hop (ht zsl) i M).2)%nat) ->
  position_of (take m L).*1 zsl i (y, Z.of_nat (length P)).
Proof.
  intros E Hi Hm Hn. exists P, (take (m - length P) M). cbn [fst snd].
  assert (zsl_header zsl :: (take m L).*1 = P ++ y :: take (m - length P) M) as E'.
  { rewrite fmap_take. change (zsl_header zsl :: take m L.*1) with (take (Datatypes.S m) (zsl_header zsl :: L.*1)).
    rewrite E, take_app. rewrite take_ge by lia. f_equal.
    replace (Datatypes.S m - length P)%nat with (Datatypes.S (m - length P)) by lia. done. }
  split_and!; [done|done| |done].
  rewrite <- (take_drop (m - length P) M) in Hn.
  destruct (hop_app_inv (ht zsl) i (take (m - length P) M) (drop (m - length P) M)) as [(z & Hz & Eq)|(Hz & _)]; [|done].
  rewrite Eq in Hn. destruct Hn as [Hn|Hn]; [done|].
  pose proof (hop_le (ht zsl) i (take (m - length P) M)) as Hle. rewrite length_take in Hle. lia.
Qed.

Lemma descend_rank_spec zsl L start n P x M acc :
  links zsl L -> zsl_header zsl :: L.*1 = P ++ x :: M -> 1 <= start ->
  (length P <= Z.to_nat (start - 1))%nat -> (n <= ht zsl x)%nat -> Z.of_nat n <= zsl_level zsl ->
  exists us, descend_rank n zsl start x (Z.of_nat (length P)) acc = Some (us ++ acc) /\
    length us = n /\ forall i u, us !! i = Some u -> position_of (take (Z.to_nat (start - 1)) L).*1 zsl i u.
Proof.
  intros R. revert P x M acc. induction n as [|n IH]; intros P x M acc E Hst HP Hn Hl.
  { exists []. split; [done|]. split; [done|]. by intros i u. }
  cbn [descend_rank]. destruct (links_lengths _ _ _ _ _ R E) as [Elen Hlen].
  pose proof (walk_rank_spec zsl L (fun t => t <? start) 0 (walk_fuel zsl) n P x M R E) as Hw.
  rewrite !Z.sub_0_r in Hw.
  destruct Hw as (P' & y & M' & Ew & E' & H1 & H2 & H3 & H4); [lia|lia| |lia|].
  { unfold walk_fuel. rewrite (r_len _ _ R), Nat2Z.id. lia. }
  rewrite !Z.sub_0_r in Ew. rewrite Ew. mred. rewrite !Z.sub_0_r in H3, H4.
  assert (length P' <= Z.to_nat (start - 1))%nat as HP'.
  { destruct H3 as [->|H3]; [done|]. apply Z.ltb_lt in H3. lia. }
  destruct (IH P' y M' ((y, Z.of_nat (length P')) :: acc) E' Hst HP') as (us & -> & Hus & Hp); [lia|lia|].
  exists (us ++ [(y, Z.of_nat (length P'))]). rewrite <- (assoc_L (++)). split; [done|].
  rewrite length_app, Hus. cbn. split; [lia|]. intros i u Hi.
  apply lookup_app_Some in Hi as [Hi|[Hge Hi]]; [by apply Hp|].
  rewrite Hus in *. destruct (i - n)%nat as [|] eqn:Ei; [|done]. cbn in Hi. injection Hi as <-.
  replace i with n by lia. apply (take_position zsl L n P' y M'); [done|done|done|].
  destruct H4 as [|H4]; [by left|right]. apply Z.ltb_ge in H4. lia.
Qed.

Lemma zslDeleteRangeByRank_spec {D} zsl (dictDelete : D -> list Z -> D) start end_ d L :
  zsl_wf zsl L -> 1 <= start -> 0 <= end_ < 2 ^ 64 -> zsl_length zsl + 1 < 2 ^ 64 ->
  let m := Z.to_nat (start - 1) in
  let n := (Z.to_nat end_ - m)%nat in
  exists z, zslDeleteRangeByRank zsl dictDelete start end_ d =
      Some (z, foldl dictDelete d ((take n (drop m L)).*2).*2, Z.of_nat (length (take n (drop m L)))) /\
    zsl_wf z (take m L ++ drop n (drop m L)).
Proof.
  intros W Hs He Hlen m n. pose proof (w_rep _ _ W) as [R _]. pose proof (r_level _ _ R) as Hlev.
  assert (exists us, descend_rank (Z.to_nat (zsl_level zsl)) zsl start (zsl_header zsl) 0 [] = Some us /\
    update_ok zsl (take m L).*1 us) as (us & Eus & Hus).
  { destruct (descend_rank_spec zsl L start (Z.to_nat (zsl_level zsl)) [] (zsl_header zsl) L.*1 [] R)
      as (us & E & Hl & Hp); [done|done|cbn; lia|rewrite (r_hdr _ _ R); lia|lia|].
    exists us. rewrite app_nil_r in E. split; [exact E|]. intros i Hi.
    destruct (lookup_lt_is_Some_2 us i) as [u Hu]; [lia|]. exists u. auto. }
  unfold zslDeleteRangeByRank. rewrite Eus. mred.
  destruct (Hus O) as ([u0 r0] & -> & Hpos); [lia|]. mred.
  pose proof (take_drop m L) as EL. symmetry in EL.
  destruct (first_after zsl L (take m L) (drop m L) _ R EL Hpos) as (lv & Elv & Hfw & Er). cbn [fst snd] in Elv, Er.
  rewrite Elv. mred. rewrite Hfw. subst r0. pose proof (r_len _ _ R) as Elen. rewrite Elen in Hlen.
  assert (length (take m L) <= m)%nat as Hm by (rewrite length_take; lia).
  assert (length (take n (drop m L)) + length (take m L) <= length L)%nat as Hdl.
  { rewrite !length_take, length_drop. lia. }
  pose proof (take_drop n (drop m L)) as ET. replace (head (drop m L).*1) with (head (take n (drop m L) ++ drop n (drop m L)).*1) by (by rewrite ET).
  rewrite <- ET in EL. rewrite EL in W.
  destruct (delete_while_spec dictDelete
    (fun _ removed => u64 (u64 (Z.of_nat (length (take m L)) + 1) + removed) <=? end_) zsl (take m L)
    (take n (drop m L)) (drop n (drop m L)) us d 0 (walk_fuel zsl)
    (fun _ removed => u64 (u64 (Z.of_nat (length (take m L)) + 1) + removed) <=? end_) W Hus)
    as (z & -> & Wz); try lia.
  - intros i p Hp. apply lookup_lt_Some in Hp as Hi. rewrite length_take in Hi.
    rewrite (wrapu_small 64 (Z.of_nat (length (take m L)) + 1)) by (unfold in_u; lia).
    rewrite wrapu_small by (unfold in_u; rewrite length_take, length_drop in *; lia).
    apply Z.leb_le. rewrite length_take, length_drop in *. lia.
  - destruct (drop n (drop m L)) as [|p LB] eqn:Ed; [done|].
    assert (n < length (drop m L))%nat as Hn.
    { apply (f_equal length) in Ed. rewrite length_drop in Ed. cbn in Ed. lia. }
    rewrite (wrapu_small 64 (Z.of_nat (length (take m L)) + 1)) by (unfold in_u; lia).
    rewrite wrapu_small by (unfold in_u; rewrite !length_take, length_drop in *; lia).
    apply Z.leb_gt. rewrite !length_take, length_drop in *. lia.
  - unfold walk_fuel. rewrite Elen, Nat2Z.id. lia.
  - rewrite Z.add_0_l. by exists z.
Qed.

(** ** Access in a range *)

Lemma deref_head zsl L :
  links zsl L ->
  exists o, deref zsl (head L.*1) = Some o /\
    match L, o with
    | p :: _, Some n => (zn_score n, zn_ele n) = p.2
    | [], None => True
    | _, _ => False
    end.
Proof.
  intros R. destruct L as [|[y k] L]; cbn [head fmap list_fmap fst deref]; [by exists None|].
  destruct (links_node zsl [] y k L R) as (n & -> & Ek & _). mred. by exists (Some n).
Qed.

Lemma deref_tail zsl L :
  links zsl L ->
  exists o, deref zsl (zsl_tail zsl) = Some o /\
    match o with
    | Some n => exists L' p, L = L' ++ [p] /\ (zn_score n, zn_ele n) = p.2
    | None => L = []
    end.
Proof.
  intros R. rewrite (r_tail _ _ R). destruct L as [|p L _] using rev_ind; [by exists None|].
  rewrite fmap_app. cbn [fmap list_fmap]. rewrite last_snoc. destruct p as [y k]. cbn [deref fst].
  destruct (links_node zsl L y k [] R) as (n & -> & Ek & _). mred.
  exists (Some n). split; [done|]. by exists L, (y, k).
Qed.

(** The tests that come first say no only when nothing is in the range. *)
Lemma is_in_range_spec zsl L empty gte_min lte_max gte lte :
  links zsl L -> interval L gte lte ->
  (forall n, gte_min n = gte (zn_score n, zn_ele n)) -> (forall n, lte_max n = lte (zn_score n, zn_ele n)) ->
  (empty = true -> forall k, ~ (gte k = true /\ lte k = true)) ->
  exists b, is_in_range zsl empty gte_min lte_max = Some b /\
    (b = true -> empty = false) /\ (b = false -> filter (in_interval gte lte) L = []).
Proof.
  intros R [Hig Hil] Hg Hl He. unfold is_in_range. destruct empty.
  { exists false. split_and!; [done|done|]. intros _. apply filter_drop. intros p _. by apply He. }
  destruct (deref_tail zsl L R) as (t & -> & Ht). mred.
  assert (match t with Some n => negb (gte_min n) | None => true end = true ->
          filter (in_interval gte lte) L = []) as Ht0.
  { destruct t as [n|]; [|by subst L]. destruct Ht as (L' & p & -> & Ek). rewrite Hg, Ek, negb_true_iff.
    intros Hgp. pose proof (r_sorted _ _ R) as Hs. rewrite fmap_app in Hs.
    apply sorted_app_iff in Hs as (_ & _ & Hlast). apply filter_drop.
    intros q Hq [Hgq _]. apply elem_of_app in Hq as [Hq|Hq%list_elem_of_singleton]; [|congruence].
    assert (klt q.2 p.2) as Hqp by (apply Hlast; [by apply list_elem_of_fmap_2|left]).
    rewrite (Hig q.2 p.2) in Hgp; [done|..|done|done]; rewrite fmap_app; apply elem_of_app.
    - left. by apply list_elem_of_fmap_2.
    - right. left. }
  destruct (match t with Some n => _ | None => _ end); [by exists false; auto|].
  pose proof (r_level _ _ R).
  destruct (links_at zsl L [] (zsl_header zsl) L.*1 0 R) as (lv & -> & [Hfw _] & _);
    [done|rewrite (r_hdr _ _ R); lia|lia|].
  mred. rewrite Hfw, hop_0_head by (intros y Hy; by apply (links_height _ _ y R)).
  destruct (deref_head zsl L R) as (o & -> & Ho). mred. eexists. split; [done|]. split; [done|].
  destruct L as [|p L], o as [n|]; try done. rewrite Hl, Ho. intros Hlp. apply filter_drop.
  intros q Hq [_ Hlq]. apply elem_of_cons in Hq as [->|Hq]; [congruence|].
  pose proof (r_sorted _ _ R) as [_ HF]%StronglySorted_inv. apply (list_elem_of_fmap_2 snd) in Hq.
  eapply Forall_forall in HF; [|exact Hq]. rewrite (Hil p.2 q.2) in Hlp; [done|left|by right|done|done].
Qed.

Lemma descend_last_spec zsl L cond A B n P x M :
  links zsl L -> search zsl L cond A B -> zsl_header zsl :: A = P ++ x :: M ->
  (n <= ht zsl x)%nat -> Z.of_nat n <= zsl_level zsl ->
  (n = O -> position_of A zsl 0 (x, Z.of_nat (length P))) ->
  exists u, descend_last n zsl cond x (Z.of_nat (length P)) = Some u /\ position_of A zsl 0 u.
Proof.
  intros R Sr. revert P x M. induction n as [|n IH]; intros P x M E Hn Hl H0.
  { eexists. split; [done|]. by apply H0. }
  cbn [descend_last].
  destruct (walk_spec zsl L cond A B (walk_fuel zsl) n P x M R Sr E) as ([y r] & -> & Hu);
    [lia|lia| |].
  { pose proof (f_equal length (sr_split _ _ _ _ _ Sr)) as El. rewrite length_fmap, length_app in El.
    unfold walk_fuel. rewrite (r_len _ _ R), Nat2Z.id. apply (f_equal length) in E.
    rewrite length_app in E. cbn in E. lia. }
  mred. pose proof Hu as (P' & M' & E' & Hr & _ & Hh). cbn in E', Hr, Hh. subst r.
  apply (IH P' y M' E'); [lia|lia|]. by intros ->.
Qed.

(** Steps along level 0, in both directions. *)
Lemma forward_steps_spec zsl L n P x M :
  links zsl L -> zsl_header zsl :: L.*1 = P ++ x :: M -> (n <= length M)%nat ->
  forward_steps n zsl (Some x) = Some ((x :: M) !! n).
Proof.
  intros R. revert P x M. induction n as [|n IH]; intros P x M E Hn; [done|].
  cbn [forward_steps]. mred. pose proof (r_level _ _ R) as Hlev.
  assert (forall y, y ∈ M -> (1 <= ht zsl y)%nat) as HM.
  { intros y Hy. apply (links_height _ _ y R). by eapply chain_mem. }
  destruct (links_at zsl L P x M 0 R E) as (lv & -> & [Hfw _] & _); [|lia|].
  { destruct P as [|p P]; injection E as <- E; [rewrite (r_hdr _ _ R); lia|].
    apply (links_height _ _ x R). rewrite E. apply elem_of_app. right. left. }
  mred. rewrite Hfw, hop_0_head by done. destruct M as [|y M]; [cbn in Hn; lia|]. cbn [head].
  rewrite (IH (P ++ [x]) y M); [done| |cbn in Hn; lia]. by rewrite E, <- (assoc_L (++)).
Qed.

Lemma backward_steps_spec zsl L n X p Y :
  links zsl L -> L = X ++ p :: Y -> (n <= length X)%nat ->
  backward_steps n zsl (Some p.1) = Some (fst <$> L !! (length X - n)%nat).
Proof.
  intros R. revert X p Y. induction n as [|n IH]; intros X [y k] Y -> Hn.
  - cbn [backward_steps]. rewrite Nat.sub_0_r, list_lookup_middle by done. done.
  - cbn [backward_steps fst]. mred. destruct (links_node zsl X y k Y R) as (nd & -> & _ & Eb). mred.
    rewrite Eb. destruct X as [|q X _] using rev_ind; [cbn in Hn; lia|].
    rewrite fmap_app. cbn [fmap list_fmap]. rewrite last_snoc. rewrite length_app in *. cbn in Hn.
    rewrite (IH X q ((y, k) :: Y)); [|by rewrite <- (assoc_L (++))|lia].
    cbn [length]. by replace (length X + 1 - Datatypes.S n)%nat with (length X - n)%nat by lia.
Qed.

Lemma bound_check_spec zsl L ok f j rank :
  links zsl L -> (forall n, ok n = f (zn_score n, zn_ele n)) ->
  0 <= rank < 2 ^ 64 ->
  bound_check zsl ok (fst <$> L !! j) rank =
    Some (p ← L !! j; if f p.2 : bool then Some (p.1, rank) else None).
Proof.
  intros R Hok Hr. destruct (L !! j) as [[y k]|] eqn:E; [|done]. cbn [fmap option_fmap option_map bound_check fst].
  apply list_elem_of_lookup_2, list_elem_of_split in E as (X & Y & ->).
  destruct (links_node zsl X y k Y R) as (n & -> & <- & _). mred. rewrite Hok, wrapu_small by done. done.
Qed.

(** The element number [n] of a list, from the end when [n] is negative. *)
Definition nth_signed {A} (l : list A) (n : Z) : option A :=
  if 0 <=? n then l !! Z.to_nat n
  else if 0 <=? Z.of_nat (length l) + n then l !! Z.to_nat (Z.of_nat (length l) + n) else None.

(** The 0-based place of the result, when there is one. *)
Lemma nth_forward (L LA LR LB : list (ptr * key)) (gte lte : key -> bool) n :
  L = LA ++ LR ++ LB -> (forall p, p ∈ LR -> gte p.2 = true /\ lte p.2 = true) ->
  (forall p, p ∈ LB -> gte p.2 = true /\ lte p.2 = false) -> 0 <= n ->
  (p ← L !! (length LA + Z.to_nat n)%nat;
   if lte p.2 then Some (p.1, Z.of_nat (length LA) + n + 1) else None) =
  (fun p => (p.1, Z.of_nat (length LA) + n + 1)) <$> nth_signed LR n.
Proof.
  intros -> HR HB Hn. unfold nth_signed. rewrite (proj2 (Z.leb_le 0 n)) by done.
  rewrite lookup_app_r by lia. replace (length LA + Z.to_nat n - length LA)%nat with (Z.to_nat n) by lia.
  destruct (LR !! Z.to_nat n) as [p|] eqn:E.
  - rewrite (lookup_app_l_Some _ _ _ _ E). cbn. apply list_elem_of_lookup_2 in E. by destruct (HR p E) as [_ ->].
  - apply lookup_ge_None in E. rewrite lookup_app_r by done.
    destruct (LB !! _) as [p|] eqn:E'; [|done]. cbn. apply list_elem_of_lookup_2 in E'.
    by destruct (HB p E') as [_ ->].
Qed.

Lemma nth_backward (L LA LR LB : list (ptr * key)) (gte lte : key -> bool) n :
  L = LA ++ LR ++ LB -> (forall p, p ∈ LR -> gte p.2 = true /\ lte p.2 = true) ->
  (forall p, p ∈ LA -> gte p.2 = false) -> n < 0 -> - n <= Z.of_nat (length LA + length LR) ->
  (p ← L !! Z.to_nat (Z.of_nat (length LA + length LR) + n);
   if gte p.2 then Some (p.1, Z.of_nat (length LA + length LR) + n + 1) else None) =
  (fun p => (p.1, Z.of_nat (length LA + length LR) + n + 1)) <$> nth_signed LR n.
Proof.
  intros -> HR HA Hn Hle. unfold nth_signed. rewrite (proj2 (Z.leb_gt 0 n)) by done.
  destruct (0 <=? Z.of_nat (length LR) + n) eqn:Hc; bools.
  - rewrite lookup_app_r by lia.
    replace (Z.to_nat (Z.of_nat (length LA + length LR) + n) - length LA)%nat
      with (Z.to_nat (Z.of_nat (length LR) + n)) by lia.
    destruct (lookup_lt_is_Some_2 LR (Z.to_nat (Z.of_nat (length LR) + n))) as [p E]; [lia|].
    rewrite (lookup_app_l_Some _ _ _ _ E), E. cbn. apply list_elem_of_lookup_2 in E.
    by destruct (HR p E) as [-> _].
  - rewrite lookup_app_l by lia.
    destruct (lookup_lt_is_Some_2 LA (Z.to_nat (Z.of_nat (length LA + length LR) + n))) as [p E]; [lia|].
    rewrite E. cbn. apply list_elem_of_lookup_2 in E. by rewrite (HA p E).
Qed.

Lemma rank_of_lookup L j p :
  StronglySorted klt L.*2 -> L !! j = Some p -> rank_of p.2 L = Z.of_nat j + 1.
Proof.
  intros Hs Hj. pose proof (lookup_lt_Some _ _ _ Hj) as Hlt.
  rewrite <- (take_drop_middle L j p Hj) in Hs |- *.
  rewrite (rank_of_hit p.2 (take j L) p _ Hs) by apply (kcmp_refl score_lt).
  rewrite length_take. lia.
Qed.

(** From the end of the first walk on, forward. *)
Lemma nth_from_min zsl L LA LR LB lte_max gte lte n x edge last_node last_rank M P :
  links zsl L -> L = LA ++ LR ++ LB -> (forall n, lte_max n = lte (zn_score n, zn_ele n)) ->
  (forall p, p ∈ LR -> gte p.2 = true /\ lte p.2 = true) ->
  (forall p, p ∈ LB -> gte p.2 = true /\ lte p.2 = false) ->
  zsl_header zsl :: LA.*1 = P ++ [x] -> edge = Z.of_nat (length LA) ->
  zsl_header zsl :: L.*1 = last_rank ++ last_node :: M -> (length last_rank <= length LA)%nat ->
  (Z.to_nat (zsl_level zsl - 1) < ht zsl last_node)%nat ->
  0 <= n < 2 ^ 63 -> Z.of_nat (length L) < 2 ^ 63 ->
  (if u64 (edge + n) >=? zsl_length zsl then Some None
   else
     x ← (if n <? ZSKIPLIST_MAX_SEARCH then forward_steps (Z.to_nat (n + 1)) zsl (Some x)
          else zslGetElementByRankFromNode zsl last_node (zsl_level zsl - 1)
                 (u64 (edge + 1 + n - Z.of_nat (length last_rank))));
     bound_check zsl lte_max x (edge + n + 1)) =
  Some ((fun p => (p.1, edge + n + 1)) <$> nth_signed LR n).
Proof.
  intros R EL Hl HR HB EP -> Elast Hlast Hht Hn Hlen. pose proof (r_level _ _ R) as Hlev.
  assert (length L = length LA + length LR + length LB)%nat as ElL by (rewrite EL, !length_app; lia).
  rewrite (r_len _ _ R). rewrite wrapu_small by (unfold in_u; lia).
  rewrite <- (nth_forward L LA LR LB gte lte n EL HR HB ltac:(lia)).
  destruct (_ >=? _) eqn:Hge; rewrite Z.geb_leb in Hge; bools.
  { rewrite lookup_ge_None_2 by lia. done. }
  assert (zsl_header zsl :: L.*1 = P ++ x :: (LR ++ LB).*1) as EC.
  { rewrite EL, fmap_app, app_comm_cons, EP, <- (assoc_L (++)). done. }
  assert (length P = length LA) as ElP.
  { apply (f_equal length) in EP. rewrite length_app in EP. cbn in EP. rewrite length_fmap in EP. lia. }
  assert ((if n <? ZSKIPLIST_MAX_SEARCH then forward_steps (Z.to_nat (n + 1)) zsl (Some x)
           else zslGetElementByRankFromNode zsl last_node (zsl_level zsl - 1)
                  (u64 (Z.of_nat (length LA) + 1 + n - Z.of_nat (length last_rank)))) =
          Some (fst <$> L !! (length LA + Z.to_nat n)%nat)) as ->.
  { rewrite <- list_lookup_fmap.
    assert (L.*1 !! (length LA + Z.to_nat n)%nat =
            (zsl_header zsl :: L.*1) !! Datatypes.S (length LA + Z.to_nat n)) as -> by done.
    destruct (n <? ZSKIPLIST_MAX_SEARCH).
    - rewrite (forward_steps_spec zsl L _ P x _ R EC) by (rewrite length_fmap, length_app; lia).
      rewrite EC, lookup_app_r by lia. f_equal. f_equal. lia.
    - rewrite wrapu_small by (unfold in_u; lia).
      rewrite (zslGetElementByRankFromNode_spec zsl L last_rank last_node M _ _ R Elast) by lia.
      rewrite Elast, lookup_app_r by lia. f_equal. f_equal. lia. }
  mred. apply (bound_check_spec zsl L _ _ _ _ R Hl). lia.
Qed.

(** And backward. *)
Lemma nth_from_max zsl L LA LR LB gte_min gte lte n x edge last_node last_rank M P :
  links zsl L -> L = LA ++ LR ++ LB -> (forall n, gte_min n = gte (zn_score n, zn_ele n)) ->
  (forall p, p ∈ LR -> gte p.2 = true /\ lte p.2 = true) -> (forall p, p ∈ LA -> gte p.2 = false) ->
  zsl_header zsl :: (LA ++ LR).*1 = P ++ [x] -> edge = Z.of_nat (length LA + length LR) ->
  zsl_header zsl :: L.*1 = last_rank ++ last_node :: M -> (length last_rank <= length LA)%nat ->
  (Z.to_nat (zsl_level zsl - 1) < ht zsl last_node)%nat ->
  - 2 ^ 63 < n < 0 -> Z.of_nat (length L) < 2 ^ 63 ->
  (if edge <? wraps 64 (- n) then Some None
   else
     x ← (if n + 1 >? - ZSKIPLIST_MAX_SEARCH then backward_steps (Z.to_nat (- n - 1)) zsl (Some x)
          else zslGetElementByRankFromNode zsl last_node (zsl_level zsl - 1)
                 (u64 (edge + 1 + n - Z.of_nat (length last_rank))));
     bound_check zsl gte_min x (edge + n + 1)) =
  Some ((fun p => (p.1, edge + n + 1)) <$> nth_signed LR n).
Proof.
  intros R EL Hg HR HA EP -> Elast Hlast Hht Hn Hlen. pose proof (r_level _ _ R) as Hlev.
  assert (length L = length LA + length LR + length LB)%nat as ElL by (rewrite EL, !length_app; lia).
  rewrite wraps_small by (unfold in_s; lia).
  destruct (_ <? - n) eqn:Hge; bools.
  { unfold nth_signed. rewrite (proj2 (Z.leb_gt 0 n)) by lia.
    by rewrite (proj2 (Z.leb_gt 0 (Z.of_nat (length LR) + n))) by lia. }
  rewrite <- (nth_backward L LA LR LB gte lte n EL HR HA ltac:(lia) ltac:(lia)).
  set (j := Z.to_nat (Z.of_nat (length LA + length LR) + n)).
  assert (LA ++ LR <> []) as Hne by (intros [-> ->]%app_nil; cbn in Hge; lia).
  destruct (n + 1 >? - ZSKIPLIST_MAX_SEARCH).
  - destruct (LA ++ LR) as [|p X _] eqn:EX using rev_ind; [done|]. rewrite fmap_app in EP.
    cbn [fmap list_fmap] in EP. rewrite app_comm_cons in EP. apply app_inj_tail in EP as [_ <-].
    assert (length X + 1 = length LA + length LR)%nat as ElX
      by (apply (f_equal length) in EX; rewrite !length_app in EX; cbn in EX; lia).
    rewrite (backward_steps_spec zsl L (Z.to_nat (- n - 1)) X p LB R); [|by rewrite EL, (assoc_L (++)), EX, <- (assoc_L (++))|lia].
    mred. replace (length X - Z.to_nat (- n - 1))%nat with j by lia.
    apply (bound_check_spec zsl L _ _ _ _ R Hg). lia.
  - destruct (Z_lt_dec (Z.of_nat (length LA + length LR) + 1 + n - Z.of_nat (length last_rank)) 0) as [Hneg|Hpos].
    + rewrite (zslGetElementByRankFromNode_spec zsl L last_rank last_node M _ _ R Elast); [|lia|lia|].
      2:{ apply (in_u_wrapu 64). lia. }
      destruct (links_lengths _ _ _ _ _ R Elast) as [Elen _].
      rewrite (lookup_ge_None_2 (last_node :: M)).
      2:{ unfold wrapu. rewrite <- (Z.mod_add _ 1), Z.mod_small by lia. cbn [length]. lia. }
      mred. cbn [bound_check]. assert (j < length LA)%nat as Hj by lia.
      rewrite EL, lookup_app_l by done. destruct (lookup_lt_is_Some_2 LA j Hj) as [p E]. rewrite E. cbn.
      apply list_elem_of_lookup_2 in E. by rewrite (HA p E).
    + rewrite wrapu_small by (unfold in_u; lia).
      rewrite (zslGetElementByRankFromNode_spec zsl L last_rank last_node M _ _ R Elast) by lia. mred.
      assert ((last_node :: M) !! Z.to_nat (Z.of_nat (length LA + length LR) + 1 + n - Z.of_nat (length last_rank)) =
              fst <$> L !! j) as ->.
      { rewrite <- list_lookup_fmap. change (L.*1 !! j) with ((zsl_header zsl :: L.*1) !! Datatypes.S j).
        rewrite Elast, lookup_app_r by lia. f_equal. lia. }
      apply (bound_check_spec zsl L _ _ _ _ R Hg). lia.
Qed.

Lemma search_in zsl L LA LB (lte : key -> bool) lte_max :
  links zsl L -> L = LA ++ LB -> (forall n, lte_max n = lte (zn_score n, zn_ele n)) ->
  (forall p, p ∈ LA -> lte p.2 = true) -> (forall p, p ∈ LB -> lte p.2 = false) ->
  search zsl L (within_max zsl lte_max) LA.*1 LB.*1.
Proof.
  intros R EL Hg HA HB. apply (search_keys _ _ _ _ _ lte); try done.
  intros y n Hn. unfold within_max. cbn [deref]. rewrite Hn. mred. by rewrite Hg.
Qed.

Lemma nth_in_range_spec zsl L empty gte_min lte_max gte lte n :
  links zsl L -> interval L gte lte ->
  (forall n, gte_min n = gte (zn_score n, zn_ele n)) -> (forall n, lte_max n = lte (zn_score n, zn_ele n)) ->
  (empty = true -> forall k, ~ (gte k = true /\ lte k = true)) ->
  (empty = false -> forall k, gte k = false -> lte k = true) ->
  zsl_length zsl < 2 ^ 63 -> - 2 ^ 63 < n < 2 ^ 63 ->
  nth_in_range zsl empty gte_min lte_max n =
    Some ((fun p => (p.1, rank_of p.2 L)) <$> nth_signed (filter (in_interval gte lte) L) n).
Proof.
  intros R Hi Hg Hl He1 He2 Hlen Hn. pose proof (r_level _ _ R) as Hlev. rewrite (r_len _ _ R) in Hlen.
  unfold nth_in_range.
  destruct (is_in_range_spec zsl L empty gte_min lte_max gte lte R Hi Hg Hl He1) as (b & -> & Hb1 & Hb0). mred.
  destruct b; cbn [negb].
  2:{ rewrite Hb0 by done. unfold nth_signed. by repeat case_match. }
  specialize (He2 (Hb1 eq_refl)). clear Hb1 Hb0.
  destruct (interval_split gte lte L Hi (r_sorted _ _ R)) as (LA & LR & LB & EL & HA & HR & HB & -> & _).
  assert (search zsl L (out_of_range zsl gte_min) LA.*1 (LR ++ LB).*1) as Sr1.
  { apply (search_out zsl L LA (LR ++ LB) gte); try done.
    intros p [Hp|Hp]%elem_of_app; [by apply HR|by apply HB]. }
  assert (search zsl L (within_max zsl lte_max) (LA ++ LR).*1 LB.*1) as Sr2.
  { apply (search_in zsl L (LA ++ LR) LB lte); [done|by rewrite EL, (assoc_L (++))|done| |intros p Hp; by apply HB].
    intros p [Hp|Hp]%elem_of_app; [by apply He2, HA|by apply HR]. }
  assert (forall p j, L !! j = Some p -> rank_of p.2 L = Z.of_nat j + 1) as Hrank
    by (intros p j; apply rank_of_lookup, R).
  set (i := Z.to_nat (zsl_level zsl - 1)).
  destruct (walk_spec zsl L _ LA.*1 (LR ++ LB).*1 (walk_fuel zsl) i [] (zsl_header zsl) LA.*1 R Sr1)
    as ([y r] & E & Hu); [done|rewrite (r_hdr _ _ R); lia|lia| |].
  { unfold walk_fuel. rewrite (r_len _ _ R), Nat2Z.id, length_fmap, EL, length_app. lia. }
  change (Z.of_nat (length [])) with 0 in E. rewrite E. mred.
  pose proof Hu as (P & M & EP & Hr & _ & Hh). cbn in EP, Hr, Hh. subst r.
  assert (zsl_header zsl :: L.*1 = P ++ y :: (M ++ (LR ++ LB).*1)) as Elast.
  { rewrite EL, fmap_app. by apply chain_split. }
  assert (length P <= length LA)%nat as HlP.
  { apply (f_equal length) in EP. rewrite length_app in EP. cbn in EP. rewrite length_fmap in EP. lia. }
  destruct (n >=? 0) eqn:Hn0; rewrite Z.geb_leb in Hn0; bools.
  - destruct (descend_last_spec zsl L _ _ _ i P y M R Sr1 EP) as ([x edge] & -> & Hpos); [lia|lia|by intros <-|].
    mred. destruct (position_0 zsl LA.*1 (LR ++ LB).*1 (x, edge)) as (P0 & EP0 & Hedge); [|done|].
    { intros z Hz. rewrite <- fmap_app, <- EL in Hz. by apply (links_height _ _ z R). }
    cbn in EP0, Hedge. rewrite length_fmap in Hedge.
    rewrite (nth_from_min zsl L LA LR LB lte_max gte lte n x edge y P (M ++ (LR ++ LB).*1) P0); try done; try lia.
    f_equal. unfold nth_signed. rewrite (proj2 (Z.leb_le 0 n)) by done.
    destruct (LR !! Z.to_nat n) as [p|] eqn:Ep; [|done]. cbn. do 2 f_equal.
    rewrite (Hrank p (length LA + Z.to_nat n)%nat); [lia|].
    rewrite EL, lookup_app_r by lia. apply lookup_app_l_Some.
    replace (length LA + Z.to_nat n - length LA)%nat with (Z.to_nat n) by lia. done.
  - assert (zsl_header zsl :: (LA ++ LR).*1 = P ++ y :: (M ++ LR.*1)) as EP2.
    { rewrite fmap_app. by apply chain_split. }
    destruct (descend_last_spec zsl L _ _ _ (Datatypes.S i) P y _ R Sr2 EP2) as ([x edge] & -> & Hpos); [lia|lia|done|].
    mred. destruct (position_0 zsl (LA ++ LR).*1 LB.*1 (x, edge)) as (P0 & EP0 & Hedge); [|done|].
    { intros z Hz. rewrite <- fmap_app, <- (assoc_L (++)), <- EL in Hz. by apply (links_height _ _ z R). }
    cbn in EP0, Hedge. rewrite length_fmap, length_app in Hedge.
    rewrite (nth_from_max zsl L LA LR LB gte_min gte lte n x edge y P (M ++ (LR ++ LB).*1) P0); try done; try lia.
    f_equal. unfold nth_signed. rewrite (proj2 (Z.leb_gt 0 n)) by done.
    destruct (0 <=? Z.of_nat (length LR) + n) eqn:Hc; bools; [|done].
    destruct (LR !! _) as [p|] eqn:Ep; [|done]. cbn. do 2 f_equal.
    rewrite (Hrank p (length LA + Z.to_nat (Z.of_nat (length LR) + n))%nat); [lia|].
    rewrite EL, lookup_app_r by lia. apply lookup_app_l_Some. rewrite <- Ep. f_equal. lia.
Qed.

(** *** The two kinds of ranges *)

Abbreviation score_gte r := (fun k : key => zslValueGteMin score_lt k.1 r).
Abbreviation score_lte r := (fun k : key => zslValueLteMax score_lt k.1 r).

Lemma klt_not_gt a b : klt a b -> score_lt b.1 a.1 = false.
Proof.
  unfold Skiplist.klt, Skiplist.kcmp. destruct (score_lt a.1 b.1) eqn:E; [intros _; by apply sw_asym|].
  by destruct (score_lt b.1 a.1).
Qed.

(** [<=] as the negation of [>]. *)
Lemma sw_le_lt a b c : score_lt b a = false -> score_lt b c = true -> score_lt a c = true.
Proof. intros H1 H2. destruct (sw_split b a c H2); [congruence|done]. Qed.
Lemma sw_lt_le a b c : score_lt a b = true -> score_lt c b = false -> score_lt a c = true.
Proof. intros H1 H2. destruct (sw_split a c b H1); [done|congruence]. Qed.
Lemma sw_le_le a b c : score_lt b a = false -> score_lt c b = false -> score_lt c a = false.
Proof.
  intros H1 H2. destruct (score_lt c a) eqn:E; [|done]. destruct (sw_split c b a E); congruence.
Qed.

Lemma score_interval L r : interval L (score_gte r) (score_lte r).
Proof.
  constructor; intros a b _ _ Hab%klt_not_gt; unfold zslValueGteMin, zslValueLteMax;
    destruct (minex r), (maxex r); rewrite ?negb_true_iff.
  1,2: intros H; by eapply sw_lt_le. 1,2: intros H; by eapply sw_le_le.
  1,3: intros H; by eapply sw_le_lt. 1,2: intros H; by eapply sw_le_le.
Qed.

Lemma score_range_empty_spec r k :
  score_range_empty score_lt r = true -> ~ (score_gte r k = true /\ score_lte r k = true).
Proof.
  unfold score_range_empty, zslValueGteMin, zslValueLteMax.
  destruct (score_lt (max r) (min r)) eqn:E1; cbn [orb].
  - intros _ [H1 H2]. revert H1 H2. destruct (minex r), (maxex r); rewrite ?negb_true_iff; intros H1 H2.
    + pose proof (sw_trans _ _ _ H1 H2). pose proof (sw_asym score_lt _ _ E1). congruence.
    + pose proof (sw_lt_le _ _ _ H1 H2). pose proof (sw_asym score_lt _ _ E1). congruence.
    + pose proof (sw_le_lt _ _ _ H1 H2). pose proof (sw_asym score_lt _ _ E1). congruence.
    + pose proof (sw_le_le _ _ _ H1 H2). congruence.
  - rewrite andb_true_r. destruct (score_lt (min r) (max r)) eqn:E2; cbn; [done|].
    destruct (minex r), (maxex r); try done; rewrite ?negb_true_iff; intros _ [H1 H2].
    + pose proof (sw_trans _ _ _ H1 H2). congruence.
    + pose proof (sw_lt_le _ _ _ H1 H2). congruence.
    + pose proof (sw_le_lt _ _ _ H1 H2). congruence.
Qed.

Lemma score_range_nonempty r k :
  score_range_empty score_lt r = false -> score_gte r k = false -> score_lte r k = true.
Proof.
  unfold score_range_empty, zslValueGteMin, zslValueLteMax.
  destruct (score_lt (max r) (min r)) eqn:E1; [done|]. cbn [orb]. rewrite andb_true_r.
  destruct (score_lt (min r) (max r)) eqn:E2; cbn.
  - intros _. destruct (minex r), (maxex r); rewrite ?negb_true_iff, ?negb_false_iff; intros H.
    + by eapply sw_le_lt.
    + destruct (score_lt (max r) k.1) eqn:E; [|done]. pose proof (sw_trans _ _ _ E2 E). congruence.
    + by eapply sw_trans.
    + destruct (score_lt (max r) k.1) eqn:E; [|done]. pose proof (sw_trans _ _ _ E H). congruence.
  - destruct (minex r), (maxex r); try done. cbn. rewrite negb_true_iff, negb_false_iff. intros _ H.
    destruct (score_lt (max r) k.1) eqn:E; [|done]. pose proof (sw_trans _ _ _ E H). congruence.
Qed.

Abbreviation lex_gte r := (fun k : key => zslLexValueGteMin k.2 r).
Abbreviation lex_lte r := (fun k : key => zslLexValueLteMax k.2 r).

(** The order of the elements with the two bounds at its ends. *)
Lemma sdscmplex_antisym a b : sdscmplex b a = - sdscmplex a b.
Proof. destruct a, b; cbn; try done. rewrite !sdscmp_lexcmp. apply lexcmp_antisym. Qed.

Lemma sdscmplex_trans a b c : sdscmplex a b <= 0 -> sdscmplex b c <= 0 ->
  sdscmplex a c <= 0 /\ (sdscmplex a b < 0 \/ sdscmplex b c < 0 -> sdscmplex a c < 0).
Proof.
  destruct a as [| |a], b as [| |b], c as [| |c]; cbn; try lia. rewrite !sdscmp_lexcmp. intros H1 H2.
  destruct (decide (lexcmp a b = 0)) as [->%lexcmp_eq|H1'].
  { rewrite lexcmp_refl. split; [done|]. lia. }
  destruct (decide (lexcmp b c = 0)) as [->%lexcmp_eq|H2'].
  { rewrite lexcmp_refl. split; [done|]. lia. }
  pose proof (lexcmp_trans a b c ltac:(lia) ltac:(lia)). lia.
Qed.

(** All the elements have the same score, as the commands on lexicographic ranges
    assume. *)
Definition same_scores L : Prop := forall a b, a ∈ L.*2 -> b ∈ L.*2 -> score_lt a.1 b.1 = false.

Lemma lex_interval L r : same_scores L -> interval L (lex_gte r) (lex_lte r).
Proof.
  intros Hsame. constructor; intros a b Ha Hb Hab;
    (assert (sdscmplex (lexstr a.2) (lexstr b.2) < 0) as Hlt;
      [cbn; rewrite sdscmp_lexcmp; unfold Skiplist.klt, Skiplist.kcmp in Hab;
       by rewrite !Hsame in Hab by done|]).
  - unfold zslLexValueGteMin. pose proof (sdscmplex_trans (lmin r) (lexstr a.2) (lexstr b.2)) as Ht.
    rewrite (sdscmplex_antisym (lmin r) (lexstr a.2)), (sdscmplex_antisym (lmin r) (lexstr b.2)).
    destruct (lminex r); rewrite ?Z.gtb_ltb, ?Z.geb_leb, ?Z.ltb_lt, ?Z.leb_le; lia.
  - unfold zslLexValueLteMax. pose proof (sdscmplex_trans (lexstr a.2) (lexstr b.2) (lmax r)) as Ht.
    destruct (lmaxex r); rewrite ?Z.ltb_lt, ?Z.leb_le; lia.
Qed.

Lemma lex_range_empty_spec r k :
  lex_range_empty r = true -> ~ (lex_gte r k = true /\ lex_lte r k = true).
Proof.
  unfold lex_range_empty, zslLexValueGteMin, zslLexValueLteMax. cbv zeta.
  pose proof (sdscmplex_trans (lmin r) (lexstr k.2) (lmax r)) as Ht.
  rewrite (sdscmplex_antisym (lmin r) (lexstr k.2)). revert Ht.
  generalize (sdscmplex (lmin r) (lexstr k.2)) (sdscmplex (lexstr k.2) (lmax r)) (sdscmplex (lmin r) (lmax r)).
  intros a b c Ht. destruct (lminex r), (lmaxex r); cbn [orb]; rewrite ?andb_true_r, ?andb_false_r, ?orb_false_r;
    repeat ztest; intros ? [? ?]; try done; lia.
Qed.

Lemma lex_range_nonempty r k :
  lex_range_empty r = false -> lex_gte r k = false -> lex_lte r k = true.
Proof.
  unfold lex_range_empty, zslLexValueGteMin, zslLexValueLteMax. cbv zeta.
  pose proof (sdscmplex_trans (lexstr k.2) (lmin r) (lmax r)) as Ht. revert Ht.
  generalize (sdscmplex (lexstr k.2) (lmin r)) (sdscmplex (lexstr k.2) (lmax r)) (sdscmplex (lmin r) (lmax r)).
  intros a b c Ht. destruct (lminex r), (lmaxex r); cbn [orb]; rewrite ?andb_true_r, ?andb_false_r, ?orb_false_r;
    repeat ztest; intros ? ?; try done; lia.
Qed.

(** ** The properties *)

(** C31: inserting an element that is not there, whatever the height drawn for its
    node, never follows a bad pointer and leaves a well-formed skiplist (links,
    spans, backward pointers, tail, length, level, no leaked node) for the sorted
    list with the element at its place. *)
Theorem zslInsert_refines zsl junk addr level score ele L :
  zsl_wf zsl L -> addr ∉ dom (zsl_heap zsl) -> 1 <= level <= 32 ->
  (forall p, p ∈ L -> p.2.2 <> ele) -> zsl_length zsl + 1 < 2 ^ 64 ->
  exists z, zslInsert score_lt zsl junk addr level score ele = Some z /\
    zsl_wf z (kinsert addr (score, ele) L).
Proof. apply zslInsert_spec. Qed.

(** Deleting a node finds it again from its score and element (the assertion
    holds), unlinks it from every level, frees it and leaves a well-formed skiplist
    for the list without it. *)
Theorem zslDelete_refines zsl x L :
  zsl_wf zsl L -> x ∈ L.*1 ->
  exists z, zslDelete score_lt zsl x = Some z /\ zsl_wf z (kremove x L).
Proof. apply zslDelete_spec. Qed.

(** Updating a score, in place when the node keeps its position or by taking it
    out and in again, is deleting the element and inserting it with the new score,
    at the same address. *)
Theorem zslUpdateScore_refines zsl x old ele newscore L :
  zsl_wf zsl L -> (x, (old, ele)) ∈ L ->
  exists z, zslUpdateScore score_lt zsl x newscore = Some z /\
    zsl_wf z (kinsert x (newscore, ele) (kremove x L)).
Proof. apply zslUpdateScore_spec. Qed.

(** C32: ranks and positions agree: the element at position [i] has the rank [i + 1],
    searched by key along the spans or counted from the node to the end, and is what
    access by that rank returns; a key that no element has gets the rank 0, and a
    rank past the end no node. *)
Theorem zsl_ranks zsl L :
  zsl_wf zsl L ->
  (forall i x k, L !! i = Some (x, k) ->
     zslGetRank score_lt zsl k.1 k.2 = Some (Z.of_nat i + 1) /\
     zslGetRankByNode zsl x = Some (Z.of_nat i + 1) /\
     zslGetElementByRank zsl (Z.of_nat i + 1) = Some (Some x)) /\
  (forall s e, (forall p, p ∈ L -> kcmp (s, e) p.2 <> 0) -> zslGetRank score_lt zsl s e = Some 0) /\
  (forall rank, Z.of_nat (length L) < rank -> zslGetElementByRank zsl rank = Some None).
Proof.
  intros W. pose proof (w_rep _ _ W) as [R _]. split_and!.
  - intros i x [s e] Hi. cbn [fst snd]. rewrite (zslGetRank_spec zsl L s e R), (zslGetElementByRank_spec zsl L _ R) by lia.
    pose proof (rank_of_lookup L i (x, (s, e)) (r_sorted _ _ R) Hi) as Hrank. cbn [snd] in Hrank.
    rewrite Hrank. split; [done|]. pose proof (take_drop_middle L i _ Hi) as EL. split.
    + rewrite <- EL in R. rewrite (zslGetRankByNode_spec zsl _ _ x (s, e) R), length_take.
      apply lookup_lt_Some in Hi. do 2 f_equal. lia.
    + replace (Z.to_nat (Z.of_nat i + 1)) with (Datatypes.S i) by lia.
      change ((zsl_header zsl :: L.*1) !! Datatypes.S i) with (L.*1 !! i). by rewrite list_lookup_fmap, Hi.
  - intros s e Hn. rewrite (zslGetRank_spec zsl L s e R). by rewrite rank_of_miss.
  - intros rank Hr. rewrite (zslGetElementByRank_spec zsl L _ R) by lia.
    rewrite lookup_ge_None_2; [done|]. cbn. rewrite length_fmap. lia.
Qed.

(** The [n]-th element of a range of scores, counted from the low end or, for a
    negative [n], from the high end, is the one of the sorted list of the elements in
    the range, with its rank; nothing when the range has no such element, also for a
    range with its bounds reversed. *)
Theorem zslNthInRange_refines zsl L r n :
  zsl_wf zsl L -> zsl_length zsl < 2 ^ 63 -> - 2 ^ 63 < n < 2 ^ 63 ->
  zslNthInRange score_lt zsl r n =
    Some ((fun p => (p.1, rank_of p.2 L)) <$>
            nth_signed (filter (in_interval (score_gte r) (score_lte r)) L) n).
Proof.
  intros W Hlen Hn. apply nth_in_range_spec; try done.
  - apply W.
  - apply score_interval.
  - intros He k. by apply score_range_empty_spec.
  - intros He k. by apply score_range_nonempty.
Qed.

(** Deleting a range of scores removes exactly its elements, each from the
    skiplist and, in order, from the hash table, and returns their number. *)
Theorem zslDeleteRangeByScore_refines {D} zsl (dictDelete : D -> list Z -> D) r d L :
  zsl_wf zsl L ->
  let del := filter (in_interval (score_gte r) (score_lte r)) L in
  exists z, zslDeleteRangeByScore score_lt zsl dictDelete r d =
      Some (z, foldl dictDelete d (del.*2).*2, Z.of_nat (length del)) /\
    zsl_wf z (filter (fun p => ~ in_interval (score_gte r) (score_lte r) p) L).
Proof. intros W del. by apply (delete_range_spec zsl dictDelete); [|apply score_interval|..]. Qed.

(** The same for the ranges of elements, of a sorted set with one score. *)
Lemma zslNthInLexRange_spec zsl L r n :
  zsl_wf zsl L -> same_scores L -> zsl_length zsl < 2 ^ 63 -> - 2 ^ 63 < n < 2 ^ 63 ->
  zslNthInLexRange zsl r n =
    Some ((fun p => (p.1, rank_of p.2 L)) <$>
            nth_signed (filter (in_interval (lex_gte r) (lex_lte r)) L) n).
Proof.
  intros W Hsame Hlen Hn. apply nth_in_range_spec; try done.
  - apply W.
  - by apply lex_interval.
  - intros He k. by apply lex_range_empty_spec.
  - intros He k. by apply lex_range_nonempty.
Qed.

Lemma zslDeleteRangeByLex_spec {D} zsl (dictDelete : D -> list Z -> D) r d L :
  zsl_wf zsl L -> same_scores L ->
  let del := filter (in_interval (lex_gte r) (lex_lte r)) L in
  exists z, zslDeleteRangeByLex zsl dictDelete r d =
      Some (z, foldl dictDelete d (del.*2).*2, Z.of_nat (length del)) /\
    zsl_wf z (filter (fun p => ~ in_interval (lex_gte r) (lex_lte r) p) L).
Proof. intros W Hsame del. by apply (delete_range_spec zsl dictDelete); [|apply lex_interval|..]. Qed.

End invariant.

(** ** A sorted set of four elements *)

Definition sample_junk : nat -> zskiplistLevel := fun _ => mk_level (Some 99%nat) 77.

Definition sample_ins (zsl : zskiplist Z) (a : ptr) (lv s : Z) (e : list Z) : zskiplist Z :=
  default zsl (zslInsert Z.ltb zsl sample_junk a lv s e).

(** The scores 10, 20, 20 and 30, on nodes of the heights 1, 3, 2 and 1. *)
Definition sample : zskiplist Z :=
  sample_ins (sample_ins (sample_ins (sample_ins (zslCreate 0 0%nat) 4%nat 1 30 [99; 0])
    3%nat 3 20 [97]) 2%nat 1 10 [97; 97]) 1%nat 2 20 [98].

Definition sample_list : list (ptr * (Z * list Z)) :=
  [(2%nat, (10, [97; 97])); (3%nat, (20, [97])); (1%nat, (20, [98])); (4%nat, (30, [99; 0]))].

Lemma sample_ins_wf zsl a lv s e L :
  zsl_wf Z.ltb zsl L -> a ∉ dom (zsl_heap zsl) -> 1 <= lv <= 32 ->
  Forall (fun p => p.2.2 <> e) L -> zsl_length zsl + 1 < 2 ^ 64 ->
  zsl_wf Z.ltb (sample_ins zsl a lv s e) (kinsert Z.ltb a (s, e) L).
Proof.
  intros W Ha Hlv HL Hlen. unfold sample_ins.
  destruct (zslInsert_spec Z.ltb zsl sample_junk a lv s e L W Ha Hlv) as (z & -> & W'); [|done|done].
  by apply Forall_forall.
Qed.

Lemma sample_zsl_wf : zsl_wf Z.ltb sample sample_list.
Proof.
  change sample_list with (kinsert Z.ltb 1%nat (20, [98]) (kinsert Z.ltb 2%nat (10, [97; 97])
    (kinsert Z.ltb 3%nat (20, [97]) (kinsert Z.ltb 4%nat (30, [99; 0]) [])))).
  repeat (apply sample_ins_wf; [|apply (bool_decide_unpack _); vm_compute; exact I|lia|
    apply (bool_decide_unpack _); vm_compute; exact I|vm_compute; reflexivity]).
  apply (zslCreate_rep Z.ltb).
Qed.

Lemma zslInsert_refines_witness :
  exists z, zslInsert Z.ltb sample sample_junk 5%nat 5 20 [97; 0] = Some z /\
    zsl_wf Z.ltb z (kinsert Z.ltb 5%nat (20, [97; 0]) sample_list).
Proof.
  apply (zslInsert_refines Z.ltb); [exact sample_zsl_wf|apply (bool_decide_unpack _); vm_compute; exact I|lia| |
    vm_compute; reflexivity].
  apply Forall_forall. apply (bool_decide_unpack _). vm_compute. exact I.
Defined.

Lemma zslDelete_refines_witness :
  exists z, zslDelete Z.ltb sample 3%nat = Some z /\ zsl_wf Z.ltb z (kremove 3%nat sample_list).
Proof.
  apply (zslDelete_refines Z.ltb); [exact sample_zsl_wf|]. apply (bool_decide_unpack _). vm_compute. exact I.
Defined.

Lemma zslUpdateScore_refines_witness :
  exists z, zslUpdateScore Z.ltb sample 3%nat 25 = Some z /\
    zsl_wf Z.ltb z (kinsert Z.ltb 3%nat (25, [97]) (kremove 3%nat sample_list)).
Proof.
  apply (zslUpdateScore_refines Z.ltb _ _ 20); [exact sample_zsl_wf|].
  apply (bool_decide_unpack _). vm_compute. exact I.
Defined.

Lemma zsl_ranks_witness :
  zslGetRank Z.ltb sample 20 [98] = Some 3 /\ zslGetRankByNode sample 1%nat = Some 3 /\
  zslGetElementByRank sample 3 = Some (Some 1%nat).
Proof. exact (proj1 (zsl_ranks Z.ltb sample sample_list sample_zsl_wf) 2%nat 1%nat (20, [98]) eq_refl). Defined.

Lemma zslNthInRange_refines_witness :
  zslNthInRange Z.ltb sample (mk_zrange 10 30 true false) (-1) = Some (Some (4%nat, 4)).
Proof.
  rewrite (zslNthInRange_refines Z.ltb sample sample_list _ (-1) sample_zsl_wf);
    [vm_compute; reflexivity|vm_compute; reflexivity|lia].
Defined.

Lemma zslDeleteRangeByScore_refines_witness :
  exists z, zslDeleteRangeByScore Z.ltb sample (fun d e => d ++ [e]) (mk_zrange 20 20 false false) [] =
      Some (z, [[97]; [98]], 2) /\
    zsl_wf Z.ltb z [(2%nat, (10, [97; 97])); (4%nat, (30, [99; 0]))].
Proof.
  exact (zslDeleteRangeByScore_refines Z.ltb sample (fun d e => d ++ [e]) (mk_zrange 20 20 false false) []
           sample_list sample_zsl_wf).
Defined.

End Skiplist.
