(* ===== verification/KvDict.v ===== *)
(** What a key-value store asks of its dicts: the operations, as a class, and the
    laws they obey, as another; the hash table of [Dict] is an instance.  The laws
    speak of a dict through the map it represents, its bucket count, whether it is
    rehashing, and the calls its observers received. *)
From stdpp Require Import base numbers list gmap.
From stdpp Require Import options.
From S2P Require Import Prelude Dict DictScan.

Module KvDict.
Import Dict DictScan.

(** ** The operations *)

Class DictOps (D K V : Type) := {
  d_create : D;
  d_size : D -> Z;
  d_buckets : D -> Z;
  d_is_rehashing : D -> bool;
  d_is_paused : D -> bool;
  d_trace : D -> list dictEvent;
  d_release : D -> list dictEvent;
  d_empty : D -> D;
  (** whether the key was added, the dict *)
  d_add_raw : D -> K -> V -> option (bool * D);
  d_find : D -> K -> option (option (K * V) * D);
  d_delete : D -> K -> option (Z * D);
  d_expand : D -> Z -> option (Z * D);
  d_try_expand : D -> Z -> bool -> option (Z * D);
  d_expand_if_needed : D -> option (Z * D);
  d_shrink_if_needed : D -> option (Z * D);
  d_scan : D -> Z -> option (list (K * V) * Z)
}.

Section runs.
Context {D K V : Type} `{!DictOps D K V}.

(** A full iteration of [d_scan] over the states of a dict, with the maps they
    represent. *)
Inductive d_scan_run `{Countable K} (d_rep : D -> gmap K V -> Prop) :
    Z -> list (K * V) -> list (gmap K V) -> Prop :=
| d_scan_last d m v es :
    d_rep d m -> d_scan d v = Some (es, 0) -> d_scan_run d_rep v es [m]
| d_scan_more d m v es v' es' ms :
    d_rep d m -> d_scan d v = Some (es, v') -> v' <> 0 -> d_scan_run d_rep v' es' ms ->
    d_scan_run d_rep v (es ++ es') (m :: ms).
End runs.

(** ** The laws *)

Section laws.
Context (D K V : Type) `{Countable K} `{!DictOps D K V} (d_rep : D -> gmap K V -> Prop).

(** A step of a dict: it represents the map it should, its observers were called
    on top of what they had been told, and it is as paused as before. *)
Record d_step (d d' : D) (m' : gmap K V) : Prop := {
  st_rep : d_rep d' m';
  st_trace : suffix (d_trace d) (d_trace d');
  st_paused : d_is_paused d' = d_is_paused d
}.

Class DictLaws : Prop := {
  l_create : d_rep d_create ∅ /\ d_trace d_create = [] /\ d_is_paused d_create = false;
  l_size d m : d_rep d m -> d_size d = Z.of_nat (size m);
  l_small d m : d_rep d m -> Z.of_nat (size m) < 2 ^ 64;
  l_buckets d m : d_rep d m -> buckets_of (d_trace d) = d_buckets d /\ 0 <= d_buckets d < 2 ^ 62;
  l_open d m : d_rep d m -> open_of (d_trace d) = Some (d_is_rehashing d);
  l_release d m : d_rep d m -> suffix (d_trace d) (d_release d) /\
    buckets_of (d_release d) = 0 /\ open_of (d_release d) = Some false;
  l_add d m k v : d_rep d m -> Z.of_nat (size m) + 1 < 2 ^ 64 ->
    exists d', d_add_raw d k v = Some (bool_decide (m !! k = None), d') /\
      d_step d d' (match m !! k with Some _ => m | None => <[k := v]> m end);
  l_find d m k : d_rep d m ->
    exists d', d_find d k = Some ((fun v => (k, v)) <$> m !! k, d') /\ d_step d d' m;
  l_delete d m k : d_rep d m ->
    exists d', d_delete d k = Some (match m !! k with Some _ => DICT_OK | None => DICT_ERR end, d') /\
      d_step d d' (delete k m);
  l_empty d m : d_rep d m -> d_rep (d_empty d) ∅ /\ suffix (d_trace d) (d_trace (d_empty d)) /\
    d_is_paused (d_empty d) = false /\ d_is_rehashing (d_empty d) = false /\ d_buckets (d_empty d) = 0;
  l_try_expand d m n fails : d_rep d m ->
    exists r d', d_try_expand d n fails = Some (r, d') /\ d_step d d' m;
  l_expand d m n : d_rep d m -> exists r d', d_expand d n = Some (r, d') /\ d_step d d' m;
  l_expand_if_needed d m : d_rep d m ->
    exists r d', d_expand_if_needed d = Some (r, d') /\ d_step d d' m;
  l_shrink_if_needed d m : d_rep d m ->
    exists r d', d_shrink_if_needed d = Some (r, d') /\ d_step d d' m;
  l_scan d m v : d_rep d m ->
    exists es v', d_scan d v = Some (es, v') /\ 0 <= v' /\
      (forall e, 2 <= e <= 62 -> d_buckets d <= 2 ^ e -> v' < 2 ^ e);
  l_scan_complete es ms k : d_scan_run d_rep 0 es ms ->
    (forall m, m ∈ ms -> is_Some (m !! k)) -> k ∈ es.*1;
  l_scan_sound d m v es v' k x : d_rep d m -> d_scan d v = Some (es, v') ->
    (k, x) ∈ es -> m !! k = Some x
}.
End laws.
Arguments d_step {D K V _ _ _} d_rep d d' m'.
Arguments l_create {D K V _ _ _ d_rep _}.
Arguments l_size {D K V _ _ _ d_rep _}.
Arguments l_small {D K V _ _ _ d_rep _}.
Arguments l_buckets {D K V _ _ _ d_rep _}.
Arguments l_open {D K V _ _ _ d_rep _}.
Arguments l_release {D K V _ _ _ d_rep _}.
Arguments l_add {D K V _ _ _ d_rep _}.
Arguments l_find {D K V _ _ _ d_rep _}.
Arguments l_delete {D K V _ _ _ d_rep _}.
Arguments l_empty {D K V _ _ _ d_rep _}.
Arguments l_try_expand {D K V _ _ _ d_rep _}.
Arguments l_expand {D K V _ _ _ d_rep _}.
Arguments l_expand_if_needed {D K V _ _ _ d_rep _}.
Arguments l_shrink_if_needed {D K V _ _ _ d_rep _}.
Arguments l_scan {D K V _ _ _ d_rep _}.
Arguments l_scan_complete {D K V _ _ _ d_rep _}.
Arguments l_scan_sound {D K V _ _ _ d_rep _}.
Arguments st_rep {D K V _ _ _ d_rep d d' m'} _.
Arguments st_trace {D K V _ _ _ d_rep d d' m'} _.
Arguments st_paused {D K V _ _ _ d_rep d d' m'} _.

(** ** The hash table *)

Section instance.
Context {K V : Type} `{Countable K}.
Context (type : dictType K) (dict_can_resize : dictResizeEnable).
Implicit Types (d : dict K V).

#[local] Instance dict_ops : DictOps (dict K V) K V := {
  d_create := dictCreate;
  d_size := dictSize;
  d_buckets := dictBuckets;
  d_is_rehashing := dictIsRehashing;
  d_is_paused d := pauserehash d >? 0;
  d_trace := trace;
  d_release := dictRelease;
  d_empty := dictEmpty;
  d_add_raw d k v :=
    '(existing, d) ← dictAddRaw type dict_can_resize d k v;
    Some (match existing with None => true | Some _ => false end, d);
  d_find := dictFind type dict_can_resize;
  d_delete := dictDelete type dict_can_resize;
  d_expand := dictExpand type dict_can_resize;
  d_try_expand := dictTryExpand type dict_can_resize;
  d_expand_if_needed := dictExpandIfNeeded type dict_can_resize;
  d_shrink_if_needed := dictShrinkIfNeeded type dict_can_resize;
  d_scan := dictScan
}.

(** A well-formed dict, resized when it likes, represents its map. *)
Definition dict_rep d (m : gmap K V) : Prop :=
  wf type d /\ pauseAutoResize d <= 0 /\ dict_map d = m.

Lemma becomes_step d d' es m' :
  pauseAutoResize d <= 0 -> becomes type d d' es -> dict_map d' = m' -> d_step dict_rep d d' m'.
Proof.
  intros Hp B Hm. constructor; cbn.
  - split; [apply B|]. by rewrite (bc_auto _ _ _ _ B).
  - apply B.
  - by rewrite (bc_pause _ _ _ _ B).
Qed.

Lemma evolves_step d d' m : dict_rep d m -> evolves type d d' -> d_step dict_rep d d' m.
Proof.
  intros (W & Hp & <-) E. apply (becomes_step d d' (entries d)); [done|by apply evolves_becomes|].
  by apply (dict_map_evolves type).
Qed.

Lemma dictBuckets_wf d : wf type d -> dictBuckets d = htsize d false + htsize d true /\ 0 <= dictBuckets d < 2 ^ 62.
Proof.
  intros W. pose proof (wf_htsize type d false W). pose proof (wf_htsize type d true W).
  unfold dictBuckets. rewrite wrapu_small by (unfold in_u; lia). lia.
Qed.

(** The cursor has no bits above those of the larger table. *)
Lemma rev_low e x : 0 <= e <= 64 -> in_u 64 x -> rev x `mod` block e = 0 -> x < 2 ^ e.
Proof.
  intros He Hx Hr. destruct (Z_lt_dec x (2 ^ e)) as [|Hge]; [done|exfalso].
  assert (0 < x) by (pose proof (Z.pow_pos_nonneg 2 e); lia).
  set (i := Z.log2 x). assert (Z.testbit x i = true) as Hi by (by apply Z.bit_log2).
  assert (e <= i) by (apply Z.log2_le_pow2; lia).
  assert (i < 64) by (apply Z.log2_lt_pow2; unfold in_u in Hx; lia).
  assert (Z.testbit (rev x) (63 - i) = true) as Hb.
  { rewrite rev_bits by lia. rewrite <- Hi. f_equal. lia. }
  rewrite <- (Z.mod_pow2_bits_low _ (64 - e)) in Hb by lia. unfold block in Hr. rewrite Hr in Hb.
  by rewrite Z.bits_0 in Hb.
Qed.

Lemma d_scan_run_dict v es ms :
  d_scan_run dict_rep v es ms -> exists ds, scan_run type v es ds /\ Forall2 dict_rep ds ms.
Proof.
  induction 1 as [d m v es Hd Hs|d m v es v' es' ms Hd Hs Hne Hrun (ds & Hr & Hf)].
  - exists [d]. split; [apply scan_last; [apply Hd|done]|by constructor].
  - exists (d :: ds). split; [|by constructor]. eapply scan_more; [apply Hd|done..].
Qed.

Lemma block_multiple e x : 0 <= e <= 64 -> (block e | x) -> (x `mod` 2 ^ 64) `mod` block e = 0.
Proof.
  intros He Hx. pose proof (block_pos e He). rewrite Z.mod_mod_divide.
  - by apply Z.mod_divide; [lia|].
  - rewrite <- (block_total e He). apply Z.divide_factor_r.
Qed.

Lemma table_exp_le d t e :
  wf type d -> 2 <= size_exp d t <= 60 -> dictBuckets d <= 2 ^ e -> 2 <= e -> size_exp d t <= e.
Proof.
  intros W Ht Hb He. destruct (dictBuckets_wf d W) as [E _].
  pose proof (wf_htsize type d false W). pose proof (wf_htsize type d true W).
  apply (Z.pow_le_mono_r_iff 2); [lia|lia|]. rewrite <- DICTHT_SIZE_pow by lia.
  change (htsize d t <= 2 ^ e). destruct t; lia.
Qed.

#[local] Instance dict_laws : DictLaws (dict K V) K V dict_rep.
Proof.
  constructor.
  - split; [|done]. split; [|done]. constructor; try done; [apply wf_ht_reset|apply wf_ht_reset|constructor|by left].
  - intros d m (W & _ & <-). by apply (dictSize_map type).
  - intros d m (W & _ & <-). pose proof (dictSize_map type d W) as E. cbn in *. rewrite <- E.
    rewrite (dictSize_spec type d W). apply W.
  - intros d m (W & _ & _). cbn. destruct (dictBuckets_wf d W) as [E Hb]. split; [|done].
    rewrite E. apply W.
  - intros d m (W & _ & _). apply W.
  - intros d m (W & _ & _). pose proof (wf_open _ d W) as Ho. pose proof (wf_buckets _ d W) as Hb.
    destruct (dictBuckets_wf d W) as [E _]. cbn. unfold dictRelease.
    destruct (dictIsRehashing d); cbn; (split; [repeat apply suffix_cons_r; reflexivity|]);
      (split; [change (dictBuckets (emit _ d)) with (dictBuckets d) || idtac; lia|]); by rewrite ?Ho.
  - intros d m k v (W & Hp & <-) Hs. cbn.
    destruct (dictAddRaw_spec type dict_can_resize d k v W) as (r & d' & -> & Hr).
    { split; [|by right]. rewrite <- (dictSize_map type d W), (dictSize_spec type d W) in Hs. done. }
    mred. destruct r as [link|].
    + destruct Hr as (w & _ & Hin & E). apply (dict_map_Some type d k w W) in Hin. rewrite Hin.
      exists d'. split; [by rewrite bool_decide_false|]. by apply evolves_step.
    + destruct Hr as [Hn B]. apply (dict_map_None type d k W) in Hn. rewrite Hn.
      exists d'. split; [done|]. apply (becomes_step _ _ _ _ Hp B).
      by apply (dict_map_becomes_cons type) in B as [_ ->].
  - intros d m k R. pose proof R as (W & Hp & Em). cbn.
    destruct (dictFind_spec type dict_can_resize d k W) as (r & d' & -> & E & Hr).
    exists d'. split; [|by apply evolves_step]. do 2 f_equal. rewrite <- Em. destruct r as [[k' v]|].
    + destruct Hr as [-> Hin]. apply (dict_map_Some type d k v W) in Hin. by rewrite Hin.
    + apply (dict_map_None type d k W) in Hr. by rewrite Hr.
  - intros d m k R. pose proof R as (W & Hp & Em). cbn. unfold dictDelete.
    destruct (dictGenericDelete_spec type dict_can_resize d k W) as (r & d' & -> & Hr). mred.
    exists d'. destruct r as [[k' v]|].
    + destruct Hr as (-> & es & Ee & B). rewrite <- Em.
      assert (dict_map d !! k = Some v) as -> by (apply (dict_map_Some type d k v W); rewrite Ee; left).
      split; [done|]. apply (becomes_step _ _ _ _ Hp B).
      rewrite <- (dict_map_deleted type d es k v W Ee). apply (list_to_map_perm type); apply B.
    + destruct Hr as [Hn E]. apply (dict_map_None type d k W) in Hn. rewrite Em in Hn.
      rewrite Hn, delete_id by done. split; [done|]. by apply evolves_step.
  - intros d m (W & _ & _). pose proof (wf_open _ d W) as Ho. pose proof (wf_buckets _ d W) as Hb.
    destruct (dictBuckets_wf d W) as [E _].
    split; [split; [|done]|split; [|done]].
    + constructor; try done; try apply wf_ht_reset; try (by constructor); try (by left).
      * cbn. unfold dictEmpty.
        change (htsize (mk_dict _ _ _ _ _ _) _) with 0.
        destruct (dictIsRehashing d); cbn; [change (dictBuckets (emit _ d)) with (dictBuckets d)|]; lia.
      * cbn. unfold dictEmpty. destruct (dictIsRehashing d); cbn; by rewrite ?Ho.
    + cbn. unfold dictEmpty. destruct (dictIsRehashing d); cbn; repeat apply suffix_cons_r; reflexivity.
  - intros d m n fails R. cbn. unfold dictTryExpand, _dictExpand. case_match eqn:Hc.
    + mred. eexists _, d. split; [done|]. by apply evolves_step; [|apply evolves_refl, R].
    + bools. destruct (_dictResize_resized type dict_can_resize d n (Some fails) (proj1 R)) as (r & f & d' & -> & Rs); [done|].
      mred. eexists _, d'. split; [done|]. by apply evolves_step; [|apply Rs].
  - intros d m n R. destruct (dictExpand_spec type dict_can_resize d n (proj1 R)) as (r & d' & E & Rs).
    exists r, d'. split; [done|]. apply evolves_step; [done|apply Rs].
  - intros d m R. destruct (dictExpandIfNeeded_spec type dict_can_resize d (proj1 R)) as (r & d' & E & Rs & _).
    exists r, d'. split; [done|]. apply evolves_step; [done|apply Rs].
  - intros d m R. destruct (dictShrinkIfNeeded_spec type dict_can_resize d (proj1 R)) as (r & d' & E & Rs).
    exists r, d'. split; [done|]. apply evolves_step; [done|apply Rs].
  - intros d m v (W & _ & _). destruct (dictScan_spec type d v W)
      as (es & v' & E & Hs & HE & Hr & Hu & Ht & _). exists es, v'. split; [done|].
    split; [unfold in_u in Hu; lia|]. intros e He Hb. apply rev_low; [lia|done|]. rewrite Hr.
    apply block_multiple; [lia|]. destruct Ht as [->|(t & -> & Ht)].
    + rewrite <- (block_total e) by lia. apply Z.divide_factor_r.
    + pose proof (table_exp_le d t e W Ht Hb ltac:(lia)). unfold block_end.
      rewrite (block_divides (size_exp d t) e) by lia. rewrite Z.mul_assoc. apply Z.divide_factor_r.
  - intros es ms k Hrun Hin. destruct (d_scan_run_dict _ _ _ Hrun) as (ds & Hr & Hf).
    destruct (scan_run_covers type 0 es ds k Hr) as [x Hx].
    + rewrite rev_0. apply rev_range.
    + intros d Hd. destruct (proj1 (list_elem_of_lookup _ _) Hd) as [i Hi].
      destruct (Forall2_lookup_l _ _ _ _ _ Hf Hi) as (m & Hm & W & _ & Em).
      destruct (Hin m) as [x Hx]; [by apply list_elem_of_lookup_2 in Hm|]. exists x.
      apply (dict_map_Some type); [done|]. by rewrite Em.
    + apply list_elem_of_fmap. by exists (k, x).
  - intros d m v es v' k x (W & _ & <-) Hs Hin. destruct (dictScan_spec type d v W)
      as (es1 & v1 & E & Hs1 & _ & _ & _ & _ & _ & Hsound). cbn in Hs. rewrite Hs in Hs1.
    injection Hs1 as <- <-. apply (dict_map_Some type); [done|]. by apply Hsound.
Qed.

End instance.
End KvDict.
