(* ===== verification/Kvstore.v ===== *)
(** The key-value store ([src/kvstore.c]): an array of dicts, one per slot, with the
    counters, the Fenwick tree of sizes and the list of rehashing dicts that go with
    it, over any implementation of dicts that obeys the laws of [KvDict].

    A store has 2^[num_dicts_bits] dicts, some of them not allocated.  What the
    callbacks of the dicts do to the store is applied after each operation, from the
    calls the dict made; which memory a dict or its metadata take is left out. *)
From stdpp Require Import base numbers list gmap.
From stdpp Require Import options.
From S2P Require Import Prelude Fwtree Dict DictScan KvDict.

Module Kvstore.
Import Dict KvDict.

Section data.
Context {D : Type}.

(** [struct _kvstore]; of its flags, [KVSTORE_ALLOCATE_DICTS_ON_DEMAND] and
    [KVSTORE_FREE_EMPTY_DICTS].  A dict is in the list [rehashing] by its index. *)
Record kvstore := mk_kvs {
  alloc_on_demand : bool;
  free_empty : bool;
  dicts : list (option D);
  num_dicts_bits : Z;
  rehashing : list Z;
  resize_cursor : Z;
  allocated_dicts : Z;
  non_empty_dicts : Z;
  key_count : Z;
  bucket_count : Z;
  dict_sizes : option Fwtree.fenwickTree
}.

Definition set_dicts (kvs : kvstore) (ds : list (option D)) : kvstore :=
  mk_kvs (alloc_on_demand kvs) (free_empty kvs) ds (num_dicts_bits kvs) (rehashing kvs)
    (resize_cursor kvs) (allocated_dicts kvs) (non_empty_dicts kvs) (key_count kvs)
    (bucket_count kvs) (dict_sizes kvs).
Definition set_rehashing (kvs : kvstore) (l : list Z) : kvstore :=
  mk_kvs (alloc_on_demand kvs) (free_empty kvs) (dicts kvs) (num_dicts_bits kvs) l
    (resize_cursor kvs) (allocated_dicts kvs) (non_empty_dicts kvs) (key_count kvs)
    (bucket_count kvs) (dict_sizes kvs).
Definition set_resize_cursor (kvs : kvstore) (c : Z) : kvstore :=
  mk_kvs (alloc_on_demand kvs) (free_empty kvs) (dicts kvs) (num_dicts_bits kvs) (rehashing kvs)
    c (allocated_dicts kvs) (non_empty_dicts kvs) (key_count kvs) (bucket_count kvs) (dict_sizes kvs).
Definition set_allocated (kvs : kvstore) (n : Z) : kvstore :=
  mk_kvs (alloc_on_demand kvs) (free_empty kvs) (dicts kvs) (num_dicts_bits kvs) (rehashing kvs)
    (resize_cursor kvs) n (non_empty_dicts kvs) (key_count kvs) (bucket_count kvs) (dict_sizes kvs).
Definition set_non_empty (kvs : kvstore) (n : Z) : kvstore :=
  mk_kvs (alloc_on_demand kvs) (free_empty kvs) (dicts kvs) (num_dicts_bits kvs) (rehashing kvs)
    (resize_cursor kvs) (allocated_dicts kvs) n (key_count kvs) (bucket_count kvs) (dict_sizes kvs).
Definition set_key_count (kvs : kvstore) (n : Z) : kvstore :=
  mk_kvs (alloc_on_demand kvs) (free_empty kvs) (dicts kvs) (num_dicts_bits kvs) (rehashing kvs)
    (resize_cursor kvs) (allocated_dicts kvs) (non_empty_dicts kvs) n (bucket_count kvs) (dict_sizes kvs).
Definition set_bucket_count (kvs : kvstore) (n : Z) : kvstore :=
  mk_kvs (alloc_on_demand kvs) (free_empty kvs) (dicts kvs) (num_dicts_bits kvs) (rehashing kvs)
    (resize_cursor kvs) (allocated_dicts kvs) (non_empty_dicts kvs) (key_count kvs) n (dict_sizes kvs).
Definition set_dict_sizes (kvs : kvstore) (ft : option Fwtree.fenwickTree) : kvstore :=
  mk_kvs (alloc_on_demand kvs) (free_empty kvs) (dicts kvs) (num_dicts_bits kvs) (rehashing kvs)
    (resize_cursor kvs) (allocated_dicts kvs) (non_empty_dicts kvs) (key_count kvs)
    (bucket_count kvs) ft.

Definition num_dicts (kvs : kvstore) : Z := Z.shiftl 1 (num_dicts_bits kvs).

(** [kvs->dicts[didx]]; an index out of the array is undefined. *)
Definition kvstoreGetDict (kvs : kvstore) (didx : Z) : option (option D) :=
  if didx <? 0 then None else dicts kvs !! Z.to_nat didx.

Definition set_dict (kvs : kvstore) (didx : Z) (d : option D) : kvstore :=
  set_dicts kvs (<[Z.to_nat didx := d]> (dicts kvs)).

(** *** Callbacks *)

(** [kvstoreDictRehashingStarted], [kvstoreDictRehashingCompleted] and
    [kvstoreDictBucketChanged], for the dict of index [didx]. *)
Definition on_event (didx : Z) (e : dictEvent) (kvs : kvstore) : kvstore :=
  match e with
  | rehashingStarted => set_rehashing kvs (rehashing kvs ++ [didx])
  | rehashingCompleted => set_rehashing kvs (filter (fun i => i <> didx) (rehashing kvs))
  | bucketChanged delta => set_bucket_count kvs (u64 (bucket_count kvs + delta))
  end.

(** The calls of a trace, the newest of which comes first. *)
Definition on_events (didx : Z) (es : list dictEvent) (kvs : kvstore) : kvstore :=
  foldr (on_event didx) kvs es.

(** The calls a dict made since its trace was [old]. *)
Definition new_events (old new : list dictEvent) : list dictEvent :=
  take (length new - length old) new.

(** *** Cursors *)

Definition addDictIndexToCursor (kvs : kvstore) (didx cursor : Z) : Z :=
  if num_dicts kvs =? 1 then cursor
  else if didx <? 0 then cursor
  else Z.lor (u64 (Z.shiftl cursor (num_dicts_bits kvs))) (u64 didx).

Definition getAndClearDictIndexFromCursor (kvs : kvstore) (cursor : Z) : Z * Z :=
  if num_dicts kvs =? 1 then (0, cursor)
  else (i32 (Z.land cursor (num_dicts kvs - 1)), Z.shiftr cursor (num_dicts_bits kvs)).

End data.
Arguments kvstore : clear implicits.

Section ops.
Context {D K V : Type} `{!DictOps D K V}.
(** [kvs->type->canFreeDict], if it is set. *)
Context (canFreeDict : option (kvstore D -> Z -> bool)).
Implicit Types (kvs : kvstore D) (d : D) (didx : Z).

(** A dict is replaced by what an operation made of it, and the store observes. *)
Definition update_dict kvs didx (d d' : D) : kvstore D :=
  on_events didx (new_events (d_trace d) (d_trace d')) (set_dict kvs didx (Some d')).

Definition kvstoreSize kvs : Z := key_count kvs.

Definition kvstoreBuckets kvs : option Z :=
  if negb (num_dicts kvs =? 1) then Some (bucket_count kvs)
  else d ← kvstoreGetDict kvs 0; Some (match d with Some d => d_buckets d | None => 0 end).

Definition kvstoreDictSize kvs didx : option Z :=
  d ← kvstoreGetDict kvs didx;
  Some (match d with Some d => d_size d | None => 0 end).

Definition kvstoreDictIsRehashingPaused kvs didx : option bool :=
  d ← kvstoreGetDict kvs didx;
  Some (match d with Some d => d_is_paused d | None => false end).

Definition cumulativeKeyCountAdd kvs didx (delta : Z) : option (kvstore D) :=
  let kvs := set_key_count kvs (u64 (key_count kvs + delta)) in
  d ← kvstoreGetDict kvs didx;
  d ← d;
  let dsize := d_size d in
  let non_empty_dicts_delta := if (dsize =? 1) && (delta >? 0) then 1
                               else if dsize =? 0 then -1 else 0 in
  let kvs := set_non_empty kvs (i32 (non_empty_dicts kvs + non_empty_dicts_delta)) in
  if num_dicts kvs =? 1 then Some kvs
  else
    ft ← dict_sizes kvs;
    ft ← Fwtree.fwTreeUpdate ft didx delta;
    Some (set_dict_sizes kvs (Some ft)).

Definition createDictIfNeeded kvs didx : option (D * kvstore D) :=
  d ← kvstoreGetDict kvs didx;
  match d with
  | Some d => Some (d, kvs)
  | None =>
    let kvs := set_dict kvs didx (Some d_create) in
    Some (d_create, set_allocated kvs (i32 (allocated_dicts kvs + 1)))
  end.

(** [dictRelease] makes its calls before the dict goes. *)
Definition freeDictIfNeeded kvs didx : option (kvstore D) :=
  d ← kvstoreGetDict kvs didx;
  match d with
  | None => Some kvs
  | Some d =>
    if negb (free_empty kvs) || negb (d_size d =? 0) || d_is_paused d then Some kvs
    else if match canFreeDict with Some can => negb (can kvs didx) | None => false end then Some kvs
    else
      let kvs := on_events didx (new_events (d_trace d) (d_release d)) kvs in
      let kvs := set_dict kvs didx None in
      Some (set_allocated kvs (i32 (allocated_dicts kvs - 1)))
  end.

(** *** Creation and emptying *)

(** [for (int i = i0; i < i0 + n; i++)] *)
Fixpoint for_dicts (n : nat) (i : Z) (body : Z -> kvstore D -> option (kvstore D)) kvs
    : option (kvstore D) :=
  match n with
  | O => Some kvs
  | S n => kvs ← body i kvs; for_dicts n (i + 1) body kvs
  end.

Definition kvstoreCreate (num_dicts_bits : Z) (on_demand free : bool) : option (kvstore D) :=
  _ ← cassert (num_dicts_bits <=? 16);
  let n := Z.shiftl 1 num_dicts_bits in
  let kvs := mk_kvs on_demand free (replicate (Z.to_nat n) None) num_dicts_bits [] 0 0 0 0 0 None in
  kvs ← (if negb on_demand
         then for_dicts (Z.to_nat n) 0 (fun i kvs => snd <$> createDictIfNeeded kvs i) kvs
         else Some kvs);
  Some (set_dict_sizes kvs
          (if n >? 1 then Some (Fwtree.fwTreeCreate num_dicts_bits) else None)).

(** The body of the loop of [kvstoreEmpty]: the node of the dict in the list of
    rehashing dicts is forgotten first, so the list is left alone. *)
Definition empty_dict didx kvs : option (kvstore D) :=
  d ← kvstoreGetDict kvs didx;
  match d with
  | None => Some kvs
  | Some d =>
    let l := rehashing kvs in
    let kvs := set_rehashing (update_dict kvs didx d (d_empty d)) l in
    freeDictIfNeeded kvs didx
  end.

Definition kvstoreEmpty kvs : option (kvstore D) :=
  kvs ← for_dicts (Z.to_nat (num_dicts kvs)) 0 empty_dict kvs;
  let kvs := set_rehashing kvs [] in
  let kvs := set_key_count kvs 0 in
  let kvs := set_non_empty kvs 0 in
  let kvs := set_resize_cursor kvs 0 in
  let kvs := set_bucket_count kvs 0 in
  Some (set_dict_sizes kvs (Fwtree.fwTreeClear <$> dict_sizes kvs)).

(** *** Access by index *)

Definition kvstoreFindDictIndexByKeyIndex kvs (target : Z) : option Z :=
  if (num_dicts kvs =? 1) || (kvstoreSize kvs =? 0) then Some 0
  else
    _ ← cassert (target <=? kvstoreSize kvs);
    ft ← dict_sizes kvs;
    Fwtree.fwTreeFindIndex ft target.

Definition kvstoreGetFirstNonEmptyDictIndex kvs : option Z :=
  if kvstoreSize kvs =? 0 then Some (-1)
  else if num_dicts kvs =? 1 then Some 0
  else ft ← dict_sizes kvs; Fwtree.fwTreeFindFirstNonEmpty ft.

Definition kvstoreGetNextNonEmptyDictIndex kvs didx : option Z :=
  if num_dicts kvs =? 1 then _ ← cassert (didx =? 0); Some (-1)
  else ft ← dict_sizes kvs; Fwtree.fwTreeFindNextNonEmpty ft didx.

(** [randomULong] gives the successive values of [random]. *)
Fixpoint fair_attempts (n : nat) kvs (skip_cb : option (Z -> bool)) (random : nat -> Z) (total_size : Z)
    : option (option Z * (nat -> Z)) :=
  match n with
  | O => Some (None, random)
  | S n =>
    didx ← kvstoreFindDictIndexByKeyIndex kvs (random O `mod` total_size + 1);
    let random := fun i => random (S i) in
    if match skip_cb with Some skip => negb (skip didx) | None => true end
    then Some (Some didx, random)
    else fair_attempts n kvs skip_cb random total_size
  end.

Fixpoint systematic (n : nat) (i : Z) kvs (skip_cb : option (Z -> bool)) (start : Z) : option Z :=
  match n with
  | O => Some (-1)
  | S n =>
    let didx := (start + i) `mod` num_dicts kvs in
    d ← kvstoreGetDict kvs didx;
    if match d with Some _ => true | None => false end &&
       match skip_cb with Some skip => negb (skip didx) | None => true end
    then Some didx
    else systematic n (i + 1) kvs skip_cb start
  end.

Definition kvstoreGetFairRandomDictIndex kvs (skip_cb : option (Z -> bool)) (attempts : nat)
    (slow_fallback : bool) (random : nat -> Z) : option Z :=
  if (num_dicts kvs =? 1) || (kvstoreSize kvs =? 0) then Some 0
  else
    '(r, random) ← fair_attempts attempts kvs skip_cb random (kvstoreSize kvs);
    match r with
    | Some didx => Some didx
    | None =>
      if slow_fallback
      then systematic (Z.to_nat (num_dicts kvs)) 0 kvs skip_cb (random O `mod` num_dicts kvs)
      else Some (-1)
    end.

(** *** Access to the dicts *)

Definition kvstoreDictFind kvs didx (key : K) : option (option (K * V) * kvstore D) :=
  d ← kvstoreGetDict kvs didx;
  match d with
  | None => Some (None, kvs)
  | Some d => '(r, d') ← d_find d key; Some (r, update_dict kvs didx d d')
  end.

Definition kvstoreDictAddRaw kvs didx (key : K) (val : V) : option (bool * kvstore D) :=
  '(d, kvs) ← createDictIfNeeded kvs didx;
  '(ret, d') ← d_add_raw d key val;
  let kvs := update_dict kvs didx d d' in
  kvs ← (if ret : bool then cumulativeKeyCountAdd kvs didx 1 else Some kvs);
  Some (ret, kvs).

Definition kvstoreDictDelete kvs didx (key : K) : option (Z * kvstore D) :=
  d ← kvstoreGetDict kvs didx;
  match d with
  | None => Some (DICT_ERR, kvs)
  | Some d =>
    '(ret, d') ← d_delete d key;
    let kvs := update_dict kvs didx d d' in
    if ret =? DICT_OK then
      kvs ← cumulativeKeyCountAdd kvs didx (-1);
      kvs ← freeDictIfNeeded kvs didx;
      Some (ret, kvs)
    else Some (ret, kvs)
  end.

Definition kvstoreDictExpand kvs didx (size : Z) : option (Z * kvstore D) :=
  '(d, kvs) ← createDictIfNeeded kvs didx;
  '(r, d') ← d_expand d size;
  Some (r, update_dict kvs didx d d').

(** The body of the loop of [kvstoreTryResizeDicts]. *)
Definition resize_dict kvs didx : option (kvstore D) :=
  d ← kvstoreGetDict kvs didx;
  match d with
  | None => Some kvs
  | Some d =>
    '(r, d') ← d_shrink_if_needed d;
    let kvs := update_dict kvs didx d d' in
    if r =? DICT_ERR then
      '(_, d2) ← d_expand_if_needed d';
      Some (update_dict kvs didx d' d2)
    else Some kvs
  end.

Fixpoint try_resize (limit : nat) kvs : option (kvstore D) :=
  match limit with
  | O => Some kvs
  | S limit =>
    let didx := resize_cursor kvs in
    kvs ← resize_dict kvs didx;
    try_resize limit (set_resize_cursor kvs ((didx + 1) `mod` num_dicts kvs))
  end.

Definition kvstoreTryResizeDicts kvs (limit : Z) : option (kvstore D) :=
  let limit := if limit >? num_dicts kvs then num_dicts kvs else limit in
  try_resize (Z.to_nat limit) kvs.

(** The loop of [kvstoreExpand]: the store, and the answer. *)
Fixpoint expand_loop (n : nat) (i : Z) kvs (newsize : Z) (try_expand : option (Z -> bool))
    (skip_cb : option (Z -> bool)) : option (Z * kvstore D) :=
  match n with
  | O => Some (1, kvs)
  | S n =>
    if match skip_cb with Some skip => skip i | None => false end
    then expand_loop n (i + 1) kvs newsize try_expand skip_cb
    else
      '(d, kvs) ← createDictIfNeeded kvs i;
      '(result, d') ← match try_expand with
                      | Some malloc_fails => d_try_expand d newsize (malloc_fails i)
                      | None => d_expand d newsize
                      end;
      let kvs := update_dict kvs i d d' in
      if match try_expand with Some _ => true | None => false end && (result =? DICT_ERR)
      then Some (0, kvs)
      else expand_loop n (i + 1) kvs newsize try_expand skip_cb
  end.

(** [try_expand] is [None] for 0; otherwise it tells which allocations fail. *)
Definition kvstoreExpand kvs (newsize : Z) (try_expand : option (Z -> bool))
    (skip_cb : option (Z -> bool)) : option (Z * kvstore D) :=
  expand_loop (Z.to_nat (num_dicts kvs)) 0 kvs newsize try_expand skip_cb.

(** *** Scanning *)

Definition kvstoreScan kvs (cursor onlydidx : Z) (skip_cb : option (D -> Z -> bool))
    : option (list (K * V) * Z * kvstore D) :=
  let '(didx, cursor) := getAndClearDictIndexFromCursor kvs cursor in
  if (onlydidx >=? 0) && (didx >? onlydidx) then Some ([], 0, kvs)
  else
    '(didx, cursor) ← (if (onlydidx >=? 0) && (didx <? onlydidx)
                       then _ ← cassert (onlydidx <? num_dicts kvs); Some (onlydidx, 0)
                       else Some (didx, cursor));
    d ← kvstoreGetDict kvs didx;
    '(es, _cursor, skip, kvs) ←
      match d with
      | Some d =>
        if match skip_cb with Some f => f d didx | None => false end then Some ([], 0, true, kvs)
        else
          '(es, c) ← d_scan d cursor;
          kvs ← freeDictIfNeeded kvs didx;
          Some (es, c, false, kvs)
      | None => Some ([], 0, true, kvs)
      end;
    if (_cursor =? 0) || skip : bool then
      if onlydidx >=? 0 then Some (es, 0, kvs)
      else
        didx ← kvstoreGetNextNonEmptyDictIndex kvs didx;
        if didx =? -1 then Some (es, 0, kvs)
        else Some (es, addDictIndexToCursor kvs didx _cursor, kvs)
    else Some (es, addDictIndexToCursor kvs didx _cursor, kvs).

(** *** Moving a dict *)

Definition kvstoreMoveDict kvs (dst : kvstore D) didx : option (kvstore D * kvstore D) :=
  _ ← cassert (num_dicts kvs >? didx);
  _ ← cassert (num_dicts kvs =? num_dicts dst);
  od ← kvstoreGetDict dst didx;
  _ ← cassert (match od with None => true | Some _ => false end);
  d ← kvstoreGetDict kvs didx;
  match d with
  | None => Some (kvs, dst)
  | Some d =>
    let kvs := set_allocated kvs (i32 (allocated_dicts kvs - 1)) in
    kvs ← cumulativeKeyCountAdd kvs didx (- i64 (d_size d));
    let kvs := on_event didx (bucketChanged (- i64 (d_buckets d))) kvs in
    let kvs := if d_is_rehashing d then on_event didx rehashingCompleted kvs else kvs in
    let kvs := set_dict kvs didx None in
    kvs ← (if negb (alloc_on_demand kvs || free_empty kvs)
           then snd <$> createDictIfNeeded kvs didx else Some kvs);
    let dst := set_dict dst didx (Some d) in
    let dst := set_allocated dst (i32 (allocated_dicts dst + 1)) in
    dst ← cumulativeKeyCountAdd dst didx (i64 (d_size d));
    let dst := on_event didx (bucketChanged (i64 (d_buckets d))) dst in
    let dst := if d_is_rehashing d then on_event didx rehashingStarted dst else dst in
    Some (kvs, dst)
  end.

End ops.

(** ** Proofs *)


(** *** Sums over the slots *)

Lemma zsum_fmap_insert {A} (f : A -> Z) (l : list A) i x y :
  l !! i = Some x -> Fwtree.zsum (f <$> <[i := y]> l) = Fwtree.zsum (f <$> l) + (f y - f x).
Proof.
  intros Hx. rewrite list_fmap_insert. apply Fwtree.zsum_insert. by rewrite list_lookup_fmap, Hx.
Qed.

Lemma zsum_fmap_bounds {A} (f : A -> Z) (l : list A) n :
  (forall x, x ∈ l -> 0 <= f x <= n) -> 0 <= Fwtree.zsum (f <$> l) <= n * Z.of_nat (length l).
Proof.
  induction l as [|x l IH]; intros Hf; cbn [fmap list_fmap length]; [change (Fwtree.zsum []) with 0; lia|].
  pose proof (Hf x ltac:(left)). destruct IH; [intros; apply Hf; by right|].
  change (Fwtree.zsum (f x :: (f <$> l))) with (f x + Fwtree.zsum (f <$> l)). lia.
Qed.

Lemma buckets_of_app a b : buckets_of (a ++ b) = buckets_of a + buckets_of b.
Proof. induction a as [|[]]; cbn [app buckets_of]; lia. Qed.

Lemma new_events_app es old : new_events old (es ++ old) = es.
Proof.
  unfold new_events. rewrite length_app, Nat.add_sub. by rewrite take_app_length.
Qed.

Section invariant.
Context {D K V : Type} `{Countable K} `{!DictOps D K V} {d_rep : D -> gmap K V -> Prop}
  `{!DictLaws D K V d_rep}.
#[local] Set Default Proof Using "Type*".
Implicit Types (kvs : kvstore D) (d : D) (od : option D) (m : gmap K V) (M : list (gmap K V)) (i : nat).

(** *** The invariant *)

Definition slot_rep od m : Prop := match od with Some d => d_rep d m | None => m = ∅ end.
Definition slot_alloc od : Z := match od with Some _ => 1 | None => 0 end.
Definition slot_buckets od : Z := match od with Some d => d_buckets d | None => 0 end.
Definition slot_rehashing od : bool := match od with Some d => d_is_rehashing d | None => false end.
Definition keys_in m : Z := Z.of_nat (size m).
Definition non_empty m : Z := if keys_in m =? 0 then 0 else 1.

(** The array of dicts represents one map per slot, and its counters count. *)
Record kv_arr kvs M : Prop := {
  ka_bits : 0 <= num_dicts_bits kvs <= 16;
  ka_len : Z.of_nat (length (dicts kvs)) = 2 ^ num_dicts_bits kvs;
  ka_rep : Forall2 slot_rep (dicts kvs) M;
  ka_alloc : allocated_dicts kvs = Fwtree.zsum (slot_alloc <$> dicts kvs);
  ka_buckets : bucket_count kvs = u64 (Fwtree.zsum (slot_buckets <$> dicts kvs));
  ka_cursor : 0 <= resize_cursor kvs < 2 ^ num_dicts_bits kvs
}.

(** The list of rehashing dicts holds each of them once. *)
Record kv_rehash kvs : Prop := {
  kr_nodup : NoDup (rehashing kvs);
  kr_in i od : dicts kvs !! i = Some od -> Z.of_nat i ∈ rehashing kvs <-> slot_rehashing od = true;
  kr_range z : z ∈ rehashing kvs -> 0 <= z < Z.of_nat (length (dicts kvs))
}.

(** The key count and the Fenwick tree count the keys of the slots. *)
Record kv_keys kvs M : Prop := {
  kk_total : key_count kvs = Fwtree.zsum (keys_in <$> M);
  kk_fits : Fwtree.zsum (keys_in <$> M) < UINT64_MAX;
  kk_tree : match dict_sizes kvs with
            | Some ft => 0 < num_dicts_bits kvs /\ Fwtree.ft_size_bits ft = num_dicts_bits kvs /\
                Fwtree.repr ft (keys_in <$> M)
            | None => num_dicts_bits kvs = 0
            end
}.

Record kv_wf kvs M : Prop := {
  kw_arr : kv_arr kvs M;
  kw_rehash : kv_rehash kvs;
  kw_keys : kv_keys kvs M;
  kw_non_empty : non_empty_dicts kvs = Fwtree.zsum (non_empty <$> M)
}.

(** Two stores that differ in their dicts and what is counted of them. *)
Record same_counts kvs kvs' : Prop := {
  sc_bits : num_dicts_bits kvs' = num_dicts_bits kvs;
  sc_keys : key_count kvs' = key_count kvs;
  sc_non_empty : non_empty_dicts kvs' = non_empty_dicts kvs;
  sc_tree : dict_sizes kvs' = dict_sizes kvs;
  sc_free : free_empty kvs' = free_empty kvs
}.

Instance same_counts_preorder : PreOrder same_counts.
Proof.
  split; [by constructor|]. intros a b c [] []. constructor; congruence.
Qed.

Lemma kv_keys_same kvs kvs' M : same_counts kvs kvs' -> kv_keys kvs M -> kv_keys kvs' M.
Proof. intros [Eb Ek En Et _] [Hk Hf Ht]. constructor; [congruence|done|]. by rewrite Et, Eb. Qed.

Lemma kv_lookup kvs M i m :
  kv_arr kvs M -> M !! i = Some m -> exists od, dicts kvs !! i = Some od /\ slot_rep od m.
Proof. intros A Hm. destruct (Forall2_lookup_r _ _ _ _ _ (ka_rep _ _ A) Hm) as (od & ? & ?). eauto. Qed.

Lemma kv_lookup_l kvs M i od :
  kv_arr kvs M -> dicts kvs !! i = Some od -> exists m, M !! i = Some m /\ slot_rep od m.
Proof. intros A Hm. destruct (Forall2_lookup_l _ _ _ _ _ (ka_rep _ _ A) Hm) as (m & ? & ?). eauto. Qed.

Lemma kv_length kvs M : kv_arr kvs M -> Z.of_nat (length M) = 2 ^ num_dicts_bits kvs.
Proof. intros A. rewrite <- (Forall2_length _ _ _ (ka_rep _ _ A)). apply A. Qed.

Lemma kv_pow kvs M : kv_arr kvs M -> 1 <= 2 ^ num_dicts_bits kvs <= 65536.
Proof.
  intros A. pose proof (ka_bits _ _ A). pose proof (Z.pow_le_mono_r 2 (num_dicts_bits kvs) 16).
  pose proof (Z.pow_pos_nonneg 2 (num_dicts_bits kvs)). lia.
Qed.

Lemma num_dicts_pow kvs M : kv_arr kvs M -> num_dicts kvs = 2 ^ num_dicts_bits kvs.
Proof. intros A. unfold num_dicts. apply Z.shiftl_1_l. Qed.

Lemma kvstoreGetDict_nat kvs i : kvstoreGetDict kvs (Z.of_nat i) = dicts kvs !! i.
Proof. unfold kvstoreGetDict. rewrite (proj2 (Z.ltb_ge _ 0)), Nat2Z.id by lia. done. Qed.

Lemma keys_in_size d m : d_rep d m -> d_size d = keys_in m.
Proof. apply l_size. Qed.

Lemma keys_in_nonneg M : Forall (Z.le 0) (keys_in <$> M).
Proof. apply Forall_fmap, Forall_true. intros m. unfold keys_in. cbn. lia. Qed.

(** *** Callbacks *)

(** [l'] differs from [l] at most in the membership of [z], which is [b]. *)
Record rehash_to (l : list Z) (z : Z) (b : bool) (l' : list Z) : Prop := {
  rt_nodup : NoDup l';
  rt_other y : y <> z -> y ∈ l' <-> y ∈ l;
  rt_this : z ∈ l' <-> b = true
}.

Lemma on_events_spec z es old b kvs :
  open_of old = Some b -> is_Some (open_of (es ++ old)) ->
  rehash_to (rehashing kvs) z b (rehashing kvs) -> in_u 64 (bucket_count kvs) ->
  exists l b', open_of (es ++ old) = Some b' /\ rehash_to (rehashing kvs) z b' l /\
    on_events z es kvs = set_bucket_count (set_rehashing kvs l) (u64 (bucket_count kvs + buckets_of es)).
Proof.
  intros Ho Hs Hl Hb. revert Hs. induction es as [|e es IH]; intros Hs.
  - exists (rehashing kvs), b. split; [done|]. split; [done|]. cbn. rewrite Z.add_0_r, wrapu_small by done.
    by destruct kvs.
  - assert (is_Some (open_of (es ++ old))) as Hs'.
    { destruct Hs as [x Hx]. destruct e; cbn in Hx; [case_match; try done; eauto..|eauto]. }
    destruct (IH Hs') as (l & b' & Hb' & [Hnd Ho' Ht] & E). cbn [on_events foldr app open_of buckets_of].
    change (foldr _ _ _) with (on_events z es kvs). rewrite E, Hb'. cbn [open_of app] in Hs. rewrite Hb' in Hs.
    destruct e; cbn [on_event].
    + destruct b'; [by destruct Hs|]. exists (l ++ [z]), true. split; [done|]. split; [|done].
      assert (z ∉ l) by (rewrite Ht; done). constructor.
      * apply NoDup_app. split; [done|]. split; [|apply NoDup_singleton].
        intros y Hy ->%list_elem_of_singleton. done.
      * intros y Hy. rewrite elem_of_app, list_elem_of_singleton, Ho' by done. naive_solver.
      * split; [done|]. intros _. apply elem_of_app. right. by apply list_elem_of_singleton.
    + destruct b'; [|by destruct Hs]. exists (filter (fun y : Z => y <> z) l), false. split; [done|]. split; [|done].
      constructor; [by apply NoDup_filter|..].
      * intros y Hy. rewrite list_elem_of_filter, Ho' by done. naive_solver.
      * rewrite list_elem_of_filter. naive_solver.
    + exists l, b'. split; [done|]. split; [done|]. unfold set_bucket_count; cbn. f_equal.
      unfold wrapu. rewrite Zplus_mod_idemp_l. f_equal. lia.
Qed.

Lemma on_events_weak z es kvs :
  in_u 64 (bucket_count kvs) ->
  exists l, on_events z es kvs = set_bucket_count (set_rehashing kvs l) (u64 (bucket_count kvs + buckets_of es)).
Proof.
  intros Hb. induction es as [|e es (l & E)].
  - exists (rehashing kvs). cbn. rewrite Z.add_0_r, wrapu_small by done. by destruct kvs.
  - cbn [on_events foldr]. change (foldr _ _ _) with (on_events z es kvs). rewrite E.
    destruct e; cbn [on_event buckets_of]; [by eexists..|]. exists l. unfold set_bucket_count; cbn. f_equal.
    unfold wrapu. rewrite Zplus_mod_idemp_l. f_equal. lia.
Qed.

Lemma kv_rehash_at kvs i od :
  kv_rehash kvs -> dicts kvs !! i = Some od ->
  rehash_to (rehashing kvs) (Z.of_nat i) (slot_rehashing od) (rehashing kvs).
Proof. intros R Hd. constructor; [apply R|done|by apply (kr_in _ R)]. Qed.

(** *** Changing a slot *)

Lemma kv_arr_set kvs kvs' M i od od' m' :
  kv_arr kvs M -> dicts kvs !! i = Some od -> slot_rep od' m' ->
  num_dicts_bits kvs' = num_dicts_bits kvs -> resize_cursor kvs' = resize_cursor kvs ->
  dicts kvs' = <[i := od']> (dicts kvs) ->
  allocated_dicts kvs' = i32 (allocated_dicts kvs + (slot_alloc od' - slot_alloc od)) ->
  bucket_count kvs' = u64 (bucket_count kvs + (slot_buckets od' - slot_buckets od)) ->
  kv_arr kvs' (<[i := m']> M).
Proof.
  intros A Hd Hr Eb Ec Ed Ea Eu. pose proof (kv_pow _ _ A) as Hp.
  destruct A as [Hb Hl Hf Ha Hu Hc]. constructor; rewrite ?Eb, ?Ec, ?Ed, ?length_insert; try done.
  - by apply Forall2_insert.
  - rewrite Ea, Ha, (zsum_fmap_insert _ _ _ _ _ Hd). apply Fwtree.i32_small.
    pose proof (zsum_fmap_bounds slot_alloc (dicts kvs) 1) as [??]; [intros [] _; cbn; lia|].
    destruct od, od'; cbn; lia.
  - rewrite Eu, Hu, (zsum_fmap_insert _ _ _ _ _ Hd). unfold wrapu. by rewrite Zplus_mod_idemp_l.
Qed.

Lemma kv_rehash_set kvs kvs' i od od' :
  kv_rehash kvs -> dicts kvs !! i = Some od -> dicts kvs' = <[i := od']> (dicts kvs) ->
  rehash_to (rehashing kvs) (Z.of_nat i) (slot_rehashing od') (rehashing kvs') -> kv_rehash kvs'.
Proof.
  intros [Hn Hi Hr] Hd Ed [Hn' Ho Ht]. pose proof (lookup_lt_Some _ _ _ Hd). constructor; [done|..].
  - intros j odj. rewrite Ed. destruct (decide (j = i)) as [->|Hne].
    + rewrite list_lookup_insert_eq by done. by intros [= <-].
    + rewrite list_lookup_insert_ne by done. intros Hj. rewrite Ho by lia. by apply Hi.
  - intros z Hz. rewrite Ed, length_insert. destruct (decide (z = Z.of_nat i)) as [->|Hne]; [lia|].
    apply Hr. by apply Ho.
Qed.

Lemma bucket_count_u kvs M : kv_arr kvs M -> in_u 64 (bucket_count kvs).
Proof. intros A. rewrite (ka_buckets _ _ A). apply Z.mod_pos_bound. lia. Qed.

(** An operation on an allocated dict. *)
Lemma update_dict_spec kvs M i d d' m m' :
  kv_arr kvs M -> kv_rehash kvs -> dicts kvs !! i = Some (Some d) -> d_rep d m -> d_step d_rep d d' m' ->
  let kvs' := update_dict kvs (Z.of_nat i) d d' in
  kv_arr kvs' (<[i := m']> M) /\ kv_rehash kvs' /\ same_counts kvs kvs' /\
  dicts kvs' = <[i := Some d']> (dicts kvs).
Proof.
  intros A R Hd Hm S. unfold update_dict. destruct (st_trace S) as [es Ees].
  pose proof (l_open d m Hm) as Ho. pose proof (l_open d' m' (st_rep S)) as Ho'.
  destruct (l_buckets d m Hm) as [Hb _]. destruct (l_buckets d' m' (st_rep S)) as [Hb' _].
  rewrite Ees in *. rewrite new_events_app.
  destruct (on_events_spec (Z.of_nat i) es (d_trace d) (d_is_rehashing d) (set_dict kvs (Z.of_nat i) (Some d')))
    as (l & b' & Hb1 & Hl & ->).
  - done.
  - rewrite Ho'. eauto.
  - exact (kv_rehash_at _ _ _ R Hd).
  - exact (bucket_count_u _ M A).
  - rewrite Ho' in Hb1. injection Hb1 as <-. unfold set_dict. rewrite Nat2Z.id.
    split; [|split; [|split; [by constructor|done]]].
    + eapply (kv_arr_set kvs _ M i (Some d) (Some d')); try done; [apply S|..].
      * cbn. rewrite Z.add_0_r, (ka_alloc _ _ A). symmetry. apply Fwtree.i32_small.
        pose proof (kv_pow _ _ A). pose proof (ka_len _ _ A).
        pose proof (zsum_fmap_bounds slot_alloc (dicts kvs) 1) as [??]; [intros [] _; cbn; lia|]. lia.
      * cbn. rewrite buckets_of_app in Hb'. f_equal. lia.
    + by eapply (kv_rehash_set kvs _ i (Some d) (Some d')).
Qed.

Lemma createDictIfNeeded_spec kvs M i m :
  kv_arr kvs M -> kv_rehash kvs -> M !! i = Some m ->
  exists d kvs', createDictIfNeeded kvs (Z.of_nat i) = Some (d, kvs') /\
    kv_arr kvs' M /\ kv_rehash kvs' /\ same_counts kvs kvs' /\
    dicts kvs' = <[i := Some d]> (dicts kvs) /\ d_rep d m.
Proof.
  intros A R Hm. destruct (kv_lookup _ _ _ _ A Hm) as (od & Hd & Hr).
  unfold createDictIfNeeded. rewrite kvstoreGetDict_nat, Hd. mred. destruct od as [d|].
  - exists d, kvs. split; [done|]. split; [done|]. split; [done|]. split; [done|].
    split; [by rewrite list_insert_id|done].
  - destruct l_create as (Hc & Ht & _). cbn in Hr. subst m.
    pose proof (l_open _ _ Hc) as Ho. destruct (l_buckets _ _ Hc) as [Hb _]. rewrite Ht in *.
    eexists d_create, _. split; [done|]. unfold set_dict. rewrite Nat2Z.id.
    split; [|split; [|split; [by constructor|done]]].
    + rewrite <- (list_insert_id M i ∅) by done.
      eapply (kv_arr_set kvs _ M i None (Some d_create)); try done. cbn in *.
      rewrite <- Hb, Z.add_0_r, wrapu_small; [done|by apply (bucket_count_u _ M)].
    + eapply (kv_rehash_set kvs _ i None (Some d_create)); try done.
      apply (kv_rehash_at _ _ _ R) in Hd as [Hn Hl Hz]. constructor; [done..|]. cbn in *.
      injection Ho as <-. done.
Qed.

(** *** The counters *)

(** Two stores that differ in their key counts. *)
Record same_slots kvs kvs' : Prop := {
  ss_dicts : dicts kvs' = dicts kvs;
  ss_bits : num_dicts_bits kvs' = num_dicts_bits kvs;
  ss_alloc : allocated_dicts kvs' = allocated_dicts kvs;
  ss_buckets : bucket_count kvs' = bucket_count kvs;
  ss_rehashing : rehashing kvs' = rehashing kvs;
  ss_cursor : resize_cursor kvs' = resize_cursor kvs;
  ss_free : free_empty kvs' = free_empty kvs;
  ss_demand : alloc_on_demand kvs' = alloc_on_demand kvs
}.

Lemma kv_arr_same kvs kvs' M : same_slots kvs kvs' -> kv_arr kvs M -> kv_arr kvs' M.
Proof. intros [] []. constructor; congruence. Qed.

Lemma kv_rehash_same kvs kvs' : same_slots kvs kvs' -> kv_rehash kvs -> kv_rehash kvs'.
Proof. intros [Ed _ _ _ Er _ _ _] []. constructor; rewrite ?Ed, ?Er; done. Qed.

Lemma keys_total_nonneg M : 0 <= Fwtree.zsum (keys_in <$> M).
Proof. apply Fwtree.zsum_nonneg, keys_in_nonneg. Qed.

Lemma kv_num_dicts kvs M : kv_keys kvs M -> num_dicts kvs = 2 ^ num_dicts_bits kvs /\
  (num_dicts kvs = 1 <-> dict_sizes kvs = None).
Proof.
  intros Kk. pose proof (kk_tree _ _ Kk) as Ht. unfold num_dicts. rewrite Z.shiftl_1_l. split; [done|].
  destruct (dict_sizes kvs); [|by rewrite Ht]. destruct Ht as [Hb _]. split; [|done].
  pose proof (Z.pow_gt_1 2 (num_dicts_bits kvs)). lia.
Qed.

Lemma cumulativeKeyCountAdd_spec kvs M i m m' d delta :
  kv_keys kvs M -> M !! i = Some m -> dicts kvs !! i = Some (Some d) ->
  keys_in m' = keys_in m + delta -> Fwtree.zsum (keys_in <$> M) + delta < UINT64_MAX ->
  - 2 ^ 63 < delta < 2 ^ 63 ->
  exists kvs', cumulativeKeyCountAdd kvs (Z.of_nat i) delta = Some kvs' /\
    kv_keys kvs' (<[i := m']> M) /\ same_slots kvs kvs' /\
    non_empty_dicts kvs' = i32 (non_empty_dicts kvs +
      if (d_size d =? 1) && (delta >? 0) then 1 else if d_size d =? 0 then -1 else 0).
Proof.
  intros Kk Hm Hd Hk Hf Hdelta. unfold cumulativeKeyCountAdd.
  change (kvstoreGetDict (set_key_count _ _) ?x) with (kvstoreGetDict kvs x).
  rewrite kvstoreGetDict_nat, Hd. mred. destruct (kv_num_dicts _ _ Kk) as [En Hone].
  pose proof (zsum_fmap_insert keys_in _ _ _ m' Hm) as Hz.
  pose proof (keys_total_nonneg (<[i := m']> M)).
  assert (u64 (key_count kvs + delta) = Fwtree.zsum (keys_in <$> <[i:=m']> M)) as Eu.
  { rewrite (kk_total _ _ Kk), Hz, Hk. replace (keys_in m + delta - keys_in m) with delta by lia.
    apply Fwtree.u64_small. lia. }
  change (num_dicts (set_non_empty _ _)) with (num_dicts kvs). pose proof (kk_tree _ _ Kk) as Ht.
  destruct (Z.eqb_spec (num_dicts kvs) 1) as [E1|E1].
  - eexists. split; [done|]. split; [|split; [by constructor|done]].
    constructor; [done|lia|]. cbn. rewrite (proj1 Hone E1) in *. done.
  - cbn [dict_sizes set_non_empty set_key_count]. destruct (dict_sizes kvs) as [ft|]; [|by destruct E1; apply Hone].
    destruct Ht as (Hb & Eb & Hr). mred.
    destruct (Fwtree.fwTreeUpdate_spec ft (keys_in <$> M) (Z.of_nat i) delta (keys_in m)) as (ft' & -> & Hr' & Eb');
      [done|by rewrite Nat2Z.id, list_lookup_fmap, Hm|lia|unfold keys_in in *; lia|lia|done|]. mred.
    rewrite Nat2Z.id, <- Hk, <- list_fmap_insert in Hr'.
    eexists. split; [done|]. split; [|split; [by constructor|done]].
    constructor; [done|lia|]. cbn. by rewrite Eb'.
Qed.

Context (canFreeDict : option (kvstore D -> Z -> bool)).

Lemma freeDictIfNeeded_spec kvs M i m :
  kv_arr kvs M -> M !! i = Some m ->
  exists kvs', freeDictIfNeeded canFreeDict kvs (Z.of_nat i) = Some kvs' /\
    kv_arr kvs' M /\ same_counts kvs kvs' /\ (kv_rehash kvs -> kv_rehash kvs') /\
    (kvs' = kvs \/ m = ∅ /\ dicts kvs' = <[i := None]> (dicts kvs)).
Proof.
  intros A Hm. destruct (kv_lookup _ _ _ _ A Hm) as (od & Hd & Hr).
  unfold freeDictIfNeeded. rewrite kvstoreGetDict_nat, Hd. mred. 
  assert (exists kvs', Some kvs = Some kvs' /\ kv_arr kvs' M /\ same_counts kvs kvs' /\
    (kv_rehash kvs -> kv_rehash kvs') /\ (kvs' = kvs \/ m = ∅ /\ dicts kvs' = <[i := None]> (dicts kvs))) as Hkeep
    by (exists kvs; split; [done|split; [done|split; [reflexivity|by auto]]]).
  destruct od as [d|]; [|done]. cbn in Hr. case_match eqn:Hc; [done|]. case_match; [done|].
  apply orb_false_iff in Hc as [[_ Hz]%orb_false_iff _]. apply negb_false_iff, Z.eqb_eq in Hz.
  rewrite (l_size d m Hr) in Hz. assert (m = ∅) as -> by (apply map_size_empty_inv; lia).
  destruct (l_release d ∅ Hr) as ([es Ees] & Hbr & Hor). destruct (l_buckets d ∅ Hr) as [Hb _].
  pose proof (l_open d ∅ Hr) as Ho. rewrite Ees in *. rewrite new_events_app. rewrite buckets_of_app in Hbr.
  assert (Z.of_nat i < 2 ^ num_dicts_bits kvs)
    by (rewrite <- (ka_len _ _ A); apply lookup_lt_Some in Hd; lia).
  rewrite <- (list_insert_id M i ∅ Hm).
  destruct (on_events_weak (Z.of_nat i) es kvs (bucket_count_u _ M A)) as (l & Ew). rewrite Ew.
  eexists. split; [done|]. unfold set_dict. rewrite Nat2Z.id.
  split; [|split; [by constructor|split; [|by right]]].
  - eapply (kv_arr_set kvs _ M i (Some d) None); try done. cbn. f_equal. lia.
  - intros R.
    destruct (on_events_spec (Z.of_nat i) es (d_trace d) (d_is_rehashing d) kvs) as (l' & b' & Hb1 & Hl & E);
      [done|by rewrite Hor|exact (kv_rehash_at _ _ _ R Hd)|exact (bucket_count_u _ M A)|].
    rewrite Ew in E. apply (f_equal rehashing) in E. cbn in E. subst l'.
    rewrite Hor in Hb1. injection Hb1 as <-. by eapply (kv_rehash_set kvs _ i (Some d) None).
Qed.

(** *** The operations on one dict *)

Lemma keys_in_le M i m : M !! i = Some m -> keys_in m <= Fwtree.zsum (keys_in <$> M).
Proof.
  intros Hm. pose proof (zsum_fmap_insert keys_in _ _ _ ∅ Hm). pose proof (keys_total_nonneg (<[i := ∅]> M)).
  change (keys_in ∅) with (Z.of_nat (size (∅ : gmap K V))) in *. rewrite map_size_empty in *. lia.
Qed.

Lemma non_empty_bounds M : 0 <= Fwtree.zsum (non_empty <$> M) <= Z.of_nat (length M).
Proof.
  destruct (zsum_fmap_bounds non_empty M 1); [|lia]. intros m _. unfold non_empty. case_match; lia.
Qed.

(** An operation that keeps the keys of a slot. *)
Lemma kv_wf_keep kvs kvs' M i m :
  kv_wf kvs M -> M !! i = Some m -> kv_arr kvs' (<[i := m]> M) -> kv_rehash kvs' -> same_counts kvs kvs' ->
  kv_wf kvs' M.
Proof.
  intros [A R Kk Hn] Hm A' R' S. rewrite list_insert_id in A' by done.
  constructor; [done..|by eapply kv_keys_same|]. by rewrite (sc_non_empty _ _ S).
Qed.

(** One that adds a key or removes one, once it is counted. *)
Lemma kv_wf_count kvs M i m m' d delta :
  kv_arr kvs (<[i := m']> M) -> kv_rehash kvs -> kv_keys kvs M ->
  non_empty_dicts kvs = Fwtree.zsum (non_empty <$> M) ->
  M !! i = Some m -> dicts kvs !! i = Some (Some d) -> d_rep d m' ->
  keys_in m' = keys_in m + delta -> Fwtree.zsum (keys_in <$> M) + delta < UINT64_MAX ->
  delta = 1 \/ delta = -1 ->
  exists kvs', cumulativeKeyCountAdd kvs (Z.of_nat i) delta = Some kvs' /\ kv_wf kvs' (<[i := m']> M).
Proof.
  intros A R Kk Hn Hm Hd Hr Hk Hf Hdelta.
  destruct (cumulativeKeyCountAdd_spec kvs M i m m' d delta) as (kvs' & -> & Kk' & S & Hn'); try done; [lia|].
  exists kvs'. split; [done|]. constructor; [by eapply kv_arr_same|by eapply kv_rehash_same|done|].
  rewrite Hn', Hn, (zsum_fmap_insert _ _ _ _ _ Hm), (keys_in_size _ _ Hr).
  pose proof (non_empty_bounds M). pose proof (kv_length _ _ A) as Hl. rewrite length_insert in Hl.
  pose proof (kv_pow _ _ A). assert (0 <= keys_in m /\ 0 <= keys_in m') as [] by (unfold keys_in; lia).
  assert ((if (keys_in m' =? 1) && (delta >? 0) then 1 else if keys_in m' =? 0 then -1 else 0) =
    non_empty m' - non_empty m) as ->.
  { unfold non_empty. rewrite Hk in *. destruct Hdelta as [-> | ->]; cbn; repeat case_match; bools; lia. }
  assert (forall x, 0 <= non_empty x <= 1) as Hb by (intros x; unfold non_empty; destruct (keys_in x =? 0); lia).
  pose proof (Hb m). pose proof (Hb m'). apply Fwtree.i32_small. lia.
Qed.

Lemma kv_wf_update kvs M i m d d' :
  kv_wf kvs M -> M !! i = Some m -> dicts kvs !! i = Some (Some d) -> d_step d_rep d d' m ->
  kv_wf (update_dict kvs (Z.of_nat i) d d') M /\
  dicts (update_dict kvs (Z.of_nat i) d d') !! i = Some (Some d').
Proof.
  intros W Hm Hd S. pose proof W as [A R _ _].
  destruct (kv_lookup _ _ _ _ A Hm) as (od & Hd' & Hr). simplify_eq.
  destruct (update_dict_spec kvs M i d d' m m A R Hd Hr S) as (A' & R' & S' & ->).
  split; [by eapply kv_wf_keep|]. apply list_lookup_insert_eq. by eapply lookup_lt_Some.
Qed.

Lemma kv_wf_create kvs M i m :
  kv_wf kvs M -> M !! i = Some m ->
  exists d kvs', createDictIfNeeded kvs (Z.of_nat i) = Some (d, kvs') /\
    kv_wf kvs' M /\ dicts kvs' !! i = Some (Some d) /\ d_rep d m /\ same_counts kvs kvs'.
Proof.
  intros W Hm. pose proof W as [A R Kk Hn].
  destruct (createDictIfNeeded_spec kvs M i m A R Hm) as (d & kvs' & -> & A' & R' & S & Ed & Hr).
  exists d, kvs'. split; [done|]. split; [|split; [|done]].
  - constructor; [done..|by eapply kv_keys_same|]. by rewrite (sc_non_empty _ _ S).
  - rewrite Ed. apply list_lookup_insert_eq. destruct (kv_lookup _ _ _ _ A Hm) as (? & ? & _).
    by eapply lookup_lt_Some.
Qed.

Lemma kvstoreDictAddRaw_spec kvs M i m k v :
  kv_wf kvs M -> M !! i = Some m -> Fwtree.zsum (keys_in <$> M) + 1 < UINT64_MAX ->
  exists kvs', kvstoreDictAddRaw kvs (Z.of_nat i) k v = Some (bool_decide (m !! k = None), kvs') /\
    kv_wf kvs' (<[i := match m !! k with Some _ => m | None => <[k := v]> m end]> M).
Proof.
  intros W Hm Hf. pose proof W as [A R Kk Hn]. unfold kvstoreDictAddRaw. pose proof (keys_in_le _ _ _ Hm).
  destruct (kv_wf_create kvs M i m W Hm) as (d & kvs1 & -> & W1 & Hd1 & Hr & S1). mred.
  destruct (l_add d m k v Hr) as (d' & -> & S); [unfold keys_in, UINT64_MAX in *; lia|]. mred.
  pose proof W1 as [A1 R1 Kk1 Hn1].
  destruct (update_dict_spec kvs1 M i d d' m _ A1 R1 Hd1 Hr S) as (A2 & R2 & S2 & Ed2).
  assert (same_counts kvs (update_dict kvs1 (Z.of_nat i) d d')) as S3 by by etrans.
  pose proof (kv_keys_same _ _ _ S3 Kk) as Kk3.
  destruct (m !! k) as [w|] eqn:Hk; cbn [bool_decide].
  - rewrite bool_decide_false by done. mred. eexists. split; [done|].
    rewrite (list_insert_id _ _ _ Hm). by eapply kv_wf_keep.
  - rewrite bool_decide_true by done.
    destruct (kv_wf_count (update_dict kvs1 (Z.of_nat i) d d') M i m (<[k:=v]> m) d' 1) as (kvs' & -> & W');
      try done; [by rewrite (sc_non_empty _ _ S3)| | | |by left|by exists kvs'].
    + rewrite Ed2. apply list_lookup_insert_eq. by eapply lookup_lt_Some.
    + apply S.
    + unfold keys_in. rewrite map_size_insert_None by done. lia.
Qed.

Lemma kvstoreDictDelete_spec kvs M i m k :
  kv_wf kvs M -> M !! i = Some m ->
  exists kvs', kvstoreDictDelete canFreeDict kvs (Z.of_nat i) k =
      Some (match m !! k with Some _ => DICT_OK | None => DICT_ERR end, kvs') /\
    kv_wf kvs' (<[i := delete k m]> M).
Proof.
  intros W Hm. pose proof W as [A R Kk Hn]. unfold kvstoreDictDelete. pose proof (keys_in_le _ _ _ Hm).
  destruct (kv_lookup _ _ _ _ A Hm) as (od & Hd & Hr). rewrite kvstoreGetDict_nat, Hd. mred.
  destruct od as [d|]; cbn in Hr.
  2: { subst m. rewrite lookup_empty, delete_empty, list_insert_id by done. by exists kvs. }
  destruct (l_delete d m k Hr) as (d' & -> & S). mred.
  destruct (update_dict_spec kvs M i d d' m _ A R Hd Hr S) as (A2 & R2 & S2 & Ed2).
  destruct (m !! k) as [w|] eqn:Hk.
  - rewrite Z.eqb_refl.
    destruct (kv_wf_count (update_dict kvs (Z.of_nat i) d d') M i m (delete k m) d' (-1)) as (kvs1 & -> & W');
      try done; [by eapply kv_keys_same|by rewrite (sc_non_empty _ _ S2)| | | | |by right|].
    + rewrite Ed2. apply list_lookup_insert_eq. by eapply lookup_lt_Some.
    + apply S.
    + unfold keys_in. assert (size (<[k := w]> (delete k m)) = Datatypes.S (size (delete k m))) as Hs
        by (apply map_size_insert_None, lookup_delete_eq).
      rewrite insert_delete_id in Hs by done. lia.
    + pose proof (kk_fits _ _ Kk). lia.
    + mred. pose proof W' as [A3 R3 K3 N3].
      destruct (freeDictIfNeeded_spec kvs1 _ i (delete k m) A3) as (kvs2 & -> & A4 & S4 & R4 & _).
      { apply list_lookup_insert_eq. by eapply lookup_lt_Some. }
      mred. exists kvs2. split; [done|]. constructor; [done|by apply R4|by eapply kv_keys_same|].
      by rewrite (sc_non_empty _ _ S4).
  - mred. eexists. split; [done|]. rewrite (delete_id _ _ Hk) in *. rewrite (list_insert_id _ _ _ Hm).
    by eapply kv_wf_keep.
Qed.

Lemma kvstoreDictFind_spec kvs M i m k :
  kv_wf kvs M -> M !! i = Some m ->
  exists kvs', kvstoreDictFind kvs (Z.of_nat i) k = Some ((fun v => (k, v)) <$> m !! k, kvs') /\ kv_wf kvs' M.
Proof.
  intros W Hm. destruct (kv_lookup _ _ _ _ (kw_arr _ _ W) Hm) as (od & Hd & Hr).
  unfold kvstoreDictFind. rewrite kvstoreGetDict_nat, Hd. mred. destruct od as [d|]; cbn in Hr.
  - destruct (l_find d m k Hr) as (d' & -> & S). mred. eexists. split; [done|].
    by eapply kv_wf_update.
  - subst m. rewrite lookup_empty. by exists kvs.
Qed.

Lemma kvstoreDictExpand_spec kvs M i m n :
  kv_wf kvs M -> M !! i = Some m ->
  exists r kvs', kvstoreDictExpand kvs (Z.of_nat i) n = Some (r, kvs') /\ kv_wf kvs' M.
Proof.
  intros W Hm. unfold kvstoreDictExpand.
  destruct (kv_wf_create kvs M i m W Hm) as (d & kvs1 & -> & W1 & Hd1 & Hr & _). mred.
  destruct (l_expand d m n Hr) as (r & d' & -> & S). mred. exists r. eexists. split; [done|].
  by eapply kv_wf_update.
Qed.

(** *** The operations on every dict *)

Lemma kv_slot kvs M i : kv_arr kvs M -> (Z.of_nat i < 2 ^ num_dicts_bits kvs)%Z -> exists m, M !! i = Some m.
Proof. intros A Hi. apply lookup_lt_is_Some_2. pose proof (kv_length _ _ A). lia. Qed.

Lemma expand_loop_spec n i kvs M size try_expand skip_cb :
  kv_wf kvs M -> (i + n <= length M)%nat ->
  exists r kvs', expand_loop n (Z.of_nat i) kvs size try_expand skip_cb = Some (r, kvs') /\ kv_wf kvs' M.
Proof.
  revert i kvs. induction n as [|n IH]; intros i kvs W Hi; [by eexists _, kvs|]. cbn [expand_loop].
  replace (Z.of_nat i + 1) with (Z.of_nat (Datatypes.S i)) by lia. case_match; [by apply IH; [|lia]|].
  destruct (lookup_lt_is_Some_2 M i) as [m Hm]; [lia|].
  destruct (kv_wf_create kvs M i m W Hm) as (d & kvs1 & -> & W1 & Hd1 & Hr & _). mred.
  assert (exists r d', match try_expand with Some f => d_try_expand d size (f (Z.of_nat i)) | None => d_expand d size end
      = Some (r, d') /\ d_step d_rep d d' m) as (r & d' & -> & S)
    by (destruct try_expand; [by apply l_try_expand|by apply l_expand]). mred.
  destruct (kv_wf_update kvs1 M i m d d' W1 Hm Hd1 S) as [W2 _].
  destruct (_ && (r =? DICT_ERR)); [by eexists _, _|]. apply IH; [done|lia].
Qed.

Lemma kvstoreExpand_spec kvs M size try_expand skip_cb :
  kv_wf kvs M ->
  exists r kvs', kvstoreExpand kvs size try_expand skip_cb = Some (r, kvs') /\ kv_wf kvs' M.
Proof.
  intros W. pose proof (kw_arr _ _ W) as A. apply (expand_loop_spec _ 0); [done|].
  rewrite (num_dicts_pow _ _ A), <- (kv_length _ _ A). lia.
Qed.

Lemma kv_wf_cursor kvs M c :
  kv_wf kvs M -> 0 <= c < 2 ^ num_dicts_bits kvs -> kv_wf (set_resize_cursor kvs c) M.
Proof. intros [[] [] [] ?] Hc. constructor; [by constructor..|done]. Qed.

Lemma resize_dict_spec kvs M i m :
  kv_wf kvs M -> M !! i = Some m -> exists kvs', resize_dict kvs (Z.of_nat i) = Some kvs' /\ kv_wf kvs' M.
Proof.
  intros W Hm. destruct (kv_lookup _ _ _ _ (kw_arr _ _ W) Hm) as (od & Hd & Hr).
  unfold resize_dict. rewrite kvstoreGetDict_nat, Hd. mred.
  destruct od as [d|]; [|by exists kvs]. destruct (l_shrink_if_needed d m Hr) as (r & d' & -> & S). mred.
  destruct (kv_wf_update kvs M i m d d' W Hm Hd S) as [W1 Hd1]. case_match; [|by eexists].
  destruct (l_expand_if_needed d' m (st_rep S)) as (r2 & d2 & -> & S2). mred. eexists. split; [done|].
  by eapply kv_wf_update.
Qed.

Lemma try_resize_spec n kvs M :
  kv_wf kvs M -> exists kvs', try_resize n kvs = Some kvs' /\ kv_wf kvs' M.
Proof.
  revert kvs. induction n as [|n IH]; intros kvs W; [by exists kvs|]. cbn [try_resize].
  pose proof (kw_arr _ _ W) as A. pose proof (ka_cursor _ _ A) as Hc.
  assert (exists i, resize_cursor kvs = Z.of_nat i) as [i Ei] by (exists (Z.to_nat (resize_cursor kvs)); lia).
  rewrite Ei in *. destruct (kv_slot kvs M i A) as [m Hm]; [lia|].
  destruct (resize_dict_spec kvs M i m W Hm) as (kvs' & -> & W'). mred.
  apply IH, kv_wf_cursor; [done|]. rewrite (num_dicts_pow _ _ (kw_arr _ _ W')).
  apply Z.mod_pos_bound. pose proof (kv_pow _ _ (kw_arr _ _ W')). lia.
Qed.

Lemma kvstoreTryResizeDicts_spec kvs M limit :
  kv_wf kvs M -> exists kvs', kvstoreTryResizeDicts kvs limit = Some kvs' /\ kv_wf kvs' M.
Proof. apply try_resize_spec. Qed.

(** *** Creation and emptying *)

Lemma for_dicts_rule (P : nat -> kvstore D -> Prop) body n i kvs :
  P i kvs ->
  (forall j kvs, (i <= j < i + n)%nat -> P j kvs ->
     exists kvs', body (Z.of_nat j) kvs = Some kvs' /\ P (Datatypes.S j) kvs') ->
  exists kvs', for_dicts n (Z.of_nat i) body kvs = Some kvs' /\ P (i + n)%nat kvs'.
Proof.
  revert i kvs. induction n as [|n IH]; intros i kvs HP Hbody.
  - exists kvs. by rewrite Nat.add_0_r.
  - cbn [for_dicts]. destruct (Hbody i kvs) as (kvs1 & -> & HP1); [lia|done|]. mred.
    replace (Z.of_nat i + 1) with (Z.of_nat (Datatypes.S i)) by lia.
    destruct (IH (Datatypes.S i) kvs1 HP1) as (kvs' & -> & HP'); [intros; apply Hbody; [lia|done]|].
    exists kvs'. split; [done|]. by replace (i + Datatypes.S n)%nat with (Datatypes.S i + n)%nat by lia.
Qed.

Lemma keys_in_empty : keys_in ∅ = 0.
Proof. unfold keys_in. by rewrite map_size_empty. Qed.

Lemma keys_in_replicate n : keys_in <$> replicate n ∅ = replicate n 0.
Proof. by rewrite fmap_replicate, keys_in_empty. Qed.

Lemma kv_keys_empty kvs n :
  key_count kvs = 0 ->
  match dict_sizes kvs with
  | Some ft => 0 < num_dicts_bits kvs /\ Fwtree.ft_size_bits ft = num_dicts_bits kvs /\
      Fwtree.repr ft (replicate n 0)
  | None => num_dicts_bits kvs = 0
  end -> kv_keys kvs (replicate n ∅).
Proof.
  intros Hk Ht. constructor; rewrite keys_in_replicate, ?Fwtree.zsum_replicate_0; done.
Qed.

Lemma non_empty_replicate n : Fwtree.zsum (non_empty <$> replicate n ∅) = 0.
Proof.
  rewrite fmap_replicate. unfold non_empty. rewrite keys_in_empty. apply Fwtree.zsum_replicate_0.
Qed.

Lemma kvstoreCreate_spec b on_demand free :
  0 <= b <= 16 ->
  exists kvs, kvstoreCreate b on_demand free = Some kvs /\
    kv_wf kvs (replicate (Z.to_nat (2 ^ b)) ∅) /\ num_dicts_bits kvs = b.
Proof.
  intros Hb. unfold kvstoreCreate, cassert. rewrite (proj2 (Z.leb_le b 16)) by lia. mred.
  rewrite Z.shiftl_1_l. pose proof (Z.pow_pos_nonneg 2 b). set (N := Z.to_nat (2 ^ b)).
  set (kvs0 := mk_kvs on_demand free (replicate N None) b [] 0 0 0 0 0 None).
  assert (kv_arr kvs0 (replicate N ∅)) as A0.
  { constructor; cbn; rewrite ?length_replicate, ?fmap_replicate, ?Fwtree.zsum_replicate_0; try done; try lia.
    apply Forall2_replicate. done. }
  assert (kv_rehash kvs0) as R0.
  { constructor; cbn; [constructor|..].
    - intros i od [-> _]%lookup_replicate. split; [by intros ?%not_elem_of_nil|done].
    - by intros z ?%not_elem_of_nil. }
  assert (exists kvs, (if negb on_demand
      then for_dicts N 0 (fun j kvs => snd <$> createDictIfNeeded kvs j) kvs0 else Some kvs0) = Some kvs /\
    kv_arr kvs (replicate N ∅) /\ kv_rehash kvs /\ same_counts kvs0 kvs) as (kvs & -> & A & R & S).
  { destruct on_demand; [by exists kvs0|]. cbn [negb].
    apply (for_dicts_rule (fun _ kvs => kv_arr kvs (replicate N ∅) /\ kv_rehash kvs /\ same_counts kvs0 kvs) _ _ 0); [done|].
    intros j kvs Hj (A & R & S).
    destruct (createDictIfNeeded_spec kvs (replicate N ∅) j ∅ A R) as (d & kvs' & -> & A' & R' & S' & _);
      [by apply lookup_replicate_2; lia|].
    exists kvs'. split; [done|]. split; [done|]. split; [done|by etrans]. }
  mred. eexists. split; [done|]. destruct S as [Sb Sk Sn _ _]. cbn in Sb, Sk, Sn. split; [|done].
  constructor; [by destruct A|by destruct R| |by rewrite non_empty_replicate].
  apply kv_keys_empty; [done|]. cbn. rewrite Sb.
  destruct (Z.gtb_spec (2 ^ b) 1) as [Hg|Hg].
  - assert (0 < b) by (destruct (Z.eq_dec b 0) as [->|]; [done|lia]). split; [done|]. split; [done|].
    apply Fwtree.fwTreeCreate_repr. lia.
  - destruct (Z.eq_dec b 0) as [|]; [done|]. pose proof (Z.pow_gt_1 2 b). lia.
Qed.

(** The slots before [j] are emptied. *)
Definition emptied j M : list (gmap K V) := replicate j ∅ ++ drop j M.

Lemma emptied_lookup j M m : M !! j = Some m -> emptied j M !! j = Some m.
Proof.
  intros Hm. unfold emptied. rewrite lookup_app_r, length_replicate, Nat.sub_diag by (rewrite length_replicate; lia).
  rewrite lookup_drop, Nat.add_0_r. done.
Qed.

Lemma emptied_succ j M m : M !! j = Some m -> <[j := ∅]> (emptied j M) = emptied (Datatypes.S j) M.
Proof.
  intros Hm. unfold emptied. rewrite (drop_S _ _ _ Hm), insert_app_r_alt, length_replicate, Nat.sub_diag
    by (rewrite length_replicate; lia).
  by rewrite replicate_S_end, <- (assoc_L (++)).
Qed.

Definition idle od : Prop := slot_rehashing od = false /\ slot_buckets od = 0.

Lemma empty_dict_spec kvs M j m :
  kv_arr kvs (emptied j M) -> M !! j = Some m ->
  exists kvs' od, empty_dict canFreeDict (Z.of_nat j) kvs = Some kvs' /\
    kv_arr kvs' (emptied (Datatypes.S j) M) /\ same_counts kvs kvs' /\
    dicts kvs' = <[j := od]> (dicts kvs) /\ idle od.
Proof.
  intros A Hm. pose proof (emptied_lookup _ _ _ Hm) as Hm'.
  destruct (kv_lookup _ _ _ _ A Hm') as (od & Hd & Hr).
  unfold empty_dict. rewrite kvstoreGetDict_nat, Hd. mred. destruct od as [d|]; cbn in Hr.
  2: { exists kvs, None. subst m. rewrite <- (emptied_succ _ _ _ Hm), list_insert_id, list_insert_id by done. done. }
  destruct (l_empty d m Hr) as (Hr' & [es Ees] & _ & Hi & Hz).
  destruct (l_buckets d m Hr) as [Hb _]. destruct (l_buckets _ _ Hr') as [Hb' _].
  unfold update_dict. rewrite Ees in *. rewrite new_events_app, buckets_of_app in *.
  destruct (on_events_weak (Z.of_nat j) es (set_dict kvs (Z.of_nat j) (Some (d_empty d)))) as (l & ->);
    [exact (bucket_count_u _ _ A)|].
  unfold set_dict. rewrite Nat2Z.id. set (kvs1 := set_rehashing _ _).
  assert (kv_arr kvs1 (emptied (Datatypes.S j) M)) as A1.
  { rewrite <- (emptied_succ _ _ _ Hm). eapply (kv_arr_set kvs _ _ j (Some d) (Some (d_empty d))); try done.
    - cbn. rewrite Z.add_0_r, (ka_alloc _ _ A). symmetry. apply Fwtree.i32_small.
      pose proof (kv_pow _ _ A). pose proof (ka_len _ _ A).
      pose proof (zsum_fmap_bounds slot_alloc (dicts kvs) 1) as [??]; [intros [] _; cbn; lia|]. lia.
    - cbn. f_equal. lia. }
  assert (j < length (dicts kvs))%nat by (by eapply lookup_lt_Some).
  destruct (freeDictIfNeeded_spec kvs1 _ j ∅ A1) as (kvs2 & -> & A2 & S2 & _ & Hsame).
  { rewrite <- (emptied_succ _ _ _ Hm). apply list_lookup_insert_eq. by eapply lookup_lt_Some. }
  assert (same_counts kvs kvs1) as S1 by by constructor.
  destruct Hsame as [-> | [_ Ed]].
  - exists kvs1, (Some (d_empty d)). split; [done|]. split; [done|]. split; [by etrans|]. done.
  - exists kvs2, None. split; [done|]. split; [done|]. split; [by etrans|]. split; [|done].
    rewrite Ed. cbn. by rewrite list_insert_insert_eq.
Qed.

Lemma kvstoreEmpty_spec kvs M :
  kv_wf kvs M ->
  exists kvs', kvstoreEmpty canFreeDict kvs = Some kvs' /\ kv_wf kvs' (replicate (length M) ∅).
Proof.
  intros W. pose proof W as [A _ Kk _]. unfold kvstoreEmpty.
  rewrite (num_dicts_pow _ _ A), <- (kv_length _ _ A), Nat2Z.id.
  destruct (for_dicts_rule (fun j kvs' => kv_arr kvs' (emptied j M) /\ same_counts kvs kvs' /\
      forall i od, (i < j)%nat -> dicts kvs' !! i = Some od -> idle od)
    (empty_dict canFreeDict) (length M) 0 kvs) as (kvs1 & E & A1 & S1 & I1).
  - split; [done|]. split; [reflexivity|]. lia.
  - intros j kvs1 Hj (A1 & S1 & I1). destruct (lookup_lt_is_Some_2 M j) as [m Hm]; [lia|].
    destruct (empty_dict_spec kvs1 M j m A1 Hm) as (kvs2 & od & -> & A2 & S2 & Ed & Ho).
    exists kvs2. split; [done|]. split; [done|]. split; [by etrans|]. intros i odi Hi. rewrite Ed.
    destruct (decide (i = j)) as [->|Hne].
    + destruct (kv_lookup _ _ _ _ A1 (emptied_lookup _ _ _ Hm)) as (odj & Hdj & _).
      rewrite list_lookup_insert_eq by (by eapply lookup_lt_Some). by intros [= <-].
    + rewrite list_lookup_insert_ne by done. apply I1. lia.
  - change (Z.of_nat 0) with 0 in E. rewrite E. mred. eexists. split; [done|]. cbn [Nat.add] in *.
    unfold emptied in A1. rewrite drop_all, app_nil_r in A1.
    pose proof (Forall2_length _ _ _ (ka_rep _ _ A1)) as Hlen. rewrite length_replicate in Hlen.
    assert (forall i od, dicts kvs1 !! i = Some od -> idle od) as I2.
    { intros i od Hi. apply (I1 i); [|done]. rewrite <- Hlen. by eapply lookup_lt_Some. }
    constructor.
    + pose proof (kv_pow _ _ A1). destruct A1. constructor; try done; [|cbn; lia]. cbn [bucket_count dicts set_dict_sizes set_bucket_count set_resize_cursor set_non_empty set_key_count set_rehashing].
      destruct (zsum_fmap_bounds slot_buckets (dicts kvs1) 0) as [??]; [|by replace (Fwtree.zsum _) with 0 by lia].
      intros od [i Hi]%list_elem_of_lookup. destruct (I2 _ _ Hi) as [_ ->]. lia.
    + constructor; cbn; [constructor|..].
      * intros i od Hi. destruct (I2 _ _ Hi) as [-> _]. split; [by intros ?%not_elem_of_nil|done].
      * by intros z ?%not_elem_of_nil.
    + apply kv_keys_empty; [done|]. pose proof (kk_tree _ _ Kk) as Ht. cbn.
      rewrite (sc_tree _ _ S1), (sc_bits _ _ S1). destruct (dict_sizes kvs) as [ft|]; [|done].
      destruct Ht as (? & ? & Hr). split; [done|]. split; [done|].
      apply Fwtree.fwTreeClear_repr in Hr. by rewrite length_fmap in Hr.
    + by rewrite non_empty_replicate.
Qed.

(** *** Access by index *)

Lemma repr_size_length ft M :
  Fwtree.repr ft (keys_in <$> M) -> Fwtree.ft_size ft = Z.of_nat (length M).
Proof. intros Hr. by rewrite <- (Fwtree.repr_len _ _ Hr), length_fmap. Qed.

Lemma keys_in_zero m : keys_in m = 0 <-> m = ∅.
Proof.
  unfold keys_in. split; [|by intros ->; rewrite map_size_empty].
  intros. apply map_size_empty_inv. lia.
Qed.

(** The first slot after [i] that has keys, if any. *)
Definition next_slot M i (r : Z) : Prop :=
  (r = -1 /\ forall j m, (i < j)%nat -> M !! j = Some m -> m = ∅) \/
  (exists j, r = Z.of_nat j /\ (i < j < length M)%nat /\
     (exists m, M !! j = Some m /\ m <> ∅) /\
     forall j' m, (i < j' < j)%nat -> M !! j' = Some m -> m = ∅).

Lemma kvstoreGetNextNonEmptyDictIndex_spec kvs M i :
  kv_wf kvs M -> (i < length M)%nat ->
  exists r, kvstoreGetNextNonEmptyDictIndex kvs (Z.of_nat i) = Some r /\ next_slot M i r.
Proof.
  intros W Hi. pose proof W as [A _ Kk _]. unfold kvstoreGetNextNonEmptyDictIndex.
  pose proof (num_dicts_pow _ _ A). pose proof (kv_length _ _ A). destruct (kv_num_dicts _ _ Kk) as [_ Hone].
  destruct (Z.eqb_spec (num_dicts kvs) 1) as [E|E].
  - unfold cassert. rewrite (proj2 (Z.eqb_eq _ 0)) by lia. mred. eexists. split; [done|]. left.
    split; [done|]. intros j m Hj Hm%lookup_lt_Some. lia.
  - pose proof (kk_tree _ _ Kk) as Ht. destruct (dict_sizes kvs) as [ft|]; [|by destruct E; apply Hone].
    destruct Ht as (_ & _ & Hr). mred. pose proof (repr_size_length ft M Hr) as Hs.
    destruct (Fwtree.fwTreeFindNextNonEmpty_correct ft _ (Z.of_nat i) Hr) as (r & -> & Hspec);
      [lia|apply Kk|]. exists r. split; [done|].
    assert (forall j m, M !! j = Some m -> (keys_in <$> M) !! j = Some (keys_in m)) as Hk
      by (intros j m Hm; by rewrite list_lookup_fmap, Hm).
    destruct Hspec as [[-> Hall]|(Hlt & (x & Hx & Hpos) & Hall)]; [left|right].
    + split; [done|]. intros j m Hj Hm. apply keys_in_zero, (Hall j); [lia|by apply Hk].
    + exists (Z.to_nat r). split; [lia|]. rewrite list_lookup_fmap in Hx.
      destruct (M !! Z.to_nat r) as [m|] eqn:Hm; [|done]. injection Hx as Hx.
      pose proof (lookup_lt_Some _ _ _ Hm). split; [lia|]. split.
      * exists m. split; [done|]. intros ->. rewrite keys_in_empty in Hx. lia.
      * intros j' m' Hj' Hm'. apply keys_in_zero, (Hall j'); [lia|by apply Hk].
Qed.

(** *** Scanning *)

(** The cursor of slot [i] at cursor [c] of its dict. *)
Definition cursor_at (b : Z) i (c : Z) : Z := c * 2 ^ b + Z.of_nat i.

Lemma cursor_at_encode kvs M i c :
  kv_arr kvs M -> (i < length M)%nat -> 0 <= c < 2 ^ 48 ->
  addDictIndexToCursor kvs (Z.of_nat i) c = cursor_at (num_dicts_bits kvs) i c.
Proof.
  intros A Hi Hc. unfold addDictIndexToCursor, cursor_at. pose proof (ka_bits _ _ A).
  pose proof (kv_length _ _ A). pose proof (kv_pow _ _ A). rewrite (num_dicts_pow _ _ A).
  destruct (Z.eqb_spec (2 ^ num_dicts_bits kvs) 1) as [E|E]; [rewrite E; lia|].
  rewrite (proj2 (Z.ltb_ge _ 0)), Z.shiftl_mul_pow2 by lia.
  assert (0 <= c * 2 ^ num_dicts_bits kvs < 2 ^ 64) by (split; [nia|]; pose proof (Z.mul_le_mono_nonneg_l (2 ^ num_dicts_bits kvs) 65536 c); lia).
  rewrite !wrapu_small by (unfold in_u; lia). rewrite Z.lor_comm. symmetry. rewrite Z.add_comm.
  apply Z.add_nocarry_lor. apply Z.bits_inj'. intros n Hn. rewrite Z.land_spec, Z.bits_0.
  destruct (Z_lt_le_dec n (num_dicts_bits kvs)).
  - rewrite (Z.mul_pow2_bits_low _ _ _ l). apply andb_false_r.
  - rewrite <- (Z.mod_small (Z.of_nat i) (2 ^ num_dicts_bits kvs)), Z.mod_pow2_bits_high by lia. done.
Qed.

Lemma cursor_at_decode kvs M i c :
  kv_arr kvs M -> (i < length M)%nat -> 0 <= c ->
  getAndClearDictIndexFromCursor kvs (cursor_at (num_dicts_bits kvs) i c) = (Z.of_nat i, c).
Proof.
  intros A Hi Hc. unfold getAndClearDictIndexFromCursor, cursor_at. pose proof (ka_bits _ _ A).
  pose proof (kv_length _ _ A). pose proof (kv_pow _ _ A). rewrite (num_dicts_pow _ _ A).
  destruct (Z.eqb_spec (2 ^ num_dicts_bits kvs) 1) as [E|].
  - rewrite E. f_equal; lia.
  - replace (2 ^ num_dicts_bits kvs - 1) with (Z.ones (num_dicts_bits kvs)) by (rewrite Z.ones_equiv; lia).
    rewrite Z.land_ones, Z.shiftr_div_pow2, Z.add_comm, Z.mod_add, Z.mod_small, Z.div_add, Z.div_small by lia.
    rewrite Fwtree.i32_small by lia. done.
Qed.

(** No dict has more buckets than the 48 bits of the cursor can count. *)
Definition scan_fits kvs : Prop := forall i d, dicts kvs !! i = Some (Some d) -> d_buckets d <= 2 ^ 48.

(** Where a scan goes on from. *)
Definition goes_on kvs M i (c cursor : Z) : Prop :=
  if c =? 0
  then exists r, next_slot M i r /\ cursor = if r =? -1 then 0 else cursor_at (num_dicts_bits kvs) (Z.to_nat r) 0
  else 0 < c < 2 ^ 48 /\ cursor = cursor_at (num_dicts_bits kvs) i c.

Lemma kvstoreScan_spec kvs M i c :
  kv_wf kvs M -> scan_fits kvs -> (i < length M)%nat -> 0 <= c ->
  exists es c' cursor kvs' od,
    kvstoreScan canFreeDict kvs (cursor_at (num_dicts_bits kvs) i c) (-1) None = Some (es, cursor, kvs') /\
    kv_wf kvs' M /\ same_counts kvs kvs' /\ goes_on kvs M i c' cursor /\ dicts kvs !! i = Some od /\
    match od with Some d => d_scan d c = Some (es, c') | None => es = [] /\ c' = 0 end.
Proof.
  intros W Hfits Hi Hc. pose proof W as [A R Kk Hn]. unfold kvstoreScan.
  rewrite (cursor_at_decode _ _ _ _ A Hi Hc). cbn [Z.geb Z.compare andb]. mred.
  destruct (lookup_lt_is_Some_2 M i Hi) as [m Hm]. destruct (kv_lookup _ _ _ _ A Hm) as (od & Hd & Hr).
  rewrite kvstoreGetDict_nat, Hd. mred.
  assert (forall kvs', kv_wf kvs' M -> same_counts kvs kvs' -> forall es : list (K * V),
    exists cursor, (didx ← kvstoreGetNextNonEmptyDictIndex kvs' (Z.of_nat i);
      if didx =? -1 then Some (es, 0, kvs') else Some (es, addDictIndexToCursor kvs' didx 0, kvs')) =
      Some (es, cursor, kvs') /\ goes_on kvs M i 0 cursor) as Hnext.
  { intros kvs' W' S' es. destruct (kvstoreGetNextNonEmptyDictIndex_spec kvs' M i W' Hi) as (r & -> & Hs). mred.
    unfold goes_on. cbn [Z.eqb]. destruct (Z.eqb_spec r (-1)) as [->|Hne].
    - exists 0. split; [done|]. by exists (-1).
    - destruct Hs as [[-> _]|(j & -> & Hj & Hrest)]; [done|].
      exists (cursor_at (num_dicts_bits kvs) j 0). rewrite (cursor_at_encode _ _ _ _ (kw_arr _ _ W')) by lia.
      rewrite (sc_bits _ _ S'). split; [done|]. exists (Z.of_nat j). rewrite (proj2 (Z.eqb_neq _ _)), Nat2Z.id by lia.
      split; [|done]. right. by exists j. }
  destruct od as [d|].
  - cbn in Hr. destruct (l_scan d m c Hr) as (es & c' & Hscan & Hc' & Hb). rewrite Hscan. mred.
    specialize (Hb 48 ltac:(lia) (Hfits _ _ Hd)).
    destruct (freeDictIfNeeded_spec kvs M i m A Hm) as (kvs' & -> & A' & S' & R' & _). mred.
    assert (kv_wf kvs' M) as W'.
    { constructor; [done|by apply R'|by eapply kv_keys_same|by rewrite (sc_non_empty _ _ S')]. }
    rewrite orb_false_r. unfold goes_on. destruct (Z.eqb_spec c' 0) as [->|Hne].
    + destruct (Hnext kvs' W' S' es) as (cursor & -> & Hg). by exists es, 0, cursor, kvs', (Some d).
    + exists es, c', (cursor_at (num_dicts_bits kvs) i c'), kvs', (Some d).
      rewrite (cursor_at_encode _ _ _ _ A' Hi) by lia. rewrite (sc_bits _ _ S').
      rewrite (proj2 (Z.eqb_neq c' 0)) by done. split; [done|]. split; [done|]. split; [done|]. split; [lia|done].
  - cbn [orb Z.eqb]. mred. destruct (Hnext kvs W ltac:(reflexivity) []) as (cursor & -> & Hg).
    exists [], 0, cursor, kvs, None. split; [done|]. split; [done|]. by split.
Qed.

(** A full iteration of [kvstoreScan] over the states of a store of 2^[b] slots,
    with the maps they hold. Between two calls the store may change in any way. *)
Inductive kv_scan_run (b : Z) : Z -> list (K * V) -> list (list (gmap K V)) -> Prop :=
| kv_scan_last kvs M v es kvs' :
    kv_wf kvs M -> scan_fits kvs -> num_dicts_bits kvs = b ->
    kvstoreScan canFreeDict kvs v (-1) None = Some (es, 0, kvs') -> kv_scan_run b v es [M]
| kv_scan_more kvs M v es v' kvs' es' Ms :
    kv_wf kvs M -> scan_fits kvs -> num_dicts_bits kvs = b ->
    kvstoreScan canFreeDict kvs v (-1) None = Some (es, v', kvs') -> v' <> 0 ->
    kv_scan_run b v' es' Ms -> kv_scan_run b v (es ++ es') (M :: Ms).

Lemma cursor_at_zero b i c : 0 <= c -> 0 <= b -> cursor_at b i c = 0 -> i = 0%nat /\ c = 0.
Proof. unfold cursor_at. intros Hc Hb E. pose proof (Z.pow_pos_nonneg 2 b). nia. Qed.

(** What the rest of a run from slot [j], cursor [c], reports of slot [i]. *)
Definition run_covers i k j c (es : list (K * V)) : Prop :=
  ((j < i)%nat -> k ∈ es.*1) /\
  (j = i -> exists es1 ms, d_scan_run d_rep c es1 ms /\ es1 ⊆ es /\ forall m, m ∈ ms -> is_Some (m !! k)).

Lemma run_covers_start i k j es : (j <= i)%nat -> run_covers i k j 0 es -> k ∈ es.*1.
Proof.
  intros Hj [H1 H2]. destruct (decide (j = i)) as [->|]; [|apply H1; lia].
  destruct (H2 eq_refl) as (es1 & ms & Hr & Hs & Hin).
  pose proof (l_scan_complete es1 ms k Hr Hin) as (e & -> & He)%list_elem_of_fmap.
  apply list_elem_of_fmap. exists e. split; [done|by apply Hs].
Qed.

Lemma kv_step_covers kvs M i k j c c' es v' es' od :
  kv_wf kvs M -> (exists m, M !! i = Some m /\ is_Some (m !! k)) -> (j < length M)%nat -> 0 <= c ->
  goes_on kvs M j c' v' -> dicts kvs !! j = Some od ->
  match od with Some d => d_scan d c = Some (es, c') | None => es = [] /\ c' = 0 end ->
  (v' = 0 -> es' = []) ->
  (v' <> 0 -> forall j' c2, v' = cursor_at (num_dicts_bits kvs) j' c2 -> (j' < length M)%nat -> 0 <= c2 < 2 ^ 48 ->
     run_covers i k j' c2 es') ->
  run_covers i k j c (es ++ es').
Proof.
  intros W (m & Hm & Hk) Hj Hc Hg Hd Hscan Hlast Hmore. pose proof W as [A _ _ _].
  assert (m <> ∅) as Hne by (intros ->; rewrite lookup_empty in Hk; by destruct Hk).
  pose proof (ka_bits _ _ A) as [Hbits _]. unfold goes_on in Hg.
  assert (forall k es', k ∈ es'.*1 -> k ∈ (es ++ es').*1) as Happ
    by (intros; rewrite fmap_app; apply elem_of_app; by right).
  split.
  - intros Hlt. apply Happ. destruct (Z.eqb_spec c' 0) as [->|Hc'].
    + destruct Hg as (r & [[-> Hall]|(j' & -> & Hj' & _ & Hall)] & Hv).
      { by rewrite (Hall i m Hlt Hm) in Hne. }
      rewrite (proj2 (Z.eqb_neq _ _)), Nat2Z.id in Hv by lia.
      assert (j' <= i)%nat by (destruct (decide (i < j')%nat); [by rewrite (Hall i m) in Hne|lia]).
      apply (run_covers_start i k j'); [done|]. apply (Hmore ltac:(intros E; rewrite E in Hv;
        symmetry in Hv; apply cursor_at_zero in Hv; lia)); [done|lia|lia].
    + destruct Hg as [Hr Hv]. apply (Hmore ltac:(intros E; rewrite E in Hv;
        symmetry in Hv; apply cursor_at_zero in Hv; lia) j c'); [done|done|lia|done].
  - intros ->. destruct (kv_lookup _ _ _ _ A Hm) as (od' & Hd' & Hr). simplify_eq.
    destruct od as [d|]; [|done]. cbn in Hr.
    destruct (Z.eqb_spec c' 0) as [->|Hc'].
    + exists es, [m]. split; [by econstructor|]. split; [set_solver|].
      by intros ? ->%list_elem_of_singleton.
    + destruct Hg as [Hrange Hv]. destruct (Hmore ltac:(intros E; rewrite E in Hv;
        symmetry in Hv; apply cursor_at_zero in Hv; lia) i c' Hv Hj ltac:(lia)) as [_ Hc2].
      destruct (Hc2 eq_refl) as (es1 & ms & Hrun & Hsub & Hin).
      exists (es ++ es1), (m :: ms). split; [by econstructor|]. split; [set_solver|].
      intros m' [->|Hm']%elem_of_cons; [done|by apply Hin].
Qed.

Lemma kv_run_covers b v es Ms i k :
  kv_scan_run b v es Ms -> (forall M, M ∈ Ms -> exists m, M !! i = Some m /\ is_Some (m !! k)) ->
  forall j c, v = cursor_at b j c -> Z.of_nat j < 2 ^ b -> 0 <= c < 2 ^ 48 -> run_covers i k j c es.
Proof.
  induction 1 as [kvs M v es kvs' W F Eb E|kvs M v es v' kvs' es' Ms W F Eb E Hne Hrun IH];
    intros Hin j c -> Hj Hc; subst b; pose proof (kv_length _ _ (kw_arr _ _ W)) as Hl;
    destruct (kvstoreScan_spec kvs M j c W F ltac:(lia) ltac:(lia)) as (es1 & c' & v1 & kvs1 & od & E1 & _ & _ & Hg & Hd & Hs);
    rewrite E in E1; injection E1 as <- <- <-.
  - rewrite <- (app_nil_r es). eapply kv_step_covers; try done; [apply Hin; left|lia|lia].
  - eapply kv_step_covers; try done; [apply Hin; left|lia|lia|]. intros _ j' c2 -> Hj' Hc2.
    apply (IH ltac:(intros; apply Hin; by right)); [done|lia|done].
Qed.

Lemma kv_run_sound b v es Ms k x :
  kv_scan_run b v es Ms -> forall j c, v = cursor_at b j c -> Z.of_nat j < 2 ^ b -> 0 <= c ->
  (k, x) ∈ es -> exists M i m, M ∈ Ms /\ M !! i = Some m /\ m !! k = Some x.
Proof.
  assert (forall kvs M j c es c' od, kv_wf kvs M -> dicts kvs !! j = Some od ->
    match od with Some d => d_scan d c = Some (es, c') | None => es = [] /\ c' = 0 end ->
    (k, x) ∈ es -> exists i m, M !! i = Some m /\ m !! k = Some x) as Hstep.
  { intros kvs M j c es1 c' od W Hd Hs Hx. destruct (kv_lookup_l _ _ _ _ (kw_arr _ _ W) Hd) as (m & Hm & Hr).
    destruct od as [d|]; [|destruct Hs as [-> _]; by apply not_elem_of_nil in Hx].
    exists j, m. split; [done|]. by eapply l_scan_sound. }
  induction 1 as [kvs M v es kvs' W F Eb E|kvs M v es v' kvs' es' Ms W F Eb E Hne Hrun IH];
    intros j c -> Hj Hc Hx; subst b; pose proof (kv_length _ _ (kw_arr _ _ W)) as Hl;
    destruct (kvstoreScan_spec kvs M j c W F ltac:(lia) ltac:(lia)) as (es1 & c' & v1 & kvs1 & od & E1 & _ & _ & Hg & Hd & Hs);
    rewrite E in E1; injection E1 as <- <- <-.
  - destruct (Hstep _ _ _ _ _ _ _ W Hd Hs Hx) as (i & m & ? & ?). exists M, i, m. split; [left|done].
  - apply elem_of_app in Hx as [Hx|Hx].
    + destruct (Hstep _ _ _ _ _ _ _ W Hd Hs Hx) as (i & m & ? & ?). exists M, i, m. split; [left|done].
    + unfold goes_on in Hg. enough (exists M i m, M ∈ Ms /\ M !! i = Some m /\ m !! k = Some x)
        as (M' & i & m & ? & ?) by (exists M', i, m; split; [by right|done]).
      destruct (c' =? 0).
      * destruct Hg as (r & [[-> _]|(j' & -> & Hj' & _)] & Hv); [done|].
        rewrite (proj2 (Z.eqb_neq _ _)), Nat2Z.id in Hv by lia. apply (IH j' 0); [done|lia|lia|done].
      * destruct Hg as [Hc' Hv]. apply (IH j c'); [done|lia|lia|done].
Qed.

(** C34: A full scan of a store whose slots change between the calls -- keys added
    and deleted anywhere, dicts created, resized, rehashed and freed -- reports
    every key that stays in its slot throughout, and only pairs that were in the
    store at one of the calls. *)
Theorem kvstoreScan_complete b es Ms :
  kv_scan_run b 0 es Ms -> 0 <= b ->
  (forall i k, (forall M, M ∈ Ms -> exists m, M !! i = Some m /\ is_Some (m !! k)) -> k ∈ es.*1) /\
  (forall k x, (k, x) ∈ es -> exists M i m, M ∈ Ms /\ M !! i = Some m /\ m !! k = Some x).
Proof.
  intros Hr Hb. pose proof (Z.pow_pos_nonneg 2 b). split.
  - intros i k Hin. apply (run_covers_start i k 0); [lia|].
    apply (kv_run_covers b 0 es Ms); [done|done|done|lia|lia].
  - intros k x. apply (kv_run_sound b 0 es Ms k x Hr 0 0); [done|lia|lia].
Qed.

(** *** Random slots *)

(** The keys of the slots before [i]. *)
Definition keys_before M i : Z := Fwtree.zsum (keys_in <$> take i M).

Lemma kvstoreFindDictIndexByKeyIndex_spec kvs M target :
  kv_wf kvs M -> 1 <= target <= Fwtree.zsum (keys_in <$> M) ->
  exists i m, kvstoreFindDictIndexByKeyIndex kvs target = Some (Z.of_nat i) /\ M !! i = Some m /\
    keys_before M i < target <= keys_before M i + keys_in m.
Proof.
  intros W Ht. pose proof W as [A _ Kk _]. unfold kvstoreFindDictIndexByKeyIndex, kvstoreSize.
  rewrite (kk_total _ _ Kk), (proj2 (Z.eqb_neq (Fwtree.zsum _) 0)), orb_false_r by lia.
  pose proof (num_dicts_pow _ _ A). pose proof (kv_length _ _ A) as Hl. destruct (kv_num_dicts _ _ Kk) as [_ Hone].
  destruct (Z.eqb_spec (num_dicts kvs) 1) as [E|E].
  - destruct M as [|m [|]]; cbn [length] in Hl; [lia| |lia]. exists 0%nat, m. split; [done|]. split; [done|].
    cbn in *. unfold Fwtree.zsum in Ht. cbn in Ht. unfold keys_before. cbn. lia.
  - unfold cassert. rewrite (proj2 (Z.leb_le _ _)) by lia. mred.
    pose proof (kk_tree _ _ Kk) as Htree. destruct (dict_sizes kvs) as [ft|]; [|by destruct E; apply Hone].
    destruct Htree as (_ & _ & Hr). mred.
    destruct (Fwtree.fwTreeFindIndex_correct ft _ target Hr Ht) as (r & -> & Hr0 & Hlo & Hhi).
    pose proof (repr_size_length ft M Hr). destruct (lookup_lt_is_Some_2 M (Z.to_nat r)) as [m Hm]; [lia|].
    exists (Z.to_nat r), m. split; [by rewrite Z2Nat.id by lia|]. split; [done|].
    unfold keys_before. rewrite fmap_take. split; [lia|].
    replace (Z.to_nat (r + 1)) with (Datatypes.S (Z.to_nat r)) in Hhi by lia.
    rewrite (take_S_r _ _ (keys_in m)), Fwtree.zsum_app in Hhi by (by rewrite list_lookup_fmap, Hm).
    change (Fwtree.zsum [keys_in m]) with (keys_in m + 0) in Hhi. lia.
Qed.

(** The slot picked for a random number is the one that holds the key of that
    rank: each slot answers to as many ranks as it has keys, so the pick is fair
    and never falls on an empty slot. *)
Theorem kvstoreGetFairRandomDictIndex_fair kvs M attempts slow_fallback random :
  kv_wf kvs M -> 0 < Fwtree.zsum (keys_in <$> M) ->
  exists i m, kvstoreGetFairRandomDictIndex kvs None (Datatypes.S attempts) slow_fallback random = Some (Z.of_nat i) /\
    M !! i = Some m /\
    keys_before M i <= random O `mod` Fwtree.zsum (keys_in <$> M) < keys_before M i + keys_in m.
Proof.
  intros W Hpos. pose proof W as [A _ Kk _]. set (total := Fwtree.zsum (keys_in <$> M)) in *.
  pose proof (Z.mod_pos_bound (random O) total Hpos) as Hmod.
  destruct (kvstoreFindDictIndexByKeyIndex_spec kvs M (random O `mod` total + 1) W) as (i & m & Hf & Hm & Hb);
    [lia|]. exists i, m. split; [|split; [done|lia]].
  unfold kvstoreGetFairRandomDictIndex. cbn [fair_attempts]. revert Hf.
  unfold kvstoreFindDictIndexByKeyIndex, kvstoreSize. rewrite (kk_total _ _ Kk). fold total.
  case_match; [done|]. intros ->. done.
Qed.

(** *** Sequences of operations *)

Inductive kv_op :=
| op_add (didx : nat) (key : K) (val : V)
| op_find (didx : nat) (key : K)
| op_delete (didx : nat) (key : K)
| op_dict_expand (didx : nat) (size : Z)
| op_scan (cursor onlydidx : Z) (skip_cb : option (D -> Z -> bool))
| op_expand (size : Z) (try_expand : option (Z -> bool)) (skip_cb : option (Z -> bool))
| op_resize (limit : Z)
| op_empty.

(** What the operations on one key return; for the others nothing is said. *)
Inductive kv_reply :=
| reply_add (added : bool)
| reply_find (entry : option (K * V))
| reply_delete (ret : Z)
| reply_none.

Definition kv_exec (op : kv_op) kvs : option (kv_reply * kvstore D) :=
  match op with
  | op_add i k v => '(r, kvs) ← kvstoreDictAddRaw kvs (Z.of_nat i) k v; Some (reply_add r, kvs)
  | op_find i k => '(r, kvs) ← kvstoreDictFind kvs (Z.of_nat i) k; Some (reply_find r, kvs)
  | op_delete i k => '(r, kvs) ← kvstoreDictDelete canFreeDict kvs (Z.of_nat i) k; Some (reply_delete r, kvs)
  | op_dict_expand i n => pair reply_none ∘ snd <$> kvstoreDictExpand kvs (Z.of_nat i) n
  | op_scan v o f => pair reply_none ∘ snd <$> kvstoreScan (V := V) canFreeDict kvs v o f
  | op_expand n f g => pair reply_none ∘ snd <$> kvstoreExpand kvs n f g
  | op_resize limit => pair reply_none <$> kvstoreTryResizeDicts kvs limit
  | op_empty => pair reply_none <$> kvstoreEmpty canFreeDict kvs
  end.

Fixpoint kv_execs (ops : list kv_op) kvs : option (list kv_reply * kvstore D) :=
  match ops with
  | [] => Some ([], kvs)
  | op :: ops =>
    '(r, kvs) ← kv_exec op kvs;
    '(rs, kvs) ← kv_execs ops kvs;
    Some (r :: rs, kvs)
  end.

(** The same on one map per slot. *)
Definition kv_effect (op : kv_op) M : list (gmap K V) :=
  match op with
  | op_add i k v => alter (fun m => match m !! k with Some _ => m | None => <[k := v]> m end) i M
  | op_delete i k => alter (delete k) i M
  | op_empty => replicate (length M) ∅
  | _ => M
  end.

Definition kv_answer (op : kv_op) M : kv_reply :=
  match op with
  | op_add i k _ => reply_add (bool_decide (default ∅ (M !! i) !! k = None))
  | op_find i k => reply_find ((fun v => (k, v)) <$> default ∅ (M !! i) !! k)
  | op_delete i k => reply_delete (match default ∅ (M !! i) !! k with Some _ => DICT_OK | None => DICT_ERR end)
  | _ => reply_none
  end.

Fixpoint kv_answers (ops : list kv_op) M : list kv_reply :=
  match ops with
  | [] => []
  | op :: ops => kv_answer op M :: kv_answers ops (kv_effect op M)
  end.

(** The slot of the operation is one of [n], and a cursor is not negative. *)
Definition kv_in_range (n : nat) (op : kv_op) : Prop :=
  match op with
  | op_add i _ _ | op_find i _ | op_delete i _ | op_dict_expand i _ => (i < n)%nat
  | op_scan v o _ => 0 <= v /\ o < Z.of_nat n
  | _ => True
  end.

Lemma alter_insert {A} (f : A -> A) i x (l : list A) : l !! i = Some x -> alter f i l = <[i := f x]> l.
Proof.
  revert i. induction l as [|y l IH]; intros [|i] Hx; simplify_eq/=; [done|]. f_equal. by apply IH.
Qed.

Lemma alter_out {A} (f : A -> A) i (l : list A) : l !! i = None -> alter f i l = l.
Proof.
  revert i. induction l as [|y l IH]; intros [|i] Hx; simplify_eq/=; [done..|]. f_equal. by apply IH.
Qed.

Lemma kv_effect_length op M : length (kv_effect op M) = length M.
Proof. destruct op; cbn; rewrite ?length_alter, ?length_replicate; done. Qed.

(** An operation adds one key at most. *)
Lemma kv_effect_keys op M :
  Fwtree.zsum (keys_in <$> kv_effect op M) <= Fwtree.zsum (keys_in <$> M) + 1.
Proof.
  assert (forall f i, (forall m, keys_in (f m) <= keys_in m + 1) ->
    Fwtree.zsum (keys_in <$> alter f i M) <= Fwtree.zsum (keys_in <$> M) + 1) as Ha.
  { intros f i Hf. destruct (M !! i) as [m|] eqn:Hm.
    - rewrite (alter_insert _ _ _ _ Hm), (zsum_fmap_insert _ _ _ _ _ Hm). specialize (Hf m). lia.
    - rewrite (alter_out _ _ _ Hm). lia. }
  assert (0 <= Fwtree.zsum (keys_in <$> M)).
  { apply Fwtree.zsum_nonneg, Forall_fmap, Forall_forall. intros m _. cbn. unfold keys_in. lia. }
  destruct op; cbn [kv_effect]; try lia.
  - apply Ha. intros m. unfold keys_in. destruct (m !! key) eqn:Hk; [lia|]. rewrite map_size_insert_None by done. lia.
  - apply Ha. intros m. unfold keys_in. rewrite map_size_delete. destruct (m !! key); cbn; lia.
  - rewrite fmap_replicate, keys_in_empty, Fwtree.zsum_replicate_0. lia.
Qed.

(** A scan keeps the maps and the counters, from any cursor. *)
Lemma kvstoreScan_keeps kvs M v onlydidx skip_cb :
  kv_wf kvs M -> 0 <= v -> onlydidx < Z.of_nat (length M) ->
  exists r kvs', kvstoreScan (V := V) canFreeDict kvs v onlydidx skip_cb = Some (r, kvs') /\ kv_wf kvs' M.
Proof.
  intros W Hv Ho. pose proof W as [A R Kk Hn]. pose proof (kv_length _ _ A) as Hl. pose proof (kv_pow _ _ A) as Hp.
  pose proof (ka_bits _ _ A). unfold kvstoreScan.
  destruct (getAndClearDictIndexFromCursor kvs v) as [didx cursor] eqn:Ec.
  assert (0 <= didx < Z.of_nat (length M)) as Hd.
  { revert Ec. unfold getAndClearDictIndexFromCursor. rewrite (num_dicts_pow _ _ A).
    destruct (Z.eqb_spec (2 ^ num_dicts_bits kvs) 1); intros [= <- <-]; [lia|].
    replace (2 ^ num_dicts_bits kvs - 1) with (Z.ones (num_dicts_bits kvs)) by (rewrite Z.ones_equiv; lia).
    rewrite Z.land_ones by lia. pose proof (Z.mod_pos_bound v (2 ^ num_dicts_bits kvs)).
    rewrite Fwtree.i32_small by lia. lia. }
  clear Ec. destruct (_ && _); [by exists ([], 0), kvs|].
  assert (exists didx' cursor', (if (onlydidx >=? 0) && (didx <? onlydidx)
      then _ ← cassert (onlydidx <? num_dicts kvs); Some (onlydidx, 0) else Some (didx, cursor)) = Some (didx', cursor') /\
    0 <= didx' < Z.of_nat (length M)) as (didx' & cursor' & -> & Hd').
  { destruct (Z.geb_spec onlydidx 0); cbn [andb]; [|by exists didx, cursor].
    destruct (didx <? onlydidx); [|by exists didx, cursor]. unfold cassert.
    rewrite (num_dicts_pow _ _ A), (proj2 (Z.ltb_lt _ _)) by lia. mred. exists onlydidx, 0. split; [done|lia]. }
  mred. clear Hd didx cursor. rewrite <- (Z2Nat.id didx') by lia. set (i := Z.to_nat didx').
  assert (i < length M)%nat as Hi by lia. clearbody i. clear Hd' didx'.
  destruct (lookup_lt_is_Some_2 M i Hi) as [m Hm]. destruct (kv_lookup _ _ _ _ A Hm) as (od & Hod & Hr).
  rewrite kvstoreGetDict_nat, Hod. mred.
  assert (forall kvs1 (es : list (K * V)) c skip, kv_wf kvs1 M -> exists r kvs',
    (if (c =? 0) || skip : bool then
      if onlydidx >=? 0 then Some (es, 0, kvs1)
      else
        didx ← kvstoreGetNextNonEmptyDictIndex kvs1 (Z.of_nat i);
        if didx =? -1 then Some (es, 0, kvs1)
        else Some (es, addDictIndexToCursor kvs1 didx c, kvs1)
    else Some (es, addDictIndexToCursor kvs1 (Z.of_nat i) c, kvs1)) = Some (r, kvs') /\ kv_wf kvs' M) as Hend.
  { intros kvs1 es c skip W1. destruct (_ || _); [|eauto]. destruct (_ >=? _); [eauto|].
    destruct (kvstoreGetNextNonEmptyDictIndex_spec kvs1 M i W1 Hi) as (r & -> & _). mred. destruct (_ =? _); eauto. }
  destruct od as [d|]; [|mred; by apply Hend].
  destruct (match skip_cb with Some f => f d (Z.of_nat i) | None => false end); [mred; by apply Hend|].
  destruct (l_scan d m cursor' Hr) as (es & c' & -> & _). mred.
  destruct (freeDictIfNeeded_spec kvs M i m A Hm) as (kvs' & -> & A' & S' & R' & _). mred. apply Hend.
  constructor; [done|by apply R'|by eapply kv_keys_same|by rewrite (sc_non_empty _ _ S')].
Qed.

Lemma kv_exec_spec op kvs M :
  kv_wf kvs M -> kv_in_range (length M) op -> Fwtree.zsum (keys_in <$> M) + 1 < UINT64_MAX ->
  exists kvs', kv_exec op kvs = Some (kv_answer op M, kvs') /\ kv_wf kvs' (kv_effect op M).
Proof.
  intros W Ha Hf.
  destruct op as [i k v|i k|i k|i n|v o f|n f g|limit|]; cbn [kv_exec kv_effect kv_answer kv_in_range] in *.
  1-4: apply lookup_lt_is_Some_2 in Ha as [m Hm]; rewrite ?(alter_insert _ _ _ _ Hm), ?Hm; cbn [default].
  - destruct (kvstoreDictAddRaw_spec kvs M i m k v W Hm Hf) as (kvs' & -> & ?). by exists kvs'.
  - destruct (kvstoreDictFind_spec kvs M i m k W Hm) as (kvs' & -> & ?). by exists kvs'.
  - destruct (kvstoreDictDelete_spec kvs M i m k W Hm) as (kvs' & -> & ?). by exists kvs'.
  - destruct (kvstoreDictExpand_spec kvs M i m n W Hm) as (r & kvs' & -> & ?). by exists kvs'.
  - destruct (kvstoreScan_keeps kvs M v o f W) as (r & kvs' & -> & ?); [lia..|]. by exists kvs'.
  - destruct (kvstoreExpand_spec kvs M n f g W) as (r & kvs' & -> & ?). by exists kvs'.
  - destruct (kvstoreTryResizeDicts_spec kvs M limit W) as (kvs' & -> & ?). by exists kvs'.
  - destruct (kvstoreEmpty_spec kvs M W) as (kvs' & -> & ?). by exists kvs'.
Qed.

Lemma kv_execs_from ops kvs M :
  kv_wf kvs M -> Forall (kv_in_range (length M)) ops ->
  Fwtree.zsum (keys_in <$> M) + Z.of_nat (length ops) < UINT64_MAX ->
  exists kvs', kv_execs ops kvs = Some (kv_answers ops M, kvs') /\ kv_wf kvs' (foldl (fun M op => kv_effect op M) M ops).
Proof.
  revert kvs M. induction ops as [|op ops IH]; intros kvs M W Ha Hf; [by exists kvs|].
  apply Forall_cons in Ha as [Ha Hall]. cbn [kv_execs kv_answers foldl length] in *.
  destruct (kv_exec_spec op kvs M W Ha) as (kvs1 & -> & W1); [lia|]. mred.
  pose proof (kv_effect_keys op M).
  destruct (IH kvs1 (kv_effect op M) W1) as (kvs2 & -> & W2); [by rewrite kv_effect_length|lia|]. by exists kvs2.
Qed.

Lemma kv_execs_spec b on_demand free ops :
  0 <= b <= 16 -> Forall (kv_in_range (Z.to_nat (2 ^ b))) ops -> Z.of_nat (length ops) < UINT64_MAX ->
  let M := replicate (Z.to_nat (2 ^ b)) ∅ in
  exists kvs kvs', kvstoreCreate b on_demand free = Some kvs /\ kv_execs ops kvs = Some (kv_answers ops M, kvs') /\
    kv_wf kvs' (foldl (fun M op => kv_effect op M) M ops).
Proof.
  intros Hb Ha Hf M. destruct (kvstoreCreate_spec b on_demand free Hb) as (kvs & E & W & _).
  destruct (kv_execs_from ops kvs M W) as (kvs' & ? & ?); [by unfold M; rewrite length_replicate| |by exists kvs, kvs'].
  unfold M. rewrite fmap_replicate, keys_in_empty, Fwtree.zsum_replicate_0. lia.
Qed.

(** C33: A store of [2 ^ b] slots made by [kvstoreCreate] goes without failing an
    assertion through any sequence of these operations on it: adding, finding and deleting
    a key of a slot, expanding the dict of a slot ([kvstoreDictExpand]) or those of all
    ([kvstoreExpand]), a step of [kvstoreScan] from any cursor, [kvstoreTryResizeDicts] and
    [kvstoreEmpty].  The answers to adding, finding and deleting are those of one finite
    map per slot; the store represents these maps in its slots, and keeps its counters
    true: allocated and non-empty dicts, keys, buckets, the Fenwick tree of sizes and the
    list of rehashing dicts.  The slots must exist and the operations be fewer than
    2^64 - 1; moving a dict to another store is not among them, as it breaks the counters
    ([kvstoreMoveDict_miscounts]). *)
Theorem kvstore_operations_refine b on_demand free ops :
  0 <= b <= 16 -> Forall (kv_in_range (Z.to_nat (2 ^ b))) ops -> Z.of_nat (length ops) < UINT64_MAX ->
  let M := replicate (Z.to_nat (2 ^ b)) ∅ in
  exists kvs kvs', kvstoreCreate b on_demand free = Some kvs /\ kv_execs ops kvs = Some (kv_answers ops M, kvs') /\
    kv_wf kvs' (foldl (fun M op => kv_effect op M) M ops).
Proof. apply kv_execs_spec. Qed.

(** *** Moving a dict *)

Lemma i64_small z : - 2 ^ 63 <= z < 2 ^ 63 -> i64 z = z.
Proof. intros. apply wraps_small; [done|]. done. Qed.

(** The source of a move, before a new dict is created in its place. *)
Lemma move_source kvs M i d m :
  kv_wf kvs M -> M !! i = Some m -> dicts kvs !! i = Some (Some d) -> d_rep d m -> keys_in m < 2 ^ 63 ->
  exists kvs1, cumulativeKeyCountAdd (set_allocated kvs (i32 (allocated_dicts kvs - 1)))
      (Z.of_nat i) (- i64 (d_size d)) = Some kvs1 /\
    let kvs2 := on_event (Z.of_nat i) (bucketChanged (- i64 (d_buckets d))) kvs1 in
    let kvs3 := if d_is_rehashing d then on_event (Z.of_nat i) rehashingCompleted kvs2 else kvs2 in
    let kvs4 := set_dict kvs3 (Z.of_nat i) None in
    kv_arr kvs4 (<[i := ∅]> M) /\ kv_rehash kvs4 /\ kv_keys kvs4 (<[i := ∅]> M) /\
    non_empty_dicts kvs4 = i32 (non_empty_dicts kvs + if d_size d =? 0 then -1 else 0).
Proof.
  intros [A R Kk Hn] Hm Hd Hr Hlt. pose proof (keys_in_size _ _ Hr) as Es.
  assert (0 <= keys_in m) by (unfold keys_in; lia). pose proof (kk_fits _ _ Kk).
  destruct (l_buckets d m Hr) as [_ Hb]. rewrite Es, !i64_small by lia.
  destruct (cumulativeKeyCountAdd_spec (set_allocated kvs (i32 (allocated_dicts kvs - 1))) M i m ∅ d (- keys_in m))
    as (kvs1 & -> & Kk1 & [Ed Eb Ea Eu Er Ec Ef Eo] & Hn1);
    [by destruct Kk|done|done|rewrite keys_in_empty; lia|lia|lia|].
  exists kvs1. split; [done|]. cbn in Ed, Eb, Ea, Eu, Er, Ec, Ef, Eo, Hn1.
  rewrite Es, Z.gtb_ltb, (proj2 (Z.ltb_ge 0 (- keys_in m))), andb_false_r in Hn1 by lia.
  unfold set_dict. rewrite Nat2Z.id. cbn [on_event]. cbn zeta.
  set (kvs2 := set_bucket_count _ _). set (kvs3 := if _ : bool then _ else _).
  assert (same_counts kvs1 kvs3 /\ dicts kvs3 = dicts kvs1 /\ allocated_dicts kvs3 = allocated_dicts kvs1 /\
    bucket_count kvs3 = bucket_count kvs2 /\ resize_cursor kvs3 = resize_cursor kvs1 /\
    rehashing kvs3 = if d_is_rehashing d then filter (fun y : Z => y <> Z.of_nat i) (rehashing kvs) else rehashing kvs)
    as (S3 & Ed3 & Ea3 & Eu3 & Ec3 & Er3).
  { unfold kvs3, kvs2. destruct (d_is_rehashing d); cbn; rewrite ?Er; by repeat split. }
  split; [|split; [|split]].
  - eapply (kv_arr_set kvs _ M i (Some d) None); try done; cbn; try congruence.
    + rewrite (sc_bits _ _ S3). done.
    + by rewrite Ea3, Ea.
    + rewrite Eu3. cbn. by rewrite Eu.
  - eapply (kv_rehash_set kvs _ i (Some d) None); [done|done|cbn; congruence|]. cbn. rewrite Er3.
    destruct (kv_rehash_at _ _ _ R Hd) as [T1 T2 T3]. cbn in T3. destruct (d_is_rehashing d); constructor; try done.
    + by apply NoDup_filter.
    + intros y Hy. rewrite list_elem_of_filter. naive_solver.
    + rewrite list_elem_of_filter. naive_solver.
  - eapply (kv_keys_same kvs3); [by constructor|]. by eapply kv_keys_same.
  - cbn. by rewrite (sc_non_empty _ _ S3).
Qed.

(** The destination of a move. *)
Lemma move_destination kvs M i d m :
  kv_wf kvs M -> dicts kvs !! i = Some None -> d_rep d m -> keys_in m < 2 ^ 63 ->
  Fwtree.zsum (keys_in <$> M) + keys_in m < UINT64_MAX ->
  let kvs0 := set_dict kvs (Z.of_nat i) (Some d) in
  exists kvs1, cumulativeKeyCountAdd (set_allocated kvs0 (i32 (allocated_dicts kvs0 + 1)))
      (Z.of_nat i) (i64 (d_size d)) = Some kvs1 /\
    let kvs2 := on_event (Z.of_nat i) (bucketChanged (i64 (d_buckets d))) kvs1 in
    let kvs3 := if d_is_rehashing d then on_event (Z.of_nat i) rehashingStarted kvs2 else kvs2 in
    kv_arr kvs3 (<[i := m]> M) /\ kv_rehash kvs3 /\ kv_keys kvs3 (<[i := m]> M) /\
    non_empty_dicts kvs3 = i32 (non_empty_dicts kvs +
      if d_size d =? 1 then 1 else if d_size d =? 0 then -1 else 0).
Proof.
  intros [A R Kk Hn] Hd Hr Hlt Hf. pose proof (keys_in_size _ _ Hr) as Es.
  destruct (kv_lookup_l _ _ _ _ A Hd) as (m0 & Hm & E0). cbn in E0. subst m0.
  assert (0 <= keys_in m) by (unfold keys_in; lia). pose proof (keys_total_nonneg M).
  destruct (l_buckets d m Hr) as [_ Hb]. rewrite Es, !i64_small by lia.
  unfold set_dict. rewrite Nat2Z.id. cbn zeta.
  destruct (cumulativeKeyCountAdd_spec (set_allocated (set_dicts kvs (<[i:=Some d]> (dicts kvs)))
      (i32 (allocated_dicts (set_dicts kvs (<[i:=Some d]> (dicts kvs))) + 1))) M i ∅ m d (keys_in m))
    as (kvs1 & -> & Kk1 & [Ed Eb Ea Eu Er Ec Ef Eo] & Hn1);
    [by destruct Kk|done|by apply list_lookup_insert_eq; eapply lookup_lt_Some|rewrite keys_in_empty; lia|lia|lia|].
  exists kvs1. split; [done|]. cbn in Ed, Eb, Ea, Eu, Er, Ec, Ef, Eo, Hn1. rewrite Es in Hn1.
  set (kvs2 := on_event _ (bucketChanged _) _). set (kvs3 := if _ : bool then _ else _).
  assert (same_counts kvs1 kvs3 /\ dicts kvs3 = dicts kvs1 /\ allocated_dicts kvs3 = allocated_dicts kvs1 /\
    bucket_count kvs3 = bucket_count kvs2 /\ resize_cursor kvs3 = resize_cursor kvs1 /\
    rehashing kvs3 = if d_is_rehashing d then rehashing kvs ++ [Z.of_nat i] else rehashing kvs)
    as (S3 & Ed3 & Ea3 & Eu3 & Ec3 & Er3).
  { unfold kvs3, kvs2. destruct (d_is_rehashing d); cbn; rewrite ?Er; by repeat split. }
  split; [|split; [|split]].
  - eapply (kv_arr_set kvs _ M i None (Some d)); try done; cbn; try congruence.
    + rewrite (sc_bits _ _ S3). done.
    + by rewrite Ea3, Ea.
    + rewrite Eu3. cbn. rewrite Eu. f_equal. lia.
  - eapply (kv_rehash_set kvs _ i None (Some d)); [done|done|congruence|]. cbn. rewrite Er3.
    destruct (kv_rehash_at _ _ _ R Hd) as [T1 T2 T3]. cbn in T3. assert (Z.of_nat i ∉ rehashing kvs) by naive_solver.
    destruct (d_is_rehashing d); constructor; try done.
    + apply NoDup_app. split; [done|]. split; [|apply NoDup_singleton].
      intros y Hy ->%list_elem_of_singleton. done.
    + intros y Hy. rewrite elem_of_app, list_elem_of_singleton. naive_solver.
    + rewrite elem_of_app, list_elem_of_singleton. naive_solver.
  - by eapply kv_keys_same.
  - rewrite (sc_non_empty _ _ S3), Hn1. f_equal. f_equal. destruct (Z.eqb_spec (keys_in m) 1) as [->|]; [done|].
    done.
Qed.

(** C35: Moving a dict of [n] keys keeps the slots, buckets, rehashing lists, key
    counts and Fenwick trees of both stores true, but not their counts of
    non-empty dicts: that of the source stays one too high (one too low when the
    dict is empty), and that of the destination one too low unless [n = 1]. *)
Theorem kvstoreMoveDict_miscounts kvs dst M N i d m :
  kv_wf kvs M -> kv_wf dst N -> num_dicts_bits dst = num_dicts_bits kvs ->
  dicts kvs !! i = Some (Some d) -> d_rep d m -> dicts dst !! i = Some None ->
  keys_in m < 2 ^ 63 -> Fwtree.zsum (keys_in <$> N) + keys_in m < UINT64_MAX ->
  exists kvs' dst', kvstoreMoveDict kvs dst (Z.of_nat i) = Some (kvs', dst') /\
    (kv_arr kvs' (<[i := ∅]> M) /\ kv_rehash kvs' /\ kv_keys kvs' (<[i := ∅]> M)) /\
    (kv_arr dst' (<[i := m]> N) /\ kv_rehash dst' /\ kv_keys dst' (<[i := m]> N)) /\
    non_empty_dicts kvs' = i32 (Fwtree.zsum (non_empty <$> <[i := ∅]> M) + if keys_in m =? 0 then -1 else 1) /\
    non_empty_dicts dst' = i32 (Fwtree.zsum (non_empty <$> <[i := m]> N) - if keys_in m =? 1 then 0 else 1).
Proof.
  intros W Wd Ebits Hd Hr Hdst Hlt Hf. pose proof W as [A _ _ Hn]. pose proof Wd as [Ad _ _ Hnd].
  destruct (kv_lookup_l _ _ _ _ A Hd) as (m' & Hm & Hr'). cbn in Hr'.
  assert (keys_in m' = keys_in m) as Ek by (by rewrite <- (keys_in_size _ _ Hr), (keys_in_size _ _ Hr')).
  destruct (kv_lookup_l _ _ _ _ Ad Hdst) as (m0 & Hm0 & E0). cbn in E0. subst m0.
  destruct (move_source kvs M i d m' W Hm Hd Hr') as (kvs1 & E1 & A1 & R1 & K1 & N1); [lia|].
  destruct (move_destination dst N i d m Wd Hdst Hr Hlt Hf) as (dst1 & E2 & A2 & R2 & K2 & N2).
  unfold kvstoreMoveDict, cassert. rewrite (num_dicts_pow _ _ A), (num_dicts_pow _ _ Ad), Ebits, Z.eqb_refl.
  rewrite Z.gtb_ltb, (proj2 (Z.ltb_lt _ _)) by (rewrite <- (ka_len _ _ A); apply lookup_lt_Some in Hd; lia).
  mred. rewrite !kvstoreGetDict_nat, Hd, Hdst. mred. rewrite E1. mred. cbn zeta in *.
  set (kvs4 := set_dict _ _ None) in *.
  assert (exists kvs', (if negb (alloc_on_demand kvs4 || free_empty kvs4)
      then snd <$> createDictIfNeeded kvs4 (Z.of_nat i) else Some kvs4) = Some kvs' /\
    (kv_arr kvs' (<[i := ∅]> M) /\ kv_rehash kvs' /\ kv_keys kvs' (<[i := ∅]> M)) /\
    non_empty_dicts kvs' = non_empty_dicts kvs4) as (kvs' & -> & Hkvs & N3).
  { destruct (negb _); [|by exists kvs4].
    destruct (createDictIfNeeded_spec kvs4 _ i ∅ A1 R1) as (d2 & kvs' & -> & A' & R' & S' & _).
    { apply list_lookup_insert_eq. by eapply lookup_lt_Some. }
    exists kvs'. split; [done|]. split; [|apply S']. split; [done|]. split; [done|]. by eapply kv_keys_same. }
  mred. rewrite E2. mred. eexists _, _. split; [done|]. split; [done|]. split; [done|].
  assert (0 <= keys_in m) by (unfold keys_in; lia).
  rewrite N3, N1, N2, Hn, Hnd, (zsum_fmap_insert _ _ _ _ _ Hm), (zsum_fmap_insert _ _ _ _ _ Hm0), (keys_in_size _ _ Hr).
  unfold non_empty at 3 4 7 8. rewrite keys_in_empty, Ek. cbn [Z.eqb].
  split; f_equal; repeat case_match; bools; lia.
Qed.

End invariant.

(** ** Witnesses *)

Section witnesses.
#[local] Existing Instance dict_ops.
#[local] Existing Instance dict_laws.

Definition sample_ops : list (kv_op (D := dict Z Z) (K := Z) (V := Z)) :=
  [op_add 0 1 10; op_add 1 5 50; op_add 1 6 60; op_find 1 5; op_delete 0 1; op_scan 0 (-1) None; op_expand 8 None None; op_resize 2].
Definition sample_maps : list (gmap Z Z) :=
  foldl (fun M op => kv_effect op M) (replicate (Z.to_nat (2 ^ 1)) ∅) sample_ops.
#[local] Instance sample_dict_ops : DictOps (dict Z Z) Z Z := dict_ops sample_type DICT_RESIZE_ENABLE.
#[local] Instance sample_dict_laws : DictLaws (dict Z Z) Z Z (dict_rep sample_type) :=
  dict_laws sample_type DICT_RESIZE_ENABLE.

Lemma sample_ops_in_range : Forall (kv_in_range (Z.to_nat (2 ^ 1))) sample_ops.
Proof. repeat constructor; by vm_compute; auto with lia. Qed.

Lemma kvstore_operations_refine_witness :
  exists kvs kvs' : kvstore (dict Z Z), kvstoreCreate 1 true true = Some kvs /\
    kv_execs None sample_ops kvs =
      Some ([reply_add true; reply_add true; reply_add true; reply_find (Some (5, 50)); reply_delete DICT_OK;
             reply_none; reply_none; reply_none], kvs') /\
    kv_wf (d_rep := dict_rep sample_type) kvs' sample_maps.
Proof.
  replace [reply_add true; _; _; _; _; _; _; _] with (kv_answers sample_ops (replicate (Z.to_nat (2 ^ 1)) ∅))
    by (vm_compute; reflexivity).
  apply (kvstore_operations_refine (d_rep := dict_rep sample_type) None 1 true true sample_ops);
    [lia|apply sample_ops_in_range|done].
Defined.

Definition sample_kvs : kvstore (dict Z Z) :=
  Eval vm_compute in default (mk_kvs true true [] 1 [] 0 0 0 0 0 None)
    (kvs ← kvstoreCreate 1 true true; snd <$> kv_execs None sample_ops kvs).
Definition sample_dst : kvstore (dict Z Z) :=
  Eval vm_compute in default (mk_kvs true true [] 1 [] 0 0 0 0 0 None) (kvstoreCreate 1 true true).
Definition sample_dict : dict Z Z :=
  Eval vm_compute in default dictCreate (default None (dicts sample_kvs !! 1%nat)).
Definition sample_map : gmap Z Z := {[ 5 := 50; 6 := 60 ]}.

Lemma sample_kvs_wf : kv_wf (d_rep := dict_rep sample_type) sample_kvs sample_maps.
Proof.
  destruct (kv_execs_spec (d_rep := dict_rep sample_type) None 1 true true sample_ops) as (kvs & kvs' & E1 & E2 & W);
    [lia|apply sample_ops_in_range|done|].
  assert ((kvs ← kvstoreCreate 1 true true; snd <$> kv_execs None sample_ops kvs) = Some sample_kvs) as E
    by (vm_compute; reflexivity).
  rewrite E1 in E. change (snd <$> kv_execs None sample_ops kvs = Some sample_kvs) in E.
  rewrite E2 in E. by injection E as <-.
Qed.

Lemma sample_dst_wf : kv_wf (d_rep := dict_rep sample_type) sample_dst (replicate 2 ∅).
Proof.
  destruct (kvstoreCreate_spec (d_rep := dict_rep sample_type) None 1 true true) as (kvs & E1 & W & _); [lia|].
  assert (kvstoreCreate 1 true true = Some sample_dst) as E by (vm_compute; reflexivity).
  rewrite E1 in E. by injection E as <-.
Qed.

Lemma sample_dict_rep : dict_rep sample_type sample_dict sample_map.
Proof.
  destruct (kv_lookup sample_kvs sample_maps 1 sample_map (kw_arr _ _ sample_kvs_wf)) as (od & Hd & Hr).
  - vm_compute. reflexivity.
  - assert (dicts sample_kvs !! 1%nat = Some (Some sample_dict)) as E by reflexivity. rewrite E in Hd. by injection Hd as <-.
Qed.

Lemma sample_scan_fits : scan_fits sample_kvs.
Proof.
  intros i d Hd. destruct i as [|[|i]]; cbn in Hd; simplify_eq; vm_compute; discriminate.
Qed.

Lemma sample_scan_run :
  exists es Ms, kv_scan_run (d_rep := dict_rep sample_type) None 1 0 es Ms /\ Forall (fun M => M = sample_maps) Ms.
Proof.
  eexists _, _. split.
  - repeat first
      [ eapply kv_scan_last; [apply sample_kvs_wf|apply sample_scan_fits|done|vm_compute; reflexivity]
      | eapply kv_scan_more; [apply sample_kvs_wf|apply sample_scan_fits|done|vm_compute; reflexivity|done|] ].
  - repeat constructor.
Qed.

Lemma kvstoreScan_complete_witness : exists es Ms,
  kv_scan_run (d_rep := dict_rep sample_type) None 1 0 es Ms /\ 6 ∈ es.*1.
Proof.
  destruct sample_scan_run as (es & Ms & Hr & HM). exists es, Ms. split; [done|].
  apply (kvstoreScan_complete (d_rep := dict_rep sample_type) None 1 es Ms Hr ltac:(lia)) with (i := 1%nat).
  intros M HM'. rewrite Forall_forall in HM. rewrite (HM _ HM'). exists sample_map. split; [vm_compute; reflexivity|]. by exists 60.
Defined.

Lemma kvstoreGetFairRandomDictIndex_fair_witness :
  exists i m, kvstoreGetFairRandomDictIndex sample_kvs None 3 true (fun n => Z.of_nat n) = Some (Z.of_nat i) /\
    sample_maps !! i = Some m /\
    keys_before sample_maps i <= 0 `mod` Fwtree.zsum (keys_in <$> sample_maps) < keys_before sample_maps i + keys_in m.
Proof.
  apply (kvstoreGetFairRandomDictIndex_fair (d_rep := dict_rep sample_type) None sample_kvs sample_maps 2 true (fun n => Z.of_nat n)); [apply sample_kvs_wf|by vm_compute].
Defined.

Lemma kvstoreMoveDict_miscounts_witness :
  exists kvs' dst', kvstoreMoveDict sample_kvs sample_dst 1 = Some (kvs', dst') /\
    non_empty_dicts kvs' = 1 /\ Fwtree.zsum (non_empty <$> <[1%nat := ∅]> sample_maps) = 0 /\
    non_empty_dicts dst' = 0 /\ Fwtree.zsum (non_empty <$> <[1%nat := sample_map]> (replicate 2 (∅ : gmap Z Z))) = 1.
Proof.
  destruct (kvstoreMoveDict_miscounts (d_rep := dict_rep sample_type) None sample_kvs sample_dst sample_maps (replicate 2 ∅) 1 sample_dict sample_map)
    as (kvs' & dst' & E & _ & _ & N1 & N2);
    [apply sample_kvs_wf|apply sample_dst_wf|done|done|apply sample_dict_rep|done|done|done|].
  exists kvs', dst'. rewrite N1, N2. repeat split; [done|by vm_compute..].
Defined.
End witnesses.
End Kvstore.
