(* ===== verification/Cluster.v ===== *)
(** The state a node of the cluster keeps of the others ([src/cluster_legacy.c],
    [src/cluster_legacy.h]) and its handlers: slots and their owners, masters and
    replicas, failure reports, configuration epochs, and the elections that replace a
    failed master.

    Nodes are known by their names, the 40 bytes of [name] read as a number, so that
    the order of names is that of [memcmp].  A pointer to a node is its name; a handler
    is [None] where the code would follow a pointer to a node it does not know, or fail
    an assertion.  [mstime()] has one value during a handler.  What is left for
    [clusterBeforeSleep], which runs before any message is written to a socket, is not
    recorded: the configuration is saved before what depends on it is sent.  A packet comes
    over the link of the node it names; MEET packets, handshakes, and links that turn out to
    lead to another node are left out. *)
From stdpp Require Import base numbers list gmap.
From stdpp Require Import options.
From S2P Require Import Prelude.

Module Cluster.

(** ** Data *)

Definition CLUSTER_SLOTS : Z := 16384.
Definition C_OK : Z := 0.
Definition C_ERR : Z := -1.

Definition CLUSTER_NODE_MASTER : Z := 1.
Definition CLUSTER_NODE_SLAVE : Z := 2.
Definition CLUSTER_NODE_PFAIL : Z := 4.
Definition CLUSTER_NODE_FAIL : Z := 8.
Definition CLUSTER_NODE_MYSELF : Z := 16.
Definition CLUSTER_NODE_HANDSHAKE : Z := 32.
Definition CLUSTER_NODE_NOADDR : Z := 64.
Definition CLUSTER_NODE_MIGRATE_TO : Z := 256.
Definition CLUSTER_NODE_NOFAILOVER : Z := 512.

Definition CLUSTER_FAIL_REPORT_VALIDITY_MULT : Z := 2.
Definition CLUSTER_FAIL_UNDO_TIME_MULT : Z := 2.
Definition CLUSTER_MF_TIMEOUT : Z := 5000.
Definition CLUSTER_SLAVE_MIGRATION_DELAY : Z := 5000.
Definition CLUSTER_BLACKLIST_TTL : Z := 60.
Definition CLUSTER_MAX_REJOIN_DELAY : Z := 5000.
Definition CLUSTER_MIN_REJOIN_DELAY : Z := 500.
Definition CLUSTER_WRITABLE_DELAY : Z := 2000.
Definition USHRT_MAX : Z := 65535.

Definition CLUSTER_CANT_FAILOVER_NONE : Z := 0.
Definition CLUSTER_CANT_FAILOVER_DATA_AGE : Z := 1.
Definition CLUSTER_CANT_FAILOVER_WAITING_DELAY : Z := 2.
Definition CLUSTER_CANT_FAILOVER_EXPIRED : Z := 3.
Definition CLUSTER_CANT_FAILOVER_WAITING_VOTES : Z := 4.

(** [struct _clusterNode]: [slots] is the bitmap read as a number, [addr] the address
    and the ports, [link] the creation time of the link to the node, and a failure
    report is the name of its author with its time. *)
Record clusterNode := mk_node {
  flags : Z;
  configEpoch : Z;
  shard_id : Z;
  slots : Z;
  numslots : Z;
  slaves : list Z;
  slaveof : option Z;
  ping_sent : Z;
  pong_received : Z;
  data_received : Z;
  fail_time : Z;
  voted_time : Z;
  orphaned_time : Z;
  repl_offset : Z;
  addr : Z;
  link : option Z;
  fail_reports : list (Z * Z)
}.

(** The fields of [struct clusterState] that hold the election of a replica. *)
Record failoverState := mk_failover {
  failover_auth_time : Z;
  failover_auth_count : Z;
  failover_auth_sent : Z;
  failover_auth_rank : Z;
  failover_auth_epoch : Z;
  cant_failover_reason : Z
}.

(** Those of a manual failover; [mf_end] is 0 when there is none. *)
Record manualState := mk_manual {
  mf_end : Z;
  mf_slave : option Z;
  mf_master_offset : Z;
  mf_can_start : bool
}.

(** [struct clusterState]: [owner] is its array [slots], and absent slots of the arrays
    are [NULL].  The last two fields are the static variables of [clusterUpdateState]. *)
Record clusterState := mk_cluster {
  myself : Z;
  currentEpoch : Z;
  cluster_ok : bool;
  cluster_size : Z;
  nodes : gmap Z clusterNode;
  nodes_black_list : gmap Z Z;
  migrating_slots_to : gmap Z Z;
  importing_slots_from : gmap Z Z;
  owner : gmap Z Z;
  failover : failoverState;
  manual : manualState;
  lastVoteEpoch : Z;
  stats_pfail_nodes : Z;
  owner_not_claiming_slot : Z;
  among_minority_time : Z;
  first_call_time : Z
}.

(** What the handlers read of the server: the clocks, the configuration, the state of
    the replication, a random number, the random keys of the table of nodes and the
    random shard of a new node; and whether the address of a peer can be told. *)
Record serverEnv := mk_env {
  mstime : Z;
  unixtime : Z;
  random : Z;
  random_node : nat -> Z;
  random_shard : Z -> Z;
  cluster_node_timeout : Z;
  cluster_ping_interval : Z;
  cluster_migration_barrier : Z;
  cluster_slave_no_failover : bool;
  cluster_slave_validity_factor : Z;
  cluster_require_full_coverage : bool;
  cluster_allow_replica_migration : bool;
  cluster_no_redirection : bool;
  cluster_no_failover : bool;
  repl_ping_slave_period : Z;
  repl_connected : bool;
  master_lastinteraction : Z;
  repl_down_since : Z;
  slave_repl_offset : Z;
  master_repl_offset : Z;
  peer_address_known : bool
}.

Definition set_flags (n : clusterNode) (f : Z) : clusterNode :=
  mk_node f (configEpoch n) (shard_id n) (slots n) (numslots n) (slaves n) (slaveof n)
    (ping_sent n) (pong_received n) (data_received n) (fail_time n) (voted_time n)
    (orphaned_time n) (repl_offset n) (addr n) (link n) (fail_reports n).
Definition set_configEpoch (n : clusterNode) (e : Z) : clusterNode :=
  mk_node (flags n) e (shard_id n) (slots n) (numslots n) (slaves n) (slaveof n) (ping_sent n)
    (pong_received n) (data_received n) (fail_time n) (voted_time n) (orphaned_time n)
    (repl_offset n) (addr n) (link n) (fail_reports n).
Definition set_shard_id (n : clusterNode) (s : Z) : clusterNode :=
  mk_node (flags n) (configEpoch n) s (slots n) (numslots n) (slaves n) (slaveof n)
    (ping_sent n) (pong_received n) (data_received n) (fail_time n) (voted_time n)
    (orphaned_time n) (repl_offset n) (addr n) (link n) (fail_reports n).
Definition set_slots (n : clusterNode) (s k : Z) : clusterNode :=
  mk_node (flags n) (configEpoch n) (shard_id n) s k (slaves n) (slaveof n) (ping_sent n)
    (pong_received n) (data_received n) (fail_time n) (voted_time n) (orphaned_time n)
    (repl_offset n) (addr n) (link n) (fail_reports n).
Definition set_slaves (n : clusterNode) (l : list Z) : clusterNode :=
  mk_node (flags n) (configEpoch n) (shard_id n) (slots n) (numslots n) l (slaveof n)
    (ping_sent n) (pong_received n) (data_received n) (fail_time n) (voted_time n)
    (orphaned_time n) (repl_offset n) (addr n) (link n) (fail_reports n).
Definition set_slaveof (n : clusterNode) (m : option Z) : clusterNode :=
  mk_node (flags n) (configEpoch n) (shard_id n) (slots n) (numslots n) (slaves n) m
    (ping_sent n) (pong_received n) (data_received n) (fail_time n) (voted_time n)
    (orphaned_time n) (repl_offset n) (addr n) (link n) (fail_reports n).
Definition set_ping_sent (n : clusterNode) (t : Z) : clusterNode :=
  mk_node (flags n) (configEpoch n) (shard_id n) (slots n) (numslots n) (slaves n) (slaveof n) t
    (pong_received n) (data_received n) (fail_time n) (voted_time n) (orphaned_time n)
    (repl_offset n) (addr n) (link n) (fail_reports n).
Definition set_pong_received (n : clusterNode) (t : Z) : clusterNode :=
  mk_node (flags n) (configEpoch n) (shard_id n) (slots n) (numslots n) (slaves n) (slaveof n)
    (ping_sent n) t (data_received n) (fail_time n) (voted_time n) (orphaned_time n)
    (repl_offset n) (addr n) (link n) (fail_reports n).
Definition set_data_received (n : clusterNode) (t : Z) : clusterNode :=
  mk_node (flags n) (configEpoch n) (shard_id n) (slots n) (numslots n) (slaves n) (slaveof n)
    (ping_sent n) (pong_received n) t (fail_time n) (voted_time n) (orphaned_time n)
    (repl_offset n) (addr n) (link n) (fail_reports n).
Definition set_fail_time (n : clusterNode) (t : Z) : clusterNode :=
  mk_node (flags n) (configEpoch n) (shard_id n) (slots n) (numslots n) (slaves n) (slaveof n)
    (ping_sent n) (pong_received n) (data_received n) t (voted_time n) (orphaned_time n)
    (repl_offset n) (addr n) (link n) (fail_reports n).
Definition set_voted_time (n : clusterNode) (t : Z) : clusterNode :=
  mk_node (flags n) (configEpoch n) (shard_id n) (slots n) (numslots n) (slaves n) (slaveof n)
    (ping_sent n) (pong_received n) (data_received n) (fail_time n) t (orphaned_time n)
    (repl_offset n) (addr n) (link n) (fail_reports n).
Definition set_orphaned_time (n : clusterNode) (t : Z) : clusterNode :=
  mk_node (flags n) (configEpoch n) (shard_id n) (slots n) (numslots n) (slaves n) (slaveof n)
    (ping_sent n) (pong_received n) (data_received n) (fail_time n) (voted_time n) t
    (repl_offset n) (addr n) (link n) (fail_reports n).
Definition set_repl_offset (n : clusterNode) (o : Z) : clusterNode :=
  mk_node (flags n) (configEpoch n) (shard_id n) (slots n) (numslots n) (slaves n) (slaveof n)
    (ping_sent n) (pong_received n) (data_received n) (fail_time n) (voted_time n)
    (orphaned_time n) o (addr n) (link n) (fail_reports n).
Definition set_addr (n : clusterNode) (a : Z) (l : option Z) : clusterNode :=
  mk_node (flags n) (configEpoch n) (shard_id n) (slots n) (numslots n) (slaves n) (slaveof n)
    (ping_sent n) (pong_received n) (data_received n) (fail_time n) (voted_time n)
    (orphaned_time n) (repl_offset n) a l (fail_reports n).
Definition set_fail_reports (n : clusterNode) (l : list (Z * Z)) : clusterNode :=
  mk_node (flags n) (configEpoch n) (shard_id n) (slots n) (numslots n) (slaves n) (slaveof n)
    (ping_sent n) (pong_received n) (data_received n) (fail_time n) (voted_time n)
    (orphaned_time n) (repl_offset n) (addr n) (link n) l.

Definition set_nodes (cs : clusterState) (ns : gmap Z clusterNode) : clusterState :=
  mk_cluster (myself cs) (currentEpoch cs) (cluster_ok cs) (cluster_size cs) ns
    (nodes_black_list cs) (migrating_slots_to cs) (importing_slots_from cs) (owner cs)
    (failover cs) (manual cs) (lastVoteEpoch cs) (stats_pfail_nodes cs)
    (owner_not_claiming_slot cs) (among_minority_time cs) (first_call_time cs).
Definition set_currentEpoch (cs : clusterState) (e : Z) : clusterState :=
  mk_cluster (myself cs) e (cluster_ok cs) (cluster_size cs) (nodes cs) (nodes_black_list cs)
    (migrating_slots_to cs) (importing_slots_from cs) (owner cs) (failover cs) (manual cs)
    (lastVoteEpoch cs) (stats_pfail_nodes cs) (owner_not_claiming_slot cs)
    (among_minority_time cs) (first_call_time cs).
Definition set_black_list (cs : clusterState) (l : gmap Z Z) : clusterState :=
  mk_cluster (myself cs) (currentEpoch cs) (cluster_ok cs) (cluster_size cs) (nodes cs) l
    (migrating_slots_to cs) (importing_slots_from cs) (owner cs) (failover cs) (manual cs)
    (lastVoteEpoch cs) (stats_pfail_nodes cs) (owner_not_claiming_slot cs)
    (among_minority_time cs) (first_call_time cs).
Definition set_moves (cs : clusterState) (out into : gmap Z Z) : clusterState :=
  mk_cluster (myself cs) (currentEpoch cs) (cluster_ok cs) (cluster_size cs) (nodes cs)
    (nodes_black_list cs) out into (owner cs) (failover cs) (manual cs) (lastVoteEpoch cs)
    (stats_pfail_nodes cs) (owner_not_claiming_slot cs) (among_minority_time cs)
    (first_call_time cs).
Definition set_owner (cs : clusterState) (o : gmap Z Z) (nc : Z) : clusterState :=
  mk_cluster (myself cs) (currentEpoch cs) (cluster_ok cs) (cluster_size cs) (nodes cs)
    (nodes_black_list cs) (migrating_slots_to cs) (importing_slots_from cs) o (failover cs)
    (manual cs) (lastVoteEpoch cs) (stats_pfail_nodes cs) nc (among_minority_time cs)
    (first_call_time cs).
Definition set_failover (cs : clusterState) (f : failoverState) : clusterState :=
  mk_cluster (myself cs) (currentEpoch cs) (cluster_ok cs) (cluster_size cs) (nodes cs)
    (nodes_black_list cs) (migrating_slots_to cs) (importing_slots_from cs) (owner cs) f
    (manual cs) (lastVoteEpoch cs) (stats_pfail_nodes cs) (owner_not_claiming_slot cs)
    (among_minority_time cs) (first_call_time cs).
Definition set_manual (cs : clusterState) (m : manualState) : clusterState :=
  mk_cluster (myself cs) (currentEpoch cs) (cluster_ok cs) (cluster_size cs) (nodes cs)
    (nodes_black_list cs) (migrating_slots_to cs) (importing_slots_from cs) (owner cs)
    (failover cs) m (lastVoteEpoch cs) (stats_pfail_nodes cs) (owner_not_claiming_slot cs)
    (among_minority_time cs) (first_call_time cs).
Definition set_lastVoteEpoch (cs : clusterState) (e : Z) : clusterState :=
  mk_cluster (myself cs) (currentEpoch cs) (cluster_ok cs) (cluster_size cs) (nodes cs)
    (nodes_black_list cs) (migrating_slots_to cs) (importing_slots_from cs) (owner cs)
    (failover cs) (manual cs) e (stats_pfail_nodes cs) (owner_not_claiming_slot cs)
    (among_minority_time cs) (first_call_time cs).
Definition set_stats_pfail_nodes (cs : clusterState) (n : Z) : clusterState :=
  mk_cluster (myself cs) (currentEpoch cs) (cluster_ok cs) (cluster_size cs) (nodes cs)
    (nodes_black_list cs) (migrating_slots_to cs) (importing_slots_from cs) (owner cs)
    (failover cs) (manual cs) (lastVoteEpoch cs) n (owner_not_claiming_slot cs)
    (among_minority_time cs) (first_call_time cs).
Definition set_state (cs : clusterState) (ok : bool) (size minority first : Z) : clusterState :=
  mk_cluster (myself cs) (currentEpoch cs) ok size (nodes cs) (nodes_black_list cs)
    (migrating_slots_to cs) (importing_slots_from cs) (owner cs) (failover cs) (manual cs)
    (lastVoteEpoch cs) (stats_pfail_nodes cs) (owner_not_claiming_slot cs) minority first.

(** ** Nodes *)

Definition has_flag (f : Z) (n : clusterNode) : bool := negb (Z.land (flags n) f =? 0).
Definition add_flag (f : Z) (n : clusterNode) : clusterNode := set_flags n (Z.lor (flags n) f).
Definition del_flag (f : Z) (n : clusterNode) : clusterNode := set_flags n (Z.ldiff (flags n) f).

Definition clusterNodeIsMaster : clusterNode -> bool := has_flag CLUSTER_NODE_MASTER.
Definition nodeIsSlave : clusterNode -> bool := has_flag CLUSTER_NODE_SLAVE.
Definition nodeTimedOut : clusterNode -> bool := has_flag CLUSTER_NODE_PFAIL.
Definition nodeFailed : clusterNode -> bool := has_flag CLUSTER_NODE_FAIL.
Definition nodeCantFailover : clusterNode -> bool := has_flag CLUSTER_NODE_NOFAILOVER.
Definition nodeInHandshake : clusterNode -> bool := has_flag CLUSTER_NODE_HANDSHAKE.
Definition linked (n : clusterNode) : bool := match link n with Some _ => true | None => false end.

(** [n->... = ...] *)
Definition upd (n : Z) (f : clusterNode -> clusterNode) (cs : clusterState) : option clusterState :=
  nd ← nodes cs !! n; Some (set_nodes cs (<[n := f nd]> (nodes cs))).

Definition bitmapTestBit (bitmap pos : Z) : bool := Z.testbit bitmap pos.
Definition bitmapSetBit (bitmap pos : Z) : Z := Z.setbit bitmap pos.
Definition bitmapClearBit (bitmap pos : Z) : Z := Z.clearbit bitmap pos.

(** ** Slots *)

(** The loops over the nodes of the cluster. *)
Definition node_list (cs : clusterState) : list (Z * clusterNode) := map_to_list (nodes cs).

Definition clusterMastersHaveSlaves (cs : clusterState) : bool :=
  negb (foldr (fun '(_, nd) n => if nodeIsSlave nd then n else n + Z.of_nat (length (slaves nd)))
          0 (node_list cs) =? 0).

Definition clusterNodeSetSlotBit (n slot : Z) (cs : clusterState) : option (bool * clusterState) :=
  nd ← nodes cs !! n;
  let old := bitmapTestBit (slots nd) slot in
  if negb old then
    cs ← upd n (fun nd => set_slots nd (bitmapSetBit (slots nd) slot) (i32 (numslots nd + 1))) cs;
    nd ← nodes cs !! n;
    cs ← (if (numslots nd =? 1) && clusterMastersHaveSlaves cs
          then upd n (add_flag CLUSTER_NODE_MIGRATE_TO) cs else Some cs);
    Some (old, cs)
  else Some (old, cs).

Definition clusterNodeClearSlotBit (n slot : Z) (cs : clusterState) : option (bool * clusterState) :=
  nd ← nodes cs !! n;
  let old := bitmapTestBit (slots nd) slot in
  if old then
    cs ← upd n (fun nd => set_slots nd (bitmapClearBit (slots nd) slot) (i32 (numslots nd - 1))) cs;
    Some (old, cs)
  else Some (old, cs).

Definition clusterNodeCoversSlot (n slot : Z) (cs : clusterState) : option bool :=
  nd ← nodes cs !! n; Some (bitmapTestBit (slots nd) slot).

Definition isSlotUnclaimed (slot : Z) (cs : clusterState) : bool :=
  match owner cs !! slot with None => true | Some _ => false end ||
  bitmapTestBit (owner_not_claiming_slot cs) slot.

(** The channels and statistics of the slot belong to other components. *)
Definition clusterAddSlot (n slot : Z) (cs : clusterState) : option (Z * clusterState) :=
  match owner cs !! slot with
  | Some _ => Some (C_ERR, cs)
  | None =>
    '(_, cs) ← clusterNodeSetSlotBit n slot cs;
    Some (C_OK, set_owner cs (<[slot := n]> (owner cs)) (bitmapClearBit (owner_not_claiming_slot cs) slot))
  end.

Definition clusterDelSlot (slot : Z) (cs : clusterState) : option (Z * clusterState) :=
  match owner cs !! slot with
  | None => Some (C_ERR, cs)
  | Some n =>
    '(old, cs) ← clusterNodeClearSlotBit n slot cs;
    _ ← cassert old;
    Some (C_OK, set_owner cs (delete slot (owner cs)) (bitmapClearBit (owner_not_claiming_slot cs) slot))
  end.

(** [for (j = slot; j < slot + k; j++)] *)
Fixpoint for_slots {A} (k : nat) (j : Z) (body : Z -> A -> option A) (a : A) : option A :=
  match k with
  | O => Some a
  | S k => a ← body j a; for_slots k (j + 1) body a
  end.

(** The body of the loops that move slots to a node. *)
Definition move_slot (from_node to_node j : Z) (st : Z * clusterState) : option (Z * clusterState) :=
  let '(processed, cs) := st in
  c ← clusterNodeCoversSlot from_node j cs;
  if c : bool then
    '(_, cs) ← clusterDelSlot j cs;
    '(_, cs) ← clusterAddSlot to_node j cs;
    Some (processed + 1, cs)
  else Some (processed, cs).

Definition clusterMoveNodeSlots (from_node to_node : Z) (cs : clusterState) : option (Z * clusterState) :=
  for_slots (Z.to_nat CLUSTER_SLOTS) 0 (move_slot from_node to_node) (0, cs).

Definition del_slot (node j : Z) (st : Z * clusterState) : option (Z * clusterState) :=
  let '(deleted, cs) := st in
  c ← clusterNodeCoversSlot node j cs;
  if c : bool then
    '(_, cs) ← clusterDelSlot j cs;
    Some (deleted + 1, cs)
  else Some (deleted, cs).

Definition clusterDelNodeSlots (node : Z) (cs : clusterState) : option (Z * clusterState) :=
  for_slots (Z.to_nat CLUSTER_SLOTS) 0 (del_slot node) (0, cs).

Definition clusterCloseAllSlots (cs : clusterState) : clusterState := set_moves cs ∅ ∅.

(** ** Masters and replicas *)

Fixpoint remove_first (x : Z) (l : list Z) : list Z :=
  match l with
  | [] => []
  | y :: l => if y =? x then l else y :: remove_first x l
  end.

Definition clusterNodeRemoveSlave (master slave : Z) (cs : clusterState) : option (Z * clusterState) :=
  nd ← nodes cs !! master;
  if bool_decide (slave ∈ slaves nd) then
    cs ← upd master (fun nd =>
      let nd := set_slaves nd (remove_first slave (slaves nd)) in
      if (length (slaves nd) =? 0)%nat then del_flag CLUSTER_NODE_MIGRATE_TO nd else nd) cs;
    Some (C_OK, cs)
  else Some (C_ERR, cs).

Definition clusterNodeAddSlave (master slave : Z) (cs : clusterState) : option (Z * clusterState) :=
  nd ← nodes cs !! master;
  if bool_decide (slave ∈ slaves nd) then Some (C_ERR, cs)
  else
    cs ← upd master (fun nd =>
      add_flag CLUSTER_NODE_MIGRATE_TO (set_slaves nd (slaves nd ++ [slave]))) cs;
    Some (C_OK, cs).

Definition clusterSetNodeAsMaster (n : Z) (cs : clusterState) : option clusterState :=
  nd ← nodes cs !! n;
  if clusterNodeIsMaster nd then Some cs
  else
    cs ← match slaveof nd with
         | Some m =>
           '(_, cs) ← clusterNodeRemoveSlave m n cs;
           if negb (n =? myself cs) then upd n (add_flag CLUSTER_NODE_MIGRATE_TO) cs else Some cs
         | None => Some cs
         end;
    upd n (fun nd => set_slaveof (add_flag CLUSTER_NODE_MASTER (del_flag CLUSTER_NODE_SLAVE nd)) None) cs.

Definition resetManualFailover (cs : clusterState) : clusterState :=
  set_manual cs (mk_manual 0 None (-1) false).

Definition assignShardIdToNode (n shard : Z) (cs : clusterState) : option clusterState :=
  upd n (fun nd => set_shard_id nd shard) cs.

Fixpoint assign_slaves (l : list Z) (shard : Z) (cs : clusterState) : option clusterState :=
  match l with
  | [] => Some cs
  | s :: l =>
    nd ← nodes cs !! s;
    cs ← (if shard_id nd =? shard then Some cs else assignShardIdToNode s shard cs);
    assign_slaves l shard cs
  end.

Definition updateShardId (n shard : Z) (cs : clusterState) : option clusterState :=
  nd ← nodes cs !! n;
  if shard_id nd =? shard then Some cs
  else
    match slaveof nd with
    | None => cs ← assignShardIdToNode n shard cs; assign_slaves (slaves nd) shard cs
    | Some m =>
      mnd ← nodes cs !! m;
      if shard_id mnd =? shard then assignShardIdToNode n shard cs else Some cs
    end.

(** The connection to the new master belongs to the replication. *)
Definition clusterSetMaster (n : Z) (cs : clusterState) : option clusterState :=
  _ ← cassert (negb (n =? myself cs));
  me ← nodes cs !! myself cs;
  _ ← cassert (numslots me =? 0);
  let was_master := clusterNodeIsMaster me in
  cs ← (if was_master then
          cs ← upd (myself cs) (fun nd => add_flag CLUSTER_NODE_SLAVE
                 (del_flag (Z.lor CLUSTER_NODE_MASTER CLUSTER_NODE_MIGRATE_TO) nd)) cs;
          Some (clusterCloseAllSlots cs)
        else match slaveof me with
             | Some m => '(_, cs) ← clusterNodeRemoveSlave m (myself cs) cs; Some cs
             | None => Some cs
             end);
  cs ← upd (myself cs) (fun nd => set_slaveof nd (Some n)) cs;
  nd ← nodes cs !! n;
  cs ← updateShardId (myself cs) (shard_id nd) cs;
  '(_, cs) ← clusterNodeAddSlave n (myself cs) cs;
  Some (resetManualFailover cs).

(** ** The state of the cluster *)

Definition count_masters (p : clusterNode -> bool) (cs : clusterState) : Z :=
  foldr (fun '(_, nd) n => if clusterNodeIsMaster nd && negb (numslots nd =? 0) && p nd then n + 1 else n)
    0 (node_list cs).

(** [server.cluster->slots[j] == NULL || ...->flags & CLUSTER_NODE_FAIL], for some [j]. *)
Fixpoint slot_uncovered (k : nat) (j : Z) (cs : clusterState) : option bool :=
  match k with
  | O => Some false
  | S k =>
    match owner cs !! j with
    | None => Some true
    | Some n =>
      nd ← nodes cs !! n;
      if nodeFailed nd then Some true else slot_uncovered k (j + 1) cs
    end
  end.

Definition clusterUpdateState (env : serverEnv) (cs : clusterState) : option clusterState :=
  let first := if first_call_time cs =? 0 then mstime env else first_call_time cs in
  let cs := set_state cs (cluster_ok cs) (cluster_size cs) (among_minority_time cs) first in
  me ← nodes cs !! myself cs;
  if clusterNodeIsMaster me && negb (cluster_ok cs) && (mstime env - first <? CLUSTER_WRITABLE_DELAY)
  then Some cs
  else
    uncovered ← (if cluster_require_full_coverage env
                 then slot_uncovered (Z.to_nat CLUSTER_SLOTS) 0 cs else Some false);
    let size := count_masters (fun _ => true) cs in
    let reachable_masters := count_masters
      (fun nd => negb (has_flag (Z.lor CLUSTER_NODE_FAIL CLUSTER_NODE_PFAIL) nd)) cs in
    let minority := reachable_masters <? size / 2 + 1 in
    let new_state := negb uncovered && negb minority in
    let among := if minority then mstime env else among_minority_time cs in
    let cs := set_state cs (cluster_ok cs) size among first in
    if Bool.eqb new_state (cluster_ok cs) then Some cs
    else
      let rejoin_delay :=
        Z.max (Z.min (cluster_node_timeout env) CLUSTER_MAX_REJOIN_DELAY) CLUSTER_MIN_REJOIN_DELAY in
      if new_state && clusterNodeIsMaster me && (mstime env - among <? rejoin_delay) then Some cs
      else Some (set_state cs new_state size among first).

(** ** Messages *)

(** An entry of the gossip section: what the sender knows of a node. *)
Record gossip := mk_gossip {
  g_node : Z;
  g_flags : Z;
  g_ping_sent : Z;
  g_pong_received : Z;
  g_addr : Z
}.

(** The types of messages, with what the last two carry. *)
Inductive msgType :=
| CLUSTERMSG_TYPE_PING
| CLUSTERMSG_TYPE_PONG
| CLUSTERMSG_TYPE_FAILOVER_AUTH_REQUEST
| CLUSTERMSG_TYPE_FAILOVER_AUTH_ACK
| CLUSTERMSG_TYPE_MFSTART
| CLUSTERMSG_TYPE_FAIL (about : Z)
| CLUSTERMSG_TYPE_UPDATE (node epoch claimed : Z).

#[export] Instance msgType_eq_dec : EqDecision msgType.
Proof. solve_decision. Defined.

(** A [clusterMsg]: [m_paused] and [m_forceack] are bits of [mflags], [m_addr] is the
    address the message comes from. *)
Record clusterMsg := mk_msg {
  m_type : msgType;
  m_sender : Z;
  m_currentEpoch : Z;
  m_configEpoch : Z;
  m_myslots : Z;
  m_slaveof : option Z;
  m_flags : Z;
  m_addr : Z;
  m_offset : Z;
  m_paused : bool;
  m_forceack : bool;
  m_gossip : list gossip
}.

#[export] Instance gossip_eq_dec : EqDecision gossip.
Proof. solve_decision. Defined.

#[export] Instance clusterMsg_eq_dec : EqDecision clusterMsg.
Proof. solve_decision. Defined.

(** Messages sent, each with the node it is sent to. *)
Abbreviation sends := (list (Z * clusterMsg)).

Definition clusterBuildMessageHdr (env : serverEnv) (type : msgType) (cs : clusterState) : option clusterMsg :=
  me ← nodes cs !! myself cs;
  master ← match slaveof me with
           | Some m => if nodeIsSlave me then nodes cs !! m else Some me
           | None => Some me
           end;
  let offset := if nodeIsSlave me then slave_repl_offset env else master_repl_offset env in
  let paused := clusterNodeIsMaster me && negb (mf_end (manual cs) =? 0) in
  Some (mk_msg type (myself cs) (currentEpoch cs) (configEpoch master) (slots master) (slaveof me)
    (flags me) (addr me) (u64 offset) paused false []).

Definition clusterSendMessage (n : Z) (msg : clusterMsg) (cs : clusterState) : option sends :=
  nd ← nodes cs !! n; Some (if linked nd then [(n, msg)] else []).

Definition clusterBroadcastMessage (msg : clusterMsg) (cs : clusterState) : sends :=
  foldr (fun '(n, nd) out =>
    if has_flag (Z.lor CLUSTER_NODE_MYSELF CLUSTER_NODE_HANDSHAKE) nd then out
    else if linked nd then (n, msg) :: out else out) [] (node_list cs).

Definition clusterSendUpdate (env : serverEnv) (dest node : Z) (cs : clusterState) : option sends :=
  nd ← nodes cs !! node;
  msg ← clusterBuildMessageHdr env (CLUSTERMSG_TYPE_UPDATE node (configEpoch nd)
          (Z.ldiff (slots nd) (owner_not_claiming_slot cs))) cs;
  clusterSendMessage dest msg cs.

Definition clusterSendFail (env : serverEnv) (node : Z) (cs : clusterState) : option sends :=
  msg ← clusterBuildMessageHdr env (CLUSTERMSG_TYPE_FAIL node) cs;
  Some (clusterBroadcastMessage msg cs).

Definition clusterSetGossipEntry (n : Z) (nd : clusterNode) : gossip :=
  mk_gossip n (flags nd) (u32 (ping_sent nd / 1000)) (u32 (pong_received nd / 1000)) (addr nd).

(** The first loop of [clusterSendPing]: random nodes, each at most once, in at most
    [k] draws of which the next has number [i]. *)
Fixpoint gossip_random (env : serverEnv) (k i : nat) (receiver freshnodes wanted : Z) (cs : clusterState)
    (acc : list gossip) : option (list gossip) :=
  match k with
  | O => Some acc
  | S k =>
    if (freshnodes >? 0) && (Z.of_nat (length acc) <? wanted) then
      let this := random_node env i in
      nd ← nodes cs !! this;
      if (this =? myself cs) || (this =? receiver) || nodeTimedOut nd
      then gossip_random env k (S i) receiver freshnodes wanted cs acc
      else if has_flag (Z.lor CLUSTER_NODE_HANDSHAKE CLUSTER_NODE_NOADDR) nd ||
              (negb (linked nd) && (numslots nd =? 0))
      then gossip_random env k (S i) receiver (freshnodes - 1) wanted cs acc
      else if existsb (fun g => g_node g =? this) acc
      then gossip_random env k (S i) receiver freshnodes wanted cs acc
      else gossip_random env k (S i) receiver (freshnodes - 1) wanted cs (acc ++ [clusterSetGossipEntry this nd])
    else Some acc
  end.

(** The second: the nodes that may be failing, as many as the last count of them. *)
Definition gossip_pfail (cs : clusterState) : list gossip :=
  take (Z.to_nat (stats_pfail_nodes cs))
    ((fun '(n, nd) => clusterSetGossipEntry n nd) <$>
     filter (fun '(_, nd) => negb (has_flag (Z.lor CLUSTER_NODE_HANDSHAKE CLUSTER_NODE_NOADDR) nd) && nodeTimedOut nd)
       (node_list cs)).

(** A PING or PONG for [receiver], over the link to it when [outbound]. *)
Definition clusterSendPing (env : serverEnv) (outbound : bool) (receiver : Z) (type : msgType) (cs : clusterState)
    : option (clusterState * sends) :=
  let freshnodes := Z.of_nat (size (nodes cs)) - 2 in
  let wanted := Z.min (Z.max (Z.of_nat (size (nodes cs)) / 10) 3) freshnodes in
  hdr ← clusterBuildMessageHdr env type cs;
  cs ← (if outbound && bool_decide (type = CLUSTERMSG_TYPE_PING)
        then upd receiver (fun nd => set_ping_sent nd (mstime env)) cs else Some cs);
  g ← gossip_random env (Z.to_nat (wanted * 3)) 0 receiver freshnodes wanted cs [];
  _ ← cassert (Z.of_nat (length (g ++ gossip_pfail cs)) <? USHRT_MAX);
  Some (cs, [(receiver, mk_msg (m_type hdr) (m_sender hdr) (m_currentEpoch hdr) (m_configEpoch hdr)
    (m_myslots hdr) (m_slaveof hdr) (m_flags hdr) (m_addr hdr) (m_offset hdr) (m_paused hdr)
    (m_forceack hdr) (g ++ gossip_pfail cs))]).

(** ** Failure detection *)

Definition clusterNodeAddFailureReport (env : serverEnv) (failing sender : Z) (cs : clusterState)
    : option (Z * clusterState) :=
  nd ← nodes cs !! failing;
  match list_find (fun fr : Z * Z => fr.1 = sender) (fail_reports nd) with
  | Some (i, _) =>
    cs ← upd failing (fun nd => set_fail_reports nd (<[i := (sender, mstime env)]> (fail_reports nd))) cs;
    Some (0, cs)
  | None =>
    cs ← upd failing (fun nd => set_fail_reports nd (fail_reports nd ++ [(sender, mstime env)])) cs;
    Some (1, cs)
  end.

Definition clusterNodeCleanupFailureReports (env : serverEnv) (node : Z) (cs : clusterState)
    : option clusterState :=
  let maxtime := cluster_node_timeout env * CLUSTER_FAIL_REPORT_VALIDITY_MULT in
  upd node (fun nd => set_fail_reports nd
    (filter (fun fr : Z * Z => ~ (maxtime < mstime env - fr.2)) (fail_reports nd))) cs.

Definition clusterNodeDelFailureReport (env : serverEnv) (node sender : Z) (cs : clusterState)
    : option (Z * clusterState) :=
  nd ← nodes cs !! node;
  match list_find (fun fr : Z * Z => fr.1 = sender) (fail_reports nd) with
  | None => Some (0, cs)
  | Some (i, _) =>
    cs ← upd node (fun nd => set_fail_reports nd (delete i (fail_reports nd))) cs;
    cs ← clusterNodeCleanupFailureReports env node cs;
    Some (1, cs)
  end.

Definition clusterNodeFailureReportsCount (env : serverEnv) (node : Z) (cs : clusterState)
    : option (Z * clusterState) :=
  cs ← clusterNodeCleanupFailureReports env node cs;
  nd ← nodes cs !! node;
  Some (Z.of_nat (length (fail_reports nd)), cs).

Definition markNodeAsFailingIfNeeded (env : serverEnv) (node : Z) (cs : clusterState)
    : option (clusterState * sends) :=
  let needed_quorum := cluster_size cs / 2 + 1 in
  nd ← nodes cs !! node;
  if negb (nodeTimedOut nd) then Some (cs, [])
  else if nodeFailed nd then Some (cs, [])
  else
    '(failures, cs) ← clusterNodeFailureReportsCount env node cs;
    me ← nodes cs !! myself cs;
    let failures := if clusterNodeIsMaster me then failures + 1 else failures in
    if failures <? needed_quorum then Some (cs, [])
    else
      cs ← upd node (fun nd =>
        set_fail_time (add_flag CLUSTER_NODE_FAIL (del_flag CLUSTER_NODE_PFAIL nd)) (mstime env)) cs;
      out ← clusterSendFail env node cs;
      Some (cs, out).

Definition clearNodeFailureIfNeeded (env : serverEnv) (node : Z) (cs : clusterState)
    : option clusterState :=
  nd ← nodes cs !! node;
  _ ← cassert (nodeFailed nd);
  cs ← (if nodeIsSlave nd || (numslots nd =? 0) then upd node (del_flag CLUSTER_NODE_FAIL) cs else Some cs);
  nd ← nodes cs !! node;
  if clusterNodeIsMaster nd && (numslots nd >? 0) &&
     (mstime env - fail_time nd >? cluster_node_timeout env * CLUSTER_FAIL_UNDO_TIME_MULT)
  then upd node (del_flag CLUSTER_NODE_FAIL) cs
  else Some cs.

(** ** Configuration epochs *)

Definition clusterGetMaxEpoch (cs : clusterState) : Z :=
  Z.max (foldr (fun '(_, nd) m => Z.max (configEpoch nd) m) 0 (node_list cs)) (currentEpoch cs).

(** [server.cluster->currentEpoch++] *)
Definition next_epoch (cs : clusterState) : clusterState :=
  set_currentEpoch cs (u64 (currentEpoch cs + 1)).

Definition clusterBumpConfigEpochWithoutConsensus (cs : clusterState) : option (Z * clusterState) :=
  let maxEpoch := clusterGetMaxEpoch cs in
  me ← nodes cs !! myself cs;
  if (configEpoch me =? 0) || negb (configEpoch me =? maxEpoch) then
    let cs := next_epoch cs in
    cs ← upd (myself cs) (fun nd => set_configEpoch nd (currentEpoch cs)) cs;
    Some (C_OK, cs)
  else Some (C_ERR, cs).

Definition clusterHandleConfigEpochCollision (sender : Z) (cs : clusterState) : option clusterState :=
  snd_nd ← nodes cs !! sender;
  me ← nodes cs !! myself cs;
  if negb (configEpoch snd_nd =? configEpoch me) || negb (clusterNodeIsMaster snd_nd) ||
     negb (clusterNodeIsMaster me) then Some cs
  else if sender <=? myself cs then Some cs
  else
    let cs := next_epoch cs in
    upd (myself cs) (fun nd => set_configEpoch nd (currentEpoch cs)) cs.

(** ** Updates of the slots *)

(** What the loop of [clusterUpdateSlotsConfigWith] gathers: whether a slot of the
    current master was taken, how many, and how many slots the sender claims. *)
Record slotsUpdate := mk_update {
  newmaster : bool;
  migrated_our_slots : Z;
  sender_slots : Z
}.

(** The body of the loop.  The keys of the slots that are lost, and the migrations in
    progress, belong to other components. *)
Definition update_slot (sender senderConfigEpoch claimed : Z) (curmaster : option Z) (j : Z)
    (st : slotsUpdate * clusterState) : option (slotsUpdate * clusterState) :=
  let '(u, cs) := st in
  if bitmapTestBit claimed j then
    let u := mk_update (newmaster u) (migrated_our_slots u) (sender_slots u + 1) in
    if bool_decide (owner cs !! j = Some sender) then
      Some (u, set_owner cs (owner cs) (bitmapClearBit (owner_not_claiming_slot cs) j))
    else
      match importing_slots_from cs !! j with
      | Some _ => Some (u, cs)
      | None =>
        rebind ← (if isSlotUnclaimed j cs then Some true
                  else o ← owner cs !! j; nd ← nodes cs !! o; Some (configEpoch nd <? senderConfigEpoch));
        if rebind : bool then
          let u := if bool_decide (owner cs !! j = curmaster)
                   then mk_update true (migrated_our_slots u + 1) (sender_slots u) else u in
          '(_, cs) ← clusterDelSlot j cs;
          '(_, cs) ← clusterAddSlot sender j cs;
          Some (u, cs)
        else Some (u, cs)
      end
  else if bool_decide (owner cs !! j = Some sender) then
    Some (u, set_owner cs (owner cs) (bitmapSetBit (owner_not_claiming_slot cs) j))
  else Some (u, cs).

Definition clusterUpdateSlotsConfigWith (env : serverEnv)
    (sender senderConfigEpoch claimed : Z) (cs : clusterState) : option clusterState :=
  me ← nodes cs !! myself cs;
  let curmaster := if clusterNodeIsMaster me then Some (myself cs) else slaveof me in
  if sender =? myself cs then Some cs
  else
    '(u, cs) ← for_slots (Z.to_nat CLUSTER_SLOTS) 0
                 (update_slot sender senderConfigEpoch claimed curmaster) (mk_update false 0 0, cs);
    if cluster_no_redirection env then Some cs
    else
      lost ← (if newmaster u then c ← curmaster; nd ← nodes cs !! c; Some (numslots nd =? 0) else Some false);
      if lost && (cluster_allow_replica_migration env || (sender_slots u =? migrated_our_slots u))
      then clusterSetMaster sender cs
      else
        me ← nodes cs !! myself cs;
        match slaveof me with
        | None => Some cs
        | Some m =>
          nd ← nodes cs !! m;
          match slaveof nd with
          | Some g => if g =? myself cs then Some cs else clusterSetMaster g cs
          | None => Some cs
          end
        end.

(** ** Elections *)

Definition clusterRequestFailoverAuth (env : serverEnv) (cs : clusterState) : option sends :=
  msg ← clusterBuildMessageHdr env CLUSTERMSG_TYPE_FAILOVER_AUTH_REQUEST cs;
  let force := negb (mf_end (manual cs) =? 0) in
  Some (clusterBroadcastMessage (mk_msg (m_type msg) (m_sender msg) (m_currentEpoch msg)
    (m_configEpoch msg) (m_myslots msg) (m_slaveof msg) (m_flags msg) (m_addr msg) (m_offset msg)
    (m_paused msg) force (m_gossip msg)) cs).

Definition clusterSendFailoverAuth (env : serverEnv) (node : Z) (cs : clusterState) : option sends :=
  msg ← clusterBuildMessageHdr env CLUSTERMSG_TYPE_FAILOVER_AUTH_ACK cs;
  clusterSendMessage node msg cs.

(** A slot that is claimed with an epoch older than that of its owner. *)
Fixpoint claims_newer_slot (k : nat) (j : Z) (claimed requestConfigEpoch : Z) (cs : clusterState)
    : option bool :=
  match k with
  | O => Some false
  | S k =>
    if negb (bitmapTestBit claimed j) then claims_newer_slot k (j + 1) claimed requestConfigEpoch cs
    else if isSlotUnclaimed j cs then claims_newer_slot k (j + 1) claimed requestConfigEpoch cs
    else
      o ← owner cs !! j;
      nd ← nodes cs !! o;
      if configEpoch nd <=? requestConfigEpoch
      then claims_newer_slot k (j + 1) claimed requestConfigEpoch cs
      else Some true
  end.

Definition clusterSendFailoverAuthIfNeeded (env : serverEnv) (node : Z) (request : clusterMsg)
    (cs : clusterState) : option (clusterState * sends) :=
  nd ← nodes cs !! node;
  me ← nodes cs !! myself cs;
  if nodeIsSlave me || (numslots me =? 0) then Some (cs, [])
  else if m_currentEpoch request <? currentEpoch cs then Some (cs, [])
  else if lastVoteEpoch cs =? currentEpoch cs then Some (cs, [])
  else if clusterNodeIsMaster nd then Some (cs, [])
  else
    match slaveof nd with
    | None => Some (cs, [])
    | Some master =>
      mnd ← nodes cs !! master;
      if negb (nodeFailed mnd) && negb (m_forceack request) then Some (cs, [])
      else if mstime env - voted_time mnd <? cluster_node_timeout env * 2 then Some (cs, [])
      else
        newer ← claims_newer_slot (Z.to_nat CLUSTER_SLOTS) 0 (m_myslots request) (m_configEpoch request) cs;
        if newer : bool then Some (cs, [])
        else
          let cs := set_lastVoteEpoch cs (currentEpoch cs) in
          cs ← upd master (fun nd => set_voted_time nd (mstime env)) cs;
          out ← clusterSendFailoverAuth env node cs;
          Some (cs, out)
    end.

(** The loop of [clusterGetSlaveRank]. *)
Fixpoint slave_rank (l : list Z) (myoffset : Z) (cs : clusterState) : option Z :=
  match l with
  | [] => Some 0
  | s :: l =>
    nd ← nodes cs !! s;
    r ← slave_rank l myoffset cs;
    Some (if negb (s =? myself cs) && negb (nodeCantFailover nd) && (repl_offset nd >? myoffset)
          then r + 1 else r)
  end.

Definition clusterGetSlaveRank (env : serverEnv) (cs : clusterState) : option Z :=
  me ← nodes cs !! myself cs;
  _ ← cassert (nodeIsSlave me);
  match slaveof me with
  | None => Some 0
  | Some m => nd ← nodes cs !! m; slave_rank (slaves nd) (slave_repl_offset env) cs
  end.

(** The loop over the slots of the old master is that of [clusterMoveNodeSlots]. *)
Definition clusterFailoverReplaceYourMaster (env : serverEnv) (cs : clusterState) : option clusterState :=
  me ← nodes cs !! myself cs;
  match slaveof me with
  | None => Some cs
  | Some oldmaster =>
    if clusterNodeIsMaster me then Some cs
    else
      cs ← clusterSetNodeAsMaster (myself cs) cs;
      '(_, cs) ← clusterMoveNodeSlots oldmaster (myself cs) cs;
      cs ← clusterUpdateState env cs;
      Some (resetManualFailover cs)
  end.

Definition set_cant_reason (r : Z) (cs : clusterState) : clusterState :=
  let f := failover cs in
  set_failover cs (mk_failover (failover_auth_time f) (failover_auth_count f) (failover_auth_sent f)
    (failover_auth_rank f) (failover_auth_epoch f) r).

(** A new election is scheduled.  The PONG that tells the other replicas the offset of
    this one is not recorded. *)
Definition schedule_election (env : serverEnv) (cs : clusterState) : option clusterState :=
  rank ← clusterGetSlaveRank env cs;
  let f := failover cs in
  let time := mstime env + 500 + random env `mod` 500 + rank * 1000 in
  let manual_failover := negb (mf_end (manual cs) =? 0) in
  Some (set_failover cs (mk_failover (if manual_failover then mstime env else time) 0 0
    (if manual_failover then 0 else rank) (failover_auth_epoch f) (cant_failover_reason f))).

(** The delay of a scheduled election follows the rank. *)
Definition update_rank (env : serverEnv) (cs : clusterState) : option clusterState :=
  let f := failover cs in
  if (failover_auth_sent f =? 0) && (mf_end (manual cs) =? 0) then
    newrank ← clusterGetSlaveRank env cs;
    if newrank >? failover_auth_rank f then
      Some (set_failover cs (mk_failover
        (failover_auth_time f + (newrank - failover_auth_rank f) * 1000) (failover_auth_count f)
        (failover_auth_sent f) newrank (failover_auth_epoch f) (cant_failover_reason f)))
    else Some cs
  else Some cs.

(** The election is started: votes are asked for. *)
Definition start_election (env : serverEnv) (cs : clusterState) : option (clusterState * sends) :=
  let cs := next_epoch cs in
  let f := failover cs in
  let cs := set_failover cs (mk_failover (failover_auth_time f) (failover_auth_count f) (failover_auth_sent f)
    (failover_auth_rank f) (currentEpoch cs) (cant_failover_reason f)) in
  out ← clusterRequestFailoverAuth env cs;
  let f := failover cs in
  Some (set_failover cs (mk_failover (failover_auth_time f) (failover_auth_count f) 1
    (failover_auth_rank f) (failover_auth_epoch f) (cant_failover_reason f)), out).

(** What a call of [clusterHandleSlaveFailover] did: the messages it sent, and
    whether the election was won. *)
Definition clusterHandleSlaveFailover (env : serverEnv) (cs : clusterState)
    : option (clusterState * sends * bool) :=
  let auth_age := mstime env - failover_auth_time (failover cs) in
  let needed_quorum := cluster_size cs / 2 + 1 in
  let manual_failover := negb (mf_end (manual cs) =? 0) && mf_can_start (manual cs) in
  let auth_timeout := Z.max (cluster_node_timeout env * 2) 2000 in
  let auth_retry_time := auth_timeout * 2 in
  me ← nodes cs !! myself cs;
  master ← match slaveof me with Some m => nd ← nodes cs !! m; Some (Some nd) | None => Some None end;
  if clusterNodeIsMaster me ||
     match master with
     | None => true
     | Some master =>
       (negb (nodeFailed master) && negb manual_failover) ||
       (cluster_slave_no_failover env && negb manual_failover) || (numslots master =? 0)
     end
  then Some (set_cant_reason CLUSTER_CANT_FAILOVER_NONE cs, [], false)
  else
    let data_age := (unixtime env -
      (if repl_connected env then master_lastinteraction env else repl_down_since env)) * 1000 in
    let data_age := if data_age >? cluster_node_timeout env then data_age - cluster_node_timeout env else data_age in
    if negb (cluster_slave_validity_factor env =? 0) &&
       (data_age >? repl_ping_slave_period env * 1000 +
                    cluster_node_timeout env * cluster_slave_validity_factor env) && negb manual_failover
    then Some (set_cant_reason CLUSTER_CANT_FAILOVER_DATA_AGE cs, [], false)
    else if auth_age >? auth_retry_time then
      cs ← schedule_election env cs;
      Some (cs, [], false)
    else
      cs ← update_rank env cs;
      if mstime env <? failover_auth_time (failover cs)
      then Some (set_cant_reason CLUSTER_CANT_FAILOVER_WAITING_DELAY cs, [], false)
      else if auth_age >? auth_timeout
      then Some (set_cant_reason CLUSTER_CANT_FAILOVER_EXPIRED cs, [], false)
      else if failover_auth_sent (failover cs) =? 0 then
        '(cs, out) ← start_election env cs;
        Some (cs, out, false)
      else if failover_auth_count (failover cs) >=? needed_quorum then
        cs ← (if configEpoch me <? failover_auth_epoch (failover cs)
              then upd (myself cs) (fun nd => set_configEpoch nd (failover_auth_epoch (failover cs))) cs
              else Some cs);
        cs ← clusterFailoverReplaceYourMaster env cs;
        Some (cs, [], true)
      else Some (set_cant_reason CLUSTER_CANT_FAILOVER_WAITING_VOTES cs, [], false).

(** ** Packets *)

(** What [clusterProcessPacket] learns from the header of a packet of a known node. *)
Definition process_header (env : serverEnv) (sender : Z) (msg : clusterMsg) (cs : clusterState) : option clusterState :=
  cs ← upd sender (fun nd => set_data_received nd (mstime env)) cs;
  nd ← nodes cs !! sender;
  if nodeInHandshake nd then Some cs
  else
    let cs := if m_currentEpoch msg >? currentEpoch cs then set_currentEpoch cs (m_currentEpoch msg) else cs in
    cs ← upd sender (fun nd =>
           let nd := if m_configEpoch msg >? configEpoch nd then set_configEpoch nd (m_configEpoch msg) else nd in
           set_repl_offset nd (i64 (m_offset msg))) cs;
    me ← nodes cs !! myself cs;
    let mf := manual cs in
    if negb (mf_end mf =? 0) && nodeIsSlave me && bool_decide (slaveof me = Some sender) && m_paused msg &&
       (mf_master_offset mf =? -1)
    then Some (set_manual cs (mk_manual (mf_end mf) (mf_slave mf) (i64 (m_offset msg)) (mf_can_start mf)))
    else Some cs.

Definition process_auth_ack (sender : Z) (msg : clusterMsg) (cs : clusterState) : option clusterState :=
  nd ← nodes cs !! sender;
  let senderCurrentEpoch := if nodeInHandshake nd then 0 else m_currentEpoch msg in
  let f := failover cs in
  if clusterNodeIsMaster nd && (numslots nd >? 0) && (senderCurrentEpoch >=? failover_auth_epoch f) then
    Some (set_failover cs (mk_failover (failover_auth_time f) (i32 (failover_auth_count f + 1))
      (failover_auth_sent f) (failover_auth_rank f) (failover_auth_epoch f) (cant_failover_reason f)))
  else Some cs.

Definition process_fail (env : serverEnv) (about : Z) (cs : clusterState) : option clusterState :=
  match nodes cs !! about with
  | None => Some cs
  | Some failing =>
    if has_flag (Z.lor CLUSTER_NODE_FAIL CLUSTER_NODE_MYSELF) failing then Some cs
    else upd about (fun nd =>
           del_flag CLUSTER_NODE_PFAIL (set_fail_time (add_flag CLUSTER_NODE_FAIL nd) (mstime env))) cs
  end.

Definition process_mfstart (env : serverEnv) (sender : Z) (cs : clusterState)
    : option (clusterState * sends) :=
  nd ← nodes cs !! sender;
  if negb (bool_decide (slaveof nd = Some (myself cs))) then Some (cs, [])
  else
    let cs := resetManualFailover cs in
    let cs := set_manual cs (mk_manual (mstime env + CLUSTER_MF_TIMEOUT) (Some sender)
                (mf_master_offset (manual cs)) (mf_can_start (manual cs))) in
    clusterSendPing env false sender CLUSTERMSG_TYPE_PING cs.

Definition process_update (env : serverEnv) (n reportedConfigEpoch claimed : Z)
    (cs : clusterState) : option clusterState :=
  match nodes cs !! n with
  | None => Some cs
  | Some nd =>
    if configEpoch nd >=? reportedConfigEpoch then Some cs
    else
      cs ← (if nodeIsSlave nd then clusterSetNodeAsMaster n cs else Some cs);
      cs ← upd n (fun nd => set_configEpoch nd reportedConfigEpoch) cs;
      clusterUpdateSlotsConfigWith env n reportedConfigEpoch claimed cs
  end.

(** The first claimed slot whose owner has a newer epoch: the sender is told. *)
Fixpoint newer_owner (k : nat) (j : Z) (sender senderConfigEpoch claimed : Z) (cs : clusterState)
    : option (option Z) :=
  match k with
  | O => Some None
  | S k =>
    if negb (bitmapTestBit claimed j) || bool_decide (owner cs !! j = Some sender) || isSlotUnclaimed j cs
    then newer_owner k (j + 1) sender senderConfigEpoch claimed cs
    else
      o ← owner cs !! j;
      nd ← nodes cs !! o;
      if configEpoch nd >? senderConfigEpoch then Some (Some o)
      else newer_owner k (j + 1) sender senderConfigEpoch claimed cs
  end.

(** A PING comes over a link from the sender, a PONG over the link to it. *)
Definition nodeUpdateAddressIfNeeded (env : serverEnv) (sender : Z) (msg : clusterMsg) (cs : clusterState)
    : option clusterState :=
  nd ← nodes cs !! sender;
  if negb (peer_address_known env) then Some cs
  else if addr nd =? m_addr msg then Some cs
  else upd sender (fun nd => del_flag CLUSTER_NODE_NOADDR (set_addr nd (m_addr msg) None)) cs.

Definition process_pong (env : serverEnv) (sender : Z) (cs : clusterState) : option clusterState :=
  cs ← upd sender (fun nd => set_ping_sent (set_pong_received nd (mstime env)) 0) cs;
  nd ← nodes cs !! sender;
  if nodeTimedOut nd then upd sender (del_flag CLUSTER_NODE_PFAIL) cs
  else if nodeFailed nd then clearNodeFailureIfNeeded env sender cs
  else Some cs.

(** A master says that it is now a replica: its slots go to the new master, when that
    is of the same shard and the message is not an old one, or are left unassigned. *)
Definition master_to_slave (sender : Z) (master : option Z) (senderConfigEpoch : Z) (cs : clusterState)
    : option clusterState :=
  nd ← nodes cs !! sender;
  same_shard ← match master with
               | Some m => mnd ← nodes cs !! m; Some (shard_id mnd =? shard_id nd)
               | None => Some false
               end;
  cs ← match master, same_shard with
       | Some m, true =>
         if configEpoch nd >? senderConfigEpoch then Some cs
         else
           '(_, cs) ← clusterMoveNodeSlots sender m cs;
           cs ← clusterSetNodeAsMaster m cs;
           upd m (fun nd => set_configEpoch nd senderConfigEpoch) cs
       | _, _ => '(_, cs) ← clusterDelNodeSlots sender cs; Some cs
       end;
  upd sender (fun nd => add_flag CLUSTER_NODE_SLAVE
    (del_flag (Z.lor CLUSTER_NODE_MASTER CLUSTER_NODE_MIGRATE_TO) nd)) cs.

(** The replica has another master. *)
Definition change_master (sender m : Z) (cs : clusterState) : option clusterState :=
  nd ← nodes cs !! sender;
  cs ← match slaveof nd with
       | Some old => '(_, cs) ← clusterNodeRemoveSlave old sender cs; Some cs
       | None => Some cs
       end;
  '(_, cs) ← clusterNodeAddSlave m sender cs;
  cs ← upd sender (fun nd => set_slaveof nd (Some m)) cs;
  mnd ← nodes cs !! m;
  updateShardId sender (shard_id mnd) cs.

(** The role the sender announces. *)
Definition process_role (sender : Z) (msg : clusterMsg) (senderConfigEpoch : Z) (cs : clusterState)
    : option clusterState :=
  match m_slaveof msg with
  | None => clusterSetNodeAsMaster sender cs
  | Some m =>
    let master := match nodes cs !! m with Some _ => Some m | None => None end in
    nd ← nodes cs !! sender;
    cs ← (if clusterNodeIsMaster nd then master_to_slave sender master senderConfigEpoch cs else Some cs);
    match master with
    | Some m =>
      nd ← nodes cs !! sender;
      if bool_decide (slaveof nd = Some m) then Some cs else change_master sender m cs
    | None => Some cs
    end
  end.

(** What the sender says of its slots and its epoch. *)
Definition process_config (env : serverEnv) (sender : Z) (msg : clusterMsg) (senderConfigEpoch : Z)
    (cs : clusterState) : option (clusterState * sends) :=
  nd ← nodes cs !! sender;
  sender_master ← (if clusterNodeIsMaster nd then Some (Some nd)
                   else match slaveof nd with
                        | Some m => mnd ← nodes cs !! m; Some (Some mnd)
                        | None => Some None
                        end);
  let dirty_slots := match sender_master with
                     | Some mnd => negb (slots mnd =? m_myslots msg)
                     | None => false
                     end in
  cs ← (if clusterNodeIsMaster nd && dirty_slots
        then clusterUpdateSlotsConfigWith env sender senderConfigEpoch (m_myslots msg) cs
        else Some cs);
  out ← (if dirty_slots then
           o ← newer_owner (Z.to_nat CLUSTER_SLOTS) 0 sender senderConfigEpoch (m_myslots msg) cs;
           match o with Some o => clusterSendUpdate env sender o cs | None => Some [] end
         else Some []);
  me ← nodes cs !! myself cs;
  nd ← nodes cs !! sender;
  cs ← (if clusterNodeIsMaster me && clusterNodeIsMaster nd && (senderConfigEpoch =? configEpoch me)
        then clusterHandleConfigEpochCollision sender cs else Some cs);
  Some (cs, out).

Definition clusterBlacklistCleanup (env : serverEnv) (cs : clusterState) : clusterState :=
  set_black_list cs (filter (fun p : Z * Z => ~ (p.2 < unixtime env)) (nodes_black_list cs)).

Definition clusterBlacklistAddNode (env : serverEnv) (n : Z) (cs : clusterState) : clusterState :=
  let cs := clusterBlacklistCleanup env cs in
  set_black_list cs (<[n := unixtime env + CLUSTER_BLACKLIST_TTL]> (nodes_black_list cs)).

Definition clusterBlacklistExists (env : serverEnv) (n : Z) (cs : clusterState) : bool * clusterState :=
  let cs := clusterBlacklistCleanup env cs in
  (bool_decide (is_Some (nodes_black_list cs !! n)), cs).

Definition createClusterNode (env : serverEnv) (name flags : Z) : clusterNode :=
  mk_node flags 0 (random_shard env name) 0 0 [] None 0 0 0 0 0 0 0 0 None [].

Definition clusterAddNode (name : Z) (nd : clusterNode) (cs : clusterState) : option clusterState :=
  _ ← cassert (match nodes cs !! name with None => true | Some _ => false end);
  Some (set_nodes cs (<[name := nd]> (nodes cs))).

(** An entry about a known node other than this one. *)
Definition gossip_known (env : serverEnv) (sender : Z) (g : gossip) (cs : clusterState)
    : option (clusterState * sends) :=
  let node := g_node g in
  let failing := negb (Z.land (g_flags g) (Z.lor CLUSTER_NODE_FAIL CLUSTER_NODE_PFAIL) =? 0) in
  let noaddr := negb (Z.land (g_flags g) CLUSTER_NODE_NOADDR =? 0) in
  snd_nd ← nodes cs !! sender;
  '(cs, out) ← (if clusterNodeIsMaster snd_nd then
                  if failing then
                    '(_, cs) ← clusterNodeAddFailureReport env node sender cs;
                    markNodeAsFailingIfNeeded env node cs
                  else
                    '(_, cs) ← clusterNodeDelFailureReport env node sender cs;
                    Some (cs, [])
                else Some (cs, []));
  nd ← nodes cs !! node;
  cs ← (if negb failing && (ping_sent nd =? 0) then
          '(reports, cs) ← clusterNodeFailureReportsCount env node cs;
          let pongtime := g_pong_received g * 1000 in
          if (reports =? 0) && (pongtime <=? mstime env + 500) && (pongtime >? pong_received nd)
          then upd node (fun nd => set_pong_received nd pongtime) cs
          else Some cs
        else Some cs);
  nd ← nodes cs !! node;
  cs ← (if has_flag (Z.lor CLUSTER_NODE_FAIL CLUSTER_NODE_PFAIL) nd && negb noaddr && negb failing &&
           negb (addr nd =? g_addr g)
        then upd node (fun nd => del_flag CLUSTER_NODE_NOADDR (set_addr nd (g_addr g) None)) cs
        else Some cs);
  Some (cs, out).

Definition gossip_entry (env : serverEnv) (sender : Z) (g : gossip) (cs : clusterState)
    : option (clusterState * sends) :=
  match nodes cs !! g_node g with
  | Some _ => if g_node g =? myself cs then Some (cs, []) else gossip_known env sender g cs
  | None =>
    if negb (Z.land (g_flags g) CLUSTER_NODE_NOADDR =? 0) then Some (cs, [])
    else
      let '(banned, cs) := clusterBlacklistExists env (g_node g) cs in
      if banned : bool then Some (cs, [])
      else
        cs ← clusterAddNode (g_node g)
               (set_addr (createClusterNode env (g_node g) (g_flags g)) (g_addr g) None) cs;
        Some (cs, [])
  end.

Fixpoint clusterProcessGossipSection (env : serverEnv) (sender : Z) (l : list gossip) (cs : clusterState)
    : option (clusterState * sends) :=
  match l with
  | [] => Some (cs, [])
  | g :: l =>
    '(cs, out) ← gossip_entry env sender g cs;
    '(cs, out') ← clusterProcessGossipSection env sender l cs;
    Some (cs, out ++ out')
  end.

(** A PING or a PONG of a known node. *)
Definition process_ping (env : serverEnv) (sender : Z) (msg : clusterMsg) (cs : clusterState)
    : option (clusterState * sends) :=
  let ping := bool_decide (m_type msg = CLUSTERMSG_TYPE_PING) in
  nd ← nodes cs !! sender;
  let senderConfigEpoch := if nodeInHandshake nd then 0 else m_configEpoch msg in
  '(cs, reply) ← (if ping then clusterSendPing env false sender CLUSTERMSG_TYPE_PONG cs else Some (cs, []));
  cs ← upd sender (fun nd => set_flags nd
         (Z.lor (Z.ldiff (flags nd) CLUSTER_NODE_NOFAILOVER) (Z.land (m_flags msg) CLUSTER_NODE_NOFAILOVER))) cs;
  cs ← (if ping && negb (nodeInHandshake nd) then nodeUpdateAddressIfNeeded env sender msg cs else Some cs);
  cs ← (if negb ping then process_pong env sender cs else Some cs);
  cs ← process_role sender msg senderConfigEpoch cs;
  '(cs, update) ← process_config env sender msg senderConfigEpoch cs;
  '(cs, fails) ← clusterProcessGossipSection env sender (m_gossip msg) cs;
  Some (cs, reply ++ update ++ fails).

(** A well-formed packet.  One of an unknown node teaches nothing, but a PING is answered. *)
Definition clusterProcessPacket (env : serverEnv) (msg : clusterMsg) (cs : clusterState)
    : option (clusterState * sends) :=
  let sender := m_sender msg in
  match nodes cs !! sender with
  | None =>
    if bool_decide (m_type msg = CLUSTERMSG_TYPE_PING)
    then clusterSendPing env false sender CLUSTERMSG_TYPE_PONG cs else Some (cs, [])
  | Some _ =>
    cs ← process_header env sender msg cs;
    match m_type msg with
    | CLUSTERMSG_TYPE_PING | CLUSTERMSG_TYPE_PONG => process_ping env sender msg cs
    | CLUSTERMSG_TYPE_FAIL about => cs ← process_fail env about cs; Some (cs, [])
    | CLUSTERMSG_TYPE_FAILOVER_AUTH_REQUEST => clusterSendFailoverAuthIfNeeded env sender msg cs
    | CLUSTERMSG_TYPE_FAILOVER_AUTH_ACK => cs ← process_auth_ack sender msg cs; Some (cs, [])
    | CLUSTERMSG_TYPE_MFSTART => process_mfstart env sender cs
    | CLUSTERMSG_TYPE_UPDATE n epoch claimed =>
      cs ← process_update env n epoch claimed cs; Some (cs, [])
    end
  end.

End Cluster.
