(* ===== verification/ClusterVotes.v ===== *)
(** What the handlers of [Cluster] do to votes and elections: most leave them alone, and
    those that do not are described by [votes_for], [failover_outcome] and
    [packet_outcome]. *)
From stdpp Require Import base numbers list gmap.
From stdpp Require Import options.
From S2P Require Import Prelude Cluster.

Module ClusterVotes.
Import Cluster.

(** Goes through the cases of a computation that returned. *)
Ltac opt_step :=
  match goal with
  | H : mbind _ _ = Some _ |- _ =>
    let E := fresh "E" in apply bind_Some in H as (? & E & H); cbn beta in H
  | H : Some _ = Some _ |- _ => injection H as H; subst
  | H : None = Some _ |- _ => discriminate H
  | H : (_, _) = (_, _) |- _ => injection H as ??; subst
  | H : (let '(_, _) := ?p in _) = Some _ |- _ => destruct p eqn:?
  | H : (if ?b then _ else _) = Some _ |- _ => destruct b eqn:?
  | H : match ?o with Some _ => _ | None => _ end = Some _ |- _ => destruct o eqn:?
  end.
Ltac opt_inv := repeat opt_step.

(** The fields that decide elections are as they were. *)
Record same_votes (cs cs' : clusterState) : Prop := {
  sv_myself : myself cs' = myself cs;
  sv_currentEpoch : currentEpoch cs' = currentEpoch cs;
  sv_lastVote : lastVoteEpoch cs' = lastVoteEpoch cs;
  sv_failover : failover cs' = failover cs
}.

#[export] Instance same_votes_preorder : PreOrder same_votes.
Proof. split; [by constructor|]. intros a b c [] []. constructor; congruence. Qed.

Create HintDb votes discriminated.
#[export] Hint Constants Opaque : votes.

Lemma upd_votes n f cs cs' : upd n f cs = Some cs' -> same_votes cs cs'.
Proof. unfold upd. intros H. opt_inv. by constructor. Qed.
#[export] Hint Resolve upd_votes : votes.

(** Chains the steps of a handler that keep the votes. *)
Ltac votes_chain :=
  repeat match goal with
  | |- same_votes ?a ?a => reflexivity
  | H : ?f = Some ?b |- same_votes _ ?b => etransitivity; [|solve [typeclasses eauto with votes nocore]]
  | H : ?f = Some (_, ?b) |- same_votes _ ?b => etransitivity; [|solve [typeclasses eauto with votes nocore]]
  end; try by constructor.

Lemma clusterNodeSetSlotBit_votes n j cs b cs' :
  clusterNodeSetSlotBit n j cs = Some (b, cs') -> same_votes cs cs'.
Proof. unfold clusterNodeSetSlotBit. intros H. opt_inv; votes_chain. Qed.

Lemma clusterNodeClearSlotBit_votes n j cs b cs' :
  clusterNodeClearSlotBit n j cs = Some (b, cs') -> same_votes cs cs'.
Proof. unfold clusterNodeClearSlotBit. intros H. opt_inv; votes_chain. Qed.
#[export] Hint Resolve clusterNodeSetSlotBit_votes clusterNodeClearSlotBit_votes : votes.

Lemma set_owner_votes cs o nc : same_votes cs (set_owner cs o nc).
Proof. by constructor. Qed.

Lemma clusterAddSlot_votes n j cs r cs' : clusterAddSlot n j cs = Some (r, cs') -> same_votes cs cs'.
Proof. unfold clusterAddSlot. intros H. opt_inv; [done|]. etransitivity; [|apply set_owner_votes]. votes_chain. Qed.

Lemma clusterDelSlot_votes j cs r cs' : clusterDelSlot j cs = Some (r, cs') -> same_votes cs cs'.
Proof. unfold clusterDelSlot. intros H. opt_inv; [|done]. etransitivity; [|apply set_owner_votes]. votes_chain. Qed.
#[export] Hint Resolve clusterAddSlot_votes clusterDelSlot_votes : votes.

Lemma for_slots_votes {A} k j (body : Z -> A * clusterState -> option (A * clusterState)) a cs a' cs' :
  (forall j a cs a' cs', body j (a, cs) = Some (a', cs') -> same_votes cs cs') ->
  for_slots k j body (a, cs) = Some (a', cs') -> same_votes cs cs'.
Proof.
  intros Hb. revert j a cs. induction k as [|k IH]; intros j a cs H; cbn in H; [by simplify_eq|].
  apply bind_Some in H as ([a1 cs1] & E & H). etransitivity; [by eapply Hb|by eapply IH].
Qed.

#[local] Opaque for_slots slot_uncovered claims_newer_slot newer_owner gossip_random.

Lemma clusterMoveNodeSlots_votes f t cs r cs' :
  clusterMoveNodeSlots f t cs = Some (r, cs') -> same_votes cs cs'.
Proof. apply for_slots_votes. intros j a cs1 a' cs2 H. unfold move_slot in H. opt_inv; votes_chain. Qed.

Lemma clusterNodeRemoveSlave_votes m s cs r cs' :
  clusterNodeRemoveSlave m s cs = Some (r, cs') -> same_votes cs cs'.
Proof. unfold clusterNodeRemoveSlave. intros H. opt_inv; votes_chain. Qed.

Lemma clusterNodeAddSlave_votes m s cs r cs' :
  clusterNodeAddSlave m s cs = Some (r, cs') -> same_votes cs cs'.
Proof. unfold clusterNodeAddSlave. intros H. opt_inv; votes_chain. Qed.
#[export] Hint Resolve clusterMoveNodeSlots_votes clusterNodeRemoveSlave_votes clusterNodeAddSlave_votes : votes.

Lemma clusterSetNodeAsMaster_votes n cs cs' : clusterSetNodeAsMaster n cs = Some cs' -> same_votes cs cs'.
Proof. unfold clusterSetNodeAsMaster. intros H. opt_inv; votes_chain. Qed.
#[export] Hint Resolve clusterSetNodeAsMaster_votes : votes.

Lemma resetManualFailover_votes cs : same_votes cs (resetManualFailover cs).
Proof. by constructor. Qed.

Lemma clusterCloseAllSlots_votes cs : same_votes cs (clusterCloseAllSlots cs).
Proof. by constructor. Qed.

Lemma assign_slaves_votes l s cs cs' : assign_slaves l s cs = Some cs' -> same_votes cs cs'.
Proof.
  revert cs. induction l as [|x l IH]; intros cs H; cbn in H; [by injection H as <-|].
  apply bind_Some in H as (nd & _ & H). cbn beta in H. apply bind_Some in H as (cs1 & E & H).
  etrans; [|by eapply IH]. case_match; [by injection E as <-|by eapply upd_votes].
Qed.

Lemma updateShardId_votes n s cs cs' : updateShardId n s cs = Some cs' -> same_votes cs cs'.
Proof.
  unfold updateShardId, assignShardIdToNode. intros H. opt_inv; try done; try (by eapply upd_votes).
  etrans; [by eapply upd_votes|by eapply assign_slaves_votes].
Qed.
#[export] Hint Resolve updateShardId_votes : votes.

Lemma clusterSetMaster_votes n cs cs' : clusterSetMaster n cs = Some cs' -> same_votes cs cs'.
Proof.
  unfold clusterSetMaster. intros H. opt_inv; (etransitivity; [|apply resetManualFailover_votes]); votes_chain.
  etransitivity; [|apply clusterCloseAllSlots_votes]. votes_chain.
Qed.

Lemma update_slot_votes s e cl cm j u cs u' cs' :
  update_slot s e cl cm j (u, cs) = Some (u', cs') -> same_votes cs cs'.
Proof. unfold update_slot. intros H. opt_inv; try by constructor. all: votes_chain. Qed.
#[export] Hint Resolve clusterSetMaster_votes : votes.

Lemma clusterUpdateSlotsConfigWith_votes env s e cl cs cs' :
  clusterUpdateSlotsConfigWith env s e cl cs = Some cs' -> same_votes cs cs'.
Proof.
  unfold clusterUpdateSlotsConfigWith. intros H.
  assert (forall u u' cs1, for_slots (Z.to_nat CLUSTER_SLOTS) 0
    (update_slot s e cl (default None (me ← nodes cs !! myself cs;
      Some (if clusterNodeIsMaster me then Some (myself cs) else slaveof me)))) (u, cs) = Some (u', cs1) ->
    same_votes cs cs1) as Hloop by (intros u u' cs1; apply for_slots_votes; intros; by eapply update_slot_votes).
  destruct (nodes cs !! myself cs) as [me|] eqn:Hme; [|done]. cbn [mbind option_bind default] in *.
  opt_inv; try done; (etransitivity; [by eapply Hloop|]); eauto with votes; reflexivity.
Qed.

Lemma clusterUpdateState_votes env cs cs' : clusterUpdateState env cs = Some cs' -> same_votes cs cs'.
Proof. unfold clusterUpdateState. intros H. opt_inv; by constructor. Qed.
#[export] Hint Resolve clusterUpdateSlotsConfigWith_votes clusterUpdateState_votes : votes.

Lemma clusterFailoverReplaceYourMaster_votes env cs cs' :
  clusterFailoverReplaceYourMaster env cs = Some cs' -> same_votes cs cs'.
Proof.
  unfold clusterFailoverReplaceYourMaster. intros H. opt_inv; try done.
  etransitivity; [|apply resetManualFailover_votes]. votes_chain.
Qed.
#[export] Hint Resolve clusterFailoverReplaceYourMaster_votes : votes.

Lemma process_fail_votes env a cs cs' : process_fail env a cs = Some cs' -> same_votes cs cs'.
Proof. unfold process_fail. intros H. opt_inv; try done. all: eauto with votes. Qed.

Lemma process_update_votes env n e cl cs cs' :
  process_update env n e cl cs = Some cs' -> same_votes cs cs'.
Proof. unfold process_update. intros H. opt_inv; try done; votes_chain. Qed.

(** A packet may also move the current epoch. *)
Record same_election (cs cs' : clusterState) : Prop := {
  se_myself : myself cs' = myself cs;
  se_lastVote : lastVoteEpoch cs' = lastVoteEpoch cs;
  se_failover : failover cs' = failover cs
}.

#[export] Instance same_election_preorder : PreOrder same_election.
Proof. split; [by constructor|]. intros a b c [] []. constructor; congruence. Qed.

Lemma same_votes_election cs cs' : same_votes cs cs' -> same_election cs cs'.
Proof. intros []. by constructor. Qed.

Lemma process_header_election env s msg cs cs' :
  process_header env s msg cs = Some cs' ->
  same_election cs cs' /\ currentEpoch cs <= currentEpoch cs' /\
  (currentEpoch cs' = currentEpoch cs \/ currentEpoch cs' = m_currentEpoch msg).
Proof.
  unfold process_header. intros H. apply bind_Some in H as (cs1 & E1 & H). cbn beta in H.
  apply upd_votes in E1 as [Em Ec El Ef]. rewrite Z.gtb_ltb in H. rewrite <- Ec.
  destruct (Z.ltb_spec (currentEpoch cs1) (m_currentEpoch msg)); opt_inv;
    repeat match goal with H : upd _ _ _ = Some _ |- _ => apply upd_votes in H as []; cbn in * end;
    (split; [constructor; cbn; congruence|split; [cbn; lia|cbn; auto]]).
Qed.

Lemma clusterHandleConfigEpochCollision_election s cs cs' :
  clusterHandleConfigEpochCollision s cs = Some cs' -> same_election cs cs'.
Proof.
  unfold clusterHandleConfigEpochCollision. intros H. opt_inv; try done.
  apply upd_votes in H as []. by constructor.
Qed.

Lemma process_config_election env s msg e cs cs' out :
  process_config env s msg e cs = Some (cs', out) -> same_election cs cs'.
Proof.
  unfold process_config. intros H. opt_inv;
    repeat match goal with
    | H : clusterUpdateSlotsConfigWith _ _ _ _ _ = Some _ |- _ =>
      apply clusterUpdateSlotsConfigWith_votes, same_votes_election in H
    | H : clusterHandleConfigEpochCollision _ _ = Some _ |- _ =>
      apply clusterHandleConfigEpochCollision_election in H
    end; try done; by etrans.
Qed.

Lemma clusterBuildMessageHdr_spec env type cs msg :
  clusterBuildMessageHdr env type cs = Some msg ->
  m_type msg = type /\ m_sender msg = myself cs /\ m_currentEpoch msg = currentEpoch cs.
Proof. unfold clusterBuildMessageHdr. intros H. opt_inv; done. Qed.

(** Messages that neither ask for votes nor give one. *)
Definition quiet (out : sends) : Prop :=
  forall n m, (n, m) ∈ out -> m_type m <> CLUSTERMSG_TYPE_FAILOVER_AUTH_REQUEST /\
    m_type m <> CLUSTERMSG_TYPE_FAILOVER_AUTH_ACK.

Lemma quiet_nil : quiet [].
Proof. by intros n m ?%not_elem_of_nil. Qed.

Lemma quiet_app a b : quiet a -> quiet b -> quiet (a ++ b).
Proof. intros Ha Hb n m [H|H]%elem_of_app; [by apply (Ha n)|by apply (Hb n)]. Qed.

Lemma quiet_one n m : m_type m <> CLUSTERMSG_TYPE_FAILOVER_AUTH_REQUEST ->
  m_type m <> CLUSTERMSG_TYPE_FAILOVER_AUTH_ACK -> quiet [(n, m)].
Proof. by intros H1 H2 n' m' [= -> ->]%list_elem_of_singleton. Qed.
#[export] Hint Resolve quiet_nil quiet_app quiet_one : votes.

Lemma clusterSendMessage_quiet n m cs out :
  clusterSendMessage n m cs = Some out -> m_type m <> CLUSTERMSG_TYPE_FAILOVER_AUTH_REQUEST ->
  m_type m <> CLUSTERMSG_TYPE_FAILOVER_AUTH_ACK -> quiet out.
Proof. unfold clusterSendMessage. intros H H1 H2. opt_inv; case_match; auto with votes. Qed.

Lemma clusterBroadcastMessage_spec msg cs n m : (n, m) ∈ clusterBroadcastMessage msg cs -> m = msg.
Proof.
  unfold clusterBroadcastMessage. induction (node_list cs) as [|[x nd] l IH]; cbn; [by intros ?%not_elem_of_nil|].
  case_match; [done|]. case_match; [|done]. intros [[= -> ->]|?]%elem_of_cons; [done|by apply IH].
Qed.

Lemma clusterSendUpdate_quiet env dest node cs out : clusterSendUpdate env dest node cs = Some out -> quiet out.
Proof.
  unfold clusterSendUpdate. intros H. opt_inv. apply clusterBuildMessageHdr_spec in E0 as (Ht & _).
  by eapply clusterSendMessage_quiet; [done|rewrite Ht..].
Qed.

Lemma clusterSendFail_quiet env node cs out : clusterSendFail env node cs = Some out -> quiet out.
Proof.
  unfold clusterSendFail. intros H. opt_inv. apply clusterBuildMessageHdr_spec in E as (Ht & _).
  intros n m ->%clusterBroadcastMessage_spec. by rewrite Ht.
Qed.

Lemma clusterSendPing_votes env o r type cs cs' out :
  clusterSendPing env o r type cs = Some (cs', out) -> same_votes cs cs'.
Proof. unfold clusterSendPing. intros H. opt_inv; votes_chain. Qed.

Lemma clusterSendPing_quiet env o r type cs cs' out :
  clusterSendPing env o r type cs = Some (cs', out) -> type = CLUSTERMSG_TYPE_PING \/ type = CLUSTERMSG_TYPE_PONG ->
  quiet out.
Proof.
  unfold clusterSendPing. intros H Ht. apply bind_Some in H as (hdr & Eh & H).
  apply clusterBuildMessageHdr_spec in Eh as (Hm & _). rewrite <- Hm in Ht. opt_inv; apply quiet_one; cbn; by destruct Ht as [->| ->].
Qed.
#[export] Hint Resolve clusterSendUpdate_quiet clusterSendFail_quiet clusterSendPing_votes : votes.

Lemma process_config_quiet env s msg e cs cs' out : process_config env s msg e cs = Some (cs', out) -> quiet out.
Proof. unfold process_config. intros H. opt_inv; eauto with votes. Qed.

Lemma process_mfstart_votes env s cs cs' out :
  process_mfstart env s cs = Some (cs', out) -> same_votes cs cs' /\ quiet out.
Proof.
  unfold process_mfstart. intros H. opt_inv; [split; [done|apply quiet_nil]|]. split.
  - apply clusterSendPing_votes in H as []. by constructor.
  - eapply clusterSendPing_quiet; eauto.
Qed.

(** *** Failure reports and gossip *)

Lemma clusterNodeAddFailureReport_votes env a b cs r cs' :
  clusterNodeAddFailureReport env a b cs = Some (r, cs') -> same_votes cs cs'.
Proof. unfold clusterNodeAddFailureReport. intros H. opt_inv; votes_chain. Qed.

Lemma clusterNodeCleanupFailureReports_votes env a cs cs' :
  clusterNodeCleanupFailureReports env a cs = Some cs' -> same_votes cs cs'.
Proof. apply upd_votes. Qed.
#[export] Hint Resolve clusterNodeAddFailureReport_votes clusterNodeCleanupFailureReports_votes : votes.

Lemma clusterNodeDelFailureReport_votes env a b cs r cs' :
  clusterNodeDelFailureReport env a b cs = Some (r, cs') -> same_votes cs cs'.
Proof. unfold clusterNodeDelFailureReport. intros H. opt_inv; votes_chain. Qed.

Lemma clusterNodeFailureReportsCount_votes env a cs r cs' :
  clusterNodeFailureReportsCount env a cs = Some (r, cs') -> same_votes cs cs'.
Proof. unfold clusterNodeFailureReportsCount. intros H. opt_inv; votes_chain. Qed.
#[export] Hint Resolve clusterNodeDelFailureReport_votes clusterNodeFailureReportsCount_votes : votes.

Lemma markNodeAsFailingIfNeeded_votes env n cs cs' out :
  markNodeAsFailingIfNeeded env n cs = Some (cs', out) -> same_votes cs cs' /\ quiet out.
Proof. unfold markNodeAsFailingIfNeeded. intros H. opt_inv; (split; [votes_chain|eauto with votes]). Qed.

Lemma clearNodeFailureIfNeeded_votes env n cs cs' :
  clearNodeFailureIfNeeded env n cs = Some cs' -> same_votes cs cs'.
Proof. unfold clearNodeFailureIfNeeded. intros H. opt_inv; votes_chain. Qed.

Lemma gossip_known_votes env s g cs cs' out :
  gossip_known env s g cs = Some (cs', out) -> same_votes cs cs' /\ quiet out.
Proof.
  unfold gossip_known. intros H. apply bind_Some in H as (nd & _ & H). cbn beta in H.
  apply bind_Some in H as ([cs1 o1] & E1 & H). apply bind_Some in H as (nd1 & _ & H). cbn beta in H.
  apply bind_Some in H as (cs2 & E2 & H). cbn beta in H. apply bind_Some in H as (nd2 & _ & H). cbn beta in H.
  apply bind_Some in H as (cs3 & E3 & H). injection H as <- <-.
  assert (same_votes cs1 cs2) as S2 by (opt_inv; votes_chain).
  assert (same_votes cs2 cs3) as S3 by (opt_inv; votes_chain).
  assert (same_votes cs cs1 /\ quiet o1) as [S1 Q].
  { clear E2 E3. destruct (clusterNodeIsMaster nd); [|injection E1 as <- <-; split; [done|apply quiet_nil]].
    opt_inv.
    - apply markNodeAsFailingIfNeeded_votes in E1 as [? ?]. split; [|done]. etrans; [|done]. eauto with votes.
    - split; [eauto with votes|apply quiet_nil]. }
  split; [|done]. etrans; [exact S1|]. by etrans.
Qed.

Lemma gossip_entry_votes env s g cs cs' out :
  gossip_entry env s g cs = Some (cs', out) -> same_votes cs cs' /\ quiet out.
Proof.
  unfold gossip_entry. intros H. destruct (nodes cs !! g_node g); [|destruct (clusterBlacklistExists _ _ _) as [b cs1] eqn:Eb].
  { destruct (g_node g =? myself cs); [injection H as <- <-; split; [done|apply quiet_nil]|by eapply gossip_known_votes]. }
  injection Eb as _ <-. case_match; [injection H as <- <-; split; [done|apply quiet_nil]|].
  unfold clusterAddNode in H. opt_inv; (split; [by constructor|apply quiet_nil]).
Qed.

Lemma clusterProcessGossipSection_votes env s l cs cs' out :
  clusterProcessGossipSection env s l cs = Some (cs', out) -> same_votes cs cs' /\ quiet out.
Proof.
  revert cs out. induction l as [|g l IH]; intros cs out H; cbn in H.
  { injection H as <- <-. split; [done|apply quiet_nil]. }
  apply bind_Some in H as ([cs1 o1] & E1 & H). apply bind_Some in H as ([cs2 o2] & E2 & H). injection H as <- <-.
  apply gossip_entry_votes in E1 as [S1 Q1]. apply IH in E2 as [S2 Q2]. split; [by etrans|by apply quiet_app].
Qed.

(** *** Roles *)

Lemma clusterDelNodeSlots_votes n cs r cs' : clusterDelNodeSlots n cs = Some (r, cs') -> same_votes cs cs'.
Proof.
  unfold clusterDelNodeSlots. apply for_slots_votes. intros j a cs1 a' cs2 H. unfold del_slot in H. opt_inv; votes_chain.
Qed.

#[export] Hint Resolve clusterDelNodeSlots_votes : votes.

Lemma master_to_slave_votes s m e cs cs' : master_to_slave s m e cs = Some cs' -> same_votes cs cs'.
Proof. unfold master_to_slave. intros H. opt_inv; votes_chain. Qed.

Lemma change_master_votes s m cs cs' : change_master s m cs = Some cs' -> same_votes cs cs'.
Proof. unfold change_master. intros H. opt_inv; votes_chain. Qed.
#[export] Hint Resolve master_to_slave_votes change_master_votes clearNodeFailureIfNeeded_votes : votes.

Lemma process_role_votes s msg e cs cs' : process_role s msg e cs = Some cs' -> same_votes cs cs'.
Proof. unfold process_role. intros H. opt_inv; try done; votes_chain. Qed.

Lemma process_pong_votes env s cs cs' : process_pong env s cs = Some cs' -> same_votes cs cs'.
Proof. unfold process_pong. intros H. opt_inv; votes_chain. Qed.

Lemma nodeUpdateAddressIfNeeded_votes env s msg cs cs' :
  nodeUpdateAddressIfNeeded env s msg cs = Some cs' -> same_votes cs cs'.
Proof. unfold nodeUpdateAddressIfNeeded. intros H. opt_inv; try done; votes_chain. Qed.
#[export] Hint Resolve process_role_votes process_pong_votes nodeUpdateAddressIfNeeded_votes : votes.

Lemma process_ping_election env s msg cs cs' out :
  process_ping env s msg cs = Some (cs', out) -> same_election cs cs' /\ quiet out.
Proof.
  unfold process_ping. intros H. apply bind_Some in H as (nd & _ & H). cbn beta zeta in H.
  apply bind_Some in H as ([cs1 o1] & E1 & H). apply bind_Some in H as (cs2 & E2 & H). cbn beta in H.
  apply bind_Some in H as (cs3 & E3 & H). cbn beta in H. apply bind_Some in H as (cs4 & E4 & H). cbn beta in H.
  apply bind_Some in H as (cs5 & E5 & H). cbn beta in H. apply bind_Some in H as ([cs6 o6] & E6 & H).
  apply bind_Some in H as ([cs7 o7] & E7 & H). injection H as <- <-.
  assert (same_votes cs cs1 /\ quiet o1) as [S1 Q1].
  { clear -E1. destruct (bool_decide _); [|injection E1 as <- <-; split; [done|apply quiet_nil]].
    split; [eauto with votes|eapply clusterSendPing_quiet; eauto]. }
  assert (same_votes cs2 cs3) as S3 by (opt_inv; votes_chain).
  assert (same_votes cs3 cs4) as S4 by (opt_inv; votes_chain).
  assert (same_election cs cs5) as S5.
  { apply same_votes_election. etrans; [exact S1|]. etrans; [by eapply upd_votes|]. etrans; [exact S3|].
    etrans; [exact S4|]. eauto with votes. }
  pose proof (process_config_quiet _ _ _ _ _ _ _ E6). apply process_config_election in E6.
  apply clusterProcessGossipSection_votes in E7 as [S7 Q7]. split; [|by repeat apply quiet_app].
  etrans; [exact S5|]. etrans; [exact E6|]. by apply same_votes_election.
Qed.

(** A vote: at most one for the current epoch, announced with that epoch. *)
Record votes_for (node : Z) (request : clusterMsg) (cs cs' : clusterState) (out : sends) : Prop := {
  vf_fresh : lastVoteEpoch cs <> currentEpoch cs;
  vf_epoch : currentEpoch cs <= m_currentEpoch request;
  vf_last : lastVoteEpoch cs' = currentEpoch cs;
  vf_current : currentEpoch cs' = currentEpoch cs;
  vf_myself : myself cs' = myself cs;
  vf_failover : failover cs' = failover cs;
  vf_out : out = [] \/ exists ack, out = [(node, ack)] /\
    m_type ack = CLUSTERMSG_TYPE_FAILOVER_AUTH_ACK /\ m_sender ack = myself cs /\
    m_currentEpoch ack = currentEpoch cs
}.

Lemma clusterSendFailoverAuthIfNeeded_votes env node request cs cs' out :
  clusterSendFailoverAuthIfNeeded env node request cs = Some (cs', out) ->
  (cs' = cs /\ out = []) \/ votes_for node request cs cs' out.
Proof.
  unfold clusterSendFailoverAuthIfNeeded. intros H. opt_inv; try by left. right.
  repeat match goal with H : (_ <? _) = false |- _ => apply Z.ltb_ge in H | H : (_ =? _) = false |- _ => apply Z.eqb_neq in H end.
  match goal with H : upd _ _ _ = Some _ |- _ => apply upd_votes in H as [Em Ec El Ef] end. cbn in *.
  match goal with H : clusterSendFailoverAuth _ _ _ = Some _ |- _ =>
    unfold clusterSendFailoverAuth in H; apply bind_Some in H as (ack & Hh & Hs) end.
  apply clusterBuildMessageHdr_spec in Hh as (Ht & Hf & He).
  constructor; try done. unfold clusterSendMessage in Hs. apply bind_Some in Hs as (nd & _ & Hs).
  injection Hs as Hs. destruct (linked nd); subst; [|by left]. right. exists ack. split; [done|].
  split; [done|]. split; congruence.
Qed.

(** The election of a replica goes on as it was; its delay or its rank may change. *)
Record keeps_election (cs cs' : clusterState) : Prop := {
  ke_myself : myself cs' = myself cs;
  ke_lastVote : lastVoteEpoch cs' = lastVoteEpoch cs;
  ke_count : failover_auth_count (failover cs') = failover_auth_count (failover cs);
  ke_sent : failover_auth_sent (failover cs') = failover_auth_sent (failover cs);
  ke_epoch : failover_auth_epoch (failover cs') = failover_auth_epoch (failover cs)
}.

Lemma same_election_keeps cs cs' : same_election cs cs' -> keeps_election cs cs'.
Proof. intros [? ? E]. by constructor; rewrite ?E. Qed.

(** What a call of [clusterHandleSlaveFailover] does to the election. *)
Inductive failover_outcome (cs cs' : clusterState) : sends -> bool -> Prop :=
| fo_wait :
    keeps_election cs cs' -> currentEpoch cs' = currentEpoch cs -> failover_outcome cs cs' [] false
| fo_schedule :
    lastVoteEpoch cs' = lastVoteEpoch cs -> myself cs' = myself cs -> currentEpoch cs' = currentEpoch cs ->
    failover_auth_count (failover cs') = 0 -> failover_auth_sent (failover cs') = 0 ->
    failover_auth_epoch (failover cs') = failover_auth_epoch (failover cs) -> failover_outcome cs cs' [] false
| fo_start out :
    lastVoteEpoch cs' = lastVoteEpoch cs -> myself cs' = myself cs ->
    currentEpoch cs' = u64 (currentEpoch cs + 1) ->
    failover_auth_sent (failover cs) = 0 -> failover_auth_sent (failover cs') = 1 ->
    failover_auth_count (failover cs') = failover_auth_count (failover cs) ->
    failover_auth_epoch (failover cs') = currentEpoch cs' ->
    (forall n m, (n, m) ∈ out -> m_type m = CLUSTERMSG_TYPE_FAILOVER_AUTH_REQUEST /\ m_sender m = myself cs /\
       m_currentEpoch m = currentEpoch cs') -> failover_outcome cs cs' out false
| fo_win :
    keeps_election cs cs' -> currentEpoch cs' = currentEpoch cs -> failover_auth_sent (failover cs) <> 0 ->
    cluster_size cs / 2 + 1 <= failover_auth_count (failover cs) -> failover_outcome cs cs' [] true.

Lemma update_rank_spec env cs cs' :
  update_rank env cs = Some cs' ->
  keeps_election cs cs' /\ currentEpoch cs' = currentEpoch cs /\ cluster_size cs' = cluster_size cs.
Proof. unfold update_rank. intros H. opt_inv; by repeat split. Qed.

Lemma schedule_election_spec env cs cs' :
  schedule_election env cs = Some cs' -> failover_outcome cs cs' [] false.
Proof. unfold schedule_election. intros H. opt_inv. by apply fo_schedule. Qed.

Lemma start_election_spec env cs cs' out :
  start_election env cs = Some (cs', out) -> failover_auth_sent (failover cs) = 0 ->
  failover_outcome cs cs' out false.
Proof.
  unfold start_election. intros H Hs. apply bind_Some in H as (o & Hreq & H). injection H as <- <-.
  apply fo_start; try done. intros n m Hin. unfold clusterRequestFailoverAuth in Hreq.
  apply bind_Some in Hreq as (hdr & Hh & Ho). injection Ho as <-.
  apply clusterBuildMessageHdr_spec in Hh as (Ht & Hf & He).
  by apply clusterBroadcastMessage_spec in Hin as ->.
Qed.

Lemma failover_outcome_keeps cs1 cs2 cs3 out won :
  keeps_election cs1 cs2 -> currentEpoch cs2 = currentEpoch cs1 -> cluster_size cs2 = cluster_size cs1 ->
  failover_outcome cs2 cs3 out won -> failover_outcome cs1 cs3 out won.
Proof.
  intros [] Ec Es [[] ?| | |[] ?].
  - apply fo_wait; [constructor|]; congruence.
  - apply fo_schedule; congruence.
  - apply fo_start; try congruence. intros n m Hin. destruct (H6 n m Hin) as (? & ? & ?). split; [done|].
    split; congruence.
  - apply fo_win; [constructor|..]; congruence.
Qed.

Lemma clusterHandleSlaveFailover_spec env cs cs' out won :
  clusterHandleSlaveFailover env cs = Some (cs', out, won) -> failover_outcome cs cs' out won.
Proof.
  unfold clusterHandleSlaveFailover. intros H.
  apply bind_Some in H as (me & Hme & H). cbn beta in H. apply bind_Some in H as (master & _ & H). cbn beta in H.
  case_match; [injection H as <- <- <-; by apply fo_wait|].
  case_match; [injection H as <- <- <-; by apply fo_wait|].
  case_match.
  { apply bind_Some in H as (cs1 & E & H). injection H as <- <- <-. by apply schedule_election_spec in E. }
  apply bind_Some in H as (cs1 & E & H). cbn beta in H. apply update_rank_spec in E as (Ek & Ec & Es).
  eapply (failover_outcome_keeps _ cs1); [done..|]. clear Ek Ec.
  case_match; [injection H as <- <- <-; by apply fo_wait|].
  case_match; [injection H as <- <- <-; by apply fo_wait|].
  case_match eqn:Hsent.
  { apply bind_Some in H as ([cs2 o] & E & H). injection H as <- <- <-.
    apply start_election_spec in E; [done|]. by apply Z.eqb_eq. }
  case_match eqn:Hcount; [|injection H as <- <- <-; by apply fo_wait].
  apply bind_Some in H as (cs2 & E1 & H). cbn beta in H. apply bind_Some in H as (cs3 & E2 & H).
  injection H as <- <- <-.
  assert (same_votes cs1 cs2) as S1.
  { case_match; [by eapply upd_votes|]. by injection E1 as <-. }
  apply clusterFailoverReplaceYourMaster_votes in E2. assert (same_votes cs1 cs3) as S by by etrans.
  apply fo_win; [by apply same_election_keeps, same_votes_election|apply S| |].
  - by apply Z.eqb_neq.
  - rewrite Z.geb_leb in Hcount. apply Z.leb_le in Hcount. by rewrite Es.
Qed.

(** What a packet does to the election of a node. *)
Inductive packet_outcome (msg : clusterMsg) (cs cs' : clusterState) (out : sends) : Prop :=
| po_other :
    same_election cs cs' -> quiet out -> packet_outcome msg cs cs' out
| po_vote cs1 :
    m_type msg = CLUSTERMSG_TYPE_FAILOVER_AUTH_REQUEST -> same_election cs cs1 ->
    currentEpoch cs <= currentEpoch cs1 -> votes_for (m_sender msg) msg cs1 cs' out ->
    packet_outcome msg cs cs' out
| po_ack :
    m_type msg = CLUSTERMSG_TYPE_FAILOVER_AUTH_ACK -> out = [] ->
    lastVoteEpoch cs' = lastVoteEpoch cs -> myself cs' = myself cs ->
    failover_auth_sent (failover cs') = failover_auth_sent (failover cs) ->
    failover_auth_epoch (failover cs') = failover_auth_epoch (failover cs) ->
    failover_auth_epoch (failover cs) <= Z.max 0 (m_currentEpoch msg) ->
    failover_auth_count (failover cs') = i32 (failover_auth_count (failover cs) + 1) ->
    packet_outcome msg cs cs' out.

Lemma clusterProcessPacket_outcome env msg cs cs' out :
  clusterProcessPacket env msg cs = Some (cs', out) -> packet_outcome msg cs cs' out.
Proof.
  unfold clusterProcessPacket. destruct (nodes cs !! m_sender msg) as [nd|] eqn:Hnd.
  2: { destruct (bool_decide _); [intros H|intros [= <- <-]; apply po_other; [reflexivity|apply quiet_nil]].
       apply po_other; [by eapply same_votes_election, clusterSendPing_votes|eapply clusterSendPing_quiet; eauto]. }
  intros H. apply bind_Some in H as (cs1 & Eh & H). cbn beta in H.
  apply process_header_election in Eh as (S1 & Hle & Hmax).
  assert (forall cs2 o2, same_election cs1 cs2 -> quiet o2 -> packet_outcome msg cs cs2 o2) as Hquiet
    by (intros cs2 o2 S2 Q2; apply po_other; [by etrans|done]).
  destruct (m_type msg) as [| | | | |about|n e c] eqn:Ht.
  - apply process_ping_election in H as [? ?]. by apply Hquiet.
  - apply process_ping_election in H as [? ?]. by apply Hquiet.
  - apply clusterSendFailoverAuthIfNeeded_votes in H as [[-> ->]|Hv]; [by apply Hquiet, quiet_nil|].
    by eapply po_vote.
  - apply bind_Some in H as (cs2 & E & H). injection H as <- <-. unfold process_auth_ack in E.
    apply bind_Some in E as (nd1 & _ & E). case_match eqn:Hc; injection E as <-; [|by apply Hquiet, quiet_nil].
    apply andb_true_iff in Hc as [_ Hc]. rewrite Z.geb_leb in Hc. apply Z.leb_le in Hc.
    destruct S1 as [Em El Ef]. apply po_ack; try done; cbn; rewrite <- ?Ef; try done.
    destruct (nodeInHandshake nd1); lia.
  - apply process_mfstart_votes in H as [? ?]. apply Hquiet; [by apply same_votes_election|done].
  - apply bind_Some in H as (cs2 & E & H). injection H as <- <-.
    by apply Hquiet, quiet_nil; apply same_votes_election, (process_fail_votes env about).
  - apply bind_Some in H as (cs2 & E & H). injection H as <- <-.
    by eapply Hquiet, quiet_nil; eapply same_votes_election, process_update_votes.
Qed.
End ClusterVotes.
