(* ===== verification/ClusterElection.v ===== *)
(** Elections across the cluster: the nodes of [Cluster] with the messages between
    them, as a step relation.  Messages may be lost and delivered in any order, nodes
    may restart, and between the steps of an election a node may change in any way that
    leaves alone what it holds of elections and does not lower its current epoch.

    At most one replica wins an epoch, provided no vote of an older election is counted
    by a replica that has scheduled a new one and not started it: the code allows that,
    and then two replicas can win the same epoch. *)
From stdpp Require Import base numbers list gmap fin_sets.
From stdpp Require Import options.
From S2P Require Import Prelude Cluster ClusterVotes.

Module ClusterElection.
Import Cluster ClusterVotes.

(** ** The cluster *)

(** The nodes, and the messages in flight with their destinations. *)
Record world := mk_world {
  w_nodes : gmap Z clusterState;
  w_net : sends
}.

(** A vote: its epoch, the voter and the candidate.  A victory: the epoch, the winner,
    and the size of the cluster it reckoned with. *)
Abbreviation vote := (Z * Z * Z)%type.
Abbreviation win := (Z * Z * Z)%type.

Definition new_votes (n : Z) (msg : clusterMsg) (cs cs' : clusterState) : list vote :=
  if lastVoteEpoch cs' =? lastVoteEpoch cs then [] else [(lastVoteEpoch cs', n, m_sender msg)].

(** A vote counted by a replica that has not asked for votes. *)
Definition stale_vote (msg : clusterMsg) (cs cs' : clusterState) : Prop :=
  m_type msg = CLUSTERMSG_TYPE_FAILOVER_AUTH_ACK /\ failover_auth_sent (failover cs) = 0 /\
  failover_auth_count (failover cs') <> failover_auth_count (failover cs).

#[export] Instance stale_vote_dec msg cs cs' : Decision (stale_vote msg cs cs').
Proof. unfold stale_vote. apply _. Defined.

Definition is_auth (t : msgType) : Prop :=
  t = CLUSTERMSG_TYPE_FAILOVER_AUTH_REQUEST \/ t = CLUSTERMSG_TYPE_FAILOVER_AUTH_ACK.

(** What a node keeps when it restarts: its epochs, which it saved. *)
Definition restarted (cs cs' : clusterState) : Prop :=
  myself cs' = myself cs /\ currentEpoch cs' = currentEpoch cs /\ lastVoteEpoch cs' = lastVoteEpoch cs /\
  failover cs' = mk_failover 0 0 0 0 0 CLUSTER_CANT_FAILOVER_NONE.

(** The runs from [w0], with the votes given and the elections won.  Epochs do not wrap
    around.  A run is [timely] when no stale vote is counted. *)
Inductive reach (timely : bool) (w0 : world) : world -> list vote -> list win -> Prop :=
| reach_start : reach timely w0 w0 [] []
| reach_deliver w H W n cs msg l1 l2 env cs' out :
    reach timely w0 w H W -> w_net w = l1 ++ (n, msg) :: l2 -> w_nodes w !! n = Some cs ->
    clusterProcessPacket env msg cs = Some (cs', out) ->
    currentEpoch cs <= currentEpoch cs' -> (timely = true -> ~ stale_vote msg cs cs') ->
    reach timely w0 (mk_world (<[n := cs']> (w_nodes w)) (l1 ++ l2 ++ out)) (new_votes n msg cs cs' ++ H) W
| reach_failover w H W n cs env cs' out won :
    reach timely w0 w H W -> w_nodes w !! n = Some cs ->
    clusterHandleSlaveFailover env cs = Some (cs', out, won) -> currentEpoch cs <= currentEpoch cs' ->
    reach timely w0 (mk_world (<[n := cs']> (w_nodes w)) (w_net w ++ out)) H
      (if won : bool then (failover_auth_epoch (failover cs), n, cluster_size cs) :: W else W)
| reach_lose w H W x l1 l2 :
    reach timely w0 w H W -> w_net w = l1 ++ x :: l2 ->
    reach timely w0 (mk_world (w_nodes w) (l1 ++ l2)) H W
| reach_restart w H W n cs cs' :
    reach timely w0 w H W -> w_nodes w !! n = Some cs -> restarted cs cs' ->
    reach timely w0 (mk_world (<[n := cs']> (w_nodes w)) (w_net w)) H W
| reach_other w H W n cs cs' out :
    reach timely w0 w H W -> w_nodes w !! n = Some cs -> same_election cs cs' ->
    currentEpoch cs <= currentEpoch cs' -> (forall d m, (d, m) ∈ out -> ~ is_auth (m_type m)) ->
    reach timely w0 (mk_world (<[n := cs']> (w_nodes w)) (w_net w ++ out)) H W.

(** No election is going on. *)
Definition initial (w : world) : Prop :=
  (forall n cs, w_nodes w !! n = Some cs -> myself cs = n /\ 0 <= currentEpoch cs /\
     lastVoteEpoch cs <= currentEpoch cs /\ failover_auth_sent (failover cs) = 0 /\
     failover_auth_count (failover cs) = 0) /\
  (forall d m, (d, m) ∈ w_net w -> ~ is_auth (m_type m)).

(** ** The invariant *)

(** The votes in flight. *)
Definition acks (net : sends) : list vote :=
  omap (fun '(c, m) => match m_type m with
    | CLUSTERMSG_TYPE_FAILOVER_AUTH_ACK => Some (m_currentEpoch m, m_sender m, c)
    | _ => None
    end) net.

(** An epoch no later than any election of the node. *)
Definition epoch_ok (e : Z) (cs : clusterState) : Prop :=
  e <= currentEpoch cs /\
  (failover_auth_sent (failover cs) <> 0 -> e <= failover_auth_epoch (failover cs)).

Definition vote_ok (ns : gmap Z clusterState) '((e, v, c) : vote) : Prop :=
  (exists cs, ns !! v = Some cs /\ e <= lastVoteEpoch cs) /\
  (exists cs, ns !! c = Some cs /\ epoch_ok e cs).

(** The votes a node has counted come from that many voters of its epoch. *)
Definition count_ok (H : list vote) (net : sends) (n : Z) (cs : clusterState) : Prop :=
  exists Q : list Z, NoDup Q /\ - 2 ^ 31 <= failover_auth_count (failover cs) <= Z.of_nat (length Q) /\
    (failover_auth_sent (failover cs) = 0 -> Q = []) /\
    (failover_auth_sent (failover cs) <> 0 ->
       0 < failover_auth_epoch (failover cs) <= currentEpoch cs) /\
    forall v, v ∈ Q -> (failover_auth_epoch (failover cs), v, n) ∈ H /\
      (failover_auth_epoch (failover cs), v, n) ∉ acks net.

Record inv (w : world) (H : list vote) : Prop := {
  i_node n cs : w_nodes w !! n = Some cs ->
    myself cs = n /\ 0 <= currentEpoch cs /\ lastVoteEpoch cs <= currentEpoch cs;
  i_request d m : (d, m) ∈ w_net w -> m_type m = CLUSTERMSG_TYPE_FAILOVER_AUTH_REQUEST ->
    exists cs, w_nodes w !! m_sender m = Some cs /\ epoch_ok (m_currentEpoch m) cs;
  i_votes x : x ∈ H -> vote_ok (w_nodes w) x;
  i_once : NoDup H.*1;
  i_acks : NoDup (acks (w_net w)) /\ forall x, x ∈ acks (w_net w) -> x ∈ H;
  i_count n cs : w_nodes w !! n = Some cs -> count_ok H (w_net w) n cs
}.

(** A node whose epochs and elections only go forward. *)
Record advances (cs cs' : clusterState) : Prop := {
  ad_myself : myself cs' = myself cs;
  ad_current : currentEpoch cs <= currentEpoch cs';
  ad_last : lastVoteEpoch cs <= lastVoteEpoch cs' <= currentEpoch cs';
  ad_epoch : failover_auth_sent (failover cs') <> 0 ->
    (failover_auth_sent (failover cs) <> 0 /\ failover_auth_epoch (failover cs') = failover_auth_epoch (failover cs))
    \/ currentEpoch cs <= failover_auth_epoch (failover cs')
}.

Lemma epoch_ok_advances e cs cs' : advances cs cs' -> epoch_ok e cs -> epoch_ok e cs'.
Proof. intros [_ Hc _ He] [H1 H2]. split; [lia|]. intros Hs. destruct (He Hs) as [[? ->]|?]; [auto|lia]. Qed.

Lemma epoch_ok_le e e' cs : e <= e' -> epoch_ok e' cs -> epoch_ok e cs.
Proof. intros He [H1 H2]. split; [lia|]. intros Hs. specialize (H2 Hs). lia. Qed.

Lemma exists_advances (ns : gmap Z clusterState) n cs cs' m (P : clusterState -> Prop) :
  ns !! n = Some cs -> (P cs -> P cs') ->
  (exists c, ns !! m = Some c /\ P c) -> exists c, <[n := cs']> ns !! m = Some c /\ P c.
Proof.
  intros Hn Hstep (c & Hc & HP). destruct (decide (n = m)) as [->|Hne].
  - exists cs'. rewrite lookup_insert_eq. split; [done|]. apply Hstep. by simplify_eq.
  - exists c. by rewrite lookup_insert_ne.
Qed.

Lemma vote_ok_advances ns n cs cs' x :
  ns !! n = Some cs -> advances cs cs' -> vote_ok ns x -> vote_ok (<[n := cs']> ns) x.
Proof.
  intros Hn A. destruct x as [[e v] c]. intros [Hv Hc]. split.
  - eapply exists_advances; [done| |done]. pose proof (ad_last _ _ A). lia.
  - eapply exists_advances; [done| |done]. by apply epoch_ok_advances.
Qed.

(** The step of a node that gives the votes [X] and makes the messages [net']. *)
Lemma inv_step w H n cs cs' net' X :
  inv w H -> w_nodes w !! n = Some cs -> advances cs cs' ->
  (X = [] \/ exists d m, X = [(lastVoteEpoch cs', n, m_sender m)] /\ lastVoteEpoch cs < lastVoteEpoch cs' /\
     (d, m) ∈ w_net w /\ m_type m = CLUSTERMSG_TYPE_FAILOVER_AUTH_REQUEST /\
     lastVoteEpoch cs' <= m_currentEpoch m) ->
  (forall d m, (d, m) ∈ net' -> m_type m = CLUSTERMSG_TYPE_FAILOVER_AUTH_REQUEST ->
     (d, m) ∈ w_net w \/ m_sender m = n /\ epoch_ok (m_currentEpoch m) cs') ->
  NoDup (acks net') -> (forall x, x ∈ acks net' -> x ∈ acks (w_net w) \/ x ∈ X) ->
  count_ok (X ++ H) net' n cs' ->
  inv (mk_world (<[n := cs']> (w_nodes w)) net') (X ++ H).
Proof.
  intros I Hn A HX Hreq Hnd Hack Hcount. destruct (i_node _ _ I _ _ Hn) as (Em & H0 & Hlast).
  assert (forall x, x ∈ X -> x ∉ H) as Hfresh.
  { destruct HX as [->|(d & m & -> & Hlt & _)]; [by intros x ?%not_elem_of_nil|].
    intros x ->%list_elem_of_singleton Hin. destruct (i_votes _ _ I _ Hin) as [(c & Hc & Hle) _].
    simplify_eq. lia. }
  constructor; cbn [w_nodes w_net].
  - intros m cm Hm. destruct (decide (n = m)) as [->|Hne].
    + rewrite lookup_insert_eq in Hm. injection Hm as <-. destruct A. split; [congruence|lia].
    + rewrite lookup_insert_ne in Hm by done. by apply (i_node _ _ I).
  - intros d m Hin Ht. destruct (Hreq d m Hin Ht) as [Hold|[-> He]].
    + eapply exists_advances; [done| |by eapply (i_request _ _ I)]. by apply epoch_ok_advances.
    + exists cs'. by rewrite lookup_insert_eq.
  - intros x [Hx|Hx]%elem_of_app; [|by eapply vote_ok_advances, (i_votes _ _ I)].
    destruct HX as [->|(d & m & -> & Hlt & Hin & Ht & Hle)]; [by apply not_elem_of_nil in Hx|].
    apply list_elem_of_singleton in Hx as ->. split.
    + exists cs'. rewrite lookup_insert_eq. split; [done|lia].
    + eapply exists_advances; [done|by apply epoch_ok_advances|].
      destruct (i_request _ _ I _ _ Hin Ht) as (c & Hc & Ho). exists c. split; [done|by eapply epoch_ok_le].
  - rewrite fmap_app. apply NoDup_app. split; [|split; [|apply I]].
    + destruct HX as [->|(d & m & -> & _)]; [constructor|apply NoDup_singleton].
    + destruct HX as [->|(d & m & -> & Hlt & _)]; [by intros x ?%not_elem_of_nil|].
      intros x ->%list_elem_of_singleton ([[e v] c] & Ex & Hx)%list_elem_of_fmap. cbn in Ex. injection Ex as <- <-.
      destruct (i_votes _ _ I _ Hx) as [(cv & Hc & Hle) _]. simplify_eq. lia.
  - split; [done|]. intros x Hx. apply elem_of_app. destruct (Hack x Hx); [right; by apply I|by left].
  - intros m cm Hm. destruct (decide (n = m)) as [->|Hne].
    + rewrite lookup_insert_eq in Hm. by injection Hm as <-.
    + rewrite lookup_insert_ne in Hm by done. destruct (i_count _ _ I _ _ Hm) as (Q & HQ & Hc & Hs & He & Hv).
      exists Q. split; [done|]. split; [done|]. split; [done|]. split; [done|].
      intros v Hvin. destruct (Hv v Hvin) as [Hin Hnot]. split; [by apply elem_of_app; right|].
      intros Ha. destruct (Hack _ Ha) as [?|Hx]; [done|]. by apply (Hfresh _ Hx).
Qed.

(** ** The steps *)

Lemma acks_app a b : acks (a ++ b) = acks a ++ acks b.
Proof. unfold acks. apply omap_app. Qed.

Lemma acks_nil net : (forall d m, (d, m) ∈ net -> m_type m <> CLUSTERMSG_TYPE_FAILOVER_AUTH_ACK) -> acks net = [].
Proof.
  intros Hn. induction net as [|[d m] net IH]; [done|]. cbn.
  pose proof (Hn d m ltac:(left)). destruct (m_type m); try done; apply IH; intros; apply (Hn d0); by right.
Qed.

Lemma acks_in net x : x ∈ acks net -> exists c m, (c, m) ∈ net /\
  m_type m = CLUSTERMSG_TYPE_FAILOVER_AUTH_ACK /\ x = (m_currentEpoch m, m_sender m, c).
Proof.
  unfold acks. intros ([c m] & Hin & E)%list_elem_of_omap. exists c, m. split; [done|].
  destruct (m_type m); simplify_eq. done.
Qed.

Lemma count_ok_keep H net net' n cs cs' X :
  count_ok H net n cs ->
  failover_auth_count (failover cs') = failover_auth_count (failover cs) ->
  failover_auth_sent (failover cs') = failover_auth_sent (failover cs) ->
  failover_auth_epoch (failover cs') = failover_auth_epoch (failover cs) ->
  currentEpoch cs <= currentEpoch cs' ->
  (forall x, x ∈ acks net' -> x ∈ acks net \/ x ∉ H) -> count_ok (X ++ H) net' n cs'.
Proof.
  intros (Q & HQ & Hc & Hs & He & Hv) Ec Es Ee Hle Ha. exists Q. rewrite Ec, Es, Ee.
  split; [done|]. split; [done|]. split; [done|]. split; [intros Hne; specialize (He Hne); lia|].
  intros v Hvin. destruct (Hv v Hvin) as [Hin Hnot]. split; [by apply elem_of_app; right|].
  intros Hx. by destruct (Ha _ Hx).
Qed.

Lemma inv_quiet w H n cs cs' net' out :
  inv w H -> w_nodes w !! n = Some cs -> keeps_election cs cs' -> currentEpoch cs <= currentEpoch cs' ->
  (forall x, x ∈ net' -> x ∈ w_net w) -> NoDup (acks net') ->
  (forall d m, (d, m) ∈ out -> ~ is_auth (m_type m)) ->
  inv (mk_world (<[n := cs']> (w_nodes w)) (net' ++ out)) H.
Proof.
  intros I Hn [Em El Ec Es Ee] Hle Hsub Hnd Hout. destruct (i_node _ _ I _ _ Hn) as (_ & _ & Hlast).
  assert (acks out = []) as Eo by (apply acks_nil; intros d m Hin Ht; by apply (Hout d m Hin); right).
  assert (acks (net' ++ out) = acks net') as Ea by (by rewrite acks_app, Eo, app_nil_r).
  assert (forall x, x ∈ acks net' -> x ∈ acks (w_net w)) as Hacks.
  { intros x (c & m & Hin & Ht & ->)%acks_in. apply list_elem_of_omap. exists (c, m).
    split; [by apply Hsub|]. by rewrite Ht. }
  apply (inv_step w H n cs cs' (net' ++ out) []); rewrite ?Ea; try done; [|by left| | |].
  - constructor; [done|done|lia|]. rewrite Es, Ee. by left.
  - intros d m [Hin|Hin]%elem_of_app Ht; [left; by apply Hsub|]. exfalso. apply (Hout d m Hin). by left.
  - intros x Hx. left. by apply Hacks.
  - apply (count_ok_keep H (w_net w) _ n cs); try done; [by apply (i_count _ _ I)|].
    rewrite Ea. intros x Hx. left. by apply Hacks.
Qed.

Lemma i32_le z : - 2 ^ 31 <= z -> - 2 ^ 31 <= i32 z <= z.
Proof. intros Hz. unfold wraps. cbv zeta. ztest; dlia. Qed.

Lemma i32_succ z : i32 (z + 1) <> z.
Proof. unfold wraps. cbv zeta. ztest; dlia. Qed.

Lemma net_without n msg l1 l2 (net : sends) :
  net = l1 ++ (n, msg) :: l2 -> (n, msg) ∈ net /\ (forall x, x ∈ l1 ++ l2 -> x ∈ net) /\
  (NoDup (acks net) -> NoDup (acks (l1 ++ l2))).
Proof.
  intros ->. split; [apply elem_of_app; right; left|]. split.
  - intros x [?|?]%elem_of_app; apply elem_of_app; [by left|right; by right].
  - rewrite !acks_app. change ((n, msg) :: l2) with ([(n, msg)] ++ l2). rewrite acks_app.
    intros (H1 & H2 & H3)%NoDup_app. apply NoDup_app in H3 as (_ & _ & H3). apply NoDup_app.
    split; [done|]. split; [|done]. intros x Hx Hx'. apply (H2 x Hx). apply elem_of_app. by right.
Qed.

Lemma inv_vote w H n cs cs' l1 l2 msg cs1 out :
  inv w H -> w_net w = l1 ++ (n, msg) :: l2 -> w_nodes w !! n = Some cs ->
  m_type msg = CLUSTERMSG_TYPE_FAILOVER_AUTH_REQUEST -> same_election cs cs1 ->
  currentEpoch cs <= currentEpoch cs1 -> votes_for (m_sender msg) msg cs1 cs' out ->
  inv (mk_world (<[n := cs']> (w_nodes w)) (l1 ++ l2 ++ out)) (new_votes n msg cs cs' ++ H).
Proof.
  intros I Enet Hn Ht [Em1 El1 Ef1] Hle [Hfr Hep Hl Hc Hmy Hf Hout].
  destruct (i_node _ _ I _ _ Hn) as (Em & H0 & Hlast).
  destruct (net_without _ _ _ _ _ Enet) as (Hmsg & Hsub & Hnd).
  assert (lastVoteEpoch cs < lastVoteEpoch cs') as Hlt by (rewrite El1 in Hfr; lia).
  assert (new_votes n msg cs cs' = [(lastVoteEpoch cs', n, m_sender msg)]) as EX
    by (unfold new_votes; by rewrite (proj2 (Z.eqb_neq _ _)) by lia).
  assert (forall x, x ∈ acks out -> x ∈ new_votes n msg cs cs') as Hackout.
  { intros x Hx. rewrite EX. destruct Hout as [->|(ack & -> & Ha & Hs & He)]; [by apply not_elem_of_nil in Hx|].
    apply acks_in in Hx as (c & m & Hin%list_elem_of_singleton & _ & ->). injection Hin as -> ->.
    apply list_elem_of_singleton. rewrite He, Hs, Hl. by rewrite Em1, Em. }
  assert (forall x, x ∈ new_votes n msg cs cs' -> x ∉ H) as Hfresh.
  { rewrite EX. intros x ->%list_elem_of_singleton Hin. destruct (i_votes _ _ I _ Hin) as [(c & Hcn & Hle') _].
    simplify_eq. lia. }
  assert (forall x, x ∈ acks (l1 ++ l2 ++ out) -> x ∈ acks (w_net w) \/ x ∈ new_votes n msg cs cs') as Hacks.
  { intros x. rewrite (assoc_L (++)), acks_app. intros [Hx|Hx]%elem_of_app; [left|right; by apply Hackout].
    apply acks_in in Hx as (c & m & Hin & Hm & ->). apply list_elem_of_omap. exists (c, m).
    split; [by apply Hsub|]. by rewrite Hm. }
  apply (inv_step w H n cs); try done.
  - constructor; [congruence|lia|lia|]. rewrite Hf, Ef1. by left.
  - right. exists n, msg. rewrite EX. split; [done|]. split; [done|]. split; [done|]. split; [done|lia].
  - intros d m Hin Htm. left. rewrite (assoc_L (++)) in Hin. apply elem_of_app in Hin as [Hin|Hin]; [by apply Hsub|].
    destruct Hout as [->|(ack & -> & Ha & _)]; [by apply not_elem_of_nil in Hin|].
    apply list_elem_of_singleton in Hin. injection Hin as -> ->. congruence.
  - rewrite (assoc_L (++)), acks_app. apply NoDup_app. split; [by apply Hnd, I|]. split.
    + intros x Hx Hx'. apply (Hfresh x); [by apply Hackout|]. apply I.
      apply acks_in in Hx as (c & m & Hin & Hm & ->). apply list_elem_of_omap. exists (c, m).
      split; [by apply Hsub|]. by rewrite Hm.
    + destruct Hout as [->|(ack & -> & Ha & _)]; [constructor|]. cbn. rewrite Ha. apply NoDup_singleton.
  - apply (count_ok_keep H (w_net w) _ n cs); rewrite ?Hf, ?Ef1; try done; [by apply (i_count _ _ I)|lia|].
    intros x Hx. destruct (Hacks x Hx); [by left|right; by apply Hfresh].
Qed.

Lemma inv_ack w H n cs cs' l1 l2 msg :
  inv w H -> w_net w = l1 ++ (n, msg) :: l2 -> w_nodes w !! n = Some cs ->
  m_type msg = CLUSTERMSG_TYPE_FAILOVER_AUTH_ACK ->
  lastVoteEpoch cs' = lastVoteEpoch cs -> myself cs' = myself cs -> currentEpoch cs <= currentEpoch cs' ->
  failover_auth_sent (failover cs') = failover_auth_sent (failover cs) ->
  failover_auth_epoch (failover cs') = failover_auth_epoch (failover cs) ->
  failover_auth_epoch (failover cs) <= Z.max 0 (m_currentEpoch msg) ->
  failover_auth_count (failover cs') = i32 (failover_auth_count (failover cs) + 1) ->
  ~ stale_vote msg cs cs' ->
  inv (mk_world (<[n := cs']> (w_nodes w)) (l1 ++ l2)) H.
Proof.
  intros I Enet Hn Ht El Em Hle Es Ee Hep Ec Hstale.
  destruct (i_node _ _ I _ _ Hn) as (_ & H0 & Hlast).
  destruct (net_without _ _ _ _ _ Enet) as (Hmsg & Hsub & Hnd).
  set (x0 := (m_currentEpoch msg, m_sender msg, n)).
  assert (x0 ∈ acks (w_net w)) as Hx0 by (apply list_elem_of_omap; exists (n, msg); by rewrite Ht).
  assert (x0 ∉ acks (l1 ++ l2)) as Hx0'.
  { pose proof (proj1 (i_acks _ _ I)) as Hd. rewrite Enet in Hd. change ((n, msg) :: l2) with ([(n, msg)] ++ l2) in Hd.
    rewrite !acks_app in *. cbn in Hd. rewrite Ht in Hd. apply NoDup_app in Hd as (_ & Hd1 & [Hd2 _]%NoDup_cons).
    intros [Hx|Hx]%elem_of_app; [|done]. apply (Hd1 _ Hx). by left. }
  assert (x0 ∈ H) as HinH by by apply I.
  assert (forall x, x ∈ acks (l1 ++ l2) -> x ∈ acks (w_net w)) as Hacks.
  { intros x (c & m & Hin & Hm & ->)%acks_in. apply list_elem_of_omap. exists (c, m).
    split; [by apply Hsub|]. by rewrite Hm. }
  destruct (i_votes _ _ I _ HinH) as [_ (csn & Hcsn & He1 & He2)]. simplify_eq.
  assert (failover_auth_sent (failover cs) <> 0) as Hsent.
  { intros Hs. apply Hstale. split; [done|]. split; [done|]. rewrite Ec. apply i32_succ. }
  apply (inv_step w H n cs cs' (l1 ++ l2) []); try done.
  - constructor; [done|done|lia|]. rewrite Es, Ee. by left.
  - by left.
  - intros d m Hin _. left. by apply Hsub.
  - by apply Hnd, I.
  - intros x Hx. left. by apply Hacks.
  - destruct (i_count _ _ I _ _ Hn) as (Q & HQ & Hc & Hs & He & Hv). specialize (He Hsent). specialize (He2 Hsent).
    assert (failover_auth_epoch (failover cs) = m_currentEpoch msg) as Eep by lia.
    exists (m_sender msg :: Q). rewrite Ec, Es, Ee. split.
    { apply NoDup_cons. split; [|done]. intros Hin. destruct (Hv _ Hin) as [_ Hnot]. apply Hnot. by rewrite Eep. }
    split; [pose proof (i32_le (failover_auth_count (failover cs) + 1)); cbn [length]; lia|].
    split; [done|]. split; [lia|]. intros v [->|Hin]%elem_of_cons.
    + rewrite Eep. done.
    + destruct (Hv _ Hin) as [Hin' Hnot]. split; [done|]. intros Hx. by apply Hnot, Hacks.
Qed.

Lemma inv_deliver w H n cs msg l1 l2 env cs' out :
  inv w H -> w_net w = l1 ++ (n, msg) :: l2 -> w_nodes w !! n = Some cs ->
  clusterProcessPacket env msg cs = Some (cs', out) ->
  currentEpoch cs <= currentEpoch cs' -> ~ stale_vote msg cs cs' ->
  inv (mk_world (<[n := cs']> (w_nodes w)) (l1 ++ l2 ++ out)) (new_votes n msg cs cs' ++ H).
Proof.
  intros I Enet Hn Hp Hle Hstale. apply clusterProcessPacket_outcome in Hp.
  destruct Hp as [S Hout|cs1 Ht S Hle1 Hv|Ht -> El Em Es Ee Hep Ec].
  - assert (new_votes n msg cs cs' = []) as ->
      by (unfold new_votes; by rewrite (se_lastVote _ _ S), Z.eqb_refl).
    destruct (net_without _ _ _ _ _ Enet) as (_ & Hsub & Hnd). rewrite (assoc_L (++)).
    apply (inv_quiet w H n cs); [done|done|by apply same_election_keeps|done|done|by apply Hnd, I|].
    intros d m Hin [Ha|Ha]; destruct (Hout d m Hin); done.
  - by eapply inv_vote.
  - assert (new_votes n msg cs cs' = []) as -> by (unfold new_votes; by rewrite El, Z.eqb_refl).
    rewrite app_nil_r. by eapply inv_ack.
Qed.

Lemma u64_succ z : z <= u64 (z + 1) -> z < u64 (z + 1).
Proof. unfold wrapu. dlia. Qed.

Lemma inv_failover w H n cs env cs' out won :
  inv w H -> w_nodes w !! n = Some cs ->
  clusterHandleSlaveFailover env cs = Some (cs', out, won) -> currentEpoch cs <= currentEpoch cs' ->
  inv (mk_world (<[n := cs']> (w_nodes w)) (w_net w ++ out)) H.
Proof.
  intros I Hn Hp Hle. apply clusterHandleSlaveFailover_spec in Hp.
  destruct (i_node _ _ I _ _ Hn) as (Em & H0 & Hlast).
  assert (forall d m, (d, m) ∈ @nil (Z * clusterMsg) -> ~ is_auth (m_type m)) as Hnil
    by (intros d m ?%not_elem_of_nil; done).
  destruct Hp as [K Ec|El Emy Ec Ecount Es Ee|out El Emy Ec Es Es' Ecount Ee Hout|K Ec Hs Hq].
  - apply (inv_quiet w H n cs); try done. apply I.
  - rewrite app_nil_r. apply (inv_step w H n cs cs' (w_net w) []); try done.
    + constructor; [done|done|lia|by rewrite Es].
    + by left.
    + by left.
    + apply I.
    + by left.
    + exists []. rewrite Ecount, Es. split; [constructor|]. split; [cbn; lia|]. split; [done|].
      split; [done|]. by intros v ?%not_elem_of_nil.
  - assert (currentEpoch cs < currentEpoch cs') as Hlt by (rewrite Ec in *; by apply u64_succ).
    assert (acks out = []) as Eo by (apply acks_nil; intros d m Hin; by destruct (Hout d m Hin) as [-> _]).
    apply (inv_step w H n cs cs' (w_net w ++ out) []); rewrite ?acks_app, ?Eo, ?app_nil_r; try done.
    + constructor; [done|done|lia|]. intros _. right. lia.
    + by left.
    + intros d m [Hin|Hin]%elem_of_app Ht; [by left|]. right. destruct (Hout d m Hin) as (_ & Hsd & Hcur).
      split; [congruence|]. rewrite Hcur. split; [lia|]. intros _. lia.
    + apply I.
    + by left.
    + destruct (i_count _ _ I _ _ Hn) as (Q & HQ & Hc & HQs & He & Hv). rewrite (HQs Es) in *.
      exists []. rewrite Ecount, Es', Ee. split; [done|]. split; [done|]. split; [done|]. split; [lia|].
      by intros v ?%not_elem_of_nil.
  - apply (inv_quiet w H n cs); try done. apply I.
Qed.

Lemma inv_lose w H x l1 l2 : inv w H -> w_net w = l1 ++ x :: l2 -> inv (mk_world (w_nodes w) (l1 ++ l2)) H.
Proof.
  intros I Enet. destruct x as [n msg]. destruct (net_without _ _ _ _ _ Enet) as (_ & Hsub & Hnd).
  assert (forall x, x ∈ acks (l1 ++ l2) -> x ∈ acks (w_net w)) as Hacks.
  { intros x (c & m & Hin & Hm & ->)%acks_in. apply list_elem_of_omap. exists (c, m).
    split; [by apply Hsub|]. by rewrite Hm. }
  destruct I as [I1 I2 I3 I4 [I5 I6] I7]. constructor; cbn; try done.
  - intros d m Hin. by apply (I2 d m), Hsub.
  - split; [by apply Hnd|]. intros y Hy. by apply I6, Hacks.
  - intros m cm Hm. pose proof (I7 m cm Hm) as Hc. apply (count_ok_keep H (w_net w) _ m cm cm []); try done.
    intros y Hy. left. by apply Hacks.
Qed.

Lemma inv_restart w H n cs cs' :
  inv w H -> w_nodes w !! n = Some cs -> restarted cs cs' ->
  inv (mk_world (<[n := cs']> (w_nodes w)) (w_net w)) H.
Proof.
  intros I Hn (Em & Ec & El & Ef). destruct (i_node _ _ I _ _ Hn) as (_ & H0 & Hlast).
  apply (inv_step w H n cs cs' (w_net w) []); try done.
  - constructor; [done|lia|lia|by rewrite Ef].
  - by left.
  - by left.
  - apply I.
  - by left.
  - exists []. rewrite Ef. cbn. split; [constructor|]. split; [lia|]. split; [done|]. split; [done|].
    by intros v ?%not_elem_of_nil.
Qed.

Lemma inv_initial w : initial w -> inv w [].
Proof.
  intros [Hn Hnet]. assert (acks (w_net w) = []) as Ea
    by (apply acks_nil; intros d m Hin Ht; apply (Hnet d m Hin); by right).
  constructor; rewrite ?Ea.
  - intros n cs Hcs. destruct (Hn n cs Hcs) as (? & ? & ? & _). done.
  - intros d m Hin Ht. exfalso. apply (Hnet d m Hin). by left.
  - by intros x ?%not_elem_of_nil.
  - constructor.
  - split; [constructor|]. by intros x ?%not_elem_of_nil.
  - intros n cs Hcs. destruct (Hn n cs Hcs) as (_ & _ & _ & Es & Ec). exists []. rewrite Es, Ec.
    split; [constructor|]. split; [cbn; lia|]. split; [done|]. split; [done|]. by intros v ?%not_elem_of_nil.
Qed.

(** A victory rests on a quorum of voters of its epoch. *)
Definition win_ok (H : list vote) '((e, c, size) : win) : Prop :=
  exists Q : list Z, NoDup Q /\ size / 2 + 1 <= Z.of_nat (length Q) /\ forall v, v ∈ Q -> (e, v, c) ∈ H.

Lemma win_ok_app X H x : win_ok H x -> win_ok (X ++ H) x.
Proof.
  destruct x as [[e c] size]. intros (Q & HQ & Hl & Hv). exists Q. split; [done|]. split; [done|].
  intros v Hin. apply elem_of_app. right. by apply Hv.
Qed.

Lemma reach_inv w0 w H W :
  initial w0 -> reach true w0 w H W -> inv w H /\ forall x, x ∈ W -> win_ok H x.
Proof.
  intros Hinit. induction 1 as [|w H W n cs msg l1 l2 env cs' out _ [I HW] Enet Hn Hp Hle Ht
    |w H W n cs env cs' out won _ [I HW] Hn Hp Hle|w H W x l1 l2 _ [I HW] Enet
    |w H W n cs cs' _ [I HW] Hn Hr|w H W n cs cs' out _ [I HW] Hn S Hle Hout].
  - split; [by apply inv_initial|]. by intros x ?%not_elem_of_nil.
  - split; [by eapply inv_deliver; eauto|]. intros x Hx. by apply win_ok_app, HW.
  - split; [by eapply inv_failover|]. intros x Hx. destruct won; [|by apply HW].
    apply elem_of_cons in Hx as [->|Hx]; [|by apply HW].
    apply clusterHandleSlaveFailover_spec in Hp. inversion Hp as [| | |K Ec Hs Hq]; subst.
    destruct (i_count _ _ I _ _ Hn) as (Q & HQ & Hc & _ & _ & Hv).
    exists Q. split; [done|]. split; [lia|]. intros v Hin. by apply Hv.
  - split; [by eapply inv_lose|done].
  - split; [by eapply inv_restart|done].
  - split; [|done]. apply (inv_quiet w H n cs); try done; [by apply same_election_keeps|apply I].
Qed.

(** Two quorums of an electorate meet. *)
Lemma quorums_meet (V : gset Z) (Q1 Q2 : list Z) :
  NoDup Q1 -> NoDup Q2 -> (forall v, v ∈ Q1 -> v ∈ V) -> (forall v, v ∈ Q2 -> v ∈ V) ->
  Z.of_nat (size V) / 2 + 1 <= Z.of_nat (length Q1) -> Z.of_nat (size V) / 2 + 1 <= Z.of_nat (length Q2) ->
  exists v, v ∈ Q1 /\ v ∈ Q2.
Proof.
  intros N1 N2 H1 H2 L1 L2.
  destruct (decide (list_to_set Q1 ∩ list_to_set Q2 = (∅ : gset Z))) as [He|Hne].
  - exfalso. assert (size (list_to_set Q1 ∪ list_to_set Q2 : gset Z) <= size V)%nat as Hs.
    { apply subseteq_size. intros v [Hv|Hv]%elem_of_union; apply elem_of_list_to_set in Hv; auto. }
    rewrite size_union, !size_list_to_set in Hs by (done || set_solver). dlia.
  - apply set_choose_L in Hne as [v [Hv1 Hv2]%elem_of_intersection]. exists v.
    by rewrite <- !(elem_of_list_to_set (C := gset Z)).
Qed.

(** C1: Every epoch has at most one winner: if the voters of an epoch all belong to an
    electorate, and a replica wins only against its size, then two replicas that won
    the same epoch are the same, however messages are delayed, reordered or lost and
    nodes restarted, as long as no stale vote is counted. *)
Theorem election_safety w0 w H W (V : Z -> gset Z) e c1 c2 s1 s2 :
  initial w0 -> reach true w0 w H W ->
  (forall e v c, (e, v, c) ∈ H -> v ∈ V e) -> (forall e c s, (e, c, s) ∈ W -> s = Z.of_nat (size (V e))) ->
  (e, c1, s1) ∈ W -> (e, c2, s2) ∈ W -> c1 = c2.
Proof.
  intros Hinit Hr HV HS Hw1 Hw2. destruct (reach_inv _ _ _ _ Hinit Hr) as [I HW].
  destruct (HW _ Hw1) as (Q1 & N1 & L1 & Hv1). destruct (HW _ Hw2) as (Q2 & N2 & L2 & Hv2).
  rewrite (HS _ _ _ Hw1) in L1. rewrite (HS _ _ _ Hw2) in L2.
  destruct (quorums_meet (V e) Q1 Q2) as (v & Hq1 & Hq2); try done; [intros; by eapply HV, Hv1|intros; by eapply HV, Hv2|].
  pose proof (Hv1 v Hq1) as E1. pose proof (Hv2 v Hq2) as E2.
  apply list_elem_of_lookup in E1 as [i1 E1]. apply list_elem_of_lookup in E2 as [i2 E2].
  assert (i1 = i2) as ->.
  { eapply (NoDup_lookup _ _ _ (e, v) (i_once _ _ I)); rewrite list_lookup_fmap; [by rewrite E1|by rewrite E2]. }
  rewrite E1 in E2. by injection E2.
Qed.

(** ** Two winners of an epoch *)

(** A script of steps: the delivery of the [i]-th message in flight, and a call of
    [clusterHandleSlaveFailover]. *)
Inductive action :=
| act_deliver (i : nat) (env : serverEnv)
| act_failover (n : Z) (env : serverEnv).

Definition act (timely : bool) (a : action) '(w, H, W) : option (world * list vote * list win) :=
  match a with
  | act_deliver i env =>
    '(n, msg) ← w_net w !! i;
    cs ← w_nodes w !! n;
    '(cs', out) ← clusterProcessPacket env msg cs;
    if (currentEpoch cs <=? currentEpoch cs') && negb (timely && bool_decide (stale_vote msg cs cs')) then
      Some (mk_world (<[n := cs']> (w_nodes w)) (take i (w_net w) ++ drop (S i) (w_net w) ++ out),
            new_votes n msg cs cs' ++ H, W)
    else None
  | act_failover n env =>
    cs ← w_nodes w !! n;
    '(cs', out, won) ← clusterHandleSlaveFailover env cs;
    if currentEpoch cs <=? currentEpoch cs' then
      Some (mk_world (<[n := cs']> (w_nodes w)) (w_net w ++ out), H,
            if won : bool then (failover_auth_epoch (failover cs), n, cluster_size cs) :: W else W)
    else None
  end.

Fixpoint play (timely : bool) (script : list action) (st : world * list vote * list win) : option (world * list vote * list win) :=
  match script with
  | [] => Some st
  | a :: script => st ← act timely a st; play timely script st
  end.

Lemma play_reach timely w0 script w H W w' H' W' :
  play timely script (w, H, W) = Some (w', H', W') -> reach timely w0 w H W -> reach timely w0 w' H' W'.
Proof.
  revert w H W. induction script as [|a script IH]; intros w H W; cbn [play].
  - by intros [= -> -> ->].
  - intros Hp Hr. apply bind_Some in Hp as ([[w1 H1] W1] & Ha & Hp). apply (IH _ _ _ Hp). clear IH Hp.
    destruct a as [i env|n env]; cbn [act] in Ha.
    + apply bind_Some in Ha as ([n msg] & Hi & Ha). apply bind_Some in Ha as (cs & Hn & Ha). cbn beta in Ha.
      apply bind_Some in Ha as ([cs' out] & Hp & Ha). case_match eqn:Hle; [|done]. injection Ha as <- <- <-.
      apply andb_true_iff in Hle as [Hle Hs]. apply Z.leb_le in Hle. eapply reach_deliver; try done.
      * symmetry. by apply take_drop_middle.
      * intros -> Hst. by rewrite bool_decide_true in Hs.
    + apply bind_Some in Ha as (cs & Hn & Ha). cbn beta in Ha. apply bind_Some in Ha as ([[cs' out] won] & Hp & Ha).
      case_match eqn:Hle; [|done]. injection Ha as <- <- <-. apply Z.leb_le in Hle. by eapply reach_failover.
Qed.

(** Five masters, each with a slot, the first of which has failed and has two
    replicas, 6 and 7. *)
Definition ex_node (me n : Z) : clusterNode :=
  let f := if n <=? 5 then CLUSTER_NODE_MASTER else CLUSTER_NODE_SLAVE in
  let f := if n =? 1 then Z.lor f CLUSTER_NODE_FAIL else f in
  let f := if n =? me then Z.lor f CLUSTER_NODE_MYSELF else f in
  let master := n <=? 5 in
  mk_node f (if master then n else 0) 0 (if master then Z.setbit 0 (n - 1) else 0) (if master then 1 else 0)
    (if n =? 1 then [6; 7] else []) (if master then None else Some 1) 0 0 0 0 0 0 0 n
    (if n =? me then None else Some 0) [].

Definition ex_state (me : Z) : clusterState :=
  mk_cluster me 5 true 5 (list_to_map ((fun n => (n, ex_node me n)) <$> [1; 2; 3; 4; 5; 6; 7])) ∅ ∅ ∅
    (list_to_map [(0, 1); (1, 2); (2, 3); (3, 4); (4, 5)])
    (mk_failover 0 0 0 0 0 0) (mk_manual 0 None (-1) false) 0 0 0 0 1.

Definition ex_world : world :=
  mk_world (list_to_map ((fun n => (n, ex_state n)) <$> [1; 2; 3; 4; 5; 6; 7])) [].

Definition ex_env (t : Z) : serverEnv :=
  mk_env t (t / 1000) 0 (fun _ => 1) (fun n => n) 1000 0 1 false 10 false true false false 10 false 0 (t / 1000) 0 0 true.

(** Replica 6 asks for votes for epoch 6; those of 2 and 3 are delayed until it has
    given up and scheduled another election.  Then it needs one vote for epoch 7, of 4,
    while replica 7 gets those of 2, 3 and 5. *)
Definition ex_script : list action :=
  [act_failover 6 (ex_env 100000); act_failover 6 (ex_env 100500);
   act_deliver 2 (ex_env 100600); act_deliver 3 (ex_env 100600); act_deliver 0 (ex_env 100600);
   act_failover 6 (ex_env 105000); act_failover 7 (ex_env 105000);
   act_deliver 3 (ex_env 105100); act_deliver 3 (ex_env 105100);
   act_failover 6 (ex_env 105500); act_failover 7 (ex_env 105500);
   act_deliver 6 (ex_env 105600); act_deliver 14 (ex_env 105700); act_failover 6 (ex_env 105700);
   act_deliver 12 (ex_env 105600); act_deliver 9 (ex_env 105600); act_deliver 8 (ex_env 105600);
   act_deliver 11 (ex_env 105700); act_deliver 11 (ex_env 105700); act_deliver 11 (ex_env 105700);
   act_failover 7 (ex_env 105700)].

Definition ex_votes : list vote :=
  [(7, 5, 7); (7, 3, 7); (7, 2, 7); (7, 4, 6); (6, 2, 6); (6, 3, 6)].
Definition ex_wins : list win := [(7, 7, 5); (7, 6, 5)].
Definition ex_electorate : gset Z := {[1; 2; 3; 4; 5]}.

Lemma ex_play : (fun '(_, H, W) => (H, W)) <$> play false ex_script (ex_world, [], []) = Some (ex_votes, ex_wins).
Proof. vm_compute. reflexivity. Qed.

Lemma ex_initial : initial ex_world.
Proof.
  split; [|by intros d m ?%not_elem_of_nil]. intros n cs Hn. cbn [w_nodes ex_world] in Hn.
  apply elem_of_list_to_map_2, list_elem_of_fmap in Hn as (k & [= -> ->] & Hk). cbn. repeat split; lia.
Qed.

(** With prompt votes replica 6 wins epoch 6. *)
Definition ex_prompt : list action :=
  [act_failover 6 (ex_env 100000); act_failover 6 (ex_env 100500);
   act_deliver 2 (ex_env 100600); act_deliver 3 (ex_env 100600); act_deliver 1 (ex_env 100600);
   act_deliver 3 (ex_env 100700); act_deliver 3 (ex_env 100700); act_deliver 3 (ex_env 100700);
   act_failover 6 (ex_env 100700)].

Lemma ex_play_prompt :
  (fun '(_, H, W) => (H, W)) <$> play true ex_prompt (ex_world, [], []) =
  Some ([(6, 5, 6); (6, 2, 6); (6, 3, 6)], [(6, 6, 5)]).
Proof. vm_compute. reflexivity. Qed.

Lemma election_safety_witness :
  exists w H, reach true ex_world w H [(6, 6, 5)] /\ forall c s, (6, c, s) ∈ [(6, 6, 5)] -> 6 = c.
Proof.
  pose proof ex_play_prompt as E. apply fmap_Some in E as ([[w H] W] & Hp & [= EH EW]). subst H W.
  assert (reach true ex_world w [(6, 5, 6); (6, 2, 6); (6, 3, 6)] [(6, 6, 5)]) as Hr
    by (eapply play_reach; [done|constructor]).
  eexists w, _. split; [exact Hr|]. intros c s Hin.
  apply (election_safety ex_world w _ _ (fun _ => ex_electorate) 6 6 c 5 s ex_initial Hr);
    [| |by left|done].
  - assert (Forall (fun x : vote => x.1.2 ∈ ex_electorate) [(6, 5, 6); (6, 2, 6); (6, 3, 6)]) as Hv
      by (apply (bool_decide_unpack _); by vm_compute).
    intros e v c' Hin'. rewrite Forall_forall in Hv. by apply (Hv _ Hin').
  - intros e c' s' Hin'. apply list_elem_of_singleton in Hin'. injection Hin' as -> -> ->. by vm_compute.
Defined.

(** C5: Without the proviso on stale votes the safety of elections fails: there is a
    run in which every voter belongs to an electorate of five masters, every winner
    reckons with that size, and two replicas win the same epoch. *)
Theorem election_unsafe :
  exists w H W (V : Z -> gset Z), initial ex_world /\ reach false ex_world w H W /\
    (forall e v c, (e, v, c) ∈ H -> v ∈ V e) /\ (forall e c s, (e, c, s) ∈ W -> s = Z.of_nat (size (V e))) /\
    (7, 6, 5) ∈ W /\ (7, 7, 5) ∈ W.
Proof.
  pose proof ex_play as E. apply fmap_Some in E as ([[w H] W] & Hp & [= EH EW]). subst H W. exists w, ex_votes, ex_wins, (fun _ => ex_electorate).
  split; [apply ex_initial|]. split; [eapply play_reach; [done|constructor]|]. split; [|split].
  - assert (Forall (fun x : vote => x.1.2 ∈ ex_electorate) ex_votes) as Hv
      by (apply (bool_decide_unpack _); by vm_compute).
    intros e v c Hin. rewrite Forall_forall in Hv. by apply (Hv _ Hin).
  - assert (Forall (fun x : win => x.2 = Z.of_nat (size ex_electorate)) ex_wins) as Hw
      by (apply (bool_decide_unpack _); by vm_compute).
    intros e c s Hin. rewrite Forall_forall in Hw. by apply (Hw _ Hin).
  - split; unfold ex_wins; [right|]; left.
Qed.
End ClusterElection.
