(* ===== verification/ClusterSlots.v ===== *)
(** The slots of a node's state: the array of owners agrees with the bitmaps and the
    counts of the nodes, every loop over the slots keeps them so, and an update gives
    each slot the owner it should have. *)
From stdpp Require Import base numbers list gmap fin_maps.
From stdpp Require Import options.
From S2P Require Import Prelude Cluster.

Module ClusterSlots.
Import Cluster.

(** ** The invariant *)

Definition slot_list : list Z := seqZ 0 CLUSTER_SLOTS.

Definition count_slots (s : Z) : Z := Z.of_nat (length (filter (fun j => Z.testbit s j = true) slot_list)).

(** The array of owners and the bitmaps of the nodes say the same. *)
Record slots_wf (ns : gmap Z clusterNode) (ow : gmap Z Z) : Prop := {
  sw_owner j n : ow !! j = Some n ->
    0 <= j < CLUSTER_SLOTS /\ exists nd, ns !! n = Some nd /\ Z.testbit (slots nd) j = true;
  sw_slots n nd j : ns !! n = Some nd -> Z.testbit (slots nd) j = true -> ow !! j = Some n;
  sw_count n nd : ns !! n = Some nd -> numslots nd = count_slots (slots nd)
}.

(** ** Counting slots *)

Lemma slot_list_elem j : j ∈ slot_list <-> 0 <= j < CLUSTER_SLOTS.
Proof. unfold slot_list. rewrite elem_of_seqZ. lia. Qed.

Lemma filter_iff_in {A} (P Q : A -> Prop) `{!∀ x, Decision (P x), !∀ x, Decision (Q x)} (l : list A) :
  (forall x, x ∈ l -> P x <-> Q x) -> filter P l = filter Q l.
Proof.
  induction l as [|x l IH]; intros Hpq; [done|].
  assert (P x <-> Q x) as Hx by (apply Hpq; by left).
  assert (filter P l = filter Q l) as Hl by (apply IH; intros y Hy; apply Hpq; by right).
  destruct (decide (P x)).
  - rewrite !filter_cons_True by (done || by apply Hx). by rewrite Hl.
  - rewrite !filter_cons_False by (done || by rewrite <- Hx). done.
Qed.

Lemma filter_length_add {A} (P Q : A -> Prop) `{!∀ x, Decision (P x), !∀ x, Decision (Q x)} (l : list A) j :
  NoDup l -> j ∈ l -> ~ P j -> (forall x, x ∈ l -> Q x <-> P x \/ x = j) ->
  length (filter Q l) = S (length (filter P l)).
Proof.
  induction l as [|x l IH]; intros Hnd Hj Hp Hpq; [by apply not_elem_of_nil in Hj|].
  apply NoDup_cons in Hnd as [Hx Hnd]. apply elem_of_cons in Hj as [->|Hj].
  - rewrite (filter_cons_True Q), (filter_cons_False P) by (done || (apply Hpq; [by left|by right])).
    cbn. do 2 f_equal. apply filter_iff_in.
    intros y Hy. rewrite Hpq by by right. split; [intros [?| ->]; done|by left].
  - assert (Q x <-> P x) as Hiff.
    { rewrite Hpq by by left. split; [intros [?| ->]; done|by left]. }
    specialize (IH Hnd Hj Hp (fun y Hy => Hpq y (list_elem_of_further _ _ _ Hy))).
    destruct (decide (P x)) as [Hpx|Hpx].
    + rewrite !filter_cons_True by (done || by apply Hiff). cbn. by rewrite IH.
    + rewrite !filter_cons_False by (done || by rewrite Hiff). done.
Qed.

Lemma count_setbit s j :
  0 <= j < CLUSTER_SLOTS -> Z.testbit s j = false -> count_slots (Z.setbit s j) = count_slots s + 1.
Proof.
  intros Hj Hs. unfold count_slots.
  rewrite (filter_length_add (fun j => Z.testbit s j = true) (fun i => Z.testbit (Z.setbit s j) i = true) _ j);
    [lia|apply NoDup_seqZ|by apply slot_list_elem|by rewrite Hs|].
  intros x Hx%slot_list_elem. rewrite Z.setbit_eqb by lia. rewrite orb_true_iff, Z.eqb_eq. split; intros [|]; auto.
Qed.

Lemma count_clearbit s j :
  0 <= j < CLUSTER_SLOTS -> Z.testbit s j = true -> count_slots (Z.clearbit s j) = count_slots s - 1.
Proof.
  intros Hj Hs. unfold count_slots.
  rewrite (filter_length_add (fun i => Z.testbit (Z.clearbit s j) i = true) (fun i => Z.testbit s i = true) _ j);
    [lia|apply NoDup_seqZ|by apply slot_list_elem|by rewrite Z.clearbit_eq|].
  intros x Hx%slot_list_elem. rewrite Z.clearbit_eqb. split.
  - intros Hx'. destruct (decide (x = j)) as [->|Hne]; [by right|left]. rewrite Hx'. cbn.
    by apply negb_true_iff, Z.eqb_neq.
  - intros [[? _]%andb_true_iff| ->]; done.
Qed.

Lemma count_bounds s : 0 <= count_slots s <= CLUSTER_SLOTS.
Proof.
  unfold count_slots. pose proof (length_filter (fun j => Z.testbit s j = true) slot_list) as H.
  assert (length slot_list = Z.to_nat CLUSTER_SLOTS) as E by apply length_seqZ. rewrite E in H.
  assert (0 <= CLUSTER_SLOTS) by done. lia.
Qed.

Lemma count_zero s : count_slots s = 0 <-> forall j, 0 <= j < CLUSTER_SLOTS -> Z.testbit s j = false.
Proof.
  unfold count_slots. split.
  - intros Hc j Hj. destruct (Z.testbit s j) eqn:Hs; [|done]. exfalso.
    assert (j ∈ filter (fun j => Z.testbit s j = true) slot_list) as Hin
      by (apply list_elem_of_filter; by rewrite slot_list_elem).
    destruct (filter _ _); [by apply not_elem_of_nil in Hin|done].
  - intros Hz. destruct (filter (fun j => Z.testbit s j = true) slot_list) as [|j l] eqn:E; [done|].
    assert (j ∈ filter (fun j => Z.testbit s j = true) slot_list) as [Hs Hj%slot_list_elem]%list_elem_of_filter
      by (rewrite E; by left).
    by rewrite Hz in Hs.
Qed.

Lemma i32_count z : -1 <= z <= CLUSTER_SLOTS + 1 -> i32 z = z.
Proof. intros Hz. apply wraps_small; [lia|]. unfold in_s, CLUSTER_SLOTS in *. lia. Qed.

(** ** Flags *)

Lemma land_lor_disjoint a f g : Z.land f g = 0 -> Z.land (Z.lor a g) f = Z.land a f.
Proof. intros Hfg. by rewrite Z.land_lor_distr_l, (Z.land_comm g f), Hfg, Z.lor_0_r. Qed.

Lemma land_ldiff_disjoint a f g : Z.land f g = 0 -> Z.land (Z.ldiff a g) f = Z.land a f.
Proof.
  intros Hfg. apply Z.bits_inj'. intros i Hi. rewrite !Z.land_spec, Z.ldiff_spec.
  pose proof (Z.land_spec f g i) as Hb. rewrite Hfg, Z.bits_0 in Hb.
  destruct (Z.testbit a i), (Z.testbit f i), (Z.testbit g i); done.
Qed.

Lemma has_flag_add f g n : Z.land f g = 0 -> has_flag f (add_flag g n) = has_flag f n.
Proof. intros H. unfold has_flag, add_flag. cbn [set_flags flags]. by rewrite land_lor_disjoint. Qed.

Lemma has_flag_del f g n : Z.land f g = 0 -> has_flag f (del_flag g n) = has_flag f n.
Proof. intros H. unfold has_flag, del_flag. cbn [set_flags flags]. by rewrite land_ldiff_disjoint. Qed.

Lemma has_flag_add_self f n : f <> 0 -> has_flag f (add_flag f n) = true.
Proof.
  intros Hf. unfold has_flag, add_flag. cbn [set_flags flags]. apply negb_true_iff, Z.eqb_neq.
  replace (Z.land (Z.lor (flags n) f) f) with f; [done|]. apply Z.bits_inj'. intros i Hi.
  rewrite Z.land_spec, Z.lor_spec. by destruct (Z.testbit (flags n) i), (Z.testbit f i).
Qed.

Lemma has_flag_del_self f g n : Z.land f g = f -> has_flag f (del_flag g n) = false.
Proof.
  intros Hf. unfold has_flag, del_flag. cbn [set_flags flags]. apply negb_false_iff, Z.eqb_eq, Z.bits_inj'.
  intros i Hi. rewrite <- Hf, !Z.land_spec, Z.ldiff_spec, Z.bits_0.
  by destruct (Z.testbit (flags n) i), (Z.testbit f i), (Z.testbit g i).
Qed.

(** What the slots of a node can change without: everything but [slots], [numslots]
    and [CLUSTER_NODE_MIGRATE_TO]. *)
Record node_frame (a b : clusterNode) : Prop := {
  nf_epoch : configEpoch b = configEpoch a;
  nf_shard : shard_id b = shard_id a;
  nf_slaves : slaves b = slaves a;
  nf_slaveof : slaveof b = slaveof a;
  nf_master : clusterNodeIsMaster b = clusterNodeIsMaster a;
  nf_slave : nodeIsSlave b = nodeIsSlave a
}.

#[export] Instance node_frame_preorder : PreOrder node_frame.
Proof. split; [by constructor|]. intros a b c [] []. constructor; congruence. Qed.

(** The same nodes, each related to its new value. *)
Definition nodes_rel (R : Z -> clusterNode -> clusterNode -> Prop) (ns ns' : gmap Z clusterNode) : Prop :=
  forall x, match ns !! x, ns' !! x with
            | Some a, Some b => R x a b
            | None, None => True
            | _, _ => False
            end.

Section nodes_rel.
  Context (R : Z -> clusterNode -> clusterNode -> Prop) `{!forall x, PreOrder (R x)}.

#[export] Instance nodes_rel_preorder : PreOrder (nodes_rel R).
  Proof using Type*.
    split.
    - intros ns x. by destruct (ns !! x).
    - intros a b c Hab Hbc x. specialize (Hab x). specialize (Hbc x).
      destruct (a !! x), (b !! x), (c !! x); try done. by etrans.
  Qed.

Lemma nodes_rel_insert ns n a b : ns !! n = Some a -> R n a b -> nodes_rel R ns (<[n := b]> ns).
  Proof using Type*.
    intros Hn Hf x. destruct (decide (n = x)) as [->|Hne].
    - by rewrite Hn, lookup_insert_eq.
    - rewrite lookup_insert_ne by done. by destruct (ns !! x).
  Qed.
End nodes_rel.

Lemma nodes_rel_l R ns ns' x a : nodes_rel R ns ns' -> ns !! x = Some a -> exists b, ns' !! x = Some b /\ R x a b.
Proof. intros Hf Hx. specialize (Hf x). rewrite Hx in Hf. destruct (ns' !! x); [eauto|done]. Qed.

Lemma nodes_rel_r R ns ns' x b : nodes_rel R ns ns' -> ns' !! x = Some b -> exists a, ns !! x = Some a /\ R x a b.
Proof. intros Hf Hx. specialize (Hf x). rewrite Hx in Hf. destruct (ns !! x); [eauto|done]. Qed.

Lemma nodes_rel_mono (R R' : Z -> clusterNode -> clusterNode -> Prop) ns ns' :
  (forall x a b, R x a b -> R' x a b) -> nodes_rel R ns ns' -> nodes_rel R' ns ns'.
Proof. intros HR Hf x. specialize (Hf x). destruct (ns !! x), (ns' !! x); auto. Qed.

Abbreviation nodes_frame := (nodes_rel (fun _ => node_frame)).

(** A step that moves slots. *)
Record slot_frame (cs cs' : clusterState) : Prop := {
  sf_nodes : nodes_frame (nodes cs) (nodes cs');
  sf_myself : myself cs' = myself cs;
  sf_epoch : currentEpoch cs' = currentEpoch cs;
  sf_importing : importing_slots_from cs' = importing_slots_from cs
}.

#[export] Instance slot_frame_preorder : PreOrder slot_frame.
Proof.
  split; [by constructor|]. intros a b c [] []. constructor; try congruence. by etrans.
Qed.

(** ** Results *)

Lemma upd_ensures n f cs nd (P : clusterState -> Prop) :
  nodes cs !! n = Some nd -> P (set_nodes cs (<[n := f nd]> (nodes cs))) -> ensures (upd n f cs) P.
Proof. intros Hn HP. unfold upd. by rewrite Hn. Qed.

(** ** Moving slots *)

Lemma slots_wf_clear ns ow n j nd nd' :
  slots_wf ns ow -> ns !! n = Some nd -> ow !! j = Some n -> slots nd' = Z.clearbit (slots nd) j ->
  numslots nd' = numslots nd - 1 -> slots_wf (<[n := nd']> ns) (delete j ow).
Proof.
  intros [Ho Hs Hc] Hn Hj Es En. destruct (Ho _ _ Hj) as (Hr & nd0 & E0 & Hb). simplify_eq. constructor.
  - intros i m [Hne Hi]%lookup_delete_Some. destruct (Ho _ _ Hi) as (Hir & md & Hm & Hmb). split; [done|].
    destruct (decide (n = m)) as [->|Hnm].
    + exists nd'. rewrite lookup_insert_eq. split; [done|]. simplify_eq.
      rewrite Es, Z.clearbit_neq; done.
    + exists md. by rewrite lookup_insert_ne.
  - intros m md i Hm Hmb. destruct (decide (n = m)) as [->|Hnm].
    + rewrite lookup_insert_eq in Hm. injection Hm as <-. rewrite Es, Z.clearbit_eqb in Hmb.
      apply andb_true_iff in Hmb as [Hmb Hne%negb_true_iff%Z.eqb_neq]. rewrite lookup_delete_ne by done. by eapply Hs.
    + rewrite lookup_insert_ne in Hm by done. rewrite lookup_delete_ne; [by eapply Hs|].
      intros <-. pose proof (Hs _ _ _ Hm Hmb). congruence.
  - intros m md Hm. destruct (decide (n = m)) as [->|Hnm].
    + rewrite lookup_insert_eq in Hm. injection Hm as <-. by rewrite En, Es, count_clearbit, (Hc m nd).
    + rewrite lookup_insert_ne in Hm by done. by eapply Hc.
Qed.

Lemma slots_wf_set ns ow n j nd nd' :
  slots_wf ns ow -> ns !! n = Some nd -> ow !! j = None -> 0 <= j < CLUSTER_SLOTS ->
  slots nd' = Z.setbit (slots nd) j -> numslots nd' = numslots nd + 1 ->
  slots_wf (<[n := nd']> ns) (<[j := n]> ow).
Proof.
  intros [Ho Hs Hc] Hn Hj Hr Es En.
  assert (Z.testbit (slots nd) j = false) as Hbit.
  { apply not_true_iff_false. intros Hb. pose proof (Hs _ _ _ Hn Hb). congruence. }
  constructor.
  - intros i m [[<- <-]|[Hne Hi]]%lookup_insert_Some.
    + split; [done|]. exists nd'. rewrite lookup_insert_eq, Es, Z.setbit_eq by lia. done.
    + destruct (Ho _ _ Hi) as (Hir & md & Hm & Hmb). split; [done|].
      destruct (decide (n = m)) as [->|Hnm].
      * exists nd'. rewrite lookup_insert_eq. split; [done|]. simplify_eq. by rewrite Es, Z.setbit_neq by lia.
      * exists md. by rewrite lookup_insert_ne.
  - intros m md i Hm Hmb. destruct (decide (n = m)) as [->|Hnm].
    + rewrite lookup_insert_eq in Hm. injection Hm as <-. rewrite Es, Z.setbit_eqb in Hmb by lia.
      destruct (decide (j = i)) as [->|Hne]; [by rewrite lookup_insert_eq|].
      rewrite lookup_insert_ne by done. apply orb_true_iff in Hmb as [?%Z.eqb_eq|Hmb]; [done|by eapply Hs].
    + rewrite lookup_insert_ne in Hm by done. rewrite lookup_insert_ne; [by eapply Hs|].
      intros <-. pose proof (Hs _ _ _ Hm Hmb). congruence.
  - intros m md Hm. destruct (decide (n = m)) as [->|Hnm].
    + rewrite lookup_insert_eq in Hm. injection Hm as <-. by rewrite En, Es, count_setbit, (Hc m nd).
    + rewrite lookup_insert_ne in Hm by done. by eapply Hc.
Qed.

Lemma slots_wf_upd ns ow n nd nd' :
  slots_wf ns ow -> ns !! n = Some nd -> slots nd' = slots nd -> numslots nd' = numslots nd ->
  slots_wf (<[n := nd']> ns) ow.
Proof.
  intros [Ho Hs Hc] Hn Es En. constructor.
  - intros i m Hi. destruct (Ho _ _ Hi) as (Hir & md & Hm & Hmb). split; [done|].
    destruct (decide (n = m)) as [->|Hnm]; [|exists md; by rewrite lookup_insert_ne].
    exists nd'. rewrite lookup_insert_eq, Es. by simplify_eq.
  - intros m md i Hm Hmb. destruct (decide (n = m)) as [->|Hnm].
    + rewrite lookup_insert_eq in Hm. injection Hm as <-. rewrite Es in Hmb. by eapply Hs.
    + rewrite lookup_insert_ne in Hm by done. by eapply Hs.
  - intros m md Hm. destruct (decide (n = m)) as [->|Hnm].
    + rewrite lookup_insert_eq in Hm. injection Hm as <-. rewrite En, Es. by eapply Hc.
    + rewrite lookup_insert_ne in Hm by done. by eapply Hc.
Qed.

Lemma numslots_zero ns ow n nd :
  slots_wf ns ow -> ns !! n = Some nd -> numslots nd = 0 <-> forall j, ow !! j <> Some n.
Proof.
  intros [Ho Hs Hc] Hn. rewrite (Hc _ _ Hn), count_zero. split.
  - intros Hz j Hj. destruct (Ho _ _ Hj) as (Hr & nd' & Hn' & Hb). simplify_eq. by rewrite Hz in Hb.
  - intros Hz j Hr. apply not_true_iff_false. intros Hb. by apply (Hz j), (Hs _ _ _ Hn).
Qed.

Lemma clusterNodeClearSlotBit_ok n j cs nd :
  nodes cs !! n = Some nd -> Z.testbit (slots nd) j = true ->
  clusterNodeClearSlotBit n j cs = Some (true, set_nodes cs
    (<[n := set_slots nd (Z.clearbit (slots nd) j) (i32 (numslots nd - 1))]> (nodes cs))).
Proof.
  intros Hn Hb. unfold clusterNodeClearSlotBit, bitmapTestBit, upd. rewrite Hn. cbn. rewrite Hb. done.
Qed.

Lemma clusterNodeSetSlotBit_ok n j cs nd :
  nodes cs !! n = Some nd -> Z.testbit (slots nd) j = false ->
  exists nd', clusterNodeSetSlotBit n j cs = Some (false, set_nodes cs (<[n := nd']> (nodes cs))) /\
    slots nd' = Z.setbit (slots nd) j /\ numslots nd' = i32 (numslots nd + 1) /\ node_frame nd nd'.
Proof.
  intros Hn Hb. unfold clusterNodeSetSlotBit, bitmapTestBit, upd. rewrite Hn. cbn. rewrite Hb. cbn.
  rewrite lookup_insert_eq. cbn. case_match; cbn.
  - rewrite ?lookup_insert_eq. cbn. unfold set_nodes. cbn. rewrite insert_insert_eq. eexists. split; [done|].
    split; [done|]. split; [done|]. constructor; try done; unfold clusterNodeIsMaster, nodeIsSlave; by rewrite has_flag_add.
  - eexists. split; [done|]. split; [done|]. split; [done|]. by constructor.
Qed.

(** A slot loses its owner. *)
Lemma clusterDelSlot_ok j cs :
  slots_wf (nodes cs) (owner cs) ->
  ensures (clusterDelSlot j cs) (fun '(r, cs') =>
    slots_wf (nodes cs') (owner cs') /\ slot_frame cs cs' /\ owner cs' = delete j (owner cs) /\
    owner_not_claiming_slot cs' =
      (if owner cs !! j then Z.clearbit (owner_not_claiming_slot cs) j else owner_not_claiming_slot cs)).
Proof.
  intros Hwf. unfold clusterDelSlot. destruct (owner cs !! j) as [n|] eqn:Hj.
  - destruct (sw_owner _ _ Hwf _ _ Hj) as (Hr & nd & Hn & Hb).
    rewrite (clusterNodeClearSlotBit_ok _ _ _ _ Hn Hb). cbn. split; [|split].
    + eapply slots_wf_clear; try done. cbn. rewrite (sw_count _ _ Hwf _ _ Hn). apply i32_count.
      pose proof (count_bounds (slots nd)). lia.
    + constructor; try done. cbn. by eapply (nodes_rel_insert (fun _ => node_frame)).
    + done.
  - cbn. split; [done|]. split; [done|]. split; [|done]. by rewrite delete_id.
Qed.

(** A slot without an owner gets one. *)
Lemma clusterAddSlot_ok n j cs :
  slots_wf (nodes cs) (owner cs) -> owner cs !! j = None -> is_Some (nodes cs !! n) -> 0 <= j < CLUSTER_SLOTS ->
  ensures (clusterAddSlot n j cs) (fun '(r, cs') =>
    slots_wf (nodes cs') (owner cs') /\ slot_frame cs cs' /\ owner cs' = <[j := n]> (owner cs) /\
    owner_not_claiming_slot cs' = Z.clearbit (owner_not_claiming_slot cs) j).
Proof.
  intros Hwf Hj [nd Hn] Hr. unfold clusterAddSlot. rewrite Hj.
  assert (Z.testbit (slots nd) j = false) as Hb.
  { apply not_true_iff_false. intros Hb. pose proof (sw_slots _ _ Hwf _ _ _ Hn Hb). congruence. }
  destruct (clusterNodeSetSlotBit_ok n j cs nd Hn Hb) as (nd' & -> & Es & En & Hf). cbn. split; [|split].
  - eapply slots_wf_set; try done. rewrite En, (sw_count _ _ Hwf _ _ Hn). apply i32_count.
    pose proof (count_bounds (slots nd)). lia.
  - constructor; try done. cbn. by eapply (nodes_rel_insert (fun _ => node_frame)).
  - done.
Qed.

(** A slot changes hands. *)
Lemma give_slot_ok n j cs :
  slots_wf (nodes cs) (owner cs) -> is_Some (nodes cs !! n) -> 0 <= j < CLUSTER_SLOTS ->
  ensures ('(_, cs) ← clusterDelSlot j cs; clusterAddSlot n j cs) (fun '(r, cs') =>
    slots_wf (nodes cs') (owner cs') /\ slot_frame cs cs' /\ owner cs' = <[j := n]> (owner cs) /\
    owner_not_claiming_slot cs' = Z.clearbit (owner_not_claiming_slot cs) j).
Proof.
  intros Hwf [nd Hn] Hr. eapply ensures_bind; [by apply clusterDelSlot_ok|].
  intros [r cs1] (W1 & F1 & O1 & C1). destruct (nodes_rel_l _ _ _ _ _ (sf_nodes _ _ F1) Hn) as (nd1 & Hn1 & _).
  eapply ensures_mono; [apply (clusterAddSlot_ok n j cs1); [done|rewrite O1; apply lookup_delete_eq|eauto|done]|].
  intros [r2 cs2] (W2 & F2 & O2 & C2). split; [done|]. split; [by etrans|].
  split; [by rewrite O2, O1, insert_delete_eq|]. rewrite C2, C1. destruct (owner cs !! j); [|done].
  apply Z.bits_inj. intros i. rewrite !Z.clearbit_eqb. destruct (Z.eqb_spec j i); cbn; by rewrite ?andb_false_r, ?andb_true_r.
Qed.

(** ** Loops over the slots *)

Lemma for_slots_ensures {A} (I : Z -> A -> Prop) (body : Z -> A -> option A) k j a :
  I j a -> (forall i a, j <= i < j + Z.of_nat k -> I i a -> ensures (body i a) (I (i + 1))) ->
  ensures (for_slots k j body a) (I (j + Z.of_nat k)).
Proof.
  revert j a. induction k as [|k IH]; intros j a Ha Hb.
  - cbn. by rewrite Z.add_0_r.
  - cbn [for_slots]. eapply ensures_bind; [apply Hb; [lia|done]|]. intros a' Ha'.
    replace (j + Z.of_nat (S k)) with ((j + 1) + Z.of_nat k) by lia. apply IH; [done|].
    intros i b Hi. apply Hb. lia.
Qed.

Lemma all_slots_ensures {A} (I : Z -> A -> Prop) (body : Z -> A -> option A) a (P : A -> Prop) :
  I 0 a -> (forall i a, 0 <= i < CLUSTER_SLOTS -> I i a -> ensures (body i a) (I (i + 1))) ->
  (forall a, I CLUSTER_SLOTS a -> P a) ->
  ensures (for_slots (Z.to_nat CLUSTER_SLOTS) 0 body a) P.
Proof.
  intros Ha Hb HP. assert (0 + Z.of_nat (Z.to_nat CLUSTER_SLOTS) = CLUSTER_SLOTS) as E by (rewrite Z2Nat.id; done).
  eapply ensures_mono; [apply (for_slots_ensures I); [done|]; rewrite E; apply Hb|]. rewrite E. exact HP.
Qed.
#[local] Opaque for_slots.

Section slot_loops.
  Context (cs0 : clusterState).

  (** The slots below [j] have the owners [f] tells, the others their old ones. *)
Definition owners_upto (f : Z -> option Z) (j : Z) (cs : clusterState) : Prop :=
    forall i, 0 <= i < CLUSTER_SLOTS -> owner cs !! i = if i <? j then f i else owner cs0 !! i.

Record slots_moved (f : Z -> option Z) (j : Z) (cs : clusterState) : Prop := {
    sm_wf : slots_wf (nodes cs) (owner cs);
    sm_frame : slot_frame cs0 cs;
    sm_owner : owners_upto f j cs
  }.

Lemma owners_step f j cs cs' :
    owners_upto f j cs -> 0 <= j -> owner cs' = owner cs -> owner cs0 !! j = f j -> owners_upto f (j + 1) cs'.
  Proof.
    intros H Hj E Ef i Hi. rewrite E, H by done. destruct (Z.ltb_spec i j), (Z.ltb_spec i (j + 1)); try lia; try done.
    replace i with j by lia. done.
  Qed.

Lemma owners_insert f j cs cs' n :
    owners_upto f j cs -> 0 <= j -> owner cs' = <[j := n]> (owner cs) -> f j = Some n -> owners_upto f (j + 1) cs'.
  Proof.
    intros H Hj E Ef i Hi. rewrite E. destruct (decide (j = i)) as [<-|Hne].
    - rewrite lookup_insert_eq. by rewrite (proj2 (Z.ltb_lt _ _)) by lia.
    - rewrite lookup_insert_ne, H by done. destruct (Z.ltb_spec i j), (Z.ltb_spec i (j + 1)); try lia; done.
  Qed.

Lemma owners_delete f j cs cs' :
    owners_upto f j cs -> 0 <= j -> owner cs' = delete j (owner cs) -> f j = None -> owners_upto f (j + 1) cs'.
  Proof.
    intros H Hj E Ef i Hi. rewrite E. destruct (decide (j = i)) as [<-|Hne].
    - rewrite lookup_delete_eq. by rewrite (proj2 (Z.ltb_lt _ _)) by lia.
    - rewrite lookup_delete_ne, H by done. destruct (Z.ltb_spec i j), (Z.ltb_spec i (j + 1)); try lia; done.
  Qed.
End slot_loops.

(** Whether a node covers a slot is whether it owns it. *)
Lemma clusterNodeCoversSlot_ok n j cs :
  slots_wf (nodes cs) (owner cs) -> is_Some (nodes cs !! n) ->
  clusterNodeCoversSlot n j cs = Some (bool_decide (owner cs !! j = Some n)).
Proof.
  intros Hwf [nd Hn]. unfold clusterNodeCoversSlot, bitmapTestBit. rewrite Hn. cbn. f_equal. symmetry.
  destruct (Z.testbit (slots nd) j) eqn:Hb.
  - apply bool_decide_eq_true. by eapply sw_slots.
  - apply bool_decide_eq_false. intros Ho. destruct (sw_owner _ _ Hwf _ _ Ho) as (_ & nd' & Hn' & Hb').
    simplify_eq. congruence.
Qed.

Lemma frame_is_Some cs cs' n : slot_frame cs cs' -> is_Some (nodes cs !! n) -> is_Some (nodes cs' !! n).
Proof. intros F [nd Hn]. destruct (nodes_rel_l _ _ _ _ _ (sf_nodes _ _ F) Hn) as (b & Hb & _). eauto. Qed.

Lemma move_slot_ok cs0 from to f j p cs :
  slots_moved cs0 f j cs -> is_Some (nodes cs0 !! from) -> is_Some (nodes cs0 !! to) -> 0 <= j < CLUSTER_SLOTS ->
  f j = (if bool_decide (owner cs0 !! j = Some from) then Some to else owner cs0 !! j) ->
  ensures (move_slot from to j (p, cs)) (fun '(_, cs') => slots_moved cs0 f (j + 1) cs').
Proof.
  intros [W F O] Hfrom Hto Hj Ef. unfold move_slot.
  rewrite clusterNodeCoversSlot_ok by (done || by eapply frame_is_Some). cbn [mbind option_bind].
  assert (owner cs !! j = owner cs0 !! j) as Ej by (rewrite O by done; by rewrite Z.ltb_irrefl).
  rewrite Ej. destruct (bool_decide (owner cs0 !! j = Some from)).
  - eapply (ensures_bind _ _ (fun '(_, cs1) => exists r cs2, clusterAddSlot to j cs1 = Some (r, cs2) /\
      slots_moved cs0 f (j + 1) cs2)).
    + pose proof (give_slot_ok to j cs W (frame_is_Some _ _ _ F Hto) Hj) as G.
      destruct (clusterDelSlot j cs) as [[r1 cs1]|]; cbn in *; [|done].
      destruct (clusterAddSlot to j cs1) as [[r2 cs2]|]; cbn in *; [|done]. exists r2, cs2. split; [done|].
      destruct G as (W2 & F2 & O2 & _). constructor; [done|by etrans|]. eapply owners_insert; try done; lia.
    + intros [r1 cs1] (r & cs2 & -> & H). exact H.
  - cbn. constructor; try done. eapply owners_step; try done. lia.
Qed.

Lemma clusterMoveNodeSlots_ok from to cs :
  slots_wf (nodes cs) (owner cs) -> is_Some (nodes cs !! from) -> is_Some (nodes cs !! to) ->
  ensures (clusterMoveNodeSlots from to cs) (fun '(_, cs') =>
    slots_wf (nodes cs') (owner cs') /\ slot_frame cs cs' /\
    owner cs' = (fun o => if decide (o = from) then to else o) <$> owner cs).
Proof.
  intros W Hfrom Hto. unfold clusterMoveNodeSlots.
  set (f := fun j => if bool_decide (owner cs !! j = Some from) then Some to else owner cs !! j).
  apply (all_slots_ensures (fun j '(_, c) => slots_moved cs f j c)).
  - constructor; try done. intros i Hi. by rewrite (proj2 (Z.ltb_ge _ _)) by lia.
  - intros i [p c] Hi H. by apply (move_slot_ok cs from to f).
  - intros [p c] [Wc Fc Oc]. split; [done|]. split; [done|]. apply map_eq. intros j. rewrite lookup_fmap.
    destruct (decide (0 <= j < CLUSTER_SLOTS)) as [Hj|Hj].
    + rewrite Oc by done. rewrite (proj2 (Z.ltb_lt _ _)) by lia. unfold f.
      destruct (owner cs !! j) as [o|]; cbn; [|done]. case_bool_decide; case_decide; simplify_eq; done.
    + assert (forall c, slots_wf (nodes c) (owner c) -> owner c !! j = None) as Hout.
      { intros c' W'. apply eq_None_not_Some. intros [o Ho]. by destruct (sw_owner _ _ W' _ _ Ho). }
      by rewrite !Hout.
Qed.

Lemma clusterDelNodeSlots_ok n cs :
  slots_wf (nodes cs) (owner cs) -> is_Some (nodes cs !! n) ->
  ensures (clusterDelNodeSlots n cs) (fun '(_, cs') =>
    slots_wf (nodes cs') (owner cs') /\ slot_frame cs cs' /\ owner cs' = filter (fun p => p.2 <> n) (owner cs)).
Proof.
  intros W Hn. unfold clusterDelNodeSlots.
  set (f := fun j => if bool_decide (owner cs !! j = Some n) then None else owner cs !! j).
  apply (all_slots_ensures (fun j '(_, c) => slots_moved cs f j c)).
  - constructor; try done. intros i Hi. by rewrite (proj2 (Z.ltb_ge _ _)) by lia.
  - intros i [p c] Hi [Wc Fc Oc]. unfold del_slot.
    rewrite clusterNodeCoversSlot_ok by (done || by eapply frame_is_Some). cbn [mbind option_bind].
    assert (owner c !! i = owner cs !! i) as Ei by (rewrite Oc by done; by rewrite Z.ltb_irrefl).
    rewrite Ei. destruct (bool_decide (owner cs !! i = Some n)) eqn:Hb.
    + eapply ensures_bind; [by apply clusterDelSlot_ok|]. intros [r c'] (W' & F' & O' & _). cbn.
      constructor; [done|by etrans|]. eapply owners_delete; try done; [lia|]. unfold f. by rewrite Hb.
    + cbn. constructor; try done. eapply owners_step; try done; [lia|]. unfold f. by rewrite Hb.
  - intros [p c] [Wc Fc Oc]. split; [done|]. split; [done|]. apply map_eq. intros j.
    destruct (decide (0 <= j < CLUSTER_SLOTS)) as [Hj|Hj].
    + rewrite Oc by done. rewrite (proj2 (Z.ltb_lt _ _)) by lia. unfold f. symmetry.
      destruct (owner cs !! j) as [o|] eqn:Ho; case_bool_decide as E.
      * apply map_lookup_filter_None. right. intros o' Ho'. rewrite Ho in Ho'. cbn. naive_solver.
      * apply map_lookup_filter_Some. split; [done|]. cbn. by intros ->.
      * done.
      * apply map_lookup_filter_None. by left.
    + transitivity (@None Z); [|symmetry]; apply eq_None_not_Some; intros [o Ho].
      * by destruct (sw_owner _ _ Wc _ _ Ho).
      * apply map_lookup_filter_Some in Ho as [Ho _]. by destruct (sw_owner _ _ W _ _ Ho).
Qed.

(** ** Updates of the slots *)

(** A slot that goes to a node that claims it with the epoch [e]: it is not being
    imported, and has no owner, or one that stopped claiming it or has an older epoch. *)
Definition rebinds (cs : clusterState) (e j : Z) : bool :=
  bool_decide (importing_slots_from cs !! j = None) &&
  match owner cs !! j with
  | None => true
  | Some o =>
    Z.testbit (owner_not_claiming_slot cs) j ||
    match nodes cs !! o with Some nd => configEpoch nd <? e | None => false end
  end.

(** The owner of a slot after [sender] claimed [claimed]. *)
Definition updated_owner (cs : clusterState) (sender e claimed j : Z) : option Z :=
  if Z.testbit claimed j && rebinds cs e j then Some sender else owner cs !! j.

(** Whether it is then in doubt. *)
Definition updated_doubt (cs : clusterState) (sender e claimed j : Z) : bool :=
  if Z.testbit claimed j
  then negb (bool_decide (owner cs !! j = Some sender) || rebinds cs e j) && Z.testbit (owner_not_claiming_slot cs) j
  else bool_decide (owner cs !! j = Some sender) || Z.testbit (owner_not_claiming_slot cs) j.

Record slots_updated (cs0 : clusterState) (sender e claimed j : Z) (cs : clusterState) : Prop := {
  su_moved : slots_moved cs0 (updated_owner cs0 sender e claimed) j cs;
  su_done i : 0 <= i < j -> Z.testbit (owner_not_claiming_slot cs) i = updated_doubt cs0 sender e claimed i;
  su_todo i : j <= i -> Z.testbit (owner_not_claiming_slot cs) i = Z.testbit (owner_not_claiming_slot cs0) i
}.

Lemma slots_updated_step cs0 sender e claimed j cs cs' :
  slots_updated cs0 sender e claimed j cs ->
  slots_moved cs0 (updated_owner cs0 sender e claimed) (j + 1) cs' ->
  Z.testbit (owner_not_claiming_slot cs') j = updated_doubt cs0 sender e claimed j ->
  (forall i, i <> j -> Z.testbit (owner_not_claiming_slot cs') i = Z.testbit (owner_not_claiming_slot cs) i) ->
  slots_updated cs0 sender e claimed (j + 1) cs'.
Proof.
  intros [M D T] M' Ej Ei. constructor; [done|..]; intros i Hi.
  - destruct (decide (i = j)) as [->|Hne]; [done|]. rewrite Ei by done. apply D. lia.
  - rewrite Ei by lia. apply T. lia.
Qed.

Lemma update_slot_rebind cs0 sender e claimed j cs :
  slots_updated cs0 sender e claimed j cs -> 0 <= j < CLUSTER_SLOTS ->
  importing_slots_from cs !! j = None ->
  ensures (if isSlotUnclaimed j cs then Some true
           else o ← owner cs !! j; nd ← nodes cs !! o; Some (configEpoch nd <? e))
    (fun b => b = rebinds cs0 e j).
Proof.
  intros [[W F O] _ T] Hj Hi. unfold isSlotUnclaimed, bitmapTestBit, rebinds.
  assert (owner cs !! j = owner cs0 !! j) as Ej by (rewrite O by done; by rewrite Z.ltb_irrefl).
  rewrite (T j) by lia. rewrite <- Ej. rewrite <- (sf_importing _ _ F), Hi, bool_decide_true by done. cbn [andb].
  destruct (owner cs !! j) as [o|] eqn:Ho; [|done]. destruct (sw_owner _ _ W _ _ Ho) as (_ & nd & Hn & _).
  destruct (nodes_rel_r _ _ _ _ _ (sf_nodes _ _ F) Hn) as (nd0 & Hn0 & Fn). rewrite Hn0. cbn [orb].
  destruct (Z.testbit _ j); [done|]. cbn. rewrite Hn. cbn. by rewrite (nf_epoch _ _ Fn).
Qed.

Lemma update_slot_ok cs0 sender e claimed cm j u cs :
  slots_updated cs0 sender e claimed j cs -> is_Some (nodes cs0 !! sender) -> 0 <= j < CLUSTER_SLOTS ->
  ensures (update_slot sender e claimed cm j (u, cs)) (fun '(_, cs') => slots_updated cs0 sender e claimed (j + 1) cs').
Proof.
  intros H Hs Hj. pose proof H as [[W F O] _ T].
  assert (owner cs !! j = owner cs0 !! j) as Ej by (rewrite O by done; by rewrite Z.ltb_irrefl).
  assert (forall cs', nodes cs' = nodes cs -> owner cs' = owner cs -> slot_frame cs cs' ->
    updated_owner cs0 sender e claimed j = owner cs0 !! j ->
    slots_moved cs0 (updated_owner cs0 sender e claimed) (j + 1) cs') as Hkeep.
  { intros cs' En Eo Fr Eu. constructor; [by rewrite En, Eo|by etrans|]. eapply owners_step; try done. lia. }
  unfold update_slot, bitmapTestBit. destruct (Z.testbit claimed j) eqn:Hc.
  2: { rewrite Ej. destruct (bool_decide (owner cs0 !! j = Some sender)) eqn:Hb; cbn.
    - eapply slots_updated_step; [done|apply Hkeep; try done; unfold updated_owner; by rewrite Hc|..]; cbn.
      + unfold bitmapSetBit, updated_doubt. by rewrite Z.setbit_eq, Hc, Hb by lia.
      + intros i Hi. unfold bitmapSetBit. by rewrite Z.setbit_neq by lia.
    - eapply slots_updated_step; [done|apply Hkeep; try done; unfold updated_owner; by rewrite Hc| |done].
      unfold updated_doubt. rewrite Hc, Hb. by rewrite (T j) by lia. }
  cbn zeta. rewrite Ej. destruct (bool_decide (owner cs0 !! j = Some sender)) eqn:Hb.
  { apply bool_decide_eq_true in Hb as Ho. cbn. eapply slots_updated_step; [done|apply Hkeep; try done|..]; cbn.
    - unfold updated_owner. rewrite Ho. by destruct (_ && _).
    - unfold updated_doubt, bitmapClearBit. by rewrite Z.clearbit_eq, Hc, Hb.
    - intros i Hi. unfold bitmapClearBit. by rewrite Z.clearbit_neq. }
  destruct (importing_slots_from cs !! j) as [s|] eqn:Hi.
  { assert (rebinds cs0 e j = false) as Hr by (unfold rebinds; rewrite <- (sf_importing _ _ F), Hi; done).
    cbn. eapply slots_updated_step; [done|apply Hkeep; try done|..]; cbn; [|..|done].
    - unfold updated_owner. by rewrite Hc, Hr.
    - unfold updated_doubt. rewrite Hc, Hb, Hr. by rewrite (T j) by lia. }
  rewrite <- Ej. eapply ensures_bind; [by eapply (update_slot_rebind cs0)|]. intros b ->. destruct (rebinds cs0 e j) eqn:Hr.
  2: { cbn. eapply slots_updated_step; [done|apply Hkeep; try done|..]; cbn; [|..|done].
    - unfold updated_owner. by rewrite Hc, Hr.
    - unfold updated_doubt. rewrite Hc, Hb, Hr. by rewrite (T j) by lia. }
  pose proof (give_slot_ok sender j cs W (frame_is_Some _ _ _ F Hs) Hj) as G.
  destruct (clusterDelSlot j cs) as [[r1 cs1]|]; cbn in *; [|done].
  destruct (clusterAddSlot sender j cs1) as [[r2 cs2]|]; cbn in *; [|done]. destruct G as (W2 & F2 & O2 & C2).
  eapply slots_updated_step; [done|..].
  - constructor; [done|by etrans|]. eapply owners_insert; try done; [lia|]. unfold updated_owner. by rewrite Hc, Hr.
  - rewrite C2. unfold updated_doubt. by rewrite Z.clearbit_eq, Hc, Hr, orb_true_r.
  - intros i Hne. rewrite C2. by rewrite Z.clearbit_neq.
Qed.

Lemma update_slots_ok sender e claimed cm u cs :
  slots_wf (nodes cs) (owner cs) -> is_Some (nodes cs !! sender) ->
  ensures (for_slots (Z.to_nat CLUSTER_SLOTS) 0 (update_slot sender e claimed cm) (u, cs)) (fun '(_, cs') =>
    slots_updated cs sender e claimed CLUSTER_SLOTS cs').
Proof.
  intros W Hs. apply (all_slots_ensures (fun j '(_, c) => slots_updated cs sender e claimed j c)).
  - constructor; [|lia|done]. constructor; try done. intros i Hi. by rewrite (proj2 (Z.ltb_ge _ _)) by lia.
  - intros i [v c] Hi H. by apply update_slot_ok.
  - intros [v c] H. exact H.
Qed.
End ClusterSlots.
