(* ===== verification/ClusterInvariant.v ===== *)
(** The invariant of a node's state: slots and their owners agree, masters and replicas
    point at each other, and this node is a master or a replica without slots.  Every
    packet and every call of the failover keeps it, and none of them fails: no handler
    follows a pointer to a node that is not there, or breaks an assertion. *)
From stdpp Require Import base numbers list gmap fin_maps.
From stdpp Require Import options.
From S2P Require Import Prelude Cluster ClusterSlots.

Module ClusterInvariant.
Import Cluster ClusterSlots.

(** ** The invariant *)

(** The master of a node, that of [n] being taken to be [o]. *)
Definition master_at (n : Z) (o : option Z) (x : Z) (xd : clusterNode) : option Z :=
  if decide (x = n) then o else slaveof xd.

Record links_at (ns : gmap Z clusterNode) (n : Z) (o : option Z) : Prop := {
  la_master x xd m : ns !! x = Some xd -> master_at n o x xd = Some m ->
    exists md, ns !! m = Some md /\ x ∈ slaves md;
  la_slaves x xd s : ns !! x = Some xd -> s ∈ slaves xd ->
    exists sd, ns !! s = Some sd /\ master_at n o s sd = Some x;
  la_nodup x xd : ns !! x = Some xd -> NoDup (slaves xd)
}.

Record links_wf (ns : gmap Z clusterNode) : Prop := {
  lw_master x xd m : ns !! x = Some xd -> slaveof xd = Some m -> exists md, ns !! m = Some md /\ x ∈ slaves md;
  lw_slaves x xd s : ns !! x = Some xd -> s ∈ slaves xd -> exists sd, ns !! s = Some sd /\ slaveof sd = Some x;
  lw_nodup x xd : ns !! x = Some xd -> NoDup (slaves xd)
}.

Definition roles_wf (ns : gmap Z clusterNode) : Prop :=
  forall x xd, ns !! x = Some xd -> clusterNodeIsMaster xd = true -> slaveof xd = None.

Definition me_wf (cs : clusterState) : Prop :=
  exists me, nodes cs !! myself cs = Some me /\ nodeIsSlave me = negb (clusterNodeIsMaster me) /\
    (clusterNodeIsMaster me = false -> numslots me = 0 /\ slaveof me <> None).

Record table_wf (cs : clusterState) : Prop := {
  tw_slots : slots_wf (nodes cs) (owner cs);
  tw_links : links_wf (nodes cs);
  tw_roles : roles_wf (nodes cs)
}.

Record cluster_wf (cs : clusterState) : Prop := {
  cw_table : table_wf cs;
  cw_me : me_wf cs
}.

Lemma links_frame ns ns' : nodes_frame ns ns' -> links_wf ns -> links_wf ns'.
Proof.
  intros Hf [Hm Hs Hd]. constructor.
  - intros x xd m (a & Hx & F)%(nodes_rel_r _ _ _ _ _ Hf) E. rewrite (nf_slaveof _ _ F) in E.
    destruct (Hm _ _ _ Hx E) as (md & Hmd & Hin). destruct (nodes_rel_l _ _ _ _ _ Hf Hmd) as (b & Hb & Fb).
    exists b. by rewrite (nf_slaves _ _ Fb).
  - intros x xd s (a & Hx & F)%(nodes_rel_r _ _ _ _ _ Hf) Hin. rewrite (nf_slaves _ _ F) in Hin.
    destruct (Hs _ _ _ Hx Hin) as (sd & Hsd & E). destruct (nodes_rel_l _ _ _ _ _ Hf Hsd) as (b & Hb & Fb).
    exists b. by rewrite (nf_slaveof _ _ Fb).
  - intros x xd (a & Hx & F)%(nodes_rel_r _ _ _ _ _ Hf). rewrite (nf_slaves _ _ F). by eapply Hd.
Qed.

Lemma roles_frame ns ns' : nodes_frame ns ns' -> roles_wf ns -> roles_wf ns'.
Proof.
  intros Hf Hr x xd (a & Hx & F)%(nodes_rel_r _ _ _ _ _ Hf). rewrite (nf_slaveof _ _ F), (nf_master _ _ F). exact (Hr x a Hx).
Qed.


(** ** Links *)

(** What the links of a node can change without: its slots, and the role and the master
    of every node but [n]. *)
Record node_link (n x : Z) (a b : clusterNode) : Prop := {
  nl_slots : slots b = slots a;
  nl_numslots : numslots b = numslots a;
  nl_slaveof : x <> n -> slaveof b = slaveof a;
  nl_master : x <> n -> clusterNodeIsMaster b = clusterNodeIsMaster a;
  nl_slave : x <> n -> nodeIsSlave b = nodeIsSlave a
}.

#[export] Instance node_link_preorder n x : PreOrder (node_link n x).
Proof.
  split; [by constructor|]. intros a b c [? ? H1 H2 H3] [? ? H4 H5 H6].
  constructor; try congruence; intros Hx; [rewrite H4, H1|rewrite H5, H2|rewrite H6, H3]; done.
Qed.

Lemma slots_link n ns ns' ow : nodes_rel (node_link n) ns ns' -> slots_wf ns ow -> slots_wf ns' ow.
Proof.
  intros Hf [Ho Hs Hc]. constructor.
  - intros j m Hj. destruct (Ho _ _ Hj) as (Hr & md & Hm & Hb). split; [done|].
    destruct (nodes_rel_l _ _ _ _ _ Hf Hm) as (b & Hb' & L). exists b. by rewrite (nl_slots _ _ _ _ L).
  - intros m md j (a & Ha & L)%(nodes_rel_r _ _ _ _ _ Hf). rewrite (nl_slots _ _ _ _ L). by eapply Hs.
  - intros m md (a & Ha & L)%(nodes_rel_r _ _ _ _ _ Hf). rewrite (nl_slots _ _ _ _ L), (nl_numslots _ _ _ _ L). by eapply Hc.
Qed.

Lemma links_at_wf ns n nd : ns !! n = Some nd -> links_at ns n (slaveof nd) <-> links_wf ns.
Proof.
  intros Hn. assert (forall x xd, ns !! x = Some xd -> master_at n (slaveof nd) x xd = slaveof xd) as E.
  { intros x xd Hx. unfold master_at. case_decide; [by simplify_eq|done]. }
  split; intros [Hm Hs Hd]; constructor; try done.
  - intros x xd m Hx Hxm. by eapply Hm; [done|rewrite E].
  - intros x xd s Hx Hin. destruct (Hs _ _ _ Hx Hin) as (sd & Hsd & Es). exists sd. by rewrite <- (E s).
  - intros x xd m Hx Hxm. by eapply Hm; [done|rewrite <- (E x)].
  - intros x xd s Hx Hin. destruct (Hs _ _ _ Hx Hin) as (sd & Hsd & Es). exists sd. by rewrite E.
Qed.

(** Changes that leave the lists of replicas and the masters of the others alone. *)
Lemma links_at_upd ns n o x xd xd' :
  links_at ns n o -> ns !! x = Some xd -> slaves xd' = slaves xd -> (x <> n -> slaveof xd' = slaveof xd) ->
  links_at (<[x := xd']> ns) n o.
Proof.
  intros [Hm Hs Hd] Hx Es Eo.
  assert (forall y yd, <[x := xd']> ns !! y = Some yd -> exists yd0, ns !! y = Some yd0 /\
    slaves yd = slaves yd0 /\ master_at n o y yd = master_at n o y yd0) as Hold.
  { intros y yd [[<- <-]|[Hne Hy]]%lookup_insert_Some; [|by eauto]. exists xd. split; [done|]. split; [done|].
    unfold master_at. case_decide; [done|by apply Eo]. }
  assert (forall y yd0, ns !! y = Some yd0 -> exists yd, <[x := xd']> ns !! y = Some yd /\
    slaves yd = slaves yd0 /\ master_at n o y yd = master_at n o y yd0) as Hnew.
  { intros y yd0 Hy. destruct (decide (x = y)) as [<-|Hne].
    - exists xd'. rewrite lookup_insert_eq. simplify_eq. split; [done|]. split; [done|].
      unfold master_at. case_decide; [done|by apply Eo].
    - exists yd0. by rewrite lookup_insert_ne. }
  constructor.
  - intros y yd m (yd0 & Hy & _ & E)%Hold Hym. rewrite E in Hym. destruct (Hm _ _ _ Hy Hym) as (md & Hmd & Hin).
    destruct (Hnew _ _ Hmd) as (md' & Hmd' & E' & _). exists md'. by rewrite E'.
  - intros y yd s (yd0 & Hy & E & _)%Hold Hin. rewrite E in Hin. destruct (Hs _ _ _ Hy Hin) as (sd & Hsd & Em).
    destruct (Hnew _ _ Hsd) as (sd' & Hsd' & _ & E'). exists sd'. by rewrite E'.
  - intros y yd (yd0 & Hy & E & _)%Hold. rewrite E. by eapply Hd.
Qed.

Lemma remove_first_elem l n x : NoDup l -> x ∈ remove_first n l <-> x ∈ l /\ x <> n.
Proof.
  induction l as [|y l IH]; intros Hnd; cbn; [split; [by intros ?%not_elem_of_nil|by intros [?%not_elem_of_nil _]]|].
  apply NoDup_cons in Hnd as [Hy Hnd]. destruct (Z.eqb_spec y n) as [->|Hne].
  - rewrite elem_of_cons. split; [intros Hx; split; [by right|]; by intros ->|by intros [[?|?] ?]].
  - rewrite !elem_of_cons, IH by done. split; [intros [->|[? ?]]; auto|intros [[->|?] ?]; auto].
Qed.

Lemma remove_first_nodup l n : NoDup l -> NoDup (remove_first n l).
Proof.
  induction l as [|y l IH]; intros Hnd; cbn; [constructor|]. apply NoDup_cons in Hnd as [Hy Hnd].
  destruct (y =? n); [done|]. apply NoDup_cons. split; [|by apply IH]. by rewrite remove_first_elem by done; intros [].
Qed.

(** A step that changes links. *)
Record link_frame (n : Z) (cs cs' : clusterState) : Prop := {
  lf_nodes : nodes_rel (node_link n) (nodes cs) (nodes cs');
  lf_myself : myself cs' = myself cs;
  lf_owner : owner cs' = owner cs;
  lf_doubt : owner_not_claiming_slot cs' = owner_not_claiming_slot cs
}.

#[export] Instance link_frame_preorder n : PreOrder (link_frame n).
Proof.
  split; [constructor; done|]. intros a b c [] []. constructor; try congruence. by etrans.
Qed.

Lemma link_frame_upd n x a b cs :
  nodes cs !! x = Some a -> node_link n x a b -> link_frame n cs (set_nodes cs (<[x := b]> (nodes cs))).
Proof. intros Hx L. constructor; try done. cbn. by eapply (nodes_rel_insert (node_link n)). Qed.

(** [slaves] changes, and the flag of the masters that used to have replicas. *)
Record node_slaves (a b : clusterNode) : Prop := {
  ns_slots : slots b = slots a;
  ns_numslots : numslots b = numslots a;
  ns_slaveof : slaveof b = slaveof a;
  ns_master : clusterNodeIsMaster b = clusterNodeIsMaster a;
  ns_slave : nodeIsSlave b = nodeIsSlave a
}.

Lemma node_slaves_link n x a b : node_slaves a b -> node_link n x a b.
Proof. intros []. by constructor. Qed.

Lemma clusterNodeRemoveSlave_ok n m cs :
  links_at (nodes cs) n (Some m) -> is_Some (nodes cs !! n) ->
  ensures (clusterNodeRemoveSlave m n cs) (fun '(_, cs') => exists md md', nodes cs !! m = Some md /\
    cs' = set_nodes cs (<[m := md']> (nodes cs)) /\ node_slaves md md' /\ links_at (nodes cs') n None).
Proof.
  intros [Hm Hs Hd] [nd Hn]. unfold clusterNodeRemoveSlave.
  destruct (Hm n nd m Hn) as (md & Hmd & Hin); [unfold master_at; by rewrite decide_True|].
  rewrite Hmd. cbn. rewrite bool_decide_true by done. unfold upd. rewrite Hmd. cbn.
  set (md' := if (length _ =? 0)%nat then _ else _). exists md, md'. split; [done|]. split; [done|].
  assert (node_slaves md md') as Hf.
  { unfold md'. case_match; constructor; try done; unfold clusterNodeIsMaster, nodeIsSlave; by rewrite has_flag_del. }
  assert (slaves md' = remove_first n (slaves md)) as Es by (unfold md'; by case_match). split; [done|].
  clearbody md'. pose proof (Hd _ _ Hmd) as Hnd. cbn [nodes set_nodes].
  assert (forall x xd, <[m := md']> (nodes cs) !! x = Some xd -> exists xd0, nodes cs !! x = Some xd0 /\
    slaveof xd = slaveof xd0 /\ (x <> m -> slaves xd = slaves xd0)) as Hold.
  { intros x xd [[<- <-]|[Hne Hx]]%lookup_insert_Some; [|by eauto]. exists md. by rewrite (ns_slaveof _ _ Hf). }
  constructor.
  - intros x xd y (xd0 & Hx & E & _)%Hold Hy. unfold master_at in Hy. case_decide as Hxn; [done|]. rewrite E in Hy.
    destruct (Hm x xd0 y Hx) as (yd & Hyd & Hxin); [unfold master_at; by rewrite decide_False|].
    destruct (decide (m = y)) as [->|Hne].
    + exists md'. rewrite lookup_insert_eq, Es, remove_first_elem by done. by simplify_eq.
    + exists yd. by rewrite lookup_insert_ne.
  - intros x xd s Hx Hsin.
    assert (exists xd0, nodes cs !! x = Some xd0 /\ s ∈ slaves xd0 /\ s <> n) as (xd0 & Hx0 & Hsin0 & Hsn).
    { apply lookup_insert_Some in Hx as [[<- <-]|[Hne Hx]].
      - rewrite Es in Hsin. apply remove_first_elem in Hsin as [? ?]; eauto.
      - exists xd. split; [done|]. split; [done|]. intros ->. destruct (Hs _ _ _ Hx Hsin) as (sd & _ & E).
        unfold master_at in E. rewrite decide_True in E by done. congruence. }
    destruct (Hs _ _ _ Hx0 Hsin0) as (sd & Hsd & E). unfold master_at in *. rewrite decide_False in E by done.
    destruct (decide (m = s)) as [->|Hne].
    + exists md'. rewrite lookup_insert_eq, decide_False by done. split; [done|]. simplify_eq.
      by rewrite (ns_slaveof _ _ Hf).
    + exists sd. rewrite lookup_insert_ne, decide_False by done. done.
  - intros x xd [[<- <-]|[Hne Hx]]%lookup_insert_Some; [rewrite Es; by apply remove_first_nodup|by eapply Hd].
Qed.

Lemma clusterNodeAddSlave_ok n m cs :
  links_at (nodes cs) n None -> is_Some (nodes cs !! n) -> is_Some (nodes cs !! m) ->
  ensures (clusterNodeAddSlave m n cs) (fun '(_, cs') => exists md md', nodes cs !! m = Some md /\
    cs' = set_nodes cs (<[m := md']> (nodes cs)) /\ node_slaves md md' /\ links_at (nodes cs') n (Some m)).
Proof.
  intros [Hm Hs Hd] [nd Hn] [md Hmd]. unfold clusterNodeAddSlave. rewrite Hmd. cbn.
  assert (forall x xd, nodes cs !! x = Some xd -> n ∉ slaves xd) as Hnot.
  { intros x xd Hx Hin. destruct (Hs _ _ _ Hx Hin) as (sd & _ & E). unfold master_at in E.
    by rewrite decide_True in E. }
  rewrite bool_decide_false by by eapply Hnot. unfold upd. rewrite Hmd. cbn. eexists md, _. split; [done|]. split; [done|].
  match goal with |- node_slaves _ ?b /\ _ => set (md' := b) end.
  assert (node_slaves md md') as Hf
    by (constructor; try done; unfold md', clusterNodeIsMaster, nodeIsSlave; by rewrite has_flag_add).
  assert (slaves md' = slaves md ++ [n]) as Es by done. split; [done|]. clearbody md'. cbn [nodes set_nodes].
  constructor.
  - intros x xd y Hx Hy.
    assert (exists xd0, nodes cs !! x = Some xd0 /\ slaveof xd = slaveof xd0) as (xd0 & Hx0 & E).
    { apply lookup_insert_Some in Hx as [[<- <-]|[Hne Hx]]; [|by eauto]. exists md. by rewrite (ns_slaveof _ _ Hf). }
    unfold master_at in Hy. case_decide as Hxn.
    + injection Hy as <-. exists md'. rewrite lookup_insert_eq, Es. split; [done|]. subst.
      apply elem_of_app. right. by left.
    + destruct (Hm x xd0 y Hx0) as (yd & Hyd & Hin); [unfold master_at; rewrite decide_False by done; congruence|].
      destruct (decide (m = y)) as [->|Hne].
      * exists md'. rewrite lookup_insert_eq, Es. split; [done|]. apply elem_of_app. left. by simplify_eq.
      * exists yd. by rewrite lookup_insert_ne.
  - intros x xd s Hx Hsin.
    assert (s = n /\ x = m \/ exists xd0, nodes cs !! x = Some xd0 /\ s ∈ slaves xd0) as Hcase.
    { apply lookup_insert_Some in Hx as [[<- <-]|[Hne Hx]]; [|by eauto]. rewrite Es in Hsin.
      apply elem_of_app in Hsin as [?| ->%list_elem_of_singleton]; eauto. }
    assert (forall s sd, nodes cs !! s = Some sd -> exists sd', <[m := md']> (nodes cs) !! s = Some sd' /\
      slaveof sd' = slaveof sd) as Hnew.
    { intros z zd Hz. destruct (decide (m = z)) as [<-|Hne]; [|exists zd; by rewrite lookup_insert_ne].
      exists md'. rewrite lookup_insert_eq. simplify_eq. by rewrite (ns_slaveof _ _ Hf). }
    destruct Hcase as [[-> ->]|(xd0 & Hx0 & Hin)].
    + destruct (Hnew _ _ Hn) as (sd' & Hsd' & _). exists sd'. split; [done|]. unfold master_at. by rewrite decide_True.
    + destruct (Hs _ _ _ Hx0 Hin) as (sd & Hsd & E). unfold master_at in *. case_decide as Hsn; [done|].
      destruct (Hnew _ _ Hsd) as (sd' & Hsd' & E'). exists sd'. rewrite E'. done.
  - intros x xd [[<- <-]|[Hne Hx]]%lookup_insert_Some; [|by eapply Hd]. rewrite Es. apply NoDup_app.
    split; [by eapply Hd|]. split; [|apply NoDup_singleton]. intros y Hy ->%list_elem_of_singleton. by eapply Hnot.
Qed.

(** ** Updates that the invariant does not see *)

Record node_quiet (a b : clusterNode) : Prop := {
  nq_slaves : slaves b = slaves a;
  nq_same : node_slaves a b
}.

#[export] Instance node_quiet_preorder : PreOrder node_quiet.
Proof.
  split; [intros a; constructor; [done|by constructor]|].
  intros a b c [? []] [? []]. constructor; [congruence|constructor; congruence].
Qed.

Record quiet_frame (cs cs' : clusterState) : Prop := {
  qf_nodes : nodes_rel (fun _ => node_quiet) (nodes cs) (nodes cs');
  qf_myself : myself cs' = myself cs;
  qf_owner : owner cs' = owner cs
}.

#[export] Instance quiet_frame_preorder : PreOrder quiet_frame.
Proof. split; [constructor; done|]. intros a b c [] []. constructor; try congruence. by etrans. Qed.

(** The same nodes are there, or more. *)
Record same_names (cs cs' : clusterState) : Prop := {
  sn_myself : myself cs' = myself cs;
  sn_nodes x : is_Some (nodes cs !! x) -> is_Some (nodes cs' !! x)
}.

#[export] Instance same_names_preorder : PreOrder same_names.
Proof. split; [by constructor|]. intros a b c [] []. constructor; [congruence|auto]. Qed.

Lemma nodes_rel_is_Some R ns ns' x : nodes_rel R ns ns' -> is_Some (ns !! x) -> is_Some (ns' !! x).
Proof. intros Hf [a Ha]. destruct (nodes_rel_l _ _ _ _ _ Hf Ha) as (b & Hb & _). eauto. Qed.

Lemma quiet_names cs cs' : quiet_frame cs cs' -> same_names cs cs'.
Proof. intros []. constructor; [done|]. intros x. by eapply nodes_rel_is_Some. Qed.

Lemma link_names n cs cs' : link_frame n cs cs' -> same_names cs cs'.
Proof. intros []. constructor; [done|]. intros x. by eapply nodes_rel_is_Some. Qed.

Lemma slot_names cs cs' : slot_frame cs cs' -> same_names cs cs'.
Proof. intros []. constructor; [done|]. intros x. by eapply nodes_rel_is_Some. Qed.

Lemma quiet_table cs cs' : quiet_frame cs cs' -> table_wf cs -> table_wf cs'.
Proof.
  intros [Hf Em Eo] [Hs [Hm Hsl Hd] Hr]. constructor.
  - rewrite Eo. eapply (slots_link 0); [|done]. eapply nodes_rel_mono; [|done].
    intros x a b []. by apply node_slaves_link.
  - constructor.
    + intros x xd m (a & Ha & [_ Q])%(nodes_rel_r _ _ _ _ _ Hf). rewrite (ns_slaveof _ _ Q). intros Hx.
      destruct (Hm _ _ _ Ha Hx) as (md & Hmd & Hin). destruct (nodes_rel_l _ _ _ _ _ Hf Hmd) as (b & Hb & [Q' _]).
      exists b. by rewrite Q'.
    + intros x xd s (a & Ha & [Q _])%(nodes_rel_r _ _ _ _ _ Hf). rewrite Q. intros Hin.
      destruct (Hsl _ _ _ Ha Hin) as (sd & Hsd & E). destruct (nodes_rel_l _ _ _ _ _ Hf Hsd) as (b & Hb & [_ Q']).
      exists b. by rewrite (ns_slaveof _ _ Q').
    + intros x xd (a & Ha & [Q _])%(nodes_rel_r _ _ _ _ _ Hf). rewrite Q. by eapply Hd.
  - intros x xd (a & Ha & [_ Q])%(nodes_rel_r _ _ _ _ _ Hf). rewrite (ns_slaveof _ _ Q), (ns_master _ _ Q). by eapply Hr.
Qed.

(** What this node knows of itself. *)
Lemma me_wf_same cs cs' me me' :
  nodes cs !! myself cs = Some me -> nodes cs' !! myself cs' = Some me' -> numslots me' = numslots me ->
  slaveof me' = slaveof me -> clusterNodeIsMaster me' = clusterNodeIsMaster me -> nodeIsSlave me' = nodeIsSlave me ->
  me_wf cs -> me_wf cs'.
Proof.
  intros H H' En Eo Em Es (me0 & H0 & Hr & Hs). simplify_eq. exists me'. split; [done|].
  rewrite En, Eo, Em, Es. done.
Qed.

Lemma quiet_wf cs cs' : quiet_frame cs cs' -> cluster_wf cs -> cluster_wf cs'.
Proof.
  intros F [Ht Hme]. split; [by eapply quiet_table|]. pose proof Hme as (me & Hm & _).
  destruct (nodes_rel_l _ _ _ _ _ (qf_nodes _ _ F) Hm) as (me' & Hm' & [_ []]). rewrite <- (qf_myself _ _ F) in Hm'.
  by apply (me_wf_same cs cs' me me').
Qed.

Lemma quiet_upd n f cs :
  is_Some (nodes cs !! n) -> (forall nd, node_quiet nd (f nd)) -> ensures (upd n f cs) (quiet_frame cs).
Proof.
  intros [nd Hn] Hf. eapply upd_ensures; [done|]. constructor; try done. cbn.
  by eapply (nodes_rel_insert (fun _ => node_quiet)).
Qed.

(** The fields other than the links and the slots. *)
Lemma quiet_fields a b :
  flags b = flags a -> slots b = slots a -> numslots b = numslots a -> slaves b = slaves a -> slaveof b = slaveof a ->
  node_quiet a b.
Proof.
  intros Ef ????. constructor; [done|]. constructor; try done.
  all: unfold clusterNodeIsMaster, nodeIsSlave, has_flag; by rewrite Ef.
Qed.

Lemma quiet_add f nd : Z.land 3 f = 0 -> node_quiet nd (add_flag f nd).
Proof.
  intros Hf. assert (forall g, Z.land g 3 = g -> Z.land g f = 0) as H
    by (intros g Hg; rewrite <- Hg, <- Z.land_assoc, Hf; apply Z.land_0_r).
  constructor; [done|]. constructor; try done; unfold clusterNodeIsMaster, nodeIsSlave; rewrite has_flag_add; auto.
Qed.

Lemma quiet_del f nd : Z.land 3 f = 0 -> node_quiet nd (del_flag f nd).
Proof.
  intros Hf. assert (forall g, Z.land g 3 = g -> Z.land g f = 0) as H
    by (intros g Hg; rewrite <- Hg, <- Z.land_assoc, Hf; apply Z.land_0_r).
  constructor; [done|]. constructor; try done; unfold clusterNodeIsMaster, nodeIsSlave; rewrite has_flag_del; auto.
Qed.

Create HintDb quiet.
#[export] Hint Resolve quiet_fields quiet_add quiet_del : quiet.

(** ** Roles *)

Lemma link_me n cs cs' : link_frame n cs cs' -> n <> myself cs -> me_wf cs -> me_wf cs'.
Proof.
  intros F Hne Hme. pose proof Hme as (me & Hm & _).
  destruct (nodes_rel_l _ _ _ _ _ (lf_nodes _ _ _ F) Hm) as (me' & Hm' & [_ E1 E2 E3 E4]).
  rewrite <- (lf_myself _ _ _ F) in Hm'. apply (me_wf_same cs cs' me me'); auto.
Qed.

(** The links of [n] are changed and it gets the master [o]. *)
Lemma table_link n cs cs' nd' :
  table_wf cs -> link_frame n cs cs' -> nodes cs' !! n = Some nd' -> links_at (nodes cs') n (slaveof nd') ->
  (clusterNodeIsMaster nd' = true -> slaveof nd' = None) -> table_wf cs'.
Proof.
  intros [Hs Hl Hr] F Hn Hat Hrole. constructor.
  - rewrite (lf_owner _ _ _ F). eapply slots_link; [by apply lf_nodes|done].
  - by eapply links_at_wf.
  - intros x xd Hx. destruct (decide (x = n)) as [->|Hne]; [by simplify_eq|].
    destruct (nodes_rel_r _ _ _ _ _ (lf_nodes _ _ _ F) Hx) as (a & Ha & [_ _ E1 E2 _]).
    rewrite E1, E2 by done. by eapply Hr.
Qed.

Lemma clusterSetNodeAsMaster_ok n cs nd :
  table_wf cs -> nodes cs !! n = Some nd ->
  ensures (clusterSetNodeAsMaster n cs) (fun cs' => table_wf cs' /\ link_frame n cs cs' /\
    exists nd', nodes cs' !! n = Some nd' /\ clusterNodeIsMaster nd' = true /\
      nodeIsSlave nd' = nodeIsSlave nd && clusterNodeIsMaster nd).
Proof.
  intros Hwf Hn. unfold clusterSetNodeAsMaster. rewrite Hn. cbn.
  destruct (clusterNodeIsMaster nd) eqn:Hm.
  { cbn. split; [done|]. split; [done|]. exists nd. by rewrite andb_true_r. }
  assert (forall cs1 nd1, nodes cs1 !! n = Some nd1 -> link_frame n cs cs1 -> links_at (nodes cs1) n None ->
    ensures (upd n (fun nd => set_slaveof (add_flag CLUSTER_NODE_MASTER (del_flag CLUSTER_NODE_SLAVE nd)) None) cs1)
      (fun cs' => table_wf cs' /\ link_frame n cs cs' /\
        exists nd', nodes cs' !! n = Some nd' /\ clusterNodeIsMaster nd' = true /\ nodeIsSlave nd' = nodeIsSlave nd && false))
    as Hfinish.
  { intros cs1 nd1 Hn1 F1 L1. eapply upd_ensures; [done|]. set (nd2 := set_slaveof _ None).
    assert (link_frame n cs (set_nodes cs1 (<[n := nd2]> (nodes cs1)))) as F2
      by (etrans; [done|]; eapply link_frame_upd; [done|]; by constructor).
    assert (clusterNodeIsMaster nd2 = true /\ nodeIsSlave nd2 = false) as [M2 S2].
    { split; [exact (has_flag_add_self CLUSTER_NODE_MASTER _ ltac:(done))|].
      etrans; [exact (has_flag_add CLUSTER_NODE_SLAVE CLUSTER_NODE_MASTER _ eq_refl)|].
      exact (has_flag_del_self CLUSTER_NODE_SLAVE CLUSTER_NODE_SLAVE _ eq_refl). }
    split; [|split; [done|]].
    - apply (table_link n cs _ nd2); [done|done|cbn; by rewrite lookup_insert_eq| |done].
      cbn [nodes set_nodes]. eapply links_at_upd; [exact L1|done|done|done].
    - exists nd2. cbn. rewrite lookup_insert_eq, andb_false_r. done. }
  pose proof (tw_links _ Hwf) as Hl. apply (links_at_wf _ _ _ Hn) in Hl.
  destruct (slaveof nd) as [m|] eqn:Ho; [|by apply (Hfinish cs nd)].
  eapply (ensures_bind _ _ (fun cs1 => link_frame n cs cs1 /\ links_at (nodes cs1) n None)).
  - eapply ensures_bind; [by apply clusterNodeRemoveSlave_ok|]. intros [r cs1] (md & md' & Hmd & E & Hs & L1).
    assert (link_frame n cs cs1) as F1 by (rewrite E; eapply link_frame_upd; [done|by apply node_slaves_link]).
    destruct (negb (n =? myself cs1)); [|done].
    destruct (nodes_rel_l _ _ _ _ _ (lf_nodes _ _ _ F1) Hn) as (nd1 & Hn1 & _).
    eapply upd_ensures; [done|]. split.
    + etrans; [done|]. eapply link_frame_upd; [done|]. by constructor.
    + cbn [nodes set_nodes]. eapply links_at_upd; done.
  - intros cs1 [F1 L1]. destruct (nodes_rel_l _ _ _ _ _ (lf_nodes _ _ _ F1) Hn) as (nd1 & Hn1 & _).
    by eapply Hfinish.
Qed.

(** A replica takes the shard of its master. *)
Lemma updateShardId_replica cs x xd m md :
  nodes cs !! x = Some xd -> slaveof xd = Some m -> nodes cs !! m = Some md ->
  updateShardId x (shard_id md) cs = Some (set_nodes cs (<[x := set_shard_id xd (shard_id md)]> (nodes cs))).
Proof.
  intros Hx Ho Hm. unfold updateShardId. rewrite Hx. cbn [mbind option_bind]. destruct (Z.eqb_spec (shard_id xd) (shard_id md)) as [E|_].
  - rewrite <- E. replace (set_shard_id xd (shard_id xd)) with xd by by destruct xd. rewrite insert_id by done. by destruct cs.
  - rewrite Ho. cbn [mbind option_bind]. rewrite Hm. cbn [mbind option_bind]. rewrite Z.eqb_refl.
    unfold assignShardIdToNode, upd. by rewrite Hx.
Qed.

(** This node, which is a replica without a master, points at one and takes its shard. *)
Lemma follow_master n cs cs1 me1 :
  is_Some (nodes cs !! n) -> link_frame (myself cs) cs cs1 -> nodes cs1 !! myself cs = Some me1 ->
  links_at (nodes cs1) (myself cs) None -> clusterNodeIsMaster me1 = false -> nodeIsSlave me1 = true ->
  exists c2 nd cs2 me2, upd (myself cs1) (fun nd => set_slaveof nd (Some n)) cs1 = Some c2 /\
    nodes c2 !! n = Some nd /\ updateShardId (myself c2) (shard_id nd) c2 = Some cs2 /\
    link_frame (myself cs) cs cs2 /\ links_at (nodes cs2) (myself cs) None /\
    nodes cs2 !! myself cs = Some me2 /\ slaveof me2 = Some n /\ clusterNodeIsMaster me2 = false /\ nodeIsSlave me2 = true.
Proof.
  intros Hn F1 Hm1 L1 M1 S1. pose proof (lf_myself _ _ _ F1) as Em. unfold upd at 1. rewrite Em, Hm1. cbn [mbind option_bind].
  set (me1' := set_slaveof me1 (Some n)). set (c2 := set_nodes cs1 (<[myself cs := me1']> (nodes cs1))).
  assert (link_frame (myself cs) cs c2) as F2 by (etrans; [done|]; eapply link_frame_upd; [done|]; by constructor).
  assert (nodes c2 !! myself cs = Some me1') as Hm2 by apply lookup_insert_eq.
  assert (links_at (nodes c2) (myself cs) None) as L2 by by eapply links_at_upd.
  assert (is_Some (nodes c2 !! n)) as [nd Hnd] by (eapply nodes_rel_is_Some; [by apply lf_nodes|done]).
  exists c2, nd, (set_nodes c2 (<[myself cs := set_shard_id me1' (shard_id nd)]> (nodes c2))), (set_shard_id me1' (shard_id nd)).
  split; [done|]. split; [done|]. rewrite (lf_myself _ _ _ F2). split; [by apply (updateShardId_replica _ _ _ n)|].
  split; [etrans; [done|]; eapply link_frame_upd; [done|]; by constructor|]. split; [by eapply links_at_upd|].
  split; [apply lookup_insert_eq|done].
Qed.

(** This node, which is a replica without a master, gets one. *)
Lemma become_replica n cs cs1 me1 :
  cluster_wf cs -> (forall j, owner cs !! j <> Some (myself cs)) -> is_Some (nodes cs !! n) ->
  link_frame (myself cs) cs cs1 -> nodes cs1 !! myself cs = Some me1 -> links_at (nodes cs1) (myself cs) None ->
  clusterNodeIsMaster me1 = false -> nodeIsSlave me1 = true ->
  ensures (cs2 ← upd (myself cs1) (fun nd => set_slaveof nd (Some n)) cs1;
           nd ← nodes cs2 !! n; cs2 ← updateShardId (myself cs2) (shard_id nd) cs2;
           '(_, cs3) ← clusterNodeAddSlave n (myself cs2) cs2; Some (resetManualFailover cs3))
    (fun cs' => cluster_wf cs' /\ link_frame (myself cs) cs cs').
Proof.
  intros [Ht _] Hown Hn F1 Hm1 L1 M1 S1.
  destruct (follow_master n cs cs1 me1 Hn F1 Hm1 L1 M1 S1) as (c2 & nd & cs2 & me2 & -> & Hnd & Eu & F2 & L2 & Hm2 & O2 & M2 & S2).
  cbn [mbind option_bind]. rewrite Hnd. cbn [mbind option_bind]. rewrite Eu. cbn [mbind option_bind]. rewrite (lf_myself _ _ _ F2).
  eapply ensures_bind.
  { apply clusterNodeAddSlave_ok; [exact L2|eauto|]. eapply nodes_rel_is_Some; [by apply lf_nodes|done]. }
  intros [r cs3] (md & md' & Hmd & E & Hf & L3).
  assert (link_frame (myself cs) cs cs3) as F3
    by (etrans; [exact F2|]; rewrite E; eapply link_frame_upd; [done|by apply node_slaves_link]).
  assert (exists me3, nodes cs3 !! myself cs = Some me3 /\ slaveof me3 = Some n /\ clusterNodeIsMaster me3 = false /\
    nodeIsSlave me3 = true) as (me3 & Hm3 & O3 & M3 & S3).
  { rewrite E. cbn. destruct (decide (n = myself cs)) as [->|Hne].
    - rewrite lookup_insert_eq. simplify_eq. exists md'. destruct Hf as [_ _ -> -> ->]. done.
    - rewrite lookup_insert_ne by done. eauto. }
  cbn. assert (table_wf cs3) as Ht3.
  { eapply table_link; [done|exact F3|done|by rewrite O3|]. by rewrite M3. }
  split; [|by destruct F3]. split; [by destruct Ht3|]. exists me3. cbn. rewrite (lf_myself _ _ _ F3).
  split; [done|]. split; [by rewrite M3, S3|]. intros _. split; [|by rewrite O3].
  eapply numslots_zero; [by apply tw_slots|done|]. rewrite (lf_owner _ _ _ F3). exact Hown.
Qed.

Lemma clusterSetMaster_ok n cs :
  cluster_wf cs -> (forall j, owner cs !! j <> Some (myself cs)) -> n <> myself cs -> is_Some (nodes cs !! n) ->
  ensures (clusterSetMaster n cs) (fun cs' => cluster_wf cs' /\ link_frame (myself cs) cs cs').
Proof.
  intros Hwf Hown Hne Hn. pose proof Hwf as [Ht (me & Hme & Hrole & Hslave)]. unfold clusterSetMaster.
  rewrite (proj2 (Z.eqb_neq _ _) Hne). cbn [negb cassert mbind option_bind]. rewrite Hme. cbn [mbind option_bind].
  assert (numslots me = 0) as E0 by (eapply numslots_zero; [by apply tw_slots|done|exact Hown]).
  rewrite E0. cbn [Z.eqb cassert mbind option_bind].
  pose proof (tw_links _ Ht) as Hl. apply (links_at_wf _ _ _ Hme) in Hl.
  eapply (ensures_bind _ _ (fun cs1 => link_frame (myself cs) cs cs1 /\ links_at (nodes cs1) (myself cs) None /\
    exists me1, nodes cs1 !! myself cs = Some me1 /\ clusterNodeIsMaster me1 = false /\ nodeIsSlave me1 = true)).
  2: { intros cs1 (F1 & L1 & me1 & Hm1 & M1 & S1). by eapply become_replica. }
  destruct (clusterNodeIsMaster me) eqn:Hm.
  - rewrite (tw_roles _ Ht _ _ Hme Hm) in Hl. eapply (ensures_bind _ _ (fun cs1 => link_frame (myself cs) cs cs1 /\
      links_at (nodes cs1) (myself cs) None /\ exists me1, nodes cs1 !! myself cs = Some me1 /\
      clusterNodeIsMaster me1 = false /\ nodeIsSlave me1 = true)).
    + eapply upd_ensures; [done|]. split; [|split].
      * eapply link_frame_upd; [done|]. by constructor.
      * cbn [nodes set_nodes]. by eapply links_at_upd.
      * cbn [nodes set_nodes]. rewrite lookup_insert_eq. eexists. split; [done|]. split.
        -- etrans; [exact (has_flag_add CLUSTER_NODE_MASTER CLUSTER_NODE_SLAVE _ eq_refl)|].
           exact (has_flag_del_self CLUSTER_NODE_MASTER (Z.lor CLUSTER_NODE_MASTER CLUSTER_NODE_MIGRATE_TO) _ eq_refl).
        -- exact (has_flag_add_self CLUSTER_NODE_SLAVE _ ltac:(done)).
    + intros cs1 (F1 & L1 & H1). cbn. by destruct F1.
  - destruct (Hslave eq_refl) as [_ Ho]. destruct (slaveof me) as [m|]; [|done].
    eapply ensures_bind; [apply clusterNodeRemoveSlave_ok; eauto|]. intros [r cs1] (md & md' & Hmd & E & Hf & L1). cbn.
    assert (link_frame (myself cs) cs cs1) as F1
      by (rewrite E; eapply link_frame_upd; [done|by apply node_slaves_link]).
    split; [done|]. split; [done|]. rewrite E. cbn. destruct (decide (m = myself cs)) as [->|Hne'].
    + rewrite lookup_insert_eq. simplify_eq. exists md'. destruct Hf as [_ _ _ -> ->]. rewrite Hrole, Hm. done.
    + rewrite lookup_insert_ne by done. exists me. by rewrite Hrole, Hm.
Qed.

(** ** Slots *)

Lemma slot_table cs cs' : table_wf cs -> slot_frame cs cs' -> slots_wf (nodes cs') (owner cs') -> table_wf cs'.
Proof.
  intros [Hs Hl Hr] F Hs'. destruct F as [Fn _ _ _]. constructor; [done|by eapply links_frame|by eapply roles_frame].
Qed.

(** A replica has no slots. *)
Lemma me_owns_nothing cs me :
  cluster_wf cs -> nodes cs !! myself cs = Some me -> clusterNodeIsMaster me = false ->
  forall j, owner cs !! j <> Some (myself cs).
Proof.
  intros [Ht (me' & Hme & _ & Hs)] Hm M. simplify_eq. destruct (Hs M) as [E0 _].
  by eapply numslots_zero; [apply tw_slots|..].
Qed.

Lemma slot_cluster cs cs' :
  cluster_wf cs -> slot_frame cs cs' -> slots_wf (nodes cs') (owner cs') ->
  (forall j, owner cs' !! j = Some (myself cs) -> owner cs !! j = Some (myself cs)) -> cluster_wf cs'.
Proof.
  intros Hwf F Hs' Hown. pose proof Hwf as [Ht (me & Hme & Hr & Hs)]. split; [by eapply slot_table|].
  destruct (nodes_rel_l _ _ _ _ _ (sf_nodes _ _ F) Hme) as (me' & Hme' & Fm). rewrite <- (sf_myself _ _ F) in Hme'.
  exists me'. split; [done|]. destruct Fm as [_ _ _ Eo Em Es]. rewrite Em, Es. split; [done|]. intros M.
  split; [|rewrite Eo; by apply Hs]. eapply numslots_zero; [done|exact Hme'|]. intros j Hj.
  rewrite (sf_myself _ _ F) in Hj. by eapply me_owns_nothing, Hown.
Qed.

Lemma updated_owner_other cs sender e claimed j n :
  updated_owner cs sender e claimed j = Some n -> n <> sender -> owner cs !! j = Some n.
Proof. unfold updated_owner. case_match; [congruence|done]. Qed.

(** The master of this node is known. *)
Lemma curmaster_known cs me :
  cluster_wf cs -> nodes cs !! myself cs = Some me ->
  exists c, (if clusterNodeIsMaster me then Some (myself cs) else slaveof me) = Some c /\ is_Some (nodes cs !! c).
Proof.
  intros [Ht (me' & Hme & _ & Hs)] Hm. rewrite Hm in Hme. injection Hme as <-.
  destruct (clusterNodeIsMaster me); [by eauto|].
  destruct (Hs eq_refl) as [_ Ho]. destruct (slaveof me) as [m|] eqn:E; [|done]. exists m. split; [done|].
  destruct (lw_master _ (tw_links _ Ht) _ _ _ Hm E) as (md & Hmd & _). eauto.
Qed.

Record slots_given (cs : clusterState) (sender e claimed : Z) (cs' : clusterState) : Prop := {
  sg_owner j : 0 <= j < CLUSTER_SLOTS -> owner cs' !! j = updated_owner cs sender e claimed j;
  sg_doubt j : 0 <= j < CLUSTER_SLOTS ->
    Z.testbit (owner_not_claiming_slot cs') j = updated_doubt cs sender e claimed j
}.

Lemma clusterUpdateSlotsConfigWith_ok env sender e claimed cs :
  cluster_wf cs -> is_Some (nodes cs !! sender) -> sender <> myself cs ->
  ensures (clusterUpdateSlotsConfigWith env sender e claimed cs) (fun cs' =>
    cluster_wf cs' /\ same_names cs cs' /\ slots_given cs sender e claimed cs').
Proof.
  intros Hwf Hs Hne. pose proof Hwf as [Ht (me & Hme & Hrole & Hslave)]. unfold clusterUpdateSlotsConfigWith.
  rewrite Hme. cbn [mbind option_bind]. rewrite (proj2 (Z.eqb_neq _ _) Hne).
  destruct (curmaster_known cs me Hwf Hme) as (c & Ec & Hc). rewrite Ec. cbn zeta.
  eapply ensures_bind; [apply (update_slots_ok sender e claimed); [apply Ht|done]|]. intros [u cs1] [[W F O] D _].
  assert (slots_given cs sender e claimed cs1) as G.
  { constructor; intros j Hj; [|by apply D]. rewrite (O j Hj). by rewrite (proj2 (Z.ltb_lt _ _)) by lia. }
  assert (forall j, owner cs1 !! j = Some (myself cs) -> owner cs !! j = Some (myself cs)) as Hback.
  { intros j Hj. destruct (sw_owner _ _ W _ _ Hj) as [Hr _]. rewrite (sg_owner _ _ _ _ _ G j Hr) in Hj.
    by eapply updated_owner_other. }
  assert (cluster_wf cs1) as Hwf1 by by eapply slot_cluster. pose proof (slot_names _ _ F) as N1.
  assert (myself cs1 = myself cs) as Em by apply F.
  assert (forall g, (forall j, owner cs1 !! j <> Some (myself cs1)) -> g <> myself cs1 -> is_Some (nodes cs1 !! g) ->
    ensures (clusterSetMaster g cs1) (fun cs' => cluster_wf cs' /\ same_names cs cs' /\ slots_given cs sender e claimed cs'))
    as Hset.
  { intros g Hown Hg Hgn. eapply ensures_mono; [by apply clusterSetMaster_ok|]. intros cs2 [Hwf2 L].
    split; [done|]. split; [etrans; [done|]; by eapply link_names|]. destruct G as [G1 G2].
    constructor; intros j Hj; [rewrite (lf_owner _ _ _ L)|rewrite (lf_doubt _ _ _ L)]; auto. }
  destruct (nodes_rel_l _ _ _ _ _ (sf_nodes _ _ F) Hme) as (me1 & Hme1 & Fm). rewrite <- Em in Hme1.
  destruct (cluster_no_redirection env); [done|].
  eapply (ensures_bind _ _ (fun lost => lost = true -> forall j, owner cs1 !! j <> Some (myself cs1))).
  { destruct (newmaster u); [|by cbn]. cbn [mbind option_bind].
    destruct (sn_nodes _ _ N1 c Hc) as [cd Hcd]. rewrite Hcd. cbn. intros H0%Z.eqb_eq.
    destruct (clusterNodeIsMaster me) eqn:Hm.
    - injection Ec as <-. rewrite <- Em in Hcd. simplify_eq. by eapply numslots_zero; [apply Hwf1|..].
    - eapply me_owns_nothing; [done|exact Hme1|]. by rewrite (nf_master _ _ Fm). }
  intros lost Hlost. destruct (lost && _) eqn:Hb.
  { apply andb_true_iff in Hb as [Hb _]. apply Hset; [by apply Hlost|by rewrite Em|by apply N1]. }
  rewrite Hme1. cbn. destruct (slaveof me1) as [m|] eqn:Ho; [|done].
  destruct (lw_master _ (tw_links _ (cw_table _ Hwf1)) _ _ _ Hme1 Ho) as (md & Hmd & _). rewrite Hmd. cbn.
  destruct (slaveof md) as [g|] eqn:Hg; [|done]. destruct (Z.eqb_spec g (myself cs1)) as [?|Hgne]; [done|].
  destruct (lw_master _ (tw_links _ (cw_table _ Hwf1)) _ _ _ Hmd Hg) as (gd & Hgd & _).
  apply Hset; [|done|by eauto]. eapply me_owns_nothing; [done|exact Hme1|].
  apply not_true_iff_false. intros M. pose proof (tw_roles _ (cw_table _ Hwf1) _ _ Hme1 M). congruence.
Qed.
End ClusterInvariant.
