(* ===== verification/ClusterHandlers.v ===== *)
(** Every handler of a node keeps the invariant of its state and returns: packets of all
    the types modelled, the failover of a replica and the evaluation of the state of the
    cluster. *)
From stdpp Require Import base numbers list gmap fin_maps.
From stdpp Require Import options.
From S2P Require Import Prelude Cluster ClusterSlots ClusterInvariant.

Module ClusterHandlers.
Import Cluster ClusterSlots ClusterInvariant.

(** ** Steps *)

Record good (cs cs' : clusterState) : Prop := {
  gd_wf : cluster_wf cs';
  gd_names : same_names cs cs'
}.

Definition returns {A} (o : option A) : Prop := ensures o (fun _ => True).

Lemma good_refl cs : cluster_wf cs -> good cs cs.
Proof. by constructor. Qed.

Lemma good_trans a b c : good a b -> good b c -> good a c.
Proof. intros [] []. constructor; [done|by etrans]. Qed.

(** Steps in sequence: each starts from a state that is reached so. *)
Lemma good_bind cs (o : option clusterState) (f : clusterState -> option clusterState) :
  ensures o (good cs) -> (forall c, good cs c -> ensures (f c) (good c)) -> ensures (o ≫= f) (good cs).
Proof.
  intros Ho Hf. eapply ensures_bind; [exact Ho|]. intros c Hc. eapply ensures_mono; [by apply Hf|].
  intros d Hd. by eapply good_trans.
Qed.

Lemma good_from a b (o : option clusterState) : good a b -> ensures o (good b) -> ensures o (good a).
Proof. intros Hab Ho. eapply ensures_mono; [exact Ho|]. intros c. by apply good_trans. Qed.

Lemma good_upd n f cs :
  cluster_wf cs -> is_Some (nodes cs !! n) -> (forall nd, node_quiet nd (f nd)) -> ensures (upd n f cs) (good cs).
Proof.
  intros Hwf Hn Hf. eapply ensures_mono; [by apply quiet_upd|]. intros cs' Q.
  constructor; [by eapply quiet_wf|by apply quiet_names].
Qed.

(** Changes of the fields that are not the nodes and the slots. *)
Lemma good_fields cs cs' :
  cluster_wf cs -> nodes cs' = nodes cs -> owner cs' = owner cs -> myself cs' = myself cs -> good cs cs'.
Proof.
  intros Hwf En Eo Em. assert (quiet_frame cs cs') as Q by (constructor; [by rewrite En|done|done]).
  constructor; [by eapply quiet_wf|by apply quiet_names].
Qed.

Lemma me_known cs : cluster_wf cs -> is_Some (nodes cs !! myself cs).
Proof. intros [_ (me & Hme & _)]. eauto. Qed.

Lemma owner_known cs j n : cluster_wf cs -> owner cs !! j = Some n -> is_Some (nodes cs !! n).
Proof. intros [[Hs _ _] _] Hj. destruct (sw_owner _ _ Hs _ _ Hj) as (_ & nd & Hn & _). eauto. Qed.

Lemma master_known cs x xd m : cluster_wf cs -> nodes cs !! x = Some xd -> slaveof xd = Some m -> is_Some (nodes cs !! m).
Proof. intros [[_ Hl _] _] Hx Hm. destruct (lw_master _ Hl _ _ _ Hx Hm) as (md & Hmd & _). eauto. Qed.

Lemma slave_known cs x xd s : cluster_wf cs -> nodes cs !! x = Some xd -> s ∈ slaves xd -> is_Some (nodes cs !! s).
Proof. intros [[_ Hl _] _] Hx Hs. destruct (lw_slaves _ Hl _ _ _ Hx Hs) as (sd & Hsd & _). eauto. Qed.

#[export] Hint Resolve good_refl me_known owner_known master_known slave_known gd_wf : quiet.

(** ** Loops that look for a slot *)

Lemma slot_uncovered_ok k j cs : cluster_wf cs -> returns (slot_uncovered k j cs).
Proof.
  intros Hwf. revert j. induction k as [|k IH]; intros j; cbn; [done|].
  destruct (owner cs !! j) as [n|] eqn:Hj; [|done]. destruct (owner_known _ _ _ Hwf Hj) as [nd ->]. cbn.
  by case_match.
Qed.

Lemma claims_newer_slot_ok k j c e cs : cluster_wf cs -> returns (claims_newer_slot k j c e cs).
Proof.
  intros Hwf. revert j. induction k as [|k IH]; intros j; cbn; [done|]. unfold isSlotUnclaimed.
  destruct (negb _); [apply IH|]. destruct (owner cs !! j) as [n|] eqn:Hj; [|apply IH].
  destruct (owner_known _ _ _ Hwf Hj) as [nd Hn]. cbn. destruct (bitmapTestBit _ _); [apply IH|]. rewrite Hn. cbn.
  destruct (_ <=? _); [apply IH|done].
Qed.

Lemma newer_owner_ok k j s e c cs :
  cluster_wf cs -> ensures (newer_owner k j s e c cs) (fun o => forall n, o = Some n -> is_Some (nodes cs !! n)).
Proof.
  intros Hwf. revert j. induction k as [|k IH]; intros j; cbn; [done|]. unfold isSlotUnclaimed.
  destruct (owner cs !! j) as [n|] eqn:Hj; [|rewrite orb_true_r; apply IH].
  destruct (_ || _); [apply IH|]. destruct (owner_known _ _ _ Hwf Hj) as [nd Hn]. cbn. rewrite Hn. cbn.
  destruct (_ >? _); [|apply IH]. cbn. intros m [= <-]. eauto.
Qed.

(** ** Messages *)

Lemma clusterBuildMessageHdr_ok env type cs : cluster_wf cs -> returns (clusterBuildMessageHdr env type cs).
Proof.
  intros Hwf. unfold clusterBuildMessageHdr. destruct (me_known _ Hwf) as [me Hme]. rewrite Hme. cbn.
  destruct (slaveof me) as [m|] eqn:Ho; [|done]. destruct (nodeIsSlave me); [|done].
  destruct (master_known _ _ _ _ Hwf Hme Ho) as [md ->]. done.
Qed.

Lemma clusterSendUpdate_ok env dest n cs :
  cluster_wf cs -> is_Some (nodes cs !! dest) -> is_Some (nodes cs !! n) -> returns (clusterSendUpdate env dest n cs).
Proof.
  intros Hwf [dd Hd] [nd Hn]. unfold clusterSendUpdate. rewrite Hn. cbn.
  eapply ensures_bind; [by apply clusterBuildMessageHdr_ok|]. intros msg _. unfold clusterSendMessage. by rewrite Hd.
Qed.

Lemma clusterSendFail_ok env n cs : cluster_wf cs -> returns (clusterSendFail env n cs).
Proof. intros Hwf. unfold clusterSendFail. eapply ensures_bind; [by apply clusterBuildMessageHdr_ok|]. done. Qed.

(** The random keys are keys of the table. *)
Definition random_known (env : serverEnv) (cs : clusterState) : Prop :=
  forall i, is_Some (nodes cs !! random_node env i).

Lemma gossip_random_ok env k i r fn w cs acc : random_known env cs -> returns (gossip_random env k i r fn w cs acc).
Proof.
  intros Hr. revert i fn acc. induction k as [|k IH]; intros i fn acc; cbn; [done|].
  destruct (_ && _); [|done]. destruct (Hr i) as [nd ->]. cbn. repeat (destruct (_ || _); [apply IH|]).
  destruct (existsb _ _); apply IH.
Qed.

(** The random entries are about different nodes that are not suspected, the others about
    nodes that are: a packet has at most one entry per node. *)
Definition fresh_entries (cs : clusterState) (acc : list gossip) : Prop :=
  NoDup (g_node <$> acc) /\ forall x, x ∈ g_node <$> acc -> exists nd, nodes cs !! x = Some nd /\ nodeTimedOut nd = false.

Lemma gossip_random_fresh env k i r fn w cs acc g :
  fresh_entries cs acc -> gossip_random env k i r fn w cs acc = Some g -> fresh_entries cs g.
Proof.
  revert i fn acc. induction k as [|k IH]; intros i fn acc F H; cbn [gossip_random] in H; [by injection H as <-|].
  destruct (_ && _); [|by injection H as <-]. destruct (nodes cs !! random_node env i) as [nd|] eqn:E; [|done].
  cbn [mbind option_bind] in H. destruct (_ || _ || nodeTimedOut nd) eqn:Et; [by eapply IH|]. apply orb_false_iff in Et as [_ Et].
  destruct (_ || _); [by eapply IH|]. destruct (existsb _ acc) eqn:Ex; [by eapply IH|]. eapply IH; [|exact H].
  destruct F as [Hnd Hin]. unfold fresh_entries. rewrite fmap_app. cbn [fmap list_fmap clusterSetGossipEntry g_node]. split.
  - apply NoDup_app. split; [done|split; [|apply NoDup_singleton]]. intros x Hx ->%list_elem_of_singleton.
    apply not_true_iff_false in Ex. apply Ex, existsb_exists. apply list_elem_of_fmap in Hx as (y & E' & Hy).
    exists y. split; [by apply list_elem_of_In|by rewrite E', Z.eqb_refl].
  - intros x [Hx| ->%list_elem_of_singleton]%elem_of_app; [by apply Hin|eauto].
Qed.

Lemma gossip_pfail_names cs : NoDup (g_node <$> gossip_pfail cs) /\
  forall x, x ∈ g_node <$> gossip_pfail cs -> exists nd, nodes cs !! x = Some nd /\ nodeTimedOut nd = true.
Proof.
  unfold gossip_pfail. rewrite fmap_take, <- list_fmap_compose.
  match goal with |- context [filter ?P (node_list cs)] => set (l := filter P (node_list cs)) end.
  assert (g_node ∘ (fun '(n, nd) => clusterSetGossipEntry n nd) <$> l = l.*1) as -> by (apply list_fmap_ext; by intros ? []).
  split.
  - eapply sublist_NoDup; [|apply sublist_take]. eapply sublist_NoDup; [apply (NoDup_fst_map_to_list (nodes cs))|].
    apply fmap_sublist, sublist_filter.
  - intros x Hx. assert (x ∈ l.*1) as Hx' by (eapply elem_of_sublist; [exact Hx|apply sublist_take]). apply list_elem_of_fmap in Hx' as ([y nd] & -> & Hy).
    subst l. apply list_elem_of_filter in Hy as [Hp Hy%elem_of_map_to_list]. exists nd. split; [done|].
    apply andb_prop_elim in Hp as [_ Hp]. by apply Is_true_true.
Qed.

Lemma gossip_count env k i r fn w cs g :
  gossip_random env k i r fn w cs [] = Some g -> (length (g ++ gossip_pfail cs) <= size (nodes cs))%nat.
Proof.
  intros [Hd Hin]%gossip_random_fresh; [|split; [constructor|by intros x ?%not_elem_of_nil]].
  destruct (gossip_pfail_names cs) as [Hd' Hin']. rewrite <- (length_fmap g_node), fmap_app.
  rewrite <- length_map_to_list, <- (length_fmap fst). apply submseteq_length, NoDup_submseteq.
  - apply NoDup_app. split; [done|split; [|done]]. intros x (nd & E & H)%Hin (nd' & E' & H')%Hin'. congruence.
  - intros x [(nd & E & _)%Hin|(nd & E & _)%Hin']%elem_of_app; apply list_elem_of_fmap; exists (x, nd);
      (split; [done|by apply elem_of_map_to_list]).
Qed.

(** A packet can count its entries. *)
Definition few_nodes (cs : clusterState) : Prop := Z.of_nat (size (nodes cs)) < USHRT_MAX.

Lemma clusterSendPing_ok env r type cs :
  cluster_wf cs -> random_known env cs -> few_nodes cs ->
  ensures (clusterSendPing env false r type cs) (fun '(cs', _) => good cs cs').
Proof.
  intros Hwf Hr Hn. unfold clusterSendPing. eapply ensures_bind; [by apply clusterBuildMessageHdr_ok|]. intros hdr _.
  cbn [andb mbind option_bind].
  match goal with |- ensures (?o ≫= _) _ => pose proof (gossip_random_ok env _ _ _ _ _ _ _ Hr : returns o) as Hg; destruct o as [g|] eqn:Eg; [|done] end.
  apply gossip_count in Eg. cbn [mbind option_bind]. unfold few_nodes in Hn. rewrite (proj2 (Z.ltb_lt _ _)) by lia.
  by apply good_refl.
Qed.

(** ** Failure reports *)

(** Solves the side conditions of [good_upd]. *)
Ltac quiet_fields := intros ?; first [by apply quiet_fields | apply quiet_add; reflexivity | apply quiet_del; reflexivity
  | (etransitivity; [|apply quiet_add; reflexivity]); by apply quiet_fields
  | (etransitivity; [|apply quiet_del; reflexivity]); by apply quiet_fields].

Lemma clusterNodeCleanupFailureReports_ok env n cs :
  cluster_wf cs -> is_Some (nodes cs !! n) -> ensures (clusterNodeCleanupFailureReports env n cs) (good cs).
Proof. intros Hwf Hn. apply good_upd; [done..|quiet_fields]. Qed.

Lemma clusterNodeAddFailureReport_ok env n s cs :
  cluster_wf cs -> is_Some (nodes cs !! n) ->
  ensures (clusterNodeAddFailureReport env n s cs) (fun '(_, cs') => good cs cs').
Proof.
  intros Hwf Hn. pose proof Hn as [nd E]. unfold clusterNodeAddFailureReport. rewrite E. cbn.
  destruct (list_find _ _) as [[i x]|]; (eapply ensures_bind; [apply good_upd; [done..|quiet_fields]|done]).
Qed.

Lemma clusterNodeDelFailureReport_ok env n s cs :
  cluster_wf cs -> is_Some (nodes cs !! n) ->
  ensures (clusterNodeDelFailureReport env n s cs) (fun '(_, cs') => good cs cs').
Proof.
  intros Hwf Hn. pose proof Hn as [nd E]. unfold clusterNodeDelFailureReport. rewrite E. cbn.
  destruct (list_find _ _) as [[i x]|]; [|by apply good_refl].
  eapply ensures_bind; [apply good_upd; [done..|quiet_fields]|]. intros cs1 [W1 N1].
  eapply ensures_bind; [apply clusterNodeCleanupFailureReports_ok; [done|by apply N1]|]. intros cs2 [W2 N2].
  constructor; [done|by etrans].
Qed.

Lemma clusterNodeFailureReportsCount_ok env n cs :
  cluster_wf cs -> is_Some (nodes cs !! n) ->
  ensures (clusterNodeFailureReportsCount env n cs) (fun '(_, cs') => good cs cs').
Proof.
  intros Hwf Hn. unfold clusterNodeFailureReportsCount.
  eapply ensures_bind; [by apply clusterNodeCleanupFailureReports_ok|]. intros cs1 G.
  destruct (sn_nodes _ _ (gd_names _ _ G) _ Hn) as [nd ->]. done.
Qed.

Lemma markNodeAsFailingIfNeeded_ok env n cs :
  cluster_wf cs -> is_Some (nodes cs !! n) ->
  ensures (markNodeAsFailingIfNeeded env n cs) (fun '(cs', _) => good cs cs').
Proof.
  intros Hwf Hn. pose proof Hn as [nd E]. unfold markNodeAsFailingIfNeeded. rewrite E. cbn.
  destruct (negb _); [by apply good_refl|]. destruct (nodeFailed nd); [by apply good_refl|].
  eapply ensures_bind; [by apply clusterNodeFailureReportsCount_ok|]. intros [f cs1] G1. pose proof G1 as [W1 N1].
  destruct (me_known _ W1) as [me ->]. cbn. destruct (_ <? _); [done|].
  eapply (ensures_bind _ _ (good cs1)).
  { apply good_upd; [done|by apply N1|]. intros x. transitivity (del_flag CLUSTER_NODE_PFAIL x); [by apply quiet_del|].
    etransitivity; [apply (quiet_add CLUSTER_NODE_FAIL); done|]. by apply quiet_fields. }
  intros cs2 G2. eapply ensures_bind; [by apply clusterSendFail_ok, G2|]. intros out _. by eapply good_trans.
Qed.

Lemma clearNodeFailureIfNeeded_ok env n cs nd :
  cluster_wf cs -> nodes cs !! n = Some nd -> nodeFailed nd = true ->
  ensures (clearNodeFailureIfNeeded env n cs) (good cs).
Proof.
  intros Hwf Hn Hf. unfold clearNodeFailureIfNeeded. rewrite Hn. cbn. rewrite Hf. cbn.
  apply good_bind.
  - case_match; [apply good_upd; [done|eauto|quiet_fields]|by apply good_refl].
  - intros cs1 [W1 N1]. destruct (sn_nodes _ _ N1 n) as [nd1 E1]; [by eauto|]. rewrite E1. cbn.
    case_match; [apply good_upd; [done|eauto|quiet_fields]|by apply good_refl].
Qed.

(** ** Gossip *)

Lemma fresh_node_wf cs n nd :
  cluster_wf cs -> nodes cs !! n = None -> slots nd = 0 -> numslots nd = 0 -> slaves nd = [] -> slaveof nd = None ->
  cluster_wf (set_nodes cs (<[n := nd]> (nodes cs))).
Proof.
  intros [[[Ho Hs Hc] [Hm Hsl Hd] Hr] (me & Hme & Hme')] Hn E1 E2 E3 E4.
  assert (forall x, is_Some (nodes cs !! x) -> n <> x) as Hne by (intros x [? Hx] ->; congruence).
  constructor; [constructor; [constructor|constructor|]|]; cbn [nodes set_nodes owner].
  - intros j m Hj. destruct (Ho _ _ Hj) as (Hr' & md & Hmd & Hb). split; [done|]. exists md.
    by rewrite lookup_insert_ne by eauto.
  - intros x xd j [[<- <-]|[? Hx]]%lookup_insert_Some; [by rewrite E1, Z.bits_0|by eapply Hs].
  - intros x xd [[<- <-]|[? Hx]]%lookup_insert_Some; [|by eapply Hc]. rewrite E1, E2. symmetry. apply count_zero.
    intros j _. apply Z.bits_0.
  - intros x xd m [[<- <-]|[? Hx]]%lookup_insert_Some; [by rewrite E4|]. intros Hxm.
    destruct (Hm _ _ _ Hx Hxm) as (md & Hmd & Hin). exists md. by rewrite lookup_insert_ne by eauto.
  - intros x xd s [[<- <-]|[? Hx]]%lookup_insert_Some; [rewrite E3; by intros ?%not_elem_of_nil|]. intros Hin.
    destruct (Hsl _ _ _ Hx Hin) as (sd & Hsd & E). exists sd. by rewrite lookup_insert_ne by eauto.
  - intros x xd [[<- <-]|[? Hx]]%lookup_insert_Some; [rewrite E3; constructor|by eapply Hd].
  - intros x xd [[<- <-]|[? Hx]]%lookup_insert_Some; [done|by eapply Hr].
  - exists me. cbn. by rewrite lookup_insert_ne by eauto.
Qed.

Lemma gossip_known_ok env s g cs :
  cluster_wf cs -> is_Some (nodes cs !! s) -> is_Some (nodes cs !! g_node g) ->
  ensures (gossip_known env s g cs) (fun '(cs', _) => good cs cs').
Proof.
  intros Hwf [sd Hs] Hg. unfold gossip_known. rewrite Hs. cbn [mbind option_bind].
  eapply (ensures_bind _ _ (fun '(cs1, _) => good cs cs1)).
  { destruct (clusterNodeIsMaster sd); [|by apply good_refl]. destruct (negb _).
    - eapply ensures_bind; [by apply clusterNodeAddFailureReport_ok|]. intros [r c] G.
      eapply ensures_mono; [by apply markNodeAsFailingIfNeeded_ok; [apply G|apply (sn_nodes _ _ (gd_names _ _ G))]|].
      intros [c' out] G'. by eapply good_trans.
    - eapply ensures_bind; [by apply clusterNodeDelFailureReport_ok|]. by intros [r c] G. }
  intros [cs1 out] G1. pose proof (sn_nodes _ _ (gd_names _ _ G1) _ Hg) as [nd1 E1]. rewrite E1.
  cbn [mbind option_bind]. eapply (ensures_bind _ _ (good cs)).
  { eapply (good_from _ cs1); [done|]. destruct (_ && _); [|by apply good_refl, G1].
    eapply ensures_bind; [apply clusterNodeFailureReportsCount_ok; [apply G1|by eauto]|]. intros [r c] G.
    destruct (_ && _); [|done]. eapply (good_from _ c); [done|]. apply good_upd; [apply G| |quiet_fields].
    apply (sn_nodes _ _ (gd_names _ _ G)). eauto. }
  intros cs2 G2. pose proof (sn_nodes _ _ (gd_names _ _ G2) _ Hg) as [nd2 E2]. rewrite E2. cbn [mbind option_bind].
  eapply (ensures_bind _ _ (good cs2)); [|intros cs3 G3; by eapply good_trans].
  destruct (_ && _); [|by apply good_refl, G2]. apply good_upd; [apply G2|by eauto|].
  intros x. transitivity (set_addr x (g_addr g) None); [by apply quiet_fields|by apply quiet_del].
Qed.

Lemma gossip_entry_ok env s g cs :
  cluster_wf cs -> is_Some (nodes cs !! s) -> ensures (gossip_entry env s g cs) (fun '(cs', _) => good cs cs').
Proof.
  intros Hwf Hs. unfold gossip_entry. destruct (nodes cs !! g_node g) as [nd|] eqn:Hg.
  { destruct (_ =? _); [by apply good_refl|]. apply gossip_known_ok; [done..|]. eauto. }
  destruct (negb _); [by apply good_refl|]. destruct (clusterBlacklistExists env (g_node g) cs) as [b c] eqn:Eb.
  unfold clusterBlacklistExists in Eb. injection Eb as _ <-.
  assert (good cs (clusterBlacklistCleanup env cs)) as G by by apply good_fields.
  destruct b; [done|]. unfold clusterAddNode. cbn. rewrite Hg. cbn.
  constructor; [by apply (fresh_node_wf (clusterBlacklistCleanup env cs)); [apply G|..]|]. constructor; [done|].
  intros x Hx. cbn. destruct (decide (g_node g = x)) as [<-|Hne]; [by rewrite lookup_insert_eq|by rewrite lookup_insert_ne].
Qed.

Lemma clusterProcessGossipSection_ok env s l cs :
  cluster_wf cs -> is_Some (nodes cs !! s) ->
  ensures (clusterProcessGossipSection env s l cs) (fun '(cs', _) => good cs cs').
Proof.
  revert cs. induction l as [|g l IH]; intros cs Hwf Hs; cbn [clusterProcessGossipSection]; [by apply good_refl|].
  eapply ensures_bind; [by apply gossip_entry_ok|]. intros [c out] G.
  eapply ensures_bind; [apply IH; [apply G|by apply (sn_nodes _ _ (gd_names _ _ G))]|]. intros [c' out'] G'.
  by eapply good_trans.
Qed.

(** ** Roles *)

Definition me_role (cs : clusterState) : Prop :=
  exists me, nodes cs !! myself cs = Some me /\ nodeIsSlave me = negb (clusterNodeIsMaster me).

Lemma become_master n cs :
  table_wf cs -> is_Some (nodes cs !! n) -> me_role cs -> (n <> myself cs -> me_wf cs) ->
  ensures (clusterSetNodeAsMaster n cs) (fun cs' => cluster_wf cs' /\ link_frame n cs cs' /\
    exists nd, nodes cs' !! n = Some nd /\ clusterNodeIsMaster nd = true).
Proof.
  intros Ht [nd Hn] (me & Hme & Hrole) Hmewf. eapply ensures_mono; [by eapply clusterSetNodeAsMaster_ok|].
  intros cs' (Ht' & F & nd' & Hn' & M' & S'). split; [|by eauto]. split; [done|].
  destruct (decide (n = myself cs)) as [->|Hne]; [|by eapply link_me; auto].
  exists nd'. rewrite (lf_myself _ _ _ F), M', S'. split; [done|]. simplify_eq. rewrite Hrole.
  by destruct (clusterNodeIsMaster _).
Qed.

Lemma clusterSetNodeAsMaster_good n cs :
  cluster_wf cs -> is_Some (nodes cs !! n) -> ensures (clusterSetNodeAsMaster n cs) (good cs).
Proof.
  intros [Ht Hme] Hn. pose proof Hme as (me & Em & Er & _).
  eapply ensures_mono; [apply become_master; try done; by exists me|]. intros cs' (W & F & _).
  constructor; [done|by eapply link_names].
Qed.

(** Slots moved to this node, which is a master. *)
Lemma slot_cluster_master cs cs' me :
  cluster_wf cs -> slot_frame cs cs' -> slots_wf (nodes cs') (owner cs') ->
  nodes cs !! myself cs = Some me -> clusterNodeIsMaster me = true -> cluster_wf cs'.
Proof.
  intros [Ht (me0 & Hme0 & Hr & _)] F W Hme M. rewrite Hme in Hme0. injection Hme0 as <-.
  split; [by eapply slot_table|].
  destruct (nodes_rel_l _ _ _ _ _ (sf_nodes _ _ F) Hme) as (me' & Hme' & Fm). rewrite <- (sf_myself _ _ F) in Hme'.
  exists me'. split; [done|]. rewrite (nf_slave _ _ Fm), (nf_master _ _ Fm), M, Hr, M. done.
Qed.

Lemma assign_slaves_ok l s cs :
  cluster_wf cs -> (forall x, x ∈ l -> is_Some (nodes cs !! x)) -> ensures (assign_slaves l s cs) (good cs).
Proof.
  revert cs. induction l as [|x l IH]; intros cs Hwf Hl; cbn; [by apply good_refl|].
  destruct (Hl x ltac:(by left)) as [nd E]. rewrite E. cbn. apply good_bind.
  - case_match; [by apply good_refl|apply good_upd; [done|eauto|quiet_fields]].
  - intros c G. apply IH; [apply G|]. intros y Hy. apply (sn_nodes _ _ (gd_names _ _ G)), Hl. by right.
Qed.

Lemma updateShardId_ok n s cs :
  cluster_wf cs -> is_Some (nodes cs !! n) -> ensures (updateShardId n s cs) (good cs).
Proof.
  intros Hwf Hn. pose proof Hn as [nd E]. unfold updateShardId, assignShardIdToNode. rewrite E. cbn [mbind option_bind].
  destruct (_ =? _); [by apply good_refl|]. destruct (slaveof nd) as [m|] eqn:Ho.
  - destruct (master_known _ _ _ _ Hwf E Ho) as [md ->]. cbn [mbind option_bind].
    destruct (_ =? _); [apply good_upd; [done..|quiet_fields]|by apply good_refl].
  - apply good_bind; [apply good_upd; [done..|quiet_fields]|]. intros c G. apply assign_slaves_ok; [apply G|].
    intros x Hx. apply (sn_nodes _ _ (gd_names _ _ G)). by eapply slave_known.
Qed.

Lemma change_master_ok s m cs nd :
  cluster_wf cs -> nodes cs !! s = Some nd -> clusterNodeIsMaster nd = false -> s <> myself cs ->
  is_Some (nodes cs !! m) -> ensures (change_master s m cs) (good cs).
Proof.
  intros [Ht Hme] Hs Hm Hne Hmn. unfold change_master. rewrite Hs. cbn [mbind option_bind].
  pose proof (tw_links _ Ht) as Hl. apply (links_at_wf _ _ _ Hs) in Hl.
  eapply (ensures_bind _ _ (fun c => link_frame s cs c /\ links_at (nodes c) s None /\
    exists nd', nodes c !! s = Some nd' /\ clusterNodeIsMaster nd' = false)).
  { destruct (slaveof nd) as [o|]; [|cbn; split; [done|]; by eauto].
    eapply ensures_bind; [apply clusterNodeRemoveSlave_ok; eauto|]. intros [r c] (md & md' & Hmd & E & Q & L). cbn.
    assert (link_frame s cs c) as F by (rewrite E; eapply link_frame_upd; [done|by apply node_slaves_link]).
    split; [done|]. split; [done|]. rewrite E. cbn. destruct (decide (o = s)) as [->|Hos].
    - rewrite lookup_insert_eq. simplify_eq. exists md'. by rewrite (ns_master _ _ Q).
    - rewrite lookup_insert_ne by done. eauto. }
  intros c1 (F1 & L1 & nd1 & Hn1 & M1).
  eapply ensures_bind; [apply clusterNodeAddSlave_ok; [exact L1|eauto|by eapply nodes_rel_is_Some; [apply F1|]]|].
  intros [r c2] (md & md' & Hmd & E & Q & L2).
  assert (link_frame s cs c2) as F2
    by (etrans; [done|]; rewrite E; eapply link_frame_upd; [done|by apply node_slaves_link]).
  assert (exists nd2, nodes c2 !! s = Some nd2 /\ clusterNodeIsMaster nd2 = false) as (nd2 & Hn2 & M2).
  { rewrite E. cbn. destruct (decide (m = s)) as [->|Hms].
    - rewrite lookup_insert_eq. simplify_eq. exists md'. by rewrite (ns_master _ _ Q).
    - rewrite lookup_insert_ne by done. eauto. }
  eapply (ensures_bind _ _ (good cs)).
  { eapply upd_ensures; [done|]. set (nd3 := set_slaveof nd2 (Some m)).
    assert (link_frame s cs (set_nodes c2 (<[s := nd3]> (nodes c2)))) as F3
      by (etrans; [done|]; eapply link_frame_upd; [done|by constructor]).
    constructor; [|by eapply link_names]. split; [|by eapply link_me].
    eapply table_link; [done|exact F3|cbn; by rewrite lookup_insert_eq| |].
    - cbn [nodes set_nodes slaveof nd3 set_slaveof]. by eapply links_at_upd.
    - change (clusterNodeIsMaster nd3) with (clusterNodeIsMaster nd2). by rewrite M2. }
  intros c3 G3. destruct (sn_nodes _ _ (gd_names _ _ G3) _ Hmn) as [md3 ->]. cbn [mbind option_bind].
  eapply (good_from _ c3); [done|]. apply updateShardId_ok; [apply G3|]. apply (sn_nodes _ _ (gd_names _ _ G3)). eauto.
Qed.

(** The slots of a master that became a replica. *)
Lemma lose_slots_ok s master e cs nd :
  cluster_wf cs -> nodes cs !! s = Some nd -> clusterNodeIsMaster nd = true -> s <> myself cs ->
  (forall m, master = Some m -> is_Some (nodes cs !! m)) ->
  ensures (same_shard ← match master with
               | Some m => mnd ← nodes cs !! m; Some (shard_id mnd =? shard_id nd)
               | None => Some false
               end;
    match master, same_shard with
       | Some m, true =>
         if configEpoch nd >? e then Some cs
         else
           '(_, cs) ← clusterMoveNodeSlots s m cs;
           cs ← clusterSetNodeAsMaster m cs;
           upd m (fun nd => set_configEpoch nd e) cs
       | _, _ => '(_, cs) ← clusterDelNodeSlots s cs; Some cs
       end)
    (fun cs' => good cs cs' /\ exists nd', nodes cs' !! s = Some nd' /\ slaveof nd' = None).
Proof.
  intros Hwf Hs M Hne Hm. pose proof Hwf as [Ht Hme]. pose proof (tw_roles _ Ht _ _ Hs M) as Ho.
  eapply (ensures_bind _ _ (fun _ => True)).
  { destruct master as [m|]; [|done]. by destruct (Hm m eq_refl) as [md ->]. }
  intros same _. assert (ensures ('(_, cs) ← clusterDelNodeSlots s cs; Some cs)
    (fun cs' => good cs cs' /\ exists nd', nodes cs' !! s = Some nd' /\ slaveof nd' = None)) as Hdel.
  { eapply ensures_bind; [apply clusterDelNodeSlots_ok; [apply Ht|eauto]|]. intros [r c] (W & F & Eo). cbn.
    split; [constructor; [|by apply slot_names]|].
    - eapply slot_cluster; [done|done|done|]. intros j Hj. rewrite Eo in Hj. by apply map_lookup_filter_Some in Hj as [? _].
    - destruct (nodes_rel_l _ _ _ _ _ (sf_nodes _ _ F) Hs) as (b & Hb & Fb). exists b. by rewrite (nf_slaveof _ _ Fb). }
  destruct master as [m|]; [|done]. destruct same; [|done]. clear Hdel. specialize (Hm m eq_refl).
  destruct (_ >? _); [cbn; split; [by apply good_refl|eauto]|].
  eapply ensures_bind; [apply clusterMoveNodeSlots_ok; [apply Ht|eauto|done]|]. intros [r c1] (W1 & F1 & Eo).
  pose proof (slot_names _ _ F1) as N1. destruct Hme as (me & Eme & Hrole & Hsl).
  destruct (nodes_rel_l _ _ _ _ _ (sf_nodes _ _ F1) Eme) as (me1 & Eme1 & Fme). rewrite <- (sf_myself _ _ F1) in Eme1.
  destruct (nodes_rel_l _ _ _ _ _ (sf_nodes _ _ F1) Hs) as (nd1 & Hs1 & Fs).
  eapply (ensures_bind _ _ (fun c => cluster_wf c /\ link_frame m c1 c /\ exists nd', nodes c !! s = Some nd' /\ slaveof nd' = None)).
  { eapply ensures_mono; [apply (become_master m c1); [by eapply slot_table|by apply N1| |]|].
    - exists me1. split; [done|]. by rewrite (nf_slave _ _ Fme), (nf_master _ _ Fme).
    - rewrite (sf_myself _ _ F1). intros Hmm. eapply slot_cluster; [done..|]. intros j Hj.
      rewrite Eo, lookup_fmap in Hj. destruct (owner cs !! j) as [o|] eqn:Hoj; [|done]. cbn in Hj.
      case_decide; congruence.
    - intros c (Wc & Fc & ndm & Hndm & Mm). split; [done|]. split; [done|].
      destruct (nodes_rel_l _ _ _ _ _ (lf_nodes _ _ _ Fc) Hs1) as (nd2 & Hs2 & L). exists nd2. split; [done|].
      destruct (decide (s = m)) as [->|Hsm]; [simplify_eq; by eapply (tw_roles _ (cw_table _ Wc))|].
      rewrite (nl_slaveof _ _ _ _ L) by done. by rewrite (nf_slaveof _ _ Fs). }
  intros c2 (W2 & F2 & nd2 & Hs2 & Ho2). pose proof (link_names _ _ _ F2) as N2.
  assert (is_Some (nodes c2 !! m)) as [md2 Hm2] by by apply N2, N1.
  eapply ensures_mono; [apply (quiet_upd m); [by eauto|intros x; by apply quiet_fields]|]. intros c3 Q.
  split; [constructor; [by eapply quiet_wf|]|].
  - etrans; [exact N1|]. etrans; [exact N2|]. by apply quiet_names.
  - destruct (nodes_rel_l _ _ _ _ _ (qf_nodes _ _ Q) Hs2) as (nd3 & Hs3 & [_ Qs]). exists nd3. by rewrite (ns_slaveof _ _ Qs).
Qed.

Lemma master_to_slave_ok s master e cs nd :
  cluster_wf cs -> nodes cs !! s = Some nd -> clusterNodeIsMaster nd = true -> s <> myself cs ->
  (forall m, master = Some m -> is_Some (nodes cs !! m)) ->
  ensures (master_to_slave s master e cs) (fun cs' => good cs cs' /\
    exists nd', nodes cs' !! s = Some nd' /\ clusterNodeIsMaster nd' = false).
Proof.
  intros Hwf Hs M Hne Hm. pose proof (lose_slots_ok s master e cs nd Hwf Hs M Hne Hm) as Hl.
  unfold master_to_slave. rewrite Hs. cbn [mbind option_bind].
  match goal with |- ensures (?o ≫= ?f) _ => destruct o as [same|] eqn:Esame; [|done] end.
  cbn [mbind option_bind] in Hl |- *.
  eapply ensures_bind; [exact Hl|]. intros c1 [G1 (nd1 & Hs1 & Ho1)]. eapply upd_ensures; [done|].
  set (nd2 := add_flag _ _). pose proof G1 as [[Ht1 Hme1] N1].
  assert (link_frame s c1 (set_nodes c1 (<[s := nd2]> (nodes c1)))) as F
    by (eapply link_frame_upd; [done|by constructor]).
  assert (clusterNodeIsMaster nd2 = false) as M2.
  { etrans; [exact (has_flag_add CLUSTER_NODE_MASTER CLUSTER_NODE_SLAVE _ eq_refl)|].
    exact (has_flag_del_self CLUSTER_NODE_MASTER (Z.lor CLUSTER_NODE_MASTER CLUSTER_NODE_MIGRATE_TO) _ eq_refl). }
  split; [constructor|].
  - split; [|by eapply link_me; [|rewrite (sn_myself _ _ N1)|]].
    eapply table_link; [done|exact F|cbn; by rewrite lookup_insert_eq| |by rewrite M2].
    cbn [nodes set_nodes]. eapply links_at_upd; [|done|done|done]. pose proof (tw_links _ Ht1) as L.
    by apply (links_at_wf _ _ _ Hs1) in L.
  - etrans; [done|by eapply link_names].
  - exists nd2. cbn. by rewrite lookup_insert_eq.
Qed.

Lemma process_role_ok s msg e cs :
  cluster_wf cs -> is_Some (nodes cs !! s) -> s <> myself cs -> ensures (process_role s msg e cs) (good cs).
Proof.
  intros Hwf Hs Hne. unfold process_role. destruct (m_slaveof msg) as [m|]; [|by apply clusterSetNodeAsMaster_good].
  set (master := match nodes cs !! m with Some _ => Some m | None => None end). cbn zeta.
  assert (forall x, master = Some x -> is_Some (nodes cs !! x)) as Hm
    by (unfold master; intros x; destruct (nodes cs !! m) eqn:E; [intros [= <-]; eauto|done]).
  clearbody master. destruct Hs as [nd Hs]. rewrite Hs. cbn [mbind option_bind].
  eapply (ensures_bind _ _ (fun c => good cs c /\ exists nd', nodes c !! s = Some nd' /\ clusterNodeIsMaster nd' = false)).
  { destruct (clusterNodeIsMaster nd) eqn:M; [by eapply master_to_slave_ok|]. cbn. split; [by apply good_refl|eauto]. }
  intros c [G (nd' & Hs' & M')]. destruct master as [x|]; [|done]. rewrite Hs'. cbn [mbind option_bind].
  case_match; [done|]. eapply (good_from _ c); [done|].
  eapply change_master_ok; [apply G|done|done|by rewrite (sn_myself _ _ (gd_names _ _ G))|].
  by apply (sn_nodes _ _ (gd_names _ _ G)), Hm.
Qed.

(** ** Packets *)

Lemma process_pong_ok env s cs : cluster_wf cs -> is_Some (nodes cs !! s) -> ensures (process_pong env s cs) (good cs).
Proof.
  intros Hwf Hs. unfold process_pong. apply good_bind; [apply good_upd; [done..|quiet_fields]|].
  intros c G. destruct (sn_nodes _ _ (gd_names _ _ G) _ Hs) as [nd E]. rewrite E. cbn [mbind option_bind].
  destruct (nodeTimedOut nd); [apply good_upd; [apply G|eauto|quiet_fields]|].
  destruct (nodeFailed nd) eqn:Hf; [|by apply good_refl, G]. eapply clearNodeFailureIfNeeded_ok; [apply G|done..].
Qed.

Lemma nodeUpdateAddressIfNeeded_ok env s msg cs :
  cluster_wf cs -> is_Some (nodes cs !! s) -> ensures (nodeUpdateAddressIfNeeded env s msg cs) (good cs).
Proof.
  intros Hwf Hs. pose proof Hs as [nd E]. unfold nodeUpdateAddressIfNeeded. rewrite E. cbn [mbind option_bind].
  destruct (negb _); [by apply good_refl|]. destruct (_ =? _); [by apply good_refl|]. apply good_upd; [done..|].
  intros x. transitivity (set_addr x (m_addr msg) None); [by apply quiet_fields|by apply quiet_del].
Qed.

Lemma process_header_ok env s msg cs :
  cluster_wf cs -> is_Some (nodes cs !! s) -> ensures (process_header env s msg cs) (good cs).
Proof.
  intros Hwf Hs. unfold process_header. apply good_bind; [apply good_upd; [done..|quiet_fields]|].
  intros c G. pose proof (sn_nodes _ _ (gd_names _ _ G) _ Hs) as [nd E]. rewrite E. cbn [mbind option_bind].
  destruct (nodeInHandshake nd); [by apply good_refl, G|]. cbn zeta.
  match goal with |- ensures (upd s ?f ?c1 ≫= _) _ => assert (good c c1) as G1;
    [case_match; [apply good_fields; try done; apply G|by apply good_refl, G]|]; set (c2 := c1) in * end.
  eapply good_from; [exact G1|]. apply good_bind.
  { apply good_upd; [apply G1|apply (sn_nodes _ _ (gd_names _ _ G1)); eauto|]. intros x. case_match; by apply quiet_fields. }
  intros c3 G3. destruct (me_known _ (gd_wf _ _ G3)) as [me ->]. cbn [mbind option_bind].
  destruct (_ && _); [|by apply good_refl, G3]. apply good_fields; try done. apply G3.
Qed.

Lemma upd_size n f cs cs' : upd n f cs = Some cs' -> size (nodes cs') = size (nodes cs).
Proof.
  unfold upd. destruct (nodes cs !! n) as [nd|] eqn:E; [|done]. intros [= <-]. cbn [nodes set_nodes].
  by rewrite map_size_insert, E.
Qed.

(** The header of a packet adds no node. *)
Lemma process_header_size env s msg cs cs' : process_header env s msg cs = Some cs' -> size (nodes cs') = size (nodes cs).
Proof.
  unfold process_header. intros H. apply bind_Some in H as (c1 & E1%upd_size & H). cbn beta in H. rewrite <- E1. clear E1.
  apply bind_Some in H as (nd & _ & H). cbn beta in H. destruct (nodeInHandshake nd); [by injection H as <-|].
  apply bind_Some in H as (c2 & E2%upd_size & H). cbn beta in H.
  assert (size (nodes c2) = size (nodes c1)) as <- by (rewrite E2; by destruct (_ >? _)). clear E2.
  apply bind_Some in H as (me & _ & H). cbn beta zeta in H. destruct (_ && _); by injection H as <-.
Qed.

Lemma clusterHandleConfigEpochCollision_ok s cs :
  cluster_wf cs -> is_Some (nodes cs !! s) -> ensures (clusterHandleConfigEpochCollision s cs) (good cs).
Proof.
  intros Hwf [nd Hs]. unfold clusterHandleConfigEpochCollision. rewrite Hs. cbn [mbind option_bind].
  destruct (me_known _ Hwf) as [me E]. rewrite E. cbn [mbind option_bind].
  destruct (_ || _); [by apply good_refl|]. destruct (_ <=? _); [by apply good_refl|].
  assert (good cs (next_epoch cs)) as G by by apply good_fields.
  eapply good_from; [exact G|]. apply good_upd; [apply G|cbn; eauto|quiet_fields].
Qed.

Lemma process_config_ok env s msg e cs :
  cluster_wf cs -> is_Some (nodes cs !! s) -> s <> myself cs ->
  ensures (process_config env s msg e cs) (fun '(cs', _) => good cs cs').
Proof.
  intros Hwf Hs Hne. pose proof Hs as [nd E]. unfold process_config. rewrite E. cbn [mbind option_bind].
  eapply (ensures_bind _ _ (fun _ => True)).
  { destruct (clusterNodeIsMaster nd); [done|]. destruct (slaveof nd) as [m|] eqn:Ho; [|done].
    by destruct (master_known _ _ _ _ Hwf E Ho) as [md ->]. }
  intros sm _. cbn zeta. set (dirty := match sm with Some _ => _ | None => _ end). clearbody dirty.
  eapply (ensures_bind _ _ (good cs)).
  { destruct (_ && _); [|by apply good_refl]. eapply ensures_mono; [by apply clusterUpdateSlotsConfigWith_ok|].
    intros c (W & N & _). by constructor. }
  intros c1 G1. pose proof (sn_nodes _ _ (gd_names _ _ G1) _ Hs) as Hs1. eapply (ensures_bind _ _ (fun _ => True)).
  { destruct dirty; [|done]. eapply ensures_bind; [apply newer_owner_ok, G1|]. intros [o|] Ho; [|done].
    apply clusterSendUpdate_ok; [apply G1|done|by apply Ho]. }
  intros out _. destruct (me_known _ (gd_wf _ _ G1)) as [me ->]. pose proof Hs1 as [nd1 E1]. rewrite E1.
  cbn [mbind option_bind]. eapply (ensures_bind _ _ (good c1)).
  { destruct (_ && _); [|by apply good_refl, G1]. apply clusterHandleConfigEpochCollision_ok; [apply G1|done]. }
  intros c2 G2. by eapply good_trans.
Qed.

Lemma process_ping_ok env s msg cs :
  cluster_wf cs -> random_known env cs -> few_nodes cs -> is_Some (nodes cs !! s) -> s <> myself cs ->
  ensures (process_ping env s msg cs) (fun '(cs', _) => good cs cs').
Proof.
  intros Hwf Hr Hfew Hs Hne. unfold process_ping. pose proof Hs as [nd ->]. cbn [mbind option_bind].
  assert (forall c, good cs c -> is_Some (nodes c !! s)) as Hin by (intros c G; by apply (sn_nodes _ _ (gd_names _ _ G))).
  assert (forall c, good cs c -> s <> myself c) as Hme by (intros c G; by rewrite (sn_myself _ _ (gd_names _ _ G))).
  eapply (ensures_bind _ _ (fun '(c, _) => good cs c)).
  { case_match; [by apply clusterSendPing_ok|by apply good_refl]. }
  intros [c1 reply] G1. eapply (ensures_bind _ _ (good cs)).
  { eapply good_from; [exact G1|]. apply good_upd; [apply G1|by apply Hin|]. intros x.
    transitivity (del_flag CLUSTER_NODE_NOFAILOVER x); [by apply quiet_del|].
    apply (quiet_add (Z.land (m_flags msg) CLUSTER_NODE_NOFAILOVER)).
    rewrite (Z.land_comm (m_flags msg)), Z.land_assoc. apply Z.land_0_l. }
  intros c2 G2. eapply (ensures_bind _ _ (good cs)).
  { eapply good_from; [exact G2|]. destruct (_ && _); [|by apply good_refl, G2].
    apply nodeUpdateAddressIfNeeded_ok; [apply G2|by apply Hin]. }
  intros c3 G3. eapply (ensures_bind _ _ (good cs)).
  { eapply good_from; [exact G3|]. destruct (negb _); [|by apply good_refl, G3].
    apply process_pong_ok; [apply G3|by apply Hin]. }
  intros c4 G4. eapply (ensures_bind _ _ (good cs)).
  { eapply good_from; [exact G4|]. apply process_role_ok; [apply G4|by apply Hin|by apply Hme]. }
  intros c5 G5. eapply (ensures_bind _ _ (fun '(c, _) => good cs c)).
  { eapply ensures_mono; [apply process_config_ok; [apply G5|by apply Hin|by apply Hme]|].
    intros [c out] G. by eapply good_trans. }
  intros [c6 upds] G6. eapply ensures_bind; [apply clusterProcessGossipSection_ok; [apply G6|by apply Hin]|].
  intros [c7 fails] G7. by eapply good_trans.
Qed.

Lemma process_fail_ok env a cs : cluster_wf cs -> ensures (process_fail env a cs) (good cs).
Proof.
  intros Hwf. unfold process_fail. destruct (nodes cs !! a) as [nd|] eqn:E; [|by apply good_refl].
  destruct (has_flag _ _); [by apply good_refl|]. apply good_upd; [done|eauto|]. intros x.
  transitivity (add_flag CLUSTER_NODE_FAIL x); [by apply quiet_add|].
  etransitivity; [|by apply quiet_del]. by apply quiet_fields.
Qed.

Lemma process_mfstart_ok env s cs :
  cluster_wf cs -> random_known env cs -> few_nodes cs -> is_Some (nodes cs !! s) ->
  ensures (process_mfstart env s cs) (fun '(cs', _) => good cs cs').
Proof.
  intros Hwf Hr Hfew Hs. pose proof Hs as [nd E]. unfold process_mfstart. rewrite E. cbn [mbind option_bind].
  destruct (negb _); [by apply good_refl|]. cbn zeta.
  match goal with |- ensures (clusterSendPing _ _ _ _ ?c) _ => assert (good cs c) as G by by apply good_fields end.
  eapply ensures_mono; [apply clusterSendPing_ok; [apply G|done|done]|]. intros [c out] G'. by eapply good_trans.
Qed.

Lemma process_update_ok env n e claimed cs : cluster_wf cs -> ensures (process_update env n e claimed cs) (good cs).
Proof.
  intros Hwf. unfold process_update. destruct (nodes cs !! n) as [nd|] eqn:E; [|by apply good_refl].
  destruct (_ >=? _); [by apply good_refl|]. apply good_bind.
  { destruct (nodeIsSlave nd); [|by apply good_refl]. apply clusterSetNodeAsMaster_good; [done|eauto]. }
  intros c G. assert (is_Some (nodes c !! n)) as Hn by (apply (sn_nodes _ _ (gd_names _ _ G)); eauto). apply good_bind.
  { apply good_upd; [apply G|done|quiet_fields]. }
  intros c1 G1. pose proof (sn_nodes _ _ (gd_names _ _ G1) _ Hn) as Hn1. destruct (decide (n = myself c1)) as [->|Hne].
  - unfold clusterUpdateSlotsConfigWith. destruct Hn1 as [me ->]. cbn [mbind option_bind]. rewrite Z.eqb_refl.
    by apply good_refl, G1.
  - eapply ensures_mono; [apply clusterUpdateSlotsConfigWith_ok; [apply G1|done..]|]. intros c2 (W & N & _). by constructor.
Qed.

Lemma clusterSendFailoverAuthIfNeeded_ok env s msg cs :
  cluster_wf cs -> is_Some (nodes cs !! s) ->
  ensures (clusterSendFailoverAuthIfNeeded env s msg cs) (fun '(cs', _) => good cs cs').
Proof.
  intros Hwf [nd E]. unfold clusterSendFailoverAuthIfNeeded. generalize (Z.to_nat CLUSTER_SLOTS). intros k. rewrite E. cbn [mbind option_bind].
  destruct (me_known _ Hwf) as [me ->]. cbn [mbind option_bind].
  repeat match goal with |- ensures (if ?b then Some (cs, []) else _) _ => destruct b; [by apply good_refl|] end.
  destruct (slaveof nd) as [m|] eqn:Ho; [|by apply good_refl]. pose proof (master_known _ _ _ _ Hwf E Ho) as [md Hm].
  rewrite Hm. cbn [mbind option_bind].
  repeat match goal with |- ensures (if ?b then Some (cs, []) else _) _ => destruct b; [by apply good_refl|] end.
  eapply ensures_bind; [by apply claims_newer_slot_ok|]. intros newer _. destruct newer; [by apply good_refl|].
  cbn zeta. match goal with |- ensures (upd _ _ ?c ≫= _) _ => assert (good cs c) as G by by apply good_fields end.
  eapply (ensures_bind _ _ (good cs)).
  { eapply good_from; [exact G|]. apply good_upd; [apply G|cbn; eauto|quiet_fields]. }
  intros c1 G1. unfold clusterSendFailoverAuth. eapply (ensures_bind _ _ (fun _ => True)); [|done].
  eapply ensures_bind; [apply clusterBuildMessageHdr_ok, G1|]. intros msg' _. unfold clusterSendMessage.
  by destruct (sn_nodes _ _ (gd_names _ _ G1) s ltac:(eauto)) as [nd1 ->].
Qed.

Lemma process_auth_ack_ok s msg cs :
  cluster_wf cs -> is_Some (nodes cs !! s) -> ensures (process_auth_ack s msg cs) (good cs).
Proof.
  intros Hwf [nd E]. unfold process_auth_ack. rewrite E. cbn [mbind option_bind].
  destruct (_ && _); [by apply good_fields|by apply good_refl].
Qed.

Lemma clusterProcessPacket_ok env msg cs :
  cluster_wf cs -> random_known env cs -> few_nodes cs -> m_sender msg <> myself cs ->
  ensures (clusterProcessPacket env msg cs) (fun '(cs', _) => good cs cs').
Proof.
  intros Hwf Hr Hfew Hne. unfold clusterProcessPacket.
  destruct (nodes cs !! m_sender msg) as [nd|] eqn:E; [|destruct (bool_decide _); [by apply clusterSendPing_ok|by apply good_refl]].
  pose proof (process_header_ok env (m_sender msg) msg cs Hwf ltac:(eauto)) as G.
  destruct (process_header env (m_sender msg) msg cs) as [c|] eqn:Eh; [|done]. cbn [ensures] in G. cbn [mbind option_bind].
  assert (few_nodes c) as Hfew' by (unfold few_nodes; by rewrite (process_header_size _ _ _ _ _ Eh)).
  assert (is_Some (nodes c !! m_sender msg)) as Hs by (apply (sn_nodes _ _ (gd_names _ _ G)); eauto).
  assert (random_known env c) as Hr' by (intros i; apply (sn_nodes _ _ (gd_names _ _ G)), Hr).
  assert (m_sender msg <> myself c) as Hne' by by rewrite (sn_myself _ _ (gd_names _ _ G)).
  assert (forall o : option (clusterState * sends), ensures o (fun '(c', _) => good c c') ->
    ensures o (fun '(c', _) => good cs c')) as Hfrom
    by (intros o Ho; eapply ensures_mono; [exact Ho|]; intros [c' out] G'; by eapply good_trans).
  pose proof (gd_wf _ _ G) as W. apply Hfrom. destruct (m_type msg) as [| | | | |a|n e cl].
  - by apply process_ping_ok.
  - by apply process_ping_ok.
  - by apply clusterSendFailoverAuthIfNeeded_ok.
  - eapply ensures_bind; [by apply process_auth_ack_ok|]. done.
  - by apply process_mfstart_ok.
  - eapply ensures_bind; [by apply process_fail_ok|]. done.
  - eapply ensures_bind; [by apply process_update_ok|]. done.
Qed.

(** ** The state of the cluster and the failover *)

Lemma clusterUpdateState_ok env cs :
  cluster_wf cs -> ensures (clusterUpdateState env cs) (fun cs' => good cs cs' /\ nodes cs' = nodes cs /\ owner cs' = owner cs).
Proof.
  intros Hwf. unfold clusterUpdateState. generalize (Z.to_nat CLUSTER_SLOTS). intros k. cbn zeta.
  destruct (me_known _ Hwf) as [me E]. cbn [nodes set_state myself]. rewrite E. cbn [mbind option_bind].
  assert (forall ok size mi fi, good cs (set_state cs ok size mi fi)) as G by (intros; by apply good_fields).
  destruct (_ && _); [done|]. eapply (ensures_bind _ _ (fun _ => True)).
  { destruct (cluster_require_full_coverage env); [|done]. apply slot_uncovered_ok, G. }
  intros u _. destruct (Bool.eqb _ _); [|destruct (_ && _)]; (split; [by apply good_fields|done]).
Qed.

Lemma slave_rank_ok l o cs : (forall x, x ∈ l -> is_Some (nodes cs !! x)) -> returns (slave_rank l o cs).
Proof.
  induction l as [|x l IH]; intros Hl; cbn; [done|]. destruct (Hl x ltac:(by left)) as [nd ->]. cbn.
  eapply ensures_bind; [|done]. apply IH. intros y Hy. apply Hl. by right.
Qed.

Lemma clusterGetSlaveRank_ok env cs me :
  cluster_wf cs -> nodes cs !! myself cs = Some me -> clusterNodeIsMaster me = false ->
  returns (clusterGetSlaveRank env cs).
Proof.
  intros Hwf Hme M. pose proof Hwf as [_ (me' & Hme' & Hr & _)]. rewrite Hme in Hme'. injection Hme' as <-.
  unfold clusterGetSlaveRank. rewrite Hme. cbn [mbind option_bind]. rewrite Hr, M. cbn [negb cassert mbind option_bind].
  destruct (slaveof me) as [m|] eqn:Ho; [|done]. destruct (master_known _ _ _ _ Hwf Hme Ho) as [md Hm]. rewrite Hm.
  cbn. apply slave_rank_ok. intros x Hx. by eapply slave_known.
Qed.

(** A replica that won: the slots of its master are its own. *)
Lemma clusterFailoverReplaceYourMaster_ok env cs me m :
  cluster_wf cs -> nodes cs !! myself cs = Some me -> clusterNodeIsMaster me = false -> slaveof me = Some m ->
  ensures (clusterFailoverReplaceYourMaster env cs) (fun cs' => good cs cs' /\
    owner cs' = (fun o => if decide (o = m) then myself cs else o) <$> owner cs /\
    exists me', nodes cs' !! myself cs = Some me' /\ clusterNodeIsMaster me' = true /\ slaveof me' = None).
Proof.
  intros Hwf Hme M Ho. unfold clusterFailoverReplaceYourMaster. rewrite Hme. cbn [mbind option_bind]. rewrite Ho, M.
  pose proof Hwf as [Ht (me0 & Hme0 & Hr & _)]. rewrite Hme in Hme0. injection Hme0 as <-.
  eapply ensures_bind; [apply become_master; [done|eauto|by exists me|done]|].
  intros c1 (W1 & F1 & me1 & Hme1 & M1). pose proof (link_names _ _ _ F1) as N1.
  rewrite (lf_myself _ _ _ F1). eapply ensures_bind.
  { apply (clusterMoveNodeSlots_ok m (myself cs)); [apply W1|apply N1; by eapply master_known|eauto]. }
  intros [r c2] (W2 & F2 & O2). rewrite <- (lf_myself _ _ _ F1) in Hme1.
  pose proof (slot_cluster_master _ _ _ W1 F2 W2 Hme1 M1) as Wc2.
  destruct (nodes_rel_l _ _ _ _ _ (sf_nodes _ _ F2) Hme1) as (me2 & Hme2 & Fm).
  eapply ensures_bind; [by apply (clusterUpdateState_ok env)|]. intros c3 (G3 & En & Eo). cbn.
  rewrite Eo, O2, (lf_owner _ _ _ F1), En. rewrite (lf_myself _ _ _ F1) in Hme2. split; [|split; [done|]].
  - eapply good_trans; [|by apply good_fields; [apply G3|..]]. destruct G3 as [W3 N3].
    constructor; [done|]. etrans; [done|]. etrans; [by apply slot_names|done].
  - exists me2. split; [done|]. rewrite (nf_master _ _ Fm), (nf_slaveof _ _ Fm), M1. split; [done|].
    by eapply (tw_roles _ (cw_table _ W1)).
Qed.

Lemma good_set_cant_reason r cs : cluster_wf cs -> good cs (set_cant_reason r cs).
Proof. intros Hwf. by apply good_fields. Qed.

Lemma start_election_ok env cs : cluster_wf cs -> ensures (start_election env cs) (fun '(cs', _) => good cs cs').
Proof.
  intros Hwf. unfold start_election, clusterRequestFailoverAuth. cbn zeta.
  eapply (ensures_bind _ _ (fun _ => True)); [|intros out _; by apply good_fields].
  eapply (ensures_bind _ _ (fun _ => True)); [|done]. apply clusterBuildMessageHdr_ok.
  by apply (good_fields cs).
Qed.

Lemma clusterHandleSlaveFailover_ok env cs :
  cluster_wf cs -> ensures (clusterHandleSlaveFailover env cs) (fun '(cs', _, _) => good cs cs').
Proof.
  intros Hwf. destruct (me_known _ Hwf) as [me Hme]. unfold clusterHandleSlaveFailover. cbn zeta.
  rewrite Hme. cbn [mbind option_bind].
  eapply (ensures_bind _ _ (fun o => o = None -> slaveof me = None)).
  { destruct (slaveof me) as [m|] eqn:Ho; [|done]. by destruct (master_known _ _ _ _ Hwf Hme Ho) as [md ->]. }
  intros om Hom. destruct (clusterNodeIsMaster me) eqn:M; [by apply good_set_cant_reason|].
  destruct om as [master|]; [|by apply good_set_cant_reason]. cbn [orb].
  destruct (_ || _); [by apply good_set_cant_reason|]. destruct (_ && _); [by apply good_set_cant_reason|].
  destruct (_ >? _).
  { eapply (ensures_bind _ _ (good cs)); [|done]. unfold schedule_election.
    eapply ensures_bind; [by eapply clusterGetSlaveRank_ok|]. intros rank _. by apply good_fields. }
  eapply (ensures_bind _ _ (fun c => good cs c /\ nodes c = nodes cs)).
  { unfold update_rank. destruct (_ && _); [|by split; [apply good_refl|]].
    eapply ensures_bind; [by eapply clusterGetSlaveRank_ok|]. intros rank _.
    destruct (_ >? _); (split; [by apply good_fields|done]). }
  intros c1 [G1 En]. pose proof (gd_wf _ _ G1) as W1. assert (myself c1 = myself cs) as Em by apply G1.
  destruct (_ <? _); [eapply good_trans; [done|by apply good_set_cant_reason]|].
  destruct (_ >? _); [eapply good_trans; [done|by apply good_set_cant_reason]|]. destruct (_ =? _).
  { eapply ensures_bind; [by apply start_election_ok|]. intros [c2 out] G2. by eapply good_trans. }
  destruct (_ >=? _); [|eapply good_trans; [done|by apply good_set_cant_reason]].
  eapply (ensures_bind _ _ (fun c => good c1 c /\ exists me', nodes c !! myself c = Some me' /\
    clusterNodeIsMaster me' = false)).
  { destruct (_ <? _).
    - eapply upd_ensures; [by rewrite En, Em|]. rewrite Em. split.
      + assert (quiet_frame c1 (set_nodes c1 (<[myself cs := set_configEpoch me (failover_auth_epoch (failover c1))]> (nodes c1)))) as Q.
        { constructor; try done. cbn. eapply (nodes_rel_insert (fun _ => node_quiet)); [by rewrite En|by apply quiet_fields]. }
        constructor; [by eapply quiet_wf|by apply quiet_names].
      + cbn. rewrite Em, lookup_insert_eq. eexists. split; [done|]. exact M.
    - split; [by apply good_refl|]. exists me. by rewrite En, Em. }
  intros c2 [G2 (me2 & Hme2 & M2)]. pose proof (gd_wf _ _ G2) as W2. pose proof W2 as [_ (me3 & Hme3 & _ & Hs)].
  rewrite Hme2 in Hme3. injection Hme3 as <-. destruct (Hs M2) as [_ Ho2].
  destruct (slaveof me2) as [m|] eqn:Ho; [|done].
  eapply ensures_bind; [by eapply clusterFailoverReplaceYourMaster_ok|]. intros c3 [G3 _].
  eapply good_trans; [done|]. by eapply good_trans.
Qed.

(** ** The invariant *)

(** C7: The state of a node stays well formed and no handler fails.  From a state in which the
    array of owners agrees with the bitmaps and the counts of the nodes, masters and
    replicas point at each other, this node is a master or a replica without slots, and fewer
    than 65535 nodes are known (a PONG could not count its gossip otherwise), every packet of
    another node, known or not -- whatever it claims of roles, masters, slots, epochs and
    gossip -- every call of the failover and every evaluation of the state of the cluster
    returns (a node that is picked at random being one of those known), breaks no assertion, and leaves such a state that knows the same nodes or more.
    What a handler leaves for later or for other components (the configuration file, the
    connection to a master, the PONG broadcast when an election is scheduled) is no part of it. *)
Theorem cluster_handlers_safe env cs :
  cluster_wf cs -> random_known env cs -> Z.of_nat (size (nodes cs)) < USHRT_MAX ->
  (forall msg, m_sender msg <> myself cs -> exists cs' out, clusterProcessPacket env msg cs = Some (cs', out) /\ good cs cs') /\
  (exists cs' out won, clusterHandleSlaveFailover env cs = Some (cs', out, won) /\ good cs cs') /\
  (exists cs', clusterUpdateState env cs = Some cs' /\ good cs cs').
Proof.
  intros Hwf Hr Hfew. split; [|split].
  - intros msg Hne. pose proof (clusterProcessPacket_ok env msg cs Hwf Hr Hfew Hne) as H.
    apply ensures_Some in H as ([cs' out] & E & G). eauto.
  - pose proof (clusterHandleSlaveFailover_ok env cs Hwf) as H. apply ensures_Some in H as ([[cs' out] won] & E & G). eauto.
  - pose proof (clusterUpdateState_ok env cs Hwf) as H. apply ensures_Some in H as (cs' & E & G & _). eauto.
Qed.

(** C8: An update of the slots gives each slot the owner it should have.  Of the slots that
    [sender] claims with the epoch [e], it gets those that are not being imported and
    have no owner, or an owner that stopped claiming them or has an older epoch; every
    other slot keeps its owner.  A slot is in doubt when its owner does not claim it any
    more, and stops being so when it is claimed by its owner or changes hands. *)
Theorem clusterUpdateSlotsConfigWith_refines env sender e claimed cs :
  cluster_wf cs -> is_Some (nodes cs !! sender) -> sender <> myself cs ->
  exists cs', clusterUpdateSlotsConfigWith env sender e claimed cs = Some cs' /\ cluster_wf cs' /\
    forall j, 0 <= j < CLUSTER_SLOTS ->
      owner cs' !! j = (if Z.testbit claimed j && rebinds cs e j then Some sender else owner cs !! j) /\
      Z.testbit (owner_not_claiming_slot cs') j = updated_doubt cs sender e claimed j.
Proof.
  intros Hwf Hs Hne. pose proof (clusterUpdateSlotsConfigWith_ok env sender e claimed cs Hwf Hs Hne) as H.
  apply ensures_Some in H as (cs' & E & W & _ & [G1 G2]). exists cs'. split; [done|]. split; [done|].
  intros j Hj. split; [by apply G1|by apply G2].
Qed.

(** ** A stale announcement *)

(** A message by which a master says that it follows another master of its shard, with an
    epoch older than the one known, is to be ignored, yet its sender is made a replica that
    keeps its slots. *)
Lemma master_to_slave_stale sender m e cs nd mnd :
  nodes cs !! sender = Some nd -> nodes cs !! m = Some mnd -> shard_id mnd = shard_id nd ->
  configEpoch nd > e ->
  exists nd', master_to_slave sender (Some m) e cs = Some (set_nodes cs (<[sender := nd']> (nodes cs))) /\
    nodeIsSlave nd' = true /\ clusterNodeIsMaster nd' = false /\ slots nd' = slots nd.
Proof.
  intros H1 H2 H3 H4. unfold master_to_slave. rewrite H1. cbn [mbind option_bind].
  rewrite H2. cbn [mbind option_bind]. rewrite H3, Z.eqb_refl.
  replace (configEpoch nd >? e) with true by lia. cbn [mbind option_bind]. unfold upd. rewrite H1. cbn [mbind option_bind].
  eexists. split; [reflexivity|]. split; [|split; [|reflexivity]].
  - unfold nodeIsSlave. by apply has_flag_add_self.
  - unfold clusterNodeIsMaster. rewrite has_flag_add by reflexivity. by apply has_flag_del_self.
Qed.

(** ** An example *)

(** The slots up to the highest that is set are enough to count them all. *)
Definition set_slots (s : Z) : list Z := filter (fun j => Z.testbit s j = true) (seqZ 0 (Z.log2 s + 1)).

Lemma count_set_slots s : 0 <= s -> Z.log2 s < CLUSTER_SLOTS -> count_slots s = Z.of_nat (length (set_slots s)).
Proof.
  intros Hs Hl. unfold count_slots, set_slots, slot_list. pose proof (Z.log2_nonneg s) as Hp.
  replace CLUSTER_SLOTS with ((Z.log2 s + 1) + (CLUSTER_SLOTS - Z.log2 s - 1)) by lia.
  rewrite seqZ_app by lia. rewrite filter_app, length_app.
  replace (filter _ (seqZ (0 + (Z.log2 s + 1)) _)) with (@nil Z); [cbn [length]; lia|]. symmetry.
  apply elem_of_nil_inv. intros x [Hb Hx%elem_of_seqZ]%list_elem_of_filter.
  by rewrite Z.bits_above_log2 in Hb by lia.
Qed.

(** The invariant, checked. *)
Definition slots_check (ns : gmap Z clusterNode) (ow : gmap Z Z) : bool :=
  forallb (fun '(j, n) => (0 <=? j) && (j <? CLUSTER_SLOTS) &&
    match ns !! n with Some nd => Z.testbit (slots nd) j | None => false end) (map_to_list ow) &&
  forallb (fun '(n, nd) => (0 <=? slots nd) && (Z.log2 (slots nd) <? CLUSTER_SLOTS) &&
    (numslots nd =? Z.of_nat (length (set_slots (slots nd)))) &&
    forallb (fun j => negb (Z.testbit (slots nd) j) || bool_decide (ow !! j = Some n)) (seqZ 0 (Z.log2 (slots nd) + 1)))
    (map_to_list ns).

Definition links_check (ns : gmap Z clusterNode) : bool :=
  forallb (fun '(n, nd) =>
    match slaveof nd with
    | Some m => match ns !! m with Some md => bool_decide (n ∈ slaves md) | None => false end
    | None => true
    end &&
    forallb (fun s => match ns !! s with Some sd => bool_decide (slaveof sd = Some n) | None => false end) (slaves nd) &&
    bool_decide (NoDup (slaves nd)) && implb (clusterNodeIsMaster nd) (bool_decide (slaveof nd = None)))
    (map_to_list ns).

Definition me_check (cs : clusterState) : bool :=
  match nodes cs !! myself cs with
  | Some me => Bool.eqb (nodeIsSlave me) (negb (clusterNodeIsMaster me)) &&
      (clusterNodeIsMaster me || ((numslots me =? 0) && bool_decide (slaveof me <> None)))
  | None => false
  end.

Lemma forallb_elem {A} (f : A -> bool) l x : forallb f l = true -> x ∈ l -> f x = true.
Proof. intros H Hx. by apply (proj1 (forallb_forall f l) H), list_elem_of_In. Qed.

Lemma slots_check_sound ns ow : slots_check ns ow = true -> slots_wf ns ow.
Proof.
  intros [H1 H2]%andb_true_iff. constructor.
  - intros j n Hj. pose proof (forallb_elem _ _ (j, n) H1 ltac:(by apply elem_of_map_to_list)) as H. cbn in H.
    apply andb_true_iff in H as [[H3%Z.leb_le H4%Z.ltb_lt]%andb_true_iff H5]. split; [done|].
    destruct (ns !! n) as [nd|]; [eauto|done].
  - intros n nd j Hn Hb. pose proof (forallb_elem _ _ (n, nd) H2 ltac:(by apply elem_of_map_to_list)) as H. cbn in H.
    apply andb_true_iff in H as [[[H3%Z.leb_le _]%andb_true_iff _]%andb_true_iff H5].
    assert (0 <= j <= Z.log2 (slots nd)) as Hj.
    { destruct (Z.ltb_spec j 0); [by rewrite Z.testbit_neg_r in Hb by lia|]. split; [done|].
      destruct (Z.ltb_spec (Z.log2 (slots nd)) j); [|done]. by rewrite Z.bits_above_log2 in Hb. }
    pose proof (forallb_elem _ _ j H5 ltac:(apply elem_of_seqZ; lia)) as H. cbn in H. rewrite Hb in H.
    by apply bool_decide_eq_true in H.
  - intros n nd Hn. pose proof (forallb_elem _ _ (n, nd) H2 ltac:(by apply elem_of_map_to_list)) as H. cbn in H.
    apply andb_true_iff in H as [[[H3%Z.leb_le H4%Z.ltb_lt]%andb_true_iff H5%Z.eqb_eq]%andb_true_iff _].
    by rewrite count_set_slots.
Qed.

Lemma links_check_sound ns : links_check ns = true -> links_wf ns /\ roles_wf ns.
Proof.
  intros H. assert (forall n nd, ns !! n = Some nd ->
    (forall m, slaveof nd = Some m -> exists md, ns !! m = Some md /\ n ∈ slaves md) /\
    (forall s, s ∈ slaves nd -> exists sd, ns !! s = Some sd /\ slaveof sd = Some n) /\ NoDup (slaves nd) /\
    (clusterNodeIsMaster nd = true -> slaveof nd = None)) as Hn.
  { intros n nd Hn. pose proof (forallb_elem _ _ (n, nd) H ltac:(by apply elem_of_map_to_list)) as Hx. cbn in Hx.
    apply andb_true_iff in Hx as [[[H1 H2]%andb_true_iff H3%bool_decide_eq_true]%andb_true_iff H4]. split; [|split; [|split; [done|]]].
    - intros m E. rewrite E in H1. destruct (ns !! m) as [md|]; [|done]. exists md. by apply bool_decide_eq_true in H1.
    - intros s Hs. pose proof (forallb_elem _ _ s H2 Hs) as Hx. cbn in Hx. destruct (ns !! s) as [sd|]; [|done].
      exists sd. by apply bool_decide_eq_true in Hx.
    - intros M. rewrite M in H4. by apply bool_decide_eq_true in H4. }
  split; [constructor|].
  - intros x xd m Hx. by apply (proj1 (Hn x xd Hx)).
  - intros x xd s Hx. by apply (proj1 (proj2 (Hn x xd Hx))).
  - intros x xd Hx. by destruct (Hn x xd Hx) as (_ & _ & ? & _).
  - intros x xd Hx. by destruct (Hn x xd Hx) as (_ & _ & _ & ?).
Qed.

Lemma cluster_check_sound cs :
  slots_check (nodes cs) (owner cs) && links_check (nodes cs) && me_check cs = true -> cluster_wf cs.
Proof.
  intros [[H1%slots_check_sound [H2 H3]%links_check_sound]%andb_true_iff H4]%andb_true_iff. split; [by constructor|].
  unfold me_check in H4. destruct (nodes cs !! myself cs) as [me|] eqn:E; [|done]. exists me. split; [done|].
  apply andb_true_iff in H4 as [H5%Bool.eqb_prop H6]. split; [done|]. intros M. rewrite M in H6.
  apply andb_true_iff in H6 as [H7%Z.eqb_eq H8%bool_decide_eq_true]. done.
Qed.

(** Two masters with two slots each, and a replica of the first, which is this node. *)
Definition ex_node (f e s k : Z) (l : list Z) (m : option Z) : clusterNode :=
  mk_node f e 100 s k l m 0 0 0 0 0 0 0 0 (Some 0) [].
Definition ex_nodes : gmap Z clusterNode :=
  list_to_map [(1, ex_node 1 1 3 2 [3] None); (2, ex_node 1 2 12 2 [] None); (3, ex_node 18 0 0 0 [] (Some 1))].
Definition ex_cs : clusterState :=
  mk_cluster 3 2 true 2 ex_nodes ∅ ∅ ∅ (list_to_map [(0, 1); (1, 1); (2, 2); (3, 2)])
    (mk_failover 0 0 0 0 0 0) (mk_manual 0 None (-1) false) 0 0 0 0 1.
Definition ex_env : serverEnv :=
  mk_env 100000 100 0 (fun _ => 1) (fun n => n) 1000 0 1 false 10 false true false false 10 false 0 100 0 0 true.

Lemma ex_cs_wf : cluster_wf ex_cs.
Proof. apply cluster_check_sound. vm_compute. reflexivity. Qed.

(** A PING by which the second master says that it became a replica of the first, with
    gossip of a failing node and of an unknown one. *)
Definition ex_ping : clusterMsg :=
  mk_msg CLUSTERMSG_TYPE_PING 2 3 2 3 (Some 1) CLUSTER_NODE_SLAVE 0 0 false false
    [mk_gossip 1 5 0 0 0; mk_gossip 9 1 0 0 7].

Lemma cluster_handlers_safe_witness :
  exists cs' out, clusterProcessPacket ex_env ex_ping ex_cs = Some (cs', out) /\ good ex_cs cs'.
Proof.
  apply (proj1 (cluster_handlers_safe ex_env ex_cs ex_cs_wf ltac:(intros i; vm_compute; by eexists) eq_refl)). done.
Defined.

(** The second master takes the slots of the first with a newer epoch, and the replica
    follows it. *)
Lemma clusterUpdateSlotsConfigWith_refines_witness :
  exists cs', clusterUpdateSlotsConfigWith ex_env 2 5 15 ex_cs = Some cs' /\ owner cs' !! 0 = Some 2.
Proof.
  destruct (clusterUpdateSlotsConfigWith_refines ex_env 2 5 15 ex_cs ex_cs_wf) as (cs' & E & _ & H);
    [vm_compute; by eexists|done|].
  exists cs'. split; [exact E|].
  assert (0 <= 0 < CLUSTER_SLOTS) as H0 by (split; [apply Z.le_refl|reflexivity]).
  refine (eq_trans (proj1 (H 0 H0)) _). vm_compute. reflexivity.
Defined.
End ClusterHandlers.
