(* ===== verification/ClusterLiveness.v ===== *)
(** Elections that are won: a replica of a failed master schedules an election, asks for
    votes and takes over once a majority of the masters, each of them willing, has received
    its request and it has received their answers.  Nothing else has to arrive, and
    nothing is asked of the other nodes and of the other messages in flight. *)
From stdpp Require Import base numbers list gmap.
From stdpp Require Import options.
From S2P Require Import Prelude Cluster ClusterVotes ClusterElection ClusterSlots ClusterInvariant ClusterHandlers.

Module ClusterLiveness.
Import Cluster ClusterVotes ClusterElection ClusterSlots ClusterInvariant ClusterHandlers.

(** ** The header of a packet *)

(** A node after the header of a packet that speaks of the epoch [e]. *)
Record node_heard (e : Z) (a b : clusterNode) : Prop := {
  nh_flags : flags b = flags a;
  nh_slots : slots b = slots a;
  nh_numslots : numslots b = numslots a;
  nh_slaveof : slaveof b = slaveof a;
  nh_link : link b = link a;
  nh_voted : voted_time b = voted_time a;
  nh_epoch : configEpoch b <= Z.max e (configEpoch a)
}.

#[export] Instance node_heard_preorder e : PreOrder (node_heard e).
Proof. split; [intros a; constructor; (done || lia)|]. intros a b c [] []. constructor; (congruence || lia). Qed.

Lemma heard_flag e a b f : node_heard e a b -> has_flag f b = has_flag f a.
Proof. intros []. unfold has_flag. congruence. Qed.

Record state_heard (msg : clusterMsg) (cs cs' : clusterState) : Prop := {
  sh_nodes : nodes_rel (fun _ => node_heard (m_configEpoch msg)) (nodes cs) (nodes cs');
  sh_election : same_election cs cs';
  sh_current : currentEpoch cs <= currentEpoch cs' <= Z.max (currentEpoch cs) (m_currentEpoch msg);
  sh_owner : owner cs' = owner cs;
  sh_doubt : owner_not_claiming_slot cs' = owner_not_claiming_slot cs;
  sh_size : cluster_size cs' = cluster_size cs;
  sh_manual : mf_end (manual cs') = mf_end (manual cs)
}.

#[export] Instance state_heard_preorder msg : PreOrder (state_heard msg).
Proof.
  split; [intros cs; constructor; (done || lia)|].
  intros a b c [] []. constructor; try congruence; [by etrans|by etrans|lia].
Qed.

Lemma heard_upd msg n f cs :
  is_Some (nodes cs !! n) -> (forall nd, node_heard (m_configEpoch msg) nd (f nd)) ->
  ensures (upd n f cs) (state_heard msg cs).
Proof.
  intros [nd Hn] Hf. eapply upd_ensures; [done|]. constructor; cbn; try done; [|lia].
  by eapply (nodes_rel_insert (fun _ => node_heard (m_configEpoch msg))).
Qed.

Lemma heard_current msg e cs :
  currentEpoch cs <= e <= Z.max (currentEpoch cs) (m_currentEpoch msg) -> state_heard msg cs (set_currentEpoch cs e).
Proof. intros He. by constructor. Qed.

Lemma heard_known msg cs cs' n : state_heard msg cs cs' -> is_Some (nodes cs !! n) -> is_Some (nodes cs' !! n).
Proof. intros S. eapply nodes_rel_is_Some, S. Qed.

Lemma process_header_heard env s msg cs nd :
  nodes cs !! s = Some nd -> is_Some (nodes cs !! myself cs) ->
  ensures (process_header env s msg cs) (fun cs' => state_heard msg cs cs' /\
    (nodeInHandshake nd = false -> m_currentEpoch msg <= currentEpoch cs')).
Proof.
  intros Hs Hme. unfold process_header. eapply ensures_bind; [apply (heard_upd msg); [eauto|intros; by constructor; (done || cbn; lia)]|].
  intros c1 S1. destruct (nodes_rel_l _ _ _ _ _ (sh_nodes _ _ _ S1) Hs) as (nd1 & E1 & F1). rewrite E1. cbn [mbind option_bind].
  unfold nodeInHandshake at 1. rewrite (heard_flag _ _ _ _ F1). change (has_flag CLUSTER_NODE_HANDSHAKE nd) with (nodeInHandshake nd).
  destruct (nodeInHandshake nd); [by split|]. cbn zeta.
  set (c2 := if m_currentEpoch msg >? currentEpoch c1 then set_currentEpoch c1 (m_currentEpoch msg) else c1).
  assert (state_heard msg c1 c2 /\ m_currentEpoch msg <= currentEpoch c2) as [S2 He2].
  { subst c2. destruct (Z.gtb_spec (m_currentEpoch msg) (currentEpoch c1)); [|by split].
    split; [apply heard_current; lia|cbn; lia]. }
  assert (is_Some (nodes c2 !! s)) as Hs2 by (eapply heard_known, heard_known; eauto).
  eapply ensures_bind; [apply (heard_upd msg); [done|]|].
  { intros x. constructor; cbn; try done; (destruct (Z.gtb_spec (m_configEpoch msg) (configEpoch x)); cbn; (done || lia)). }
  intros c3 S3. assert (state_heard msg cs c3) as S by (etrans; [done|by etrans]).
  assert (m_currentEpoch msg <= currentEpoch c3) as He3 by (pose proof (sh_current _ _ _ S3); lia).
  destruct (heard_known _ _ _ _ S Hme) as [me Hme3]. rewrite (se_myself _ _ (sh_election _ _ _ S)), Hme3. cbn [mbind option_bind].
  case_match; [|by split]. split; [|done]. etrans; [done|]. constructor; cbn; (done || lia).
Qed.

(** ** Voters *)

(** A request for votes of the candidate [c] in the epoch [e], for the slots [claimed],
    which its master has with the epoch [ce]. *)
Record request (c e claimed ce : Z) (msg : clusterMsg) : Prop := {
  rq_type : m_type msg = CLUSTERMSG_TYPE_FAILOVER_AUTH_REQUEST;
  rq_sender : m_sender msg = c;
  rq_epoch : m_currentEpoch msg = e;
  rq_slots : m_myslots msg = claimed;
  rq_config : m_configEpoch msg = ce
}.

(** A vote of [v]. *)
Record answer (v e : Z) (msg : clusterMsg) : Prop := {
  an_type : m_type msg = CLUSTERMSG_TYPE_FAILOVER_AUTH_ACK;
  an_sender : m_sender msg = v;
  an_epoch : m_currentEpoch msg = e
}.

(** No claimed slot has an owner with a newer epoch. *)
Definition claim_ok (claimed ce : Z) (cs : clusterState) : Prop :=
  forall j o, Z.testbit claimed j = true -> owner cs !! j = Some o ->
    Z.testbit (owner_not_claiming_slot cs) j = true \/
    exists od, nodes cs !! o = Some od /\ configEpoch od <= ce.

(** A master with slots that has not voted in the epoch, nor lately for a replica of this
    master, that knows the candidate as a replica of a failed master, and no newer owner
    of its slots. *)
Record willing (env : serverEnv) (v c e claimed ce : Z) (cs : clusterState) : Prop := {
  wl_myself : myself cs = v;
  wl_me : exists me, nodes cs !! v = Some me /\ nodeIsSlave me = false /\ numslots me <> 0;
  wl_epoch : currentEpoch cs <= e /\ lastVoteEpoch cs <> e;
  wl_candidate : exists nd m md, nodes cs !! c = Some nd /\ nodeInHandshake nd = false /\
    clusterNodeIsMaster nd = false /\ linked nd = true /\ slaveof nd = Some m /\
    nodes cs !! m = Some md /\ nodeFailed md = true /\
    cluster_node_timeout env * 2 <= mstime env - voted_time md;
  wl_claim : claim_ok claimed ce cs
}.

Lemma claim_not_newer k j claimed ce cs : claim_ok claimed ce cs -> claims_newer_slot k j claimed ce cs = Some false.
Proof.
  intros Hc. revert j. induction k as [|k IH]; intros j; cbn [claims_newer_slot]; [done|].
  unfold bitmapTestBit at 1. destruct (Z.testbit claimed j) eqn:Hj; [cbn [negb]|apply IH].
  unfold isSlotUnclaimed, bitmapTestBit. destruct (owner cs !! j) as [o|] eqn:Ho; [cbn [orb]|apply IH].
  destruct (Z.testbit (owner_not_claiming_slot cs) j) eqn:Hd; [apply IH|].
  destruct (Hc j o Hj Ho) as [?|(od & Hod & Hle)]; [congruence|]. cbn [mbind option_bind]. rewrite Hod. cbn [mbind option_bind]. rewrite (proj2 (Z.leb_le _ _) Hle). apply IH.
Qed.

Lemma claim_heard msg cs cs' claimed :
  state_heard msg cs cs' -> claim_ok claimed (m_configEpoch msg) cs -> claim_ok claimed (m_configEpoch msg) cs'.
Proof.
  intros S Hc j o Hj Ho. rewrite (sh_owner _ _ _ S) in Ho. rewrite (sh_doubt _ _ _ S).
  destruct (Hc j o Hj Ho) as [?|(od & Hod & Hle)]; [by left|right].
  destruct (nodes_rel_l _ _ _ _ _ (sh_nodes _ _ _ S) Hod) as (od' & Hod' & F). exists od'. split; [done|].
  pose proof (nh_epoch _ _ _ F). lia.
Qed.

Lemma willing_heard env v c e claimed ce msg cs cs' :
  request c e claimed ce msg -> state_heard msg cs cs' -> willing env v c e claimed ce cs ->
  willing env v c e claimed ce cs'.
Proof.
  intros [_ _ He _ Hce] S [Wv (me & Hme & M1 & M2) [We1 We2] (nd & m & md & Hc & C1 & C2 & C3 & C4 & Hm & D1 & D2) Wc].
  pose proof (sh_nodes _ _ _ S) as Hn. destruct (sh_election _ _ _ S) as [Em El _]. pose proof (sh_current _ _ _ S).
  destruct (nodes_rel_l _ _ _ _ _ Hn Hme) as (me' & Hme' & Fme). destruct (nodes_rel_l _ _ _ _ _ Hn Hc) as (nd' & Hc' & Fc).
  destruct (nodes_rel_l _ _ _ _ _ Hn Hm) as (md' & Hm' & Fm). constructor.
  - congruence.
  - exists me'. unfold nodeIsSlave. rewrite (heard_flag _ _ _ _ Fme), (nh_numslots _ _ _ Fme). done.
  - split; [lia|congruence].
  - exists nd', m, md'. unfold nodeInHandshake, clusterNodeIsMaster, nodeFailed, linked.
    rewrite !(heard_flag _ _ _ _ Fc), (heard_flag _ _ _ _ Fm), (nh_link _ _ _ Fc), (nh_slaveof _ _ _ Fc), (nh_voted _ _ _ Fm). done.
  - subst ce. by eapply claim_heard.
Qed.

(** A willing master votes. *)
Lemma willing_votes env v c e claimed ce msg cs :
  request c e claimed ce msg -> willing env v c e claimed ce cs -> currentEpoch cs = e ->
  exists cs' ack, clusterSendFailoverAuthIfNeeded env c msg cs = Some (cs', [(c, ack)]) /\ answer v e ack /\
    lastVoteEpoch cs' = e /\ currentEpoch cs' = e.
Proof.
  intros [_ _ He Hs Hce] [Wv (me & Hme & M1 & M2) [_ We] (nd & m & md & Hc & _ & C2 & C3 & C4 & Hm & D1 & D2) Wc] Ecur.
  unfold clusterSendFailoverAuthIfNeeded. generalize (Z.to_nat CLUSTER_SLOTS). intros k.
  rewrite Hc, Wv. cbn [mbind option_bind]. rewrite Hme. cbn [mbind option_bind].
  rewrite M1, (proj2 (Z.eqb_neq _ _) M2), He, Ecur, Z.ltb_irrefl, (proj2 (Z.eqb_neq _ _) We), C2. cbn [orb].
  rewrite C4, Hm. cbn [mbind option_bind]. rewrite D1, (proj2 (Z.ltb_ge _ _) D2). cbn [negb andb].
  rewrite Hs, Hce, claim_not_newer by done. cbn [mbind option_bind]. unfold upd. cbn [nodes set_lastVoteEpoch].
  rewrite Hm. cbn [mbind option_bind]. unfold clusterSendFailoverAuth, clusterBuildMessageHdr. cbn [nodes set_nodes myself set_lastVoteEpoch].
  assert (forall x xd, nodes cs !! x = Some xd -> exists xd', <[m := set_voted_time md (mstime env)]> (nodes cs) !! x = Some xd' /\
    flags xd' = flags xd /\ slaveof xd' = slaveof xd /\ link xd' = link xd) as Hup.
  { intros x xd Hx. destruct (decide (m = x)) as [<-|Hne]; [rewrite lookup_insert_eq; simplify_eq|rewrite lookup_insert_ne by done]; eauto. }
  destruct (Hup _ _ Hme) as (me' & Hme' & Fme & _). destruct (Hup _ _ Hc) as (nd' & Hc' & _ & _ & Lc).
  rewrite Wv, Hme'. cbn [mbind option_bind]. unfold nodeIsSlave, has_flag in M1 |- *. rewrite Fme, M1.
  replace (match slaveof me' with Some _ => Some me' | None => Some me' end) with (Some me') by by destruct (slaveof me').
  cbn [mbind option_bind]. unfold clusterSendMessage. cbn [nodes set_nodes set_lastVoteEpoch]. rewrite Hc'. cbn [mbind option_bind].
  unfold linked in *. rewrite Lc, C3. eexists _, _. split; [reflexivity|]. by split; [constructor|].
Qed.

(** The packet of a request, received by a willing master. *)
Lemma request_delivered env v c e claimed ce msg cs :
  request c e claimed ce msg -> willing env v c e claimed ce cs ->
  exists cs' ack, clusterProcessPacket env msg cs = Some (cs', [(c, ack)]) /\ answer v e ack /\
    currentEpoch cs <= currentEpoch cs' /\ lastVoteEpoch cs <> e /\ lastVoteEpoch cs' = e.
Proof.
  intros R W. pose proof (wl_candidate _ _ _ _ _ _ _ W) as (nd & m & md & Hc & Hh & _). unfold clusterProcessPacket.
  rewrite (rq_sender _ _ _ _ _ R), Hc. pose proof (wl_me _ _ _ _ _ _ _ W) as (me & Hme & _).
  destruct (ensures_Some _ _ (process_header_heard env c msg cs nd Hc ltac:(rewrite (wl_myself _ _ _ _ _ _ _ W); eauto)))
    as (c1 & -> & S & He). cbn [mbind option_bind]. rewrite (rq_type _ _ _ _ _ R). pose proof (wl_epoch _ _ _ _ _ _ _ W).
  pose proof (willing_heard _ _ _ _ _ _ _ _ _ R S W) as W1. specialize (He Hh). pose proof (sh_current _ _ _ S).
  rewrite (rq_epoch _ _ _ _ _ R) in *. assert (currentEpoch c1 = e) as Ec by lia.
  destruct (willing_votes _ _ _ _ _ _ _ _ R W1 Ec) as (c2 & ack & E & A & El & Ec2). exists c2, ack.
  split; [done|]. split; [done|]. split; [lia|]. by split; [apply H|].
Qed.

(** ** The candidate *)

(** A replica of a failed master with slots, and no manual failover. *)
Record candidate (c m : Z) (me md : clusterNode) (cs : clusterState) : Prop := {
  cd_wf : cluster_wf cs;
  cd_myself : myself cs = c;
  cd_me : nodes cs !! c = Some me /\ clusterNodeIsMaster me = false /\ slaveof me = Some m;
  cd_master : nodes cs !! m = Some md /\ nodeFailed md = true /\ numslots md <> 0;
  cd_manual : mf_end (manual cs) = 0
}.

Definition data_age (env : serverEnv) : Z :=
  let age := (unixtime env -
    (if repl_connected env then master_lastinteraction env else repl_down_since env)) * 1000 in
  if age >? cluster_node_timeout env then age - cluster_node_timeout env else age.

(** The configuration lets the replica stand for election, with the data it has. *)
Definition may_stand (env : serverEnv) : Prop :=
  cluster_slave_no_failover env = false /\
  (cluster_slave_validity_factor env = 0 \/
   data_age env <= repl_ping_slave_period env * 1000 + cluster_node_timeout env * cluster_slave_validity_factor env).

Definition auth_timeout (env : serverEnv) : Z := Z.max (cluster_node_timeout env * 2) 2000.

Definition in_time (env : serverEnv) (t : Z) : Prop := t <= mstime env <= t + auth_timeout env.

(** What a candidate does, by the time since its last election. *)
Lemma candidate_handles env c m me md cs :
  candidate c m me md cs -> may_stand env ->
  clusterHandleSlaveFailover env cs =
    if mstime env - failover_auth_time (failover cs) >? auth_timeout env * 2 then
      cs ← schedule_election env cs; Some (cs, [], false)
    else
      cs' ← update_rank env cs;
      if mstime env <? failover_auth_time (failover cs')
      then Some (set_cant_reason CLUSTER_CANT_FAILOVER_WAITING_DELAY cs', [], false)
      else if mstime env - failover_auth_time (failover cs) >? auth_timeout env
      then Some (set_cant_reason CLUSTER_CANT_FAILOVER_EXPIRED cs', [], false)
      else if failover_auth_sent (failover cs') =? 0 then
        '(cs, out) ← start_election env cs';
        Some (cs, out, false)
      else if failover_auth_count (failover cs') >=? cluster_size cs / 2 + 1 then
        cs ← (if configEpoch me <? failover_auth_epoch (failover cs')
              then upd (myself cs') (fun nd => set_configEpoch nd (failover_auth_epoch (failover cs'))) cs'
              else Some cs');
        cs ← clusterFailoverReplaceYourMaster env cs;
        Some (cs, [], true)
      else Some (set_cant_reason CLUSTER_CANT_FAILOVER_WAITING_VOTES cs', [], false).
Proof.
  intros [_ Em (Hme & M & Ho) (Hm & F & N) Emf] [Hf Hd]. unfold clusterHandleSlaveFailover.
  rewrite Em, Hme. cbn [mbind option_bind]. rewrite Ho, Hm. cbn [mbind option_bind].
  rewrite M, F, Emf, Hf, (proj2 (Z.eqb_neq _ _) N). cbn [negb andb orb Z.eqb].
  assert (negb (cluster_slave_validity_factor env =? 0) &&
    (data_age env >? repl_ping_slave_period env * 1000 + cluster_node_timeout env * cluster_slave_validity_factor env) = false) as E.
  { destruct Hd as [->|Hd]; [done|]. rewrite Z.gtb_ltb, (proj2 (Z.ltb_ge _ _) Hd). apply andb_false_r. }
  unfold data_age in E. cbv zeta in E. rewrite E. reflexivity.
Qed.

Lemma slave_rank_mono l o o' cs r r' :
  o <= o' -> slave_rank l o cs = Some r -> slave_rank l o' cs = Some r' -> r' <= r.
Proof.
  intros Ho. revert r r'. induction l as [|s l IH]; intros r r'; cbn [slave_rank]; [intros [= <-] [= <-]; lia|].
  destruct (nodes cs !! s) as [nd|]; cbn [mbind option_bind]; [|done].
  destruct (slave_rank l o cs) as [k|]; [|done]. destruct (slave_rank l o' cs) as [k'|]; [|done]. cbn [mbind option_bind].
  intros [= <-] [= <-]. specialize (IH k k' eq_refl eq_refl). destruct (_ && negb _); cbn [andb]; [|lia].
  destruct (Z.gtb_spec (repl_offset nd) o), (Z.gtb_spec (repl_offset nd) o'); lia.
Qed.

Lemma get_rank_mono env env' cs r r' :
  slave_repl_offset env <= slave_repl_offset env' ->
  clusterGetSlaveRank env cs = Some r -> clusterGetSlaveRank env' cs = Some r' -> r' <= r.
Proof.
  intros Ho. unfold clusterGetSlaveRank. destruct (nodes cs !! myself cs) as [me|]; cbn [mbind option_bind]; [|done].
  destruct (cassert _); cbn [mbind option_bind]; [|done]. destruct (slaveof me) as [m|]; [|intros [= <-] [= <-]; lia].
  destruct (nodes cs !! m); cbn [mbind option_bind]; [|done]. by apply slave_rank_mono.
Qed.

(** Ranks are about the table of nodes. *)
Lemma get_rank_failover env cs f : clusterGetSlaveRank env (set_failover cs f) = clusterGetSlaveRank env cs.
Proof.
  assert (forall l o, slave_rank l o (set_failover cs f) = slave_rank l o cs) as E
    by (intros l o; induction l as [|s l IH]; cbn; [done|by rewrite IH]).
  unfold clusterGetSlaveRank. cbn [nodes myself set_failover]. destruct (nodes cs !! myself cs); cbn; [|done].
  destruct (cassert _); cbn; [|done]. destruct (slaveof _); cbn; [|done]. destruct (nodes cs !! _); cbn; [apply E|done].
Qed.

(** The time a new election is scheduled for. *)
Definition election_time (env : serverEnv) (rank : Z) : Z := mstime env + 500 + random env `mod` 500 + rank * 1000.

(** The state of a candidate with a scheduled election. *)
Definition scheduled (t rank : Z) (cs : clusterState) : clusterState :=
  set_failover cs (mk_failover t 0 0 rank (failover_auth_epoch (failover cs)) (cant_failover_reason (failover cs))).

Lemma candidate_schedules env c m me md cs rank :
  candidate c m me md cs -> may_stand env -> auth_timeout env * 2 < mstime env - failover_auth_time (failover cs) ->
  clusterGetSlaveRank env cs = Some rank ->
  clusterHandleSlaveFailover env cs = Some (scheduled (election_time env rank) rank cs, [], false).
Proof.
  intros C Hs Ht Hr. rewrite (candidate_handles _ _ _ _ _ _ C Hs).
  rewrite Z.gtb_ltb, (proj2 (Z.ltb_lt _ _) Ht). unfold schedule_election. rewrite Hr. cbn [mbind option_bind].
  by rewrite (cd_manual _ _ _ _ _ C).
Qed.

Lemma candidate_failover c m me md cs f : candidate c m me md cs -> candidate c m me md (set_failover cs f).
Proof. intros [Hwf Em Hme Hm Emf]. constructor; try done. by apply (good_fields cs). Qed.

Lemma in_time_tests env t : in_time env t ->
  (mstime env - t >? auth_timeout env * 2) = false /\ (mstime env <? t) = false /\ (mstime env - t >? auth_timeout env) = false.
Proof. unfold in_time, auth_timeout. intros Ht. repeat split; lia. Qed.

Definition asked (nd : clusterNode) : Prop :=
  has_flag (Z.lor CLUSTER_NODE_MYSELF CLUSTER_NODE_HANDSHAKE) nd = false /\ linked nd = true.

Lemma broadcast_asks v vd msg cs :
  nodes cs !! v = Some vd -> asked vd -> (v, msg) ∈ clusterBroadcastMessage msg cs.
Proof.
  intros Hv%elem_of_map_to_list [F L]. unfold clusterBroadcastMessage, node_list.
  induction (map_to_list (nodes cs)) as [|[x xd] l IH]; cbn [foldr]; [by apply not_elem_of_nil in Hv|].
  apply elem_of_cons in Hv as [[= <- <-]|Hv]; [rewrite F, L; by left|].
  destruct (has_flag _ xd); [by apply IH|]. destruct (linked xd); [right|]; by apply IH.
Qed.

(** The candidate asks for votes for the next epoch. *)
Lemma candidate_asks env0 env c m me md cs rank t :
  candidate c m me md cs -> may_stand env -> in_time env t -> 0 <= currentEpoch cs < 2 ^ 64 - 1 ->
  slave_repl_offset env0 <= slave_repl_offset env -> clusterGetSlaveRank env0 cs = Some rank ->
  let e := currentEpoch cs + 1 in
  exists cs' out msg, clusterHandleSlaveFailover env (scheduled t rank cs) = Some (cs', out, false) /\
    candidate c m me md cs' /\ currentEpoch cs' = e /\
    nodes cs' = nodes cs /\ owner cs' = owner cs /\ cluster_size cs' = cluster_size cs /\
    failover_auth_time (failover cs') = t /\ failover_auth_count (failover cs') = 0 /\
    failover_auth_sent (failover cs') = 1 /\ failover_auth_epoch (failover cs') = e /\
    request c e (slots md) (configEpoch md) msg /\
    forall v vd, nodes cs !! v = Some vd -> asked vd -> (v, msg) ∈ out.
Proof.
  intros C Hs Ht He Ho Hr e. pose proof (candidate_failover _ _ _ _ _ (failover (scheduled t rank cs)) C) as C1.
  change (set_failover cs (failover (scheduled t rank cs))) with (scheduled t rank cs) in C1.
  rewrite (candidate_handles _ _ _ _ _ _ C1 Hs). destruct (in_time_tests _ _ Ht) as (T1 & T2 & T3).
  cbn [scheduled set_failover failover failover_auth_time]. rewrite T1, T3.
  pose proof C as [Hwf Em (Hme & M & Hso) (Hm & F & N) Emf].
  destruct (ensures_Some _ _ (clusterGetSlaveRank_ok env cs me Hwf ltac:(by rewrite Em) M)) as (r & Er & _).
  pose proof (get_rank_mono _ _ _ _ _ Ho Hr Er) as Hle.
  unfold update_rank. cbn [scheduled set_failover failover failover_auth_sent manual]. rewrite Emf. cbn [Z.eqb andb].
  rewrite (get_rank_failover env cs _ : clusterGetSlaveRank env (scheduled t rank cs) = _), Er. cbn [mbind option_bind failover failover_auth_rank scheduled set_failover].
  rewrite Z.gtb_ltb, (proj2 (Z.ltb_ge _ _) Hle). cbn [mbind option_bind].
  change (failover (scheduled t rank cs)) with (mk_failover t 0 0 rank (failover_auth_epoch (failover cs)) (cant_failover_reason (failover cs))).
  cbn [failover_auth_time failover_auth_sent]. rewrite T2. cbn [Z.eqb]. unfold start_election, next_epoch. cbv zeta. unfold clusterRequestFailoverAuth, clusterBuildMessageHdr.
  cbn [nodes scheduled set_failover set_currentEpoch currentEpoch myself manual failover failover_auth_time failover_auth_count
    failover_auth_sent failover_auth_rank cant_failover_reason failover_auth_epoch].
  assert (u64 (currentEpoch cs + 1) = e) as -> by (apply wrapu_small; unfold in_u; lia).
  pose proof Hwf as [_ (me0 & Hme0 & Hrole & _)]. rewrite Em, Hme in Hme0. injection Hme0 as <-. rewrite M in Hrole. cbn [negb] in Hrole.
  rewrite Em, Hme. cbn [mbind option_bind]. rewrite Hso, Hrole, Hm. cbn [mbind option_bind].
  eexists _, _, (mk_msg CLUSTERMSG_TYPE_FAILOVER_AUTH_REQUEST c e (configEpoch md) (slots md) (Some m) (flags me) (addr me)
    (u64 (slave_repl_offset env)) (clusterNodeIsMaster me && negb (mf_end (manual cs) =? 0)) false []).
  split; [reflexivity|]. split.
  { constructor; [by apply (good_fields cs)|done..]. }
  do 8 (split; [reflexivity|]). split; [by constructor|]. intros v vd Hv Ha.
  rewrite Emf. by eapply broadcast_asks.
Qed.

(** A candidate that asked for votes in the epoch [e] and has counted [n]. *)
Record running (c m e t n size : Z) (ow : gmap Z Z) (cs : clusterState) : Prop := {
  rn_candidate : exists me md, candidate c m me md cs;
  rn_current : currentEpoch cs = e;
  rn_owner : owner cs = ow;
  rn_size : cluster_size cs = size;
  rn_time : failover_auth_time (failover cs) = t;
  rn_count : failover_auth_count (failover cs) = n;
  rn_sent : failover_auth_sent (failover cs) = 1;
  rn_epoch : failover_auth_epoch (failover cs) = e
}.

(** A node whose vote counts. *)
Definition elector (cs : clusterState) (v : Z) : Prop :=
  exists vd, nodes cs !! v = Some vd /\ clusterNodeIsMaster vd = true /\ 0 < numslots vd /\ nodeInHandshake vd = false.

Lemma elector_heard msg cs cs' v : state_heard msg cs cs' -> elector cs v -> elector cs' v.
Proof.
  intros S (vd & Hv & H1 & H2 & H3). destruct (nodes_rel_l _ _ _ _ _ (sh_nodes _ _ _ S) Hv) as (vd' & Hv' & F).
  exists vd'. unfold clusterNodeIsMaster, nodeInHandshake. by rewrite !(heard_flag _ _ _ _ F), (nh_numslots _ _ _ F).
Qed.

Lemma candidate_heard msg c m me md cs cs' :
  state_heard msg cs cs' -> cluster_wf cs' -> candidate c m me md cs -> exists me' md', candidate c m me' md' cs'.
Proof.
  intros S Hwf [_ Em (Hme & M & Ho) (Hm & F & N) Emf]. pose proof (sh_nodes _ _ _ S) as Hn.
  destruct (nodes_rel_l _ _ _ _ _ Hn Hme) as (me' & Hme' & F1). destruct (nodes_rel_l _ _ _ _ _ Hn Hm) as (md' & Hm' & F2).
  exists me', md'. unfold clusterNodeIsMaster, nodeFailed in *. constructor.
  - done.
  - by rewrite (se_myself _ _ (sh_election _ _ _ S)).
  - unfold clusterNodeIsMaster. by rewrite (heard_flag _ _ _ _ F1), (nh_slaveof _ _ _ F1).
  - unfold nodeFailed. by rewrite (heard_flag _ _ _ _ F2), (nh_numslots _ _ _ F2).
  - by rewrite (sh_manual _ _ _ S).
Qed.

(** A vote is received and counted. *)
Lemma answer_counted env c m e t n size ow v msg cs :
  running c m e t n size ow cs -> elector cs v -> answer v e msg -> - 2 ^ 31 <= n + 1 < 2 ^ 31 ->
  exists cs', clusterProcessPacket env msg cs = Some (cs', []) /\ running c m e t (n + 1) size ow cs' /\
    lastVoteEpoch cs' = lastVoteEpoch cs /\ forall x, elector cs x -> elector cs' x.
Proof.
  intros [(me & md & C) Rc Ro Rz Rt Rn Rs Re] Hel [At As Ae] Hn. pose proof Hel as (vd & Hv & _).
  assert (is_Some (nodes cs !! myself cs)) as Hme by (rewrite (cd_myself _ _ _ _ _ C), (proj1 (cd_me _ _ _ _ _ C)); eauto).
  unfold clusterProcessPacket. rewrite As, Hv.
  destruct (ensures_Some _ _ (process_header_heard env v msg cs vd Hv Hme)) as (c1 & E1 & S & _).
  destruct (ensures_Some _ _ (process_header_ok env v msg cs (cd_wf _ _ _ _ _ C) ltac:(eauto))) as (c1' & E1' & G).
  rewrite E1 in E1'. injection E1' as <-. rewrite E1. cbn [mbind option_bind]. rewrite At.
  pose proof (sh_election _ _ _ S) as [Em El Ef]. pose proof (elector_heard _ _ _ _ S Hel) as (vd1 & Hv1 & V1 & V2 & V3).
  unfold process_auth_ack. rewrite Hv1. cbn [mbind option_bind]. rewrite V1, V3, Ae, Ef, Re, Rn. cbn [andb].
  rewrite Z.gtb_ltb, (proj2 (Z.ltb_lt _ _) V2), Z.geb_leb, Z.leb_refl. cbn [andb mbind option_bind].
  eexists. split; [reflexivity|]. split.
  - pose proof (sh_current _ _ _ S) as Hc. rewrite Ae, Rc in Hc. constructor; cbn.
    + destruct (candidate_heard _ _ _ _ _ _ _ S (gd_wf _ _ G) C) as (me' & md' & C'). exists me', md'. by apply candidate_failover.
    + lia.
    + by rewrite (sh_owner _ _ _ S).
    + by rewrite (sh_size _ _ _ S).
    + done.
    + apply wraps_small; [lia|]. exact Hn.
    + done.
    + done.
  - split; [done|]. intros x Hx. by apply (elector_heard _ _ _ _ S).
Qed.

(** With enough votes the candidate takes over the slots of its master. *)
Lemma candidate_wins env c m e t n size ow cs :
  running c m e t n size ow cs -> may_stand env -> in_time env t -> size / 2 + 1 <= n ->
  exists cs' me', clusterHandleSlaveFailover env cs = Some (cs', [], true) /\ currentEpoch cs' = e /\
    cluster_wf cs' /\ nodes cs' !! c = Some me' /\ clusterNodeIsMaster me' = true /\ slaveof me' = None /\
    owner cs' = (fun o => if decide (o = m) then c else o) <$> ow.
Proof.
  intros [(me & md & C) Rc Ro Rz Rt Rn Rs Re] Hs Ht Hq. rewrite (candidate_handles _ _ _ _ _ _ C Hs).
  destruct (in_time_tests _ _ Ht) as (T1 & T2 & T3). unfold update_rank. rewrite Rt, T1, T3, Rs. cbn [Z.eqb andb mbind option_bind].
  rewrite Rt, T2, Rs, Rn, Rz, Re. cbn [Z.eqb]. rewrite Z.geb_leb, (proj2 (Z.leb_le _ _) Hq).
  pose proof C as [Hwf Em (Hme & M & Ho) _ _].
  assert (ensures (if configEpoch me <? e then upd (myself cs) (fun nd => set_configEpoch nd e) cs else Some cs)
    (fun c2 => good cs c2 /\ owner c2 = owner cs /\ same_votes cs c2 /\
       exists me2, nodes c2 !! c = Some me2 /\ clusterNodeIsMaster me2 = false /\ slaveof me2 = Some m)) as H.
  { destruct (configEpoch me <? e).
    - pose proof (good_upd (myself cs) (fun nd => set_configEpoch nd e) cs Hwf ltac:(rewrite Em; eauto) ltac:(quiet_fields)) as G.
      destruct (ensures_Some _ _ G) as (c2 & E & G2). rewrite E. pose proof (upd_votes _ _ _ _ E) as V. unfold upd in E.
      rewrite Em, Hme in E. cbn in E. injection E as <-. split; [done|]. split; [done|]. split; [done|].
      exists (set_configEpoch me e). cbn. by rewrite lookup_insert_eq.
    - split; [by apply good_refl|]. split; [done|]. split; [done|]. eauto. }
  destruct (ensures_Some _ _ H) as (c2 & E2 & G2 & Eo & V2 & me2 & Hme2 & M2 & Ho2). rewrite E2. cbn [mbind option_bind].
  assert (myself c2 = c) as Em2 by (rewrite (sn_myself _ _ (gd_names _ _ G2)); done).
  destruct (ensures_Some _ _ (clusterFailoverReplaceYourMaster_ok env c2 me2 m (gd_wf _ _ G2) ltac:(by rewrite Em2) M2 Ho2))
    as (c3 & E3 & G3 & Eo3 & me3 & Hme3 & M3 & Ho3). rewrite E3. cbn [mbind option_bind]. rewrite Em2 in *.
  exists c3, me3. split; [done|]. split.
  { pose proof (clusterFailoverReplaceYourMaster_votes _ _ _ E3) as V3. destruct V2, V3. congruence. }
  split; [apply G3|]. split; [done|]. split; [done|]. split; [done|]. by rewrite Eo3, Eo, Ro.
Qed.

(** ** Runs, event by event *)

(** A node is called to handle its failover, or receives a message that is in flight, with
    the clock and the configuration it then has. *)
Inductive event :=
| called (n : Z) (env : serverEnv)
| received (n : Z) (msg : clusterMsg) (env : serverEnv).

Abbreviation run_state := (world * list vote * list win)%type.

Definition occurs (timely : bool) (ev : event) (st : run_state) : option run_state :=
  match ev with
  | called n env => act timely (act_failover n env) st
  | received n msg env =>
    '(i, _) ← list_find (fun x => x = (n, msg)) (w_net st.1.1);
    act timely (act_deliver i env) st
  end.

(** What the events lead to, when each of them can happen. *)
Fixpoint happen (timely : bool) (evs : list event) (st : run_state) : option run_state :=
  match evs with
  | [] => Some st
  | ev :: evs => st ← occurs timely ev st; happen timely evs st
  end.

Lemma happen_app b evs evs' st : happen b (evs ++ evs') st = st ← happen b evs st; happen b evs' st.
Proof.
  revert st. induction evs as [|ev evs IH]; intros st; cbn [happen app]; [done|].
  destruct (occurs b ev st) as [st'|]; cbn [mbind option_bind]; [apply IH|done].
Qed.

Lemma happen_reach b w0 evs w H W w' H' W' :
  happen b evs (w, H, W) = Some (w', H', W') -> reach b w0 w H W -> reach b w0 w' H' W'.
Proof.
  revert w H W. induction evs as [|ev evs IH]; intros w H W; cbn [happen]; [by intros [= -> -> ->]|].
  intros ([[w1 H1] W1] & E & Hh)%bind_Some Hr. apply (IH _ _ _ Hh). clear IH Hh.
  assert (exists a, act b a (w, H, W) = Some (w1, H1, W1)) as [a Ha].
  { destruct ev as [n env|n msg env]; cbn [occurs] in E; [by eexists|].
    apply bind_Some in E as ([i x] & _ & E). by eexists. }
  apply (play_reach b w0 [a] w H W); [|done]. cbn [play]. by rewrite Ha.
Qed.

Lemma called_occurs b n env w H W cs cs' out (won : bool) :
  w_nodes w !! n = Some cs -> clusterHandleSlaveFailover env cs = Some (cs', out, won) -> currentEpoch cs <= currentEpoch cs' ->
  occurs b (called n env) (w, H, W) = Some (mk_world (<[n := cs']> (w_nodes w)) (w_net w ++ out), H,
    if won then (failover_auth_epoch (failover cs), n, cluster_size cs) :: W else W).
Proof.
  intros Hn Hp Hle. cbn [occurs act]. rewrite Hn. cbn [mbind option_bind]. rewrite Hp. cbn [mbind option_bind].
  by rewrite (proj2 (Z.leb_le _ _) Hle).
Qed.

(** A message that is received leaves the others in flight. *)
Lemma received_occurs b n msg env w H W cs cs' out :
  (n, msg) ∈ w_net w -> w_nodes w !! n = Some cs ->
  clusterProcessPacket env msg cs = Some (cs', out) -> currentEpoch cs <= currentEpoch cs' ->
  ~ stale_vote msg cs cs' ->
  exists net, occurs b (received n msg env) (w, H, W) =
      Some (mk_world (<[n := cs']> (w_nodes w)) net, new_votes n msg cs cs' ++ H, W) /\
    (forall x, x ∈ w_net w -> x <> (n, msg) -> x ∈ net) /\ forall x, x ∈ out -> x ∈ net.
Proof.
  intros Hin Hn Hp Hle Hs. destruct (list_find_elem_of (fun x => x = (n, msg)) _ _ Hin eq_refl) as [[i y] Hf].
  pose proof Hf as (Hi & -> & _)%list_find_Some. exists (take i (w_net w) ++ drop (S i) (w_net w) ++ out).
  cbn [occurs fst]. rewrite Hf. cbn [mbind option_bind act]. rewrite Hi. cbn [mbind option_bind]. rewrite Hn. cbn [mbind option_bind].
  rewrite Hp. cbn [mbind option_bind]. rewrite (proj2 (Z.leb_le _ _) Hle), bool_decide_false by done.
  rewrite andb_false_r. cbn [negb andb]. split; [done|]. split.
  - intros x Hx Hne. rewrite <- (take_drop_middle _ _ _ Hi) in Hx. apply elem_of_app in Hx as [Hx|[->|Hx]%elem_of_cons]; [|done|]; rewrite !elem_of_app; auto.
  - intros x Hx. rewrite !elem_of_app. auto.
Qed.

Section rounds.
  Context (b : bool) (W : list win) (c m e : Z).

(** The willing voters receive the request, and vote. *)
Lemma requests_round claimed ce msg V w H :
  request c e claimed ce msg -> NoDup V.*1 -> c ∉ V.*1 ->
  (forall v env, (v, env) ∈ V -> (v, msg) ∈ w_net w /\
    exists csv, w_nodes w !! v = Some csv /\ willing env v c e claimed ce csv) ->
  exists w' H', happen b ((fun x => received x.1 msg x.2) <$> V) (w, H, W) = Some (w', H', W) /\
    w_nodes w' !! c = w_nodes w !! c /\ H ⊆ H' /\
    (forall x, x ∈ w_net w -> x.1 ∉ V.*1 -> x ∈ w_net w') /\
    (forall v, v ∈ V.*1 -> (e, v, c) ∈ H' /\ exists ack, (c, ack) ∈ w_net w' /\ answer v e ack).
Proof.
  intros R. revert w H. induction V as [|[v env] V IH]; intros w H Hnd Hc HV.
  { exists w, H. split; [done|]. split; [done|]. split; [done|]. split; [done|]. by intros v ?%not_elem_of_nil. }
  cbn [fmap list_fmap fst] in Hnd, Hc. apply NoDup_cons in Hnd as [Hv Hnd]. apply not_elem_of_cons in Hc as [Hcv Hc].
  destruct (HV v env ltac:(left)) as (Hin & csv & Hn & Hw).
  destruct (request_delivered _ _ _ _ _ _ _ _ R Hw) as (cs' & ack & Hp & A & Hle & El & El').
  destruct (received_occurs b _ _ _ _ H W _ _ _ Hin Hn Hp Hle) as (net & Hr1 & Hkeep & Hout).
  { intros [Ht _]. by rewrite (rq_type _ _ _ _ _ R) in Ht. }
  assert (new_votes v msg csv cs' = [(e, v, c)]) as Ev
    by (unfold new_votes; by rewrite El', (rq_sender _ _ _ _ _ R), (proj2 (Z.eqb_neq _ _)) by congruence).
  rewrite Ev in Hr1. destruct (IH (mk_world (<[v := cs']> (w_nodes w)) net) ([(e, v, c)] ++ H) Hnd Hc) as (w' & H' & Hr' & Ec & HH & Hk & Hvotes).
  { intros v' env' Hin'. assert (v' ∈ V.*1) as Hv' by (apply list_elem_of_fmap; by exists (v', env')).
    destruct (HV v' env' ltac:(by right)) as (Hreq & csv' & Hn' & Hw'). cbn [w_net w_nodes]. split.
    - apply Hkeep; [done|]. intros [= ->]. done.
    - exists csv'. rewrite lookup_insert_ne by (intros ->; done). done. }
  exists w', H'. cbn [fmap list_fmap fst snd happen]. rewrite Hr1. cbn [mbind option_bind].
  split; [done|]. split; [rewrite Ec; cbn; by rewrite lookup_insert_ne|]. split; [|split].
  - intros x Hx. apply HH. by right.
  - intros x Hx [Hx1 Hx2]%not_elem_of_cons. apply Hk; [|done]. apply Hkeep; [done|]. by intros ->.
  - intros v' [->|Hv']%elem_of_cons; [|by apply Hvotes]. split; [apply HH; by left|].
    exists ack. split; [|done]. apply Hk; [|done]. apply Hout. by left.
Qed.

(** The candidate receives the answers, in any order and at any time, and counts them. *)
Lemma answers_round t size ow A w H n cs :
  w_nodes w !! c = Some cs -> running c m e t n size ow cs ->
  0 <= n -> n + Z.of_nat (length A) < 2 ^ 31 -> NoDup A.*1 ->
  (forall v, v ∈ A.*1 -> elector cs v /\ exists ack, (c, ack) ∈ w_net w /\ answer v e ack) ->
  exists acks w' H' cs', Forall2 (fun x ack => answer x.1 e ack) A acks /\
    happen b (zip_with (fun (x : Z * serverEnv) ack => received c ack x.2) A acks) (w, H, W) = Some (w', H', W) /\
    w_nodes w' !! c = Some cs' /\ running c m e t (n + Z.of_nat (length A)) size ow cs' /\ H ⊆ H'.
Proof.
  revert w H n cs. induction A as [|[v env] A IH]; intros w H n cs Hn Hrun H0 Hlen Hnd HV.
  { exists [], w, H, cs. split; [constructor|]. cbn. by rewrite Z.add_0_r. }
  cbn [length] in Hlen. cbn [fmap list_fmap fst] in Hnd, HV. apply NoDup_cons in Hnd as [Hv Hnd].
  destruct (HV v ltac:(left)) as (Hel & ack & Hin & Ha).
  destruct (answer_counted env _ _ _ _ _ _ _ _ _ _ Hrun Hel Ha ltac:(lia)) as (cs1 & Hp & Hrun1 & El & Hel1).
  assert (currentEpoch cs <= currentEpoch cs1) as Hle by (rewrite (rn_current _ _ _ _ _ _ _ _ Hrun), (rn_current _ _ _ _ _ _ _ _ Hrun1); done).
  destruct (received_occurs b _ _ _ _ H W _ _ _ Hin Hn Hp Hle) as (net & Hr1 & Hkeep & _).
  { intros (_ & Hs & _). by rewrite (rn_sent _ _ _ _ _ _ _ _ Hrun) in Hs. }
  destruct (IH (mk_world (<[c := cs1]> (w_nodes w)) net) (new_votes c ack cs cs1 ++ H) (n + 1) cs1 ltac:(apply lookup_insert_eq) Hrun1 ltac:(lia) ltac:(lia) Hnd)
    as (acks & w' & H' & cs' & Hacks & Hr' & Hc' & Hrun' & HH).
  { intros v' Hv'. destruct (HV v' ltac:(by right)) as (Hel' & ack' & Hin' & A'). split; [by apply Hel1|].
    exists ack'. split; [|done]. apply Hkeep; [done|]. intros [= ->]. apply Hv.
    by rewrite <- (an_sender _ _ _ Ha), (an_sender _ _ _ A'). }
  exists (ack :: acks), w', H', cs'. split; [by constructor|]. cbn [zip_with happen fst snd]. rewrite Hr1. cbn [mbind option_bind].
  split; [done|]. split; [done|]. split.
  - replace (n + Z.of_nat (length ((v, env) :: A))) with (n + 1 + Z.of_nat (length A)) by (cbn [length]; lia). done.
  - intros x Hx. apply HH, elem_of_app. by right.
Qed.
End rounds.

(** ** Elections that are won *)

(** C6: A replica of a failed master that a majority supports takes over.  Let [c] be a
    replica of the failed master [m], in any state the cluster reached in which its own state
    is well formed, no manual failover is going on and its last election is over, whose data
    are recent enough and whose configuration lets it stand; and let [V] be a majority of
    masters it has links to, each of which has not voted in the next epoch nor lately for a
    replica of [m], agrees that [m] failed and knows no newer owner of its slots.  Let [c] be
    called at any time; let [t] be the time that this call schedules the election for, by
    the rank of [c]; let it be called again at a time from [t] to [t] and the timeout, its
    replication offset being no lower than before; let each of [V] then receive the request
    that this call sent, each with its clock, and [c] receive their answers, in any order;
    and let [c] be called a last time, from [t] to [t] and the timeout.  Then these events
    can happen, one after the other, and by them [c] wins the epoch with the votes of [V], and
    becomes a master that owns exactly the slots that were its own or those of [m].  The
    epoch stays below 2^64, and the votes below 2^31. *)
Theorem election_won b w0 w H W c m me md cs rank env0 env1 env2 (V A : list (Z * serverEnv)) :
  reach b w0 w H W -> w_nodes w !! c = Some cs -> candidate c m me md cs -> 0 <= currentEpoch cs < 2 ^ 64 - 1 ->
  let e := currentEpoch cs + 1 in let t := election_time env0 rank in
  may_stand env0 -> may_stand env1 -> may_stand env2 ->
  auth_timeout env0 * 2 < mstime env0 - failover_auth_time (failover cs) ->
  clusterGetSlaveRank env0 cs = Some rank -> slave_repl_offset env0 <= slave_repl_offset env1 ->
  in_time env1 t -> in_time env2 t ->
  NoDup V.*1 -> cluster_size cs / 2 + 1 <= Z.of_nat (length V) < 2 ^ 31 -> A.*1 ≡ₚ V.*1 ->
  (forall v env, (v, env) ∈ V -> v <> c /\ elector cs v /\
    (exists vd, nodes cs !! v = Some vd /\ asked vd) /\
    exists csv, w_nodes w !! v = Some csv /\ willing env v c e (slots md) (configEpoch md) csv) ->
  exists req acks w' H' cs' me',
    request c e (slots md) (configEpoch md) req /\ Forall2 (fun x ack => answer x.1 e ack) A acks /\
    happen b ([called c env0; called c env1] ++ ((fun x => received x.1 req x.2) <$> V) ++
      zip_with (fun (x : Z * serverEnv) ack => received c ack x.2) A acks ++ [called c env2]) (w, H, W) =
      Some (w', H', (e, c, cluster_size cs) :: W) /\
    reach b w0 w' H' ((e, c, cluster_size cs) :: W) /\
    (forall v, v ∈ V.*1 -> (e, v, c) ∈ H') /\
    w_nodes w' !! c = Some cs' /\ cluster_wf cs' /\
    nodes cs' !! c = Some me' /\ clusterNodeIsMaster me' = true /\ slaveof me' = None /\
    owner cs' = (fun o => if decide (o = m) then c else o) <$> owner cs.
Proof.
  intros Hr Hc C He e t S0 S1 S2 Hold Hrank Hoff T1 T2 Hnd Hq HA HV.
  assert (c ∉ V.*1) as HcV.
  { intros ([v env] & Ev & Hin)%list_elem_of_fmap. cbn in Ev. subst v. by destruct (HV _ _ Hin). }
  assert (length A = length V) as HlA by (rewrite <- (length_fmap fst A), HA; apply length_fmap).
  pose proof (candidate_schedules _ _ _ _ _ _ _ C S0 Hold Hrank) as E0.
  pose proof (called_occurs b _ _ _ H W _ _ _ _ Hc E0 ltac:(done)) as Hr1. rewrite app_nil_r in Hr1.
  destruct (candidate_asks env0 env1 c m me md cs rank t C S1 T1 He Hoff Hrank)
    as (cs1 & out & msg & E1 & C1 & Ec1 & En1 & Eo1 & Ez1 & Et1 & En & Es1 & Ee1 & R & Hout).
  assert (currentEpoch (scheduled t rank cs) <= currentEpoch cs1) as Hle1 by (rewrite Ec1; cbn; lia).
  pose proof (called_occurs b c env1 (mk_world (<[c := scheduled t rank cs]> (w_nodes w)) (w_net w)) H W _ _ _ _
    (lookup_insert_eq _ _ _) E1 Hle1) as Hr2.
  cbn [w_nodes w_net] in Hr2. rewrite insert_insert_eq in Hr2.
  destruct (requests_round b W c e _ _ _ V (mk_world (<[c := cs1]> (w_nodes w)) (w_net w ++ out)) H R Hnd HcV) as (w3 & H3 & Hr3 & Hc3 & HH3 & _ & Hacks).
  { intros v env Hin. destruct (HV v env Hin) as (Hne & _ & (vd & Hvd & Ha) & csv & Hcsv & Hw). cbn [w_net w_nodes].
    split; [apply elem_of_app; right; by eapply Hout|]. exists csv. by rewrite lookup_insert_ne. }
  cbn [w_nodes] in Hc3. rewrite lookup_insert_eq in Hc3.
  assert (running c m e t 0 (cluster_size cs) (owner cs) cs1) as Hrun by (constructor; eauto).
  destruct (answers_round b W _ _ _ _ _ _ A w3 H3 0 cs1 Hc3 Hrun ltac:(lia) ltac:(lia) ltac:(by rewrite HA))
    as (acks & w4 & H4 & cs4 & Hfor & Hr4 & Hc4 & Hrun4 & HH4).
  { intros v Hv. rewrite HA in Hv. destruct (Hacks v Hv) as (_ & Hack). split; [|done].
    apply list_elem_of_fmap in Hv as ([v' env] & -> & Hin).
    destruct (HV _ _ Hin) as (_ & Hel & _). unfold elector. by rewrite En1. }
  destruct (candidate_wins env2 _ _ _ _ _ _ _ _ Hrun4 S2 T2 ltac:(lia))
    as (cs5 & me5 & E5 & Ec5 & W5 & Hme5 & M5 & So5 & Eo5).
  pose proof (called_occurs b _ _ _ H4 W _ _ _ _ Hc4 E5 ltac:(rewrite Ec5, (rn_current _ _ _ _ _ _ _ _ Hrun4); done)) as Hr5.
  cbn iota in Hr5. rewrite (rn_epoch _ _ _ _ _ _ _ _ Hrun4), (rn_size _ _ _ _ _ _ _ _ Hrun4) in Hr5.
  exists msg, acks, (mk_world (<[c := cs5]> (w_nodes w4)) (w_net w4 ++ [])), H4, cs5, me5. split; [done|]. split; [done|].
  match goal with |- ?P /\ _ => assert P as Hh end.
  { rewrite happen_app. cbn [happen]. rewrite Hr1. cbn [mbind option_bind]. fold t. rewrite Hr2. cbn [mbind option_bind].
    rewrite happen_app, Hr3. cbn [mbind option_bind]. rewrite happen_app, Hr4. cbn [mbind option_bind happen]. by rewrite Hr5. }
  split; [done|]. split; [by eapply happen_reach|]. cbn [w_nodes]. rewrite lookup_insert_eq.
  split; [|done]. intros v Hv. by apply HH4, Hacks.
Qed.

(** ** An example *)

(** Five masters, the first of which has failed; its replica 6 is elected by 2, 3 and 5. *)
Definition ex_voters : list (Z * serverEnv) :=
  [(2, ClusterElection.ex_env 100600); (3, ClusterElection.ex_env 100600); (5, ClusterElection.ex_env 100600)].

(** Their answers arrive in another order. *)
Definition ex_answers : list (Z * serverEnv) :=
  [(5, ClusterElection.ex_env 100650); (2, ClusterElection.ex_env 100660); (3, ClusterElection.ex_env 100670)].

Lemma ex_claim csv od : owner csv = owner (ClusterElection.ex_state 6) -> nodes csv !! 1 = Some od -> configEpoch od = 1 -> claim_ok 1 1 csv.
Proof.
  intros Eo Hod He j o Hj Ho. right. assert (j = 0) as ->.
  { destruct j as [|p|p]; [done|by destruct p|done]. }
  rewrite Eo in Ho. vm_compute in Ho. injection Ho as <-. exists od. split; [done|lia].
Qed.

Lemma ex_willing v : v ∈ [2; 3; 5] -> willing (ClusterElection.ex_env 100600) v 6 6 1 1 (ClusterElection.ex_state v).
Proof.
  intros Hv. rewrite !elem_of_cons, elem_of_nil in Hv.
  destruct Hv as [->|[->|[->|[]]]]; (constructor; [reflexivity| | | |by eapply ex_claim]).
  all: try (by eexists). all: try (by split). all: do 3 eexists; by repeat split.
Qed.

Lemma election_won_witness :
  exists req acks w H cs',
    happen true ([called 6 (ClusterElection.ex_env 100000); called 6 (ClusterElection.ex_env 100500)] ++
      ((fun x => received x.1 req x.2) <$> ex_voters) ++
      zip_with (fun (x : Z * serverEnv) ack => received 6 ack x.2) ex_answers acks ++
      [called 6 (ClusterElection.ex_env 100700)]) (ex_world, [], []) = Some (w, H, [(6, 6, 5)]) /\
    w_nodes w !! 6 = Some cs' /\ owner cs' !! 0 = Some 6.
Proof.
  destruct (election_won true ex_world ex_world [] [] 6 1 (ClusterElection.ex_node 6 6) (ClusterElection.ex_node 6 1)
    (ClusterElection.ex_state 6) 0 (ClusterElection.ex_env 100000) (ClusterElection.ex_env 100500) (ClusterElection.ex_env 100700) ex_voters ex_answers)
    as (req & acks & w & H & cs' & me' & _ & _ & Hr & _ & _ & Hc & _ & _ & _ & _ & Eo).
  - constructor.
  - reflexivity.
  - constructor; try done. apply cluster_check_sound. vm_compute. reflexivity.
  - done.
  - split; [done|by right].
  - split; [done|by right].
  - split; [done|by right].
  - reflexivity.
  - reflexivity.
  - done.
  - done.
  - done.
  - apply (bool_decide_unpack _). vm_compute. reflexivity.
  - done.
  - apply (bool_decide_unpack _). vm_compute. reflexivity.
  - intros v env Hin. assert (v ∈ [2; 3; 5] /\ env = ClusterElection.ex_env 100600) as [Hv ->].
    { unfold ex_voters in Hin. rewrite !elem_of_cons, elem_of_nil in Hin. rewrite !elem_of_cons, elem_of_nil.
      destruct Hin as [[= -> ->]|[[= -> ->]|[[= -> ->]|[]]]]; split; auto. }
    pose proof (ex_willing v Hv) as Hw. rewrite !elem_of_cons, elem_of_nil in Hv.
    destruct Hv as [->|[->|[->|[]]]]; (split; [done|]; split; [by eexists|]; split; [by eexists|by eexists]).
  - exists req, acks, w, H, cs'. split; [exact Hr|]. split; [exact Hc|]. rewrite Eo. vm_compute. reflexivity.
Defined.
End ClusterLiveness.
