(* ===== verification/Lzf.v ===== *)
(** LZF compression: [lzf_compress] (lzf_c.c) and [lzf_decompress] (lzf_d.c) with the
    configuration of lzfP.h -- 2^16 hash slots that hold pointers and start with whatever
    the stack held, the fast hash, checked input -- on blocks of bytes; the format both
    follow, as a relation; the safety of the decompressor on any input and the round trip. *)
From S2P Require Import Prelude.
From stdpp Require Import options.
#[local] Set Default Proof Using "Type*".

Module Lzf.

Definition HLOG : Z := 16.
Definition HSIZE : Z := Z.shiftl 1 HLOG.
Definition MAX_LIT : Z := Z.shiftl 1 5.
Definition MAX_OFF : Z := Z.shiftl 1 13.
Definition MAX_REF : Z := Z.shiftl 1 8 + Z.shiftl 1 3.

Definition NEXT (v b : Z) : Z := u32 (Z.lor (Z.shiftl v 8) b).
Definition IDX (h : Z) : Z := Z.land (u32 (Z.shiftr h (3 * 8 - HLOG) - h * 5)) (HSIZE - 1).

(** ** Compression *)

(** The variables of the compressor: positions in the input and the output, the rolling
    hash, the length of the open run, the slots written and the output. *)
Record lzfState := mk_lzf {
  ip : Z;
  op : Z;
  hval : Z;
  lit : Z;
  htab : gmap Z Z;
  out : mem
}.

(** How a pass of the loop ends: the output is too small, the input is used up, or there
    is more. *)
Inductive lzfControl :=
  | Return0 (o : mem)
  | Break (st : lzfState)
  | Continue (st : lzfState).

Section compress.
(** The address of the input, the pointers that happen to be in the hash table, the
    input and the size of the output. *)
Variable in_data : Z.
Variable junk : Z -> Z.
Variable inp : mem.
Variable out_len : Z.

Definition in_end : Z := msize inp.

Definition FRST (p : Z) : option Z :=
  a ← rd inp p; b ← rd inp (p + 1); Some (Z.lor (Z.shiftl a 8) b).

Definition slot (t : gmap Z Z) (h : Z) : Z := default (junk h) (t !! h).

(** [htab[IDX(hval)] = ip] after the hash moved on to [p]. *)
Definition hash_at (p : Z) (st : lzfState) : option lzfState :=
  b ← rd inp (p + 2);
  let h := NEXT (hval st) b in
  Some (mk_lzf (ip st) (op st) h (lit st) (<[IDX h := in_data + p]> (htab st)) (out st)).

(** [op[-lit - 1] = lit - 1; op -= !lit] *)
Definition stop_run (st : lzfState) : option lzfState :=
  o ← memwrite (out st) (op st - lit st - 1) [u8 (lit st - 1)];
  Some (mk_lzf (ip st) (op st - b2z (lit st =? 0)) (hval st) (lit st) (htab st) o).

(** The test that the slot holds a position not too far behind where the next three
    bytes are the same. *)
Definition match_found (ref p : Z) : option bool :=
  if (u64 (in_data + p - ref - 1) <? MAX_OFF) && (ref >? in_data) then
    a ← rd inp (ref - in_data + 2); b ← rd inp (p + 2);
    if a =? b then
      x ← memread inp (ref - in_data) 2; y ← memread inp p 2;
      Some (bool_decide (x = y))
    else Some false
  else Some false.

(** The unrolled comparisons, and whether one of them failed. *)
Fixpoint match_unrolled (k : nat) (ref p len : Z) : option (Z * bool) :=
  match k with
  | O => Some (len, false)
  | S k =>
    let len := len + 1 in
    a ← rd inp (ref + len); b ← rd inp (p + len);
    if a =? b then match_unrolled k ref p len else Some (len, true)
  end.

Fixpoint match_while (fuel : nat) (ref p maxlen len : Z) : option Z :=
  match fuel with
  | O => None
  | S fuel =>
    let len := len + 1 in
    if len <? maxlen then
      a ← rd inp (ref + len); b ← rd inp (p + len);
      if a =? b then match_while fuel ref p maxlen len else Some len
    else Some len
  end.

Definition match_length (ref p : Z) : option Z :=
  let maxlen := u64 (in_end - p - 2) in
  let maxlen := if maxlen >? MAX_REF then MAX_REF else maxlen in
  '(len, stopped) ← (if maxlen >? 16 then match_unrolled 16 ref p 2 else Some (2, false));
  if stopped : bool then Some len else match_while (Z.to_nat MAX_REF) ref p maxlen len.

(** The back reference: two octets, or three when it is long. *)
Definition put_ref (off len : Z) : mem :=
  if len <? 7 then [u8 (Z.shiftr off 8 + Z.shiftl len 5); u8 off]
  else [u8 (Z.shiftr off 8 + Z.shiftl 7 5); u8 (len - 7); u8 off].

(** A match at [ref]. *)
Definition emit_match (ref : Z) (st : lzfState) : option lzfControl :=
  if (op st + 3 + 1 >=? out_len) && (op st - b2z (lit st =? 0) + 3 + 1 >=? out_len)
  then Some (Return0 (out st))
  else
    let off := u64 (ip st - ref - 1) in
    st ← stop_run st;
    len ← match_length ref (ip st);
    let code := put_ref off (len - 2) in
    o ← memwrite (out st) (op st) code;
    let p := ip st + len in
    let st := mk_lzf p (op st + msize code + 1) (hval st) 0 (htab st) o in
    if p >=? in_end - 2 then Some (Break st)
    else
      h ← FRST (p - 2);
      st ← hash_at (p - 2) (mk_lzf p (op st) h 0 (htab st) o);
      st ← hash_at (p - 1) st;
      Some (Continue st).

(** A run of 32 octets is closed and another opened. *)
Definition full_run (st : lzfState) : option lzfState :=
  if lit st =? MAX_LIT then
    st ← stop_run st;
    Some (mk_lzf (ip st) (op st + 1) (hval st) 0 (htab st) (out st))
  else Some st.

(** [lit++; *op++ = *ip++] *)
Definition copy_literal (st : lzfState) : option lzfState :=
  b ← rd inp (ip st);
  o ← memwrite (out st) (op st) [b];
  full_run (mk_lzf (ip st + 1) (op st + 1) (hval st) (lit st + 1) (htab st) o).

Definition lzf_step (st : lzfState) : option lzfControl :=
  b ← rd inp (ip st + 2);
  let h := NEXT (hval st) b in
  let ref := slot (htab st) (IDX h) in
  st ← hash_at (ip st) st;
  found ← match_found ref (ip st);
  if found : bool then emit_match (ref - in_data) st
  else if op st >=? out_len then Some (Return0 (out st))
  else st ← copy_literal st; Some (Continue st).

(** The output when it is too small, or else the state at the end. *)
Fixpoint lzf_loop (fuel : nat) (st : lzfState) : option (mem + lzfState) :=
  if ip st <? in_end - 2 then
    match fuel with
    | O => None
    | S fuel =>
      r ← lzf_step st;
      match r with
      | Return0 o => Some (inl o)
      | Break st => Some (inr st)
      | Continue st => lzf_loop fuel st
      end
    end
  else Some (inr st).

(** The last octets. *)
Fixpoint lzf_rest (fuel : nat) (st : lzfState) : option lzfState :=
  if ip st <? in_end then
    match fuel with
    | O => None
    | S fuel => st ← copy_literal st; lzf_rest fuel st
    end
  else Some st.

(** The number of octets written, or 0, and the output. *)
Definition lzf_compress (outp : mem) : option (Z * mem) :=
  if (in_end =? 0) || (out_len =? 0) then Some (0, outp)
  else
    h ← FRST 0;
    r ← lzf_loop (length inp) (mk_lzf 0 1 h 0 ∅ outp);
    match r with
    | inl o => Some (0, o)
    | inr st =>
      if op st + 3 >? out_len then Some (0, out st)
      else
        st ← lzf_rest (length inp) st;
        st ← stop_run st;
        Some (op st, out st)
    end.
End compress.

(** ** Decompression *)

Inductive errno := E2BIG | EINVAL.

(** The value returned, the error code set if any, and the output. *)
Definition decompressed : Type := Z * option errno * mem.

(** [do *op++ = *ref++; while (--len)] *)
Fixpoint copy_octets (k : nat) (ref op : Z) (o : mem) : option mem :=
  match k with
  | O => Some o
  | S k => b ← rd o ref; o ← memwrite o op [b]; copy_octets k (ref + 1) (op + 1) o
  end.

(** The reference of [len + 2] octets: one by one when it is short or overlaps. *)
Definition copy_ref (len ref op : Z) (o : mem) : option mem :=
  if len <=? 9 then copy_octets (Z.to_nat (len + 2)) ref op o
  else
    let len := len + 2 in
    if op >=? ref + len then bs ← memread o ref len; memwrite o op bs
    else copy_octets (Z.to_nat len) ref op o.

Fixpoint lzf_decompress_loop (fuel : nat) (inp : mem) (ip op : Z) (o : mem) : option decompressed :=
  let in_end := msize inp in
  let out_end := msize o in
  match fuel with
  | O => None
  | S fuel =>
    if ip <? in_end then
      ctrl ← rd inp ip;
      let ip := ip + 1 in
      if ctrl <? Z.shiftl 1 5 then
        let ctrl := ctrl + 1 in
        if op + ctrl >? out_end then Some (0, Some E2BIG, o)
        else if ip + ctrl >? in_end then Some (0, Some EINVAL, o)
        else
          bs ← memread inp ip ctrl;
          o ← memwrite o op bs;
          lzf_decompress_loop fuel inp (ip + ctrl) (op + ctrl) o
      else
        let len := Z.shiftr ctrl 5 in
        let ref := op - Z.shiftl (Z.land ctrl 31) 8 - 1 in
        if ip >=? in_end then Some (0, Some EINVAL, o)
        else
          '(len, ip) ← (if len =? 7 then b ← rd inp ip; Some (len + b, ip + 1) else Some (len, ip));
          if (Z.shiftr ctrl 5 =? 7) && (ip >=? in_end) then Some (0, Some EINVAL, o)
          else
            b ← rd inp ip;
            let ip := ip + 1 in
            let ref := ref - b in
            if op + len + 2 >? out_end then Some (0, Some E2BIG, o)
            else if ref <? 0 then Some (0, Some EINVAL, o)
            else
              o ← copy_ref len ref op o;
              lzf_decompress_loop fuel inp ip (op + len + 2) o
    else Some (op, None, o)
  end.

Definition lzf_decompress (inp o : mem) : option decompressed :=
  lzf_decompress_loop (S (length inp)) inp 0 0 o.

(** ** The format *)

(** [n] octets, each the one [off + 1] places before it. *)
Fixpoint copy_back (off : nat) (n : nat) (d : list Z) : option (list Z) :=
  match n with
  | O => Some d
  | S n =>
    if (off <? length d)%nat then
      b ← d !! (length d - off - 1)%nat; copy_back off n (d ++ [b])
    else None
  end.

(** [encodes c d]: the code [c] stands for the data [d]. *)
Inductive encodes : mem -> mem -> Prop :=
  | encodes_nil : encodes [] []
  | encodes_literal c d ls :
      encodes c d -> 1 <= msize ls <= 32 -> encodes (c ++ (msize ls - 1) :: ls) (d ++ ls)
  | encodes_ref c d d' off len :
      encodes c d -> 0 <= off < MAX_OFF -> 3 <= len <= MAX_REF ->
      copy_back (Z.to_nat off) (Z.to_nat len) d = Some d' ->
      encodes (c ++ put_ref off (len - 2)) d'.

(** ** Octets *)

Lemma memwrite_at a b r off : off = msize a -> forall x, memwrite (a ++ x :: r) off [b] = Some (a ++ b :: r).
Proof. intros -> x. by apply (memwrite_app a [x] r). Qed.

(** Writing to the front of what is left of a block. *)
Lemma memwrite_tail c tl bs off :
  off = msize c -> msize bs <= msize tl ->
  memwrite (c ++ tl) off bs = Some (c ++ bs ++ drop (length bs) tl).
Proof.
  intros -> H. rewrite <- (take_drop (length bs) tl) at 1.
  apply memwrite_app; [done|]. unfold msize in *. rewrite length_take. lia.
Qed.

Lemma copy_back_app off a b d d' :
  copy_back off (a + b) d = Some d' <-> exists x, copy_back off a d = Some x /\ copy_back off b x = Some d'.
Proof.
  revert d. induction a as [|a IH]; intros d; cbn [copy_back Nat.add]; [naive_solver|].
  destruct (off <? length d)%nat; [|naive_solver]. destruct (d !! _) as [z|]; cbn [mbind option_bind]; [|naive_solver].
  apply IH.
Qed.

Lemma copy_back_length off n d d' : copy_back off n d = Some d' -> length d' = (length d + n)%nat.
Proof.
  revert d. induction n as [|n IH]; intros d; cbn [copy_back]; [intros [= ->]; lia|].
  case_match; [|done]. destruct (d !! _); [|done]. cbn [mbind option_bind]. intros ->%IH.
  rewrite length_app. cbn. lia.
Qed.

Lemma copy_back_bound off n d d' : copy_back off n d = Some d' -> (0 < n)%nat -> (off < length d)%nat.
Proof. destruct n; cbn [copy_back]; [lia|]. by destruct (Nat.ltb_spec off (length d)). Qed.

Lemma copy_back_is_Some off n d : (off < length d)%nat -> is_Some (copy_back off n d).
Proof.
  revert d. induction n as [|n IH]; intros d H; cbn [copy_back]; [by eexists|].
  rewrite (proj2 (Nat.ltb_lt _ _) H). destruct (lookup_lt_is_Some_2 d (length d - off - 1)) as [b ->]; [lia|].
  cbn [mbind option_bind]. apply IH. rewrite length_app. lia.
Qed.

(** Octet by octet in memory, behind the data. *)
Lemma copy_octets_ok off n d d' tl :
  copy_back off n d = Some d' -> (n <= length tl)%nat ->
  copy_octets n (msize d - Z.of_nat off - 1) (msize d) (d ++ tl) = Some (d' ++ drop n tl).
Proof.
  revert d tl. induction n as [|n IH]; intros d tl; cbn [copy_back copy_octets]; [by intros [= ->] _|].
  destruct (Nat.ltb_spec off (length d)); [|done]. intros H1 H2.
  apply bind_Some in H1 as (b & Hb & H1). destruct tl as [|x tl]; [cbn in H2; lia|].
  assert (rd (d ++ x :: tl) (msize d - Z.of_nat off - 1) = Some b) as ->.
  { unfold rd, msize. ztrue lia. rewrite lookup_app_l by lia. rewrite <- Hb. f_equal. lia. }
  cbn [mbind option_bind]. rewrite memwrite_at by done. cbn [mbind option_bind].
  specialize (IH (d ++ [b]) tl H1 ltac:(cbn in H2; lia)). rewrite <- (assoc_L (++)) in IH. cbn [app drop] in IH |- *.
  rewrite <- IH. rewrite msize_app. f_equal; unfold msize; cbn [length]; lia.
Qed.

(** When the source ends before the data does, a block move copies the same. *)
Lemma copy_back_disjoint off n d d' :
  copy_back off n d = Some d' -> (n <= S off)%nat -> (off < length d)%nat ->
  d' = d ++ take n (drop (length d - off - 1) d).
Proof.
  revert d'. induction n as [|n IH]; intros d' H Hn Ho.
  - cbn in H. injection H as <-. by rewrite app_nil_r.
  - replace (S n) with (n + 1)%nat in H by lia. apply copy_back_app in H as (x & H & H').
    pose proof (copy_back_length _ _ _ _ H) as Hl. specialize (IH x H ltac:(lia) Ho). cbn [copy_back] in H'.
    destruct (Nat.ltb_spec off (length x)); [|done]. apply bind_Some in H' as (b & Hb & [= <-]).
    rewrite Hl in Hb. rewrite IH, <- (assoc_L (++)). f_equal. rewrite IH, lookup_app_l in Hb by lia.
    erewrite take_S_r; [done|]. rewrite lookup_drop, <- Hb. f_equal. lia.
Qed.

Lemma copy_ref_ok off len d d' tl :
  0 <= off < msize d -> 3 <= len -> copy_back (Z.to_nat off) (Z.to_nat len) d = Some d' -> len <= msize tl ->
  copy_ref (len - 2) (msize d - off - 1) (msize d) (d ++ tl) = Some (d' ++ drop (Z.to_nat len) tl).
Proof.
  intros Ho Hl H Ht.
  assert (copy_octets (Z.to_nat len) (msize d - off - 1) (msize d) (d ++ tl) = Some (d' ++ drop (Z.to_nat len) tl)) as Hc.
  { rewrite <- (Z2Nat.id off) at 1 by lia. apply copy_octets_ok; [done|]. unfold msize in Ht. lia. }
  unfold copy_ref. replace (len - 2 + 2) with len by lia. destruct (Z.leb_spec (len - 2) 9); [done|].
  rewrite Z.geb_leb. destruct (Z.leb_spec (msize d - off - 1 + len) (msize d)); [|done].
  apply copy_back_disjoint in H; [|lia|unfold msize in Ho; lia].
  assert (memread (d ++ tl) (msize d - off - 1) len = Some (take (Z.to_nat len) (drop (length d - Z.to_nat off - 1) d))) as ->.
  { unfold memread. rewrite msize_app. pose proof (msize_nonneg tl). repeat ztrue lia. cbn [andb].
    rewrite drop_app_le, take_app_le; unfold msize in *; [|rewrite length_drop; lia|lia].
    do 3 f_equal. lia. }
  cbn [mbind option_bind]. assert (msize (take (Z.to_nat len) (drop (length d - Z.to_nat off - 1) d)) = len) as Hs.
  { unfold msize in *. rewrite length_take, length_drop. lia. }
  rewrite memwrite_tail by (done || lia). rewrite H, <- (assoc_L (++)). do 4 f_equal. unfold msize in *. lia.
Qed.

(** One literal run read. *)
Lemma decompress_literal fuel c ls rest d tl :
  1 <= msize ls <= 32 -> msize ls <= msize tl ->
  lzf_decompress_loop (S fuel) (c ++ (msize ls - 1) :: ls ++ rest) (msize c) (msize d) (d ++ tl) =
  lzf_decompress_loop fuel (c ++ (msize ls - 1) :: ls ++ rest) (msize c + 1 + msize ls) (msize d + msize ls)
    (d ++ ls ++ drop (length ls) tl).
Proof.
  intros H1 H2. cbn [lzf_decompress_loop]. rewrite !msize_app, !msize_cons, !msize_app.
  pose proof (msize_nonneg rest). ztrue lia. rewrite (rd_app c _ _ (msize c)) by done. cbn [mbind option_bind].
  change (Z.shiftl 1 5) with 32. ztrue lia. replace (msize ls - 1 + 1) with (msize ls) by lia.
  rewrite !Z.gtb_ltb. rewrite !(proj2 (Z.ltb_ge _ _)) by lia.
  replace (c ++ (msize ls - 1) :: ls ++ rest) with ((c ++ [msize ls - 1]) ++ ls ++ rest) by by rewrite <- (assoc_L (++)).
  rewrite memread_app by (rewrite ?msize_app; done). cbn [mbind option_bind].
  by rewrite memwrite_tail by done.
Qed.

(** The two or three octets of a reference, decoded. *)
Lemma put_ref_decode off len :
  0 <= off < MAX_OFF -> 3 <= len <= MAX_REF ->
  exists ctrl, byte ctrl /\ 32 <= ctrl /\
    put_ref off (len - 2) = (if Z.shiftr ctrl 5 =? 7 then [ctrl; len - 9; off `mod` 256] else [ctrl; off `mod` 256]) /\
    Z.shiftl (Z.land ctrl 31) 8 + off `mod` 256 = off /\
    (if Z.shiftr ctrl 5 =? 7 then 9 <= len /\ len - 2 = 7 + (len - 9) else len - 2 = Z.shiftr ctrl 5).
Proof.
  unfold MAX_OFF, MAX_REF, put_ref. change (Z.shiftl 1 13) with 8192. change (Z.shiftl 1 8 + Z.shiftl 1 3) with 264.
  intros Ho Hl. rewrite Z.shiftr_div_pow2, !Z.shiftl_mul_pow2 by lia. change (2 ^ 8) with 256. change (2 ^ 5) with 32.
  assert (0 <= off `div` 256 < 32) as Hd by dlia.
  assert (forall k, 1 <= k <= 7 -> let x := off `div` 256 + k * 32 in u8 x = x /\ 32 <= x < 256 /\
    Z.shiftr x 5 = k /\ Z.shiftl (Z.land x 31) 8 + off `mod` 256 = off) as Hx.
  { intros k Hk. cbn zeta. split; [apply wrapu_small; unfold in_u; lia|]. split; [lia|].
    rewrite Z.shiftr_div_pow2, Z.shiftl_mul_pow2 by lia. change 31 with (Z.ones 5). rewrite Z.land_ones by lia.
    change (2 ^ 8) with 256. change (2 ^ 5) with 32. rewrite Z.div_add, Z.mod_add by lia.
    rewrite (Z.div_small _ 32), (Z.mod_small _ 32) by lia. split; [lia|]. dlia. }
  replace (u8 off) with (off `mod` 256) by done. destruct (Z.ltb_spec (len - 2) 7).
  - destruct (Hx (len - 2)) as (E & B & S & R); [lia|]. exists (off `div` 256 + (len - 2) * 32).
    rewrite E, S. replace (len - 2 =? 7) with false by lia. unfold byte. repeat split; try done; lia.
  - destruct (Hx 7) as (E & B & S & R); [lia|]. exists (off `div` 256 + 7 * 32). rewrite E, S. cbn [Z.eqb].
    rewrite (wrapu_small 8 (len - 2 - 7)) by (unfold in_u; lia). replace (len - 2 - 7) with (len - 9) by lia.
    unfold byte. repeat split; try done; lia.
Qed.

Lemma rd_second c x y r : rd (c ++ x :: y :: r) (msize c + 1) = Some y.
Proof.
  replace (c ++ x :: y :: r) with ((c ++ [x]) ++ y :: r) by by rewrite <- (assoc_L (++)).
  apply rd_app. by rewrite msize_app.
Qed.

Lemma rd_third c x y z r : rd (c ++ x :: y :: z :: r) (msize c + 1 + 1) = Some z.
Proof.
  replace (c ++ x :: y :: z :: r) with ((c ++ [x]) ++ y :: z :: r) by by rewrite <- (assoc_L (++)).
  rewrite <- (rd_second (c ++ [x]) y z r). by rewrite msize_app.
Qed.

(** One reference read. *)
Lemma decompress_ref fuel c rest off len d d' tl :
  0 <= off < MAX_OFF -> 3 <= len <= MAX_REF -> copy_back (Z.to_nat off) (Z.to_nat len) d = Some d' -> len <= msize tl ->
  lzf_decompress_loop (S fuel) (c ++ put_ref off (len - 2) ++ rest) (msize c) (msize d) (d ++ tl) =
  lzf_decompress_loop fuel (c ++ put_ref off (len - 2) ++ rest) (msize c + msize (put_ref off (len - 2))) (msize d')
    (d' ++ drop (Z.to_nat len) tl).
Proof.
  intros Ho Hl Hc Ht. destruct (put_ref_decode off len Ho Hl) as (ctrl & Hb & H32 & E & Eo & El).
  assert (off < msize d) as Hod.
  { apply copy_back_bound in Hc; unfold msize; lia. }
  assert (msize d' = msize d + len) as Hd'. { apply copy_back_length in Hc. unfold msize. lia. }
  pose proof (msize_nonneg rest). pose proof (msize_nonneg c). rewrite E. clear E.
  pose proof (copy_ref_ok off len d d' tl ltac:(lia) ltac:(lia) Hc Ht) as Hcopy.
  replace (msize d - off - 1) with (msize d - Z.shiftl (Z.land ctrl 31) 8 - 1 - off `mod` 256) in Hcopy by lia.
  cbn [lzf_decompress_loop]. change (Z.shiftl 1 5) with 32. rewrite !msize_app. destruct (Z.shiftr ctrl 5 =? 7) eqn:E7.
  - destruct El as [El1 El2]. change ([ctrl; len - 9; off `mod` 256] ++ rest) with (ctrl :: len - 9 :: off `mod` 256 :: rest).
    rewrite !msize_cons, msize_nil. ztrue lia. rewrite (rd_app c _ _ (msize c)) by done. cbn [mbind option_bind].
    replace (ctrl <? 32) with false by lia. rewrite Z.geb_leb, E7.
    replace (_ <=? msize c + 1) with false by lia.
    rewrite rd_second. cbn [mbind option_bind andb].
    rewrite Z.geb_leb.
    replace (_ <=? msize c + 1 + 1) with false by lia.
    rewrite rd_third. cbn [mbind option_bind].
    rewrite (proj1 (Z.eqb_eq _ _) E7), <- El2, Hcopy.
    rewrite Z.gtb_ltb. replace (_ <? _) with false by lia. replace (_ <? 0) with false by lia. cbn [mbind option_bind].
    f_equal; lia.
  - change ([ctrl; off `mod` 256] ++ rest) with (ctrl :: off `mod` 256 :: rest).
    rewrite !msize_cons, msize_nil. ztrue lia. rewrite (rd_app c _ _ (msize c)) by done. cbn [mbind option_bind].
    replace (ctrl <? 32) with false by lia. rewrite Z.geb_leb. rewrite E7.
    replace (_ <=? msize c + 1) with false by lia. cbn [mbind option_bind andb].
    rewrite rd_second. cbn [mbind option_bind]. rewrite <- El, Hcopy.
    rewrite Z.gtb_ltb. replace (_ <? _) with false by lia. replace (_ <? 0) with false by lia. cbn [mbind option_bind].
    f_equal; lia.
Qed.

(** What is encoded is decoded. *)
Lemma encodes_decompress c d :
  encodes c d -> exists k, (k <= length c)%nat /\ forall fuel rest o, msize d <= msize o ->
    lzf_decompress_loop (k + fuel) (c ++ rest) 0 0 o =
    lzf_decompress_loop fuel (c ++ rest) (msize c) (msize d) (d ++ drop (length d) o).
Proof.
  induction 1 as [|c d ls He (k & Hk & IH) Hl|c d d' off len He (k & Hk & IH) Ho Hl Hc].
  - exists 0%nat. split; [done|]. intros. by rewrite drop_0.
  - exists (k + 1)%nat. split; [rewrite length_app; cbn; lia|]. intros fuel rest o Hm. rewrite msize_app in Hm.
    pose proof (msize_nonneg ls). rewrite <- !(assoc_L (++)), <- Nat.add_assoc, IH by lia.
    cbn [app Nat.add]. rewrite decompress_literal; [|done|unfold msize in *; rewrite length_drop; lia].
    rewrite msize_app, msize_cons, drop_drop, length_app, msize_app. by rewrite <- !(assoc_L Z.add).
  - pose proof (copy_back_length _ _ _ _ Hc) as Hlen. exists (k + 1)%nat. split.
    { rewrite length_app. unfold put_ref. case_match; cbn; lia. }
    intros fuel rest o Hm. rewrite <- !(assoc_L (++)), <- Nat.add_assoc, IH by (unfold msize in *; lia).
    cbn [Nat.add]. rewrite (decompress_ref _ _ _ _ _ _ _ _ Ho Hl Hc) by (unfold msize in *; rewrite length_drop; lia).
    by rewrite msize_app, drop_drop, Hlen.
Qed.

(** ** The compressor keeps to the format *)

Section compressor.
Context (in_data : Z) (junk : Z -> Z) (inp : mem) (out_len : Z).

Definition pointer (z : Z) : Prop := 0 <= z < 2 ^ 64.

(** The input is an object of the address space, not on its first pages, and the slots
    hold pointers. *)
Hypothesis Hdata : 8192 <= in_data /\ in_data + msize inp < 2 ^ 64.
Hypothesis Hjunk : forall h, pointer (junk h).
Hypothesis Hlen : 2 <= msize inp.

Definition pointers (t : gmap Z Z) : Prop := forall h p, t !! h = Some p -> pointer p.

(** [c] encodes the data [d] that are out, and the octets [ls] of the open run follow the
    place kept for its length. *)
Record run (c d ls tl : mem) (st : lzfState) : Prop := {
  run_encodes : encodes c d;
  run_ip : 0 <= ip st <= msize inp;
  run_data : take (Z.to_nat (ip st)) inp = d ++ ls;
  run_out : out st = c ++ tl;
  run_size : msize (out st) = out_len;
  run_op : op st = msize c + 1 + lit st;
  run_lit : lit st = msize ls;
  run_open : ls = [] \/ exists h r, tl = h :: ls ++ r;
  run_table : pointers (htab st)
}.

(** The octets at [ref] and at [p] are the same [n]. *)
Definition same (ref p n : Z) : Prop := forall i, 0 <= i < n -> rd inp (ref + i) = rd inp (p + i).

Lemma same_more ref p n : same ref p n -> rd inp (ref + n) = rd inp (p + n) -> same ref p (n + 1).
Proof. intros H E i Hi. destruct (decide (i = n)) as [->|]; [done|apply H; lia]. Qed.

Lemma rd_in_range i : 0 <= i < msize inp -> exists b, rd inp i = Some b.
Proof. apply rd_is_Some. Qed.

Lemma match_unrolled_ok k ref p len :
  0 <= ref <= p -> 0 <= len -> same ref p (len + 1) -> p + len + Z.of_nat k < msize inp ->
  exists len' b, match_unrolled inp k ref p len = Some (len', b) /\ len <= len' <= len + Z.of_nat k /\
    if b : bool then same ref p len' /\ len < len' else same ref p (len' + 1) /\ len' = len + Z.of_nat k.
Proof.
  revert len. induction k as [|k IH]; intros len Hr Hl Hs Hp; cbn [match_unrolled].
  { exists len, false. split; [done|]. split; [lia|]. split; [done|lia]. }
  destruct (rd_in_range (ref + (len + 1))) as [a Ha]; [lia|]. destruct (rd_in_range (p + (len + 1))) as [b Hb]; [lia|].
  rewrite Ha, Hb. cbn [mbind option_bind]. destruct (Z.eqb_spec a b) as [->|].
  - destruct (IH (len + 1)) as (len' & x & -> & H1 & H2); [done|lia|apply same_more; [done|by rewrite Ha, Hb]|lia|].
    exists len', x. split; [done|]. split; [lia|]. destruct x; destruct H2; split; try done; lia.
  - exists (len + 1), true. split; [done|]. split; [lia|]. split; [done|lia].
Qed.

Lemma match_while_ok fuel ref p maxlen len :
  0 <= ref <= p -> 0 <= len -> same ref p (len + 1) -> p + maxlen <= msize inp -> maxlen - len <= Z.of_nat fuel ->
  (0 < fuel)%nat ->
  exists len', match_while inp fuel ref p maxlen len = Some len' /\ len < len' <= Z.max (len + 1) maxlen /\ same ref p len'.
Proof.
  revert len. induction fuel as [|fuel IH]; intros len Hr Hl Hs Hp Hf Hf0; [lia|]. cbn [match_while].
  destruct (Z.ltb_spec (len + 1) maxlen) as [Hlt|Hge]; [|exists (len + 1); repeat split; try done; lia].
  destruct (rd_in_range (ref + (len + 1))) as [a Ha]; [lia|]. destruct (rd_in_range (p + (len + 1))) as [b Hb]; [lia|].
  rewrite Ha, Hb. cbn [mbind option_bind]. destruct (Z.eqb_spec a b) as [->|]; [|exists (len + 1); repeat split; try done; lia].
  destruct (IH (len + 1)) as (len' & -> & H1 & H2); [done|lia|apply same_more; [done|by rewrite Ha, Hb]|done|lia|lia|].
  exists len'. repeat split; try done; lia.
Qed.

Lemma match_length_ok ref p :
  0 <= ref <= p -> p + 3 <= msize inp -> same ref p 3 ->
  exists len, match_length inp ref p = Some len /\ 3 <= len <= MAX_REF /\ p + len <= msize inp /\ same ref p len.
Proof.
  intros Hr Hp Hs. unfold match_length, in_end, MAX_REF. change (Z.shiftl 1 8 + Z.shiftl 1 3) with 264.
  rewrite wrapu_small by (unfold in_u; lia). rewrite !Z.gtb_ltb.
  set (m := if 264 <? msize inp - p - 2 then 264 else msize inp - p - 2).
  assert (1 <= m <= 264 /\ p + m + 2 <= msize inp) as [Hm1 Hm2] by (subst m; ztest; lia). clearbody m.
  destruct (Z.ltb_spec 16 m).
  - destruct (match_unrolled_ok 16 ref p 2) as (len & b & -> & H1 & H2); [done|lia|done|lia|]. cbn [mbind option_bind].
    destruct b; [exists len; destruct H2; split; [done|]; split; [|split]; try done; lia|].
    destruct H2 as [H2 ->].
    destruct (match_while_ok (Z.to_nat 264) ref p m (2 + Z.of_nat 16)) as (len' & -> & H3 & H4); [done|lia|done|lia|lia|lia|].
    exists len'. repeat split; try done; lia.
  - cbn [mbind option_bind].
    destruct (match_while_ok (Z.to_nat 264) ref p m 2) as (len' & -> & H3 & H4); [done|lia|done|lia|lia|lia|].
    exists len'. repeat split; try done; lia.
Qed.

Lemma match_found_ok ref p :
  pointer ref -> 0 <= p -> p + 3 <= msize inp ->
  exists b, match_found in_data inp ref p = Some b /\
    (b = true -> let r := ref - in_data in 0 <= r < p /\ p - r - 1 < MAX_OFF /\ same r p 3).
Proof.
  intros Hr Hp0 Hp. unfold match_found, pointer, MAX_OFF in *. change (Z.shiftl 1 13) with 8192.
  destruct (Z.ltb_spec (u64 (in_data + p - ref - 1)) 8192) as [H1|]; [|by exists false].
  rewrite Z.gtb_ltb. destruct (Z.ltb_spec in_data ref) as [H2|]; [|by exists false]. cbn [andb].
  assert (ref < in_data + p /\ in_data + p - ref - 1 < 8192) as [H3 H4].
  { unfold wrapu in H1. destruct (Z.le_gt_cases 0 (in_data + p - ref - 1)); [rewrite Z.mod_small in H1 by lia; lia|].
    rewrite <- (Z.mod_add _ 1), Z.mod_small in H1 by lia. lia. }
  set (r := ref - in_data). destruct (rd_in_range (r + 2)) as [a Ha]; [lia|]. destruct (rd_in_range (p + 2)) as [b Hb]; [lia|].
  rewrite Ha, Hb. cbn [mbind option_bind]. destruct (Z.eqb_spec a b) as [->|]; [|by exists false].
  destruct (memread_is_Some inp r 2) as [x Hx]; [lia..|]. destruct (memread_is_Some inp p 2) as [y Hy]; [lia..|].
  rewrite Hx, Hy. cbn [mbind option_bind]. eexists. split; [done|]. intros ->%bool_decide_eq_true. cbn zeta.
  split; [lia|]. split; [lia|].
  assert (forall q i, 0 <= i < 2 -> memread inp q 2 = Some y -> rd inp (q + i) = rd y i) as Hmem.
  { intros q i Hi. unfold memread. case_match eqn:E; [|done]. intros [= <-]. bools. unfold rd. repeat ztrue lia.
    rewrite lookup_take_lt, lookup_drop by lia. f_equal. lia. }
  intros i Hi. destruct (decide (i = 2)) as [->|]; [by rewrite Ha, Hb|]. by rewrite !Hmem by (done || lia).
Qed.

(** Octets that repeat are copied from behind. *)
Lemma copy_back_same ref p n :
  0 <= ref < p -> 0 <= n -> p + n <= msize inp -> same ref p n ->
  copy_back (Z.to_nat (p - ref - 1)) (Z.to_nat n) (take (Z.to_nat p) inp) = Some (take (Z.to_nat (p + n)) inp).
Proof.
  intros Hr Hn. revert p Hr. pattern n. apply natlike_ind; [|clear n Hn; intros n Hn IH|done].
  - intros p Hr Hp _. cbn. do 2 f_equal. lia.
  - intros p Hr Hp Hs. rewrite Z2Nat.inj_succ, <- Nat.add_1_r by done. apply copy_back_app.
    exists (take (Z.to_nat (p + n)) inp). split; [apply IH; [done|lia|intros i Hi; apply Hs; lia]|].
    cbn [copy_back]. rewrite length_take, Nat.min_l by (unfold msize in *; lia).
    rewrite (proj2 (Nat.ltb_lt _ _)) by lia. specialize (Hs n ltac:(lia)).
    destruct (rd_in_range (p + n)) as [b Hb]; [lia|]. rewrite Hb in Hs. unfold rd in Hs, Hb.
    rewrite (proj2 (Z.leb_le 0 (ref + n))) in Hs by lia. rewrite (proj2 (Z.leb_le 0 (p + n))) in Hb by lia.
    rewrite lookup_take_lt by lia. replace (Z.to_nat (p + n) - Z.to_nat (p - ref - 1) - 1)%nat with (Z.to_nat (ref + n)) by lia.
    rewrite Hs. cbn [mbind option_bind copy_back]. f_equal.
    replace (Z.to_nat (p + Z.succ n)) with (S (Z.to_nat (p + n))) by lia. symmetry. by apply take_S_r.
Qed.

(** A closed run: the code so far is at the front of the output, [op] behind it. *)
Record closed (c d tl : mem) (st : lzfState) : Prop := {
  closed_encodes : encodes c d;
  closed_out : out st = c ++ tl;
  closed_size : msize (out st) = out_len;
  closed_op : op st = msize c
}.

Lemma stop_run_ok c d ls tl st :
  run c d ls tl st -> msize c < out_len -> lit st <= 32 ->
  exists st' c' tl', stop_run st = Some st' /\ closed c' (d ++ ls) tl' st' /\
    ip st' = ip st /\ hval st' = hval st /\ htab st' = htab st /\ op st' = op st - b2z (lit st =? 0).
Proof.
  intros [He Hip Hd Ho Hs Hop Hl Hopen Ht] Hc H32. unfold stop_run.
  rewrite Hop, Ho. replace (msize c + 1 + lit st - lit st - 1) with (msize c) by lia.
  assert (msize tl = out_len - msize c) as Htl by (rewrite <- Hs, Ho, msize_app; lia).
  destruct ls as [|l ls'].
  - destruct tl as [|x tl]; [change (msize []) with 0 in Htl; lia|]. rewrite memwrite_at by done. cbn [mbind option_bind].
    change (msize []) with 0 in Hl. eexists _, c, (u8 (lit st - 1) :: tl). split; [reflexivity|].
    cbn [op ip hval htab lit out]. rewrite Hl, app_nil_r. cbn [b2z Z.eqb].
    split; [constructor; cbn; try done; [|lia]|repeat split; lia].
    rewrite <- Hs, Ho, !msize_app, !msize_cons. done.
  - destruct Hopen as [?|(h & r & ->)]; [done|]. rewrite memwrite_at by done. cbn [mbind option_bind].
    assert (1 <= lit st) as H1 by (rewrite Hl, msize_cons; pose proof (msize_nonneg ls'); lia).
    eexists _, (c ++ (msize (l :: ls') - 1) :: l :: ls'), r. split; [reflexivity|]. cbn [op ip hval htab lit out].
    rewrite (proj2 (Z.eqb_neq (lit st) 0)) by lia. rewrite wrapu_small by (unfold in_u; lia). rewrite Hl.
    split; [|repeat split; cbn; lia]. constructor; cbn.
    + apply encodes_literal; [done|lia].
    + by rewrite <- !(assoc_L (++)).
    + rewrite <- Hs, Ho. cbn [app]. repeat rewrite ?msize_app, ?msize_cons. lia.
    + rewrite msize_app, (msize_cons _ (l :: ls')). lia.
Qed.

Lemma pointers_insert t h p : pointers t -> 0 <= p <= msize inp -> pointers (<[h := in_data + p]> t).
Proof. intros Ht Hp h' q. rewrite lookup_insert_Some. intros [[<- <-]|[_ ?]]; [unfold pointer; lia|by eapply Ht]. Qed.

Lemma slot_pointer t h : pointers t -> pointer (slot junk t h).
Proof. intros Ht. unfold slot. destruct (t !! h) eqn:E; [by eapply Ht|apply Hjunk]. Qed.

Lemma hash_at_ok p st c d ls tl :
  0 <= p -> p + 2 < msize inp -> run c d ls tl st ->
  exists st', hash_at in_data inp p st = Some st' /\ run c d ls tl st' /\ ip st' = ip st /\ op st' = op st /\ lit st' = lit st.
Proof.
  intros H0 Hp [? ? ? ? ? ? ? ? Ht]. unfold hash_at. destruct (rd_in_range (p + 2)) as [b ->]; [lia|].
  cbn [mbind option_bind]. eexists. split; [done|]. split; [|done]. constructor; try done. apply pointers_insert; [done|lia].
Qed.

(** A new run is opened behind a closed one. *)
Lemma closed_run c d tl st st' :
  closed c d tl st -> out st' = out st -> op st' = op st + 1 -> lit st' = 0 -> pointers (htab st') ->
  0 <= ip st' <= msize inp -> take (Z.to_nat (ip st')) inp = d -> run c d [] tl st'.
Proof. intros [? ? ? ?] E1 E2 E3 ? ? ?. constructor; try done; rewrite ?E1, ?app_nil_r; try done; [lia|by left]. Qed.

Lemma copy_literal_ok c d ls tl st :
  run c d ls tl st -> ip st < msize inp -> lit st < 32 -> op st < out_len ->
  exists st' c' d' ls' tl', copy_literal inp st = Some st' /\ run c' d' ls' tl' st' /\ ip st' = ip st + 1 /\
    (lit st' = lit st + 1 /\ lit st' < 32 /\ op st' = op st + 1 \/
     lit st + 1 = 32 /\ lit st' = 0 /\ op st' = op st + 2).
Proof.
  intros [He Hip Hd Ho Hs Hop Hl Hopen Ht] Hi H32 Hlt. unfold copy_literal.
  destruct (rd_in_range (ip st)) as [b Hb]; [lia|]. rewrite Hb, Ho. cbn [mbind option_bind].
  assert (exists h tl', c ++ tl = (c ++ h :: ls) ++ tl' /\ 0 < msize tl') as (h & tl' & E & Htl').
  { rewrite Ho, msize_app in Hs. destruct Hopen as [->|(h & r & ->)].
    - destruct tl as [|h tl]; [change (msize []) with 0 in *; lia|]. exists h, tl. rewrite <- (assoc_L (++)). split; [done|].
      rewrite msize_cons in Hs. change (msize []) with 0 in Hl. lia.
    - exists h, r. rewrite <- (assoc_L (++)). split; [done|]. rewrite msize_cons, msize_app in Hs. lia. }
  destruct tl' as [|x tl']; [change (msize []) with 0 in *; lia|]. rewrite E, memwrite_at by (rewrite msize_app, msize_cons; lia).
  cbn [mbind option_bind]. unfold full_run. cbn [lit].
  set (st1 := mk_lzf _ _ _ _ _ _).
  assert (run c d (ls ++ [b]) (h :: (ls ++ [b]) ++ tl') st1) as Hrun.
  { constructor; cbn; try done; try lia.
    - replace (Z.to_nat (ip st + 1)) with (S (Z.to_nat (ip st))) by lia. rewrite (assoc_L (++)), <- Hd. apply take_S_r.
      unfold rd in Hb. by rewrite (proj2 (Z.leb_le 0 (ip st))) in Hb by lia.
    - by rewrite <- !(assoc_L (++)).
    - rewrite <- Hs, Ho, E, !msize_app, !msize_cons. done.
    - rewrite msize_app. change (msize [b]) with 1. lia.
    - right. eauto. }
  change MAX_LIT with 32. destruct (Z.eqb_spec (lit st + 1) 32) as [E32|].
  - pose proof (msize_nonneg ls).
    destruct (stop_run_ok _ _ _ _ _ Hrun) as (st2 & c' & tl2 & -> & Hcl & Hi2 & Hh2 & Ht2 & Hop2); [lia|cbn; lia|].
    cbn [mbind option_bind]. eexists _, c', _, [], tl2. split; [done|]. split.
    + eapply closed_run; [done|done|done|done|cbn; by rewrite Ht2|cbn; rewrite Hi2; cbn; lia|].
      cbn. rewrite Hi2. apply Hrun.
    + cbn [op ip hval htab lit out]. rewrite Hop2, Hi2. cbn [op ip lit st1].
      replace (lit st + 1 =? 0) with false by lia. cbn [b2z]. lia.
  - eexists _, c, d, (ls ++ [b]), _. split; [done|]. split; [done|]. cbn. lia.
Qed.

Definition live (st : lzfState) : Prop := exists c d ls tl, run c d ls tl st /\ lit st < 32.

(** A pass fails for want of space, or moves on. *)
Definition moved (st : lzfState) (r : lzfControl) : Prop :=
  match r with
  | Return0 o => msize o = out_len
  | Break st' => live st' /\ msize inp - 2 <= ip st'
  | Continue st' => live st' /\ ip st < ip st'
  end.

Lemma put_ref_size off len : msize (put_ref off len) <= 3.
Proof. unfold put_ref. case_match; rewrite !msize_cons, msize_nil; lia. Qed.

Lemma emit_match_ok c d ls tl st ref :
  run c d ls tl st -> lit st < 32 -> ip st + 3 <= msize inp ->
  0 <= ref < ip st -> ip st - ref - 1 < MAX_OFF -> same ref (ip st) 3 ->
  exists r, emit_match in_data inp out_len ref st = Some r /\ moved st r.
Proof.
  intros Hr H32 Hi Href Hoff Hsame. unfold emit_match. rewrite !Z.geb_leb.
  destruct ((_ <=? _) && (_ <=? _)) eqn:Hspace; [eexists; split; [done|]; apply Hr|].
  assert (op st - b2z (lit st =? 0) + 4 < out_len) as Hfit.
  { apply andb_false_iff in Hspace as [?%Z.leb_gt|?%Z.leb_gt]; [|lia]. destruct (lit st =? 0); cbn; lia. }
  pose proof (run_op _ _ _ _ _ Hr) as Hop. pose proof (run_lit _ _ _ _ _ Hr) as Hlit. pose proof (msize_nonneg ls).
  assert (msize c < out_len) as Hc by (destruct (Z.eqb_spec (lit st) 0); cbn in *; lia).
  rewrite wrapu_small by (unfold in_u; lia).
  destruct (stop_run_ok _ _ _ _ _ Hr) as (st1 & c' & tl' & -> & [He1 Ho1 Hs1 Hop1] & Hi1 & Hh1 & Ht1 & Hop2); [done|lia|].
  cbn [mbind option_bind]. rewrite Hi1.
  destruct (match_length_ok ref (ip st)) as (len & -> & Hl & Hpl & Hlen'); [lia|lia|done|]. cbn [mbind option_bind].
  pose proof (put_ref_size (ip st - ref - 1) (len - 2)) as Hps. set (code := put_ref _ _) in *.
  rewrite Ho1, memwrite_tail; [|done|rewrite Ho1, msize_app in Hs1; lia]. cbn [mbind option_bind].
  pose proof (run_data _ _ _ _ _ Hr) as Hd.
  assert (encodes (c' ++ code) (take (Z.to_nat (ip st + len)) inp)) as Henc.
  { eapply encodes_ref; [exact He1|lia|done|]. rewrite <- Hd. by apply copy_back_same; [lia|lia|lia|]. }
  assert (forall h t, pointers t ->
    run (c' ++ code) (take (Z.to_nat (ip st + len)) inp) [] (drop (length code) tl')
      (mk_lzf (ip st + len) (op st1 + msize code + 1) h 0 t (c' ++ code ++ drop (length code) tl'))) as Hrun.
  { intros h t Ht. eapply (closed_run _ _ _ (mk_lzf (ip st + len) (op st1 + msize code) h 0 t (c' ++ code ++ drop (length code) tl'))); try done.
    - constructor; cbn; [done|by rewrite <- (assoc_L (++))| |rewrite msize_app; lia].
      rewrite Ho1, msize_app in Hs1. rewrite !msize_app. unfold msize in *. rewrite length_drop. lia.
    - cbn. lia. }
  assert (pointers (htab st1)) as Hpt by (rewrite Ht1; apply Hr).
  rewrite Z.geb_leb. unfold in_end. destruct (Z.leb_spec (msize inp - 2) (ip st + len)).
  { eexists. split; [done|]. split; [|done]. do 4 eexists. by split; [apply Hrun|]. }
  cbn [op htab]. unfold FRST. destruct (rd_in_range (ip st + len - 2)) as [a ->]; [lia|].
  destruct (rd_in_range (ip st + len - 2 + 1)) as [b ->]; [lia|]. cbn [mbind option_bind].
  destruct (hash_at_ok (ip st + len - 2) _ _ _ _ _ ltac:(lia) ltac:(lia) (Hrun (Z.lor (Z.shiftl a 8) b) (htab st1) Hpt))
    as (st2 & -> & R2 & E2 & _ & L2). cbn [mbind option_bind].
  destruct (hash_at_ok (ip st + len - 1) _ _ _ _ _ ltac:(lia) ltac:(lia) R2) as (st3 & -> & R3 & E3 & _ & L3).
  cbn [mbind option_bind]. eexists. split; [done|]. split; [|rewrite E3, E2; cbn; lia].
  do 4 eexists. split; [exact R3|]. rewrite L3, L2. done.
Qed.

Lemma lzf_step_ok st : live st -> ip st + 3 <= msize inp ->
  exists r, lzf_step in_data junk inp out_len st = Some r /\ moved st r.
Proof.
  intros (c & d & ls & tl & Hr & H32) Hi. unfold lzf_step. pose proof (run_ip _ _ _ _ _ Hr) as Hip.
  destruct (rd_in_range (ip st + 2)) as [b ->]; [lia|]. cbn [mbind option_bind].
  set (ref := slot _ _ _). assert (pointer ref) as Hp by (apply slot_pointer, Hr).
  destruct (hash_at_ok (ip st) _ _ _ _ _ ltac:(lia) ltac:(lia) Hr) as (st1 & -> & R1 & E1 & O1 & L1). cbn [mbind option_bind].
  rewrite E1. destruct (match_found_ok ref (ip st) Hp) as (f & -> & Hf); [lia|done|]. cbn [mbind option_bind]. destruct f.
  - destruct (Hf eq_refl) as (F1 & F2 & F3). destruct (emit_match_ok c d ls tl st1 (ref - in_data)) as (r & Hem & Hmv);
      [done|lia|lia|lia|lia|by rewrite E1|].
    exists r. split; [done|]. unfold moved in *. by rewrite E1 in Hmv.
  - rewrite Z.geb_leb. destruct (Z.leb_spec out_len (op st1)); [eexists; split; [done|]; apply R1|].
    destruct (copy_literal_ok _ _ _ _ _ R1) as (st2 & c2 & d2 & ls2 & tl2 & -> & R2 & E2 & H2); [lia..|].
    cbn [mbind option_bind]. eexists. split; [done|]. split; [do 4 eexists; split; [exact R2|]; lia|lia].
Qed.

Lemma lzf_loop_ok fuel st : live st -> 0 <= ip st -> msize inp - ip st <= Z.of_nat fuel ->
  exists r, lzf_loop in_data junk inp out_len fuel st = Some r /\
    match r with inl o => msize o = out_len | inr st' => live st' /\ msize inp - 2 <= ip st' end.
Proof.
  revert st. induction fuel as [|fuel IH]; intros st Hl Hi Hf; cbn [lzf_loop]; unfold in_end.
  - rewrite (proj2 (Z.ltb_ge _ _)) by lia. eexists. split; [done|]. split; [done|lia].
  - destruct (Z.ltb_spec (ip st) (msize inp - 2)); [|eexists; split; [done|]; split; [done|lia]].
    destruct (lzf_step_ok st Hl) as (r & -> & Hr); [lia|]. cbn [mbind option_bind].
    destruct r as [o|st'|st']; [eexists; split; [done|]; done|eexists; split; [done|]; done|]. destruct Hr. apply IH; [done|lia|lia].
Qed.

Lemma lzf_rest_ok fuel st :
  live st -> msize inp - ip st <= Z.of_nat fuel -> msize inp - 2 <= ip st <= msize inp ->
  op st + (msize inp - ip st) + (if lit st + (msize inp - ip st) <? 32 then 0 else 1) <= out_len ->
  exists st', lzf_rest inp fuel st = Some st' /\ live st' /\ ip st' = msize inp /\ op st' <= out_len.
Proof.
  revert st. induction fuel as [|fuel IH]; intros st Hl Hf Hi Hop; cbn [lzf_rest]; unfold in_end.
  - rewrite (proj2 (Z.ltb_ge _ _)) by lia. eexists. split; [done|]. split; [done|]. case_match; lia.
  - destruct (Z.ltb_spec (ip st) (msize inp)); [|eexists; split; [done|]; split; [done|]; case_match; lia].
    destruct Hl as (c & d & ls & tl & Hr & H32).
    destruct (copy_literal_ok _ _ _ _ _ Hr) as (st2 & c2 & d2 & ls2 & tl2 & -> & R2 & E2 & H2); [lia|lia|case_match; lia|].
    cbn [mbind option_bind]. apply IH; [do 4 eexists; split; [exact R2|]; lia|lia|lia|].
    rewrite E2. destruct H2 as [(L & _ & O)|(L & L' & O)]; rewrite O.
    + replace (lit st2 + (msize inp - (ip st + 1))) with (lit st + (msize inp - ip st)) by lia. case_match; lia.
    + rewrite L'. replace (lit st + (msize inp - ip st) <? 32) with false in Hop by lia. case_match eqn:E; bools; lia.
Qed.

Lemma lzf_compress_ok outp : msize outp = out_len ->
  exists n o, lzf_compress in_data junk inp out_len outp = Some (n, o) /\ msize o = out_len /\
    (n = 0 \/ exists c tl, encodes c inp /\ o = c ++ tl /\ n = msize c).
Proof.
  intros Ho. unfold lzf_compress, in_end. rewrite (proj2 (Z.eqb_neq (msize inp) 0)) by lia. cbn [orb].
  destruct (Z.eqb_spec out_len 0); [eauto 10|]. unfold FRST.
  destruct (rd_in_range 0) as [a ->]; [lia|]. destruct (rd_in_range (0 + 1)) as [b ->]; [lia|]. cbn [mbind option_bind].
  destruct (lzf_loop_ok (length inp) (mk_lzf 0 1 (Z.lor (Z.shiftl a 8) b) 0 ∅ outp)) as (r & -> & Hr).
  { exists [], [], [], outp. split; [|done]. constructor; cbn; try done; [constructor|lia|by left]. }
  { done. } { cbn. unfold msize. lia. }
  cbn [mbind option_bind]. destruct r as [o|st]; [eauto 10|]. destruct Hr as [Hl Hi]. rewrite Z.gtb_ltb.
  destruct (Z.ltb_spec out_len (op st + 3)).
  { destruct Hl as (c & d & ls & tl & Hr & _). exists 0, (out st). split; [done|]. split; [apply Hr|by left]. }
  destruct (lzf_rest_ok (length inp) st Hl) as (st1 & -> & (c & d & ls & tl & Hr & H32) & Hi1 & Hop1).
  { destruct Hl as (c & d & ls & tl & Hr & _). pose proof (run_ip _ _ _ _ _ Hr). unfold msize in *. lia. }
  { destruct Hl as (c & d & ls & tl & Hr & _). pose proof (run_ip _ _ _ _ _ Hr). lia. }
  { case_match; lia. }
  cbn [mbind option_bind]. pose proof (run_op _ _ _ _ _ Hr). pose proof (run_lit _ _ _ _ _ Hr). pose proof (msize_nonneg ls).
  destruct (stop_run_ok _ _ _ _ _ Hr) as (st2 & c2 & tl2 & -> & [He Ho2 Hs2 Hop2] & _); [lia|lia|]. cbn [mbind option_bind].
  eexists _, _. split; [done|]. split; [done|]. right. exists c2, tl2. split; [|done].
  rewrite <- (run_data _ _ _ _ _ Hr), Hi1 in He. unfold msize in He. by rewrite Nat2Z.id, take_ge in He.
Qed.
End compressor.

(** ** Any input is safe to decompress *)

Lemma memwrite_beyond m off bs k : 0 <= off -> off + msize bs <= msize m -> off + msize bs <= k ->
  exists m', memwrite m off bs = Some m' /\ msize m' = msize m /\ drop (Z.to_nat k) m' = drop (Z.to_nat k) m.
Proof.
  intros Ho Hm Hk. destruct (memwrite m off bs) as [m'|] eqn:E.
  - exists m'. split; [done|]. split; [by eapply memwrite_length|]. unfold memwrite in E. case_match; [|done].
    injection E as <-. rewrite (assoc_L (++)), drop_app_ge; unfold msize in *.
    + rewrite drop_drop. f_equal. rewrite length_app, length_take. lia.
    + rewrite length_app, length_take. lia.
  - unfold memwrite in E. case_match eqn:Hc; [done|]. apply andb_false_iff in Hc as [?%Z.leb_gt|?%Z.leb_gt]; lia.
Qed.

Lemma copy_octets_safe k ref p o : 0 <= ref < p -> p + Z.of_nat k <= msize o ->
  exists o', copy_octets k ref p o = Some o' /\ msize o' = msize o /\
    drop (Z.to_nat (p + Z.of_nat k)) o' = drop (Z.to_nat (p + Z.of_nat k)) o.
Proof.
  revert ref p o. induction k as [|k IH]; intros ref p o Hr Hp; cbn [copy_octets]; [by exists o|].
  destruct (rd_is_Some o ref) as [b ->]; [lia|]. cbn [mbind option_bind].
  destruct (memwrite_beyond o p [b] (p + Z.of_nat (S k))) as (o1 & -> & E1 & D1); [lia|change (msize [b]) with 1; lia..|]. cbn [mbind option_bind].
  destruct (IH (ref + 1) (p + 1) o1) as (o2 & -> & E2 & D2); [lia|lia|]. exists o2.
  split; [done|]. split; [by rewrite E2|]. rewrite <- D1.
  by replace (p + Z.of_nat (S k)) with (p + 1 + Z.of_nat k) by lia.
Qed.

Lemma copy_ref_safe len ref p o : 0 <= len -> 0 <= ref < p -> p + len + 2 <= msize o ->
  exists o', copy_ref len ref p o = Some o' /\ msize o' = msize o /\
    drop (Z.to_nat (p + len + 2)) o' = drop (Z.to_nat (p + len + 2)) o.
Proof.
  intros Hl Hr Hp. unfold copy_ref.
  assert (exists o', copy_octets (Z.to_nat (len + 2)) ref p o = Some o' /\ msize o' = msize o /\
    drop (Z.to_nat (p + len + 2)) o' = drop (Z.to_nat (p + len + 2)) o) as Hc.
  { destruct (copy_octets_safe (Z.to_nat (len + 2)) ref p o) as (o' & E & S & D); [lia|lia|]. exists o'.
    split; [done|]. split; [done|]. by replace (p + len + 2) with (p + Z.of_nat (Z.to_nat (len + 2))) by lia. }
  destruct (len <=? 9); [done|]. rewrite Z.geb_leb. destruct (Z.leb_spec (ref + (len + 2)) p); [|done].
  destruct (memread_is_Some o ref (len + 2)) as [bs Hbs]; [lia..|]. rewrite Hbs. cbn [mbind option_bind].
  apply memread_length in Hbs. apply memwrite_beyond; lia.
Qed.

(** What a call of the decompressor on [o] may leave. *)
Definition decompressed_ok (o : mem) (r : decompressed) : Prop :=
  let '(n, e, o') := r in
  msize o' = msize o /\
  match e with
  | Some _ => n = 0
  | None => 0 <= n <= msize o /\ drop (Z.to_nat n) o' = drop (Z.to_nat n) o
  end.

Lemma decompress_loop_safe fuel inp p q o o0 :
  bytes inp -> 0 <= p <= msize inp -> 0 <= q <= msize o -> msize inp - p < Z.of_nat fuel ->
  msize o = msize o0 -> drop (Z.to_nat q) o = drop (Z.to_nat q) o0 ->
  exists r, lzf_decompress_loop fuel inp p q o = Some r /\ decompressed_ok o0 r.
Proof.
  intros Hb. revert p q o. induction fuel as [|fuel IH]; intros p q o Hp Hq Hf Hs Hd; [lia|]. cbn [lzf_decompress_loop].
  assert (forall e, exists r, Some (0, Some e, o) = Some r /\ decompressed_ok o0 r) as Herr by (intros e; eexists; by split).
  destruct (Z.ltb_spec p (msize inp)) as [Hlt|]; [|eexists; split; [done|]; split; [done|]; split; [lia|done]].
  assert (forall m', msize m' = msize o -> forall k, q <= k ->
    drop (Z.to_nat k) m' = drop (Z.to_nat k) o -> drop (Z.to_nat k) m' = drop (Z.to_nat k) o0) as Hnext.
  { intros m' _ k Hk ->. replace (Z.to_nat k) with (Z.to_nat q + (Z.to_nat k - Z.to_nat q))%nat by lia.
    by rewrite <- !drop_drop, Hd. }
  destruct (rd_is_Some inp p) as [ctrl Hctrl]; [lia|]. rewrite Hctrl. cbn [mbind option_bind].
  pose proof (rd_byte _ _ _ Hb Hctrl) as Hcb. unfold byte in Hcb. change (Z.shiftl 1 5) with 32. rewrite !Z.gtb_ltb.
  destruct (Z.ltb_spec ctrl 32).
  - destruct (Z.ltb_spec (msize o) (q + (ctrl + 1))); [apply Herr|].
    destruct (Z.ltb_spec (msize inp) (p + 1 + (ctrl + 1))); [apply Herr|].
    destruct (memread_is_Some inp (p + 1) (ctrl + 1)) as [bs Hbs]; [lia..|]. rewrite Hbs. cbn [mbind option_bind].
    apply memread_length in Hbs.
    destruct (memwrite_beyond o q bs (q + (ctrl + 1))) as (o1 & -> & E1 & D1); [lia..|]. cbn [mbind option_bind].
    apply IH; [lia|lia|lia|by rewrite E1|]. apply Hnext; [done|lia|done].
  - rewrite Z.geb_leb. destruct (Z.leb_spec (msize inp) (p + 1)); [apply Herr|].
    assert (1 <= Z.shiftr ctrl 5) as H5 by (rewrite Z.shiftr_div_pow2 by lia; change (2 ^ 5) with 32; dlia).
    assert (0 <= Z.shiftl (Z.land ctrl 31) 8) as H31 by (apply Z.shiftl_nonneg, Z.land_nonneg; lia).
    assert (exists len p', (if Z.shiftr ctrl 5 =? 7 then b ← rd inp (p + 1); Some (Z.shiftr ctrl 5 + b, p + 1 + 1)
      else Some (Z.shiftr ctrl 5, p + 1)) = Some (len, p') /\ 1 <= len /\ p + 1 <= p' <= msize inp /\
      (Z.shiftr ctrl 5 =? 7 = false -> p' < msize inp)) as (len & p' & -> & Hl & Hp' & Hp'').
    { destruct (Z.eqb_spec (Z.shiftr ctrl 5) 7); [|eexists _, _; split; [done|]; lia].
      destruct (rd_is_Some inp (p + 1)) as [b Hrd]; [lia|]. rewrite Hrd. cbn [mbind option_bind].
      pose proof (rd_byte _ _ _ Hb Hrd) as Hbb. unfold byte in Hbb. eexists _, _. split; [done|]. split; [lia|]. split; [lia|done]. }
    cbn [mbind option_bind]. rewrite Z.geb_leb. destruct (_ && (msize inp <=? p')) eqn:E; [apply Herr|].
    assert (p' < msize inp) as Hp3 by (apply andb_false_iff in E as [E|E%Z.leb_gt]; [by apply Hp''|lia]).
    destruct (rd_is_Some inp p') as [b Hrd]; [lia|]. rewrite Hrd. cbn [mbind option_bind]. rewrite Z.gtb_ltb.
    pose proof (rd_byte _ _ _ Hb Hrd) as Hbb. unfold byte in Hbb.
    destruct (Z.ltb_spec (msize o) (q + len + 2)); [apply Herr|]. destruct (Z.ltb_spec (q - Z.shiftl (Z.land ctrl 31) 8 - 1 - b) 0); [apply Herr|].
    destruct (copy_ref_safe len (q - Z.shiftl (Z.land ctrl 31) 8 - 1 - b) q o) as (o1 & -> & E1 & D1); [lia..|]. cbn [mbind option_bind].
    apply IH; [lia|lia|lia|by rewrite E1|]. apply Hnext; [done|lia|done].
Qed.

(** Decompression is safe on any input.  Whatever the octets, [lzf_decompress] returns,
    reads only its input and writes only its output; it reports an error as 0, and on
    success leaves the octets behind the ones it counts as they were. *)
Theorem lzf_decompress_safe inp o :
  bytes inp -> exists n e o', lzf_decompress inp o = Some (n, e, o') /\ decompressed_ok o (n, e, o').
Proof.
  intros Hb. destruct (decompress_loop_safe (S (length inp)) inp 0 0 o o) as ([[n e] o'] & E & H); try done;
    pose proof (msize_nonneg inp); pose proof (msize_nonneg o); unfold msize in *; try lia.
  eauto.
Qed.

Lemma lzf_decompress_safe_witness :
  exists n e o', lzf_decompress [224; 5; 200] (replicate 8 7) = Some (n, e, o') /\ decompressed_ok (replicate 8 7) (n, e, o').
Proof. apply (lzf_decompress_safe [224; 5; 200] (replicate 8 7)). apply bytes_check. reflexivity. Defined.

(** The code of octets is made of octets. *)
Lemma copy_back_prefix off n d d' : copy_back off n d = Some d' -> exists e, d' = d ++ e.
Proof.
  revert d. induction n as [|n IH]; intros d; cbn [copy_back]; [intros [= <-]; exists []; by rewrite app_nil_r|].
  case_match; [|done]. destruct (d !! _) as [b|]; [|done]. intros [e ->]%IH. exists ([b] ++ e). by rewrite (assoc_L (++)).
Qed.

Lemma put_ref_bytes off len : bytes (put_ref off len).
Proof. unfold put_ref. case_match; repeat (apply Forall_cons_2; [by apply (in_u_wrapu 8)|]); constructor. Qed.

Lemma encodes_bytes c d : encodes c d -> bytes d -> bytes c.
Proof.
  induction 1 as [|c d ls He IH Hl|c d d' off len He IH Ho Hl Hc]; intros Hd; [done| |].
  - apply Forall_app in Hd as [Hd Hls]. apply Forall_app. split; [by apply IH|]. constructor; [unfold byte; lia|done].
  - destruct (copy_back_prefix _ _ _ _ Hc) as [e ->]. apply Forall_app in Hd as [Hd _].
    apply Forall_app. split; [by apply IH|apply put_ref_bytes].
Qed.

Lemma lzf_decompress_encodes c d buf :
  encodes c d -> msize d <= msize buf -> lzf_decompress c buf = Some (msize d, None, d ++ drop (length d) buf).
Proof.
  intros He Hm. destruct (encodes_decompress c d He) as (k & Hk & H). unfold lzf_decompress.
  replace (S (length c)) with (k + S (length c - k))%nat by lia. specialize (H (S (length c - k))%nat [] buf Hm).
  rewrite app_nil_r in H. rewrite H. cbn [lzf_decompress_loop]. by rewrite Z.ltb_irrefl.
Qed.

(** C12: What is compressed comes back.  Whatever the stack left in the hash table and
    however small the output, [lzf_compress] of two octets or more returns, and touches no
    memory but its input and its output; when it does not give up, the octets it counts
    decompress, in a buffer with room for them, to exactly the input. *)
Theorem lzf_roundtrip in_data junk inp outp :
  MAX_OFF <= in_data /\ in_data + msize inp < 2 ^ 64 -> (forall h, pointer (junk h)) -> 2 <= msize inp ->
  exists n o, lzf_compress in_data junk inp (msize outp) outp = Some (n, o) /\ 0 <= n <= msize outp /\ msize o = msize outp /\
    (n <> 0 -> forall buf, msize inp <= msize buf ->
      lzf_decompress (take (Z.to_nat n) o) buf = Some (msize inp, None, inp ++ drop (length inp) buf)).
Proof.
  intros Hd Hj Hl. destruct (lzf_compress_ok in_data junk inp (msize outp) Hd Hj Hl outp eq_refl) as (n & o & E & S & H).
  exists n, o. split; [done|]. pose proof (msize_nonneg outp). destruct H as [->|(c & tl & He & -> & ->)]; [done|].
  rewrite msize_app in S. pose proof (msize_nonneg c). pose proof (msize_nonneg tl). split; [lia|]. rewrite msize_app. split; [done|].
  intros _ buf Hb. rewrite take_app_eq by (unfold msize; lia). by apply lzf_decompress_encodes.
Qed.

Lemma lzf_roundtrip_witness :
  exists n o, lzf_compress 65536 (fun _ => 70000) [1;2;3;1;2;3;1;2;3;1;2;3;1;2;3;9;9] 16 (replicate 16 0) = Some (n, o) /\ n = 11 /\
    lzf_decompress (take (Z.to_nat n) o) (replicate 17 0) = Some (17, None, [1;2;3;1;2;3;1;2;3;1;2;3;1;2;3;9;9]).
Proof.
  destruct (lzf_roundtrip 65536 (fun _ => 70000) [1;2;3;1;2;3;1;2;3;1;2;3;1;2;3;9;9] (replicate 16 0)) as (n & o & E & _ & _ & H).
  - by split.
  - intros h. by split.
  - done.
  - exists n, o. change (msize (replicate 16 0)) with 16 in E. split; [exact E|].
    assert (n = 11) as ->. { apply (f_equal (fmap fst)) in E. vm_compute in E. by injection E as <-. }
    split; [done|]. by apply (H ltac:(done) (replicate 17 0)).
Defined.
End Lzf.
