(* ===== verification/Crc.v ===== *)
(** Checksums: the CRC-16 of the hash slots (crc16.c), and the CRC-64 of the snapshots
    -- bit by bit (crc64.c), eight bytes at a time from tables on up to three segments of
    the data at once (crcspeed.c), merged with matrices over GF(2) (crccombine.c) -- for a
    little-endian machine. *)
From S2P Require Import Prelude.
From stdpp Require Import options.
#[local] Set Default Proof Using "Type*".

Module Crc.

(** ** CRC-16 *)

Definition crc16tab : list Z :=
  [0; 4129; 8258; 12387; 16516; 20645; 24774; 28903;
   33032; 37161; 41290; 45419; 49548; 53677; 57806; 61935;
   4657; 528; 12915; 8786; 21173; 17044; 29431; 25302;
   37689; 33560; 45947; 41818; 54205; 50076; 62463; 58334;
   9314; 13379; 1056; 5121; 25830; 29895; 17572; 21637;
   42346; 46411; 34088; 38153; 58862; 62927; 50604; 54669;
   13907; 9842; 5649; 1584; 30423; 26358; 22165; 18100;
   46939; 42874; 38681; 34616; 63455; 59390; 55197; 51132;
   18628; 22757; 26758; 30887; 2112; 6241; 10242; 14371;
   51660; 55789; 59790; 63919; 35144; 39273; 43274; 47403;
   23285; 19156; 31415; 27286; 6769; 2640; 14899; 10770;
   56317; 52188; 64447; 60318; 39801; 35672; 47931; 43802;
   27814; 31879; 19684; 23749; 11298; 15363; 3168; 7233;
   60846; 64911; 52716; 56781; 44330; 48395; 36200; 40265;
   32407; 28342; 24277; 20212; 15891; 11826; 7761; 3696;
   65439; 61374; 57309; 53244; 48923; 44858; 40793; 36728;
   37256; 33193; 45514; 41451; 53516; 49453; 61774; 57711;
   4224; 161; 12482; 8419; 20484; 16421; 28742; 24679;
   33721; 37784; 41979; 46042; 49981; 54044; 58239; 62302;
   689; 4752; 8947; 13010; 16949; 21012; 25207; 29270;
   46570; 42443; 38312; 34185; 62830; 58703; 54572; 50445;
   13538; 9411; 5280; 1153; 29798; 25671; 21540; 17413;
   42971; 47098; 34713; 38840; 59231; 63358; 50973; 55100;
   9939; 14066; 1681; 5808; 26199; 30326; 17941; 22068;
   55628; 51565; 63758; 59695; 39368; 35305; 47498; 43435;
   22596; 18533; 30726; 26663; 6336; 2273; 14466; 10403;
   52093; 56156; 60223; 64286; 35833; 39896; 43963; 48026;
   19061; 23124; 27191; 31254; 2801; 6864; 10931; 14994;
   64814; 60687; 56684; 52557; 48554; 44427; 40424; 36297;
   31782; 27655; 23652; 19525; 15522; 11395; 7392; 3265;
   61215; 65342; 53085; 57212; 44955; 49082; 36825; 40952;
   28183; 32310; 20053; 24180; 11923; 16050; 3793; 7920].

(** The indexes are masked to the size of the table. *)
Definition crc16_step (crc b : Z) : Z :=
  u16 (Z.lxor (Z.shiftl crc 8) (nth (Z.to_nat (Z.land (Z.lxor (Z.shiftr crc 8) b) 255)) crc16tab 0)).

Definition crc16 (buf : list Z) : Z := fold_left crc16_step buf 0.

(** ** CRC-64, bit by bit *)

Definition POLY : Z := 0xad93d23594c935a9.

(** [((data >> k) & m) | ((data & m) << k)] *)
Definition swap_bits (k m data : Z) : Z :=
  Z.lor (Z.land (Z.shiftr data k) m) (u64 (Z.shiftl (Z.land data m) k)).

Definition bswap64 (data : Z) : Z := le_val (reverse (le_bytes 8 data)).

Definition crc_reflect (data data_len : Z) : Z :=
  let data := swap_bits 1 0x5555555555555555 data in
  let data := swap_bits 2 0x3333333333333333 data in
  let data := swap_bits 4 0x0F0F0F0F0F0F0F0F data in
  Z.shiftr (bswap64 data) (64 - data_len).

(** One bit of the data byte [c]. *)
Definition crc64_bit (c i crc : Z) : Z :=
  let bit := negb (Z.land crc 0x8000000000000000 =? 0) in
  let bit := if negb (Z.land c i =? 0) then negb bit else bit in
  let crc := u64 (Z.shiftl crc 1) in
  if bit then Z.lxor crc POLY else crc.

Definition crc64_byte (crc c : Z) : Z :=
  Z.land (fold_left (fun crc i => crc64_bit c i crc) [1; 2; 4; 8; 16; 32; 64; 128] crc) UINT64_MAX.

Definition _crc64 (crc : Z) (in_data : mem) : Z :=
  Z.lxor (crc_reflect (Z.land (fold_left crc64_byte in_data crc) UINT64_MAX) 64) 0.

(** ** Merging the checksums of segments *)

Definition CRC64_REVERSED_POLY : Z := 0x95ac9329ac4bc9b5.

(** The rows a value of four bits selects. *)
Definition switch4 (v : Z) : list Z :=
  match v with
  | 15 => [0; 1; 2; 3]
  | 14 => [1; 2; 3]
  | 13 => [0; 2; 3]
  | 12 => [2; 3]
  | 11 => [0; 1; 3]
  | 10 => [1; 3]
  | 9 => [0; 3]
  | 8 => [3]
  | 7 => [0; 1; 2]
  | 6 => [1; 2]
  | 5 => [0; 2]
  | 4 => [2]
  | 3 => [0; 1]
  | 2 => [1]
  | 1 => [0]
  | _ => []
  end.

Fixpoint xor_rows (mat : list Z) (i : Z) (rows : list Z) (sum : Z) : option Z :=
  match rows with
  | [] => Some sum
  | j :: rows => x ← rd mat (i + j); xor_rows mat i rows (Z.lxor sum x)
  end.

Fixpoint times_switch (fuel : nat) (mat : list Z) (i vec sum : Z) : option Z :=
  if vec =? 0 then Some sum
  else match fuel with
  | O => None
  | S fuel =>
    sum ← xor_rows mat i (switch4 (Z.land vec 15)) sum;
    times_switch fuel mat (i + 4) (Z.shiftr vec 4) sum
  end.

Definition gf2_matrix_times_switch (mat : list Z) (vec : Z) : option Z := times_switch 16 mat 0 vec 0.

Fixpoint square_rows (mat rows : list Z) : option (list Z) :=
  match rows with
  | [] => Some []
  | r :: rows => x ← gf2_matrix_times_switch mat r; xs ← square_rows mat rows; Some (x :: xs)
  end.

Definition gf2_matrix_square (mat : list Z) (dim : Z) : option (list Z) := square_rows mat (take (Z.to_nat dim) mat).

(** The static cache: 64 matrices of 64 rows. *)
Abbreviation cache := (list (list Z)).

Definition empty_cache : cache := replicate 64 (replicate 64 0).

(** The first row of a layer, and its other rows. *)
Definition first_matrix (poly dim : Z) : list Z := poly :: map (fun n => Z.shiftl 1 n) (seqZ 0 (dim - 1)).

(** The squares of the do-while loop, from layer [k] on. *)
Fixpoint cache_loop (n : nat) (k : nat) (prev : Z) (dim : Z) (c : cache) : option cache :=
  match n with
  | O => Some c
  | S n =>
    m ← c !! Z.to_nat (Z.of_nat k + prev);
    s ← gf2_matrix_square m dim;
    cache_loop n (S k) (-1) dim (<[k := s]> c)
  end.

Definition init_combine_cache (poly dim : Z) (c : cache) : option cache :=
  let m1 := first_matrix poly dim in
  m0 ← gf2_matrix_square m1 dim;
  m1 ← gf2_matrix_square m0 dim;
  cache_loop 64 0 1 dim (<[0%nat := m0]> (<[1%nat := m1]> c)).

Fixpoint combine_loop (fuel : nat) (c : cache) (cache_num len2 crc1 : Z) : option Z :=
  match fuel with
  | O => None
  | S fuel =>
    crc1 ← (if Z.odd len2 then m ← c !! Z.to_nat cache_num; gf2_matrix_times_switch m crc1 else Some crc1);
    let len2 := Z.shiftr len2 1 in
    let cache_num := Z.land (cache_num + 1) 63 in
    if len2 =? 0 then Some crc1 else combine_loop fuel c cache_num len2 crc1
  end.

Definition crc64_combine (crc1 crc2 len2 poly dim : Z) (c : cache) : option (Z * cache) :=
  if len2 =? 0 then Some (crc1, c)
  else
    m ← c !! 0%nat; x ← rd m 0;
    c ← (if x =? 0 then init_combine_cache poly dim c else Some c);
    crc1 ← combine_loop 64 c 0 len2 crc1;
    Some (Z.lxor crc1 crc2, c).

(** ** CRC-64 from tables *)

Definition CRC64_LEN_MASK : Z := 0x7ffffffffffffff8.

Abbreviation table64 := (list (list Z)).

(** [little_table[k][n]], where [n] is a byte. *)
Definition tab (t : table64) (k : nat) (n : Z) : Z := nth (Z.to_nat n) (nth k t []) 0.

Definition next_table (row0 row : list Z) : list Z :=
  map (fun crc => Z.lxor (nth (Z.to_nat (Z.land crc 255)) row0 0) (Z.shiftr crc 8)) row.

Fixpoint more_tables (n : nat) (row0 row : list Z) : table64 :=
  match n with
  | O => []
  | S n => let row := next_table row0 row in row :: more_tables n row0 row
  end.

Definition crcspeed64little_init (crcfn : Z -> mem -> Z) : table64 :=
  let row0 := map (fun n => crcfn 0 [n]) (seqZ 0 256) in
  row0 :: more_tables 7 row0 row0.

Definition DO_8_1 (buf : mem) (crc next : Z) : option Z :=
  w ← memread buf next 8; Some (Z.lxor crc (le_val w)).

Definition DO_8_2 (t : table64) (crc : Z) : Z :=
  Z.lxor (Z.lxor (Z.lxor (Z.lxor (Z.lxor (Z.lxor (Z.lxor
    (tab t 7 (u8 crc)) (tab t 6 (u8 (Z.shiftr crc 8)))) (tab t 5 (u8 (Z.shiftr crc 16))))
    (tab t 4 (u8 (Z.shiftr crc 24)))) (tab t 3 (u8 (Z.shiftr crc 32)))) (tab t 2 (u8 (Z.shiftr crc 40))))
    (tab t 1 (u8 (Z.shiftr crc 48)))) (tab t 0 (Z.shiftr crc 56)).

Section crcspeed.
(** The address of the data, the data, the tables, and the two cutoffs, which
    [set_crc64_cutoffs] changes. *)
Variable addr : Z.
Variable buf : mem.
Variable t : table64.
Variables CRC64_DUAL_CUTOFF CRC64_TRI_CUTOFF : Z.

Definition one_byte (crc next : Z) : option Z :=
  b ← rd buf next;
  Some (Z.lxor (tab t 0 (Z.land (Z.lxor crc b) 255)) (Z.shiftr crc 8)).

(** Single bytes up to an aligned address. *)
Fixpoint align_loop (fuel : nat) (crc next len : Z) : option (Z * Z * Z) :=
  if negb (len =? 0) && negb (Z.land (addr + next) 7 =? 0) then
    match fuel with
    | O => None
    | S fuel => crc ← one_byte crc next; align_loop fuel crc (next + 1) (len - 1)
    end
  else Some (crc, next, len).

(** Single bytes to the end. *)
Fixpoint byte_loop (fuel : nat) (crc next len : Z) : option Z :=
  if len =? 0 then Some crc
  else match fuel with
  | O => None
  | S fuel => crc ← one_byte crc next; byte_loop fuel crc (next + 1) (len - 1)
  end.

Fixpoint loop8 (fuel : nat) (crc1 next1 len : Z) : option (Z * Z * Z) :=
  if len >=? 8 then
    match fuel with
    | O => None
    | S fuel => x ← DO_8_1 buf crc1 next1; loop8 fuel (DO_8_2 t x) (next1 + 8) (len - 8)
    end
  else Some (crc1, next1, len).

Fixpoint loop16 (fuel : nat) (crc1 next1 crc2 next2 len : Z) : option (Z * Z * Z * Z) :=
  if len >=? 8 then
    match fuel with
    | O => None
    | S fuel =>
      x ← DO_8_1 buf crc1 next1; y ← DO_8_1 buf crc2 next2;
      loop16 fuel (DO_8_2 t x) (next1 + 8) (DO_8_2 t y) (next2 + 8) (len - 8)
    end
  else Some (crc1, next1, crc2, next2).

Fixpoint loop24 (fuel : nat) (crc1 next1 crc2 next2 crc3 next3 len : Z) : option (Z * Z * Z * Z * Z * Z) :=
  if len >=? 8 then
    match fuel with
    | O => None
    | S fuel =>
      x ← DO_8_1 buf crc1 next1; y ← DO_8_1 buf crc2 next2; z ← DO_8_1 buf crc3 next3;
      loop24 fuel (DO_8_2 t x) (next1 + 8) (DO_8_2 t y) (next2 + 8) (DO_8_2 t z) (next3 + 8) (len - 8)
    end
  else Some (crc1, next1, crc2, next2, crc3, next3).

Definition MERGE_CRC (crc1 crcn next1 next2 : Z) (c : cache) : option (Z * cache) :=
  crc64_combine crc1 crcn (u64 (next2 - next1)) CRC64_REVERSED_POLY 64 c.

(** Three or two segments at once, when there is enough to read. *)
Definition segments (crc1 next1 len : Z) (c : cache) : option (Z * Z * Z * cache) :=
  if len >? CRC64_TRI_CUTOFF then
    let olen := len in
    let next2 := next1 + Z.land (len `div` 3) CRC64_LEN_MASK in
    let len := next2 - next1 in
    let next3 := next2 + len in
    '(crc1, next1, crc2, next2, crc3, next3) ← loop24 (length buf) crc1 next1 0 next2 0 next3 len;
    '(crc1, c) ← MERGE_CRC crc1 crc2 next1 next2 c;
    '(crc1, c) ← MERGE_CRC crc1 crc3 next1 next2 c;
    Some (crc1, next3, u64 (olen - (next2 - next1) * 3), c)
  else if len >? CRC64_DUAL_CUTOFF then
    let olen := len in
    let next2 := next1 + Z.land (len `div` 2) CRC64_LEN_MASK in
    let len := next2 - next1 in
    '(crc1, next1, crc2, next2) ← loop16 (length buf) crc1 next1 0 next2 len;
    '(crc1, c) ← MERGE_CRC crc1 crc2 next1 next2 c;
    Some (crc1, next2, u64 (olen - (next2 - next1) * 2), c)
  else Some (crc1, next1, len, c).

Definition crcspeed64little (crc1 : Z) (c : cache) : option (Z * cache) :=
  '(crc1, next1, len, c) ←
    (if CRC64_DUAL_CUTOFF <? 1 then Some (crc1, 0, msize buf, c)
     else
       '(crc1, next1, len) ← align_loop (length buf) crc1 0 (msize buf);
       '(crc1, next1, len, c) ← segments crc1 next1 len c;
       '(crc1, next1, len) ← loop8 (length buf) crc1 next1 len;
       Some (crc1, next1, len, c));
  crc1 ← byte_loop (length buf) crc1 next1 len;
  Some (crc1, c).
End crcspeed.

Definition crc64_table : table64 := crcspeed64little_init _crc64.

(** [crc64] of a block at an address, on a little-endian machine. *)
Definition crc64 (dual tri addr : Z) (c : cache) (crc : Z) (s : mem) : option (Z * cache) :=
  crcspeed64little addr s crc64_table dual tri crc c.

(** ** Polynomials over GF(2)

    The register shifted through one bit of zeros, and through [n] bits. *)
Definition zero_bit (c : Z) : Z := Z.lxor (Z.shiftr c 1) (if Z.odd c then CRC64_REVERSED_POLY else 0).
Definition zeros (n : nat) (c : Z) : Z := Nat.iter n zero_bit c.

(** The checksum of [data] by definition: each byte is added to the low end of the
    register, which is then shifted through eight bits. *)
Definition crc_bytes (crc : Z) (data : mem) : Z := fold_left (fun r b => zeros 8 (Z.lxor r b)) data crc.

Class Linear (f : Z -> Z) : Prop := linear a b : f (Z.lxor a b) = Z.lxor (f a) (f b).

Lemma linear_0 f `{!Linear f} : f 0 = 0.
Proof. pose proof (linear (f := f) 0 0) as H. by rewrite !Z.lxor_nilpotent in H. Qed.

#[export] Instance zero_bit_linear : Linear zero_bit.
Proof.
  intros a b. unfold zero_bit. rewrite Z.shiftr_lxor, <- !Z.bit0_odd, Z.lxor_spec. apply Z.bits_inj'. intros n _.
  destruct (Z.testbit a 0), (Z.testbit b 0); cbn [xorb]; rewrite !Z.lxor_spec, ?Z.bits_0;
    by destruct (Z.testbit (Z.shiftr a 1) n), (Z.testbit (Z.shiftr b 1) n), (Z.testbit CRC64_REVERSED_POLY n).
Qed.

#[export] Instance iter_linear n f `{!Linear f} : Linear (Nat.iter n f).
Proof. intros a b. induction n as [|n IH]; [done|]. cbn [Nat.iter nat_rect]. unfold Nat.iter in IH. by rewrite IH, linear. Qed.

#[export] Instance zeros_linear n : Linear (zeros n).
Proof. apply iter_linear, _. Qed.

Lemma zeros_add m n c : zeros (m + n) c = zeros m (zeros n c).
Proof. apply Nat.iter_add. Qed.

Lemma zero_bit_double x : zero_bit (2 * x) = x.
Proof.
  unfold zero_bit. rewrite Z.odd_mul. cbn [Z.odd andb]. rewrite Z.lxor_0_r, Z.shiftr_div_pow2 by done.
  rewrite Z.mul_comm. by apply Z.div_mul.
Qed.

Lemma zeros_shiftl n x : zeros n (Z.shiftl x (Z.of_nat n)) = x.
Proof.
  revert x. induction n as [|n IH]; intros x; [apply Z.shiftl_0_r|]. replace (S n) with (n + 1)%nat by lia.
  rewrite zeros_add. change (zeros 1 ?c) with (zero_bit c).
  replace (Z.shiftl x (Z.of_nat (n + 1))) with (2 * Z.shiftl x (Z.of_nat n)).
  - by rewrite zero_bit_double.
  - rewrite !Z.shiftl_mul_pow2 by lia. rewrite Nat2Z.inj_add, Z.pow_add_r by lia. lia.
Qed.

(** ** Words of 64 bits *)

Definition word (c : Z) : Prop := 0 <= c < 2 ^ 64.

Lemma word_iff c : word c <-> 0 <= c /\ forall n, 64 <= n -> Z.testbit c n = false.
Proof.
  unfold word. split.
  - intros [H1 H2]. split; [done|]. intros n Hn. rewrite <- (Z.mod_small c (2 ^ 64)) by done. by apply Z.mod_pow2_bits_high.
  - intros [H1 H2]. split; [done|]. destruct (Z.eq_dec c 0) as [->|]; [done|].
    apply Z.log2_lt_pow2; [lia|]. destruct (Z.lt_ge_cases (Z.log2 c) 64) as [|Hl]; [done|].
    apply H2 in Hl. rewrite Z.bit_log2 in Hl by lia. done.
Qed.

Lemma word_lxor a b : word a -> word b -> word (Z.lxor a b).
Proof.
  rewrite !word_iff. intros [A1 A2] [B1 B2]. split; [by apply Z.lxor_nonneg|].
  intros n Hn. by rewrite Z.lxor_spec, A2, B2.
Qed.

Lemma word_zero_bit c : word c -> word (zero_bit c).
Proof.
  intros H. apply word_lxor; [|by destruct (Z.odd c)]. unfold word in *.
  rewrite Z.shiftr_div_pow2 by done. change (2 ^ 1) with 2. dlia.
Qed.

Lemma word_zeros n c : word c -> word (zeros n c).
Proof. intros H. induction n as [|n IH]; [done|]. by apply word_zero_bit. Qed.

Lemma byte_word b : byte b -> word b.
Proof. unfold byte, word. lia. Qed.

#[local] Hint Resolve word_lxor word_zeros byte_word : redis.

Lemma word_crc_bytes data crc : bytes data -> word crc -> word (crc_bytes crc data).
Proof.
  intros H. revert crc. induction H as [|b data Hb _ IH]; intros crc Hc; [done|]. apply IH. auto with redis.
Qed.

Lemma crc_bytes_app a b crc : crc_bytes crc (a ++ b) = crc_bytes (crc_bytes crc a) b.
Proof. apply fold_left_app. Qed.

Lemma byte_low c : 0 <= c -> byte (Z.land c 255).
Proof. intros H. change 255 with (Z.ones 8). rewrite Z.land_ones by done. unfold byte. change (2 ^ 8) with 256. dlia. Qed.

(** A word is its low byte and the others. *)
Lemma split_byte c : c = Z.lxor (Z.land c 255) (Z.shiftl (Z.shiftr c 8) 8).
Proof.
  apply Z.bits_inj'. intros n Hn. rewrite Z.lxor_spec, Z.land_spec. change 255 with (Z.ones 8).
  destruct (Z.lt_ge_cases n 8).
  - by rewrite Z.ones_spec_low, Z.shiftl_spec_low, andb_true_r, xorb_false_r by lia.
  - rewrite Z.ones_spec_high, andb_false_r, Z.shiftl_spec, Z.shiftr_spec by lia. cbn. f_equal. lia.
Qed.

Lemma zeros_8 c : zeros 8 c = Z.lxor (zeros 8 (Z.land c 255)) (Z.shiftr c 8).
Proof. rewrite (split_byte c) at 1. rewrite linear. by rewrite (zeros_shiftl 8). Qed.

(** The bytes of a word at once. *)
Lemma zeros_le_val w crc : bytes w -> zeros (8 * length w) (Z.lxor crc (le_val w)) = crc_bytes crc w.
Proof.
  intros H. revert crc. induction H as [|b w Hb _ IH]; intros crc; [by rewrite Z.lxor_0_r|].
  cbn [le_val length]. replace (8 * S (length w))%nat with (8 * length w + 8)%nat by lia. rewrite zeros_add.
  replace (b + 256 * le_val w) with (Z.lxor b (Z.shiftl (le_val w) (Z.of_nat 8))).
  - rewrite <- Z.lxor_assoc, linear, zeros_shiftl. apply IH.
  - rewrite Z.add_comm, Z.mul_comm, <- Z.shiftl_mul_pow2 with (n := 8) by done.
    rewrite Z.lxor_comm, <- Z.add_nocarry_lxor; [done|]. apply Z.bits_inj'. intros n Hn. rewrite Z.land_spec, Z.bits_0.
    destruct (Z.lt_ge_cases n 8); [by rewrite Z.shiftl_spec_low|].
    assert (Z.testbit b n = false) as ->; [|by rewrite andb_false_r].
    unfold byte in Hb. rewrite <- (Z.mod_small b (2 ^ 8)) by done. by apply Z.mod_pow2_bits_high.
Qed.

(** The register before the data is shifted past it. *)
Lemma crc_bytes_lxor crc w : bytes w -> crc_bytes crc w = Z.lxor (zeros (8 * length w) crc) (crc_bytes 0 w).
Proof. intros H. rewrite <- !zeros_le_val by done. by rewrite linear. Qed.

(** ** What the checksum detects *)

Lemma zero_bit_kernel c : word c -> zero_bit c = 0 -> c = 0.
Proof.
  unfold zero_bit, word. intros Hc E%Z.lxor_eq. rewrite Z.shiftr_div_pow2 in E by done. change (2 ^ 1) with 2 in E.
  destruct (Z.odd c) eqn:Ho; [unfold CRC64_REVERSED_POLY in E; dlia|].
  rewrite <- Z.negb_even in Ho. apply negb_false_iff, Z.even_spec in Ho as [k ->]. rewrite Z.mul_comm, Z.div_mul in E; lia.
Qed.

Lemma zeros_inj n a b : word a -> word b -> zeros n a = zeros n b -> a = b.
Proof.
  intros Ha Hb E. apply Z.lxor_eq. assert (zeros n (Z.lxor a b) = 0) as E0 by (by rewrite linear, E, Z.lxor_nilpotent).
  assert (word (Z.lxor a b)) as Hw by auto with redis. revert E0. generalize dependent (Z.lxor a b). clear. intros c Hc.
  induction n as [|n IH]; [done|]. intros E%zero_bit_kernel; [by apply IH|]. by apply word_zeros.
Qed.

(** A change of at most eight bytes in a row changes the checksum. *)
Lemma crc_bytes_burst crc a x y b :
  word crc -> bytes a -> bytes x -> bytes y -> bytes b -> length x = length y -> (length x <= 8)%nat ->
  crc_bytes crc (a ++ x ++ b) = crc_bytes crc (a ++ y ++ b) -> x = y.
Proof.
  intros Hc Ha Hx Hy Hb El E8. rewrite !crc_bytes_app, !(crc_bytes_lxor (crc_bytes _ _) b) by done.
  intros E. apply (f_equal (fun z => Z.lxor z (crc_bytes 0 b))) in E. rewrite !Z.lxor_assoc, Z.lxor_nilpotent, !Z.lxor_0_r in E.
  assert (word (crc_bytes crc a)) as Hw by by apply word_crc_bytes.
  apply zeros_inj in E; [|by apply word_crc_bytes..]. rewrite <- (zeros_le_val x), <- (zeros_le_val y), <- El in E by done.
  assert (forall w, bytes w -> (length w <= 8)%nat -> word (le_val w)) as Hle.
  { intros w Hbw Hl. pose proof (le_val_bound w Hbw) as Hv. unfold word. change (2 ^ 64) with (256 ^ 8).
    assert (256 ^ Z.of_nat (length w) <= 256 ^ 8) by (apply Z.pow_le_mono_r; lia). lia. }
  apply zeros_inj in E; [|apply word_lxor; [done|apply Hle; (done || lia)]..].
  assert (le_val x = le_val y) as Ev.
  { apply (f_equal (fun z => Z.lxor (crc_bytes crc a) z)) in E. by rewrite <- !Z.lxor_assoc, Z.lxor_nilpotent, !Z.lxor_0_l in E. }
  rewrite <- (le_bytes_le_val x Hx), <- (le_bytes_le_val y Hy), El. by rewrite Ev.
Qed.

(** ** Bit by bit *)

(** The octets of [bswap64], bit by bit. *)
Lemma le_val_spec (w : list Z) i : bytes w -> 0 <= i ->
  Z.testbit (le_val w) i = match w !! Z.to_nat (i `div` 8) with Some b => Z.testbit b (i `mod` 8) | None => false end.
Proof.
  intros Hw. revert i. induction Hw as [|b w Hb Hw IH]; intros i Hi; [by rewrite Z.bits_0|]. cbn [le_val].
  unfold byte in Hb. destruct (Z.lt_ge_cases i 8).
  - rewrite Z.div_small, Z.mod_small by lia. cbn [Z.to_nat lookup list_lookup].
    rewrite <- (Z.mod_pow2_bits_low _ 8 i) by lia. change (2 ^ 8) with 256.
    rewrite Z.mul_comm, Z.mod_add by lia. by rewrite Z.mod_small by lia.
  - replace i with (i - 8 + 8) at 1 by lia. rewrite <- Z.div_pow2_bits by lia. change (2 ^ 8) with 256.
    rewrite Z.mul_comm, Z.div_add, (Z.div_small b) by lia. rewrite Z.add_0_l, IH by lia.
    replace (Z.to_nat (i `div` 8)) with (S (Z.to_nat ((i - 8) `div` 8))) by dlia.
    replace (i `mod` 8) with ((i - 8) `mod` 8) by dlia. done.
Qed.

Lemma le_bytes_lookup n z i b : 0 <= z -> (le_bytes n z : list Z) !! i = Some b -> (i < n)%nat /\ b = Z.shiftr z (8 * Z.of_nat i) `mod` 256.
Proof.
  revert z i. induction n as [|n IH]; intros z i Hz; [done|]. cbn [le_bytes]. destruct i as [|i]; cbn.
  - intros [= <-]. split; [lia|done].
  - intros H%IH; [|dlia]. destruct H as [H ->]. split; [lia|]. f_equal.
    rewrite !Z.shiftr_div_pow2 by lia. replace (8 * Z.of_nat (S i)) with (8 + 8 * Z.of_nat i) by lia.
    rewrite Z.pow_add_r, Z.div_div by lia. done.
Qed.

Lemma bswap64_spec x i : 0 <= x -> 0 <= i < 64 ->
  Z.testbit (bswap64 x) i = Z.testbit x (8 * (7 - i `div` 8) + i `mod` 8).
Proof.
  intros Hx Hi. unfold bswap64. rewrite le_val_spec; [|apply Forall_reverse, bytes_le_bytes|lia].
  assert (length (le_bytes 8 x) = 8%nat) as Hl by done.
  destruct (lookup_lt_is_Some_2 (reverse (le_bytes 8 x) : list Z) (Z.to_nat (i `div` 8))) as [b Hb];
    [rewrite length_reverse, Hl; dlia|].
  rewrite Hb. apply reverse_lookup_Some in Hb as [Hb _]. rewrite Hl in Hb.
  apply le_bytes_lookup in Hb as [_ ->]; [|done]. change 256 with (2 ^ 8).
  rewrite Z.mod_pow2_bits_low by dlia. rewrite Z.shiftr_spec by dlia. f_equal. dlia.
Qed.

Lemma bswap64_word x : word (bswap64 x).
Proof. apply (le_val_bound (reverse (le_bytes 8 x))), Forall_reverse, bytes_le_bytes. Qed.

(** [m] selects the low half of each group of [2 * k] bits. *)
Lemma swap_bits_spec k m x i :
  word x -> 0 <= k -> 0 <= i < 64 ->
  Z.testbit (swap_bits k m x) i =
    Z.testbit x (i + k) && Z.testbit m i || (Z.testbit x (i - k) && Z.testbit m (i - k)).
Proof.
  intros [Hx _] Hk Hi. unfold swap_bits, wrapu. rewrite Z.lor_spec, Z.land_spec, Z.shiftr_spec by lia. f_equal.
  rewrite Z.mod_pow2_bits_low, Z.shiftl_spec, Z.land_spec by lia. done.
Qed.

Lemma swap_bits_word k m x : word x -> word m -> 0 <= k -> word (swap_bits k m x).
Proof.
  rewrite !word_iff. intros [X1 X2] [M1 M2] Hk. unfold swap_bits, wrapu. split.
  - apply Z.lor_nonneg. split; [apply Z.land_nonneg; by right|]. apply Z.mod_pos_bound. done.
  - intros n Hn. rewrite Z.lor_spec, Z.land_spec, M2, andb_false_r by done. by apply Z.mod_pow2_bits_high.
Qed.

(** Sixty-four cases. *)
Ltac each_bit i H :=
  assert (In i (seqZ 0 64)) as Hin by (apply list_elem_of_In, elem_of_seqZ; lia); clear H;
  cbn in Hin; repeat (destruct Hin as [<-|Hin]); [..|done].

Lemma crc_reflect_spec x i : word x -> 0 <= i < 64 -> Z.testbit (crc_reflect x 64) i = Z.testbit x (63 - i).
Proof.
  intros Hx Hi. unfold crc_reflect. rewrite Z.shiftr_0_r.
  assert (word (swap_bits 1 0x5555555555555555 x)) as H1 by by apply swap_bits_word.
  assert (word (swap_bits 2 0x3333333333333333 (swap_bits 1 0x5555555555555555 x))) as H2 by by apply swap_bits_word.
  rewrite bswap64_spec; [|by apply swap_bits_word|done].
  each_bit i Hi; repeat (rewrite swap_bits_spec by (done || (split; done)); cbn;
    rewrite ?andb_true_r, ?andb_false_r, ?orb_false_r); done.
Qed.

Lemma word_eq a b : word a -> word b -> (forall i, 0 <= i < 64 -> Z.testbit a i = Z.testbit b i) -> a = b.
Proof.
  rewrite !word_iff. intros [_ A] [_ B] H. apply Z.bits_inj'. intros n Hn.
  destruct (Z.lt_ge_cases n 64); [apply H; lia|]. by rewrite A, B.
Qed.

Lemma word_reflect x : word (crc_reflect x 64).
Proof. unfold crc_reflect. rewrite Z.shiftr_0_r. apply bswap64_word. Qed.

#[local] Hint Resolve word_reflect : redis.

Lemma reflect_reflect x : word x -> crc_reflect (crc_reflect x 64) 64 = x.
Proof.
  intros H. apply word_eq; auto with redis. intros i Hi. rewrite !crc_reflect_spec by (auto with redis; lia).
  f_equal. lia.
Qed.

Lemma reflect_lxor a b : word a -> word b -> crc_reflect (Z.lxor a b) 64 = Z.lxor (crc_reflect a 64) (crc_reflect b 64).
Proof.
  intros Ha Hb. apply word_eq; auto with redis. intros i Hi.
  rewrite Z.lxor_spec, !crc_reflect_spec by auto with redis. apply Z.lxor_spec.
Qed.

Lemma word_u64 x : word (u64 x).
Proof. apply in_u_wrapu. done. Qed.

Lemma reflect_shiftl x : word x -> crc_reflect (u64 (Z.shiftl x 1)) 64 = Z.shiftr (crc_reflect x 64) 1.
Proof.
  intros Hx. apply word_eq; auto with redis.
  { pose proof (word_reflect x) as H. unfold word in *. rewrite Z.shiftr_div_pow2 by done. change (2 ^ 1) with 2. dlia. }
  intros i Hi. rewrite crc_reflect_spec by (done || apply word_u64). rewrite Z.shiftr_spec by lia. unfold wrapu.
  rewrite Z.mod_pow2_bits_low, Z.shiftl_spec by lia. destruct (decide (i = 63)) as [->|].
  - rewrite (proj2 (proj1 (word_iff _) (word_reflect x))) by lia. apply Z.testbit_neg_r. lia.
  - rewrite crc_reflect_spec by (done || lia). f_equal. lia.
Qed.

Lemma land_bit x i : 0 <= i -> negb (Z.land x (2 ^ i) =? 0) = Z.testbit x i.
Proof.
  intros Hi. destruct (Z.testbit x i) eqn:E.
  - apply negb_true_iff, Z.eqb_neq. intros H. apply (f_equal (fun z => Z.testbit z i)) in H.
    by rewrite Z.land_spec, E, Z.pow2_bits_true, Z.bits_0 in H.
  - apply negb_false_iff, Z.eqb_eq, Z.bits_inj'. intros n Hn. rewrite Z.land_spec, Z.bits_0.
    destruct (decide (n = i)) as [->|]; [by rewrite E|]. rewrite Z.pow2_bits_false by done. apply andb_false_r.
Qed.

Lemma crc64_bit_spec c j crc : word crc -> 0 <= j ->
  word (crc64_bit c (2 ^ j) crc) /\
  crc_reflect (crc64_bit c (2 ^ j) crc) 64 = zero_bit (Z.lxor (crc_reflect crc 64) (b2z (Z.testbit c j))).
Proof.
  intros Hc Hj. unfold crc64_bit. change 0x8000000000000000 with (2 ^ 63). rewrite !land_bit by done.
  assert (word POLY) as HP by done. pose proof (word_u64 (Z.shiftl crc 1)) as Hu.
  split; [destruct (if Z.testbit c j then _ else _); auto with redis|].
  assert (Z.testbit crc 63 = Z.testbit (crc_reflect crc 64) 0) as -> by by rewrite crc_reflect_spec.
  unfold zero_bit. rewrite Z.shiftr_lxor, <- Z.bit0_odd, Z.lxor_spec, <- reflect_shiftl by done.
  assert (Z.shiftr (b2z (Z.testbit c j)) 1 = 0) as -> by by destruct (Z.testbit c j).
  assert (Z.testbit (b2z (Z.testbit c j)) 0 = Z.testbit c j) as -> by by destruct (Z.testbit c j).
  rewrite Z.lxor_0_r. change CRC64_REVERSED_POLY with (crc_reflect POLY 64).
  destruct (Z.testbit c j), (Z.testbit (crc_reflect crc 64) 0); cbn [negb xorb];
    rewrite ?reflect_lxor, ?Z.lxor_0_r by done; done.
Qed.

(** Bit after bit of [c] from the low end, or all of them at once. *)
Definition crc64_bits (c k : Z) (n : nat) (crc : Z) : Z :=
  fold_left (fun crc j => crc64_bit c (2 ^ j) crc) (seqZ k (Z.of_nat n)) crc.

Lemma crc64_bits_spec c n k crc :
  word crc -> 0 <= k -> Z.shiftr c (k + Z.of_nat n) = 0 ->
  word (crc64_bits c k n crc) /\
  crc_reflect (crc64_bits c k n crc) 64 = zeros n (Z.lxor (crc_reflect crc 64) (Z.shiftr c k)).
Proof.
  unfold crc64_bits. revert k crc. induction n as [|n IH]; intros k crc Hc Hk Hz.
  - cbn. rewrite Z.add_0_r in Hz. by rewrite Hz, Z.lxor_0_r.
  - rewrite seqZ_cons by lia. cbn [fold_left]. destruct (crc64_bit_spec c k crc Hc Hk) as [W E].
    replace (Z.pred (Z.of_nat (S n))) with (Z.of_nat n) by lia. replace (Z.succ k) with (k + 1) by lia.
    destruct (IH (k + 1) _ W ltac:(lia)) as [W' E']; [rewrite <- Hz; f_equal; lia|]. split; [done|]. rewrite E', E.
    replace (S n) with (n + 1)%nat by lia. rewrite zeros_add. change (zeros 1 ?x) with (zero_bit x). f_equal.
    assert (Z.shiftr c k = Z.lxor (b2z (Z.testbit c k)) (2 * Z.shiftr c (k + 1))) as ->.
    { apply Z.bits_inj'. intros i Hi. rewrite Z.lxor_spec, Z.shiftr_spec by done. destruct (decide (i = 0)) as [->|].
      - rewrite Z.testbit_even_0, xorb_false_r, Z.add_0_l. by destruct (Z.testbit c k).
      - replace i with (Z.succ (i - 1)) by lia. rewrite Z.testbit_even_succ, Z.shiftr_spec by lia.
        replace (Z.testbit (b2z (Z.testbit c k)) (Z.succ (i - 1))) with false.
        + cbn. f_equal. lia.
        + symmetry. destruct (Z.testbit c k); cbn [b2z]; [|apply Z.bits_0]. apply Z.bits_above_log2; cbn; lia. }
    by rewrite <- Z.lxor_assoc, (linear (f := zero_bit) (Z.lxor _ _)), zero_bit_double.
Qed.

Lemma land_word x : word x -> Z.land x UINT64_MAX = x.
Proof. intros H. change UINT64_MAX with (Z.ones 64). rewrite Z.land_ones by done. by apply Z.mod_small. Qed.

Lemma fold_left_map {A B C} (f : A -> C -> A) (g : B -> C) l a :
  fold_left f (map g l) a = fold_left (fun a x => f a (g x)) l a.
Proof. revert a. induction l as [|x l IH]; intros a; [done|apply IH]. Qed.

Lemma crc64_bytes_bits crc c :
  fold_left (fun crc i => crc64_bit c i crc) [1; 2; 4; 8; 16; 32; 64; 128] crc =
  crc64_bits c 0 8 crc.
Proof. unfold crc64_bits. by rewrite <- (fold_left_map (fun crc i => crc64_bit c i crc) (Z.pow 2)). Qed.

Lemma byte_shiftr c : byte c -> Z.shiftr c (0 + Z.of_nat 8) = 0.
Proof. intros H. rewrite Z.shiftr_div_pow2 by done. by apply Z.div_small. Qed.

Lemma crc64_byte_bits crc c : word crc -> byte c -> crc64_byte crc c = crc64_bits c 0 8 crc.
Proof.
  intros Hc Hb. unfold crc64_byte. rewrite crc64_bytes_bits. apply land_word.
  apply (crc64_bits_spec c 8 0 crc Hc (Z.le_refl 0) (byte_shiftr c Hb)).
Qed.

Lemma crc64_byte_word crc c : word crc -> byte c -> word (crc64_byte crc c).
Proof.
  intros Hc Hb. rewrite crc64_byte_bits by done. 
  apply (crc64_bits_spec c 8 0 crc Hc (Z.le_refl 0) (byte_shiftr c Hb)).
Qed.

Lemma crc64_byte_spec crc c : word crc -> byte c ->
  crc_reflect (crc64_byte crc c) 64 = zeros 8 (Z.lxor (crc_reflect crc 64) c).
Proof.
  intros Hc Hb. rewrite crc64_byte_bits by done. 
  rewrite <- (Z.shiftr_0_r c) at 2.
  apply (crc64_bits_spec c 8 0 crc Hc (Z.le_refl 0) (byte_shiftr c Hb)).
Qed.

Lemma crc_bytes_cons r b data : crc_bytes r (b :: data) = crc_bytes (zeros 8 (Z.lxor r b)) data.
Proof. done. Qed.

#[local] Opaque zeros crc64_byte crc_reflect.

Lemma fold_crc64_byte crc data : word crc -> bytes data ->
  word (fold_left crc64_byte data crc) /\
  crc_reflect (fold_left crc64_byte data crc) 64 = crc_bytes (crc_reflect crc 64) data.
Proof.
  intros Hc Hd. revert crc Hc. induction Hd as [|b data Hb _ IH]; intros crc Hc; [done|].
  rewrite crc_bytes_cons, <- crc64_byte_spec by done. cbn [fold_left]. apply IH, crc64_byte_word; done.
Qed.

(** The bit-by-bit checksum is the one by definition, on reflected registers. *)
Lemma _crc64_spec crc data : word crc -> bytes data -> _crc64 crc data = crc_bytes (crc_reflect crc 64) data.
Proof.
  intros Hc Hd. unfold _crc64. destruct (fold_crc64_byte crc data Hc Hd) as [W E]. by rewrite Z.lxor_0_r, land_word.
Qed.

(** ** Matrices *)

(** The matrix whose rows are what becomes of each bit under [n] zero bits. *)
Definition matrix (n : nat) : list Z := map (fun i => zeros n (2 ^ i)) (seqZ 0 64).

Lemma matrix_row n i : 0 <= i < 64 -> rd (matrix n) i = Some (zeros n (2 ^ i)).
Proof.
  intros Hi. unfold rd, matrix. ztrue lia. rewrite list_lookup_fmap, lookup_seqZ_lt by lia. cbn. do 3 f_equal. lia.
Qed.

Fixpoint rows_value (rows : list Z) : Z :=
  match rows with [] => 0 | j :: rows => Z.lxor (2 ^ j) (rows_value rows) end.

Lemma xor_rows_ok n i rows sum :
  0 <= i -> Forall (fun j => 0 <= j < 4 /\ i + j < 64) rows ->
  xor_rows (matrix n) i rows sum = Some (Z.lxor sum (zeros n (Z.shiftl (rows_value rows) i))).
Proof.
  intros Hi H. revert sum. induction H as [|j rows Hj _ IH]; intros sum; cbn [xor_rows rows_value].
  - by rewrite Z.shiftl_0_l, (linear_0 (zeros n)), Z.lxor_0_r.
  - rewrite matrix_row by lia. cbn [mbind option_bind]. rewrite IH, Z.shiftl_lxor, linear, Z.lxor_assoc.
    rewrite <- (Z.shiftl_1_l j), Z.shiftl_shiftl by lia. by rewrite Z.shiftl_1_l, Z.add_comm.
Qed.

Lemma switch4_value v : 0 <= v < 16 -> rows_value (switch4 v) = v /\ Forall (fun j => 0 <= j < 4) (switch4 v).
Proof.
  intros H. assert (In v (seqZ 0 16)) as Hin by (apply list_elem_of_In, elem_of_seqZ; lia). clear H.
  cbn in Hin. repeat (destruct Hin as [<-|Hin]); [..|done]; (split; [done|]); cbn; repeat constructor; done.
Qed.

Lemma split_nibble v : v = Z.lxor (Z.land v 15) (Z.shiftl (Z.shiftr v 4) 4).
Proof.
  apply Z.bits_inj'. intros n Hn. rewrite Z.lxor_spec, Z.land_spec. change 15 with (Z.ones 4).
  destruct (Z.lt_ge_cases n 4).
  - by rewrite Z.ones_spec_low, Z.shiftl_spec_low, andb_true_r, xorb_false_r by lia.
  - rewrite Z.ones_spec_high, andb_false_r, Z.shiftl_spec, Z.shiftr_spec by lia. cbn. f_equal. lia.
Qed.

Lemma times_switch_ok n fuel i vec sum :
  0 <= i -> i + 4 * Z.of_nat fuel = 64 -> 0 <= vec < 2 ^ (4 * Z.of_nat fuel) ->
  times_switch fuel (matrix n) i vec sum = Some (Z.lxor sum (zeros n (Z.shiftl vec i))).
Proof.
  revert i vec sum. induction fuel as [|fuel IH]; intros i vec sum Hi Hf Hv; cbn [times_switch].
  - assert (vec = 0) as -> by (cbn in Hv; lia). by rewrite Z.shiftl_0_l, (linear_0 (zeros n)), Z.lxor_0_r.
  - destruct (Z.eqb_spec vec 0) as [->|].
    { by rewrite Z.shiftl_0_l, (linear_0 (zeros n)), Z.lxor_0_r. }
    assert (0 <= Z.land vec 15 < 16) as Hl.
    { change 15 with (Z.ones 4). rewrite Z.land_ones by done. apply Z.mod_pos_bound. done. }
    destruct (switch4_value _ Hl) as [E F]. rewrite xor_rows_ok; [|done|eapply Forall_impl; [exact F|]; cbn; lia].
    cbn [mbind option_bind]. rewrite E, IH; [|lia|lia|].
    + rewrite Z.lxor_assoc, <- linear. do 3 f_equal. rewrite (split_nibble vec) at 3.
      rewrite Z.shiftl_lxor, Z.shiftl_shiftl by lia. do 2 f_equal. lia.
    + rewrite Z.shiftr_div_pow2 by done. split; [apply Z.div_pos; lia|]. apply Z.div_lt_upper_bound; [done|].
      rewrite <- Z.pow_add_r by lia. replace (4 + 4 * Z.of_nat fuel) with (4 * Z.of_nat (S fuel)) by lia. lia.
Qed.

Lemma times_ok n vec : word vec -> gf2_matrix_times_switch (matrix n) vec = Some (zeros n vec).
Proof.
  intros H. unfold gf2_matrix_times_switch. rewrite times_switch_ok by done. by rewrite Z.shiftl_0_r, Z.lxor_0_l.
Qed.

Lemma square_rows_ok n rows : Forall word rows -> square_rows (matrix n) rows = Some (map (zeros n) rows).
Proof.
  induction 1 as [|r rows Hr _ IH]; [done|]. cbn [square_rows]. rewrite times_ok by done. cbn [mbind option_bind].
  by rewrite IH.
Qed.

Lemma word_pow2 i : 0 <= i < 64 -> word (2 ^ i).
Proof. intros Hi. split; [lia|]. apply Z.pow_lt_mono_r; lia. Qed.

Lemma matrix_square n : gf2_matrix_square (matrix n) 64 = Some (matrix (n + n)).
Proof.
  unfold gf2_matrix_square. assert (length (matrix n) = 64%nat) as Hl by by unfold matrix; rewrite length_map, length_seqZ.
  rewrite take_ge by (rewrite Hl; done). rewrite square_rows_ok.
  - unfold matrix. rewrite map_map. f_equal. apply map_ext. intros i. symmetry. apply zeros_add.
  - unfold matrix. apply Forall_fmap, Forall_forall. intros i Hi%elem_of_seqZ. apply word_zeros, word_pow2. lia.
Qed.

#[local] Transparent zeros.

Lemma first_matrix_ok : first_matrix CRC64_REVERSED_POLY 64 = matrix 1.
Proof. vm_compute. reflexivity. Qed.

#[local] Opaque zeros matrix.

(** Layer [k] of the cache shifts through [2 ^ k] zero bytes. *)
Definition layers (k : nat) (c : cache) : Prop :=
  length c = 64%nat /\ forall j, (j < k)%nat -> c !! j = Some (matrix (8 * 2 ^ j)).

Lemma cache_loop_ok n k prev c :
  (k + n)%nat = 64%nat -> layers k c ->
  c !! Z.to_nat (Z.of_nat k + prev) = Some (matrix (4 * 2 ^ k)) -> (k = 0%nat \/ prev = -1) ->
  exists c', cache_loop n k prev 64 c = Some c' /\ layers 64 c'.
Proof.
  revert k prev c. induction n as [|n IH]; intros k prev c Hk [Hl Hc] Hp Hprev; cbn [cache_loop].
  - exists c. split; [done|]. replace 64%nat with k by lia. by split.
  - rewrite Hp. cbn [mbind option_bind]. rewrite matrix_square. cbn [mbind option_bind].
    replace (4 * 2 ^ k + 4 * 2 ^ k)%nat with (8 * 2 ^ k)%nat by lia.
    assert (<[k:=matrix (8 * 2 ^ k)]> c !! k = Some (matrix (8 * 2 ^ k))) as Hlk by (apply list_lookup_insert_eq; lia).
    apply IH; [lia| | |by right].
    + split; [by rewrite length_insert|]. intros j Hj. destruct (decide (j = k)) as [->|]; [done|].
      rewrite list_lookup_insert_ne by done. apply Hc. lia.
    + replace (Z.to_nat (Z.of_nat (S k) + -1)) with k by lia. rewrite Hlk. do 2 f_equal. rewrite Nat.pow_succ_r'. lia.
Qed.

Lemma init_combine_cache_ok c : length c = 64%nat ->
  exists c', init_combine_cache CRC64_REVERSED_POLY 64 c = Some c' /\ layers 64 c'.
Proof.
  intros Hl. unfold init_combine_cache. rewrite first_matrix_ok, !matrix_square. cbn [mbind option_bind].
  rewrite matrix_square. cbn [mbind option_bind]. apply cache_loop_ok; [done| | |by left].
  - split; [by rewrite !length_insert|lia].
  - change (Z.to_nat (Z.of_nat 0 + 1)) with 1%nat. rewrite list_lookup_insert_ne by done.
    rewrite list_lookup_insert_eq by lia. done.
Qed.

(** The cache is filled, or its first entry is zero. *)
Definition good_cache (c : cache) : Prop :=
  length c = 64%nat /\ exists m x, c !! 0%nat = Some m /\ rd m 0 = Some x /\ (x = 0 \/ layers 64 c).

Lemma layers_good c : layers 64 c -> good_cache c.
Proof.
  intros [Hl Hc]. split; [done|]. eexists _, _. split; [apply Hc; lia|]. split; [by apply matrix_row|]. by right.
Qed.

Lemma empty_cache_good : good_cache empty_cache.
Proof. split; [done|]. eexists _, _. split; [done|]. split; [done|]. by left. Qed.

Lemma combine_loop_ok fuel c k len2 crc1 :
  layers 64 c -> (k + fuel = 64)%nat -> 0 < len2 < 2 ^ Z.of_nat fuel -> word crc1 ->
  combine_loop fuel c (Z.of_nat k) len2 crc1 = Some (zeros (8 * (2 ^ k * Z.to_nat len2)) crc1).
Proof.
  intros [Hl Hc]. revert k len2 crc1. induction fuel as [|fuel IH]; intros k len2 crc1 Hk Hlen Hw; [cbn in Hlen; lia|].
  cbn [combine_loop].
  assert (Z.to_nat len2 = 2 * Z.to_nat (Z.shiftr len2 1) + Z.to_nat (b2z (Z.odd len2)))%nat as El.
  { pose proof (Z.div2_odd len2) as H. rewrite Z.div2_spec in H.
    assert (0 <= Z.shiftr len2 1) by (apply Z.shiftr_nonneg; lia). destruct (Z.odd len2); cbn [b2z Z.b2z] in *; lia. }
  assert ((if Z.odd len2 then m ← c !! Z.to_nat (Z.of_nat k); gf2_matrix_times_switch m crc1 else Some crc1) =
    Some (zeros (8 * (2 ^ k * Z.to_nat (b2z (Z.odd len2)))) crc1)) as ->.
  { destruct (Z.odd len2); cbn [b2z].
    - rewrite Nat2Z.id, Hc by lia. cbn [mbind option_bind]. rewrite times_ok by done. do 2 f_equal. change (Z.to_nat 1) with 1%nat. lia.
    - change (Z.to_nat 0) with 0%nat. by rewrite Nat.mul_0_r. }
  cbn [mbind option_bind]. destruct (Z.eqb_spec (Z.shiftr len2 1) 0) as [E0|].
  { do 2 f_equal. rewrite E0 in El. cbn [Z.to_nat] in El. lia. }
  assert (0 < Z.shiftr len2 1 < 2 ^ Z.of_nat fuel) as Hlen'.
  { rewrite Nat2Z.inj_succ, Z.pow_succ_r in Hlen by lia. rewrite Z.shiftr_div_pow2 in * by done. change (2 ^ 1) with 2 in *. dlia. }
  assert (Z.land (Z.of_nat k + 1) 63 = Z.of_nat (S k)) as ->.
  { assert (fuel <> 0%nat) by (intros ->; cbn in Hlen'; lia). change 63 with (Z.ones 6). rewrite Z.land_ones by done.
    rewrite Z.mod_small; [lia|]. change (2 ^ 6) with 64. lia. }
  rewrite IH; [|lia|done|by apply word_zeros]. rewrite <- zeros_add. do 2 f_equal. rewrite Nat.pow_succ_r'. nia.
Qed.

Lemma crc64_combine_ok crc1 crc2 len2 c :
  good_cache c -> 0 <= len2 < 2 ^ 64 -> word crc1 -> (len2 = 0 -> crc2 = 0) ->
  exists c', crc64_combine crc1 crc2 len2 CRC64_REVERSED_POLY 64 c =
    Some (Z.lxor (zeros (8 * Z.to_nat len2) crc1) crc2, c') /\ good_cache c'.
Proof.
  intros (Hl & m & x & Hm & Hx & Hc) Hlen Hw H0. unfold crc64_combine. destruct (Z.eqb_spec len2 0) as [->|].
  { exists c. rewrite H0, Z.lxor_0_r by done. split; [done|]. split; [done|]. eauto. }
  rewrite Hm. cbn [mbind option_bind]. rewrite Hx. cbn [mbind option_bind].
  assert (exists c', (if x =? 0 then init_combine_cache CRC64_REVERSED_POLY 64 c else Some c) = Some c' /\ layers 64 c')
    as (c' & -> & Hc').
  { destruct (Z.eqb_spec x 0); [by apply init_combine_cache_ok|]. exists c. split; [done|]. by destruct Hc. }
  cbn [mbind option_bind]. exists c'. rewrite (combine_loop_ok 64 c' 0) by (done || lia). cbn [mbind option_bind].
  split; [|by apply layers_good]. do 4 f_equal. rewrite Nat.pow_0_r. lia.
Qed.

(** ** Tables *)

Definition zeros_table (n : nat) : list Z := map (zeros n) (seqZ 0 256).

Lemma zeros_table_nth n i : 0 <= i < 256 -> nth (Z.to_nat i) (zeros_table n) 0 = zeros n i.
Proof.
  intros Hi. apply nth_lookup_Some. unfold zeros_table. rewrite list_lookup_fmap, lookup_seqZ_lt by lia. cbn. do 2 f_equal. lia.
Qed.

Lemma byte_u8 x : 0 <= u8 x < 256.
Proof. apply (in_u_wrapu 8). done. Qed.

Lemma next_table_ok n : next_table (zeros_table 8) (zeros_table n) = zeros_table (8 + n).
Proof.
  unfold next_table. unfold zeros_table at 2. rewrite map_map. apply map_ext_in. intros i Hi.
  apply list_elem_of_In, elem_of_seqZ in Hi.
  assert (word (zeros n i)) as Hw by (apply word_zeros, byte_word; unfold byte; lia).
  rewrite zeros_table_nth by (apply byte_low, Hw). by rewrite zeros_add, (zeros_8 (zeros n i)).
Qed.

Lemma more_tables_ok m n : more_tables m (zeros_table 8) (zeros_table n) = map (fun k => zeros_table (8 * S k + n)) (seq 0 m).
Proof.
  revert n. induction m as [|m IH]; intros n; [done|]. cbn [more_tables seq map]. rewrite next_table_ok. f_equal.
  rewrite IH, <- seq_shift, map_map. apply map_ext. intros k. f_equal. lia.
Qed.

Lemma crc64_table_ok : crc64_table = map (fun k => zeros_table (8 * S k)) (seq 0 8).
Proof.
  unfold crc64_table, crcspeed64little_init. cbn zeta.
  assert (map (fun n => _crc64 0 [n]) (seqZ 0 256) = zeros_table 8) as ->.
  { apply map_ext_in. intros i Hi. apply list_elem_of_In, elem_of_seqZ in Hi.
    rewrite _crc64_spec; [|done|constructor; [unfold byte; lia|done]]. by rewrite crc_bytes_cons. }
  rewrite more_tables_ok. cbn [seq map]. f_equal.
Qed.

Lemma tab_ok k n : (k < 8)%nat -> 0 <= n < 256 -> tab crc64_table k n = zeros (8 * S k) n.
Proof.
  intros Hk Hn. unfold tab. rewrite crc64_table_ok.
  rewrite (nth_lookup_Some _ _ _ (zeros_table (8 * S k))); [by apply zeros_table_nth|].
  rewrite list_lookup_fmap, lookup_seq_lt by done. done.
Qed.

(** One byte more of the word, from the table. *)
Lemma zeros_tab k x : (k < 8)%nat -> word x ->
  zeros (8 * S k) x = Z.lxor (tab crc64_table k (u8 x)) (zeros (8 * k) (Z.shiftr x 8)).
Proof.
  intros Hk Hx. rewrite tab_ok by (done || apply byte_u8). replace (8 * S k)%nat with (8 * k + 8)%nat by lia.
  rewrite !zeros_add, (zeros_8 x), linear. do 3 f_equal. change 255 with (Z.ones 8). by rewrite Z.land_ones.
Qed.

Lemma word_shiftr x n : word x -> 0 <= n -> word (Z.shiftr x n).
Proof.
  intros [H1 H2] Hn. split; [by apply Z.shiftr_nonneg|]. rewrite Z.shiftr_div_pow2 by done.
  apply Z.le_lt_trans with x; [|done]. apply Z.div_le_upper_bound; [lia|]. assert (1 <= 2 ^ n) by lia. nia.
Qed.

Lemma zeros_tab_at k j x : (k < 8)%nat -> word x -> 0 <= j ->
  zeros (8 * S k) (Z.shiftr x j) = Z.lxor (tab crc64_table k (u8 (Z.shiftr x j))) (zeros (8 * k) (Z.shiftr x (j + 8))).
Proof. intros Hk Hx Hj. rewrite zeros_tab by (done || by apply word_shiftr). by rewrite Z.shiftr_shiftr. Qed.

Lemma DO_8_2_ok x : word x -> DO_8_2 crc64_table x = zeros 64 x.
Proof.
  intros Hx. unfold DO_8_2. change 64%nat with (8 * 8)%nat.
  rewrite (zeros_tab 7 x), (zeros_tab_at 6 8), (zeros_tab_at 5 16), (zeros_tab_at 4 24), (zeros_tab_at 3 32),
    (zeros_tab_at 2 40), (zeros_tab_at 1 48), (zeros_tab_at 0 56) by (done || lia).
  rewrite <- !Z.lxor_assoc. rewrite (wrapu_small 8 (Z.shiftr x 56)).
  - assert (Z.shiftr x (56 + 8) = 0) as ->; [|by rewrite (linear_0 (zeros (8 * 0))), Z.lxor_0_r].
    rewrite Z.shiftr_div_pow2 by done. by apply Z.div_small.
  - unfold word in Hx. rewrite Z.shiftr_div_pow2 by done. split; [apply Z.div_pos; lia|]. apply Z.div_lt_upper_bound; lia.
Qed.

(** ** The loops over the data *)

(** Equal tuples, up to arithmetic. *)
Ltac tuple_lia :=
  repeat match goal with |- Some _ = Some _ => f_equal | |- (_, _) = (_, _) => f_equal end;
  first [done | lia | f_equal; f_equal; lia].

Section loops.
Context (addr : Z) (buf : mem).
Hypothesis Hbuf : bytes buf.

(** [n] bytes of the data from [p]. *)
Definition slice (p n : Z) : mem := take (Z.to_nat n) (drop (Z.to_nat p) buf).

(** [p] to [p + n] is inside the data. *)
Definition inside (p n : Z) : Prop := 0 <= p /\ 0 <= n /\ p + n <= msize buf.

Lemma slice_bytes p n : bytes (slice p n).
Proof. by apply Forall_take, Forall_drop. Qed.

Lemma slice_length p n : inside p n -> length (slice p n) = Z.to_nat n.
Proof. unfold inside, slice, msize. intros H. rewrite length_take, length_drop. lia. Qed.

Lemma slice_app p m n : inside p (m + n) -> 0 <= m -> 0 <= n -> slice p (m + n) = slice p m ++ slice (p + m) n.
Proof.
  unfold inside. intros H Hm Hn. unfold slice. rewrite !Z2Nat.inj_add by lia.
  rewrite <- drop_drop. symmetry. apply take_take_drop.
Qed.

Lemma slice_0 p : slice p 0 = [].
Proof. done. Qed.

Lemma slice_1 p b : rd buf p = Some b -> slice p 1 = [b].
Proof.
  unfold rd, slice. case_match; [|done]. intros H'. change (Z.to_nat 1) with 1%nat.
  by rewrite (drop_S _ _ _ H').
Qed.

Lemma slice_all : slice 0 (msize buf) = buf.
Proof. unfold slice, msize. rewrite Nat2Z.id. by apply take_ge. Qed.

Lemma memread_slice p n : inside p n -> memread buf p n = Some (slice p n).
Proof. unfold inside, memread. intros H. by repeat ztrue lia. Qed.

Lemma one_byte_ok crc p : inside p 1 -> word crc -> one_byte buf crc64_table crc p = Some (crc_bytes crc (slice p 1)).
Proof.
  intros Hp Hw. unfold inside in Hp. destruct (rd_is_Some buf p) as [b Hb]; [lia|]. unfold one_byte. rewrite Hb, (slice_1 p b Hb).
  pose proof (rd_byte _ _ _ Hbuf Hb) as Hbb. cbn [mbind option_bind]. f_equal. rewrite crc_bytes_cons.
  assert (word (Z.lxor crc b)) as Hx by auto with redis.
  rewrite tab_ok; [|lia|apply byte_low, Hx]. rewrite (zeros_8 (Z.lxor crc b)), Z.shiftr_lxor.
  unfold byte in Hbb. rewrite (Z.shiftr_div_pow2 b) by done. rewrite Z.div_small by done. by rewrite Z.lxor_0_r.
Qed.

Lemma DO_8_ok crc p : inside p 8 -> word crc ->
  exists x, DO_8_1 buf crc p = Some x /\ DO_8_2 crc64_table x = crc_bytes crc (slice p 8).
Proof.
  intros Hp Hw. unfold DO_8_1. rewrite memread_slice by done. cbn [mbind option_bind]. eexists. split; [done|].
  pose proof (slice_bytes p 8) as Hb. pose proof (slice_length p 8 Hp) as Hl. change (Z.to_nat 8) with 8%nat in Hl.
  pose proof (le_val_bound _ Hb) as Hv. rewrite Hl in Hv. rewrite DO_8_2_ok by (apply word_lxor; done).
  rewrite <- zeros_le_val by done. by rewrite Hl.
Qed.

Lemma word_crc_slice crc p n : word crc -> word (crc_bytes crc (slice p n)).
Proof. apply word_crc_bytes, slice_bytes. Qed.

#[local] Hint Resolve word_crc_slice : redis.

(** The checksum of [m] bytes and then [n] more. *)
Lemma crc_slice_app crc p m n : inside p (m + n) -> 0 <= m -> 0 <= n ->
  crc_bytes (crc_bytes crc (slice p m)) (slice (p + m) n) = crc_bytes crc (slice p (m + n)).
Proof. intros H Hm Hn. by rewrite slice_app, crc_bytes_app. Qed.

Lemma align_loop_ok fuel crc p len : inside p len -> word crc -> len <= Z.of_nat fuel ->
  exists k, 0 <= k <= len /\ align_loop addr buf crc64_table fuel crc p len = Some (crc_bytes crc (slice p k), p + k, len - k).
Proof.
  revert crc p len. induction fuel as [|fuel IH]; intros crc p len Hp Hw Hf; cbn [align_loop];
    (destruct (negb (len =? 0) && _) eqn:E; [|exists 0; split; [unfold inside in Hp; lia|]; rewrite slice_0; tuple_lia]);
    apply andb_prop in E as [E%negb_true_iff%Z.eqb_neq _]; unfold inside in Hp; [lia|].
  rewrite one_byte_ok by (done || unfold inside; lia). cbn [mbind option_bind].
  destruct (IH (crc_bytes crc (slice p 1)) (p + 1) (len - 1)) as (k & Hk & ->); [unfold inside; lia|auto with redis|lia|].
  exists (1 + k). split; [lia|]. rewrite crc_slice_app by (unfold inside; lia).
  tuple_lia.
Qed.

Lemma byte_loop_ok fuel crc p len : inside p len -> word crc -> len <= Z.of_nat fuel ->
  byte_loop buf crc64_table fuel crc p len = Some (crc_bytes crc (slice p len)).
Proof.
  revert crc p len. induction fuel as [|fuel IH]; intros crc p len Hp Hw Hf; cbn [byte_loop];
    (destruct (Z.eqb_spec len 0) as [->|]; [by rewrite slice_0|]); unfold inside in Hp; [lia|].
  rewrite one_byte_ok by (done || unfold inside; lia). cbn [mbind option_bind].
  rewrite IH; [|unfold inside; lia|auto with redis|lia]. rewrite crc_slice_app by (unfold inside; lia).
  tuple_lia.
Qed.

Lemma loop8_ok fuel crc p len : inside p len -> word crc -> len <= Z.of_nat fuel ->
  exists k, 0 <= k <= len /\ loop8 buf crc64_table fuel crc p len = Some (crc_bytes crc (slice p k), p + k, len - k).
Proof.
  revert crc p len. induction fuel as [|fuel IH]; intros crc p len Hp Hw Hf; cbn [loop8]; rewrite Z.geb_leb;
    (destruct (Z.leb_spec 8 len); [|exists 0; split; [unfold inside in Hp; lia|]; rewrite slice_0; tuple_lia]);
    unfold inside in Hp; [lia|].
  destruct (DO_8_ok crc p) as (x & -> & Ex); [unfold inside; lia|done|]. cbn [mbind option_bind]. rewrite Ex.
  destruct (IH (crc_bytes crc (slice p 8)) (p + 8) (len - 8)) as (k & Hk & ->); [unfold inside; lia|auto with redis|lia|].
  exists (8 + k). split; [lia|]. rewrite crc_slice_app by (unfold inside; lia).
  tuple_lia.
Qed.

Lemma loop16_ok fuel c1 p1 c2 p2 len :
  inside p1 len -> inside p2 len -> word c1 -> word c2 -> len <= Z.of_nat fuel -> (8 | len) ->
  loop16 buf crc64_table fuel c1 p1 c2 p2 len =
    Some (crc_bytes c1 (slice p1 len), p1 + len, crc_bytes c2 (slice p2 len), p2 + len).
Proof.
  revert c1 p1 c2 p2 len. induction fuel as [|fuel IH]; intros c1 p1 c2 p2 len H1 H2 W1 W2 Hf Hd; cbn [loop16];
    rewrite Z.geb_leb;
    (destruct (Z.leb_spec 8 len); [|assert (len = 0) as -> by (destruct Hd; unfold inside in *; lia);
      rewrite !slice_0; by rewrite !Z.add_0_r]);
    unfold inside in *; [lia|].
  destruct (DO_8_ok c1 p1) as (x & -> & Ex); [unfold inside; lia|done|]. cbn [mbind option_bind].
  destruct (DO_8_ok c2 p2) as (y & -> & Ey); [unfold inside; lia|done|]. cbn [mbind option_bind]. rewrite Ex, Ey.
  rewrite IH; [|unfold inside; lia|unfold inside; lia|auto with redis|auto with redis|lia|by apply Z.divide_sub_r; [|exists 1]].
  rewrite !crc_slice_app by (unfold inside; lia). tuple_lia.
Qed.

Lemma loop24_ok fuel c1 p1 c2 p2 c3 p3 len :
  inside p1 len -> inside p2 len -> inside p3 len -> word c1 -> word c2 -> word c3 -> len <= Z.of_nat fuel -> (8 | len) ->
  loop24 buf crc64_table fuel c1 p1 c2 p2 c3 p3 len =
    Some (crc_bytes c1 (slice p1 len), p1 + len, crc_bytes c2 (slice p2 len), p2 + len, crc_bytes c3 (slice p3 len), p3 + len).
Proof.
  revert c1 p1 c2 p2 c3 p3 len. induction fuel as [|fuel IH]; intros c1 p1 c2 p2 c3 p3 len H1 H2 H3 W1 W2 W3 Hf Hd;
    cbn [loop24]; rewrite Z.geb_leb;
    (destruct (Z.leb_spec 8 len); [|assert (len = 0) as -> by (destruct Hd; unfold inside in *; lia);
      rewrite !slice_0; by rewrite !Z.add_0_r]);
    unfold inside in *; [lia|].
  destruct (DO_8_ok c1 p1) as (x & -> & Ex); [unfold inside; lia|done|]. cbn [mbind option_bind].
  destruct (DO_8_ok c2 p2) as (y & -> & Ey); [unfold inside; lia|done|]. cbn [mbind option_bind].
  destruct (DO_8_ok c3 p3) as (z & -> & Ez); [unfold inside; lia|done|]. cbn [mbind option_bind]. rewrite Ex, Ey, Ez.
  rewrite IH; [|unfold inside; lia|unfold inside; lia|unfold inside; lia|auto with redis..|lia|by apply Z.divide_sub_r; [|exists 1]].
  rewrite !crc_slice_app by (unfold inside; lia). tuple_lia.
Qed.

(** The length of a segment: a multiple of eight, small enough for all of them. *)
Lemma segment_length len d : 0 <= len < 2 ^ 63 -> 2 <= d ->
  let l := Z.land (len `div` d) CRC64_LEN_MASK in 0 <= l /\ l * d <= len /\ (8 | l).
Proof.
  intros Hl Hd. cbn zeta. assert (0 <= len `div` d) as Hq by (apply Z.div_pos; lia).
  assert (len `div` d < 2 ^ 63) as Hq' by (apply Z.div_lt_upper_bound; nia).
  assert (Z.land (len `div` d) CRC64_LEN_MASK = 8 * (len `div` d `div` 8)) as ->.
  { replace (8 * (len `div` d `div` 8)) with (Z.shiftl (Z.shiftr (len `div` d) 3) 3)
      by (rewrite Z.shiftl_mul_pow2, Z.shiftr_div_pow2 by done; change (2 ^ 3) with 8; lia).
    rewrite <- Z.ldiff_ones_r by done. apply Z.bits_inj'. intros n Hn. rewrite Z.land_spec, Z.ldiff_spec.
    destruct (Z.lt_ge_cases n 63).
    - f_equal. change CRC64_LEN_MASK with (Z.ldiff (Z.ones 63) (Z.ones 3)). rewrite Z.ldiff_spec, Z.ones_spec_low by lia. done.
    - rewrite (Z.bits_above_log2 (len `div` d)); [done|lia|]. destruct (Z.eq_dec (len `div` d) 0) as [->|]; [cbn; lia|].
      apply Z.log2_lt_pow2; [lia|]. apply Z.lt_le_trans with (2 ^ 63); [done|]. apply Z.pow_le_mono_r; lia. }
  split; [dlia|]. split; [|by exists (len `div` d `div` 8); lia].
  assert (8 * (len `div` d `div` 8) <= len `div` d) by dlia. pose proof (Z.mul_div_le len d). nia.
Qed.

Hypothesis Hsize : msize buf < 2 ^ 63.

Lemma merge_ok crc crcn next1 next2 len p c :
  good_cache c -> word crc -> next2 - next1 = len -> inside p len -> crcn = crc_bytes 0 (slice p len) ->
  exists c', MERGE_CRC crc crcn next1 next2 c = Some (crc_bytes crc (slice p len), c') /\ good_cache c'.
Proof.
  intros Hc Hw E Hp ->. unfold MERGE_CRC. rewrite E. pose proof Hp as Hp'. unfold inside in Hp.
  rewrite wrapu_small by (unfold in_u; lia).
  destruct (crc64_combine_ok crc (crc_bytes 0 (slice p len)) len c) as (c' & -> & Hc'); [done|lia|done|by intros ->|].
  exists c'. split; [|done]. rewrite (crc_bytes_lxor crc) by apply slice_bytes. by rewrite slice_length.
Qed.

Lemma segments_ok dual tri crc p len c :
  inside p len -> word crc -> good_cache c ->
  exists k c', 0 <= k <= len /\ good_cache c' /\
    segments buf crc64_table dual tri crc p len c = Some (crc_bytes crc (slice p k), p + k, len - k, c').
Proof.
  intros Hp Hw Hc. unfold segments, inside in *. rewrite !Z.gtb_ltb.
  assert (forall l, l <= msize buf -> l <= Z.of_nat (length buf)) as Hfuel by done.
  destruct (Z.ltb_spec tri len).
  - destruct (segment_length len 3) as (L1 & L2 & L3); [lia..|]. set (l := Z.land _ _) in *.
    replace (p + l - p) with l by lia.
    rewrite loop24_ok by (unfold inside in *; try done; try apply Hfuel; lia). cbn [mbind option_bind].
    destruct (merge_ok (crc_bytes crc (slice p l)) (crc_bytes 0 (slice (p + l) l)) (p + l) (p + l + l) l (p + l) c)
      as (c1 & -> & Hc1); [done|auto with redis|lia|unfold inside; lia|done|]. cbn [mbind option_bind].
    rewrite crc_slice_app by (unfold inside; lia).
    destruct (merge_ok (crc_bytes crc (slice p (l + l))) (crc_bytes 0 (slice (p + l + l) l)) (p + l) (p + l + l) l (p + l + l) c1)
      as (c2 & -> & Hc2); [done|auto with redis|lia|unfold inside; lia|done|]. cbn [mbind option_bind].
    exists (l + l + l), c2. split; [lia|]. split; [done|].
    replace (slice (p + l + l) l) with (slice (p + (l + l)) l) by (f_equal; lia). rewrite crc_slice_app by (unfold inside; lia).
    rewrite wrapu_small by (unfold in_u; lia). tuple_lia.
  - destruct (Z.ltb_spec dual len).
    + destruct (segment_length len 2) as (L1 & L2 & L3); [lia..|]. set (l := Z.land _ _) in *.
      replace (p + l - p) with l by lia.
      rewrite loop16_ok by (unfold inside in *; try done; try apply Hfuel; lia). cbn [mbind option_bind].
      destruct (merge_ok (crc_bytes crc (slice p l)) (crc_bytes 0 (slice (p + l) l)) (p + l) (p + l + l) l (p + l) c)
        as (c1 & -> & Hc1); [done|auto with redis|lia|unfold inside; lia|done|]. cbn [mbind option_bind].
      rewrite crc_slice_app by (unfold inside; lia). exists (l + l), c1. split; [lia|]. split; [done|].
      rewrite wrapu_small by (unfold in_u; lia). tuple_lia.
    + exists 0, c. split; [lia|]. split; [done|]. rewrite slice_0. tuple_lia.
Qed.

Lemma crcspeed64little_ok dual tri crc c :
  word crc -> good_cache c ->
  exists c', crcspeed64little addr buf crc64_table dual tri crc c = Some (crc_bytes crc buf, c') /\ good_cache c'.
Proof.
  intros Hw Hc. pose proof (msize_nonneg buf) as H0. unfold crcspeed64little.
  assert (forall l, l <= msize buf -> l <= Z.of_nat (length buf)) as Hfuel by done.
  assert (exists k c', 0 <= k <= msize buf /\ good_cache c' /\
    (if dual <? 1 then Some (crc, 0, msize buf, c)
     else '(crc1, next1, len) ← align_loop addr buf crc64_table (length buf) crc 0 (msize buf);
          '(crc1, next1, len, c) ← segments buf crc64_table dual tri crc1 next1 len c;
          '(crc1, next1, len) ← loop8 buf crc64_table (length buf) crc1 next1 len; Some (crc1, next1, len, c)) =
    Some (crc_bytes crc (slice 0 k), k, msize buf - k, c')) as (k & c' & Hk & Hc' & ->).
  { destruct (dual <? 1); [exists 0, c; split; [lia|]; split; [done|]; rewrite slice_0; tuple_lia|].
    destruct (align_loop_ok (length buf) crc 0 (msize buf)) as (k1 & Hk1 & ->); [unfold inside; lia|done|by apply Hfuel|].
    cbn [mbind option_bind].
    destruct (segments_ok dual tri (crc_bytes crc (slice 0 k1)) (0 + k1) (msize buf - k1) c) as (k2 & c2 & Hk2 & Hc2 & ->);
      [unfold inside; lia|auto with redis|done|]. cbn [mbind option_bind]. rewrite crc_slice_app by (unfold inside; lia).
    destruct (loop8_ok (length buf) (crc_bytes crc (slice 0 (k1 + k2))) (0 + k1 + k2) (msize buf - k1 - k2)) as (k3 & Hk3 & ->);
      [unfold inside; lia|auto with redis|apply Hfuel; lia|]. cbn [mbind option_bind].
    replace (slice (0 + k1 + k2) k3) with (slice (0 + (k1 + k2)) k3) by (f_equal; lia).
    rewrite crc_slice_app by (unfold inside; lia). exists (k1 + k2 + k3), c2. split; [lia|]. split; [done|]. tuple_lia. }
  cbn [mbind option_bind]. rewrite byte_loop_ok; [|unfold inside; lia|auto with redis|apply Hfuel; lia]. cbn [mbind option_bind].
  exists c'. split; [|done]. rewrite <- (Z.add_0_l k) at 2. rewrite crc_slice_app by (unfold inside; lia).
  replace (k + (msize buf - k)) with (msize buf) by lia. by rewrite slice_all.
Qed.
End loops.

(** The checksum of more data, from the register of what came before. *)
Definition crc64_more (crc : Z) (s : mem) : Z := _crc64 (crc_reflect crc 64) s.

Lemma crc64_more_bytes crc s : word crc -> bytes s -> crc64_more crc s = crc_bytes crc s.
Proof. intros Hc Hs. unfold crc64_more. rewrite _crc64_spec by (done || apply word_reflect). by rewrite reflect_reflect. Qed.

(** C13: The fast CRC-64 is the bit-by-bit one.  Wherever the data is in memory, whatever the
    cutoffs between one, two and three segments, and whether or not the matrices are
    cached yet, the checksum computed from the tables equals that of [_crc64]; and the
    checksum of a part, continued on the rest, is the checksum of the whole. *)
Theorem crc64_correct dual tri addr c crc s :
  good_cache c -> word crc -> bytes s -> msize s < 2 ^ 63 ->
  exists c', crc64 dual tri addr c crc s = Some (crc64_more crc s, c') /\ good_cache c' /\
    (forall a b, s = a ++ b -> crc64_more (crc64_more crc a) b = crc64_more crc s) /\
    (crc = 0 -> crc64_more crc s = _crc64 0 s).
Proof.
  intros Hc Hw Hs Hz. destruct (crcspeed64little_ok addr s Hs Hz dual tri crc c Hw Hc) as (c' & E & Hc').
  exists c'. rewrite crc64_more_bytes by done. split; [exact E|]. split; [done|]. split.
  - intros a b ->. apply Forall_app in Hs as [Ha Hb]. rewrite (crc64_more_bytes crc a) by done.
    rewrite crc64_more_bytes by (done || by apply word_crc_bytes). by rewrite crc_bytes_app.
  - intros ->. by rewrite _crc64_spec.
Qed.

Lemma crc64_correct_witness :
  exists c', crc64 8 24 4093 empty_cache 0 (seqZ 1 40) = Some (crc64_more 0 (seqZ 1 40), c') /\
    crc64_more 0 (seqZ 1 40) = 936964459613669563.
Proof.
  destruct (crc64_correct 8 24 4093 empty_cache 0 (seqZ 1 40)) as (c' & E & _ & _ & H).
  - exact empty_cache_good.
  - split; reflexivity || discriminate.
  - apply bytes_check. reflexivity.
  - reflexivity.
  - exists c'. split; [exact E|]. rewrite (H eq_refl). vm_compute. reflexivity.
Defined.
End Crc.
