(* ===== verification/HashSlot.v ===== *)
(** The hash slot of a key ([keyHashSlot], cluster.h) and of the keys a pattern can match
    ([patternHashSlot], cluster.c): the slot inferred from a pattern is that of every key
    the matcher of Glob accepts. *)
From S2P Require Import Prelude Crc Glob.
From stdpp Require Import options.

Module HashSlot.
Import Crc Glob.

Definition lbrace : Z := 123.
Definition rbrace : Z := 125.

(** The index of the first [c], or the length. *)
Fixpoint index_of (c : Z) (key : list Z) : Z :=
  match key with
  | [] => 0
  | x :: key => if x =? c then 0 else 1 + index_of c key
  end.

(** [len] bytes from [p]. *)
Definition sub (p len : Z) (key : list Z) : list Z := take (Z.to_nat len) (drop (Z.to_nat p) key).

Definition keyHashSlot (key : list Z) : Z :=
  let keylen := msize key in
  let s := index_of lbrace key in
  if s =? keylen then Z.land (crc16 key) 0x3FFF
  else
    let e := s + 1 + index_of rbrace (drop (Z.to_nat (s + 1)) key) in
    if (e =? keylen) || (e =? s + 1) then Z.land (crc16 key) 0x3FFF
    else Z.land (crc16 (sub (s + 1) (e - s - 1) key)) 0x3FFF.

(** The loop over the rest of the pattern, at index [i]; [s] is the index of the first
    brace, -1 before it, and -2 behind an empty tag. *)
Fixpoint pattern_loop (pattern rest : list Z) (i s : Z) : Z :=
  match rest with
  | [] => Z.land (crc16 pattern) 0x3FFF
  | c :: rest =>
    if (c =? star) || (c =? quest) || (c =? lbracket) then -1
    else if c =? backslash then -1
    else if (s =? -1) && (c =? lbrace) then pattern_loop pattern rest (i + 1) i
    else if (s >=? 0) && (c =? rbrace) && (i =? s + 1) then pattern_loop pattern rest (i + 1) (-2)
    else if (s >=? 0) && (c =? rbrace) then Z.land (crc16 (sub (s + 1) (i - s - 1) pattern)) 0x3FFF
    else pattern_loop pattern rest (i + 1) s
  end.

Definition patternHashSlot (pattern : list Z) : Z := pattern_loop pattern pattern 0 (-1).

(** ** The tag of a key *)

Lemma index_of_app c a b : c ∉ a -> index_of c (a ++ b) = msize a + index_of c b.
Proof.
  induction a as [|x a IH]; intros H; [done|]. cbn [app index_of]. apply not_elem_of_cons in H as [H1 H2].
  rewrite (proj2 (Z.eqb_neq x c)) by done. rewrite IH, msize_cons by done. lia.
Qed.

Lemma index_of_none c a : c ∉ a -> index_of c a = msize a.
Proof. intros H. rewrite <- (app_nil_r a) at 1. rewrite index_of_app by done. cbn [index_of]. lia. Qed.

Lemma index_of_here c a : index_of c (c :: a) = 0.
Proof. cbn. by rewrite Z.eqb_refl. Qed.

Lemma key_no_brace key : lbrace ∉ key -> keyHashSlot key = Z.land (crc16 key) 0x3FFF.
Proof. intros H. unfold keyHashSlot. by rewrite index_of_none, Z.eqb_refl. Qed.

(** The tag starts behind [a] and its brace. *)
Lemma key_brace a r : lbrace ∉ a ->
  keyHashSlot (a ++ lbrace :: r) =
    if (index_of rbrace r =? msize r) || (index_of rbrace r =? 0) then Z.land (crc16 (a ++ lbrace :: r)) 0x3FFF
    else Z.land (crc16 (take (Z.to_nat (index_of rbrace r)) r)) 0x3FFF.
Proof.
  intros H. unfold keyHashSlot. rewrite index_of_app, index_of_here, Z.add_0_r, msize_app, msize_cons by done.
  pose proof (msize_nonneg a). pose proof (msize_nonneg r). rewrite (proj2 (Z.eqb_neq _ _)) by lia. cbn zeta.
  assert (drop (Z.to_nat (msize a + 1)) (a ++ lbrace :: r) = r) as Hd.
  { replace (a ++ lbrace :: r) with ((a ++ [lbrace]) ++ r) by by rewrite <- (assoc_L (++)).
    apply drop_app_eq. rewrite length_app. unfold msize. cbn. lia. }
  unfold sub. rewrite Hd.
  replace (msize a + 1 + index_of rbrace r =? msize a + (1 + msize r)) with (index_of rbrace r =? msize r) by (repeat ztest; lia).
  replace (msize a + 1 + index_of rbrace r =? msize a + 1) with (index_of rbrace r =? 0) by (repeat ztest; lia).
  by replace (msize a + 1 + index_of rbrace r - msize a - 1) with (index_of rbrace r) by lia.
Qed.

Lemma key_open_tag a b : lbrace ∉ a -> rbrace ∉ b -> keyHashSlot (a ++ lbrace :: b) = Z.land (crc16 (a ++ lbrace :: b)) 0x3FFF.
Proof. intros Ha Hb. by rewrite key_brace, index_of_none, Z.eqb_refl by done. Qed.

Lemma key_empty_tag a r : lbrace ∉ a ->
  keyHashSlot (a ++ lbrace :: rbrace :: r) = Z.land (crc16 (a ++ lbrace :: rbrace :: r)) 0x3FFF.
Proof. intros Ha. by rewrite key_brace, index_of_here, orb_true_r by done. Qed.

Lemma key_tag a b r : lbrace ∉ a -> rbrace ∉ b -> b <> [] ->
  keyHashSlot (a ++ lbrace :: b ++ rbrace :: r) = Z.land (crc16 b) 0x3FFF.
Proof.
  intros Ha Hb Hn. rewrite key_brace by done. rewrite index_of_app, index_of_here, Z.add_0_r, msize_app, msize_cons by done.
  pose proof (msize_nonneg r). assert (msize b <> 0) by (intros E; apply Hn, msize_zero; lia).
  rewrite !(proj2 (Z.eqb_neq _ _)) by lia. cbn [orb]. by rewrite take_app_eq by (unfold msize; lia).
Qed.

(** ** The tag of a pattern *)

(** What has been scanned of the pattern. *)
Inductive scanned : list Z -> Z -> Prop :=
  | scanned_none pre : lbrace ∉ pre -> scanned pre (-1)
  | scanned_open a b : lbrace ∉ a -> rbrace ∉ b -> scanned (a ++ lbrace :: b) (msize a)
  | scanned_empty a b : lbrace ∉ a -> scanned (a ++ lbrace :: rbrace :: b) (-2).

(** Any other character goes on as before. *)
Lemma scanned_more pre s c :
  scanned pre s -> ~ (s = -1 /\ c = lbrace) -> ~ (0 <= s /\ c = rbrace) -> scanned (pre ++ [c]) s.
Proof.
  intros H H1 H2. destruct H as [pre Hp|a b Ha Hb|a b Ha].
  - constructor. rewrite elem_of_app, list_elem_of_singleton. naive_solver.
  - rewrite <- (assoc_L (++)). apply scanned_open; [done|]. rewrite elem_of_app, list_elem_of_singleton.
    pose proof (msize_nonneg a). naive_solver.
  - rewrite <- (assoc_L (++)). by apply scanned_empty.
Qed.

(** A literal character matches itself only. *)
Lemma denotes_literal c p k :
  c <> star -> c <> quest -> c <> lbracket -> c <> backslash -> denotes false (c :: p) k ->
  exists k', k = c :: k' /\ denotes false p k'.
Proof.
  intros H1 H2 H3 H4 H. inversion H; subst; try done.
  match goal with Ha : accepts _ _ _ _ |- _ => inversion Ha; subst; try done end. unfold eqc in *. cbn [negb] in *.
  match goal with E : (_ =? _) = true |- _ => apply Z.eqb_eq in E as -> end. eauto.
Qed.

Lemma pattern_loop_sound rest : forall pre s k,
  scanned pre s -> pattern_loop (pre ++ rest) rest (msize pre) s <> -1 -> denotes false rest k ->
  keyHashSlot (pre ++ k) = pattern_loop (pre ++ rest) rest (msize pre) s.
Proof.
  induction rest as [|c rest IH]; intros pre s k Hs Hne Hk; cbn [pattern_loop] in *.
  - assert (k = []) as ->.
    { inversion Hk as [| | |? ? ? ? Ha]; [done|]. by apply accepts_not_star in Ha as (?&?&?&?). }
    rewrite app_nil_r. destruct Hs; [by apply key_no_brace|by apply key_open_tag|by apply key_empty_tag].
  - assert (pre ++ c :: rest = (pre ++ [c]) ++ rest) as Ep by by rewrite <- (assoc_L (++)).
    assert (msize (pre ++ [c]) = msize pre + 1) as El by (rewrite msize_app; done).
    destruct (Z.eqb_spec c star); [done|]. destruct (Z.eqb_spec c quest); [done|]. destruct (Z.eqb_spec c lbracket); [done|].
    cbn [orb] in *. destruct (Z.eqb_spec c backslash); [done|].
    apply denotes_literal in Hk as (k' & -> & Hk); [|done..].
    replace (pre ++ c :: k') with ((pre ++ [c]) ++ k') by by rewrite <- (assoc_L (++)).
    rewrite <- El in *. rewrite Ep in *. rewrite Z.geb_leb in *.
    inversion Hs as [p Hp|a b Ha Hb|a b Ha]; subst.
    + rewrite Z.eqb_refl in *. cbn [andb Z.leb Z.compare] in *. destruct (Z.eqb_spec c lbrace) as [->|Hc].
      * apply IH; [|done|done]. apply (scanned_open pre []); [done|apply not_elem_of_nil].
      * apply IH; [|done|done]. apply scanned_more; [done|by intros [_ ?]|lia].
    + pose proof (msize_nonneg a). rewrite (proj2 (Z.eqb_neq (msize a) (-1))), (proj2 (Z.leb_le 0 (msize a))) in * by lia. cbn [andb] in *.
      destruct (Z.eqb_spec c rbrace) as [->|Hc]; cbn [andb] in *; [|apply IH; [|done|done]; apply scanned_more; [done|lia|by intros [_ ?]]].
      rewrite msize_app, msize_cons in *. destruct (Z.eqb_spec (msize a + (1 + msize b)) (msize a + 1)) as [E|E].
      * assert (b = []) as -> by (apply msize_zero; lia). apply IH; [|done|done]. rewrite <- (assoc_L (++)).
        by apply (scanned_empty a []).
      * rewrite <- !(assoc_L (++)). cbn [app]. rewrite key_tag by (done || intros ->; apply E; cbn; lia).
        do 2 f_equal. unfold sub.
        replace (a ++ lbrace :: b ++ rbrace :: rest) with ((a ++ [lbrace]) ++ b ++ rbrace :: rest) by by rewrite <- !(assoc_L (++)).
        rewrite drop_app_eq by (rewrite length_app; unfold msize; cbn; lia). by rewrite take_app_eq by (unfold msize; lia).
    + cbn [Z.eqb Z.leb Z.compare andb] in *. apply IH; [|done|done]. apply scanned_more; [done|lia|lia].
Qed.

(** C14: The slot inferred from a pattern is the slot of every key it matches.  When
    [patternHashSlot] gives a slot, each key for which [stringmatchlen] answers 1 hashes
    to that slot, braces, empty tags and text behind the tag included, so a scan that
    reads that slot alone misses no key. *)
Theorem patternHashSlot_sound pattern key :
  patternHashSlot pattern <> -1 -> stringmatchlen pattern key false = Some true ->
  keyHashSlot key = patternHashSlot pattern /\ 0 <= patternHashSlot pattern < 16384.
Proof.
  intros Hne Hm. assert (keyHashSlot key = patternHashSlot pattern) as E.
  { apply (pattern_loop_sound pattern [] (-1) key); [constructor; apply not_elem_of_nil|exact Hne|].
    unfold stringmatchlen, stringmatchlen_impl in Hm. cbn [Z.gtb Z.compare] in Hm.
    destruct (match_loop _ _ _ _ _ _) as [[b sk]|] eqn:El; [|done]. injection Hm as ->. by eapply match_loop_sound. }
  split; [done|]. rewrite <- E. unfold keyHashSlot. change 0x3FFF with (Z.ones 14).
  repeat case_match; rewrite Z.land_ones by done; by apply Z.mod_pos_bound.
Qed.

(** [a{tag}*] *)
Lemma patternHashSlot_sound_witness :
  keyHashSlot [97; 123; 116; 97; 103; 125; 120; 121] = patternHashSlot [97; 123; 116; 97; 103; 125; 42] /\
  0 <= patternHashSlot [97; 123; 116; 97; 103; 125; 42] < 16384.
Proof. apply patternHashSlot_sound; vm_compute; [discriminate|reflexivity]. Defined.
End HashSlot.
