(* ===== verification/Rio.v ===== *)
(** Streams ([rio], rio.h and rio.c): the generic reads and writes with their chunks,
    error flags, counters and checksum, over backends that obey an interface; and the
    backends of a memory buffer, of a pipe, and of a set of connections. *)
From S2P Require Import Prelude Crc.
From stdpp Require Import options.
#[local] Set Default Proof Using "Type*".

Module Rio.
Import Crc.

(** ** The interface of a backend *)

(** [read] and [write] of the record of functions: the bytes read or [None] for an error,
    and whether a write succeeded. *)
Class RioIO (B : Type) := {
  io_read : B -> Z -> option mem * B;
  io_write : B -> mem -> bool * B
}.

(** What a backend for writing promises: the stream is what was written, in order. *)
Class RioWriter (B : Type) `{RioIO B} := {
  stream : B -> mem;
  io_write_stream b bs b' : bs <> [] -> io_write b bs = (true, b') -> stream b' = stream b ++ bs
}.

(** What a backend for reading promises, while its state is valid: the bytes ahead come
    in order, and a read that asks for more of them fails. *)
Class RioReader (B : Type) `{RioIO B} := {
  ahead : B -> mem;
  valid : B -> Prop;
  io_read_ahead b n : valid b -> 0 < n <= msize (ahead b) ->
    exists b', io_read b n = (Some (take (Z.to_nat n) (ahead b)), b') /\ valid b' /\
      ahead b' = drop (Z.to_nat n) (ahead b);
  io_read_short b n : valid b -> msize (ahead b) < n -> exists b', io_read b n = (None, b') /\ valid b'
}.

Definition RIO_FLAG_READ_ERROR : Z := Z.shiftl 1 0.
Definition RIO_FLAG_WRITE_ERROR : Z := Z.shiftl 1 1.

Record rio (B : Type) := mk_rio {
  update_cksum : option (Z -> mem -> option Z);
  cksum : Z;
  flags : Z;
  processed_bytes : Z;
  max_processing_chunk : Z;
  io : B
}.
Arguments mk_rio {B}.
Arguments update_cksum {B}.
Arguments cksum {B}.
Arguments flags {B}.
Arguments processed_bytes {B}.
Arguments max_processing_chunk {B}.
Arguments io {B}.

(** ** Generic reads and writes *)

Section generic.
Context {B : Type} `{RioIO B}.

Definition has_flag (f : Z) (r : rio B) : bool := negb (Z.land (flags r) f =? 0).

Definition set_flag (f : Z) (r : rio B) : rio B :=
  mk_rio (update_cksum r) (cksum r) (Z.lor (flags r) f) (processed_bytes r) (max_processing_chunk r) (io r).

(** [r->update_cksum(r, buf, len)], when it is set. *)
Definition add_cksum (bs : mem) (r : rio B) : option (rio B) :=
  match update_cksum r with
  | None => Some r
  | Some f =>
    c ← f (cksum r) bs;
    Some (mk_rio (update_cksum r) c (flags r) (processed_bytes r) (max_processing_chunk r) (io r))
  end.

Definition add_processed (n : Z) (r : rio B) : rio B :=
  mk_rio (update_cksum r) (cksum r) (flags r) (u64 (processed_bytes r + n)) (max_processing_chunk r) (io r).

Definition set_io (b : B) (r : rio B) : rio B :=
  mk_rio (update_cksum r) (cksum r) (flags r) (processed_bytes r) (max_processing_chunk r) b.

Definition chunk_len (r : rio B) (len : Z) : Z :=
  if negb (max_processing_chunk r =? 0) && (max_processing_chunk r <? len) then max_processing_chunk r else len.

Fixpoint write_loop (fuel : nat) (r : rio B) (buf : mem) : option (bool * rio B) :=
  if msize buf =? 0 then Some (true, r)
  else match fuel with
  | O => None
  | S fuel =>
    let n := chunk_len r (msize buf) in
    bs ← memread buf 0 n;
    r ← add_cksum bs r;
    let '(ok, b) := io_write (io r) bs in
    let r := set_io b r in
    if ok : bool then write_loop fuel (add_processed n r) (drop (Z.to_nat n) buf)
    else Some (false, set_flag RIO_FLAG_WRITE_ERROR r)
  end.

Definition rioWrite (r : rio B) (buf : mem) : option (bool * rio B) :=
  if has_flag RIO_FLAG_WRITE_ERROR r then Some (false, r) else write_loop (length buf) r buf.

(** [got] is what has been read. *)
Fixpoint read_loop (fuel : nat) (r : rio B) (len : Z) (got : mem) : option (option mem * rio B) :=
  if len =? 0 then Some (Some got, r)
  else match fuel with
  | O => None
  | S fuel =>
    let n := chunk_len r len in
    let '(res, b) := io_read (io r) n in
    let r := set_io b r in
    match res with
    | None => Some (None, set_flag RIO_FLAG_READ_ERROR r)
    | Some bs => r ← add_cksum bs r; read_loop fuel (add_processed n r) (len - n) (got ++ bs)
    end
  end.

(** The bytes read into the buffer, or [None] for 0. *)
Definition rioRead (r : rio B) (len : Z) : option (option mem * rio B) :=
  if has_flag RIO_FLAG_READ_ERROR r then Some (None, r) else read_loop (Z.to_nat len) r len [].

Definition rioAbort (r : rio B) : rio B := set_flag (Z.lor RIO_FLAG_READ_ERROR RIO_FLAG_WRITE_ERROR) r.
Definition rioGetReadError (r : rio B) : bool := has_flag RIO_FLAG_READ_ERROR r.
Definition rioGetWriteError (r : rio B) : bool := has_flag RIO_FLAG_WRITE_ERROR r.
Definition rioClearErrors (r : rio B) : rio B :=
  mk_rio (update_cksum r) (cksum r) (Z.ldiff (flags r) (Z.lor RIO_FLAG_READ_ERROR RIO_FLAG_WRITE_ERROR))
    (processed_bytes r) (max_processing_chunk r) (io r).
End generic.

(** [rioGenericUpdateChecksum]: where the data is, the cutoffs and the matrices cached are
    those of [crc64]. *)
Definition rioGenericUpdateChecksum (dual tri addr : Z) (c : cache) (crc : Z) (bs : mem) : option Z :=
  fst <$> crc64 dual tri addr c crc bs.

(** ** Buffers *)

Record buffer := mk_buffer { ptr : mem; pos : Z }.

Definition rioBufferWrite (b : buffer) (bs : mem) : bool * buffer :=
  (true, mk_buffer (ptr b ++ bs) (pos b + msize bs)).

Definition rioBufferRead (b : buffer) (len : Z) : option mem * buffer :=
  if u64 (msize (ptr b) - pos b) <? len then (None, b)
  else (memread (ptr b) (pos b) len, mk_buffer (ptr b) (pos b + len)).

#[export] Instance buffer_io : RioIO buffer := {| io_read := rioBufferRead; io_write := rioBufferWrite |}.

Definition rioInitWithBuffer (s : mem) : rio buffer := mk_rio None 0 0 0 0 (mk_buffer s 0).

(** ** Pipes *)

Definition PROTO_IOBUF_LEN : Z := 1024 * 16.

(** The other end of a pipe or a connection: what each call of [write] will do -- accept
    so many bytes, be interrupted (0) or fail (negative) -- after which everything is
    accepted; and what it has received. *)
Record peer := mk_peer { outcomes : list Z; received : mem }.

(** [write]: the number of bytes accepted, 0 for an interruption, or -1. *)
Definition peer_write (w : peer) (bs : mem) : Z * peer :=
  match outcomes w with
  | [] => (msize bs, mk_peer [] (received w ++ bs))
  | k :: l =>
    if k <? 0 then (-1, mk_peer l (received w))
    else let n := Z.min k (msize bs) in (n, mk_peer l (received w ++ take (Z.to_nat n) bs))
  end.

Record fdState := mk_fd { fd : peer; fd_pos : Z; fd_buf : mem }.

(** [while (nwritten != len)], where an interrupted call is repeated. *)
Fixpoint fd_loop (fuel : nat) (w : peer) (p : mem) : option (bool * peer) :=
  if msize p =? 0 then Some (true, w)
  else match fuel with
  | O => None
  | S fuel =>
    let '(retval, w) := peer_write w p in
    if retval <? 0 then Some (false, w) else fd_loop fuel w (drop (Z.to_nat retval) p)
  end.

(** Enough for every outcome and for every byte. *)
Definition fd_fuel (w : peer) (p : mem) : nat := S (length (outcomes w) + length p).

Definition fd_send (s : fdState) (p : mem) : option (bool * fdState) :=
  '(ok, w) ← fd_loop (fd_fuel (fd s) p) (fd s) p;
  if ok : bool then Some (true, mk_fd w (fd_pos s + msize p) []) else Some (false, mk_fd w (fd_pos s) (fd_buf s)).

(** The flush, a write of no bytes. *)
Definition rioFdFlush (s : fdState) : option (bool * fdState) := fd_send s (fd_buf s).

Definition rioFdWrite (s : fdState) (buf : mem) : option (bool * fdState) :=
  let len := msize buf in
  if len >? PROTO_IOBUF_LEN then
    '(ok, s) ← (if negb (msize (fd_buf s) =? 0) then rioFdFlush s else Some (true, s));
    if ok : bool then fd_send s buf else Some (false, s)
  else
    let b := fd_buf s ++ buf in
    let s := mk_fd (fd s) (fd_pos s) b in
    if negb (len =? 0) && negb (msize b >? PROTO_IOBUF_LEN) then Some (true, s)
    else fd_send s b.

(** ** Sets of connections *)

Record connDst := mk_dst { conn : peer; failed : bool }.
Record connset := mk_connset { dst : list connDst; cs_pos : Z; cs_buf : mem }.

Definition pre_flush_size : Z := 256 * 1024.

(** The loop of one connection over one piece of the data; an error is a failure of the
    connection. *)
Fixpoint dst_loop (fuel : nat) (w : peer) (p : mem) : option (bool * peer) :=
  match fuel with
  | O => None
  | S fuel =>
    let '(ret, w) := peer_write w p in
    if ret <=? 0 then Some (false, w)
    else if ret =? msize p then Some (true, w)
    else dst_loop fuel w (drop (Z.to_nat ret) p)
  end.

(** All connections on one piece: [n] counts the failed ones. *)
Fixpoint each_dst (l : list connDst) (p : mem) (n : Z) : option (list connDst * Z) :=
  match l with
  | [] => Some ([], n)
  | d :: l =>
    '(d, n) ← (if failed d then Some (d, n + 1)
               else '(ok, w) ← dst_loop (length p) (conn d) p;
                    Some (mk_dst w (negb ok), if ok : bool then n else n + 1));
    '(l, n) ← each_dst l p n; Some (d :: l, n)
  end.

Fixpoint connset_loop (fuel : nat) (s : connset) (p : mem) (nfailed : Z) : option (bool * connset) :=
  if msize p >? 0 then
    match fuel with
    | O => None
    | S fuel =>
      let limit := PROTO_IOBUF_LEN * 2 in
      let count := if msize p <? limit then msize p else limit in
      '(l, nfailed) ← each_dst (dst s) (take (Z.to_nat count) p) nfailed;
      let s := mk_connset l (cs_pos s) (cs_buf s) in
      if nfailed =? Z.of_nat (length l) then Some (false, s)
      else connset_loop fuel (mk_connset l (cs_pos s + count) (cs_buf s)) (drop (Z.to_nat count) p) nfailed
    end
  else Some (true, mk_connset (dst s) (cs_pos s) []).

(** The flush, a write of no bytes. *)
Definition rioConnsetFlush (s : connset) : option (bool * connset) :=
  connset_loop (length (cs_buf s)) s (cs_buf s) 0.

Definition rioConnsetWrite (s : connset) (buf : mem) : option (bool * connset) :=
  if msize buf >? pre_flush_size then
    '(_, s) ← rioConnsetFlush s;
    connset_loop (length buf) s buf 0
  else
    let b := cs_buf s ++ buf in
    let s := mk_connset (dst s) (cs_pos s) b in
    if negb (msize buf =? 0) && (msize b <=? PROTO_IOBUF_LEN) then Some (true, s)
    else connset_loop (length b) s b 0.

(** ** The generic functions keep the promises of the backend *)

(** A stream without a checksum, or with the CRC-64. *)
Inductive summing : option (Z -> mem -> option Z) -> Prop :=
  | no_sum : summing None
  | crc_sum dual tri addr c : good_cache c -> summing (Some (rioGenericUpdateChecksum dual tri addr c)).

(** The checksum after [bs]. *)
Definition new_sum (u : option (Z -> mem -> option Z)) (c : Z) (bs : mem) : Z :=
  match u with None => c | Some _ => crc64_more c bs end.

Lemma new_sum_word u c bs : word c -> bytes bs -> word (new_sum u c bs).
Proof. intros Hc Hb. destruct u; [|done]. cbn [new_sum]. rewrite crc64_more_bytes by done. by apply word_crc_bytes. Qed.

Lemma new_sum_app u c a b : word c -> bytes a -> bytes b -> new_sum u (new_sum u c a) b = new_sum u c (a ++ b).
Proof.
  intros Hc Ha Hb. destruct u; [|done]. cbn [new_sum]. rewrite (crc64_more_bytes c a), (crc64_more_bytes c (a ++ b)) by (done || by apply Forall_app).
  rewrite crc64_more_bytes by (done || by apply word_crc_bytes). symmetry. apply crc_bytes_app.
Qed.

Lemma new_sum_nil u c : word c -> new_sum u c [] = c.
Proof. intros Hc. destruct u; [|done]. cbn [new_sum]. by rewrite crc64_more_bytes. Qed.

Section promises.
Context {B : Type} `{RioIO B}.

Record rio_ok (r : rio B) : Prop := {
  ok_chunk : 0 <= max_processing_chunk r;
  ok_sum : summing (update_cksum r);
  ok_cksum : word (cksum r)
}.

(** [r'] went on from [r] over [bs], with no error. *)
Record advanced (r r' : rio B) (bs : mem) : Prop := {
  adv_ok : rio_ok r';
  adv_update : update_cksum r' = update_cksum r;
  adv_flags : flags r' = flags r;
  adv_chunk : max_processing_chunk r' = max_processing_chunk r;
  adv_cksum : cksum r' = new_sum (update_cksum r) (cksum r) bs
}.

Lemma advanced_refl r : rio_ok r -> advanced r r [].
Proof. intros Hr. constructor; try done. by rewrite new_sum_nil by apply Hr. Qed.

Lemma advanced_trans r r1 r2 a b : rio_ok r -> bytes a -> bytes b -> advanced r r1 a -> advanced r1 r2 b -> advanced r r2 (a ++ b).
Proof.
  intros Hr Ha Hb [A1 A2 A3 A4 A5] [B1 B2 B3 B4 B5]. constructor; [done|congruence..|].
  rewrite B5, A5, A2. apply new_sum_app; try done. apply Hr.
Qed.

Lemma chunk_len_bound r len : rio_ok r -> 0 < len -> 0 < chunk_len r len <= len.
Proof.
  intros [Hc _ _] Hl. unfold chunk_len. destruct (Z.eqb_spec (max_processing_chunk r) 0); cbn [negb andb]; [lia|].
  ztest; lia.
Qed.

Lemma add_cksum_ok r bs : rio_ok r -> bytes bs -> msize bs < 2 ^ 63 ->
  exists r', add_cksum bs r = Some r' /\ advanced r r' bs /\ io r' = io r /\ processed_bytes r' = processed_bytes r.
Proof.
  intros Hr Hb Hm. pose proof Hr as [Hc Hs Hw]. unfold add_cksum.
  destruct (update_cksum r) as [f|] eqn:E; [|exists r; split; [done|]; split; [|done]; constructor; by rewrite ?E].
  inversion Hs as [|dual tri addr c Hg Ef]; subst f.
  destruct (crcspeed64little_ok addr bs Hb Hm dual tri (cksum r) c Hw Hg) as (c' & Ec & _).
  assert (rioGenericUpdateChecksum dual tri addr c (cksum r) bs = Some (crc64_more (cksum r) bs)) as Ef'.
  { unfold rioGenericUpdateChecksum, crc64. rewrite Ec. cbn. by rewrite crc64_more_bytes. }
  rewrite Ef'. cbn [mbind option_bind]. eexists. split; [done|]. split; [|done].
  constructor; try done; cbn; rewrite ?E; try done. constructor; cbn; try done.
  rewrite crc64_more_bytes by done. by apply word_crc_bytes.
Qed.

(** A write that succeeds has put the bytes on the stream; one that fails has set the flag. *)
Lemma write_loop_ok `{!RioWriter B} fuel r buf :
  rio_ok r -> bytes buf -> msize buf < 2 ^ 63 -> (length buf <= fuel)%nat ->
  exists ok r', write_loop fuel r buf = Some (ok, r') /\
    (if ok : bool then advanced r r' buf /\ stream (io r') = stream (io r) ++ buf
     else has_flag RIO_FLAG_WRITE_ERROR r' = true).
Proof.
  revert r buf. induction fuel as [|fuel IH]; intros r buf Hr Hb Hm Hf; cbn [write_loop];
    (destruct (Z.eqb_spec (msize buf) 0) as [E|E]; [apply Z.eq_le_incl, msize_zero in E as ->; exists true, r;
      split; [done|]; split; [by apply advanced_refl|by rewrite app_nil_r]|]).
  { unfold msize in E. lia. }
  pose proof (msize_nonneg buf). destruct (chunk_len_bound r (msize buf) Hr) as [N1 N2]; [lia|]. set (n := chunk_len _ _) in *.
  destruct (memread_split buf 0 n) as (x & a & b & -> & Ex & Ea & ->); [lia..|].
  assert (x = []) as -> by (apply msize_zero; lia). cbn [app mbind option_bind] in *. rewrite msize_app in *.
  apply Forall_app in Hb as [Hba Hbb]. pose proof (msize_nonneg b).
  destruct (add_cksum_ok r a Hr Hba) as (r1 & -> & Ha & Eio & _); [lia|]. cbn [mbind option_bind].
  destruct (io_write (io r1) a) as [ok1 b1] eqn:Ew. destruct ok1.
  - rewrite drop_app_eq by (unfold msize in Ea; lia).
    assert (rio_ok (add_processed n (set_io b1 r1))) as Hr2 by (destruct (adv_ok _ _ _ Ha); by constructor).
    destruct (IH (add_processed n (set_io b1 r1)) b Hr2 Hbb) as (ok & r' & -> & Hres); [lia|rewrite length_app in Hf; unfold msize in Ea; lia|].
    exists ok, r'. split; [done|]. destruct ok; [|done]. destruct Hres as [Hadv Hst].
    split; [eapply (advanced_trans r (add_processed n (set_io b1 r1))); try done; by destruct Ha; constructor|].
    rewrite Hst. cbn. rewrite (assoc_L (++)), <- Eio. f_equal. apply io_write_stream; [|done]. intros ->. cbn in Ea. lia.
  - eexists false, _. split; [done|]. unfold has_flag, set_flag. cbn [flags]. rewrite Z.land_lor_distr_l, Z.land_diag.
    apply negb_true_iff, Z.eqb_neq. intros E0%Z.lor_eq_0_iff. by destruct E0.
Qed.

Lemma rioWrite_ok `{!RioWriter B} r buf :
  rio_ok r -> bytes buf -> msize buf < 2 ^ 63 ->
  exists ok r', rioWrite r buf = Some (ok, r') /\
    (if ok : bool then advanced r r' buf /\ stream (io r') = stream (io r) ++ buf
     else has_flag RIO_FLAG_WRITE_ERROR r' = true).
Proof.
  intros Hr Hb Hm. unfold rioWrite. destruct (has_flag RIO_FLAG_WRITE_ERROR r) eqn:E; [by exists false, r|].
  by apply write_loop_ok.
Qed.

(** The state of a stream for reading. *)
Record reading `{!RioReader B} (r : rio B) : Prop := {
  reading_ok : rio_ok r;
  reading_valid : valid (io r);
  reading_bytes : bytes (ahead (io r));
  reading_size : msize (ahead (io r)) < 2 ^ 63
}.

(** A read gets the bytes that are ahead, or fails when there are not enough of them. *)
Lemma read_loop_ok `{!RioReader B} fuel r n got :
  reading r -> 0 <= n <= Z.of_nat fuel ->
  exists res r', read_loop fuel r n got = Some (res, r') /\
    if decide (n <= msize (ahead (io r))) then
      res = Some (got ++ take (Z.to_nat n) (ahead (io r))) /\ reading r' /\
      advanced r r' (take (Z.to_nat n) (ahead (io r))) /\ ahead (io r') = drop (Z.to_nat n) (ahead (io r))
    else res = None.
Proof.
  revert r n got. induction fuel as [|fuel IH]; intros r n got Hread Hn; cbn [read_loop]; pose proof Hread as [Hr Hv Hb Hm];
    pose proof (msize_nonneg (ahead (io r)));
    (destruct (Z.eqb_spec n 0) as [->|]; [eexists _, r; split; [done|]; rewrite decide_True by done;
      rewrite app_nil_r; split; [done|]; split; [done|]; split; [by apply advanced_refl|done]|]); [lia|].
  destruct (chunk_len_bound r n Hr) as [N1 N2]; [lia|]. set (k := chunk_len _ _) in *. set (a := ahead (io r)) in *.
  destruct (Z.le_gt_cases k (msize a)).
  2: { destruct (io_read_short (io r) k Hv) as (b & -> & _); [done|]. eexists _, _. split; [done|].
    rewrite decide_False by lia. done. }
  destruct (io_read_ahead (io r) k Hv) as (b & -> & Hvb & Eb); [by split|]. fold a in Eb |- *.
  assert (bytes (take (Z.to_nat k) a)) as Hba by by apply Forall_take.
  assert (bytes (drop (Z.to_nat k) a)) as Hbb by by apply Forall_drop.
  assert (rio_ok (set_io b r)) as Hr1 by (destruct Hr; by constructor).
  destruct (add_cksum_ok (set_io b r) (take (Z.to_nat k) a) Hr1 Hba) as (r1 & -> & Ha & Eio & _).
  { unfold msize in *. rewrite length_take. lia. }
  cbn [mbind option_bind]. cbn [set_io io] in Eio.
  assert (msize (drop (Z.to_nat k) a) = msize a - k) as Ed by (unfold msize in *; rewrite length_drop; lia).
  assert (ahead (io (add_processed k r1)) = drop (Z.to_nat k) a) as Ea by (cbn; by rewrite Eio).
  assert (reading (add_processed k r1)) as Hread1.
  { constructor; [destruct (adv_ok _ _ _ Ha); by constructor|cbn; by rewrite Eio|by rewrite Ea|rewrite Ea; lia]. }
  destruct (IH (add_processed k r1) (n - k) (got ++ take (Z.to_nat k) a) Hread1) as (res & r' & -> & Hres); [lia|].
  exists res, r'. split; [done|]. rewrite Ea, Ed in Hres.
  destruct (decide (n - k <= msize a - k)) as [Hle|Hgt]; [rewrite decide_True by lia|by rewrite decide_False by lia].
  destruct Hres as (-> & Hrd & Hadv & Hah).
  assert (take (Z.to_nat n) a = take (Z.to_nat k) a ++ take (Z.to_nat (n - k)) (drop (Z.to_nat k) a)) as En.
  { rewrite take_take_drop. f_equal. lia. }
  rewrite En, <- (assoc_L (++)). split; [done|]. split; [done|]. split.
  - apply (advanced_trans r (add_processed k r1)); [done|done|by apply Forall_take| |done].
    destruct Ha. constructor; try done. apply Hread1.
  - rewrite Hah, drop_drop. f_equal. lia.
Qed.

Lemma rioRead_total `{!RioReader B} r n : reading r -> 0 <= n ->
  exists res r', rioRead r n = Some (res, r') /\
    match res with
    | Some bs => bytes bs /\ msize bs = n /\ reading r' /\ ahead (io r) = bs ++ ahead (io r')
    | None => True
    end.
Proof.
  intros Hr Hn. unfold rioRead. destruct (has_flag _ r); [by exists None, r|].
  destruct (read_loop_ok (Z.to_nat n) r n [] Hr) as (res & r' & E & Hx); [lia|]. exists res, r'. split; [done|].
  destruct (decide _); [|by subst]. destruct Hx as (-> & Hr' & _ & Ha). destruct Hr as [_ _ Hb _].
  split; [by apply Forall_take|]. split; [unfold msize in *; cbn [app]; rewrite length_take; lia|]. split; [done|].
  rewrite Ha. cbn [app]. by rewrite take_drop.
Qed.

Lemma rioRead_ok `{!RioReader B} r bs rest :
  reading r -> has_flag RIO_FLAG_READ_ERROR r = false -> ahead (io r) = bs ++ rest ->
  exists r', rioRead r (msize bs) = Some (Some bs, r') /\ reading r' /\ advanced r r' bs /\ ahead (io r') = rest.
Proof.
  intros Hr Hf E. unfold rioRead. rewrite Hf. pose proof (msize_nonneg bs). pose proof (msize_nonneg rest).
  destruct (read_loop_ok (Z.to_nat (msize bs)) r (msize bs) [] Hr) as (res & r' & -> & H'); [lia|].
  rewrite E, msize_app, decide_True in H' by lia. rewrite take_app_eq, drop_app_eq in H' by (unfold msize; lia).
  destruct H' as (-> & ? & ? & ?). eauto 10.
Qed.
End promises.

(** ** Buffers obey the interface *)

#[export] Instance buffer_writer : RioWriter buffer.
Proof. refine {| stream := ptr |}. intros b bs b' _ H. by injection H as <-. Defined.

#[export] Instance buffer_reader : RioReader buffer.
Proof.
  refine {| ahead := fun b => drop (Z.to_nat (pos b)) (ptr b); valid := fun b => 0 <= pos b <= msize (ptr b) /\ msize (ptr b) < 2 ^ 63 |}.
  - intros [p q] n [Hp Hs] Hn. cbn in *. unfold rioBufferRead. cbn [ptr pos].
    assert (msize (drop (Z.to_nat q) p) = msize p - q) as E by (unfold msize in *; rewrite length_drop; lia). rewrite E in Hn.
    rewrite wrapu_small by (unfold in_u; lia). rewrite (proj2 (Z.ltb_ge _ _)) by lia. eexists. cbn [ptr pos].
    unfold memread. repeat ztrue lia. cbn [andb]. split; [done|]. cbn [ptr pos]. split; [lia|]. rewrite drop_drop. f_equal. lia.
  - intros [p q] n [Hp Hs] Hn. cbn in *. unfold rioBufferRead. cbn [ptr pos].
    assert (msize (drop (Z.to_nat q) p) = msize p - q) as E by (unfold msize in *; rewrite length_drop; lia). rewrite E in Hn.
    rewrite wrapu_small by (unfold in_u; lia). ztrue lia. eexists. split; [done|]. done.
Defined.

Lemma rioInitWithBuffer_ok s : rio_ok (rioInitWithBuffer s).
Proof. constructor; [done|constructor|done]. Qed.

Lemma rioInitWithBuffer_reading s : bytes s -> msize s < 2 ^ 63 -> reading (rioInitWithBuffer s).
Proof.
  intros Hb Hs. pose proof (msize_nonneg s). constructor; [apply rioInitWithBuffer_ok|by split; cbn|done|done].
Qed.

(** ** Pipes obey the interface *)

Lemma peer_write_ok w p : exists r w', peer_write w p = (r, w') /\ r <= msize p /\
  (0 <= r -> received w' = received w ++ take (Z.to_nat r) p) /\
  (length (outcomes w') + length p - Z.to_nat r < length (outcomes w) + length p \/ (outcomes w' = [] /\ r = msize p))%nat.
Proof.
  pose proof (msize_nonneg p). unfold peer_write. destruct w as [[|k l] rc]; cbn [outcomes received].
  - eexists _, _. split; [done|]. split; [lia|]. split; [|by right]. intros _. cbn.
    unfold msize. by rewrite Nat2Z.id, take_ge.
  - destruct (Z.ltb_spec k 0); eexists _, _; (split; [done|]); cbn [outcomes received length]; (split; [lia|]); (split; [lia || done|]); left; lia.
Qed.

Lemma fd_loop_ok fuel w p : (length (outcomes w) + length p < fuel)%nat ->
  exists ok w', fd_loop fuel w p = Some (ok, w') /\ (ok = true -> received w' = received w ++ p).
Proof.
  revert w p. induction fuel as [|fuel IH]; intros w p Hf; [lia|]. cbn [fd_loop].
  destruct (Z.eqb_spec (msize p) 0) as [E|E].
  { apply Z.eq_le_incl, msize_zero in E as ->. exists true, w. split; [done|]. by rewrite app_nil_r. }
  destruct (peer_write_ok w p) as (r & w' & -> & Hr & Hrc & Hm). destruct (Z.ltb_spec r 0); [by eexists false, _|].
  assert (msize p > 0) by (pose proof (msize_nonneg p); lia).
  destruct (IH w' (drop (Z.to_nat r) p)) as (ok & w2 & -> & H2); [rewrite length_drop; destruct Hm as [?|[-> ->]]; unfold msize in *; cbn [length]; lia|].
  exists ok, w2. split; [done|]. intros Hok. rewrite (H2 Hok), Hrc by done. by rewrite <- (assoc_L (++)), take_drop.
Qed.

Definition fd_stream (s : fdState) : mem := received (fd s) ++ fd_buf s.

Lemma fd_send_ok s p : exists ok s', fd_send s p = Some (ok, s') /\
  (ok = true -> received (fd s') = received (fd s) ++ p /\ fd_buf s' = [] /\ fd_pos s' = fd_pos s + msize p).
Proof.
  unfold fd_send. destruct (fd_loop_ok (fd_fuel (fd s) p) (fd s) p) as (ok & w & -> & H); [unfold fd_fuel; lia|].
  cbn [mbind option_bind]. destruct ok; eexists _, _; (split; [done|]); [|done]. intros _. cbn. by rewrite H.
Qed.

Lemma rioFdWrite_ok s buf : exists ok s', rioFdWrite s buf = Some (ok, s') /\ (ok = true -> fd_stream s' = fd_stream s ++ buf).
Proof.
  unfold rioFdWrite, fd_stream. destruct (msize buf >? PROTO_IOBUF_LEN).
  - assert (exists ok s', (if negb (msize (fd_buf s) =? 0) then rioFdFlush s else Some (true, s)) = Some (ok, s') /\
      (ok = true -> received (fd s') ++ fd_buf s' = received (fd s) ++ fd_buf s /\ fd_buf s' = [])) as (ok & s1 & -> & H1).
    { destruct (Z.eqb_spec (msize (fd_buf s)) 0) as [E|E]; cbn [negb].
      - exists true, s. split; [done|]. intros _. split; [done|]. by apply msize_zero, Z.eq_le_incl.
      - unfold rioFdFlush. destruct (fd_send_ok s (fd_buf s)) as (ok & s' & -> & H). exists ok, s'. split; [done|].
        intros Hok. destruct (H Hok) as (-> & -> & _). by rewrite app_nil_r. }
    cbn [mbind option_bind]. destruct ok; [|by eexists false, _]. destruct (H1 eq_refl) as [E1 E2].
    destruct (fd_send_ok s1 buf) as (ok & s' & -> & H). exists ok, s'. split; [done|]. intros Hok.
    destruct (H Hok) as (-> & -> & _). rewrite E2, app_nil_r in E1. by rewrite app_nil_r, E1.
  - destruct (_ && _); [eexists true, _; split; [done|]; intros _; cbn; by rewrite (assoc_L (++))|].
    destruct (fd_send_ok (mk_fd (fd s) (fd_pos s) (fd_buf s ++ buf)) (fd_buf s ++ buf)) as (ok & s' & -> & H).
    exists ok, s'. split; [done|]. intros Hok. destruct (H Hok) as (-> & -> & _). cbn. by rewrite app_nil_r, (assoc_L (++)).
Qed.

#[export] Instance fd_io : RioIO fdState :=
  {| io_read := fun s _ => (None, s); io_write := fun s bs => default (false, s) (rioFdWrite s bs) |}.

#[export] Instance fd_writer : RioWriter fdState.
Proof.
  refine {| stream := fd_stream |}. intros s bs s' _ H. cbn in H.
  destruct (rioFdWrite_ok s bs) as (ok & s2 & E & H2). rewrite E in H. cbn in H. injection H as -> ->. auto.
Defined.

(** ** Sets of connections *)

Lemma dst_loop_healthy fuel w p : outcomes w = [] -> 0 < msize p -> (0 < fuel)%nat ->
  dst_loop fuel w p = Some (true, mk_peer [] (received w ++ p)).
Proof.
  intros Hw Hp Hf. destruct fuel as [|fuel]; [lia|]. cbn [dst_loop]. unfold peer_write. rewrite Hw.
  rewrite (proj2 (Z.leb_gt _ _)) by lia. by rewrite Z.eqb_refl.
Qed.

(** One pass over a failed connection and a healthy one. *)
Lemma each_dst_two d1 d2 p n : failed d1 = true -> failed d2 = false -> outcomes (conn d2) = [] -> 0 < msize p ->
  each_dst [d1; d2] p n = Some ([d1; mk_dst (mk_peer [] (received (conn d2) ++ p)) false], n + 1).
Proof.
  intros H1 H2 Hw Hp. cbn [each_dst]. rewrite H1, H2. cbn [mbind option_bind].
  rewrite dst_loop_healthy by (done || unfold msize in Hp; lia). done.
Qed.

(** One turn of the loop, on [k] bytes. *)
Lemma connset_loop_step fuel s p n k l n' :
  0 < msize p -> k = Z.min (msize p) (PROTO_IOBUF_LEN * 2) -> each_dst (dst s) (take (Z.to_nat k) p) n = Some (l, n') ->
  connset_loop (S fuel) s p n =
    if n' =? Z.of_nat (length l) then Some (false, mk_connset l (cs_pos s) (cs_buf s))
    else connset_loop fuel (mk_connset l (cs_pos s + k) (cs_buf s)) (drop (Z.to_nat k) p) n'.
Proof.
  intros Hp Hk He. cbn [connset_loop]. rewrite Z.gtb_ltb, (proj2 (Z.ltb_lt _ _)) by done.
  assert ((if msize p <? PROTO_IOBUF_LEN * 2 then msize p else PROTO_IOBUF_LEN * 2) = k) as -> by (ztest; lia).
  rewrite He. reflexivity.
Qed.

(** A set of connections gives up while one of them is healthy.  The number of failed
    connections is counted again with every piece of 32 kilobytes but never reset, so with
    two connections, one of which has failed, a write of more than one piece reports that
    all of them failed, although the other one accepts -- and up to two pieces has been
    sent -- every byte; the comment of [rioConnsetWrite] promises success as long as one
    can be written to. *)
Theorem rioConnsetWrite_gives_up s d1 d2 buf :
  dst s = [d1; d2] -> failed d1 = true -> failed d2 = false -> outcomes (conn d2) = [] ->
  cs_buf s = [] -> 2 * PROTO_IOBUF_LEN < msize buf <= 4 * PROTO_IOBUF_LEN ->
  exists s', rioConnsetWrite s buf = Some (false, s') /\
    dst s' = [d1; mk_dst (mk_peer [] (received (conn d2) ++ buf)) false].
Proof.
  intros Hd H1 H2 Hw Hb Hs. assert (exists k, k = PROTO_IOBUF_LEN * 2 /\ 0 < k /\ k < msize buf <= 2 * k /\ 8 * k = pre_flush_size)
    as (k & Ek & Hk0 & Hk & Hf) by (exists (PROTO_IOBUF_LEN * 2); unfold PROTO_IOBUF_LEN, pre_flush_size in *; lia).
  destruct (msplit buf k) as (p1 & p2 & -> & L1); [lia|]. rewrite msize_app in Hk. pose proof (msize_nonneg p2).
  unfold rioConnsetWrite. rewrite Z.gtb_ltb, (proj2 (Z.ltb_ge _ _)) by (rewrite msize_app; lia). rewrite Hb. cbn [app].
  rewrite (proj2 (Z.leb_gt (msize (p1 ++ p2)) PROTO_IOBUF_LEN)) by (rewrite msize_app; lia). rewrite andb_false_r.
  assert (exists fuel, length (p1 ++ p2) = S (S fuel)) as [fuel ->].
  { exists (length (p1 ++ p2) - 2)%nat. rewrite length_app. unfold msize, PROTO_IOBUF_LEN in *. lia. }
  erewrite (connset_loop_step _ _ _ _ k); [|rewrite msize_app; lia|rewrite msize_app; lia|].
  2: { rewrite take_app_eq by (unfold msize in L1; lia). cbn [dst]. rewrite Hd. apply each_dst_two; (done || lia). }
  change (0 + 1 =? Z.of_nat (length [d1; mk_dst (mk_peer [] (received (conn d2) ++ p1)) false])) with false. cbn iota.
  rewrite drop_app_eq by (unfold msize in L1; lia).
  erewrite (connset_loop_step _ _ _ _ (msize p2)); [|lia|lia|].
  2: { rewrite take_ge by (unfold msize; lia). apply each_dst_two; (done || lia). }
  cbn [conn received length]. change (0 + 1 + 1 =? Z.of_nat 2) with true. cbn iota. eexists. split; [reflexivity|].
  cbn [dst]. by rewrite <- (assoc_L (++)).
Qed.

Lemma rioConnsetWrite_gives_up_witness :
  exists s', rioConnsetWrite (mk_connset [mk_dst (mk_peer [] []) true; mk_dst (mk_peer [] []) false] 0 [])
      (replicate (Z.to_nat 40000) 7) = Some (false, s') /\
    dst s' = [mk_dst (mk_peer [] []) true; mk_dst (mk_peer [] ([] ++ replicate (Z.to_nat 40000) 7)) false].
Proof.
  apply (rioConnsetWrite_gives_up _ (mk_dst (mk_peer [] []) true) (mk_dst (mk_peer [] []) false)); try reflexivity.
  unfold msize, PROTO_IOBUF_LEN. rewrite length_replicate, Z2Nat.id; lia.
Defined.
End Rio.
