(* ===== verification/Rdb.v ===== *)
(** Values in a snapshot (rdb.c): lengths, integers and strings -- plain, encoded as
    integers or compressed -- and the checksum at the end, on streams that obey the
    interface of Rio. *)
From S2P Require Import Prelude Util Lzf Crc Rio.
From stdpp Require Import options.
#[local] Set Default Proof Using "Type*".

Module Rdb.
Import Util Lzf Crc Rio.

Definition RDB_6BITLEN : Z := 0.
Definition RDB_14BITLEN : Z := 1.
Definition RDB_32BITLEN : Z := 0x80.
Definition RDB_64BITLEN : Z := 0x81.
Definition RDB_ENCVAL : Z := 3.
Definition RDB_LENERR : Z := UINT64_MAX.
Definition RDB_ENC_INT8 : Z := 0.
Definition RDB_ENC_INT16 : Z := 1.
Definition RDB_ENC_INT32 : Z := 2.
Definition RDB_ENC_LZF : Z := 3.
Definition RDB_LOAD_NONE : Z := 0.
Definition RDB_LOAD_ENC : Z := Z.shiftl 1 0.
Definition RDB_LOAD_PLAIN : Z := Z.shiftl 1 1.
Definition RDB_LOAD_SDS : Z := Z.shiftl 1 2.

(** ** Objects *)

(** A string object: an integer in place of its pointer, or a string. *)
Inductive robj := OInt (value : Z) | OStr (s : mem).

Definition LL2STROBJ_AUTO : Z := 0.
Definition LL2STROBJ_NO_SHARED : Z := 1.
Definition LL2STROBJ_NO_INT_ENC : Z := 2.
Definition OBJ_SHARED_INTEGERS : Z := 10000.

(** The decimal notation, printed in a buffer on the stack. *)
Definition print_ll (value : Z) : option mem :=
  '(len, buf) ← ll2string (replicate (Z.to_nat LONG_STR_SIZE) 0) value; memread buf 0 len.

(** The shared integers are encoded like the others. *)
Definition createStringObjectFromLongLongWithOptions (value flag : Z) : option robj :=
  if (value >=? 0) && (value <? OBJ_SHARED_INTEGERS) && (flag =? LL2STROBJ_AUTO) then Some (OInt value)
  else if (value >=? INT64_MIN) && (value <=? INT64_MAX) && negb (flag =? LL2STROBJ_NO_INT_ENC) then Some (OInt value)
  else s ← print_ll value; Some (OStr s).

Definition createStringObjectFromLongLongForValue (no_shared : bool) (value : Z) : option robj :=
  createStringObjectFromLongLongWithOptions value (if no_shared then LL2STROBJ_NO_SHARED else LL2STROBJ_AUTO).

Definition createStringObjectFromLongLongWithSds (value : Z) : option robj :=
  createStringObjectFromLongLongWithOptions value LL2STROBJ_NO_INT_ENC.

(** What a load returns: a plain string, an SDS string or an object; and the length
    stored at [lenptr], when it is. *)
Inductive loaded := LPlain (s : mem) | LSds (s : mem) | LObj (o : robj).
Definition load_result : Type := option (loaded * option Z).

(** ** SDS strings *)

Definition SDS_TYPE_5 : Z := 0.
Definition SDS_TYPE_8 : Z := 1.
Definition SDS_TYPE_16 : Z := 2.
Definition SDS_TYPE_32 : Z := 3.
Definition SDS_TYPE_64 : Z := 4.

Definition sdsHdrSize (type : Z) : Z :=
  if type =? SDS_TYPE_5 then 1 else if type =? SDS_TYPE_8 then 3
  else if type =? SDS_TYPE_16 then 5 else if type =? SDS_TYPE_32 then 9 else 17.

Definition sdsReqType (string_size : Z) : Z :=
  if string_size <? Z.shiftl 1 5 then SDS_TYPE_5
  else if string_size <=? Z.shiftl 1 8 - 3 - 1 then SDS_TYPE_8
  else if string_size <=? Z.shiftl 1 16 - 5 - 1 then SDS_TYPE_16
  else if string_size <=? Z.shiftl 1 32 - 9 - 1 then SDS_TYPE_32 else SDS_TYPE_64.

Definition OBJ_ENCODING_EMBSTR_SIZE_LIMIT : Z := 44.

Section alloc.
(** Which calls of [malloc] succeed, by the size. The allocations that stop the program
    when they fail are taken to succeed. *)
Variable malloc_ok : Z -> bool.

Definition ztrymalloc (size : Z) : bool := negb (size >=? SIZE_MAX / 2) && malloc_ok size.

(** Whether a string of so many bytes is allocated; the assertion guards the overflow. *)
Definition sdstrynewlen (initlen : Z) : option bool :=
  let type := sdsReqType initlen in
  let type := if (type =? SDS_TYPE_5) && (initlen =? 0) then SDS_TYPE_8 else type in
  let hdrlen := sdsHdrSize type in
  _ ← cassert (u64 (initlen + hdrlen + 1) >? initlen);
  Some (ztrymalloc (u64 (hdrlen + initlen + 1))).

Definition tryCreateStringObject (len : Z) : option bool :=
  if len <=? OBJ_ENCODING_EMBSTR_SIZE_LIMIT then Some true else sdstrynewlen len.
End alloc.

(** Bytes of a word in network order. *)
Definition be_bytes (n : nat) (z : Z) : mem := reverse (le_bytes n z).
Definition be_val (bs : mem) : Z := le_val (reverse bs).

Section rdb.
Context {B : Type} `{RioIO B}.

(** [rdb_compression], the policy on shared integers, which allocations succeed, the
    contents of a new block, and the addresses and the hash slots [lzf_compress] finds. *)
Variables rdb_compression no_shared : bool.
Variable malloc_ok : Z -> bool.
Variable fresh : Z -> Z.
Variable address : Z.
Variable junk : Z -> Z.

Definition zmalloc (size : Z) : mem := map fresh (seqZ 0 size).

(** ** Saving *)

(** Without a stream nothing is written, and the lengths are all the same. *)
Definition rdbWriteRaw (rdb : option (rio B)) (p : mem) : option (Z * option (rio B)) :=
  match rdb with
  | None => Some (msize p, None)
  | Some r => '(ok, r) ← rioWrite r p; Some (if ok : bool then msize p else -1, Some r)
  end.

Definition rdbSaveType (rdb : option (rio B)) (type : Z) : option (Z * option (rio B)) := rdbWriteRaw rdb [u8 type].

Definition rdbSaveMillisecondTime (rdb : option (rio B)) (t : Z) : option (Z * option (rio B)) :=
  rdbWriteRaw rdb (le_bytes 8 (u64 t)).

(** [if ((n = f(rdb)) == -1) return -1; nwritten += n;] before [g]. *)
Definition write_then (f g : option (rio B) -> option (Z * option (rio B))) (rdb : option (rio B))
    : option (Z * option (rio B)) :=
  '(n, rdb) ← f rdb;
  if n =? -1 then Some (-1, rdb)
  else '(m, rdb) ← g rdb; Some (if m =? -1 then -1 else n + m, rdb).

Definition rdbSaveLen (rdb : option (rio B)) (len : Z) : option (Z * option (rio B)) :=
  if len <? Z.shiftl 1 6 then
    '(n, rdb) ← rdbWriteRaw rdb [u8 (Z.lor (Z.land len 0xFF) (Z.shiftl RDB_6BITLEN 6))];
    Some (if n =? -1 then -1 else 1, rdb)
  else if len <? Z.shiftl 1 14 then
    '(n, rdb) ← rdbWriteRaw rdb [u8 (Z.lor (Z.land (Z.shiftr len 8) 0xFF) (Z.shiftl RDB_14BITLEN 6)); Z.land len 0xFF];
    Some (if n =? -1 then -1 else 2, rdb)
  else if len <=? UINT32_MAX then write_then (fun rdb => rdbWriteRaw rdb [RDB_32BITLEN]) (fun rdb => rdbWriteRaw rdb (be_bytes 4 len)) rdb
  else write_then (fun rdb => rdbWriteRaw rdb [RDB_64BITLEN]) (fun rdb => rdbWriteRaw rdb (be_bytes 8 len)) rdb.

(** The bytes, none when the value does not fit. *)
Definition rdbEncodeInteger (value : Z) : mem :=
  if (value >=? - Z.shiftl 1 7) && (value <=? Z.shiftl 1 7 - 1) then
    [Z.lor (Z.shiftl RDB_ENCVAL 6) RDB_ENC_INT8; Z.land value 0xFF]
  else if (value >=? - Z.shiftl 1 15) && (value <=? Z.shiftl 1 15 - 1) then
    [Z.lor (Z.shiftl RDB_ENCVAL 6) RDB_ENC_INT16; Z.land value 0xFF; Z.land (Z.shiftr value 8) 0xFF]
  else if (value >=? - Z.shiftl 1 31) && (value <=? Z.shiftl 1 31 - 1) then
    [Z.lor (Z.shiftl RDB_ENCVAL 6) RDB_ENC_INT32; Z.land value 0xFF; Z.land (Z.shiftr value 8) 0xFF;
     Z.land (Z.shiftr value 16) 0xFF; Z.land (Z.shiftr value 24) 0xFF]
  else [].

Definition rdbTryIntegerEncoding (s : mem) : mem :=
  match string2ll s with Some value => rdbEncodeInteger value | None => [] end.

Definition rdbSaveLzfBlob (rdb : option (rio B)) (data : mem) (compress_len original_len : Z)
    : option (Z * option (rio B)) :=
  write_then (fun rdb => rdbWriteRaw rdb [Z.lor (Z.shiftl RDB_ENCVAL 6) RDB_ENC_LZF])
    (write_then (fun rdb => rdbSaveLen rdb compress_len)
      (write_then (fun rdb => rdbSaveLen rdb original_len)
        (fun rdb => bs ← memread data 0 compress_len; rdbWriteRaw rdb bs))) rdb.

(** 0 when the string cannot be compressed. The output block has a byte more than the
    compressor is told. *)
Definition rdbSaveLzfStringObject (rdb : option (rio B)) (s : mem) : option (Z * option (rio B)) :=
  let len := msize s in
  if len <=? 4 then Some (0, rdb)
  else
    let outlen := len - 4 in
    '(comprlen, out) ← lzf_compress address junk s outlen (take (Z.to_nat outlen) (zmalloc (outlen + 1)));
    if comprlen =? 0 then Some (0, rdb) else rdbSaveLzfBlob rdb out comprlen len.

(** [len][data] *)
Definition save_verbatim (rdb : option (rio B)) (s : mem) : option (Z * option (rio B)) :=
  write_then (fun rdb => rdbSaveLen rdb (msize s))
    (fun rdb => if msize s >? 0 then rdbWriteRaw rdb s else Some (0, rdb)) rdb.

Definition rdbSaveRawString (rdb : option (rio B)) (s : mem) : option (Z * option (rio B)) :=
  let len := msize s in
  let enc := if len <=? 11 then rdbTryIntegerEncoding s else [] in
  if msize enc >? 0 then
    '(n, rdb) ← rdbWriteRaw rdb enc; Some (if n =? -1 then -1 else msize enc, rdb)
  else
    '(n, rdb) ← (if rdb_compression && (len >? 20) then rdbSaveLzfStringObject rdb s else Some (0, rdb));
    if n =? -1 then Some (-1, rdb)
    else if n >? 0 then Some (n, rdb)
    else save_verbatim rdb s.

Definition rdbSaveLongLongAsStringObject (rdb : option (rio B)) (value : Z) : option (Z * option (rio B)) :=
  let enc := rdbEncodeInteger value in
  if msize enc >? 0 then rdbWriteRaw rdb enc
  else
    '(enclen, buf) ← ll2string (replicate 32 0) value;
    _ ← cassert (enclen <? 32);
    write_then (fun rdb => rdbSaveLen rdb enclen)
      (fun rdb => bs ← memread buf 0 enclen; rdbWriteRaw rdb bs) rdb.

Definition rdbSaveStringObject (rdb : option (rio B)) (o : robj) : option (Z * option (rio B)) :=
  match o with
  | OInt v => rdbSaveLongLongAsStringObject rdb v
  | OStr s => rdbSaveRawString rdb s
  end.

(** ** Loading *)

#[local] Notation rioRead := (rioRead (B:=B)).

(** The type, or -1. *)
Definition rdbLoadType (rdb : rio B) : option (Z * rio B) :=
  '(res, rdb) ← rioRead rdb 1;
  match res with
  | None => Some (-1, rdb)
  | Some bs => t ← rd bs 0; Some (t, rdb)
  end.

Definition rdbLoadMillisecondTime (rdb : rio B) : option (Z * rio B) :=
  '(res, rdb) ← rioRead rdb 8;
  match res with
  | None => Some (INT64_MAX, rdb)
  | Some bs => Some (i64 (le_val bs), rdb)
  end.

(** [None] for the error -1; otherwise whether a special encoding follows, and the length
    or the encoding. *)
Definition len_result : Type := option (option (bool * Z) * rio B).

Definition load_be (n : Z) (rdb : rio B) : len_result :=
  '(res, rdb) ← rioRead rdb n; Some (match res with Some bs => Some (false, be_val bs) | None => None end, rdb).

Definition load_14 (b0 : Z) (rdb : rio B) : len_result :=
  '(res, rdb) ← rioRead rdb 1;
  match res with
  | None => Some (None, rdb)
  | Some bs => b1 ← rd bs 0; Some (Some (false, Z.lor (Z.shiftl (Z.land b0 0x3F) 8) b1), rdb)
  end.

Definition rdbLoadLenByRef (rdb : rio B) : len_result :=
  '(res, rdb) ← rioRead rdb 1;
  match res with
  | None => Some (None, rdb)
  | Some bs =>
    b0 ← rd bs 0;
    let type := Z.shiftr (Z.land b0 0xC0) 6 in
    if type =? RDB_ENCVAL then Some (Some (true, Z.land b0 0x3F), rdb)
    else if type =? RDB_6BITLEN then Some (Some (false, Z.land b0 0x3F), rdb)
    else if type =? RDB_14BITLEN then load_14 b0 rdb
    else if b0 =? RDB_32BITLEN then load_be 4 rdb
    else if b0 =? RDB_64BITLEN then load_be 8 rdb
    else Some (None, rdb)
  end.

Definition rdbLoadLen (rdb : rio B) : option (bool * Z * rio B) :=
  '(res, rdb) ← rdbLoadLenByRef rdb;
  match res with
  | None => Some (false, RDB_LENERR, rdb)
  | Some (isencoded, len) => Some (isencoded, len, rdb)
  end.

Definition has_load_flag (flags f : Z) : bool := negb (Z.land flags f =? 0).

(** The number of bytes of the encoding, and the signed value of the bytes. *)
Definition load_integer (enctype : Z) (enc : mem) : option Z :=
  if enctype =? RDB_ENC_INT8 then b0 ← rd enc 0; Some (wraps 8 b0)
  else if enctype =? RDB_ENC_INT16 then
    b0 ← rd enc 0; b1 ← rd enc 1; Some (i16 (Z.lor b0 (Z.shiftl b1 8)))
  else
    b0 ← rd enc 0; b1 ← rd enc 1; b2 ← rd enc 2; b3 ← rd enc 3;
    Some (i32 (Z.lor (Z.lor (Z.lor b0 (Z.shiftl b1 8)) (Z.shiftl b2 16)) (Z.shiftl b3 24))).

(** The integer as the kind of value the flags ask for. *)
Definition integer_as (flags val : Z) : option (loaded * option Z) :=
  if has_load_flag flags RDB_LOAD_PLAIN then p ← print_ll val; Some (LPlain p, Some (msize p))
  else if has_load_flag flags RDB_LOAD_SDS then p ← print_ll val; Some (LSds p, Some (msize p))
  else if has_load_flag flags RDB_LOAD_ENC then
    o ← createStringObjectFromLongLongForValue no_shared val; Some (LObj o, None)
  else o ← createStringObjectFromLongLongWithSds val; Some (LObj o, None).

Definition rdbLoadIntegerObject (rdb : rio B) (enctype flags : Z) : option (load_result * rio B) :=
  let n := if enctype =? RDB_ENC_INT8 then 1 else if enctype =? RDB_ENC_INT16 then 2
           else if enctype =? RDB_ENC_INT32 then 4 else 0 in
  if n =? 0 then Some (None, rdb)
  else
    '(res, rdb) ← rioRead rdb n;
    match res with
    | None => Some (None, rdb)
    | Some enc => val ← load_integer enctype enc; l ← integer_as flags val; Some (Some l, rdb)
    end.

(** The bytes as the kind of value the flags ask for. *)
Definition as_loaded (flags : Z) (s : mem) : loaded :=
  if has_load_flag flags RDB_LOAD_PLAIN then LPlain s
  else if has_load_flag flags RDB_LOAD_SDS then LSds s else LObj (OStr s).

Definition is_plain (flags : Z) : bool := has_load_flag flags RDB_LOAD_PLAIN.
Definition is_robj (flags : Z) : bool := negb (is_plain flags) && negb (has_load_flag flags RDB_LOAD_SDS).

Definition rdbLoadLzfStringObject (rdb : rio B) (flags : Z) : option (load_result * rio B) :=
  '(_, clen, rdb) ← rdbLoadLen rdb;
  if clen =? RDB_LENERR then Some (None, rdb)
  else
    '(_, len, rdb) ← rdbLoadLen rdb;
    if len =? RDB_LENERR then Some (None, rdb)
    else if negb (ztrymalloc malloc_ok clen) then Some (None, rdb)
    else
      allocated ← (if is_plain flags then Some (ztrymalloc malloc_ok len) else sdstrynewlen malloc_ok len);
      if negb allocated then Some (None, rdb)
      else
        '(res, rdb) ← rioRead rdb clen;
        match res with
        | None => Some (None, rdb)
        | Some c =>
          '(n, _, val) ← lzf_decompress c (zmalloc len);
          if negb (n =? len) then Some (None, rdb)
          else Some (Some (as_loaded flags val, Some len), rdb)
        end.

Definition rdbGenericLoadStringObject (rdb : rio B) (flags : Z) : option (load_result * rio B) :=
  '(isencoded, len, rdb) ← rdbLoadLen rdb;
  if len =? RDB_LENERR then Some (None, rdb)
  else if isencoded : bool then
    if (len =? RDB_ENC_INT8) || (len =? RDB_ENC_INT16) || (len =? RDB_ENC_INT32) then rdbLoadIntegerObject rdb len flags
    else if len =? RDB_ENC_LZF then rdbLoadLzfStringObject rdb flags
    else Some (None, rdb)
  else
    allocated ← (if is_robj flags then tryCreateStringObject malloc_ok len
                 else if is_plain flags then Some (ztrymalloc malloc_ok len) else sdstrynewlen malloc_ok len);
    if negb allocated then Some (None, rdb)
    else
      '(res, rdb) ← (if len =? 0 then Some (Some [], rdb) else rioRead rdb len);
      match res with
      | None => Some (None, rdb)
      | Some s => Some (Some (as_loaded flags s, if is_robj flags then None else Some len), rdb)
      end.

Definition rdbLoadStringObject (rdb : rio B) : option (load_result * rio B) :=
  rdbGenericLoadStringObject rdb RDB_LOAD_NONE.

Definition rdbLoadEncodedStringObject (rdb : rio B) : option (load_result * rio B) :=
  rdbGenericLoadStringObject rdb RDB_LOAD_ENC.

(** ** The checksum at the end *)

(** [cksum = rdb->cksum; rioWrite(rdb, &cksum, 8)] *)
Definition save_checksum (rdb : rio B) : option (bool * rio B) := rioWrite rdb (le_bytes 8 (cksum rdb)).

Inductive verdict := Accepted | ReadError | WrongChecksum.

Definition load_checksum (verify : bool) (rdb : rio B) : option (verdict * rio B) :=
  let expected := cksum rdb in
  '(res, rdb) ← rioRead rdb 8;
  match res with
  | None => Some (ReadError, rdb)
  | Some bs =>
    let cksum := le_val bs in
    Some (if verify && negb (cksum =? 0) && negb (cksum =? expected) then WrongChecksum else Accepted, rdb)
  end.
End rdb.

(** ** What a saver writes and what a loader reads *)

Section saves.
Context {B : Type} `{RioWriter B}.
Implicit Types f g : option (rio B) -> option (Z * option (rio B)).

(** The length of the code, and the code on the stream if there is one; or -1 and the
    error flag. *)
Definition wrote (code : mem) (rdb : option (rio B)) (res : Z * option (rio B)) : Prop :=
  match rdb, snd res with
  | None, None => fst res = msize code
  | Some r, Some r' =>
      (fst res = msize code /\ advanced r r' code /\ stream (io r') = stream (io r) ++ code) \/
      (fst res = -1 /\ has_flag RIO_FLAG_WRITE_ERROR r' = true)
  | _, _ => False
  end.

Definition saves f (code : mem) : Prop :=
  bytes code /\ forall rdb, (forall r, rdb = Some r -> rio_ok r) -> exists res, f rdb = Some res /\ wrote code rdb res.

Lemma saves_raw p : bytes p -> msize p < 2 ^ 63 -> saves (fun rdb => rdbWriteRaw rdb p) p.
Proof.
  intros Hb Hm. split; [done|]. intros [r|] Hr; cbn [rdbWriteRaw]; [|by eexists].
  destruct (rioWrite_ok r p (Hr r eq_refl) Hb Hm) as (ok & r' & -> & Hres). cbn [mbind option_bind].
  eexists. split; [done|]. destruct ok; cbn; tauto.
Qed.

Lemma saves_nothing : saves (fun rdb => Some (0, rdb)) [].
Proof.
  split; [done|]. intros [r|] Hr; eexists; (split; [done|]); cbn; [|done]. left. split; [done|].
  split; [by apply advanced_refl, Hr|by rewrite app_nil_r].
Qed.

Lemma saves_then f g a b : saves f a -> saves g b -> saves (write_then f g) (a ++ b).
Proof.
  intros [Ha Hf] [Hb Hg]. split; [by apply Forall_app|]. intros rdb Hr. unfold write_then.
  destruct (Hf rdb Hr) as ([n r1] & -> & W1). cbn [mbind option_bind]. unfold wrote in *. cbn [fst snd] in *.
  pose proof (msize_nonneg a). pose proof (msize_nonneg b). rewrite msize_app.
  destruct (Z.eqb_spec n (-1)) as [->|Hn].
  - eexists. split; [done|]. destruct rdb, r1; cbn; (done || lia || idtac). destruct W1 as [[? _]|]; [lia|auto].
  - destruct (Hg r1) as ([m r2] & -> & W2).
    { destruct rdb, r1; [|done..]. intros r' [= <-]. destruct W1 as [(_ & W1 & _)|[? _]]; [apply W1|lia]. }
    cbn [mbind option_bind fst snd] in *. eexists. split; [done|]. cbn [fst snd].
    destruct rdb as [r0|], r1 as [r1|], r2 as [r2|]; cbn [fst snd] in *; try done.
    + destruct W1 as [(-> & A1 & S1)|[? _]]; [|lia]. destruct W2 as [(-> & A2 & S2)|[-> ?]]; [|right; split; [done|done]].
      left. rewrite (proj2 (Z.eqb_neq (msize b) (-1))) by lia. split; [done|].
      split; [by eapply advanced_trans; eauto|]. by rewrite S2, S1, (assoc_L (++)).
    + subst. by rewrite (proj2 (Z.eqb_neq (msize b) (-1))) by lia.
Qed.

Lemma saves_ext f g code : (forall rdb, f rdb = g rdb) -> saves g code -> saves f code.
Proof. intros E [Hb Hg]. split; [done|]. intros rdb Hr. rewrite E. by apply Hg. Qed.
End saves.

Section loads.
Context {B : Type} `{RioReader B}.

(** From any stream for reading with no error that starts with the code, the value, and
    the rest is what is ahead. *)
Definition loads {A} (f : rio B -> option (A * rio B)) (code : mem) (v : A) : Prop :=
  forall r rest, reading r -> has_flag RIO_FLAG_READ_ERROR r = false -> ahead (io r) = code ++ rest ->
  exists r', f r = Some (v, r') /\ reading r' /\ advanced r r' code /\ ahead (io r') = rest.

Lemma loads_read n bs : n = msize bs -> loads (fun r => rioRead r n) bs (Some bs).
Proof. intros -> r rest Hr Hf E. by apply rioRead_ok. Qed.

Lemma loads_ret {A} (v : A) : loads (fun r => Some (v, r)) [] v.
Proof. intros r rest Hr Hf E. exists r. split; [done|]. split; [done|]. split; [apply advanced_refl, Hr|done]. Qed.

Lemma loads_bind {A C} (f : rio B -> option (A * rio B)) (g : A -> rio B -> option (C * rio B)) a b x y :
  loads f a x -> loads (g x) b y -> loads (fun r => '(v, r) ← f r; g v r) (a ++ b) y.
Proof.
  intros Hf Hg r rest Hr Hfl E. rewrite <- (assoc_L (++)) in E. pose proof (reading_bytes r Hr) as Hb. rewrite E in Hb.
  apply Forall_app in Hb as [Ha [Hb _]%Forall_app].
  destruct (Hf r _ Hr Hfl E) as (r1 & -> & R1 & A1 & E1). cbn [mbind option_bind].
  destruct (Hg r1 rest R1) as (r2 & -> & R2 & A2 & E2); [|done|].
  { unfold has_flag. by rewrite (adv_flags _ _ _ A1). }
  exists r2. split; [done|]. split; [done|]. split; [|done]. eapply advanced_trans; eauto. apply Hr.
Qed.

Lemma loads_ext {A} (f g : rio B -> option (A * rio B)) code v : (forall r, f r = g r) -> loads g code v -> loads f code v.
Proof. intros E Hg r rest Hr Hf Ea. rewrite E. eauto. Qed.

(** A loader that ends with a value. *)
Lemma loads_end {A C} (f : rio B -> option (A * rio B)) (g : A -> rio B -> option (C * rio B)) code x y :
  loads f code x -> (forall r, g x r = Some (y, r)) -> loads (fun r => '(v, r) ← f r; g v r) code y.
Proof.
  intros Hf Hg. rewrite <- (app_nil_r code). eapply loads_bind; [done|]. eapply loads_ext; [exact Hg|]. apply loads_ret.
Qed.
End loads.

(** ** Lengths and integers come back *)

Lemma be_val_be_bytes n z : be_val (be_bytes n z) = z `mod` 256 ^ Z.of_nat n.
Proof. unfold be_val, be_bytes. by rewrite reverse_involutive, le_val_le_bytes. Qed.

Lemma bytes_be_bytes n z : bytes (be_bytes n z).
Proof. apply Forall_reverse, bytes_le_bytes. Qed.

Lemma msize_be_bytes n z : msize (be_bytes n z) = Z.of_nat n.
Proof. unfold msize, be_bytes. by rewrite length_reverse, length_le_bytes. Qed.

Lemma land_ff z : Z.land z 0xFF = z `mod` 256.
Proof. change 0xFF with (Z.ones 8). by rewrite Z.land_ones by lia. Qed.

Lemma rd_first b l : rd (b :: l) 0 = Some b.
Proof. done. Qed.

(** The tags of the first byte of a length. *)
Definition tag_6 (b : Z) : bool :=
  if b <? 64 then (Z.shiftr (Z.land b 0xC0) 6 =? RDB_6BITLEN) && (Z.land b 0x3F =? b) else true.

Definition tag_14 (b : Z) : bool :=
  if b <? 64 then (Z.shiftr (Z.land (64 + b) 0xC0) 6 =? RDB_14BITLEN) && (Z.land (64 + b) 0x3F =? b) else true.

Lemma tag_6_ok b : 0 <= b < 64 -> Z.shiftr (Z.land b 0xC0) 6 = RDB_6BITLEN /\ Z.land b 0x3F = b.
Proof.
  intros Hb. assert (tag_6 b = true) as H by (apply byte_cases; [by vm_compute|unfold byte; lia]).
  unfold tag_6 in H. rewrite (proj2 (Z.ltb_lt _ _)) in H by lia. by bools.
Qed.

Lemma tag_14_ok b : 0 <= b < 64 -> Z.shiftr (Z.land (64 + b) 0xC0) 6 = RDB_14BITLEN /\ Z.land (64 + b) 0x3F = b.
Proof.
  intros Hb. assert (tag_14 b = true) as H by (apply byte_cases; [by vm_compute|unfold byte; lia]).
  unfold tag_14 in H. rewrite (proj2 (Z.ltb_lt _ _)) in H by lia. by bools.
Qed.

Definition tag_enc (b : Z) : bool :=
  if b <? 64 then (Z.shiftr (Z.land (0xC0 + b) 0xC0) 6 =? RDB_ENCVAL) && (Z.land (0xC0 + b) 0x3F =? b) else true.

Lemma tag_enc_ok b : 0 <= b < 64 -> Z.shiftr (Z.land (0xC0 + b) 0xC0) 6 = RDB_ENCVAL /\ Z.land (0xC0 + b) 0x3F = b.
Proof.
  intros Hb. assert (tag_enc b = true) as H by (apply byte_cases; [by vm_compute|unfold byte; lia]).
  unfold tag_enc in H. rewrite (proj2 (Z.ltb_lt _ _)) in H by lia. by bools.
Qed.

Lemma put_tag_14 b : 0 <= b < 64 -> u8 (Z.lor b (Z.shiftl RDB_14BITLEN 6)) = 64 + b.
Proof. intros Hb. rewrite lor_shiftl by lia. rewrite wrapu_small; unfold RDB_14BITLEN, in_u; lia. Qed.

Definition len_code (len : Z) : mem :=
  if len <? 64 then [len] else if len <? 16384 then [64 + len `div` 256; len `mod` 256]
  else if len <=? UINT32_MAX then RDB_32BITLEN :: be_bytes 4 len else RDB_64BITLEN :: be_bytes 8 len.

Lemma bytes_len_code len : 0 <= len -> bytes (len_code len).
Proof.
  intros Hl. unfold len_code. repeat ztest; repeat (apply bytes_be_bytes || constructor); try done; dlia.
Qed.

Lemma len_code_size len : 0 <= len -> 1 <= msize (len_code len) <= 9.
Proof. intros Hl. unfold len_code. repeat ztest; rewrite ?msize_cons, ?msize_be_bytes, ?msize_nil; lia. Qed.

(** A write whose length the code returns itself. *)
Lemma saves_raw_n {B} `{RioWriter B} p n : msize p = n -> bytes p -> n < 2 ^ 63 ->
  saves (fun rdb : option (rio B) => '(m, rdb) ← rdbWriteRaw rdb p; Some (if m =? -1 then -1 else n, rdb)) p.
Proof.
  intros <- Hp Hn. pose proof (msize_nonneg p). destruct (saves_raw (B:=B) p Hp) as [_ Hs]; [lia|]. split; [done|]. intros rdb Hr.
  destruct (Hs rdb Hr) as ([m r] & -> & W). cbn [mbind option_bind]. eexists. split; [done|].
  unfold wrote in *. cbn [fst snd] in *. destruct rdb, r; try done; [|case_match; bools; lia].
  destruct W as [(-> & A & S)|[-> W]]; [left|right; done]. by rewrite (proj2 (Z.eqb_neq _ (-1))) by lia.
Qed.

Lemma rdbSaveLen_saves {B} `{RioWriter B} len : 0 <= len -> saves (fun rdb : option (rio B) => rdbSaveLen rdb len) (len_code len).
Proof.
  intros Hl. unfold rdbSaveLen, len_code. change (Z.shiftl 1 6) with 64. change (Z.shiftl 1 14) with 16384.
  destruct (Z.ltb_spec len 64); [|destruct (Z.ltb_spec len 16384); [|destruct (Z.leb_spec len UINT32_MAX)]].
  - rewrite Z.lor_0_r, land_ff, Z.mod_small, wrapu_small by (unfold in_u; lia).
    apply saves_raw_n; [done| |lia]. repeat constructor; lia.
  - rewrite !land_ff, Z.shiftr_div_pow2 by lia. change (2 ^ 8) with 256.
    rewrite (Z.mod_small (len `div` 256)), put_tag_14 by dlia. apply saves_raw_n; [done| |lia].
    repeat constructor; unfold byte; dlia.
  - apply (saves_then _ _ [RDB_32BITLEN]); apply saves_raw; rewrite ?msize_be_bytes; try done; [repeat constructor; done|apply bytes_be_bytes].
  - apply (saves_then _ _ [RDB_64BITLEN]); apply saves_raw; rewrite ?msize_be_bytes; try done; [repeat constructor; done|apply bytes_be_bytes].
Qed.

(** ** Loading lengths *)

Section loading.
Context {B : Type} `{RioReader B}.

Lemma rdbLoadLen_loads len : 0 <= len < UINT64_MAX -> loads (rdbLoadLen (B:=B)) (len_code len) (false, len).
Proof.
  intros Hl. rewrite <- (app_nil_r (len_code len)). unfold rdbLoadLen.
  eapply (loads_bind rdbLoadLenByRef (fun res r => match res with None => Some (false, RDB_LENERR, r)
    | Some (isencoded, len) => Some (isencoded, len, r) end) _ [] (Some (false, len))); [|apply loads_ret].
  unfold rdbLoadLenByRef, len_code, UINT32_MAX, UINT64_MAX in *.
  assert (forall b code v, loads (B:=B) (fun r => let type := Z.shiftr (Z.land b 0xC0) 6 in
      if type =? RDB_ENCVAL then Some (Some (true, Z.land b 0x3F), r)
      else if type =? RDB_6BITLEN then Some (Some (false, Z.land b 0x3F), r)
      else if type =? RDB_14BITLEN then load_14 b r
      else if b =? RDB_32BITLEN then load_be 4 r
      else if b =? RDB_64BITLEN then load_be 8 r
      else Some (None, r)) code v -> loads rdbLoadLenByRef (b :: code) v) as Hfirst.
  { intros b code v Hc. change (b :: code) with ([b] ++ code). eapply loads_bind; [by apply loads_read|]. exact Hc. }
  destruct (Z.ltb_spec len 64); [|destruct (Z.ltb_spec len 16384); [|destruct (Z.leb_spec len 4294967295)]]; apply Hfirst; clear Hfirst.
  - destruct (tag_6_ok len) as [-> ->]; [lia|]. apply loads_ret.
  - destruct (tag_14_ok (len `div` 256)) as [-> E]; [dlia|]. cbn [Z.eqb RDB_14BITLEN RDB_ENCVAL RDB_6BITLEN Pos.eqb].
    unfold load_14. eapply loads_end; [by apply loads_read|]. intros r.
    cbn iota. rewrite rd_first. cbn [mbind option_bind].
    rewrite E, Z.lor_comm, lor_shiftl by dlia. do 4 f_equal. dlia.
  - change (Z.shiftr (Z.land RDB_32BITLEN 192) 6) with 2. cbn.
    eapply loads_end; [exact (loads_read 4 _ (eq_sym (msize_be_bytes 4 len)))|]. intros r. cbn iota. rewrite be_val_be_bytes, Z.mod_small by lia. done.
  - change (Z.shiftr (Z.land RDB_64BITLEN 192) 6) with 2. cbn.
    eapply loads_end; [exact (loads_read 8 _ (eq_sym (msize_be_bytes 8 len)))|]. intros r. cbn iota. rewrite be_val_be_bytes, Z.mod_small by lia. done.
Qed.
End loading.

(** ** Integers *)

Lemma print_ll_ok v : in_s 64 v -> exists s, print_ll v = Some s /\ is_integer v s.
Proof.
  intros Hv. destruct (ll2string_spec (replicate (Z.to_nat LONG_STR_SIZE) 0) v Hv) as (s & rest & E & _ & Hi).
  { by rewrite length_replicate. }
  exists s. split; [|done]. unfold print_ll. rewrite E. cbn [mbind option_bind].
  by apply (memread_app [] s (0 :: rest) 0 (Z.of_nat (length s))).
Qed.

(** The value of the flags' kind for the string [s]. *)
Definition kept (flags : Z) (s : mem) (l : loaded) : Prop :=
  l = as_loaded flags s \/
  (is_robj flags = true /\ has_load_flag flags RDB_LOAD_ENC = true /\ exists v, l = LObj (OInt v) /\ is_integer v s).



Definition int_bytes (enc : Z) : Z := if enc =? RDB_ENC_INT8 then 1 else if enc =? RDB_ENC_INT16 then 2 else 4.

Lemma load_integer_16 a b : load_integer 1 [a; b] = Some (i16 (Z.lor a (Z.shiftl b 8))).
Proof. reflexivity. Qed.

Lemma load_integer_32 a b c d :
  load_integer 2 [a; b; c; d] = Some (i32 (Z.lor (Z.lor (Z.lor a (Z.shiftl b 8)) (Z.shiftl c 16)) (Z.shiftl d 24))).
Proof. reflexivity. Qed.

(** Bytes shifted to their places. *)
Lemma le_word_4 a b c d : byte a -> byte b -> byte c -> byte d ->
  Z.lor (Z.lor (Z.lor a (Z.shiftl b 8)) (Z.shiftl c 16)) (Z.shiftl d 24) = le_val [a; b; c; d].
Proof. unfold byte. intros. rewrite (lor_shiftl a b 8), (lor_shiftl _ c 16), (lor_shiftl _ d 24) by lia. cbn [le_val]. lia. Qed.

Lemma load_integer_encoded v : rdbEncodeInteger v <> [] ->
  exists enc bs, rdbEncodeInteger v = 0xC0 + enc :: bs /\ 0 <= enc <= 2 /\ bytes bs /\ msize bs = int_bytes enc /\
    load_integer enc bs = Some v /\ in_s 64 v.
Proof.
  unfold rdbEncodeInteger. rewrite !Z.geb_leb. change (Z.lor (Z.shiftl RDB_ENCVAL 6) RDB_ENC_INT8) with 0xC0.
  change (Z.lor (Z.shiftl RDB_ENCVAL 6) RDB_ENC_INT16) with 0xC1. change (Z.lor (Z.shiftl RDB_ENCVAL 6) RDB_ENC_INT32) with 0xC2.
  change (- Z.shiftl 1 7) with (-128). change (Z.shiftl 1 7 - 1) with 127. change (- Z.shiftl 1 15) with (-32768).
  change (Z.shiftl 1 15 - 1) with 32767. change (- Z.shiftl 1 31) with (-2147483648). change (Z.shiftl 1 31 - 1) with 2147483647.
  assert (forall z, byte (z `mod` 256)) as Hmod by (intros z; unfold byte; dlia).
  rewrite !land_ff, !Z.shiftr_div_pow2 by lia. change (2 ^ 8) with 256. change (2 ^ 16) with 65536. change (2 ^ 24) with 16777216.
  destruct ((-128 <=? v) && (v <=? 127)) eqn:E1; [|destruct ((-32768 <=? v) && (v <=? 32767)) eqn:E2;
    [|destruct ((-2147483648 <=? v) && (v <=? 2147483647)) eqn:E3; [|by intros []]]]; intros _; bools.
  - exists 0, [v `mod` 256]. split; [done|]. split; [lia|]. split; [repeat (apply Hmod || constructor)|]. split; [done|].
    unfold load_integer. cbn [Z.eqb RDB_ENC_INT8]. rewrite rd_first. cbn [mbind option_bind].
    split; [|unfold in_s; lia]. f_equal. change 256 with (2 ^ 8). rewrite wraps_mod by lia. apply wraps_small; [lia|]. unfold in_s. lia.
  - exists 1, [v `mod` 256; v `div` 256 `mod` 256]. split; [done|]. split; [lia|]. split; [repeat (apply Hmod || constructor)|]. split; [done|].
    rewrite load_integer_16.
    split; [|unfold in_s; lia]. f_equal. rewrite lor_shiftl by dlia.
    assert (v `mod` 256 + v `div` 256 `mod` 256 * 2 ^ 8 = v `mod` 2 ^ 16) as -> by dlia.
    rewrite wraps_mod by lia. apply wraps_small; [lia|]. unfold in_s. lia.
  - exists 2, [v `mod` 256; v `div` 256 `mod` 256; v `div` 65536 `mod` 256; v `div` 16777216 `mod` 256].
    split; [done|]. split; [lia|]. split; [repeat (apply Hmod || constructor)|]. split; [done|].
    rewrite load_integer_32.
    split; [|unfold in_s; lia]. f_equal. rewrite le_word_4 by apply Hmod.
    assert (le_val [v `mod` 256; v `div` 256 `mod` 256; v `div` 65536 `mod` 256; v `div` 16777216 `mod` 256] = v `mod` 2 ^ 32) as ->.
    { change (2 ^ 32) with (256 ^ Z.of_nat 4). rewrite <- le_val_le_bytes. cbn [le_bytes]. rewrite !Z.div_div by lia. done. }
    rewrite wraps_mod by lia. apply wraps_small; [lia|]. unfold in_s. lia.
Qed.


(** ** Strings *)

(** The allocations for a string of [n] bytes succeed. *)
Definition room (malloc_ok : Z -> bool) (n : Z) : Prop :=
  n + 18 < SIZE_MAX / 2 /\ forall k, 0 <= k <= n + 18 -> malloc_ok k = true.

Lemma room_ztrymalloc malloc_ok n k : room malloc_ok n -> 0 <= k <= n + 18 -> ztrymalloc malloc_ok k = true.
Proof. intros [Hn Hm] Hk. unfold ztrymalloc. rewrite Z.geb_leb, (proj2 (Z.leb_gt _ _)), Hm by lia. done. Qed.

Lemma sdsHdrSize_bound type : 1 <= sdsHdrSize type <= 17.
Proof. unfold sdsHdrSize. repeat case_match; lia. Qed.

Lemma room_sdstrynewlen malloc_ok n k : room malloc_ok n -> 0 <= k <= n -> sdstrynewlen malloc_ok k = Some true.
Proof.
  intros Hr Hk. unfold sdstrynewlen. cbn zeta. set (h := sdsHdrSize _).
  pose proof (sdsHdrSize_bound (if (sdsReqType k =? SDS_TYPE_5) && (k =? 0) then SDS_TYPE_8 else sdsReqType k)) as Hh. fold h in Hh.
  pose proof Hr as [Hn _]. change (SIZE_MAX / 2) with 9223372036854775807 in Hn. rewrite !wrapu_small by (unfold in_u; lia).
  rewrite Z.gtb_ltb, (proj2 (Z.ltb_lt _ _)) by lia. cbn [cassert mbind option_bind]. f_equal.
  eapply room_ztrymalloc; [done|lia].
Qed.

Lemma zmalloc_size fresh n : 0 <= n -> length (zmalloc fresh n) = Z.to_nat n.
Proof. intros. unfold zmalloc. by rewrite length_map, length_seqZ. Qed.

Section loading.
Context {B : Type} `{RioReader B}.
Variable no_shared : bool.
Variables malloc_ok : Z -> bool.
Variable fresh : Z -> Z.

(** What a code is to a loader of strings: under every flag, the string [s]. *)
Definition loads_string (f : rio B -> option (load_result * rio B)) (flags : Z) (code s : mem) : Prop :=
  exists l len, kept flags s l /\ (forall n, len = Some n -> n = msize s) /\ loads f code (Some (l, len)).

Lemma integer_as_ok flags v s : in_s 64 v -> is_integer v s ->
  exists l len, integer_as no_shared flags v = Some (l, len) /\ kept flags s l /\ (forall n, len = Some n -> n = msize s).
Proof.
  intros Hv Hi. destruct (print_ll_ok v Hv) as (s' & Hp & Hi'). pose proof (is_integer_unique _ _ _ Hi Hi') as <-.
  unfold integer_as, kept, as_loaded, is_robj, is_plain. rewrite Hp.
  destruct (has_load_flag flags RDB_LOAD_PLAIN); [|destruct (has_load_flag flags RDB_LOAD_SDS)];
    [eexists _, _; split; [done|]; split; [by left|]; by intros n [= <-]..|].
  destruct (has_load_flag flags RDB_LOAD_ENC).
  - exists (LObj (OInt v)), None. split; [|split; [right; eauto|done]].
    unfold createStringObjectFromLongLongForValue, createStringObjectFromLongLongWithOptions. unfold in_s in Hv.
    assert ((v >=? INT64_MIN) && (v <=? INT64_MAX) = true) as ->.
    { rewrite Z.geb_leb. change INT64_MIN with (- 2 ^ (64 - 1)). change INT64_MAX with (2 ^ (64 - 1) - 1). apply andb_true_intro. lia. }
    destruct no_shared; cbn [andb]; [rewrite andb_false_r|]; case_match; done.
  - exists (LObj (OStr s)), None. split; [|split; [by left|done]].
    unfold createStringObjectFromLongLongWithSds, createStringObjectFromLongLongWithOptions. rewrite !andb_false_r, Hp. done.
Qed.

Lemma integer_loads enc bs v s flags :
  0 <= enc <= 2 -> msize bs = int_bytes enc -> load_integer enc bs = Some v -> in_s 64 v -> is_integer v s ->
  loads_string (fun r => rdbLoadIntegerObject no_shared r enc flags) flags bs s.
Proof.
  intros He Hm Hl Hv Hi. destruct (integer_as_ok flags v s Hv Hi) as (l & len & E & Hk & Hn).
  exists l, len. split; [done|]. split; [done|].
  assert (forall n, n = int_bytes enc -> loads (fun r => '(res, r) ← rioRead (B:=B) r n; match res with None => Some (None, r)
    | Some e => val ← load_integer enc e; l ← integer_as no_shared flags val; Some (Some l, r) end) bs (Some (l, len))) as Hloads.
  { intros n ->. eapply loads_end; [by apply loads_read|]. intros r. cbn iota. by rewrite Hl; cbn [mbind option_bind]; rewrite E. }
  assert (enc = 0 \/ enc = 1 \/ enc = 2) as [->|[->| ->]] by lia; by apply Hloads.
Qed.

Lemma load_encoded enc : 0 <= enc < 64 -> loads (rdbLoadLen (B:=B)) [0xC0 + enc] (true, enc).
Proof.
  intros He. unfold rdbLoadLen. eapply (loads_end _ (fun res r => match res with None => Some (false, RDB_LENERR, r)
    | Some (isencoded, len) => Some (isencoded, len, r) end) _ (Some (true, enc))); [|done].
  unfold rdbLoadLenByRef. eapply loads_end; [by apply loads_read|]. intros r. cbn iota. rewrite rd_first. cbn [mbind option_bind].
  assert (Z.shiftr (Z.land (0xC0 + enc) 0xC0) 6 = RDB_ENCVAL /\ Z.land (0xC0 + enc) 0x3F = enc) as [-> ->]; [|done].
  by apply tag_enc_ok.
Qed.

(** The special encodings. *)
Lemma encoded_loads enc code flags s :
  (0 <= enc <= 2 /\ loads_string (fun r => rdbLoadIntegerObject no_shared r enc flags) flags code s) \/
  (enc = 3 /\ loads_string (fun r => rdbLoadLzfStringObject malloc_ok fresh r flags) flags code s) ->
  loads_string (fun r => rdbGenericLoadStringObject no_shared malloc_ok fresh r flags) flags (0xC0 + enc :: code) s.
Proof.
  intros [[He (l & len & Hk & Hn & Hl)]|[He (l & len & Hk & Hn & Hl)]]; exists l, len; (split; [done|]); (split; [done|]);
    change (0xC0 + enc :: code) with ([0xC0 + enc] ++ code); unfold rdbGenericLoadStringObject;
    (eapply (loads_bind _ _ _ _ (true, enc)); [apply load_encoded; lia|]); eapply loads_ext; try exact Hl; intros r; cbv beta iota.
  - assert (enc = 0 \/ enc = 1 \/ enc = 2) as [->|[->| ->]] by lia; done.
  - by subst.
Qed.

Lemma verbatim_loads flags s : room malloc_ok (msize s) ->
  loads_string (fun r => rdbGenericLoadStringObject no_shared malloc_ok fresh r flags) flags (len_code (msize s) ++ s) s.
Proof.
  intros Hr. pose proof (msize_nonneg s). pose proof Hr as [Hs _]. change (SIZE_MAX / 2) with 9223372036854775807 in Hs.
  exists (as_loaded flags s), (if is_robj flags then None else Some (msize s)). split; [by left|].
  split; [intros n; case_match; congruence|]. unfold rdbGenericLoadStringObject.
  eapply (loads_bind _ _ _ _ (false, msize s)); [apply rdbLoadLen_loads; unfold UINT64_MAX; lia|]. cbv beta iota.
  rewrite (proj2 (Z.eqb_neq _ RDB_LENERR)) by (unfold RDB_LENERR, UINT64_MAX; lia).
  assert ((if is_robj flags then tryCreateStringObject malloc_ok (msize s)
    else if is_plain flags then Some (ztrymalloc malloc_ok (msize s)) else sdstrynewlen malloc_ok (msize s)) = Some true) as ->.
  { unfold tryCreateStringObject. rewrite (room_sdstrynewlen malloc_ok (msize s)), (room_ztrymalloc malloc_ok (msize s)) by (done || lia).
    by repeat case_match. }
  cbn [mbind option_bind negb]. destruct (Z.eqb_spec (msize s) 0) as [E|E].
  - apply Z.eq_le_incl, msize_zero in E as ->. apply loads_ret.
  - eapply loads_end; [by apply loads_read|]. done.
Qed.

Lemma lzf_loads flags c s : encodes c s -> bytes s -> msize c <= msize s -> room malloc_ok (msize s) ->
  loads_string (fun r => rdbLoadLzfStringObject malloc_ok fresh r flags) flags (len_code (msize c) ++ len_code (msize s) ++ c) s.
Proof.
  intros He Hb Hc Hr. pose proof (msize_nonneg s). pose proof (msize_nonneg c).
  pose proof Hr as [Hs _]. change (SIZE_MAX / 2) with 9223372036854775807 in Hs.
  exists (as_loaded flags s), (Some (msize s)). split; [by left|]. split; [congruence|]. unfold rdbLoadLzfStringObject.
  eapply (loads_bind _ _ _ _ (false, msize c)); [apply rdbLoadLen_loads; unfold UINT64_MAX; lia|]. cbv beta iota.
  rewrite (proj2 (Z.eqb_neq _ RDB_LENERR)) by (unfold RDB_LENERR, UINT64_MAX; lia).
  eapply (loads_bind _ _ _ _ (false, msize s)); [apply rdbLoadLen_loads; unfold UINT64_MAX; lia|]. cbv beta iota.
  rewrite (proj2 (Z.eqb_neq _ RDB_LENERR)) by (unfold RDB_LENERR, UINT64_MAX; lia).
  rewrite (room_sdstrynewlen malloc_ok (msize s)), !(room_ztrymalloc malloc_ok (msize s)) by (done || lia).
  assert ((if is_plain flags then Some true else Some true) = Some true) as -> by by case_match. cbn [mbind option_bind negb].
  eapply loads_end; [by apply loads_read|]. intros r. cbn iota.
  assert (length (zmalloc fresh (msize s)) = length s) as El by (rewrite zmalloc_size by lia; unfold msize; lia).
  assert (msize (zmalloc fresh (msize s)) = msize s) as Em by exact (f_equal Z.of_nat El).
  rewrite (lzf_decompress_encodes c s) by (done || lia). cbn [mbind option_bind].
  rewrite Z.eqb_refl. cbn [negb]. rewrite drop_ge, app_nil_r; [done|by rewrite <- El].
Qed.

End loading.

(** ** Saving strings *)

Section saving.
Context {B : Type} `{RioWriter B}.
Variable rdb_compression : bool.
Variable fresh : Z -> Z.
Variable address : Z.
Variable junk : Z -> Z.

(** A code that every loader takes for the string [s]. *)
Definition string_code (code s : mem) : Prop :=
  forall R (HI : RioIO R) (HR : RioReader R) no_shared malloc_ok fresh flags, room malloc_ok (msize s) ->
  loads_string (fun r : rio R => rdbGenericLoadStringObject no_shared malloc_ok fresh r flags) flags code s.

Lemma integer_code v s : rdbEncodeInteger v <> [] -> is_integer v s -> string_code (rdbEncodeInteger v) s.
Proof.
  intros He Hi R HI HR no_shared malloc_ok fr flags _. destruct (load_integer_encoded v He) as (enc & bs & -> & E1 & _ & E2 & E3 & Hv).
  apply encoded_loads. left. split; [done|]. by apply (integer_loads _ _ _ v).
Qed.

Lemma encode_integer_bytes v : bytes (rdbEncodeInteger v) /\ msize (rdbEncodeInteger v) <= 5.
Proof.
  destruct (decide (rdbEncodeInteger v = [])) as [->|He]; [done|].
  destruct (load_integer_encoded v He) as (enc & bs & -> & E1 & Hb & E2 & _). rewrite msize_cons, E2. split.
  - constructor; [unfold byte; lia|done].
  - unfold int_bytes. repeat case_match; lia.
Qed.

Lemma save_verbatim_saves s : bytes s -> msize s < 2 ^ 63 ->
  saves (fun rdb : option (rio B) => save_verbatim rdb s) (len_code (msize s) ++ s).
Proof.
  intros Hb Hs. apply saves_then; [apply rdbSaveLen_saves, msize_nonneg|]. rewrite Z.gtb_ltb. destruct (Z.ltb_spec 0 (msize s)).
  - by apply saves_raw.
  - rewrite (msize_zero s) by done. apply saves_nothing.
Qed.

Lemma lzf_saves s : bytes s -> 4 < msize s < 2 ^ 63 -> MAX_OFF <= address /\ address + msize s < 2 ^ 64 -> (forall h, pointer (junk h)) ->
  (forall rdb : option (rio B), rdbSaveLzfStringObject fresh address junk rdb s = Some (0, rdb)) \/
  exists c, encodes c s /\ bytes c /\ msize c <= msize s - 4 /\
    saves (fun rdb : option (rio B) => rdbSaveLzfStringObject fresh address junk rdb s)
      (0xC3 :: len_code (msize c) ++ len_code (msize s) ++ c).
Proof.
  intros Hb Hs Ha Hj. unfold rdbSaveLzfStringObject. rewrite (proj2 (Z.leb_gt _ _)) by lia.
  destruct (lzf_compress_ok address junk s (msize s - 4) Ha Hj ltac:(lia) (take (Z.to_nat (msize s - 4)) (zmalloc fresh (msize s - 4 + 1))))
    as (n & o & -> & So & Hn).
  { unfold msize at 1. rewrite length_take, zmalloc_size by lia. lia. }
  cbn [mbind option_bind]. destruct Hn as [->|(c & tl & He & -> & ->)]; [by left|].
  rewrite msize_app in So. pose proof (msize_nonneg c). pose proof (msize_nonneg tl). pose proof (msize_nonneg s).
  destruct (Z.eqb_spec (msize c) 0); [by left|]. right. exists c. split; [done|].
  assert (bytes c) as Hbc by by eapply encodes_bytes. split; [done|]. split; [lia|]. unfold rdbSaveLzfBlob.
  apply (saves_then _ _ [0xC3]); [apply saves_raw; [by apply bytes_check|done]|].
  apply saves_then; [by apply rdbSaveLen_saves|]. apply saves_then; [by apply rdbSaveLen_saves|].
  eapply saves_ext; [|apply (saves_raw c); [done|lia]]. intros rdb. by rewrite memread_app_start.
Qed.

Lemma rdbSaveRawString_saves s : bytes s -> msize s < 2 ^ 63 -> MAX_OFF <= address /\ address + msize s < 2 ^ 64 ->
  (forall h, pointer (junk h)) ->
  exists code, saves (fun rdb : option (rio B) => rdbSaveRawString rdb_compression fresh address junk rdb s) code /\ string_code code s.
Proof.
  intros Hb Hs Ha Hj. unfold rdbSaveRawString.
  assert (Hverb : saves (fun rdb : option (rio B) => save_verbatim rdb s) (len_code (msize s) ++ s) /\ string_code (len_code (msize s) ++ s) s).
  { split; [by apply save_verbatim_saves|]. intros R HI HR no_shared malloc_ok fr flags Hr. by apply verbatim_loads. }
  set (enc := if msize s <=? 11 then _ else _).
  assert (enc = [] \/ exists v, enc = rdbEncodeInteger v /\ is_integer v s) as Henc.
  { unfold enc, rdbTryIntegerEncoding. case_match; [|by left]. destruct (string2ll s) as [v|] eqn:E; [|by left].
    apply string2ll_spec in E as [_ Hi]. eauto. }
  destruct (decide (enc = [])) as [->|Hne].
  2: { destruct Henc as [|(v & Ev & Hi)]; [done|]. rewrite Ev in Hne |- *. exists (rdbEncodeInteger v).
    pose proof (encode_integer_bytes v) as [Hbe Hme]. pose proof (msize_nonneg (rdbEncodeInteger v)).
    rewrite Z.gtb_ltb, (proj2 (Z.ltb_lt 0 _)). 2: { destruct (Z.eq_dec (msize (rdbEncodeInteger v)) 0) as [E0|]; [|lia]. by apply Z.eq_le_incl, msize_zero in E0. }
    split; [apply saves_raw_n; (done || lia)|by apply integer_code]. }
  change (msize [] >? 0) with false. cbn iota. clear Henc.
  destruct (rdb_compression && (msize s >? 20)) eqn:Ec; [|by eexists].
  rewrite Z.gtb_ltb in Ec. bools. destruct (lzf_saves s Hb ltac:(lia) Ha Hj) as [Hz|(c & He & Hbc & Hc & [Hbcode Hsv])].
  { eexists. split; [|apply Hverb]. eapply saves_ext; [|apply Hverb]. intros rdb. by rewrite Hz. }
  exists (0xC3 :: len_code (msize c) ++ len_code (msize s) ++ c). split.
  - split; [done|]. intros rdb Hr. destruct (Hsv rdb Hr) as ([n r] & -> & W). cbn [mbind option_bind]. eexists. split; [|exact W].
    pose proof (len_code_size (msize c) (msize_nonneg c)). pose proof (msize_nonneg c). pose proof (msize_nonneg s).
    pose proof (len_code_size (msize s) (msize_nonneg s)).
    unfold wrote in W. rewrite msize_cons, !msize_app in W. cbn [fst snd] in W. destruct (Z.eqb_spec n (-1)) as [->|]; [done|].
    rewrite Z.gtb_ltb, (proj2 (Z.ltb_lt 0 n)); [done|]. destruct rdb, r; try done; [destruct W as [[-> _]|[? _]]|]; lia.
  - intros R HI HR no_shared malloc_ok fr flags Hr. apply (encoded_loads _ _ _ 3). right. split; [done|]. apply lzf_loads; (done || lia).
Qed.

Lemma rdbSaveLongLongAsStringObject_saves v s : in_s 64 v -> is_integer v s -> bytes s ->
  exists code, saves (fun rdb : option (rio B) => rdbSaveLongLongAsStringObject rdb v) code /\ string_code code s.
Proof.
  intros Hv Hi Hb. unfold rdbSaveLongLongAsStringObject. rewrite Z.gtb_ltb. destruct (Z.ltb_spec 0 (msize (rdbEncodeInteger v))) as [Hl|Hl].
  - pose proof (encode_integer_bytes v) as [Hbe Hme]. exists (rdbEncodeInteger v). split; [apply saves_raw; (done || lia)|].
    apply integer_code; [|done]. intros E. rewrite E in Hl. by apply (Z.lt_irrefl 0).
  - destruct (ll2string_spec (replicate 32 0) v Hv) as (s' & rest & E & _ & Hi'); [done|].
    pose proof (is_integer_unique _ _ _ Hi Hi') as <-. pose proof (is_integer_length v s Hv Hi) as Hlen.
    exists (len_code (msize s) ++ s). split; [|intros R HI HR no_shared malloc_ok fr flags Hr; by apply verbatim_loads].
    eapply saves_ext; [|apply (saves_then (fun rdb : option (rio B) => rdbSaveLen rdb (msize s)) (fun rdb => rdbWriteRaw rdb s));
      [apply rdbSaveLen_saves, msize_nonneg|apply saves_raw; [done|unfold msize; lia]]].
    intros rdb. rewrite E. cbn [mbind option_bind]. rewrite (proj2 (Z.ltb_lt _ 32)) by lia. cbn [cassert mbind option_bind].
    unfold write_then. destruct (rdbSaveLen rdb _) as [[n r]|]; [|done]. cbn [mbind option_bind]. case_match; [done|].
    by rewrite memread_app_start.
Qed.

(** The string an object stands for. *)
Definition denotes (o : robj) (s : mem) : Prop :=
  match o with OStr t => t = s | OInt v => in_s 64 v /\ is_integer v s end.

End saving.

(** ** Any input is safe to load *)

(** The lengths an SDS string cannot have. *)
Definition too_long (len : Z) : Prop := UINT64_MAX - 17 <= len < UINT64_MAX.

Lemma sdstrynewlen_total malloc_ok len : 0 <= len < UINT64_MAX -> is_Some (sdstrynewlen malloc_ok len) \/ too_long len.
Proof.
  intros Hl. unfold sdstrynewlen, too_long, UINT64_MAX in *. cbn zeta. set (h := sdsHdrSize _).
  pose proof (sdsHdrSize_bound (if (sdsReqType len =? SDS_TYPE_5) && (len =? 0) then SDS_TYPE_8 else sdsReqType len)) as Hh. fold h in Hh.
  destruct (Z.le_gt_cases (18446744073709551615 - 17) len); [right; lia|left].
  clearbody h. rewrite (wrapu_small 64 (len + h + 1)) by (unfold in_u; lia). rewrite Z.gtb_ltb, (proj2 (Z.ltb_lt len (len + h + 1))) by lia. by eexists (ztrymalloc _ _).
Qed.

(** The assertion, which compares the size of the block with the length, fails. *)
Lemma sdstrynewlen_stops malloc_ok len : too_long len -> sdstrynewlen malloc_ok len = None.
Proof.
  intros Hl. unfold too_long, UINT64_MAX in Hl. unfold sdstrynewlen.
  assert (sdsReqType len = SDS_TYPE_64) as ->.
  { unfold sdsReqType. change (Z.shiftl 1 5) with 32. change (Z.shiftl 1 8 - 3 - 1) with 252.
    change (Z.shiftl 1 16 - 5 - 1) with 65530. change (Z.shiftl 1 32 - 9 - 1) with 4294967286.
    rewrite (proj2 (Z.ltb_ge _ _)), !(proj2 (Z.leb_gt _ _)) by lia. done. }
  cbn [Z.eqb SDS_TYPE_64 SDS_TYPE_5 andb]. change (sdsHdrSize SDS_TYPE_64) with 17. unfold wrapu. change (2 ^ 64) with 18446744073709551616.
  rewrite Z.gtb_ltb, (proj2 (Z.ltb_ge _ _)) by dlia. done.
Qed.

Section any_input.
Context {B : Type} `{RioReader B}.
(** A load that got something went over some bytes. *)
Record went (r r' : rio B) (code : mem) : Prop := {
  went_reading : reading r';
  went_ahead : ahead (io r) = code ++ ahead (io r')
}.

Lemma went_trans r r1 r2 a b : went r r1 a -> went r1 r2 b -> went r r2 (a ++ b).
Proof. intros [_ E1] [R2 E2]. constructor; [done|]. by rewrite E1, E2, (assoc_L (++)). Qed.

Lemma be_bytes_be_val bs n : bytes bs -> length bs = n -> be_bytes n (be_val bs) = bs.
Proof.
  intros Hb <-. unfold be_bytes, be_val. rewrite <- (length_reverse bs), le_bytes_le_val by by apply Forall_reverse.
  apply reverse_involutive.
Qed.

Lemma be_val_bound bs n : bytes bs -> msize bs = n -> 0 <= be_val bs < 256 ^ n.
Proof.
  intros Hb <-. unfold be_val. pose proof (le_val_bound (reverse bs)) as Hx. rewrite length_reverse in Hx. by apply Hx, Forall_reverse.
Qed.

(** The longest lengths, which only the 64-bit code has. *)
Definition huge (len : Z) (code : mem) : Prop := UINT32_MAX < len -> code = RDB_64BITLEN :: be_bytes 8 len.

Definition len_loaded (r : rio B) (res : option (option (bool * Z) * rio B)) : Prop :=
  exists v r', res = Some (v, r') /\
    match v with
    | None => True
    | Some (e, len) => 0 <= len <= UINT64_MAX /\ exists code, went r r' code /\ 1 <= msize code /\ huge len code
    end.

Lemma load_be_total (r0 r : rio B) b n : went r0 r [b] -> n = 4 \/ (n = 8 /\ b = RDB_64BITLEN) -> len_loaded r0 (load_be n r).
Proof.
  intros Hw Hn. unfold load_be. destruct (rioRead_total r n (went_reading _ _ _ Hw)) as (res & r' & -> & Hres); [lia|].
  cbn [mbind option_bind]. eexists _, _. split; [done|]. destruct res as [bs|]; [|done]. destruct Hres as (Hb & Hm & Hr & Ha).
  pose proof (be_val_bound bs n Hb Hm) as Hv. assert (256 ^ n <= 2 ^ 64) by (destruct Hn as [->|[-> _]]; done).
  split; [unfold UINT64_MAX; lia|]. exists ([b] ++ bs). split; [eapply went_trans; [exact Hw|by constructor]|].
  split; [rewrite msize_app; pose proof (msize_nonneg bs); change (msize [b]) with 1; lia|]. intros Hbig.
  destruct Hn as [->|[-> ->]]; [unfold UINT32_MAX in Hbig; lia|]. cbn [app]. f_equal. symmetry. apply be_bytes_be_val; [done|].
  unfold msize in Hm. lia.
Qed.

Lemma rdbLoadLenByRef_total (r : rio B) : reading r -> len_loaded r (rdbLoadLenByRef r).
Proof.
  intros Hr. unfold rdbLoadLenByRef. destruct (rioRead_total r 1 Hr) as (res & r1 & -> & Hres); [lia|]. cbn [mbind option_bind].
  destruct res as [bs|]; [|eexists _, _; by split]. destruct Hres as (Hb & Hm & Hr1 & Ha).
  destruct bs as [|b [|? ?]]; [done| |unfold msize in Hm; cbn [length] in Hm; lia]. rewrite rd_first. cbn [mbind option_bind].
  apply Forall_cons in Hb as [Hb _]. assert (went r r1 [b]) as Hw by by constructor.
  assert (forall x, 0 <= Z.land x 0x3F < 64) as Hand.
  { intros x. change 0x3F with (Z.ones 6). rewrite Z.land_ones by lia. change (2 ^ 6) with 64. dlia. }
  assert (forall e, len_loaded r (Some (Some (e, Z.land b 0x3F), r1))) as Hsmall.
  { intros e. specialize (Hand b). eexists _, _. split; [done|]. split; [unfold UINT64_MAX; lia|]. exists [b].
    split; [done|]. split; [done|]. unfold huge, UINT32_MAX. lia. }
  case_match; [done|]. case_match; [done|]. case_match.
  - unfold load_14. destruct (rioRead_total r1 1 Hr1) as (res & r2 & -> & Hres); [lia|]. cbn [mbind option_bind].
    destruct res as [bs|]; [|eexists _, _; by split]. destruct Hres as (Hb2 & Hm2 & Hr2 & Ha2).
    destruct bs as [|b1 l]; [done|]. rewrite rd_first. cbn [mbind option_bind]. apply Forall_cons in Hb2 as [Hb1 _]. unfold byte in Hb1.
    specialize (Hand b). assert (Z.lor (Z.shiftl (Z.land b 0x3F) 8) b1 = b1 + Z.land b 0x3F * 256) as E by (rewrite Z.lor_comm, lor_shiftl by lia; lia).
    eexists _, _. split; [done|]. rewrite E. split; [unfold UINT64_MAX; lia|]. exists ([b] ++ b1 :: l).
    split; [eapply went_trans; [exact Hw|by constructor]|]. split; [rewrite msize_app; pose proof (msize_nonneg (b1 :: l)); change (msize [b]) with 1; lia|].
    unfold huge, UINT32_MAX. lia.
  - case_match; [apply (load_be_total _ _ b); auto|]. case_match; bools; [apply (load_be_total _ _ b); auto|]. eexists _, _. by split.
Qed.

Lemma rdbLoadLen_total (r : rio B) : reading r ->
  exists e len r', rdbLoadLen r = Some (e, len, r') /\
    (len = RDB_LENERR \/ (0 <= len < UINT64_MAX /\ exists code, went r r' code /\ 1 <= msize code /\ huge len code)).
Proof.
  intros Hr. unfold rdbLoadLen. destruct (rdbLoadLenByRef_total r Hr) as (v & r' & -> & Hv). cbn [mbind option_bind].
  destruct v as [[e len]|]; [|eexists _, _, _; split; [done|by left]]. destruct Hv as (Hl & Hc). eexists _, _, _. split; [done|].
  destruct (Z.eq_dec len RDB_LENERR); [by left|right]. split; [unfold RDB_LENERR in *; lia|done].
Qed.

Variable no_shared : bool.
Variables malloc_ok : Z -> bool.
Variable fresh : Z -> Z.

(** What a load of a string from any input may do: a value, an error, or the assertion. *)
Definition safe_load (r : rio B) (flags : Z) (res : option (load_result * rio B)) : Prop :=
  match res with
  | Some (Some _, r') => exists code, went r r' code /\ 1 <= msize code
  | Some (None, _) => True
  | None => is_plain flags = false /\
      exists pre len suf, ahead (io r) = pre ++ (RDB_64BITLEN :: be_bytes 8 len) ++ suf /\ too_long len
  end.

Lemma safe_load_error r flags (r' : rio B) : safe_load r flags (Some (None, r')).
Proof. done. Qed.

(** A loaded length that makes the assertion fail is in the input. *)
Lemma safe_load_stops r r1 r2 pre code len flags :
  is_plain flags = false -> went r r1 pre -> went r1 r2 code -> huge len code -> too_long len -> safe_load r flags None.
Proof.
  intros Hf [_ E1] [_ E2] Hh Hl. split; [done|]. exists pre, len, (ahead (io r2)). split; [|done].
  rewrite E1, E2, Hh; [done|]. unfold too_long, UINT64_MAX, UINT32_MAX in *. lia.
Qed.

Lemma rdbLoadIntegerObject_safe (r0 r : rio B) enc flags code :
  went r0 r code -> 1 <= msize code -> safe_load r0 flags (rdbLoadIntegerObject no_shared r enc flags).
Proof.
  intros Hw Hc. unfold rdbLoadIntegerObject. cbv zeta.
  set (n := if enc =? RDB_ENC_INT8 then 1 else if enc =? RDB_ENC_INT16 then 2 else if enc =? RDB_ENC_INT32 then 4 else 0).
  destruct (Z.eqb_spec n 0); [done|].
  destruct (rioRead_total r n (went_reading _ _ _ Hw)) as (res & r' & -> & Hres); [unfold n; repeat case_match; lia|].
  cbn [mbind option_bind]. destruct res as [bs|]; [|done]. destruct Hres as (Hb & Hm & Hr & Ha).
  assert (exists v, load_integer enc bs = Some v /\ in_s 64 v) as (v & -> & Hv).
  { unfold load_integer. assert (forall i, 0 <= i < n -> exists b, rd bs i = Some b) as Hrd by (intros i Hi; apply rd_is_Some; lia).
    assert (forall w z, 0 < w <= 32 -> in_s 64 (wraps w z)) as Hs.
    { intros w z Hw'. pose proof (in_s_wraps w z) as Hz. unfold in_s in *. assert (2 ^ (w - 1) <= 2 ^ 31) by (apply Z.pow_le_mono_r; lia). lia. }
    unfold n in *. destruct (Hrd 0) as [b0 ->]; [repeat case_match; lia|]. cbn [mbind option_bind].
    destruct (enc =? RDB_ENC_INT8); [eexists; split; [done|apply Hs; lia]|].
    destruct (Hrd 1) as [b1 ->]; [repeat case_match; lia|]. cbn [mbind option_bind].
    destruct (enc =? RDB_ENC_INT16); [eexists; split; [done|apply Hs; lia]|].
    destruct (Hrd 2) as [b2 ->]; [repeat case_match; lia|]. destruct (Hrd 3) as [b3 ->]; [repeat case_match; lia|]. cbn [mbind option_bind].
    eexists; split; [done|apply Hs; lia]. }
  cbn [mbind option_bind]. destruct (print_ll_ok v Hv) as (s & _ & Hi).
  destruct (integer_as_ok no_shared flags v s Hv Hi) as (l & len & -> & _). cbn [mbind option_bind].
  exists (code ++ bs). split; [eapply went_trans; [exact Hw|by constructor]|]. rewrite msize_app. pose proof (msize_nonneg bs). lia.
Qed.

Lemma rdbLoadLzfStringObject_safe (r0 r : rio B) flags code :
  went r0 r code -> 1 <= msize code -> safe_load r0 flags (rdbLoadLzfStringObject malloc_ok fresh r flags).
Proof.
  intros Hw Hc. unfold rdbLoadLzfStringObject.
  destruct (rdbLoadLen_total r (went_reading _ _ _ Hw)) as (e1 & clen & r1 & -> & H1). cbn [mbind option_bind].
  destruct (Z.eqb_spec clen RDB_LENERR); [done|]. destruct H1 as [|(Hclen & c1 & W1 & _)]; [done|].
  destruct (rdbLoadLen_total r1 (went_reading _ _ _ W1)) as (e2 & len & r2 & -> & H2). cbn [mbind option_bind].
  destruct (Z.eqb_spec len RDB_LENERR); [done|]. destruct H2 as [|(Hlen & c2 & W2 & _ & Hhuge)]; [done|].
  destruct (negb (ztrymalloc malloc_ok clen)); [done|].
  assert ((exists a, (if is_plain flags then Some (ztrymalloc malloc_ok len) else sdstrynewlen malloc_ok len) = Some a) \/
    (is_plain flags = false /\ too_long len /\ sdstrynewlen malloc_ok len = None)) as [[a ->]|(Hf & Hl & E)].
  { destruct (is_plain flags); [eauto|]. destruct (sdstrynewlen_total malloc_ok len Hlen) as [[a ->]|Hl]; [eauto|right; eauto using sdstrynewlen_stops]. }
  2: { rewrite Hf, E. cbn [mbind option_bind]. eapply safe_load_stops; [done|eapply went_trans; [exact Hw|exact W1]|exact W2|done..]. }
  cbn [mbind option_bind]. destruct a; [cbn [negb]|done].
  destruct (rioRead_total r2 clen (went_reading _ _ _ W2)) as (res & r3 & -> & Hres); [lia|]. cbn [mbind option_bind].
  destruct res as [c|]; [|done]. destruct Hres as (Hb & Hm & Hr & Ha).
  destruct (decompress_loop_safe (S (length c)) c 0 0 (zmalloc fresh len) (zmalloc fresh len)) as ([[k e] val] & E & _); try done;
    [pose proof (msize_nonneg c); lia|pose proof (msize_nonneg (zmalloc fresh len)); lia|unfold msize; lia|].
  unfold lzf_decompress. rewrite E. cbn [mbind option_bind]. destruct (negb (k =? len)); [done|].
  exists (((code ++ c1) ++ c2) ++ c). split; [eapply went_trans; [eapply went_trans; [eapply went_trans|]|]; eauto; by constructor|].
  rewrite !msize_app. pose proof (msize_nonneg c1). pose proof (msize_nonneg c2). pose proof (msize_nonneg c). lia.
Qed.

Lemma rdbGenericLoadStringObject_safe (r : rio B) flags :
  reading r -> safe_load r flags (rdbGenericLoadStringObject no_shared malloc_ok fresh r flags).
Proof.
  intros Hr. unfold rdbGenericLoadStringObject. destruct (rdbLoadLen_total r Hr) as (e & len & r1 & -> & H1). cbn [mbind option_bind].
  destruct (Z.eqb_spec len RDB_LENERR); [done|]. destruct H1 as [|(Hlen & c1 & W1 & Hc & Hhuge)]; [done|].
  destruct e; [case_match; [by eapply rdbLoadIntegerObject_safe|]; case_match; [by eapply rdbLoadLzfStringObject_safe|done]|].
  assert ((exists a, (if is_robj flags then tryCreateStringObject malloc_ok len
      else if is_plain flags then Some (ztrymalloc malloc_ok len) else sdstrynewlen malloc_ok len) = Some a) \/
    (is_plain flags = false /\ too_long len /\ (if is_robj flags then tryCreateStringObject malloc_ok len
      else if is_plain flags then Some (ztrymalloc malloc_ok len) else sdstrynewlen malloc_ok len) = None)) as [[a ->]|(Hf & Hl & ->)].
  { unfold is_robj. destruct (is_plain flags); [cbn [negb andb]; eauto|]. cbn [negb andb].
    destruct (sdstrynewlen_total malloc_ok len Hlen) as [[a Ea]|Hl].
    - left. unfold tryCreateStringObject. rewrite Ea. repeat case_match; eauto.
    - right. split; [done|]. split; [done|]. unfold tryCreateStringObject. rewrite sdstrynewlen_stops by done.
      unfold too_long, UINT64_MAX in Hl. rewrite (proj2 (Z.leb_gt len _)) by (unfold OBJ_ENCODING_EMBSTR_SIZE_LIMIT; lia). by case_match. }
  2: { cbn [mbind option_bind]. eapply (safe_load_stops r r r1 []); [done|by constructor|exact W1|done..]. }
  cbn [mbind option_bind]. destruct a; [cbn [negb]|done]. destruct (Z.eqb_spec len 0); [by exists c1|].
  destruct (rioRead_total r1 len (went_reading _ _ _ W1)) as (res & r2 & -> & Hres); [lia|]. cbn [mbind option_bind].
  destruct res as [s|]; [|done]. destruct Hres as (Hb & Hm & Hr2 & Ha). exists (c1 ++ s).
  split; [eapply went_trans; [exact W1|by constructor]|]. rewrite msize_app. pose proof (msize_nonneg s). lia.
Qed.
End any_input.

(** ** Theorems *)

(** C9: Strings come back from a snapshot.  Whatever the backends, the chunks and the
    checksums of the streams, saving a string object -- encoded as an integer or not,
    compressed or not -- writes a code, reporting its length, or fails with -1 and the
    error flag; and from any stream that starts with the code, loading with any flags gets
    the same string, as the kind of value the flags ask for (an integer object only with
    [RDB_LOAD_ENC]), and leaves what follows to the next load.  The string is shorter than
    2^63 bytes and lies in the address space, and the loads spoken of are those whose
    allocations succeed. *)
Theorem rdb_string_roundtrip {B} `{RioWriter B} rdb_compression fresh address junk o s :
  denotes o s -> bytes s -> msize s < 2 ^ 63 -> MAX_OFF <= address /\ address + msize s < 2 ^ 64 -> (forall h, pointer (junk h)) ->
  exists code, saves (fun rdb : option (rio B) => rdbSaveStringObject rdb_compression fresh address junk rdb o) code /\ string_code code s.
Proof.
  destruct o as [v|t]; cbn [denotes rdbSaveStringObject]; [|intros ->; apply rdbSaveRawString_saves].
  intros [Hv Hi] Hb _ _ _. by apply (rdbSaveLongLongAsStringObject_saves v).
Qed.

Lemma rdb_string_roundtrip_witness :
  let s := replicate 30 97 in
  exists code, saves (fun rdb : option (rio buffer) => rdbSaveStringObject true (fun _ => 0) 65536 (fun _ => 70000) rdb (OStr s)) code /\
    string_code code s.
Proof.
  apply (rdb_string_roundtrip true (fun _ => 0) 65536 (fun _ => 70000) (OStr (replicate 30 97)) (replicate 30 97)).
  - reflexivity.
  - apply bytes_check. reflexivity.
  - reflexivity.
  - split; [discriminate|reflexivity].
  - intros h. split; [discriminate|reflexivity].
Defined.

(** C10: Any input is safe to load as a string.  Whatever the bytes and the flags, loading
    returns -- an error, or a value from a non-empty prefix of the input, after which the
    stream is still good -- and touches no memory outside its blocks; the one exception is
    the assertion of [sdsnewlen], which stops the program when the input holds a 64-bit
    length within 18 of the largest, and only for the flags that ask for an SDS string. *)
Theorem rdb_load_safe {B} `{RioReader B} no_shared malloc_ok fresh (r : rio B) flags :
  reading r -> safe_load r flags (rdbGenericLoadStringObject no_shared malloc_ok fresh r flags).
Proof. apply rdbGenericLoadStringObject_safe. Qed.

Lemma rdb_load_safe_witness :
  safe_load (rioInitWithBuffer [0xC3; 3; 5; 0; 97; 32; 1]) RDB_LOAD_PLAIN
    (rdbGenericLoadStringObject false (fun _ => true) (fun _ => 0) (rioInitWithBuffer [0xC3; 3; 5; 0; 97; 32; 1]) RDB_LOAD_PLAIN).
Proof.
  apply (rdb_load_safe false (fun _ => true) (fun _ => 0) (rioInitWithBuffer [0xC3; 3; 5; 0; 97; 32; 1]) RDB_LOAD_PLAIN).
  apply rioInitWithBuffer_reading; [apply bytes_check|]; reflexivity.
Defined.

(** Such a length does stop the program, where other lengths that cannot be allocated are
    an error. *)
Lemma rdb_load_stops {B} `{RioReader B} no_shared malloc_ok fresh (r : rio B) flags len rest :
  reading r -> has_flag RIO_FLAG_READ_ERROR r = false -> ahead (io r) = (RDB_64BITLEN :: be_bytes 8 len) ++ rest ->
  too_long len -> is_plain flags = false -> rdbGenericLoadStringObject no_shared malloc_ok fresh r flags = None.
Proof.
  intros Hr Hf E Hl Hp. pose proof Hl as Hl'. unfold too_long, UINT64_MAX in Hl'.
  assert (len_code len = RDB_64BITLEN :: be_bytes 8 len) as Ec.
  { unfold len_code, UINT32_MAX. rewrite !(proj2 (Z.ltb_ge _ _)), (proj2 (Z.leb_gt _ _)) by lia. done. }
  rewrite <- Ec in E. destruct (rdbLoadLen_loads len) with (r := r) (rest := rest) as (r' & El & _); [unfold UINT64_MAX; lia|done..|].
  unfold rdbGenericLoadStringObject. rewrite El. cbn [mbind option_bind].
  rewrite (proj2 (Z.eqb_neq len _)) by (unfold RDB_LENERR, UINT64_MAX; lia). rewrite Hp.
  unfold tryCreateStringObject. rewrite (proj2 (Z.leb_gt len _)) by (unfold OBJ_ENCODING_EMBSTR_SIZE_LIMIT; lia).
  rewrite sdstrynewlen_stops by done. by case_match.
Qed.

(** A change of at most eight bytes in a row. *)
Definition burst (s t : mem) : Prop :=
  exists a x y b, s = a ++ x ++ b /\ t = a ++ y ++ b /\ length x = length y /\ (length x <= 8)%nat /\ x <> y.

(** A stream with the checksum on, at its start. *)
Definition summed {B} (r : rio B) : Prop := update_cksum r <> None /\ cksum r = 0.

Lemma advanced_sum {B} `{RioIO B} (r r' : rio B) bs : summed r -> bytes bs -> advanced r r' bs -> cksum r' = crc_bytes 0 bs.
Proof.
  intros [Hu Hc] Hb A. rewrite (adv_cksum _ _ _ A), Hc. unfold new_sum. destruct (update_cksum r); [|done].
  by apply crc64_more_bytes.
Qed.

(** The 8 bytes at the end of a snapshot. *)
Definition footer (body : mem) : mem := le_bytes 8 (_crc64 0 body).

Lemma crc64_start body : bytes body -> _crc64 0 body = crc_bytes 0 body.
Proof. intros Hb. by rewrite _crc64_spec. Qed.

(** C11: The checksum of a snapshot.  A writer that went over the body appends the CRC-64 of
    it; a loader that has read the same body finds in these bytes the checksum it expects,
    and one that has read a body with a burst of up to eight changed bytes rejects them --
    whatever the chunks of both, and unless the checksum happens to be 0, which the loader
    takes for a snapshot saved without one. *)
Theorem rdb_checksum_detects {W} `{RioWriter W} {R} `{RioReader R} (w w1 : rio W) body (r r1 : rio R) body' rest :
  summed w -> bytes body -> advanced w w1 body ->
  summed r -> bytes body' -> advanced r r1 body' -> reading r1 -> has_flag RIO_FLAG_READ_ERROR r1 = false ->
  ahead (io r1) = footer body ++ rest ->
  (exists ok w2, save_checksum w1 = Some (ok, w2) /\ (ok = true -> stream (io w2) = stream (io w1) ++ footer body)) /\
  (exists v r2, load_checksum true r1 = Some (v, r2) /\
    (body' = body -> v = Accepted) /\ (burst body body' -> _crc64 0 body <> 0 -> v = WrongChecksum)).
Proof.
  intros Hsw Hb Aw Hsr Hb' Ar Hr Hf E. unfold footer in *. rewrite crc64_start in * by done. split.
  - unfold save_checksum. rewrite (advanced_sum w w1 body) by done.
    destruct (rioWrite_ok w1 (le_bytes 8 (crc_bytes 0 body))) as (ok & w' & -> & Hres); [apply Aw|apply bytes_le_bytes|done|].
    eexists _, _. split; [done|]. intros ->. apply Hres.
  - destruct (rioRead_ok r1 _ rest Hr Hf E) as (r2 & Erd & _). rewrite msize_le_bytes in Erd.
    unfold load_checksum. change 8 with (Z.of_nat 8). rewrite Erd. cbn [mbind option_bind].
    rewrite (advanced_sum r r1 body'), !le_val_le_bytes by done. change (256 ^ Z.of_nat 8) with (2 ^ 64).
    rewrite Z.mod_small by (by apply word_crc_bytes). eexists _, _. split; [done|]. cbn [andb]. split.
    + intros ->. by rewrite Z.eqb_refl, andb_false_r.
    + intros (a & x & y & b & -> & -> & El & E8 & Hne) Hz. rewrite (proj2 (Z.eqb_neq _ 0)) by done. cbn [negb andb].
      apply Forall_app in Hb as [Ha [Hx Hbb]%Forall_app]. apply Forall_app in Hb' as [_ [Hy _]%Forall_app].
      destruct (Z.eqb_spec (crc_bytes 0 (a ++ x ++ b)) (crc_bytes 0 (a ++ y ++ b))) as [Ec|]; [|done].
      by apply crc_bytes_burst in Ec.
Qed.

(** The stream of a buffer with the checksum on, at [p], over [bs]. *)
Definition ex_summed (bs s : mem) (p : Z) : rio buffer :=
  mk_rio (Some (rioGenericUpdateChecksum 8 24 0 empty_cache)) (crc64_more 0 bs) 0 p 0 (mk_buffer s p).

Lemma ex_summed_ok bs s p : bytes bs -> rio_ok (ex_summed bs s p).
Proof.
  intros Hb. constructor; [done|constructor; apply empty_cache_good|]. cbn [cksum ex_summed].
  rewrite crc64_more_bytes by done. by apply word_crc_bytes.
Qed.

Lemma ex_summed_advanced bs s p s' p' : bytes bs -> advanced (ex_summed [] s p) (ex_summed bs s' p') bs.
Proof. intros Hb. constructor; [by apply ex_summed_ok|done..]. Qed.

Lemma rdb_checksum_detects_witness :
  exists v r2, load_checksum true (ex_summed [1; 7; 3] ([1; 7; 3] ++ footer [1; 2; 3]) 3) = Some (v, r2) /\ v = WrongChecksum.
Proof.
  destruct (rdb_checksum_detects (ex_summed [] [] 0) (ex_summed [1; 2; 3] [1; 2; 3] 3) [1; 2; 3]
    (ex_summed [] [] 0) (ex_summed [1; 7; 3] ([1; 7; 3] ++ footer [1; 2; 3]) 3) [1; 7; 3] []) as [_ (v & r2 & E & _ & Hv)].
  - split; [discriminate|reflexivity].
  - apply bytes_check. reflexivity.
  - apply ex_summed_advanced, bytes_check. reflexivity.
  - split; [discriminate|reflexivity].
  - apply bytes_check. reflexivity.
  - apply ex_summed_advanced, bytes_check. reflexivity.
  - constructor; [apply ex_summed_ok, bytes_check; reflexivity|split; [split; discriminate|reflexivity]|apply bytes_le_bytes|reflexivity].
  - reflexivity.
  - cbn [ex_summed io ahead buffer_reader ptr pos]. by rewrite app_nil_r.
  - exists v, r2. split; [exact E|]. apply Hv; [|vm_compute; discriminate]. exists [1], [2], [7], [3].
    do 3 (split; [reflexivity|]). split; [cbn; lia|discriminate].
Defined.
End Rdb.
