(* ===== verification/Sds.v ===== *)
(** Strings (sds.c): substrings, quoting with [sdscatrepr] and [sdsneedsrepr], and the
    parser of lines of arguments, [sdssplitargs], which undoes the quoting. *)
From S2P Require Import Prelude.
From stdpp Require Import options.
#[local] Set Default Proof Using "Type*".

Module Sds.
(** ** Substrings *)

Definition sdssubstr (s : mem) (start len : Z) : option mem :=
  let oldlen := msize s in
  let '(start, len) := if start >=? oldlen then (0, 0) else (start, len) in
  let len := if len >? u64 (oldlen - start) then u64 (oldlen - start) else len in
  memread s start len.

Definition sdsrange (s : mem) (start end_ : Z) : option mem :=
  let len := msize s in
  if len =? 0 then Some s
  else
    let start := if start <? 0 then i64 (len + start) else start in
    let end_ := if end_ <? 0 then i64 (len + end_) else end_ in
    let newlen := if start >? end_ then 0 else (end_ - start) + 1 in
    sdssubstr s (u64 start) newlen.

(** ** Characters *)

(** Those of the locale C. *)
Definition isspace (c : Z) : bool := ((9 <=? c) && (c <=? 13)) || (c =? 32).
Definition isprint (c : Z) : bool := (32 <=? c) && (c <=? 126).

Definition is_hex_digit (c : Z) : bool :=
  ((c >=? 48) && (c <=? 57)) || ((c >=? 97) && (c <=? 102)) || ((c >=? 65) && (c <=? 70)).

Definition hex_digit_to_int (c : Z) : Z :=
  if (48 <=? c) && (c <=? 57) then c - 48
  else if (97 <=? c) && (c <=? 102) then c - 87
  else if (65 <=? c) && (c <=? 70) then c - 55
  else 0.

(** ** Quoting *)

Definition backslash : Z := 92.
Definition quote : Z := 34.
Definition single_quote : Z := 39.
Definition letter_x : Z := 120.

(** The letters of the escapes of newline, return, tab, bell and backspace. *)
Definition letter_of (c : Z) : option Z :=
  if c =? 10 then Some 110 else if c =? 13 then Some 114 else if c =? 9 then Some 116
  else if c =? 7 then Some 97 else if c =? 8 then Some 98 else None.

(** [%02x] of a byte. *)
Definition hex_char (d : Z) : Z := if d <? 10 then 48 + d else 87 + d.
Definition hex2 (c : Z) : mem := [hex_char (c / 16); hex_char (c `mod` 16)].

(** The characters that stand for [c] between quotes. *)
Definition repr_char (c : Z) : mem :=
  if (c =? backslash) || (c =? quote) then [backslash; c]
  else match letter_of c with
  | Some l => [backslash; l]
  | None => if isprint c then [c] else backslash :: letter_x :: hex2 c
  end.

Definition sdscatrepr (s p : mem) : mem := s ++ [quote] ++ concat (repr_char <$> p) ++ [quote].

Fixpoint sdsneedsrepr (s : mem) : bool :=
  match s with
  | [] => false
  | c :: s =>
    if (c =? backslash) || (c =? quote) || (c =? 10) || (c =? 13) || (c =? 9) || (c =? 7) || (c =? 8) ||
       negb (isprint c) || isspace c
    then true else sdsneedsrepr s
  end.

(** ** Lines of arguments *)

Inductive quoting := unquoted | inq | insq.

(** The character an escape stands for. *)
Definition escaped (c : Z) : Z :=
  if c =? 110 then 10 else if c =? 114 then 13 else if c =? 116 then 9
  else if c =? 98 then 8 else if c =? 97 then 7 else c.

(** A closing quote must be followed by a space or nothing at all. *)
Definition closes (p : list Z) : bool := match p with [] => true | c :: _ => isspace c end.

(** The loop over a token: the token and what is left, or [None] for unbalanced quotes.
    The end of the list is the terminator of the string. *)
Fixpoint get_token (m : quoting) (current : mem) (p : list Z) : option (mem * list Z) :=
  match p with
  | [] => match m with unquoted => Some (current, []) | _ => None end
  | c :: p1 =>
    match m with
    | inq =>
      if c =? backslash then
        match p1 with
        | [] => get_token m (current ++ [c]) p1
        | e :: p2 =>
          match p2 with
          | h :: l :: p4 =>
            if (e =? letter_x) && is_hex_digit h && is_hex_digit l
            then get_token m (current ++ [hex_digit_to_int h * 16 + hex_digit_to_int l]) p4
            else get_token m (current ++ [escaped e]) p2
          | _ => get_token m (current ++ [escaped e]) p2
          end
        end
      else if c =? quote then (if closes p1 then Some (current, p1) else None)
      else get_token m (current ++ [c]) p1
    | insq =>
      match p1 with
      | e :: p2 =>
        if (c =? backslash) && (e =? single_quote) then get_token m (current ++ [single_quote]) p2
        else if c =? single_quote then (if closes p1 then Some (current, p1) else None)
        else get_token m (current ++ [c]) p1
      | [] => if c =? single_quote then Some (current, p1) else get_token m (current ++ [c]) p1
      end
    | unquoted =>
      if (c =? 32) || (c =? 10) || (c =? 13) || (c =? 9) then Some (current, p1)
      else if c =? quote then get_token inq current p1
      else if c =? single_quote then get_token insq current p1
      else get_token unquoted (current ++ [c]) p1
    end
  end.

Fixpoint skip_blanks (p : list Z) : list Z :=
  match p with
  | [] => []
  | c :: p1 => if isspace c then skip_blanks p1 else p
  end.

Fixpoint split_loop (fuel : nat) (vector : list mem) (p : list Z) : option (option (list mem)) :=
  match skip_blanks p with
  | [] => Some (Some vector)
  | p =>
    match fuel with
    | O => None
    | S fuel =>
      match get_token unquoted [] p with
      | None => Some None
      | Some (current, p) => split_loop fuel (vector ++ [current]) p
      end
    end
  end.

(** The characters of a C string: those before the terminator. *)
Fixpoint c_string (s : mem) : mem :=
  match s with
  | [] => []
  | c :: s => if c =? 0 then [] else c :: c_string s
  end.

(** The arguments, or [None] inside for [NULL]. *)
Definition sdssplitargs (line : mem) : option (option (list mem)) :=
  split_loop (S (length line)) [] (c_string line).

(** ** Quoted strings are read back *)

Lemma hex_digits d : 0 <= d < 16 -> is_hex_digit (hex_char d) = true /\ hex_digit_to_int (hex_char d) = d.
Proof.
  intros Hd. assert (forallb (fun d => is_hex_digit (hex_char d) && (hex_digit_to_int (hex_char d) =? d)) (seqZ 0 16) = true)
    as H by reflexivity.
  pose proof (proj1 (forallb_forall _ _) H d ltac:(apply list_elem_of_In, elem_of_seqZ; lia)) as Hx. cbn beta in Hx.
  apply andb_true_iff in Hx as [H1 H2%Z.eqb_eq]. done.
Qed.

Lemma escape_char e current p :
  e <> letter_x -> get_token inq current (backslash :: e :: p) = get_token inq (current ++ [escaped e]) p.
Proof.
  intros He. cbn [get_token]. rewrite Z.eqb_refl. rewrite (proj2 (Z.eqb_neq _ _) He). cbn [andb].
  destruct p as [|h [|l p]]; reflexivity.
Qed.

Lemma letter_escaped c l : letter_of c = Some l -> l <> letter_x /\ escaped l = c.
Proof. unfold letter_of, escaped, letter_x. repeat ztest; intros [= <-]; repeat ztest; lia. Qed.

Lemma repr_char_token c current p :
  byte c -> get_token inq current (repr_char c ++ p) = get_token inq (current ++ [c]) p.
Proof.
  intros Hc. unfold repr_char. destruct ((c =? backslash) || (c =? quote)) eqn:Hq.
  { cbn [app]. apply orb_true_iff in Hq. rewrite escape_char by (unfold letter_x; destruct Hq as [->%Z.eqb_eq| ->%Z.eqb_eq]; done).
    by destruct Hq as [->%Z.eqb_eq| ->%Z.eqb_eq]. }
  destruct (letter_of c) as [l|] eqn:Hl.
  { apply letter_escaped in Hl as [Hx He]. cbn [app]. by rewrite escape_char, He. }
  apply orb_false_iff in Hq as [Hb Hq]. destruct (isprint c).
  - cbn [app get_token]. by rewrite Hb, Hq.
  - unfold hex2. cbn [app get_token]. unfold byte in Hc. destruct (hex_digits (c / 16)) as [H1 H2]; [dlia|].
    destruct (hex_digits (c `mod` 16)) as [H3 H4]; [dlia|]. rewrite !Z.eqb_refl, H1, H2, H3, H4. cbn [andb].
    do 3 f_equal. dlia.
Qed.

Lemma repr_token a current tail :
  bytes a -> closes tail = true ->
  get_token inq current (concat (repr_char <$> a) ++ quote :: tail) = Some (current ++ a, tail).
Proof.
  intros Ha Ht. revert current. induction Ha as [|c a Hc Ha IH]; intros current.
  - cbn [fmap list_fmap concat app get_token]. by rewrite Ht, app_nil_r.
  - cbn [fmap list_fmap concat]. rewrite <- app_assoc, repr_char_token, IH, <- app_assoc; done.
Qed.

(** A token that is written as it is: no quotes, and nothing that needs them. *)
Definition plain (a : mem) : Prop := sdsneedsrepr a = false /\ single_quote ∉ a.

Lemma plain_cons c a : plain (c :: a) ->
  plain a /\ c <> quote /\ c <> single_quote /\ c <> 0 /\ isspace c = false.
Proof.
  intros [H Hq]. cbn in H. repeat (apply orb_false_iff in H as [H ?] || (case_match; [done|])).
  apply not_elem_of_cons in Hq as [Hne Hq]. unfold isprint in *. bools.
  repeat split; [done|done|lia|congruence|lia|done].
Qed.

Lemma plain_nonzero a c : plain a -> c ∈ a -> c <> 0.
Proof.
  induction a as [|x a IH]; intros Ha Hc; [by apply not_elem_of_nil in Hc|].
  apply plain_cons in Ha as (Ha & _ & _ & H0 & _). apply elem_of_cons in Hc as [->|Hc]; auto.
Qed.

(** The end of a line, or a space. *)
Definition separated (tail : list Z) : Prop := tail = [] \/ exists rest, tail = 32 :: rest.

Lemma plain_token a current tail :
  plain a -> separated tail -> get_token unquoted current (a ++ tail) = Some (current ++ a, drop 1 tail).
Proof.
  intros Ha Ht. revert current. induction a as [|c a IH]; intros current.
  - rewrite app_nil_r. by destruct Ht as [->|[rest ->]].
  - apply plain_cons in Ha as (Ha & Hq & Hs & _ & Hsp). cbn [app get_token].
    unfold isspace in Hsp. rewrite (proj2 (Z.eqb_neq _ _) Hq), (proj2 (Z.eqb_neq _ _) Hs).
    assert ((c =? 32) || (c =? 10) || (c =? 13) || (c =? 9) = false) as -> by (bools; lia).
    by rewrite IH, <- app_assoc.
Qed.

(** A token that is read as the argument [a]. *)
Definition spells (t a : mem) : Prop :=
  (t = sdscatrepr [] a /\ bytes a) \/ (t = a /\ plain a /\ a <> []).

Lemma spells_token t a tail :
  spells t a -> separated tail ->
  exists p, get_token unquoted [] (t ++ tail) = Some (a, p) /\ skip_blanks p = skip_blanks tail /\ (length p <= length tail)%nat.
Proof.
  intros [[-> Ha]|(-> & Ha & _)] Ht.
  - exists tail. split; [|done]. unfold sdscatrepr. cbn [app get_token]. rewrite <- app_assoc. cbn [app].
    rewrite (proj2 (Z.eqb_neq quote 32)), Z.eqb_refl by done. cbn [orb]. apply (repr_token a []); [done|].
    by destruct Ht as [->|[rest ->]].
  - exists (drop 1 tail). split; [by apply plain_token|]. rewrite length_drop. split; [|lia].
    by destruct Ht as [->|[rest ->]].
Qed.

Lemma spells_start t a : spells t a -> exists c t', t = c :: t' /\ isspace c = false.
Proof.
  intros [[-> Ha]|(-> & Ha & Hne)]; [by do 2 eexists|]. destruct a as [|c a]; [done|].
  apply plain_cons in Ha as (_ & _ & _ & _ & H). eauto.
Qed.

Lemma repr_char_nonzero c : byte c -> 0 ∉ repr_char c.
Proof.
  intros Hc. assert (forallb (fun c => bool_decide (0 ∉ repr_char c)) (seqZ 0 256) = true) as H by reflexivity.
  apply (bool_decide_eq_true (0 ∉ repr_char c)). unfold byte in Hc.
  apply (proj1 (forallb_forall _ _) H). apply list_elem_of_In, elem_of_seqZ. lia.
Qed.

Lemma spells_nonzero t a : spells t a -> 0 ∉ t.
Proof.
  intros [[-> Ha]|(-> & Ha & _)] Hc; [|by apply (plain_nonzero a 0)].
  unfold sdscatrepr in Hc. cbn [app] in Hc. apply elem_of_cons in Hc as [?|Hc]; [done|].
  apply elem_of_app in Hc as [Hc|Hc]; [|by apply list_elem_of_singleton in Hc].
  induction Ha as [|x a Hx Ha IH]; cbn in Hc; [by apply not_elem_of_nil in Hc|].
  apply elem_of_app in Hc as [Hc|Hc]; [by apply repr_char_nonzero in Hc|auto].
Qed.

Lemma c_string_id s : 0 ∉ s -> c_string s = s.
Proof.
  induction s as [|c s IH]; intros H; cbn [c_string]; [done|]. apply not_elem_of_cons in H as [H1 H2].
  rewrite (proj2 (Z.eqb_neq c 0)) by done. by rewrite IH.
Qed.

(** Tokens with a space between them. *)
Fixpoint join (ts : list mem) : mem :=
  match ts with
  | [] => []
  | [t] => t
  | t :: ts => t ++ 32 :: join ts
  end.

Lemma join_cons t ts : exists tail, join (t :: ts) = t ++ tail /\ separated tail /\ skip_blanks tail = skip_blanks (join ts).
Proof.
  destruct ts as [|t' ts].
  - exists []. rewrite app_nil_r. split; [done|]. by split; [left|].
  - exists (32 :: join (t' :: ts)). split; [done|]. split; [right; eauto|done].
Qed.

Lemma skip_blanks_length p : (length (skip_blanks p) <= length p)%nat.
Proof. induction p as [|c p IH]; cbn; [done|]. case_match; cbn; lia. Qed.

Lemma skip_blanks_idem p : skip_blanks (skip_blanks p) = skip_blanks p.
Proof. induction p as [|c p IH]; cbn; [done|]. destruct (isspace c) eqn:E; [done|]. cbn. by rewrite E. Qed.

(** The loop looks at the blanks of what is left only to skip them. *)
Lemma split_loop_blanks fuel v p : split_loop fuel v (skip_blanks p) = split_loop fuel v p.
Proof. destruct fuel; cbn [split_loop]; by rewrite skip_blanks_idem. Qed.

Lemma split_loop_join fuel v ts args :
  Forall2 spells ts args -> (length ts <= fuel)%nat -> split_loop fuel v (join ts) = Some (Some (v ++ args)).
Proof.
  intros H. revert fuel v. induction H as [|t a ts args Ht H IH]; intros fuel v Hf.
  - cbn [join]. destruct fuel; by rewrite app_nil_r.
  - destruct fuel as [|fuel]; [cbn in Hf; lia|]. destruct (join_cons t ts) as (tail & -> & Hs & Htail).
    destruct (spells_token _ _ _ Ht Hs) as (p & Htok & Hp & _). destruct (spells_start _ _ Ht) as (c & t' & -> & Hc).
    cbn [app split_loop skip_blanks] in Htok |- *. rewrite Hc, Htok.
    rewrite <- split_loop_blanks, Hp, Htail, split_loop_blanks, IH by (cbn in Hf; lia). by rewrite <- app_assoc.
Qed.

Lemma join_length ts args : Forall2 spells ts args -> (length ts <= length (join ts))%nat /\ 0 ∉ join ts.
Proof.
  induction 1 as [|t a ts args Ht H [IH1 IH2]]; [split; [done|apply not_elem_of_nil]|].
  destruct (spells_start _ _ Ht) as (c & t' & E & _). pose proof (spells_nonzero _ _ Ht) as Hz.
  destruct ts as [|t2 ts]; [subst; cbn; split; [lia|done]|].
  change (join (t :: t2 :: ts)) with (t ++ 32 :: join (t2 :: ts)). rewrite length_app. cbn [length] in *. split.
  - subst t. cbn [length]. lia.
  - rewrite not_elem_of_app, not_elem_of_cons. done.
Qed.

(** Arguments written with a space between them, each quoted or -- when it is not empty
    and has no character that needs quoting -- as it is, are read back. *)
Lemma split_join ts args : Forall2 spells ts args -> sdssplitargs (join ts) = Some (Some args).
Proof.
  intros H. destruct (join_length _ _ H) as [Hl Hz]. unfold sdssplitargs. rewrite c_string_id by done.
  rewrite (split_loop_join _ [] ts args) by (done || lia). done.
Qed.

(** C19: quoting is undone.  Whatever bytes the arguments have, a line in which they stand
    with a space between them -- each written by [sdscatrepr], or as it is when it is not
    empty, needs no quoting and has no single quote -- is split into these arguments. *)
Theorem sdssplitargs_undoes_quoting ts args : Forall2 spells ts args -> sdssplitargs (join ts) = Some (Some args).
Proof. apply split_join. Qed.

Lemma sdssplitargs_undoes_quoting_witness :
  sdssplitargs (join [sdscatrepr [] [10; 39; 0; 255]; [97; 98]]) = Some (Some [[10; 39; 0; 255]; [97; 98]]).
Proof.
  apply (sdssplitargs_undoes_quoting [sdscatrepr [] [10; 39; 0; 255]; [97; 98]] [[10; 39; 0; 255]; [97; 98]]).
  constructor; [left; split; [done|repeat (constructor; [unfold byte; lia|]); constructor]|].
  constructor; [right; split; [done|split; [|done]]|constructor].
  split; [reflexivity|]. rewrite !not_elem_of_cons. repeat split; try done. apply not_elem_of_nil.
Defined.

(** ** Every line is split or rejected *)

Lemma get_token_shorter m current p t rest :
  get_token m current p = Some (t, rest) -> (length rest <= length p)%nat /\ (p <> [] -> (length rest < length p)%nat).
Proof.
  remember (length p) as n eqn:En. revert m current p En.
  induction (lt_wf n) as [n _ IH]. intros m current p -> H.
  assert (forall m' current' p', (length p' < length p)%nat -> get_token m' current' p' = Some (t, rest) ->
    (length rest < length p)%nat) as Hrec by (intros m' c' p' Hl Hp; destruct (IH _ Hl _ _ _ eq_refl Hp); lia).
  destruct p as [|c p1]; cbn [get_token] in H.
  { destruct m; [injection H as <- <-; done|done|done]. }
  assert (length rest < length (c :: p1))%nat; [|lia]. cbn [length] in *.
  repeat (case_match; try discriminate); simplify_eq; cbn [length] in *; try lia;
    match goal with H : get_token _ _ _ = _ |- _ => eapply Hrec in H; [exact H|cbn [length]; lia] end.
Qed.

Lemma split_loop_total fuel v p : (length p < fuel)%nat -> is_Some (split_loop fuel v p).
Proof.
  revert v p. induction fuel as [|fuel IH]; intros v p Hf; [lia|]. cbn [split_loop].
  pose proof (skip_blanks_length p). destruct (skip_blanks p) as [|c p'] eqn:E; [eauto|].
  destruct (get_token unquoted [] (c :: p')) as [[t rest]|] eqn:Ht; [|eauto]. apply IH.
  apply get_token_shorter in Ht as [_ Ht]. specialize (Ht ltac:(done)). cbn [length] in *. lia.
Qed.

Lemma c_string_length s : (length (c_string s) <= length s)%nat.
Proof. induction s as [|c s IH]; cbn; [done|]. case_match; cbn; lia. Qed.

Lemma sdssplitargs_total line : is_Some (sdssplitargs line).
Proof. apply split_loop_total. pose proof (c_string_length line). lia. Qed.

(** A token has no more characters than it is made from, and one less if another follows. *)
Lemma get_token_size m current p t rest :
  get_token m current p = Some (t, rest) ->
  (length t + length rest + (if rest is [] then 0 else 1) <= length current + length p)%nat.
Proof.
  remember (length p) as n eqn:En. revert m current p En.
  induction (lt_wf n) as [n _ IH]. intros m current p -> H.
  assert (forall m' current' p', (length p' < length p)%nat -> get_token m' current' p' = Some (t, rest) ->
    (length current' + length p' <= length current + length p)%nat ->
    (length t + length rest + (if rest is [] then 0 else 1) <= length current + length p)%nat) as Hrec
    by (intros m' c' p' Hl Hp Hle; pose proof (IH _ Hl _ _ _ eq_refl Hp); lia).
  destruct p as [|c p1]; cbn [get_token] in H.
  { destruct m; [injection H as <- <-; cbn; lia|done|done]. }
  cbn [length] in *.
  repeat (case_match; try discriminate); simplify_eq; cbn [length] in *; try lia;
    match goal with H : get_token _ _ _ = _ |- _ =>
      eapply Hrec in H; [exact H|cbn [length]; lia|rewrite ?length_app; cbn [length]; lia] end.
Qed.

(** ** What [sdsneedsrepr] misses *)

(** A string with a single quote is said to need no quoting, and is not read back. *)
Lemma needsrepr_single_quote a b :
  plain a -> plain b ->
  sdsneedsrepr (a ++ single_quote :: b) = false /\ sdssplitargs (a ++ single_quote :: b) = Some None.
Proof.
  intros Ha Hb. split.
  { induction a as [|c a IH]; [by destruct Hb|]. destruct Ha as [H Hq]. cbn [app sdsneedsrepr] in *.
    destruct (_ || _); [done|]. apply IH. split; [done|]. by apply not_elem_of_cons in Hq as [_ Hq]. }
  assert (0 ∉ a ++ single_quote :: b) as Hz.
  { intros [H|[H|H]%elem_of_cons]%elem_of_app; [by apply (plain_nonzero a 0)|done|by apply (plain_nonzero b 0)]. }
  unfold sdssplitargs. rewrite c_string_id by done.
  assert (forall current, get_token insq current b = None) as Hins.
  { intros current. clear Hz. revert current. induction b as [|c b IH]; intros current; [done|].
    apply plain_cons in Hb as (Hb & _ & Hs & _). cbn [get_token]. rewrite (proj2 (Z.eqb_neq _ _) Hs).
    destruct b as [|e b]; [done|]. pose proof (plain_cons _ _ Hb) as (_ & _ & He & _).
    rewrite (proj2 (Z.eqb_neq _ _) He), andb_false_r. by apply IH. }
  assert (forall current, get_token unquoted current (a ++ single_quote :: b) = None) as Htok.
  { clear Hz. induction a as [|c a IH]; intros current; [apply Hins|].
    apply plain_cons in Ha as (Ha & Hq & Hs & _ & Hsp). cbn [app get_token].
    unfold isspace in Hsp. rewrite (proj2 (Z.eqb_neq _ _) Hq), (proj2 (Z.eqb_neq _ _) Hs).
    assert ((c =? 32) || (c =? 10) || (c =? 13) || (c =? 9) = false) as -> by (bools; lia). by apply IH. }
  assert (skip_blanks (a ++ single_quote :: b) = a ++ single_quote :: b) as Hsk.
  { destruct a as [|c a]; [done|]. apply plain_cons in Ha as (_ & _ & _ & _ & Hc). cbn. by rewrite Hc. }
  cbn [split_loop]. rewrite Hsk. specialize (Htok []). destruct (a ++ single_quote :: b) as [|c l]; [done|]. by rewrite Htok.
Qed.

End Sds.
