(* ===== verification/Request.v ===== *)
(** Requests of clients (networking.c): the parser of the protocol, which goes on where it
    stopped when more bytes arrive, and the loops that run the commands it finds; and the
    writer of the same format for the append-only file (aof.c).

    One thread serves the clients.  A client is the fields of [struct client] the parser
    uses; what runs the commands is a parameter.  Memory that the arguments share with the
    query buffer is not: an argument is its characters. *)
From S2P Require Import Prelude Util Sds.
From stdpp Require Import options.
#[local] Set Default Proof Using "Type*".

Module Request.
Import Util Sds.

(** ** Clients *)

Definition PROTO_INLINE_MAX_SIZE : Z := 1024 * 64.
Definition PROTO_MBULK_BIG_ARG : Z := 1024 * 32.
Definition PROTO_REQ_INLINE : Z := 1.
Definition PROTO_REQ_MULTIBULK : Z := 2.
Definition PENDING_COMMAND_POOL_SIZE : Z := 16.
Definition PENDING_COMMAND_POOL_MAX_SIZE : Z := 1024.
Definition INT_MAX : Z := 2147483647.

Definition CLIENT_READ_TOO_BIG_INLINE_REQUEST : Z := 1.
Definition CLIENT_READ_UNBALANCED_QUOTES : Z := 2.
Definition CLIENT_READ_MASTER_USING_INLINE_PROTOCAL : Z := 3.
Definition CLIENT_READ_TOO_BIG_MBULK_COUNT_STRING : Z := 4.
Definition CLIENT_READ_TOO_BIG_BUCK_COUNT_STRING : Z := 5.
Definition CLIENT_READ_EXPECTED_DOLLAR : Z := 6.
Definition CLIENT_READ_INVALID_BUCK_LENGTH : Z := 7.
Definition CLIENT_READ_UNAUTH_BUCK_LENGTH : Z := 8.
Definition CLIENT_READ_INVALID_MULTIBUCK_LENGTH : Z := 9.
Definition CLIENT_READ_UNAUTH_MBUCK_COUNT : Z := 10.
Definition CLIENT_READ_REACHED_MAX_QUERYBUF : Z := 13.
Definition CLIENT_READ_COMMAND_NOT_FOUND : Z := 14.
Definition CLIENT_READ_BAD_ARITY : Z := 15.
Definition CLIENT_READ_CROSS_SLOT : Z := 16.

(** [struct pendingCommand]: [argv] is its first [argc] entries, [argv_len] the entries
    allocated, [incomplete] the flag [PENDING_CMD_FLAG_INCOMPLETE].  What
    [preprocessCommand] finds out about the command is left out. *)
Record pendingCommand := mk_pcmd {
  argv : list mem;
  argv_len : Z;
  argv_len_sum : Z;
  input_bytes : Z;
  pcmd_error : Z;
  incomplete : bool;
  pcmd_reploff : Z
}.

(** [struct client].  [is_master] is [CLIENT_MASTER]; [pending_cmds] the list without its
    two counters; [fed] what was passed to [replicationFeedStreamFromMasterStream].  The
    last two fields are the pool of the server: the [argv_len] of its commands, from the
    top, and its capacity. *)
Record client := mk_client {
  querybuf : mem;
  qb_pos : Z;
  reqtype : Z;
  multibulklen : Z;
  bulklen : Z;
  pending_cmds : list pendingCommand;
  all_argv_len_sum : Z;
  read_error : Z;
  is_master : bool;
  read_reploff : Z;
  reploff : Z;
  reploff_next : Z;
  repl_applied : Z;
  fed : mem;
  cmd_pool : list Z;
  pool_capacity : Z
}.

Definition argc (p : pendingCommand) : Z := Z.of_nat (length (argv p)).

Definition set_error (e : Z) (p : pendingCommand) : pendingCommand :=
  mk_pcmd (argv p) (argv_len p) (argv_len_sum p) (input_bytes p) e (incomplete p) (pcmd_reploff p).
Definition set_argv_len (n : Z) (p : pendingCommand) : pendingCommand :=
  mk_pcmd (argv p) n (argv_len_sum p) (input_bytes p) (pcmd_error p) (incomplete p) (pcmd_reploff p).
Definition set_sum (s : Z) (p : pendingCommand) : pendingCommand :=
  mk_pcmd (argv p) (argv_len p) s (input_bytes p) (pcmd_error p) (incomplete p) (pcmd_reploff p).
Definition add_input (n : Z) (p : pendingCommand) : pendingCommand :=
  mk_pcmd (argv p) (argv_len p) (argv_len_sum p) (u64 (input_bytes p + n)) (pcmd_error p) (incomplete p) (pcmd_reploff p).
Definition set_incomplete (b : bool) (p : pendingCommand) : pendingCommand :=
  mk_pcmd (argv p) (argv_len p) (argv_len_sum p) (input_bytes p) (pcmd_error p) b (pcmd_reploff p).
Definition set_pcmd_reploff (o : Z) (p : pendingCommand) : pendingCommand :=
  mk_pcmd (argv p) (argv_len p) (argv_len_sum p) (input_bytes p) (pcmd_error p) (incomplete p) o.

Definition set_querybuf (s : mem) (pos : Z) (c : client) : client :=
  mk_client s pos (reqtype c) (multibulklen c) (bulklen c) (pending_cmds c) (all_argv_len_sum c) (read_error c)
    (is_master c) (read_reploff c) (reploff c) (reploff_next c) (repl_applied c) (fed c) (cmd_pool c) (pool_capacity c).
Definition set_request (t m b : Z) (c : client) : client :=
  mk_client (querybuf c) (qb_pos c) t m b (pending_cmds c) (all_argv_len_sum c) (read_error c)
    (is_master c) (read_reploff c) (reploff c) (reploff_next c) (repl_applied c) (fed c) (cmd_pool c) (pool_capacity c).
Definition set_pending (l : list pendingCommand) (c : client) : client :=
  mk_client (querybuf c) (qb_pos c) (reqtype c) (multibulklen c) (bulklen c) l (all_argv_len_sum c) (read_error c)
    (is_master c) (read_reploff c) (reploff c) (reploff_next c) (repl_applied c) (fed c) (cmd_pool c) (pool_capacity c).
Definition set_all_sum (s : Z) (c : client) : client :=
  mk_client (querybuf c) (qb_pos c) (reqtype c) (multibulklen c) (bulklen c) (pending_cmds c) s (read_error c)
    (is_master c) (read_reploff c) (reploff c) (reploff_next c) (repl_applied c) (fed c) (cmd_pool c) (pool_capacity c).
Definition set_current (e off : Z) (c : client) : client :=
  mk_client (querybuf c) (qb_pos c) (reqtype c) (multibulklen c) (bulklen c) (pending_cmds c) (all_argv_len_sum c) e
    (is_master c) (read_reploff c) (reploff c) off (repl_applied c) (fed c) (cmd_pool c) (pool_capacity c).
Definition set_repl (read off applied : Z) (f : mem) (c : client) : client :=
  mk_client (querybuf c) (qb_pos c) (reqtype c) (multibulklen c) (bulklen c) (pending_cmds c) (all_argv_len_sum c)
    (read_error c) (is_master c) read off (reploff_next c) applied f (cmd_pool c) (pool_capacity c).
Definition set_pool (p : list Z) (n : Z) (c : client) : client :=
  mk_client (querybuf c) (qb_pos c) (reqtype c) (multibulklen c) (bulklen c) (pending_cmds c) (all_argv_len_sum c)
    (read_error c) (is_master c) (read_reploff c) (reploff c) (reploff_next c) (repl_applied c) (fed c) p n.

(** A new client, with the pool of the server. *)
Definition createClient (pool : list Z) (capacity : Z) : client :=
  mk_client [] 0 0 0 (-1) [] 0 0 false 0 0 0 0 [] pool capacity.

(** The client of the link with the master, from the offset where the stream starts. *)
Definition replicationCreateMasterClient (master_initial_offset : Z) (pool : list Z) (capacity : Z) : client :=
  mk_client [] 0 0 0 (-1) [] 0 0 true master_initial_offset master_initial_offset 0 0 [] pool capacity.

(** ** Pending commands *)

Definition initPendingCommand : pendingCommand := mk_pcmd [] 0 0 0 0 false 0.

Definition acquirePendingCommand (c : client) : pendingCommand * client :=
  match cmd_pool c with
  | n :: p => (set_argv_len n initPendingCommand, set_pool p (pool_capacity c) c)
  | [] => (initPendingCommand, c)
  end.

(** Whether there is room, and the capacity. *)
Definition tryExpandPendingCommandPool (c : client) : bool * Z :=
  if Z.of_nat (length (cmd_pool c)) <? pool_capacity c then (true, pool_capacity c)
  else if pool_capacity c >=? PENDING_COMMAND_POOL_MAX_SIZE then (false, pool_capacity c)
  else (true, Z.min (pool_capacity c * 2) PENDING_COMMAND_POOL_MAX_SIZE).

(** Commands are freed from the top. *)
Definition shrinkPendingCommandPool (c : client) : client :=
  if pool_capacity c <=? PENDING_COMMAND_POOL_SIZE then c
  else
    let target_size := Z.max (Z.of_nat (length (cmd_pool c)) / 2) PENDING_COMMAND_POOL_SIZE in
    set_pool (drop (length (cmd_pool c) - Z.to_nat target_size) (cmd_pool c)) target_size c.

Definition freePendingCommand (c : client) (p : pendingCommand) : option client :=
  _ ← cassert (all_argv_len_sum c >=? argv_len_sum p);
  Some (set_all_sum (all_argv_len_sum c - argv_len_sum p) c).

Definition reclaimPendingCommand (c : client) (p : pendingCommand) : option client :=
  if argv_len p <? 64 then
    let '(room, capacity) := tryExpandPendingCommandPool c in
    if room : bool then
      _ ← cassert (all_argv_len_sum c >=? argv_len_sum p);
      Some (set_pool (argv_len p :: cmd_pool c) capacity (set_all_sum (all_argv_len_sum c - argv_len_sum p) c))
    else freePendingCommand c p
  else freePendingCommand c p.

Definition is_ready (p : pendingCommand) : bool := negb (incomplete p).

(** [pending_cmds.len] and [pending_cmds.ready_len] *)
Definition pending_len (c : client) : Z := Z.of_nat (length (pending_cmds c)).
Definition ready_len (c : client) : Z := Z.of_nat (length (List.filter is_ready (pending_cmds c))).

Definition addPendingCommand (p : pendingCommand) (c : client) : client := set_pending (pending_cmds c ++ [p]) c.

Definition popPendingCommandFromHead (c : client) : option (pendingCommand * client) :=
  match pending_cmds c with
  | [] => None
  | p :: l => Some (p, set_pending l c)
  end.

Definition popPendingCommandFromTail (c : client) : option (pendingCommand * client) :=
  match last (pending_cmds c) with
  | None => None
  | Some p => Some (p, set_pending (take (length (pending_cmds c) - 1) (pending_cmds c)) c)
  end.

Definition resetClientQbufState (c : client) : client := set_request 0 0 (-1) c.

(** ** Inline requests *)

Definition CR : Z := 13.
Definition LF : Z := 10.

(** The first [x] in a C string, and in a block of memory. *)
Fixpoint memchr (s : mem) (x : Z) : option Z :=
  match s with
  | [] => None
  | y :: s => if y =? x then Some 0 else i ← memchr s x; Some (i + 1)
  end.

Definition strchr (s : mem) (x : Z) : option Z := memchr (c_string s) x.

Definition unread_len (c : client) : Z := msize (querybuf c) - qb_pos c.

(** What [c->querybuf + c->qb_pos] points to. *)
Definition unread (c : client) : option mem := memread (querybuf c) (qb_pos c) (unread_len c).

Definition sum_sizes (l : list mem) : Z := foldr (fun a n => msize a + n) 0 l.

(** Whether the command is ready ([C_OK]), the client and the command. *)
Definition processInlineBuffer (c : client) (p : pendingCommand) : option (bool * client * pendingCommand) :=
  s ← unread c;
  match strchr s LF with
  | None =>
    Some (false, c,
      if u64 (unread_len c) >? PROTO_INLINE_MAX_SIZE then set_error CLIENT_READ_TOO_BIG_INLINE_REQUEST p else p)
  | Some newline =>
    let cr := match rd s (newline - 1) with Some b => b =? CR | None => false end in
    let '(querylen, linefeed_chars) := if cr then (newline - 1, 2) else (newline, 1) in
    aux ← memread s 0 querylen;
    res ← sdssplitargs aux;
    match res with
    | None => Some (false, c, set_error CLIENT_READ_UNBALANCED_QUOTES p)
    | Some args =>
      if negb (querylen =? 0) && is_master c
      then Some (false, c, set_error CLIENT_READ_MASTER_USING_INLINE_PROTOCAL p)
      else
        let c := set_querybuf (querybuf c) (qb_pos c + (querylen + linefeed_chars)) c in
        let n := Z.of_nat (length args) in
        let p := if negb (n =? 0) && (n >? argv_len p) then set_sum 0 (set_argv_len n p) else p in
        _ ← cassert (n <=? argv_len p);
        let p := mk_pcmd args (argv_len p) (u64 (argv_len_sum p + sum_sizes args)) (input_bytes p) (pcmd_error p)
                   (incomplete p) (pcmd_reploff p) in
        let c := set_all_sum (u64 (all_argv_len_sum c + sum_sizes args)) c in
        Some (true, c,
          mk_pcmd (argv p) (argv_len p) (argv_len_sum p) (u64 (argv_len_sum p + (argc p - 1) + 2)) (pcmd_error p)
            (incomplete p) (pcmd_reploff p))
    end
  end.

(** ** Multibulk requests *)

(** How a step of the parser ends: the function returns an error (or nothing yet), the
    loop is left, or the parser goes on. *)
Inductive progress :=
| returns (ok : bool) (c : client) (p : pendingCommand)
| leaves (c : client) (p : pendingCommand)
| goes_on (c : client) (p : pendingCommand).

Section parser.
(** [authRequired(c)] and [server.proto_max_bulk_len]. *)
Context (auth : bool) (proto_max_bulk_len : Z).

(** The number of arguments. *)
Definition read_multibulklen (c : client) (p : pendingCommand) : option progress :=
  _ ← cassert (argc p =? 0);
  s ← unread c;
  match strchr s CR with
  | None =>
    Some (returns false c
      (if u64 (unread_len c) >? PROTO_INLINE_MAX_SIZE then set_error CLIENT_READ_TOO_BIG_MBULK_COUNT_STRING p else p))
  | Some newline =>
    if newline >? i64 (u64 (unread_len c - 2)) then Some (returns false c p)
    else
      b ← rd s 0;
      _ ← cassert (b =? 42);
      line ← memread s 1 (newline - 1);
      match string2ll line with
      | None => Some (returns false c (set_error CLIENT_READ_INVALID_MULTIBUCK_LENGTH p))
      | Some ll =>
        if ll >? INT_MAX then Some (returns false c (set_error CLIENT_READ_INVALID_MULTIBUCK_LENGTH p))
        else if (ll >? 10) && auth then Some (returns false c (set_error CLIENT_READ_UNAUTH_MBUCK_COUNT p))
        else
          let c := set_querybuf (querybuf c) (qb_pos c + newline + 2) c in
          if ll <=? 0 then Some (returns true c p)
          else
            let c := set_request (reqtype c) ll (-1) c in
            let p := if ll >? argv_len p then set_sum 0 (set_argv_len (Z.min ll 1024) p) else p in
            Some (goes_on c (add_input (newline - 1 + 3) p))
      end
  end.

(** The length of an argument. *)
Definition read_bulklen (c : client) (p : pendingCommand) : option progress :=
  if bulklen c =? -1 then
    s ← unread c;
    match memchr s CR with
    | None =>
      if u64 (unread_len c) >? PROTO_INLINE_MAX_SIZE
      then Some (returns false c (set_error CLIENT_READ_TOO_BIG_BUCK_COUNT_STRING p))
      else Some (leaves c p)
    | Some newline =>
      if newline >? i64 (u64 (unread_len c - 2)) then Some (leaves c p)
      else
        b ← rd s 0;
        if negb (b =? 36) then Some (returns false c (set_error CLIENT_READ_EXPECTED_DOLLAR p))
        else
          line ← memread s 1 (newline - 1);
          match string2ll line with
          | None => Some (returns false c (set_error CLIENT_READ_INVALID_BUCK_LENGTH p))
          | Some ll =>
            if (ll <? 0) || (negb (is_master c) && (ll >? proto_max_bulk_len))
            then Some (returns false c (set_error CLIENT_READ_INVALID_BUCK_LENGTH p))
            else if (ll >? 16384) && auth then Some (returns false c (set_error CLIENT_READ_UNAUTH_BUCK_LENGTH p))
            else
              let c := set_querybuf (querybuf c) (qb_pos c + newline + 2) c in
              c ← (if negb (is_master c) && (ll >=? PROTO_MBULK_BIG_ARG) &&
                      (u64 (unread_len c) <=? u64 (ll + 2))
                   then qb ← sdsrange (querybuf c) (qb_pos c) (-1); Some (set_querybuf qb 0 c)
                   else Some c);
              Some (goes_on (set_request (reqtype c) (multibulklen c) ll c) (add_input (newline - 1 + 3) p))
          end
    end
  else
    _ ← cassert (incomplete p);
    Some (goes_on c p).

(** The room for one more argument. *)
Definition grow_argv (c : client) (p : pendingCommand) : pendingCommand :=
  if argc p >=? argv_len p then
    set_argv_len (Z.min (if argv_len p <? INT_MAX / 2 then argv_len p * 2 else INT_MAX)
                    (i32 (argc p + multibulklen c))) p
  else p.

Definition push_arg (a : mem) (n : Z) (p : pendingCommand) : option pendingCommand :=
  _ ← cassert (argc p <? argv_len p);
  Some (mk_pcmd (argv p ++ [a]) (argv_len p) (u64 (argv_len_sum p + n)) (input_bytes p) (pcmd_error p)
          (incomplete p) (pcmd_reploff p)).

(** An argument.  [bulklen + 2] is computed in a signed integer. *)
Definition read_bulk (c : client) (p : pendingCommand) : option progress :=
  let n := bulklen c in
  _ ← cassert (n + 2 <=? INT64_MAX);
  if u64 (unread_len c) <? u64 (n + 2) then Some (leaves c p)
  else
    let p := grow_argv c p in
    '(a, c) ← (if negb (is_master c) && (qb_pos c =? 0) && (n >=? PROTO_MBULK_BIG_ARG) &&
                  (msize (querybuf c) =? u64 (n + 2))
               then a ← memread (querybuf c) 0 (msize (querybuf c) - 2); Some (a, set_querybuf [] 0 c)
               else a ← memread (querybuf c) (qb_pos c) n;
                    Some (a, set_querybuf (querybuf c) (qb_pos c + (n + 2)) c));
    p ← push_arg a n p;
    let c := set_all_sum (u64 (all_argv_len_sum c + n)) c in
    Some (goes_on (set_request (reqtype c) (multibulklen c - 1) (-1) c) p).

(** Every iteration reads an argument, or is the last. *)
Fixpoint bulk_loop (fuel : nat) (c : client) (p : pendingCommand) : option progress :=
  if multibulklen c =? 0 then Some (leaves c p)
  else match fuel with
  | O => None
  | S fuel =>
    r ← read_bulklen c p;
    match r with
    | goes_on c p =>
      r ← read_bulk c p;
      match r with
      | goes_on c p => bulk_loop fuel c p
      | r => Some r
      end
    | r => Some r
    end
  end.

(** The end of the function: a command is complete, or more is to come. *)
Definition finish_multibulk (c : client) (p : pendingCommand) : bool * client * pendingCommand :=
  if multibulklen c =? 0
  then (true, c, set_incomplete false (add_input (u64 (argv_len_sum p + argc p * 2)) p))
  else (true, c, set_incomplete true p).

Definition processMultibulkBuffer (c : client) (p : pendingCommand) : option (bool * client * pendingCommand) :=
  r ← (if multibulklen c =? 0 then read_multibulklen c p else Some (goes_on c p));
  match r with
  | goes_on c p =>
    _ ← cassert (multibulklen c >? 0);
    r ← bulk_loop (Z.to_nat (multibulklen c)) c p;
    match r with
    | returns ok c p => Some (ok, c, p)
    | leaves c p | goes_on c p => Some (finish_multibulk c p)
    end
  | returns ok c p => Some (ok, c, p)
  | leaves c p => Some (finish_multibulk c p)
  end.

(** ** The loops over commands *)

(** The command a client was in the middle of, or a new one. *)
Definition current_pcmd (c : client) : option (pendingCommand * client) :=
  if negb (pending_len c =? ready_len c) then popPendingCommandFromTail c else Some (acquirePendingCommand c).

(** Parses up to [lookahead] commands; each takes a byte at least. *)
Fixpoint parse_loop (fuel : nat) (lookahead : Z) (c : client) : option client :=
  if (ready_len c <? lookahead) && (qb_pos c <? msize (querybuf c)) then
    match fuel with
    | O => None
    | S fuel =>
      c ← (if reqtype c =? 0 then
             b ← rd (querybuf c) (qb_pos c);
             Some (set_request (if b =? 42 then PROTO_REQ_MULTIBULK else PROTO_REQ_INLINE) (multibulklen c) (bulklen c) c)
           else Some c);
      '(ok, c, p) ← (if reqtype c =? PROTO_REQ_INLINE then
                       let '(p, c) := acquirePendingCommand c in processInlineBuffer c p
                     else
                       _ ← cassert (reqtype c =? PROTO_REQ_MULTIBULK);
                       '(p, c) ← current_pcmd c;
                       processMultibulkBuffer c p);
      if negb ok && (pcmd_error p =? 0) then freePendingCommand c p
      else if negb (pcmd_error p =? 0) || incomplete p then Some (addPendingCommand p c)
      else
        let p := set_pcmd_reploff (i64 (read_reploff c - msize (querybuf c) + qb_pos c)) p in
        parse_loop fuel lookahead (resetClientQbufState (addPendingCommand p c))
    end
  else Some c.
End parser.

Definition isClientReadErrorFatal (c : client) : bool :=
  negb (read_error c =? 0) && negb (read_error c =? CLIENT_READ_COMMAND_NOT_FOUND) &&
  negb (read_error c =? CLIENT_READ_BAD_ARITY) && negb (read_error c =? CLIENT_READ_CROSS_SLOT).

(** What [processCommand] does with a command: it runs, or is queued by a transaction,
    which takes it off the list; it stays on the list, because the client blocks or is to
    be closed; or the client is gone. *)
Inductive outcome := o_done | o_queued | o_stays | o_dead.

(** The server behind the clients, as far as a client sees it. *)
Class Server (X : Type) := {
  authRequired : X -> bool;
  (** the client is blocked, to be closed, has a command to run first, or waits for a script *)
  stopped : X -> bool;
  in_multi : X -> bool;
  (** the size of the arguments of the transaction *)
  multi_argv_len_sums : X -> Z;
  processCommand : X -> list mem -> outcome * X;
  (** [setProtocolError] and the reply, or the end of the connection *)
  handleClientReadError : Z -> X -> X
}.

(** What the client relies on: one whose command stays is stopped. *)
Class ServerLaws (X : Type) `{Server X} : Prop := {
  stays_stopped x args x' : processCommand x args = (o_stays, x') -> stopped x' = true
}.

Section input.
Context {X : Type} `{Server X}.
Context (server_lookahead proto_max_bulk_len client_max_querybuf_len : Z).

(** The part of [resetClientInternal] about the list of commands. *)
Definition resetClientInternal (queued : bool) (c : client) : option client :=
  '(p, c) ← popPendingCommandFromHead c;
  if queued then Some (set_all_sum (u64 (all_argv_len_sum c - argv_len_sum p)) c)
  else
    c ← reclaimPendingCommand c p;
    _ ← cassert (negb (pending_len c =? 0) || (all_argv_len_sum c =? 0));
    Some c.

Definition prepareForNextCommand (c : client) : option client := resetClientInternal false c.

Definition commandProcessed (queued : bool) (x : X) (c : client) : option client :=
  c ← resetClientInternal queued c;
  let prev_offset := reploff c in
  c ← (if is_master c && negb (in_multi x) then
         _ ← cassert (reploff_next c >? 0);
         Some (set_repl (read_reploff c) (reploff_next c) (repl_applied c) (fed c) c)
       else Some c);
  if is_master c then
    let applied := i64 (reploff c - prev_offset) in
    if negb (applied =? 0) then
      bs ← memread (querybuf c) (repl_applied c) applied;
      Some (set_repl (read_reploff c) (reploff c) (repl_applied c + applied) (fed c ++ bs) c)
    else Some c
  else Some c.

(** Whether the client is still there, the client, and the server. *)
Definition processed : Type := bool * client * X.

Fixpoint process_loop (fuel : nat) (lookahead : Z) (c : client) (x : X) : option processed :=
  if negb ((qb_pos c <? msize (querybuf c)) || (ready_len c >? 0)) then Some (true, c, x)
  else if stopped x then Some (true, c, x)
  else match fuel with
  | O => None
  | S fuel =>
    c ← (if ready_len c =? 0
         then parse_loop (authRequired x) proto_max_bulk_len (S (length (querybuf c))) lookahead c else Some c);
    if ready_len c =? 0 then Some (true, c, x)
    else
      match pending_cmds c with
      | [] => None
      | cur :: _ =>
        let c := set_current (pcmd_error cur) (pcmd_reploff cur) c in
        if isClientReadErrorFatal c then Some (true, c, x)
        else if argc cur =? 0 then c ← prepareForNextCommand c; process_loop fuel lookahead c x
        else
          let '(o, x) := processCommand x (argv cur) in
          match o with
          | o_done => c ← commandProcessed false x c; process_loop fuel lookahead c x
          | o_queued => c ← commandProcessed true x c; process_loop fuel lookahead c x
          | o_stays => process_loop fuel lookahead c x
          | o_dead => Some (false, c, x)
          end
      end
  end.

(** The end of [processInputBuffer]: the query buffer is trimmed. *)
Definition trim_querybuf (c : client) : option client :=
  if is_master c then
    if negb (repl_applied c =? 0) then
      qb ← sdsrange (querybuf c) (repl_applied c) (-1);
      _ ← cassert (qb_pos c >=? repl_applied c);
      Some (set_repl (read_reploff c) (reploff c) 0 (fed c) (set_querybuf qb (qb_pos c - repl_applied c) c))
    else Some c
  else if negb (qb_pos c =? 0) then
    qb ← sdsrange (querybuf c) (qb_pos c) (-1);
    Some (set_querybuf qb 0 c)
  else Some c.

Definition processInputBuffer (c : client) (x : X) : option processed :=
  let lookahead := if authRequired x then 1 else server_lookahead in
  '(ok, c, x) ← process_loop (4 * length (querybuf c) + 2 * length (pending_cmds c) + 3) lookahead c x;
  if negb ok then Some (false, c, x)
  else c ← trim_querybuf c; Some (true, c, x).

(** [readQueryFromClient] with the bytes [bs] that [connRead] returned. *)
Definition readQueryFromClient (bs : mem) (c : client) (x : X) : option processed :=
  let c := set_current 0 (reploff_next c) c in
  let c := set_querybuf (querybuf c ++ bs) (qb_pos c) c in
  let c := if is_master c
           then set_repl (i64 (read_reploff c + msize bs)) (reploff c) (repl_applied c) (fed c) c else c in
  let len := u64 (multi_argv_len_sums x + msize (querybuf c)) in
  '(ok, c, x) ←
    (if negb (is_master c) &&
        ((len >? client_max_querybuf_len) || ((len >? 1024 * 1024) && authRequired x))
     then Some (true, set_current CLIENT_READ_REACHED_MAX_QUERYBUF (reploff_next c) c, x)
     else processInputBuffer c x);
  if ok && isClientReadErrorFatal c then Some (ok, c, handleClientReadError (read_error c) x)
  else Some (ok, c, x).
End input.

(** ** The format written *)

(** [buf] with a mark, the digits of [n] and the end of the line. *)
Definition number_line (mark n : Z) : option mem :=
  '(len, digits) ← ll2string (replicate 31 0) n;
  Some (mark :: take (Z.to_nat len) digits ++ [CR; LF]).

Fixpoint cat_args (dst : mem) (args : list mem) : option mem :=
  match args with
  | [] => Some dst
  | a :: args =>
    line ← number_line 36 (msize a);
    cat_args (dst ++ line ++ a ++ [CR; LF]) args
  end.

Definition catAppendOnlyGenericCommand (dst : mem) (args : list mem) : option mem :=
  line ← number_line 42 (Z.of_nat (length args));
  cat_args (dst ++ line) args.

End Request.
