(* ===== verification/RequestSafety.v ===== *)
(** Whatever a client sends, the parser of requests stays inside the query buffer and the
    arrays of arguments, breaks no assertion, and comes to an end; and a protocol error in
    a request that arrives in pieces is never reported. *)
From S2P Require Import Prelude Util Sds Request.
From stdpp Require Import options.
#[local] Set Default Proof Using "Type*".

Module RequestSafety.
Import Util Sds Request.

(** ** Searching a buffer *)

Lemma memchr_Some s x i : memchr s x = Some i -> 0 <= i < msize s /\ rd s i = Some x.
Proof.
  revert i. induction s as [|y s IH]; intros i; cbn [memchr]; [done|]. rewrite msize_cons.
  destruct (Z.eqb_spec y x) as [->|Hne].
  - intros [= <-]. pose proof (msize_nonneg s). split; [lia|done].
  - intros (j & Hj & [= <-])%bind_Some. destruct (IH j Hj) as [Hb Hr]. split; [lia|].
    unfold rd in *. ztrue lia. rewrite (proj2 (Z.leb_le _ _)) in Hr by lia.
    by replace (Z.to_nat (j + 1)) with (S (Z.to_nat j)) by lia.
Qed.

Lemma c_string_prefix s : exists t, s = c_string s ++ t.
Proof.
  induction s as [|c s [t IH]]; [by exists []|]. cbn. destruct (c =? 0); [by exists (c :: s)|].
  exists t. cbn. by rewrite <- IH.
Qed.

Lemma strchr_Some s x i : strchr s x = Some i -> 0 <= i < msize s /\ rd s i = Some x.
Proof.
  intros (Hb & Hr)%memchr_Some. destruct (c_string_prefix s) as [t E]. rewrite E, msize_app.
  pose proof (msize_nonneg t). split; [lia|]. unfold rd in *. rewrite (proj2 (Z.leb_le _ _)) in * by lia.
  by apply lookup_app_l_Some.
Qed.

Lemma rd_inside s i : 0 <= i < msize s -> is_Some (rd s i).
Proof. unfold rd, msize. intros H. ztrue lia. apply lookup_lt_is_Some. lia. Qed.

Lemma sdsrange_drop s pos : 0 <= pos <= msize s -> msize s < 2 ^ 63 -> sdsrange s pos (-1) = Some (drop (Z.to_nat pos) s).
Proof.
  intros Hp Hs. unfold sdsrange, sdssubstr. destruct (Z.eqb_spec (msize s) 0) as [E|E].
  { assert (s = []) as -> by (apply msize_zero; lia). by rewrite drop_nil. }
  rewrite (proj2 (Z.ltb_ge pos 0)) by lia. cbn [Z.ltb].
  replace (i64 (msize s + -1)) with (msize s - 1) by (symmetry; apply wraps_small; unfold in_s; lia).
  replace (u64 pos) with pos by (symmetry; apply wrapu_small; unfold in_u; lia). cbv zeta.
  change (-1 <? 0) with true. cbv iota.
  destruct (Z.gtb_spec pos (msize s - 1)); rewrite ?Z.geb_leb.
  - rewrite (proj2 (Z.leb_le _ _)) by lia. replace (u64 (msize s - 0)) with (msize s) by (symmetry; rewrite Z.sub_0_r; apply wrapu_small; unfold in_u; lia).
    rewrite Z.gtb_ltb, (proj2 (Z.ltb_ge _ _)) by lia. rewrite drop_ge by (unfold msize in *; lia).
    unfold memread. ztrue lia. ztrue lia. done.
  - rewrite (proj2 (Z.leb_gt _ _)) by lia. replace (u64 (msize s - pos)) with (msize s - pos) by (symmetry; apply wrapu_small; unfold in_u; lia).
    rewrite Z.gtb_ltb, (proj2 (Z.ltb_ge _ _)) by lia. replace (msize s - 1 - pos + 1) with (msize s - pos) by lia.
    by apply memread_drop.
Qed.

Lemma memread_take m off n bs : memread m off n = Some bs -> bs = take (Z.to_nat n) (drop (Z.to_nat off) m).
Proof. unfold memread. intros H. by case_match; simplify_eq. Qed.

(** ** The invariant *)

Definition pending_sum (l : list pendingCommand) : Z := foldr (fun p n => argv_len_sum p + n) 0 l.

Record pcmd_wf (p : pendingCommand) : Prop := {
  pw_sum : argv_len_sum p = sum_sizes (argv p);
  pw_argc : argc p <= argv_len p <= INT_MAX;
  pw_error : 0 <= pcmd_error p <= CLIENT_READ_REACHED_MAX_QUERYBUF
}.

(** A client with the commands of its list, and one that is being parsed. *)
Record working (c : client) (p : pendingCommand) : Prop := {
  wk_pos : 0 <= qb_pos c <= msize (querybuf c);
  wk_size : msize (querybuf c) <= INT_MAX;
  wk_sum : all_argv_len_sum c = pending_sum (pending_cmds c) + argv_len_sum p;
  wk_bound : all_argv_len_sum c + unread_len c < 2 ^ 63;
  wk_list : Forall pcmd_wf (pending_cmds c);
  wk_pool : Forall (fun n => 0 <= n <= INT_MAX) (cmd_pool c);
  wk_pcmd : pcmd_wf p
}.

(** The middle of a command. *)
Record midway (max : Z) (c : client) (p : pendingCommand) : Prop := {
  mw_left : 0 < multibulklen c /\ argc p + multibulklen c <= INT_MAX;
  mw_argv : 1 <= argv_len p;
  mw_bulk : -1 <= bulklen c <= max
}.

(** What a client knows of its master: only running a command changes it. *)
Definition link_state (c : client) : bool * Z * Z * Z * mem :=
  (is_master c, read_reploff c, reploff c, repl_applied c, fed c).

Lemma link_master c c' : link_state c' = link_state c -> is_master c' = is_master c.
Proof. by intros [=]. Qed.

(** What the parser does not touch, and that it does not go back. *)
Record parsed (c c' : client) : Prop := {
  pd_pending : pending_cmds c' = pending_cmds c;
  pd_reqtype : reqtype c' = reqtype c;
  pd_error : read_error c' = read_error c;
  pd_link : link_state c' = link_state c;
  pd_buffer : is_master c = true -> querybuf c' = querybuf c;
  pd_unread : unread_len c' <= unread_len c
}.

#[export] Instance parsed_preorder : PreOrder parsed.
Proof.
  split; [intros c; by constructor|]. intros a b c [A1 A2 A3 A4 A5 A6] [B1 B2 B3 B4 B5 B6].
  constructor; [congruence..| |unfold unread_len in *; lia]. intros Hm. rewrite B5, A5; [done..|].
  by rewrite (link_master _ _ A4).
Qed.

Lemma sum_sizes_cons a l : sum_sizes (a :: l) = msize a + sum_sizes l.
Proof. done. Qed.

Lemma pending_sum_cons p l : pending_sum (p :: l) = argv_len_sum p + pending_sum l.
Proof. done. Qed.

Lemma sum_sizes_nonneg l : 0 <= sum_sizes l.
Proof. induction l as [|a l IH]; [done|]. rewrite sum_sizes_cons. pose proof (msize_nonneg a). lia. Qed.

Lemma sum_sizes_app l l' : sum_sizes (l ++ l') = sum_sizes l + sum_sizes l'.
Proof. induction l as [|a l IH]; [done|]. cbn [app]. rewrite !sum_sizes_cons, IH. lia. Qed.

Lemma pending_sum_app l l' : pending_sum (l ++ l') = pending_sum l + pending_sum l'.
Proof. induction l as [|a l IH]; [done|]. cbn [app]. rewrite !pending_sum_cons, IH. lia. Qed.

Lemma pending_sum_nonneg l : Forall pcmd_wf l -> 0 <= pending_sum l.
Proof.
  induction 1 as [|p l [Hs _ _] _ IH]; [done|]. rewrite pending_sum_cons, Hs. pose proof (sum_sizes_nonneg (argv p)). lia.
Qed.

Lemma pcmd_sum_nonneg p : pcmd_wf p -> 0 <= argv_len_sum p.
Proof. intros [-> _ _]. apply sum_sizes_nonneg. Qed.

Lemma working_size c p : working c p -> msize (querybuf c) < 2 ^ 63.
Proof. intros W. pose proof (wk_size _ _ W). unfold INT_MAX in *. lia. Qed.

Lemma working_sums c p : working c p -> 0 <= argv_len_sum p <= all_argv_len_sum c /\ 0 <= unread_len c /\
  all_argv_len_sum c < 2 ^ 63.
Proof.
  intros W. pose proof (pcmd_sum_nonneg _ (wk_pcmd _ _ W)). pose proof (pending_sum_nonneg _ (wk_list _ _ W)).
  rewrite (wk_sum _ _ W). pose proof (wk_bound _ _ W) as Hb. rewrite (wk_sum _ _ W) in Hb.
  pose proof (wk_pos _ _ W). unfold unread_len in *. lia.
Qed.

Lemma working_unread c p : working c p ->
  unread c = Some (drop (Z.to_nat (qb_pos c)) (querybuf c)) /\
  msize (drop (Z.to_nat (qb_pos c)) (querybuf c)) = unread_len c.
Proof.
  intros W. pose proof (wk_pos _ _ W). split; [by apply memread_drop|].
  unfold unread_len, msize. rewrite length_drop. unfold msize in *. lia.
Qed.

(** Going forward in the buffer. *)
Lemma working_forward c p n : working c p -> 0 <= n <= unread_len c -> working (set_querybuf (querybuf c) (qb_pos c + n) c) p.
Proof.
  intros [Hp Hs Hsum Hb Hl Hpool Hw] Hn. unfold unread_len in *. constructor; cbn; try done; [lia|]. unfold unread_len. cbn. lia.
Qed.

Lemma working_pcmd c p p' : working c p -> pcmd_wf p' -> argv_len_sum p' = argv_len_sum p -> working c p'.
Proof. intros [] Hp' E. constructor; try done. by rewrite E. Qed.

Lemma set_error_wf e p : pcmd_wf p -> 0 <= e <= 13 -> pcmd_wf (set_error e p).
Proof. intros [] He. by constructor. Qed.

Lemma u64_unread c p : working c p -> u64 (unread_len c) = unread_len c.
Proof.
  intros W. pose proof (working_sums _ _ W). pose proof (wk_bound _ _ W). apply wrapu_small. unfold in_u. lia.
Qed.

(** Whether a line ends inside the buffer. *)
Lemma line_inside c p n : working c p -> 0 <= n < unread_len c -> (n >? i64 (u64 (unread_len c - 2))) = (n >? unread_len c - 2).
Proof.
  intros W Hn. pose proof (working_sums _ _ W). pose proof (wk_bound _ _ W). rewrite wraps_wrapu by done.
  f_equal. apply wraps_small; [done|]. unfold in_s. lia.
Qed.

(** ** Multibulk requests *)

Definition starts_with (b : Z) (c : client) : Prop := querybuf c !! Z.to_nat (qb_pos c) = Some b.

(** A command the parser has just taken up. *)
Definition fresh (p : pendingCommand) : Prop := argv p = [] /\ pcmd_error p = 0 /\ incomplete p = false.

(** A command with an error noted. *)
Definition rejected (p p' : pendingCommand) : Prop := exists e, 0 < e <= 13 /\ p' = set_error e p.

Lemma rejected_set e p : 0 < e <= 13 -> rejected p (set_error e p).
Proof. intros He. by exists e. Qed.

Lemma working_rejected c p p' : working c p -> rejected p p' -> working c p'.
Proof. intros W (e & He & ->). eapply working_pcmd; [done| |done]. apply set_error_wf; [apply W|lia]. Qed.

#[local] Hint Resolve working_rejected : core.

Lemma u64_in_u n : 0 <= u64 n.
Proof. unfold wrapu. apply Z.mod_pos_bound. lia. Qed.

Section parser.
Context (auth : bool) (max : Z) (Hmax : 0 <= max <= INT64_MAX - 2).

Lemma add_input_wf n p : pcmd_wf p -> pcmd_wf (add_input n p).
Proof. intros []. by constructor. Qed.

Lemma add_input_working c n p : working c p -> working c (add_input n p).
Proof. intros W. eapply working_pcmd; [done|apply add_input_wf, W|done]. Qed.

Lemma set_request_working c p t m b : working c p -> working (set_request t m b c) p.
Proof. intros []. by constructor. Qed.

Lemma forward_parsed c n : 0 <= n -> parsed c (set_querybuf (querybuf c) (qb_pos c + n) c) /\
  unread_len (set_querybuf (querybuf c) (qb_pos c + n) c) = unread_len c - n.
Proof. intros Hn. unfold unread_len. cbn. split; [|lia]. constructor; try done. unfold unread_len. cbn. lia. Qed.

Lemma set_request_parsed c m b : parsed c (set_request (reqtype c) m b c).
Proof. by constructor. Qed.

(** The room for the arguments of a new command. *)
Lemma new_argv_wf c p ll :
  working c p -> argv p = [] -> 0 < ll <= INT_MAX ->
  let p' := if ll >? argv_len p then set_sum 0 (set_argv_len (Z.min ll 1024) p) else p in
  working c p' /\ argv p' = [] /\ 1 <= argv_len p' /\ pcmd_error p' = pcmd_error p /\ incomplete p' = incomplete p.
Proof.
  intros W Hp Hll. cbn zeta. pose proof (wk_pcmd _ _ W) as [Hs Ha He]. rewrite Hp in Hs. cbn in Hs.
  unfold argc in Ha. rewrite Hp in Ha. cbn in Ha.
  destruct (Z.gtb_spec ll (argv_len p)); [|split; [done|]; repeat split; (done || lia)]. split; [|cbn; repeat split; (done || lia)].
  eapply working_pcmd; [done| |by rewrite Hs]. constructor; unfold argc; cbn; rewrite ?Hp; cbn; (done || lia).
Qed.

Lemma read_multibulklen_ok c p :
  working c p -> fresh p -> multibulklen c = 0 -> starts_with 42 c ->
  ensures (read_multibulklen auth c p) (fun r => match r with
    | returns false c' p' => c' = c /\ (p' = p \/ rejected p p')
    | returns true c' p' => p' = p /\ working c' p /\ multibulklen c' = 0 /\ bulklen c' = bulklen c /\
        parsed c c' /\ unread_len c' < unread_len c
    | goes_on c' p' => working c' p' /\ midway max c' p' /\ bulklen c' = -1 /\ parsed c c' /\
        unread_len c' < unread_len c /\ pcmd_error p' = 0
    | leaves _ _ => False
    end).
Proof.
  intros W (Fa & Fe & Fi) Hm Hs. destruct (working_unread _ _ W) as [Hu Hl].
  unfold read_multibulklen, argc. rewrite Fa, Hu. change (cassert (Z.of_nat (length (@nil mem)) =? 0)) with (Some tt). cbn [mbind option_bind].
  set (s := drop (Z.to_nat (qb_pos c)) (querybuf c)) in *.
  assert (rd s 0 = Some 42) as H0 by (unfold rd, s; cbn; by rewrite lookup_drop, Nat.add_0_r).
  destruct (strchr s CR) as [n|] eqn:Hn.
  2: { cbn. split; [done|]. destruct (_ >? _); [right; by apply rejected_set|by left]. }
  apply strchr_Some in Hn as [Hn Hcr]. rewrite Hl in Hn. rewrite (line_inside c p) by done.
  destruct (Z.gtb_spec n (unread_len c - 2)); [by cbn; auto|]. rewrite H0. change (cassert (42 =? 42)) with (Some tt). cbn [mbind option_bind].
  assert (1 <= n) as Hn1 by (destruct (decide (n = 0)) as [->|]; [rewrite H0 in Hcr; done|lia]).
  destruct (memread_is_Some s 1 (n - 1)) as [line ->]; [lia..|]. cbn [mbind option_bind].
  destruct (string2ll line) as [ll|]; [|cbn; split; [done|right; by apply rejected_set]].
  destruct (Z.gtb_spec ll INT_MAX); [cbn; split; [done|right; by apply rejected_set]|].
  destruct ((ll >? 10) && auth); [cbn; split; [done|right; by apply rejected_set]|].
  pose proof (working_forward c p (n + 2) W ltac:(lia)) as W1. destruct (forward_parsed c (n + 2) ltac:(lia)) as [P1 U1].
  rewrite Z.add_assoc in W1, P1, U1. destruct (Z.leb_spec ll 0).
  { cbn [ensures]. split; [done|]. split; [done|]. split; [done|]. split; [done|]. split; [done|lia]. }
  destruct (new_argv_wf _ p ll W1 Fa ltac:(lia)) as (W2 & A2 & L2 & E2 & I2). cbn [ensures].
  split; [by apply add_input_working, set_request_working|]. split; [|split; [done|split; [by etrans; [|apply set_request_parsed]|]]].
  2: { split; [|cbn; congruence]. change (unread_len (set_querybuf (querybuf c) (qb_pos c + n + 2) c) < unread_len c). lia. }
  constructor; cbn; [unfold argc; cbn; rewrite A2; cbn; lia|done|lia].
Qed.

Lemma read_bulklen_ok c p :
  working c p -> midway max c p -> (bulklen c <> -1 -> incomplete p = true) ->
  ensures (read_bulklen auth max c p) (fun r => match r with
    | returns ok c' p' => ok = false /\ c' = c /\ rejected p p' /\ bulklen c = -1
    | leaves c' p' => c' = c /\ p' = p /\ bulklen c = -1
    | goes_on c' p' => working c' p' /\ (is_master c = false \/ bulklen c' <= max -> midway max c' p') /\ 0 <= bulklen c' /\ parsed c c' /\
        multibulklen c' = multibulklen c /\ argv p' = argv p /\ argv_len p' = argv_len p /\
        incomplete p' = incomplete p /\ pcmd_error p' = pcmd_error p
    end).
Proof.
  intros W M Hi. unfold read_bulklen. destruct (Z.eqb_spec (bulklen c) (-1)) as [Eb|Eb].
  2: { rewrite Hi by done. cbn. pose proof (mw_bulk _ _ _ M). split_and!; try done; [lia|by rewrite Hi]. }
  destruct (working_unread _ _ W) as [Hu Hl]. rewrite Hu. cbn [mbind option_bind].
  set (s := drop (Z.to_nat (qb_pos c)) (querybuf c)) in *. destruct (memchr s CR) as [n|] eqn:Hn.
  2: { destruct (_ >? _); cbn; [|done]. split_and!; try done; by apply rejected_set. }
  apply memchr_Some in Hn as [Hn Hcr]. rewrite Hl in Hn. rewrite (line_inside c p) by done.
  destruct (Z.gtb_spec n (unread_len c - 2)); [done|]. destruct (rd_inside s 0 ltac:(lia)) as [b Hb]. rewrite Hb.
  cbn [mbind option_bind]. destruct (Z.eqb_spec b 36) as [->|]; cbn [negb]; [|cbn; split_and!; try done; by apply rejected_set].
  assert (1 <= n) as Hn1 by (destruct (decide (n = 0)) as [->|]; [rewrite Hb in Hcr; done|lia]).
  destruct (memread_is_Some s 1 (n - 1)) as [line ->]; [lia..|]. cbn [mbind option_bind].
  destruct (string2ll line) as [ll|]; [|cbn; split_and!; try done; by apply rejected_set].
  destruct ((ll <? 0) || (negb (is_master c) && (ll >? max))) eqn:Ell; [cbn; split_and!; try done; by apply rejected_set|].
  apply orb_false_iff in Ell as [Hll%Z.ltb_ge Hlm].
  assert (is_master c = false \/ ll <= max -> ll <= max) as Hlx
    by (intros [Em|]; [rewrite Em in Hlm; cbn in Hlm; rewrite Z.gtb_ltb in Hlm; by apply Z.ltb_ge in Hlm|done]).
  destruct ((ll >? 16384) && auth); [cbn; split_and!; try done; by apply rejected_set|].
  pose proof (working_forward c p (n + 2) W ltac:(lia)) as W1. destruct (forward_parsed c (n + 2) ltac:(lia)) as [P1 U1].
  rewrite Z.add_assoc in W1, P1, U1. assert (multibulklen (set_querybuf (querybuf c) (qb_pos c + n + 2) c) = multibulklen c) as Em1 by done.
  set (c1 := set_querybuf (querybuf c) (qb_pos c + n + 2) c) in *. clearbody c1.
  eapply (ensures_bind _ _ (fun c2 => working c2 p /\ parsed c c2 /\ multibulklen c2 = multibulklen c)).
  { destruct (negb (is_master c1) && _ && _) eqn:Eb1; [|by cbn].
    rewrite sdsrange_drop by (apply W1 || by eapply working_size). cbn [mbind option_bind ensures].
    destruct (working_unread _ _ W1) as [_ Hl1]. destruct W1 as [Hp1 Hs1 Hsum1 Hb1 Hl1' Hpool1 Hw1].
    pose proof (parsed_preorder). pose proof (msize_nonneg (drop (Z.to_nat (qb_pos c1)) (querybuf c1))).
    assert (unread_len (set_querybuf (drop (Z.to_nat (qb_pos c1)) (querybuf c1)) 0 c1) = unread_len c1) as Eu
      by (rewrite <- Hl1; unfold unread_len; cbn; lia).
    split; [|split; [|done]].
    - constructor; try done; cbn [querybuf qb_pos set_querybuf all_argv_len_sum]; rewrite ?Hl1, ?Eu; unfold unread_len in *; lia.
    - etrans; [done|]. constructor; try done; [by intros Hm; rewrite Hm in Eb1|lia]. }
  intros c2 (W2 & P2 & Em2). cbn [ensures]. split; [by apply add_input_working, set_request_working|].
  destruct M as [M1 M2 M3]. split; [intros Hx; specialize (Hlx Hx); constructor; cbn; unfold argc in *; cbn; rewrite ?Em2; (done || lia)|].
  cbn. split; [done|]. split; [etrans; [done|apply set_request_parsed]|]. done.
Qed.

Lemma grow_argv_wf c p :
  pcmd_wf p -> midway max c p ->
  pcmd_wf (grow_argv c p) /\ argc p < argv_len (grow_argv c p) /\ 1 <= argv_len (grow_argv c p) /\
  argv (grow_argv c p) = argv p /\ argv_len_sum (grow_argv c p) = argv_len_sum p /\
  pcmd_error (grow_argv c p) = pcmd_error p /\ incomplete (grow_argv c p) = incomplete p.
Proof.
  intros [Hs Ha He] [[M1 M1'] M2 _]. unfold grow_argv. assert (0 <= argc p) by (unfold argc; lia).
  destruct (Z.geb_spec (argc p) (argv_len p)); [|split_and!; (done || lia)].
  replace (i32 (argc p + multibulklen c)) with (argc p + multibulklen c)
    by (symmetry; apply wraps_small; [done|]; unfold in_s, INT_MAX in *; lia).
  assert (argc p < argv_len (set_argv_len (Z.min (if argv_len p <? INT_MAX / 2 then argv_len p * 2 else INT_MAX)
    (argc p + multibulklen c)) p) <= INT_MAX) as Hn.
  { cbn [argv_len set_argv_len]. change (INT_MAX / 2) with 1073741823. unfold INT_MAX in *.
    destruct (Z.ltb_spec (argv_len p) 1073741823); lia. }
  split_and!; try done; [|lia..]. constructor; try done. unfold argc in *. cbn [argv set_argv_len] in *. lia.
Qed.

Lemma push_arg_ok c p a :
  working c p -> argc p < argv_len p -> 1 <= argv_len p -> all_argv_len_sum c + msize a < 2 ^ 63 ->
  ensures (push_arg a (msize a) p) (fun p' => pcmd_wf p' /\ argv p' = argv p ++ [a] /\ argv_len p' = argv_len p /\
    argv_len_sum p' = argv_len_sum p + msize a /\ pcmd_error p' = pcmd_error p /\ incomplete p' = incomplete p).
Proof.
  intros W Ha Hl Hb. pose proof (wk_pcmd _ _ W) as [Hs Ha' He]. pose proof (working_sums _ _ W) as (Hs' & _).
  pose proof (msize_nonneg a). unfold push_arg. rewrite (proj2 (Z.ltb_lt _ _)) by done. cbn [cassert mbind option_bind ensures].
  cbn [argv argv_len argv_len_sum pcmd_error incomplete].
  replace (u64 (argv_len_sum p + msize a)) with (argv_len_sum p + msize a)
    by (symmetry; apply wrapu_small; unfold in_u; lia).
  split_and!; try done. constructor; cbn [argv argv_len argv_len_sum pcmd_error].
  - rewrite sum_sizes_app, Hs, sum_sizes_cons. cbn. lia.
  - unfold argc in *. cbn [argv]. rewrite length_app. cbn [length]. lia.
  - done.
Qed.

(** The argument is taken out of the buffer. *)
Lemma take_arg_ok c p n :
  working c p -> 0 <= n -> n + 2 <= unread_len c ->
  ensures (if negb (is_master c) && (qb_pos c =? 0) && (n >=? PROTO_MBULK_BIG_ARG) && (msize (querybuf c) =? u64 (n + 2))
           then a ← memread (querybuf c) 0 (msize (querybuf c) - 2); Some (a, set_querybuf [] 0 c)
           else a ← memread (querybuf c) (qb_pos c) n; Some (a, set_querybuf (querybuf c) (qb_pos c + (n + 2)) c))
    (fun '(a, c') => msize a = n /\ a = take (Z.to_nat n) (drop (Z.to_nat (qb_pos c)) (querybuf c)) /\
       exists qb pos, c' = set_querybuf qb pos c /\ drop (Z.to_nat pos) qb = drop (Z.to_nat (qb_pos c + (n + 2))) (querybuf c) /\
       0 <= pos <= msize qb /\ msize qb <= INT_MAX /\ msize qb - pos = unread_len c - (n + 2) /\
       (is_master c = true -> qb = querybuf c)).
Proof.
  intros W Hn Hu. pose proof (wk_pos _ _ W). pose proof (wk_size _ _ W). unfold unread_len, INT_MAX in *.
  replace (u64 (n + 2)) with (n + 2) by (symmetry; apply wrapu_small; unfold in_u; lia).
  destruct (negb (is_master c) && (qb_pos c =? 0) && (n >=? PROTO_MBULK_BIG_ARG) && (msize (querybuf c) =? n + 2)) eqn:Eb.
  - apply andb_true_iff in Eb as [[[Em E1%Z.eqb_eq]%andb_true_iff _]%andb_true_iff E2%Z.eqb_eq]. rewrite E1, E2 in *.
    replace (n + 2 - 2) with n by lia. destruct (memread_is_Some (querybuf c) 0 n) as [a Ha]; [lia..|].
    rewrite Ha. cbn [mbind option_bind ensures]. pose proof (memread_take _ _ _ _ Ha).
    split_and!; [by apply memread_length in Ha|done|]. exists [], 0.
    rewrite msize_nil. split_and!; try done; try lia; [|intros Hm; by rewrite Hm in Em].
    rewrite drop_nil, drop_ge by (unfold msize in *; lia). done.
  - destruct (memread_is_Some (querybuf c) (qb_pos c) n) as [a Ha]; [lia..|]. rewrite Ha. cbn [mbind option_bind ensures].
    split_and!; [by apply memread_length in Ha|by apply memread_take|].
    exists (querybuf c), (qb_pos c + (n + 2)). split_and!; (done || lia).
Qed.

Lemma read_bulk_ok c p :
  working c p -> midway max c p -> 0 <= bulklen c ->
  ensures (read_bulk c p) (fun r => match r with
    | returns _ _ _ => False
    | leaves c' p' => c' = c /\ p' = p
    | goes_on c' p' => working c' p' /\ 1 <= argv_len p' /\ argc p' = argc p + 1 /\ multibulklen c' = multibulklen c - 1 /\
        bulklen c' = -1 /\ parsed c c' /\ unread_len c' < unread_len c /\ pcmd_error p' = pcmd_error p
    end).
Proof.
  intros W M Hb. pose proof (mw_bulk _ _ _ M). unfold read_bulk. rewrite (proj2 (Z.leb_le _ _)) by lia.
  cbn [cassert mbind option_bind]. rewrite (u64_unread c p W).
  replace (u64 (bulklen c + 2)) with (bulklen c + 2) by (symmetry; apply wrapu_small; unfold in_u, INT64_MAX in *; lia).
  destruct (Z.ltb_spec (unread_len c) (bulklen c + 2)); [done|].
  destruct (grow_argv_wf c p (wk_pcmd _ _ W) M) as (Gw & Ga & Gl & Gv & Gs & Ge & Gi).
  pose proof (working_pcmd c p _ W Gw Gs) as W1. set (p1 := grow_argv c p) in *. clearbody p1.
  eapply ensures_bind.
  { replace (u64 (bulklen c + 2)) with (bulklen c + 2) by (symmetry; apply wrapu_small; unfold in_u, INT64_MAX in *; lia).
    pose proof (take_arg_ok c p1 (bulklen c) W1 Hb ltac:(lia)) as T.
    replace (u64 (bulklen c + 2)) with (bulklen c + 2) in T by (symmetry; apply wrapu_small; unfold in_u, INT64_MAX in *; lia).
    exact T. }
  intros [a c1] (Sa & _ & qb & pos & -> & _ & Hpos & Hqb & Hun & Hqm). pose proof (wk_bound _ _ W1). pose proof (working_sums _ _ W1).
  rewrite <- Sa. eapply ensures_bind; [apply (push_arg_ok c); try done; [unfold argc in *; rewrite Gv; lia|lia]|].
  intros p2 (Pw & Pa & Pl & Ps & Pe & Pi). cbn [ensures all_argv_len_sum set_querybuf].
  replace (u64 (all_argv_len_sum c + msize a)) with (all_argv_len_sum c + msize a)
    by (symmetry; apply wrapu_small; unfold in_u; lia).
  split_and!; try done; [|lia| | | |].
  - destruct W1. constructor; cbn [querybuf qb_pos set_querybuf all_argv_len_sum set_all_sum set_request is_master pending_cmds cmd_pool]; try done; try lia.
    unfold unread_len in *. cbn [querybuf qb_pos set_querybuf all_argv_len_sum set_all_sum set_request]. lia.
  - unfold argc in *. rewrite Pa, Gv, length_app. cbn [length]. lia.
  - constructor; try done. unfold unread_len in *. cbn. lia.
  - unfold unread_len in *. cbn. lia.
  - congruence.
Qed.

(** Where the parser stops inside a command. *)
Record reached (c c' : client) (p' : pendingCommand) : Prop := {
  re_working : working c' p';
  re_parsed : parsed c c';
  re_shape : (multibulklen c' = 0 /\ (0 < multibulklen c -> unread_len c' < unread_len c)) \/ midway max c' p'
}.

Lemma reached_step c c1 c' p' :
  reached c1 c' p' -> parsed c c1 -> (0 < multibulklen c1 \/ unread_len c1 < unread_len c) -> reached c c' p'.
Proof.
  intros [W P S] P1 Hn. constructor; [done|by etrans|]. destruct S as [[E S]|]; [left; split; [done|]|by right].
  intros _. pose proof (pd_unread _ _ P). pose proof (pd_unread _ _ P1). destruct Hn; [specialize (S ltac:(done))|]; lia.
Qed.

Lemma bulk_loop_ok fuel c p :
  working c p -> is_master c = false -> 0 <= multibulklen c <= Z.of_nat fuel -> argc p + multibulklen c <= INT_MAX -> 1 <= argv_len p ->
  -1 <= bulklen c <= max -> (bulklen c <> -1 -> incomplete p = true) ->
  ensures (bulk_loop auth max fuel c p) (fun r => match r with
    | returns ok c' p' => ok = false /\ reached c c' p' /\ multibulklen c' <> 0 /\ bulklen c' = -1 /\ pcmd_error p' <> 0
    | leaves c' p' => reached c c' p'
    | goes_on _ _ => False
    end).
Proof.
  revert c p. induction fuel as [|fuel IH]; intros c p W Hma Hf Ha Hl Hb Hi; cbn [bulk_loop];
    (destruct (Z.eqb_spec (multibulklen c) 0) as [E|E]; [cbn; constructor; [done..|left; split; lia]|]).
  { lia. }
  assert (midway max c p) as M by (constructor; lia).
  eapply ensures_bind; [by apply read_bulklen_ok|]. intros [ok c1 p1|c1 p1|c1 p1] R.
  - destruct R as (-> & -> & Hr & Eb). cbn [ensures]. split; [done|]. pose proof (working_rejected _ _ _ W Hr) as W'.
    destruct Hr as (e & He & ->). split_and!; [constructor; [done..|right]|done|done|cbn; lia].
    destruct M. by constructor.
  - destruct R as (-> & -> & Eb). cbn [ensures]. constructor; [done..|by right].
  - destruct R as (W1 & M1 & Hb1 & P1 & E1 & A1 & L1 & I1 & Er1). specialize (M1 (or_introl Hma)).
    eapply ensures_bind; [by apply read_bulk_ok|]. intros [ok c2 p2|c2 p2|c2 p2] R; [done| |].
    + destruct R as [-> ->]. cbn [ensures]. constructor; [done..|by right].
    + destruct R as (W2 & L2 & A2 & E2 & B2 & P2 & U2 & Er2).
      pose proof (pd_unread _ _ P1).
      assert (is_master c2 = false) by by rewrite (link_master _ _ (pd_link _ _ P2)), (link_master _ _ (pd_link _ _ P1)).
      eapply ensures_mono; [apply (IH c2 p2); try done; unfold argc in *; rewrite ?A1 in *; lia|].
      assert (parsed c c2) by by etrans. intros [ok c3 p3|c3 p3|]; [|..|done].
      * intros (-> & R & ? & ? & ?). split_and!; try done. eapply reached_step; [done..|right; lia].
      * intros R. eapply reached_step; [done..|right; lia].
Qed.

Lemma reached_midway c c' p' : reached c c' p' -> multibulklen c' <> 0 -> midway max c' p'.
Proof. intros [_ _ [[E _]|M]] H; [done|done]. Qed.

(** What the parser of a command ends with: nothing yet, an error, a part of a command, or
    a command. *)
Variant parse_result (c : client) (p : pendingCommand) : bool -> client -> pendingCommand -> Prop :=
| pr_nothing : fresh p -> parse_result c p false c p
| pr_error c' p' : working c' p' -> parsed c c' -> pcmd_error p' <> 0 -> (incomplete p' = true -> midway max c' p') ->
    parse_result c p false c' p'
| pr_part c' p' : working c' p' -> parsed c c' -> incomplete p' = true -> midway max c' p' -> parse_result c p true c' p'
| pr_command c' p' : working c' p' -> parsed c c' -> incomplete p' = false -> multibulklen c' = 0 ->
    unread_len c' < unread_len c -> parse_result c p true c' p'.

(** The end of the function. *)
Lemma finish_multibulk_ok c c1 p c2 p2 :
  reached c1 c2 p2 -> parsed c c1 -> 0 < multibulklen c1 -> (0 < multibulklen c \/ unread_len c1 < unread_len c) ->
  let '(ok, c', p') := finish_multibulk c2 p2 in parse_result c p ok c' p'.
Proof.
  intros [W2 P2 S2] P M1 Hn. unfold finish_multibulk. destruct (Z.eqb_spec (multibulklen c2) 0) as [E|E].
  - apply pr_command; try done.
    + eapply working_pcmd; [done| |done]. destruct (wk_pcmd _ _ W2). by constructor.
    + by etrans.
    + destruct S2 as [[_ S2]|[? ?]]; [|lia]. pose proof (pd_unread _ _ P). specialize (S2 M1). lia.
  - destruct S2 as [[? _]|M']; [done|]. apply pr_part; try done; [|by etrans|].
    + eapply working_pcmd; [done| |done]. destruct (wk_pcmd _ _ W2). by constructor.
    + destruct M'. by constructor.
Qed.

Lemma bulk_loop_parses c c1 p p1 :
  working c1 p1 -> is_master c1 = false -> midway max c1 p1 -> (bulklen c1 <> -1 -> incomplete p1 = true) -> parsed c c1 ->
  (0 < multibulklen c \/ unread_len c1 < unread_len c) ->
  ensures (r ← bulk_loop auth max (Z.to_nat (multibulklen c1)) c1 p1;
           match r with
           | returns ok c p => Some (ok, c, p)
           | leaves c p | goes_on c p => Some (finish_multibulk c p)
           end) (fun '(ok, c', p') => parse_result c p ok c' p').
Proof.
  intros W Hma M Hi P Hn. destruct M as [[M1 M2] M3 M4].
  eapply ensures_bind; [by apply bulk_loop_ok; first [done|lia]|]. intros [ok c2 p2|c2 p2|]; [|..|done].
  - intros (-> & R & Hm & Hb & He). cbn. apply pr_error; [apply R|etrans; [done|apply R]|done|].
    intros _. by eapply reached_midway.
  - intros R. by apply (finish_multibulk_ok c c1 p).
Qed.

Lemma processMultibulkBuffer_ok c p :
  working c p -> is_master c = false ->
  (fresh p /\ multibulklen c = 0 /\ starts_with 42 c) \/ (incomplete p = true /\ midway max c p) ->
  ensures (processMultibulkBuffer auth max c p) (fun '(ok, c', p') => parse_result c p ok c' p').
Proof.
  intros W Hma [(F & Hm & Hs)|[I M]]; unfold processMultibulkBuffer.
  - rewrite (proj2 (Z.eqb_eq _ _)) by done. eapply ensures_bind; [by apply read_multibulklen_ok|].
    intros [[] c1 p1|c1 p1|c1 p1]; [..|done|]; cbn [ensures].
    + intros (-> & W1 & E1 & _ & P1 & U1). apply pr_command; try done. apply F.
    + intros (-> & [->|Hr]); [by apply pr_nothing|]. pose proof (working_rejected _ _ _ W Hr).
      destruct Hr as (e & He & ->). apply pr_error; [done|done|cbn; lia|]. destruct F as (_ & _ & F).
      cbn. rewrite F. done.
    + intros (W1 & M1 & B1 & P1 & U1 & E1). pose proof (mw_left _ _ _ M1) as [? _].
      rewrite (proj2 (Z.gtb_lt _ _)) by done. cbn [cassert]. cbn [mbind option_bind].
      apply bulk_loop_parses; try done; [by rewrite (link_master _ _ (pd_link _ _ P1))|by right].
  - pose proof (mw_left _ _ _ M) as [? _]. rewrite (proj2 (Z.eqb_neq _ _)) by lia. cbn [mbind option_bind].
    rewrite (proj2 (Z.gtb_lt _ _)) by done. cbn [cassert]. cbn [mbind option_bind].
    apply bulk_loop_parses; try done. by left.
Qed.

(** ** Inline requests *)

Lemma split_loop_size fuel v p args :
  split_loop fuel v p = Some (Some args) ->
  exists new, args = v ++ new /\ sum_sizes new + Z.of_nat (length new) <= Z.of_nat (length p) + 1.
Proof.
  revert v p. induction fuel as [|fuel IH]; intros v p; cbn [split_loop]; pose proof (skip_blanks_length p);
    (destruct (skip_blanks p) as [|x q] eqn:E; [intros [= <-]; exists []; rewrite app_nil_r; cbn; split; [done|lia]|]); [done|].
  destruct (get_token unquoted [] (x :: q)) as [[t rest]|] eqn:Ht; [|done].
  pose proof (get_token_size _ _ _ _ _ Ht) as Hs. cbn [length] in *. intros Hl.
  destruct rest as [|y rest].
  { assert (args = v ++ [t]) as -> by (by destruct fuel; cbn in Hl; simplify_eq). exists [t]. split; [done|].
    rewrite sum_sizes_cons. cbn. unfold msize. lia. }
  destruct (IH _ _ Hl) as (new & -> & Hn). exists (t :: new). rewrite <- app_assoc. split; [done|].
  rewrite sum_sizes_cons. unfold msize. cbn [length] in *. lia.
Qed.

Lemma sdssplitargs_size line args :
  sdssplitargs line = Some (Some args) -> sum_sizes args + Z.of_nat (length args) <= msize line + 1.
Proof.
  intros (new & -> & Hn)%split_loop_size. pose proof (c_string_length line). cbn [app]. unfold msize. lia.
Qed.

(** The command the arguments of a line make. *)
Lemma inline_command_wf c p args :
  working c p -> fresh p -> 0 <= sum_sizes args + Z.of_nat (length args) <= unread_len c ->
  let n := Z.of_nat (length args) in
  let p1 := if negb (n =? 0) && (n >? argv_len p) then set_sum 0 (set_argv_len n p) else p in
  n <= argv_len p1 /\ argv_len_sum p1 = 0 /\ incomplete p1 = false /\ pcmd_error p1 = 0 /\ argv_len p1 <= INT_MAX.
Proof.
  intros W (Fa & Fe & Fi) Hs. cbn zeta. pose proof (wk_pcmd _ _ W) as [Ps Pa Pe]. unfold argc in Pa.
  rewrite Fa in Ps, Pa. cbn in Ps, Pa. pose proof (wk_size _ _ W). pose proof (wk_pos _ _ W). unfold unread_len in *.
  pose proof (sum_sizes_nonneg args).
  destruct (Z.eqb_spec (Z.of_nat (length args)) 0) as [E|E]; cbn [negb andb]; [split_and!; (done || lia)|].
  destruct (Z.gtb_spec (Z.of_nat (length args)) (argv_len p)); cbn; split_and!; (done || lia).
Qed.

Lemma processInlineBuffer_ok c p :
  working c p -> fresh p -> multibulklen c = 0 ->
  ensures (processInlineBuffer c p) (fun '(ok, c', p') => parse_result c p ok c' p' /\ incomplete p' = false).
Proof.
  intros W F Hm. destruct (working_unread _ _ W) as [Hu Hl]. unfold processInlineBuffer. rewrite Hu. cbn [mbind option_bind].
  set (s := drop (Z.to_nat (qb_pos c)) (querybuf c)) in *. assert (incomplete p = false) as Fi by apply F.
  assert (forall e, 0 < e <= 13 -> parse_result c p false c (set_error e p) /\ incomplete (set_error e p) = false) as Herr.
  { intros e He. split; [|done]. apply pr_error; [|done|cbn; lia|cbn; by rewrite Fi]. eapply working_rejected; [done|by apply rejected_set]. }
  destruct (strchr s LF) as [nl|] eqn:Hn; [|destruct (_ >? _); [by apply Herr|split; [by apply pr_nothing|done]]].
  apply strchr_Some in Hn as [Hn _]. rewrite Hl in Hn.
  set (cr := match rd s (nl - 1) with Some b => b =? CR | None => false end).
  assert (cr = true -> 1 <= nl) as Hcr.
  { subst cr. destruct (decide (nl = 0)) as [->|]; [done|lia]. }
  set (ql := if cr then nl - 1 else nl). set (feed := if cr then 2 else 1).
  assert ((if cr then (nl - 1, 2) else (nl, 1)) = (ql, feed)) as -> by (subst ql feed; by destruct cr).
  assert (0 <= ql /\ ql + feed = nl + 1 /\ 1 <= feed) as (Hq & Hf & Hf1) by (subst ql feed; destruct cr; [specialize (Hcr eq_refl)|]; lia).
  clearbody cr ql feed. destruct (memread_is_Some s 0 ql) as [aux Ha]; [lia..|]. rewrite Ha. cbn [mbind option_bind].
  apply memread_length in Ha. destruct (sdssplitargs_total aux) as [res Hr]. rewrite Hr. cbn [mbind option_bind].
  destruct res as [args|]; [|by apply Herr]. apply sdssplitargs_size in Hr. destruct (negb (ql =? 0) && is_master c); [by apply Herr|]. cbv zeta.
  pose proof (sum_sizes_nonneg args).
  destruct (inline_command_wf c p args W F ltac:(lia)) as (L1 & S1 & I1 & E1 & M1). cbv zeta in *.
  set (p1 := if _ && _ then _ else _) in *. clearbody p1. rewrite (proj2 (Z.leb_le _ _)) by done.
  cbn [cassert]. cbn [mbind option_bind]. pose proof (working_sums _ _ W). pose proof (wk_bound _ _ W).
  assert (argv_len_sum p = 0) as Ep by (rewrite (pw_sum _ (wk_pcmd _ _ W)); destruct F as [-> _]; done).
  pose proof (wk_sum _ _ W). pose proof (wk_pos _ _ W). pose proof (wk_size _ _ W). pose proof (pending_sum_nonneg _ (wk_list _ _ W)).
  replace (u64 (argv_len_sum p1 + sum_sizes args)) with (sum_sizes args)
    by (symmetry; rewrite S1; apply wrapu_small; unfold in_u, unread_len, INT_MAX in *; lia).
  cbn [all_argv_len_sum set_querybuf].
  replace (u64 (all_argv_len_sum c + sum_sizes args)) with (all_argv_len_sum c + sum_sizes args)
    by (symmetry; apply wrapu_small; unfold in_u, unread_len in *; lia).
  cbn [ensures]. split; [|done]. apply pr_command; [| |done|done|unfold unread_len; cbn; lia].
  - destruct W. constructor; cbn [querybuf qb_pos set_querybuf all_argv_len_sum set_all_sum is_master pending_cmds cmd_pool argv_len_sum]; try done;
      unfold unread_len in *; cbn [querybuf qb_pos set_querybuf all_argv_len_sum set_all_sum]; try lia.
    constructor; cbn [argv argv_len argv_len_sum pcmd_error]; [done|unfold argc; cbn [argv]; lia|rewrite E1; done].
  - constructor; try done. unfold unread_len. cbn. lia.
Qed.

(** ** The list of commands *)

(** A client between two commands. *)
Definition sound (c : client) : Prop := working c initPendingCommand.

Lemma working_sound c p : working c p -> argv_len_sum p = 0 -> sound c.
Proof. intros [] E. constructor; try done; cbn; rewrite <- E; done. Qed.

Lemma sound_acquire c p c' : sound c -> acquirePendingCommand c = (p, c') ->
  working c' p /\ fresh p /\ exists pool, c' = set_pool pool (pool_capacity c) c.
Proof.
  intros W. unfold acquirePendingCommand. destruct (cmd_pool c) as [|n pool] eqn:E; intros [= <- <-].
  - split_and!; [done|done|]. exists (cmd_pool c). by destruct c.
  - split_and!; [|done|by exists pool]. destruct W as [? ? ? ? ? Hp Hw]. rewrite E in Hp. inversion_clear Hp.
    by constructor.
Qed.

Lemma working_add c p : working c p -> sound (addPendingCommand p c).
Proof.
  intros [Hp Hs Hsum Hb Hl Hpool Hw]. constructor; cbn [querybuf qb_pos is_master all_argv_len_sum pending_cmds cmd_pool addPendingCommand set_pending]; try done.
  - rewrite Hsum, pending_sum_app, pending_sum_cons. cbn. lia.
  - by apply Forall_app; split; [|constructor].
Qed.

Lemma sound_remove c l p l' : sound c -> pending_cmds c = l ++ p :: l' -> working (set_pending (l ++ l') c) p.
Proof.
  intros [Hp Hs Hsum Hb Hl Hpool Hw] E. rewrite E in *. apply Forall_app in Hl as [Hl [Hp' Hl']%Forall_cons_1].
  constructor; cbn [querybuf qb_pos is_master all_argv_len_sum pending_cmds cmd_pool set_pending]; try done.
  - rewrite Hsum, !pending_sum_app, pending_sum_cons. cbn. lia.
  - by apply Forall_app.
Qed.

(** What the parser knows of a client. *)
Definition parser_state (c : client) : mem * Z * Z * Z * Z * Z :=
  (querybuf c, qb_pos c, reqtype c, multibulklen c, bulklen c, read_error c).

(** The command's memory is given back. *)
Definition returned (c c' : client) : Prop :=
  sound c' /\ parser_state c' = parser_state c /\ pending_cmds c' = pending_cmds c /\ link_state c' = link_state c.

Lemma free_working c p s : working c p -> s = all_argv_len_sum c - argv_len_sum p -> sound (set_all_sum s c).
Proof.
  intros W ->. pose proof (working_sums _ _ W). destruct W as [Hp Hs Hsum Hb Hl Hpool Hw].
  constructor; cbn [querybuf qb_pos is_master all_argv_len_sum pending_cmds cmd_pool set_all_sum argv_len_sum initPendingCommand]; try done;
    [lia|unfold unread_len in *; cbn [querybuf qb_pos set_all_sum all_argv_len_sum]; lia].
Qed.

Lemma freePendingCommand_ok c p : working c p -> ensures (freePendingCommand c p) (returned c).
Proof.
  intros W. pose proof (working_sums _ _ W). unfold freePendingCommand. rewrite Z.geb_leb, (proj2 (Z.leb_le _ _)) by lia.
  cbn. split; [|done]. by eapply free_working.
Qed.

Lemma reclaimPendingCommand_ok c p : working c p -> ensures (reclaimPendingCommand c p) (returned c).
Proof.
  intros W. pose proof (working_sums _ _ W). unfold reclaimPendingCommand.
  destruct (Z.ltb_spec (argv_len p) 64); [|by apply freePendingCommand_ok].
  destruct (tryExpandPendingCommandPool c) as [[] cap]; [|by apply freePendingCommand_ok].
  rewrite Z.geb_leb, (proj2 (Z.leb_le _ _)) by lia. cbn. split; [|done].
  pose proof (free_working _ _ _ W eq_refl) as []. constructor; try done. constructor; [|done].
  pose proof (pw_argc _ (wk_pcmd _ _ W)). unfold argc in *. lia.
Qed.

Lemma resetClientInternal_ok queued c p l :
  sound c -> pending_cmds c = p :: l ->
  ensures (resetClientInternal queued c) (fun c' => sound c' /\ parser_state c' = parser_state c /\
    pending_cmds c' = l /\ link_state c' = link_state c).
Proof.
  intros W E. pose proof (sound_remove c [] p l W E) as W1. cbn [app] in W1. unfold resetClientInternal, popPendingCommandFromHead.
  rewrite E. cbn [mbind option_bind]. destruct queued.
  - cbn. split; [|done]. pose proof (working_sums _ _ W1) as Hs. cbn [all_argv_len_sum set_pending] in Hs.
    replace (u64 (all_argv_len_sum c - argv_len_sum p)) with (all_argv_len_sum c - argv_len_sum p)
      by (symmetry; apply wrapu_small; unfold in_u; lia).
    by eapply (free_working _ _ _ W1).
  - eapply ensures_bind; [by apply reclaimPendingCommand_ok|]. intros c' (W2 & P2 & E2 & L2). cbn [pending_cmds set_pending] in E2.
    assert (negb (pending_len c' =? 0) || (all_argv_len_sum c' =? 0) = true) as ->; [|done].
    pose proof (wk_sum _ _ W2) as Hs. cbn [argv_len_sum initPendingCommand] in Hs. unfold pending_len. rewrite E2 in *.
    destruct l as [|q l]; [|done]. cbn in Hs |- *. by rewrite Hs.
Qed.

(** ** The shape of a client *)

(** A command to be run. *)
Definition good (p : pendingCommand) : Prop := incomplete p = false /\ pcmd_error p = 0.

Definition idle (c : client) : Prop :=
  Forall good (pending_cmds c) /\ multibulklen c = 0 /\
  (reqtype c = 0 \/ reqtype c = PROTO_REQ_INLINE \/ (reqtype c = PROTO_REQ_MULTIBULK /\ starts_with 42 c)).

Definition mid (c : client) : Prop :=
  exists l p, pending_cmds c = l ++ [p] /\ Forall good l /\ incomplete p = true /\ midway max c p /\ reqtype c = PROTO_REQ_MULTIBULK.

(** An error is noted: nothing is parsed any more. *)
Definition stuck (c : client) : Prop :=
  exists l p, pending_cmds c = l ++ [p] /\ Forall good l /\ incomplete p = false /\ pcmd_error p <> 0.

Definition client_wf (c : client) : Prop := sound c /\ (idle c \/ mid c \/ stuck c).

Lemma filter_good l : Forall good l -> List.filter is_ready l = l.
Proof. induction 1 as [|p l [Hi _] _ IH]; [done|]. cbn. unfold is_ready at 1. by rewrite Hi, IH. Qed.

Lemma ready_good c l l' : pending_cmds c = l ++ l' -> Forall good l -> ready_len c = Z.of_nat (length l + length (List.filter is_ready l')).
Proof. intros E H. unfold ready_len. by rewrite E, List.filter_app, filter_good, length_app. Qed.

Lemma idle_ready c : idle c -> ready_len c = pending_len c.
Proof. intros (H & _). unfold ready_len, pending_len. by rewrite filter_good. Qed.

Lemma mid_ready c l p : pending_cmds c = l ++ [p] -> Forall good l -> incomplete p = true -> ready_len c = Z.of_nat (length l).
Proof. intros E H I. erewrite ready_good by done. cbn. unfold is_ready. rewrite I. cbn. lia. Qed.

Lemma stuck_ready c l p : pending_cmds c = l ++ [p] -> Forall good l -> incomplete p = false -> ready_len c = Z.of_nat (length l) + 1.
Proof. intros E H I. erewrite ready_good by done. cbn. unfold is_ready. rewrite I. cbn. lia. Qed.

(** Taking the command at the head leaves a shape of the same kind. *)
Lemma pop_shape c p l c' :
  idle c \/ mid c \/ stuck c -> pending_cmds c = p :: l -> good p -> parser_state c' = parser_state c -> pending_cmds c' = l ->
  (idle c' \/ mid c' \/ stuck c') /\ (stuck c <-> stuck c') /\ ready_len c' = ready_len c - 1.
Proof.
  intros S E [Gi Ge] [= Eq Ep Er Em Eb _] E'.
  assert (ready_len c' = ready_len c - 1) as Hr.
  { unfold ready_len. rewrite E, E'. cbn. unfold is_ready at 2. rewrite Gi. cbn. lia. }
  assert (forall P : pendingCommand -> Prop, (exists l0 q, pending_cmds c = l0 ++ [q] /\ Forall good l0 /\ P q) -> ~ P p ->
    exists l0 q, pending_cmds c' = l0 ++ [q] /\ Forall good l0 /\ P q) as Hpop.
  { intros P (l0 & q & El & Hg & HP) Hn. rewrite E in El. destruct l0 as [|p0 l0]; injection El as Ep0 El; [by subst q|].
    rewrite E', El. exists l0, q. by inversion_clear Hg. }
  assert (stuck c -> stuck c') as Hs.
  { intros Hs. apply (Hpop (fun q => incomplete q = false /\ pcmd_error q <> 0)); [done|]. by intros [_ ?]. }
  split; [|split; [|done]].
  - destruct S as [(Hg & Hm & Ht)|[S|S]]; [left| |right; right; by apply Hs].
    + rewrite E in Hg. inversion_clear Hg. unfold idle, starts_with in *. by rewrite E', Em, Er, Ep, Eq.
    + right; left. destruct S as (l0 & q & El & Hg & Hi & M & Ht).
      destruct (Hpop (fun q => incomplete q = true /\ midway max c q)) as (l1 & q1 & ? & ? & ? & M1); [naive_solver|by intros [? _]; congruence|].
      exists l1, q1. rewrite Er. split_and!; try done. destruct M1. constructor; rewrite ?Em, ?Eb; done.
  - split; [done|]. intros (l0 & q & El & Hg & HP). exists (p :: l0), q. rewrite E, <- E', El. split; [done|].
    split; [by constructor|done].
Qed.

(** ** The loops *)

(** The commands that can still be run, at most. *)
Definition budget (c : client) (k : Z) : Prop :=
  2 * unread_len c + ready_len c + 1 <= k \/ (stuck c /\ 2 * unread_len c + ready_len c <= k).

(** A command is complete. *)
Lemma command_added c p :
  working c p -> good p -> Forall good (pending_cmds c) ->
  let c' := resetClientQbufState (addPendingCommand p c) in client_wf c' /\ idle c'.
Proof.
  intros W G Hg c'. assert (idle c') as Hi.
  { split; [|split; [done|by left]]. cbn. by apply Forall_app; split; [|constructor]. }
  split; [|done]. split; [by apply set_request_working, working_add|by left].
Qed.

(** What follows the parser of a command in the loop. *)
Lemma parse_end_ok (next : client -> option client) k c l p ok c' p' :
  parse_result c p ok c' p' -> working c p -> pending_cmds c = l -> Forall good l ->
  (fresh p -> idle c) -> (reqtype c <> PROTO_REQ_MULTIBULK -> incomplete p' = false) ->
  2 * unread_len c + Z.of_nat (length l) + 1 <= k ->
  (forall c2, client_wf c2 -> idle c2 -> unread_len c2 < unread_len c -> 2 * unread_len c2 + ready_len c2 + 1 <= k ->
     link_state c2 = link_state c -> ensures (next c2) (fun c3 => (client_wf c3 /\ budget c3 k) /\ link_state c3 = link_state c)) ->
  ensures (if negb ok && (pcmd_error p' =? 0) then freePendingCommand c' p'
           else if negb (pcmd_error p' =? 0) || incomplete p' then Some (addPendingCommand p' c')
           else let p' := set_pcmd_reploff (i64 (read_reploff c' - msize (querybuf c') + qb_pos c')) p' in
                next (resetClientQbufState (addPendingCommand p' c')))
    (fun c3 => (client_wf c3 /\ budget c3 k) /\ link_state c3 = link_state c).
Proof.
  intros R W El Hg Hidle Ht Hk Hnext.
  assert (forall c' p', working c' p' -> parsed c c' -> (incomplete p' = true -> midway max c' p') ->
    (reqtype c <> PROTO_REQ_MULTIBULK -> incomplete p' = false) -> pcmd_error p' <> 0 \/ incomplete p' = true ->
    (client_wf (addPendingCommand p' c') /\ budget (addPendingCommand p' c') k) /\ link_state (addPendingCommand p' c') = link_state c) as Hadd.
  { clear R Ht. intros c2 p2 W2 P2 M2 T2 S2. split; [|apply P2]. pose proof (working_add _ _ W2) as Hs. pose proof (pd_unread _ _ P2) as Hu.
    assert (pending_cmds (addPendingCommand p2 c2) = l ++ [p2]) as Ea by (cbn; by rewrite (pd_pending _ _ P2), El).
    destruct (incomplete p2) eqn:I2.
    - split; [split; [done|right; left]|left].
      + exists l, p2. split_and!; try done; [by destruct (M2 eq_refl)|]. cbn. rewrite (pd_reqtype _ _ P2).
        destruct (decide (reqtype c = PROTO_REQ_MULTIBULK)); [done|]. by specialize (T2 ltac:(done)).
      + rewrite (mid_ready _ _ _ Ea) by done. change (unread_len (addPendingCommand p2 c2)) with (unread_len c2). lia.
    - assert (stuck (addPendingCommand p2 c2)) as Hst by (exists l, p2; split_and!; try done; by destruct S2).
      split; [split; [done|by right; right]|right]. split; [done|].
      rewrite (stuck_ready _ _ _ Ea) by done. change (unread_len (addPendingCommand p2 c2)) with (unread_len c2). lia. }
  destruct R as [F|c' p' W' P' E' M'|c' p' W' P' I' M'|c' p' W' P' I' Em Eu].
  - destruct F as (Fa & Fe & Fi). rewrite Fe. cbn [negb andb Z.eqb].
    eapply ensures_mono; [by apply freePendingCommand_ok|]. intros c3 (W3 & P3 & E3 & L3). injection P3 as Eq Ep Er Emm Eb _.
    specialize (Hidle ltac:(done)). split; [|done]. split; [split; [done|left]|left].
    + unfold idle, starts_with in *. by rewrite E3, Er, Emm, Eq, Ep.
    + assert (ready_len c3 = Z.of_nat (length l)) as -> by (unfold ready_len; by rewrite E3, El, filter_good).
      assert (unread_len c3 = unread_len c) as -> by (unfold unread_len; by rewrite Eq, Ep). lia.
  - rewrite (proj2 (Z.eqb_neq _ _)) by done. cbn [negb andb orb]. apply Hadd; auto.
  - rewrite I', orb_true_r. cbn [negb andb]. apply Hadd; auto.
  - cbn [negb andb]. rewrite I', orb_false_r. destruct (Z.eqb_spec (pcmd_error p') 0) as [E0|E0]; cbn [negb].
    2: { apply Hadd; auto. by rewrite I'. }
    cbv zeta. set (p2 := set_pcmd_reploff _ p').
    destruct (command_added c' p2) as [Hw2 Hi2].
    { eapply working_pcmd; [done| |done]. destruct (wk_pcmd _ _ W'). by constructor. }
    { by split. }
    { by rewrite (pd_pending _ _ P'), El. }
    clearbody p2. set (c2 := resetClientQbufState (addPendingCommand p2 c')) in *.
    apply Hnext; [done|done|done| |apply P']. rewrite (idle_ready _ Hi2). unfold pending_len. cbn.
    rewrite (pd_pending _ _ P'), El, length_app. cbn. change (unread_len c2) with (unread_len c'). lia.
Qed.

(** The command the loop takes up, and the client without it. *)
Lemma current_pcmd_ok c :
  sound c -> idle c \/ mid c -> reqtype c = PROTO_REQ_MULTIBULK ->
  ensures (current_pcmd c) (fun '(p, c') => working c' p /\ (reqtype c' = reqtype c /\ link_state c' = link_state c) /\
    ((fresh p /\ multibulklen c' = 0 /\ starts_with 42 c' /\ idle c') \/ (incomplete p = true /\ midway max c' p)) /\
    exists l, pending_cmds c' = l /\ Forall good l /\ ready_len c = Z.of_nat (length l) /\ unread_len c' = unread_len c).
Proof.
  intros W S Ht. unfold current_pcmd. destruct S as [S|(l & p & E & Hg & Hi & M & _)].
  - rewrite (idle_ready _ S), Z.eqb_refl. cbn [negb ensures]. destruct (acquirePendingCommand c) as [p c'] eqn:Ea.
    destruct (sound_acquire _ _ _ W Ea) as (W' & F & pool & ->). destruct S as (Hg & Hm & [E0|[E0|[_ Hs]]]); [by rewrite Ht in E0..|].
    split_and!; [done|done|done|left; split_and!; [done..|]|]; [by split; [|split; [|right; right]]|].
    exists (pending_cmds c). by split_and!.
  - pose proof (mid_ready _ _ _ E Hg Hi) as Hr. unfold pending_len. rewrite Hr, E, length_app.
    rewrite (proj2 (Z.eqb_neq _ _)) by (cbn; lia). cbn [negb]. unfold popPendingCommandFromTail. rewrite E, last_snoc.
    cbn [ensures]. rewrite length_app, Nat.add_sub, take_app_length. pose proof (sound_remove c l p [] W E) as W1. rewrite app_nil_r in W1.
    split_and!; [done|done|done|right; split; [done|]|exists l; by split_and!].
    destruct M. by constructor.
Qed.

Lemma parse_loop_ok fuel lookahead c k :
  client_wf c -> is_master c = false -> idle c \/ mid c -> unread_len c < Z.of_nat fuel -> 2 * unread_len c + ready_len c + 1 <= k ->
  ensures (parse_loop auth max fuel lookahead c) (fun c' => (client_wf c' /\ budget c' k) /\ link_state c' = link_state c).
Proof.
  revert c. induction fuel as [|fuel IH]; intros c [W S0] Hma S Hf Hk; cbn [parse_loop];
    (destruct ((ready_len c <? lookahead) && (qb_pos c <? msize (querybuf c))) eqn:Ec; [|by split; [split; [|left]|]]);
    apply andb_true_iff in Ec as [_ Hpos%Z.ltb_lt].
  { unfold unread_len in Hf. lia. }
  pose proof (wk_pos _ _ W) as Hp. destruct (rd_inside (querybuf c) (qb_pos c) ltac:(lia)) as [b Hb].
  eapply (ensures_bind _ _ (fun c1 => sound c1 /\ (idle c1 \/ mid c1) /\ ready_len c1 = ready_len c /\ unread_len c1 = unread_len c /\ link_state c1 = link_state c /\
    ((reqtype c1 = PROTO_REQ_INLINE /\ idle c1) \/ reqtype c1 = PROTO_REQ_MULTIBULK))).
  { destruct (Z.eqb_spec (reqtype c) 0) as [E0|E0].
    - destruct S as [S|(? & ? & _ & _ & _ & _ & Ht)]; [|rewrite E0 in Ht; done].
      rewrite Hb. cbn [mbind option_bind ensures]. set (c1 := set_request _ _ _ _).
      assert (idle c1) as Hi.
      { destruct S as (Hg & Hm & _). split; [done|split; [done|right]]. cbn. destruct (Z.eqb_spec b 42) as [->|]; [right|by left].
        split; [done|]. unfold starts_with. cbn. unfold rd in Hb. by rewrite (proj2 (Z.leb_le _ _)) in Hb by lia. }
      split_and!; [by apply set_request_working|by left|done|done|done|]. cbn. destruct (b =? 42); [by right|by left].
    - cbn [ensures]. split_and!; try done. destruct S as [S|(? & ? & _ & _ & _ & _ & Ht)]; [|by right].
      pose proof S as (_ & _ & [?|[?|[? _]]]); [done|by left|by right]. }
  clear b Hb Hp. intros c1 (W1 & S1 & R1 & U1 & L1 & T1). rewrite <- L1. rewrite <- (link_master _ _ L1) in Hma.
  assert (forall c2, client_wf c2 -> idle c2 -> unread_len c2 < unread_len c1 -> 2 * unread_len c2 + ready_len c2 + 1 <= k ->
    link_state c2 = link_state c1 ->
    ensures (parse_loop auth max fuel lookahead c2) (fun c3 => (client_wf c3 /\ budget c3 k) /\ link_state c3 = link_state c1)) as Hnext.
  { intros c2 Hw2 Hi2 Hu2 Hk2 L2. rewrite <- L2. apply IH; auto; [by rewrite (link_master _ _ L2)|lia]. }
  destruct T1 as [[T1 I1]|T1].
  - rewrite T1. cbn [Z.eqb PROTO_REQ_INLINE Pos.eqb]. destruct (acquirePendingCommand c1) as [p c2] eqn:Ea.
    destruct (sound_acquire _ _ _ W1 Ea) as (W2 & F & pool & ->). pose proof I1 as (Hg & Hm & Ht).
    eapply ensures_bind; [by apply processInlineBuffer_ok|]. intros [[ok c3] p3] [R I3].
    change (link_state c1) with (link_state (set_pool pool (pool_capacity c1) c1)) in *.
    eapply (parse_end_ok _ _ (set_pool pool (pool_capacity c1) c1)); try done.
    assert (ready_len c1 = Z.of_nat (length (pending_cmds c1))) as E1 by by rewrite (idle_ready _ I1).
    change (unread_len (set_pool pool (pool_capacity c1) c1)) with (unread_len c1).
    change (pending_cmds (set_pool pool (pool_capacity c1) c1)) with (pending_cmds c1). lia.
  - rewrite T1. change (PROTO_REQ_MULTIBULK =? PROTO_REQ_INLINE) with false. cbv iota. rewrite Z.eqb_refl. cbn [cassert].
    cbn [mbind option_bind].
    destruct (ensures_Some _ _ (current_pcmd_ok c1 W1 S1 T1)) as ([p c2] & -> & W2 & P2 & S2 & l & El & Hg & Hr & Hu).
    cbn [mbind option_bind]. destruct P2 as [P2 L2]. rewrite <- L2 in *.
    eapply ensures_bind; [apply processMultibulkBuffer_ok; [done|by rewrite (link_master _ _ L2)|]; naive_solver|]. intros [[ok c3] p3] R.
    eapply (parse_end_ok _ _ c2); try done; [|by rewrite P2, T1|lia|by rewrite Hu].
    intros F. destruct S2 as [(_ & _ & _ & ?)|[Hi _]]; [done|]. destruct F as (_ & _ & Fi). congruence.
Qed.

Lemma good_head c cur l :
  client_wf c -> pending_cmds c = cur :: l -> ready_len c <> 0 ->
  good cur \/ (incomplete cur = false /\ 0 < pcmd_error cur <= CLIENT_READ_REACHED_MAX_QUERYBUF).
Proof.
  intros [W [S|[S|S]]] E Hr.
  - destruct S as (Hg & _). rewrite E in Hg. inversion_clear Hg. by left.
  - destruct S as (l0 & p & El & Hg & Hi & _). rewrite (mid_ready _ _ _ El Hg Hi) in Hr.
    rewrite E in El. destruct l0 as [|q l0]; [done|]. injection El as -> ->. inversion_clear Hg. by left.
  - destruct S as (l0 & p & El & Hg & Hi & He). pose proof (wk_list _ _ W) as Hw. rewrite E in El, Hw.
    destruct l0 as [|q l0]; injection El as -> ->; [|inversion_clear Hg; by left].
    right. inversion_clear Hw as [|? ? [_ _ ?]]. split; [done|lia].
Qed.

Lemma set_current_wf e o c k : client_wf c /\ budget c k -> client_wf (set_current e o c) /\ budget (set_current e o c) k.
Proof.
  intros [[W S] B]. split; [|done]. split; [by destruct W; constructor|].
  destruct S as [S|[(l & p & ? & ? & ? & M & ?)|S]]; [by left| |by right; right]. right; left. exists l, p. split_and!; try done.
  destruct M. by constructor.
Qed.

Lemma fatal_error c : isClientReadErrorFatal c = negb (read_error c =? 0) &&
  negb (read_error c =? CLIENT_READ_COMMAND_NOT_FOUND) && negb (read_error c =? CLIENT_READ_BAD_ARITY) &&
  negb (read_error c =? CLIENT_READ_CROSS_SLOT).
Proof. done. Qed.

(** A command leaves the list. *)
Lemma popped_ok queued c cur l k :
  client_wf c -> budget c k -> pending_cmds c = cur :: l -> good cur ->
  ensures (resetClientInternal queued c) (fun c' => (client_wf c' /\ budget c' (k - 1)) /\ link_state c' = link_state c).
Proof.
  intros [W S] B E G. eapply ensures_mono; [by eapply resetClientInternal_ok|]. intros c' (W' & P' & E' & L'). split; [|done].
  destruct (pop_shape _ _ _ _ S E G P' E') as (S' & St & Hr). split; [by split|].
  assert (unread_len c' = unread_len c) as Hu by (unfold unread_len; injection P' as -> -> _ _ _ _; done).
  unfold budget in *. rewrite Hu, Hr. destruct B as [B|[Hs B]]; [left; lia|right; split; [by apply St|lia]].
Qed.
End parser.

Section loops.
Context {X : Type} `{HX : Server X} `{!ServerLaws X}.
Context (lookahead max max_querybuf : Z) (Hmax : 0 <= max <= INT64_MAX - 2).

Lemma stopped_loop fuel la c x : stopped x = true -> process_loop max fuel la c x = Some (true, c, x).
Proof. intros Hs. destruct fuel; cbn [process_loop]; rewrite Hs; by destruct (negb _). Qed.

(** A client that is not a master. *)
Definition served (c : client) : Prop := client_wf max c /\ is_master c = false.

Lemma commandProcessed_ok queued x c cur l k :
  served c -> budget c k -> pending_cmds c = cur :: l -> good cur ->
  ensures (commandProcessed queued x c) (fun c' => served c' /\ budget c' (k - 1)).
Proof.
  intros [Hw Hma] B E G. unfold commandProcessed. eapply ensures_bind; [by eapply popped_ok|].
  intros c' [[Hw' B'] L']. apply link_master in L'. rewrite Hma in L'. rewrite L'. cbn [andb mbind option_bind]. by rewrite L'.
Qed.

Lemma process_loop_ok fuel la c x k :
  served c -> budget c k -> k <= Z.of_nat fuel ->
  ensures (process_loop max fuel la c x) (fun '(ok, c', x') => ok = true -> served c').
Proof.
  revert c x k. induction fuel as [|fuel IH]; intros c x k Hw B Hk; cbn [process_loop];
    (destruct (negb ((qb_pos c <? msize (querybuf c)) || (ready_len c >? 0))) eqn:Eg; [by intros _|]);
    (destruct (stopped x) eqn:Es; [by intros _|]).
  { apply negb_false_iff, orb_true_iff in Eg. pose proof (working_sums _ _ (proj1 (proj1 Hw))) as (_ & Hu & _).
    destruct B as [B|[(l & p & El & Hg & Hi & _) B]].
    - assert (0 <= ready_len c) by (unfold ready_len; lia). lia.
    - rewrite (stuck_ready _ _ _ El Hg Hi) in B. lia. }
  eapply (ensures_bind _ _ (fun c1 => (client_wf max c1 /\ budget c1 k) /\ is_master c1 = false)).
  { destruct Hw as [Hw Hma]. destruct (Z.eqb_spec (ready_len c) 0) as [E0|]; [|done].
    apply (ensures_mono _ (fun c1 => (client_wf max c1 /\ budget c1 k) /\ link_state c1 = link_state c));
      [|intros c1 [H1 L1]; split; [exact H1|by rewrite (link_master _ _ L1)]].
    apply parse_loop_ok; [done|done|done| | |].
    - destruct Hw as [_ [?|[?|(l & p & El & Hg & Hi & _)]]]; [by left|by right|]. rewrite (stuck_ready _ _ _ El Hg Hi) in E0. lia.
    - pose proof (wk_pos _ _ (proj1 Hw)). unfold unread_len, msize in *. lia.
    - destruct B as [B|[(l & p & El & Hg & Hi & _) B]]; [done|]. rewrite (stuck_ready _ _ _ El Hg Hi) in E0. lia. }
  clear Eg. intros c1 [H1 Hma]. destruct (Z.eqb_spec (ready_len c1) 0) as [|Hr]; [intros _; split; [apply H1|done]|].
  destruct (pending_cmds c1) as [|cur l] eqn:El; [unfold ready_len in Hr; by rewrite El in Hr|].
  assert (good cur \/ (incomplete cur = false /\ 0 < pcmd_error cur <= CLIENT_READ_REACHED_MAX_QUERYBUF)) as Hc by (eapply good_head; [done|apply H1|done..]).
  destruct (set_current_wf max Hmax (pcmd_error cur) (pcmd_reploff cur) _ _ H1) as [Hw2 B2].
  set (c2 := set_current _ _ c1) in *. assert (pending_cmds c2 = cur :: l) as E2 by done. cbv zeta.
  assert (served c2) as Hs2 by by split. assert (read_error c2 = pcmd_error cur) as Er by done. clearbody c2. rewrite fatal_error, Er.
  destruct Hc as [G|[_ Hc]].
  2: { unfold CLIENT_READ_REACHED_MAX_QUERYBUF, CLIENT_READ_COMMAND_NOT_FOUND, CLIENT_READ_BAD_ARITY, CLIENT_READ_CROSS_SLOT in *.
    rewrite (proj2 (Z.eqb_neq _ 0)), (proj2 (Z.eqb_neq _ 14)), (proj2 (Z.eqb_neq _ 15)), (proj2 (Z.eqb_neq _ 16)) by lia. by intros _. }
  pose proof G as [_ ->]. cbn [Z.eqb negb andb].
  destruct (argc cur =? 0).
  { eapply ensures_bind; [by eapply popped_ok|]. intros c3 [[Hw3 B3] L3]. eapply IH; [split; [done|]|done|lia].
    rewrite (link_master _ _ L3). apply Hs2. }
  destruct (processCommand x (argv cur)) as [o x'] eqn:Ep. destruct o.
  - eapply ensures_bind; [by eapply commandProcessed_ok|]. intros c3 [Hw3 B3]. eapply IH; [done..|lia].
  - eapply ensures_bind; [by eapply commandProcessed_ok|]. intros c3 [Hw3 B3]. eapply IH; [done..|lia].
  - rewrite stopped_loop by (by eapply stays_stopped). by intros _.
  - done.
Qed.

Lemma buffer_wf qb pos c :
  client_wf max c -> 0 <= pos <= msize qb -> msize qb <= INT_MAX -> all_argv_len_sum c + (msize qb - pos) < 2 ^ 63 ->
  (forall b, starts_with b c -> starts_with b (set_querybuf qb pos c)) -> client_wf max (set_querybuf qb pos c).
Proof.
  intros [W S] Hp Hs Hb Hst. split.
  - destruct W. by constructor.
  - destruct S as [(Hg & Hm & Ht)|[(l & p & ? & ? & ? & M & ?)|S]]; [left| |by right; right].
    + split; [done|split; [done|]]. destruct Ht as [?|[?|[? Ht]]]; [by left|by right; left|right; right]. split; [done|]. by apply Hst.
    + right; left. exists l, p. split_and!; try done. destruct M. by constructor.
Qed.

Lemma trim_querybuf_ok c : served c -> ensures (trim_querybuf c) served.
Proof.
  intros [Hw Hma]. pose proof (proj1 Hw) as W. pose proof (wk_pos _ _ W). pose proof (wk_bound _ _ W). pose proof (wk_size _ _ W).
  unfold trim_querybuf. rewrite Hma. destruct (Z.eqb_spec (qb_pos c) 0); [done|]. cbn [negb].
  rewrite sdsrange_drop by (done || by eapply working_size). cbn [mbind option_bind ensures].
  destruct (working_unread _ _ W) as [_ Hu]. pose proof (msize_nonneg (drop (Z.to_nat (qb_pos c)) (querybuf c))).
  split; [|done]. apply buffer_wf; [done|lia|unfold unread_len in *; lia|lia|]. intros b Hb. unfold starts_with in *.
  etrans; [apply (lookup_drop (querybuf c))|]. by rewrite Nat.add_0_r.
Qed.

Lemma processInputBuffer_ok c x :
  served c -> ensures (processInputBuffer lookahead max c x) (fun '(ok, c', x') => ok = true -> served c').
Proof.
  intros Hw. unfold processInputBuffer. pose proof (wk_pos _ _ (proj1 (proj1 Hw))).
  assert (0 <= ready_len c <= Z.of_nat (length (pending_cmds c))) as Hr
    by (unfold ready_len; pose proof (List.filter_length_le is_ready (pending_cmds c)); lia).
  eapply ensures_bind.
  { eapply (process_loop_ok _ _ _ _ (2 * unread_len c + ready_len c + 1)); [done|by left|]. unfold unread_len, msize in *. lia. }
  intros [[[] c1] x1] H1; cbn [negb]; [|done].
  eapply ensures_bind; [by apply trim_querybuf_ok, H1|]. by intros c2 H2 _.
Qed.

Lemma readQueryFromClient_ok bs c x :
  served c -> msize (querybuf c) + msize bs <= INT_MAX -> all_argv_len_sum c + unread_len c + msize bs < 2 ^ 63 ->
  ensures (readQueryFromClient lookahead max max_querybuf bs c x) (fun '(ok, c', x') => ok = true -> served c').
Proof.
  intros [Hw Hma] Hs Hb. unfold readQueryFromClient. set (c1 := set_current 0 (reploff_next c) c).
  assert (client_wf max c1) as Hw1.
  { by destruct (set_current_wf max Hmax 0 (reploff_next c) c (2 * unread_len c + ready_len c + 1)); [split; [|left]|]. }
  pose proof (wk_pos _ _ (proj1 Hw)) as Hp. pose proof (msize_nonneg bs).
  assert (client_wf max (set_querybuf (querybuf c1 ++ bs) (qb_pos c1) c1)) as Hw2.
  { unfold unread_len in *. apply buffer_wf; [done|rewrite msize_app; cbn [c1 set_current qb_pos querybuf all_argv_len_sum]; lia..|].
    intros b Hst. unfold starts_with in *. cbn. by apply lookup_app_l_Some. }
  cbv zeta. assert (is_master (set_querybuf (querybuf c1 ++ bs) (qb_pos c1) c1) = false) as Hma2 by done.
  set (c2 := set_querybuf _ _ c1) in *. clearbody c2. rewrite Hma2. cbv iota. rewrite Hma2. cbn [negb andb].
  eapply (ensures_bind _ _ (fun '(ok, c', x') => ok = true -> served c'));
    [|intros [[ok c3] x3] H3; destruct (ok && _); exact H3].
  destruct (_ || _); [|by apply processInputBuffer_ok].
  cbn [ensures]. intros _. split; [|done].
  by destruct (set_current_wf max Hmax CLIENT_READ_REACHED_MAX_QUERYBUF (reploff_next c2) c2 (2 * unread_len c2 + ready_len c2 + 1));
    [split; [|left]|].
Qed.

(** C15: whatever bytes a client sends, in whatever pieces, reading them comes to an end,
    stays inside the query buffer and the arrays of arguments, and breaks no assertion; the
    client is left in one of three shapes -- between two commands, in the middle of one, or
    with an error noted behind the commands that are still to be run -- with the memory of
    its arguments accounted for to the byte.  Bounds: the bytes in the buffer and those that
    arrive are together at most [INT_MAX] (2 GB), and with the lengths of the arguments that
    wait fewer than 2^63. *)
Theorem readQueryFromClient_safe bs c x :
  served c -> msize (querybuf c) + msize bs <= INT_MAX -> all_argv_len_sum c + unread_len c + msize bs < 2 ^ 63 ->
  exists ok c' x', readQueryFromClient lookahead max max_querybuf bs c x = Some (ok, c', x') /\ (ok = true -> served c').
Proof.
  intros Hw Hs Hb. destruct (ensures_Some _ _ (readQueryFromClient_ok bs c x Hw Hs Hb)) as ([[ok c'] x'] & E & H). eauto.
Qed.
End loops.

(** ** Errors in a request that arrives in pieces *)

(** A part of a request has arrived before; the line that is to give the length of the next
    argument is there, and does not start with a dollar. *)
Definition misframed (c : client) : Prop :=
  exists p b n, pending_cmds c = [p] /\ incomplete p = true /\ reqtype c = PROTO_REQ_MULTIBULK /\ 0 < multibulklen c /\
    bulklen c = -1 /\ starts_with b c /\ b <> 36 /\
    memchr (drop (Z.to_nat (qb_pos c)) (querybuf c)) CR = Some n /\ n <= unread_len c - 2.

Lemma memchr_app s t x n : memchr s x = Some n -> memchr (s ++ t) x = Some n.
Proof.
  revert n. induction s as [|y s IH]; intros n; cbn; [done|]. destruct (y =? x); [done|].
  intros (j & Hj & <-)%bind_Some. by rewrite (IH _ Hj).
Qed.

(** The parser notes the error in the command, which stays incomplete. *)
Lemma misframed_parse auth max fuel la c p :
  sound c -> misframed c -> pending_cmds c = [p] -> 0 < la ->
  parse_loop auth max (S fuel) la c = Some (set_pending [set_error CLIENT_READ_EXPECTED_DOLLAR p] c).
Proof.
  intros W (p0 & b & n & E & Hi & Ht & Hm & Hb & Hst & Hne & Hn & Hle) E' Hla. rewrite E in E'. injection E' as ->.
  cbn [parse_loop]. assert (ready_len c = 0) as Hr by (unfold ready_len; rewrite E; cbn; unfold is_ready; by rewrite Hi).
  pose proof (wk_pos _ _ W) as Hp.
  assert (qb_pos c < msize (querybuf c)) as Hlt by (apply lookup_lt_Some in Hst; unfold msize; lia).
  rewrite Hr, (proj2 (Z.ltb_lt 0 la)), (proj2 (Z.ltb_lt (qb_pos c) _)) by done. cbn [andb].
  rewrite Ht. change (PROTO_REQ_MULTIBULK =? 0) with false. cbv iota. cbn [mbind option_bind]. rewrite Ht.
  change (PROTO_REQ_MULTIBULK =? PROTO_REQ_INLINE) with false. cbv iota. rewrite Z.eqb_refl. cbn [cassert]. cbn [mbind option_bind].
  assert (current_pcmd c = Some (p, set_pending [] c)) as ->.
  { unfold current_pcmd. rewrite Hr. unfold pending_len, popPendingCommandFromTail. by rewrite E. }
  cbn [mbind option_bind]. unfold processMultibulkBuffer. cbn [multibulklen set_pending].
  rewrite (proj2 (Z.eqb_neq (multibulklen c) 0)) by lia. cbn [mbind option_bind multibulklen set_pending].
  rewrite (proj2 (Z.gtb_lt (multibulklen c) 0)) by done. cbn [cassert]. cbn [mbind option_bind].
  destruct (Z.to_nat (multibulklen c)) as [|f] eqn:Ef; [lia|]. cbn [bulk_loop multibulklen set_pending].
  rewrite (proj2 (Z.eqb_neq (multibulklen c) 0)) by lia. unfold read_bulklen. cbn [bulklen set_pending]. rewrite Hb.
  change (-1 =? -1) with true. cbv iota. destruct (working_unread _ _ W) as [Hu Hl].
  change (unread (set_pending [] c)) with (unread c). rewrite Hu. cbn [mbind option_bind]. rewrite Hn.
  change (unread_len (set_pending [] c)) with (unread_len c). pose proof (memchr_Some _ _ _ Hn) as [Hn0 _].
  rewrite (line_inside c initPendingCommand n W) by lia. destruct (Z.gtb_spec n (unread_len c - 2)); [lia|].
  assert (rd (drop (Z.to_nat (qb_pos c)) (querybuf c)) 0 = Some b) as -> by (unfold rd; cbn; by rewrite lookup_drop, Nat.add_0_r).
  cbn [mbind option_bind]. rewrite (proj2 (Z.eqb_neq b 36)) by done. reflexivity.
Qed.

Lemma starts_with_drop b c : starts_with b c <-> head (drop (Z.to_nat (qb_pos c)) (querybuf c)) = Some b.
Proof. unfold starts_with. rewrite head_lookup. rewrite (lookup_drop (querybuf c)), Nat.add_0_r. done. Qed.

Lemma misframed_buffer c qb pos t :
  misframed c -> drop (Z.to_nat pos) qb = drop (Z.to_nat (qb_pos c)) (querybuf c) ++ t -> msize qb - pos = unread_len c + msize t ->
  misframed (set_querybuf qb pos c).
Proof.
  intros (p & b & n & E & Hi & Ht & Hm & Hb & Hst & Hne & Hn & Hle) Ed Hs. exists p, b, n. pose proof (msize_nonneg t).
  split_and!; try done.
  - apply starts_with_drop. apply starts_with_drop in Hst. cbn [querybuf qb_pos set_querybuf]. rewrite Ed.
    by destruct (drop _ (querybuf c)).
  - cbn [querybuf qb_pos set_querybuf]. rewrite Ed. by apply memchr_app.
  - unfold unread_len in *. cbn [querybuf qb_pos set_querybuf]. lia.
Qed.

Lemma misframed_pending c e p : misframed c -> pending_cmds c = [p] -> misframed (set_pending [set_error e p] c).
Proof.
  intros (p0 & b & n & E & Hi & Ht & Hm & Hb & Hst & Hne & Hn & Hle) E'. rewrite E in E'. injection E' as ->.
  exists (set_error e p), b, n. by split_and!.
Qed.

Section misframed.
Context {X : Type} `{HX : Server X} `{!ServerLaws X}.
Context (lookahead max max_querybuf : Z) (Hmax : 0 <= max <= INT64_MAX - 2).

Lemma misframed_process c x :
  sound c -> is_master c = false -> misframed c -> 0 < lookahead -> stopped x = false ->
  exists c', processInputBuffer lookahead max c x = Some (true, c', x) /\ read_error c' = read_error c /\ misframed c' /\
    unread_len c' = unread_len c.
Proof.
  intros W Hma M Hla Hs. pose proof (wk_pos _ _ W) as Hp. pose proof M as (p & b & n & E & Hi & _ & _ & _ & Hst & _).
  assert (ready_len c = 0) as Hr by (unfold ready_len; rewrite E; cbn; unfold is_ready; by rewrite Hi).
  assert (qb_pos c < msize (querybuf c)) as Hlt by (apply lookup_lt_Some in Hst; unfold msize; lia).
  unfold processInputBuffer. set (la := if authRequired x then 1 else lookahead).
  assert (0 < la) as Hla' by (subst la; destruct (authRequired x); lia). clearbody la.
  rewrite (Nat.add_comm _ 3). cbn [Nat.add process_loop].
  rewrite (proj2 (Z.ltb_lt (qb_pos c) _)) by done. cbn [orb negb]. rewrite Hs, Hr.
  change (0 =? 0) with true. cbv iota. rewrite (misframed_parse _ _ _ _ _ p) by done. cbn [mbind option_bind].
  set (c1 := set_pending _ c). assert (ready_len c1 = 0) as -> by (unfold ready_len; cbn; unfold is_ready; cbn; by rewrite Hi).
  change (0 =? 0) with true. cbv iota. cbn [mbind option_bind negb]. assert (misframed c1) as M1 by by apply misframed_pending.
  unfold trim_querybuf. change (is_master c1) with (is_master c). rewrite Hma. destruct (Z.eqb_spec (qb_pos c1) 0); cbn [negb mbind option_bind]; [by exists c1|].
  change (qb_pos c1) with (qb_pos c). change (querybuf c1) with (querybuf c).
  rewrite sdsrange_drop by (done || by eapply working_size). cbn [mbind option_bind].
  destruct (working_unread _ _ W) as [_ Hu]. eexists. split; [done|]. split; [done|].
  split; [eapply (misframed_buffer c1 _ _ []); [done|by rewrite app_nil_r|rewrite Hu, msize_nil, Z.sub_0_r, Z.add_0_r; done]|].
  unfold unread_len at 1. cbn [querybuf qb_pos set_querybuf]. by rewrite Hu, Z.sub_0_r.
Qed.

(** C18: a protocol error in a request that arrives in pieces is never reported.  When a
    part of a request has been read and the line that is to start the next argument does
    not start with a dollar, the parser notes the error in a command that is still marked
    incomplete, and the loop does not look at an incomplete command: the connection stays
    open, no error is set, and nothing that follows is run, whatever it is. *)
Theorem split_request_error_unreported bs c x :
  served max c -> misframed c -> 0 < lookahead -> stopped x = false ->
  msize (querybuf c) + msize bs <= INT_MAX -> all_argv_len_sum c + unread_len c + msize bs < 2 ^ 63 ->
  authRequired x = false -> 0 <= multi_argv_len_sums x -> multi_argv_len_sums x + msize (querybuf c) + msize bs <= max_querybuf < 2 ^ 64 ->
  exists c', readQueryFromClient lookahead max max_querybuf bs c x = Some (true, c', x) /\ read_error c' = 0 /\
    misframed c' /\ unread_len c' = unread_len c + msize bs.
Proof.
  intros [Hw Hma] M Hla Hs Hsz Hb Ha Hmu Hlim. unfold readQueryFromClient. set (c1 := set_current 0 (reploff_next c) c).
  assert (client_wf max c1) as Hw1.
  { by destruct (set_current_wf max Hmax 0 (reploff_next c) c (2 * unread_len c + ready_len c + 1)); [split; [|left]|]. }
  pose proof (wk_pos _ _ (proj1 Hw)) as Hp. pose proof (msize_nonneg bs). pose proof (msize_nonneg (querybuf c)).
  assert (client_wf max (set_querybuf (querybuf c1 ++ bs) (qb_pos c1) c1)) as Hw2.
  { unfold unread_len in *. apply buffer_wf; [done|done|rewrite msize_app; cbn [c1 set_current qb_pos querybuf all_argv_len_sum]; lia..|].
    intros b Hst. unfold starts_with in *. cbn. by apply lookup_app_l_Some. }
  assert (misframed (set_querybuf (querybuf c1 ++ bs) (qb_pos c1) c1)) as M2.
  { apply (misframed_buffer c1 _ _ bs).
    - destruct M as (p & b & n & M). by exists p, b, n.
    - cbn. rewrite drop_app_le; [done|]. unfold msize in *. lia.
    - rewrite msize_app. unfold unread_len. cbn. lia. }
  cbv zeta. assert (unread_len (set_querybuf (querybuf c1 ++ bs) (qb_pos c1) c1) = unread_len c + msize bs) as Hu2
    by (unfold unread_len; cbn [querybuf qb_pos set_querybuf c1 set_current]; rewrite msize_app; lia).
  assert (msize (querybuf (set_querybuf (querybuf c1 ++ bs) (qb_pos c1) c1)) = msize (querybuf c) + msize bs) as Hs2
    by (cbn [querybuf set_querybuf c1 set_current]; by rewrite msize_app).
  assert (read_error (set_querybuf (querybuf c1 ++ bs) (qb_pos c1) c1) = 0) as He2 by done.
  assert (is_master (set_querybuf (querybuf c1 ++ bs) (qb_pos c1) c1) = false) as Hma2 by done.
  set (c2 := set_querybuf _ _ c1) in *. clearbody c2. rewrite Hma2. cbv iota. rewrite Hma2, Hs2, Ha, andb_false_r, orb_false_r. cbn [negb andb].
  replace (u64 (multi_argv_len_sums x + (msize (querybuf c) + msize bs))) with (multi_argv_len_sums x + (msize (querybuf c) + msize bs))
    by (symmetry; apply wrapu_small; unfold in_u; lia).
  destruct (Z.gtb_spec (multi_argv_len_sums x + (msize (querybuf c) + msize bs)) max_querybuf); [lia|].
  destruct (misframed_process c2 x (proj1 Hw2) Hma2 M2 Hla Hs) as (c3 & -> & E3 & M3 & U3). cbn [mbind option_bind].
  rewrite fatal_error, E3, He2. cbn [Z.eqb negb andb]. exists c3. split; [done|]. split; [by rewrite E3|]. split; [done|]. lia.
Qed.
End misframed.

(** ** At a concrete client *)

(** A server that keeps a journal of the commands it runs. *)
Definition journal : Type := list (list mem).

#[export] Instance journal_server : Server journal := {
  authRequired _ := false;
  stopped _ := false;
  in_multi _ := false;
  multi_argv_len_sums _ := 0;
  processCommand x args := (o_done, x ++ [args]);
  handleClientReadError _ x := x
}.

#[export] Instance journal_laws : ServerLaws journal.
Proof. constructor. intros x args x' [=]. Qed.

Lemma createClient_wf max pool capacity :
  Forall (fun n => 0 <= n <= INT_MAX) pool -> client_wf max (createClient pool capacity).
Proof.
  intros Hp. split; [|left].
  - constructor; cbn; try done; unfold unread_len, INT_MAX; cbn; lia.
  - split_and!; [by constructor|done|by left].
Qed.

(** A client that has sent the number of arguments and the first of them. *)
Definition halfway : client :=
  mk_client [120; 13; 10] 0 PROTO_REQ_MULTIBULK 1 (-1) [mk_pcmd [[80]] 2 1 8 0 true 0] 1 0 false 0 0 0 0 [] [] 16.

Lemma halfway_wf : client_wf 512 halfway.
Proof.
  split.
  - constructor; cbn; try done; unfold unread_len, INT_MAX; cbn; try lia.
    constructor; [|done]. constructor; unfold argc, INT_MAX, CLIENT_READ_REACHED_MAX_QUERYBUF; cbn; (done || lia).
  - right; left. eexists [], _. split_and!; [done|by constructor|done| |done].
    constructor; unfold argc, INT_MAX; cbn; lia.
Qed.

Lemma halfway_misframed : misframed halfway.
Proof. eexists _, 120, 1. split_and!; try done; unfold unread_len; cbn; lia. Qed.

Lemma readQueryFromClient_safe_witness :
  exists ok c' x', readQueryFromClient 16 512 1048576 [42; 49; 13; 10; 36; 45; 49; 13] (createClient [] 16) ([] : journal) = Some (ok, c', x') /\
    (ok = true -> served 512 c').
Proof.
  apply (readQueryFromClient_safe 16 512 1048576 ltac:(unfold INT64_MAX; lia) [42; 49; 13; 10; 36; 45; 49; 13] (createClient [] 16) []).
  - split; [|done]. apply createClient_wf. constructor.
  - by vm_compute.
  - reflexivity.
Defined.

Lemma split_request_error_unreported_witness :
  exists c', readQueryFromClient 16 512 1048576 [42; 49; 13; 10] halfway ([] : journal) = Some (true, c', []) /\ read_error c' = 0 /\
    misframed c' /\ unread_len c' = unread_len halfway + 4.
Proof.
  apply (split_request_error_unreported 16 512 1048576 ltac:(unfold INT64_MAX; lia) [42; 49; 13; 10] halfway ([] : journal)).
  - split; [exact halfway_wf|done].
  - exact halfway_misframed.
  - lia.
  - reflexivity.
  - by vm_compute.
  - reflexivity.
  - reflexivity.
  - cbn. lia.
  - split; [by vm_compute|done].
Defined.

End RequestSafety.
