(* ===== verification/RequestStream.v ===== *)
(** The commands that the writer of the append-only file puts in a stream are read back:
    cut in whatever pieces, they are run, each once and in their order.  A [Link] is what a
    kind of client keeps invariant while it reads. *)
From S2P Require Import Prelude Util Sds Request RequestSafety.
From stdpp Require Import options.
#[local] Set Default Proof Using "Type*".

Module RequestStream.
Import Util Sds Request RequestSafety.

(** ** What is written *)

Definition header (mark n : Z) : mem := default [] (number_line mark n).
Definition bulk (a : mem) : mem := header 36 (msize a) ++ a ++ [CR; LF].
Definition bulks (args : list mem) : mem := concat (bulk <$> args).
Definition written (args : list mem) : mem := header 42 (Z.of_nat (length args)) ++ bulks args.
Definition stream (cmds : list (list mem)) : mem := concat (written <$> cmds).

Lemma bulks_cons a args : bulks (a :: args) = bulk a ++ bulks args.
Proof. done. Qed.

Lemma stream_cons args cmds : stream (args :: cmds) = written args ++ stream cmds.
Proof. done. Qed.

(** The digits of a number, as a line of the protocol has them. *)
Record numeral (n : Z) (s : mem) : Prop := {
  nm_value : string2ll s = Some n;
  nm_cr : CR ∉ s;
  nm_nul : 0 ∉ s;
  nm_size : 1 <= msize s <= 20
}.

Lemma decimal_digits v s : is_decimal v s -> Forall digit s.
Proof. intros [_ ->]. apply digits_n_digit. Qed.

Lemma is_integer_numeral n s : in_s 64 n -> is_integer n s -> numeral n s.
Proof.
  intros Hn Hi. pose proof (is_integer_length _ _ Hn Hi) as Hl.
  assert (forall b, b ∈ s -> b = minus \/ digit b) as Hd.
  { intros b Hb. unfold is_integer in Hi. destruct (n <? 0).
    - destruct Hi as (q & -> & Hq%decimal_digits). apply elem_of_cons in Hb as [->|Hb]; [by left|right].
      by eapply Forall_forall in Hb.
    - right. apply decimal_digits in Hi. by eapply Forall_forall in Hb. }
  constructor.
  - by apply string2ll_spec.
  - intros [H|H]%Hd; unfold CR, minus, digit, zero, nine in *; lia.
  - intros [H|H]%Hd; unfold minus, digit, zero, nine in *; lia.
  - unfold msize. lia.
Qed.

Lemma header_spec mark n : in_s 64 n -> exists s, number_line mark n = Some (mark :: s ++ [CR; LF]) /\
  header mark n = mark :: s ++ [CR; LF] /\ numeral n s.
Proof.
  intros Hn. destruct (ll2string_spec (replicate 31 0) n Hn) as (s & rest & E & _ & Hi); [done|].
  assert (number_line mark n = Some (mark :: s ++ [CR; LF])) as E'
    by (unfold number_line; rewrite E; cbn [mbind option_bind]; by rewrite Nat2Z.id, take_app_length).
  exists s. split; [done|]. split; [unfold header; by rewrite E'|by apply is_integer_numeral].
Qed.

Lemma msize_in_s (s : mem) : msize s <= INT_MAX -> in_s 64 (msize s).
Proof. pose proof (msize_nonneg s). unfold in_s, INT_MAX. lia. Qed.

Lemma cat_args_spec dst args : Forall (fun a => msize a <= INT_MAX) args -> cat_args dst args = Some (dst ++ bulks args).
Proof.
  intros H. revert dst. induction H as [|a args Ha _ IH]; intros dst; cbn [cat_args]; [by unfold bulks; cbn; rewrite app_nil_r|].
  destruct (header_spec 36 (msize a) (msize_in_s a Ha)) as (s & E & Eh & _). rewrite E. cbn [mbind option_bind].
  rewrite IH, bulks_cons. unfold bulk. by rewrite Eh, <- app_assoc.
Qed.

Lemma written_spec dst args :
  Forall (fun a => msize a <= INT_MAX) args -> Z.of_nat (length args) <= INT_MAX ->
  catAppendOnlyGenericCommand dst args = Some (dst ++ written args).
Proof.
  intros Ha Hl. unfold catAppendOnlyGenericCommand, written.
  destruct (header_spec 42 (Z.of_nat (length args))) as (s & E & Eh & _); [unfold in_s, INT_MAX in *; lia|].
  rewrite E. cbn [mbind option_bind]. rewrite cat_args_spec by done. by rewrite Eh, app_assoc.
Qed.

(** The commands, one after the other, as [feedAppendOnlyFile] adds them to its buffer. *)
Fixpoint write_all (dst : mem) (cmds : list (list mem)) : option mem :=
  match cmds with
  | [] => Some dst
  | args :: cmds => dst ← catAppendOnlyGenericCommand dst args; write_all dst cmds
  end.

(** A command that can be written and is not rejected. *)
Record runs (max : Z) (args : list mem) : Prop := {
  rn_some : args <> [];
  rn_count : Z.of_nat (length args) <= INT_MAX;
  rn_size : Forall (fun a => msize a <= max) args
}.

Lemma write_all_spec max dst cmds : max <= INT_MAX -> Forall (runs max) cmds -> write_all dst cmds = Some (dst ++ stream cmds).
Proof.
  intros Hm H. revert dst. induction H as [|args cmds [_ Hc Hs] _ IH]; intros dst; cbn [write_all]; [by unfold stream; cbn; rewrite app_nil_r|].
  rewrite written_spec; [|eapply Forall_impl; [done|]; cbn; lia|done].
  cbn [mbind option_bind]. by rewrite IH, stream_cons, app_assoc.
Qed.

(** ** A part of a line *)

Lemma memchr_absent s x : x ∉ s -> memchr s x = None.
Proof.
  induction s as [|y s IH]; [done|]. intros [H1 H2]%not_elem_of_cons. cbn. rewrite (proj2 (Z.eqb_neq y x)) by done.
  by rewrite (IH H2).
Qed.

Lemma memchr_present s x t : x ∉ s -> memchr (s ++ x :: t) x = Some (msize s).
Proof.
  induction s as [|y s IH]; [intros _; cbn; by rewrite Z.eqb_refl|]. intros [H1 H2]%not_elem_of_cons. cbn [app memchr].
  rewrite (proj2 (Z.eqb_neq y x)) by done. rewrite (IH H2). cbn [mbind option_bind]. rewrite msize_cons. f_equal. lia.
Qed.

Lemma c_string_app s t : 0 ∉ s -> c_string (s ++ t) = s ++ c_string t.
Proof.
  induction s as [|c s IH]; [done|]. intros [H1 H2]%not_elem_of_cons. cbn. rewrite (proj2 (Z.eqb_neq c 0)) by done.
  by rewrite IH.
Qed.

Lemma strchr_absent s x : 0 ∉ s -> x ∉ s -> strchr s x = None.
Proof. intros H0 Hx. unfold strchr. rewrite c_string_id by done. by apply memchr_absent. Qed.

Lemma strchr_present s x t : 0 ∉ s -> x ∉ s -> x <> 0 -> strchr (s ++ x :: t) x = Some (msize s).
Proof.
  intros H0 Hx Hn. unfold strchr. rewrite c_string_app by done. cbn [c_string]. rewrite (proj2 (Z.eqb_neq x 0)) by done.
  by apply memchr_present.
Qed.

(** What there is of a line [h], of which [u] has arrived. *)
Lemma line_cases u F h S :
  u ++ F = h ++ CR :: LF :: S ->
  (exists h', h = u ++ h' /\ F <> []) \/ (u = h ++ [CR] /\ F <> []) \/ exists u', u = h ++ CR :: LF :: u' /\ u' ++ F = S.
Proof.
  intros [(k & -> & Hk)|(k & Hk & ->)]%app_eq_inv.
  - destruct k as [|x [|y k]]; cbn in Hk.
    + left. exists []. rewrite !app_nil_r. split; [done|]. by subst F.
    + injection Hk as <- <-. right; left. done.
    + injection Hk as <- <- ->. right; right. by exists k.
  - left. exists k. split; [done|]. intros [= E%app_nil]. naive_solver.
Qed.

(** ** Reading in a stream *)

(** What of the buffer is not read. *)
Definition rest (c : client) : mem := drop (Z.to_nat (qb_pos c)) (querybuf c).

Lemma rest_forward c n : 0 <= qb_pos c -> 0 <= n ->
  rest (set_querybuf (querybuf c) (qb_pos c + n) c) = drop (Z.to_nat n) (rest c).
Proof. intros Hp Hn. unfold rest. cbn [querybuf qb_pos set_querybuf]. rewrite drop_drop. f_equal. lia. Qed.

Lemma drop_line mark s u' : drop (Z.to_nat (msize (mark :: s) + 2)) ((mark :: s) ++ CR :: LF :: u') = u'.
Proof.
  replace ((mark :: s) ++ CR :: LF :: u') with (((mark :: s) ++ [CR; LF]) ++ u') by by rewrite <- app_assoc.
  apply drop_app_length'. rewrite length_app. unfold msize. cbn [length]. lia.
Qed.

Lemma ensures_and {A} (o : option A) (P Q : A -> Prop) : ensures o P -> ensures o Q -> ensures o (fun a => P a /\ Q a).
Proof. by destruct o; cbn. Qed.

(** The line that starts a command or an argument. *)
Lemma header_line mark n u F S :
  in_s 64 n -> u ++ F = header mark n ++ S -> mark <> CR -> mark <> 0 ->
  exists s, numeral n s /\ CR ∉ mark :: s /\ 0 ∉ mark :: s /\
    ((exists h', mark :: s = u ++ h' /\ F <> []) \/ (u = (mark :: s) ++ [CR] /\ F <> []) \/
      exists u', u = (mark :: s) ++ CR :: LF :: u' /\ u' ++ F = S).
Proof.
  intros Hn E H1 H2. destruct (header_spec mark n Hn) as (s & _ & Eh & N). exists s. rewrite Eh in E.
  split_and!; [done|apply not_elem_of_cons; split; [done|apply N]|apply not_elem_of_cons; split; [done|apply N]|].
  apply line_cases. rewrite E. cbn [app]. by rewrite <- app_assoc.
Qed.

Lemma rest_unread c p : working c p -> unread c = Some (rest c) /\ msize (rest c) = unread_len c.
Proof. apply working_unread. Qed.

Lemma line_digits mark s t : memread ((mark :: s) ++ t) 1 (msize (mark :: s) - 1) = Some s.
Proof. apply (memread_app [mark] s t); rewrite ?msize_cons, ?msize_nil; lia. Qed.

Lemma reads_count c p n F S :
  working c p -> fresh p -> 0 < n <= INT_MAX -> rest c ++ F = header 42 n ++ S ->
  ensures (read_multibulklen false c p) (fun r => match r with
    | returns ok c' p' => ok = false /\ c' = c /\ p' = p /\ F <> []
    | leaves _ _ => False
    | goes_on c' p' => rest c' ++ F = S /\ multibulklen c' = n /\ bulklen c' = -1 /\ argv p' = [] /\ pcmd_error p' = 0
    end).
Proof.
  intros W (Fa & Fe & Fi) Hn E. destruct (rest_unread _ _ W) as [Hu Hl]. pose proof (wk_pos _ _ W) as Hp.
  destruct (header_line 42 n (rest c) F S) as (s & N & Hcr & Hnul & Hc); [unfold in_s, INT_MAX in *; lia|done..|].
  pose proof (nm_size _ _ N) as Hs. assert (msize (42 :: s) = msize s + 1) as Hs1 by (rewrite msize_cons; lia).
  unfold read_multibulklen, argc. rewrite Fa, Hu. change (cassert (Z.of_nat (length (@nil mem)) =? 0)) with (Some tt).
  cbn [mbind option_bind]. destruct Hc as [(h' & Eh & HF)|[(Eu & HF)|(u' & Eu & ES)]].
  - rewrite Eh in Hcr, Hnul. apply not_elem_of_app in Hcr as [Hcr _]. apply not_elem_of_app in Hnul as [Hnul _].
    rewrite strchr_absent, (u64_unread _ _ W) by done. rewrite <- Hl.
    assert (msize (rest c) <= 21) by (rewrite Eh, msize_app in Hs1; pose proof (msize_nonneg h'); lia).
    unfold PROTO_INLINE_MAX_SIZE. destruct (Z.gtb_spec (msize (rest c)) (1024 * 64)); [lia|done].
  - assert (strchr (rest c) CR = Some (msize (42 :: s))) as -> by (rewrite Eu; by apply strchr_present).
    assert (unread_len c = msize (42 :: s) + 1) as El by (rewrite <- Hl, Eu, msize_app; done).
    rewrite (line_inside c p) by (done || lia). rewrite El. destruct (Z.gtb_spec (msize (42 :: s)) (msize (42 :: s) + 1 - 2)); [done|lia].
  - assert (strchr (rest c) CR = Some (msize (42 :: s))) as -> by (rewrite Eu; by apply strchr_present).
    assert (unread_len c = msize (42 :: s) + 2 + msize u') as El by (rewrite <- Hl, Eu, msize_app, !msize_cons; lia).
    pose proof (msize_nonneg u'). rewrite (line_inside c p) by (done || lia). rewrite El.
    destruct (Z.gtb_spec (msize (42 :: s)) (msize (42 :: s) + 2 + msize u' - 2)); [lia|].
    assert (rd (rest c) 0 = Some 42) as -> by by rewrite Eu. change (cassert (42 =? 42)) with (Some tt). cbn [mbind option_bind].
    rewrite Eu, line_digits. cbn [mbind option_bind]. rewrite (nm_value _ _ N).
    destruct (Z.gtb_spec n INT_MAX); [lia|]. rewrite andb_false_r. rewrite (proj2 (Z.leb_gt n 0)) by lia. cbn [ensures].
    rewrite <- Z.add_assoc.
    assert (rest (set_querybuf (querybuf c) (qb_pos c + (msize (42 :: s) + 2)) c) = u') as Er
      by (rewrite rest_forward by lia; rewrite Eu; apply drop_line).
    split_and!; [|done|done|by destruct (_ >? _)|by destruct (_ >? _)].
    etrans; [|exact ES]. f_equal. exact Er.
Qed.

Section reads.
Context (max : Z) (Hmax : 0 <= max <= INT_MAX).

Lemma max_small : 0 <= max <= INT64_MAX - 2.
Proof. unfold INT64_MAX, INT_MAX in *. lia. Qed.

Lemma reads_length c p a F S :
  working c p -> bulklen c = -1 -> msize a <= max -> rest c ++ F = bulk a ++ S ->
  ensures (read_bulklen false max c p) (fun r => match r with
    | returns _ _ _ => False
    | leaves c' p' => c' = c /\ p' = p /\ F <> []
    | goes_on c' p' => rest c' ++ F = a ++ CR :: LF :: S /\ bulklen c' = msize a /\ multibulklen c' = multibulklen c /\
        argv p' = argv p /\ pcmd_error p' = pcmd_error p
    end).
Proof.
  intros W Hb Ha E. destruct (rest_unread _ _ W) as [Hu Hl]. pose proof (wk_pos _ _ W) as Hp.
  assert (rest c ++ F = header 36 (msize a) ++ a ++ CR :: LF :: S) as E'
    by (rewrite E; unfold bulk; by rewrite <- !app_assoc).
  destruct (header_line 36 (msize a) (rest c) F _ (msize_in_s a ltac:(lia)) E' ltac:(done) ltac:(done)) as (s & N & Hcr & _ & Hc).
  pose proof (nm_size _ _ N) as Hs. assert (msize (36 :: s) = msize s + 1) as Hs1 by (rewrite msize_cons; lia).
  unfold read_bulklen. rewrite Hb. change (-1 =? -1) with true. cbv iota. rewrite Hu. cbn [mbind option_bind].
  destruct Hc as [(h' & Eh & HF)|[(Eu & HF)|(u' & Eu & ES)]].
  - rewrite Eh in Hcr. apply not_elem_of_app in Hcr as [Hcr _]. rewrite memchr_absent, (u64_unread _ _ W) by done. rewrite <- Hl.
    assert (msize (rest c) <= 21) by (rewrite Eh, msize_app in Hs1; pose proof (msize_nonneg h'); lia).
    unfold PROTO_INLINE_MAX_SIZE. destruct (Z.gtb_spec (msize (rest c)) (1024 * 64)); [lia|done].
  - assert (memchr (rest c) CR = Some (msize (36 :: s))) as -> by (rewrite Eu; by apply memchr_present).
    assert (unread_len c = msize (36 :: s) + 1) as El by (rewrite <- Hl, Eu, msize_app; done).
    rewrite (line_inside c p) by (done || lia). rewrite El. destruct (Z.gtb_spec (msize (36 :: s)) (msize (36 :: s) + 1 - 2)); [done|lia].
  - assert (memchr (rest c) CR = Some (msize (36 :: s))) as -> by (rewrite Eu; by apply memchr_present).
    assert (unread_len c = msize (36 :: s) + 2 + msize u') as El by (rewrite <- Hl, Eu, msize_app, !msize_cons; lia).
    pose proof (msize_nonneg u'). rewrite (line_inside c p) by (done || lia). rewrite El.
    destruct (Z.gtb_spec (msize (36 :: s)) (msize (36 :: s) + 2 + msize u' - 2)); [lia|].
    assert (rd (rest c) 0 = Some 36) as -> by by rewrite Eu. cbn [mbind option_bind]. rewrite Z.eqb_refl. cbn [negb].
    rewrite Eu, line_digits. cbn [mbind option_bind]. rewrite (nm_value _ _ N).
    pose proof (msize_nonneg a). rewrite (proj2 (Z.ltb_ge (msize a) 0)) by done.
    destruct (Z.gtb_spec (msize a) max); [lia|]. rewrite !andb_false_r. cbn [orb].
    pose proof (working_forward c p (msize (36 :: s) + 2) W ltac:(lia)) as W1. rewrite Z.add_assoc in W1.
    assert (rest (set_querybuf (querybuf c) (qb_pos c + msize (36 :: s) + 2) c) = u') as Er
      by (rewrite <- Z.add_assoc, rest_forward by lia; rewrite Eu; apply drop_line).
    assert (multibulklen (set_querybuf (querybuf c) (qb_pos c + msize (36 :: s) + 2) c) = multibulklen c) as Em by done.
    set (c1 := set_querybuf _ _ c) in *. clearbody c1.
    eapply (ensures_bind _ _ (fun c2 => rest c2 = u' /\ multibulklen c2 = multibulklen c)).
    { destruct (negb (is_master c1) && _ && _); [|by cbn].
      rewrite sdsrange_drop by (apply W1 || by eapply working_size). cbn [mbind option_bind ensures]. by split. }
    intros c2 [Er2 Em2]. cbn [ensures]. split_and!; try done.
    change (rest c2 ++ F = a ++ CR :: LF :: S). by rewrite Er2.
Qed.

Lemma reads_arg c p a F S :
  working c p -> midway max c p -> bulklen c = msize a -> rest c ++ F = a ++ CR :: LF :: S ->
  ensures (read_bulk c p) (fun r => match r with
    | returns _ _ _ => False
    | leaves c' p' => c' = c /\ p' = p /\ F <> []
    | goes_on c' p' => rest c' ++ F = S /\ bulklen c' = -1 /\ multibulklen c' = multibulklen c - 1 /\
        argv p' = argv p ++ [a] /\ pcmd_error p' = pcmd_error p
    end).
Proof.
  intros W M Hb E. destruct (rest_unread _ _ W) as [Hu Hl]. pose proof (wk_pos _ _ W) as Hp. pose proof (mw_bulk _ _ _ M).
  pose proof (msize_nonneg a). unfold read_bulk. rewrite Hb. rewrite (proj2 (Z.leb_le _ _)) by (unfold INT64_MAX, INT_MAX in *; lia).
  cbn [cassert]. cbn [mbind option_bind]. rewrite (u64_unread _ _ W).
  replace (u64 (msize a + 2)) with (msize a + 2) by (symmetry; apply wrapu_small; unfold in_u, INT_MAX in *; lia).
  assert (msize (rest c) + msize F = msize a + 2 + msize S) as Es
    by (pose proof (f_equal msize E) as Ef; rewrite !msize_app, !msize_cons in Ef; lia).
  pose proof (msize_nonneg S).
  destruct (Z.ltb_spec (unread_len c) (msize a + 2)) as [Hlt|Hge].
  { cbn [ensures]. split_and!; try done. intros ->. rewrite msize_nil in Es. lia. }
  destruct (grow_argv_wf max max_small c p (wk_pcmd _ _ W) M) as (Gw & Ga & Gl & Gv & Gs & Ge & Gi).
  pose proof (working_pcmd c p _ W Gw Gs) as W1. set (p1 := grow_argv c p) in *. clearbody p1.
  pose proof (take_arg_ok c p1 (msize a) W1 ltac:(lia) ltac:(lia)) as T.
  replace (u64 (msize a + 2)) with (msize a + 2) in T by (symmetry; apply wrapu_small; unfold in_u, INT_MAX in *; lia).
  eapply ensures_bind; [exact T|]. intros [a' c1] (Sa & Ea & qb & pos & -> & Ed & Hpos & Hqb & Hun & _).
  assert (rest c = a ++ CR :: LF :: drop (Z.to_nat (msize a + 2)) (rest c) /\
    drop (Z.to_nat (msize a + 2)) (rest c) ++ F = S) as [Ec ES].
  { assert (Z.to_nat (msize a + 2) = length (a ++ [CR; LF])) as En by (rewrite length_app; unfold msize; cbn [length]; lia).
    assert (rest c ++ F = (a ++ [CR; LF]) ++ S) as E2 by (rewrite E; by rewrite <- app_assoc).
    rewrite En. apply app_eq_inv in E2 as [(k & -> & ->)|(k & Ek & ->)].
    - rewrite drop_app_length. split; [by rewrite <- app_assoc|done].
    - assert (k = []) as -> by (apply (f_equal msize) in Ek; rewrite !msize_app in Ek; cbn in Ek; apply msize_zero; rewrite msize_cons, msize_cons, msize_nil in Ek; pose proof (msize_nonneg k); lia).
      rewrite app_nil_r in Ek. rewrite <- Ek, drop_ge by lia. done. }
  assert (a' = a) as ->.
  { rewrite Ea. change (take (Z.to_nat (msize a)) (rest c) = a). rewrite Ec. apply take_app_length'. unfold msize. lia. }
  pose proof (working_sums _ _ W1). pose proof (wk_bound _ _ W1).
  eapply ensures_bind; [apply (push_arg_ok c); try done; [unfold argc in *; by rewrite Gv|lia]|].
  intros p2 (Pw & Pa & Pl & Ps & Pe & Pi). cbn [ensures]. rewrite Pa, Gv, Pe, Ge. split_and!; try done.
  change (drop (Z.to_nat pos) qb ++ F = S). rewrite Ed, <- ES. f_equal. unfold rest. rewrite drop_drop. f_equal. lia.
Qed.
(** The arguments a client waits for: the length of the first may have been read. *)
Definition awaits (c : client) (args : list mem) (F S : mem) : Prop :=
  multibulklen c = Z.of_nat (length args) /\
  ((bulklen c = -1 /\ rest c ++ F = bulks args ++ S) \/
   exists a args', args = a :: args' /\ bulklen c = msize a /\ rest c ++ F = a ++ CR :: LF :: bulks args' ++ S).

Lemma awaits_length c p a args F S :
  working c p -> midway max c p -> (bulklen c <> -1 -> incomplete p = true) -> msize a <= max -> awaits c (a :: args) F S ->
  ensures (read_bulklen false max c p) (fun r => match r with
    | returns _ _ _ => False
    | leaves c' p' => c' = c /\ p' = p /\ F <> []
    | goes_on c' p' => working c' p' /\ midway max c' p' /\ 0 <= bulklen c' /\ rest c' ++ F = a ++ CR :: LF :: bulks args ++ S /\
        bulklen c' = msize a /\ multibulklen c' = multibulklen c /\ argv p' = argv p /\ argv_len p' = argv_len p /\
        pcmd_error p' = pcmd_error p /\ parsed c c'
    end).
Proof.
  intros W M Hi Ha [Hm Hs]. pose proof (read_bulklen_ok false max max_small c p W M Hi) as Hok.
  assert (ensures (read_bulklen false max c p) (fun r => match r with
    | returns _ _ _ => False
    | leaves c' p' => c' = c /\ p' = p /\ F <> []
    | goes_on c' p' => rest c' ++ F = a ++ CR :: LF :: bulks args ++ S /\ bulklen c' = msize a /\ multibulklen c' = multibulklen c /\
        argv p' = argv p /\ pcmd_error p' = pcmd_error p
    end)) as Hre.
  { destruct Hs as [[Hb E]|(a' & args' & [= <- <-] & Hb & E)].
    - apply reads_length; try done. by rewrite E, bulks_cons, <- app_assoc.
    - pose proof (msize_nonneg a). unfold read_bulklen. rewrite (proj2 (Z.eqb_neq _ _)) by lia.
      rewrite Hi by lia. cbn. by split_and!. }
  eapply ensures_mono; [exact (ensures_and _ _ _ Hok Hre)|]. intros [|c' p'|c' p'] [H1 H2]; [done|done|].
  destruct H1 as (? & M' & ? & ? & _ & _ & ? & _ & _), H2 as (? & Eb & ? & ? & ?).
  split_and!; try done. apply M'. right. by rewrite Eb.
Qed.

Lemma reads_args fuel c p args F S :
  working c p -> awaits c args F S -> Forall (fun a => msize a <= max) args -> (length args <= fuel)%nat ->
  argc p + Z.of_nat (length args) <= INT_MAX -> 1 <= argv_len p -> (bulklen c <> -1 -> incomplete p = true) ->
  ensures (bulk_loop false max fuel c p) (fun r => match r with
    | leaves c' p' => reached max c c' p' /\ exists a1 a2, args = a1 ++ a2 /\ argv p' = argv p ++ a1 /\ awaits c' a2 F S /\
        pcmd_error p' = pcmd_error p /\ (a2 <> [] -> F <> [])
    | _ => False
    end).
Proof.
  revert c p args. induction fuel as [|fuel IH]; intros c p args W A Hs Hf Hc Hl Hi; cbn [bulk_loop];
    (destruct args as [|a args]; [pose proof (proj1 A) as Hm; rewrite Hm; cbn; split; [constructor; [done..|left; split; [done|rewrite Hm; cbn; lia]]|];
      exists [], []; split_and!; [done|by rewrite app_nil_r|done|done|by intros []]|]).
  { cbn in Hf. lia. }
  pose proof A as [Hm A']. rewrite Hm. rewrite (proj2 (Z.eqb_neq _ _)) by (cbn; lia).
  apply Forall_cons_1 in Hs as [Ha Hs]. pose proof (msize_nonneg a).
  assert (midway max c p) as M.
  { constructor; [rewrite Hm; cbn [length] in *; lia|done|].
    destruct A' as [[-> _]|(a' & args' & [= <- <-] & -> & _)]; lia. }
  eapply ensures_bind; [by apply (awaits_length c p a args F S)|]. intros [|c1 p1|c1 p1]; [done|..].
  - intros (-> & -> & HF). cbn. split; [constructor; [done..|by right]|]. exists [], (a :: args). rewrite app_nil_r. by split_and!.
  - intros (W1 & M1 & B1 & E1 & Eb1 & Em1 & Ea1 & El1 & Ee1 & P1).
    eapply ensures_bind; [apply ensures_and; [by eapply (read_bulk_ok max max_small)|by eapply (reads_arg c1 p1 a)]|].
    intros [|c2 p2|c2 p2] [H1 H2]; [done|..].
    + destruct H2 as (-> & -> & HF). cbn. split; [constructor; [done..|by right]|].
      exists [], (a :: args). rewrite app_nil_r. split_and!; try done. split; [by rewrite Em1|]. right. by exists a, args.
    + destruct H1 as (W2 & L2 & C2 & M2 & B2 & P2 & U2 & _), H2 as (E2 & _ & _ & Ea2 & Ee2).
      eapply ensures_mono; [apply (IH c2 p2 args); try done|].
      * split; [rewrite M2, Em1, Hm; cbn [length]; lia|]. by left.
      * cbn in Hf. lia.
      * rewrite C2. unfold argc in *. rewrite Ea1. cbn [length] in Hc. lia.
      * intros [|c3 p3|]; [done| |done]. intros (R & a1 & a2 & -> & Ea3 & A3 & Ee3 & HF).
        pose proof (pd_unread _ _ P1). split; [eapply (reached_step max max_small); [done|by etrans|right; lia]|]. exists (a :: a1), a2.
        split_and!; try done; [by rewrite Ea3, Ea2, Ea1, <- app_assoc|congruence].
Qed.
(** A command of which [pre] was read before: what was read now, and what is awaited. *)
Definition advanced (pre args : list mem) (F S : mem) (c : client) (p : pendingCommand) : Prop :=
  exists a1 a2, args = a1 ++ a2 /\ argv p = pre ++ a1 /\ awaits c a2 F S /\ pcmd_error p = 0 /\
    incomplete p = bool_decide (a2 <> []) /\ (a2 <> [] -> F <> []).

Lemma loop_advances c0 p0 c p args F S :
  working c p -> midway max c p -> awaits c args F S -> Forall (fun a => msize a <= max) args ->
  (bulklen c <> -1 -> incomplete p = true) -> pcmd_error p = 0 ->
  parsed c0 c -> (0 < multibulklen c0 \/ unread_len c < unread_len c0) ->
  ensures (r ← bulk_loop false max (Z.to_nat (multibulklen c)) c p;
           match r with
           | returns ok c p => Some (ok, c, p)
           | leaves c p | goes_on c p => Some (finish_multibulk c p)
           end) (fun '(ok, c', p') => ok = true /\ parse_result max c0 p0 ok c' p' /\ advanced (argv p) args F S c' p').
Proof.
  intros W M A Hs Hi He P Hn. pose proof (proj1 A) as Hm. destruct M as [[M1 M2] M3 M4].
  eapply ensures_bind; [apply (reads_args _ c p args F S); try done; [rewrite Hm; lia|rewrite <- Hm; lia]|].
  intros [|c' p'|]; [done| |done]. intros (R & a1 & a2 & -> & Ea & A' & Ee & HF). cbn [ensures].
  pose proof (finish_multibulk_ok max max_small c0 c p0 c' p' R P M1 Hn) as R'. unfold finish_multibulk in *.
  rewrite (proj1 A') in *. destruct a2 as [|x a2].
  - split; [done|split; [exact R'|]]. exists a1, []. split_and!; try done. cbn. congruence.
  - rewrite (proj2 (Z.eqb_neq _ _)) in * by (cbn; lia). split; [done|split; [exact R'|]].
    exists a1, (x :: a2). split_and!; try done. cbn. congruence.
Qed.

Lemma reads_resume c p args F S :
  working c p -> midway max c p -> incomplete p = true -> pcmd_error p = 0 -> awaits c args F S ->
  Forall (fun a => msize a <= max) args ->
  ensures (processMultibulkBuffer false max c p) (fun '(ok, c', p') =>
    ok = true /\ parse_result max c p ok c' p' /\ advanced (argv p) args F S c' p').
Proof.
  intros W M Hi He A Hs. pose proof (mw_left _ _ _ M) as [? _]. unfold processMultibulkBuffer.
  rewrite (proj2 (Z.eqb_neq _ _)) by lia. cbn [mbind option_bind]. rewrite (proj2 (Z.gtb_lt _ _)) by done.
  cbn [cassert]. cbn [mbind option_bind]. apply loop_advances; try done. by left.
Qed.

Lemma reads_start c p args F S :
  working c p -> fresh p -> multibulklen c = 0 -> runs max args -> rest c ++ F = written args ++ S -> rest c <> [] ->
  ensures (processMultibulkBuffer false max c p) (fun '(ok, c', p') =>
    (ok = false /\ c' = c /\ p' = p /\ F <> []) \/
    (ok = true /\ parse_result max c p ok c' p' /\ advanced [] args F S c' p')).
Proof.
  intros W Fr Hm [Hne Hc Hs] E Hr. unfold processMultibulkBuffer. rewrite Hm. change (0 =? 0) with true. cbv iota.
  assert (0 < Z.of_nat (length args)) as Hpos by (destruct args; [done|cbn [length]; lia]).
  assert (rest c ++ F = header 42 (Z.of_nat (length args)) ++ bulks args ++ S) as E'
    by (rewrite E; unfold written; by rewrite <- app_assoc).
  assert (starts_with 42 c) as Hst.
  { apply starts_with_drop. change (head (rest c) = Some 42).
    destruct (header_spec 42 (Z.of_nat (length args))) as (s & _ & Eh & _); [unfold in_s, INT_MAX in *; lia|].
    rewrite Eh in E'. destruct (rest c) as [|b r]; [done|]. by injection E' as ->. }
  eapply ensures_bind; [apply ensures_and; [by apply (read_multibulklen_ok false max max_small)|by eapply reads_count]|].
  intros [ok c1 p1|c1 p1|c1 p1] [H1 H2]; [|done|].
  - destruct H2 as (-> & -> & -> & HF). cbn. by left.
  - destruct H1 as (W1 & M1 & B1 & P1 & U1 & _), H2 as (E1 & Em1 & _ & Ea1 & Ee1). pose proof (mw_left _ _ _ M1) as [? _].
    rewrite (proj2 (Z.gtb_lt _ _)) by done. cbn [cassert]. cbn [mbind option_bind].
    eapply ensures_mono; [apply (loop_advances c p c1 p1 args F S); try done|].
    + split; [done|]. by left.
    + by right.
    + intros [[ok c2] p2] H2. rewrite Ea1 in H2. by right.
Qed.

(** ** The loops *)

(** The client is between two commands, with [cmds] to come; or inside the first of them. *)
Definition between (c : client) (F : mem) (cmds : list (list mem)) : Prop :=
  multibulklen c = 0 /\ reqtype c <> PROTO_REQ_INLINE /\ rest c ++ F = stream cmds.

Definition inside (c : client) (F : mem) (cmds : list (list mem)) (p : pendingCommand) : Prop :=
  incomplete p = true /\ pcmd_error p = 0 /\
  exists a2 tl, cmds = (argv p ++ a2) :: tl /\ awaits c a2 F (stream tl) /\ a2 <> [].

(** The offsets where the commands [ps] end, in a stream that goes on with [tl] and ends at
    the offset [T]. *)
Fixpoint timed (T : Z) (ps : list pendingCommand) (tl : list (list mem)) : Prop :=
  match ps with
  | [] => True
  | p :: ps => pcmd_reploff p = i64 (T - msize (stream ((argv <$> ps) ++ tl))) /\ timed T ps tl
  end.

Lemma timed_snoc T ps p tl :
  timed T ps (argv p :: tl) -> pcmd_reploff p = i64 (T - msize (stream tl)) -> timed T (ps ++ [p]) tl.
Proof.
  induction ps as [|q ps IH]; cbn [timed app]; [by intros _ ->|]. intros [Hq Hps] Hp. split; [|by apply IH].
  by rewrite Hq, fmap_app, <- app_assoc.
Qed.

(** [cmds] are the commands that are not run yet: those of the list, and those in the bytes
    to come, of which [F] are not in the buffer.  No error is noted. *)
Definition on_stream (c : client) (F : mem) (cmds : list (list mem)) : Prop :=
  read_error c = 0 /\ exists ps q tl, pending_cmds c = ps ++ q /\ Forall good ps /\ cmds = (argv <$> ps) ++ tl /\
    timed (read_reploff c + msize F) ps tl /\
    ((q = [] /\ between c F tl) \/ exists p, q = [p] /\ inside c F tl p).

(** What the parser leaves. *)
Record tracks (c : client) (F : mem) (cmds : list (list mem)) (k : Z) (c' : client) : Prop := {
  tk_wf : client_wf max c';
  tk_budget : 2 * unread_len c' + ready_len c' + 1 <= k;
  tk_link : link_state c' = link_state c;
  tk_buffer : is_master c = true -> querybuf c' = querybuf c;
  tk_stream : on_stream c' F cmds;
  tk_drained : F = [] -> ready_len c' = 0 -> cmds = []
}.

Lemma tracks_step c c1 F cmds k c' :
  tracks c1 F cmds k c' -> link_state c1 = link_state c -> (is_master c = true -> querybuf c1 = querybuf c) -> tracks c F cmds k c'.
Proof.
  intros [] L B. constructor; try done; [congruence|]. intros Hm. rewrite <- B by done. apply tk_buffer0.
  by rewrite (link_master _ _ L).
Qed.

Lemma link_read c c' : link_state c' = link_state c -> read_reploff c' = read_reploff c.
Proof. by intros [=]. Qed.

Lemma written_start args : runs max args -> exists t, written args = 42 :: t.
Proof.
  intros [_ Hc _]. destruct (header_spec 42 (Z.of_nat (length args))) as (s & _ & Eh & _); [unfold in_s, INT_MAX in *; lia|].
  unfold written. rewrite Eh. by eexists.
Qed.

Lemma bulk_some a : msize a <= max -> bulk a <> [].
Proof.
  intros Ha. destruct (header_spec 36 (msize a) (msize_in_s a ltac:(lia))) as (s & _ & Eh & _). unfold bulk. by rewrite Eh.
Qed.

(** Nothing is left when all has been read and run. *)
Lemma drained c cmds : on_stream c [] cmds -> Forall (runs max) cmds -> rest c = [] -> ready_len c = 0 -> cmds = [].
Proof.
  intros (Hre & ps & q & tl & E & Hg & -> & Htm & Hq) Hr Er Hz. rewrite (ready_good _ _ _ E Hg) in Hz.
  destruct ps as [|? ps]; [|cbn in Hz; lia]. cbn [fmap list_fmap app] in *.
  destruct Hq as [[_ (_ & _ & Es)]|(p & _ & _ & _ & a2 & tl' & -> & [_ A] & Hne)]; rewrite Er in *.
  - destruct tl as [|args tl]; [done|]. inversion_clear Hr as [|? ? Hargs _]. destruct (written_start _ Hargs) as [t Et].
    rewrite stream_cons, Et in Es. done.
  - exfalso. inversion_clear Hr as [|? ? [_ _ Hs] _]. apply Forall_app in Hs as [_ Hs].
    destruct A as [[_ A]|(a & args' & _ & _ & A)].
    + destruct a2 as [|a a2]; [done|]. inversion_clear Hs. rewrite bulks_cons in A. pose proof (bulk_some a).
      destruct (bulk a); [naive_solver|done].
    + by destruct a.
Qed.

Lemma between_idle c F cmds : client_wf max c -> Forall good (pending_cmds c) -> between c F cmds -> idle c.
Proof.
  intros [_ [S|[(l & p & E & _ & Hi & _)|(l & p & E & _ & _ & He)]]] Hg _; [done|..]; rewrite E in Hg;
    apply Forall_app in Hg as [_ [[? ?] _]%Forall_cons_1]; congruence.
Qed.

Lemma inside_mid c ps p : client_wf max c -> pending_cmds c = ps ++ [p] -> incomplete p = true ->
  midway max c p /\ reqtype c = PROTO_REQ_MULTIBULK.
Proof.
  intros [_ [(Hg & _)|[(l & p' & E & _ & Hi & M & Ht)|(l & p' & E & _ & Hi & _)]]] E' Hi'; rewrite E' in *.
  - apply Forall_app in Hg as [_ [[? _] _]%Forall_cons_1]. congruence.
  - apply app_inj_tail in E as [_ <-]. done.
  - apply app_inj_tail in E as [_ <-]. congruence.
Qed.

Lemma on_stream_frame c c' F cmds :
  on_stream c F cmds -> pending_cmds c' = pending_cmds c -> rest c' = rest c -> multibulklen c' = multibulklen c ->
  bulklen c' = bulklen c -> read_error c' = read_error c -> read_reploff c' = read_reploff c -> (reqtype c <> PROTO_REQ_INLINE -> reqtype c' <> PROTO_REQ_INLINE) -> on_stream c' F cmds.
Proof.
  intros (Hre & ps & q & tl & E & Hg & -> & Htm & Hq) Ep Er Em Eb Ee El Et. split; [congruence|]. exists ps, q, tl. rewrite Ep, El. split_and!; try done.
  destruct Hq as [[-> (Hm & Ht & Hs)]|(p & -> & Hi & He & a2 & tl' & -> & A & Hne)]; [left|right].
  - split; [done|]. unfold between. rewrite Em, Er. auto.
  - exists p. split; [done|]. split_and!; try done. exists a2, tl'. split_and!; try done. unfold awaits in *. by rewrite Em, Eb, Er.
Qed.
(** What follows the parser of a command that was found in the stream. *)
Lemma advance_end (next : client -> option client) k c p c' p' ps pre args F tl :
  parse_result max c p true c' p' -> advanced pre args F (stream tl) c' p' ->
  pending_cmds c = ps -> Forall good ps -> reqtype c = PROTO_REQ_MULTIBULK -> read_error c = 0 ->
  timed (read_reploff c + msize F) ps ((pre ++ args) :: tl) -> 2 * unread_len c + Z.of_nat (length ps) + 1 <= k ->
  (forall c2, client_wf max c2 -> unread_len c2 < unread_len c -> 2 * unread_len c2 + ready_len c2 + 1 <= k ->
     on_stream c2 F ((argv <$> ps) ++ (pre ++ args) :: tl) ->
     ensures (next c2) (tracks c2 F ((argv <$> ps) ++ (pre ++ args) :: tl) k)) ->
  ensures (if negb true && (pcmd_error p' =? 0) then freePendingCommand c' p'
           else if negb (pcmd_error p' =? 0) || incomplete p' then Some (addPendingCommand p' c')
           else let p' := set_pcmd_reploff (i64 (read_reploff c' - msize (querybuf c') + qb_pos c')) p' in
                next (resetClientQbufState (addPendingCommand p' c')))
    (tracks c F ((argv <$> ps) ++ (pre ++ args) :: tl) k).
Proof.
  intros R (a1 & a2 & -> & Ea & A & Ee & Hi & HF) El Hg Ht Hz Htm Hk Hnext. rewrite Ee, Hi. cbn [negb andb orb Z.eqb].
  assert (parsed c c' /\ working c' p' /\ (incomplete p' = false -> unread_len c' < unread_len c) /\
    (incomplete p' = true -> midway max c' p')) as (P & W & Hu & M)
    by (inversion R; split_and!; try done; congruence).
  pose proof (pd_pending _ _ P) as Ep. rewrite El in Ep. pose proof (pd_error _ _ P) as Ez. rewrite Hz in Ez.
  pose proof (link_read _ _ (pd_link _ _ P)) as Err. destruct a2 as [|x a2].
  - rewrite bool_decide_eq_false_2 in Hi by auto. rewrite bool_decide_eq_false_2 by auto. cbv zeta.
    assert (rest c' ++ F = stream tl) as Er by (destruct A as [_ [[_ A]|(? & ? & [=] & _)]]; exact A).
    set (p2 := set_pcmd_reploff _ p'). assert (argv p2 = pre ++ a1) as Ea2 by done.
    assert (pcmd_reploff p2 = i64 (read_reploff c' + msize F - msize (stream tl))) as Eo.
    { cbn. f_equal. destruct (rest_unread _ _ W) as [_ Hl]. rewrite <- Er, msize_app, Hl. unfold unread_len. lia. }
    destruct (command_added max max_small c' p2) as [Hw2 Hi2].
    { eapply working_pcmd; [done| |done]. destruct (wk_pcmd _ _ W). by constructor. }
    { by split. }
    { by rewrite Ep. }
    assert (good p2) as G2 by by split. clearbody p2. rewrite !app_nil_r in *.
    eapply ensures_mono; [apply (Hnext (resetClientQbufState (addPendingCommand p2 c')) Hw2)|].
    + by apply Hu.
    + rewrite (idle_ready _ Hi2). unfold pending_len. cbn. rewrite Ep, length_app. cbn.
      change (unread_len (resetClientQbufState (addPendingCommand p2 c'))) with (unread_len c'). specialize (Hu Hi). lia.
    + split; [done|]. exists (ps ++ [p2]), [], tl. rewrite app_nil_r. split_and!.
      * cbn. by rewrite Ep.
      * by apply Forall_app; split; [|constructor].
      * rewrite fmap_app, <- app_assoc. cbn. by rewrite Ea2.
      * change (read_reploff (resetClientQbufState (addPendingCommand p2 c'))) with (read_reploff c').
        apply timed_snoc; [by rewrite Ea2, Err|done].
      * left. split; [done|]. by split_and!.
    + intros c3 T. eapply tracks_step; [done|apply P|apply P].
  - rewrite bool_decide_eq_true_2 in Hi by done. rewrite bool_decide_eq_true_2 by done. cbn [ensures].
    assert (pending_cmds (addPendingCommand p' c') = ps ++ [p']) as Eadd by (cbn; by rewrite Ep).
    constructor; [| |apply P|apply P| |intros E0; by destruct HF].
    + split; [by apply working_add|right; left]. exists ps, p'. split_and!; try done; [by destruct (M Hi)|]. cbn. by rewrite (pd_reqtype _ _ P).
    + rewrite (mid_ready _ _ _ Eadd) by done. change (unread_len (addPendingCommand p' c')) with (unread_len c').
      pose proof (pd_unread _ _ P). lia.
    + split; [done|]. exists ps, [p'], ((pre ++ a1 ++ x :: a2) :: tl). split_and!; try done.
      * change (read_reploff (addPendingCommand p' c')) with (read_reploff c'). by rewrite Err.
      * right. exists p'. split; [done|]. split_and!; try done. exists (x :: a2), tl. rewrite Ea, <- app_assoc. by split_and!.
Qed.

(** The type of the request is that of a multibulk request. *)
Lemma typed_ok c F cmds b :
  client_wf max c -> on_stream c F cmds -> Forall (runs max) cmds -> rd (querybuf c) (qb_pos c) = Some b ->
  let c1 := if reqtype c =? 0
    then set_request (if b =? 42 then PROTO_REQ_MULTIBULK else PROTO_REQ_INLINE) (multibulklen c) (bulklen c) c else c in
  client_wf max c1 /\ on_stream c1 F cmds /\ reqtype c1 = PROTO_REQ_MULTIBULK /\ unread_len c1 = unread_len c /\ rest c1 = rest c /\
  pending_cmds c1 = pending_cmds c /\ link_state c1 = link_state c /\ querybuf c1 = querybuf c.
Proof.
  intros Hw Hon Hr Hb c1. pose proof (wk_pos _ _ (proj1 Hw)).
  assert (rest c !! 0%nat = Some b) as Hh.
  { unfold rest. etrans; [apply (lookup_drop (querybuf c))|]. rewrite Nat.add_0_r. unfold rd in Hb. by rewrite (proj2 (Z.leb_le _ _)) in Hb by lia. }
  pose proof Hon as (Hre & ps & q & tl & E & Hg & -> & Htm & Hq).
  destruct Hq as [[-> Hbt]|(p & -> & Hi & He & Hp)].
  - rewrite app_nil_r in E. assert (idle c) as Hid by (eapply between_idle; [done|by rewrite E|done]).
    pose proof Hid as (_ & Hm & Ht). destruct Hbt as (_ & Hni & Hs). subst c1.
    destruct (Z.eqb_spec (reqtype c) 0) as [E0|E0].
    + assert (b = 42) as ->.
      { destruct (rest c) as [|b' r]; [done|]. cbn in Hh. injection Hh as ->. destruct tl as [|args tl]; [done|].
        apply Forall_app in Hr as [_ [Hargs _]%Forall_cons_1]. destruct (written_start _ Hargs) as [t Et].
        rewrite stream_cons, Et in Hs. by injection Hs as ->. }
      rewrite Z.eqb_refl. split_and!; try done.
      * split; [by apply set_request_working, (proj1 Hw)|left]. split; [cbn; by rewrite E|]. split; [done|]. right; right. split; [done|].
        apply starts_with_drop. change (head (rest c) = Some 42). by rewrite head_lookup.
      * by eapply on_stream_frame.
    + split_and!; try done. by destruct Ht as [?|[?|[? _]]].
  - destruct (inside_mid c ps p Hw E Hi) as [_ Ht]. subst c1. rewrite Ht. change (PROTO_REQ_MULTIBULK =? 0) with false. cbv iota.
    by split_and!.
Qed.

Lemma parse_loop_reads fuel la c F cmds k :
  client_wf max c -> on_stream c F cmds -> Forall (runs max) cmds -> unread_len c < Z.of_nat fuel -> 0 < la ->
  2 * unread_len c + ready_len c + 1 <= k ->
  ensures (parse_loop false max fuel la c) (tracks c F cmds k).
Proof.
  intros Hw Hon Hr Hf Hla Hk. revert c Hw Hon Hf Hk. induction fuel as [|fuel IH]; intros c Hw Hon Hf Hk; cbn [parse_loop];
    pose proof (wk_pos _ _ (proj1 Hw)) as Hpos;
    (destruct ((ready_len c <? la) && (qb_pos c <? msize (querybuf c))) eqn:Eg;
      [|cbn [ensures]; constructor; try done; intros -> Hz; rewrite Hz, (proj2 (Z.ltb_lt 0 la)) in Eg by done;
        apply (drained c); try done; apply Z.ltb_ge in Eg; unfold rest; apply drop_ge; unfold msize in *; lia]);
    apply andb_true_iff in Eg as [_ Hlt%Z.ltb_lt].
  { unfold unread_len in Hf. lia. }
  destruct (rd_inside (querybuf c) (qb_pos c) ltac:(lia)) as [b Hb].
  destruct (typed_ok c F cmds b Hw Hon Hr Hb) as (Hw1 & Hon1 & Ht1 & Hu1 & Er1 & Ep1 & L1 & B1).
  set (c1 := if reqtype c =? 0 then _ else _) in *.
  assert ((if reqtype c =? 0 then b0 ← rd (querybuf c) (qb_pos c);
     Some (set_request (if b0 =? 42 then PROTO_REQ_MULTIBULK else PROTO_REQ_INLINE) (multibulklen c) (bulklen c) c) else Some c) =
    Some c1) as -> by (subst c1; destruct (reqtype c =? 0); [by rewrite Hb|done]).
  cbn [mbind option_bind]. rewrite Ht1. change (PROTO_REQ_MULTIBULK =? PROTO_REQ_INLINE) with false. cbv iota.
  rewrite Z.eqb_refl. change (cassert true) with (Some tt). cbn [mbind option_bind].
  assert (rest c1 <> []) as Hne.
  { rewrite Er1. intros E. apply (f_equal msize) in E. unfold rest, msize in E. rewrite length_drop in E. unfold msize in *. cbn in E. lia. }
  assert (forall c2, client_wf max c2 -> unread_len c2 < unread_len c1 -> 2 * unread_len c2 + ready_len c2 + 1 <= k -> on_stream c2 F cmds ->
    ensures (parse_loop false max fuel la c2) (tracks c2 F cmds k)) as Hnext.
  { intros c2 Hw2 Hu2 Hk2 Hon2. apply IH; try done. lia. }
  assert (2 * unread_len c1 + ready_len c1 + 1 <= k) as Hk1 by (unfold ready_len; rewrite Ep1, Hu1; exact Hk).
  eapply ensures_mono; [|intros c' T; eapply (tracks_step c c1); [exact T|done|done]].
  clearbody c1. clear c Hw Hon Hf Hpos Hlt b Hb IH Hu1 Er1 Ep1 L1 B1 Hk.
  pose proof Hon1 as (Hz & ps & q & tl & E & Hg & -> & Htm & Hq). destruct Hq as [[-> Hbt]|(p & -> & Hi & He & a2 & tl' & -> & A & Hne2)].
  - rewrite app_nil_r in E. pose proof (between_idle c1 F tl Hw1 ltac:(by rewrite E) Hbt) as Hid.
    assert (ready_len c1 = Z.of_nat (length ps)) as Hrd by (rewrite (idle_ready _ Hid); unfold pending_len; by rewrite E).
    assert (current_pcmd c1 = Some (acquirePendingCommand c1)) as -> by (unfold current_pcmd; by rewrite (idle_ready _ Hid), Z.eqb_refl).
    destruct (acquirePendingCommand c1) as [p c2] eqn:Ea. destruct (sound_acquire _ _ _ (proj1 Hw1) Ea) as (W2 & Fr & pool & ->).
    cbn [mbind option_bind]. set (c2 := set_pool _ _ c1) in *. destruct Hbt as (Hm & _ & Hs).
    destruct tl as [|args tl]; [destruct (rest c1); done|]. apply Forall_app in Hr as [_ [Hargs _]%Forall_cons_1].
    eapply ensures_bind; [by apply (reads_start c2 p args F (stream tl))|].
    intros [[ok c3] p3] [(-> & -> & -> & HF)|(-> & R & Hadv)].
    + pose proof Fr as (_ & -> & _). cbn [negb andb Z.eqb]. eapply ensures_mono; [by apply (freePendingCommand_ok c2 p)|].
      intros c4 (W4 & P4 & E4 & L4). injection P4 as Eq Ep Er Em Eb Ee.
      assert (ready_len c4 = ready_len c1) as Hr4 by (unfold ready_len; by rewrite E4).
      assert (unread_len c4 = unread_len c1) as Hu4 by (unfold unread_len; by rewrite Eq, Ep).
      constructor; [|by rewrite Hr4, Hu4|done|done| |done].
      * split; [done|left]. destruct Hid as (? & ? & Hst). unfold idle, starts_with in *. by rewrite E4, Em, Er, Eq, Ep.
      * split; [by rewrite Ee|]. exists ps, [], (args :: tl). rewrite app_nil_r, (link_read _ _ L4). split_and!; [by rewrite E4|done|done|done|left].
        split; [done|]. unfold between, rest. rewrite Em, Er, Eq, Ep. split_and!; [done|by rewrite Ht1|done].
    + apply (ensures_mono _ (tracks c2 F ((argv <$> ps) ++ ([] ++ args) :: tl) k)); [|by intros c4 []; constructor].
      eapply (advance_end (fun c => parse_loop false max fuel la c) k c2 p c3 p3 ps [] args F tl); try done.
      change (unread_len c2) with (unread_len c1). lia.
  - destruct (inside_mid c1 ps p Hw1 E Hi) as [M _].
    pose proof (mid_ready _ _ _ E Hg Hi) as Hrd.
    assert (current_pcmd c1 = Some (p, set_pending ps c1)) as ->.
    { unfold current_pcmd, pending_len. rewrite Hrd, E, length_app. rewrite (proj2 (Z.eqb_neq _ _)) by (cbn; lia). cbn [negb].
      unfold popPendingCommandFromTail. rewrite E, last_snoc. by rewrite length_app, Nat.add_sub, take_app_length. }
    cbn [mbind option_bind]. pose proof (sound_remove c1 ps p [] (proj1 Hw1) E) as W2. rewrite app_nil_r in W2.
    set (c2 := set_pending ps c1) in *. assert (midway max c2 p) as M2 by (destruct M; by constructor).
    apply Forall_app in Hr as [_ [[_ _ Hsz] _]%Forall_cons_1]. apply Forall_app in Hsz as [_ Hsz].
    eapply ensures_bind; [by apply (reads_resume c2 p a2 F (stream tl'))|].
    intros [[ok c3] p3] (-> & R & Hadv).
    apply (ensures_mono _ (tracks c2 F ((argv <$> ps) ++ (argv p ++ a2) :: tl') k)); [|by intros c4 []; constructor].
    eapply (advance_end (fun c => parse_loop false max fuel la c) k c2 p c3 p3 ps (argv p) a2 F tl'); try done.
    change (unread_len c2) with (unread_len c1). lia.
Qed.

(** ** Sizes *)

Lemma bulks_app a b : bulks (a ++ b) = bulks a ++ bulks b.
Proof. unfold bulks. by rewrite fmap_app, concat_app. Qed.

Lemma stream_app a b : stream (a ++ b) = stream a ++ stream b.
Proof. unfold stream. by rewrite fmap_app, concat_app. Qed.

Lemma sum_sizes_bulks args : sum_sizes args <= msize (bulks args).
Proof.
  induction args as [|a args IH]; [done|]. rewrite sum_sizes_cons, bulks_cons, msize_app. unfold bulk. rewrite !msize_app.
  pose proof (msize_nonneg (header 36 (msize a))). pose proof (msize_nonneg [CR; LF]). lia.
Qed.

Lemma pending_sum_stream ps : Forall pcmd_wf ps -> pending_sum ps <= msize (stream (argv <$> ps)).
Proof.
  induction 1 as [|p ps [Hs _ _] _ IH]; [done|]. rewrite pending_sum_cons. cbn [fmap list_fmap].
  rewrite stream_cons, msize_app. unfold written. rewrite msize_app, Hs. pose proof (sum_sizes_bulks (argv p)).
  pose proof (msize_nonneg (header 42 (Z.of_nat (length (argv p))))). lia.
Qed.

(** What is in the buffer and what is to come is a part of the commands to come. *)
Lemma to_come_size c F tl q :
  (q = [] /\ between c F tl) \/ (exists p, q = [p] /\ inside c F tl p) ->
  msize (rest c) + msize F + sum_sizes (concat (argv <$> q)) <= msize (stream tl).
Proof.
  intros [[-> (_ & _ & A)]|(p & -> & _ & _ & a2 & tl' & -> & [_ A] & _)].
  - apply (f_equal msize) in A. rewrite msize_app in A. cbn. lia.
  - cbn [fmap list_fmap concat]. rewrite app_nil_r, stream_cons. unfold written. rewrite bulks_app, !msize_app.
    pose proof (sum_sizes_bulks (argv p)). pose proof (msize_nonneg (header 42 (Z.of_nat (length (argv p ++ a2))))).
    destruct A as [[_ A]|(a & args' & -> & _ & A)]; apply (f_equal msize) in A; rewrite !msize_app in A.
    + lia.
    + rewrite bulks_cons. unfold bulk. rewrite !msize_cons, msize_app in A. rewrite !msize_app, !msize_cons, msize_nil.
      pose proof (msize_nonneg (header 36 (msize a))). lia.
Qed.

(** What is parsed, what is in the buffer and what is to come are no more than the stream. *)
Lemma on_stream_size c F cmds :
  sound c -> on_stream c F cmds -> all_argv_len_sum c + msize (rest c) + msize F <= msize (stream cmds).
Proof.
  intros W (_ & ps & q & tl & E & Hg & -> & _ & Hq). pose proof (wk_sum _ _ W) as Hs. cbn [argv_len_sum initPendingCommand] in Hs.
  pose proof (wk_list _ _ W) as Hl. rewrite E in Hl, Hs. apply Forall_app in Hl as [Hl Hl']. rewrite pending_sum_app in Hs.
  pose proof (pending_sum_stream ps Hl). rewrite stream_app, msize_app. pose proof (to_come_size _ _ _ _ Hq) as Hc.
  destruct Hq as [[-> _]|(p & -> & _)]; [cbn in *; lia|].
  apply Forall_cons_1 in Hl' as [[Hp _ _] _]. rewrite pending_sum_cons, Hp in Hs. change (pending_sum []) with 0 in Hs.
  cbn [fmap list_fmap concat] in Hc. rewrite app_nil_r in Hc. lia.
Qed.

(** The head of the list is the next command. *)
Lemma stream_head c F cmds :
  on_stream c F cmds -> ready_len c <> 0 ->
  exists cur l tl, pending_cmds c = cur :: l /\ good cur /\ cmds = argv cur :: tl /\
    pcmd_reploff cur = i64 (read_reploff c + msize F - msize (stream tl)) /\ msize (rest c) + msize F <= msize (stream tl) /\
    forall c', parser_state c' = parser_state c -> pending_cmds c' = l -> read_reploff c' = read_reploff c -> on_stream c' F tl.
Proof.
  intros (Hre & ps & q & tl & E & Hg & -> & Htm & Hq) Hr. destruct ps as [|cur ps].
  { exfalso. apply Hr. rewrite (ready_good _ [] _ E Hg). destruct Hq as [[-> _]|(p & -> & Hi & _)]; [done|].
    cbn. unfold is_ready. by rewrite Hi. }
  apply Forall_cons_1 in Hg as [Gc Hg]. destruct Htm as [Ht Htm]. exists cur, (ps ++ q), ((argv <$> ps) ++ tl). split_and!; [done..| |].
  { pose proof (to_come_size _ _ _ _ Hq). pose proof (sum_sizes_nonneg (concat (argv <$> q))).
    rewrite stream_app, msize_app. pose proof (msize_nonneg (stream (argv <$> ps))). lia. }
  intros c' P' E' R'. injection P' as Eq Ep Er Em Eb Ee. split; [congruence|]. exists ps, q, tl. rewrite R'. split_and!; try done.
  assert (rest c' = rest c) as Ers by (unfold rest; by rewrite Eq, Ep).
  destruct Hq as [[-> (? & ? & ?)]|(p & -> & Hi & He & a2 & tl' & -> & A & Hne)]; [left|right].
  - split; [done|]. unfold between. by rewrite Em, Er, Ers.
  - exists p. split; [done|]. split_and!; try done. exists a2, tl'. split_and!; try done. unfold awaits in *. by rewrite Em, Eb, Ers.
Qed.

Lemma on_stream_budget c F cmds k : on_stream c F cmds -> budget c k -> 2 * unread_len c + ready_len c + 1 <= k.
Proof.
  intros (_ & ps & q & tl & E & Hg & _ & _ & Hq) [B|[(l & p & E' & _ & Hi & He) _]]; [done|]. exfalso. rewrite E in E'.
  destruct Hq as [[-> _]|(p' & -> & Hi' & _)].
  - rewrite app_nil_r in E'. subst ps. apply Forall_app in Hg as [_ [[_ ?] _]%Forall_cons_1]. congruence.
  - apply app_inj_tail in E' as [_ ->]. congruence.
Qed.

(** ** Receiving *)

(** The client when the bytes [bs] have been appended to its buffer. *)
Definition receive (bs : mem) (c : client) : client :=
  let c := set_current 0 (reploff_next c) c in
  let c := set_querybuf (querybuf c ++ bs) (qb_pos c) c in
  if is_master c then set_repl (i64 (read_reploff c + msize bs)) (reploff c) (repl_applied c) (fed c) c else c.

Lemma receive_fields bs c :
  querybuf (receive bs c) = querybuf c ++ bs /\ qb_pos (receive bs c) = qb_pos c /\ pending_cmds (receive bs c) = pending_cmds c /\
  multibulklen (receive bs c) = multibulklen c /\ bulklen (receive bs c) = bulklen c /\ reqtype (receive bs c) = reqtype c /\
  read_error (receive bs c) = 0 /\ is_master (receive bs c) = is_master c /\ all_argv_len_sum (receive bs c) = all_argv_len_sum c /\
  cmd_pool (receive bs c) = cmd_pool c.
Proof. destruct c as [? ? ? ? ? ? ? ? b ? ? ? ? ? ? ?]. by destruct b. Qed.

Lemma rest_receive bs c : 0 <= qb_pos c <= msize (querybuf c) -> rest (receive bs c) = rest c ++ bs.
Proof.
  intros Hp. destruct (receive_fields bs c) as (Eq & Ep & _). unfold rest. rewrite Eq, Ep. apply drop_app_le. unfold msize in *. lia.
Qed.

Lemma receive_wf bs c :
  client_wf max c -> msize (querybuf c) + msize bs <= INT_MAX -> all_argv_len_sum c + unread_len c + msize bs < 2 ^ 63 ->
  client_wf max (receive bs c).
Proof.
  intros [W S] Hs Hb. destruct (receive_fields bs c) as (Eq & Ep & El & Em & Eb & Et & _ & _ & Es & Eo).
  pose proof (wk_pos _ _ W). pose proof (msize_nonneg bs). split.
  - destruct W. constructor; rewrite ?Eq, ?Ep, ?El, ?Es, ?Eo; try done; [rewrite msize_app; lia|rewrite msize_app; lia|].
    unfold unread_len in *. rewrite Eq, Ep, msize_app. lia.
  - destruct S as [(Hg & Hm & Ht)|[(l & p & ? & ? & ? & M & ?)|(l & p & ? & ?)]]; [left| |].
    + unfold idle. rewrite El, Em, Et. split; [done|split; [done|]]. destruct Ht as [?|[?|[? Ht]]]; [by left|by right; left|right; right].
      split; [done|]. unfold starts_with in *. rewrite Eq, Ep. by apply lookup_app_l_Some.
    + right; left. exists l, p. rewrite El, Et. split_and!; try done. destruct M. constructor; rewrite ?Em, ?Eb; done.
    + right; right. exists l, p. by rewrite El.
Qed.

Lemma on_stream_receive bs F c cmds :
  sound c -> on_stream c (bs ++ F) cmds -> ready_len c = 0 -> on_stream (receive bs c) F cmds.
Proof.
  intros W (_ & ps & q & tl & E & Hg & -> & _ & Hq) Hr. destruct (receive_fields bs c) as (_ & _ & El & Em & Eb & Et & Ee & _).
  pose proof (rest_receive bs c (wk_pos _ _ W)) as Er. split; [done|]. rewrite (ready_good _ _ _ E Hg) in Hr.
  destruct ps as [|? ps]; [|cbn in Hr; lia]. exists [], q, tl. rewrite El. split_and!; try done.
  destruct Hq as [[-> (? & ? & ?)]|(p & -> & Hi & He & a2 & tl' & -> & A & Hne)]; [left|right].
  - split; [done|]. unfold between. rewrite Em, Et, Er, <- app_assoc. by split_and!.
  - exists p. split; [done|]. split_and!; try done. exists a2, tl'. split_and!; try done.
    unfold awaits in *. by rewrite Em, Eb, Er, <- app_assoc.
Qed.
End reads.

(** A server that runs every command at once, or queues it: [run] is what a command does,
    and the arguments of a transaction have [m] characters at most. *)
Class Willing (X : Type) `{Server X} (run : X -> list mem -> X) (m : Z) : Prop := {
  willing_stopped x : stopped x = false;
  willing_auth x : authRequired x = false;
  willing_multi x : 0 <= multi_argv_len_sums x <= m;
  willing_command x args : processCommand x args = (o_done, run x args) \/ processCommand x args = (o_queued, run x args)
}.

(** What a kind of clients -- those that are not masters, the master -- does around the
    parser: [Inv x F c cmds] holds while the bytes [F] are to come and the commands [cmds]
    to be run, and [ground c] when the buffer is trimmed.  The [limit] is one on the size of
    the stream. *)
Class Link {X : Type} `{HX : Server X} (run : X -> list mem -> X) (m max max_querybuf limit : Z)
    (Inv : X -> mem -> client -> list (list mem) -> Prop) (ground : client -> Prop) : Prop := {
  link_frame x F c c' cmds :
    Inv x F c cmds -> link_state c' = link_state c -> (is_master c = true -> querybuf c' = querybuf c) -> Inv x F c' cmds;
  link_processed queued x F c cur l tl k :
    client_wf max c -> budget c k -> pending_cmds c = cur :: l -> good cur -> argv cur <> [] -> Inv x F c (argv cur :: tl) ->
    reploff_next c = i64 (read_reploff c + msize F - msize (stream tl)) -> msize (rest c) + msize F <= msize (stream tl) ->
    ensures (commandProcessed queued (run x (argv cur)) c) (fun c' => (client_wf max c' /\ budget c' (k - 1)) /\
      parser_state c' = parser_state c /\ pending_cmds c' = l /\ read_reploff c' = read_reploff c /\ Inv (run x (argv cur)) F c' tl);
  link_trim x F c cmds :
    client_wf max c -> on_stream c F cmds -> ready_len c = 0 -> Inv x F c cmds ->
    ensures (trim_querybuf c) (fun c' => client_wf max c' /\ on_stream c' F cmds /\ ready_len c' = 0 /\ Inv x F c' cmds /\ ground c');
  link_receive x bs F c cmds :
    client_wf max c -> on_stream c (bs ++ F) cmds -> ready_len c = 0 -> Inv x (bs ++ F) c cmds -> ground c ->
    msize (stream cmds) <= limit ->
    client_wf max (receive bs c) /\ Inv x F (receive bs c) cmds /\ (is_master c = true \/ m + msize (querybuf (receive bs c)) <= max_querybuf < 2 ^ 64)
}.

Section runs.
Context {X : Type} `{HX : Server X} (run : X -> list mem -> X) (m : Z) `{HW : !Willing X run m}.
Context (lookahead max max_querybuf limit : Z) (Hmax : 0 <= max <= INT_MAX) (Hla : 0 < lookahead).
Context (Inv : X -> mem -> client -> list (list mem) -> Prop) (ground : client -> Prop) `{HL : !Link run m max max_querybuf limit Inv ground}.

(** The commands [l] were run, and [r] are left. *)
Definition ran (x : X) (F : mem) (cmds : list (list mem)) (res : processed) : Prop :=
  let '(ok, c', x') := res in ok = true /\ client_wf max c' /\ ready_len c' = 0 /\
    exists l r, cmds = l ++ r /\ x' = foldl run x l /\ on_stream c' F r /\ (F = [] -> r = []) /\ Inv x' F c' r.

Lemma ran_none x F c cmds :
  client_wf max c -> ready_len c = 0 -> on_stream c F cmds -> (F = [] -> cmds = []) -> Inv x F c cmds -> ran x F cmds (true, c, x).
Proof. intros Hw Hr Hon HF HI. split_and!; try done. exists [], cmds. by split_and!. Qed.

Lemma process_loop_reads fuel la c x F cmds k :
  client_wf max c -> on_stream c F cmds -> Forall (runs max) cmds -> budget c k -> Inv x F c cmds -> k <= Z.of_nat fuel -> 0 < la ->
  ensures (process_loop max fuel la c x) (ran x F cmds).
Proof.
  intros Hw Hon Hr B HI Hk Hla'. revert c x cmds k Hw Hon Hr B HI Hk.
  induction fuel as [|fuel IH]; intros c x cmds k Hw Hon Hr B HI Hk;
    cbn [process_loop]; pose proof (wk_pos _ _ (proj1 Hw)) as Hpos; pose proof (working_sums _ _ (proj1 Hw)) as (_ & Hu & _);
    pose proof (on_stream_budget _ _ _ _ Hon B) as B'; assert (0 <= ready_len c) as Hr0 by (unfold ready_len; lia);
    rewrite (willing_stopped x);
    (destruct (negb ((qb_pos c <? msize (querybuf c)) || (ready_len c >? 0))) eqn:Eg;
      [apply negb_true_iff, orb_false_iff in Eg as [E1%Z.ltb_ge E2]; rewrite Z.gtb_ltb in E2; apply Z.ltb_ge in E2;
       apply ran_none; [done|lia|done| |done]; intros ->; apply (drained max Hmax c); try done;
       [unfold rest; apply drop_ge; unfold msize in *; lia|lia]|]).
  { lia. }
  clear Eg.
  eapply (ensures_bind _ _ (fun c1 => (client_wf max c1 /\ budget c1 k) /\ on_stream c1 F cmds /\ Inv x F c1 cmds /\
    (F = [] -> ready_len c1 = 0 -> cmds = []))).
  { destruct (Z.eqb_spec (ready_len c) 0) as [E0|]; [|by cbn]. rewrite (willing_auth x).
    eapply ensures_mono; [apply (parse_loop_reads max Hmax _ la c F cmds k); try done; unfold unread_len, msize in *; lia|].
    intros c1 [T1 T2 T3 T4 T5 T6]. split_and!; try done; [by left|]. by eapply link_frame. }
  clear Hu B' Hr0 Hpos. intros c1 [H1 [Hon1 [HI1 Hz]]]. destruct (Z.eqb_spec (ready_len c1) 0) as [Hr0|Hr1].
  { apply ran_none; [apply H1|done|done|auto|done]. }
  destruct (stream_head c1 F cmds Hon1 Hr1) as (cur & l & tl & El & G & -> & Ho & Hsz & Hnext). rewrite El. cbv zeta.
  destruct (set_current_wf max (max_small max Hmax) (pcmd_error cur) (pcmd_reploff cur) _ _ H1) as [Hw2 B2].
  set (c2 := set_current _ _ c1) in *. assert (pending_cmds c2 = cur :: l) as E2 by done.
  assert (read_error c2 = 0) as Er by apply G.
  assert (parser_state c2 = parser_state c1) as P2 by (unfold parser_state; by rewrite Er, (proj1 Hon1)).
  assert (reploff_next c2 = pcmd_reploff cur) as Eo by done. assert (read_reploff c2 = read_reploff c1) as Err by done.
  assert (rest c2 = rest c1) as Ers by done.
  assert (Inv x F c2 (argv cur :: tl)) as HI2 by by eapply link_frame.
  clearbody c2. rewrite fatal_error, Er. cbn [Z.eqb negb andb].
  apply Forall_cons_1 in Hr as [[Hne _ _] Hr].
  assert (argc cur =? 0 = false) as -> by (apply Z.eqb_neq; unfold argc; destruct (argv cur); [done|cbn; lia]).
  assert (forall queued, ensures (c ← commandProcessed queued (run x (argv cur)) c2; process_loop max fuel la c (run x (argv cur)))
    (ran x F (argv cur :: tl))) as Hrun.
  { intros queued. eapply ensures_bind; [eapply (link_processed queued x F c2 cur l tl k); try done; [by rewrite Eo, Err|by rewrite Ers]|].
    intros c3 [[Hw3 B3] (P3 & E3 & R3 & HI3)].
    eapply ensures_mono; [eapply (IH c3 _ tl); [done|apply Hnext; congruence|done|done|done|lia]|].
    intros [[ok c4] x4] (-> & Hw4 & Hr4 & l4 & r4 & -> & -> & Hon4 & HF & HI4). split_and!; try done.
    exists (argv cur :: l4), r4. by split_and!. }
  destruct (willing_command x (argv cur)) as [->| ->]; apply Hrun.
Qed.

Lemma processInputBuffer_reads c x F cmds :
  client_wf max c -> on_stream c F cmds -> Forall (runs max) cmds -> Inv x F c cmds ->
  ensures (processInputBuffer lookahead max c x) (fun r => ran x F cmds r /\ ground r.1.2).
Proof.
  intros Hw Hon Hr HI. unfold processInputBuffer. rewrite (willing_auth x). pose proof (wk_pos _ _ (proj1 Hw)).
  assert (0 <= ready_len c <= Z.of_nat (length (pending_cmds c))) as Hrl
    by (unfold ready_len; pose proof (List.filter_length_le is_ready (pending_cmds c)); lia).
  eapply ensures_bind.
  { eapply (process_loop_reads _ _ _ _ F cmds (2 * unread_len c + ready_len c + 1)); try done; [by left|unfold unread_len, msize in *; lia]. }
  intros [[ok c1] x1] (-> & Hw1 & Hr1 & l & r & -> & -> & Hon1 & HF & HI1). cbn [negb].
  eapply ensures_bind; [by eapply link_trim|]. intros c2 (Hw2 & Hon2 & Hr2 & HI2 & Hg2). cbn [ensures].
  split; [|done]. split_and!; try done. exists l, r. by split_and!.
Qed.

(** A piece of the stream is read. *)
Lemma readQueryFromClient_reads bs c x F cmds :
  client_wf max c -> on_stream c (bs ++ F) cmds -> Forall (runs max) cmds -> ready_len c = 0 -> Inv x (bs ++ F) c cmds -> ground c ->
  msize (stream cmds) <= limit ->
  ensures (readQueryFromClient lookahead max max_querybuf bs c x) (fun r => ran x F cmds r /\ ground r.1.2).
Proof.
  intros Hw Hon Hr Hz HI Hg Hs. destruct (link_receive x bs F c cmds Hw Hon Hz HI Hg Hs) as (Hw2 & HI2 & Hl2).
  pose proof (on_stream_receive bs F c cmds (proj1 Hw) Hon Hz) as Hon2.
  destruct (receive_fields bs c) as (_ & _ & _ & _ & _ & _ & _ & Ema & _).
  unfold readQueryFromClient. cbv zeta. change (if is_master _ then _ else _) with (receive bs c).
  set (c2 := receive bs c) in *. clearbody c2. rewrite (willing_auth x), andb_false_r, orb_false_r.
  pose proof (willing_multi x). pose proof (msize_nonneg (querybuf c2)).
  assert (negb (is_master c2) && (u64 (multi_argv_len_sums x + msize (querybuf c2)) >? max_querybuf) = false) as ->.
  { destruct Hl2 as [Hl2|Hl2]; [by rewrite Ema, Hl2|]. destruct (is_master c2); [done|]. cbn [negb andb].
    replace (u64 (multi_argv_len_sums x + msize (querybuf c2))) with (multi_argv_len_sums x + msize (querybuf c2))
      by (symmetry; apply wrapu_small; unfold in_u, INT_MAX in *; lia).
    rewrite Z.gtb_ltb. apply Z.ltb_ge. lia. }
  eapply ensures_bind; [by apply processInputBuffer_reads|]. intros [[ok c3] x3] [R Hg3].
  pose proof R as (-> & _ & _ & l & r & _ & _ & [He3 _] & _). rewrite fatal_error, He3. done.
Qed.

(** The pieces of a stream, as [connRead] returns them. *)
Fixpoint feed (chunks : list mem) (c : client) (x : X) : option processed :=
  match chunks with
  | [] => Some (true, c, x)
  | bs :: chunks =>
    '(ok, c, x) ← readQueryFromClient lookahead max max_querybuf bs c x;
    if ok : bool then feed chunks c x else Some (false, c, x)
  end.

Lemma feed_reads chunks F c x cmds :
  client_wf max c -> on_stream c (concat chunks ++ F) cmds -> (concat chunks ++ F = [] -> cmds = []) -> Forall (runs max) cmds ->
  ready_len c = 0 -> Inv x (concat chunks ++ F) c cmds -> ground c -> msize (stream cmds) <= limit ->
  ensures (feed chunks c x) (fun r => ran x F cmds r /\ ground r.1.2).
Proof.
  revert c x cmds. induction chunks as [|bs chunks IH]; intros c x cmds Hw Hon Hz Hr Hrd HI Hg Hs; cbn [feed].
  { split; [by apply ran_none|done]. }
  cbn [concat] in *. rewrite <- app_assoc in *.
  eapply ensures_bind; [by apply (readQueryFromClient_reads bs c x (concat chunks ++ F) cmds)|].
  intros [[ok c1] x1] [(-> & Hw1 & Hr1 & l & r & -> & -> & Hon1 & HF & HI1) Hg1]. rewrite stream_app, msize_app in *.
  pose proof (msize_nonneg (stream l)). apply Forall_app in Hr as [_ Hr].
  eapply ensures_mono; [apply (IH c1 _ r); try done; lia|].
  intros [[ok c2] x2] [(-> & Hw2 & Hr2 & l2 & r2 & -> & -> & Hon2 & HF2 & HI2) Hg2]. split; [|done]. split_and!; try done.
  exists (l ++ l2), r2. rewrite foldl_app, app_assoc. by split_and!.
Qed.

Lemma nothing_left c : on_stream c [] [] -> pending_cmds c = [] /\ rest c = [].
Proof.
  intros (_ & ps & q & tl & Ep & _ & Et & _ & Hq). destruct ps as [|? ps]; [|done]. destruct tl as [|? tl]; [|done].
  destruct Hq as [[-> (_ & _ & Er)]|(p & _ & _ & _ & a2 & tl' & [=] & _)]. by rewrite app_nil_r in Er.
Qed.
End runs.

(** ** Clients that are not masters *)

#[export] Instance client_link {X : Type} `{HX : Server X} (run : X -> list mem -> X) (max limit : Z)
    (m max_querybuf : Z) (Hmax : 0 <= max <= INT_MAX) (Hlim : limit <= INT_MAX) (Hq : m + limit <= max_querybuf < 2 ^ 64) :
  Link run m max max_querybuf limit (fun _ _ c _ => is_master c = false) (fun c => qb_pos c = 0).
Proof.
  constructor.
  - intros x F c c' cmds Hm L _. by rewrite (link_master _ _ L).
  - intros queued x F c cur l tl k Hw B E G _ Hma _ _. unfold commandProcessed.
    eapply ensures_bind; [apply ensures_and; [by apply (popped_ok max (max_small max Hmax) queued c cur l k)|]|].
    { apply (resetClientInternal_ok queued c cur l); [apply Hw|done]. }
    intros c' [[[Hw' B'] L'] (_ & P' & E' & _)]. pose proof (link_master _ _ L') as Hm'. rewrite Hma in Hm'. rewrite Hm'. cbn [andb mbind option_bind].
    rewrite Hm'. cbn. split_and!; try done. by apply link_read.
  - intros x F c cmds Hw Hon Hr Hma. pose proof (trim_querybuf_ok max (max_small max Hmax) c (conj Hw Hma)) as Ht.
    unfold trim_querybuf in *. rewrite Hma in *.
    destruct (Z.eqb_spec (qb_pos c) 0) as [E0|E0]; cbn [negb mbind option_bind ensures] in *; [done|].
    rewrite sdsrange_drop in * by (apply (proj1 Hw) || by eapply working_size, (proj1 Hw)). cbn [mbind option_bind ensures] in *.
    split_and!; [apply Ht| |done|done|done]. by eapply on_stream_frame.
  - intros x bs F c cmds Hw Hon Hr Hma Hg Hs. pose proof (on_stream_size c _ _ (proj1 Hw) Hon) as Hsz. rewrite msize_app in Hsz.
    pose proof (msize_nonneg F). pose proof (msize_nonneg bs). pose proof (working_sums _ _ (proj1 Hw)) as (Hsum & _).
    assert (rest c = querybuf c) as Er by (unfold rest; by rewrite Hg, drop_0). rewrite Er in Hsz.
    destruct (receive_fields bs c) as (Eq & _ & _ & _ & _ & _ & _ & Ema & _). cbn [argv_len_sum initPendingCommand] in *.
    split_and!; [apply receive_wf; [done|done|lia|unfold unread_len; rewrite Hg; unfold INT_MAX in *; lia]|by rewrite Ema|right].
    rewrite Eq, msize_app. lia.
Qed.

(** C16: commands written in the format of the append-only file -- one after the other, each
    with one argument at least and none too long -- and cut into any pieces, are run by a
    client that reads the pieces: every command once, in their order, with the arguments
    that were written, whatever bytes these contain.  Nothing is left of the stream, in the
    buffer or in the list of commands.  Bounds: the stream is at most [INT_MAX] bytes (2 GB),
    and with the memory of the commands within the limit on the query buffer. *)
Theorem commands_read_back {X : Type} `{HX : Server X} (run : X -> list mem -> X) (m : Z) `{HW : !Willing X run m}
    (lookahead max max_querybuf : Z) pool capacity cmds s chunks x :
  0 < lookahead -> 0 <= max <= INT_MAX -> Forall (fun n => 0 <= n <= INT_MAX) pool ->
  Forall (runs max) cmds -> write_all [] cmds = Some s -> concat chunks = s ->
  msize s <= INT_MAX -> m + msize s <= max_querybuf < 2 ^ 64 ->
  exists c, feed lookahead max max_querybuf chunks (createClient pool capacity) x = Some (true, c, foldl run x cmds) /\
    pending_cmds c = [] /\ unread_len c = 0.
Proof.
  intros Hla Hmax Hpool Hr Hs Hc Hsz Hl. rewrite (write_all_spec max) in Hs by (done || lia). injection Hs as Hs. cbn [app] in Hs.
  subst s. assert (on_stream (createClient pool capacity) (concat chunks) cmds) as Hon.
  { split; [done|]. exists [], [], cmds. split_and!; [done|done|done|done|left]. split; [done|]. split_and!; [done|done|]. by rewrite Hc. }
  assert (client_wf max (createClient pool capacity)) as Hw by by apply createClient_wf.
  assert (concat chunks = [] -> cmds = []) as Hz.
  { intros E. rewrite E in Hon. by eapply (drained max Hmax). }
  pose proof (client_link run max (msize (stream cmds)) m max_querybuf Hmax Hsz Hl) as HL.
  rewrite <- (app_nil_r (concat chunks)) in Hon, Hz.
  destruct (ensures_Some _ _ (feed_reads run m lookahead max max_querybuf (msize (stream cmds)) Hmax Hla _ _ chunks []
    (createClient pool capacity) x cmds Hw Hon Hz Hr eq_refl eq_refl eq_refl ltac:(done)))
    as ([[ok c] x'] & E & [(-> & Hw' & _ & l & r & -> & -> & Hon' & HF & _) _]).
  rewrite (HF eq_refl), app_nil_r in *.
  exists c. split; [done|]. destruct (nothing_left c Hon') as [Ep Er]. split; [done|].
  destruct (rest_unread _ _ (proj1 Hw')) as [_ <-]. by rewrite Er.
Qed.

(** ** At a concrete stream *)

#[export] Instance journal_willing : Willing journal (fun x args => x ++ [args]) 0.
Proof. constructor; [done|done|done|by left]. Qed.

(** [SET a "b\r\n"], with a line end in the value, and [P]. *)
Definition two_commands : list (list mem) := [[[83; 69; 84]; [97]; [98; 13; 10]]; [[80]]].

Definition two_pieces : list mem :=
  [[42; 51; 13; 10; 36; 51; 13; 10; 83; 69; 84; 13; 10; 36; 49];
   [13; 10; 97; 13; 10; 36; 51; 13; 10; 98; 13; 10; 13; 10; 42; 49; 13; 10; 36; 49; 13; 10; 80; 13; 10]].

Lemma two_commands_run : Forall (runs 512) two_commands.
Proof.
  repeat (constructor; [constructor; [done|by vm_compute|repeat (constructor; [by vm_compute|]); constructor]|]); constructor.
Qed.

Lemma commands_read_back_witness :
  exists c, feed 16 512 1048576 two_pieces (createClient [] 16) ([] : journal) = Some (true, c, two_commands) /\
    pending_cmds c = [] /\ unread_len c = 0.
Proof.
  apply (commands_read_back (fun (x : journal) args => x ++ [args]) 0 16 512 1048576 [] 16 two_commands (concat two_pieces) two_pieces []).
  - lia.
  - by vm_compute.
  - constructor.
  - exact two_commands_run.
  - vm_compute. reflexivity.
  - reflexivity.
  - by vm_compute.
  - split; [by vm_compute|done].
Defined.

End RequestStream.
