(* ===== verification/RequestMaster.v ===== *)
(** The stream of the master at a replica: what is passed on to the replicas of the replica
    is what was applied, and the offsets tell how far that is. *)
From S2P Require Import Prelude Util Sds Request RequestSafety RequestStream.
From stdpp Require Import options.
#[local] Set Default Proof Using "Type*".

Module RequestMaster.
Import Util Sds Request RequestSafety RequestStream.

(** The stream [s], which starts at the offset [r0]: its beginning was passed on, more of
    it is in the buffer, and [F] is to come.  Inside a transaction what was applied is
    behind what was run. *)
Record linked {X : Type} `{Server X} (r0 : Z) (s : mem) (x : X) (F : mem) (c : client) (cmds : list (list mem)) : Prop := {
  lk_master : is_master c = true;
  lk_bytes : s = fed c ++ drop (Z.to_nat (repl_applied c)) (querybuf c) ++ F;
  lk_applied : 0 <= repl_applied c <= msize (querybuf c);
  lk_read : read_reploff c = r0 + msize s - msize F;
  lk_reploff : reploff c = r0 + msize (fed c);
  lk_left : msize (fed c) + msize (stream cmds) <= msize s;
  lk_caught_up : in_multi x = false -> msize (fed c) + msize (stream cmds) = msize s
}.

Section linked.
Context {X : Type} `{HX : Server X} (r0 : Z) (s : mem).

Lemma linked_size x F c cmds : linked r0 s x F c cmds -> msize (fed c) + (msize (querybuf c) - repl_applied c) + msize F = msize s.
Proof.
  intros L. pose proof (lk_applied _ _ _ _ _ _ L). rewrite (lk_bytes _ _ _ _ _ _ L). rewrite !msize_app.
  unfold msize in *. rewrite length_drop. lia.
Qed.

Lemma linked_frame x F c c' cmds :
  linked r0 s x F c cmds -> link_state c' = link_state c -> querybuf c' = querybuf c -> linked r0 s x F c' cmds.
Proof.
  intros [] L Hq. injection L as Em Er Eo Ea Ef. constructor; rewrite ?Em, ?Er, ?Eo, ?Ea, ?Ef, ?Hq; try done.
Qed.

(** What was passed on when nothing of the transaction waits. *)
Lemma linked_fed x F c l r : linked r0 s x F c r -> s = stream (l ++ r) -> in_multi x = false -> fed c = stream l.
Proof.
  intros L E Hx. pose proof (lk_caught_up _ _ _ _ _ _ L Hx) as Hs. pose proof (lk_bytes _ _ _ _ _ _ L) as Eb.
  rewrite E, stream_app in Eb. rewrite E, stream_app, msize_app in Hs. symmetry in Eb. apply app_inj_1 in Eb; [by destruct Eb|].
  unfold msize in Hs. lia.
Qed.

(** A transaction goes on: nothing is applied. *)
Lemma linked_waits x x' F c cmds cmds' : linked r0 s x F c cmds -> in_multi x' = true ->
  msize (stream cmds') <= msize (stream cmds) -> linked r0 s x' F c cmds'.
Proof. intros [] Hx Hl. constructor; try done; [lia|congruence]. Qed.

(** [n] characters of the buffer are applied and passed on. *)
Lemma linked_applies x x' F c cmds cmds' n off :
  linked r0 s x F c cmds -> n = msize s - msize (fed c) - msize (stream cmds') -> 0 <= n <= msize (querybuf c) - repl_applied c ->
  off = reploff c + n ->
  exists bs, memread (querybuf c) (repl_applied c) n = Some bs /\
    linked r0 s x' F (set_repl (read_reploff c) off (repl_applied c + n) (fed c ++ bs) c) cmds'.
Proof.
  intros L En Hn ->. pose proof (lk_applied _ _ _ _ _ _ L) as Ha.
  destruct (memread_is_Some (querybuf c) (repl_applied c) n) as [bs Hb]; [lia..|]. exists bs. split; [done|].
  pose proof (memread_length _ _ _ _ Hb) as Hl. pose proof (memread_take _ _ _ _ Hb) as Et.
  assert (msize (fed c ++ bs) = msize (fed c) + n) as Hf by (rewrite msize_app; lia).
  destruct L. constructor; cbn [is_master fed repl_applied querybuf read_reploff reploff set_repl]; rewrite ?Hf; try done; try lia.
  etrans; [done|]. rewrite <- !app_assoc. f_equal. rewrite app_assoc. f_equal. rewrite Et.
  rewrite <- (take_drop (Z.to_nat n) (drop (Z.to_nat (repl_applied c)) (querybuf c))) at 1. f_equal.
  rewrite drop_drop. f_equal. lia.
Qed.

Context (Hr0 : 0 <= r0 /\ r0 + msize s < 2 ^ 63) (Hs : msize s <= INT_MAX).

Lemma i64_offset n : 0 <= n <= r0 + msize s -> i64 n = n.
Proof. intros Hn. apply wraps_small; [done|]. unfold in_s. lia. Qed.

Lemma written_size args : args <> [] -> 0 < msize (written args).
Proof.
  destruct args as [|a args]; [done|]. intros _. unfold written. rewrite bulks_cons. unfold bulk. rewrite !msize_app, !msize_cons, msize_nil.
  pose proof (msize_nonneg (header 42 (Z.of_nat (length (a :: args))))). pose proof (msize_nonneg (header 36 (msize a))).
  pose proof (msize_nonneg a). pose proof (msize_nonneg (bulks args)). lia.
Qed.

(** [resetClientInternal] leaves the offset of the command. *)
Lemma resetClientInternal_next queued c c' : resetClientInternal queued c = Some c' -> reploff_next c' = reploff_next c.
Proof.
  unfold resetClientInternal, popPendingCommandFromHead, reclaimPendingCommand, freePendingCommand.
  destruct (pending_cmds c) as [|p l]; [done|]. cbn [mbind option_bind]. destruct queued; [by intros [= <-]|].
  destruct (argv_len p <? 64); [destruct (tryExpandPendingCommandPool _) as [[] ?]|];
    (destruct (cassert (_ >=? _)); [|done]); cbn [mbind option_bind]; (destruct (cassert _); [|done]); by intros [= <-].
Qed.

Context (run : X -> list mem -> X) (max : Z) (Hmax : 0 <= max <= INT_MAX).

Lemma set_repl_wf a b e f c : client_wf max c -> client_wf max (set_repl a b e f c).
Proof.
  intros [[] S]. split; [by constructor|]. destruct S as [S|[(l & p & ? & ? & ? & [] & ?)|S]]; [by left|right; left|by right; right].
  exists l, p. split_and!; try done.
Qed.

Lemma linked_processed queued x F c cur l tl k :
  client_wf max c -> budget c k -> pending_cmds c = cur :: l -> good cur -> argv cur <> [] -> linked r0 s x F c (argv cur :: tl) ->
  reploff_next c = i64 (read_reploff c + msize F - msize (stream tl)) -> msize (rest c) + msize F <= msize (stream tl) ->
  ensures (commandProcessed queued (run x (argv cur)) c) (fun c' => (client_wf max c' /\ budget c' (k - 1)) /\
    parser_state c' = parser_state c /\ pending_cmds c' = l /\ read_reploff c' = read_reploff c /\
    linked r0 s (run x (argv cur)) F c' tl).
Proof.
  intros Hw B E G Hne L Ho Hl. unfold commandProcessed. set (x' := run x (argv cur)) in *. clearbody x'.
  pose proof (popped_ok max (max_small max Hmax) queued c cur l k Hw B E G) as H1.
  pose proof (resetClientInternal_ok queued c cur l (proj1 Hw) E) as H2.
  destruct (resetClientInternal queued c) as [c'|] eqn:Er; [|done]. apply resetClientInternal_next in Er.
  destruct H1 as [[Hw' B'] L'], H2 as (_ & P' & E' & _). cbn [mbind option_bind].
  assert (querybuf c' = querybuf c) as Eq by by injection P'.
  assert (linked r0 s x F c' (argv cur :: tl)) as Lc by by eapply linked_frame.
  pose proof (link_read _ _ L') as Err. pose proof (linked_size _ _ _ _ Lc) as Hsz. pose proof Lc as [Hm _ _ Hrd Hro Hle _].
  pose proof (msize_nonneg (fed c')). pose proof (msize_nonneg (stream tl)). pose proof (msize_nonneg F).
  rewrite stream_cons, msize_app in Hle. pose proof (written_size (argv cur) Hne).
  pose proof (msize_nonneg (rest c)).
  rewrite <- Err, Hrd in Ho. replace (r0 + msize s - msize F + msize F - msize (stream tl)) with (r0 + (msize s - msize (stream tl))) in Ho by lia.
  rewrite i64_offset in Ho by lia. rewrite Hm. destruct (in_multi x') eqn:Hx; cbn [andb negb mbind option_bind].
  - rewrite Hm, Z.sub_diag. change (i64 0) with 0. change (negb (0 =? 0)) with false. cbn [ensures].
    split_and!; try done. eapply linked_waits; [done|done|]. rewrite stream_cons, msize_app. lia.
  - rewrite Er, Ho. rewrite Z.gtb_ltb, (proj2 (Z.ltb_lt _ _)) by lia. cbn [cassert mbind option_bind is_master set_repl reploff]. rewrite Hm.
    set (n := msize s - msize (fed c') - msize (stream tl)).
    assert (r0 + (msize s - msize (stream tl)) - reploff c' = n) as -> by lia. rewrite i64_offset by lia.
    rewrite (proj2 (Z.eqb_neq n 0)) by lia. cbn [negb].
    destruct (linked_applies x x' F c' (argv cur :: tl) tl n (r0 + (msize s - msize (stream tl))) Lc) as (bs & Hb & Ln); [done|lia|lia|].
    cbn [querybuf repl_applied set_repl fed read_reploff]. rewrite Hb. cbn [mbind option_bind ensures].
    split_and!; try done. by do 2 apply set_repl_wf.
Qed.


Lemma linked_trim x F c cmds :
  client_wf max c -> on_stream c F cmds -> ready_len c = 0 -> linked r0 s x F c cmds ->
  ensures (trim_querybuf c) (fun c' => client_wf max c' /\ on_stream c' F cmds /\ ready_len c' = 0 /\
    linked r0 s x F c' cmds /\ repl_applied c' = 0).
Proof.
  intros Hw Hon Hr L. pose proof (lk_applied _ _ _ _ _ _ L) as Ha. unfold trim_querybuf. rewrite (lk_master _ _ _ _ _ _ L).
  destruct (Z.eqb_spec (repl_applied c) 0) as [E0|E0]; cbn [negb]; [by cbn|].
  pose proof (proj1 Hw) as W. pose proof (wk_pos _ _ W). pose proof (wk_bound _ _ W). pose proof (wk_size _ _ W).
  pose proof (linked_size _ _ _ _ L). pose proof (lk_left _ _ _ _ _ _ L). pose proof (on_stream_size _ _ _ W Hon) as Hsz.
  destruct (working_unread _ _ W) as [_ Hu]. change (msize (rest c) = unread_len c) in Hu.
  pose proof (working_sums _ _ W) as ([? Hsum] & _). unfold unread_len in *.
  assert (repl_applied c <= qb_pos c) as Hle by (cbn in Hsum; lia).
  rewrite sdsrange_drop by (done || by eapply working_size). cbn [mbind option_bind].
  rewrite Z.geb_leb, (proj2 (Z.leb_le _ _)) by done. cbn [cassert mbind option_bind ensures].
  set (qb := drop (Z.to_nat (repl_applied c)) (querybuf c)).
  assert (msize qb = msize (querybuf c) - repl_applied c) as Hqb by (subst qb; unfold msize in *; rewrite length_drop; lia).
  assert (drop (Z.to_nat (qb_pos c - repl_applied c)) qb = rest c) as Er
    by (subst qb; unfold rest; rewrite drop_drop; f_equal; lia).
  split_and!; [| |done| |done].
  - apply set_repl_wf, (buffer_wf max (max_small max Hmax)); [done|lia|lia|lia|]. intros b Hb. unfold starts_with in *.
    cbn [querybuf qb_pos set_querybuf]. subst qb. etrans; [apply (lookup_drop (querybuf c))|].
    replace (_ + _)%nat with (Z.to_nat (qb_pos c)) by lia. done.
  - by eapply on_stream_frame.
  - destruct L. constructor; cbn [is_master fed repl_applied querybuf read_reploff reploff set_repl set_querybuf]; try done.
    pose proof (msize_nonneg qb). lia.
Qed.

Lemma linked_receive m max_querybuf limit x bs F c cmds :
  client_wf max c -> on_stream c (bs ++ F) cmds -> ready_len c = 0 -> linked r0 s x (bs ++ F) c cmds -> repl_applied c = 0 ->
  msize (stream cmds) <= limit ->
  client_wf max (receive bs c) /\ linked r0 s x F (receive bs c) cmds /\
    (is_master c = true \/ m + msize (querybuf (receive bs c)) <= max_querybuf < 2 ^ 64).
Proof.
  intros Hw Hon Hr L E0 _. pose proof (linked_size _ _ _ _ L) as Hsz. pose proof (on_stream_size _ _ _ (proj1 Hw) Hon) as Hos.
  destruct (working_unread _ _ (proj1 Hw)) as [_ Hu]. change (msize (rest c) = unread_len c) in Hu.
  pose proof L as [Hm Hb _ Hrd Hro Hle Hcu]. rewrite msize_app in *. pose proof (msize_nonneg (fed c)). pose proof (msize_nonneg F).
  pose proof (msize_nonneg bs). pose proof (msize_nonneg (querybuf c)).
  split_and!; [apply receive_wf; [done|done|unfold INT_MAX in *; lia|unfold INT_MAX in *; lia]| |by left].
  unfold receive. cbv zeta. change (is_master (set_querybuf _ _ _)) with (is_master c). rewrite Hm.
  constructor; cbn [is_master fed repl_applied querybuf read_reploff reploff set_repl set_querybuf set_current]; try done.
  - rewrite Hb, E0, !drop_0, <- app_assoc. done.
  - rewrite E0, msize_app. lia.
  - rewrite Hrd, i64_offset by lia. lia.
Qed.

#[export] Instance master_link m max_querybuf limit :
  Link run m max max_querybuf limit (linked r0 s) (fun c => repl_applied c = 0).
Proof.
  constructor.
  - intros x F c c' cmds L E Hq. eapply linked_frame; [done|done|]. apply Hq, L.
  - intros. by eapply linked_processed.
  - intros. by apply linked_trim.
  - intros. by eapply linked_receive.
Qed.

End linked.

Lemma master_client_wf max r0 pool capacity :
  Forall (fun n => 0 <= n <= INT_MAX) pool -> client_wf max (replicationCreateMasterClient r0 pool capacity).
Proof.
  intros Hp. split; [|left].
  - constructor; cbn; try done; unfold unread_len, INT_MAX; cbn; lia.
  - split_and!; [by constructor|done|by left].
Qed.

(** What a replica comes to that reads the stream. *)
Lemma master_reads {X : Type} `{HX : Server X} (run : X -> list mem -> X) (m : Z) `{HW : !Willing X run m}
    (lookahead max max_querybuf r0 : Z) pool capacity cmds s chunks F x :
  0 < lookahead -> 0 <= max <= INT_MAX -> Forall (fun n => 0 <= n <= INT_MAX) pool ->
  Forall (runs max) cmds -> write_all [] cmds = Some s -> concat chunks ++ F = s ->
  msize s <= INT_MAX -> 0 <= r0 /\ r0 + msize s < 2 ^ 63 ->
  exists c l r,
    feed lookahead max max_querybuf chunks (replicationCreateMasterClient r0 pool capacity) x = Some (true, c, foldl run x l) /\
    cmds = l ++ r /\ (F = [] -> r = []) /\ fed c ++ querybuf c = concat chunks /\
    reploff c = r0 + msize (fed c) /\ read_reploff c = r0 + msize (concat chunks) /\
    (in_multi (foldl run x l) = false -> write_all [] l = Some (fed c)).
Proof.
  intros Hla Hmax Hpool Hr Hs Hc Hsz Hr0. rewrite (write_all_spec max) in Hs by (done || lia). injection Hs as Hs. cbn [app] in Hs.
  set (c0 := replicationCreateMasterClient r0 pool capacity).
  assert (client_wf max c0) as Hw by by apply master_client_wf.
  assert (on_stream c0 (concat chunks ++ F) cmds) as Hon.
  { split; [done|]. exists [], [], cmds. split_and!; [done|done|done|done|left]. split; [done|]. split_and!; [done|done|]. by rewrite Hc. }
  assert (concat chunks ++ F = [] -> cmds = []) as Hz.
  { intros E. rewrite E in Hon. by eapply (drained max Hmax). }
  assert (linked r0 s x (concat chunks ++ F) c0 cmds) as L.
  { rewrite Hc. subst c0. constructor; rewrite ?Hs; try done; cbn [read_reploff reploff fed replicationCreateMasterClient]; rewrite ?msize_nil; lia. }
  pose proof (master_link r0 s Hr0 Hsz run max Hmax m max_querybuf (msize s)) as HL.
  destruct (ensures_Some _ _ (feed_reads run m lookahead max max_querybuf (msize s) Hmax Hla (linked r0 s) (fun c => repl_applied c = 0) chunks F c0 x cmds
    Hw Hon Hz Hr eq_refl L eq_refl ltac:(by rewrite Hs)))
    as ([[ok c] x'] & E & [(-> & _ & _ & l & r & Ec & -> & _ & HF & L') Hg]). cbn in Hg.
  pose proof L' as [_ Hb _ Hrd Hro _ _]. rewrite Hg, drop_0, app_assoc, <- Hc in Hb. apply app_inv_tail in Hb.
  exists c, l, r. split_and!; try done.
  - rewrite Hrd, <- Hc, msize_app. lia.
  - intros Hx. rewrite (linked_fed _ _ _ _ _ _ _ L' ltac:(by rewrite <- Hs, Ec) Hx).
    subst cmds. apply Forall_app in Hr as [Hr _]. by rewrite (write_all_spec max) by (done || lia).
Qed.

(** C17: a replica that reads the stream of its master in any pieces passes on the stream
    itself: after any of the pieces, what it passed on and what it keeps in its buffer are
    together the bytes it read, its two offsets are those of the end of what it passed on
    and of what it read, and outside a transaction it passed on exactly the commands it ran,
    in the format they were written in.  When the whole stream was read, all its commands
    were run.  Bounds: the stream is at most [INT_MAX] bytes (2 GB), and the offset at its
    end below 2^63. *)
Theorem master_stream_forwarded {X : Type} `{HX : Server X} (run : X -> list mem -> X) (m : Z) `{HW : !Willing X run m}
    (lookahead max max_querybuf r0 : Z) pool capacity cmds s chunks F x :
  0 < lookahead -> 0 <= max <= INT_MAX -> Forall (fun n => 0 <= n <= INT_MAX) pool ->
  Forall (runs max) cmds -> write_all [] cmds = Some s -> concat chunks ++ F = s ->
  msize s <= INT_MAX -> 0 <= r0 /\ r0 + msize s < 2 ^ 63 ->
  exists c l r,
    feed lookahead max max_querybuf chunks (replicationCreateMasterClient r0 pool capacity) x = Some (true, c, foldl run x l) /\
    cmds = l ++ r /\ (F = [] -> r = []) /\ fed c ++ querybuf c = concat chunks /\
    reploff c = r0 + msize (fed c) /\ read_reploff c = r0 + msize (concat chunks) /\
    (in_multi (foldl run x l) = false -> write_all [] l = Some (fed c)).
Proof. intros. by eapply (master_reads run m lookahead max max_querybuf). Qed.

(** ** At a concrete stream *)

(** A journal with transactions, which [M] starts and [E] ends. *)
Definition transactions : Type := bool * journal.

Definition transact (x : transactions) (args : list mem) : transactions :=
  (match args with
   | [[77]] => true
   | [[69]] => false
   | _ => x.1
   end, x.2 ++ [args]).

#[export] Instance transactions_server : Server transactions := {
  authRequired _ := false;
  stopped _ := false;
  in_multi x := x.1;
  multi_argv_len_sums _ := 0;
  processCommand x args := (if x.1 then o_queued else o_done, transact x args);
  handleClientReadError _ x := x
}.

#[export] Instance transactions_willing : Willing transactions transact 0.
Proof. constructor; [done|done|done|]. intros [[] j] args; [by right|by left]. Qed.

(** [P], then a transaction with another [P] in it, and the bytes that were read: they end
    in the transaction. *)
Definition transaction : list (list mem) := [[[80]]; [[77]]; [[80]]; [[69]]].
Definition first_pieces : list mem :=
  [[42; 49; 13; 10; 36; 49; 13; 10; 80; 13; 10; 42; 49; 13]; [10; 36; 49; 13; 10; 77; 13; 10; 42]].
Definition last_piece : mem :=
  [49; 13; 10; 36; 49; 13; 10; 80; 13; 10; 42; 49; 13; 10; 36; 49; 13; 10; 69; 13; 10].

Example transaction_waits : exists c x,
  feed 16 512 1024 first_pieces (replicationCreateMasterClient 100 [] 16) (false, []) = Some (true, c, x) /\
  x = (true, [[[80]]; [[77]]]) /\ msize (fed c) = 11 /\ msize (querybuf c) = 12 /\ reploff c = 111 /\ read_reploff c = 123.
Proof. eexists _, _. split; [vm_compute; reflexivity|]. by split_and!. Qed.

Lemma master_stream_forwarded_witness : exists c l r,
    feed 16 512 1024 first_pieces (replicationCreateMasterClient 100 [] 16) (false, []) = Some (true, c, foldl transact (false, []) l) /\
    transaction = l ++ r /\ (last_piece = [] -> r = []) /\ fed c ++ querybuf c = concat first_pieces /\
    reploff c = 100 + msize (fed c) /\ read_reploff c = 100 + msize (concat first_pieces) /\
    (in_multi (foldl transact (false, []) l) = false -> write_all [] l = Some (fed c)).
Proof.
  apply (master_stream_forwarded transact 0 16 512 1024 100 [] 16 transaction (concat first_pieces ++ last_piece)
    first_pieces last_piece (false, [])).
  - lia.
  - by vm_compute.
  - constructor.
  - repeat (constructor; [constructor; [done|by vm_compute|repeat (constructor; [by vm_compute|]); constructor]|]); constructor.
  - vm_compute. reflexivity.
  - reflexivity.
  - by vm_compute.
  - split; [lia|by vm_compute].
Defined.

End RequestMaster.
