(* ===== verification/Radix.v ===== *)
(** The radix tree (rax.c): nodes with one edge per character, or with one edge for several
    characters; insertion, which splits nodes; removal, which joins them; and iterators.

    A tree is a value: every node but the head has one parent, and a write through the
    link of a parent rebuilds the nodes above ([plug]).  Characters are numbers, a pointer
    to data is a number and [NULL] is 0. *)
From S2P Require Import Prelude.
From stdpp Require Import options.
#[local] Set Default Proof Using "Type*".

Module Radix.

Definition RAX_NODE_MAX_SIZE : Z := Z.shiftl 1 29 - 1.

(** ** The data *)

(** [struct raxNode]: the data of a key ([iskey], [isnull]), [iscompr], the characters and
    the children. *)
Inductive raxNode :=
| mk_node (val : option Z) (iscompr : bool) (data : mem) (children : list raxNode).

Definition val (n : raxNode) : option Z := let 'mk_node v _ _ _ := n in v.
Definition iscompr (n : raxNode) : bool := let 'mk_node _ b _ _ := n in b.
Definition data (n : raxNode) : mem := let 'mk_node _ _ d _ := n in d.
Definition children (n : raxNode) : list raxNode := let 'mk_node _ _ _ ch := n in ch.
Definition size (n : raxNode) : Z := msize (data n).
Definition iskey (n : raxNode) : bool := bool_decide (is_Some (val n)).

(** [struct rax] *)
Record rax := mk_rax {
  head : raxNode;
  numele : Z;
  numnodes : Z
}.

(** The nodes above a node, the nearest first, each with the place of its child. *)
Definition path : Type := list (raxNode * nat).

Definition set_child (j : nat) (c n : raxNode) : raxNode := mk_node (val n) (iscompr n) (data n) (<[j:=c]> (children n)).

(** The tree where [h] is at the end of the path. *)
Fixpoint plug (p : path) (h : raxNode) : raxNode :=
  match p with
  | [] => h
  | (n, j) :: p => plug p (set_child j h n)
  end.

Definition raxNewNode : raxNode := mk_node None false [] [].
Definition raxNew : rax := mk_rax raxNewNode 0 1.

Definition raxSetData (n : raxNode) (d : Z) : raxNode := mk_node (Some d) (iscompr n) (data n) (children n).
Definition raxGetData (n : raxNode) : Z := default 0 (val n).

(** ** Walking *)

(** How many characters are the same; the place of a character. *)
Fixpoint common (v s : mem) : nat :=
  match v, s with
  | a :: v, b :: s => if a =? b then S (common v s) else O
  | _, _ => O
  end.

Fixpoint first_such (P : Z -> bool) (v : mem) : nat :=
  match v with
  | [] => O
  | a :: v => if P a then O else S (first_such P v)
  end.

(** What is left of the string, where the walk stopped, and the split position.  Every turn
    takes a character. *)
Fixpoint low_walk (fuel : nat) (h : raxNode) (s : mem) (p : path) : option (mem * raxNode * path * nat) :=
  match fuel with
  | O => None
  | S fuel =>
    match data h, s with
    | [], _ | _, [] => Some (s, h, p, O)
    | v, c :: s' =>
      if iscompr h then
        let j := common v s in
        if negb (Nat.eqb j (length v)) then Some (drop j s, h, p, j)
        else child ← children h !! 0%nat; low_walk fuel child (drop j s) ((h, O) :: p)
      else
        let j := first_such (Z.eqb c) v in
        if Nat.eqb j (length v) then Some (s, h, p, O)
        else child ← children h !! j; low_walk fuel child s' ((h, j) :: p)
    end
  end.

Definition raxLowWalk (r : rax) (s : mem) : option (mem * raxNode * path * nat) := low_walk (S (length s)) (head r) s [].

(** The whole string was taken, and the walk did not stop inside a node. *)
Definition at_node (rest : mem) (h : raxNode) (j : nat) : bool :=
  bool_decide (rest = []) && (negb (iscompr h) || Nat.eqb j 0).

Definition raxFind (r : rax) (s : mem) : option (option Z) :=
  '(rest, h, _, j) ← raxLowWalk r s;
  Some (if at_node rest h j then val h else None).

(** ** Insertion *)

(** The node with one more child, and the place of the child, which is a new node. *)
Definition raxAddChild (n : raxNode) (c : Z) : option (raxNode * nat) :=
  _ ← cassert (negb (iscompr n));
  let pos := first_such (fun a => a >? c) (data n) in
  Some (mk_node (val n) (iscompr n) (take pos (data n) ++ c :: drop pos (data n))
          (take pos (children n) ++ raxNewNode :: drop pos (children n)), pos).

Definition raxCompressNode (n : raxNode) (s : mem) : option raxNode :=
  _ ← cassert ((size n =? 0) && negb (iscompr n));
  Some (mk_node (val n) true s [raxNewNode]).

(** Nodes for the characters that are left. *)
Fixpoint insert_rest (fuel : nat) (h : raxNode) (s : mem) (p : path) (nodes : Z) : option (raxNode * path * Z) :=
  match s with
  | [] => Some (h, p, nodes)
  | c :: s' =>
    match fuel with
    | O => None
    | S fuel =>
      if (size h =? 0) && (msize s >? 1) then
        let comprsize := Z.to_nat (if msize s >? RAX_NODE_MAX_SIZE then RAX_NODE_MAX_SIZE else msize s) in
        newh ← raxCompressNode h (take comprsize s);
        insert_rest fuel raxNewNode (drop comprsize s) ((newh, O) :: p) (nodes + 1)
      else
        '(newh, pos) ← raxAddChild h c;
        insert_rest fuel raxNewNode s' ((newh, pos) :: p) (nodes + 1)
    end
  end.

(** A node that does not match from [j] on is split: the split node, the path to it and the
    number of nodes. *)
Definition split_mismatch (h : raxNode) (j : nat) (p : path) (nodes : Z) : option (raxNode * path * Z) :=
  next ← last (children h);
  c ← data h !! j;
  let postfixlen := (length (data h) - j - 1)%nat in
  let postfix := if Nat.eqb postfixlen 0 then next
                 else mk_node None (Nat.ltb 1 postfixlen) (drop (S j) (data h)) [next] in
  let nodes := if Nat.eqb postfixlen 0 then nodes else nodes + 1 in
  if Nat.eqb j 0 then Some (mk_node (val h) false [c] [postfix], p, nodes)
  else
    let splitnode := mk_node None false [c] [postfix] in
    Some (splitnode, (mk_node (val h) (Nat.ltb 1 j) (take j (data h)) [splitnode], O) :: p, nodes + 1).

(** A node that the string ends in is split before [j]. *)
Definition split_inside (h : raxNode) (j : nat) (d : Z) : option raxNode :=
  next ← last (children h);
  let postfix := mk_node (Some d) (Nat.ltb 1 (length (data h) - j)) (drop j (data h)) [next] in
  Some (mk_node (val h) (Nat.ltb 1 j) (take j (data h)) [postfix]).

(** The result, the data there was, and the tree. *)
Definition raxGenericInsert (r : rax) (s : mem) (d : Z) (overwrite : bool) : option (Z * option Z * rax) :=
  '(rest, h, p, j) ← raxLowWalk r s;
  if at_node rest h j then
    if iskey h
    then Some (0, val h, mk_rax (plug p (if overwrite then raxSetData h d else h)) (numele r) (numnodes r))
    else Some (1, None, mk_rax (plug p (raxSetData h d)) (numele r + 1) (numnodes r))
  else if iscompr h && bool_decide (rest = []) then
    h ← split_inside h j d;
    Some (1, None, mk_rax (plug p h) (numele r + 1) (numnodes r + 1))
  else
    '(h, p, nodes) ← (if iscompr h then split_mismatch h j p (numnodes r) else Some (h, p, numnodes r));
    '(h, p, nodes) ← insert_rest (length rest) h rest p nodes;
    Some (1, None, mk_rax (plug p (raxSetData h d)) (if iskey h then numele r else numele r + 1) nodes).

Definition raxInsert (r : rax) (s : mem) (d : Z) : option (Z * option Z * rax) := raxGenericInsert r s d true.
Definition raxTryInsert (r : rax) (s : mem) (d : Z) : option (Z * option Z * rax) := raxGenericInsert r s d false.

(** ** Removal *)

Definition raxRemoveChild (n : raxNode) (j : nat) : raxNode :=
  if iscompr n then mk_node (val n) false [] []
  else mk_node (val n) false (delete j (data n)) (delete j (children n)).

(** A node where the removal, or the joining of nodes, stops. *)
Definition stops (n : raxNode) : bool := iskey n || (negb (iscompr n) && negb (size n =? 1)).

(** Nodes without children are freed up to one that is needed; the place of its child. *)
Fixpoint cleanup (h : raxNode) (child : option nat) (p : path) (nodes : Z) : raxNode * option nat * path * Z :=
  match p with
  | [] => (h, child, [], nodes)
  | (n, j) :: p => if stops n then (n, Some j, p, nodes - 1) else cleanup n (Some j) p (nodes - 1)
  end.

Fixpoint go_up (h : raxNode) (p : path) : raxNode * path :=
  match p with
  | [] => (h, [])
  | (n, j) :: p' => if stops n then (h, p) else go_up (set_child j h n) p'
  end.

Fixpoint height (n : raxNode) : nat := let 'mk_node _ _ _ ch := n in S (list_max (height <$> ch)).

(** The nodes that can be joined, and their characters. *)
Fixpoint scan_chain (fuel : nat) (h : raxNode) (comprsize nodes : Z) : option (Z * Z) :=
  match fuel with
  | O => None
  | S fuel =>
    if size h =? 0 then Some (comprsize, nodes)
    else
      h ← last (children h);
      if stops h then Some (comprsize, nodes)
      else if comprsize + size h >? RAX_NODE_MAX_SIZE then Some (comprsize, nodes)
      else scan_chain fuel h (comprsize + size h) (nodes + 1)
  end.

(** The bytes after the characters of a node that align the pointers after them. *)
Definition raxPadding (nodesize : Z) : Z := Z.land (8 - (nodesize + 4) mod 8) 7.

(** Their characters are copied to a block with [room] bytes after the header of the new
    node, and they are freed. *)
Fixpoint copy_chain (fuel : nat) (h : raxNode) (room : Z) (buf : mem) (nodes : Z) : option (mem * raxNode * Z) :=
  match fuel with
  | O => None
  | S fuel =>
    if size h =? 0 then Some (buf, h, nodes)
    else
      let buf := buf ++ data h in
      _ ← cassert (msize buf <=? room);
      h ← last (children h);
      if stops h then Some (buf, h, nodes - 1) else copy_chain fuel h room buf (nodes - 1)
  end.

(** The new node has as many characters as the first scan found: what the copy wrote after
    them is padding, or is overwritten with the pointer to the child. *)
Definition compress (h : raxNode) (p : path) (nodes : Z) : option (raxNode * Z) :=
  let '(start, p) := go_up h p in
  '(comprsize, n) ← scan_chain (S (height start)) start (size start) 1;
  if n >? 1 then
    let room := comprsize + raxPadding comprsize + 8 in
    '(buf, h, nodes) ← copy_chain (S (height start)) start room [] (nodes + 1);
    Some (plug p (mk_node None true (take (Z.to_nat comprsize) buf) [h]), nodes)
  else Some (plug p start, nodes).

Definition raxRemove (r : rax) (s : mem) : option (Z * option Z * rax) :=
  '(rest, h, p, j) ← raxLowWalk r s;
  if negb (at_node rest h j) || negb (iskey h) then Some (0, None, r)
  else
    let old := val h in
    let h := mk_node None (iscompr h) (data h) (children h) in
    '(hd, nodes) ← (
      if size h =? 0 then
        match cleanup h None p (numnodes r) with
        | (h, None, p, nodes) => Some (plug p h, nodes)
        | (h, Some j, p, nodes) =>
          let new := raxRemoveChild h j in
          if (size new =? 1) && negb (iskey new) then compress new p nodes else Some (plug p new, nodes)
        end
      else if size h =? 1 then compress h p (numnodes r)
      else Some (plug p h, numnodes r));
    Some (1, old, mk_rax hd (numele r - 1) nodes).

(** ** Iterators *)

(** [struct raxIterator]; the node is the head when the stack is empty. *)
Record raxIterator := mk_it {
  it_eof : bool;
  just_seeked : bool;
  key : mem;
  it_data : Z;
  node : raxNode;
  stack : list raxNode
}.

Definition set_flags (eof seeked : bool) (it : raxIterator) : raxIterator :=
  mk_it eof seeked (key it) (it_data it) (node it) (stack it).
Definition set_place (k : mem) (n : raxNode) (st : list raxNode) (it : raxIterator) : raxIterator :=
  mk_it (it_eof it) (just_seeked it) k (it_data it) n st.
Definition get_data (it : raxIterator) : raxIterator :=
  mk_it (it_eof it) (just_seeked it) (key it) (raxGetData (node it)) (node it) (stack it).

Definition raxStart (r : rax) : raxIterator := mk_it true false [] 0 (head r) [].

(** [raxIteratorDelChars] of the edge to the current child. *)
Definition del_edge (n : raxNode) (k : mem) : option mem :=
  let todel := if iscompr n then length (data n) else 1%nat in
  _ ← cassert (Nat.leb todel (length k));
  Some (take (length k - todel) k).

(** The place after, or before, the one of [prevchild]. *)
Definition next_child (old_noup : bool) (prevchild : Z) (n : raxNode) : option nat :=
  if negb (iscompr n) && (size n >? (if old_noup then 0 else 1)) then
    let i := first_such (fun a => a >? prevchild) (data n) in
    if Nat.eqb i (length (data n)) then None else Some i
  else None.

Definition prev_child (old_noup : bool) (prevchild : Z) (n : raxNode) : option nat :=
  if negb (iscompr n) && (size n >? (if old_noup then 0 else 1)) then
    let i := first_such (fun a => a <? prevchild) (rev (data n)) in
    if Nat.eqb i (length (data n)) then None else Some (length (data n) - 1 - i)%nat
  else None.

(** One turn in a node whose child was left: the key of the node, and its next child. *)
Definition next_turn (old_noup : bool) (n : raxNode) (st : list raxNode) (k : mem) :
    option (mem * option (mem * raxNode * list raxNode)) :=
  prevchild ← last k;
  k ← del_edge n k;
  match next_child old_noup prevchild n with
  | Some i => c ← data n !! i; child ← children n !! i; Some (k, Some (k ++ [c], child, n :: st))
  | None => Some (k, None)
  end.

(** Up to a node with a next child, and to this child; [None] inside: there is none. *)
Fixpoint climb (st : list raxNode) (k : mem) : option (option (mem * raxNode * list raxNode)) :=
  match st with
  | [] => Some None
  | n :: st =>
    '(k, found) ← next_turn false n st k;
    match found with Some _ => Some found | None => climb st k end
  end.

(** The first child, or, when there is none or it is not wanted, up. *)
Fixpoint next_loop (fuel : nat) (noup : bool) (k : mem) (n : raxNode) (st : list raxNode) :
    option (option (mem * raxNode * list raxNode)) :=
  match fuel with
  | O => None
  | S fuel =>
    found ← (if noup then
               '(k, found) ← next_turn true n st k;
               match found with Some _ => Some found | None => climb st k end
             else match children n with
                  | child :: _ => Some (Some (k ++ (if iscompr n then data n else take 1 (data n)), child, n :: st))
                  | [] => climb st k
                  end);
    match found with
    | None => Some None
    | Some (k, n, st) => if iskey n then Some (Some (k, n, st)) else next_loop fuel false k n st
    end
  end.

Definition raxIteratorNextStep (r : rax) (noup : bool) (it : raxIterator) : option raxIterator :=
  if it_eof it then Some it
  else if just_seeked it then Some (set_flags (it_eof it) false it)
  else
    found ← next_loop (S (S (height (head r)))) noup (key it) (node it) (stack it);
    match found with
    | None => Some (set_flags true (just_seeked it) it)
    | Some (k, n, st) => Some (get_data (set_place k n st it))
    end.

Fixpoint raxSeekGreatest (fuel : nat) (k : mem) (n : raxNode) (st : list raxNode) : option (mem * raxNode * list raxNode) :=
  match fuel with
  | O => None
  | S fuel =>
    if size n =? 0 then Some (k, n, st)
    else
      child ← last (children n);
      c ← last (data n);
      raxSeekGreatest fuel (k ++ (if iscompr n then data n else [c])) child (n :: st)
  end.

(** One turn in a node whose child was left: the previous child's greatest key, or the node
    itself. *)
Definition prev_turn (fuel : nat) (old_noup : bool) (n : raxNode) (st : list raxNode) (k : mem) :
    option (mem * raxNode * list raxNode) :=
  prevchild ← last k;
  k ← del_edge n k;
  match prev_child old_noup prevchild n with
  | Some i => c ← data n !! i; child ← children n !! i; raxSeekGreatest fuel (k ++ [c]) child (n :: st)
  | None => Some (k, n, st)
  end.

Fixpoint prev_loop (fuel : nat) (room : nat) (noup : bool) (k : mem) (n : raxNode) (st : list raxNode) :
    option (option (mem * raxNode * list raxNode)) :=
  match fuel with
  | O => None
  | S fuel =>
    found ← (if noup then found ← prev_turn room true n st k; Some (Some found)
             else match st with
                  | [] => Some None
                  | n :: st => found ← prev_turn room false n st k; Some (Some found)
                  end);
    match found with
    | None => Some None
    | Some (k, n, st) => if iskey n then Some (Some (k, n, st)) else prev_loop fuel room false k n st
    end
  end.

Definition raxIteratorPrevStep (r : rax) (noup : bool) (it : raxIterator) : option raxIterator :=
  if it_eof it then Some it
  else if just_seeked it then Some (set_flags (it_eof it) false it)
  else
    found ← prev_loop (S (S (height (head r)))) (S (height (head r))) noup (key it) (node it) (stack it);
    match found with
    | None => Some (set_flags true (just_seeked it) it)
    | Some (k, n, st) => Some (get_data (set_place k n st it))
    end.

Inductive seek_op := op_gt (eq : bool) | op_lt (eq : bool) | op_eq | op_first | op_last.

Definition has_eq (op : seek_op) : bool := match op with op_gt e | op_lt e => e | op_eq => true | _ => false end.

(** The step that a seek ends with, whose result is the one of the next call. *)
Definition seek_next (r : rax) (noup : bool) (it : raxIterator) : option raxIterator :=
  it ← raxIteratorNextStep r noup (set_flags (it_eof it) false it); Some (set_flags (it_eof it) true it).
Definition seek_prev (r : rax) (noup : bool) (it : raxIterator) : option raxIterator :=
  it ← raxIteratorPrevStep r noup (set_flags (it_eof it) false it); Some (set_flags (it_eof it) true it).

(** The key is not there, or is not to be included: [ele] was walked up to [rest]. *)
Definition seek_near (r : rax) (gt : bool) (ele rest : mem) (splitpos : nat) (it : raxIterator) : option raxIterator :=
  let n := node it in
  let it := set_place (take (length ele - length rest - splitpos) ele) n (stack it) it in
  match rest with
  | c :: _ =>
    if negb (iscompr n) then
      let it := set_place (key it ++ [c]) n (stack it) it in
      if gt then seek_next r true it else seek_prev r true it
    else
      nodechar ← data n !! splitpos;
      let past := set_place (key it ++ data n) n (stack it) it in
      if gt then if nodechar >? c then seek_next r false it else seek_next r true past
      else if nodechar <? c then
        '(k, n, st) ← raxSeekGreatest (S (height (head r))) (key it) n (stack it);
        Some (get_data (set_place k n st it))
      else seek_prev r true past
  | [] =>
    if iscompr n && iskey n && negb (Nat.eqb splitpos 0) && negb gt then Some (get_data it)
    else if gt then seek_next r false it else seek_prev r false it
  end.

Definition seek_key (r : rax) (op : seek_op) (ele : mem) (it : raxIterator) : option raxIterator :=
  '(rest, h, p, splitpos) ← raxLowWalk r ele;
  let it := set_place [] h (fst <$> p) it in
  if has_eq op && at_node rest h splitpos && iskey h then Some (get_data (set_place ele h (stack it) it))
  else match op with
       | op_gt _ => seek_near r true ele rest splitpos it
       | op_lt _ => seek_near r false ele rest splitpos it
       | _ => Some (set_flags true (just_seeked it) it)
       end.

Definition raxSeek (r : rax) (op : seek_op) (ele : mem) (it : raxIterator) : option raxIterator :=
  let it := mk_it false true [] (it_data it) (head r) [] in
  if numele r =? 0 then Some (set_flags true true it)
  else
    match op with
    | op_first => seek_key r (op_gt true) [] it
    | op_last =>
      '(k, n, st) ← raxSeekGreatest (S (height (head r))) [] (head r) [];
      _ ← cassert (iskey n);
      Some (get_data (set_place k n st it))
    | _ => seek_key r op ele it
    end.

(** Whether there is an element, and the iterator. *)
Definition raxNext (r : rax) (it : raxIterator) : option (bool * raxIterator) :=
  it ← raxIteratorNextStep r false it; Some (negb (it_eof it), it).
Definition raxPrev (r : rax) (it : raxIterator) : option (bool * raxIterator) :=
  it ← raxIteratorPrevStep r false it; Some (negb (it_eof it), it).

Definition raxEOF (it : raxIterator) : bool := it_eof it.
Definition raxSize (r : rax) : Z := numele r.

End Radix.
