(* ===== verification/RadixTree.v ===== *)
(** What a radix tree stands for: the list of its keys with their data, in the order of the
    keys.  The parts of the list around a node ([before], [after]), and the well-formed
    trees. *)
From Stdlib Require Import Sorting.Sorted.
From S2P Require Import Prelude Radix.
From stdpp Require Import options.
#[local] Set Default Proof Using "Type*".

Module RadixTree.
Import Radix.

(** ** Keys *)

Fixpoint lex (a b : mem) : Prop :=
  match a, b with
  | _, [] => False
  | [], _ :: _ => True
  | x :: a, y :: b => x < y \/ (x = y /\ lex a b)
  end.

#[export] Instance lex_trans : Transitive lex.
Proof.
  intros a. induction a as [|x a IH]; intros [|y b] [|z c]; cbn; try done.
  intros [?|[-> ?]] [?|[-> ?]]; [left; lia|by left|by left|right]. split; [done|by apply (IH b)].
Qed.

Lemma lex_irrefl a : ~ lex a a.
Proof. induction a as [|x a IH]; [by intros []|]. intros [?|[_ ?]]; [lia|done]. Qed.

Lemma lex_app l a b : lex a b -> lex (l ++ a) (l ++ b).
Proof. intros Hab. induction l as [|x l IH]; cbn; [done|by right]. Qed.

Lemma lex_app_inv l a b : lex (l ++ a) (l ++ b) -> lex a b.
Proof. induction l as [|x l IH]; cbn; [done|]. intros [?|[_ ?]]; [lia|by apply IH]. Qed.

Lemma lex_heads x a y b : x < y -> lex (x :: a) (y :: b).
Proof. by left. Qed.

Lemma lex_trichotomy a b : lex a b \/ a = b \/ lex b a.
Proof.
  revert b. induction a as [|x a IH]; intros [|y b]; cbn; [by right; left|by left|by right; right|].
  destruct (Z.lt_total x y) as [?|[->|?]]; [by left; left| |by right; right; left].
  destruct (IH b) as [?|[->|?]]; [left; by right|by right; left|right; right; by right].
Qed.

(** Lists of keys with data. *)
Definition prefix (l : mem) (e : list (mem * Z)) : list (mem * Z) := (fun x => (l ++ x.1, x.2)) <$> e.
Definition keys_sorted (e : list (mem * Z)) : Prop := StronglySorted lex e.*1.

Lemma prefix_nil e : prefix [] e = e.
Proof. unfold prefix. rewrite <- (list_fmap_id e) at 2. apply list_fmap_ext. by intros ? [k d] _. Qed.

Lemma prefix_empty l : prefix l [] = [].
Proof. done. Qed.

Lemma prefix_app l e e' : prefix l (e ++ e') = prefix l e ++ prefix l e'.
Proof. apply fmap_app. Qed.

Lemma prefix_prefix l l' e : prefix l (prefix l' e) = prefix (l ++ l') e.
Proof. unfold prefix. rewrite <- list_fmap_compose. apply list_fmap_ext. intros ? [k d] _. cbn. by rewrite app_assoc. Qed.

Lemma elem_prefix l e x : x ∈ prefix l e <-> exists k, x.1 = l ++ k /\ (k, x.2) ∈ e.
Proof.
  unfold prefix. rewrite list_elem_of_fmap. split.
  - intros ([k d] & -> & He). by exists k.
  - destruct x as [k0 d]. cbn. intros (k & -> & He). by exists (k, d).
Qed.

Lemma keys_sorted_app e e' : keys_sorted (e ++ e') <-> keys_sorted e /\ keys_sorted e' /\ (forall x y, x ∈ e -> y ∈ e' -> lex x.1 y.1).
Proof.
  unfold keys_sorted. induction e as [|z e IH]; cbn.
  { split; [intros Hs; split_and!; [constructor|done|intros x y Hx; by apply not_elem_of_nil in Hx]|by intros (_ & ? & _)]. }
  split.
  - intros Hs. apply StronglySorted_inv in Hs as [Hs Hf]. apply IH in Hs as (H1 & H2 & H3). rewrite fmap_app in Hf. apply Forall_app in Hf as [F1 F2].
    split_and!; [by constructor|done|]. intros x y [->|Hx]%elem_of_cons Hy; [|by apply H3].
    rewrite Forall_forall in F2. apply F2. by apply list_elem_of_fmap_2.
  - intros (Hs & H2 & H3). apply StronglySorted_inv in Hs as [Hs Hf]. constructor.
    + apply IH. split_and!; [done|done|]. intros x y Hx Hy. apply H3; [by apply elem_of_cons; right|done].
    + rewrite fmap_app. apply Forall_app. split; [done|]. apply Forall_forall. intros k (y & -> & Hy)%list_elem_of_fmap.
      apply H3; [by apply elem_of_cons; left|done].
Qed.

Lemma prefix_sorted l e : keys_sorted e -> keys_sorted (prefix l e).
Proof.
  unfold keys_sorted, prefix. intros Hs. induction e as [|[k d] e IH]; cbn in *; [constructor|].
  apply StronglySorted_inv in Hs as [Hs Hf]. constructor; [by apply IH|]. rewrite Forall_forall in *.
  intros k' (y & -> & (z & -> & Hz)%list_elem_of_fmap)%list_elem_of_fmap. cbn. apply lex_app, Hf. by apply list_elem_of_fmap_2.
Qed.

Lemma keys_sorted_NoDup e : keys_sorted e -> NoDup e.*1.
Proof.
  unfold keys_sorted. induction 1 as [|k l _ IH Hf]; constructor; [|done]. intros Hin. rewrite Forall_forall in Hf. by apply (lex_irrefl k), Hf.
Qed.

(** ** Elements *)

Definition labels_of (b : bool) (d : mem) : list mem := if b then [d] else (fun c => [c]) <$> d.
Definition labels (n : raxNode) : list mem := labels_of (iscompr n) (data n).
Definition own_of (v : option Z) : list (mem * Z) := match v with Some d => [([], d)] | None => [] end.
Definition own (n : raxNode) : list (mem * Z) := own_of (val n).
Definition edges (n : raxNode) : list (mem * raxNode) := zip (labels n) (children n).

Fixpoint elements (n : raxNode) : list (mem * Z) :=
  let 'mk_node v b d ch := n in own_of v ++ concat (zip_with prefix (labels_of b d) (elements <$> ch)).

Definition flat (es : list (mem * raxNode)) : list (mem * Z) := concat ((fun e => prefix e.1 (elements e.2)) <$> es).

Lemma elements_eq n : elements n = own n ++ flat (edges n).
Proof.
  destruct n as [v b d ch]. cbn. f_equal. unfold flat, edges, labels. cbn. f_equal. generalize (labels_of b d) as ls. clear.
  induction ch as [|c ch IH]; intros [|l ls]; [done..|]. cbn. by rewrite IH.
Qed.

Lemma flat_edges_app es es' : flat (es ++ es') = flat es ++ flat es'.
Proof. unfold flat. by rewrite fmap_app, concat_app. Qed.

Lemma flat_edges_cons e es : flat (e :: es) = prefix e.1 (elements e.2) ++ flat es.
Proof. done. Qed.

(** A node with one edge. *)
Lemma elements_single v b d c : b = true \/ length d = 1%nat -> elements (mk_node v b d [c]) = own_of v ++ prefix d (elements c).
Proof.
  intros Hd. rewrite elements_eq. unfold own, edges, labels. cbn [val iscompr data children]. f_equal.
  assert (labels_of b d = [d]) as ->. { destruct b; [done|]. destruct Hd as [|Hd]; [done|]. by destruct d as [|? []]. }
  cbn [zip zip_with]. rewrite flat_edges_cons. change (flat []) with (@nil (mem * Z)). by rewrite app_nil_r.
Qed.

Lemma elements_leaf v b : elements (mk_node v b [] []) = own_of v.
Proof. destruct b; cbn; by rewrite app_nil_r. Qed.

(** ** Paths *)

Definition label (n : raxNode) (j : nat) : mem := default [] (labels n !! j).
Definition before_f (n : raxNode) (j : nat) : list (mem * Z) := own n ++ flat (take j (edges n)).
Definition after_f (n : raxNode) (j : nat) : list (mem * Z) := flat (drop (S j) (edges n)).

Fixpoint pkey (p : path) : mem :=
  match p with [] => [] | (n, j) :: p => pkey p ++ label n j end.
Fixpoint before (p : path) : list (mem * Z) :=
  match p with [] => [] | (n, j) :: p => before p ++ prefix (pkey p) (before_f n j) end.
Fixpoint after (p : path) : list (mem * Z) :=
  match p with [] => [] | (n, j) :: p => prefix (pkey p) (after_f n j) ++ after p end.

Definition frame_ok (f : raxNode * nat) : Prop := (f.2 < length (labels f.1))%nat /\ (f.2 < length (children f.1))%nat.

Lemma edge_lookup n j l c : labels n !! j = Some l -> children n !! j = Some c -> edges n !! j = Some (l, c).
Proof. intros Hl Hc. unfold edges. apply lookup_zip_with_Some. by exists l, c. Qed.

Lemma elements_child n j l c : labels n !! j = Some l -> children n !! j = Some c ->
  elements n = before_f n j ++ prefix l (elements c) ++ after_f n j.
Proof.
  intros Hl Hc. rewrite elements_eq. unfold before_f, after_f. rewrite <- app_assoc. f_equal.
  rewrite <- (take_drop_middle (edges n) j (l, c)) at 1 by by apply edge_lookup. by rewrite flat_edges_app, flat_edges_cons.
Qed.

Lemma zip_insert {A B} (l : list A) (k : list B) j b :
  take j (zip l (<[j:=b]> k)) = take j (zip l k) /\ drop (S j) (zip l (<[j:=b]> k)) = drop (S j) (zip l k).
Proof.
  revert k j. induction l as [|x l IH]; intros [|y k] [|j]; try done.
  destruct (IH k j) as [H1 H2]. split; [|exact H2].
  change ((x, y) :: take j (zip l (<[j:=b]> k)) = (x, y) :: take j (zip l k)). by rewrite H1.
Qed.

Lemma elements_set_child n j c : frame_ok (n, j) ->
  elements (set_child j c n) = before_f n j ++ prefix (label n j) (elements c) ++ after_f n j.
Proof.
  intros [H1 H2]. cbn [fst snd] in H1, H2. destruct (lookup_lt_is_Some_2 _ _ H1) as [l Hl].
  rewrite (elements_child (set_child j c n) j l c).
  - assert (label n j = l) as -> by exact (f_equal (default []) Hl). unfold before_f, after_f, edges, own, labels. cbn [val iscompr data children set_child].
    destruct (zip_insert (labels_of (iscompr n) (data n)) (children n) j c) as [-> ->]. done.
  - exact Hl.
  - cbn. by apply list_lookup_insert_eq.
Qed.

Lemma elements_plug p h : Forall frame_ok p -> elements (plug p h) = before p ++ prefix (pkey p) (elements h) ++ after p.
Proof.
  intros Hp. revert h. induction Hp as [|[n j] p Hf _ IH]; intros h; cbn [plug before pkey after].
  - by rewrite prefix_nil, app_nil_r.
  - rewrite IH, (elements_set_child n j h Hf), !prefix_app, prefix_prefix. by rewrite <- !app_assoc.
Qed.

(** ** Well-formed trees *)

Record shape (n : raxNode) : Prop := {
  sh_length : length (labels n) = length (children n);
  sh_compr : iscompr n = true -> (2 <= length (data n))%nat;
  sh_sorted : iscompr n = false -> StronglySorted Z.lt (data n)
}.

(** A node without children that is not the head is a key. *)
Definition ended (n : raxNode) : Prop := children n = [] -> val n <> None.

Inductive wf (n : raxNode) : Prop :=
| wf_intro (Hs : shape n) (Hw : forall i c, children n !! i = Some c -> wf c) (He : forall i c, children n !! i = Some c -> ended c).

Lemma wf_shape n : wf n -> shape n.
Proof. by intros []. Qed.
Lemma wf_child n i c : wf n -> children n !! i = Some c -> wf c.
Proof. intros [_ Hw _]. apply Hw. Qed.
Lemma ended_child n i c : wf n -> children n !! i = Some c -> ended c.
Proof. intros [_ _ He]. apply He. Qed.

(** The nodes of a path, but for the child that is on it. *)
Record frame_wf (f : raxNode * nat) : Prop := {
  fw_shape : shape f.1;
  fw_place : (f.2 < length (children f.1))%nat;
  fw_wf i c : i <> f.2 -> children f.1 !! i = Some c -> wf c;
  fw_ended i c : i <> f.2 -> children f.1 !! i = Some c -> ended c
}.

Lemma frame_wf_ok f : frame_wf f -> frame_ok f.
Proof. intros [Hs Hp _ _]. split; [|done]. by rewrite (sh_length _ Hs). Qed.

Lemma path_ok p : Forall frame_wf p -> Forall frame_ok p.
Proof. intros Hp. eapply Forall_impl; [done|]. intros f. apply frame_wf_ok. Qed.

Lemma wf_frame n j : wf n -> (j < length (children n))%nat -> frame_wf (n, j).
Proof. intros Hw Hj. constructor; [by apply wf_shape|done|intros i c _; by apply wf_child|intros i c _; by apply ended_child]. Qed.

Lemma wf_set_child n j c : frame_wf (n, j) -> wf c -> ended c -> wf (set_child j c n).
Proof.
  intros [[S1 S2 S3] Hp Hw He] Hc Hec. cbn in *. constructor.
  - constructor; cbn; [by rewrite length_insert|done|done].
  - intros i c'. cbn. intros [(-> & -> & _)|[Hi Hl]]%list_lookup_insert_Some; [done|]. apply (Hw i c'); [congruence|done].
  - intros i c'. cbn. intros [(-> & -> & _)|[Hi Hl]]%list_lookup_insert_Some; [done|]. apply (He i c'); [congruence|done].
Qed.

Lemma ended_set_child n j c : (j < length (children n))%nat -> ended (set_child j c n).
Proof. intros Hj. unfold ended. cbn. intros E. apply (f_equal length) in E. rewrite length_insert in E. cbn in E. lia. Qed.

Lemma wf_plug p h : Forall frame_wf p -> wf h -> (p <> [] -> ended h) -> wf (plug p h).
Proof.
  intros Hp. revert h. induction Hp as [|[n j] p Hf _ IH]; intros h Hw He; [done|]. cbn [plug]. apply IH.
  - apply wf_set_child; [done|done|by apply He].
  - intros _. apply ended_set_child. apply Hf.
Qed.

(** The nodes of a path are the ones the links of the tree go through. *)
Fixpoint links (p : path) (h : raxNode) : Prop :=
  match p with
  | [] => True
  | (n, j) :: p => children n !! j = Some h /\ links p n
  end.

(** ** The order of the elements *)

Lemma elem_concat {A} (x : A) ls : x ∈ concat ls <-> exists l, x ∈ l /\ l ∈ ls.
Proof.
  induction ls as [|l ls IH]; cbn.
  - split; [by intros ?%not_elem_of_nil|by intros (? & _ & ?%not_elem_of_nil)].
  - rewrite elem_of_app, IH. setoid_rewrite elem_of_cons. naive_solver.
Qed.

Lemma in_flat es x : x ∈ flat es <-> exists i l c k, es !! i = Some (l, c) /\ x.1 = l ++ k /\ (k, x.2) ∈ elements c.
Proof.
  unfold flat. rewrite elem_concat. split.
  - intros (e & Hx & Hin). apply list_elem_of_fmap in Hin as ([l c] & -> & Hin). apply list_elem_of_lookup in Hin as [i Hi].
    apply elem_prefix in Hx as (k & E & Hk). by exists i, l, c, k.
  - intros (i & l & c & k & Hi & E & Hk). exists (prefix l (elements c)). split; [apply elem_prefix; by exists k|].
    apply list_elem_of_fmap. exists (l, c). split; [done|]. by eapply list_elem_of_lookup_2.
Qed.

(** The labels are not empty, and begin with different characters, in their order. *)
Lemma label_head n j l : shape n -> labels n !! j = Some l -> exists c l', l = c :: l' /\ data n !! j = Some c /\
  (iscompr n = true -> l = data n /\ j = 0%nat) /\ (iscompr n = false -> l' = []).
Proof.
  intros [_ S2 _] Hl. unfold labels, labels_of in Hl. destruct (iscompr n) eqn:Eb.
  - destruct j as [|j]; [|done]. injection Hl as <-. specialize (S2 eq_refl). destruct (data n) as [|c l'] eqn:Ed; [cbn in S2; lia|]. by exists c, l'.
  - apply list_lookup_fmap_Some in Hl as (c & -> & Hc). by exists c, [].
Qed.

Lemma label_heads n i j l l' : shape n -> labels n !! i = Some l -> labels n !! j = Some l' -> (i < j)%nat ->
  exists c t c' t', l = c :: t /\ l' = c' :: t' /\ c < c'.
Proof.
  intros Hs Hi Hj Hij. destruct (label_head n i l Hs Hi) as (c & t & -> & Hc & B1 & _).
  destruct (label_head n j l' Hs Hj) as (c' & t' & -> & Hc' & B2 & _). exists c, t, c', t'. split; [done|split; [done|]].
  destruct (iscompr n) eqn:Eb; [destruct (B2 eq_refl); lia|]. pose proof (sh_sorted _ Hs Eb) as Hd.
  clear -Hd Hc Hc' Hij. revert i j Hc Hc' Hij. induction Hd as [|a d _ IH Hf]; intros [|i] [|j] Hc Hc' Hij; try done; try lia.
  - injection Hc as ->. rewrite Forall_forall in Hf. apply Hf. by eapply list_elem_of_lookup_2.
  - apply (IH i j); [done|done|lia].
Qed.

Lemma elements_sorted n : wf n -> keys_sorted (elements n).
Proof.
  induction 1 as [n Hs Hw IH He]. rewrite elements_eq.
  assert (forall k, keys_sorted (flat (drop k (edges n)))) as Hflat.
  { intros k. remember (length (edges n) - k)%nat as m eqn:Em. revert k Em. induction m as [|m IHm]; intros k Em.
    - rewrite drop_ge by lia. constructor.
    - destruct (lookup_lt_is_Some_2 (edges n) k) as [[l c] Hk]; [lia|]. rewrite (drop_S _ _ _ Hk), flat_edges_cons. cbn [fst snd].
      apply lookup_zip_with_Some in Hk as (l' & c' & E & Hl & Hc). injection E as <- <-.
      apply keys_sorted_app. split_and!; [by eapply prefix_sorted, IH|apply IHm; lia|]. intros [kx dx] [ky dy] Hx Hy.
      apply elem_prefix in Hx as (k1 & Ex & _). apply in_flat in Hy as (i & l2 & c2 & k2 & Hi & Ey & _).
      cbn [fst snd] in Ex, Ey |- *. subst kx ky.
      rewrite lookup_drop in Hi. apply lookup_zip_with_Some in Hi as (l3 & c3 & E & Hl3 & _). injection E as <- <-.
      destruct (label_heads n k (S k + i) l l2 Hs Hl Hl3) as (c4 & t & c5 & t' & -> & -> & Hlt); [lia|]. by apply lex_heads. }
  apply keys_sorted_app. split_and!; [|apply (Hflat 0%nat)|].
  - unfold own, own_of. destruct (val n); repeat constructor.
  - intros [kx dx] [ky dy] Hx Hy. apply in_flat in Hy as (i & l & c & k & Hi & Ey & _). cbn [fst snd] in Ey |- *. subst ky.
    apply lookup_zip_with_Some in Hi as (l' & c' & E & Hl & _). injection E as <- <-.
    destruct (label_head n i l Hs Hl) as (a & t & -> & _). unfold own, own_of in Hx.
    destruct (val n); [apply list_elem_of_singleton in Hx as [= -> ->]; done|by apply not_elem_of_nil in Hx].
Qed.

(** A tree that is not an empty head has an element. *)
Lemma elements_nonempty n : wf n -> ended n -> elements n <> [].
Proof.
  induction 1 as [n Hs Hw IH He]. intros Hn E. rewrite elements_eq in E. apply app_nil in E as [Eo Ef].
  destruct (children n) as [|c ch] eqn:Ec.
  - unfold own, own_of in Eo. specialize (Hn Ec). by destruct (val n).
  - pose proof (sh_length _ Hs) as Hl. rewrite Ec in Hl. destruct (labels n) as [|l ls] eqn:El; [done|].
    unfold edges in Ef. rewrite El, Ec in Ef. cbn [zip zip_with] in Ef. rewrite flat_edges_cons in Ef. apply app_nil in Ef as [Ef _].
    apply fmap_nil_inv in Ef. eapply (IH 0%nat c eq_refl); [|exact Ef]. by apply (He 0%nat).
Qed.

(** ** The number of nodes *)

Fixpoint count (n : raxNode) : Z := let 'mk_node _ _ _ ch := n in 1 + foldr (fun c k => count c + k) 0 ch.

Definition count_all (ch : list raxNode) : Z := foldr (fun c k => count c + k) 0 ch.

Lemma count_eq n : count n = 1 + count_all (children n).
Proof. by destruct n. Qed.

Lemma count_app ch ch' : count_all (ch ++ ch') = count_all ch + count_all ch'.
Proof. unfold count_all. induction ch as [|c ch IH]; cbn; [done|]. lia. Qed.

Lemma count_set_child n j c c' : children n !! j = Some c -> count (set_child j c' n) = count n - count c + count c'.
Proof.
  intros Hc. rewrite (count_eq (set_child j c' n)), (count_eq n). cbn [children set_child]. rewrite insert_take_drop by by eapply lookup_lt_Some.
  pose proof (f_equal count_all (take_drop_middle _ _ _ Hc)) as E. rewrite !count_app in *.
  change (count_all (?x :: ?l)) with (count x + count_all l) in *. lia.
Qed.

Fixpoint count_path (p : path) : Z :=
  match p with
  | [] => 0
  | (n, j) :: p => count n - default 0 (count <$> children n !! j) + count_path p
  end.

Lemma count_plug p h : Forall frame_ok p -> count (plug p h) = count_path p + count h.
Proof.
  intros Hp. revert h. induction Hp as [|[n j] p [_ Hj] _ IH]; intros h; cbn [plug count_path]; [lia|].
  rewrite IH. cbn in Hj. destruct (lookup_lt_is_Some_2 _ _ Hj) as [c Hc]. rewrite (count_set_child n j c h Hc), Hc. cbn. lia.
Qed.

End RadixTree.
