(* ===== verification/RadixSafety.v ===== *)
(** Insertion and removal in a radix tree: the walk stops where the key is or would be, and
    splitting and joining nodes changes neither the elements nor their order. *)
From Stdlib Require Import Sorting.Sorted.
From stdpp Require Import gmap.
From S2P Require Import Prelude Radix RadixTree.
From stdpp Require Import options.
#[local] Set Default Proof Using "Type*".

Module RadixSafety.
Import Radix RadixTree.

(** ** Walking *)

Lemma common_spec v s : exists t, s = take (common v s) v ++ t /\ drop (common v s) s = t /\ (common v s <= length v)%nat /\
  ((common v s < length v)%nat -> t = [] \/ exists a c t', v !! common v s = Some a /\ t = c :: t' /\ a <> c).
Proof.
  revert s. induction v as [|a v IH]; intros [|b s]; cbn [common].
  - exists []. split_and!; try done. by left.
  - exists (b :: s). split_and!; try done. cbn. lia.
  - exists []. split_and!; try done; [cbn; lia|]. by left.
  - destruct (Z.eqb_spec a b) as [->|Hne].
    + destruct (IH s) as (t & E & Ed & Hl & Hm). exists t. cbn [take drop length app]. split_and!; [by rewrite <- E|done|lia|].
      intros Hlt. apply Hm. lia.
    + exists (b :: s). split_and!; [done|done|cbn; lia|]. intros _. right. by exists a, b, s.
Qed.

Lemma first_such_spec P v : (first_such P v <= length v)%nat /\
  (forall i a, v !! i = Some a -> (i < first_such P v)%nat -> P a = false) /\
  (forall a, v !! first_such P v = Some a -> P a = true).
Proof.
  induction v as [|b v (H1 & H2 & H3)]; cbn [first_such].
  { split_and!; [cbn; lia|done|done]. }
  destruct (P b) eqn:Eb; cbn [length].
  - split_and!; [lia|intros; lia|by intros a [= <-]].
  - split_and!; [lia| |exact H3]. intros [|i] a Hi Hlt; [by injection Hi as <-|]. apply (H2 i a Hi). lia.
Qed.

(** Where a walk stops. *)
Definition stopped (h : raxNode) (rest : mem) (j : nat) : Prop :=
  if iscompr h then (j < length (data h))%nat /\
    (rest = [] \/ exists a c t, data h !! j = Some a /\ rest = c :: t /\ a <> c)
  else j = 0%nat /\ (forall c t, rest = c :: t -> c ∉ data h).

Record walked (root : raxNode) (s rest : mem) (h : raxNode) (p : path) (j : nat) : Prop := {
  wd_plug : plug p h = root;
  wd_path : Forall frame_wf p;
  wd_wf : wf h;
  wd_links : links p h;
  wd_ended : p <> [] -> ended h;
  wd_key : s = pkey p ++ take j (data h) ++ rest;
  wd_stop : stopped h rest j
}.

Lemma data_children n : wf n -> data n = [] -> children n = [] /\ iscompr n = false.
Proof.
  intros [[S1 S2 _] _ _] Ed. destruct (iscompr n) eqn:Eb; [specialize (S2 eq_refl); rewrite Ed in S2; cbn in S2; lia|].
  split; [|done]. apply nil_length_inv. rewrite <- S1. unfold labels, labels_of. by rewrite Eb, Ed.
Qed.

Lemma compr_child n : wf n -> iscompr n = true -> exists c, children n = [c].
Proof.
  intros [[S1 _ _] _ _] Eb. unfold labels, labels_of in S1. rewrite Eb in S1. destruct (children n) as [|c [|]]; try done. by exists c.
Qed.

Lemma normal_length n : wf n -> iscompr n = false -> length (children n) = length (data n).
Proof. intros [[S1 _ _] _ _] Eb. unfold labels, labels_of in S1. rewrite Eb in S1. by rewrite length_fmap in S1. Qed.

Lemma label_compr n : iscompr n = true -> label n 0 = data n.
Proof. intros Eb. unfold label, labels, labels_of. by rewrite Eb. Qed.

Lemma label_normal n j c : iscompr n = false -> data n !! j = Some c -> label n j = [c].
Proof.
  intros Eb Hc. unfold label, labels, labels_of. rewrite Eb.
  assert (((fun c => [c]) <$> data n) !! j = Some [c]) as E by (apply list_lookup_fmap_Some; by exists c). exact (f_equal (default []) E).
Qed.

Lemma set_child_same n j c : children n !! j = Some c -> set_child j c n = n.
Proof. intros Hc. destruct n as [v b d ch]. unfold set_child. cbn in *. by rewrite list_insert_id. Qed.

(** One edge down. *)
Lemma walk_down root n j c p : plug p n = root -> Forall frame_wf p -> wf n -> children n !! j = Some c ->
  plug ((n, j) :: p) c = root /\ Forall frame_wf ((n, j) :: p) /\ wf c /\ ended c.
Proof.
  intros Hp Hf Hw Hc. split_and!.
  - cbn [plug]. by rewrite set_child_same.
  - constructor; [|done]. apply wf_frame; [done|by eapply lookup_lt_Some].
  - by eapply wf_child.
  - by eapply ended_child.
Qed.

Lemma low_walk_ok fuel root s0 h s p :
  (length s < fuel)%nat -> plug p h = root -> Forall frame_wf p -> wf h -> links p h -> (p <> [] -> ended h) -> s0 = pkey p ++ s ->
  exists rest h' p' j, low_walk fuel h s p = Some (rest, h', p', j) /\ walked root s0 rest h' p' j.
Proof.
  revert h s p. induction fuel as [|fuel IH]; intros h s p Hf Hp Hpw Hw Hli He Hs; [lia|]. cbn [low_walk].
  destruct (data h) as [|a v] eqn:Ed.
  { destruct (data_children h Hw Ed) as [_ Eb]. exists s, h, p, 0%nat. split; [done|]. constructor; try done.
    unfold stopped. rewrite Eb, Ed. split; [done|]. intros c t _. apply not_elem_of_nil. }
  destruct s as [|c s'].
  { exists [], h, p, 0%nat. split; [done|]. constructor; try done. unfold stopped. rewrite Ed.
    destruct (iscompr h); [split; [cbn; lia|by left]|done]. }
  rewrite <- Ed. destruct (iscompr h) eqn:Eb.
  - destruct (common_spec (data h) (c :: s')) as (t & Es & Edr & Hle & Hm). set (j := common (data h) (c :: s')) in *.
    destruct (Nat.eqb_spec j (length (data h))) as [Ej|Hne]; cbn [negb].
    + destruct (compr_child h Hw Eb) as [c0 Hc0]. rewrite Hc0. cbn [lookup list_lookup mbind option_bind].
      destruct (walk_down root h 0 c0 p Hp Hpw Hw) as (Hp' & Hpw' & Hw' & He'); [by rewrite Hc0|].
      rewrite Edr. apply IH; try done.
      * apply (f_equal length) in Es. rewrite length_app, length_take_le in Es by lia. cbn [length] in *. rewrite Ed in Ej. cbn in Ej. lia.
      * cbn [links]. split; [by rewrite Hc0|done].
      * cbn [pkey]. rewrite (label_compr h Eb), Hs, Es, Ej, firstn_all. by rewrite <- app_assoc.
    + exists t, h, p, j. rewrite Edr. split; [done|]. constructor; try done; [by rewrite Hs, Es|].
      unfold stopped. rewrite Eb. split; [lia|]. destruct (Hm ltac:(lia)) as [?|(a' & c' & t' & ? & ? & ?)]; [by left|right; by exists a', c', t'].
  - destruct (first_such_spec (Z.eqb c) (data h)) as (Hle & Hb & Hat). set (j := first_such (Z.eqb c) (data h)) in *.
    destruct (Nat.eqb_spec j (length (data h))) as [Ej|Hne].
    + exists (c :: s'), h, p, 0%nat. split; [done|]. constructor; try done. unfold stopped. rewrite Eb. split; [done|].
      intros c1 t1 [= <- <-] Hin. apply list_elem_of_lookup in Hin as [i Hi]. pose proof (lookup_lt_Some _ _ _ Hi).
      specialize (Hb i c Hi ltac:(lia)). by rewrite Z.eqb_refl in Hb.
    + destruct (lookup_lt_is_Some_2 (data h) j) as [c1 Hc1]; [lia|]. pose proof (Hat c1 Hc1) as ->%Z.eqb_eq.
      destruct (lookup_lt_is_Some_2 (children h) j) as [c0 Hc0]; [rewrite (normal_length h) by done; lia|].
      rewrite Hc0. cbn [mbind option_bind].
      destruct (walk_down root h j c0 p Hp Hpw Hw Hc0) as (Hp' & Hpw' & Hw' & He'). apply IH; try done; [cbn in Hf; lia|].
      cbn [pkey]. rewrite (label_normal h j c1 Eb Hc1), Hs. by rewrite <- app_assoc.
Qed.

Lemma raxLowWalk_ok r s : wf (head r) ->
  exists rest h p j, raxLowWalk r s = Some (rest, h, p, j) /\ walked (head r) s rest h p j.
Proof. intros Hw. apply low_walk_ok; try done. lia. Qed.

(** ** Data *)

Lemma elements_set_data h d : elements (raxSetData h d) = [([], d)] ++ flat (edges h).
Proof. by rewrite elements_eq. Qed.

Lemma elements_clear h : elements (mk_node None (iscompr h) (data h) (children h)) = flat (edges h).
Proof. by rewrite elements_eq. Qed.

Lemma wf_set_val v h : wf h -> wf (mk_node v (iscompr h) (data h) (children h)).
Proof. intros [[S1 S2 S3] Hw He]. constructor; [by constructor|done|done]. Qed.

(** What the data of a node is among the elements of the tree. *)
Definition left_of (p : path) : list (mem * Z) := before p.
Definition right_of (p : path) (h : raxNode) : list (mem * Z) := prefix (pkey p) (flat (edges h)) ++ after p.

Lemma plug_own p h : Forall frame_wf p ->
  elements (plug p h) = left_of p ++ match val h with Some d => [(pkey p, d)] | None => [] end ++ right_of p h.
Proof.
  intros Hp. rewrite (elements_plug p h (path_ok p Hp)), elements_eq, prefix_app. unfold left_of, right_of. f_equal.
  rewrite <- app_assoc. f_equal. unfold own, own_of. destruct (val h); [|done]. unfold prefix. cbn. by rewrite app_nil_r.
Qed.

(** ** Nodes with one edge *)

Definition edge_ok (b : bool) (d : mem) : Prop := (1 <= length d)%nat /\ b = Nat.ltb 1 (length d).

Lemma single_labels v b d c : edge_ok b d -> labels (mk_node v b d [c]) = [d].
Proof.
  intros [Hl ->]. unfold labels, labels_of. cbn [iscompr data]. destruct d as [|a [|a' d]]; cbn in *; [lia|done|done].
Qed.

Lemma single_shape v b d c : edge_ok b d -> shape (mk_node v b d [c]).
Proof.
  intros E. constructor; [by rewrite (single_labels v b d c E)| |]; cbn [iscompr data]; intros Hb; destruct E as [Hl Eb]; rewrite Hb in Eb; symmetry in Eb.
  - by apply Nat.ltb_lt in Eb.
  - apply Nat.ltb_ge in Eb. destruct d as [|a [|]]; cbn in *; [lia|repeat constructor|lia].
Qed.

Lemma single_label v b d c : edge_ok b d -> label (mk_node v b d [c]) 0 = d.
Proof. intros E. unfold label. by rewrite single_labels. Qed.

Lemma single_elements v b d c : edge_ok b d -> elements (mk_node v b d [c]) = own_of v ++ prefix d (elements c).
Proof.
  intros [Hl ->]. apply elements_single. destruct (Nat.ltb_spec 1 (length d)); [by left|right; lia].
Qed.

Lemma single_wf v b d c : edge_ok b d -> wf c -> ended c -> wf (mk_node v b d [c]).
Proof. intros E Hw He. constructor; [by apply single_shape| |]; intros [|i] c'; cbn; [by intros [= <-]|done|by intros [= <-]|done]. Qed.

Lemma single_frame v b d c : edge_ok b d -> frame_wf (mk_node v b d [c], 0%nat).
Proof. intros E. constructor; [by apply single_shape|cbn; lia| |]; intros [|i] c'; by cbn. Qed.

Lemma compr_edge n : wf n -> iscompr n = true -> edge_ok (iscompr n) (data n).
Proof. intros [[_ S2 _] _ _] Eb. specialize (S2 Eb). split; [lia|]. rewrite Eb. symmetry. apply Nat.ltb_lt. lia. Qed.

Lemma plug_same p h h' : Forall frame_wf p -> elements h' = elements h -> elements (plug p h') = elements (plug p h).
Proof. intros Hp E. by rewrite !(elements_plug p _ (path_ok p Hp)), E. Qed.

Lemma raxNewNode_wf : wf raxNewNode.
Proof. constructor; [|by intros [|i]|by intros [|i]]. constructor; [done|done|constructor]. Qed.

(** ** Splitting *)

Lemma postfix_ok h j next a : wf h -> iscompr h = true -> children h = [next] -> data h !! j = Some a ->
  let n := (length (data h) - j - 1)%nat in
  let postfix := if Nat.eqb n 0 then next else mk_node None (Nat.ltb 1 n) (drop (S j) (data h)) [next] in
  wf postfix /\ ended postfix /\ elements postfix = prefix (drop (S j) (data h)) (elements next) /\
  count postfix = count next + (if Nat.eqb n 0 then 0 else 1).
Proof.
  intros Hw Eb Hc Hj n. pose proof (lookup_lt_Some _ _ _ Hj) as Hlt.
  assert (wf next /\ ended next) as [Hwn Hen] by (split; [eapply (wf_child h 0)|eapply (ended_child h 0)]; by rewrite ?Hc).
  assert (n = length (drop (S j) (data h))) as En by (subst n; rewrite length_drop; lia).
  destruct (Nat.eqb_spec n 0) as [E0|Hne]; cbn zeta.
  - rewrite E0 in En. symmetry in En. apply nil_length_inv in En. rewrite En, prefix_nil. split_and!; try done. lia.
  - assert (edge_ok (Nat.ltb 1 n) (drop (S j) (data h))) as He by (split; [lia|by rewrite En]).
    split_and!; [by apply single_wf|by intros ?|by rewrite (single_elements None _ _ _ He)|].
    rewrite (count_eq (mk_node _ _ _ _)). cbn. lia.
Qed.

Lemma split_mismatch_ok h j p nodes a :
  wf h -> iscompr h = true -> data h !! j = Some a -> Forall frame_wf p ->
  exists h' p' nodes', split_mismatch h j p nodes = Some (h', p', nodes') /\ Forall frame_wf p' /\ wf h' /\
    iscompr h' = false /\ data h' = [a] /\ pkey p' = pkey p ++ take j (data h) /\
    elements (plug p' h') = elements (plug p h) /\ count (plug p' h') - count (plug p h) = nodes' - nodes.
Proof.
  intros Hw Eb Hj Hp. destruct (compr_child h Hw Eb) as [next Hc]. unfold split_mismatch. rewrite Hc. cbn [last mbind option_bind]. rewrite Hj.
  cbn [mbind option_bind]. pose proof (postfix_ok h j next a Hw Eb Hc Hj) as Hpost. cbv zeta in Hpost.
  set (n := (length (data h) - j - 1)%nat) in *. set (postfix := if Nat.eqb n 0 then next else _) in *.
  destruct Hpost as (Pw & Pe & Pel & Pc). pose proof (lookup_lt_Some _ _ _ Hj) as Hlt.
  assert (edge_ok false [a]) as Ea by (split; [cbn; lia|done]).
  assert (elements h = own h ++ prefix (data h) (elements next)) as Eh.
  { pose proof (single_elements (val h) (iscompr h) (data h) next (compr_edge h Hw Eb)) as E. destruct h as [v b d ch]. cbn in *. by subst ch. }
  assert (count h = 1 + count next) as Ech by (rewrite count_eq, Hc; cbn; lia).
  destruct (Nat.eqb_spec j 0) as [->|Hne].
  - eexists _, _, _. split; [done|]. refine (conj Hp (conj _ (conj eq_refl (conj eq_refl (conj _ (conj _ _)))))).
    + by apply single_wf.
    + by rewrite take_0, app_nil_r.
    + apply plug_same; [done|]. rewrite (single_elements _ _ _ _ Ea), Eh, Pel, prefix_prefix. unfold own. f_equal. f_equal.
      rewrite <- (take_drop_middle _ _ _ Hj) at 2. done.
    + rewrite !(count_plug p _ (path_ok p Hp)), (count_eq (mk_node _ _ _ _)). cbn [children count_all foldr]. fold postfix. rewrite Pc. destruct (Nat.eqb n 0); lia.
  - set (S0 := mk_node None false [a] [postfix]). assert (wf S0 /\ ended S0) as [Sw Se] by (split; [by apply single_wf|by intros ?]).
    assert (length (take j (data h)) = j) as Lj by (rewrite length_take_le by lia; done).
    assert (edge_ok (Nat.ltb 1 j) (take j (data h))) as Ej by (rewrite <- Lj at 1; split; [lia|done]).
    eexists _, _, _. split; [done|]. refine (conj _ (conj Sw (conj eq_refl (conj eq_refl (conj _ (conj _ _)))))).
    + constructor; [by apply single_frame|done].
    + cbn [pkey]. by rewrite (single_label _ _ _ _ Ej).
    + cbn [plug]. apply plug_same; [done|]. unfold set_child. cbn [val iscompr data children].
      change (<[0%nat:=S0]> [S0]) with [S0]. rewrite (single_elements _ _ _ _ Ej). subst S0. rewrite (single_elements _ _ _ _ Ea), Eh, Pel.
      unfold own_of at 2. cbn [app]. rewrite !prefix_prefix. unfold own. do 2 f_equal.
      rewrite <- app_assoc. exact (take_drop_middle _ _ _ Hj).
    + cbn [plug]. rewrite !(count_plug p _ (path_ok p Hp)), (count_eq (set_child _ _ _)). unfold set_child. cbn [children].
      change (<[0%nat:=S0]> [S0]) with [S0]. cbn [count_all foldr]. rewrite (count_eq S0). subst S0. cbn [children count_all foldr]. rewrite Pc.
      destruct (Nat.eqb n 0); lia.
Qed.

Lemma split_inside_ok h j p d : wf h -> iscompr h = true -> (0 < j < length (data h))%nat -> Forall frame_wf p ->
  exists h', split_inside h j d = Some h' /\ wf h' /\ ended h' /\
    (exists l1 l2, elements (plug p h) = l1 ++ l2 /\ elements (plug p h') = l1 ++ [(pkey p ++ take j (data h), d)] ++ l2) /\
    count (plug p h') = count (plug p h) + 1.
Proof.
  intros Hw Eb Hj Hp. destruct (compr_child h Hw Eb) as [next Hc]. unfold split_inside. rewrite Hc. cbn [last mbind option_bind].
  assert (wf next /\ ended next) as [Hwn Hen] by (split; [eapply (wf_child h 0)|eapply (ended_child h 0)]; by rewrite ?Hc).
  assert (length (take j (data h)) = j) as Lj by (rewrite length_take_le by lia; done).
  assert (edge_ok (Nat.ltb 1 j) (take j (data h))) as Ej by (rewrite <- Lj at 1; split; [lia|done]).
  assert (edge_ok (Nat.ltb 1 (length (data h) - j)) (drop j (data h))) as Ed by (rewrite <- length_drop; split; [rewrite length_drop; lia|done]).
  set (P := mk_node (Some d) _ _ _). assert (wf P /\ ended P) as [Pw Pe] by (split; [by apply single_wf|by intros ?]).
  eexists. split; [done|]. split; [by apply single_wf|split; [by intros ?|split]].
  - assert (elements h = own h ++ prefix (data h) (elements next)) as Eh.
    { pose proof (single_elements (val h) (iscompr h) (data h) next (compr_edge h Hw Eb)) as E. destruct h as [v b dd ch]. cbn in *. by subst ch. }
    exists (before p ++ prefix (pkey p) (own h)), (prefix (pkey p) (prefix (data h) (elements next)) ++ after p).
    rewrite !(elements_plug p _ (path_ok p Hp)), Eh, (single_elements _ _ _ _ Ej). subst P. rewrite (single_elements _ _ _ _ Ed).
    rewrite !prefix_app, !prefix_prefix, <- (app_assoc (pkey p) (take j (data h))), (take_drop j (data h) : _ ++ _ = _).
    rewrite <- !app_assoc. split; [done|]. do 2 f_equal. unfold own_of, prefix. cbn. by rewrite app_nil_r.
  - rewrite !(count_plug p _ (path_ok p Hp)), (count_eq (mk_node _ _ _ _)), (count_eq h), Hc. cbn [children count_all foldr]. rewrite (count_eq P).
    cbn. lia.
Qed.

(** ** Adding nodes *)

Lemma zip_insert_at {A B} (l : list A) (k : list B) pos a b : length l = length k ->
  zip (take pos l ++ a :: drop pos l) (take pos k ++ b :: drop pos k) = take pos (zip l k) ++ (a, b) :: drop pos (zip l k).
Proof.
  revert l k. induction pos as [|pos IH]; intros [|x l] [|y k] Hl; try done.
  change ((x, y) :: zip (take pos l ++ a :: drop pos l) (take pos k ++ b :: drop pos k) = (x, y) :: take pos (zip l k) ++ (a, b) :: drop pos (zip l k)).
  rewrite IH; [done|]. cbn in Hl. lia.
Qed.

Lemma sorted_insert_at v c : StronglySorted Z.lt v -> c ∉ v ->
  let pos := first_such (fun a => a >? c) v in StronglySorted Z.lt (take pos v ++ c :: drop pos v).
Proof.
  intros Hv Hc. cbv zeta. induction Hv as [|a v Hs IH Hf]; cbn [first_such]; [repeat constructor|].
  apply not_elem_of_cons in Hc as [Hne Hc]. destruct (Z.gtb_spec a c) as [Hlt|Hge].
  - cbn [take drop app]. constructor; [by constructor|]. constructor; [lia|]. eapply Forall_impl; [exact Hf|]. cbn. lia.
  - cbn [take drop app]. constructor; [by apply IH|]. rewrite Forall_app, Forall_cons. split_and!.
    + by apply Forall_take.
    + lia.
    + by apply Forall_drop.
Qed.

Lemma lookup_insert_at {A} (l : list A) pos x i c : (pos <= length l)%nat -> i <> pos ->
  (take pos l ++ x :: drop pos l) !! i = Some c -> exists i', l !! i' = Some c.
Proof.
  intros Hp Hi Hc. apply lookup_app_Some in Hc as [Hc|[Hl Hc]].
  - exists i. by apply lookup_take_Some in Hc as [? _].
  - rewrite length_take_le in * by done. destruct (i - pos)%nat as [|k] eqn:E; [lia|]. cbn in Hc. exists (pos + k)%nat. by rewrite <- lookup_drop.
Qed.

Lemma raxAddChild_ok h c : wf h -> iscompr h = false -> c ∉ data h ->
  exists newh pos, raxAddChild h c = Some (newh, pos) /\ frame_wf (newh, pos) /\ label newh pos = [c] /\
    children newh !! pos = Some raxNewNode /\ elements newh = elements h /\ count newh = count h + 1.
Proof.
  intros Hw Eb Hc. unfold raxAddChild. rewrite Eb. cbn [negb cassert mbind option_bind]. set (pos := first_such _ _).
  destruct (first_such_spec (fun a => a >? c) (data h)) as (Hpos & _). fold pos in Hpos. pose proof (normal_length h Hw Eb) as Hl.
  set (newh := mk_node _ _ _ _). exists newh, pos. split; [done|].
  assert (children newh !! pos = Some raxNewNode) as Hch.
  { subst newh. cbn [children]. apply list_lookup_middle. rewrite length_take_le by lia. done. }
  assert (length (children newh) = S (length (children h))) as Ln.
  { subst newh. cbn [children]. rewrite length_app. cbn [length]. rewrite length_take_le, length_drop by lia. lia. }
  assert (length (data newh) = S (length (data h))) as Ld.
  { subst newh. cbn [data]. rewrite length_app. cbn [length]. rewrite length_take_le, length_drop by lia. lia. }
  split_and!.
  - constructor.
    + constructor; cbn [fst]; change (iscompr newh) with false.
      * change (labels newh) with ((fun c => [c]) <$> data newh). rewrite length_fmap. lia.
      * done.
      * intros _. apply sorted_insert_at; [by apply (sh_sorted _ (wf_shape _ Hw))|done].
    + cbn [fst snd]. lia.
    + intros i n Hi. cbn [fst snd] in *. intros Hn. apply lookup_insert_at in Hn as [i' Hi']; [|lia|done]. by eapply wf_child.
    + intros i n Hi. cbn [fst snd] in *. intros Hn. apply lookup_insert_at in Hn as [i' Hi']; [|lia|done]. by eapply ended_child.
  - apply label_normal; [done|]. subst newh. cbn [data]. apply list_lookup_middle. by rewrite length_take_le by lia.
  - done.
  - rewrite !elements_eq. f_equal. unfold edges, labels. subst newh. cbn [iscompr data children]. unfold labels_of. rewrite Eb.
    rewrite fmap_app, fmap_cons, fmap_take, fmap_drop, zip_insert_at by by rewrite length_fmap.
    rewrite flat_edges_app, flat_edges_cons. change (elements ([c], raxNewNode).2) with (@nil (mem * Z)). rewrite prefix_empty, app_nil_l, <- flat_edges_app.
    by rewrite take_drop.
  - rewrite !count_eq. subst newh. cbn [children]. rewrite <- (take_drop pos (children h)) at 3. rewrite !count_app. cbn [count_all foldr]. fold (count_all (drop pos (children h))).
    change (count raxNewNode) with 1. lia.
Qed.

Lemma insert_rest_ok fuel h s p nodes :
  (length s <= fuel)%nat -> Forall frame_wf p -> wf h -> (forall c t, s = c :: t -> iscompr h = false /\ c ∉ data h) ->
  exists h' p' nodes', insert_rest fuel h s p nodes = Some (h', p', nodes') /\ Forall frame_wf p' /\ wf h' /\
    pkey p' = pkey p ++ s /\ (s = [] -> h' = h) /\ (s <> [] -> h' = raxNewNode) /\
    elements (plug p' h') = elements (plug p h) /\ count (plug p' h') - count (plug p h) = nodes' - nodes.
Proof.
  revert h s p nodes. induction fuel as [|fuel IH]; intros h s p nodes Hf Hp Hw Hs.
  { destruct s; [|cbn in Hf; lia]. exists h, p, nodes. cbn [insert_rest]. rewrite app_nil_r.
    refine (conj eq_refl (conj Hp (conj Hw (conj eq_refl (conj (fun _ => eq_refl) (conj _ (conj eq_refl _))))))); [done|lia]. }
  destruct s as [|c s'].
  { exists h, p, nodes. cbn [insert_rest]. rewrite app_nil_r.
    refine (conj eq_refl (conj Hp (conj Hw (conj eq_refl (conj (fun _ => eq_refl) (conj _ (conj eq_refl _))))))); [done|lia]. }
  destruct (Hs c s' eq_refl) as [Eb Hc]. cbn [insert_rest]. set (s := c :: s') in *.
  assert (exists newh pos t1 t2 nodes1, s = t1 ++ t2 /\ (length t2 < length s)%nat /\
    (if (size h =? 0) && (msize s >? 1) then
       let comprsize := Z.to_nat (if msize s >? RAX_NODE_MAX_SIZE then RAX_NODE_MAX_SIZE else msize s) in
       newh ← raxCompressNode h (take comprsize s); insert_rest fuel raxNewNode (drop comprsize s) ((newh, O) :: p) (nodes + 1)
     else '(newh, pos) ← raxAddChild h c; insert_rest fuel raxNewNode s' ((newh, pos) :: p) (nodes + 1)) =
      insert_rest fuel raxNewNode t2 ((newh, pos) :: p) (nodes1) /\ nodes1 = nodes + 1 /\
    frame_wf (newh, pos) /\ label newh pos = t1 /\ children newh !! pos = Some raxNewNode /\
    elements newh = elements h /\ count newh = count h + 1) as (newh & pos & t1 & t2 & nodes1 & Es & Hlt & Eq & -> & Hfr & Hlab & Hch & Hel & Hco).
  { destruct ((size h =? 0) && (msize s >? 1)) eqn:Et.
    - apply andb_true_iff in Et as [E0%Z.eqb_eq E1]. rewrite Z.gtb_ltb in E1. apply Z.ltb_lt in E1. cbv zeta. set (k := Z.to_nat _).
      assert (2 <= k)%nat as Hk.
      { subst k. unfold RAX_NODE_MAX_SIZE. change (Z.shiftl 1 29 - 1) with 536870911. destruct (msize s >? 536870911); lia. }
      assert (k <= length s)%nat as Hk'.
      { subst k. unfold msize in *. destruct (Z.gtb_spec (Z.of_nat (length s)) RAX_NODE_MAX_SIZE); lia. }
      assert (data h = []) as Ed. { unfold size, msize in E0. apply nil_length_inv. lia. }
      destruct (data_children h Hw Ed) as [Ech _]. unfold raxCompressNode, size. rewrite Ed, Eb. cbn [msize length negb andb cassert mbind option_bind].
      change ((msize [] =? 0) && true) with true. cbn [cassert mbind option_bind].
      assert (edge_ok true (take k s)) as Ek by (split; rewrite length_take_le by lia; [lia|symmetry; apply Nat.ltb_lt; lia]).
      eexists _, 0%nat, (take k s), (drop k s), (nodes + 1). refine (conj _ (conj _ (conj eq_refl (conj eq_refl (conj _ (conj _ (conj eq_refl (conj _ _)))))))).
      + by rewrite take_drop.
      + rewrite length_drop. lia.
      + by apply single_frame.
      + by apply single_label.
      + rewrite (single_elements _ _ _ _ Ek). change (elements raxNewNode) with (@nil (mem * Z)). rewrite prefix_empty, app_nil_r.
        rewrite elements_eq. unfold edges. rewrite Ech. unfold labels, labels_of. rewrite Eb, Ed. by rewrite app_nil_r.
      + rewrite !count_eq, Ech. cbn. lia.
    - destruct (raxAddChild_ok h c Hw Eb Hc) as (newh & pos & -> & H1 & H2 & H3 & H4 & H5). cbn [mbind option_bind].
      exists newh, pos, [c], s', (nodes + 1). refine (conj eq_refl (conj _ (conj eq_refl (conj eq_refl (conj H1 (conj H2 (conj H3 (conj H4 H5)))))))).
      subst s. cbn. lia. }
  destruct (IH raxNewNode t2 ((newh, pos) :: p) (nodes + 1)) as (h' & p' & nodes' & E & Hp' & Hw' & Hk & H1 & H2 & He & Hn); [lia|by constructor|apply raxNewNode_wf| |].
  { intros c1 t _. split; [done|]. apply not_elem_of_nil. }
  assert (h' = raxNewNode) as Eh' by (destruct t2; [by apply H1|by apply H2]).
  exists h', p', nodes'. cbn [pkey] in Hk. rewrite Hlab in Hk. cbn [plug] in He, Hn. rewrite (set_child_same _ _ _ Hch) in He, Hn.
  refine (conj (eq_trans Eq E) (conj Hp' (conj Hw' (conj _ (conj _ (conj (fun _ => Eh') (conj _ _))))))).
  - by rewrite Hk, Es, <- app_assoc.
  - done.
  - by rewrite He, (plug_same p h newh Hp Hel).
  - rewrite (count_plug p newh), (count_plug p h) in * by by apply path_ok. lia.
Qed.

(** ** Insertion *)

Record rax_wf (r : rax) : Prop := {
  rw_wf : wf (head r);
  rw_numele : numele r = Z.of_nat (length (elements (head r)));
  rw_numnodes : numnodes r = count (head r)
}.

(** The key is there, is there with data, or is to be inserted between others. *)
Record inserted (s : mem) (d : Z) (old : option Z) (e e' : list (mem * Z)) : Prop := {
  in_split : exists l1 l2, e = l1 ++ match old with Some o => [(s, o)] | None => [] end ++ l2 /\ e' = l1 ++ [(s, d)] ++ l2
}.

Lemma ended_data h d : ended (raxSetData h d).
Proof. by intros _. Qed.

Lemma raxSetData_wf h d : wf h -> wf (raxSetData h d).
Proof. apply wf_set_val. Qed.

Lemma count_set_data h d : count (raxSetData h d) = count h.
Proof. by rewrite !count_eq. Qed.

(** Data are set at the end of a path. *)
Lemma set_data_ok p h d : Forall frame_wf p -> wf h ->
  wf (plug p (raxSetData h d)) /\ count (plug p (raxSetData h d)) = count (plug p h) /\
  inserted (pkey p) d (val h) (elements (plug p h)) (elements (plug p (raxSetData h d))).
Proof.
  intros Hp Hw. split_and!.
  - apply wf_plug; [done|by apply raxSetData_wf|intros _; apply ended_data].
  - by rewrite !(count_plug p _ (path_ok p Hp)), count_set_data.
  - constructor. exists (left_of p), (right_of p h). rewrite !(plug_own p _ Hp). split; [done|]. cbn [val raxSetData]. done.
Qed.

Lemma inserted_length s d old e e' : inserted s d old e e' ->
  Z.of_nat (length e') = Z.of_nat (length e) + match old with Some _ => 0 | None => 1 end.
Proof. intros [(l1 & l2 & -> & ->)]. rewrite !length_app. destruct old; cbn [length]; lia. Qed.

Lemma iskey_val h : iskey h = match val h with Some _ => true | None => false end.
Proof. unfold iskey. by destruct (val h). Qed.

Lemma set_data_same h d : val h = Some d -> raxSetData h d = h.
Proof. intros E. destruct h as [v b dd ch]. cbn in *. by subst v. Qed.

(** What an insertion concludes. *)
Definition insertion (r : rax) (s : mem) (d : Z) (overwrite : bool) (res : Z * option Z * rax) : Prop :=
  let '(ret, old, r') := res in
  rax_wf r' /\ ret = match old with Some _ => 0 | None => 1 end /\
  inserted s (match old with Some o => if overwrite then d else o | None => d end) old (elements (head r)) (elements (head r')).

Lemma insertion_done r s d (overwrite : bool) (old : option Z) hd ele nodes : rax_wf r -> wf hd -> nodes = count hd ->
  ele = numele r + match old with Some _ => 0 | None => 1 end ->
  inserted s (match old with Some o => if overwrite then d else o | None => d end) old (elements (head r)) (elements hd) ->
  insertion r s d overwrite (match old with Some _ => 0 | None => 1 end, old, mk_rax hd ele nodes).
Proof.
  intros [Hw He Hn] W -> -> I. split; [|by split]. constructor; cbn [head numele numnodes]; [done| |done].
  rewrite (inserted_length _ _ _ _ _ I), He. by destruct old.
Qed.

(** The key has its node. *)
Lemma insert_at_node r p h d overwrite : rax_wf r -> Forall frame_wf p -> wf h -> plug p h = head r ->
  insertion r (pkey p) d overwrite
    (if iskey h then (0, val h, mk_rax (plug p (if overwrite then raxSetData h d else h)) (numele r) (numnodes r))
     else (1, None, mk_rax (plug p (raxSetData h d)) (numele r + 1) (numnodes r))).
Proof.
  intros Hr Hp Hw Hpl. rewrite iskey_val. destruct (val h) as [o|] eqn:Ev.
  - assert (plug p (if overwrite then raxSetData h d else h) = plug p (raxSetData h (if overwrite then d else o))) as ->
      by (destruct overwrite; [done|by rewrite (set_data_same h o Ev)]).
    destruct (set_data_ok p h (if overwrite then d else o) Hp Hw) as (W & C & I). rewrite Ev, Hpl in I.
    apply (insertion_done r (pkey p) d overwrite (Some o)); [done|done| |lia|done]. by rewrite C, Hpl, (rw_numnodes _ Hr).
  - destruct (set_data_ok p h d Hp Hw) as (W & C & I). rewrite Ev, Hpl in I.
    apply (insertion_done r (pkey p) d overwrite None); [done|done| |done|done]. by rewrite C, Hpl, (rw_numnodes _ Hr).
Qed.

(** Nodes are added for what is left of the key. *)
Lemma insert_below r p h nodes rest d overwrite :
  rax_wf r -> Forall frame_wf p -> wf h -> elements (plug p h) = elements (head r) -> count (plug p h) - count (head r) = nodes - numnodes r ->
  rest <> [] -> iscompr h = false -> (forall c t, rest = c :: t -> c ∉ data h) ->
  ensures ('(h, p, nodes) ← insert_rest (length rest) h rest p nodes;
    Some (1, None, mk_rax (plug p (raxSetData h d)) (if iskey h then numele r else numele r + 1) nodes))
    (insertion r (pkey p ++ rest) d overwrite).
Proof.
  intros Hr Hp Hw He Hc Hne Eb Hnin.
  destruct (insert_rest_ok (length rest) h rest p nodes) as (h2 & p2 & n2 & -> & Hp2 & Hw2 & Hk2 & _ & Hleaf & E2 & C2); [done|done|done|by eauto|].
  rewrite (Hleaf Hne) in *. cbn [mbind option_bind ensures]. change (iskey raxNewNode) with false. cbv iota.
  destruct (set_data_ok p2 raxNewNode d Hp2 Hw2) as (W & C & I). rewrite E2, He, Hk2 in I.
  apply (insertion_done r _ d overwrite None); [done|done| |done|done]. rewrite C. pose proof (rw_numnodes _ Hr). lia.
Qed.

Lemma raxGenericInsert_ok r s d overwrite : rax_wf r -> ensures (raxGenericInsert r s d overwrite) (insertion r s d overwrite).
Proof.
  intros Hr. unfold raxGenericInsert. pose proof (rw_numnodes _ Hr) as Hn.
  destruct (raxLowWalk_ok r s (rw_wf _ Hr)) as (rest & h & p & j & -> & [Hpl Hp Hwh _ Heh Hk Hst]).
  cbn [mbind option_bind]. unfold at_node, stopped in *. destruct (iscompr h) eqn:Eb; cbn [negb orb].
  - destruct Hst as [Hj Hst]. destruct (decide (rest = [])) as [->|Hne].
    + rewrite bool_decide_eq_true_2, app_nil_r in * by done. cbn [andb]. destruct (Nat.eqb_spec j 0) as [->|Hj0].
      * rewrite take_0, app_nil_r in Hk. subst s. pose proof (insert_at_node r p h d overwrite Hr Hp Hwh Hpl) as I. by destruct (iskey h).
      * destruct (split_inside_ok h j p d Hwh Eb) as (h' & -> & W & E & (l1 & l2 & E1 & E2) & C); [lia|done|]. cbn [mbind option_bind ensures].
        rewrite Hpl in *. apply (insertion_done r s d overwrite None); [done|by apply wf_plug|lia|done|].
        constructor. exists l1, l2. by rewrite E1, E2, Hk.
    + rewrite bool_decide_eq_false_2 by done. cbn [andb]. destruct Hst as [|(a & c & t & Ha & -> & Hac)]; [done|].
      destruct (split_mismatch_ok h j p (numnodes r) a Hwh Eb Ha Hp) as (h1 & p1 & n1 & -> & Hp1 & Hw1 & Eb1 & Ed1 & Hk1 & E1 & C1).
      rewrite Hpl in *. cbn [mbind option_bind]. rewrite Hk, app_assoc, <- Hk1. apply insert_below; try done.
      intros c' t' [= <- <-]. rewrite Ed1. by intros ->%list_elem_of_singleton.
  - destruct Hst as [-> Hst]. rewrite take_0, app_nil_l in Hk. rewrite andb_true_r. case_bool_decide as Hrest; cbn [andb].
    + subst rest. rewrite app_nil_r in Hk. subst s. pose proof (insert_at_node r p h d overwrite Hr Hp Hwh Hpl) as I. by destruct (iskey h).
    + cbn [mbind option_bind]. rewrite Hk. apply insert_below; try done; rewrite Hpl; [done|lia].
Qed.

(** ** Looking up *)

Lemma find_insert r s d overwrite ret old r' : raxGenericInsert r s d overwrite = Some (ret, old, r') -> raxFind r s = Some old.
Proof.
  unfold raxGenericInsert, raxFind. destruct (raxLowWalk r s) as [[[[rest h] p] j]|]; [|done]. cbn [mbind option_bind].
  destruct (at_node rest h j).
  - rewrite iskey_val. destruct (val h); by intros [= _ <- _].
  - destruct (iscompr h && bool_decide (rest = [])); cbn [mbind option_bind].
    + destruct (split_inside h j d); [by intros [= _ <- _]|done].
    + destruct (if iscompr h then _ else _) as [[[h1 p1] n1]|]; [|done]. cbn [mbind option_bind].
      destruct (insert_rest _ _ _ _ _) as [[[h2 p2] n2]|]; [by intros [= _ <- _]|done].
Qed.

Lemma inserted_in s d old e e' : keys_sorted e' -> inserted s d old e e' -> forall o, old = Some o <-> (s, o) ∈ e.
Proof.
  intros Hs [(l1 & l2 & -> & ->)] o. apply keys_sorted_NoDup in Hs. rewrite !fmap_app in Hs.
  change ([(s, d)].*1 ++ l2.*1) with (s :: l2.*1) in Hs.
  apply NoDup_app in Hs as (_ & H1 & [H2 _]%NoDup_cons).
  assert (forall l, s ∉ l.*1 -> (s, o) ∉ l) as Hn by (intros l Hl Hin; apply Hl; exact (list_elem_of_fmap_2 fst _ _ Hin)).
  rewrite !elem_of_app. assert ((s, o) ∉ l1) by (apply Hn; intros Hin; apply (H1 s Hin); apply elem_of_cons; by left).
  pose proof (Hn l2 H2). destruct old as [o'|].
  - rewrite list_elem_of_singleton. split; [intros [= ->]; tauto|]. intros [?|[[= ->]|?]]; [tauto|done|tauto].
  - rewrite elem_of_nil. split; [done|tauto].
Qed.

Lemma raxFind_ok r s : rax_wf r -> exists old, raxFind r s = Some old /\ forall o, old = Some o <-> (s, o) ∈ elements (head r).
Proof.
  intros Hr. destruct (ensures_Some _ _ (raxGenericInsert_ok r s 0 false Hr)) as ([[ret old] r'] & E & Hr' & _ & I).
  exists old. split; [by eapply find_insert|]. eapply inserted_in; [|exact I]. apply elements_sorted, Hr'.
Qed.

(** ** Removing nodes *)

(** A node that is not needed: no key, and one edge. *)
Record single (n c : raxNode) : Prop := {
  si_val : val n = None;
  si_children : children n = [c];
  si_edge : edge_ok (iscompr n) (data n)
}.

Lemma single_eq n c : single n c -> n = mk_node None (iscompr n) (data n) [c].
Proof. intros [H1 H2 _]. destruct n as [v b d ch]. cbn in *. by subst. Qed.

Lemma single_parts n c : single n c -> elements n = prefix (data n) (elements c) /\ count n = 1 + count c /\ label n 0 = data n /\
  before_f n 0 = [] /\ after_f n 0 = [] /\ 0 < size n.
Proof.
  intros S. pose proof (si_edge _ _ S) as E. pose proof (single_eq n c S) as En. set (b := iscompr n) in *. set (d := data n) in *. clearbody b d. subst n.
  split_and!.
  - by rewrite (single_elements _ _ _ _ E).
  - rewrite count_eq. cbn. lia.
  - by apply single_label.
  - done.
  - unfold after_f, edges. by rewrite (single_labels _ _ _ _ E).
  - destruct E as [E _]. unfold size, msize. cbn [data]. lia.
Qed.

Lemma not_stops n j : shape n -> (j < length (children n))%nat -> stops n = false -> j = 0%nat /\ exists c, single n c.
Proof.
  intros [S1 S2 _] Hj. unfold stops. rewrite iskey_val. destruct (val n) eqn:Ev; cbn [orb]; [done|].
  unfold labels, labels_of in S1. destruct (iscompr n) eqn:Eb; cbn [negb andb].
  - intros _. cbn [length] in S1. destruct (children n) as [|c [|]] eqn:Ec; try done. cbn in Hj. split; [lia|]. exists c. constructor; [done|done|].
    specialize (S2 eq_refl). rewrite Eb. split; [lia|symmetry; apply Nat.ltb_lt; lia].
  - intros Es%negb_false_iff%Z.eqb_eq. rewrite length_fmap in S1. unfold size, msize in Es.
    destruct (children n) as [|c [|]] eqn:Ec; cbn [length] in *; try lia. split; [lia|]. exists c. constructor; [done|done|].
    rewrite Eb. split; [lia|symmetry; apply Nat.ltb_ge; lia].
Qed.

Lemma take_drop_sorted v j : StronglySorted Z.lt v -> StronglySorted Z.lt (delete j v).
Proof.
  intros Hv. revert j. induction Hv as [|a v Hs IH Hf]; intros [|j]; cbn; [constructor..|done|]. constructor; [by apply IH|].
  rewrite Forall_forall in *. intros x Hx. apply Hf. by eapply elem_of_submseteq, submseteq_delete.
Qed.

Lemma zip_delete {A B} (l : list A) (k : list B) j : zip (delete j l) (delete j k) = take j (zip l k) ++ drop (S j) (zip l k).
Proof.
  revert l k. induction j as [|j IH]; intros [|x l] [|y k]; try done; [by destruct l|].
  change ((x, y) :: zip (delete j l) (delete j k) = (x, y) :: take j (zip l k) ++ drop (S j) (zip l k)). by rewrite IH.
Qed.

Lemma count_delete ch j c : ch !! j = Some c -> count_all (delete j ch) = count_all ch - count c.
Proof.
  intros Hc. rewrite delete_take_drop. pose proof (f_equal count_all (take_drop_middle _ _ _ Hc)) as E. rewrite !count_app in *.
  change (count_all (?x :: ?l)) with (count x + count_all l) in *. lia.
Qed.

Lemma fmap_delete {A B} (f : A -> B) (l : list A) (j : nat) : f <$> delete j l = delete j (f <$> l).
Proof. revert j. induction l as [|x l IH]; intros [|j]; [done..|]. change (f x :: (f <$> delete j l) = f x :: delete j (f <$> l)). by rewrite IH. Qed.

Lemma raxRemoveChild_ok n j : frame_wf (n, j) ->
  wf (raxRemoveChild n j) /\ elements (raxRemoveChild n j) = before_f n j ++ after_f n j /\
  count (raxRemoveChild n j) = count_path [(n, j)] /\ (stops n = true -> ended (raxRemoveChild n j)).
Proof.
  intros [Hs Hj Hw He]. cbn [fst snd] in *. destruct (lookup_lt_is_Some_2 _ _ Hj) as [c Hc]. pose proof Hs as [S1 S2 S3].
  unfold raxRemoveChild, stops. cbn [count_path]. rewrite Hc. cbn [fmap option_fmap option_map]. change (default 0 (Some (count c))) with (count c).
  unfold labels, labels_of in S1. rewrite iskey_val. destruct (iscompr n) eqn:Eb; cbn [negb andb].
  - destruct (children n) as [|c' [|]] eqn:Ec; try done. destruct j as [|j]; [|cbn in Hj; lia]. injection Hc as ->. split_and!.
    + constructor; [|by intros [|i]|by intros [|i]]. constructor; [done|done|constructor].
    + rewrite elements_leaf. unfold before_f, after_f, edges, labels, labels_of. rewrite Eb, Ec. cbn. by rewrite !app_nil_r.
    + rewrite (count_eq n), Ec. cbn. lia.
    + intros Ek. unfold ended. cbn [children val]. by destruct (val n).
  - rewrite length_fmap in S1. assert (length (delete j (children n)) = length (children n) - 1)%nat as Ld by (rewrite length_delete; [lia|by eexists]).
    split_and!.
    + constructor.
      * constructor; cbn [iscompr data children]; [|done|intros _; apply take_drop_sorted; by apply S3].
        change (labels _) with ((fun c => [c]) <$> delete j (data n)). rewrite length_fmap, (length_delete (data n)), Ld; [by rewrite S1|apply lookup_lt_is_Some_2; by rewrite S1].
      * intros i c1. cbn [children]. intros Hi. destruct (decide (i < j)%nat).
        -- rewrite list_lookup_delete_lt in Hi by done. apply (Hw i c1); [lia|done].
        -- rewrite list_lookup_delete_ge in Hi by lia. apply (Hw (S i) c1); [lia|done].
      * intros i c1. cbn [children]. intros Hi. destruct (decide (i < j)%nat).
        -- rewrite list_lookup_delete_lt in Hi by done. apply (He i c1); [lia|done].
        -- rewrite list_lookup_delete_ge in Hi by lia. apply (He (S i) c1); [lia|done].
    + rewrite elements_eq. unfold before_f, after_f, edges, labels, labels_of. cbn [iscompr data children].
      rewrite Eb. replace (zip _ (delete j (children n))) with (zip (delete j ((fun c0 => [c0]) <$> data n)) (delete j (children n)))
        by (f_equal; symmetry; apply (fmap_delete (fun c0 => [c0]) (data n))). rewrite zip_delete, flat_edges_app.
      by rewrite app_assoc.
    + rewrite !count_eq. cbn [children]. rewrite (count_delete _ _ _ Hc), (count_eq c). lia.
    + intros Ek Ech. cbn [children val] in *. apply (f_equal length) in Ech. rewrite Ld in Ech. cbn [length] in Ech.
      destruct (val n); [done|]. cbn [orb] in Ek. apply negb_true_iff, Z.eqb_neq in Ek. unfold size, msize in Ek. lia.
Qed.

(** The nodes above a node without elements that are freed with it. *)
Lemma cleanup_ok h child p nodes : Forall frame_wf p -> p <> [] ->
  exists n j p' nodes', cleanup h child p nodes = (n, Some j, p', nodes') /\ Forall frame_wf ((n, j) :: p') /\
    (stops n = true \/ p' = []) /\
    before p ++ after p = before p' ++ prefix (pkey p') (before_f n j ++ after_f n j) ++ after p' /\
    count_path ((n, j) :: p') = nodes' + (count_path p - nodes) + 1.
Proof.
  revert h child nodes. induction p as [|[n j] p IH]; intros h child nodes Hp Hne; [done|]. cbn [cleanup before after count_path].
  pose proof Hp as [Hf Hp']%Forall_cons.
  destruct (stops n) eqn:Est.
  { exists n, j, p, (nodes - 1). cbn [count_path]. split_and!; [done|done|by left| |lia]. by rewrite prefix_app, <- !app_assoc. }
  destruct (not_stops n j (fw_shape _ Hf) (fw_place _ Hf) Est) as [-> [c S]]. destruct (single_parts n c S) as (_ & Ec & _ & Eb & Ea & _).
  rewrite Eb, Ea, prefix_empty, app_nil_r, app_nil_l, (si_children _ _ S). cbn [lookup list_lookup fmap option_fmap option_map default]. change (default 0 (Some (count c))) with (count c).
  destruct p as [|f p].
  - cbn [cleanup]. exists n, 0%nat, [], (nodes - 1). cbn [count_path before after pkey]. rewrite Eb, Ea, (si_children _ _ S). split_and!; try done; [by right|].
    cbn. lia.
  - destruct (IH n (Some 0%nat) (nodes - 1) Hp' ltac:(done)) as (n' & j' & p' & nodes' & E & Hf' & Hst & Hel & Hco).
    exists n', j', p', nodes'. split_and!; try done.
    change (count_path ((n', j') :: p') = nodes' + (count n - count c + count_path (f :: p) - nodes) + 1). lia.
Qed.

(** ** Joining nodes *)

Lemma go_up_ok h c p : Forall frame_wf p -> wf h -> single h c ->
  exists start c' p', go_up h p = (start, p') /\ Forall frame_wf p' /\ wf start /\ single start c' /\ plug p' start = plug p h.
Proof.
  revert h c. induction p as [|[n j] p IH]; intros h c Hp Hw S; cbn [go_up]; [by exists h, c, []|].
  destruct (stops n) eqn:Est; [by exists h, c, ((n, j) :: p)|]. pose proof Hp as [Hf Hp']%Forall_cons.
  destruct (not_stops n j (fw_shape _ Hf) (fw_place _ Hf) Est) as [-> [c0 S0]]. pose proof S0 as [V0 C0 E0].
  assert (single (set_child 0 h n) h) as S1 by (constructor; [done| |done]; unfold set_child; cbn [children]; by rewrite C0).
  destruct (IH (set_child 0 h n) h Hp') as (start & c' & p' & E & H1 & H2 & H3 & H4); [|done|].
  - apply wf_set_child; [done|done|]. intros Ec. by rewrite (si_children _ _ S) in Ec.
  - by exists start, c', p'.
Qed.

Lemma height_child n c : children n = [c] -> height n = S (height c).
Proof. intros E. destruct n as [v b d ch]. cbn in *. rewrite E. cbn. lia. Qed.

(** The keys below a node, after [k] characters, are not longer than a node can hold. *)
Definition fits (k : Z) (n : raxNode) : Prop := forall x, x ∈ elements n -> k + msize x.1 <= RAX_NODE_MAX_SIZE.

(** The chain of nodes from [h] on has the characters [l] and ends before [h']; both scans
    stop there. *)
Lemma chain_ok fuel h c cs nodes : wf h -> single h c -> (height h <= fuel)%nat -> fits (cs - size h) h ->
  exists cs' nodes' l h', scan_chain fuel h cs nodes = Some (cs', nodes') /\
    (forall room buf k, msize buf = cs - size h -> cs' <= room ->
      copy_chain fuel h room buf k = Some (buf ++ l, h', k - (nodes' - nodes + 1))) /\
    elements h = prefix l (elements h') /\ cs' = cs - size h + msize l /\ count h = nodes' - nodes + 1 + count h' /\
    wf h' /\ ended h' /\ nodes <= nodes' /\ nodes' - nodes + 1 <= msize l.
Proof.
  revert h c cs nodes. induction fuel as [|fuel IH]; intros h c cs nodes Hw S Hf Hfit; [destruct h; cbn in Hf; lia|].
  destruct (single_parts h c S) as (He & Hc & _ & _ & _ & Hs). pose proof (si_children _ _ S) as Ech. rewrite (height_child h c Ech) in Hf.
  assert (wf c /\ ended c) as [Hwc Hec] by (split; [eapply (wf_child h 0)|eapply (ended_child h 0)]; by rewrite ?Ech).
  cbn [scan_chain copy_chain]. rewrite (proj2 (Z.eqb_neq (size h) 0)) by lia. rewrite Ech. cbn [last mbind option_bind].
  unfold size in Hs. destruct (stops c) eqn:Est.
  { exists cs, nodes, (data h), c. split_and!; try done; unfold size in *; try lia.
    intros room buf k Hb Hroom. rewrite (proj2 (Z.leb_le _ _)) by (rewrite msize_app; unfold size in *; lia). cbn [cassert mbind option_bind]. do 2 f_equal. lia. }
  assert (exists c1, single c c1) as [c1 S1].
  { destruct (children c) as [|c1 ch] eqn:Ecc.
    - exfalso. unfold stops in Est. rewrite iskey_val in Est. specialize (Hec Ecc). by destruct (val c).
    - apply (not_stops c 0); [by apply wf_shape|rewrite Ecc; cbn; lia|done]. }
  destruct (single_parts c c1 S1) as (He1 & _ & _ & _ & _ & Hs1).
  assert (fits (cs - size h + size h) c) as Hfit1.
  { intros x Hx. specialize (Hfit (data h ++ x.1, x.2)). rewrite He in Hfit.
    assert ((data h ++ x.1, x.2) ∈ prefix (data h) (elements c)) as Hin by (apply elem_prefix; exists x.1; by destruct x).
    specialize (Hfit Hin). cbn [fst] in Hfit. rewrite msize_app in Hfit. unfold size in *. lia. }
  assert (cs + size c <= RAX_NODE_MAX_SIZE) as Hle.
  { pose proof (elements_nonempty c Hwc Hec) as Hne. destruct (elements c) as [|x e] eqn:Ex; [done|].
    specialize (Hfit1 x). rewrite Ex in Hfit1. specialize (Hfit1 ltac:(apply elem_of_cons; by left)).
    assert (x ∈ prefix (data c) (elements c1)) as (k & Ek & _)%elem_prefix by (rewrite <- He1; apply elem_of_cons; by left).
    pose proof (f_equal msize Ek) as Em. rewrite msize_app in Em. pose proof (msize_nonneg k). destruct x as [kx dx]. unfold size in *. cbn [fst] in *. lia. }
  rewrite Z.gtb_ltb, (proj2 (Z.ltb_ge _ _)) by done.
  destruct (IH c c1 (cs + size c) (nodes + 1) Hwc S1) as (cs' & nodes' & l & h' & E1 & E2 & E3 & E4 & E5 & E6 & E7 & E8 & E9); [lia| |].
  { by replace (cs + size c - size c) with (cs - size h + size h) by lia. }
  exists cs', nodes', (data h ++ l), h'. split_and!; try done; try (rewrite ?msize_app; unfold size in *; lia).
  - intros room buf k Hb Hroom. pose proof (msize_nonneg l).
    rewrite (proj2 (Z.leb_le _ _)) by (rewrite msize_app; unfold size in *; lia). cbn [cassert mbind option_bind].
    rewrite (E2 room (buf ++ data h) (k - 1)); [|rewrite msize_app; unfold size in *; lia|done]. rewrite <- app_assoc. do 2 f_equal. lia.
  - by rewrite He, E3, prefix_prefix.
Qed.

Lemma raxPadding_nonneg n : 0 <= raxPadding n.
Proof. unfold raxPadding. apply Z.land_nonneg. lia. Qed.

Lemma compress_ok h c p nodes : Forall frame_wf p -> wf h -> single h c -> fits 0 (plug p h) -> nodes = count (plug p h) ->
  ensures (compress h p nodes) (fun '(hd, nodes') => wf hd /\ elements hd = elements (plug p h) /\ nodes' = count hd).
Proof.
  intros Hp Hw S Hfit ->. unfold compress. destruct (go_up_ok h c p Hp Hw S) as (start & c' & p' & -> & Hp' & Hw' & S' & Hpl).
  rewrite <- Hpl in *. clear dependent h p. assert (ended start) as Hes by (intros E; by rewrite (si_children _ _ S') in E).
  assert (fits 0 start) as Hfs.
  { intros x Hx. specialize (Hfit (pkey p' ++ x.1, x.2)). rewrite (elements_plug p' _ (path_ok p' Hp')) in Hfit.
    assert ((pkey p' ++ x.1, x.2) ∈ before p' ++ prefix (pkey p') (elements start) ++ after p') as Hin
      by (rewrite !elem_of_app; right; left; apply elem_prefix; exists x.1; by destruct x).
    specialize (Hfit Hin). cbn [fst] in Hfit. rewrite msize_app in Hfit. pose proof (msize_nonneg (pkey p')). lia. }
  destruct (chain_ok (Datatypes.S (height start)) start c' (size start) 1 Hw' S') as (cs & n & l & h' & -> & E2 & E3 & E4 & E5 & E6 & E7 & E8 & E9);
    [lia|by rewrite Z.sub_diag|]. cbn [mbind option_bind]. destruct (Z.gtb_spec n 1) as [Hn|Hn].
  - pose proof (raxPadding_nonneg cs). cbv zeta.
    rewrite (E2 _ [] (count (plug p' start) + 1)); [|rewrite msize_nil; lia|lia]. cbn [mbind option_bind ensures]. rewrite app_nil_l.
    rewrite take_ge by (unfold msize in E4; lia).
    assert (edge_ok true l) as El by (unfold msize in E9; split; [lia|symmetry; apply Nat.ltb_lt; lia]). split_and!.
    + apply wf_plug; [done|by apply single_wf|by intros _ ?].
    + apply plug_same; [done|]. by rewrite (single_elements _ _ _ _ El), E3.
    + rewrite !(count_plug p' _ (path_ok p' Hp')), (count_eq (mk_node _ _ _ _)). cbn [children count_all foldr]. lia.
  - cbn [ensures]. split_and!; [by apply wf_plug|done|done].
Qed.

(** ** Removal *)

(** The key is removed from its place, or is not there. *)
Definition removal (r : rax) (s : mem) (res : Z * option Z * rax) : Prop :=
  let '(ret, old, r') := res in
  rax_wf r' /\ ret = match old with Some _ => 1 | None => 0 end /\
  match old with
  | Some o => exists l1 l2, elements (head r) = l1 ++ [(s, o)] ++ l2 /\ elements (head r') = l1 ++ l2
  | None => r' = r /\ forall o, (s, o) ∉ elements (head r)
  end.

(** The tree after a key of the node [h] is forgotten. *)
Lemma forget_ok p h nodes : Forall frame_wf p -> wf h -> fits 0 (plug p h) -> val h = None -> nodes = count (plug p h) ->
  ensures (if size h =? 0 then
      match cleanup h None p nodes with
      | (h, None, p, nodes) => Some (plug p h, nodes)
      | (h, Some j, p, nodes) =>
        let new := raxRemoveChild h j in
        if (size new =? 1) && negb (iskey new) then compress new p nodes else Some (plug p new, nodes)
      end
    else if size h =? 1 then compress h p nodes
    else Some (plug p h, nodes))
    (fun '(hd, nodes') => wf hd /\ elements hd = elements (plug p h) /\ nodes' = count hd).
Proof.
  intros Hp Hw Hfit Hv Hn. pose proof (wf_shape _ Hw) as Hs. destruct (Z.eqb_spec (size h) 0) as [E0|E0].
  { assert (data h = []) as Ed by (apply nil_length_inv; unfold size, msize in E0; lia). destruct (data_children h Hw Ed) as [Ec Eb].
    assert (elements h = []) as Eh by (rewrite elements_eq; unfold own, edges, labels, labels_of; by rewrite Hv, Ec, Eb, Ed).
    assert (count h = 1) as Eco by by rewrite count_eq, Ec. destruct (decide (p = [])) as [->|Hne]; [by cbn|].
    destruct (cleanup_ok h None p nodes Hp Hne) as (n & j & p' & nodes' & -> & Hp' & Hst & Hel & Hco). cbv zeta.
    pose proof Hp' as [Hf Hp2]%Forall_cons. destruct (raxRemoveChild_ok n j Hf) as (Rw & Re & Rc & Rend).
    assert (elements (plug p' (raxRemoveChild n j)) = elements (plug p h)) as E1.
    { rewrite (elements_plug p' _ (path_ok p' Hp2)), (elements_plug p _ (path_ok p Hp)), Re, Eh, prefix_empty. symmetry. exact Hel. }
    assert (nodes' = count (plug p' (raxRemoveChild n j))) as E2.
    { rewrite (count_plug p' _ (path_ok p' Hp2)), Rc. rewrite (count_plug p _ (path_ok p Hp)) in Hn. cbn [count_path] in *. lia. }
    destruct ((size (raxRemoveChild n j) =? 1) && negb (iskey (raxRemoveChild n j))) eqn:Et.
    - apply andb_true_iff in Et as [Es Ek]. assert (stops (raxRemoveChild n j) = false) as Est.
      { unfold stops. rewrite Es. apply negb_true_iff in Ek. rewrite Ek. cbn [negb orb]. by rewrite andb_false_r. }
      assert (0 < length (children (raxRemoveChild n j)))%nat as Hlen.
      { rewrite (normal_length _ Rw); [apply Z.eqb_eq in Es; unfold size, msize in Es; lia|]. unfold raxRemoveChild. by destruct (iscompr n). }
      destruct (not_stops _ 0 (wf_shape _ Rw) Hlen Est) as (_ & c & S).
      rewrite <- E1 in *. eapply compress_ok; try done. unfold fits in *. by rewrite E1.
    - cbn [ensures]. split_and!; [|done|done]. apply wf_plug; [done|done|]. intros Hne'. destruct Hst as [Hst|?]; [by apply Rend|done]. }
  assert (children h <> []) as Hch.
  { intros Ec. apply E0. pose proof (sh_length _ Hs) as Hl. rewrite Ec in Hl. unfold labels, labels_of in Hl. unfold size, msize.
    destruct (iscompr h); [done|]. rewrite length_fmap in Hl. by rewrite Hl. }
  destruct (Z.eqb_spec (size h) 1) as [E1|E1].
  - assert (stops h = false) as Est.
    { unfold stops. rewrite iskey_val, Hv, E1. by destruct (iscompr h). }
    destruct (not_stops h 0 Hs) as (_ & c & S); [destruct (children h); [done|cbn; lia]|done|]. by eapply compress_ok.
  - cbn [ensures]. split_and!; [|done|done]. apply wf_plug; [done|done|]. by intros _ ?.
Qed.

Lemma raxRemove_ok r s : rax_wf r -> fits 0 (head r) -> ensures (raxRemove r s) (removal r s).
Proof.
  intros Hr Hfit. destruct (raxFind_ok r s Hr) as (found & Ef & Hin). unfold raxRemove, raxFind in *.
  destruct (raxLowWalk_ok r s (rw_wf _ Hr)) as (rest & h & p & j & Ew & [Hpl Hp Hw _ _ Hk Hst]). rewrite Ew in *. cbn [mbind option_bind] in *.
  rewrite iskey_val. destruct (at_node rest h j) eqn:Ea; cbn [negb orb].
  2: { injection Ef as <-. split; [done|split; [done|split; [done|]]]. intros o Ho. by apply Hin in Ho. }
  injection Ef as Ef. destruct (val h) as [o|] eqn:Ev; cbn [negb].
  2: { subst found. split; [done|split; [done|split; [done|]]]. intros o Ho. by apply Hin in Ho. }
  assert (pkey p = s) as Hs.
  { unfold at_node in Ea. apply andb_true_iff in Ea as [->%bool_decide_eq_true Ej]. rewrite app_nil_r in Hk. unfold stopped in Hst.
    destruct (iscompr h); cbn [negb orb] in Ej; [apply Nat.eqb_eq in Ej as ->|destruct Hst as [-> _]]; by rewrite take_0, app_nil_r in Hk. }
  set (h0 := mk_node None (iscompr h) (data h) (children h)). assert (wf h0) as Hw0 by by apply wf_set_val.
  pose proof (plug_own p h Hp) as E1. pose proof (plug_own p h0 Hp) as E2. rewrite Ev, Hpl, Hs in E1. change (val h0) with (@None Z) in E2.
  change (right_of p h0) with (right_of p h) in E2. rewrite app_nil_l in E2.
  assert (count (plug p h0) = numnodes r) as Ec.
  { rewrite (rw_numnodes _ Hr), <- Hpl, !(count_plug p _ (path_ok p Hp)), !count_eq. done. }
  pose proof (forget_ok p h0 (numnodes r) Hp Hw0) as F. change (size h0) with (size h) in F.
  eapply ensures_bind; [apply F; [|done|done]|].
  - intros x Hx. apply Hfit. rewrite E2 in Hx. rewrite E1, !elem_of_app. apply elem_of_app in Hx. tauto.
  - intros [hd nodes] (W & E & ->). cbn [ensures]. split; [|split; [done|]].
    + constructor; cbn [head numele numnodes]; [done| |done]. rewrite (rw_numele _ Hr), E, E1, E2, !length_app. cbn [length]. lia.
    + exists (left_of p), (right_of p h). split; [done|]. cbn [head]. by rewrite E, E2.
Qed.

(** ** The map *)

(** What the tree holds: its keys with their data. *)
Definition contents (r : rax) : gmap (list Z) Z := list_to_map (elements (head r)).

Lemma contents_lookup (r : rax) s o : rax_wf r -> contents r !! s = Some o <-> (s, o) ∈ elements (head r).
Proof. intros Hr. unfold contents. symmetry. apply elem_of_list_to_map, keys_sorted_NoDup, elements_sorted, Hr. Qed.

Lemma contents_old (r : rax) s old : rax_wf r -> (forall o, old = Some o <-> (s, o) ∈ elements (head r)) -> contents r !! s = old.
Proof.
  intros Hr Hin. destruct old as [o|]; [by apply contents_lookup, Hin|]. destruct (contents r !! s) as [o|] eqn:E; [|done].
  apply (contents_lookup r s o Hr), Hin in E. done.
Qed.

Lemma contents_size (r : rax) : rax_wf r -> raxSize r = Z.of_nat (base.size (contents r)).
Proof.
  intros Hr. unfold raxSize, contents. rewrite (rw_numele _ Hr). f_equal. symmetry. rewrite map_size_list_to_map; [done|].
  apply keys_sorted_NoDup, elements_sorted, Hr.
Qed.

(** A list of pairs whose pairs are the ones of a map. *)
Lemma contents_eq (r : rax) (m : gmap (list Z) Z) : rax_wf r -> (forall k d, (k, d) ∈ elements (head r) <-> m !! k = Some d) -> contents r = m.
Proof.
  intros Hr H. apply map_eq. intros k. apply option_eq. intros d. rewrite (contents_lookup r k d Hr). apply H.
Qed.

Lemma contents_inserted (r r' : rax) s d old : rax_wf r -> rax_wf r' -> inserted s d old (elements (head r)) (elements (head r')) ->
  contents r !! s = old /\ contents r' = <[s := d]> (contents r).
Proof.
  intros Hr Hr' I. pose proof (elements_sorted _ (rw_wf _ Hr')) as Hs. split.
  - apply contents_old; [done|]. by eapply inserted_in.
  - apply contents_eq; [done|]. intros k o. destruct I as [(l1 & l2 & E1 & E2)]. rewrite lookup_insert_Some, (contents_lookup r k o Hr), E1, E2.
    rewrite E2 in Hs. apply keys_sorted_NoDup in Hs. rewrite !fmap_app in Hs. change ([(s, d)].*1 ++ l2.*1) with (s :: l2.*1) in Hs.
    apply NoDup_app in Hs as (_ & H1 & [H2 _]%NoDup_cons).
    assert (forall l, s ∉ l.*1 -> (k, o) ∈ l -> s <> k) as Hn by (intros l Hl Hin ->; apply Hl; exact (list_elem_of_fmap_2 fst _ _ Hin)).
    assert (s ∉ l1.*1) as H3 by (intros Hin; apply (H1 s Hin); apply elem_of_cons; by left). pose proof (Hn l1 H3). pose proof (Hn l2 H2).
    rewrite !elem_of_app, !list_elem_of_singleton. destruct old as [o'|].
    + rewrite list_elem_of_singleton. split; [intros [?|[[= -> ->]|?]]; [right; tauto|by left|right; tauto]|].
      intros [[-> ->]|[Hne [?|[[= -> _]|?]]]]; [by right; left|by left|done|by right; right].
    + rewrite elem_of_nil. split; [intros [?|[[= -> ->]|?]]; [right; tauto|by left|right; tauto]|].
      intros [[-> ->]|[Hne [?|[[]|?]]]]; [by right; left|by left|by right; right].
Qed.

Lemma contents_removed (r r' : rax) s o l1 l2 : rax_wf r -> rax_wf r' -> elements (head r) = l1 ++ [(s, o)] ++ l2 -> elements (head r') = l1 ++ l2 ->
  contents r !! s = Some o /\ contents r' = delete s (contents r).
Proof.
  intros Hr Hr' E1 E2. pose proof (elements_sorted _ (rw_wf _ Hr)) as Hs. split.
  - apply (contents_lookup r s o Hr). rewrite E1, !elem_of_app, list_elem_of_singleton. tauto.
  - apply contents_eq; [done|]. intros k d. rewrite lookup_delete_Some, (contents_lookup r k d Hr), E1, E2.
    rewrite E1 in Hs. apply keys_sorted_NoDup in Hs. rewrite !fmap_app in Hs. change ([(s, o)].*1 ++ l2.*1) with (s :: l2.*1) in Hs.
    apply NoDup_app in Hs as (_ & H1 & [H2 _]%NoDup_cons).
    assert (forall l, s ∉ l.*1 -> (k, d) ∈ l -> s <> k) as Hn by (intros l Hl Hin ->; apply Hl; exact (list_elem_of_fmap_2 fst _ _ Hin)).
    assert (s ∉ l1.*1) as H3 by (intros Hin; apply (H1 s Hin); apply elem_of_cons; by left). pose proof (Hn l1 H3). pose proof (Hn l2 H2).
    rewrite !elem_of_app, list_elem_of_singleton. split; [tauto|]. intros [Hne [?|[[= -> _]|?]]]; tauto.
Qed.

Lemma fits_contents (r : rax) : rax_wf r -> (forall k o, contents r !! k = Some o -> msize k <= RAX_NODE_MAX_SIZE) -> fits 0 (head r).
Proof. intros Hr H [k o] Hx. cbn [fst]. rewrite Z.add_0_l. apply (H k o). by apply contents_lookup. Qed.

(** C22: A radix tree is a map with ordered keys.  In a well-formed tree, looking a key up gives
    its data; inserting a key never fails, gives the data there was, and sets the data of
    this key only (or keeps them, without [overwrite]); when no key is longer than a node
    can hold, removing a key gives its data and removes this key only.  The trees after are
    well-formed: nodes have one child per character, in the order of the characters, a node
    without children is a key, and the numbers of nodes and of elements are right. *)
Theorem rax_operations_refine r s d (overwrite : bool) : rax_wf r ->
  raxFind r s = Some (contents r !! s) /\ raxSize r = Z.of_nat (base.size (contents r)) /\
  (exists r', raxGenericInsert r s d overwrite = Some (match contents r !! s with Some _ => 0 | None => 1 end, contents r !! s, r') /\ rax_wf r' /\
    contents r' = match contents r !! s with Some _ => if overwrite then <[s := d]> (contents r) else contents r | None => <[s := d]> (contents r) end) /\
  ((forall k o, contents r !! k = Some o -> msize k <= RAX_NODE_MAX_SIZE) ->
   exists r', raxRemove r s = Some (match contents r !! s with Some _ => 1 | None => 0 end, contents r !! s, r') /\ rax_wf r' /\
    contents r' = delete s (contents r)).
Proof.
  intros Hr. destruct (raxFind_ok r s Hr) as (old & Ef & Hin). pose proof (contents_old r s old Hr Hin) as Eo. split; [by rewrite Eo|].
  split; [by apply contents_size|]. split.
  - destruct (ensures_Some _ _ (raxGenericInsert_ok r s d overwrite Hr)) as ([[ret o] r'] & E & Hr' & -> & I).
    destruct (contents_inserted _ _ _ _ _ Hr Hr' I) as [El Ec]. exists r'. rewrite El, Ec. split; [done|split; [done|]]. destruct o as [o|]; [|done].
    destruct overwrite; [done|]. by rewrite insert_id.
  - intros Hfit. destruct (ensures_Some _ _ (raxRemove_ok r s Hr (fits_contents r Hr Hfit))) as ([[ret o] r'] & E & Hr' & -> & Ho). destruct o as [o|].
    + destruct Ho as (l1 & l2 & E1 & E2). destruct (contents_removed _ _ _ _ _ _ Hr Hr' E1 E2) as [El Ec]. exists r'. by rewrite El, Ec.
    + destruct Ho as [-> Hn]. assert (contents r !! s = None) as El by (apply contents_old; [done|]; intros o; split; [done|intros H; by apply Hn in H]).
      rewrite El. exists r. split; [done|split; [done|]]. by rewrite delete_id.
Qed.

(** The tree with the given keys. *)
Definition build (l : list (mem * Z)) : rax :=
  foldl (fun r x => match raxInsert r x.1 x.2 with Some (_, _, r') => r' | None => r end) raxNew l.

Lemma raxNew_wf : rax_wf raxNew.
Proof. constructor; [apply raxNewNode_wf|done|done]. Qed.

Lemma build_wf l : rax_wf (build l).
Proof.
  unfold build. pose proof raxNew_wf as H. revert H. generalize raxNew as r. induction l as [|[k d] l IH]; intros r Hr; [done|]. cbn [foldl fst snd].
  apply IH. pose proof (raxGenericInsert_ok r k d true Hr) as I. unfold raxInsert. destruct (raxGenericInsert r k d true) as [[[? ?] r']|]; [apply I|done].
Qed.

Lemma rax_operations_refine_witness :
  let r := build [([102; 111; 111], 5); ([102; 111; 111; 98; 97; 114], 6); ([102; 111; 111; 116], 7)] in
  rax_wf r /\ (forall k o, contents r !! k = Some o -> msize k <= RAX_NODE_MAX_SIZE) /\
  raxFind r [102; 111; 111; 116] = Some (contents r !! [102; 111; 111; 116]) /\
  exists r', raxRemove r [102; 111; 111; 116] = Some (1, Some 7, r') /\ contents r' = delete [102; 111; 111; 116] (contents r).
Proof.
  intros r. assert (rax_wf r) as Hr by apply build_wf.
  assert (forall k o, contents r !! k = Some o -> msize k <= RAX_NODE_MAX_SIZE) as Hfit.
  { intros k o Hk. apply (contents_lookup r k o Hr) in Hk.
    assert (Forall (fun x => msize x.1 <= RAX_NODE_MAX_SIZE) (elements (head r))) as F by (repeat (constructor; [vm_compute; discriminate|]); constructor).
    rewrite Forall_forall in F. apply (F (k, o) Hk). }
  destruct (rax_operations_refine r [102; 111; 111; 116] 8 true Hr) as (H1 & _ & _ & H2). destruct (H2 Hfit) as (r' & H3 & _ & H4).
  split; [exact Hr|split; [exact Hfit|split; [exact H1|]]]. exists r'. split; [|exact H4]. rewrite H3. vm_compute. reflexivity.
Defined.

(** Removing "foo" from a tree with "foo" and "foobar" leaves two compressed nodes after each
    other: only a node of size 1 is joined with others. *)
Lemma raxRemove_leaves_chain : exists r', raxRemove (build [([102; 111; 111], 1); ([102; 111; 111; 98; 97; 114], 2)]) [102; 111; 111] = Some (1, Some 1, r') /\
  head r' = mk_node None true [102; 111; 111] [mk_node None true [98; 97; 114] [mk_node (Some 2) false [] []]].
Proof. eexists. split; [vm_compute; reflexivity|reflexivity]. Qed.

(** ** Keys that are longer than a node *)

Definition leaf (d : Z) : raxNode := mk_node (Some d) false [] [].
Definition last_node (ys : mem) : raxNode := mk_node None (Nat.ltb 1 (length ys)) ys [leaf 1].
Definition middle_node (xs ys : mem) : raxNode := mk_node None true xs [last_node ys].
Definition first_node (xs ys : mem) : raxNode := mk_node None false [98] [middle_node xs ys].
Definition long_tree (xs ys : mem) : rax := mk_rax (mk_node None true (98 :: xs) [last_node ys]) 1 3.
Definition long_tree2 (xs ys : mem) : rax := mk_rax (mk_node None false [97; 98] [leaf 2; middle_node xs ys]) 2 5.
Definition cut_tree (xs : mem) : rax := mk_rax (mk_node None true (98 :: xs) [leaf 1]) 1 2.

Section Long.
Context (xs ys : mem) (Hxs : msize xs = RAX_NODE_MAX_SIZE - 1) (Hys : 1 <= msize ys <= RAX_NODE_MAX_SIZE).

Lemma long_length : (2 <= length xs)%nat.
Proof. unfold msize in Hxs. change RAX_NODE_MAX_SIZE with 536870911 in Hxs. lia. Qed.

Lemma long_rest nodes p : insert_rest (length (xs ++ ys)) raxNewNode ys p nodes =
  Some (raxNewNode, (mk_node None (Nat.ltb 1 (length ys)) ys [raxNewNode], O) :: p, nodes + 1).
Proof using All.
  pose proof long_length as Hl. rewrite length_app. replace (length xs + length ys)%nat with (S (S (pred (pred (length xs)) + length ys))) by lia.
  destruct ys as [|c ys'] eqn:Ey; [unfold msize in Hys; cbn in Hys; lia|]. cbn [insert_rest]. change (size raxNewNode =? 0) with true. cbn [andb].
  destruct ys' as [|c' ys'].
  - change (msize [c] >? 1) with false. cbv iota. unfold raxAddChild. cbn [iscompr negb cassert mbind option_bind data first_such take drop children app raxNewNode val length].
    reflexivity.
  - replace (msize (c :: c' :: ys') >? 1) with true by (pose proof (msize_nonneg ys'); rewrite !msize_cons; lia). cbv iota zeta.
    replace (msize (c :: c' :: ys') >? RAX_NODE_MAX_SIZE) with false by lia. unfold msize. rewrite Nat2Z.id, firstn_all, drop_all.
    unfold raxCompressNode. change (size raxNewNode =? 0) with true. cbn [andb negb iscompr raxNewNode cassert mbind option_bind val length Nat.ltb Nat.leb].
    reflexivity.
Qed.

Lemma long_insert : raxInsert raxNew (98 :: xs ++ ys) 1 = Some (1, None, long_tree xs ys).
Proof using All.
  pose proof long_length. unfold raxInsert, raxGenericInsert, raxLowWalk. cbn [low_walk raxNew head raxNewNode data mbind option_bind].
  unfold at_node. rewrite bool_decide_eq_false_2 by done. cbn [andb iscompr mbind option_bind length insert_rest].
  change (size (mk_node None false [] []) =? 0) with true. cbn [andb].
  assert (msize (98 :: xs ++ ys) = RAX_NODE_MAX_SIZE + msize ys) as El by (rewrite msize_cons, msize_app, Hxs; lia).
  replace (msize (98 :: xs ++ ys) >? 1) with true by (change RAX_NODE_MAX_SIZE with 536870911 in *; lia).
  replace (msize (98 :: xs ++ ys) >? RAX_NODE_MAX_SIZE) with true by lia.
  replace (Z.to_nat RAX_NODE_MAX_SIZE) with (S (length xs)) by (unfold msize in Hxs; lia). cbn [take drop]. rewrite take_app_length, drop_app_length.
  change (iscompr raxNewNode) with false. cbv iota. cbn [mbind option_bind]. change (size raxNewNode =? 0) with true. cbn [andb].
  change (raxCompressNode raxNewNode (98 :: xs)) with (Some (mk_node None true (98 :: xs) [raxNewNode])). cbn [mbind option_bind].
  rewrite long_rest. reflexivity.
Qed.

Lemma long_insert2 : raxInsert (long_tree xs ys) [97] 2 = Some (1, None, long_tree2 xs ys).
Proof using All.
  pose proof long_length. unfold raxInsert, raxGenericInsert, raxLowWalk, long_tree. cbn [low_walk head data iscompr length common].
  change (98 =? 97) with false. cbn [Nat.eqb negb mbind option_bind drop]. unfold at_node. rewrite bool_decide_eq_false_2 by done.
  cbn [andb iscompr mbind option_bind]. unfold split_mismatch. cbn [children last mbind option_bind data lookup list_lookup length Nat.sub].
  rewrite Nat.sub_0_r. replace (Nat.eqb (length xs) 0) with false by (symmetry; apply Nat.eqb_neq; lia).
  replace (Nat.ltb 1 (length xs)) with true by (symmetry; apply Nat.ltb_lt; lia). reflexivity.
Qed.

Lemma last_size : size (last_node ys) = msize ys /\ stops (last_node ys) = false.
Proof using All.
  split; [done|]. unfold stops, last_node. cbn [iskey val iscompr]. change (size (mk_node None _ ys _)) with (msize ys). unfold msize in *.
  destruct (Nat.ltb_spec 1 (length ys)); cbn; [done|]. by rewrite (proj2 (Z.eqb_eq _ 1)) by lia.
Qed.

Lemma long_scan : scan_chain 5 (first_node xs ys) 1 1 = Some (RAX_NODE_MAX_SIZE, 2).
Proof using All.
  assert (size (middle_node xs ys) = RAX_NODE_MAX_SIZE - 1) as Hm by exact Hxs. unfold first_node. cbn [scan_chain].
  change (size (mk_node None false [98] [middle_node xs ys]) =? 0) with false. cbn [children last mbind option_bind]. change (stops (middle_node xs ys)) with false. cbv iota.
  rewrite Hm, Z.gtb_ltb, (proj2 (Z.ltb_ge _ _)), (proj2 (Z.eqb_neq _ 0)) by (change RAX_NODE_MAX_SIZE with 536870911; lia).
  unfold middle_node. cbn [children last mbind option_bind]. destruct last_size as [-> ->]. cbv iota.
  rewrite Z.gtb_ltb, (proj2 (Z.ltb_lt _ _)) by lia. f_equal.
Qed.

(** The second scan goes over all three nodes. *)
Lemma long_copy room k : RAX_NODE_MAX_SIZE <= room -> copy_chain 5 (first_node xs ys) room [] k =
  if RAX_NODE_MAX_SIZE + msize ys <=? room then Some (98 :: xs ++ ys, leaf 1, k - 3) else None.
Proof using All.
  intros Hr. assert (size (middle_node xs ys) = RAX_NODE_MAX_SIZE - 1) as Hm by exact Hxs. unfold first_node. cbn [copy_chain].
  change (size (mk_node None false [98] [middle_node xs ys]) =? 0) with false. cbv iota. cbn [data app].
  change (msize [98]) with 1. rewrite (proj2 (Z.leb_le 1 _)) by (change RAX_NODE_MAX_SIZE with 536870911 in *; lia).
  cbn [cassert mbind option_bind children last]. change (stops (middle_node xs ys)) with false. cbv iota.
  rewrite Hm, (proj2 (Z.eqb_neq _ 0)) by (change RAX_NODE_MAX_SIZE with 536870911; lia). cbn [app].
  change (data (middle_node xs ys)) with xs. assert (msize (98 :: xs) = RAX_NODE_MAX_SIZE) as Hb by (rewrite msize_cons; lia).
  rewrite Hb, (proj2 (Z.leb_le _ _)) by done. cbn [cassert mbind option_bind]. change (children (middle_node xs ys)) with [last_node ys].
  cbn [last mbind option_bind]. destruct last_size as [-> ->]. cbv iota. rewrite (proj2 (Z.eqb_neq (msize ys) 0)) by lia.
  change (data (last_node ys)) with ys. change ((98 :: xs) ++ ys) with (98 :: (xs ++ ys)).
  assert (msize (98 :: (xs ++ ys)) = RAX_NODE_MAX_SIZE + msize ys) as -> by (rewrite msize_cons, msize_app; lia).
  destruct (_ <=? room); cbn [cassert mbind option_bind]; [|done]. change (children (last_node ys)) with [leaf 1].
  cbn [last mbind option_bind]. change (stops (leaf 1)) with true. cbv iota. do 2 f_equal. lia.
Qed.

Lemma long_remove : raxRemove (long_tree2 xs ys) [97] = if msize ys <=? 13 then Some (1, Some 2, cut_tree xs) else None.
Proof using All.
  unfold raxRemove. change (raxLowWalk (long_tree2 xs ys) [97]) with (Some (@nil Z, leaf 2, [(head (long_tree2 xs ys), 0%nat)], 0%nat)).
  cbn [mbind option_bind]. change (at_node [] (leaf 2) 0) with true. change (iskey (leaf 2)) with true. cbn [negb orb].
  change (size (mk_node None (iscompr (leaf 2)) (data (leaf 2)) (children (leaf 2))) =? 0) with true. cbv iota.
  match goal with |- ?x ≫= ?f = _ => change x with (compress (first_node xs ys) [] 4) end.
  unfold compress. cbn [go_up]. change (S (height (first_node xs ys))) with 5%nat. change (size (first_node xs ys)) with 1.
  rewrite long_scan. cbn [mbind option_bind]. change (2 >? 1) with true. cbv iota zeta.
  change (raxPadding RAX_NODE_MAX_SIZE) with 5. rewrite long_copy by lia.
  replace (RAX_NODE_MAX_SIZE + msize ys <=? RAX_NODE_MAX_SIZE + 5 + 8) with (msize ys <=? 13) by lia.
  destruct (_ <=? 13); [|done]. cbn [mbind option_bind plug].
  replace (Z.to_nat RAX_NODE_MAX_SIZE) with (S (length xs)) by (unfold msize in Hxs; lia). cbn [take]. rewrite take_app_length. reflexivity.
Qed.

Lemma cut_wf : rax_wf (cut_tree xs).
Proof using Hxs.
  pose proof long_length. constructor; [|done|done]. apply single_wf; [|apply (wf_set_val (Some 1) raxNewNode), raxNewNode_wf|by intros ?].
  split; [cbn; lia|]. symmetry. apply Nat.ltb_lt. cbn. lia.
Qed.

Lemma cut_contents : contents (cut_tree xs) = {[98 :: xs := 1]}.
Proof using Hxs.
  unfold contents. change (head (cut_tree xs)) with (mk_node None true (98 :: xs) [leaf 1]).
  rewrite (single_elements _ _ _ _) by (pose proof long_length; split; [cbn; lia|symmetry; apply Nat.ltb_lt; cbn; lia]).
  cbn. by rewrite app_nil_r.
Qed.

End Long.

(** C25: A removal can damage a key that is longer than a node can hold.  Take a tree with such
    a key, whose first node is full and whose last node holds the [ys], and a key that begins
    with another character.  Removing the other key joins the nodes of the long one: the first
    scan of the chain stops where the joined node would be too large, the scan that copies the
    characters, drops the nodes and finds the child does not.  When there are at most 13 [ys],
    they are written to the padding and to the place of the pointer of the new node, and the
    removal succeeds: the long key has lost all of the [ys], and is found under a shorter key.
    From 14 on the removal writes past the end of the block that it requested. *)
Theorem raxRemove_cuts_long_key xs ys : msize xs = RAX_NODE_MAX_SIZE - 1 -> 1 <= msize ys <= RAX_NODE_MAX_SIZE ->
  exists r1 r2 r3, raxInsert raxNew (98 :: xs ++ ys) 1 = Some (1, None, r1) /\ raxInsert r1 [97] 2 = Some (1, None, r2) /\
    rax_wf r2 /\ contents r2 = {[ [97] := 2; 98 :: xs ++ ys := 1 ]} /\
    rax_wf r3 /\ contents r3 = {[ 98 :: xs := 1 ]} /\
    raxRemove r2 [97] = if msize ys <=? 13 then Some (1, Some 2, r3) else None.
Proof.
  intros Hxs Hys. exists (long_tree xs ys), (long_tree2 xs ys), (cut_tree xs).
  split; [by apply long_insert|]. split; [by apply long_insert2|].
  pose proof (raxGenericInsert_ok _ (98 :: xs ++ ys) 1 true raxNew_wf) as I. change (raxGenericInsert ?r ?s ?d true) with (raxInsert r s d) in I.
  rewrite long_insert in I by done. destruct I as (W1 & _ & I).
  pose proof (raxGenericInsert_ok _ [97] 2 true W1) as J. change (raxGenericInsert ?r ?s ?d true) with (raxInsert r s d) in J.
  rewrite long_insert2 in J by done. destruct J as (W2 & _ & J).
  destruct (contents_inserted _ _ _ _ _ raxNew_wf W1 I) as [_ C1]. destruct (contents_inserted _ _ _ _ _ W1 W2 J) as [_ C2].
  split; [done|]. split; [by rewrite C2, C1|]. split; [by apply cut_wf|]. split; [by apply cut_contents|by apply long_remove].
Qed.

Lemma raxRemove_cuts_long_key_witness : exists xs r1 r2 r3, msize xs = RAX_NODE_MAX_SIZE - 1 /\
  raxInsert raxNew (98 :: xs ++ [99]) 1 = Some (1, None, r1) /\ raxInsert r1 [97] 2 = Some (1, None, r2) /\
  raxRemove r2 [97] = Some (1, Some 2, r3) /\ contents r3 = {[ 98 :: xs := 1 ]}.
Proof.
  assert (msize (replicate (Z.to_nat (RAX_NODE_MAX_SIZE - 1)) 0) = RAX_NODE_MAX_SIZE - 1) as H.
  { unfold msize. rewrite length_replicate, Z2Nat.id; [reflexivity|]. unfold RAX_NODE_MAX_SIZE. vm_compute. discriminate. }
  destruct (raxRemove_cuts_long_key _ [99] H) as (r1 & r2 & r3 & H1 & H2 & _ & _ & _ & H3 & H4); [vm_compute; split; discriminate|].
  exists (replicate (Z.to_nat (RAX_NODE_MAX_SIZE - 1)) 0), r1, r2, r3.
  split; [exact H|split; [exact H1|split; [exact H2|split; [exact H4|exact H3]]]].
Defined.

End RadixSafety.
