(* ===== verification/RadixIter.v ===== *)
(** Iteration over a radix tree: a step leads to the next element, or the previous one, and
    a seek to the element that was asked for. *)
From Stdlib Require Import Sorting.Sorted.
From S2P Require Import Prelude Radix RadixTree RadixSafety.
From stdpp Require Import options.
#[local] Set Default Proof Using "Type*".

Module RadixIter.
Import Radix RadixTree RadixSafety.

(** ** Places *)

(** A node of the tree. *)
Record place (root : raxNode) (p : path) (h : raxNode) : Prop := {
  pl_plug : plug p h = root;
  pl_path : Forall frame_wf p;
  pl_wf : wf h;
  pl_links : links p h;
  pl_ended : p <> [] -> ended h
}.

Lemma walked_place root s rest h p j : walked root s rest h p j -> place root p h.
Proof. by intros [? ? ? ? ? _ _]. Qed.

Lemma place_down root p n j c : place root p n -> children n !! j = Some c -> place root ((n, j) :: p) c /\ ended c.
Proof.
  intros [H1 H2 H3 H4 _] Hc. destruct (walk_down root n j c p H1 H2 H3 Hc) as (? & ? & ? & ?). by split; [constructor|].
Qed.

Lemma place_up root p n j h : place root ((n, j) :: p) h -> wf root -> children n !! j = Some h /\ place root p n.
Proof.
  intros [H1 H2 H3 [Hc H4] H5] Hw. split; [done|]. cbn [plug] in H1. rewrite (set_child_same _ _ _ Hc) in H1. pose proof H2 as [Hf H2']%Forall_cons.
  specialize (H5 ltac:(done)). assert (wf n /\ ended n) as [Hwn Hen].
  { split; [|intros E; by rewrite E in Hc]. rewrite <- (set_child_same _ _ _ Hc). by apply wf_set_child. }
  by constructor.
Qed.

Lemma place_elements root p h : place root p h -> elements root = before p ++ prefix (pkey p) (elements h) ++ after p.
Proof. intros [<- Hp _ _ _]. by apply elements_plug, path_ok. Qed.

Lemma child_height n j h : children n !! j = Some h -> (height h < height n)%nat.
Proof.
  intros Hc. destruct n as [v b d ch]. cbn in *.
  assert (height h <= list_max (height <$> ch))%nat; [|lia]. revert j Hc. induction ch as [|c ch IHc]; intros [|j] Hc; [done|done| |];
    change (list_max (height <$> c :: ch)) with (Nat.max (height c) (list_max (height <$> ch))).
  - injection Hc as ->. lia.
  - specialize (IHc j Hc). lia.
Qed.

Lemma place_height root p h : place root p h -> (length p + height h <= height root)%nat.
Proof.
  intros [<- _ _ Hl _]. revert h Hl. induction p as [|[n j] p IH]; intros h Hl; cbn [plug length links] in *; [lia|].
  destruct Hl as [Hc Hl]. rewrite (set_child_same _ _ _ Hc). specialize (IH n Hl). pose proof (child_height n j h Hc). lia.
Qed.

(** The elements up to the children of a node, and of a place in it. *)
Definition upto (p : path) (n : raxNode) (m : nat) : list (mem * Z) := before p ++ prefix (pkey p) (own n ++ flat (take m (edges n))).

Lemma before_down p n j : before ((n, j) :: p) = upto p n j.
Proof. done. Qed.

Lemma upto_all p n m : (length (edges n) <= m)%nat -> upto p n m = before p ++ prefix (pkey p) (elements n).
Proof. intros Hm. unfold upto. by rewrite take_ge, <- elements_eq by done. Qed.

Lemma upto_next root p n j h : place root ((n, j) :: p) h -> upto p n (S j) = before ((n, j) :: p) ++ prefix (pkey ((n, j) :: p)) (elements h).
Proof.
  intros [_ [[Hs Hj _ _] _]%Forall_cons _ [Hc _] _]. cbn [before pkey fst snd] in *. unfold upto, before_f.
  rewrite <- (sh_length _ Hs) in Hj. destruct (lookup_lt_is_Some_2 _ _ Hj) as [l Hl].
  assert (label n j = l) as -> by exact (f_equal (default []) Hl).
  rewrite (take_S_r _ _ _ (edge_lookup _ _ _ _ Hl Hc)), flat_edges_app, flat_edges_cons. change (flat []) with (@nil (mem * Z)).
  rewrite app_nil_r, app_assoc, prefix_app, prefix_prefix. by rewrite app_assoc.
Qed.

(** ** Turns *)

(** The number of edges of a node up to the character that was left. *)
Definition passed (n : raxNode) (c : Z) : nat := if iscompr n then 1%nat else first_such (fun a => a >? c) (data n).
Definition not_reached (n : raxNode) (c : Z) : nat :=
  if iscompr n then 0%nat else (length (data n) - first_such (fun a => (a <? c)%Z) (rev (data n)))%nat.

(** What the key ends with in a node. *)
Definition edge_key (n : raxNode) (c : Z) : mem := if iscompr n then data n else [c].

Lemma edges_length n : wf n -> length (edges n) = length (children n).
Proof. intros [Hs _ _]. unfold edges. rewrite length_zip_with. pose proof (sh_length _ Hs). lia. Qed.

Lemma edge_at n i a : wf n -> iscompr n = false -> data n !! i = Some a -> exists c, children n !! i = Some c /\ label n i = [a].
Proof.
  intros Hw Eb Ha. destruct (lookup_lt_is_Some_2 (children n) i) as [c Hc]; [rewrite (normal_length n) by done; by eapply lookup_lt_Some|].
  exists c. split; [done|]. by apply label_normal.
Qed.

Lemma del_edge_ok n k c : wf n -> del_edge n (k ++ edge_key n c) = Some k.
Proof.
  intros Hw. unfold del_edge, edge_key. destruct (iscompr n) eqn:Eb;
    (rewrite (proj2 (Nat.leb_le _ _)) by (rewrite length_app; cbn [length]; lia)); cbn [cassert mbind option_bind]; f_equal;
    by rewrite length_app, Nat.add_sub, take_app_length.
Qed.

(** [prevchild], or, when the node is compressed, something. *)
Lemma last_edge_key n k c : wf n -> exists a, last (k ++ edge_key n c) = Some a /\ (iscompr n = false -> a = c).
Proof.
  intros Hw. unfold edge_key. destruct (iscompr n) eqn:Eb.
  - pose proof (sh_compr _ (wf_shape _ Hw) Eb) as Hl. destruct (data n) as [|x d _] eqn:Ed using rev_ind; [cbn in Hl; lia|].
    exists x. by rewrite app_assoc, last_snoc.
  - exists c. by rewrite last_snoc.
Qed.

(** The edges to the next child, and from the previous one. *)
Lemma first_such_at P v i a : v !! i = Some a -> P a = true -> (first_such P v <= i)%nat.
Proof.
  intros Hi Ha. destruct (first_such_spec P v) as (_ & H & _). destruct (decide (i < first_such P v)%nat) as [Hlt|?]; [|lia].
  by rewrite (H i a Hi Hlt) in Ha.
Qed.

Lemma next_child_ok noup c n : wf n -> (noup = true \/ iscompr n = true \/ c ∈ data n) ->
  next_child noup c n = (if decide (passed n c < length (edges n))%nat then Some (passed n c) else None).
Proof.
  intros Hw Hc. rewrite (edges_length n Hw). unfold next_child, passed. destruct (iscompr n) eqn:Eb; cbn [negb andb].
  { destruct (compr_child n Hw Eb) as [c0 ->]. by rewrite decide_False by (cbn; lia). }
  rewrite (normal_length n Hw Eb). set (i := first_such _ _). destruct (first_such_spec (fun a => a >? c) (data n)) as (Hi & _ & _). fold i in Hi.
  assert ((if Nat.eqb i (length (data n)) then None else Some i) = (if decide (i < length (data n))%nat then Some i else None)) as E.
  { destruct (Nat.eqb_spec i (length (data n))); [by rewrite decide_False by lia|by rewrite decide_True by lia]. }
  destruct (Z.gtb_spec (size n) (if noup then 0 else 1)) as [Hs|Hs]; [done|]. rewrite decide_False; [done|]. unfold size, msize in Hs.
  destruct noup; [lia|]. destruct Hc as [?|[?|Hc]]; [done|done|]. destruct (data n) as [|a [|]] eqn:Ed; cbn in *; try lia.
  apply list_elem_of_singleton in Hc as ->. subst i. cbn. rewrite Z.gtb_ltb, Z.ltb_irrefl. cbn. lia.
Qed.

Lemma prev_child_ok noup c n : wf n -> (noup = true \/ iscompr n = true \/ c ∈ data n) ->
  prev_child noup c n = match not_reached n c with O => None | S i => Some i end.
Proof.
  intros Hw Hc. unfold prev_child, not_reached. destruct (iscompr n) eqn:Eb; cbn [negb andb]; [done|]. set (i := first_such _ _).
  destruct (first_such_spec (fun a => a <? c) (rev (data n))) as (Hi & _ & _). fold i in Hi. rewrite length_rev in Hi.
  assert ((if Nat.eqb i (length (data n)) then None else Some (length (data n) - 1 - i)%nat) =
    match (length (data n) - i)%nat with O => None | S j => Some j end) as E.
  { destruct (Nat.eqb_spec i (length (data n))); [by replace (length (data n) - i)%nat with 0%nat by lia|].
    destruct (length (data n) - i)%nat eqn:El; [lia|]. f_equal. lia. }
  destruct (Z.gtb_spec (size n) (if noup then 0 else 1)) as [Hs|Hs]; [done|]. unfold size, msize in Hs.
  destruct noup; [by replace (length (data n) - i)%nat with 0%nat by lia|]. destruct Hc as [?|[?|Hc]]; [done|done|].
  destruct (data n) as [|a [|]] eqn:Ed; cbn in *; try lia; try done.
  apply list_elem_of_singleton in Hc as ->. subst i. cbn. by rewrite Z.ltb_irrefl.
Qed.

(** In the place of a child, these are the edges after, and before it. *)
Lemma sorted_lt v i j a b : StronglySorted Z.lt v -> v !! i = Some a -> v !! j = Some b -> (i < j)%nat <-> a < b.
Proof.
  intros Hv. revert i j. induction Hv as [|x v _ IH Hf]; intros [|i] [|j] Ha Hb; try done; cbn in Ha, Hb; rewrite ?Forall_forall in Hf.
  - simplify_eq. lia.
  - simplify_eq. assert (a < b) by (apply Hf; by eapply list_elem_of_lookup_2). lia.
  - simplify_eq. assert (b < a) by (apply Hf; by eapply list_elem_of_lookup_2). lia.
  - rewrite <- (IH i j Ha Hb). lia.
Qed.

Lemma passed_child n j a : wf n -> iscompr n = false -> data n !! j = Some a -> passed n a = S j.
Proof.
  intros Hw Eb Hj. unfold passed. rewrite Eb. pose proof (sh_sorted _ (wf_shape _ Hw) Eb) as Hs.
  destruct (first_such_spec (fun x => x >? a) (data n)) as (H1 & H2 & H3). set (i := first_such _ _) in *. pose proof (lookup_lt_Some _ _ _ Hj) as Hlt.
  assert (j < i)%nat as Hji.
  { destruct (decide (j < i)%nat) as [|Hn]; [done|]. exfalso. destruct (lookup_lt_is_Some_2 (data n) i) as [b Hb]; [lia|].
    specialize (H3 b Hb). apply Z.gtb_lt in H3. pose proof (proj2 (sorted_lt _ j i a b Hs Hj Hb) H3). lia. }
  destruct (decide (i = S j)) as [|Hne]; [done|]. destruct (lookup_lt_is_Some_2 (data n) (S j)) as [b Hb]; [lia|].
  specialize (H2 (S j) b Hb ltac:(lia)). rewrite Z.gtb_ltb in H2. apply Z.ltb_ge in H2. pose proof (proj1 (sorted_lt _ j (S j) a b Hs Hj Hb) ltac:(lia)). lia.
Qed.

Lemma not_reached_spec n c : iscompr n = false -> let m := not_reached n c in (m <= length (data n))%nat /\
  (forall i a, data n !! i = Some a -> (m <= i)%nat -> c <= a) /\ (forall i a, m = S i -> data n !! i = Some a -> a < c).
Proof.
  intros Eb. cbv zeta. unfold not_reached. rewrite Eb. destruct (first_such_spec (fun a => a <? c) (rev (data n))) as (H1 & H2 & H3).
  set (k := first_such _ _) in *. rewrite length_rev in H1. split; [lia|]. split.
  - intros i a Hi Hle. pose proof (lookup_lt_Some _ _ _ Hi). specialize (H2 (length (data n) - S i)%nat a).
    apply Z.ltb_ge, H2; [|lia]. rewrite rev_alt. apply (proj2 (reverse_lookup_Some (data n) _ a)). split; [|lia].
    by replace (length (data n) - S (length (data n) - S i))%nat with i by lia.
  - intros i a Em Hi. pose proof (lookup_lt_Some _ _ _ Hi). apply Z.ltb_lt, H3. rewrite rev_alt. apply (proj2 (reverse_lookup_Some (data n) _ a)).
    split; [|lia]. by replace (length (data n) - S k)%nat with i by lia.
Qed.

Lemma not_reached_child n j a : wf n -> iscompr n = false -> data n !! j = Some a -> not_reached n a = j.
Proof.
  intros Hw Eb Hj. pose proof (sh_sorted _ (wf_shape _ Hw) Eb) as Hs. destruct (not_reached_spec n a Eb) as (H1 & H2 & H3).
  set (m := not_reached n a) in *. pose proof (lookup_lt_Some _ _ _ Hj) as Hlt.
  assert (m <= j)%nat as Hmj.
  { destruct m as [|i]; [lia|]. destruct (lookup_lt_is_Some_2 (data n) i) as [b Hb]; [lia|]. specialize (H3 i b eq_refl Hb).
    pose proof (proj2 (sorted_lt _ i j b a Hs Hb Hj) H3). lia. }
  destruct (decide (m = j)) as [|Hne]; [done|]. destruct (lookup_lt_is_Some_2 (data n) m) as [b Hb]; [lia|].
  specialize (H2 m b Hb ltac:(lia)). pose proof (proj1 (sorted_lt _ m j b a Hs Hb Hj) ltac:(lia)). lia.
Qed.

Lemma passed_compr n a c : iscompr n = true -> passed n a = passed n c /\ not_reached n a = not_reached n c.
Proof. intros Eb. unfold passed, not_reached. by rewrite Eb. Qed.

Lemma next_turn_ok noup n st k c : wf n -> (noup = true \/ iscompr n = true \/ c ∈ data n) ->
  next_turn noup n st (k ++ edge_key n c) = Some (k, ch ← children n !! passed n c; Some (k ++ label n (passed n c), ch, n :: st)).
Proof.
  intros Hw Hc. unfold next_turn. destruct (last_edge_key n k c Hw) as (a & -> & Ha). cbn [mbind option_bind]. rewrite (del_edge_ok n k c Hw).
  assert (passed n a = passed n c) as Ep by (destruct (iscompr n) eqn:Eb; [by apply passed_compr|by rewrite (Ha eq_refl)]).
  cbn [mbind option_bind]. rewrite (next_child_ok noup a n Hw) by (destruct (iscompr n); [tauto|by rewrite (Ha eq_refl)]). rewrite Ep.
  rewrite (edges_length n Hw). destruct (decide (passed n c < length (children n))%nat) as [Hlt|Hge].
  - destruct (lookup_lt_is_Some_2 _ _ Hlt) as [ch Hch]. destruct (iscompr n) eqn:Eb.
    { exfalso. destruct (compr_child n Hw Eb) as [c0 E0]. unfold passed in Hlt. rewrite Eb, E0 in Hlt. cbn in Hlt. lia. }
    rewrite (normal_length n Hw Eb) in Hlt. destruct (lookup_lt_is_Some_2 _ _ Hlt) as [b Hb].
    assert (data n !! passed n c = Some b) as -> by exact Hb. cbn [mbind option_bind]. rewrite Hch. cbn [mbind option_bind]. by rewrite (label_normal n _ b Eb Hb).
  - by rewrite (proj2 (lookup_ge_None (children n) (passed n c))) by lia.
Qed.

(** What a child's key ends with, and the edges that its turn passes. *)
Lemma child_key n j h : wf n -> children n !! j = Some h ->
  exists c, label n j = edge_key n c /\ passed n c = S j /\ not_reached n c = j /\ (iscompr n = true \/ c ∈ data n).
Proof.
  intros Hw Hc. pose proof (lookup_lt_Some _ _ _ Hc) as Hlt. unfold edge_key. destruct (iscompr n) eqn:Eb.
  - exists 0. destruct (compr_child n Hw Eb) as [c0 E0]. rewrite E0 in Hlt. destruct j as [|j]; [|cbn in Hlt; lia].
    rewrite (label_compr n Eb). unfold passed, not_reached. rewrite Eb. split_and!; try done. by left.
  - rewrite (normal_length n Hw Eb) in Hlt. destruct (lookup_lt_is_Some_2 _ _ Hlt) as [a Ha]. exists a. split_and!.
    + by apply label_normal.
    + by apply passed_child.
    + by apply not_reached_child.
    + right. by eapply list_elem_of_lookup_2.
Qed.

(** ** The next element *)

Definition iter_state : Type := mem * raxNode * list raxNode.

(** The iterator is at the element after [A]. *)
Definition at_element (root : raxNode) (A : list (mem * Z)) (s : iter_state) : Prop :=
  let '(k, n, st) := s in exists p, place root p n /\ k = pkey p /\ st = fst <$> p /\ before p = A /\ iskey n = true.

Definition found (root : raxNode) (A : list (mem * Z)) (res : option iter_state) : Prop :=
  match res with None => elements root = A | Some s => at_element root A s end.

Lemma find_down root fuel p n : place root p n -> ended n -> iskey n = false -> (height n <= fuel)%nat ->
  exists s, next_loop fuel false (pkey p) n (fst <$> p) = Some (Some s) /\ at_element root (before p) s.
Proof.
  revert p n. induction fuel as [|fuel IH]; intros p n Hp He Ek Hf; [destruct n; cbn in Hf; lia|]. cbn [next_loop].
  destruct (children n) as [|c ch] eqn:Ec; [exfalso; specialize (He Ec); rewrite iskey_val in Ek; by destruct (val n)|].
  cbn [mbind option_bind]. assert (children n !! 0%nat = Some c) as Hc by by rewrite Ec.
  destruct (place_down root p n 0 c Hp Hc) as [Hp' He']. pose proof (pl_wf _ _ _ Hp) as Hw.
  assert ((if iscompr n return list Z then data n else take 1 (data n)) = label n 0) as ->.
  { destruct (iscompr n) eqn:Eb; [by rewrite label_compr|]. pose proof (normal_length n Hw Eb) as Hl. rewrite Ec in Hl.
    destruct (data n) as [|a v] eqn:Ed; [done|]. rewrite (label_normal n 0 a Eb); by rewrite ?Ed. }
  change (pkey p ++ label n 0) with (pkey ((n, 0%nat) :: p)). change (n :: (fst <$> p)) with (fst <$> ((n, 0%nat) :: p)).
  assert (before ((n, 0%nat) :: p) = before p) as Eb.
  { cbn [before]. unfold before_f. rewrite take_0. unfold own, own_of. rewrite iskey_val in Ek. destruct (val n); [done|]. by rewrite app_nil_r. }
  destruct (iskey c) eqn:Ekc.
  - eexists. split; [done|]. exists ((n, 0%nat) :: p). by rewrite Eb.
  - rewrite <- Eb. apply IH; try done. pose proof (child_height n 0 c Hc). lia.
Qed.

(** From a child that was reached, to its first element. *)
Lemma land root fuel q c A : place root q c -> ended c -> (height c <= fuel)%nat -> before q = A ->
  exists res, (if iskey c then Some (Some (pkey q, c, fst <$> q)) else next_loop fuel false (pkey q) c (fst <$> q)) = Some res /\ found root A res.
Proof.
  intros Hp He Hf <-. destruct (iskey c) eqn:Ek.
  - eexists. split; [done|]. by exists q.
  - destruct (find_down root fuel q c Hp He Ek Hf) as (s & -> & Hs). by exists (Some s).
Qed.

(** Where a turn leads. *)
Definition leads_to (root : raxNode) (A : list (mem * Z)) (res : option iter_state) : Prop :=
  match res with
  | None => elements root = A
  | Some (k, c, st) => exists q, place root q c /\ ended c /\ k = pkey q /\ st = fst <$> q /\ before q = A
  end.

Lemma turn_ok root noup p n c : place root p n -> (noup = true \/ iscompr n = true \/ c ∈ data n) ->
  exists res, next_turn noup n (fst <$> p) (pkey p ++ edge_key n c) = Some (pkey p, res) /\
    match res with
    | None => upto p n (passed n c) = before p ++ prefix (pkey p) (elements n)
    | Some _ => leads_to root (upto p n (passed n c)) res
    end.
Proof.
  intros Hp Hc. rewrite (next_turn_ok noup n _ _ c (pl_wf _ _ _ Hp) Hc). eexists. split; [done|].
  destruct (children n !! passed n c) as [ch|] eqn:Ech; cbn [mbind option_bind].
  - destruct (place_down root p n _ ch Hp Ech) as [Hp' He]. by exists ((n, passed n c) :: p).
  - apply upto_all. rewrite (edges_length n (pl_wf _ _ _ Hp)). by apply lookup_ge_None.
Qed.

Lemma climb_ok root p h : wf root -> place root p h ->
  exists res, climb (fst <$> p) (pkey p) = Some res /\ leads_to root (before p ++ prefix (pkey p) (elements h)) res.
Proof.
  intros Hw. revert h. induction p as [|[n j] p IH]; intros h Hp.
  { exists None. split; [done|]. cbn [leads_to before pkey]. rewrite prefix_nil. destruct Hp as [<- _ _ _ _]. done. }
  destruct (place_up root p n j h Hp Hw) as [Hc Hn]. cbn [fmap list_fmap climb pkey]. change (list_fmap _ _ fst p) with (fst <$> p).
  destruct (child_key n j h (pl_wf _ _ _ Hn) Hc) as (c & El & Ep & _ & Hin). rewrite El. cbn [fst].
  destruct (turn_ok root false p n c Hn) as (res & -> & Hr); [by right|]. cbn [mbind option_bind]. rewrite Ep, (upto_next root p n j h Hp) in Hr.
  cbn [pkey] in Hr. rewrite El in Hr. destruct res as [s|]; [by exists (Some s)|]. rewrite Hr. by apply IH.
Qed.

(** The next element after a node, and after a place between its edges. *)
Lemma finish root fuel A (found_ : option iter_state) : leads_to root A found_ -> (height root <= fuel)%nat ->
  exists res, match found_ with
    | None => Some None
    | Some (k, n, st) => if iskey n then Some (Some (k, n, st)) else next_loop fuel false k n st
    end = Some res /\ found root A res.
Proof.
  destruct found_ as [[[k n] st]|]; cbn [leads_to]; [|by exists None].
  intros (q & Hq & He & -> & -> & <-) Hf. apply land; try done. pose proof (place_height root q n Hq). lia.
Qed.

Lemma next_ok root fuel p h : wf root -> place root p h -> (height root <= fuel)%nat ->
  exists res, next_loop (S fuel) false (pkey p) h (fst <$> p) = Some res /\ found root (upto p h 0) res.
Proof.
  intros Hw Hp Hf. cbn [next_loop]. destruct (children h) as [|c ch] eqn:Ec.
  - destruct (climb_ok root p h Hw Hp) as (res & -> & Hr). cbn [mbind option_bind]. apply finish; [|done].
    rewrite upto_all; [done|]. rewrite (edges_length h (pl_wf _ _ _ Hp)), Ec. cbn. lia.
  - cbn [mbind option_bind]. assert (children h !! 0%nat = Some c) as Hc by by rewrite Ec. destruct (place_down root p h 0 c Hp Hc) as [Hp' He'].
    assert ((if iscompr h return list Z then data h else take 1 (data h)) = label h 0) as ->.
    { pose proof (pl_wf _ _ _ Hp) as Hwh. destruct (iscompr h) eqn:Eb; [by rewrite label_compr|]. pose proof (normal_length h Hwh Eb) as Hl. rewrite Ec in Hl.
      destruct (data h) as [|a v] eqn:Ed; [done|]. rewrite (label_normal h 0 a Eb); by rewrite ?Ed. }
    apply (finish root fuel (upto p h 0) (Some (pkey p ++ label h 0, c, h :: (fst <$> p)))); [|done]. by exists ((h, 0%nat) :: p).
Qed.

Lemma next_past_ok root fuel p n c : wf root -> place root p n -> (height root <= fuel)%nat ->
  exists res, next_loop (S fuel) true (pkey p ++ edge_key n c) n (fst <$> p) = Some res /\ found root (upto p n (passed n c)) res.
Proof.
  intros Hw Hp Hf. cbn [next_loop]. destruct (turn_ok root true p n c Hp) as (res & -> & Hr); [by left|]. cbn [mbind option_bind].
  destruct res as [s|].
  - cbn [mbind option_bind]. by apply (finish root fuel _ (Some s)).
  - destruct (climb_ok root p n Hw Hp) as (res & -> & Hr'). cbn [mbind option_bind]. apply finish; [|done]. by rewrite Hr.
Qed.

(** ** The previous element *)

(** The iterator is at the last element of [A]. *)
Definition found_last (root : raxNode) (A : list (mem * Z)) (res : option iter_state) : Prop :=
  match res with
  | None => A = []
  | Some (k, n, st) => exists B d, at_element root B (k, n, st) /\ val n = Some d /\ A = B ++ [(k, d)]
  end.

Lemma at_last root p n d : place root p n -> val n = Some d -> found_last root (upto p n 0) (Some (pkey p, n, fst <$> p)).
Proof.
  intros Hp Ev. exists (before p), d. split_and!; [|done|].
  - exists p. split_and!; try done. by rewrite iskey_val, Ev.
  - unfold upto. rewrite take_0, app_nil_r. unfold own, own_of. rewrite Ev. unfold prefix. cbn. by rewrite app_nil_r.
Qed.

Lemma seek_greatest_ok root fuel p n : place root p n -> ended n -> (height n <= fuel)%nat ->
  exists s, raxSeekGreatest fuel (pkey p) n (fst <$> p) = Some s /\ found_last root (before p ++ prefix (pkey p) (elements n)) (Some s).
Proof.
  revert p n. induction fuel as [|fuel IH]; intros p n Hp He Hf; [destruct n; cbn in Hf; lia|]. cbn [raxSeekGreatest].
  pose proof (pl_wf _ _ _ Hp) as Hw. destruct (Z.eqb_spec (size n) 0) as [E0|E0].
  - assert (data n = []) as Ed by (apply nil_length_inv; unfold size, msize in E0; lia). destruct (data_children n Hw Ed) as [Ec Eb].
    specialize (He Ec). destruct (val n) as [d|] eqn:Ev; [|done]. eexists. split; [done|].
    rewrite <- (upto_all p n 0); [by apply at_last with d|]. rewrite (edges_length n Hw), Ec. cbn. lia.
  - assert (exists v a, data n = v ++ [a]) as (v & a & Ed).
    { destruct (data n) as [|a v _] eqn:Ed using rev_ind; [by unfold size in E0; rewrite Ed in E0|by exists v, a]. }
    assert (exists ch c, children n = ch ++ [c]) as (ch & c & Ec).
    { destruct (children n) as [|c ch _] eqn:Ec using rev_ind; [|by exists ch, c]. exfalso. destruct (iscompr n) eqn:Eb.
      - destruct (compr_child n Hw Eb) as [c0 E1]. by rewrite E1 in Ec.
      - pose proof (normal_length n Hw Eb) as Hl. rewrite Ec, Ed, length_app in Hl. cbn in Hl. lia. }
    rewrite Ec, Ed, !last_snoc. cbn [mbind option_bind]. rewrite <- Ed.
    assert (children n !! length ch = Some c) as Hc by (rewrite Ec; by apply list_lookup_middle).
    destruct (place_down root p n _ c Hp Hc) as [Hp' He'].
    assert ((if iscompr n return list Z then data n else [a]) = label n (length ch)) as ->.
    { destruct (iscompr n) eqn:Eb.
      - destruct (compr_child n Hw Eb) as [c0 E1]. rewrite E1 in Ec. destruct ch as [|? []]; [|done..]. by rewrite label_compr.
      - pose proof (normal_length n Hw Eb) as Hl. rewrite Ec, Ed, !length_app in Hl. cbn in Hl.
        rewrite (label_normal n (length ch) a Eb); [done|]. rewrite Ed. apply list_lookup_middle. lia. }
    destruct (IH ((n, length ch) :: p) c Hp' He') as (s & E & Hs).
    { pose proof (child_height n _ c Hc). lia. }
    exists s. split; [exact E|]. rewrite <- (upto_next root p n _ c Hp') in Hs. rewrite upto_all in Hs; [done|].
    rewrite (edges_length n Hw), Ec, length_app. cbn. lia.
Qed.

Lemma upto_no_key p n : iskey n = false -> upto p n 0 = before p.
Proof. intros Ek. unfold upto. rewrite take_0. unfold own, own_of. rewrite iskey_val in Ek. destruct (val n); [done|]. by rewrite app_nil_r. Qed.

Lemma found_last_key root A k n st : found_last root A (Some (k, n, st)) -> iskey n = true.
Proof. by intros (B & d & (p & _ & _ & _ & _ & Ek) & _). Qed.

Lemma prev_turn_ok root room noup p n c : place root p n -> (noup = true \/ iscompr n = true \/ c ∈ data n) -> (height root <= room)%nat ->
  exists s, prev_turn room noup n (fst <$> p) (pkey p ++ edge_key n c) = Some s /\
    (found_last root (upto p n (not_reached n c)) (Some s) \/
     s = (pkey p, n, fst <$> p) /\ iskey n = false /\ upto p n (not_reached n c) = before p).
Proof.
  intros Hp Hc Hf. pose proof (pl_wf _ _ _ Hp) as Hw. unfold prev_turn. destruct (last_edge_key n (pkey p) c Hw) as (a & -> & Ha). cbn [mbind option_bind].
  rewrite (del_edge_ok n _ c Hw). cbn [mbind option_bind].
  assert (not_reached n a = not_reached n c) as Er by (destruct (iscompr n) eqn:Eb; [by apply passed_compr|by rewrite (Ha eq_refl)]).
  rewrite (prev_child_ok noup a n Hw) by (destruct (iscompr n); [tauto|by rewrite (Ha eq_refl)]). rewrite Er.
  destruct (not_reached n c) as [|i] eqn:Ei.
  - eexists. split; [done|]. destruct (iskey n) eqn:Ek; [|right; split_and!; [done..|by apply upto_no_key]].
    left. rewrite iskey_val in Ek. destruct (val n) as [d|] eqn:Ev; [|done]. by apply at_last with d.
  - destruct (iscompr n) eqn:Eb; [unfold not_reached in Ei; by rewrite Eb in Ei|].
    destruct (not_reached_spec n c Eb) as (Hl & _ & _). rewrite Ei in Hl. destruct (lookup_lt_is_Some_2 (data n) i) as [b Hb]; [lia|].
    destruct (edge_at n i b Hw Eb Hb) as (ch & Hch & Elab). assert (data n !! i = Some b) as -> by exact Hb. cbn [mbind option_bind]. rewrite Hch.
    cbn [mbind option_bind]. rewrite <- Elab. destruct (place_down root p n i ch Hp Hch) as [Hp' He'].
    pose proof (child_height n i ch Hch). pose proof (place_height root p n Hp).
    destruct (seek_greatest_ok root room ((n, i) :: p) ch Hp' He') as (s & E & Hs); [lia|]. exists s. split; [exact E|]. left.
    by rewrite (upto_next root p n i ch Hp').
Qed.

Lemma prev_up_ok root fuel room p h : wf root -> place root p h -> (height root <= room)%nat -> (length p < fuel)%nat ->
  exists res, prev_loop fuel room false (pkey p) h (fst <$> p) = Some res /\ found_last root (before p) res.
Proof.
  intros Hw Hp Hr. revert p h Hp. induction fuel as [|fuel IH]; intros p h Hp Hf; [lia|]. destruct p as [|[n j] p]; [by exists None|].
  destruct (place_up root p n j h Hp Hw) as [Hc Hn]. cbn [fmap list_fmap prev_loop]. change (list_fmap _ _ fst p) with (fst <$> p). cbn [fst].
  destruct (child_key n j h (pl_wf _ _ _ Hn) Hc) as (c & El & _ & Er & Hin). cbn [pkey]. rewrite El.
  destruct (prev_turn_ok root room false p n c Hn) as (s & -> & Hs); [by right|done|]. cbn [mbind option_bind]. rewrite Er in Hs.
  rewrite before_down. destruct Hs as [Hs|(-> & Ek & E)].
  - destruct s as [[k n'] st]. rewrite (found_last_key _ _ _ _ _ Hs). by eexists.
  - rewrite Ek, E. apply IH; [done|cbn in Hf; lia].
Qed.

Lemma prev_past_ok root fuel room p n c : wf root -> place root p n -> (height root <= room)%nat -> (height root <= fuel)%nat ->
  exists res, prev_loop (S fuel) room true (pkey p ++ edge_key n c) n (fst <$> p) = Some res /\ found_last root (upto p n (not_reached n c)) res.
Proof.
  intros Hw Hp Hr Hf. cbn [prev_loop]. destruct (prev_turn_ok root room true p n c Hp) as (s & -> & Hs); [by left|done|]. cbn [mbind option_bind].
  destruct Hs as [Hs|(-> & Ek & E)].
  - destruct s as [[k n'] st]. rewrite (found_last_key _ _ _ _ _ Hs). by eexists.
  - rewrite Ek, E. pose proof (place_height root p n Hp). apply prev_up_ok; try done. destruct n as [? ? ? ?]. cbn in *. lia.
Qed.

(** ** Steps *)

(** The iterator has the element with the number [i], or none. *)
Definition positioned (r : rax) (i : option nat) (it : raxIterator) : Prop :=
  match i with
  | None => it_eof it = true
  | Some i => it_eof it = false /\ exists A d, at_element (head r) A (key it, node it, stack it) /\ val (node it) = Some d /\ it_data it = d /\ length A = i
  end.

Lemma at_element_split root A k n st d : at_element root A (k, n, st) -> val n = Some d -> exists p, place root p n /\ k = pkey p /\ st = fst <$> p /\
  elements root = A ++ (k, d) :: prefix k (flat (edges n)) ++ after p.
Proof.
  intros (p & Hp & -> & -> & <- & _) Ev. exists p. split_and!; try done. rewrite (place_elements root p n Hp), elements_eq, prefix_app.
  unfold own, own_of. rewrite Ev. unfold prefix at 1. cbn. by rewrite app_nil_r.
Qed.

Lemma positioned_element r i it : positioned r (Some i) it -> elements (head r) !! i = Some (key it, it_data it).
Proof.
  intros (_ & A & d & Ha & Ev & Ed & <-). destruct (at_element_split _ _ _ _ _ d Ha Ev) as (p & _ & _ & _ & ->). rewrite Ed. by apply list_lookup_middle.
Qed.

Definition index_from (n : nat) (e : list (mem * Z)) : option nat := if decide (n < length e)%nat then Some n else None.
Definition index_last (n : nat) : option nat := match n with O => None | S n => Some n end.

Definition finish_step (it : raxIterator) (res : option iter_state) : raxIterator :=
  match res with
  | None => set_flags true (just_seeked it) it
  | Some (k, n, st) => get_data (set_place k n st it)
  end.

Lemma finish_seeked it res : just_seeked (finish_step it res) = just_seeked it.
Proof. by destruct res as [[[? ?] ?]|]. Qed.

Lemma found_positioned r A res it : it_eof it = false -> found (head r) A res -> positioned r (index_from (length A) (elements (head r))) (finish_step it res).
Proof.
  intros He Hf. unfold index_from. destruct res as [[[k n] st]|]; cbn [found] in Hf.
  - assert (exists d, val n = Some d) as [d Ev].
    { destruct Hf as (p & _ & _ & _ & _ & Ek). rewrite iskey_val in Ek. destruct (val n) as [d|]; [by exists d|done]. }
    destruct (at_element_split _ _ _ _ _ d Hf Ev) as (p & _ & _ & _ & ->). rewrite decide_True by (rewrite length_app; cbn; lia).
    split; [done|]. exists A, d. split_and!; try done. cbn. unfold raxGetData. by rewrite Ev.
  - rewrite Hf, decide_False by lia. done.
Qed.

Lemma found_last_positioned r A res it : it_eof it = false -> found_last (head r) A res -> positioned r (index_last (length A)) (finish_step it res).
Proof.
  intros He Hf. destruct res as [[[k n] st]|]; cbn [found_last] in Hf; [|by subst A].
  destruct Hf as (B & d & Ha & Ev & ->). rewrite length_app, Nat.add_comm. cbn. split; [done|]. exists B, d. split_and!; try done.
  unfold raxGetData. by rewrite Ev.
Qed.

(** An iterator at a node, with the key of the node. *)
Definition at_place (r : rax) (p : path) (h : raxNode) (k : mem) (it : raxIterator) : Prop :=
  it_eof it = false /\ just_seeked it = false /\ place (head r) p h /\ key it = k /\ node it = h /\ stack it = fst <$> p.

Lemma step_next r p h it : rax_wf r -> at_place r p h (pkey p) it ->
  exists it', raxIteratorNextStep r false it = Some it' /\ just_seeked it' = false /\ positioned r (index_from (length (upto p h 0)) (elements (head r))) it'.
Proof.
  intros Hr (He & Hj & Hp & Hk & Hn & Hst). unfold raxIteratorNextStep. rewrite He, Hj, Hk, Hn, Hst.
  destruct (next_ok (head r) (S (height (head r))) p h (rw_wf _ Hr) Hp) as (res & -> & Hf); [lia|]. cbn [mbind option_bind].
  exists (finish_step it res). split_and!; [destruct res as [[[? ?] ?]|]; cbn [finish_step]; by rewrite ?Hj|by rewrite finish_seeked|]. by apply found_positioned.
Qed.

Lemma step_next_past r p h c it : rax_wf r -> at_place r p h (pkey p ++ edge_key h c) it ->
  exists it', raxIteratorNextStep r true it = Some it' /\ just_seeked it' = false /\ positioned r (index_from (length (upto p h (passed h c))) (elements (head r))) it'.
Proof.
  intros Hr (He & Hj & Hp & Hk & Hn & Hst). unfold raxIteratorNextStep. rewrite He, Hj, Hk, Hn, Hst.
  destruct (next_past_ok (head r) (S (height (head r))) p h c (rw_wf _ Hr) Hp) as (res & -> & Hf); [lia|]. cbn [mbind option_bind].
  exists (finish_step it res). split_and!; [destruct res as [[[? ?] ?]|]; cbn [finish_step]; by rewrite ?Hj|by rewrite finish_seeked|]. by apply found_positioned.
Qed.

Lemma step_prev r p h it : rax_wf r -> at_place r p h (pkey p) it ->
  exists it', raxIteratorPrevStep r false it = Some it' /\ just_seeked it' = false /\ positioned r (index_last (length (before p))) it'.
Proof.
  intros Hr (He & Hj & Hp & Hk & Hn & Hst). unfold raxIteratorPrevStep. rewrite He, Hj, Hk, Hn, Hst. pose proof (place_height _ _ _ Hp).
  destruct (prev_up_ok (head r) (S (S (height (head r)))) (S (height (head r))) p h (rw_wf _ Hr) Hp) as (res & -> & Hf); [lia..|]. cbn [mbind option_bind].
  exists (finish_step it res). split_and!; [destruct res as [[[? ?] ?]|]; cbn [finish_step]; by rewrite ?Hj|by rewrite finish_seeked|]. by apply found_last_positioned.
Qed.

Lemma step_prev_past r p h c it : rax_wf r -> at_place r p h (pkey p ++ edge_key h c) it ->
  exists it', raxIteratorPrevStep r true it = Some it' /\ just_seeked it' = false /\ positioned r (index_last (length (upto p h (not_reached h c)))) it'.
Proof.
  intros Hr (He & Hj & Hp & Hk & Hn & Hst). unfold raxIteratorPrevStep. rewrite He, Hj, Hk, Hn, Hst.
  destruct (prev_past_ok (head r) (S (height (head r))) (S (height (head r))) p h c (rw_wf _ Hr) Hp) as (res & -> & Hf); [lia..|]. cbn [mbind option_bind].
  exists (finish_step it res). split_and!; [destruct res as [[[? ?] ?]|]; cbn [finish_step]; by rewrite ?Hj|by rewrite finish_seeked|]. by apply found_last_positioned.
Qed.

(** ** The order of the keys *)

#[export] Instance lex_dec a b : Decision (lex a b).
Proof.
  revert b. induction a as [|x a IH]; intros [|y b]; cbn; [right; tauto|left; done|right; tauto|].
  destruct (decide (x < y)); [left; by left|]. destruct (decide (x = y)) as [->|]; [|right; lia].
  destruct (IH b); [left; by right|right; intros [?|[_ ?]]; [lia|done]].
Defined.

(** The number of elements before a key, and with it. *)
Definition count_lt (ele : mem) (e : list (mem * Z)) : nat := length (filter (fun x => lex x.1 ele) e).
Definition count_le (ele : mem) (e : list (mem * Z)) : nat := length (filter (fun x => ~ lex ele x.1) e).

Lemma filter_length_all {A} (P : A -> Prop) `{!forall x, Decision (P x)} l : (forall x, x ∈ l -> P x) -> length (filter P l) = length l.
Proof.
  intros Hall. induction l as [|x l IH]; [done|]. rewrite filter_cons_True by (apply Hall; apply elem_of_cons; by left). cbn [length].
  rewrite IH; [done|]. intros y Hy. apply Hall. apply elem_of_cons. by right.
Qed.

Lemma filter_length_none {A} (P : A -> Prop) `{!forall x, Decision (P x)} l : (forall x, x ∈ l -> ~ P x) -> length (filter P l) = 0%nat.
Proof.
  intros Hall. induction l as [|x l IH]; [done|]. rewrite filter_cons_False by (apply Hall; apply elem_of_cons; by left).
  apply IH. intros y Hy. apply Hall. apply elem_of_cons. by right.
Qed.

(** They are the same when the key is not there. *)
Lemma filter_length_ext {A} (P Q : A -> Prop) `{!forall x, Decision (P x), !forall x, Decision (Q x)} l :
  (forall x, x ∈ l -> P x <-> Q x) -> length (filter P l) = length (filter Q l).
Proof.
  intros Hall. induction l as [|x l IH]; [done|]. assert (P x <-> Q x) as E by (apply Hall; apply elem_of_cons; by left).
  rewrite !filter_cons. destruct (decide (P x)), (decide (Q x)); try tauto; cbn [length]; rewrite IH; try done; intros y Hy; apply Hall; apply elem_of_cons; by right.
Qed.

Lemma lex_asym a b : lex a b -> ~ lex b a.
Proof. intros H1 H2. apply (lex_irrefl a). by etrans. Qed.

Lemma counts ele A M B : (forall x, x ∈ A -> lex x.1 ele) -> (forall x, x ∈ M -> x.1 = ele) -> (forall x, x ∈ B -> lex ele x.1) ->
  count_lt ele (A ++ M ++ B) = length A /\ count_le ele (A ++ M ++ B) = length (A ++ M).
Proof.
  intros HA HM HB. unfold count_lt, count_le. rewrite !filter_app, !length_app. split.
  - rewrite (filter_length_all _ A) by done. rewrite (filter_length_none _ M), (filter_length_none _ B); [lia|intros x Hx; by apply lex_asym, HB|].
    intros x Hx. rewrite (HM x Hx). apply lex_irrefl.
  - rewrite (filter_length_all _ A) by (intros x Hx; by apply lex_asym, HA). rewrite (filter_length_all _ M) by (intros x Hx; rewrite (HM x Hx); apply lex_irrefl).
    rewrite (filter_length_none _ B); [lia|]. intros x Hx Hn. by apply Hn, HB.
Qed.

Lemma edges_lookup n i l c : edges n !! i = Some (l, c) -> labels n !! i = Some l /\ children n !! i = Some c.
Proof. intros Hi. apply lookup_zip_with_Some in Hi as (l' & c' & E & Hl & Hc). by injection E as <- <-. Qed.

Lemma label_at n i l : labels n !! i = Some l -> label n i = l.
Proof. intros Hl. exact (f_equal (default []) Hl). Qed.

(** Around a child, and around the path. *)
Lemma before_f_lt n j k d t : shape n -> (j < length (children n))%nat -> (k, d) ∈ before_f n j -> lex k (label n j ++ t).
Proof.
  intros Hs Hj Hin. rewrite <- (sh_length _ Hs) in Hj. destruct (lookup_lt_is_Some_2 _ _ Hj) as [l Hl]. rewrite (label_at n j l Hl).
  unfold before_f in Hin. apply elem_of_app in Hin as [Hin|Hin].
  - unfold own, own_of in Hin. destruct (val n); [|by apply not_elem_of_nil in Hin]. apply list_elem_of_singleton in Hin as [= -> ->].
    by destruct (label_head n j l Hs Hl) as (a & t' & -> & _).
  - apply in_flat in Hin as (i & l' & c & k' & Hi & Ek & _). cbn [fst] in Ek. subst k. apply lookup_take_Some in Hi as [Hi Hlt].
    apply edges_lookup in Hi as [Hl' _]. destruct (label_heads n i j l' l Hs Hl' Hl Hlt) as (a & t1 & b & t2 & -> & -> & Hab). by apply lex_heads.
Qed.

Lemma after_f_gt n j k d t : shape n -> (j < length (children n))%nat -> (k, d) ∈ after_f n j -> lex (label n j ++ t) k.
Proof.
  intros Hs Hj Hin. rewrite <- (sh_length _ Hs) in Hj. destruct (lookup_lt_is_Some_2 _ _ Hj) as [l Hl]. rewrite (label_at n j l Hl).
  unfold after_f in Hin. apply in_flat in Hin as (i & l' & c & k' & Hi & Ek & _). cbn [fst] in Ek. subst k. rewrite lookup_drop in Hi.
  apply edges_lookup in Hi as [Hl' _]. destruct (label_heads n j (S j + i) l l' Hs Hl Hl') as (a & t1 & b & t2 & -> & -> & Hab); [lia|]. by apply lex_heads.
Qed.

Lemma before_lt p x t : Forall frame_wf p -> x ∈ before p -> lex x.1 (pkey p ++ t).
Proof.
  intros Hp. revert t. induction Hp as [|[n j] p [Hs Hj _ _] _ IH]; intros t Hx; [by apply not_elem_of_nil in Hx|]. cbn [before pkey fst snd] in *.
  rewrite <- app_assoc. apply elem_of_app in Hx as [Hx|(k & E & Hk)%elem_prefix]; [by apply IH|].
  destruct x as [kx dx]. cbn [fst snd] in *. subst kx. apply lex_app. by eapply before_f_lt.
Qed.

Lemma after_gt p x t : Forall frame_wf p -> x ∈ after p -> lex (pkey p ++ t) x.1.
Proof.
  intros Hp. revert t. induction Hp as [|[n j] p [Hs Hj _ _] _ IH]; intros t Hx; [by apply not_elem_of_nil in Hx|]. cbn [after pkey fst snd] in *.
  rewrite <- app_assoc. apply elem_of_app in Hx as [(k & E & Hk)%elem_prefix|Hx]; [|by apply IH].
  destruct x as [kx dx]. cbn [fst snd] in *. subst kx. apply lex_app. by eapply after_f_gt.
Qed.

(** A key that ends in a node: the numbers of elements when the elements of the node are
    known to be before it, it, and after it. *)
Lemma node_counts root p n t X M Y : place root p n -> own n ++ flat (edges n) = X ++ M ++ Y ->
  (forall x, x ∈ X -> lex x.1 t) -> (forall x, x ∈ M -> x.1 = t) -> (forall x, x ∈ Y -> lex t x.1) ->
  count_lt (pkey p ++ t) (elements root) = length (before p ++ prefix (pkey p) X) /\
  count_le (pkey p ++ t) (elements root) = length (before p ++ prefix (pkey p) (X ++ M)).
Proof.
  intros Hp E HX HM HY. rewrite (place_elements root p n Hp), elements_eq, E.
  replace (before p ++ prefix (pkey p) (X ++ M ++ Y) ++ after p) with ((before p ++ prefix (pkey p) X) ++ prefix (pkey p) M ++ prefix (pkey p) Y ++ after p)
    by by rewrite !prefix_app, <- !app_assoc.
  replace (before p ++ prefix (pkey p) (X ++ M)) with ((before p ++ prefix (pkey p) X) ++ prefix (pkey p) M) by by rewrite prefix_app, app_assoc.
  apply counts.
  - intros x [Hx|(k & Ek & Hk)%elem_prefix]%elem_of_app; [by apply before_lt; [apply Hp|]|]. destruct x as [kx dx]. cbn [fst snd] in *. subst kx. apply lex_app. by apply (HX (k, dx)).
  - intros x (k & Ek & Hk)%elem_prefix. destruct x as [kx dx]. cbn [fst snd] in *. subst kx. f_equal. by apply (HM (k, dx)).
  - intros x [(k & Ek & Hk)%elem_prefix|Hx]%elem_of_app; [|by apply after_gt; [apply Hp|]]. destruct x as [kx dx]. cbn [fst snd] in *. subst kx. apply lex_app. by apply (HY (k, dx)).
Qed.

Lemma own_nil n x : x ∈ own n -> x.1 = [].
Proof. unfold own, own_of. destruct (val n); [by intros ->%list_elem_of_singleton|by intros ?%not_elem_of_nil]. Qed.

Lemma flat_pos n x es : wf n -> x ∈ flat es -> (forall e, e ∈ es -> e ∈ edges n) -> lex [] x.1.
Proof.
  intros Hw Hx Hes. destruct x as [kx dx]. cbn [fst]. apply in_flat in Hx as (i & l & c & k & Hi & Ek & _). cbn [fst] in Ek. subst kx. apply list_elem_of_lookup_2, Hes, list_elem_of_lookup in Hi as [j Hj].
  apply edges_lookup in Hj as [Hl _]. by destruct (label_head n j l (wf_shape _ Hw) Hl) as (a & t & -> & _).
Qed.

(** The key of the node. *)
Lemma counts_at root p n : place root p n ->
  count_lt (pkey p) (elements root) = length (before p) /\ count_le (pkey p) (elements root) = length (upto p n 0).
Proof.
  intros Hp. destruct (node_counts root p n [] [] (own n) (flat (edges n)) Hp eq_refl) as [E1 E2].
  - by intros x ?%not_elem_of_nil.
  - by apply own_nil.
  - intros x Hx. by eapply flat_pos; [apply Hp| |].
  - rewrite app_nil_r in E1, E2. rewrite E1, E2. unfold upto. rewrite take_0. change (flat []) with (@nil (mem * Z)).
    change (prefix (pkey p) []) with (@nil (mem * Z)). rewrite !app_nil_r, app_nil_l. done.
Qed.

(** A key between the edges of a node. *)
Lemma counts_between root p n m t : place root p n -> t <> [] ->
  (forall i l c k, edges n !! i = Some (l, c) -> (i < m)%nat -> lex (l ++ k) t) ->
  (forall i l c k, edges n !! i = Some (l, c) -> (m <= i)%nat -> lex t (l ++ k)) ->
  count_lt (pkey p ++ t) (elements root) = length (upto p n m) /\ count_le (pkey p ++ t) (elements root) = length (upto p n m).
Proof.
  intros Hp Ht Hl Hg. destruct (node_counts root p n t (own n ++ flat (take m (edges n))) [] (flat (drop m (edges n))) Hp) as [-> ->].
  - by rewrite app_nil_l, <- app_assoc, <- flat_edges_app, take_drop.
  - intros [kx dx] [Hx|Hx]%elem_of_app; cbn [fst].
    + apply own_nil in Hx. cbn [fst] in Hx. subst kx. by destruct t.
    + apply in_flat in Hx as (i & l & c & k & Hi & E & _). cbn [fst] in E. subst kx. apply lookup_take_Some in Hi as [Hi ?]. by eapply Hl.
  - by intros x ?%not_elem_of_nil.
  - intros [kx dx] Hx. cbn [fst]. apply in_flat in Hx as (i & l & c & k & Hi & E & _). cbn [fst] in E. subst kx. rewrite lookup_drop in Hi.
    eapply Hg; [done|lia].
  - by rewrite app_nil_r.
Qed.

Lemma compr_edges n i l c : iscompr n = true -> edges n !! i = Some (l, c) -> i = 0%nat /\ l = data n.
Proof. intros Eb Hi. apply edges_lookup in Hi as [Hl _]. unfold labels, labels_of in Hl. rewrite Eb in Hl. destruct i; [by injection Hl as <-|done]. Qed.

Lemma lex_take j d k : (j < length d)%nat -> lex (take j d) (d ++ k).
Proof.
  intros Hj. rewrite <- (take_drop j d) at 2. rewrite <- app_assoc. rewrite <- (app_nil_r (take j d)) at 1. apply lex_app.
  destruct (drop j d) as [|a v] eqn:E; [|done]. apply (f_equal length) in E. rewrite length_drop in E. cbn in E. lia.
Qed.

(** It ends inside a node. *)
Lemma counts_inside root p n j : place root p n -> iscompr n = true -> (0 < j < length (data n))%nat ->
  count_lt (pkey p ++ take j (data n)) (elements root) = length (upto p n 0) /\ count_le (pkey p ++ take j (data n)) (elements root) = length (upto p n 0).
Proof.
  intros Hp Eb Hj. apply counts_between; [done| | |].
  - intros E. apply (f_equal length) in E. rewrite length_take_le in E by lia. cbn in E. lia.
  - lia.
  - intros i l c k Hi _. destruct (compr_edges n i l c Eb Hi) as [_ ->]. apply lex_take. lia.
Qed.

(** It leaves a compressed node. *)
Lemma counts_leaves root p n j a c t : place root p n -> iscompr n = true -> data n !! j = Some a -> a <> c ->
  let m := if decide (a < c) then 1%nat else 0%nat in let ele := pkey p ++ take j (data n) ++ c :: t in
  count_lt ele (elements root) = length (upto p n m) /\ count_le ele (elements root) = length (upto p n m).
Proof.
  intros Hp Eb Ha Hac m ele. subst m ele. assert (forall k, data n ++ k = take j (data n) ++ a :: drop (S j) (data n) ++ k) as E.
  { intros k. rewrite <- (take_drop_middle _ _ _ Ha) at 1. by rewrite <- app_assoc. }
  apply counts_between; [done|by destruct (take j (data n))| |]; intros i l c0 k Hi Hm; destruct (compr_edges n i l c0 Eb Hi) as [-> ->];
    rewrite E; apply lex_app; destruct (decide (a < c)); try lia; left; lia.
Qed.

(** It leaves another node. *)
Lemma edge_head n i l c : iscompr n = false -> edges n !! i = Some (l, c) -> exists a, l = [a] /\ data n !! i = Some a.
Proof.
  intros Eb Hi. apply edges_lookup in Hi as [Hl _]. unfold labels, labels_of in Hl. rewrite Eb in Hl.
  apply list_lookup_fmap_Some in Hl as (a & -> & Ha). by exists a.
Qed.

Lemma counts_other root p n c t m : place root p n -> iscompr n = false -> c ∉ data n -> m = passed n c \/ m = not_reached n c ->
  count_lt (pkey p ++ c :: t) (elements root) = length (upto p n m) /\ count_le (pkey p ++ c :: t) (elements root) = length (upto p n m).
Proof.
  intros Hp Eb Hc Hm. pose proof (sh_sorted _ (wf_shape _ (pl_wf _ _ _ Hp)) Eb) as Hs.
  assert (forall i a, data n !! i = Some a -> a <> c) as Hne by (intros i a Ha ->; apply Hc; by eapply list_elem_of_lookup_2).
  assert ((forall i a, data n !! i = Some a -> (i < m)%nat -> a < c) /\ (forall i a, data n !! i = Some a -> (m <= i)%nat -> c < a)) as [H1 H2].
  { destruct Hm as [->| ->].
    - unfold passed. rewrite Eb. destruct (first_such_spec (fun a => a >? c) (data n)) as (Hle & F1 & F2). set (m := first_such _ _) in *. split.
      + intros i a Ha Hi. specialize (F1 i a Ha Hi). rewrite Z.gtb_ltb in F1. apply Z.ltb_ge in F1. specialize (Hne i a Ha). lia.
      + intros i a Ha Hi. pose proof (lookup_lt_Some _ _ _ Ha). destruct (lookup_lt_is_Some_2 (data n) m) as [b Hb]; [lia|].
        specialize (F2 b Hb). rewrite Z.gtb_ltb in F2. apply Z.ltb_lt in F2. destruct (decide (m = i)) as [Emi|]; [rewrite Emi in Hb; pose proof (eq_trans (eq_sym Ha) Hb) as [= ->]; lia|].
        pose proof (proj1 (sorted_lt _ m i b a Hs Hb Ha) ltac:(lia)). lia.
    - destruct (not_reached_spec n c Eb) as (Hle & F1 & F2). set (m := not_reached n c) in *. split.
      + intros i a Ha Hi. destruct m as [|m']; [lia|]. destruct (lookup_lt_is_Some_2 (data n) m') as [b Hb]; [lia|]. specialize (F2 m' b eq_refl Hb).
        destruct (decide (m' = i)) as [Emi|]; [subst i; pose proof (eq_trans (eq_sym Ha) Hb) as [= ->]; lia|]. pose proof (proj1 (sorted_lt _ i m' a b Hs Ha Hb) ltac:(lia)). lia.
      + intros i a Ha Hi. specialize (F1 i a Ha Hi). specialize (Hne i a Ha). lia. }
  apply counts_between; [done|done| |]; intros i l c0 k Hi Him; destruct (edge_head n i l c0 Eb Hi) as (a & -> & Ha); left; [by eapply H1|by eapply H2].
Qed.

(** ** Seeks *)

(** The number of the element that a seek is for. *)
Definition seek_index (op : seek_op) (ele : mem) (e : list (mem * Z)) : option nat :=
  match op with
  | op_gt eq => index_from (if eq then count_lt ele e else count_le ele e) e
  | op_lt eq => index_last (if eq then count_le ele e else count_lt ele e)
  | op_eq => if decide (ele ∈ e.*1) then Some (count_lt ele e) else None
  | op_first => index_from 0 e
  | op_last => index_last (length e)
  end.

(** A seek gave the element with the number [i], for the next step to return. *)
Definition sought (r : rax) (i : option nat) (res : option raxIterator) : Prop :=
  exists it, res = Some it /\ just_seeked it = true /\ positioned r i it.

Lemma positioned_flags r i it b : positioned r i it -> positioned r i (set_flags (it_eof it) b it).
Proof. by destruct i. Qed.

Definition there (r : rax) (p : path) (h : raxNode) (k : mem) (it : raxIterator) : Prop :=
  it_eof it = false /\ place (head r) p h /\ key it = k /\ node it = h /\ stack it = fst <$> p.

Lemma there_at r p h k it : there r p h k it -> at_place r p h k (set_flags (it_eof it) false it).
Proof. by intros (? & ? & ? & ? & ?). Qed.

Section Seek.
Context (r : rax) (Hr : rax_wf r).
Notation e := (elements (head r)).

Lemma seek_next_ok p h it : there r p h (pkey p) it -> sought r (index_from (length (upto p h 0)) e) (seek_next r false it).
Proof.
  intros Ht. unfold seek_next. destruct (step_next r p h _ Hr (there_at _ _ _ _ _ Ht)) as (it' & -> & _ & Hp). cbn [mbind option_bind].
  eexists. split; [done|split; [done|]]. by apply positioned_flags.
Qed.

Lemma seek_next_past_ok p h c it : there r p h (pkey p ++ edge_key h c) it -> sought r (index_from (length (upto p h (passed h c))) e) (seek_next r true it).
Proof.
  intros Ht. unfold seek_next. destruct (step_next_past r p h c _ Hr (there_at _ _ _ _ _ Ht)) as (it' & -> & _ & Hp). cbn [mbind option_bind].
  eexists. split; [done|split; [done|]]. by apply positioned_flags.
Qed.

Lemma seek_prev_ok p h it : there r p h (pkey p) it -> sought r (index_last (length (before p))) (seek_prev r false it).
Proof.
  intros Ht. unfold seek_prev. destruct (step_prev r p h _ Hr (there_at _ _ _ _ _ Ht)) as (it' & -> & _ & Hp). cbn [mbind option_bind].
  eexists. split; [done|split; [done|]]. by apply positioned_flags.
Qed.

Lemma seek_prev_past_ok p h c it : there r p h (pkey p ++ edge_key h c) it -> sought r (index_last (length (upto p h (not_reached h c)))) (seek_prev r true it).
Proof.
  intros Ht. unfold seek_prev. destruct (step_prev_past r p h c _ Hr (there_at _ _ _ _ _ Ht)) as (it' & -> & _ & Hp). cbn [mbind option_bind].
  eexists. split; [done|split; [done|]]. by apply positioned_flags.
Qed.

Lemma get_data_ok p h it : there r p h (pkey p) it -> just_seeked it = true -> iskey h = true -> sought r (Some (length (before p))) (Some (get_data it)).
Proof.
  intros (He & Hp & Hk & Hn & Hst) Hj Ek. eexists. split; [done|split; [done|]]. split; [done|].
  rewrite iskey_val in Ek. destruct (val h) as [d|] eqn:Ev; [|done]. exists (before p), d. cbn. rewrite Hk, Hn, Hst. split_and!; try done.
  - exists p. split_and!; try done. by rewrite iskey_val, Ev.
  - unfold raxGetData. by rewrite Ev.
Qed.

Lemma greatest_ok p h it k n st : there r p h (pkey p) it -> just_seeked it = true -> found_last (head r) (upto p h 1) (Some (k, n, st)) ->
  sought r (index_last (length (upto p h 1))) (Some (get_data (set_place k n st it))).
Proof.
  intros (He & _) Hj Hf. eexists. split; [done|split; [done|]]. by apply (found_last_positioned r _ (Some (k, n, st))).
Qed.

Lemma key_taken (k d rest : mem) j : (j <= length d)%nat ->
  let ele := k ++ take j d ++ rest in take (length ele - length rest - j) ele = k.
Proof.
  intros Hj ele. subst ele. rewrite !length_app, length_take_le by done. replace (_ - _ - j)%nat with (length k) by lia. by rewrite take_app_length.
Qed.

Lemma seek_near_ok (gt : bool) ele rest h p j it : walked (head r) ele rest h p j -> it_eof it = false -> just_seeked it = true -> node it = h -> stack it = fst <$> p ->
  sought r (if gt then index_from (count_le ele e) e else index_last (count_lt ele e)) (seek_near r gt ele rest j it).
Proof.
  intros Hwk He Hj Hn Hst. pose proof (walked_place _ _ _ _ _ _ Hwk) as Hp. destruct Hwk as [_ _ Hw _ _ Hk Hstop]. unfold seek_near. rewrite Hn.
  set (it0 := set_place (take _ ele) h (stack it) it). unfold stopped in Hstop.
  assert (j <= length (data h))%nat as Hjl by (destruct (iscompr h); lia).
  assert (there r p h (pkey p) it0) as Ht. { subst it0. rewrite Hk. split_and!; try done. apply (key_taken (pkey p) (data h) rest j Hjl). }
  assert (forall k, there r p h k (set_place k h (stack it0) it0)) as Hset by by intros k.
  assert (just_seeked it0 = true) as Hj0 by done. clearbody it0. destruct rest as [|c t].
  - rewrite app_nil_r in Hk. destruct (iscompr h) eqn:Eb; cbn [andb].
    + destruct (Nat.eqb_spec j 0) as [->|Hj1].
      * rewrite take_0, app_nil_r in Hk. subst ele. destruct (counts_at _ _ _ Hp) as [-> ->]. rewrite andb_false_r. cbn [andb].
        destruct gt; [by apply seek_next_ok|by apply (seek_prev_ok p h)].
      * subst ele. destruct (counts_inside _ _ _ j Hp Eb) as [-> ->]; [lia|]. cbn [negb]. rewrite andb_true_r.
        destruct gt; [rewrite andb_false_r; by apply seek_next_ok|]. rewrite andb_true_r. destruct (iskey h) eqn:Ek.
        -- replace (index_last (length (upto p h 0))) with (Some (length (before p))); [by apply (get_data_ok p h)|].
           unfold upto. rewrite take_0, app_nil_r. unfold own, own_of. rewrite iskey_val in Ek. destruct (val h); [|done].
           rewrite length_app. cbn. by rewrite Nat.add_comm.
        -- rewrite (upto_no_key p h Ek). by apply (seek_prev_ok p h).
    + destruct Hstop as [-> _]. rewrite take_0, app_nil_r in Hk. subst ele. destruct (counts_at _ _ _ Hp) as [-> ->].
      destruct gt; [by apply seek_next_ok|by apply (seek_prev_ok p h)].
  - destruct (iscompr h) eqn:Eb; cbn [negb].
    + destruct Hstop as [_ [|(a & c' & t' & Ha & [= <- <-] & Hac)]]; [done|]. assert (data h !! j = Some a) as -> by exact Ha. cbn [mbind option_bind].
      subst ele. destruct (counts_leaves _ _ _ j a c t Hp Eb Ha Hac) as [-> ->]. destruct Ht as (T1 & T2 & T3 & T4 & T5). rewrite T3.
      assert (edge_key h 0 = data h) as Ekey by (unfold edge_key; by rewrite Eb).
      pose proof (Hset (pkey p ++ data h)) as Hpast. rewrite <- Ekey in Hpast at 1.
      destruct (decide (a < c)) as [Hlt|Hge].
      * rewrite Z.gtb_ltb, (proj2 (Z.ltb_ge c a)), (proj2 (Z.ltb_lt a c)) by lia. destruct gt.
        -- apply (seek_next_past_ok p h 0) in Hpast. unfold passed in Hpast. by rewrite Eb in Hpast.
        -- rewrite T5. destruct (compr_child h Hw Eb) as [c0 Ec]. assert (ended h) as Heh by (intros E0; by rewrite Ec in E0).
           pose proof (place_height _ _ _ Hp). destruct (seek_greatest_ok (head r) (S (height (head r))) p h Hp Heh) as ([[k n] st] & -> & Hf); [lia|].
           cbn [mbind option_bind]. apply (greatest_ok p h); [done|done|]. rewrite upto_all; [done|]. rewrite (edges_length h Hw), Ec. cbn. lia.
      * rewrite Z.gtb_ltb, (proj2 (Z.ltb_lt c a)), (proj2 (Z.ltb_ge a c)) by lia. destruct gt.
        -- by apply seek_next_ok.
        -- apply (seek_prev_past_ok p h 0) in Hpast. unfold not_reached in Hpast. by rewrite Eb in Hpast.
    + destruct Hstop as [-> Hc]. specialize (Hc c t eq_refl). rewrite take_0, app_nil_l in Hk. subst ele. destruct Ht as (T1 & T2 & T3 & T4 & T5). rewrite T3.
      assert (edge_key h c = [c]) as Ekey by (unfold edge_key; by rewrite Eb). pose proof (Hset (pkey p ++ [c])) as Hpast. rewrite <- Ekey in Hpast at 1. destruct gt.
      * destruct (counts_other _ _ _ c t (passed h c) Hp Eb Hc) as [_ ->]; [by left|]. by apply seek_next_past_ok.
      * destruct (counts_other _ _ _ c t (not_reached h c) Hp Eb Hc) as [-> _]; [by right|]. by apply seek_prev_past_ok.
Qed.
(** The key that is there. *)
Lemma at_key ele rest h p j : raxLowWalk r ele = Some (rest, h, p, j) -> walked (head r) ele rest h p j ->
  (at_node rest h j = true -> pkey p = ele) /\ (ele ∈ e.*1 <-> at_node rest h j && iskey h = true).
Proof.
  intros Ew Hwk. split.
  - intros Ha. destruct Hwk as [_ _ _ _ _ Hk Hst]. unfold at_node in Ha. apply andb_true_iff in Ha as [->%bool_decide_eq_true Ej].
    unfold stopped in Hst. destruct (iscompr h); cbn [negb orb] in Ej; [apply Nat.eqb_eq in Ej as ->|destruct Hst as [-> _]]; by rewrite take_0, !app_nil_r in Hk.
  - destruct (raxFind_ok r ele Hr) as (old & Ef & Hin). unfold raxFind in Ef. rewrite Ew in Ef. cbn [mbind option_bind] in Ef. injection Ef as <-.
    rewrite iskey_val, list_elem_of_fmap. destruct (at_node rest h j); cbn [andb].
    + split; [intros ([k d] & -> & Hx); apply Hin in Hx; by rewrite Hx|]. destruct (val h) as [d|]; [|done]. intros _. exists (ele, d). split; [done|by apply Hin].
    + split; [|done]. intros ([k d] & -> & Hx). by apply Hin in Hx.
Qed.

Lemma seek_key_ok op ele it : it_eof it = false -> just_seeked it = true -> (match op with op_first | op_last => False | _ => True end) ->
  sought r (seek_index op ele e) (seek_key r op ele it).
Proof.
  intros He Hj Hop. unfold seek_key. destruct (raxLowWalk_ok r ele (rw_wf _ Hr)) as (rest & h & p & j & Ew & Hwk). rewrite Ew. cbn [mbind option_bind].
  destruct (at_key ele rest h p j Ew Hwk) as [Hk Hin]. pose proof (walked_place _ _ _ _ _ _ Hwk) as Hp.
  set (it0 := set_place [] h (fst <$> p) it). destruct (at_node rest h j && iskey h) eqn:Ea.
  - apply andb_true_iff in Ea as [Ea Ek]. specialize (Hk Ea). rewrite Ea, Ek, !andb_true_r. destruct (counts_at _ _ _ Hp) as [C1 C2]. rewrite Hk in C1, C2.
    assert (length (upto p h 0) = S (length (before p))) as El.
    { unfold upto. rewrite take_0, app_nil_r. unfold own, own_of. rewrite iskey_val in Ek. destruct (val h); [|done]. rewrite length_app. cbn. lia. }
    assert (sought r (Some (length (before p))) (Some (get_data (set_place ele h (stack it0) it0)))) as Hg.
    { apply (get_data_ok p h); [|done..]. by rewrite Hk. }
    assert (length (before p) < length e)%nat as Hlt.
    { rewrite (place_elements _ _ _ Hp), !length_app, elements_eq, prefix_app, length_app. unfold upto in El. rewrite take_0, app_nil_r, length_app in El. lia. }
    destruct op as [eq|eq| | |]; cbn [has_eq seek_index]; try done.
    + destruct eq; cbn [andb]; [|by apply (seek_near_ok true _ _ h p)]. rewrite C1. unfold index_from. by rewrite decide_True by done.
    + destruct eq; cbn [andb]; [|by apply (seek_near_ok false _ _ h p)]. by rewrite C2, El.
    + rewrite decide_True by by apply Hin. by rewrite C1.
  - rewrite <- andb_assoc, Ea, andb_false_r. assert (~ ele ∈ e.*1) as Hn by (intros H; apply Hin in H; by rewrite H in Ea).
    assert (count_lt ele e = count_le ele e) as Ec.
    { apply filter_length_ext. intros [k d] Hx. cbn [fst]. destruct (lex_trichotomy k ele) as [?|[->|?]].
      - split; [by intros _; apply lex_asym|done].
      - exfalso. by apply Hn, (list_elem_of_fmap_2 fst _ _ Hx).
      - split; [by intros ?%lex_asym|done]. }
    destruct op as [eq|eq| | |]; cbn [seek_index]; try done.
    + rewrite Ec. pose proof (seek_near_ok true ele rest h p j it0 Hwk He Hj eq_refl eq_refl) as Hs. by destruct eq.
    + rewrite <- Ec. pose proof (seek_near_ok false ele rest h p j it0 Hwk He Hj eq_refl eq_refl) as Hs. by destruct eq.
    + rewrite decide_False by done. by eexists.
Qed.

Lemma raxSeek_ok op ele it : sought r (seek_index op ele e) (raxSeek r op ele it).
Proof.
  unfold raxSeek. pose proof (rw_numele _ Hr) as Hn. set (it0 := mk_it false true [] _ _ _). destruct (Z.eqb_spec (numele r) 0) as [E0|E0].
  - assert (e = []) as Ee by (apply nil_length_inv; lia). exists (set_flags true true it0). split; [done|split; [done|]].
    rewrite Ee. by destruct op as [[]|[]| | |].
  - assert (e <> []) as Ene by (intros E; rewrite E in Hn; cbn in Hn; lia).
    assert (place (head r) [] (head r)) as Hp by (constructor; [done|constructor|apply Hr|done|done]). destruct op as [eq|eq| | |].
    + by apply (seek_key_ok (op_gt eq)).
    + by apply (seek_key_ok (op_lt eq)).
    + by apply (seek_key_ok op_eq).
    + cbn [seek_index]. replace 0%nat with (count_lt [] e); [by apply (seek_key_ok (op_gt true))|].
      unfold count_lt. apply filter_length_none. intros [[|? ?] ?] _; cbn; tauto.
    + cbn [seek_index]. assert (ended (head r)) as Heh.
      { intros Ec Ev. apply Ene. rewrite elements_eq. unfold own, edges. by rewrite Ev, Ec; destruct (labels (head r)). }
      destruct (seek_greatest_ok (head r) (S (height (head r))) [] (head r) Hp Heh) as ([[k n] st] & E & Hf); [lia|].
      change (fst <$> []) with (@nil raxNode) in E. cbn [pkey] in E. rewrite E. cbn [mbind option_bind]. rewrite (found_last_key _ _ _ _ _ Hf). cbn [cassert mbind option_bind].
      cbn [before pkey] in Hf. rewrite prefix_nil, app_nil_l in Hf. eexists. split; [done|split; [done|]].
      by apply (found_last_positioned r _ (Some (k, n, st)) it0).
Qed.

(** A step: what is at the place that was sought, or the element after it, or before it. *)
Lemma positioned_eof i it : positioned r i it -> negb (it_eof it) = bool_decide (is_Some i).
Proof. destruct i as [i|]; cbn; [by intros [-> _]|by intros ->]. Qed.

Lemma element_place i it : positioned r (Some i) it -> just_seeked it = false ->
  exists p, at_place r p (node it) (pkey p) it /\ length (before p) = i /\ length (upto p (node it) 0) = S i.
Proof.
  intros (He & A & d & (p & Hp & Ek & Est & <- & _) & Ev & _ & <-) Hj. exists p. split_and!; [by split_and!|done|].
  unfold upto. rewrite take_0, app_nil_r. unfold own, own_of. rewrite Ev, length_app. cbn. lia.
Qed.

(** The place after a step, where [move] is the step from an element. *)
Definition step_index (seeked : bool) (move : nat -> option nat) (i : option nat) : option nat := if seeked then i else n ← i; move n.

Lemma step_ok step noup_step move it i :
  (forall it, step it = (it ← noup_step it; Some (negb (it_eof it), it))) ->
  (forall it, it_eof it = true -> noup_step it = Some it) ->
  (forall it, it_eof it = false -> just_seeked it = true -> noup_step it = Some (set_flags (it_eof it) false it)) ->
  (forall it n, positioned r (Some n) it -> just_seeked it = false -> exists it', noup_step it = Some it' /\ just_seeked it' = false /\ positioned r (move n) it') ->
  positioned r i it -> let i' := step_index (just_seeked it) move i in
  exists it', step it = Some (bool_decide (is_Some i'), it') /\ positioned r i' it' /\ (is_Some i -> just_seeked it' = false).
Proof.
  intros Hs Heof Hsk Hst Hp i'. subst i'. rewrite Hs. destruct i as [n|].
  - destruct (just_seeked it) eqn:Ej; cbn [step_index].
    + pose proof Hp as [He _]. rewrite (Hsk it He Ej). cbn [mbind option_bind]. eexists. rewrite He. split; [done|split; [|done]].
      destruct Hp as (_ & Hp). by split.
    + destruct (Hst it n Hp Ej) as (it' & -> & Hj & Hp'). cbn [mbind option_bind]. exists it'. by rewrite (positioned_eof _ _ Hp').
  - cbn [positioned] in Hp. rewrite (Heof it Hp). cbn [mbind option_bind]. exists it. rewrite Hp.
    replace (step_index (just_seeked it) move None) with (@None nat) by by destruct (just_seeked it). split_and!; [done|done|]. by intros [? ?].
Qed.

Lemma raxNext_ok i it : positioned r i it -> let i' := step_index (just_seeked it) (fun n => index_from (S n) e) i in
  exists it', raxNext r it = Some (bool_decide (is_Some i'), it') /\ positioned r i' it' /\ (is_Some i -> just_seeked it' = false).
Proof.
  apply (step_ok (raxNext r) (raxIteratorNextStep r false)); [done|intros it' H; unfold raxIteratorNextStep; by rewrite H| |].
  - intros it' He Hj. unfold raxIteratorNextStep. by rewrite He, Hj.
  - intros it' n Hp Hj. destruct (element_place n it' Hp Hj) as (p & Hat & _ & El). destruct (step_next r p _ it' Hr Hat) as (it2 & E & Hj2 & Hp2).
    rewrite El in Hp2. by exists it2.
Qed.

Lemma raxPrev_ok i it : positioned r i it -> let i' := step_index (just_seeked it) index_last i in
  exists it', raxPrev r it = Some (bool_decide (is_Some i'), it') /\ positioned r i' it' /\ (is_Some i -> just_seeked it' = false).
Proof.
  apply (step_ok (raxPrev r) (raxIteratorPrevStep r false)); [done|intros it' H; unfold raxIteratorPrevStep; by rewrite H| |].
  - intros it' He Hj. unfold raxIteratorPrevStep. by rewrite He, Hj.
  - intros it' n Hp Hj. destruct (element_place n it' Hp Hj) as (p & Hat & El & _). destruct (step_prev r p _ it' Hr Hat) as (it2 & E & Hj2 & Hp2).
    rewrite El in Hp2. by exists it2.
Qed.

End Seek.

(** What a loop over an iterator reads, in at most [n] turns. *)
Fixpoint collect (step : raxIterator -> option (bool * raxIterator)) (n : nat) (it : raxIterator) : option (list (mem * Z)) :=
  match n with
  | O => Some []
  | S n => '(more, it) ← step it; if more : bool then l ← collect step n it; Some ((key it, it_data it) :: l) else Some []
  end.

Definition from_index (i : option nat) (e : list (mem * Z)) : list (mem * Z) := match i with Some i => drop i e | None => [] end.
Definition down_from (i : option nat) (e : list (mem * Z)) : list (mem * Z) := match i with Some i => reverse (take (S i) e) | None => [] end.

Section Collect.
Context (r : rax) (Hr : rax_wf r).
Notation e := (elements (head r)).

(** A loop, from a step whose elements are the ones of [l]. *)
Lemma collect_ok step move l n i it :
  (forall i it, positioned r i it -> let i' := step_index (just_seeked it) move i in
    exists it', step it = Some (bool_decide (is_Some i'), it') /\ positioned r i' it' /\ (is_Some i -> just_seeked it' = false)) ->
  l None = [] -> (forall i, (i < length e)%nat -> exists x, e !! i = Some x /\ l (Some i) = x :: l (move i)) ->
  positioned r i it -> collect step n it = Some (take n (l (step_index (just_seeked it) move i))).
Proof.
  intros Hstep Hn Hl. revert i it. induction n as [|n IH]; intros i it Hp; cbn [collect]; [by rewrite take_0|].
  destruct (Hstep i it Hp) as (it' & -> & Hp' & Hj). cbn [mbind option_bind]. set (i' := step_index (just_seeked it) move i) in *.
  destruct i' as [k|] eqn:Ei; [|by rewrite Hn]. rewrite bool_decide_eq_true_2 by by eexists. pose proof (positioned_element r k it' Hp') as Hx.
  destruct (Hl k) as (x & Ex & ->); [by eapply lookup_lt_Some|]. rewrite Hx in Ex. injection Ex as <-. rewrite (IH (Some k) it' Hp').
  rewrite Hj; [done|]. subst i'. unfold step_index in Ei. destruct i; [by eexists|]. by destruct (just_seeked it).
Qed.

Lemma collect_next n i it : positioned r i it -> just_seeked it = true -> collect (raxNext r) n it = Some (take n (from_index i e)).
Proof.
  intros Hp Hj. rewrite (collect_ok (raxNext r) (fun n => index_from (S n) e) (fun i => from_index i e) n i it); [by rewrite Hj|intros; by apply raxNext_ok|done| |done].
  intros k Hk. destruct (lookup_lt_is_Some_2 e k Hk) as [x Hx]. exists x. split; [done|]. cbn [from_index]. rewrite (drop_S _ _ _ Hx). f_equal.
  unfold index_from. destruct (decide _); [done|]. cbn. apply drop_ge. lia.
Qed.

Lemma collect_prev n i it : positioned r i it -> just_seeked it = true -> collect (raxPrev r) n it = Some (take n (down_from i e)).
Proof.
  intros Hp Hj. rewrite (collect_ok (raxPrev r) index_last (fun i => down_from i e) n i it); [by rewrite Hj|intros; by apply raxPrev_ok|done| |done].
  intros k Hk. destruct (lookup_lt_is_Some_2 e k Hk) as [x Hx]. exists x. split; [done|]. cbn [down_from]. rewrite (take_S_r _ _ _ Hx), reverse_snoc. f_equal.
  by destruct k.
Qed.

End Collect.

(** ** What a loop reads *)

Lemma filter_all {A} (P : A -> Prop) `{!forall x, Decision (P x)} (l : list A) : (forall x, x ∈ l -> P x) -> filter P l = l.
Proof.
  intros Hall. induction l as [|x l IH]; [done|]. rewrite filter_cons_True by (apply Hall; apply elem_of_cons; by left).
  f_equal. apply IH. intros y Hy. apply Hall. apply elem_of_cons. by right.
Qed.

(** A sorted list around a key. *)
Lemma sorted_around ele e : keys_sorted e -> exists A M B, e = A ++ M ++ B /\ (forall x, x ∈ A -> lex x.1 ele) /\
  (forall x, x ∈ M -> x.1 = ele) /\ (forall x, x ∈ B -> lex ele x.1).
Proof.
  unfold keys_sorted. induction e as [|x e IH]; intros Hs.
  { exists [], [], []. split_and!; [done|..]; by intros x ?%not_elem_of_nil. }
  rewrite fmap_cons in Hs. apply StronglySorted_inv in Hs as [Hs Hf]. destruct (IH Hs) as (A & M & B & E & HA & HM & HB).
  assert (forall y, y ∈ A ++ M ++ B -> lex x.1 y.1) as Hx.
  { intros y Hy. rewrite Forall_forall in Hf. apply Hf. apply list_elem_of_fmap. exists y. by rewrite E. }
  assert (forall l, (forall y, y ∈ l -> False) -> l = @nil (mem * Z)) as Hnil.
  { intros [|y l] H; [done|]. exfalso. apply (H y). apply elem_of_cons. by left. }
  destruct (lex_trichotomy x.1 ele) as [Hl|[He|Hg]].
  - exists (x :: A), M, B. rewrite E. split_and!; try done. intros y [->|Hy]%elem_of_cons; [done|by apply HA].
  - assert (A = []) as ->. { apply Hnil. intros y Hy. specialize (Hx y ltac:(apply elem_of_app; by left)). rewrite He in Hx. by apply (lex_asym _ _ Hx), HA. }
    exists [], (x :: M), B. rewrite E. split_and!; try done. intros y [->|Hy]%elem_of_cons; [done|by apply HM].
  - assert (forall y, y ∈ A ++ M -> False) as Hn.
    { intros y Hy. specialize (Hx y). rewrite app_assoc in Hx. specialize (Hx ltac:(apply elem_of_app; by left)). assert (lex ele y.1) as H by by etrans.
      apply elem_of_app in Hy as [Hy|Hy]; [by apply (lex_asym _ _ H), HA|]. rewrite (HM y Hy) in H. by apply lex_irrefl in H. }
    assert (A = []) as -> by (apply Hnil; intros y Hy; apply (Hn y), elem_of_app; by left).
    assert (M = []) as -> by (apply Hnil; intros y Hy; by apply (Hn y)).
    exists [], [], (x :: B). rewrite E. split_and!; try done. intros y [->|Hy]%elem_of_cons; [done|by apply HB].
Qed.

(** The elements that a loop is for. *)
Definition asked (op : seek_op) (ele : mem) (x : mem * Z) : Prop :=
  match op with
  | op_gt eq => lex ele x.1 \/ (eq = true /\ x.1 = ele)
  | op_lt eq => lex x.1 ele \/ (eq = true /\ x.1 = ele)
  | op_eq => x.1 = ele
  | op_first | op_last => True
  end.

#[export] Instance asked_dec op ele x : Decision (asked op ele x).
Proof. destruct op; cbn [asked]; apply _. Defined.

Lemma from_index_drop n e : from_index (index_from n e) e = drop n e.
Proof. unfold index_from. destruct (decide _); [done|]. symmetry. apply drop_ge. lia. Qed.

Lemma down_from_take n e : down_from (index_last n) e = reverse (take n e).
Proof. by destruct n. Qed.

Lemma asked_loop op ele e : keys_sorted e -> match op with
  | op_gt _ | op_first => from_index (seek_index op ele e) e = filter (asked op ele) e
  | op_lt _ | op_last => down_from (seek_index op ele e) e = reverse (filter (asked op ele) e)
  | op_eq => take 1 (from_index (seek_index op ele e) e) = filter (asked op ele) e
  end.
Proof.
  intros Hs. destruct (sorted_around ele e Hs) as (A & M & B & E & HA & HM & HB).
  destruct (counts ele A M B HA HM HB) as [C1 C2]. rewrite <- E in C1, C2.
  assert (forall x, x ∈ A -> x.1 <> ele) as HA' by (intros x Hx Ex; specialize (HA x Hx); rewrite Ex in HA; by apply lex_irrefl in HA).
  assert (forall x, x ∈ B -> x.1 <> ele) as HB' by (intros x Hx Ex; specialize (HB x Hx); rewrite Ex in HB; by apply lex_irrefl in HB).
  assert (forall P : mem * Z -> Prop, forall D : (forall x, Decision (P x)), filter P e = filter P A ++ filter P M ++ filter P B) as Ef.
  { intros P D. by rewrite E, !filter_app. }
  assert (forall (P : mem * Z -> Prop) (D : forall x, Decision (P x)) l, (forall x, x ∈ l -> ~ P x) -> filter P l = []) as Hnone.
  { intros P D l H. apply nil_length_inv. by apply filter_length_none. }
  destruct op as [eq|eq| | |]; cbn [seek_index].
  - rewrite from_index_drop, Ef, (Hnone _ _ A), (filter_all _ B); [|by left; apply HB|].
    2: { intros x Hx [H|[_ H]]; [by apply (lex_asym _ _ H), HA|by apply (HA' x)]. }
    destruct eq.
    + rewrite C1, (filter_all _ M) by (intros x Hx; right; split; [done|by apply HM]). rewrite E. by rewrite drop_app_length.
    + rewrite C2, (Hnone _ _ M); [rewrite E, app_assoc; by rewrite drop_app_length|]. intros x Hx [H|[? _]]; [|done]. rewrite (HM x Hx) in H. by apply lex_irrefl in H.
  - rewrite down_from_take, Ef, (Hnone _ _ B), (filter_all _ A); [|by left; apply HA|].
    2: { intros x Hx [H|[_ H]]; [by apply (lex_asym _ _ H), HB|by apply (HB' x)]. }
    f_equal. rewrite app_nil_r. destruct eq.
    + rewrite C2, (filter_all _ M) by (intros x Hx; right; split; [done|by apply HM]). rewrite E, app_assoc. by rewrite take_app_length.
    + rewrite C1, (Hnone _ _ M); [rewrite E, take_app_length; by rewrite app_nil_r|]. intros x Hx [H|[? _]]; [|done]. rewrite (HM x Hx) in H. by apply lex_irrefl in H.
  - rewrite Ef, (Hnone _ _ A), (Hnone _ _ B), (filter_all _ M), app_nil_r by done. cbn [app]. destruct (decide (ele ∈ e.*1)) as [Hin|Hn]; cbn [from_index].
    + rewrite C1, E, drop_app_length. pose proof (keys_sorted_NoDup e Hs) as Hd. rewrite E, !fmap_app in Hd. apply NoDup_app in Hd as (_ & _ & Hd).
      apply NoDup_app in Hd as (Hd & _ & _). destruct M as [|x [|y M]].
      * exfalso. rewrite E, app_nil_l, fmap_app, elem_of_app, !list_elem_of_fmap in Hin. destruct Hin as [(x & Ex & Hx)|(x & Ex & Hx)]; [by apply (HA' x)|by apply (HB' x)].
      * done.
      * exfalso. rewrite !fmap_cons in Hd. apply NoDup_cons in Hd as [Hd _]. apply Hd.
        rewrite (HM x) by (apply elem_of_cons; by left). rewrite <- (HM y) by (apply elem_of_cons; right; apply elem_of_cons; by left). apply elem_of_cons. by left.
    + destruct M as [|x M]; [done|]. exfalso. apply Hn. rewrite E, list_elem_of_fmap. exists x.
      split; [symmetry; apply HM, elem_of_cons; by left|]. rewrite !elem_of_app, elem_of_cons. tauto.
  - rewrite from_index_drop. by rewrite filter_all.
  - rewrite down_from_take, firstn_all. by rewrite filter_all.
Qed.

(** C23: Iterators visit the elements that were asked for, in their order.  In a well-formed
    tree a seek never fails.  After it, [n] calls of [raxNext] give [n] elements (or those
    there are) from the one that was sought on, in the order of the keys, and [n] calls of
    [raxPrev] give them from there down: for > and >= all greater keys, for < and <= all
    smaller ones downwards, for = the key if it is there, for ^ and $ all from the first
    and from the last. *)
Theorem rax_iteration r op ele it n : rax_wf r ->
  let e := elements (head r) in let i := seek_index op ele e in
  keys_sorted e /\
  (exists it', raxSeek r op ele it = Some it' /\
    collect (raxNext r) n it' = Some (take n (from_index i e)) /\ collect (raxPrev r) n it' = Some (take n (down_from i e))) /\
  match op with
  | op_gt _ | op_first => from_index i e = filter (asked op ele) e
  | op_lt _ | op_last => down_from i e = reverse (filter (asked op ele) e)
  | op_eq => take 1 (from_index i e) = filter (asked op ele) e
  end.
Proof.
  intros Hr e i. assert (keys_sorted e) as Hs by (apply elements_sorted, Hr). split; [done|]. split; [|by apply asked_loop].
  destruct (raxSeek_ok r Hr op ele it) as (it' & E & Hj & Hp). exists it'. split; [done|]. split; [by apply collect_next|by apply collect_prev].
Qed.

Lemma rax_iteration_witness :
  let r := build [([102; 111; 111], 5); ([102; 111; 111; 98; 97; 114], 6); ([102; 111; 111; 116], 7); ([97], 8)] in
  rax_wf r /\ exists it', raxSeek r (op_gt false) [102; 111; 111] (raxStart r) = Some it' /\
    collect (raxNext r) 9 it' = Some [([102; 111; 111; 98; 97; 114], 6); ([102; 111; 111; 116], 7)] /\
    collect (raxPrev r) 9 it' = Some [([102; 111; 111; 98; 97; 114], 6); ([102; 111; 111], 5); ([97], 8)].
Proof.
  intros r. assert (rax_wf r) as Hr by apply build_wf. split; [exact Hr|].
  destruct (rax_iteration r (op_gt false) [102; 111; 111] (raxStart r) 9 Hr) as (_ & (it' & E & H1 & H2) & _). exists it'. split; [exact E|].
  rewrite H1, H2. split; vm_compute; reflexivity.
Defined.

End RadixIter.
