(* ===== verification/Backlog.v ===== *)
(** The replication buffer (replication.c): the list of blocks that the replicas and the
    backlog share, with their reference counts; the replicas that read it, each at its own
    pace; the trimming of what nobody needs; and the requests for a partial or a full
    synchronization.

    One thread serves the replicas.  The allocator, what the connections accept, and when
    a replica has too much pending output are parameters; the radix tree (rax.c) that
    indexes the blocks is behind an interface.  A pointer to a node of the list is the
    [id] of its block: an access through a pointer to a freed node has no result. *)
From S2P Require Import Prelude Glob.
From stdpp Require Import options.
#[local] Set Default Proof Using "Type*".

Module Backlog.

(** ** The index *)

(** A radix tree whose keys are the eight bytes of an offset, big endian: their order is
    that of the numbers. *)
Class Rax (R : Type) := {
  raxNew : R;
  raxInsert : Z -> Z -> R -> R;
  raxRemove : Z -> R -> R;
  (** the keys with their data, as an iterator visits them *)
  raxElements : R -> list (Z * Z)
}.

Class RaxLaws (R : Type) `{Rax R} : Prop := {
  rax_new : raxElements raxNew = [];
  rax_insert k v r e : in_u 64 k -> e ∈ raxElements (raxInsert k v r) <-> e = (k, v) \/ (e.1 <> k /\ e ∈ raxElements r);
  rax_remove k r e : in_u 64 k -> e ∈ raxElements (raxRemove k r) <-> e.1 <> k /\ e ∈ raxElements r
}.

(** ** The data *)

Definition PROTO_REPLY_CHUNK_BYTES : Z := 16 * 1024.
Definition CONFIG_REPL_BACKLOG_MIN_SIZE : Z := 1024 * 16.
Definition REPL_BACKLOG_TRIM_BLOCKS_PER_CALL : nat := 64.
Definition REPL_BACKLOG_INDEX_PER_BLOCKS : Z := 64.

Definition SLAVE_STATE_WAIT_BGSAVE_START : Z := 6.
Definition SLAVE_STATE_WAIT_BGSAVE_END : Z := 7.
Definition SLAVE_STATE_ONLINE : Z := 9.
Definition SLAVE_STATE_RDB_TRANSMITTED : Z := 10.
Definition SLAVE_STATE_WAIT_RDB_CHANNEL : Z := 11.
Definition SLAVE_STATE_SEND_BULK_AND_STREAM : Z := 12.

(** The sizes of the structures on a 64-bit machine. *)
Definition sizeof_listNode : Z := 24.
Definition sizeof_replBufBlock : Z := 40.

(** [struct replBufBlock]: [buf] is the part in use. *)
Record replBufBlock := mk_block {
  refcount : Z;
  id : Z;
  repl_offset : Z;
  size : Z;
  buf : mem
}.

Definition used (o : replBufBlock) : Z := msize (buf o).

Definition incr_ref (o : replBufBlock) : replBufBlock := mk_block (refcount o + 1) (id o) (repl_offset o) (size o) (buf o).
Definition decr_ref (o : replBufBlock) : replBufBlock := mk_block (refcount o - 1) (id o) (repl_offset o) (size o) (buf o).
Definition append_buf (s : mem) (o : replBufBlock) : replBufBlock :=
  mk_block (refcount o) (id o) (repl_offset o) (size o) (buf o ++ s).

(** [struct replBacklog] *)
Record replBacklog (R : Type) := mk_backlog {
  bl_ref_repl_buf_node : option Z;
  unindexed_count : Z;
  blocks_index : R;
  histlen : Z;
  offset : Z
}.
Arguments mk_backlog {R}.
Arguments bl_ref_repl_buf_node {R}.
Arguments unindexed_count {R}.
Arguments blocks_index {R}.
Arguments histlen {R}.
Arguments offset {R}.

(** The fields of [struct client] of a replica.  The last two are not in the code: what
    was written of the stream to its connection, and the offset of the first byte it is to
    get. *)
Record replica := mk_replica {
  repl_rdbonly : bool;
  asm_migrating : bool;
  close_asap : bool;
  pre_psync : bool;
  replstate : Z;
  slave_capa : Z;
  slave_req : Z;
  psync_initial_offset : Z;
  repl_start_cmd_stream_on_ack : bool;
  ref_repl_buf_node : option Z;
  ref_block_pos : Z;
  sent : mem;
  first_offset : Z
}.

(** The fields of [struct redisServer] about the stream, and [repl_block_id]. *)
Record server (R : Type) := mk_server {
  master_repl_offset : Z;
  repl_backlog : option (replBacklog R);
  repl_backlog_size : Z;
  repl_buffer_mem : Z;
  repl_buffer_blocks : list replBufBlock;
  repl_block_id : Z;
  slaves : list replica;
  replid : mem;
  replid2 : mem;
  second_replid_offset : Z;
  slaveseldb : Z
}.
Arguments mk_server {R}.
Arguments master_repl_offset {R}.
Arguments repl_backlog {R}.
Arguments repl_backlog_size {R}.
Arguments repl_buffer_mem {R}.
Arguments repl_buffer_blocks {R}.
Arguments repl_block_id {R}.
Arguments slaves {R}.
Arguments replid {R}.
Arguments replid2 {R}.
Arguments second_replid_offset {R}.
Arguments slaveseldb {R}.

Definition set_ref (n : option Z) (pos : Z) (c : replica) : replica :=
  mk_replica (repl_rdbonly c) (asm_migrating c) (close_asap c) (pre_psync c) (replstate c) (slave_capa c) (slave_req c)
    (psync_initial_offset c) (repl_start_cmd_stream_on_ack c) n pos (sent c) (first_offset c).
Definition set_close (c : replica) : replica :=
  mk_replica (repl_rdbonly c) (asm_migrating c) true (pre_psync c) (replstate c) (slave_capa c) (slave_req c)
    (psync_initial_offset c) (repl_start_cmd_stream_on_ack c) (ref_repl_buf_node c) (ref_block_pos c) (sent c) (first_offset c).
Definition set_replstate (state : Z) (on_ack : bool) (c : replica) : replica :=
  mk_replica (repl_rdbonly c) (asm_migrating c) (close_asap c) (pre_psync c) state (slave_capa c) (slave_req c)
    (psync_initial_offset c) on_ack (ref_repl_buf_node c) (ref_block_pos c) (sent c) (first_offset c).
Definition set_initial (off : Z) (c : replica) : replica :=
  mk_replica (repl_rdbonly c) (asm_migrating c) (close_asap c) (pre_psync c) SLAVE_STATE_WAIT_BGSAVE_END (slave_capa c) (slave_req c)
    off (repl_start_cmd_stream_on_ack c) (ref_repl_buf_node c) (ref_block_pos c) (sent c) (off + 1).
Definition set_sent (s : mem) (c : replica) : replica :=
  mk_replica (repl_rdbonly c) (asm_migrating c) (close_asap c) (pre_psync c) (replstate c) (slave_capa c) (slave_req c)
    (psync_initial_offset c) (repl_start_cmd_stream_on_ack c) (ref_repl_buf_node c) (ref_block_pos c + msize s) (sent c ++ s)
    (first_offset c).
Definition set_first (off : Z) (c : replica) : replica :=
  mk_replica (repl_rdbonly c) (asm_migrating c) (close_asap c) (pre_psync c) (replstate c) (slave_capa c) (slave_req c)
    (psync_initial_offset c) (repl_start_cmd_stream_on_ack c) (ref_repl_buf_node c) (ref_block_pos c) (sent c) off.

(** ** The list of blocks *)

(** The list from a node on; the value of a node; its successor. *)
Fixpoint from_node (n : Z) (l : list replBufBlock) : option (list replBufBlock) :=
  match l with
  | [] => None
  | o :: l' => if id o =? n then Some l else from_node n l'
  end.

Definition node_value (n : Z) (l : list replBufBlock) : option replBufBlock :=
  l ← from_node n l; head l.

Definition listNextNode (n : Z) (l : list replBufBlock) : option (option Z) :=
  l ← from_node n l; Some (id <$> head (tail l)).

Fixpoint node_update (n : Z) (f : replBufBlock -> replBufBlock) (l : list replBufBlock) : option (list replBufBlock) :=
  match l with
  | [] => None
  | o :: l => if id o =? n then Some (f o :: l) else l ← node_update n f l; Some (o :: l)
  end.

Section backlog.
Context {R : Type} `{Rax R}.
(** The usable size of an allocation. *)
Context (zmalloc_usable : Z -> Z).

Local Notation server := (server R).
Local Notation replBacklog := (replBacklog R).

Definition set_stream (off : Z) (bl : option replBacklog) (mem_ : Z) (blocks : list replBufBlock) (st : server) : server :=
  mk_server off bl (repl_backlog_size st) mem_ blocks (repl_block_id st) (slaves st) (replid st) (replid2 st)
    (second_replid_offset st) (slaveseldb st).
Definition set_backlog (bl : option replBacklog) (st : server) : server :=
  set_stream (master_repl_offset st) bl (repl_buffer_mem st) (repl_buffer_blocks st) st.
Definition set_blocks (blocks : list replBufBlock) (st : server) : server :=
  set_stream (master_repl_offset st) (repl_backlog st) (repl_buffer_mem st) blocks st.
Definition set_slaves (l : list replica) (st : server) : server :=
  mk_server (master_repl_offset st) (repl_backlog st) (repl_backlog_size st) (repl_buffer_mem st) (repl_buffer_blocks st)
    (repl_block_id st) l (replid st) (replid2 st) (second_replid_offset st) (slaveseldb st).
Definition set_block_id (n : Z) (st : server) : server :=
  mk_server (master_repl_offset st) (repl_backlog st) (repl_backlog_size st) (repl_buffer_mem st) (repl_buffer_blocks st)
    n (slaves st) (replid st) (replid2 st) (second_replid_offset st) (slaveseldb st).
Definition set_backlog_size (n : Z) (st : server) : server :=
  mk_server (master_repl_offset st) (repl_backlog st) n (repl_buffer_mem st) (repl_buffer_blocks st)
    (repl_block_id st) (slaves st) (replid st) (replid2 st) (second_replid_offset st) (slaveseldb st).
Definition set_ids (id1 id2 : mem) (off : Z) (st : server) : server :=
  mk_server (master_repl_offset st) (repl_backlog st) (repl_backlog_size st) (repl_buffer_mem st) (repl_buffer_blocks st)
    (repl_block_id st) (slaves st) id1 id2 off (slaveseldb st).
Definition set_seldb (n : Z) (st : server) : server :=
  mk_server (master_repl_offset st) (repl_backlog st) (repl_backlog_size st) (repl_buffer_mem st) (repl_buffer_blocks st)
    (repl_block_id st) (slaves st) (replid st) (replid2 st) (second_replid_offset st) n.

Definition set_slave (i : nat) (c : replica) (st : server) : server := set_slaves (<[i:=c]> (slaves st)) st.

(** ** The backlog *)

Definition createReplicationBacklog (st : server) : option server :=
  match repl_backlog st with
  | Some _ => None
  | None => Some (set_backlog (Some (mk_backlog None 0 raxNew 0 (i64 (master_repl_offset st + 1)))) st)
  end.

Definition resetReplicationBuffer (st : server) : server :=
  set_stream (master_repl_offset st) (repl_backlog st) 0 [] st.

Definition freeReplicationBacklog (st : server) : option server :=
  _ ← cassert (Nat.eqb (length (slaves st)) 0);
  match repl_backlog st with
  | None => Some st
  | Some bl =>
    _ ← (match bl_ref_repl_buf_node bl with
         | Some n => o ← node_value n (repl_buffer_blocks st); cassert (refcount o =? 1)
         | None => Some tt
         end);
    Some (set_backlog None (resetReplicationBuffer st))
  end.

(** A node of the list is recorded from time to time. *)
Definition createReplicationBacklogIndex (o : replBufBlock) (bl : replBacklog) : replBacklog :=
  if unindexed_count bl + 1 >=? REPL_BACKLOG_INDEX_PER_BLOCKS
  then mk_backlog (bl_ref_repl_buf_node bl) 0 (raxInsert (u64 (repl_offset o)) (id o) (blocks_index bl)) (histlen bl) (offset bl)
  else mk_backlog (bl_ref_repl_buf_node bl) (unindexed_count bl + 1) (blocks_index bl) (histlen bl) (offset bl).

Fixpoint trim_loop (max_blocks : nat) (backlog_size : Z) (bl : replBacklog) (mem_ : Z) (blocks : list replBufBlock) :
    option (replBacklog * Z * list replBufBlock) :=
  match max_blocks with
  | O => Some (bl, mem_, blocks)
  | S max_blocks =>
    if histlen bl >? backlog_size then
      match blocks with
      | fo :: next :: blocks' =>
        _ ← cassert (bool_decide (bl_ref_repl_buf_node bl = Some (id fo)));
        if negb (refcount fo =? 1) then Some (bl, mem_, blocks)
        else if i64 (histlen bl - size fo) <=? backlog_size then Some (bl, mem_, blocks)
        else
          _ ← cassert ((refcount fo - 1 =? 0) && (used fo =? size fo));
          trim_loop max_blocks backlog_size
            (mk_backlog (Some (id next)) (unindexed_count bl) (raxRemove (u64 (repl_offset fo)) (blocks_index bl))
               (i64 (histlen bl - size fo)) (offset bl))
            (mem_ - (size fo + sizeof_listNode + sizeof_replBufBlock)) (incr_ref next :: blocks')
      | _ => Some (bl, mem_, blocks)
      end
    else Some (bl, mem_, blocks)
  end.

Definition incrementalTrimReplicationBacklog (max_blocks : nat) (st : server) : option server :=
  bl ← repl_backlog st;
  '(bl, mem_, blocks) ← trim_loop max_blocks (repl_backlog_size st) bl (repl_buffer_mem st) (repl_buffer_blocks st);
  Some (set_stream (master_repl_offset st)
    (Some (mk_backlog (bl_ref_repl_buf_node bl) (unindexed_count bl) (blocks_index bl) (histlen bl)
             (i64 (master_repl_offset st - histlen bl + 1)))) mem_ blocks st).

Definition resizeReplicationBacklog (n : Z) (st : server) : option server :=
  let st := set_backlog_size n st in
  let st := if repl_backlog_size st <? CONFIG_REPL_BACKLOG_MIN_SIZE
            then set_backlog_size CONFIG_REPL_BACKLOG_MIN_SIZE st else st in
  match repl_backlog st with
  | Some _ => incrementalTrimReplicationBacklog REPL_BACKLOG_TRIM_BLOCKS_PER_CALL st
  | None => Some st
  end.

(** ** The replicas *)

Definition canFeedReplicaReplBuffer (c : replica) : bool :=
  if repl_rdbonly c || asm_migrating c then false
  else if (replstate c =? SLAVE_STATE_WAIT_BGSAVE_START) || (replstate c =? SLAVE_STATE_WAIT_RDB_CHANNEL) then false
  else negb (close_asap c).

Definition freeReplicaReferencedReplBuffer (i : nat) (st : server) : option server :=
  c ← slaves st !! i;
  st ← (match ref_repl_buf_node c with
        | Some n =>
          o ← node_value n (repl_buffer_blocks st);
          _ ← cassert (refcount o >? 0);
          blocks ← node_update n decr_ref (repl_buffer_blocks st);
          incrementalTrimReplicationBacklog REPL_BACKLOG_TRIM_BLOCKS_PER_CALL (set_blocks blocks st)
        | None => Some st
        end);
  Some (set_slave i (set_ref None 0 c) st).

(** A replica is flagged and its references are dropped; it leaves the list later. *)
Definition freeClientAsync (i : nat) (st : server) : option server :=
  c ← slaves st !! i;
  if close_asap c then Some st
  else freeReplicaReferencedReplBuffer i (set_slave i (set_close c) st).

(** The part of [freeClient] about replicas. *)
Definition freeClient (i : nat) (st : server) : option server :=
  st ← freeReplicaReferencedReplBuffer i st;
  Some (set_slaves (delete i (slaves st)) st).

(** The memory of the blocks that a replica has not read. *)
Definition getClientOutputBufferMemoryUsage (c : replica) (st : server) : option Z :=
  match ref_repl_buf_node c with
  | None => Some 0
  | Some n =>
    last ← last (repl_buffer_blocks st);
    cur ← node_value n (repl_buffer_blocks st);
    Some (repl_offset last + size last - repl_offset cur +
          (sizeof_listNode + sizeof_replBufBlock) * (id last - id cur + 1))
  end.

Definition closeClientOnOutputBufferLimitReached (limits : replica -> Z -> bool) (i : nat) (st : server) : option server :=
  c ← slaves st !! i;
  if close_asap c then Some st
  else
    used_mem ← getClientOutputBufferMemoryUsage c st;
    if limits c used_mem then freeClientAsync i st else Some st.

(** ** Feeding the stream *)

(** A replica that has read everything, or that gets its first bytes, starts at [start]. *)
Fixpoint feed_slaves (limits : replica -> Z -> bool) (start : Z * Z) (add_new_block : bool) (todo : list nat) (st : server) :
    option server :=
  match todo with
  | [] => Some st
  | i :: todo =>
    c ← slaves st !! i;
    if negb (canFeedReplicaReplBuffer c) then feed_slaves limits start add_new_block todo st
    else
      st ← (match ref_repl_buf_node c with
            | Some _ => Some st
            | None =>
              blocks ← node_update start.1 incr_ref (repl_buffer_blocks st);
              Some (set_slave i (set_ref (Some start.1) start.2 c) (set_blocks blocks st))
            end);
      st ← (if add_new_block then closeClientOnOutputBufferLimitReached limits i st else Some st);
      feed_slaves limits start add_new_block todo st
  end.

(** [len] bytes are in the buffer. *)
Definition add_history (len : Z) (mem_ : Z) (blocks : list replBufBlock) (bl : replBacklog) (st : server) : server :=
  set_stream (i64 (master_repl_offset st + len))
    (Some (mk_backlog (bl_ref_repl_buf_node bl) (unindexed_count bl) (blocks_index bl) (i64 (histlen bl + len)) (offset bl)))
    mem_ blocks st.

(** What fits in the last block: the bytes that are left, and the place they start at. *)
Definition append_tail (s : mem) (bl : replBacklog) (st : server) : mem * option (Z * Z) * server :=
  match last (repl_buffer_blocks st) with
  | Some tail =>
    if size tail >? used tail then
      let avail := size tail - used tail in
      let copy := if avail >=? msize s then msize s else avail in
      let blocks := take (length (repl_buffer_blocks st) - 1) (repl_buffer_blocks st) ++
                      [append_buf (take (Z.to_nat copy) s) tail] in
      (drop (Z.to_nat copy) s, Some (id tail, used tail), add_history copy (repl_buffer_mem st) blocks bl st)
    else (s, None, st)
  | None => (s, None, st)
  end.

(** The size of a block for [len] bytes. *)
Definition block_size (len : Z) (st : server) : Z :=
  let limit := Z.max (repl_backlog_size st / 16) PROTO_REPLY_CHUNK_BYTES in
  let size := Z.min (Z.max len PROTO_REPLY_CHUNK_BYTES) limit in
  zmalloc_usable (size + sizeof_replBufBlock) - sizeof_replBufBlock.

(** A block for what is left, or for its beginning. *)
Definition append_block (s : mem) (bl : replBacklog) (st : server) : mem * Z * server :=
  let sz := block_size (msize s) st in
  let copy := if sz >=? msize s then msize s else sz in
  let tail := mk_block 0 (repl_block_id st) (i64 (master_repl_offset st + 1)) sz (take (Z.to_nat copy) s) in
  (drop (Z.to_nat copy) s, id tail,
    set_block_id (repl_block_id st + 1)
      (add_history copy (repl_buffer_mem st + (sz + sizeof_replBufBlock + sizeof_listNode))
         (repl_buffer_blocks st ++ [tail]) bl st)).

(** The backlog's own reference, at its first bytes. *)
Definition refer_backlog (start : Z * Z) (add_new_block : bool) (st : server) : option server :=
  bl ← repl_backlog st;
  match bl_ref_repl_buf_node bl with
  | Some _ => Some st
  | None =>
    blocks ← node_update start.1 incr_ref (repl_buffer_blocks st);
    _ ← cassert (add_new_block && (start.2 =? 0));
    Some (set_backlog (Some (mk_backlog (Some start.1) (unindexed_count bl) (blocks_index bl) (histlen bl) (offset bl)))
            (set_blocks blocks st))
  end.

(** The bytes of one turn of the loop: those that are left, the place where the others
    start, and whether there is a new block. *)
Definition append_bytes (s : mem) (st : server) : option (mem * (Z * Z) * bool * server) :=
  bl ← repl_backlog st;
  let '(s, start, st) := append_tail s bl st in
  bl ← repl_backlog st;
  Some (match s with
        | [] => (s, default (0, 0) start, false, st)
        | _ => let '(s, n, st) := append_block s bl st in (s, default (n, 0) start, true, st)
        end).

Definition feed_step (limits : replica -> Z -> bool) (s : mem) (st : server) : option (mem * server) :=
  '(s, start, add_new_block, st) ← append_bytes s st;
  st ← feed_slaves limits start add_new_block (seq 0 (length (slaves st))) st;
  st ← refer_backlog start add_new_block st;
  st ← (if add_new_block : bool then
          bl ← repl_backlog st;
          tail ← last (repl_buffer_blocks st);
          incrementalTrimReplicationBacklog REPL_BACKLOG_TRIM_BLOCKS_PER_CALL
            (set_backlog (Some (createReplicationBacklogIndex tail bl)) st)
        else Some st);
  Some (s, st).

(** Every turn takes a byte at least. *)
Fixpoint feed_loop (fuel : nat) (limits : replica -> Z -> bool) (s : mem) (st : server) : option server :=
  match s with
  | [] => Some st
  | _ =>
    match fuel with
    | O => None
    | S fuel => '(s, st) ← feed_step limits s st; feed_loop fuel limits s st
    end
  end.

Definition feedReplicationBuffer (limits : replica -> Z -> bool) (s : mem) (st : server) : option server :=
  match repl_backlog st with
  | None => Some st
  | Some _ => feed_loop (length s) limits s st
  end.

(** The stream of the master, which a replica passes on. *)
Definition replicationFeedStreamFromMasterStream (limits : replica -> Z -> bool) (masterhost aof_enabled : bool) (s : mem)
    (st : server) : option server :=
  _ ← cassert (Nat.eqb (length (slaves st)) 0 || bool_decide (is_Some (repl_backlog st)));
  match repl_backlog st with
  | Some _ => feedReplicationBuffer limits s st
  | None =>
    if negb masterhost && aof_enabled
    then Some (set_stream (i64 (master_repl_offset st + 1)) None (repl_buffer_mem st) (repl_buffer_blocks st) st)
    else Some st
  end.

(** ** Sending it *)

Definition _clientHasPendingRepliesSlave (c : replica) (st : server) : option bool :=
  match ref_repl_buf_node c with
  | None => Some false
  | Some n =>
    tail ← last (repl_buffer_blocks st);
    Some (negb ((id tail =? n) && (ref_block_pos c =? used tail)))
  end.

(** When [connWrite], if it is called, returns [n]. *)
Definition _writeToClientSlave (n : Z) (i : nat) (st : server) : option (bool * server) :=
  c ← slaves st !! i;
  nd ← ref_repl_buf_node c;
  o ← node_value nd (repl_buffer_blocks st);
  _ ← cassert (used o >=? ref_block_pos c);
  if (used o >? ref_block_pos c) && (n <=? 0) then Some (false, st)
  else
    c ← (if used o >? ref_block_pos c
         then bs ← memread (buf o) (ref_block_pos c) (Z.min n (used o - ref_block_pos c)); Some (set_sent bs c)
         else Some c);
    let st := set_slave i c st in
    next ← listNextNode nd (repl_buffer_blocks st);
    match next with
    | Some next =>
      if ref_block_pos c =? used o then
        blocks ← node_update nd decr_ref (repl_buffer_blocks st);
        blocks ← node_update next incr_ref blocks;
        st ← incrementalTrimReplicationBacklog REPL_BACKLOG_TRIM_BLOCKS_PER_CALL
               (set_slave i (set_ref (Some next) 0 c) (set_blocks blocks st));
        Some (true, st)
      else Some (true, st)
    | None => Some (true, st)
    end.

(** [ns] is what [connWrite] returns turn after turn; then it would return 0. *)
Fixpoint writeToClient (ns : list Z) (i : nat) (st : server) : option server :=
  c ← slaves st !! i;
  pending ← _clientHasPendingRepliesSlave c st;
  if negb pending then Some st
  else
    '(ok, st) ← _writeToClientSlave (default 0 (head ns)) i st;
    match ns with
    | n :: ns => if ok : bool then writeToClient ns i st else Some st
    | [] => Some st
    end.

(** ** Synchronization *)

Definition strcasecmp_eq (a b : mem) : bool := bool_decide (Glob.tolower <$> a = Glob.tolower <$> b).

(** The node from which to look for an offset. *)
Definition search_from (off : Z) (bl : replBacklog) : option Z :=
  let l := raxElements (blocks_index bl) in
  if Nat.eqb (length l) 0 then bl_ref_repl_buf_node bl
  else match list_find (fun e => u64 off < e.1) l with
       | None => snd <$> last l
       | Some (O, _) => bl_ref_repl_buf_node bl
       | Some (S i, _) => snd <$> l !! i
       end.

Definition find_offset (off : Z) (l : list replBufBlock) : option replBufBlock :=
  snd <$> list_find (fun o => repl_offset o + used o >= off) l.

(** The length of what the replica is to get. *)
Definition addReplyReplicationBacklog (i : nat) (off : Z) (st : server) : option (Z * server) :=
  bl ← repl_backlog st;
  if histlen bl =? 0 then Some (0, st)
  else
    let skip := i64 (off - offset bl) in
    node ← search_from off bl;
    l ← from_node node (repl_buffer_blocks st);
    o ← find_offset off l;
    c ← slaves st !! i;
    blocks ← node_update (id o) incr_ref (repl_buffer_blocks st);
    Some (i64 (histlen bl - skip), set_slave i (set_ref (Some (id o)) (off - repl_offset o) c) (set_blocks blocks st)).

Definition getPsyncInitialOffset (st : server) : Z := master_repl_offset st.

(** The request of the replica [c], whether the reply could be written, and whether it is
    accepted. *)
Definition masterTryPartialResynchronization (master_replid : mem) (psync_offset : Z) (reply : bool) (c : replica) (st : server) :
    option (bool * server) :=
  if negb (strcasecmp_eq master_replid (replid st)) &&
     (negb (strcasecmp_eq master_replid (replid2 st)) || (psync_offset >? second_replid_offset st))
  then Some (false, st)
  else
    match repl_backlog st with
    | None => Some (false, st)
    | Some bl =>
      if (psync_offset <? offset bl) || (psync_offset >? i64 (offset bl + histlen bl)) then Some (false, st)
      else
        let c := set_first psync_offset (set_replstate SLAVE_STATE_ONLINE false c) in
        let i := length (slaves st) in
        let st := set_slaves (slaves st ++ [c]) st in
        if negb reply then st ← freeClientAsync i st; Some (true, st)
        else '(_, st) ← addReplyReplicationBacklog i psync_offset st; Some (true, st)
    end.

(** A replica is told the offset at which its snapshot was taken; the stream is to select
    its database again. *)
Definition replicationSetupSlaveForFullResync (i : nat) (off : Z) (reply : bool) (st : server) : option server :=
  c ← slaves st !! i;
  let st := set_seldb (-1) (set_slave i (set_initial off c) st) in
  if negb (pre_psync c) && negb reply then freeClientAsync i st else Some st.

Definition changeReplicationId (id : mem) (st : server) : server := set_ids id (replid2 st) (second_replid_offset st) st.
Definition clearReplicationId2 (st : server) : server := set_ids (replid st) (replicate 40 48) (-1) st.
Definition shiftReplicationId (id : mem) (st : server) : server :=
  set_ids id (replid st) (i64 (master_repl_offset st + 1)) st.

(** [id] is the random identifier. *)
Definition createReplicationBacklogIfNeeded (id : mem) (st : server) : option server :=
  match repl_backlog st with
  | None => if Nat.eqb (length (slaves st)) 1
            then createReplicationBacklog (clearReplicationId2 (changeReplicationId id st)) else Some st
  | Some _ => Some st
  end.

Definition copyReplicaOutputBuffer (dst src : nat) (st : server) : option server :=
  s ← slaves st !! src;
  d ← slaves st !! dst;
  match ref_repl_buf_node s with
  | None => Some st
  | Some n =>
    blocks ← node_update n incr_ref (repl_buffer_blocks st);
    Some (set_slave dst (set_ref (Some n) (ref_block_pos s) d) (set_blocks blocks st))
  end.

(** A replica for which the snapshot is being taken, and that [c] can be attached to. *)
Definition has_snapshot (c : replica) (s : replica) : Prop :=
  replstate s = SLAVE_STATE_WAIT_BGSAVE_END /\ (repl_rdbonly s = false \/ repl_rdbonly c = true).

Definition compatible (c s : replica) : bool :=
  (Z.land (slave_capa c) (slave_capa s) =? slave_capa s) && (slave_req c =? slave_req s).

(** A request that is not answered with a partial synchronization.  [bgsave]: a snapshot
    is being written to the disk; when it is not, it is started later. *)
Definition fullSync (newid : mem) (bgsave reply : bool) (c : replica) (st : server) : option server :=
  let c := set_replstate SLAVE_STATE_WAIT_BGSAVE_START (repl_start_cmd_stream_on_ack c) c in
  let i := length (slaves st) in
  st ← createReplicationBacklogIfNeeded newid (set_slaves (slaves st ++ [c]) st);
  if bgsave : bool then
    match list_find (has_snapshot c) (slaves st) with
    | Some (j, s) =>
      if compatible c s then
        st ← (if repl_rdbonly c then Some st else copyReplicaOutputBuffer i j st);
        replicationSetupSlaveForFullResync i (psync_initial_offset s) reply st
      else Some st
    | None => Some st
    end
  else Some st.

Definition syncCommand (psync : option (mem * Z)) (newid : mem) (bgsave reply : bool) (c : replica) (st : server) : option server :=
  match psync with
  | Some (master_replid, psync_offset) =>
    '(ok, st) ← masterTryPartialResynchronization master_replid psync_offset reply c st;
    if ok : bool then Some st else fullSync newid bgsave reply c st
  | None => fullSync newid bgsave reply c st
  end.

(** The replicas that wait for a snapshot get the one that is started now. *)
Fixpoint setup_waiting (req : Z) (replies : nat -> bool) (todo : list nat) (st : server) : option server :=
  match todo with
  | [] => Some st
  | i :: todo =>
    c ← slaves st !! i;
    if (replstate c =? SLAVE_STATE_WAIT_BGSAVE_START) && (slave_req c =? req)
    then st ← replicationSetupSlaveForFullResync i (getPsyncInitialOffset st) (replies i) st; setup_waiting req replies todo st
    else setup_waiting req replies todo st
  end.

Definition startBgsaveForReplication (req : Z) (started : bool) (replies : nat -> bool) (st : server) : option server :=
  if started then setup_waiting req replies (seq 0 (length (slaves st))) st
  else Some (set_slaves (List.filter (fun c => negb (replstate c =? SLAVE_STATE_WAIT_BGSAVE_START)) (slaves st)) st).

(** The snapshot was sent. *)
Definition replicaPutOnline (i : nat) (st : server) : option server :=
  c ← slaves st !! i;
  if repl_rdbonly c then Some (set_slave i (set_replstate SLAVE_STATE_RDB_TRANSMITTED (repl_start_cmd_stream_on_ack c) c) st)
  else if asm_migrating c then Some st
  else Some (set_slave i (set_replstate SLAVE_STATE_ONLINE (repl_start_cmd_stream_on_ack c) c) st).

Definition replicaStartCommandStream (i : nat) (st : server) : option server :=
  c ← slaves st !! i;
  _ ← cassert (negb (repl_rdbonly c));
  Some (set_slave i (set_replstate (replstate c) false c) st).

(** [putClientInPendingWriteQueue]: whether output is written to a replica at this stage. *)
Definition receives (c : replica) : bool :=
  (replstate c =? SLAVE_STATE_SEND_BULK_AND_STREAM) ||
  ((replstate c =? SLAVE_STATE_ONLINE) && negb (repl_start_cmd_stream_on_ack c)).

End backlog.
End Backlog.
