(* ===== verification/BacklogSafety.v ===== *)
(** The replication buffer is safe: whatever the order in which bytes are fed and sent,
    replicas come and go and blocks are trimmed, no node is used after it was freed and the
    counts of references are right; so what a replica was sent and what it is still to be
    sent are the stream. *)
From S2P Require Import Prelude Backlog.
From stdpp Require Import options.
#[local] Set Default Proof Using "Type*".

Module BacklogSafety.
Import Backlog.

(** ** The list of blocks *)

Definition text (l : list replBufBlock) : mem := concat (buf <$> l).

(** What the counts of references are not. *)
Definition geometry (o : replBufBlock) : Z * Z * Z * mem := (id o, repl_offset o, size o, buf o).

(** Blocks with the numbers from [n] on, and the stream from the offset [off] on: all but
    the last are full. *)
Fixpoint chain (n off : Z) (l : list replBufBlock) : Prop :=
  match l with
  | [] => True
  | o :: l => id o = n /\ repl_offset o = off /\ 0 < used o <= size o /\ (l <> [] -> used o = size o) /\
      chain (n + 1) (off + used o) l
  end.

Lemma text_cons o l : text (o :: l) = buf o ++ text l.
Proof. done. Qed.

Lemma size_text_nil : msize (text []) = 0.
Proof. done. Qed.

Lemma text_app l l' : text (l ++ l') = text l ++ text l'.
Proof. unfold text. by rewrite fmap_app, concat_app. Qed.

Lemma size_text_cons o l : msize (text (o :: l)) = used o + msize (text l).
Proof. by rewrite text_cons, msize_app. Qed.

Lemma chain_geometry n off l l' : geometry <$> l' = geometry <$> l -> chain n off l -> chain n off l'.
Proof.
  revert n off l'. induction l as [|o l IH]; intros n off [|o' l'] E; try done.
  rewrite !fmap_cons in E. apply (inj2 cons) in E as [Eo El]. injection Eo as E1 E2 E3 E4. intros (? & ? & Hu & Hf & Hc). cbn [chain]. unfold used in *. rewrite E1, E2, E3, E4. split_and!; try done; try lia.
  - intros Hne. apply Hf. intros ->. by destruct l'.
  - by apply IH.
Qed.

Lemma text_geometry l l' : geometry <$> l' = geometry <$> l -> text l' = text l.
Proof.
  intros E. unfold text. f_equal. assert (forall l, buf <$> l = snd <$> (geometry <$> l)) as Hb by (intros k; rewrite <- list_fmap_compose; done).
  by rewrite !Hb, E.
Qed.

Lemma chain_app n off l l' : chain n off (l ++ l') -> chain n off l /\ chain (n + Z.of_nat (length l)) (off + msize (text l)) l'.
Proof.
  revert n off. induction l as [|o l IH]; intros n off; cbn [app chain length].
  - intros Hc. split; [done|]. by rewrite size_text_nil, !Z.add_0_r.
  - intros (? & ? & ? & Hf & Hc). apply IH in Hc as [Hc Hc']. split.
    + split_and!; try done; try lia. intros Hne. apply Hf. by destruct l.
    + rewrite size_text_cons. replace (n + Z.of_nat (S (length l))) with (n + 1 + Z.of_nat (length l)) by lia. by rewrite Z.add_assoc.
Qed.

(** A block is added after full ones. *)
Lemma chain_snoc n off l o :
  chain n off l -> (forall o', last l = Some o' -> used o' = size o') ->
  id o = n + Z.of_nat (length l) -> repl_offset o = off + msize (text l) -> 0 < used o <= size o -> chain n off (l ++ [o]).
Proof.
  revert n off. induction l as [|o1 l IH]; intros n off Hc Hl Hi Ho Hu; cbn [app chain] in *.
  - cbn [length] in Hi. rewrite size_text_nil in Ho. split_and!; try done; lia.
  - destruct Hc as (? & ? & ? & Hf & Hc). rewrite size_text_cons in Ho. cbn [length] in Hi. split_and!; try done; try lia.
    + intros _. destruct l as [|o2 l]; [by apply Hl|by apply Hf].
    + apply IH; try done; try lia. intros o' Hl'. apply Hl. by destruct l.
Qed.

(** The last block of a chain is filled. *)
Lemma chain_last n off l o o' :
  chain n off (l ++ [o]) -> id o' = id o -> repl_offset o' = repl_offset o -> size o' = size o -> used o <= used o' <= size o ->
  chain n off (l ++ [o']).
Proof.
  intros Hc Hi Ho Hs Hu. revert n off Hc. induction l as [|o1 l IH]; intros n off; cbn [app chain].
  - intros (<- & <- & Hu' & _). split_and!; try done; try lia.
  - intros (? & ? & ? & Hf & Hc). split_and!; try done; try lia; [|by apply IH]. intros _. apply Hf. by destruct l.
Qed.

Lemma chain_lookup n off l i o : chain n off l -> l !! i = Some o ->
  id o = n + Z.of_nat i /\ repl_offset o = off + msize (text (take i l)) /\ 0 < used o <= size o.
Proof.
  intros Hc Hi. rewrite <- (take_drop_middle l i o Hi) in Hc. apply chain_app in Hc as [_ (E1 & E2 & ? & _)].
  apply lookup_lt_Some in Hi. rewrite length_take_le in E1 by lia. done.
Qed.

(** The access through the number of a block. *)
Lemma from_node_spec n off l m : chain n off l -> n <= m < n + Z.of_nat (length l) ->
  from_node m l = Some (drop (Z.to_nat (m - n)) l).
Proof.
  revert n off. induction l as [|o l IH]; intros n off Hc Hm; cbn [length] in Hm; [lia|]. destruct Hc as (Hi & _ & _ & _ & Hc).
  cbn [from_node]. rewrite Hi. destruct (Z.eqb_spec n m) as [->|Hne].
  - by rewrite Z.sub_diag.
  - rewrite (IH (n + 1) _ Hc) by lia. replace (Z.to_nat (m - n)) with (S (Z.to_nat (m - (n + 1)))) by lia. done.
Qed.

Lemma node_value_spec n off l m : chain n off l -> n <= m < n + Z.of_nat (length l) ->
  exists o, l !! Z.to_nat (m - n) = Some o /\ node_value m l = Some o /\ id o = m.
Proof.
  intros Hc Hm. destruct (lookup_lt_is_Some_2 l (Z.to_nat (m - n))) as [o Ho]; [lia|]. exists o. split; [done|].
  unfold node_value. rewrite (from_node_spec n off) by done. cbn [mbind option_bind]. split.
  - rewrite head_lookup, lookup_drop. by rewrite Nat.add_0_r.
  - apply (chain_lookup n off) in Ho; [|done]. lia.
Qed.

Lemma listNextNode_spec n off l m : chain n off l -> n <= m < n + Z.of_nat (length l) ->
  listNextNode m l = Some (if m + 1 <? n + Z.of_nat (length l) then Some (m + 1) else None).
Proof.
  intros Hc Hm. unfold listNextNode. rewrite (from_node_spec n off) by done. cbn [mbind option_bind]. f_equal.
  assert (head (tail (drop (Z.to_nat (m - n)) l)) = l !! Z.to_nat (m + 1 - n)) as ->.
  { replace (Z.to_nat (m + 1 - n)) with (Z.to_nat (m - n) + 1)%nat by lia. rewrite <- lookup_drop.
    by destruct (drop (Z.to_nat (m - n)) l) as [|? []]. }
  destruct (Z.ltb_spec (m + 1) (n + Z.of_nat (length l))) as [Hl|Hl].
  - destruct (lookup_lt_is_Some_2 l (Z.to_nat (m + 1 - n))) as [o Ho]; [lia|]. rewrite Ho. cbn. f_equal.
    apply (chain_lookup n off) in Ho; [lia|done].
  - by rewrite lookup_ge_None_2 by lia.
Qed.

Lemma node_update_spec n off l m f : chain n off l -> n <= m < n + Z.of_nat (length l) ->
  node_update m f l = Some (alter f (Z.to_nat (m - n)) l).
Proof.
  revert n off. induction l as [|o l IH]; intros n off Hc Hm; cbn [length] in Hm; [lia|]. destruct Hc as (Hi & _ & _ & _ & Hc).
  cbn [node_update]. rewrite Hi. destruct (Z.eqb_spec n m) as [->|Hne].
  - by rewrite Z.sub_diag.
  - rewrite (IH (n + 1) _ Hc) by lia. replace (Z.to_nat (m - n)) with (S (Z.to_nat (m - (n + 1)))) by lia. done.
Qed.

Lemma geometry_alter f (i : nat) (l : list replBufBlock) : (forall o, geometry (f o) = geometry o) -> geometry <$> alter f i l = geometry <$> l.
Proof.
  intros Hf. revert i. induction l as [|o l IH]; intros [|i]; [done..| |].
  - change (geometry (f o) :: (geometry <$> l) = geometry o :: (geometry <$> l)). by rewrite Hf.
  - change (geometry o :: (geometry <$> alter f i l) = geometry o :: (geometry <$> l)). by rewrite IH.
Qed.

(** ** Counts of references *)

Definition hits (r : option Z) (m : Z) : Z := if bool_decide (r = Some m) then 1 else 0.

(** The references of the backlog and of the replicas to the node [m]. *)
Definition nref (r : option Z) (sl : list replica) (m : Z) : Z :=
  hits r m + foldr (fun c k => hits (ref_repl_buf_node c) m + k) 0 sl.

Definition counted (cnt : Z -> Z) (l : list replBufBlock) : Prop :=
  forall i o, l !! i = Some o -> refcount o = cnt (id o).

Lemma hits_nonneg r m : 0 <= hits r m.
Proof. unfold hits. case_bool_decide; lia. Qed.

Lemma hits_same m : hits (Some m) m = 1.
Proof. unfold hits. by rewrite bool_decide_eq_true_2. Qed.

Lemma hits_other r m : r <> Some m -> hits r m = 0.
Proof. intros Hr. unfold hits. by rewrite bool_decide_eq_false_2. Qed.

Lemma hits_Some n m : hits (Some n) m = if m =? n then 1 else 0.
Proof. destruct (Z.eqb_spec m n) as [->|Hn]; [apply hits_same|apply hits_other; congruence]. Qed.

Lemma nref_backlog r r' sl m : nref r' sl m = nref r sl m - hits r m + hits r' m.
Proof. unfold nref. lia. Qed.

Lemma nref_insert r sl i c c' m : sl !! i = Some c ->
  nref r (<[i:=c']> sl) m = nref r sl m - hits (ref_repl_buf_node c) m + hits (ref_repl_buf_node c') m.
Proof.
  unfold nref. revert i. induction sl as [|c0 sl IH]; intros [|i] E; [done..| |]; simpl in *.
  - injection E as ->. lia.
  - specialize (IH _ E). lia.
Qed.

Lemma nref_delete r sl i c m : sl !! i = Some c -> nref r (delete i sl) m = nref r sl m - hits (ref_repl_buf_node c) m.
Proof.
  unfold nref. revert i. induction sl as [|c0 sl IH]; intros [|i] E; [done..| |]; simpl in *.
  - injection E as ->. lia.
  - specialize (IH _ E). lia.
Qed.

Lemma nref_snoc r sl c m : nref r (sl ++ [c]) m = nref r sl m + hits (ref_repl_buf_node c) m.
Proof. unfold nref. induction sl as [|c0 sl IH]; simpl in *; lia. Qed.

Lemma nref_slave r sl i c m : sl !! i = Some c -> ref_repl_buf_node c = Some m -> hits r m + 1 <= nref r sl m.
Proof.
  intros Hi Hc. unfold nref. revert i Hi. induction sl as [|c0 sl IH]; intros [|i] E; [done..| |]; simpl in *.
  - injection E as ->. rewrite Hc, hits_same. clear. induction sl as [|c0 sl IH]; cbn; [lia|]. pose proof (hits_nonneg (ref_repl_buf_node c0) m). lia.
  - specialize (IH _ E). pose proof (hits_nonneg (ref_repl_buf_node c0) m). lia.
Qed.

Lemma nref_nobody r sl m : r <> Some m -> (forall i c, sl !! i = Some c -> ref_repl_buf_node c <> Some m) -> nref r sl m = 0.
Proof.
  intros Hr Hs. unfold nref. rewrite (hits_other r m Hr). induction sl as [|c sl IH]; [done|]. cbn.
  rewrite (hits_other _ m (Hs 0%nat c eq_refl)), IH; [done|]. intros i c' Hi. by apply (Hs (S i)).
Qed.

Lemma counted_ext cnt cnt' l : (forall m, cnt' m = cnt m) -> counted cnt l -> counted cnt' l.
Proof. intros E Hc i o Ho. by rewrite E, (Hc _ _ Ho). Qed.

Lemma counted_alter cnt cnt' n off l m f d :
  chain n off l -> n <= m < n + Z.of_nat (length l) -> counted cnt l ->
  (forall o, refcount (f o) = refcount o + d /\ id (f o) = id o) -> (forall k, cnt' k = cnt k + if k =? m then d else 0) ->
  counted cnt' (alter f (Z.to_nat (m - n)) l).
Proof.
  intros Hc Hm Hn Hf Hd i o Ho. destruct (decide (i = Z.to_nat (m - n))) as [->|Hi].
  - rewrite list_lookup_alter_eq in Ho. destruct (l !! _) as [o'|] eqn:E; [|done]. injection Ho as <-.
    destruct (Hf o') as [-> ->]. rewrite (Hn _ _ E), Hd. pose proof (chain_lookup _ _ _ _ _ Hc E) as [Hid _].
    destruct (Z.eqb_spec (id o') m); [done|lia].
  - rewrite list_lookup_alter_ne in Ho by done. rewrite (Hn _ _ Ho), Hd. pose proof (chain_lookup _ _ _ _ _ Hc Ho) as [Hid _].
    destruct (Z.eqb_spec (id o) m); [lia|lia].
Qed.

Lemma hits_min r m : 0 <= hits r m <= 1.
Proof. unfold hits. case_bool_decide; lia. Qed.

(** ** The buffer *)

Definition mem_of (l : list replBufBlock) : Z := foldr (fun o n => size o + sizeof_replBufBlock + sizeof_listNode + n) 0 l.

Section buffer.
Context {R : Type} `{HR : Rax R} `{!RaxLaws R}.

(** The blocks hold the end of the stream [hist], whose first byte is after the offset
    [base]; [next] is the number of the block to come.  The backlog refers to the first
    block, once there has been one. *)
Record buffer (base : Z) (hist : mem) (next : Z) (sl : list replica) (bl : replBacklog R) (mem_ : Z) (l : list replBufBlock) : Prop := {
  bf_bound : 0 <= base /\ base + msize hist + 1 < 2 ^ 63;
  bf_chain : chain (next - Z.of_nat (length l)) (base + msize hist - msize (text l) + 1) l;
  bf_text : exists old, hist = old ++ text l;
  bf_hist : histlen bl = msize (text l);
  bf_ref : bl_ref_repl_buf_node bl = id <$> head l \/ (bl_ref_repl_buf_node bl = None /\ (length l <= 1)%nat);
  bf_refs : counted (nref (bl_ref_repl_buf_node bl) sl) l;
  bf_held : forall i c m, sl !! i = Some c -> ref_repl_buf_node c = Some m -> next - Z.of_nat (length l) <= m < next;
  bf_mem : mem_ = mem_of l;
  bf_index : forall k v, (k, v) ∈ raxElements (blocks_index bl) -> exists o, o ∈ l /\ k = repl_offset o /\ v = id o
}.

Lemma buffer_size base hist next sl bl mem_ l : buffer base hist next sl bl mem_ l -> 0 <= msize (text l) <= msize hist.
Proof.
  intros B. destruct (bf_text _ _ _ _ _ _ _ B) as [old E]. apply (f_equal msize) in E. rewrite msize_app in E.
  pose proof (msize_nonneg old). pose proof (msize_nonneg (text l)). lia.
Qed.

Lemma i64_buffer base hist next sl bl mem_ l n : buffer base hist next sl bl mem_ l -> 0 <= n <= base + msize hist + 1 -> i64 n = n.
Proof. intros B Hn. pose proof (bf_bound _ _ _ _ _ _ _ B). apply wraps_small; [done|]. unfold in_s. lia. Qed.

(** The offsets of the blocks, as the keys of the index. *)
Lemma buffer_offset base hist next sl bl mem_ l i o : buffer base hist next sl bl mem_ l -> l !! i = Some o ->
  base + 1 <= repl_offset o /\ repl_offset o + used o <= base + msize hist + 1 /\ u64 (repl_offset o) = repl_offset o /\
  id o = next - Z.of_nat (length l) + Z.of_nat i.
Proof.
  intros B Hi. pose proof (buffer_size _ _ _ _ _ _ _ B). pose proof (bf_bound _ _ _ _ _ _ _ B).
  destruct (chain_lookup _ _ _ _ _ (bf_chain _ _ _ _ _ _ _ B) Hi) as (Hid & Ho & Hu).
  pose proof (f_equal (fun l => msize (text l)) (take_drop_middle l i o Hi)) as E. cbn beta in E.
  rewrite text_app, msize_app, size_text_cons in E. pose proof (msize_nonneg (text (take i l))).
  pose proof (msize_nonneg (text (drop (S i) l))). split_and!; try lia. apply wrapu_small; unfold in_u; lia.
Qed.

(** The first block is given up: nobody but the backlog refers to it. *)
Lemma buffer_pop base hist next sl bl mem_ fo o l :
  buffer base hist next sl bl mem_ (fo :: o :: l) -> bl_ref_repl_buf_node bl = Some (id fo) -> refcount fo = 1 ->
  used fo = size fo /\
  buffer base hist next sl
    (mk_backlog (Some (id o)) (unindexed_count bl) (raxRemove (u64 (repl_offset fo)) (blocks_index bl))
       (i64 (histlen bl - size fo)) (offset bl))
    (mem_ - (size fo + sizeof_listNode + sizeof_replBufBlock)) (incr_ref o :: l).
Proof.
  intros B Hr H1. pose proof B as [Hb Hc [old Et] Hh _ Hrf Hhe Hm Hix].
  pose proof (buffer_size _ _ _ _ _ _ _ B) as Hsz. rewrite size_text_cons in Hsz.
  destruct (chain_app _ _ [fo] (o :: l) Hc) as [_ Hc']. pose proof Hc as (Hid & Hof & Hu & Hf & _).
  assert (used fo = size fo) as Hfull by by apply Hf. split; [done|].
  rewrite (size_text_cons fo []), size_text_nil, Z.add_0_r in Hc'. pose proof (size_text_cons fo (o :: l)) as Hfo.
  change (length (fo :: o :: l)) with (S (S (length l))) in *. change (length [fo]) with 1%nat in Hc'.
  assert (forall m, m <> id fo -> nref (Some (id o)) sl m = nref (bl_ref_repl_buf_node bl) sl m + if m =? id o then 1 else 0) as Hcnt.
  { intros m Hne. rewrite (nref_backlog (Some (id fo)) (Some (id o))), Hr, !hits_Some. destruct (Z.eqb_spec m (id fo)); [done|lia]. }
  pose proof (proj1 Hc') as Hid'.
  constructor; cbn [histlen bl_ref_repl_buf_node blocks_index]; try done.
  - apply (chain_geometry _ _ (o :: l)); [done|]. change (text (incr_ref o :: l)) with (text (o :: l)).
    replace (next - _) with (next - Z.of_nat (S (S (length l))) + Z.of_nat 1) by (cbn [length]; lia).
    replace (base + msize hist - msize (text (o :: l)) + 1) with (base + msize hist - msize (text (fo :: o :: l)) + 1 + used fo) by lia.
    exact Hc'.
  - exists (old ++ buf fo). by rewrite Et, text_cons, <- app_assoc.
  - rewrite Hh, <- Hfull. rewrite (i64_buffer _ _ _ _ _ _ _ _ B); [|pose proof (msize_nonneg (text (o :: l))); lia].
    change (text (incr_ref o :: l)) with (text (o :: l)). lia.
  - by left.
  - intros [|i] o' Ho'.
    + injection Ho' as <-. cbn. rewrite Hcnt, Z.eqb_refl by lia. by rewrite (Hrf 1%nat o eq_refl).
    + destruct (chain_lookup _ _ _ (S (S i)) _ Hc Ho') as [Hid2 _]. rewrite Hcnt by lia. rewrite (proj2 (Z.eqb_neq _ _)), Z.add_0_r by lia.
      by apply (Hrf (S (S i))).
  - intros i c m Hi Hcm. specialize (Hhe i c m Hi Hcm). assert (m <> id fo); [|cbn [length]; lia]. intros ->.
    pose proof (nref_slave (Some (id fo)) sl i c _ Hi Hcm) as Hn. rewrite hits_same in Hn.
    pose proof (Hrf 0%nat fo eq_refl) as H0. rewrite Hr, H1 in H0. lia.
  - rewrite Hm. cbn [mem_of foldr size incr_ref]. lia.
  - intros k v [Hne Hin]%rax_remove; [|by apply in_u_wrapu]. destruct (Hix _ _ Hin) as (o' & Ho' & -> & ->).
    destruct (buffer_offset _ _ _ _ _ _ _ 0%nat fo B eq_refl) as (_ & _ & Hk & _). rewrite Hk in Hne.
    apply elem_of_cons in Ho' as [->|Ho']; [done|]. apply elem_of_cons in Ho' as [->|Ho'].
    + exists (incr_ref o). split; [apply elem_of_cons; by left|done].
    + exists o'. split; [apply elem_of_cons; by right|done].
Qed.

(** What trimming leaves: the blocks from some node on, and more than [size] bytes when it
    took anything. *)
Definition trimmed_list (size : Z) (l l' : list replBufBlock) : Prop :=
  exists j, geometry <$> l' = drop j (geometry <$> l) /\ (j = 0%nat \/ size < msize (text l')).

Lemma trim_loop_ok base hist next sl k size bl mem_ l :
  buffer base hist next sl bl mem_ l ->
  ensures (trim_loop k size bl mem_ l) (fun '(bl', mem_', l') => buffer base hist next sl bl' mem_' l' /\ trimmed_list size l l' /\
    (l <> [] -> l' <> []) /\ (bl_ref_repl_buf_node bl <> None -> bl_ref_repl_buf_node bl' <> None)).
Proof.
  revert bl mem_ l. induction k as [|k IH]; intros bl mem_ l B; cbn [trim_loop];
    assert (buffer base hist next sl bl mem_ l /\ trimmed_list size l l /\ (l <> [] -> l <> []) /\
      (bl_ref_repl_buf_node bl <> None -> bl_ref_repl_buf_node bl <> None)) as Hsame
      by (split; [done|split; [|done]]; exists 0%nat; by split; [|left]); [done|].
  destruct (Z.gtb_spec (histlen bl) size) as [Hgt|]; [|done]. destruct l as [|fo [|o l]]; [done..|].
  assert (bl_ref_repl_buf_node bl = Some (id fo)) as Hr
    by (destruct (bf_ref _ _ _ _ _ _ _ B) as [->|[_ Hl]]; [done|cbn in Hl; lia]).
  rewrite (bool_decide_eq_true_2 _ Hr). cbn [cassert mbind option_bind].
  destruct (Z.eqb_spec (refcount fo) 1) as [H1|]; cbn [negb]; [|done].
  destruct (buffer_pop _ _ _ _ _ _ _ _ _ B Hr H1) as [Hfull B'].
  destruct (Z.leb_spec (i64 (histlen bl - Backlog.size fo)) size) as [|Hlt]; [done|].
  rewrite H1, (proj2 (Z.eqb_eq _ _) Hfull). change ((1 - 1 =? 0) && true) with true. cbn [cassert mbind option_bind].
  eapply ensures_mono; [by apply IH|]. intros [[bl' mem_'] l'] (B2 & (j & Ej & Hj) & Hne & Hrf). split; [done|].
  split; [|split; intros _; [by apply Hne|by apply Hrf]].
  exists (S j). split; [exact Ej|]. right. destruct Hj as [->|Hj]; [|done].
  rewrite (text_geometry (incr_ref o :: l)) by exact Ej. pose proof (bf_hist _ _ _ _ _ _ _ B') as Hh. cbn [histlen] in Hh. lia.
Qed.

(** ** The server *)

Record core (base : Z) (hist : mem) (st : server R) : Prop := {
  co_buffer : exists bl, repl_backlog st = Some bl /\ offset bl = base + msize hist - msize (text (repl_buffer_blocks st)) + 1 /\
    buffer base hist (repl_block_id st) (slaves st) bl (repl_buffer_mem st) (repl_buffer_blocks st);
  co_master : master_repl_offset st = base + msize hist
}.

(** The backlog has its reference. *)
Definition has_ref (st : server R) : Prop := forall bl, repl_backlog st = Some bl -> bl_ref_repl_buf_node bl <> None.

(** What trimming does not change. *)
Record trimmed (st st' : server R) : Prop := {
  tr_slaves : slaves st' = slaves st;
  tr_blocks : trimmed_list (repl_backlog_size st) (repl_buffer_blocks st) (repl_buffer_blocks st');
  tr_some : repl_buffer_blocks st <> [] -> repl_buffer_blocks st' <> [];
  tr_ref : has_ref st -> has_ref st';
  tr_size : repl_backlog_size st' = repl_backlog_size st;
  tr_next : repl_block_id st' = repl_block_id st;
  tr_ids : replid st' = replid st /\ replid2 st' = replid2 st /\ second_replid_offset st' = second_replid_offset st
}.

Lemma trim_ok base hist k st : core base hist st ->
  ensures (incrementalTrimReplicationBacklog k st) (fun st' => core base hist st' /\ trimmed st st').
Proof.
  intros [(bl & Eb & Ho & B) Hm]. unfold incrementalTrimReplicationBacklog. rewrite Eb. cbn [mbind option_bind].
  eapply ensures_bind; [by apply (trim_loop_ok base hist (repl_block_id st) (slaves st))|].
  intros [[bl' mem_'] l'] (B' & Ht & Hne & Hrf). cbn [ensures]. split.
  2: { constructor; try done. intros Href bl2 [= <-]. by apply Hrf, Href. }
  constructor; [|done].
  eexists. split; [done|]. cbn [offset repl_buffer_blocks set_stream]. split; [|by destruct B'].
  rewrite Hm, (bf_hist _ _ _ _ _ _ _ B'). pose proof (buffer_size _ _ _ _ _ _ _ B').
  rewrite (i64_buffer _ _ _ _ _ _ _ _ B'); [done|]. pose proof (bf_bound _ _ _ _ _ _ _ B'). lia.
Qed.

Lemma trimmed_none st st' : trimmed st st' -> repl_buffer_blocks st' <> [] -> repl_buffer_blocks st <> [].
Proof.
  intros T Hne E. destruct (tr_blocks _ _ T) as (j & Ej & _). rewrite E, fmap_nil, drop_nil in Ej. by apply fmap_nil_inv in Ej.
Qed.

Lemma trimmed_refl st st' : slaves st' = slaves st -> repl_backlog st' = repl_backlog st -> geometry <$> repl_buffer_blocks st' = geometry <$> repl_buffer_blocks st ->
  repl_backlog_size st' = repl_backlog_size st -> repl_block_id st' = repl_block_id st ->
  replid st' = replid st /\ replid2 st' = replid2 st /\ second_replid_offset st' = second_replid_offset st -> trimmed st st'.
Proof.
  intros E1 Eb E2 E3 E4 E5. constructor; try done.
  - exists 0%nat. split; [done|by left].
  - intros Hne E. rewrite E in E2. by destruct (repl_buffer_blocks st).
  - intros Hr bl. rewrite Eb. apply Hr.
Qed.

Lemma trimmed_geometry size l1 l l' : geometry <$> l1 = geometry <$> l -> trimmed_list size l1 l' -> trimmed_list size l l'.
Proof. intros E (j & Ej & Hj). exists j. by rewrite <- E. Qed.

(** Only counts and references change. *)
Lemma buffer_refs base hist next sl bl mem_ l sl' l' :
  buffer base hist next sl bl mem_ l -> geometry <$> l' = geometry <$> l -> counted (nref (bl_ref_repl_buf_node bl) sl') l' ->
  (forall i c m, sl' !! i = Some c -> ref_repl_buf_node c = Some m -> next - Z.of_nat (length l) <= m < next) ->
  buffer base hist next sl' bl mem_ l'.
Proof.
  intros [Hb Hc Ht Hh Hr Hrf Hhe Hm Hix] Eg Hcnt Hheld. pose proof (text_geometry _ _ Eg) as Et.
  assert (length l' = length l) as El by (apply (f_equal length) in Eg; by rewrite !length_fmap in Eg).
  assert (forall o, o ∈ l -> exists o', o' ∈ l' /\ repl_offset o' = repl_offset o /\ id o' = id o) as Hin.
  { intros o Ho. assert (geometry o ∈ geometry <$> l') as (o' & Eo & Ho')%list_elem_of_fmap by (rewrite Eg; by apply list_elem_of_fmap_2).
    exists o'. unfold geometry in Eo. split; [done|]. by injection Eo. }
  constructor; rewrite ?Et, ?El; try done.
  - by apply (chain_geometry _ _ l).
  - destruct Hr as [->|[? ?]]; [left|by right]. destruct l as [|o l], l' as [|o' l']; try done.
    rewrite !fmap_cons in Eg. apply (inj2 cons) in Eg as [Eg _]. injection Eg as Eid _ _ _. cbn. by rewrite Eid.
  - rewrite Hm. clear -Eg. revert l' Eg. induction l as [|o l IH]; intros [|o' l'] E; try done.
    rewrite !fmap_cons in E. apply (inj2 cons) in E as [Eo El]. cbn [mem_of foldr]. injection Eo as _ _ -> _. specialize (IH _ El).
    unfold mem_of in IH. by rewrite IH.
  - intros k v (o & Ho & -> & ->)%Hix. destruct (Hin _ Ho) as (o' & ? & ? & ?). by exists o'.
Qed.

(** The trimming does not look at the replicas. *)
Lemma trim_set_slaves k sl (st : server R) :
  incrementalTrimReplicationBacklog k (set_slaves sl st) = (set_slaves sl) <$> incrementalTrimReplicationBacklog k st.
Proof.
  unfold incrementalTrimReplicationBacklog. cbn [repl_backlog set_slaves repl_backlog_size repl_buffer_mem repl_buffer_blocks].
  destruct (repl_backlog st) as [bl|]; [|done]. cbn [mbind option_bind].
  by destruct (trim_loop _ _ _ _ _) as [[[bl' mem_'] l']|].
Qed.

(** References to a node that is held. *)
Lemma held_node base hist next sl bl mem_ l i c m :
  buffer base hist next sl bl mem_ l -> sl !! i = Some c -> ref_repl_buf_node c = Some m ->
  exists o, node_value m l = Some o /\ id o = m /\ l !! Z.to_nat (m - (next - Z.of_nat (length l))) = Some o /\ 1 <= refcount o.
Proof.
  intros B Hi Hc. pose proof (bf_held _ _ _ _ _ _ _ B i c m Hi Hc) as Hm.
  destruct (node_value_spec _ _ l m (bf_chain _ _ _ _ _ _ _ B)) as (o & Ho & Hv & Hid); [lia|].
  exists o. split_and!; try done. rewrite (bf_refs _ _ _ _ _ _ _ B _ _ Ho), Hid.
  pose proof (nref_slave (bl_ref_repl_buf_node bl) sl i c m Hi Hc). pose proof (hits_min (bl_ref_repl_buf_node bl) m). lia.
Qed.

(** A replica gives up its reference. *)
Lemma free_ref_ok base hist i c st : core base hist st -> slaves st !! i = Some c ->
  ensures (freeReplicaReferencedReplBuffer i st) (fun st' => core base hist st' /\ trimmed (set_slave i (set_ref None 0 c) st) st').
Proof.
  intros Hco Hi. pose proof Hco as [(bl & Eb & Ho & B) Hm]. unfold freeReplicaReferencedReplBuffer. generalize REPL_BACKLOG_TRIM_BLOCKS_PER_CALL as k64. intros k64.
  rewrite Hi. cbn [mbind option_bind]. set (sl' := <[i:=set_ref None 0 c]> (slaves st)).
  assert (forall j c' m, sl' !! j = Some c' -> ref_repl_buf_node c' = Some m ->
    repl_block_id st - Z.of_nat (length (repl_buffer_blocks st)) <= m < repl_block_id st) as Hheld.
  { intros j c' m Hj Hr. apply list_lookup_insert_Some in Hj as [(<- & <- & _)|[_ Hj]]; [done|]. by eapply (bf_held _ _ _ _ _ _ _ B). }
  destruct (ref_repl_buf_node c) as [n|] eqn:Er.
  - destruct (held_node _ _ _ _ _ _ _ _ _ _ B Hi Er) as (o & Hv & Hid & Hlk & Hrc). rewrite Hv. cbn [mbind option_bind].
    rewrite Z.gtb_ltb, (proj2 (Z.ltb_lt _ _)) by lia. cbn [cassert mbind option_bind].
    pose proof (bf_held _ _ _ _ _ _ _ B i c n Hi Er) as Hn.
    rewrite (node_update_spec _ _ _ n decr_ref (bf_chain _ _ _ _ _ _ _ B)) by lia. cbn [mbind option_bind].
    set (l' := alter decr_ref _ _).
    assert (geometry <$> l' = geometry <$> repl_buffer_blocks st) as Eg by by apply geometry_alter.
    assert (core base hist (set_slaves sl' (set_blocks l' st))) as Hco'.
    { constructor; [|done]. exists bl. split; [done|]. cbn [repl_buffer_blocks set_slaves set_blocks set_stream]. split.
      - by rewrite (text_geometry _ _ Eg).
      - eapply buffer_refs; [done|done| |done]. eapply counted_alter; [apply (bf_chain _ _ _ _ _ _ _ B)|lia|apply (bf_refs _ _ _ _ _ _ _ B)|by intros []|].
        intros k. cbn [slaves set_slaves]. subst sl'. rewrite (nref_insert _ _ _ _ _ _ Hi), Er, hits_Some, (hits_other (ref_repl_buf_node (set_ref None 0 c))) by done.
        destruct (k =? n); lia. }
    pose proof (trim_ok base hist k64 _ Hco') as Ht. rewrite trim_set_slaves in Ht.
    destruct (incrementalTrimReplicationBacklog _ (set_blocks l' st)) as [st1|] eqn:E1; [|done].
    cbn [fmap option_fmap option_map ensures] in Ht. destruct Ht as [Hc1 Ht].
    assert (slaves st1 = slaves st) as Es.
    { unfold incrementalTrimReplicationBacklog in E1. destruct (repl_backlog _); [|done]. cbn [mbind option_bind] in E1.
      destruct (trim_loop _ _ _ _ _) as [[[? ?] ?]|]; [|done]. by injection E1 as <-. }
    cbn [ensures mbind option_bind]. unfold set_slave. rewrite Es. split; [done|].
    destruct Ht as [T1 T2 T3 T4 T5 T6 T7]. constructor; try done; [|].
    + by eapply trimmed_geometry.
    + intros Hne. apply T3. cbn. intros E0. apply Hne. cbn. rewrite E0 in Eg. by destruct (repl_buffer_blocks st).
  - cbn [ensures]. split; [|by apply trimmed_refl]. constructor; [|done]. exists bl. split_and!; try done.
    eapply buffer_refs; [done|done| |done]. eapply counted_ext; [|apply (bf_refs _ _ _ _ _ _ _ B)].
    intros m. cbn [slaves set_slave set_slaves]. rewrite (nref_insert _ _ _ _ _ _ Hi), Er. cbn [ref_repl_buf_node set_ref]. lia.
Qed.

(** ** The replicas *)

(** A replica that reads has got the stream from its first offset to the place it is at;
    one that is to read gets it from the offset [due]. *)
Record placed (base : Z) (hist : mem) (due : Z) (g : list (Z * Z * Z * mem)) (c : replica) : Prop := {
  pl_ref : match ref_repl_buf_node c with
    | Some m => base + 1 <= first_offset c /\ sent c `prefix_of` drop (Z.to_nat (first_offset c - base - 1)) hist /\
        exists off sz b, (m, off, sz, b) ∈ g /\ 0 <= ref_block_pos c <= msize b /\ off + ref_block_pos c = first_offset c + msize (sent c)
    | None => canFeedReplicaReplBuffer c = true -> sent c = [] /\ first_offset c = due
    end;
  pl_waiting : replstate c = SLAVE_STATE_WAIT_BGSAVE_START -> ref_repl_buf_node c = None /\ sent c = [];
  pl_snapshot : replstate c = SLAVE_STATE_WAIT_BGSAVE_END -> canFeedReplicaReplBuffer c = true ->
    sent c = [] /\ first_offset c = psync_initial_offset c + 1
}.

Definition all_placed (base : Z) (hist : mem) (due : Z) (st : server R) : Prop :=
  forall i c, slaves st !! i = Some c -> placed base hist due (geometry <$> repl_buffer_blocks st) c.

(** A place to start reading from. *)
Definition located (base : Z) (hist : mem) (due : Z) (start : Z * Z) (st : server R) : Prop :=
  exists off sz b, (start.1, off, sz, b) ∈ geometry <$> repl_buffer_blocks st /\ 0 <= start.2 <= msize b /\ off + start.2 = due /\
    base + msize hist + 1 - (off + msize b) <= repl_backlog_size st.

Lemma elem_geometry (l : list replBufBlock) e : e ∈ geometry <$> l <-> exists i o, l !! i = Some o /\ e = geometry o.
Proof.
  rewrite list_elem_of_fmap. split.
  - intros (o & -> & [i Hi]%list_elem_of_lookup). by exists i, o.
  - intros (i & o & Hi & ->). exists o. split; [done|]. by eapply list_elem_of_lookup_2.
Qed.

Lemma elem_drop (l : list replBufBlock) j i o : l !! i = Some o -> (j <= i)%nat -> geometry o ∈ drop j (geometry <$> l).
Proof.
  intros Hi Hj. apply list_elem_of_lookup. exists (i - j)%nat. rewrite lookup_drop, list_lookup_fmap.
  replace (j + (i - j))%nat with i by lia. by rewrite Hi.
Qed.

Lemma trimmed_length st st' : trimmed st st' -> exists j,
  geometry <$> repl_buffer_blocks st' = drop j (geometry <$> repl_buffer_blocks st) /\
  length (repl_buffer_blocks st') = (length (repl_buffer_blocks st) - j)%nat /\
  (j = 0%nat \/ repl_backlog_size st < msize (text (repl_buffer_blocks st'))).
Proof.
  intros T. destruct (tr_blocks _ _ T) as (j & Ej & Hj). exists j. split_and!; try done.
  apply (f_equal length) in Ej. by rewrite length_drop, !length_fmap in Ej.
Qed.

(** The layout of the blocks. *)
Definition laid (base : Z) (hist : mem) (st : server R) : Prop :=
  chain (repl_block_id st - Z.of_nat (length (repl_buffer_blocks st)))
    (base + msize hist - msize (text (repl_buffer_blocks st)) + 1) (repl_buffer_blocks st).

Lemma core_laid base hist st : core base hist st -> laid base hist st.
Proof. intros [(bl & _ & _ & B) _]. by apply B. Qed.

Lemma placed_trimmed_at base hist due st st' i c : laid base hist st -> core base hist st' -> trimmed st st' -> slaves st !! i = Some c ->
  placed base hist due (geometry <$> repl_buffer_blocks st) c -> placed base hist due (geometry <$> repl_buffer_blocks st') c.
Proof.
  intros Hl [(bl' & _ & _ & B') _] T Hi [P1 P2 P3].
  constructor; [|done|done]. destruct (ref_repl_buf_node c) as [m|] eqn:Er; [|done].
  destruct P1 as (? & ? & off & sz & b & Hin & ?). split; [done|split; [done|]]. exists off, sz, b. split; [|done].
  destruct (trimmed_length _ _ T) as (j & Eg & El & _). rewrite Eg. apply elem_geometry in Hin as (k & o & Hk & Eo).
  rewrite Eo. apply (elem_drop _ j k); [done|]. rewrite <- (tr_slaves _ _ T) in Hi.
  pose proof (bf_held _ _ _ _ _ _ _ B' i c m Hi Er) as Hm. rewrite (tr_next _ _ T), El in Hm.
  destruct (chain_lookup _ _ _ _ _ Hl Hk) as [Hid _]. injection Eo as Em _ _ _. lia.
Qed.

Lemma placed_trimmed base hist due st st' : laid base hist st -> core base hist st' -> trimmed st st' ->
  all_placed base hist due st -> all_placed base hist due st'.
Proof.
  intros Hl Hc T Hp i c Hi. rewrite (tr_slaves _ _ T) in Hi. by eapply placed_trimmed_at, Hp.
Qed.

Lemma size_text_drop (l : list replBufBlock) j k : (j <= k)%nat -> msize (text (drop k l)) <= msize (text (drop j l)).
Proof.
  intros Hj. replace k with (j + (k - j))%nat by lia. rewrite <- drop_drop. rewrite <- (take_drop (k - j) (drop j l)) at 2.
  rewrite text_app, msize_app. pose proof (msize_nonneg (text (take (k - j) (drop j l)))). lia.
Qed.

Lemma located_trimmed base hist due start st st' : laid base hist st -> trimmed st st' ->
  located base hist due start st -> located base hist due start st'.
Proof.
  intros Hl T (off & sz & b & Hin & Hp & Hd & Hs). exists off, sz, b. rewrite (tr_size _ _ T).
  split; [|tauto]. destruct (trimmed_length _ _ T) as (j & Eg & El & Hj). rewrite Eg.
  apply elem_geometry in Hin as (k & o & Hk & Eo). rewrite Eo. apply (elem_drop _ j k); [done|]. destruct Hj as [->|Hj]; [lia|].
  destruct (le_lt_dec j k) as [|Hlt]; [done|]. exfalso. rewrite <- fmap_drop in Eg. rewrite (text_geometry _ _ Eg) in Hj.
  pose proof (size_text_drop (repl_buffer_blocks st) (S k) j ltac:(lia)).
  destruct (chain_lookup _ _ _ _ _ Hl Hk) as (_ & Ho & _). injection Eo as _ E2 _ E4.
  pose proof (f_equal (fun l => msize (text l)) (take_drop_middle _ _ _ Hk)) as E. cbn beta in E.
  rewrite text_app, msize_app, size_text_cons in E. unfold used in *. rewrite <- E4 in *. lia.
Qed.

(** A closing replica is not fed. *)
Lemma close_not_fed c : canFeedReplicaReplBuffer (set_close c) = false.
Proof. unfold canFeedReplicaReplBuffer. cbn. by repeat case_match. Qed.

Lemma core_set_slave base hist i c c' st : core base hist st -> slaves st !! i = Some c -> ref_repl_buf_node c' = ref_repl_buf_node c ->
  core base hist (set_slave i c' st).
Proof.
  intros [(bl & Eb & Ho & B) Hm] Hi Hr. constructor; [|done]. exists bl. split_and!; try done.
  eapply buffer_refs; [done|done| |].
  - eapply counted_ext; [|apply (bf_refs _ _ _ _ _ _ _ B)]. intros m. cbn [slaves set_slave set_slaves].
    rewrite (nref_insert _ _ _ _ _ _ Hi), Hr. lia.
  - intros j c1 m Hj. apply list_lookup_insert_Some in Hj as [(<- & <- & _)|[_ Hj]].
    + rewrite Hr. by apply (bf_held _ _ _ _ _ _ _ B i).
    + by apply (bf_held _ _ _ _ _ _ _ B j).
Qed.

(** A replica is closed: the others stay where they are. *)
Record closed (i : nat) (st st' : server R) : Prop := {
  cd_length : length (slaves st') = length (slaves st);
  cd_others j : j <> i -> slaves st' !! j = slaves st !! j;
  cd_closed c : slaves st' !! i = Some c -> canFeedReplicaReplBuffer c = false;
  cd_size : repl_backlog_size st' = repl_backlog_size st;
  cd_ref : has_ref st -> has_ref st';
  cd_none : repl_buffer_blocks st' <> [] -> repl_buffer_blocks st <> []
}.

Lemma freeClientAsync_ok base hist due start i st :
  core base hist st -> all_placed base hist due st -> (i < length (slaves st))%nat ->
  ensures (freeClientAsync i st) (fun st' => core base hist st' /\ all_placed base hist due st' /\ closed i st st' /\
    (located base hist due start st -> located base hist due start st') /\ (repl_buffer_blocks st <> [] -> repl_buffer_blocks st' <> [])).
Proof.
  intros Hco Hp Hi. destruct (lookup_lt_is_Some_2 _ _ Hi) as [c Hc]. unfold freeClientAsync. rewrite Hc. cbn [mbind option_bind].
  destruct (close_asap c) eqn:Ec.
  { cbn. split_and!; try done. constructor; try done. intros c' Hc'. rewrite Hc in Hc'. injection Hc' as <-.
    unfold canFeedReplicaReplBuffer. rewrite Ec. by repeat case_match. }
  set (st1 := set_slave i (set_close c) st).
  assert (slaves st1 !! i = Some (set_close c)) as Hc1 by by apply list_lookup_insert_eq.
  assert (core base hist st1) as Hco1 by by eapply core_set_slave.
  eapply ensures_mono; [by apply (free_ref_ok base hist i (set_close c) st1)|]. intros st' [Hco' T].
  set (c2 := set_ref None 0 (set_close c)) in *. set (st2 := set_slave i c2 st1) in *.
  assert (slaves st2 = <[i:=c2]> (slaves st)) as E2 by (subst st2 st1; cbn; by rewrite list_insert_insert_eq).
  assert (canFeedReplicaReplBuffer c2 = false) as Hf by (etrans; [|apply (close_not_fed c)]; done).
  assert (all_placed base hist due st2) as Hp2.
  { intros j c' Hj. rewrite E2 in Hj. apply list_lookup_insert_Some in Hj as [(<- & <- & _)|[_ Hj]]; [|by apply (Hp j)].
    constructor; cbn [ref_repl_buf_node set_ref set_close c2]; [by rewrite Hf| |by rewrite Hf].
    intros Hw. split; [done|]. by apply (pl_waiting _ _ _ _ _ (Hp i c Hc)). }
  assert (laid base hist st2) as Hl by by apply core_laid in Hco.
  split_and!; [done|by eapply placed_trimmed| |intros Hs; by eapply located_trimmed|apply T].
  pose proof (tr_slaves _ _ T) as Es. rewrite E2 in Es. constructor.
  - by rewrite Es, length_insert.
  - intros j Hj. by rewrite Es, list_lookup_insert_ne.
  - intros c' Hc'. rewrite Es, list_lookup_insert_eq in Hc' by done. by injection Hc' as <-.
  - apply T.
  - apply T.
  - by apply (trimmed_none _ _ T).
Qed.

Lemma placed_geometry base hist due st st' : slaves st' = slaves st ->
  geometry <$> repl_buffer_blocks st' = geometry <$> repl_buffer_blocks st -> all_placed base hist due st -> all_placed base hist due st'.
Proof. intros Es Eg Hp i c Hi. rewrite Eg. apply (Hp i). by rewrite <- Es. Qed.

Lemma lookup_delete {A} (l : list A) i j x : delete i l !! j = Some x -> exists k, k <> i /\ l !! k = Some x.
Proof. rewrite list_lookup_delete. destruct (decide (j < i)%nat); [exists j|exists (S j)]; split; try done; lia. Qed.

Lemma freeClient_ok base hist due i st :
  core base hist st -> all_placed base hist due st -> (i < length (slaves st))%nat ->
  ensures (freeClient i st) (fun st' => core base hist st' /\ all_placed base hist due st' /\ (has_ref st -> has_ref st') /\
    (repl_buffer_blocks st' <> [] -> repl_buffer_blocks st <> [])).
Proof.
  intros Hco Hp Hi. destruct (lookup_lt_is_Some_2 _ _ Hi) as [c Hc]. unfold freeClient.
  eapply ensures_bind; [by apply (free_ref_ok base hist i c)|]. intros st' [Hco' T]. cbn [ensures].
  set (st2 := set_slave i (set_ref None 0 c) st) in *. pose proof (tr_slaves _ _ T) as Es.
  assert (slaves st2 !! i = Some (set_ref None 0 c)) as Hi2 by by apply list_lookup_insert_eq.
  assert (slaves st2 = <[i:=set_ref None 0 c]> (slaves st)) as E2 by done.
  split_and!; [| |apply T|by apply (trimmed_none _ _ T)].
  - destruct Hco' as [(bl & Eb & Ho & B) Hm]. constructor; [|done]. exists bl. split_and!; try done.
    eapply buffer_refs; [done|done| |].
    + eapply counted_ext; [|apply (bf_refs _ _ _ _ _ _ _ B)]. intros m. cbn [slaves set_slaves]. rewrite Es.
      rewrite (nref_delete _ _ _ _ _ Hi2). cbn [ref_repl_buf_node set_ref]. rewrite hits_other by done. lia.
    + intros j c' m Hj Hr. apply lookup_delete in Hj as (k & _ & Hj). rewrite Es in Hj. rewrite <- Es in Hj.
      by apply (bf_held _ _ _ _ _ _ _ B k c').
  - assert (laid base hist st2) as Hl by by apply core_laid in Hco.
    intros j c' Hj. apply lookup_delete in Hj as (k & Hk & Hj). rewrite Es, E2, list_lookup_insert_ne in Hj by done.
    apply (placed_trimmed_at base hist due st2 st' k c' Hl Hco' T); [by rewrite E2, list_lookup_insert_ne|by apply (Hp k)].
Qed.

(** A replica without a reference gets one. *)
Lemma take_ref_ok base hist i c n pos st e :
  core base hist st -> slaves st !! i = Some c -> ref_repl_buf_node c = None -> e ∈ geometry <$> repl_buffer_blocks st -> e.1.1.1 = n ->
  exists l', node_update n incr_ref (repl_buffer_blocks st) = Some l' /\ geometry <$> l' = geometry <$> repl_buffer_blocks st /\
    core base hist (set_slave i (set_ref (Some n) pos c) (set_blocks l' st)).
Proof.
  intros [(bl & Eb & Ho & B) Hm] Hi Hr (k & o & Hk & ->)%elem_geometry <-. cbn [fst geometry].
  destruct (buffer_offset _ _ _ _ _ _ _ k o B Hk) as (_ & _ & _ & Hid). pose proof (lookup_lt_Some _ _ _ Hk) as Hlt.
  rewrite (node_update_spec _ _ _ (id o) incr_ref (bf_chain _ _ _ _ _ _ _ B)) by lia. eexists. split; [done|].
  split; [by apply geometry_alter|]. set (l' := alter _ _ _).
  assert (geometry <$> l' = geometry <$> repl_buffer_blocks st) as Eg by by apply geometry_alter.
  constructor; [|done]. exists bl. split; [done|]. cbn [repl_buffer_blocks set_slave set_slaves set_blocks set_stream].
  split; [by rewrite (text_geometry _ _ Eg)|]. eapply buffer_refs; [done|done| |].
  - eapply (counted_alter _ _ _ _ _ _ _ 1); [apply (bf_chain _ _ _ _ _ _ _ B)|lia|apply (bf_refs _ _ _ _ _ _ _ B)|by intros []|].
    intros m. cbn [slaves set_slave set_slaves set_blocks set_stream]. rewrite (nref_insert _ _ _ _ _ _ Hi), Hr.
    rewrite (hits_other None) by done. cbn [ref_repl_buf_node set_ref]. rewrite hits_Some. lia.
  - intros j c' m Hj Hc'. cbn [slaves set_slave set_slaves set_blocks set_stream] in Hj.
    apply list_lookup_insert_Some in Hj as [(<- & <- & _)|[_ Hj]]; [|by apply (bf_held _ _ _ _ _ _ _ B j c')]. injection Hc' as <-. cbn [repl_block_id set_slave set_slaves set_blocks set_stream]. lia.
Qed.

Lemma closeClient_ok base hist due start limits i st :
  core base hist st -> all_placed base hist due st -> repl_buffer_blocks st <> [] -> (i < length (slaves st))%nat ->
  ensures (closeClientOnOutputBufferLimitReached limits i st) (fun st' => core base hist st' /\ all_placed base hist due st' /\
    (closed i st st' \/ st' = st) /\ (located base hist due start st -> located base hist due start st') /\ repl_buffer_blocks st' <> []).
Proof.
  intros Hco Hp Hne Hi. destruct (lookup_lt_is_Some_2 _ _ Hi) as [c Hc]. unfold closeClientOnOutputBufferLimitReached. rewrite Hc.
  cbn [mbind option_bind]. destruct (close_asap c); [by cbn; auto 6|].
  pose proof Hco as [(bl & _ & _ & B) _].
  assert (exists n, getClientOutputBufferMemoryUsage c st = Some n) as [n ->].
  { unfold getClientOutputBufferMemoryUsage. destruct (ref_repl_buf_node c) as [m|] eqn:Er; [|by eexists].
    destruct (held_node _ _ _ _ _ _ _ _ _ _ B Hc Er) as (o & -> & _). destruct (last (repl_buffer_blocks st)) eqn:El; [by eexists|].
    by apply last_None in El. }
  cbn [mbind option_bind]. destruct (limits c n); [|by cbn; auto 6].
  eapply ensures_mono; [by apply (freeClientAsync_ok base hist due start)|]. intros st' (? & ? & ? & ? & ?). split_and!; auto.
Qed.

(** ** Feeding *)

(** The stream has bytes for the replicas, which they are given. *)
Record feeding (base : Z) (hist : mem) (due : Z) (start : Z * Z) (st : server R) : Prop := {
  fd_core : core base hist st;
  fd_placed : all_placed base hist due st;
  fd_located : located base hist due start st;
  fd_due : base + 1 <= due
}.

Lemma feeding_blocks base hist due start st : feeding base hist due start st -> repl_buffer_blocks st <> [].
Proof. intros [_ _ (off & sz & b & Hin & _) _] E. rewrite E in Hin. by apply not_elem_of_nil in Hin. Qed.

(** A replica that reads nothing yet starts at the place. *)
Lemma start_reading_ok base hist due start i c st :
  feeding base hist due start st -> slaves st !! i = Some c -> ref_repl_buf_node c = None -> canFeedReplicaReplBuffer c = true ->
  exists l', node_update start.1 incr_ref (repl_buffer_blocks st) = Some l' /\
    feeding base hist due start (set_slave i (set_ref (Some start.1) start.2 c) (set_blocks l' st)).
Proof.
  intros [Hco Hp Hl Hd] Hi Hr Hf. pose proof Hl as (off & sz & b & Hin & Hpos & Hoff & Hs).
  destruct (take_ref_ok base hist i c start.1 start.2 st _ Hco Hi Hr Hin eq_refl) as (l' & El & Eg & Hco').
  exists l'. split; [done|]. set (st' := set_slave _ _ _) in *.
  assert (geometry <$> repl_buffer_blocks st' = geometry <$> repl_buffer_blocks st) as Eg' by done.
  constructor; [done| | |done].
  - intros j c' Hj. rewrite Eg'. apply list_lookup_insert_Some in Hj as [(<- & <- & _)|[_ Hj]]; [|by apply (Hp j)].
    destruct (Hp i c Hi) as [P1 P2 P3]. rewrite Hr in P1. destruct (P1 Hf) as [Hsent Hfirst].
    constructor; cbn [ref_repl_buf_node first_offset sent ref_block_pos replstate set_ref psync_initial_offset].
    + rewrite Hfirst, Hsent. split; [done|split; [apply prefix_nil|]]. exists off, sz, b. rewrite msize_nil. split_and!; try done; lia.
    + intros Hw. exfalso. unfold canFeedReplicaReplBuffer in Hf. rewrite Hw in Hf. by destruct (_ || _).
    + intros Hw _. by apply P3.
  - exists off, sz, b. by rewrite Eg'.
Qed.

Lemma feed_slaves_ok base hist due start limits add todo st :
  feeding base hist due start st -> NoDup todo -> Forall (fun i => (i < length (slaves st))%nat) todo ->
  ensures (feed_slaves limits start add todo st) (fun st' => feeding base hist due start st' /\
    length (slaves st') = length (slaves st) /\ repl_backlog_size st' = repl_backlog_size st /\ (has_ref st -> has_ref st') /\
    (forall j, j ∉ todo -> slaves st' !! j = slaves st !! j) /\
    (forall j c, j ∈ todo -> slaves st' !! j = Some c -> canFeedReplicaReplBuffer c = true -> ref_repl_buf_node c <> None)).
Proof.
  revert st. induction todo as [|i todo IH]; intros st F Hnd Hlt; cbn [feed_slaves].
  { cbn. split_and!; try done. intros j c []%not_elem_of_nil. }
  apply NoDup_cons in Hnd as [Hni Hnd]. apply Forall_cons_1 in Hlt as [Hi Hlt].
  destruct (lookup_lt_is_Some_2 _ _ Hi) as [c Hc]. rewrite Hc. cbn [mbind option_bind].
  (* what is left after this replica *)
  assert (forall st1, feeding base hist due start st1 -> length (slaves st1) = length (slaves st) ->
    repl_backlog_size st1 = repl_backlog_size st -> (has_ref st -> has_ref st1) -> (forall j, j <> i -> slaves st1 !! j = slaves st !! j) ->
    (forall c, slaves st1 !! i = Some c -> canFeedReplicaReplBuffer c = true -> ref_repl_buf_node c <> None) ->
    ensures (feed_slaves limits start add todo st1) (fun st' => feeding base hist due start st' /\
      length (slaves st') = length (slaves st) /\ repl_backlog_size st' = repl_backlog_size st /\ (has_ref st -> has_ref st') /\
      (forall j, j ∉ i :: todo -> slaves st' !! j = slaves st !! j) /\
      (forall j c, j ∈ i :: todo -> slaves st' !! j = Some c -> canFeedReplicaReplBuffer c = true -> ref_repl_buf_node c <> None)))
    as Hnext.
  { intros st1 F1 L1 S1 H1 O1 R1. eapply ensures_mono; [apply (IH st1 F1 Hnd); by rewrite L1|].
    intros st' (F' & L' & S' & H' & O' & R'). split_and!; [done|congruence|congruence|auto| |].
    - intros j [Hj1 Hj2]%not_elem_of_cons. by rewrite O', O1.
    - intros j c' [->|Hj]%elem_of_cons; [|by apply R']. rewrite O' by done. apply R1. }
  destruct (canFeedReplicaReplBuffer c) eqn:Ef; cbn [negb].
  2: { apply Hnext; try done. intros c' Hc' Hf. rewrite Hc in Hc'. injection Hc' as <-. congruence. }
  (* the replica has a reference *)
  assert (exists st1 c1, (match ref_repl_buf_node c with
      | Some _ => Some st
      | None => blocks ← node_update start.1 incr_ref (repl_buffer_blocks st);
                Some (set_slave i (set_ref (Some start.1) start.2 c) (set_blocks blocks st))
      end) = Some st1 /\ feeding base hist due start st1 /\ slaves st1 = <[i:=c1]> (slaves st) /\ ref_repl_buf_node c1 <> None /\
      repl_backlog_size st1 = repl_backlog_size st /\ repl_backlog st1 = repl_backlog st) as (st1 & c1 & -> & F1 & E1 & Hr1 & S1 & B1).
  { destruct (ref_repl_buf_node c) as [m|] eqn:Er.
    - exists st, c. split_and!; try done; [by rewrite list_insert_id|congruence].
    - destruct (start_reading_ok base hist due start i c st F Hc Er Ef) as (l' & -> & F1). by eexists _, _. }
  cbn [mbind option_bind]. assert (length (slaves st1) = length (slaves st)) as L1 by by rewrite E1, length_insert.
  assert (forall j, j <> i -> slaves st1 !! j = slaves st !! j) as O1 by (intros j Hj; by rewrite E1, list_lookup_insert_ne).
  assert (forall c, slaves st1 !! i = Some c -> canFeedReplicaReplBuffer c = true -> ref_repl_buf_node c <> None) as R1.
  { intros c' Hc' _. rewrite E1, list_lookup_insert_eq in Hc' by done. by injection Hc' as <-. }
  assert (has_ref st -> has_ref st1) as H1 by (intros Hh bl; rewrite B1; apply Hh).
  destruct add; [|by apply Hnext].
  pose proof (feeding_blocks _ _ _ _ _ F1) as Hne. destruct F1 as [Hco1 Hp1 Hl1 Hd1].
  eapply ensures_bind; [apply (closeClient_ok base hist due start limits i st1); try done; by rewrite L1|].
  intros st2 (Hco2 & Hp2 & Hcl & Hl2 & _). destruct Hcl as [[C1 C2 C3 C4 C5 _]| ->]; [|by apply Hnext].
  apply Hnext; [by constructor; auto|congruence|congruence| | |].
  - intros Hh. by apply C5, H1.
  - intros j Hj. by rewrite C2, O1.
  - intros c' Hc' Hf. by rewrite (C3 c' Hc') in Hf.
Qed.

(** ** Adding bytes *)

Definition grow (g g' : list (Z * Z * Z * mem)) : Prop := forall m off sz b, (m, off, sz, b) ∈ g -> exists b', (m, off, sz, b ++ b') ∈ g'.

Lemma prefix_drop_app (s h t : mem) k : s `prefix_of` drop k h -> s `prefix_of` drop k (h ++ t).
Proof.
  intros Hp. destruct (le_lt_dec k (length h)) as [Hk|Hk].
  - rewrite drop_app_le by done. by apply prefix_app_r.
  - rewrite drop_ge in Hp by lia. apply prefix_nil_inv in Hp as ->. apply prefix_nil.
Qed.

Lemma placed_grow base hist taken due g g' c : grow g g' -> placed base hist due g c -> placed base (hist ++ taken) due g' c.
Proof.
  intros Hg [P1 P2 P3]. constructor; [|done|done]. destruct (ref_repl_buf_node c) as [m|]; [|done].
  destruct P1 as (? & ? & off & sz & b & Hin & Hpos & Hoff). split; [done|]. split; [by apply prefix_drop_app|].
  destruct (Hg _ _ _ _ Hin) as [b' Hin']. exists off, sz, (b ++ b'). rewrite msize_app. pose proof (msize_nonneg b'). split_and!; try done; lia.
Qed.

Definition longer (n : Z) (bl : replBacklog R) : replBacklog R :=
  mk_backlog (bl_ref_repl_buf_node bl) (unindexed_count bl) (blocks_index bl) (i64 (histlen bl + n)) (offset bl).

Lemma buffer_histlen base hist next sl bl mem_ l n : buffer base hist next sl bl mem_ l -> 0 <= n -> base + msize hist + n + 1 < 2 ^ 63 ->
  i64 (histlen bl + n) = msize (text l) + n.
Proof.
  intros B Hn Hb. pose proof (buffer_size _ _ _ _ _ _ _ B). pose proof (bf_bound _ _ _ _ _ _ _ B). rewrite (bf_hist _ _ _ _ _ _ _ B).
  apply wraps_small; [done|]. unfold in_s. lia.
Qed.

Lemma text_snoc l o : text (l ++ [o]) = text l ++ buf o.
Proof. rewrite text_app. unfold text at 2. cbn. by rewrite app_nil_r. Qed.

Lemma mem_of_snoc l o : mem_of (l ++ [o]) = mem_of l + (size o + sizeof_replBufBlock + sizeof_listNode).
Proof. induction l as [|o' l IH]; [cbn; lia|]. cbn [app mem_of foldr] in *. unfold mem_of in IH. lia. Qed.

Lemma buffer_fill base hist next sl bl mem_ l o taken :
  buffer base hist next sl bl mem_ (l ++ [o]) -> used o + msize taken <= size o -> base + msize hist + msize taken + 1 < 2 ^ 63 ->
  buffer base (hist ++ taken) next sl (longer (msize taken) bl) mem_ (l ++ [append_buf taken o]).
Proof.
  intros B Hu Hb. pose proof B as [Hb0 Hc [old Et] Hh Hr Hrf Hhe Hm Hix]. set (o' := append_buf taken o).
  assert (used o' = used o + msize taken) as Eu by apply msize_app. pose proof (msize_nonneg taken).
  assert (text (l ++ [o']) = text (l ++ [o]) ++ taken) as Etx by (rewrite !text_snoc; by rewrite <- app_assoc).
  assert (length (l ++ [o']) = length (l ++ [o])) as El by by rewrite !length_app.
  constructor; rewrite ?El, ?Etx, ?msize_app; cbn [histlen bl_ref_repl_buf_node blocks_index longer]; try done.
  - lia.
  - replace (base + (msize hist + msize taken) - (msize (text (l ++ [o])) + msize taken)) with (base + msize hist - msize (text (l ++ [o]))) by lia.
    apply (chain_last _ _ l o o' Hc); try done. lia.
  - exists old. by rewrite Et at 1; rewrite <- app_assoc.
  - by eapply buffer_histlen.
  - destruct Hr as [->|[? ?]]; [left; by destruct l|by right].
  - intros i o1 Hi. apply lookup_app_Some in Hi as [Hi|[Hle Hi]]; [apply (Hrf i); by apply lookup_app_l_Some|].
    apply list_lookup_singleton_Some in Hi as [Hi <-]. change (refcount o = nref (bl_ref_repl_buf_node bl) sl (id o)).
    apply (Hrf (length l)). by apply list_lookup_middle.
  - by rewrite Hm, !mem_of_snoc.
  - intros k v (o1 & Ho1 & -> & ->)%Hix. apply elem_of_app in Ho1 as [Ho1| ->%list_elem_of_singleton].
    + exists o1. split; [apply elem_of_app; by left|done].
    + exists o'. split; [apply elem_of_app; right; by apply list_elem_of_singleton|done].
Qed.

Lemma buffer_add base hist next sl bl mem_ l o :
  buffer base hist next sl bl mem_ l -> (forall o', last l = Some o' -> used o' = size o') -> refcount o = 0 -> id o = next ->
  repl_offset o = base + msize hist + 1 -> 0 < used o <= size o -> base + msize hist + used o + 1 < 2 ^ 63 ->
  (l <> [] -> bl_ref_repl_buf_node bl = id <$> head l) ->
  buffer base (hist ++ buf o) (next + 1) sl (longer (used o) bl) (mem_ + (size o + sizeof_replBufBlock + sizeof_listNode)) (l ++ [o]).
Proof.
  intros B Hfull Hr0 Hid Hoff Hu Hb Href. pose proof B as [Hb0 Hc [old Et] Hh Hr Hrf Hhe Hm Hix].
  assert (msize (text (l ++ [o])) = msize (text l) + used o) as Etx by by rewrite text_snoc, msize_app.
  assert (Z.of_nat (length (l ++ [o])) = Z.of_nat (length l) + 1) as El by (rewrite length_app; cbn; lia).
  assert (msize (hist ++ buf o) = msize hist + used o) as Eh by apply msize_app.
  constructor; rewrite ?El, ?Etx, ?Eh; cbn [histlen bl_ref_repl_buf_node blocks_index longer]; try done.
  - lia.
  - replace (next + 1 - (Z.of_nat (length l) + 1)) with (next - Z.of_nat (length l)) by lia.
    replace (base + (msize hist + used o) - (msize (text l) + used o)) with (base + msize hist - msize (text l)) by lia.
    apply chain_snoc; try done; lia.
  - exists old. by rewrite text_snoc, app_assoc, <- Et.
  - eapply buffer_histlen; [done|lia|lia].
  - destruct l as [|o1 l]; [right; split; [by destruct Hr as [->|[? _]]|done]|left]. by rewrite Href.
  - intros i o1 Hi. apply lookup_app_Some in Hi as [Hi|[Hle Hi]]; [by apply (Hrf i)|].
    apply list_lookup_singleton_Some in Hi as [Hi <-]. rewrite Hr0. symmetry. apply nref_nobody.
    + destruct Hr as [->|[-> _]]; [|done]. destruct l as [|o1 l]; [done|]. cbn. intros [= Eq].
      destruct (buffer_offset _ _ _ _ _ _ _ 0%nat o1 B eq_refl) as (_ & _ & _ & Hi1). cbn [length] in Hi1. lia.
    + intros j c Hj Hcr. specialize (Hhe j c _ Hj Hcr). lia.
  - intros i c m Hi Hcr. specialize (Hhe i c m Hi Hcr). lia.
  - by rewrite Hm, mem_of_snoc.
  - intros k v (o1 & Ho1 & -> & ->)%Hix. exists o1. split; [apply elem_of_app; by left|done].
Qed.

(** ** The state between two operations *)

Record wf_at (base : Z) (hist : mem) (due : Z) (st : server R) : Prop := {
  wa_core : core base hist st;
  wa_placed : all_placed base hist due st;
  wa_ref bl : repl_backlog st = Some bl -> repl_buffer_blocks st <> [] -> bl_ref_repl_buf_node bl = id <$> head (repl_buffer_blocks st)
}.

(** A place [p] at the offset [due], in a block that ends at the offset [e]. *)
Definition place (p : Z * Z) (due e : Z) (st : server R) : Prop :=
  exists off sz b, (p.1, off, sz, b) ∈ geometry <$> repl_buffer_blocks st /\ 0 <= p.2 <= msize b /\ off + p.2 = due /\ off + msize b = e.

Definition all_full (l : list replBufBlock) : Prop := forall o, last l = Some o -> used o = size o.

(** What feeding the bytes leaves alone. *)
Definition keeps (st st' : server R) : Prop :=
  slaves st' = slaves st /\ repl_backlog_size st' = repl_backlog_size st /\
  (forall bl, repl_backlog st = Some bl -> exists bl', repl_backlog st' = Some bl' /\ bl_ref_repl_buf_node bl' = bl_ref_repl_buf_node bl).

Lemma all_placed_grow base hist taken due st st' : slaves st' = slaves st ->
  grow (geometry <$> repl_buffer_blocks st) (geometry <$> repl_buffer_blocks st') ->
  all_placed base hist due st -> all_placed base (hist ++ taken) due st'.
Proof. intros Es Hg Hp i c Hi. rewrite Es in Hi. eapply placed_grow; [done|by apply (Hp i)]. Qed.

(** The history is longer. *)
Lemma core_history base hist taken bl next mem_ l st st' :
  core base hist st -> repl_backlog st = Some bl -> base + msize hist + msize taken + 1 < 2 ^ 63 ->
  st' = set_block_id next (add_history (msize taken) mem_ l bl st) ->
  msize (text l) = msize (text (repl_buffer_blocks st)) + msize taken ->
  buffer base (hist ++ taken) next (slaves st) (longer (msize taken) bl) mem_ l -> core base (hist ++ taken) st'.
Proof.
  intros [(bl' & Eb & Ho & B) Hm] Eb' Hb -> Ht B'. rewrite Eb in Eb'. injection Eb' as ->.
  pose proof (bf_bound _ _ _ _ _ _ _ B). pose proof (msize_nonneg taken). pose proof (msize_nonneg hist). constructor.
  - exists (longer (msize taken) bl). split; [done|]. split; [|done]. cbn [offset longer repl_buffer_blocks set_block_id add_history set_stream].
    rewrite Ho, Ht, msize_app. lia.
  - cbn [master_repl_offset set_block_id add_history set_stream]. rewrite Hm, msize_app. rewrite wraps_small; [lia|done|unfold in_s; lia].
Qed.

Lemma append_tail_ok base hist due s bl st :
  wf_at base hist due st -> repl_backlog st = Some bl -> s <> [] -> base + msize hist + msize s + 1 < 2 ^ 63 ->
  let '(s', start, st') := append_tail s bl st in
  exists taken, s = taken ++ s' /\ wf_at base (hist ++ taken) due st' /\ keeps st st' /\
    ((start = None /\ taken = []) \/
     exists p, start = Some p /\ taken <> [] /\ place p (base + msize hist + 1) (base + msize (hist ++ taken) + 1) st') /\
    (s' <> [] -> all_full (repl_buffer_blocks st')) /\ (repl_buffer_blocks st = [] -> start = None).
Proof.
  intros Hw Eb Hs Hb. unfold append_tail.
  assert (keeps st st) as Hk by (split_and!; try done; intros bl' E; by exists bl').
  assert (all_full (repl_buffer_blocks st) -> exists taken, s = taken ++ s /\ wf_at base (hist ++ taken) due st /\ keeps st st /\
    ((None = None :> option (Z * Z) /\ taken = []) \/
     exists p, None = Some p /\ taken <> [] /\ place p (base + msize hist + 1) (base + msize (hist ++ taken) + 1) st) /\
    (s <> [] -> all_full (repl_buffer_blocks st)) /\ (repl_buffer_blocks st = [] -> None = None :> option (Z * Z))) as Hnone.
  { intros Hf. exists []. rewrite app_nil_r. split_and!; try done. by left. }
  destruct (last (repl_buffer_blocks st)) as [o|] eqn:El; [|apply Hnone; intros o' E; congruence].
  pose proof Hw as [Hco Hp Hr]. pose proof Hco as [(bl0 & Eb0 & Ho & B) Hm]. rewrite Eb in Eb0. injection Eb0 as <-.
  apply last_Some in El as [l El]. rewrite El in B. pose proof (chain_lookup _ _ _ (length l) o (bf_chain _ _ _ _ _ _ _ B) ltac:(by apply list_lookup_middle)) as (Hid & Hoff & Hu).
  rewrite Z.gtb_ltb. destruct (Z.ltb_spec (used o) (size o)) as [Hlt|Hge].
  2: { apply Hnone. intros o' E. rewrite El, last_snoc in E. injection E as <-. lia. }
  set (copy := if size o - used o >=? msize s then msize s else size o - used o).
  assert (0 < copy <= msize s /\ copy <= size o - used o /\ (copy = msize s \/ copy = size o - used o)) as (Hc1 & Hc2 & Hc3).
  { subst copy. pose proof (msize_nonneg s). assert (msize s <> 0) by (intros E; apply Hs, msize_zero; lia).
    rewrite Z.geb_leb. destruct (Z.leb_spec (msize s) (size o - used o)); lia. }
  clearbody copy. set (taken := take (Z.to_nat copy) s).
  assert (msize taken = copy) as Et by (subst taken; unfold msize in *; rewrite length_take; lia).
  rewrite El, length_app, Nat.add_sub, take_app_length. set (l' := l ++ [append_buf taken o]).
  assert (used (append_buf taken o) = used o + copy) as Hu' by (rewrite <- Et; apply msize_app).
  exists taken. split; [by subst taken; rewrite take_drop|].
  assert (grow (geometry <$> l ++ [o]) (geometry <$> l')) as Hg.
  { intros m off sz b Hin. subst l'. rewrite fmap_app in *. apply elem_of_app in Hin as [Hin|Hin].
    - exists []. rewrite app_nil_r. apply elem_of_app. by left.
    - apply list_elem_of_singleton in Hin. injection Hin as -> -> -> ->. exists taken. apply elem_of_app. right. by apply list_elem_of_singleton. }
  split_and!.
  - constructor.
    + eapply (core_history _ _ _ bl (repl_block_id st) (repl_buffer_mem st) l'); [done|done|lia| | |].
      * rewrite <- Et. by destruct st.
      * subst l'. rewrite El, !text_snoc. cbn [buf append_buf]. rewrite !msize_app. lia.
      * apply (buffer_fill _ _ _ _ _ _ l o taken B); lia.
    + apply (all_placed_grow _ _ _ _ st); [done| |done]. rewrite El. exact Hg.
    + intros bl' [= <-] _. cbn [bl_ref_repl_buf_node repl_buffer_blocks add_history set_stream]. rewrite (Hr bl Eb) by (rewrite El; by destruct l).
      rewrite El. by destruct l.
  - split_and!; try done. intros bl' E. rewrite Eb in E. injection E as <-. by eexists.
  - right. eexists. split; [done|]. split; [intros E; rewrite E in Et; rewrite msize_nil in Et; lia|].
    exists (repl_offset o), (size o), (buf o ++ taken). cbn [fst snd repl_buffer_blocks add_history set_stream].
    pose proof (bf_hist _ _ _ _ _ _ _ B) as Hh. rewrite text_snoc, msize_app in *.
    assert (msize (text (take (length l) (l ++ [o]))) = msize (text l)) as Etk by by rewrite take_app_length.
    rewrite Etk in Hoff. rewrite !msize_app, Et. unfold used in *. split_and!; try lia.
    apply elem_geometry. exists (length l), (append_buf taken o). split; [by apply list_lookup_middle|done].
  - intros Hne o' E. cbn [repl_buffer_blocks add_history set_stream] in E. subst l'. rewrite last_snoc in E. injection E as <-.
    rewrite Hu'. cbn [size append_buf]. destruct Hc3 as [->|]; [|lia]. exfalso. apply Hne. apply drop_ge. unfold msize in *. lia.
  - intros E. rewrite E in El. by destruct l.
Qed.

Context (zmalloc_usable : Z -> Z) (usable_enough : forall n, n <= zmalloc_usable n).

Lemma block_size_pos len (st : server R) : 0 < block_size zmalloc_usable len st.
Proof.
  unfold block_size, PROTO_REPLY_CHUNK_BYTES.
  set (sz := Z.min _ _). pose proof (usable_enough (sz + sizeof_replBufBlock)). lia.
Qed.

Lemma append_block_ok base hist due s bl st :
  wf_at base hist due st -> repl_backlog st = Some bl -> all_full (repl_buffer_blocks st) -> s <> [] ->
  base + msize hist + msize s + 1 < 2 ^ 63 ->
  let '(s', n, st') := append_block zmalloc_usable s bl st in
  exists taken, s = taken ++ s' /\ taken <> [] /\ msize taken <= block_size zmalloc_usable (msize s) st /\
    core base (hist ++ taken) st' /\ all_placed base (hist ++ taken) due st' /\ keeps st st' /\
    place (n, 0) (base + msize hist + 1) (base + msize (hist ++ taken) + 1) st' /\
    (forall p d e, place p d e st -> place p d e st').
Proof.
  intros [Hco Hp Hr] Eb Hf Hs Hb. unfold append_block. pose proof (block_size_pos (msize s) st) as Hsz.
  set (sz := block_size _ _ _) in *. clearbody sz. pose proof Hco as [(bl0 & Eb0 & Ho & B) Hm]. rewrite Eb in Eb0. injection Eb0 as <-.
  set (copy := if sz >=? msize s then msize s else sz).
  assert (0 < copy <= msize s /\ copy <= sz) as (Hc1 & Hc2).
  { subst copy. pose proof (msize_nonneg s). assert (msize s <> 0) by (intros E; apply Hs, msize_zero; lia).
    rewrite Z.geb_leb. destruct (Z.leb_spec (msize s) sz); lia. }
  clearbody copy. set (taken := take (Z.to_nat copy) s).
  assert (msize taken = copy) as Et by (subst taken; unfold msize in *; rewrite length_take; lia).
  pose proof (bf_bound _ _ _ _ _ _ _ B) as Hb0. pose proof (msize_nonneg hist).
  set (o := mk_block 0 (repl_block_id st) (i64 (master_repl_offset st + 1)) sz taken).
  assert (repl_offset o = base + msize hist + 1) as Hoff
    by (cbn [repl_offset o]; rewrite Hm; apply wraps_small; [done|unfold in_s; lia]).
  assert (used o = copy /\ refcount o = 0 /\ id o = repl_block_id st /\ size o = sz /\ buf o = taken) as (Hu & Hrc & Hid & Hso & Hbo) by done.
  change (id (mk_block _ _ _ _ _)) with (id o). clearbody o.
  assert (forall e, e ∈ geometry <$> repl_buffer_blocks st -> e ∈ geometry <$> (repl_buffer_blocks st ++ [o])) as Hin
    by (intros e He; rewrite fmap_app; apply elem_of_app; by left).
  exists taken. split; [by subst taken; rewrite take_drop|]. split; [intros E; rewrite E, msize_nil in Et; lia|].
  rewrite Et. split; [done|]. split; [|split; [|split; [|split]]].
  - eapply (core_history _ _ taken bl (repl_block_id st + 1) _ (repl_buffer_blocks st ++ [o])); [done|done|lia|by rewrite Et| |].
    + rewrite text_snoc, msize_app, Hbo. done.
    + rewrite <- Hbo, <- Hso. change (msize (buf o)) with (used o). apply (buffer_add _ _ _ _ _ _ _ o B); try done; [lia|lia|by apply Hr].
  - apply (all_placed_grow _ _ _ _ st); [done| |done]. intros m off sz' b Hm'. exists []. rewrite app_nil_r. by apply Hin.
  - split_and!; try done. intros bl' E. rewrite Eb in E. injection E as <-. by eexists.
  - exists (repl_offset o), sz, taken. cbn [fst snd repl_buffer_blocks set_block_id add_history set_stream]. rewrite msize_app. split_and!; try lia.
    rewrite fmap_app. apply elem_of_app. right. apply list_elem_of_singleton. unfold geometry. by rewrite Hso, Hbo.
  - intros p d e (off & sz' & b & Hm' & ?). exists off, sz', b. split; [by apply Hin|done].
Qed.

Lemma core_ref base hist st bl : core base hist st -> has_ref st -> repl_backlog st = Some bl ->
  bl_ref_repl_buf_node bl = id <$> head (repl_buffer_blocks st).
Proof.
  intros [(bl' & Eb' & _ & B) _] Hr Eb. rewrite Eb in Eb'. injection Eb' as <-.
  destruct (bf_ref _ _ _ _ _ _ _ B) as [|[E _]]; [done|]. by apply Hr in Eb.
Qed.

(** The backlog gets its reference with its first bytes. *)
Lemma refer_backlog_ok base hist start add due e st :
  core base hist st -> place start due e st -> (~ has_ref st -> add = true /\ start.2 = 0) ->
  ensures (refer_backlog start add st) (fun st' => core base hist st' /\ has_ref st' /\ slaves st' = slaves st /\
    geometry <$> repl_buffer_blocks st' = geometry <$> repl_buffer_blocks st /\ repl_backlog_size st' = repl_backlog_size st).
Proof.
  intros Hco Hpl Hn. pose proof Hco as [(bl & Eb & Ho & B) Hm]. unfold refer_backlog. rewrite Eb. cbn [mbind option_bind].
  destruct (bl_ref_repl_buf_node bl) as [m|] eqn:Er.
  { cbn. split_and!; try done. intros bl' E. rewrite Eb in E. injection E as <-. by rewrite Er. }
  destruct Hn as [-> Hpos]; [intros Hr; by apply Hr in Eb|]. rewrite Hpos.
  destruct Hpl as (off & sz & b & (k & o & Hk & Eo)%elem_geometry & _).
  pose proof (bf_ref _ _ _ _ _ _ _ B) as Hr. rewrite Er in Hr. assert (length (repl_buffer_blocks st) <= 1)%nat as Hlen
    by (destruct Hr as [Hr|[_ Hr]]; [by destruct (repl_buffer_blocks st)|done]).
  destruct (repl_buffer_blocks st) as [|o' [|? l]] eqn:El; [done| |cbn in Hlen; lia].
  destruct k as [|k]; [|done]. injection Hk as ->. injection Eo as Es _ _ _. rewrite Es. cbn [node_update]. rewrite !Z.eqb_refl.
  cbn [mbind option_bind cassert andb Z.eqb ensures]. split_and!; try done; [|by intros bl' [= <-]].
  constructor; [|done]. eexists. split; [done|]. cbn [offset repl_buffer_blocks set_backlog set_blocks set_stream]. split; [done|].
  destruct B as [Hb Hc Ht Hh _ Hrf Hhe Hme Hix]. constructor; try done.
  - by left.
  - intros i o1 Hi. apply list_lookup_singleton_Some in Hi as [-> <-]. cbn [bl_ref_repl_buf_node refcount id incr_ref].
    rewrite (nref_backlog None), hits_same, (hits_other None) by done. pose proof (Hrf 0%nat o eq_refl) as H0. rewrite Er in H0. cbn [slaves set_backlog set_blocks set_stream]. lia.
  - intros k v (o1 & Ho1 & -> & ->)%Hix. apply list_elem_of_singleton in Ho1 as ->. exists (incr_ref o). split; [|done].
    by apply list_elem_of_singleton.
Qed.

(** A node is recorded. *)
Lemma index_ok base hist o bl st :
  core base hist st -> repl_backlog st = Some bl -> o ∈ repl_buffer_blocks st ->
  core base hist (set_backlog (Some (createReplicationBacklogIndex o bl)) st).
Proof.
  intros [(bl' & Eb' & Ho & B) Hm] Eb Hin. rewrite Eb in Eb'. injection Eb' as <-. constructor; [|done].
  assert (u64 (repl_offset o) = repl_offset o) as Hu.
  { apply list_elem_of_lookup in Hin as [k Hk]. by apply (buffer_offset _ _ _ _ _ _ _ k o B Hk). }
  unfold createReplicationBacklogIndex. destruct B as [Hb Hc Ht Hh Hr Hrf Hhe Hme Hix].
  destruct (unindexed_count bl + 1 >=? REPL_BACKLOG_INDEX_PER_BLOCKS); (eexists; split; [done|]; split; [done|]); constructor; try done.
  intros k v Hk. apply rax_insert in Hk as [[= -> ->]|[_ H]]; [|by apply Hix|by apply in_u_wrapu]. exists o. by rewrite Hu.
Qed.

(** A block fits in the backlog. *)
Definition roomy (st : server R) : Prop := forall len, block_size zmalloc_usable len st <= repl_backlog_size st.

Definition wf (base : Z) (hist : mem) (st : server R) : Prop := wf_at base hist (base + msize hist + 1) st.

(** The bytes of a turn are in the buffer, with the place where they start. *)
Lemma append_ok base hist s st :
  wf base hist st -> s <> [] -> base + msize hist + msize s + 1 < 2 ^ 63 -> roomy st ->
  ensures (append_bytes zmalloc_usable s st) (fun '(s', start, add, st1) => exists taken,
    s = taken ++ s' /\ taken <> [] /\ feeding base (hist ++ taken) (base + msize hist + 1) start st1 /\
    length (slaves st1) = length (slaves st) /\ repl_backlog_size st1 = repl_backlog_size st /\
    (~ has_ref st1 -> add = true /\ start.2 = 0)).
Proof.
  intros Hw Hs Hb Hroom. pose proof (wa_core _ _ _ _ Hw) as [(bl & Eb & _ & B) _].
  unfold append_bytes. rewrite Eb. cbn [mbind option_bind]. pose proof (append_tail_ok base hist _ s bl st Hw Eb Hs Hb) as Ht. destruct (append_tail s bl st) as [[s1 start1] st1].
  destruct Ht as (t1 & Es & Hw1 & (Ek1 & Ek2 & Ek3) & Hst & Hf1 & Hn1). destruct (Ek3 bl Eb) as (bl1 & Eb1 & Er1).
  assert (base + 1 <= base + msize hist + 1) as Hd by (pose proof (msize_nonneg hist); lia).
  pose proof (block_size_pos 1 st) as Hpos. specialize (Hroom 1) as Hroom1.
  destruct s1 as [|x s1'].
  - destruct Hst as [[_ ->]|(p & -> & Ht1 & Hp)]; [by rewrite Es in Hs|].
    rewrite Eb1. change (default (0, 0) (Some p)) with p. exists t1. split_and!; try done; try congruence.
    + constructor; [apply Hw1|apply Hw1| |done]. destruct Hp as (off & sz & b & ? & ? & ? & ?). exists off, sz, b. split_and!; try done; lia.
    + intros Hr. exfalso. apply Hr. intros bl2 E2. rewrite Eb1 in E2. injection E2 as <-. rewrite Er1.
      assert (repl_buffer_blocks st <> []) as Hne by (intros E; by apply Hn1 in E).
      rewrite (wa_ref _ _ _ _ Hw bl Eb Hne). by destruct (repl_buffer_blocks st).
  - set (s1 := x :: s1') in *. rewrite Es, msize_app in Hb.
    assert (roomy st1) as Hroom2 by (intros len; unfold block_size; rewrite Ek2; apply (Hroom len)).
    pose proof (append_block_ok base (hist ++ t1) _ s1 bl1 st1 Hw1 Eb1 (Hf1 ltac:(done)) ltac:(done) ltac:(rewrite msize_app; lia)) as Ha.
    rewrite Eb1. cbn [mbind option_bind]. destruct (append_block zmalloc_usable s1 bl1 st1) as [[s2 n] st2].
    destruct Ha as (t2 & Es2 & Hne2 & Hsz & Hco2 & Hp2 & (Fk1 & Fk2 & Fk3) & Hpl & Hkeep). destruct (Fk3 bl1 Eb1) as (bl2 & Eb2 & Er2).
    rewrite <- app_assoc in *. specialize (Hroom2 (msize s1)).
    cbn [ensures]. exists (t1 ++ t2). split_and!; try done; try congruence.
    + by rewrite Es, Es2, app_assoc.
    + by intros [_ ?]%app_nil.
    + constructor; [done|done| |done]. rewrite !msize_app in *. destruct Hst as [[-> ->]|(p & -> & Ht1 & Hp)].
      * change (default (n, 0) None) with (n, 0). destruct Hpl as (off & sz & b & ? & ? & ? & ?). rewrite msize_nil in *. exists off, sz, b. rewrite !msize_app, msize_nil. split_and!; try done; lia.
      * change (default (n, 0) (Some p)) with p. apply Hkeep in Hp. destruct Hp as (off & sz & b & ? & ? & ? & ?). exists off, sz, b. rewrite !msize_app in *. split_and!; try done; lia.
    + intros Hr. split; [done|]. destruct Hst as [[-> _]|(p & -> & _)]; [done|]. exfalso. apply Hr. intros bl3 E3.
      rewrite Eb2 in E3. injection E3 as <-. rewrite Er2, Er1.
      assert (repl_buffer_blocks st <> []) as Hne by (intros E; by apply Hn1 in E).
      rewrite (wa_ref _ _ _ _ Hw bl Eb Hne). by destruct (repl_buffer_blocks st).
Qed.

(** Nobody waits any more. *)
Lemma placed_any base hist due due' g c : (canFeedReplicaReplBuffer c = true -> ref_repl_buf_node c <> None) ->
  placed base hist due g c -> placed base hist due' g c.
Proof.
  intros Hr [P1 P2 P3]. constructor; [|done|done]. destruct (ref_repl_buf_node c); [done|]. intros Hf. by apply Hr in Hf.
Qed.

Lemma feed_step_ok base hist limits s st :
  wf base hist st -> s <> [] -> base + msize hist + msize s + 1 < 2 ^ 63 -> roomy st ->
  ensures (feed_step zmalloc_usable limits s st) (fun '(s', st') => exists taken, s = taken ++ s' /\ taken <> [] /\
    wf base (hist ++ taken) st' /\ length (slaves st') = length (slaves st) /\ repl_backlog_size st' = repl_backlog_size st).
Proof.
  intros Hw Hs Hb Hroom. unfold feed_step. generalize REPL_BACKLOG_TRIM_BLOCKS_PER_CALL as k64. intros k64.
  eapply ensures_bind; [by apply (append_ok base hist s st)|]. intros [[[s' start] add] st1] (t & Es & Ht & F1 & L1 & S1 & N1).
  eapply ensures_bind; [apply (feed_slaves_ok base (hist ++ t) _ start limits add _ st1 F1); [apply NoDup_seq|]|].
  { apply Forall_forall. intros i [_ Hi]%elem_of_seq. lia. }
  intros st2 ([Hco2 Hp2 (off & sz & b & Hl1 & Hl2 & Hl3 & _) Hd] & L2 & S2 & H2 & _ & R2).
  eapply ensures_bind; [apply (refer_backlog_ok base (hist ++ t) start add (base + msize hist + 1) (off + msize b) st2 Hco2)|].
  { by exists off, sz, b. }
  { intros Hr. apply N1. intros Hr1. apply Hr. by apply H2. }
  intros st3 (Hco3 & Hr3 & E3 & G3 & S3).
  assert (all_placed base (hist ++ t) (base + msize (hist ++ t) + 1) st3) as Hp3.
  { intros i c Hi. rewrite G3. rewrite E3 in Hi. eapply placed_any; [|by apply (Hp2 i)]. apply (R2 i); [|done].
    apply elem_of_seq. apply lookup_lt_Some in Hi. lia. }
  assert (wf base (hist ++ t) st3) as W3.
  { constructor; [done|done|]. intros bl Eb _. by eapply core_ref. }
  destruct add; [|cbn; exists t; rewrite E3; split_and!; try done; congruence].
  pose proof Hco3 as [(bl & Eb & _ & B) _]. rewrite Eb. cbn [mbind option_bind].
  destruct (last (repl_buffer_blocks st3)) as [o|] eqn:El.
  2: { apply last_None in El. rewrite El in G3. symmetry in G3. apply fmap_nil_inv in G3. rewrite G3 in Hl1. by apply not_elem_of_nil in Hl1. }
  cbn [mbind option_bind]. eapply ensures_bind.
  { apply (trim_ok base (hist ++ t)). apply index_ok; [done|done|]. apply last_Some in El as [l ->]. apply elem_of_app. right. by apply list_elem_of_singleton. }
  intros st4 [Hco4 T4]. cbn [ensures]. exists t. split_and!; try done; [|by rewrite (tr_slaves _ _ T4); cbn; congruence|by rewrite (tr_size _ _ T4); cbn; congruence].
  constructor; [done| |].
  - eapply placed_trimmed; [|exact Hco4|exact T4|exact Hp3]. by apply core_laid in Hco3.
  - intros bl' Eb' _. eapply core_ref; [done| |done]. apply (tr_ref _ _ T4). intros bl2 [= <-].
    unfold createReplicationBacklogIndex. specialize (Hr3 bl Eb). by case_match.
Qed.

Lemma feed_loop_ok fuel base hist limits s st :
  wf base hist st -> (length s <= fuel)%nat -> base + msize hist + msize s + 1 < 2 ^ 63 -> roomy st ->
  ensures (feed_loop zmalloc_usable fuel limits s st) (fun st' => wf base (hist ++ s) st' /\ repl_backlog_size st' = repl_backlog_size st).
Proof.
  revert hist s st. induction fuel as [|fuel IH]; intros hist s st Hw Hf Hb Hroom.
  { destruct s; [|cbn in Hf; lia]. cbn. by rewrite app_nil_r. }
  destruct s as [|x s]; [cbn; by rewrite app_nil_r|]. cbn [feed_loop]. set (s0 := x :: s) in *.
  eapply ensures_bind; [by apply (feed_step_ok base hist limits s0 st)|].
  intros [s' st'] (t & E & Ht & Hw' & _ & Hsz). rewrite E, app_assoc. rewrite <- Hsz. apply IH; [done| | |].
  - rewrite E, length_app in Hf. destruct t; [done|]. cbn in Hf. lia.
  - rewrite E, msize_app in Hb. rewrite msize_app. lia.
  - intros len. unfold block_size. rewrite Hsz. apply (Hroom len).
Qed.

Lemma feed_ok base hist limits s st :
  wf base hist st -> base + msize hist + msize s + 1 < 2 ^ 63 -> roomy st ->
  ensures (feedReplicationBuffer zmalloc_usable limits s st) (fun st' => wf base (hist ++ s) st' /\ repl_backlog_size st' = repl_backlog_size st).
Proof.
  intros Hw Hb Hroom. unfold feedReplicationBuffer. pose proof (wa_core _ _ _ _ Hw) as [(bl & -> & _) _]. by apply feed_loop_ok.
Qed.

End buffer.
End BacklogSafety.
