(* ===== verification/BacklogStream.v ===== *)
(** What the replicas are sent is the stream: of a partial synchronization, from the offset
    that was asked for; of a full one, from the offset of the snapshot. *)
From S2P Require Import Prelude Backlog BacklogSafety.
From stdpp Require Import options.
#[local] Set Default Proof Using "Type*".

Module BacklogStream.
Import Backlog BacklogSafety.

Section stream.
Context {R : Type} `{HR : Rax R} `{!RaxLaws R}.

(** ** Positions in the stream *)

(** What a replica has not been sent yet. *)
Definition unsent (c : replica) (st : server R) : mem :=
  match ref_repl_buf_node c with
  | None => []
  | Some n => match from_node n (repl_buffer_blocks st) with
              | Some l => drop (Z.to_nat (ref_block_pos c)) (text l)
              | None => []
              end
  end.

(** The stream from a position in a block on. *)
Lemma block_text base hist next sl bl mem_ l k o pos :
  buffer base hist next sl bl mem_ l -> l !! k = Some o -> 0 <= pos <= used o ->
  drop (Z.to_nat (repl_offset o + pos - base - 1)) hist = drop (Z.to_nat pos) (text (drop k l)).
Proof.
  intros B Hk Hp. destruct (bf_text _ _ _ _ _ _ _ B) as [old Et]. pose proof (chain_lookup _ _ _ _ _ (bf_chain _ _ _ _ _ _ _ B) Hk) as (_ & Ho & _).
  pose proof (f_equal msize Et) as Es. rewrite msize_app in Es.
  assert (text l = text (take k l) ++ text (drop k l)) as El by by rewrite <- text_app, take_drop.
  rewrite Ho, Es. rewrite Et, El. rewrite app_assoc.
  replace (Z.to_nat _) with (length (old ++ text (take k l)) + Z.to_nat pos)%nat by (rewrite length_app; unfold msize; lia).
  by rewrite <- drop_drop, drop_app_length.
Qed.

(** A replica that reads: its block. *)
Lemma placed_block base hist due st i c m : core base hist st -> slaves st !! i = Some c -> ref_repl_buf_node c = Some m ->
  placed base hist due (geometry <$> repl_buffer_blocks st) c ->
  exists k o, repl_buffer_blocks st !! k = Some o /\ id o = m /\ node_value m (repl_buffer_blocks st) = Some o /\
    from_node m (repl_buffer_blocks st) = Some (drop k (repl_buffer_blocks st)) /\
    m = repl_block_id st - Z.of_nat (length (repl_buffer_blocks st)) + Z.of_nat k /\
    0 <= ref_block_pos c <= used o /\ repl_offset o + ref_block_pos c = first_offset c + msize (sent c) /\
    base + 1 <= first_offset c /\ sent c `prefix_of` drop (Z.to_nat (first_offset c - base - 1)) hist.
Proof.
  intros [(bl & _ & _ & B) _] Hi Er [P1 _ _]. rewrite Er in P1. destruct P1 as (Hf & Hs & off & sz & b & Hin & Hpos & Hoff).
  apply elem_geometry in Hin as (k & o & Hk & Eo). injection Eo as Em E1 _ E2.
  destruct (buffer_offset _ _ _ _ _ _ _ k o B Hk) as (_ & _ & _ & Hid). pose proof (lookup_lt_Some _ _ _ Hk).
  destruct (node_value_spec _ _ _ m (bf_chain _ _ _ _ _ _ _ B)) as (o' & Ho' & Hv & _); [lia|].
  exists k, o. rewrite (from_node_spec _ _ _ m (bf_chain _ _ _ _ _ _ _ B)) by lia.
  replace (Z.to_nat (m - _)) with k in * by lia. rewrite Hk in Ho'. injection Ho' as <-. unfold used. rewrite <- E1, <- E2. split_and!; try done; try lia.
Qed.

(** What a replica was sent, and what it is still to be sent. *)
Lemma placed_delivers base hist st i c : core base hist st -> slaves st !! i = Some c ->
  placed base hist (base + msize hist + 1) (geometry <$> repl_buffer_blocks st) c -> canFeedReplicaReplBuffer c = true ->
  base + 1 <= first_offset c /\ sent c ++ unsent c st = drop (Z.to_nat (first_offset c - base - 1)) hist.
Proof.
  intros Hco Hi P Hf. unfold unsent. destruct (ref_repl_buf_node c) as [m|] eqn:Er.
  - destruct (placed_block base hist _ st i c m Hco Hi Er P) as (k & o & Hk & _ & _ & -> & _ & Hpos & Hoff & Hfi & Hs).
    split; [done|]. pose proof Hco as [(bl & _ & _ & B) _]. rewrite <- (block_text _ _ _ _ _ _ _ k o _ B Hk Hpos).
    destruct Hs as [r Hr]. rewrite Hr. f_equal. pose proof (msize_nonneg (sent c)).
    replace (Z.to_nat (repl_offset o + ref_block_pos c - base - 1)) with (Z.to_nat (first_offset c - base - 1) + length (sent c))%nat by (unfold msize in *; lia).
    by rewrite <- drop_drop, Hr, drop_app_length.
  - destruct P as [P1 _ _]. rewrite Er in P1. destruct (P1 Hf) as [-> ->]. pose proof (msize_nonneg hist). split; [lia|].
    rewrite drop_ge; [done|unfold msize; lia].
Qed.

(** ** Sending *)

Lemma wf_has_ref base hist due (st : server R) : wf_at base hist due st -> repl_buffer_blocks st <> [] -> has_ref st.
Proof. intros [_ _ Hr] Hne bl Eb. rewrite (Hr bl Eb Hne). by destruct (repl_buffer_blocks st). Qed.

(** The references are right after an operation that trims. *)
Lemma wf_after base hist due (st st' : server R) : wf_at base hist due st -> core base hist st' -> all_placed base hist due st' ->
  (has_ref st -> has_ref st') -> (repl_buffer_blocks st' <> [] -> repl_buffer_blocks st <> []) -> wf_at base hist due st'.
Proof.
  intros Hw Hco Hp Hr Hn. constructor; [done|done|]. intros bl Eb Hne. eapply core_ref; [done| |done].
  apply Hr. eapply wf_has_ref; [done|]. by apply Hn.
Qed.

Lemma wf_trim base hist due k (st : server R) : wf_at base hist due st ->
  ensures (incrementalTrimReplicationBacklog k st) (fun st' => wf_at base hist due st' /\ trimmed st st').
Proof.
  intros Hw. pose proof Hw as [Hco Hp Hr]. eapply ensures_mono; [by apply (trim_ok base hist)|]. intros st' [Hco' T]. split; [|done].
  eapply wf_after; [exact Hw|done| |apply T|by apply (trimmed_none _ _ T)].
  apply (placed_trimmed base hist due st st'); [by apply core_laid|done..].
Qed.

(** A replica that was sent more. *)
Lemma placed_sent base hist due st i c m bs : core base hist st -> slaves st !! i = Some c -> ref_repl_buf_node c = Some m ->
  placed base hist due (geometry <$> repl_buffer_blocks st) c ->
  (exists o, node_value m (repl_buffer_blocks st) = Some o /\ exists t, drop (Z.to_nat (ref_block_pos c)) (buf o) = bs ++ t) ->
  replstate c <> SLAVE_STATE_WAIT_BGSAVE_END -> replstate c <> SLAVE_STATE_WAIT_BGSAVE_START ->
  placed base hist due (geometry <$> repl_buffer_blocks st) (set_sent bs c).
Proof.
  intros Hco Hi Er P (o' & Ho' & t & Et) H1 H2.
  destruct (placed_block base hist due st i c m Hco Hi Er P) as (k & o & Hk & Hid & Hv & _ & _ & Hpos & Hoff & Hfi & [r Hr]).
  rewrite Hv in Ho'. injection Ho' as <-. pose proof Hco as [(bl & _ & _ & B) _].
  constructor; [|intros; by destruct H2|intros; by destruct H1]. cbn [ref_repl_buf_node set_sent first_offset sent ref_block_pos]. rewrite Er.
  split; [done|]. split.
  - pose proof (block_text _ _ _ _ _ _ _ k o _ B Hk Hpos) as Eb. pose proof (msize_nonneg (sent c)).
    replace (Z.to_nat (repl_offset o + ref_block_pos c - base - 1)) with (Z.to_nat (first_offset c - base - 1) + length (sent c))%nat in Eb by (unfold msize in *; lia).
    rewrite <- drop_drop, Hr, drop_app_length, (drop_S _ o _ Hk), text_cons, drop_app_le in Eb by (unfold used, msize in *; lia).
    rewrite Hr, Eb, Et. exists (t ++ text (drop (S k) (repl_buffer_blocks st))). by rewrite <- !app_assoc.
  - exists (repl_offset o), (size o), (buf o). split; [apply elem_geometry; exists k, o; split; [done|by rewrite <- Hid]|].
    assert (msize bs <= used o - ref_block_pos c).
    { apply (f_equal msize) in Et. rewrite msize_app in Et. pose proof (msize_nonneg t). unfold used, msize in *. rewrite length_drop in Et. lia. }
    pose proof (msize_nonneg bs). rewrite msize_app. unfold used in *. split; lia.
Qed.

Lemma head_geometry (l l' : list replBufBlock) : geometry <$> l' = geometry <$> l -> id <$> head l = id <$> head l'.
Proof.
  destruct l as [|a l], l' as [|a' l']; try done. intros E. rewrite !fmap_cons in E. apply (inj2 cons) in E as [E _].
  injection E as E _ _ _. cbn. by rewrite E.
Qed.

(** A replica at the end of a block goes to the next. *)
Lemma move_ok base hist due st i c m next o :
  wf_at base hist due st -> slaves st !! i = Some c -> ref_repl_buf_node c = Some m ->
  listNextNode m (repl_buffer_blocks st) = Some (Some next) -> node_value m (repl_buffer_blocks st) = Some o -> ref_block_pos c = used o ->
  exists l1 l2, node_update m decr_ref (repl_buffer_blocks st) = Some l1 /\ node_update next incr_ref l1 = Some l2 /\
    wf_at base hist due (set_slave i (set_ref (Some next) 0 c) (set_blocks l2 st)).
Proof.
  intros Hw Hi Er Hn Hv Hpos. pose proof Hw as [Hco Hp Hr]. pose proof Hco as [(bl & Eb & Ho & B) Hm].
  destruct (placed_block base hist due st i c m Hco Hi Er (Hp i c Hi)) as (k & o' & Hk & Hid & Hv' & _ & Em & Hp0 & Hoff & Hfi & Hs).
  rewrite Hv in Hv'. injection Hv' as <-. pose proof (bf_chain _ _ _ _ _ _ _ B) as Hc. pose proof (lookup_lt_Some _ _ _ Hk) as Hlt.
  set (n0 := repl_block_id st - Z.of_nat (length (repl_buffer_blocks st))) in *.
  rewrite (listNextNode_spec _ _ _ m Hc) in Hn by lia.
  destruct (Z.ltb_spec (m + 1) (n0 + Z.of_nat (length (repl_buffer_blocks st)))) as [Hlt1|]; [|done]. injection Hn as <-.
  rewrite (node_update_spec _ _ _ m decr_ref Hc) by lia. eexists. set (l1 := alter decr_ref _ _).
  assert (geometry <$> l1 = geometry <$> repl_buffer_blocks st) as Eg1 by by apply geometry_alter.
  pose proof (chain_geometry _ _ _ _ Eg1 Hc) as Hc1. assert (length l1 = length (repl_buffer_blocks st)) as El1 by apply length_alter.
  rewrite (node_update_spec _ _ _ (m + 1) incr_ref Hc1) by (rewrite El1; lia). eexists. split; [done|]. split; [done|].
  set (l2 := alter incr_ref _ l1). assert (geometry <$> l2 = geometry <$> repl_buffer_blocks st) as Eg by (rewrite <- Eg1; by apply geometry_alter).
  set (c' := set_ref (Some (m + 1)) 0 c).
  constructor.
  - constructor; [|done]. exists bl. split; [done|]. cbn [repl_buffer_blocks set_slave set_slaves set_blocks set_stream].
    split; [by rewrite (text_geometry _ _ Eg)|]. eapply buffer_refs; [done|done| |].
    + eapply (counted_alter _ _ _ _ _ _ _ 1); [exact Hc1|rewrite El1; lia| |by intros []|].
      * eapply (counted_alter _ (fun x => nref (bl_ref_repl_buf_node bl) (slaves st) x + if x =? m then -1 else 0) _ _ _ _ _ (-1));
          [exact Hc|lia|apply (bf_refs _ _ _ _ _ _ _ B)|by intros []|done].
      * intros x. cbn [slaves set_slave set_slaves set_blocks set_stream]. rewrite (nref_insert _ _ _ _ _ _ Hi), Er. cbn [c' ref_repl_buf_node set_ref].
        rewrite !hits_Some. destruct (Z.eqb_spec x m), (Z.eqb_spec x (m + 1)); lia.
    + intros j c1 x Hj Hc1'. cbn [slaves set_slave set_slaves set_blocks set_stream repl_block_id] in *.
      apply list_lookup_insert_Some in Hj as [(<- & <- & _)|[_ Hj]]; [|by apply (bf_held _ _ _ _ _ _ _ B j c1)]. injection Hc1' as <-. lia.
  - intros j c1 Hj. cbn [repl_buffer_blocks set_slave set_slaves set_blocks set_stream]. rewrite Eg.
    apply list_lookup_insert_Some in Hj as [(<- & <- & _)|[_ Hj]]; [|by apply (Hp j)]. destruct (Hp i c Hi) as [_ P2 P3].
    constructor; [|intros Hw'; by destruct (P2 Hw') as [? _]; congruence|done].
    cbn [c' ref_repl_buf_node first_offset sent ref_block_pos set_ref]. split; [done|split; [done|]].
    destruct (lookup_lt_is_Some_2 (repl_buffer_blocks st) (S k)) as [o2 Ho2]; [lia|].
    exists (repl_offset o2), (size o2), (buf o2). destruct (chain_lookup _ _ _ _ _ Hc Ho2) as (Hid2 & Hoff2 & Hu2).
    destruct (chain_lookup _ _ _ _ _ Hc Hk) as (_ & Hoff1 & _). rewrite (take_S_r _ _ _ Hk), text_snoc, msize_app in Hoff2.
    split; [apply elem_geometry; exists (S k), o2; split; [done|unfold geometry; repeat f_equal; lia]|]. unfold used in *.
    pose proof (msize_nonneg (buf o2)). split; lia.
  - intros bl' Eb' Hne. cbn [repl_buffer_blocks set_slave set_slaves set_blocks set_stream] in *. rewrite (Hr bl' Eb').
    + by apply head_geometry.
    + intros E. by rewrite E in Hk.
Qed.

Lemma receives_state c : receives c = true -> replstate c <> SLAVE_STATE_WAIT_BGSAVE_END /\ replstate c <> SLAVE_STATE_WAIT_BGSAVE_START.
Proof.
  unfold receives, SLAVE_STATE_SEND_BULK_AND_STREAM, SLAVE_STATE_ONLINE, SLAVE_STATE_WAIT_BGSAVE_END, SLAVE_STATE_WAIT_BGSAVE_START.
  intros [H%Z.eqb_eq|[H%Z.eqb_eq _]%andb_true_iff]%orb_true_iff; lia.
Qed.

Lemma wf_set_slave base hist due st i c c' : wf_at base hist due st -> slaves st !! i = Some c -> ref_repl_buf_node c' = ref_repl_buf_node c ->
  placed base hist due (geometry <$> repl_buffer_blocks st) c' -> wf_at base hist due (set_slave i c' st).
Proof.
  intros [Hco Hp Hr] Hi Er P. constructor; [by eapply core_set_slave| |done].
  intros j c1 Hj. apply list_lookup_insert_Some in Hj as [(<- & <- & _)|[_ Hj]]; [done|by apply (Hp j)].
Qed.

(** The replica is still there, and still receives. *)
Definition still (i : nat) (st st' : server R) : Prop :=
  length (slaves st') = length (slaves st) /\ exists c, slaves st' !! i = Some c /\ receives c = true.

Lemma write_step_ok base hist due n i c m st :
  wf_at base hist due st -> slaves st !! i = Some c -> ref_repl_buf_node c = Some m -> receives c = true ->
  ensures (_writeToClientSlave n i st) (fun '(ok, st') => wf_at base hist due st' /\ still i st st').
Proof.
  intros Hw Hi Er Hrc. pose proof (receives_state c Hrc) as [Hs1 Hs2]. unfold _writeToClientSlave.
  generalize REPL_BACKLOG_TRIM_BLOCKS_PER_CALL as k64. intros k64. rewrite Hi. cbn [mbind option_bind]. rewrite Er. cbn [mbind option_bind].
  pose proof Hw as [Hco Hp _].
  destruct (placed_block base hist due st i c m Hco Hi Er (Hp i c Hi)) as (k & o & Hk & Hid & Hv & Hfr & _ & Hpos & _).
  rewrite Hv. cbn [mbind option_bind]. rewrite Z.geb_leb, (proj2 (Z.leb_le (ref_block_pos c) (used o))) by lia. cbn [cassert mbind option_bind].
  assert (still i st st) as Hstill by (split; [done|by exists c]).
  destruct ((used o >? ref_block_pos c) && (n <=? 0)) eqn:E0; [done|].
  eapply (ensures_bind _ _ (fun c' => wf_at base hist due (set_slave i c' st) /\ ref_repl_buf_node c' = Some m /\ receives c' = true)).
  { rewrite Z.gtb_ltb in *. destruct (Z.ltb_spec (ref_block_pos c) (used o)) as [Hlt|Hge]; cbn [andb] in E0.
    - apply Z.leb_gt in E0. destruct (memread_split (buf o) (ref_block_pos c) (Z.min n (used o - ref_block_pos c))) as (x & bs & y & Eb & Ex & En & ->);
        [lia|lia|unfold used in *; lia|]. cbn [mbind option_bind ensures]. split_and!; [|done|done].
      eapply (wf_set_slave _ _ _ _ _ c); [done|done|done|]. eapply placed_sent; try done; [by apply (Hp i)|]. exists o. split; [done|].
      exists y. rewrite Eb, Ex. rewrite drop_app_length'; [done|unfold msize; lia].
    - cbn [ensures]. split_and!; [|done|done]. by eapply (wf_set_slave _ _ _ _ _ c), (Hp i). }
  intros c1 (Hw1 & Er1 & Hrc1). set (st1 := set_slave i c1 st) in *.
  assert (slaves st1 !! i = Some c1) as Hi1 by (apply list_lookup_insert_eq; by eapply lookup_lt_Some).
  assert (length (slaves st1) = length (slaves st)) as L1 by apply length_insert.
  assert (still i st st1) as Hst1 by (split; [done|by exists c1]).
  unfold listNextNode. change (repl_buffer_blocks st1) with (repl_buffer_blocks st). rewrite Hfr. cbn [mbind option_bind].
  destruct (id <$> head (tail (drop k (repl_buffer_blocks st)))) as [next|] eqn:En; [|by cbn].
  destruct (Z.eqb_spec (ref_block_pos c1) (used o)) as [Hend|]; [|by cbn].
  destruct (move_ok base hist due st1 i c1 m next o Hw1 Hi1 Er1) as (l1 & l2 & E1 & E2 & Hw2); [|done|done|].
  { unfold listNextNode. change (repl_buffer_blocks st1) with (repl_buffer_blocks st). rewrite Hfr. cbn [mbind option_bind]. by rewrite En. }
  change (repl_buffer_blocks st1) with (repl_buffer_blocks st) in E1. rewrite E1. cbn [mbind option_bind]. rewrite E2. cbn [mbind option_bind].
  eapply ensures_bind; [by apply (wf_trim base hist due)|]. intros st2 [Hw3 T]. cbn [ensures]. split; [done|].
  assert (slaves st2 = <[i:=set_ref (Some next) 0 c1]> (slaves st1)) as Es by apply (tr_slaves _ _ T).
  split; rewrite Es; [by rewrite length_insert|]. eexists. split; [apply list_lookup_insert_eq; by eapply lookup_lt_Some|done].
Qed.

Lemma writeToClient_ok base hist due ns i st :
  wf_at base hist due st -> (exists c, slaves st !! i = Some c /\ receives c = true) ->
  ensures (writeToClient ns i st) (fun st' => wf_at base hist due st').
Proof.
  revert st. induction ns as [|n ns IH]; intros st Hw (c & Hc & Hrc); cbn [writeToClient]; rewrite Hc; cbn [mbind option_bind];
    unfold _clientHasPendingRepliesSlave; (destruct (ref_repl_buf_node c) as [m|] eqn:Er; [|done]);
    pose proof (wa_core _ _ _ _ Hw) as [(bl & _ & _ & B) _]; destruct (held_node _ _ _ _ _ _ _ _ _ _ B Hc Er) as (o & _ & _ & Hk & _);
    (destruct (last (repl_buffer_blocks st)) as [tail|] eqn:El; [|apply last_None in El; by rewrite El in Hk]); cbn [mbind option_bind];
    (destruct (negb (negb _)); [done|]);
    (eapply ensures_bind; [by eapply write_step_ok|]); intros [ok st1] [Hw1 [_ Hst]]; [done|]. destruct ok; [|done]. by apply IH.
Qed.

(** ** Looking for an offset *)

Lemma find_offset_cons off o l : find_offset off (o :: l) = if decide (repl_offset o + used o >= off) then Some o else find_offset off l.
Proof.
  unfold find_offset. cbn [list_find]. destruct (decide (repl_offset o + used o >= off)); [done|].
  by destruct (list_find _ l) as [[? ?]|].
Qed.

Lemma find_offset_ok n o0 l off : chain n o0 l -> l <> [] -> o0 <= off <= o0 + msize (text l) ->
  exists o, find_offset off l = Some o /\ o ∈ l /\ repl_offset o <= off <= repl_offset o + used o.
Proof.
  revert n o0. induction l as [|o l IH]; intros n o0 Hc Hne Hoff; [done|]. destruct Hc as (Hid & Ho & Hu & _ & Hc).
  rewrite size_text_cons in Hoff. rewrite find_offset_cons. destruct (decide (repl_offset o + used o >= off)) as [Hd|Hd].
  - exists o. split_and!; [done|apply elem_of_cons; by left|lia|lia].
  - destruct l as [|o2 l]; [rewrite size_text_nil in Hoff; lia|]. destruct (IH _ _ Hc ltac:(done) ltac:(lia)) as (o' & E & Hin & ?).
    exists o'. split_and!; [done|apply elem_of_cons; by right|lia|lia].
Qed.

Lemma search_from_ok base hist off bl st :
  core base hist st -> repl_backlog st = Some bl -> repl_buffer_blocks st <> [] ->
  bl_ref_repl_buf_node bl = id <$> head (repl_buffer_blocks st) -> offset bl <= off <= base + msize hist + 1 ->
  exists k o, search_from off bl = Some (id o) /\ repl_buffer_blocks st !! k = Some o /\ repl_offset o <= off.
Proof.
  intros Hco Eb Hne Href Hoff. pose proof Hco as [(bl' & Eb' & Ho & B) _].
  rewrite Eb in Eb'. injection Eb' as <-.
  assert (exists k o, bl_ref_repl_buf_node bl = Some (id o) /\ repl_buffer_blocks st !! k = Some o /\ repl_offset o <= off) as Hhead.
  { destruct (repl_buffer_blocks st) as [|o l] eqn:El; [done|]. exists 0%nat, o. split_and!; [done|done|].
    destruct (chain_lookup _ _ _ 0%nat o (bf_chain _ _ _ _ _ _ _ B) eq_refl) as (_ & Ho0 & _). rewrite take_0, size_text_nil in Ho0. lia. }
  assert (u64 off = off) as Hu.
  { pose proof (bf_bound _ _ _ _ _ _ _ B). pose proof (buffer_size _ _ _ _ _ _ _ B). apply wrapu_small. unfold in_u. lia. }
  assert (forall e, e ∈ raxElements (blocks_index bl) -> e.1 <= off ->
    exists k o, Some e.2 = Some (id o) /\ repl_buffer_blocks st !! k = Some o /\ repl_offset o <= off) as Hin.
  { intros [x v] He Hle. destruct (bf_index _ _ _ _ _ _ _ B _ _ He) as (o & [k Hk]%list_elem_of_lookup & -> & ->). by exists k, o. }
  unfold search_from. rewrite Hu. set (l := raxElements (blocks_index bl)) in *. destruct l as [|e0 l0] eqn:El; [done|]. cbn [length Nat.eqb].
  rewrite <- El in *. destruct (list_find _ l) as [[i e]|] eqn:Ef.
  - apply list_find_Some in Ef as (Hi & Hgt & Hbefore). destruct i as [|i]; [done|].
    destruct (lookup_lt_is_Some_2 l i) as [e1 He1]; [apply lookup_lt_Some in Hi; lia|]. rewrite He1. cbn [fmap option_fmap option_map].
    apply Hin; [by eapply list_elem_of_lookup_2|]. specialize (Hbefore i e1 He1 ltac:(lia)). lia.
  - apply list_find_None in Ef. destruct (last l) as [e1|] eqn:E1; [|apply last_None in E1; congruence]. cbn [fmap option_fmap option_map].
    assert (e1 ∈ l) as He1 by (apply last_Some in E1 as [l' ->]; apply elem_of_app; right; by apply list_elem_of_singleton).
    apply Hin; [done|]. eapply Forall_forall in Ef; [|done]. lia.
Qed.

(** A replica [c] that nothing was sent to yet and that is to start at its first offset. *)
Definition starts (base : Z) (hist : mem) (c : replica) : Prop :=
  ref_repl_buf_node c = None /\ sent c = [] /\ replstate c <> SLAVE_STATE_WAIT_BGSAVE_END /\
  replstate c <> SLAVE_STATE_WAIT_BGSAVE_START.

(** All but the replica [i] are at their places. *)
Record wf_but (base : Z) (hist : mem) (due : Z) (i : nat) (st : server R) : Prop := {
  wb_core : core base hist st;
  wb_placed j c : j <> i -> slaves st !! j = Some c -> placed base hist due (geometry <$> repl_buffer_blocks st) c;
  wb_ref bl : repl_backlog st = Some bl -> repl_buffer_blocks st <> [] -> bl_ref_repl_buf_node bl = id <$> head (repl_buffer_blocks st)
}.

Lemma wf_but_at base hist due i c st : wf_but base hist due i st -> slaves st !! i = Some c ->
  placed base hist due (geometry <$> repl_buffer_blocks st) c -> wf_at base hist due st.
Proof. intros [Hco Hp Hr] Hi P. constructor; try done. intros j c' Hj. destruct (decide (j = i)) as [->|Hne]; [naive_solver|by apply (Hp j)]. Qed.

Lemma addReply_ok base hist i c bl st :
  wf_but base hist (base + msize hist + 1) i st -> slaves st !! i = Some c -> starts base hist c -> repl_backlog st = Some bl ->
  offset bl <= first_offset c <= base + msize hist + 1 ->
  ensures (addReplyReplicationBacklog i (first_offset c) st) (fun '(len, st') => wf base hist st' /\
    len = base + msize hist + 1 - first_offset c /\
    exists c', slaves st' = <[i:=c']> (slaves st) /\ canFeedReplicaReplBuffer c' = canFeedReplicaReplBuffer c /\
      first_offset c' = first_offset c /\ sent c' = []).
Proof.
  intros Hw Hi (Hrf & Hs & H7 & H6) Eb Hoff. pose proof (wb_core _ _ _ _ _ Hw) as Hco. pose proof Hco as [(bl' & Eb' & Ho & B) Hm].
  rewrite Eb in Eb'. injection Eb' as <-. pose proof (bf_hist _ _ _ _ _ _ _ B) as Hh. pose proof (bf_bound _ _ _ _ _ _ _ B).
  pose proof (buffer_size _ _ _ _ _ _ _ B). unfold addReplyReplicationBacklog. rewrite Eb. cbn [mbind option_bind].
  destruct (Z.eqb_spec (histlen bl) 0) as [E0|E0].
  { cbn [ensures]. split_and!; [|lia|]; [|exists c; split_and!; try done; by rewrite list_insert_id].
    eapply wf_but_at; [done|done|]. constructor; [|done|done]. rewrite Hrf. intros _. split; [done|lia]. }
  assert (repl_buffer_blocks st <> []) as Hne by (intros E; rewrite E, size_text_nil in Hh; lia).
  destruct (search_from_ok base hist (first_offset c) bl st Hco Eb Hne (wb_ref _ _ _ _ _ Hw bl Eb Hne) Hoff) as (k & o & -> & Hk & Hle).
  cbn [mbind option_bind]. destruct (buffer_offset _ _ _ _ _ _ _ k o B Hk) as (Hlo & Hhi & _ & Hid). pose proof (lookup_lt_Some _ _ _ Hk) as Hlt.
  pose proof (bf_chain _ _ _ _ _ _ _ B) as Hc. rewrite (from_node_spec _ _ _ (id o) Hc) by lia. cbn [mbind option_bind].
  replace (Z.to_nat (id o - _)) with k by lia. destruct (chain_lookup _ _ _ _ _ Hc Hk) as (_ & Hok & _).
  pose proof Hc as Hc2. rewrite <- (take_drop k (repl_buffer_blocks st)) in Hc2. apply chain_app in Hc2 as [_ Hc2].
  assert (msize (text (repl_buffer_blocks st)) = msize (text (take k (repl_buffer_blocks st))) + msize (text (drop k (repl_buffer_blocks st)))) as Etx
    by (rewrite <- msize_app, <- text_app; by rewrite take_drop). rewrite take_drop in Hc2. 
  destruct (find_offset_ok _ _ _ (first_offset c) Hc2) as (o' & -> & Hin & Ho'); [by rewrite (drop_S _ o _ Hk)|lia|].
  cbn [mbind option_bind]. rewrite Hi. cbn [mbind option_bind].
  assert (geometry o' ∈ geometry <$> repl_buffer_blocks st) as Hg.
  { apply list_elem_of_fmap_2. rewrite <- (take_drop k (repl_buffer_blocks st)). apply elem_of_app. by right. }
  destruct (take_ref_ok base hist i c (id o') (first_offset c - repl_offset o') st _ Hco Hi Hrf Hg eq_refl) as (l' & El & Eg & Hco').
  rewrite El. cbn [mbind option_bind ensures]. split_and!.
  - constructor; [done| |].
    + intros j c1 Hj. cbn [repl_buffer_blocks set_slave set_slaves set_blocks set_stream]. rewrite Eg.
      apply list_lookup_insert_Some in Hj as [(<- & <- & _)|[Hne' Hj]]; [|by apply (wb_placed _ _ _ _ _ Hw j)].
      constructor; [|done|done]. cbn [ref_repl_buf_node first_offset sent ref_block_pos set_ref]. rewrite Hs, msize_nil.
      split; [lia|split; [apply prefix_nil|]]. exists (repl_offset o'), (size o'), (buf o'). unfold used in Ho'. split; [done|split; lia].
    + intros bl' Eb' _. cbn [repl_buffer_blocks set_slave set_slaves set_blocks set_stream].
      rewrite (wb_ref _ _ _ _ _ Hw bl' Eb' Hne). by apply head_geometry.
  - rewrite (wraps_small 64 (first_offset c - offset bl)) by (done || (unfold in_s; lia)).
    rewrite wraps_small by (done || (unfold in_s; lia)). lia.
  - eexists. split_and!; [done|done|done|done].
Qed.

(** ** Replicas that come and go *)

Lemma close_ok base hist due i (st : server R) : wf_at base hist due st -> (i < length (slaves st))%nat ->
  ensures (freeClientAsync i st) (wf_at base hist due).
Proof.
  intros Hw Hi. pose proof Hw as [Hco Hp _]. eapply ensures_mono; [by apply (freeClientAsync_ok base hist due (0, 0))|].
  intros st' (Hco' & Hp' & C & _). eapply wf_after; [done|done|done|apply C|apply C].
Qed.

Lemma free_ok base hist due i (st : server R) : wf_at base hist due st -> (i < length (slaves st))%nat ->
  ensures (freeClient i st) (wf_at base hist due).
Proof.
  intros Hw Hi. pose proof Hw as [Hco Hp _]. eapply ensures_mono; [by apply (freeClient_ok base hist due)|].
  intros st' (Hco' & Hp' & Hr & Hn). by eapply wf_after.
Qed.

Lemma add_slave_ok base hist due c (st : server R) : wf_at base hist due st -> ref_repl_buf_node c = None ->
  wf_but base hist due (length (slaves st)) (set_slaves (slaves st ++ [c]) st).
Proof.
  intros [[(bl & Eb & Ho & B) Hm] Hp Hr] Hc. constructor; [|intros j c' Hj Hc'|done].
  - constructor; [|done]. exists bl. split_and!; try done. eapply buffer_refs; [done|done| |].
    + eapply counted_ext; [|apply (bf_refs _ _ _ _ _ _ _ B)]. intros m. cbn [slaves set_slaves]. rewrite nref_snoc, Hc, hits_other by done. lia.
    + intros j c' m Hj Hr'. cbn [slaves set_slaves] in Hj. apply lookup_app_Some in Hj as [Hj|[_ Hj]]; [by apply (bf_held _ _ _ _ _ _ _ B j c')|].
      apply list_lookup_singleton_Some in Hj as [_ <-]. congruence.
  - cbn [slaves set_slaves repl_buffer_blocks] in *. apply lookup_app_Some in Hc' as [Hc'|[Hle Hc']]; [by apply (Hp j)|].
    apply list_lookup_singleton_Some in Hc' as [? _]. lia.
Qed.

Lemma wf_at_but base hist due i (st : server R) : wf_at base hist due st -> wf_but base hist due i st.
Proof. intros [Hco Hp Hr]. constructor; try done. intros j c _ Hj. by apply (Hp j). Qed.

Lemma but_set_slave base hist due i c c' (st : server R) : wf_but base hist due i st -> slaves st !! i = Some c ->
  ref_repl_buf_node c' = ref_repl_buf_node c -> wf_but base hist due i (set_slave i c' st).
Proof.
  intros [Hco Hp Hr] Hi Er. constructor; [by eapply core_set_slave| |done].
  intros j c1 Hj Hc1. cbn [slaves set_slave set_slaves] in Hc1. rewrite list_lookup_insert_ne in Hc1 by done. by apply (Hp j).
Qed.

(** A replica without a reference is closed. *)
Lemma close_unreferenced base hist due i c (st : server R) :
  wf_but base hist due i st -> slaves st !! i = Some c -> ref_repl_buf_node c = None -> sent c = [] ->
  ensures (freeClientAsync i st) (wf_at base hist due).
Proof.
  intros Hw Hi Hr Hs. assert (i < length (slaves st))%nat as Hlt by by eapply lookup_lt_Some.
  assert (forall c', canFeedReplicaReplBuffer c' = false -> ref_repl_buf_node c' = None -> sent c' = [] ->
    placed base hist due (geometry <$> repl_buffer_blocks st) c') as Hpl.
  { intros c' Hf Hr' Hs'. constructor; [rewrite Hr'; congruence|done|congruence]. }
  unfold freeClientAsync. rewrite Hi. cbn [mbind option_bind]. destruct (close_asap c) eqn:Ec.
  { cbn. eapply wf_but_at; [done|done|]. apply Hpl; try done. unfold canFeedReplicaReplBuffer. rewrite Ec. by repeat case_match. }
  unfold freeReplicaReferencedReplBuffer. set (st1 := set_slave i (set_close c) st).
  assert (slaves st1 !! i = Some (set_close c)) as Hi1 by by apply list_lookup_insert_eq. rewrite Hi1. cbn [mbind option_bind ref_repl_buf_node set_close].
  rewrite Hr. cbn [mbind option_bind ensures].
  assert (wf_but base hist due i st1) as Hw1 by by eapply but_set_slave.
  eapply (wf_but_at _ _ _ i).
  - eapply but_set_slave; [done|done|]. cbn [ref_repl_buf_node set_ref set_close]. congruence.
  - apply list_lookup_insert_eq. by eapply lookup_lt_Some.
  - apply Hpl; [|done|done]. etrans; [|apply (close_not_fed c)]. done.
Qed.

(** A client that asks for synchronization: nothing of the stream was sent to it. *)
Definition candidate (c : replica) : Prop := ref_repl_buf_node c = None /\ sent c = [].

(** The request can be answered from the backlog. *)
Definition can_continue (base : Z) (hist : mem) (id : mem) (off : Z) (st : server R) : bool :=
  (strcasecmp_eq id (replid st) || (strcasecmp_eq id (replid2 st) && (off <=? second_replid_offset st))) &&
  (base + msize hist - msize (text (repl_buffer_blocks st)) + 1 <=? off) && (off <=? base + msize hist + 1).

(** An accepted replica. *)
Definition accepted (off : Z) (c : replica) : replica := set_first off (set_replstate SLAVE_STATE_ONLINE false c).

Lemma accepted_closes base hist off c st : wf base hist st -> ref_repl_buf_node c = None -> sent c = [] ->
  ensures (freeClientAsync (length (slaves st)) (set_slaves (slaves st ++ [accepted off c]) st)) (wf base hist).
Proof.
  intros Hw Hr Hs. eapply (close_unreferenced _ _ _ _ (accepted off c)); [by apply add_slave_ok| |done|done].
  by apply list_lookup_middle.
Qed.

Lemma accepted_starts base hist off bl c st : wf base hist st -> ref_repl_buf_node c = None -> sent c = [] ->
  repl_backlog st = Some bl -> offset bl <= off <= base + msize hist + 1 ->
  ensures (addReplyReplicationBacklog (length (slaves st)) off (set_slaves (slaves st ++ [accepted off c]) st)) (fun '(_, st') =>
    wf base hist st' /\ exists c', slaves st' = slaves st ++ [c'] /\ first_offset c' = off /\ sent c' = [] /\
      (close_asap c = false -> repl_rdbonly c = false -> asm_migrating c = false -> canFeedReplicaReplBuffer c' = true)).
Proof.
  intros Hw Hr Hs Eb Hoff. set (st1 := set_slaves _ st).
  eapply ensures_mono; [apply (addReply_ok base hist (length (slaves st)) (accepted off c) bl st1)|].
  - by apply add_slave_ok.
  - by apply list_lookup_middle.
  - by split_and!.
  - done.
  - done.
  - intros [len st'] (Hw' & _ & c' & Es & Hf & Hfi & Hs'). split; [done|]. exists c'. split_and!; try done.
    + rewrite Es. subst st1. cbn [slaves set_slaves]. rewrite insert_app_r_alt, Nat.sub_diag by lia. done.
    + intros H1 H2 H3. rewrite Hf. unfold canFeedReplicaReplBuffer. cbn. by rewrite H1, H2, H3.
Qed.

Lemma partial_ok base hist id off reply c st :
  wf base hist st -> candidate c ->
  ensures (masterTryPartialResynchronization id off reply c st) (fun '(ok, st') => wf base hist st' /\
    ok = can_continue base hist id off st /\ (ok = false -> st' = st) /\
    (ok = true -> reply = true -> exists c', slaves st' = slaves st ++ [c'] /\ first_offset c' = off /\ sent c' = [] /\
      (close_asap c = false -> repl_rdbonly c = false -> asm_migrating c = false -> canFeedReplicaReplBuffer c' = true))).
Proof.
  intros Hw [Hr Hs]. pose proof Hw as [Hco Hp Href]. pose proof Hco as [(bl & Eb & Ho & B) Hm].
  pose proof (bf_hist _ _ _ _ _ _ _ B) as Hh. pose proof (bf_bound _ _ _ _ _ _ _ B). pose proof (buffer_size _ _ _ _ _ _ _ B).
  assert (i64 (offset bl + histlen bl) = base + msize hist + 1) as He by (rewrite wraps_small by (done || (unfold in_s; lia)); lia).
  unfold masterTryPartialResynchronization, can_continue.
  rewrite Eb, He, !Z.gtb_ltb, <- Ho, (Z.leb_antisym (second_replid_offset st) off), (Z.leb_antisym off), (Z.leb_antisym _ off).
  destruct (strcasecmp_eq id (replid st)), (strcasecmp_eq id (replid2 st)), (second_replid_offset st <? off); cbn [negb andb orb]; try done;
    (destruct (Z.ltb_spec off (offset bl)) as [|Hlo]; cbn [negb andb orb]; [done|]);
    (destruct (Z.ltb_spec (base + msize hist + 1) off) as [|Hhi]; cbn [negb andb orb]; [done|]);
    (destruct reply; cbn [negb];
      [|eapply ensures_bind; [by apply (accepted_closes base hist off)|]; intros st' ?; by cbn]);
    (eapply ensures_bind; [by apply (accepted_starts base hist off bl)|]); intros [len st'] (Hw' & c' & ? & ? & ? & ?); cbn [ensures];
    (split; [done|split; [done|split; [done|]]]); intros _ _; by exists c'.
Qed.

Lemma wf_seldb base hist due n (st : server R) : wf_at base hist due st -> wf_at base hist due (set_seldb n st).
Proof. intros [[Hb Hm] Hp Hr]. constructor; [by constructor|done|done]. Qed.

(** A replica that is told the offset it is to start from. *)
Lemma setup_ok base hist due i c off reply (st : server R) :
  wf_but base hist due i st -> slaves st !! i = Some c ->
  placed base hist due (geometry <$> repl_buffer_blocks st) (set_initial off c) ->
  ensures (replicationSetupSlaveForFullResync i off reply st) (fun st' => wf_at base hist due st' /\
    length (slaves st') = length (slaves st) /\ forall j, j <> i -> slaves st' !! j = slaves st !! j).
Proof.
  intros Hw Hi P. unfold replicationSetupSlaveForFullResync. rewrite Hi. cbn [mbind option_bind]. set (st1 := set_seldb _ (set_slave i _ st)).
  assert (slaves st1 !! i = Some (set_initial off c)) as Hi1 by (apply list_lookup_insert_eq; by eapply lookup_lt_Some).
  assert (wf_at base hist due st1) as Hw1 by (apply wf_seldb; eapply (wf_but_at _ _ _ i); [by eapply but_set_slave|done|done]).
  assert (length (slaves st1) = length (slaves st)) as L1 by apply length_insert.
  assert (forall j, j <> i -> slaves st1 !! j = slaves st !! j) as O1 by (intros j Hj; by apply list_lookup_insert_ne).
  destruct (negb (pre_psync c) && negb reply); [|by cbn].
  pose proof Hw1 as [Hco Hp _].
  eapply ensures_mono; [apply (freeClientAsync_ok base hist due (0, 0)); [done|done|by eapply lookup_lt_Some]|].
  intros st' (Hco' & Hp' & [C1 C2 C3 C4 C5 C6] & _). split; [by eapply wf_after|]. split; [congruence|]. intros j Hj. by rewrite C2, O1.
Qed.

(** A waiting replica is set up at the offset of the snapshot. *)
Lemma placed_initial base hist g c :
  ref_repl_buf_node c = None -> sent c = [] -> placed base hist (base + msize hist + 1) g (set_initial (base + msize hist) c).
Proof. intros Hr Hs. constructor; cbn [ref_repl_buf_node set_initial]; [by rewrite Hr|done|done]. Qed.

Lemma setup_waiting_ok base hist req replies todo (st : server R) :
  wf base hist st -> Forall (fun i => (i < length (slaves st))%nat) todo ->
  ensures (setup_waiting req replies todo st) (wf base hist).
Proof.
  revert st. induction todo as [|i todo IH]; intros st Hw Hlt; cbn [setup_waiting]; [done|]. apply Forall_cons_1 in Hlt as [Hi Hlt].
  destruct (lookup_lt_is_Some_2 _ _ Hi) as [c Hc]. rewrite Hc. cbn [mbind option_bind].
  destruct (Z.eqb_spec (replstate c) SLAVE_STATE_WAIT_BGSAVE_START) as [Es|]; cbn [andb]; [|by apply IH].
  destruct (slave_req c =? req); [|by apply IH]. pose proof Hw as [Hco Hp _].
  destruct (pl_waiting _ _ _ _ _ (Hp i c Hc) Es) as [Hr Hs].
  eapply ensures_bind; [apply (setup_ok base hist (base + msize hist + 1) i c); [by apply wf_at_but|done|]|].
  - unfold getPsyncInitialOffset. rewrite (co_master _ _ _ Hco). by apply placed_initial.
  - intros st' (Hw' & L' & _). apply IH; [done|]. eapply Forall_impl; [done|]. cbn beta. lia.
Qed.

Lemma filter_elem {A} (f : A -> bool) (l : list A) x : x ∈ List.filter f l <-> x ∈ l /\ f x = true.
Proof. rewrite !list_elem_of_In. apply List.filter_In. Qed.

Lemma nref_filter r (f : replica -> bool) sl m : (forall c, c ∈ sl -> f c = false -> ref_repl_buf_node c = None) ->
  nref r (List.filter f sl) m = nref r sl m.
Proof.
  unfold nref. induction sl as [|c sl IH]; intros Hf; [done|]. cbn [List.filter].
  assert (forall c, c ∈ sl -> f c = false -> ref_repl_buf_node c = None) as Hf' by (intros c' Hc'; apply Hf; apply elem_of_cons; by right).
  specialize (IH Hf'). destruct (f c) eqn:E; cbn [foldr]; [lia|].
  rewrite (hits_other (ref_repl_buf_node c)) by (rewrite Hf; [done|apply elem_of_cons; by left|done]). lia.
Qed.

(** The snapshot could not be started. *)
Lemma drop_waiting_ok base hist due (st : server R) : wf_at base hist due st ->
  wf_at base hist due (set_slaves (List.filter (fun c => negb (replstate c =? SLAVE_STATE_WAIT_BGSAVE_START)) (slaves st)) st).
Proof.
  intros [[(bl & Eb & Ho & B) Hm] Hp Hr].
  assert (forall i c, List.filter (fun c => negb (replstate c =? SLAVE_STATE_WAIT_BGSAVE_START)) (slaves st) !! i = Some c ->
    exists j, slaves st !! j = Some c) as Hin.
  { intros i c Hi%list_elem_of_lookup_2. apply filter_elem in Hi as [Hi _]. by apply list_elem_of_lookup in Hi. }
  constructor; [|intros i c Hi; by apply Hin in Hi as [j Hj]; apply (Hp j)|done]. constructor; [|done]. exists bl. split_and!; try done.
  eapply buffer_refs; [done|done| |].
  - eapply counted_ext; [|apply (bf_refs _ _ _ _ _ _ _ B)]. intros m. cbn [slaves set_slaves]. apply nref_filter.
    intros c [i Hi]%list_elem_of_lookup E%negb_false_iff%Z.eqb_eq. by apply (pl_waiting _ _ _ _ _ (Hp i c Hi)).
  - intros i c m Hi Hc. apply Hin in Hi as [j Hj]. by apply (bf_held _ _ _ _ _ _ _ B j c).
Qed.

Lemma start_ok base hist req started replies (st : server R) : wf base hist st ->
  ensures (startBgsaveForReplication req started replies st) (wf base hist).
Proof.
  intros Hw. unfold startBgsaveForReplication. destruct started; [|by apply drop_waiting_ok].
  apply setup_waiting_ok; [done|]. apply Forall_forall. intros i [_ Hi]%elem_of_seq. lia.
Qed.

(** The replica [s] gives its place to the replica [d]. *)
Lemma copy_ok base hist i j s d reply (st : server R) :
  wf base hist st -> slaves st !! j = Some s -> slaves st !! i = Some d -> ref_repl_buf_node d = None -> sent d = [] ->
  replstate s = SLAVE_STATE_WAIT_BGSAVE_END -> canFeedReplicaReplBuffer s = true ->
  ensures (st ← copyReplicaOutputBuffer i j st; replicationSetupSlaveForFullResync i (psync_initial_offset s) reply st) (wf base hist).
Proof.
  intros Hw Hj Hi Hr Hs E7 Hf. pose proof Hw as [Hco Hp Href]. pose proof (Hp j s Hj) as P.
  destruct (pl_snapshot _ _ _ _ _ P E7 Hf) as [Hss Hsf]. unfold copyReplicaOutputBuffer. rewrite Hj, Hi. cbn [mbind option_bind].
  destruct (ref_repl_buf_node s) as [m|] eqn:Er.
  - destruct P as [P1 _ _]. rewrite Er in P1. destruct P1 as (Hfi & _ & off & sz & b & Hin & Hpos & Hoff).
    destruct (take_ref_ok base hist i d m (ref_block_pos s) st _ Hco Hi Hr Hin eq_refl) as (l' & El & Eg & Hco').
    rewrite El. cbn [mbind option_bind]. set (st1 := set_slave i _ _) in *.
    assert (geometry <$> repl_buffer_blocks st1 = geometry <$> repl_buffer_blocks st) as Eg1 by done.
    assert (wf_but base hist (base + msize hist + 1) i st1) as Hw1.
    { constructor; [done| |].
      - intros k c Hk Hc. rewrite Eg1. subst st1. cbn [slaves set_slave set_slaves] in Hc. rewrite list_lookup_insert_ne in Hc by done. by apply (Hp k).
      - intros bl Eb Hne. subst st1. cbn [repl_buffer_blocks set_slave set_slaves set_blocks set_stream] in *. rewrite (Href bl Eb); [by apply head_geometry|].
        intros E. rewrite E in Hin. by apply not_elem_of_nil in Hin. }
    assert (slaves st1 !! i = Some (set_ref (Some m) (ref_block_pos s) d)) as Hi1 by (apply list_lookup_insert_eq; by eapply lookup_lt_Some).
    eapply ensures_mono; [eapply (setup_ok base hist (base + msize hist + 1) i _ (psync_initial_offset s) reply st1 Hw1 Hi1)|by intros st' [? _]].
    rewrite Eg1. constructor; cbn [ref_repl_buf_node set_initial set_ref first_offset sent ref_block_pos psync_initial_offset]; [|done|done].
    rewrite Hs, msize_nil. rewrite Hss, msize_nil, Hsf in Hoff. split; [lia|split; [apply prefix_nil|]]. exists off, sz, b. split; [done|split; [done|lia]].
  - cbn [mbind option_bind]. destruct P as [P1 _ _]. rewrite Er in P1. destruct (P1 Hf) as [_ Hfi].
    assert (psync_initial_offset s = base + msize hist) as -> by lia.
    eapply ensures_mono; [apply (setup_ok base hist (base + msize hist + 1) i d); [by apply wf_at_but|done|by apply placed_initial]|by intros st' [? _]].
Qed.

(** The replica that [c] would be attached to is not being closed. *)
Definition attachable (c : replica) (st : server R) : Prop := repl_rdbonly c = false ->
  forall j s, list_find (has_snapshot c) (slaves st) = Some (j, s) -> canFeedReplicaReplBuffer s = true.

Lemma full_ok base hist newid bgsave reply c (st : server R) :
  wf base hist st -> candidate c -> attachable c st ->
  ensures (fullSync newid bgsave reply c st) (wf base hist).
Proof.
  intros Hw [Hr Hs] Ha. unfold fullSync. set (c0 := set_replstate _ _ c). set (st1 := set_slaves _ st). set (i := length (slaves st)).
  assert (slaves st1 !! i = Some c0) as Hi by by apply list_lookup_middle.
  assert (wf base hist st1) as Hw1.
  { eapply (wf_but_at _ _ _ i); [by apply add_slave_ok|done|]. assert (canFeedReplicaReplBuffer c0 = false) as Hf
      by (unfold canFeedReplicaReplBuffer; cbn; by repeat case_match). constructor; [|done|congruence].
    change (ref_repl_buf_node c0) with (ref_repl_buf_node c). rewrite Hr. congruence. }
  pose proof (wa_core _ _ _ _ Hw1) as [(bl & Eb & _) _]. unfold createReplicationBacklogIfNeeded. rewrite Eb. cbn [mbind option_bind].
  destruct bgsave; [|done]. destruct (list_find (has_snapshot c0) (slaves st1)) as [[j s]|] eqn:Ef; [|done].
  apply list_find_Some in Ef as (Hj & [E7 Hrd] & Hb). destruct (compatible c0 s); [|done].
  assert (j < length (slaves st))%nat as Hlt.
  { pose proof (lookup_lt_Some _ _ _ Hj) as Hl. subst st1. cbn [slaves set_slaves] in *. rewrite length_app in Hl. cbn [length] in Hl.
    destruct (decide (j = i)) as [->|]; [|subst i; lia]. rewrite Hi in Hj. by injection Hj as <-. }
  change (repl_rdbonly c0) with (repl_rdbonly c) in *. destruct (repl_rdbonly c) eqn:Ec.
  - cbn [mbind option_bind]. eapply ensures_mono; [apply (setup_ok base hist (base + msize hist + 1) i c0); [by apply wf_at_but|done|]|by intros st' [? _]].
    assert (canFeedReplicaReplBuffer (set_initial (psync_initial_offset s) c0) = false) as Hf
      by (unfold canFeedReplicaReplBuffer; cbn; by rewrite Ec). constructor; [|done|congruence].
    change (ref_repl_buf_node (set_initial _ c0)) with (ref_repl_buf_node c). rewrite Hr. congruence.
  - eapply (copy_ok base hist i j s c0); try done. apply (Ha Ec j s). apply list_find_Some.
    split; [|split; [split; [done|destruct Hrd; [by left|done]]|]].
    + by rewrite <- (lookup_app_l _ [c0]) by done.
    + intros k y Hlk Hk [Hy1 Hy2]. apply (Hb k y); [by apply lookup_app_l_Some|done|]. by split.
Qed.

Lemma sync_ok base hist psync newid bgsave reply c (st : server R) :
  wf base hist st -> candidate c -> attachable c st ->
  ensures (syncCommand psync newid bgsave reply c st) (wf base hist).
Proof.
  intros Hw Hc Ha. unfold syncCommand. destruct psync as [[id off]|]; [|by apply full_ok].
  eapply ensures_bind; [by apply (partial_ok base hist id off reply c st)|]. intros [ok st'] (Hw' & _ & Hrej & _).
  destruct ok; [done|]. rewrite (Hrej eq_refl). by apply full_ok.
Qed.

Lemma state_ok base hist due i c state on_ack (st : server R) :
  wf_at base hist due st -> slaves st !! i = Some c -> canFeedReplicaReplBuffer (set_replstate state on_ack c) = canFeedReplicaReplBuffer c \/
    canFeedReplicaReplBuffer (set_replstate state on_ack c) = false ->
  (state = replstate c \/ (state <> SLAVE_STATE_WAIT_BGSAVE_START /\ state <> SLAVE_STATE_WAIT_BGSAVE_END)) ->
  wf_at base hist due (set_slave i (set_replstate state on_ack c) st).
Proof.
  intros Hw Hi Hf Hst. eapply wf_set_slave; [done|done|done|]. destruct (wa_placed _ _ _ _ Hw i c Hi) as [P1 P2 P3].
  constructor; cbn [ref_repl_buf_node set_replstate sent first_offset ref_block_pos replstate psync_initial_offset].
  - destruct (ref_repl_buf_node c); [done|]. intros Hc. apply P1. destruct Hf; congruence.
  - intros Hs. apply P2. destruct Hst as [|[]]; congruence.
  - intros Hs Hc. apply P3; destruct Hf, Hst as [|[]]; congruence.
Qed.

(** ** Any sequence of operations *)

Context (zmalloc_usable : Z -> Z) (usable_enough : forall n, n <= zmalloc_usable n).

Inductive op :=
| feeds (limits : replica -> Z -> bool) (s : mem)
| writes (i : nat) (ns : list Z)
| closes (i : nat)
| frees (i : nat)
| syncs (psync : option (mem * Z)) (newid : mem) (bgsave reply : bool) (c : replica)
| saves (req : Z) (started : bool) (replies : nat -> bool)
| puts_online (i : nat)
| starts_stream (i : nat)
| trims (n : nat)
| resizes (n : Z).

Definition exec (o : op) (st : server R) : option (server R) :=
  match o with
  | feeds limits s => feedReplicationBuffer zmalloc_usable limits s st
  | writes i ns => writeToClient ns i st
  | closes i => freeClientAsync i st
  | frees i => freeClient i st
  | syncs psync newid bgsave reply c => syncCommand psync newid bgsave reply c st
  | saves req started replies => startBgsaveForReplication req started replies st
  | puts_online i => replicaPutOnline i st
  | starts_stream i => replicaStartCommandStream i st
  | trims n => incrementalTrimReplicationBacklog n st
  | resizes n => resizeReplicationBacklog n st
  end.

Fixpoint run_ops (ops : list op) (st : server R) : option (server R) :=
  match ops with
  | [] => Some st
  | o :: ops => st ← exec o st; run_ops ops st
  end.

(** When the server does these things: a replica is there, it is written to once it is to
    receive the stream, it is put online when its snapshot is there; a new replica has got
    nothing, and is not attached to one that is being closed; a block fits in the backlog. *)
Definition legal (o : op) (st : server R) : Prop :=
  match o with
  | feeds _ _ => roomy zmalloc_usable st
  | writes i _ => exists c, slaves st !! i = Some c /\ receives c = true
  | closes i | frees i => (i < length (slaves st))%nat
  | syncs _ _ _ _ c => candidate c /\ attachable c st
  | puts_online i => exists c, slaves st !! i = Some c /\ replstate c = SLAVE_STATE_WAIT_BGSAVE_END
  | starts_stream i => exists c, slaves st !! i = Some c /\ repl_rdbonly c = false
  | saves _ _ _ | trims _ | resizes _ => True
  end.

Fixpoint legal_run (ops : list op) (st : server R) : Prop :=
  match ops with
  | [] => True
  | o :: ops => legal o st /\ match exec o st with Some st => legal_run ops st | None => True end
  end.

(** The bytes that were fed. *)
Definition fed_by (ops : list op) : mem :=
  concat ((fun o => match o with feeds _ s => s | _ => [] end) <$> ops).

Lemma wf_resize base hist due n (st : server R) : wf_at base hist due st -> wf_at base hist due (set_backlog_size n st).
Proof. intros [[Hb Hm] Hp Hr]. constructor; [by constructor|done|done]. Qed.

Lemma exec_ok base hist o st :
  wf base hist st -> legal o st -> base + msize hist + msize (fed_by [o]) + 1 < 2 ^ 63 ->
  ensures (exec o st) (fun st' => wf base (hist ++ fed_by [o]) st').
Proof.
  intros Hw Hl Hb. unfold fed_by in *. cbn [fmap list_fmap concat] in *. rewrite app_nil_r in *.
  destruct o; cbn [exec legal] in *; rewrite ?app_nil_r.
  - eapply ensures_mono; [by apply (feed_ok zmalloc_usable usable_enough base hist)|]. by intros st' [? _].
  - by apply writeToClient_ok.
  - by apply close_ok.
  - by apply free_ok.
  - apply sync_ok; [done|apply Hl|apply Hl].
  - by apply start_ok.
  - destruct Hl as (c & Hc & E7). unfold replicaPutOnline. rewrite Hc. cbn [mbind option_bind].
    destruct (repl_rdbonly c) eqn:Er; [|destruct (asm_migrating c) eqn:Ea; [done|]]; cbn [ensures]; (eapply state_ok; [done|done| |by right]).
    + right. unfold canFeedReplicaReplBuffer. cbn. by rewrite Er.
    + left. unfold canFeedReplicaReplBuffer. cbn. by rewrite E7, Er, Ea.
  - destruct Hl as (c & Hc & Er). unfold replicaStartCommandStream. rewrite Hc. cbn [mbind option_bind]. rewrite Er.
    cbn [negb cassert mbind option_bind ensures]. eapply state_ok; [done|done|by left|by left].
  - eapply ensures_mono; [by apply (wf_trim base hist)|]. by intros st' [? _].
  - unfold resizeReplicationBacklog. generalize REPL_BACKLOG_TRIM_BLOCKS_PER_CALL as k64. intros k64. set (st1 := if _ <? _ then _ else _).
    assert (wf base hist st1) as Hw1 by (subst st1; case_match; repeat apply wf_resize; done).
    destruct (repl_backlog st1); [|done]. eapply ensures_mono; [by apply (wf_trim base hist)|]. by intros st' [? _].
Qed.

Lemma run_ok base hist ops st :
  wf base hist st -> legal_run ops st -> base + msize hist + msize (fed_by ops) + 1 < 2 ^ 63 ->
  ensures (run_ops ops st) (wf base (hist ++ fed_by ops)).
Proof.
  revert hist st. induction ops as [|o ops IH]; intros hist st Hw Hl Hb; cbn [run_ops].
  { unfold fed_by. cbn. by rewrite app_nil_r. }
  assert (fed_by (o :: ops) = fed_by [o] ++ fed_by ops) as Ef by (unfold fed_by; cbn; by rewrite app_nil_r).
  rewrite Ef, msize_app in *. destruct Hl as [Hl Hn]. pose proof (msize_nonneg (fed_by ops)).
  pose proof (exec_ok base hist o st Hw Hl ltac:(lia)) as He. destruct (exec o st) as [st'|]; [|done]. cbn [ensures mbind option_bind] in *.
  rewrite app_assoc. apply IH; [done|done|]. rewrite msize_app. lia.
Qed.

(** A server without replicas whose backlog is created. *)
Record blank (st : server R) : Prop := {
  bk_backlog : repl_backlog st = None;
  bk_blocks : repl_buffer_blocks st = [];
  bk_mem : repl_buffer_mem st = 0;
  bk_slaves : slaves st = [];
  bk_offset : 0 <= master_repl_offset st < 2 ^ 63 - 1
}.

Lemma create_ok st st' : blank st -> createReplicationBacklog st = Some st' -> wf (master_repl_offset st) [] st'.
Proof.
  intros [E1 E2 E3 E4 E5]. unfold createReplicationBacklog. rewrite E1. intros [= <-].
  assert (i64 (master_repl_offset st + 1) = master_repl_offset st + 1) as Ei by (apply wraps_small; [done|unfold in_s; lia]).
  constructor.
  - constructor; [|cbn; rewrite msize_nil; lia]. eexists. split; [done|]. cbn [offset repl_buffer_blocks set_backlog set_stream slaves repl_buffer_mem repl_block_id].
    rewrite E2, E3, E4, Ei. rewrite size_text_nil, msize_nil. split; [lia|]. constructor; cbn [histlen bl_ref_repl_buf_node blocks_index]; try done.
    + rewrite ?msize_nil; lia.
    + by exists [].
    + by left.
    + intros k v Hk. rewrite rax_new in Hk. by apply not_elem_of_nil in Hk.
  - intros i c Hi. cbn [slaves set_backlog set_stream] in Hi. by rewrite E4 in Hi.
  - intros bl _ Hne. cbn [repl_buffer_blocks set_backlog set_stream] in Hne. by rewrite E2 in Hne.
Qed.

(** What a server with a backlog comes to. *)
Lemma reachable_ok st0 st1 ops : blank st0 -> createReplicationBacklog st0 = Some st1 -> legal_run ops st1 ->
  master_repl_offset st0 + msize (fed_by ops) + 1 < 2 ^ 63 ->
  exists st, run_ops ops st1 = Some st /\ wf (master_repl_offset st0) (fed_by ops) st.
Proof.
  intros Hb Hc Hl Hm. apply create_ok in Hc; [|done]. apply ensures_Some, (run_ok _ [] ops st1 Hc Hl). rewrite msize_nil. lia.
Qed.

End stream.

(** C3: a server whose backlog was created at some offset, and that then feeds bytes, writes
    to its replicas, loses some and gets others by partial or full synchronization, starts
    snapshots, trims and resizes its backlog, in any order, never fails: no block is used
    after it was freed and no assertion fails.  The memory it accounts for is that of its
    blocks, and for every replica that is fed, what was sent to it and what is still to be
    sent are together the stream from the offset it started at: the one it asked for, or
    the one after that of its snapshot.  (A block must fit in the backlog, and a replica
    must not be attached to one that is being closed.) *)
Theorem replication_stream_delivered {R : Type} `{HR : Rax R} `{!RaxLaws R} (zmalloc_usable : Z -> Z) (st0 st1 : server R) ops :
  (forall n, n <= zmalloc_usable n) -> blank st0 -> createReplicationBacklog st0 = Some st1 -> legal_run zmalloc_usable ops st1 ->
  master_repl_offset st0 + msize (fed_by ops) + 1 < 2 ^ 63 ->
  exists st, run_ops zmalloc_usable ops st1 = Some st /\ master_repl_offset st = master_repl_offset st0 + msize (fed_by ops) /\
    repl_buffer_mem st = mem_of (repl_buffer_blocks st) /\
    forall i c, slaves st !! i = Some c -> canFeedReplicaReplBuffer c = true ->
      master_repl_offset st0 + 1 <= first_offset c /\
      sent c ++ unsent c st = drop (Z.to_nat (first_offset c - master_repl_offset st0 - 1)) (fed_by ops).
Proof.
  intros Hu Hb Hc Hl Hm. destruct (reachable_ok zmalloc_usable Hu st0 st1 ops Hb Hc Hl Hm) as (st & -> & Hw).
  exists st. pose proof Hw as [Hco Hp _]. split_and!; [done|apply Hco| |].
  - destruct Hco as [(bl & _ & _ & B) _]. apply B.
  - intros i c Hi. by apply (placed_delivers _ _ st i c Hco Hi (Hp i c Hi)).
Qed.

(** C4: a request for a partial synchronization is accepted just when the identifier is the
    server's, or its former one and the offset was in that history, and the offset is in the
    backlog or is the next one.  A replica that is accepted is then to be sent the stream
    from that offset on, to its end; a request that is refused changes nothing. *)
Theorem partial_resynchronization {R : Type} `{HR : Rax R} `{!RaxLaws R} (zmalloc_usable : Z -> Z) (st0 st1 : server R) ops id off c :
  (forall n, n <= zmalloc_usable n) -> blank st0 -> createReplicationBacklog st0 = Some st1 -> legal_run zmalloc_usable ops st1 ->
  master_repl_offset st0 + msize (fed_by ops) + 1 < 2 ^ 63 ->
  candidate c -> close_asap c = false -> repl_rdbonly c = false -> asm_migrating c = false ->
  exists st bl ok st', run_ops zmalloc_usable ops st1 = Some st /\ repl_backlog st = Some bl /\
    masterTryPartialResynchronization id off true c st = Some (ok, st') /\
    ok = (strcasecmp_eq id (replid st) || (strcasecmp_eq id (replid2 st) && (off <=? second_replid_offset st))) &&
         (offset bl <=? off) && (off <=? master_repl_offset st + 1) /\
    (ok = false -> st' = st) /\
    (ok = true -> exists c', slaves st' = slaves st ++ [c'] /\ sent c' = [] /\
       unsent c' st' = drop (Z.to_nat (off - master_repl_offset st0 - 1)) (fed_by ops)).
Proof.
  intros Hu Hb Hc Hl Hm Hcand H1 H2 H3. destruct (reachable_ok zmalloc_usable Hu st0 st1 ops Hb Hc Hl Hm) as (st & -> & Hw).
  destruct (ensures_Some _ _ (partial_ok _ _ id off true c st Hw Hcand)) as ([ok st'] & E & Hw' & Eok & Hrej & Hacc).
  pose proof (wa_core _ _ _ _ Hw) as [(bl & Eb & Ho & B) Hm'].
  exists st, bl, ok, st'. split_and!; try done.
  - rewrite Eok. unfold can_continue. by rewrite Ho, Hm'.
  - intros ->. destruct (Hacc eq_refl eq_refl) as (c' & Es & Hfi & Hs & Hf). exists c'. split_and!; try done.
    pose proof Hw' as [Hco' Hp' _]. assert (slaves st' !! length (slaves st) = Some c') as Hi by (rewrite Es; by apply list_lookup_middle).
    destruct (placed_delivers _ _ st' _ c' Hco' Hi (Hp' _ _ Hi) (Hf H1 H2 H3)) as [_ E']. by rewrite Hs, Hfi in E'.
Qed.

(** C20: a replica that asks for a full synchronization while a snapshot is being written is
    attached to a replica that waits for this snapshot even when that one is being closed
    and has given up its place in the buffer: the new replica is told the offset of the
    snapshot, but is not to be sent anything of what was fed since. *)
Theorem attached_to_closing_replica {R : Type} `{HR : Rax R} newid j s c (st : server R) :
  candidate c -> repl_rdbonly c = false -> is_Some (repl_backlog st) ->
  list_find (has_snapshot c) (slaves st) = Some (j, s) -> compatible c s = true -> close_asap s = true -> ref_repl_buf_node s = None ->
  exists st' c', fullSync newid true true c st = Some st' /\ slaves st' = slaves st ++ [c'] /\
    first_offset c' = psync_initial_offset s + 1 /\ master_repl_offset st' = master_repl_offset st /\
    canFeedReplicaReplBuffer c' = canFeedReplicaReplBuffer (set_replstate SLAVE_STATE_WAIT_BGSAVE_END false c) /\
    sent c' ++ unsent c' st' = [].
Proof.
  intros [Hr Hs] Hrd [bl Eb] Hf Hcomp Hcl Hrs. unfold fullSync, createReplicationBacklogIfNeeded. cbn [repl_backlog set_slaves]. rewrite Eb.
  cbn [mbind option_bind]. set (c0 := set_replstate _ _ c). set (st1 := set_slaves _ st).
  assert (list_find (has_snapshot c0) (slaves st1) = Some (j, s)) as Ef1.
  { apply list_find_Some in Hf as (Hj & Hh & Hb). apply list_find_Some. split; [by apply lookup_app_l_Some|]. split; [done|].
    intros k y Hk Hlt. apply (Hb k y); [|done]. subst st1. cbn [slaves set_slaves] in Hk.
    rewrite lookup_app_l in Hk by (apply lookup_lt_Some in Hj; lia). done. }
  rewrite Ef1. change (compatible c0 s) with (compatible c s). rewrite Hcomp. change (repl_rdbonly c0) with (repl_rdbonly c). rewrite Hrd.
  apply list_find_Some in Ef1 as (Hj & _ & _). unfold copyReplicaOutputBuffer. rewrite Hj.
  assert (slaves st1 !! length (slaves st) = Some c0) as Hi by by apply list_lookup_middle. rewrite Hi. cbn [mbind option_bind]. rewrite Hrs.
  cbn [mbind option_bind]. unfold replicationSetupSlaveForFullResync. rewrite Hi. cbn [mbind option_bind]. rewrite andb_false_r.
  eexists _, (set_initial (psync_initial_offset s) c0). split; [done|]. split_and!; try done.
  - subst st1. cbn [slaves set_seldb set_slave set_slaves]. rewrite insert_app_r_alt, Nat.sub_diag by lia. done.
  - unfold unsent. cbn [ref_repl_buf_node set_initial c0 set_replstate sent]. by rewrite Hr, Hs.
Qed.

(** ** A backlog that is smaller than a block *)

(** What a step of feeding does when its first bytes fill the only block, and the next block
    is larger than the backlog. *)
Section unroomy.
Context {R : Type} `{HR : Rax R} `{!RaxLaws R} (zmalloc_usable : Z -> Z) (limits : replica -> Z -> bool).
Context (base : Z) (hist : mem) (st : server R) (s : mem) (o : replBufBlock).
Let room : Z := size o - used o.
Let sz : Z := block_size zmalloc_usable (msize s - room) st.
Context (Hco : core base hist st) (Hl : repl_buffer_blocks st = [o]) (Hu : used o < size o).
Context (Hsz : 0 < sz) (Hs : room + sz <= msize s) (Hmax : base + msize hist + msize s + 1 < 2 ^ 63).

Let o1 : replBufBlock := append_buf (take (Z.to_nat room) s) o.
Let o2 : replBufBlock := mk_block 0 (repl_block_id st) (repl_offset o + size o) sz (take (Z.to_nat sz) (drop (Z.to_nat room) s)).

Lemma unroomy_append bl : repl_backlog st = Some bl -> bl_ref_repl_buf_node bl = Some (id o) ->
  exists st1 bl1, append_bytes zmalloc_usable s st = Some (drop (Z.to_nat sz) (drop (Z.to_nat room) s), (id o, used o), true, st1) /\
    repl_buffer_blocks st1 = [o1; o2] /\ slaves st1 = slaves st /\ repl_backlog_size st1 = repl_backlog_size st /\
    repl_backlog st1 = Some bl1 /\ bl_ref_repl_buf_node bl1 = Some (id o) /\ histlen bl1 = size o + sz.
Proof using All.
  intros Eb Er. pose proof Hco as [(bl0 & Eb0 & _ & B) Hm]. rewrite Eb in Eb0. injection Eb0 as <-. rewrite Hl in B.
  pose proof (bf_chain _ _ _ _ _ _ _ B) as (Hid & Hoff & Hu1 & _). pose proof (bf_bound _ _ _ _ _ _ _ B) as [Hb0 _].
  pose proof (bf_hist _ _ _ _ _ _ _ B) as Hh. rewrite size_text_cons, size_text_nil, Z.add_0_r in Hh, Hoff.
  pose proof (buffer_size _ _ _ _ _ _ _ B) as Hts. rewrite size_text_cons, size_text_nil, Z.add_0_r in Hts.
  unfold append_bytes. rewrite Eb. cbn [mbind option_bind]. unfold append_tail. rewrite Hl. cbn [last].
  rewrite Z.gtb_ltb, (proj2 (Z.ltb_lt _ _) Hu). cbv zeta. fold room.
  assert ((if room >=? msize s then msize s else room) = room) as Ec by (destruct (Z.geb_spec room (msize s)); lia).
  rewrite Ec. cbn [length Nat.sub take app]. fold o1.
  assert (msize (drop (Z.to_nat room) s) = msize s - room) as Es1 by (unfold msize in *; rewrite length_drop; lia).
  set (s1 := drop (Z.to_nat room) s) in *. set (st0 := add_history room _ _ bl st).
  change (repl_backlog st0) with (Some (mk_backlog (bl_ref_repl_buf_node bl) (unindexed_count bl) (blocks_index bl) (i64 (histlen bl + room)) (offset bl))).
  cbn [mbind option_bind default]. unfold append_block.
  assert (block_size zmalloc_usable (msize s1) st0 = sz) as Esz by by rewrite Es1. rewrite Esz.
  assert ((if sz >=? msize s1 then msize s1 else sz) = sz) as Ec2 by (destruct (Z.geb_spec sz (msize s1)); lia). cbv zeta. rewrite Ec2.
  change (master_repl_offset st0) with (i64 (master_repl_offset st + room)). rewrite Hm.
  rewrite (wraps_small 64 (base + msize hist + room)), (wraps_small 64 (base + msize hist + room + 1)) by (first [done|unfold in_s; lia]).
  replace (base + msize hist + room + 1) with (repl_offset o + size o) by lia.
  change (repl_block_id st0) with (repl_block_id st). fold o2. destruct s1 as [|x s1'] eqn:E1; [exfalso; rewrite msize_nil in Es1; lia|].
  eexists _, _. split; [reflexivity|]. split; [done|]. split; [done|]. split; [done|]. split; [reflexivity|]. split; [done|].
  cbn [histlen]. rewrite Hh. rewrite (wraps_small 64 (used o + room)) by (first [done|unfold in_s; lia]).
  rewrite wraps_small by (first [done|unfold in_s; lia]). lia.
Qed.

(** The replica is closed, and the block that nobody else reads is freed. *)
Lemma unroomy_close st1 bl1 c1 rest :
  repl_buffer_blocks st1 = [o1; o2] -> repl_backlog st1 = Some bl1 -> bl_ref_repl_buf_node bl1 = Some (id o) -> histlen bl1 = size o + sz ->
  slaves st1 = c1 :: rest -> close_asap c1 = false -> ref_repl_buf_node c1 = Some (id o) -> refcount o = 2 -> id o + 1 = repl_block_id st ->
  repl_backlog_size st1 < sz -> size o + sz < 2 ^ 63 -> limits c1 (size o + sz + 128) = true ->
  exists st2 c, closeClientOnOutputBufferLimitReached limits 0 st1 = Some st2 /\ repl_buffer_blocks st2 = [incr_ref o2] /\
    slaves st2 = c :: rest.
Proof using Hsz Hs Hu.
  intros E1 Eb Er Hh Esl Ecl Erc H2 Hid Hbig Hmx Hlim. clear Hmax Hco.
  assert (exists k, REPL_BACKLOG_TRIM_BLOCKS_PER_CALL = S (S k)) as [k Ek] by by exists 62%nat.
  unfold closeClientOnOutputBufferLimitReached, freeClientAsync, freeReplicaReferencedReplBuffer. rewrite Ek. clear Ek. rewrite Esl. cbn [lookup list_lookup mbind option_bind].
  assert (0 < size o) as H0 by (pose proof (msize_nonneg (buf o)); unfold used in Hu; lia).
  assert (used o1 = size o) as U1 by (unfold o1, used; cbn [buf append_buf]; rewrite msize_app; unfold msize at 2; rewrite length_take; unfold used, msize in *; lia).
  assert (id o1 = id o /\ refcount o1 = 2 /\ size o1 = size o /\ repl_offset o1 = repl_offset o) as (I1 & F1 & Z1 & P1) by done.
  assert (id o2 = id o + 1 /\ size o2 = sz /\ repl_offset o2 = repl_offset o + size o) as (I2 & Z2 & P2) by done.
  clearbody sz o1 o2.
  assert (node_value (id o) [o1; o2] = Some o1) as Hv by (unfold node_value; cbn [from_node]; by rewrite I1, Z.eqb_refl).
  assert (node_update (id o) decr_ref [o1; o2] = Some [decr_ref o1; o2]) as Hd by (cbn [node_update]; by rewrite I1, Z.eqb_refl).
  rewrite Ecl. unfold getClientOutputBufferMemoryUsage. rewrite Erc, E1. cbn [last mbind option_bind]. rewrite Hv. cbn [mbind option_bind].
  rewrite I1, I2, Z2, P1, P2. change (sizeof_listNode + sizeof_replBufBlock) with 64.
  replace (repl_offset o + size o + sz - repl_offset o + 64 * (id o + 1 - id o + 1)) with (size o + sz + 128) by lia.
  rewrite Hlim. cbn [slaves set_slave set_slaves]. rewrite Esl. cbn [insert list_insert lookup list_lookup mbind option_bind].
  cbn [ref_repl_buf_node set_close]. rewrite Erc. cbn [repl_buffer_blocks set_slave set_slaves]. rewrite E1, Hv. cbn [mbind option_bind].
  rewrite F1. change (2 >? 0) with true. cbn [cassert mbind option_bind]. rewrite Hd. cbn [mbind option_bind].
  unfold incrementalTrimReplicationBacklog. cbn [repl_backlog set_blocks set_stream set_slave set_slaves]. rewrite Eb. cbn [mbind option_bind].
  cbn [repl_backlog_size repl_buffer_mem repl_buffer_blocks set_blocks set_stream set_slave set_slaves].
  cbn [trim_loop]. rewrite Hh.
  replace (size o + sz >? repl_backlog_size st1) with true by lia. rewrite Er. change (id (decr_ref o1)) with (id o1). rewrite I1.
  rewrite (bool_decide_eq_true_2 _ eq_refl). cbn [cassert mbind option_bind]. change (refcount (decr_ref o1)) with (refcount o1 - 1). rewrite F1.
  change (2 - 1 =? 1) with true. cbn [negb]. change (size (decr_ref o1)) with (size o1). rewrite Z1.
  rewrite (wraps_small 64 (size o + sz - size o)) by (first [done|unfold in_s; lia]).
  replace (size o + sz - size o <=? repl_backlog_size st1) with false by lia.
  change (used (decr_ref o1)) with (used o1). rewrite U1, (Z.eqb_refl (size o)). change ((2 - 1 - 1 =? 0) && true) with true. cbn [cassert mbind option_bind].
  destruct (_ >? _); cbn [mbind option_bind]; eexists _, _; (split; [reflexivity|]); (split; [reflexivity|]);
    cbn [slaves set_slave set_slaves set_stream set_blocks]; rewrite Esl; reflexivity.
Qed.

End unroomy.

(** It happens in any state of the invariant. *)
Lemma large_block_freed {R : Type} `{HR : Rax R} `{!RaxLaws R} (zmalloc_usable : Z -> Z) limits base hist (st : server R) s o c1 c2 rest :
  (forall n, n <= zmalloc_usable n) -> core base hist st -> has_ref st -> repl_buffer_blocks st = [o] -> used o < size o ->
  slaves st = c1 :: c2 :: rest -> canFeedReplicaReplBuffer c1 = true -> ref_repl_buf_node c1 = Some (id o) ->
  canFeedReplicaReplBuffer c2 = true -> ref_repl_buf_node c2 = None -> Forall (fun c => ref_repl_buf_node c <> Some (id o)) rest ->
  let room := size o - used o in
  let sz := block_size zmalloc_usable (msize s - room) st in
  repl_backlog_size st < sz -> room + sz <= msize s -> base + msize hist + msize s + 1 < 2 ^ 63 ->
  limits c1 (size o + sz + 128) = true ->
  exists s' st1 st2, append_bytes zmalloc_usable s st = Some (s', (id o, used o), true, st1) /\
    feed_slaves limits (id o, used o) true [0%nat] st1 = Some st2 /\ slaves st2 !! 1%nat = Some c2 /\
    node_value (id o) (repl_buffer_blocks st2) = None /\
    feedReplicationBuffer zmalloc_usable limits s st = None.
Proof.
  intros Hz Hco Href Hl Hu Esl Hf1 Hr1 Hf2 Hr2 Hrest room sz Hbig Hs Hmax Hlim.
  pose proof (block_size_pos zmalloc_usable Hz (msize s - room) st : 0 < sz) as Hsz.
  pose proof Hco as [(bl & Eb & _ & B) _]. pose proof B as B'. rewrite Hl in B'.
  pose proof (bf_chain _ _ _ _ _ _ _ B') as (Hid & _ & Hu1 & _). cbn [length] in Hid.
  pose proof (buffer_size _ _ _ _ _ _ _ B') as Hts. rewrite size_text_cons, size_text_nil, Z.add_0_r in Hts.
  pose proof (bf_bound _ _ _ _ _ _ _ B') as [Hb0 _].
  assert (bl_ref_repl_buf_node bl = Some (id o)) as Er.
  { destruct (bf_ref _ _ _ _ _ _ _ B') as [E|[E _]]; [exact E|]. by apply Href in Eb. }
  assert (refcount o = 2) as H2.
  { rewrite (bf_refs _ _ _ _ _ _ _ B' 0%nat o eq_refl), Er, Esl. unfold nref. cbn [foldr]. rewrite Hr1, Hr2, !hits_same, (hits_other None) by done.
    assert (foldr (fun c k => hits (ref_repl_buf_node c) (id o) + k) 0 rest = 0) as ->; [|done].
    clear -Hrest. induction Hrest as [|c l Hc _ IH]; [done|]. cbn [foldr]. by rewrite hits_other, IH. }
  destruct (unroomy_append zmalloc_usable limits base hist st s o Hco Hl Hu Hsz Hs Hmax bl Eb Er) as (st1 & bl1 & Ea & E1 & S1 & Z1 & B1 & R1 & L1).
  fold room sz in Ea, E1, L1. rewrite Esl in S1.
  assert (close_asap c1 = false) as Hcl1.
  { unfold canFeedReplicaReplBuffer in Hf1. destruct (_ || _); [done|]. destruct (_ || _); [done|]. by apply negb_true_iff. }
  destruct (unroomy_close zmalloc_usable limits st s o Hu Hsz Hs st1 bl1 c1 (c2 :: rest) E1 B1 R1 L1 S1 Hcl1 Hr1 H2) as (st2 & c & Ecl & E2 & S2);
    [lia|by rewrite Z1|unfold room in *; lia|done|].
  assert (forall todo, feed_slaves limits (id o, used o) true (0%nat :: todo) st1 = feed_slaves limits (id o, used o) true todo st2) as Ef.
  { intros todo. cbn [feed_slaves]. rewrite S1. cbn [lookup list_lookup mbind option_bind]. rewrite Hf1, Hr1. cbn [negb mbind option_bind]. by rewrite Ecl. }
  assert (node_value (id o) (repl_buffer_blocks st2) = None /\ node_update (id o) incr_ref (repl_buffer_blocks st2) = None) as [Hnv Hnu].
  { rewrite E2. unfold node_value. cbn [from_node node_update id incr_ref]. by rewrite (proj2 (Z.eqb_neq (repl_block_id st) (id o))) by lia. }
  eexists _, st1, st2. split; [exact Ea|]. split; [by rewrite Ef|]. split; [by rewrite S2|]. split; [exact Hnv|].
  unfold feedReplicationBuffer. rewrite Eb. destruct s as [|x s']; [rewrite msize_nil in Hs; unfold room in Hs; lia|].
  cbn [length feed_loop]. unfold feed_step. rewrite Ea. cbn [mbind option_bind]. rewrite S1. cbn [length seq]. rewrite Ef.
  cbn [feed_slaves]. rewrite S2. cbn [lookup list_lookup mbind option_bind]. rewrite Hf2, Hr2. cbn [negb fst]. by rewrite Hnu.
Qed.

(** C21: feeding can use a block after it was freed when a block may be larger than the backlog
    (as with repl-backlog-size 16k, and an allocator that rounds the size of a block up).  Take
    a state that the operations above lead to, whose buffer is one block with room left, to
    which the backlog and the first replica refer and no other, while the second replica waits
    for its first bytes.  Feed it bytes that fill this block and another one, larger than the
    backlog, when the first replica then has too much to read.  It is closed; the trimming that
    follows frees the block in which the bytes start; and the second replica is given that
    block, which is not there any more. *)
Theorem large_block_used_after_free {R : Type} `{HR : Rax R} `{!RaxLaws R} (zmalloc_usable : Z -> Z) limits (st0 st1 st : server R) ops s o c1 c2 rest :
  (forall n, n <= zmalloc_usable n) -> blank st0 -> createReplicationBacklog st0 = Some st1 -> legal_run zmalloc_usable ops st1 ->
  run_ops zmalloc_usable ops st1 = Some st -> repl_buffer_blocks st = [o] -> used o < size o ->
  slaves st = c1 :: c2 :: rest -> canFeedReplicaReplBuffer c1 = true -> ref_repl_buf_node c1 = Some (id o) ->
  canFeedReplicaReplBuffer c2 = true -> ref_repl_buf_node c2 = None -> Forall (fun c => ref_repl_buf_node c <> Some (id o)) rest ->
  let room := size o - used o in
  let sz := block_size zmalloc_usable (msize s - room) st in
  repl_backlog_size st < sz -> room + sz <= msize s -> master_repl_offset st0 + msize (fed_by ops) + msize s + 1 < 2 ^ 63 ->
  limits c1 (size o + sz + 128) = true ->
  exists s' st2 st3, append_bytes zmalloc_usable s st = Some (s', (id o, used o), true, st2) /\
    feed_slaves limits (id o, used o) true [0%nat] st2 = Some st3 /\ slaves st3 !! 1%nat = Some c2 /\
    node_value (id o) (repl_buffer_blocks st3) = None /\
    feedReplicationBuffer zmalloc_usable limits s st = None.
Proof.
  intros Hz Hb Hc Hlr Hrun Hl Hu Esl Hf1 Hr1 Hf2 Hr2 Hrest room sz Hbig Hs Hmax Hlim.
  pose proof (msize_nonneg s). destruct (reachable_ok zmalloc_usable Hz st0 st1 ops Hb Hc Hlr ltac:(lia)) as (st' & E & [Hco _ Hwr]).
  rewrite Hrun in E. injection E as <-. eapply large_block_freed; try done.
  intros bl Ebl. rewrite (Hwr bl Ebl), Hl by (rewrite Hl; done). done.
Qed.

(** ** At concrete servers *)

(** An index as a sorted list. *)
Definition index : Type := list (Z * Z).

#[export] Instance index_rax : Rax index := {
  raxNew := [];
  raxInsert k v l := filter (fun e => e.1 < k) l ++ (k, v) :: filter (fun e => k < e.1) l;
  raxRemove k l := filter (fun e => e.1 <> k) l;
  raxElements l := l
}.

#[export] Instance index_laws : RaxLaws index.
Proof.
  constructor.
  - done.
  - intros k v l e _. cbn. rewrite elem_of_app, elem_of_cons, !list_elem_of_filter. split; [naive_solver lia|].
    intros [->|[Hne Hin]]; [tauto|]. destruct (Z.lt_total e.1 k) as [?|[?|?]]; tauto.
  - intros k l e _. cbn. by rewrite list_elem_of_filter.
Qed.

Definition at_start (backlog_size : Z) : server index := mk_server 0 None backlog_size 0 [] 0 [] [49] [48] (-1) (-1).
Definition created (backlog_size : Z) : server index := default (at_start backlog_size) (createReplicationBacklog (at_start backlog_size)).

Lemma at_start_blank n : blank (at_start n).
Proof. by constructor. Qed.

Lemma created_ok n : createReplicationBacklog (at_start n) = Some (created n).
Proof. done. Qed.

Lemma roomy_default (st : server index) : repl_backlog_size st = 1048576 -> roomy (fun n => n) st.
Proof.
  intros E len. unfold block_size. rewrite E. change (1048576 / 16) with 65536. unfold PROTO_REPLY_CHUNK_BYTES, sizeof_replBufBlock. lia.
Qed.

(** A client that asks for synchronization. *)
Definition new_replica : replica := mk_replica false false false false 0 0 0 0 true None 0 [] 0.

Definition never : replica -> Z -> bool := fun _ _ => false.

(** A full synchronization, during which the stream goes on, and then a partial one. *)
Definition session : list op :=
  [syncs (Some ([63], -1)) [50] false true new_replica; saves 0 true (fun _ => true); feeds never [1; 2; 3];
   puts_online 0; starts_stream 0; writes 0 [2]; feeds never [4; 5]; syncs (Some ([49], 3)) [50] false true new_replica; writes 0 [9]; closes 0].

(** The operation is legal, and is run. *)
Ltac legal_step :=
  cbn [legal_run]; split;
  [| match goal with |- match ?e with _ => _ end => let v := eval vm_compute in e in change e with v; cbv iota beta end].

Lemma session_legal : legal_run (fun n => n) session (created 1048576).
Proof.
  unfold session. legal_step; [split; [done|by vm_compute]|]. legal_step; [done|]. legal_step; [by apply roomy_default|].
  legal_step; [by eexists|]. legal_step; [by eexists|]. legal_step; [by eexists|]. legal_step; [by apply roomy_default|].
  legal_step; [split; [done|by vm_compute]|]. legal_step; [by eexists|]. legal_step; [by vm_compute; lia|]. done.
Qed.

Lemma replication_stream_delivered_witness :
  exists st, run_ops (fun n => n) session (created 1048576) = Some st /\ master_repl_offset st = 0 + msize (fed_by session) /\
    repl_buffer_mem st = mem_of (repl_buffer_blocks st) /\
    forall i c, slaves st !! i = Some c -> canFeedReplicaReplBuffer c = true ->
      0 + 1 <= first_offset c /\ sent c ++ unsent c st = drop (Z.to_nat (first_offset c - 0 - 1)) (fed_by session).
Proof.
  apply (replication_stream_delivered (fun n => n) (at_start 1048576) (created 1048576) session).
  - intros n. lia.
  - apply at_start_blank.
  - reflexivity.
  - exact session_legal.
  - by vm_compute.
Defined.

Lemma partial_resynchronization_witness : exists st bl ok st', run_ops (fun n => n) session (created 1048576) = Some st /\ repl_backlog st = Some bl /\
    masterTryPartialResynchronization [49] 2 true new_replica st = Some (ok, st') /\
    ok = (strcasecmp_eq [49] (replid st) || (strcasecmp_eq [49] (replid2 st) && (2 <=? second_replid_offset st))) &&
         (offset bl <=? 2) && (2 <=? master_repl_offset st + 1) /\
    (ok = false -> st' = st) /\
    (ok = true -> exists c', slaves st' = slaves st ++ [c'] /\ sent c' = [] /\
       unsent c' st' = drop (Z.to_nat (2 - 0 - 1)) (fed_by session)).
Proof.
  apply (partial_resynchronization (fun n => n) (at_start 1048576) (created 1048576) session [49] 2 new_replica).
  - intros n. lia.
  - apply at_start_blank.
  - reflexivity.
  - exact session_legal.
  - by vm_compute.
  - done.
  - reflexivity.
  - reflexivity.
  - reflexivity.
Defined.

(** A replica waits for the snapshot, three bytes are fed, and it is closed. *)
Definition closing_server : server index := Eval vm_compute in
  default (at_start 0) (run_ops (fun n => n)
    [syncs None [50] false true new_replica; saves 0 true (fun _ => true); feeds never [1; 2; 3]; closes 0] (created 1048576)).
Definition closing_replica : replica := Eval vm_compute in default new_replica (head (slaves closing_server)).

Example closing_server_reached : run_ops (fun n => n)
  [syncs None [50] false true new_replica; saves 0 true (fun _ => true); feeds never [1; 2; 3]; closes 0] (created 1048576) = Some closing_server.
Proof. vm_compute. reflexivity. Qed.

(** It was to start at the offset 1, and the offset of the server is 3. *)
Example closing_offsets : psync_initial_offset closing_replica = 0 /\ master_repl_offset closing_server = 3.
Proof. done. Qed.

Lemma attached_to_closing_replica_witness :
  exists st' c', fullSync [50] true true new_replica closing_server = Some st' /\ slaves st' = slaves closing_server ++ [c'] /\
    first_offset c' = psync_initial_offset closing_replica + 1 /\ master_repl_offset st' = master_repl_offset closing_server /\
    canFeedReplicaReplBuffer c' = canFeedReplicaReplBuffer (set_replstate SLAVE_STATE_WAIT_BGSAVE_END false new_replica) /\
    sent c' ++ unsent c' st' = [].
Proof.
  apply (attached_to_closing_replica [50] 0 closing_replica new_replica closing_server).
  - done.
  - reflexivity.
  - by eexists.
  - vm_compute. reflexivity.
  - reflexivity.
  - reflexivity.
  - reflexivity.
Defined.

(** An allocator that rounds the size of a block up, as jemalloc does, to 20480; and replicas
    that are closed when they have more than 16384 bytes to read. *)
Definition size_class (n : Z) : Z := if n <=? 16424 then 20480 else n.
Definition over_16k : replica -> Z -> bool := fun _ n => n >? 16384.

(** A replica reads the stream, another one waits for its first bytes, and the backlog is made
    as small as the configuration admits. *)
Definition small_session : list op :=
  [syncs None [50] false true new_replica; saves 0 true (fun _ => true); feeds never [1; 2; 3];
   syncs None [50] false true new_replica; saves 0 true (fun _ => true); resizes CONFIG_REPL_BACKLOG_MIN_SIZE].
Definition two_replicas : server index := Eval vm_compute in default (at_start 0) (run_ops size_class small_session (created 1048576)).

Lemma size_class_enough n : n <= size_class n.
Proof. unfold size_class. destruct (Z.leb_spec n 16424); lia. Qed.

Lemma small_session_legal : legal_run size_class small_session (created 1048576).
Proof.
  unfold small_session. legal_step; [split; [done|by vm_compute]|]. legal_step; [done|]. legal_step.
  { intros len. unfold block_size. change (repl_backlog_size _) with 1048576. change (1048576 / 16) with 65536.
    unfold PROTO_REPLY_CHUNK_BYTES, sizeof_replBufBlock, size_class. destruct (Z.leb_spec (Z.min (Z.max len (16 * 1024)) (Z.max 65536 (16 * 1024)) + 40) 16424); lia. }
  legal_step; [split; [done|intros _ j c E; vm_compute in E; by injection E as <- <-]|]. legal_step; [done|]. legal_step; [done|]. done.
Qed.

Lemma large_block_used_after_free_witness :
  run_ops size_class small_session (created 1048576) = Some two_replicas /\
  exists s' st2 st3, append_bytes size_class (replicate 41000 120) two_replicas = Some (s', (0, 3), true, st2) /\
    feed_slaves over_16k (0, 3) true [0%nat] st2 = Some st3 /\ node_value 0 (repl_buffer_blocks st3) = None /\
    feedReplicationBuffer size_class over_16k (replicate 41000 120) two_replicas = None.
Proof.
  assert (run_ops size_class small_session (created 1048576) = Some two_replicas) as Hr by (vm_compute; reflexivity).
  split; [exact Hr|].
  destruct (large_block_used_after_free size_class over_16k (at_start 1048576) (created 1048576) two_replicas small_session (replicate 41000 120)
    (default (mk_block 0 0 0 0 []) (head (repl_buffer_blocks two_replicas))) (default new_replica (slaves two_replicas !! 0%nat))
    (default new_replica (slaves two_replicas !! 1%nat)) []) as (s' & st2 & st3 & H1 & H2 & _ & H3 & H4);
    [exact size_class_enough|apply at_start_blank|reflexivity|exact small_session_legal|exact Hr|reflexivity|reflexivity|reflexivity|reflexivity|reflexivity
    |reflexivity|reflexivity|constructor|reflexivity|vm_compute; discriminate|vm_compute; reflexivity|vm_compute; reflexivity|].
  exists s', st2, st3. split; [exact H1|split; [exact H2|split; [exact H3|exact H4]]].
Defined.

End BacklogStream.
