(* ===== verification/RadixIndex.v ===== *)
(** The index of the replication backlog as a radix tree: its keys are the eight bytes of an
    offset, big endian, so that their order is the one of the numbers; and the search for
    an offset, with an iterator. *)
From Stdlib Require Import Sorting.Sorted.
From stdpp Require Import gmap.
From S2P Require Import Prelude Radix RadixTree RadixSafety RadixIter Backlog.
From stdpp Require Import options.
#[local] Set Default Proof Using "Type*".

Module RadixIndex.
Import Backlog.
Import Radix RadixTree RadixSafety RadixIter.

(** ** Offsets *)

(** The bytes of [htonu64]. *)
Fixpoint encode_bytes (n : nat) (z : Z) : mem :=
  match n with
  | O => []
  | S n => encode_bytes n (z / 256) ++ [z mod 256]
  end.
Definition encode_offset (z : Z) : mem := encode_bytes 8 z.

Definition decode_offset (k : mem) : Z := foldl (fun a c => a * 256 + c) 0 k.

Definition is_byte (c : Z) : Prop := 0 <= c < 256.

(** The keys of an index. *)
Definition offset_key (k : mem) : Prop := length k = 8%nat /\ Forall is_byte k.

Lemma decode_app k c : decode_offset (k ++ [c]) = decode_offset k * 256 + c.
Proof. unfold decode_offset. by rewrite foldl_snoc. Qed.

Lemma encode_bytes_ok n z : length (encode_bytes n z) = n /\ Forall is_byte (encode_bytes n z).
Proof.
  revert z. induction n as [|n IH]; intros z; cbn [encode_bytes]; [by split|]. destruct (IH (z / 256)) as [Hl Hf]. split.
  - rewrite length_app, Hl. cbn. lia.
  - apply Forall_app. split; [done|]. constructor; [|done]. unfold is_byte. pose proof (Z.mod_pos_bound z 256). lia.
Qed.

Lemma decode_encode_bytes n z : 0 <= z < 256 ^ Z.of_nat n -> decode_offset (encode_bytes n z) = z.
Proof.
  revert z. induction n as [|n IH]; intros z Hz; cbn [encode_bytes]; [cbn in *; lia|]. rewrite decode_app, IH.
  - pose proof (Z.div_mod z 256). lia.
  - rewrite Nat2Z.inj_succ, Z.pow_succ_r in Hz by lia. split; [apply Z.div_pos; lia|]. apply Z.div_lt_upper_bound; lia.
Qed.

Lemma encode_decode k : Forall is_byte k -> encode_bytes (length k) (decode_offset k) = k /\ 0 <= decode_offset k < 256 ^ Z.of_nat (length k).
Proof.
  induction k as [|c k IH] using rev_ind; intros Hf; [split; [done|cbn; lia]|]. apply Forall_app in Hf as [Hf [Hc _]%Forall_cons].
  destruct (IH Hf) as [E Hr]. unfold is_byte in Hc. rewrite decode_app, length_app, Nat.add_comm. cbn [length Nat.add encode_bytes]. split.
  - rewrite Z.div_add_l by lia. rewrite (Z.div_small c 256), Z.add_0_r, E by lia. f_equal. f_equal. rewrite Z.add_comm, Z.mod_add by lia. by apply Z.mod_small.
  - rewrite Nat2Z.inj_succ, Z.pow_succ_r by lia. lia.
Qed.

Lemma encode_key z : offset_key (encode_offset z).
Proof. exact (encode_bytes_ok 8 z). Qed.

Lemma decode_encode_offset z : in_u 64 z -> decode_offset (encode_offset z) = z.
Proof. intros Hz. apply decode_encode_bytes. exact Hz. Qed.

Lemma key_encode k : offset_key k -> encode_offset (decode_offset k) = k /\ in_u 64 (decode_offset k).
Proof. intros [Hl Hf]. pose proof (encode_decode k Hf) as H. rewrite Hl in H. exact H. Qed.

(** The order of the keys. *)
Lemma decode_cons c k : decode_offset (c :: k) = c * 256 ^ Z.of_nat (length k) + decode_offset k.
Proof.
  revert c. induction k as [|a k IH] using rev_ind; intros c; [cbn; lia|].
  change (c :: k ++ [a]) with ((c :: k) ++ [a]). rewrite !decode_app, IH, length_app, Nat2Z.inj_add, Z.pow_add_r by lia.
  change (256 ^ Z.of_nat (length [a])) with 256. lia.
Qed.

Lemma lex_decode a b : length a = length b -> Forall is_byte a -> Forall is_byte b -> lex a b <-> decode_offset a < decode_offset b.
Proof.
  revert b. induction a as [|x a IH]; intros [|y b] Hl Ha Hb; try done. injection Hl as Hl.
  apply Forall_cons in Ha as [Hx Ha], Hb as [Hy Hb]. cbn [lex]. rewrite (IH b Hl Ha Hb), !decode_cons, Hl.
  pose proof (encode_decode a Ha) as [_ Da]. pose proof (encode_decode b Hb) as [_ Db]. rewrite Hl in Da. unfold is_byte in *.
  set (m := 256 ^ _) in *. split; [intros [?|[-> ?]]; nia|]. intros H. destruct (Z.lt_total x y) as [?|[->|?]]; [by left|right; lia|nia].
Qed.

(** ** The index *)

Record offset_tree (r : rax) : Prop := {
  ix_wf : rax_wf r;
  ix_keys x : x ∈ elements (head r) -> offset_key x.1
}.

Definition offset_index : Type := { r : rax | offset_tree r }.

Definition index_insert (k v : Z) (r : rax) : rax :=
  match raxInsert r (encode_offset k) v with Some (_, _, r) => r | None => r end.
Definition index_remove (k : Z) (r : rax) : rax :=
  match raxRemove r (encode_offset k) with Some (_, _, r) => r | None => r end.

Lemma index_contents r k : offset_tree r -> is_Some (contents r !! k) -> offset_key k.
Proof. intros [Hw Hk] [d Hd]. apply (contents_lookup r k d Hw) in Hd. by apply (Hk (k, d)). Qed.

Lemma index_ok_contents (r' : rax) m : rax_wf r' -> contents r' = m -> (forall k, is_Some (m !! k) -> offset_key k) -> offset_tree r'.
Proof.
  intros Hw <- Hk. constructor; [done|]. intros [k d] Hx. apply Hk. exists d. by apply contents_lookup.
Qed.

Lemma index_insert_ok k v (r : rax) : offset_tree r -> offset_tree (index_insert k v r) /\ contents (index_insert k v r) = <[encode_offset k := v]> (contents r).
Proof.
  intros Hi. pose proof (ix_wf _ Hi) as Hr. unfold index_insert, raxInsert.
  destruct (ensures_Some _ _ (raxGenericInsert_ok r (encode_offset k) v true Hr)) as ([[ret old] r'] & -> & Hr' & _ & I).
  assert (contents r' = <[encode_offset k := v]> (contents r)) as E by (destruct old; by eapply contents_inserted). split; [|done].
  apply (index_ok_contents r' _ Hr' E). intros k' [d [[<- _]|[_ H]]%lookup_insert_Some]; [apply encode_key|by eapply index_contents].
Qed.

Lemma index_fits r : offset_tree r -> fits 0 (head r).
Proof. intros Hi x Hx. destruct (ix_keys _ Hi x Hx) as [Hl _]. unfold msize. rewrite Hl. by vm_compute. Qed.

Lemma index_remove_ok k (r : rax) : offset_tree r -> offset_tree (index_remove k r) /\ contents (index_remove k r) = delete (encode_offset k) (contents r).
Proof.
  intros Hi. pose proof (ix_wf _ Hi) as Hr. unfold index_remove.
  destruct (ensures_Some _ _ (raxRemove_ok r (encode_offset k) Hr (index_fits r Hi))) as ([[ret old] r'] & -> & Hr' & _ & Ho).
  assert (contents r' = delete (encode_offset k) (contents r)) as E.
  { destruct old as [o|]; [destruct Ho as (l1 & l2 & E1 & E2); by eapply contents_removed|]. destruct Ho as [-> Hn].
    rewrite delete_id; [done|]. apply contents_old; [done|]. intros o. split; [done|intros H; by apply Hn in H]. }
  split; [|done]. apply (index_ok_contents r' _ Hr' E). intros k' [d [_ H]%lookup_delete_Some]. by eapply index_contents.
Qed.

Lemma index_new_ok : offset_tree raxNew.
Proof. constructor; [apply raxNew_wf|]. by intros x ?%not_elem_of_nil. Qed.

Definition offset_of (x : mem * Z) : Z * Z := (decode_offset x.1, x.2).

#[export] Instance offset_index_rax : Rax offset_index := {
  Backlog.raxNew := exist _ raxNew index_new_ok;
  Backlog.raxInsert k v r := exist _ (index_insert k v (`r)) (proj1 (index_insert_ok k v _ (proj2_sig r)));
  Backlog.raxRemove k r := exist _ (index_remove k (`r)) (proj1 (index_remove_ok k _ (proj2_sig r)));
  raxElements r := offset_of <$> elements (head (`r))
}.

Lemma index_elements r x : offset_tree r -> x ∈ (offset_of <$> elements (head r)) <-> in_u 64 x.1 /\ contents r !! encode_offset x.1 = Some x.2.
Proof.
  intros Hi. rewrite list_elem_of_fmap. split.
  - intros ([k d] & -> & Hx). destruct (key_encode k (ix_keys _ Hi _ Hx)) as [E Hr]. cbn [offset_of fst snd]. split; [done|].
    rewrite E. by apply contents_lookup; [apply Hi|].
  - intros [Hr Hx]. exists (encode_offset x.1, x.2). unfold offset_of. cbn [fst snd]. rewrite decode_encode_offset by done. split; [by destruct x|].
    by apply contents_lookup; [apply Hi|].
Qed.

Lemma encode_inj a b : in_u 64 a -> in_u 64 b -> encode_offset a = encode_offset b -> a = b.
Proof. intros Ha Hb E. by rewrite <- (decode_encode_offset a Ha), <- (decode_encode_offset b Hb), E. Qed.

#[export] Instance offset_index_laws : RaxLaws offset_index.
Proof.
  constructor.
  - done.
  - intros k v [r Hi] e Hk. cbn [raxElements Backlog.raxInsert offset_index_rax proj1_sig].
    destruct (index_insert_ok k v r Hi) as [Hi' E]. rewrite (index_elements _ _ Hi'), (index_elements _ _ Hi), E, lookup_insert_Some. split.
    + intros [He [[Ek Ev]|[Hne H]]]; [left; apply encode_inj in Ek; [|done..]; destruct e; cbn in *; by subst|]. right. split; [|done]. intros <-. done.
    + intros [->|[Hne [He H]]]; [split; [done|by left]|]. split; [done|]. right. split; [|done]. intros Ek. apply encode_inj in Ek; done.
  - intros k [r Hi] e Hk. cbn [raxElements Backlog.raxRemove offset_index_rax proj1_sig].
    destruct (index_remove_ok k r Hi) as [Hi' E]. rewrite (index_elements _ _ Hi'), (index_elements _ _ Hi), E, lookup_delete_Some. split.
    + intros [He [Hne H]]. split; [|done]. intros <-. done.
    + intros [Hne [He H]]. split; [done|]. split; [|done]. intros Ek. apply encode_inj in Ek; done.
Qed.

(** ** The search *)

(** The node that the search begins with, with an iterator; [None] inside: the first node of
    the backlog. *)
Definition index_search (off : Z) (r : rax) : option (option Z) :=
  if raxSize r >? 0 then
    it ← raxSeek r (op_gt false) (encode_offset off) (raxStart r);
    if raxEOF it then
      it ← raxSeek r op_last [] it;
      '(_, it) ← raxPrev r it;
      Some (Some (it_data it))
    else
      '(_, it) ← raxPrev r it;
      '(more, it) ← raxPrev r it;
      Some (if more : bool then Some (it_data it) else None)
  else Some None.

Lemma list_find_app {A} (P : A -> Prop) `{!forall x, Decision (P x)} (X B : list A) :
  (forall x, x ∈ X -> ~ P x) -> (forall x, x ∈ B -> P x) -> list_find P (X ++ B) = match B with [] => None | x :: _ => Some (length X, x) end.
Proof.
  intros HX HB. induction X as [|y X IH]; cbn.
  - destruct B as [|x B]; [done|]. cbn. rewrite decide_True; [done|]. apply HB. apply elem_of_cons. by left.
  - rewrite decide_False by (apply HX; apply elem_of_cons; by left). rewrite IH by (intros x Hx; apply HX; apply elem_of_cons; by right). by destruct B.
Qed.

(** The first element after an offset, as the number and in the list. *)
Lemma index_after r off : offset_tree r -> in_u 64 off -> let e := elements (head r) in
  list_find (fun x => off < x.1) (offset_of <$> e) =
  (i ← index_from (count_le (encode_offset off) e) e; x ← e !! i; Some (i, offset_of x)).
Proof.
  intros Hi Hoff e. pose proof (elements_sorted _ (rw_wf _ (ix_wf _ Hi))) as Hs. fold e in Hs.
  destruct (sorted_around (encode_offset off) e Hs) as (A & M & B & E & HA & HM & HB). destruct (counts _ _ _ _ HA HM HB) as [_ C]. rewrite <- E in C. rewrite C.
  assert (forall x, x ∈ e -> lex (encode_offset off) x.1 <-> off < (offset_of x).1) as Hlex.
  { intros x Hx. destruct (ix_keys _ Hi x Hx) as [Hl Hf]. destruct (encode_key off) as [Hl' Hf']. unfold offset_of. cbn [fst].
    rewrite <- (decode_encode_offset off Hoff) at 2. apply lex_decode; [by rewrite Hl, Hl'|done..]. }
  rewrite app_assoc in E. set (X := A ++ M) in *. rewrite E at 1. rewrite fmap_app, list_find_app.
  - unfold index_from. destruct B as [|x B].
    + rewrite decide_False; [done|]. rewrite E, length_app. cbn. lia.
    + rewrite decide_True by (rewrite E, length_app; cbn; lia). cbn [mbind option_bind]. rewrite length_fmap.
      assert (e !! length X = Some x) as -> by (rewrite E; by apply list_lookup_middle). done.
  - intros y (x & -> & Hx)%list_elem_of_fmap Hlt. apply Hlex in Hlt; [|rewrite E, elem_of_app; by left].
    subst X. apply elem_of_app in Hx as [Hx|Hx]; [by apply (lex_asym _ _ Hlt), HA|]. rewrite (HM x Hx) in Hlt. by apply lex_irrefl in Hlt.
  - intros y (x & -> & Hx)%list_elem_of_fmap. apply Hlex; [rewrite E, elem_of_app; by right|by apply HB].
Qed.

(** C24: The search for an offset in the index of the replication backlog, which seeks the
    first block recorded after the offset and steps back with an iterator over the radix
    tree, never fails, and begins with the last block recorded at or before the offset, or
    with the first block of the backlog when none is. *)
Theorem backlog_index_search (bl : @replBacklog offset_index) off :
  exists node, index_search (u64 off) (proj1_sig (blocks_index bl)) = Some node /\
    search_from off bl = match node with Some n => Some n | None => bl_ref_repl_buf_node bl end.
Proof.
  destruct (blocks_index bl) as [r Hi] eqn:Eb. cbn [proj1_sig]. pose proof (ix_wf _ Hi) as Hr. set (e := elements (head r)).
  unfold search_from, index_search. rewrite Eb. cbn [raxElements offset_index_rax proj1_sig]. fold e. cbv zeta.
  rewrite length_fmap. unfold raxSize. rewrite (rw_numele _ Hr). fold e.
  assert (in_u 64 (u64 off)) as Hoff by by apply in_u_wrapu. pose proof (index_after r (u64 off) Hi Hoff) as Hfind. cbv zeta in Hfind. fold e in Hfind. rewrite Hfind.
  destruct (Nat.eqb_spec (length e) 0) as [E0|E0].
  { rewrite E0. by exists None. }
  rewrite Z.gtb_ltb, (proj2 (Z.ltb_lt _ _)) by lia.
  destruct (raxSeek_ok r Hr (op_gt false) (encode_offset (u64 off)) (raxStart r)) as (it & -> & Hj & Hp). cbn [mbind option_bind seek_index] in *. fold e in Hp.
  set (i := index_from _ e) in *. pose proof (positioned_eof r Hr i it Hp) as Heof. unfold raxEOF. destruct i as [n|] eqn:En; cbn [mbind option_bind].
  - apply negb_true_iff in Heof as Hf. destruct (raxPrev_ok r Hr _ it Hp) as (it1 & -> & Hp1 & Hj1). rewrite Hj in Hp1. cbn [step_index] in Hp1.
    specialize (Hj1 ltac:(by eexists)). destruct (raxPrev_ok r Hr _ it1 Hp1) as (it2 & E2 & Hp2 & _). rewrite Hj1 in E2, Hp2. cbn [step_index mbind option_bind] in E2, Hp2.
    cbn [negb bool_decide] in *. rewrite Hf. cbn [mbind option_bind]. rewrite E2. cbn [mbind option_bind]. eexists. split; [done|].
    pose proof (positioned_element r n it1 Hp1) as Hx. fold e in Hx. rewrite Hx. cbn [mbind option_bind]. destruct n as [|n]; [done|]. cbn [index_last] in *.
    rewrite bool_decide_eq_true_2 by by eexists. pose proof (positioned_element r n it2 Hp2) as Hy. fold e in Hy. rewrite list_lookup_fmap, Hy. done.
  - assert (it_eof it = true) as -> by exact Hp. destruct (raxSeek_ok r Hr op_last [] it) as (it1 & -> & Hj1 & Hp1). cbn [mbind option_bind].
    destruct (raxPrev_ok r Hr _ it1 Hp1) as (it2 & -> & Hp2 & _). rewrite Hj1 in Hp2. cbn [step_index seek_index mbind option_bind] in *. fold e in Hp2.
    eexists. split; [done|]. destruct (length e) as [|m] eqn:Em; [done|]. cbn [index_last] in Hp2. pose proof (positioned_element r m it2 Hp2) as Hy. fold e in Hy.
    rewrite last_lookup, length_fmap, Em. cbn [pred]. rewrite list_lookup_fmap, Hy. done.
Qed.

End RadixIndex.
