(* ===== verification/Replication.v ===== *)
(** The commands of a master at its replicas: how they are fed to the replication buffer
    ([replicationFeedSlaves]), and what a replica comes to that reads what it was sent. *)
From S2P Require Import Prelude Util Rdb Sds Request RequestSafety RequestStream RequestMaster Backlog BacklogSafety BacklogStream.
From stdpp Require Import strings.
From stdpp Require Import options.
#[local] Open Scope Z_scope.
#[local] Open Scope list_scope.
#[local] Set Default Proof Using "Type*".

Module Replication.
Import Util Sds Request RequestSafety RequestStream RequestMaster Backlog BacklogSafety BacklogStream.

(** ** String objects *)

(** An object is a string or an integer. *)
Definition stringObjectLen (o : Rdb.robj) : option Z :=
  match o with
  | Rdb.OStr s => Some (msize s)
  | Rdb.OInt n => sdigits10 n
  end.

(** A number in a buffer of [LONG_STR_SIZE] characters. *)
Definition llstr (n : Z) : option mem :=
  '(len, llstr) ← ll2string (replicate (Z.to_nat LONG_STR_SIZE) 0) n;
  Some (take (Z.to_nat len) llstr).

(** The bytes that an object stands for. *)
Definition object_bytes (o : Rdb.robj) : option mem :=
  match o with
  | Rdb.OStr s => Some s
  | Rdb.OInt n => llstr n
  end.

(** ** Feeding commands *)

(** A line in [aux], which has [LONG_STR_SIZE + 3] characters. *)
Definition aux_line (mark n : Z) : option mem :=
  '(len, digits) ← ll2string (replicate (Z.to_nat (LONG_STR_SIZE + 2)) 0) n;
  _ ← cassert (len + 2 <? LONG_STR_SIZE + 3);
  Some (mark :: take (Z.to_nat len) digits ++ [CR; LF]).

Definition select_command (dictid : Z) : option mem :=
  s ← llstr dictid;
  n ← llstr (msize s);
  Some (chs "*2"%string ++ [CR; LF] ++ chs "$6"%string ++ [CR; LF] ++ chs "SELECT"%string ++ [CR; LF] ++ chs "$"%string ++ n ++ [CR; LF] ++ s ++ [CR; LF]).

Section feeding.
Context {R : Type} `{Rax R} (zmalloc_usable : Z -> Z).

Definition feedReplicationBufferWithObject (limits : replica -> Z -> bool) (o : Rdb.robj) (st : server R) : option (server R) :=
  s ← object_bytes o; feedReplicationBuffer zmalloc_usable limits s st.

Fixpoint feed_args (limits : replica -> Z -> bool) (argv : list Rdb.robj) (st : server R) : option (server R) :=
  match argv with
  | [] => Some st
  | o :: argv =>
    objlen ← stringObjectLen o;
    aux ← aux_line 36 objlen;
    st ← feedReplicationBuffer zmalloc_usable limits aux st;
    st ← feedReplicationBufferWithObject limits o st;
    st ← feedReplicationBuffer zmalloc_usable limits (drop (length aux - 2) aux) st;
    feed_args limits argv st
  end.

(** [masterhost]: the server is a replica; [from_master]: the current client is a master. *)
Definition replicationFeedSlaves (dbnum : Z) (masterhost from_master : bool) (limits : replica -> Z -> bool) (dictid : Z)
    (argv : list Rdb.robj) (st : server R) : option (server R) :=
  _ ← cassert ((dictid =? -1) || ((dictid >=? 0) && (dictid <? dbnum)));
  if masterhost then Some st
  else if from_master then Some st
  else
    match repl_backlog st with
    | None =>
      _ ← cassert (Nat.eqb (length (slaves st)) 0);
      Some (set_stream (i64 (master_repl_offset st + 1)) None (repl_buffer_mem st) (repl_buffer_blocks st) st)
    | Some _ =>
      st ← (if negb (dictid =? -1) && negb (slaveseldb st =? dictid) then
              selectcmd ← select_command dictid;
              st ← feedReplicationBuffer zmalloc_usable limits selectcmd st;
              Some (set_seldb dictid st)
            else Some st);
      aux ← aux_line 42 (Z.of_nat (length argv));
      st ← feedReplicationBuffer zmalloc_usable limits aux st;
      feed_args limits argv st
    end.

End feeding.

(** ** What is fed *)

Definition digits_of (n : Z) : mem := default [] (llstr n).
Definition text_of (o : Rdb.robj) : mem := default [] (object_bytes o).

(** An object of a size that is admitted. *)
Definition object_ok (o : Rdb.robj) : Prop :=
  match o with
  | Rdb.OStr s => msize s <= INT_MAX
  | Rdb.OInt n => in_s 64 n
  end.

Lemma llstr_spec n : in_s 64 n -> llstr n = Some (digits_of n) /\ is_integer n (digits_of n).
Proof.
  intros Hn. destruct (ll2string_spec (replicate (Z.to_nat LONG_STR_SIZE) 0) n Hn) as (s & rest & E & _ & Hi); [done|].
  assert (llstr n = Some s) as E' by (unfold llstr; rewrite E; cbn [mbind option_bind]; by rewrite Nat2Z.id, take_app_length).
  unfold digits_of. by rewrite E'.
Qed.

Lemma header_digits mark n : in_s 64 n -> header mark n = mark :: digits_of n ++ [CR; LF].
Proof.
  intros Hn. destruct (ll2string_spec (replicate 31 0) n Hn) as (s & rest & E & _ & Hi); [done|].
  destruct (llstr_spec n Hn) as [_ Hd]. rewrite (is_integer_unique _ _ _ Hd Hi).
  unfold header, number_line. rewrite E. cbn [mbind option_bind]. by rewrite Nat2Z.id, take_app_length.
Qed.

Lemma aux_line_spec mark n : in_s 64 n -> aux_line mark n = Some (header mark n).
Proof.
  intros Hn. destruct (ll2string_spec (replicate (Z.to_nat (LONG_STR_SIZE + 2)) 0) n Hn) as (s & rest & E & _ & Hi); [done|].
  pose proof (is_integer_length _ _ Hn Hi) as Hl. rewrite (header_digits _ _ Hn). destruct (llstr_spec n Hn) as [_ Hd].
  rewrite (is_integer_unique _ _ _ Hd Hi). unfold aux_line. rewrite E. cbn [mbind option_bind].
  rewrite (proj2 (Z.ltb_lt _ _)) by (unfold LONG_STR_SIZE; lia). cbn [cassert mbind option_bind]. by rewrite Nat2Z.id, take_app_length.
Qed.

Lemma object_spec o : object_ok o ->
  object_bytes o = Some (text_of o) /\ stringObjectLen o = Some (msize (text_of o)) /\ msize (text_of o) <= INT_MAX.
Proof.
  destruct o as [n|s]; cbn [object_ok]; [|done]. intros Hn. destruct (llstr_spec n Hn) as [E Hi].
  unfold text_of. cbn [object_bytes stringObjectLen]. rewrite E. change (default [] (Some (digits_of n))) with (digits_of n).
  pose proof (is_integer_length _ _ Hn Hi). split_and!; [done|by apply sdigits10_spec|unfold msize, INT_MAX; lia].
Qed.

Definition SELECT : mem := chs "SELECT"%string.

(** The text of the command that selects a database is the one of a command. *)
Lemma select_command_spec dictid : in_s 64 dictid -> select_command dictid = Some (written [SELECT; digits_of dictid]).
Proof.
  intros Hd. destruct (llstr_spec dictid Hd) as [E Hi]. pose proof (is_integer_length _ _ Hd Hi).
  assert (in_s 64 (msize (digits_of dictid))) as Hs by (unfold in_s, msize; lia). destruct (llstr_spec _ Hs) as [Es _].
  unfold select_command. rewrite E. cbn [mbind option_bind]. rewrite Es. cbn [mbind option_bind]. unfold written. rewrite !bulks_cons. unfold bulk.
  rewrite (header_digits 36 (msize (digits_of dictid)) Hs).
  change (header 42 _) with (chs "*2"%string ++ [CR; LF]). change (header 36 (msize SELECT)) with (chs "$6"%string ++ [CR; LF]).
  change (bulks []) with (@nil Z). change (chs "$"%string) with [36]. unfold SELECT.
  by repeat (rewrite ?app_nil_r, <- ?app_assoc || cbn [app]).
Qed.

Section commands.
Context {R : Type} `{HR : Rax R} `{!RaxLaws R}.
Context (zmalloc_usable : Z -> Z) (usable_enough : forall n, n <= zmalloc_usable n).
Local Notation feeds_of := (feedReplicationBuffer zmalloc_usable).
Local Notation roomy := (roomy zmalloc_usable).

(** The stream goes on, in a backlog of the same size. *)
Record goes_on (base : Z) (hist : mem) (k : Z) (st : server R) : Prop := {
  go_wf : wf base hist st;
  go_roomy : roomy st;
  go_size : repl_backlog_size st = k
}.

Lemma feed_goes base hist k limits s (st : server R) : goes_on base hist k st -> base + msize (hist ++ s) + 1 < 2 ^ 63 ->
  ensures (feeds_of limits s st) (goes_on base (hist ++ s) k).
Proof.
  intros [Hw Hr Hk]. rewrite msize_app. intros Hb. eapply ensures_mono; [apply (feed_ok zmalloc_usable usable_enough base hist); [done|lia|done]|].
  intros st' [Hw' Hk']. constructor; [done| |congruence]. intros len. unfold block_size. rewrite Hk'. apply (Hr len).
Qed.

Lemma bulk_ending a : object_ok a -> drop (length (header 36 (msize (text_of a))) - 2) (header 36 (msize (text_of a))) = [CR; LF].
Proof.
  intros Ha. destruct (object_spec a Ha) as (_ & _ & Hs). rewrite (header_digits _ _ (msize_in_s _ Hs)), app_comm_cons.
  apply drop_app_length'. rewrite length_app. cbn [length]. lia.
Qed.

Lemma args_goes base k limits argv : Forall object_ok argv -> forall hist (st : server R),
  goes_on base hist k st -> base + msize (hist ++ bulks (text_of <$> argv)) + 1 < 2 ^ 63 ->
  ensures (feed_args zmalloc_usable limits argv st) (goes_on base (hist ++ bulks (text_of <$> argv)) k).
Proof.
  induction 1 as [|a argv Ha _ IH]; intros hist st Hg Hb; [unfold bulks; cbn; by rewrite app_nil_r|].
  rewrite fmap_cons, bulks_cons in *. unfold bulk in *. set (h := header 36 (msize (text_of a))) in *.
  assert (hist ++ (h ++ text_of a ++ [CR; LF]) ++ bulks (text_of <$> argv) =
    (((hist ++ h) ++ text_of a) ++ [CR; LF]) ++ bulks (text_of <$> argv)) as E by by rewrite <- !app_assoc.
  rewrite E in *. cbn [feed_args]. destruct (object_spec a Ha) as (E1 & -> & Hs). cbn [mbind option_bind].
  rewrite (aux_line_spec _ _ (msize_in_s _ Hs)). cbn [mbind option_bind]. unfold feedReplicationBufferWithObject. rewrite E1. cbn [mbind option_bind].
  pose proof (bulk_ending a Ha) as Ee. fold h in Ee |- *. rewrite Ee. pose proof (msize_nonneg (bulks (text_of <$> argv))) as H0.
  pose proof (msize_nonneg (text_of a)) as H1. pose proof (msize_nonneg [CR; LF]) as H2. clearbody h. rewrite !msize_app in Hb.
  eapply ensures_bind; [apply feed_goes; [done|rewrite msize_app; lia]|]. intros st1 G1.
  eapply ensures_bind; [apply feed_goes; [done|rewrite !msize_app; lia]|]. intros st2 G2.
  eapply ensures_bind; [apply feed_goes; [done|rewrite !msize_app; lia]|]. intros st3 G3.
  apply IH; [done|]. rewrite !msize_app. lia.
Qed.

Lemma goes_on_seldb base hist k n (st : server R) : goes_on base hist k st -> goes_on base hist k (set_seldb n st).
Proof. intros [Hw Hr Hk]. constructor; [by apply wf_seldb|done|done]. Qed.

(** The commands that are fed for one command. *)
Definition propagated (dictid : Z) (argv : list Rdb.robj) (st : server R) : list (list mem) :=
  (if negb (dictid =? -1) && negb (slaveseldb st =? dictid) then [[SELECT; digits_of dictid]] else []) ++ [text_of <$> argv].

Lemma propagate_goes base hist k dbnum limits dictid argv (st : server R) :
  goes_on base hist k st -> -1 <= dictid < dbnum -> dbnum <= INT_MAX -> Forall object_ok argv -> Z.of_nat (length argv) <= INT_MAX ->
  base + msize (hist ++ stream (propagated dictid argv st)) + 1 < 2 ^ 63 ->
  ensures (replicationFeedSlaves zmalloc_usable dbnum false false limits dictid argv st)
    (goes_on base (hist ++ stream (propagated dictid argv st)) k).
Proof.
  intros G Hd Hdb Ho Hl Hb. unfold replicationFeedSlaves, propagated in *.
  assert ((dictid =? -1) || ((dictid >=? 0) && (dictid <? dbnum)) = true) as ->.
  { rewrite Z.geb_leb. destruct (Z.eqb_spec dictid (-1)); [done|]. by rewrite (proj2 (Z.leb_le 0 dictid)), (proj2 (Z.ltb_lt _ _)) by lia. }
  cbn [cassert mbind option_bind]. pose proof (wa_core _ _ _ _ (go_wf _ _ _ _ G)) as [(bl & -> & _) _].
  set (sel := if _ && _ then [[SELECT; _]] else []) in *. rewrite stream_app, app_assoc in *.
  assert (stream [text_of <$> argv] = header 42 (Z.of_nat (length argv)) ++ bulks (text_of <$> argv)) as Es
    by (rewrite stream_cons; change (stream []) with (@nil Z); unfold written; by rewrite app_nil_r, length_fmap).
  rewrite Es, app_assoc in *. pose proof Hb as Hb'. rewrite !msize_app in Hb'.
  pose proof (msize_nonneg (bulks (text_of <$> argv))). pose proof (msize_nonneg (header 42 (Z.of_nat (length argv)))).
  eapply (ensures_bind _ _ (goes_on base (hist ++ stream sel) k)).
  { subst sel. destruct (_ && _); [|unfold stream; cbn; by rewrite app_nil_r].
    rewrite select_command_spec by (unfold in_s, INT_MAX in *; lia). cbn [mbind option_bind].
    rewrite (stream_cons _ []). change (stream []) with (@nil Z). rewrite app_nil_r.
    eapply ensures_bind; [apply feed_goes; [done|]|].
    - rewrite (stream_cons _ []), msize_app in Hb'. rewrite msize_app. change (msize (stream [])) with 0 in Hb'. lia.
    - intros st' G'. by apply goes_on_seldb. }
  intros st1 G1. rewrite aux_line_spec by (unfold in_s, INT_MAX in *; lia). cbn [mbind option_bind].
  eapply ensures_bind; [apply feed_goes; [done|rewrite !msize_app; lia]|]. intros st2 G2. by apply args_goes.
Qed.

(** ** A master *)

(** It propagates a command, or does something else about its replicas. *)
Inductive event :=
| propagates (limits : replica -> Z -> bool) (dictid : Z) (argv : list Rdb.robj)
| does (o : op).

Context (dbnum : Z).

Definition happens (e : event) (st : server R) : option (server R) :=
  match e with
  | propagates limits dictid argv => replicationFeedSlaves zmalloc_usable dbnum false false limits dictid argv st
  | does o => exec zmalloc_usable o st
  end.

Fixpoint history (evs : list event) (st : server R) : option (server R) :=
  match evs with
  | [] => Some st
  | e :: evs => st ← happens e st; history evs st
  end.

Definition legal_event (e : event) (st : server R) : Prop :=
  match e with
  | propagates _ dictid argv => roomy st /\ -1 <= dictid < dbnum /\ Forall object_ok argv /\ Z.of_nat (length argv) <= INT_MAX
  | does (feeds _ _) => False
  | does o => legal zmalloc_usable o st
  end.

Fixpoint legal_history (evs : list event) (st : server R) : Prop :=
  match evs with
  | [] => True
  | e :: evs => legal_event e st /\ match happens e st with Some st => legal_history evs st | None => True end
  end.

(** The commands of the stream. *)
Fixpoint commands (evs : list event) (st : server R) : list (list mem) :=
  match evs with
  | [] => []
  | e :: evs =>
    (match e with propagates _ dictid argv => propagated dictid argv st | does _ => [] end) ++
    match happens e st with Some st => commands evs st | None => [] end
  end.

Lemma happens_ok base hist e (st : server R) :
  wf base hist st -> legal_event e st -> dbnum <= INT_MAX ->
  base + msize (hist ++ stream (match e with propagates _ dictid argv => propagated dictid argv st | does _ => [] end)) + 1 < 2 ^ 63 ->
  ensures (happens e st) (wf base (hist ++ stream (match e with propagates _ dictid argv => propagated dictid argv st | does _ => [] end))).
Proof.
  intros Hw Hl Hdb Hb. destruct e as [limits dictid argv|o]; cbn [happens legal_event] in *.
  - destruct Hl as (Hr & Hd & Ho & Hn). eapply ensures_mono; [by apply (propagate_goes base hist (repl_backlog_size st))|].
    by intros st' [? _ _].
  - change (stream []) with (@nil Z) in *. rewrite app_nil_r in *.
    assert (fed_by [o] = []) as Ef by (by destruct o).
    rewrite <- (app_nil_r hist), <- Ef. apply (exec_ok zmalloc_usable usable_enough); [done|by destruct o|rewrite Ef, msize_nil; lia].
Qed.

Lemma history_ok base hist evs (st : server R) :
  wf base hist st -> legal_history evs st -> dbnum <= INT_MAX -> base + msize (hist ++ stream (commands evs st)) + 1 < 2 ^ 63 ->
  ensures (history evs st) (wf base (hist ++ stream (commands evs st))).
Proof.
  revert hist st. induction evs as [|e evs IH]; intros hist st Hw Hl Hdb Hb; cbn [history commands].
  { change (stream []) with (@nil Z). by rewrite app_nil_r. }
  cbn [commands legal_history] in *. destruct Hl as [Hl Hn]. rewrite stream_app, app_assoc in *. set (s1 := stream (match e with propagates _ _ _ => _ | _ => _ end)) in *.
  pose proof (happens_ok base hist e st Hw Hl Hdb) as He. fold s1 in He.
  destruct (happens e st) as [st'|]; cbn [mbind option_bind].
  - apply IH; [|done|done|done]. apply He. rewrite msize_app in Hb. pose proof (msize_nonneg (stream (commands evs st'))). lia.
  - exfalso. apply He. rewrite msize_app in Hb. change (msize (stream [])) with 0 in Hb. lia.
Qed.

(** What a replica is sent is the stream of the commands from the one it starts at. *)
Lemma replica_stream base (st : server R) i c before after :
  wf base (stream (before ++ after)) st -> slaves st !! i = Some c -> canFeedReplicaReplBuffer c = true ->
  first_offset c = base + msize (stream before) + 1 -> sent c ++ unsent c st = stream after.
Proof.
  intros Hw Hi Hc Hf. pose proof Hw as [Hco Hp _]. destruct (placed_delivers base _ st i c Hco Hi (Hp i c Hi) Hc) as [_ ->].
  rewrite stream_app. apply drop_app_length'. unfold msize in Hf. lia.
Qed.

End commands.

(** C2: a master propagates commands and does, in any order, anything else about its
    replicas that is admitted.  A replica whose state is the one after the commands
    [before] and that is sent the stream from the end of these on, then gets to the state
    after more commands of the master, in their order, each run once, however the stream is
    cut into pieces; its offset is the one of the master less what it has not been sent,
    and when there is nothing it has not been sent its state is the one after all the
    commands.  Bounds: the offset of the master stays below 2^63, the part of the stream
    after [before] is at most [INT_MAX] bytes (2 GB), and the commands in it have one
    argument at least and none that is too long. *)
Theorem replicas_converge {R : Type} `{HR : Rax R} `{!RaxLaws R} (zmalloc_usable : Z -> Z) (dbnum : Z) (st0 st1 : server R) evs
    {X : Type} `{HX : Server X} (run : X -> list mem -> X) (m : Z) `{HW : !Willing X run m}
    (lookahead max max_querybuf : Z) pool capacity x before after :
  (forall n, n <= zmalloc_usable n) -> dbnum <= INT_MAX -> blank st0 -> createReplicationBacklog st0 = Some st1 ->
  legal_history zmalloc_usable dbnum evs st1 -> commands zmalloc_usable dbnum evs st1 = before ++ after ->
  master_repl_offset st0 + msize (stream (before ++ after)) + 1 < 2 ^ 63 ->
  0 < lookahead -> 0 <= max <= INT_MAX -> Forall (fun n => 0 <= n <= INT_MAX) pool ->
  Forall (runs max) after -> msize (stream after) <= INT_MAX ->
  exists st, history zmalloc_usable dbnum evs st1 = Some st /\
    forall i c chunks, slaves st !! i = Some c -> canFeedReplicaReplBuffer c = true ->
      first_offset c = master_repl_offset st0 + msize (stream before) + 1 -> concat chunks = sent c ->
      exists cl l r,
        feed lookahead max max_querybuf chunks (replicationCreateMasterClient (first_offset c - 1) pool capacity) (foldl run x before) =
          Some (true, cl, foldl run x (before ++ l)) /\
        before ++ after = (before ++ l) ++ r /\
        read_reploff cl = master_repl_offset st - msize (unsent c st) /\
        (unsent c st = [] -> foldl run x (before ++ l) = foldl run x (commands zmalloc_usable dbnum evs st1) /\
           read_reploff cl = master_repl_offset st).
Proof.
  intros Hu Hdb Hb Hc Hl Ec Hm Hla Hmax Hpool Hruns Hsize. pose proof (bk_offset _ Hb) as H0. apply create_ok in Hc; [|done].
  destruct (ensures_Some _ _ (history_ok zmalloc_usable Hu dbnum _ [] evs st1 Hc Hl Hdb ltac:(by rewrite Ec))) as (st & Eh & Hw).
  rewrite Ec in Hw. cbn [app] in Hw. exists st. split; [done|]. intros i c chunks Hi Hcf Hf Hch.
  pose proof (replica_stream _ st i c before after Hw Hi Hcf Hf) as Es. rewrite <- Hch in Es.
  rewrite stream_app, msize_app in Hm. pose proof (msize_nonneg (stream before)).
  destruct (master_reads run m lookahead max max_querybuf (first_offset c - 1) pool capacity after (stream after) chunks
    (unsent c st) (foldl run x before)) as (cl & l & r & Ef & Ea & Hr & _ & _ & Hro & _); try done; [|lia|].
  { rewrite (write_all_spec max); [done|lia|done]. }
  pose proof (co_master _ _ _ (wa_core _ _ _ _ Hw)) as Hmo. rewrite stream_app, msize_app in Hmo.
  assert (read_reploff cl = master_repl_offset st - msize (unsent c st)) as Hro'.
  { rewrite Hro, Hmo, <- Es, msize_app. lia. }
  exists cl, l, r. rewrite foldl_app. split; [done|]. split; [by rewrite Ea, app_assoc|]. split; [done|].
  intros E. rewrite E in Hro'. change (msize []) with 0 in Hro'. split; [|lia].
  rewrite Ec, Ea, (Hr E), app_nil_r. by rewrite foldl_app.
Qed.

(** ** At a concrete history *)

(** A command, then a snapshot for a new replica, two more commands while it is written and
    sent, and one that is not sent to its end. *)
Definition published : list event :=
  [propagates never 0 [Rdb.OStr [80]];
   does (syncs (Some ([63], -1)) [50] false true new_replica); does (saves 0 true (fun _ => true));
   propagates never 0 [Rdb.OStr [77]]; propagates never 3 [Rdb.OStr [73]; Rdb.OInt (-12)];
   does (puts_online 0); does (starts_stream 0); does (writes 0 [40; 20; 100]);
   propagates never 3 [Rdb.OStr [69]]; does (writes 0 [5])].

Definition published_before : list (list mem) := [[SELECT; [48]]; [[80]]].
Definition published_after : list (list mem) := [[SELECT; [48]]; [[77]]; [SELECT; [51]]; [[73]; [45; 49; 50]]; [[69]]].

Definition published_server : server index := Eval vm_compute in
  default (created 0) (history (fun n => n) 16 published (created 1048576)).

Example published_reached : history (fun n => n) 16 published (created 1048576) = Some published_server.
Proof. vm_compute. reflexivity. Qed.

(** The replica was sent all but six bytes. *)
Example published_sent : (fun c => (first_offset c, msize (sent c), msize (unsent c published_server))) <$> slaves published_server = [(35, 82, 6)] /\
  master_repl_offset published_server = 122.
Proof. by vm_compute. Qed.

Ltac legal_history_step :=
  cbn [legal_history]; split;
  [| match goal with |- match ?e with _ => _ end => let v := eval vm_compute in e in change e with v; cbv iota beta end].

Lemma published_legal : legal_history (fun n => n) 16 published (created 1048576).
Proof.
  unfold published.
  legal_history_step; [split_and!; [by apply roomy_default|lia|lia|by repeat constructor|by vm_compute]|].
  legal_history_step; [split; [done|by vm_compute]|]. legal_history_step; [done|].
  legal_history_step; [split_and!; [by apply roomy_default|lia|lia|by repeat constructor|by vm_compute]|].
  legal_history_step; [split_and!; [by apply roomy_default|lia|lia|constructor; [by vm_compute|constructor; [by split|constructor]]|by vm_compute]|].
  legal_history_step; [by eexists|]. legal_history_step; [by eexists|]. legal_history_step; [by eexists|].
  legal_history_step; [split_and!; [by apply roomy_default|lia|lia|by repeat constructor|by vm_compute]|].
  legal_history_step; [by eexists|]. done.
Qed.

Lemma replicas_converge_witness : exists st, history (fun n => n) 16 published (created 1048576) = Some st /\
    forall i c chunks, slaves st !! i = Some c -> canFeedReplicaReplBuffer c = true ->
      first_offset c = 0 + msize (stream published_before) + 1 -> concat chunks = sent c ->
      exists cl l r,
        feed 16 512 1024 chunks (replicationCreateMasterClient (first_offset c - 1) [] 16) (foldl transact (false, []) published_before) =
          Some (true, cl, foldl transact (false, []) (published_before ++ l)) /\
        published_before ++ published_after = (published_before ++ l) ++ r /\
        read_reploff cl = master_repl_offset st - msize (unsent c st) /\
        (unsent c st = [] -> foldl transact (false, []) (published_before ++ l) =
           foldl transact (false, []) (commands (fun n => n) 16 published (created 1048576)) /\
           read_reploff cl = master_repl_offset st).
Proof.
  apply (replicas_converge (fun n => n) 16 (at_start 1048576) (created 1048576) published transact 0 16 512 1024 [] 16
    (false, []) published_before published_after).
  - intros n. lia.
  - by vm_compute.
  - apply at_start_blank.
  - reflexivity.
  - exact published_legal.
  - vm_compute. reflexivity.
  - by vm_compute.
  - lia.
  - by vm_compute.
  - constructor.
  - repeat (constructor; [constructor; [done|by vm_compute|repeat (constructor; [by vm_compute|]); constructor]|]); constructor.
  - by vm_compute.
Defined.

End Replication.
